(* ===== verification/_CoqProject ===== *)
-Q . S2P
Prelude.v
Csn.v
Queues.v
SharedPool.v
Timer.v
IntrusiveList.v
Float64.v
TimingWheel.v
Cc.v
Pcb.v
SharedIo.v
Eqds.v
Flow.v
Receiver.v
ReceiverSpec.v
Sender.v
SenderSpec.v
SenderInv.v
Retransmit.v
ChunkLoop.v
OneSided.v
Contexts.v
SenderExamples.v
Engine.v
EnginePaths.v
ChunkGraph.v
Lower.v
LowerSpec.v
Collective.v
RingPlan.v
RingSpec.v
AllReduce.v
AllToAll.v
Jring.v
JringSpec.v
JringLive.v
Executor.v
PlanSpec.v
ExecutorSpec.v
ExecutorRuns.v
Cluster.v
Endpoint.v
EndpointSpec.v
EndpointLive.v
EndpointRuns.v
EndpointOps.v
EpRing.v
EpRingSpec.v
EpProxy.v
EpProxySpec.v
EpProxyRuns.v
SeqNum.v
SeqNumSpec.v
Lrpc.v
LrpcSpec.v
Wire.v
Transfer.v
TransferRuns.v
