(* ===== verification/Prelude.v ===== *)
(** * UCCL: a verification of the transport and the collectives

    UCCL moves messages between GPUs.  Its centre is the RDMA transport
    ([collective/rdma]): an application posts sends and receives on a flow; an
    engine thread cuts every message into chunks, sends them over many queue
    pairs under a congestion control, and reassembles, acknowledges and
    retransmits them with its own sequence numbers, since the queue pairs may be
    unreliable and deliver out of order.  This library models that transport, the
    data structures below it ([include/util], [collective/rdma/util_*.h]) and the
    congestion controls beside it ([include/cc]) as executable definitions, and
    proves them correct.  It does the same for the collectives of the micro-kernel
    runtime ([experimental/ukernel/src/ccl]): a planner turns an all-reduce or an
    all-to-all into a graph of operations per rank, which a second pass cuts into
    tiles and an executor runs on GPUs and the network.  And for the places where
    other parts of the repository meet: the requests of an application and the
    FIFO through which a receiver advertises its buffers (also in
    [collective/rdma]), the ring on which GPU threads hand commands to a CPU proxy
    ([ep]), the packet trackers of the point-to-point engine ([p2p/util]) and the
    message channels of [lrpc.h].

    ** Conventions

    An unsigned [w]-bit integer is a [Z] and every operation that may leave its
    range is written with [wrap]; [x +[w] y] and [x -[w] y] are the wrapping
    operations.  A [double] is a binary64 number of the Standard Library's IEEE
    specification ([Float64.v]).  A function that may abort in a check
    ([UCCL_CHECK], [UCCL_DCHECK]) or leave an array returns a [result], whose
    failures are [CheckFailed] and [OutOfBounds].  State is passed explicitly, in
    records with the members of the C++ classes; pointers to requests, work
    requests and flows are keys of finite maps, so that sharing is modelled as it
    is.  The clock, hardware time stamps, random numbers and completions are
    arguments.  Debug checks are taken to be on.

    ** The parts and their files

    - [Prelude.v]: machine integers, arrays, the error monad, tactics and hints.
    - [Csn.v]: the 8-bit chunk sequence numbers of [util.h] ([Csn]) and the 32-bit
      immediate data of a chunk ([Imm], [IMMData] of [transport.h]).  The wrapped
      comparisons are those of unbounded positions within half of the space
      ([csn_window]); what the sender packs the receiver unpacks ([imm_roundtrip]).
    - [Queues.v]: the ring [CircularBuffer] ([Cb]) implements the interface of a
      bounded double-ended queue ([DequeOps], [DequeLaws]); [BuffPool] implements
      the interface of a pool of buffers ([PoolOps], [PoolLaws]).  Later files use
      the interfaces only.
    - [SharedPool.v]: a pool with per-thread caches; any interleaving of its
      threads conserves the items.
    - [Timer.v]: the heap and index map of [TimerManager] implement a finite map
      from flows to deadlines.
    - [IntrusiveList.v]: the pointer operations of [list.h] implement sequences,
      which is why the lists of later files are sequences.
    - [Float64.v], [Cc.v]: Swift, Timely, their wrapper and the detection of the
      link bandwidth; bounds on windows and rates, and on RTT samples.
    - [TimingWheel.v]: the pacing wheel; entries become due neither early nor more
      than a slot late, and those of a flow leave in order.
    - [Pcb.v], [SharedIo.v], [Flow.v]: the protocol control block with its SACK
      bitmap, the pools and work requests that the contexts of an engine share, and
      the state of a sub-flow with the hooks of the congestion controls as classes
      ([RxHooks], [TxHooks] with [TxLaws], [Pacer]).
    - [Eqds.v]: the credits of EQDS, the receiver-driven congestion control, and
      its pacer.
    - [Receiver.v]: every handler of the receive path; [ReceiverSpec.v]: a
      receiver in which chunks arrive in any order, lost, repeated and
      interleaved with other flows and with the supply of buffers, delivers the
      messages of the flow in order ([receiver_delivers]) and never fails a check
      ([receiver_never_fails]).
    - [Sender.v]: every handler of the send path; [SenderSpec.v]: a message is
      posted as contiguous chunks ([tx_message_partitions]); [SenderInv.v]: the
      sender implements windows of unacknowledged chunks ([sender_refines],
      [acks_release_prefix]); [Retransmit.v]: exactly the holes of the SACK bitmap
      are resent; [ChunkLoop.v], [OneSided.v]: the loop that the other send paths
      share, and one-sided reads and writes.
    - [Contexts.v]: the Timely, Swift and EQDS contexts as instances of the hooks,
      with their laws, and the send path of EQDS; [SenderExamples.v] has the
      concrete contexts on which the premises hold.
    - [Wire.v]: what the sender posts, in terms of the history of a flow;
      [Transfer.v]: sender, receiver and a network that loses and reorders between
      them deliver every message once and whole ([transfer_reliable]) and never
      fail a check on arrival ([transfer_never_fails]); [TransferRuns.v]: its
      steps as a function, and a run with a loss.
    - [Engine.v]: an iteration of the engine loop over an interface of what
      contexts do ([EngineOps], [RxLaws]): works are neither lost nor reordered
      within a flow, and flows are installed as soon as their peer has a context;
      [EnginePaths.v] is the instance with the receive and send paths.
    - [ChunkGraph.v]: the planner of the collectives ([chunk_graph.cc]) and a closed
      form of the graph of an all-reduce; [Lower.v]: the pass that cuts it into
      tiles ([lower.cc]); [LowerSpec.v]: the closed form of its result.
    - [Collective.v]: the runs of the tiled plans of all ranks, in any order that
      dependencies and signals allow; [RingPlan.v], [RingSpec.v]: the operations of
      an all-reduce by their role in the ring, and the invariant of its runs;
      [AllReduce.v]: every run of an all-reduce ends, after all operations, with
      the reduction of all inputs on every rank ([allreduce_correct],
      [allreduce_terminates], [allreduce_order]).
    - [AllToAll.v]: the exchanges of an all-to-all are numbered differently at their
      two ends, and three ranks deadlock.
    - [Jring.v]: the lock-free ring of [jring.h], every access to a shared counter
      and every copied word a step of its thread; [JringSpec.v], [JringLive.v]: it
      is a bounded queue ([jring_linearizable]), its calls return
      ([jring_calls_return]) and its unrolled copies are right ([jring_copies]).
    - [Executor.v]: plans, paths and the scheduler of [executor.cc], the enqueue
      thread, the drain threads and waiting callers interleaving at their atomic
      accesses; [PlanSpec.v]: successors and the cache of plans; [ExecutorSpec.v]:
      operations start once and in order ([schedule_correct]), runs end
      ([schedule_terminates]) and the ready ring has room ([ready_ring_fits]);
      [ExecutorRuns.v]: complete runs, and one that is released too early
      ([release_races_drain]).
    - [Cluster.v]: the executors of all ranks with backends that carry commands out
      on the memory of [Collective.v]: they refine the runs described there
      ([cluster_refines]), and an all-reduce ends with the right result on all
      ranks ([cluster_allreduce]).
    - [Endpoint.v]: the calls of an application on a flow ([uccl_send_async],
      [uccl_recv_async] and the others of [RDMAEndpoint]), the choice of engines
      and the FIFO of advertised buffers; [EndpointSpec.v]: both sides, their
      engines and the network in any interleaving match messages and buffers in
      order ([rendezvous_matches]); [EndpointLive.v]: no buffer is lost
      ([rendezvous_progress]); [EndpointRuns.v]: unless an item arrives in the
      middle of a send ([rendezvous_lost]); [EndpointOps.v]: items as bytes
      ([fifo_item_roundtrip]), the policies, polling and flushing.
    - [EpRing.v]: the commands and the ring of [ring_buffer.cuh] with its mask of
      acknowledged slots; [EpRingSpec.v]: the word-at-a-time routines against sets
      of slots ([tail_advances]); [EpProxy.v]: GPU threads that take slots by
      compare-and-swap, the proxy that posts what they write ([proxy.cpp]) and the
      network that completes it; [EpProxySpec.v]: commands are posted once, in
      order and whole ([commands_posted_once]), and slots come back
      ([slots_come_back]); [EpProxyRuns.v]: except that a ring acknowledged as a
      whole at slot 0 never does ([ring_wedges]).
    - [SeqNum.v], [SeqNumSpec.v]: the trackers of [seq_num.cc] against a list of
      packets ([tracker_refines]), and what they do beyond their window.
    - [Lrpc.v], [LrpcSpec.v]: a message channel is a bounded queue, whatever the
      interleaving of its two sides ([lrpc_linearizable]).

    ** How the parts fit

    The sender's chunks carry the immediate data of [Csn.v]; [ReceiverSpec.v]
    assumes of an arriving chunk its flow, request, position modulo 256 and
    last-chunk flag, and [SenderInv.v] of an acknowledgement that it is truthful.
    [Transfer.v] discharges both: the packets under way are transmissions of chunks
    of the history that [Wire.v] keeps, and the headers are those the receiver
    crafts.  What remains is asked of the network, that it keeps the order of each
    queue pair and delivers packets and headers within half of the sequence space,
    and of the sender that no more than 127 chunks are tracked, that they are not
    held back in the wheel, and that the congestion control lets retransmissions
    pass; and headers are taken to be sent at any time.  The in-flight window of 128 chunks of the receiver is half of the sequence space,
    as [csn_window] demands.  The executor uses the ready ring as the queue that
    [JringLive.v] shows it to be, with the room that [ready_ring_fits] shows; what
    [schedule_correct] says of one rank makes the executions of [Cluster.v] runs of
    [Collective.v], so that [RingSpec.v] gives their result.  The request that
    [rendezvous_matches] says is posted, with the address, key and request id of its
    buffer, is the one [SenderSpec.v] cuts into chunks; the step of
    [EndpointSpec.v] in which an engine supplies a buffer is [supply_rx_buff] of
    [Receiver.v], as far as the FIFO sees it.  [EpProxySpec.v] follows the
    tail of a ring with [advance_spec] of [EpRingSpec.v].

    ** Fuel

    Loops that are not structural recurse on a number that bounds their
    iterations: the rest of a message in bytes ([tx_loop]: each iteration but that
    of an empty message sends at least a byte), the size of the heap, of a list or
    of the bitmap (128), or the items of a cache.  The theorems about these loops
    show the result of the whole loop, so that running out of fuel would falsify
    them; where a loop of the code does not end, the theorem says so for every
    fuel ([idle_senders_spin]).  [slide] of [SeqNum.v] has a round for each number
    between base and next and one more for a failed exchange, after which the slot
    is clear and the loop ends.

    ** Not modelled

    Calls into libibverbs, the GPU runtime and sockets are inputs and outputs of
    the handlers: posting succeeds, completions arrive as arguments.  The threads
    that set connections up, the endpoint's tables of peers and the NCCL plugins
    are I/O around these handlers.  Memory is sequentially consistent: the orders
    given to atomic accesses are not modelled.  Latency statistics and logging are
    left out.  The EFA, AF_XDP and DPDK transports, the rest of the point-to-point
    engine and of the expert-parallel library, and the transport of the micro-kernel
    runtime are separate programs of the repository; GPU kernels are outside the
    reach of this library.  [Endpoint.v] leaves out [rc_read], which no call uses;
    [EpProxy.v] has one ring and the commands up to their posting, and neither the
    FIFO backend nor the ring's bulk operations; [SeqNum.v] takes calls one at a
    time; [Lrpc.v] has one direction of an [LRPC].  Of a collective, the backends are what
    the executor asks of them: a command takes effect at once, some time after it
    was accepted, and succeeds, and a tag arrives once.  [Executor.v] has one run at
    a time and leaves the registration of buffers and peers and the slot tables
    out; [Cluster.v] leaves out the channels that carry a signal with a put. *)

From Stdlib Require Export ZArith Lia.
From stdpp Require Export base gmap list fin_maps strings numbers sorting relations.
From stdpp Require Import options.

(** ** Machine integers

    An unsigned [w]-bit integer of the C++ code is a [Z] in [0, 2^w); every
    operation that can leave that range is written with an explicit [wrap].
    A cast to a signed type is [signed]. *)

Open Scope Z_scope.

Definition wrap (w x : Z) : Z := x mod 2 ^ w.

Definition signed (w x : Z) : Z :=
  if wrap w x <? 2 ^ (w - 1) then wrap w x else wrap w x - 2 ^ w.

Declare Scope word_scope.
Delimit Scope word_scope with word.
Notation "x +[ w ] y" := (wrap w (x + y))
  (at level 50, w at level 0, left associativity) : word_scope.
Notation "x -[ w ] y" := (wrap w (x - y))
  (at level 50, w at level 0, left associativity) : word_scope.
Open Scope word_scope.

(** The range of an unsigned [w]-bit integer. *)
Definition in_word (w x : Z) : Prop := 0 <= x < 2 ^ w.

#[global] Instance in_word_dec w x : Decision (in_word w x).
Proof. unfold in_word. apply _. Defined.

Ltac pow2s :=
  repeat match goal with
  | |- context [2 ^ ?k] => let v := eval vm_compute in (2 ^ k) in
      lazymatch v with Z.pos _ => change (2 ^ k) with v end
  | H : context [2 ^ ?k] |- _ => let v := eval vm_compute in (2 ^ k) in
      lazymatch v with Z.pos _ => change (2 ^ k) with v in H end
  end.

(** Linear arithmetic over words of a constant width. *)
Ltac word_lia :=
  unfold in_word, signed, wrap in *; pow2s;
  repeat match goal with
  | |- context [if ?b then _ else _] =>
      let E := fresh "E" in destruct b eqn:E
  | H : context [if ?b then _ else _] |- _ =>
      let E := fresh "E" in destruct b eqn:E
  end;
  Z.to_euclidean_division_equations; lia.

(** Case analysis on the integer comparisons of the goal. *)
Ltac z_cases :=
  repeat match goal with
  | |- context [?a <? ?b] => destruct (Z.ltb_spec a b)
  | |- context [?a <=? ?b] => destruct (Z.leb_spec a b)
  | |- context [?a =? ?b] => destruct (Z.eqb_spec a b)
  end.

Create HintDb word.
Create Rewrite HintDb word.

Lemma pow2_pos k : 0 <= k -> 0 < 2 ^ k.
Proof. intros. by apply Z.pow_pos_nonneg. Qed.

Lemma wrap_range w x : 0 <= w -> in_word w (wrap w x).
Proof. intros. by apply Z.mod_pos_bound, pow2_pos. Qed.

Lemma wrap_id w x : in_word w x -> wrap w x = x.
Proof. apply Z.mod_small. Qed.

Lemma wrap_wrap w x : wrap w (wrap w x) = wrap w x.
Proof. unfold wrap. apply Zmod_mod. Qed.

Lemma wrap_add_l w x y : wrap w (wrap w x + y) = wrap w (x + y).
Proof. apply Zplus_mod_idemp_l. Qed.

Lemma wrap_add_r w x y : wrap w (x + wrap w y) = wrap w (x + y).
Proof. apply Zplus_mod_idemp_r. Qed.

Lemma wrap_sub_l w x y : wrap w (wrap w x - y) = wrap w (x - y).
Proof. apply Zminus_mod_idemp_l. Qed.

Lemma wrap_sub_r w x y : wrap w (x - wrap w y) = wrap w (x - y).
Proof. apply Zminus_mod_idemp_r. Qed.

#[export] Hint Rewrite wrap_wrap wrap_add_l wrap_add_r wrap_sub_l wrap_sub_r : word.
#[export] Hint Resolve wrap_range wrap_id : word.

(** A mask with a power of two minus one is the remainder. *)
Lemma land_mask x k : 0 <= k -> Z.land x (2 ^ k - 1) = x mod 2 ^ k.
Proof. intros. rewrite <- Z.land_ones, Z.ones_equiv by done. f_equal. Qed.

Lemma wrap_mod_pow2 w k x : 0 <= k <= w -> wrap w x mod 2 ^ k = x mod 2 ^ k.
Proof.
  intros Hk. unfold wrap. apply Z.mod_mod_divide. exists (2 ^ (w - k)).
  rewrite <- Z.pow_add_r by lia. f_equal. lia.
Qed.

(** ** Outcomes

    [UCCL_CHECK] and out-of-range accesses end the process: a computation
    that may meet one returns a [result]. *)

Inductive fault :=
| CheckFailed
| OutOfBounds.

Inductive result (A : Type) :=
| Done (a : A)
| Fail (e : fault).
Arguments Done {A} _.
Arguments Fail {A} _.

#[export] Instance result_ret : MRet result := fun _ a => Done a.
#[export] Instance result_bind : MBind result := fun _ _ f m =>
  match m with Done a => f a | Fail e => Fail e end.

(** A bind that succeeds: both halves do. *)
Lemma bind_done {A B} (m : result A) (k : A -> result B) b :
  (m ≫= k) = Done b <-> exists a, m = Done a /\ k a = Done b.
Proof.
  split; [|by intros (a & -> & E)]. destruct m as [a|e]; [|done]. intros E. by exists a.
Qed.

(** [UCCL_CHECK(b)]. *)
Definition check (b : bool) : result unit := if b then Done tt else Fail CheckFailed.

#[export] Instance fault_eq_dec : EqDecision fault.
Proof. solve_decision. Defined.

(** ** Arrays indexed by machine integers *)

Definition aget {A} (l : list A) (i : Z) : option A := l !! Z.to_nat i.
Definition aset {A} (l : list A) (i : Z) (x : A) : list A := <[Z.to_nat i := x]> l.
Definition alen {A} (l : list A) : Z := Z.of_nat (length l).

Section arrays.
Context {A : Type}.
Implicit Types (l : list A) (i j : Z) (x : A).

Lemma alen_aset l i x : alen (aset l i x) = alen l.
Proof. unfold alen, aset. by rewrite length_insert. Qed.

Lemma alen_nonneg l : 0 <= alen l.
Proof. unfold alen. lia. Qed.

Lemma aget_aset_eq l i x : 0 <= i < alen l -> aget (aset l i x) i = Some x.
Proof. unfold aget, aset, alen. intros. apply list_lookup_insert_eq. lia. Qed.

Lemma aget_aset_ne l i j x :
  0 <= i -> 0 <= j -> i <> j -> aget (aset l i x) j = aget l j.
Proof. unfold aget, aset. intros. apply list_lookup_insert_ne. lia. Qed.

Lemma aget_is_Some l i : 0 <= i < alen l -> is_Some (aget l i).
Proof. unfold aget, alen. intros. apply lookup_lt_is_Some. lia. Qed.

Lemma aget_Some_lt l i x : 0 <= i -> aget l i = Some x -> i < alen l.
Proof. unfold aget, alen. intros ? H%lookup_lt_Some. lia. Qed.

Lemma aget_app_l l k i : 0 <= i < alen l -> aget (l ++ k) i = aget l i.
Proof. unfold aget, alen. intros. apply lookup_app_l. lia. Qed.

Lemma aget_app_r l k i :
  alen l <= i -> aget (l ++ k) i = aget k (i - alen l).
Proof.
  unfold aget, alen. intros. rewrite lookup_app_r by lia. f_equal. lia.
Qed.

Lemma alen_app l k : alen (l ++ k) = alen l + alen k.
Proof. unfold alen. rewrite length_app. lia. Qed.

Lemma alen_nil : alen (@nil A) = 0.
Proof. done. Qed.

Lemma alen_cons x l : alen (x :: l) = alen l + 1.
Proof. unfold alen. simpl. lia. Qed.

Lemma aget_cons_S x l i : 0 <= i -> aget (x :: l) (i + 1) = aget l i.
Proof.
  unfold aget. intros. by replace (Z.to_nat (i + 1)) with (S (Z.to_nat i)) by lia.
Qed.

Lemma aget_ext l k :
  alen l = alen k -> (forall i, 0 <= i < alen l -> aget l i = aget k i) -> l = k.
Proof.
  unfold alen, aget. intros Hlen H. apply list_eq. intros n.
  destruct (decide (n < length l)%nat).
  - specialize (H (Z.of_nat n) ltac:(lia)). by rewrite Nat2Z.id in H.
  - rewrite !(proj2 (lookup_ge_None _ _)) by lia. done.
Qed.
End arrays.

Create Rewrite HintDb arr.
#[export] Hint Rewrite @alen_aset @alen_app @alen_nil @alen_cons : arr.

(** ** Slices *)

Definition slice {A} (l : list A) (a b : Z) : list A := take (Z.to_nat (b - a)) (drop (Z.to_nat a) l).

Section slices.
Context {A : Type}.
Implicit Types (l obj : list A) (a b c : Z).

Lemma slice_len l a b : 0 <= a <= b -> b <= alen l -> alen (slice l a b) = b - a.
Proof. unfold slice, alen. rewrite length_take, length_drop. lia. Qed.

Lemma slice_get l a b i : 0 <= a -> 0 <= i < b - a -> aget (slice l a b) i = aget l (a + i).
Proof. intros. unfold slice, aget. rewrite lookup_take_lt, lookup_drop by lia. f_equal. lia. Qed.

Lemma slice_app l a b c : 0 <= a <= b -> b <= c -> slice l a b ++ slice l b c = slice l a c.
Proof.
  intros. unfold slice. replace (Z.to_nat (c - a)) with (Z.to_nat (b - a) + Z.to_nat (c - b))%nat by lia.
  rewrite <- take_take_drop. rewrite drop_drop. do 3 f_equal. lia.
Qed.

Lemma slice_extend l l' a b : 0 <= a -> b <= alen l -> slice (l ++ l') a b = slice l a b.
Proof.
  intros Ha Hb. unfold slice, alen in *. destruct (decide (a <= b)).
  - rewrite drop_app_le, take_app_le by (rewrite ?length_drop; lia). done.
  - by replace (Z.to_nat (b - a)) with 0%nat by lia.
Qed.

Lemma alen_take (l : list A) n : 0 <= n <= alen l -> alen (take (Z.to_nat n) l) = n.
Proof. unfold alen. rewrite length_take. lia. Qed.

(** A table whose first words are a piece of a list. *)
Lemma take_slice obj l a n : 0 <= a -> 0 <= n <= alen obj -> a + n <= alen l ->
  (forall k, 0 <= k < n -> aget obj k = aget l (a + k)) -> take (Z.to_nat n) obj = slice l a (a + n).
Proof.
  intros Ha Hn Hl H. apply aget_ext.
  - rewrite slice_len by lia. unfold alen in *. rewrite length_take. lia.
  - intros i Hi. assert (0 <= i < n) by (unfold alen in Hi, Hn; rewrite length_take in Hi; lia).
    rewrite slice_get by lia. rewrite <- H by done. unfold aget. apply lookup_take_lt. lia.
Qed.
End slices.

(** ** Ranges *)

Lemma seqZ_snoc n : 0 <= n -> seqZ 0 (n + 1) = seqZ 0 n ++ [n].
Proof.
  intros. rewrite (seqZ_app 0 n 1) by lia. done.
Qed.

Lemma seqZ_sorted n k : StronglySorted Z.lt (seqZ n k).
Proof.
  destruct (Z.le_gt_cases k 0) as [Hk|Hk]; [by rewrite seqZ_nil by lia; constructor|].
  revert n. pattern k. apply natlike_ind; [constructor| |lia]. intros m Hm IH n.
  rewrite seqZ_cons, Z.pred_succ by lia. constructor; [done|]. apply Forall_forall. intros x Hx%elem_of_seqZ. lia.
Qed.

(** ** A list with one more element *)

Lemma aget_snoc {A} (l : list A) x m :
  0 <= m -> aget (l ++ [x]) m = if m =? alen l then Some x else aget l m.
Proof.
  intros. destruct (Z.eqb_spec m (alen l)) as [->|].
  - rewrite aget_app_r by lia. by rewrite Z.sub_diag.
  - destruct (Z.lt_ge_cases m (alen l)); [by rewrite aget_app_l|].
    rewrite aget_app_r by lia. unfold aget. rewrite !lookup_ge_None_2; [done| |].
    + unfold alen in *. lia.
    + simpl. lia.
Qed.

Lemma aget_snoc_inv {A} (l : list A) x k v : 0 <= k -> aget (l ++ [x]) k = Some v ->
  (k < alen l /\ aget l k = Some v) \/ (k = alen l /\ v = x).
Proof.
  intros Hk H. destruct (decide (k < alen l)).
  - left. by rewrite aget_app_l in H by lia.
  - right. pose proof (aget_Some_lt _ _ _ Hk H) as Hl. autorewrite with arr in Hl. cbn in Hl.
    assert (k = alen l) as -> by lia. rewrite aget_app_r, Z.sub_diag in H by lia. by injection H as <-.
Qed.

(** ** Reachability *)

Lemma rtc_invariant {A} (R : relation A) (P : A -> Prop) x y :
  (forall a b, R a b -> P a -> P b) -> rtc R x y -> P x -> P y.
Proof. intros HR Hr. induction Hr; eauto. Qed.

(** ** Permutations *)

Lemma concat_insert {A} (ls : list (list A)) i l l' :
  ls !! i = Some l -> concat (<[i := l']> ls) ++ l ≡ₚ concat ls ++ l'.
Proof.
  revert i. induction ls as [|k ls IH]; intros [|i] Hi; simpl in *; simplify_eq.
  - rewrite (Permutation_app_comm (l' ++ _) l), (Permutation_app_comm l' (concat ls)).
    by rewrite app_assoc.
  - rewrite <- !app_assoc. by rewrite IH.
Qed.
