(* ===== verification/Csn.v ===== *)
(** * Chunk sequence numbers and the 32-bit immediate of a data chunk

    [include/util/util.h] defines [UINT_CSN], an 8-bit sequence number that
    wraps, and the [seqno_*] comparisons on it; [collective/rdma/transport.h]
    packs one into the RDMA immediate ([IMMData], [IMMDataEQDS]).

    The specification of a sequence number is the unbounded position of the
    chunk in its flow.  [csn_window] says when the 8-bit comparisons agree with
    the comparison of positions; every later use of the wrapped numbers goes
    through it. *)

From S2P Require Import Prelude.
From stdpp Require Import options.

(** ** UINT_CSN *)

Module Csn.

Definition UINT_CSN_BIT : Z := 8.
Definition UINT_CSN_MASK : Z := Z.shiftl 1 UINT_CSN_BIT - 1.

Definition seqno_lt (a b : Z) : bool := signed 8 (a - b) <? 0.
Definition seqno_le (a b : Z) : bool := signed 8 (a - b) <=? 0.
Definition seqno_eq (a b : Z) : bool := signed 8 (a - b) =? 0.
Definition seqno_ge (a b : Z) : bool := 0 <=? signed 8 (a - b).
Definition seqno_gt (a b : Z) : bool := 0 <? signed 8 (a - b).

(** [UINT_CSN(uint32_t value)]: masked, then stored in a [uint8_t]. *)
Definition of_uint32 (value : Z) : Z := wrap 8 (Z.land value UINT_CSN_MASK).

Definition add (a b : Z) : Z := of_uint32 (a + b).
Definition sub (a b : Z) : Z := of_uint32 (wrap 32 (a - b)).

(** [operator+=] and [operator-=] work on the [uint8_t] in place. *)
Definition add_assign (a b : Z) : Z := Z.land (a +[8] b) UINT_CSN_MASK.
Definition sub_assign (a b : Z) : Z := Z.land (a -[8] b) UINT_CSN_MASK.

(** The wrapped number of the chunk at position [n] of a flow. *)
Definition csn (n : Z) : Z := n mod 256.

Lemma land_mask8 x : Z.land x UINT_CSN_MASK = x mod 256.
Proof. change UINT_CSN_MASK with (2 ^ 8 - 1). by rewrite land_mask. Qed.

Lemma of_uint32_csn x : of_uint32 x = csn x.
Proof. unfold of_uint32, csn. rewrite land_mask8. word_lia. Qed.

Lemma add_csn n m : add (csn n) m = csn (n + m).
Proof. unfold add. rewrite of_uint32_csn. unfold csn. word_lia. Qed.

Lemma sub_csn n m : sub (csn n) (csn m) = csn (n - m).
Proof. unfold sub. rewrite of_uint32_csn. unfold csn. word_lia. Qed.

Lemma add_assign_csn n m : add_assign (csn n) m = csn (n + m).
Proof. unfold add_assign. rewrite land_mask8. unfold csn. word_lia. Qed.

Lemma sub_assign_csn n m : sub_assign (csn n) m = csn (n - m).
Proof. unfold sub_assign. rewrite land_mask8. unfold csn. word_lia. Qed.

Lemma csn_range n : 0 <= csn n < 256.
Proof. unfold csn. word_lia. Qed.

Lemma csn_small n : 0 <= n < 256 -> csn n = n.
Proof. unfold csn. word_lia. Qed.

Lemma csn_inj n m : -256 < n - m < 256 -> csn n = csn m -> n = m.
Proof. unfold csn. word_lia. Qed.

(** The distance [UINT_CSN(a) - b], read as a number, is the exact distance
    of the positions when that distance is representable. *)
Lemma sub_csn_exact n m : 0 <= n - m < 256 -> sub (csn n) (csn m) = n - m.
Proof. intros. by rewrite sub_csn, csn_small. Qed.

Lemma signed_csn n m : -128 <= n - m < 128 -> signed 8 (csn n - csn m) = n - m.
Proof. unfold csn. word_lia. Qed.

Lemma seqno_lt_csn n m : -128 <= n - m < 128 -> seqno_lt (csn n) (csn m) = (n <? m).
Proof. intros. unfold seqno_lt. rewrite signed_csn by done. lia. Qed.

Lemma seqno_gt_csn n m : -128 <= n - m < 128 -> seqno_gt (csn n) (csn m) = (m <? n).
Proof. intros. unfold seqno_gt. rewrite signed_csn by done. lia. Qed.

Lemma seqno_eq_csn n m : -128 <= n - m < 128 -> seqno_eq (csn n) (csn m) = (n =? m).
Proof. intros. unfold seqno_eq. rewrite signed_csn by done. lia. Qed.

(** As long as two chunk positions are less than half the 8-bit space
    apart, the wrapped comparisons and the wrapped distance of [UINT_CSN]
    decide exactly what the comparison of the unbounded positions decides. *)
Theorem csn_window n m :
  -128 <= n - m < 128 ->
  seqno_lt (of_uint32 n) (of_uint32 m) = (n <? m) /\
  seqno_le (of_uint32 n) (of_uint32 m) = (n <=? m) /\
  seqno_eq (of_uint32 n) (of_uint32 m) = (n =? m) /\
  seqno_ge (of_uint32 n) (of_uint32 m) = (m <=? n) /\
  seqno_gt (of_uint32 n) (of_uint32 m) = (m <? n) /\
  (m <= n -> sub (of_uint32 n) (of_uint32 m) = n - m).
Proof.
  intros. rewrite !of_uint32_csn.
  unfold seqno_lt, seqno_le, seqno_eq, seqno_ge, seqno_gt.
  rewrite signed_csn by done. repeat split; [lia..|].
  intros. apply sub_csn_exact. lia.
Qed.

(** The window straddles a wrap-around: position 260 against position 250. *)
Lemma csn_window_witness :
  seqno_lt (of_uint32 260) (of_uint32 250) = false /\
  sub (of_uint32 260) (of_uint32 250) = 10.
Proof.
  destruct (csn_window 260 250) as (H1 & _ & _ & _ & _ & H2); [lia|].
  split; [exact H1|]. apply H2. lia.
Defined.

(** Half the space is also the limit: 128 positions ahead reads as behind,
    and without the window [seqno_lt] is not even an order. *)
Lemma seqno_lt_half m : seqno_lt (csn (m + 128)) (csn m) = true.
Proof. unfold seqno_lt, csn. apply Z.ltb_lt. word_lia. Qed.

Example seqno_lt_cycle :
  seqno_lt 0 100 = true /\ seqno_lt 100 200 = true /\ seqno_lt 200 0 = true.
Proof. by vm_compute. Qed.

End Csn.

(** ** IMMData *)

Module Imm.

(** A [w]-bit field at bit [off] of a 32-bit word. *)
Definition get_field (off w x : Z) : Z := Z.land (Z.shiftr x off) (Z.ones w).
Definition or_field (off w x v : Z) : Z :=
  Z.lor x (wrap 32 (Z.shiftl (Z.land v (Z.ones w)) off)).

Definition kFID : Z := 0.
Definition kRID : Z := 11.
Definition kCSN : Z := 15.
Definition kRESERVED : Z := kCSN + Csn.UINT_CSN_BIT.
Definition kHINT : Z := kRESERVED + 8.
Definition kPULL_TARGET : Z := kRESERVED.

Definition GetHINT (imm : Z) : Z := Z.land (Z.shiftr imm kHINT) 0x1.
Definition GetRESERVED (imm : Z) : Z := Z.land (Z.shiftr imm kRESERVED) 0xFF.
Definition GetCSN (imm : Z) : Z := Z.land (Z.shiftr imm kCSN) Csn.UINT_CSN_MASK.
Definition GetRID (imm : Z) : Z := Z.land (Z.shiftr imm kRID) 0xF.
Definition GetFID (imm : Z) : Z := Z.land (Z.shiftr imm kFID) 0x7FF.
Definition GetTarget (imm : Z) : Z := Z.land (Z.shiftr imm kPULL_TARGET) 0xFF.

Definition SetHINT (imm hint : Z) : Z :=
  Z.lor imm (wrap 32 (Z.shiftl (Z.land hint 0x1) kHINT)).
Definition SetRESERVED (imm reserved : Z) : Z :=
  Z.lor imm (wrap 32 (Z.shiftl (Z.land reserved 0xFF) kRESERVED)).
Definition SetCSN (imm csn : Z) : Z :=
  Z.lor imm (wrap 32 (Z.shiftl (Z.land csn Csn.UINT_CSN_MASK) kCSN)).
Definition SetRID (imm rid : Z) : Z :=
  Z.lor imm (wrap 32 (Z.shiftl (Z.land rid 0xF) kRID)).
Definition SetFID (imm fid : Z) : Z :=
  Z.lor imm (wrap 32 (Z.shiftl (Z.land fid 0x7FF) kFID)).
Definition SetTarget (imm pull_target : Z) : Z :=
  Z.lor imm (wrap 32 (Z.shiftl (Z.land pull_target 0xFF) kPULL_TARGET)).

Lemma wrap_field off w v :
  0 <= off -> 0 <= w -> off + w <= 32 ->
  wrap 32 (Z.shiftl (Z.land v (Z.ones w)) off) = Z.shiftl (Z.land v (Z.ones w)) off.
Proof.
  intros. apply wrap_id. unfold in_word.
  rewrite Z.land_ones, Z.shiftl_mul_pow2 by done.
  pose proof (Z.mod_pos_bound v (2 ^ w) (pow2_pos w ltac:(done))).
  assert (2 ^ 32 = 2 ^ (32 - off - w) * (2 ^ w * 2 ^ off)) as ->.
  { rewrite <- !Z.pow_add_r by lia. f_equal. lia. }
  pose proof (pow2_pos (32 - off - w) ltac:(lia)).
  pose proof (pow2_pos off ltac:(done)).
  generalize dependent (v mod 2 ^ w). intros r Hr. split; [nia|].
  apply Z.lt_le_trans with (2 ^ w * 2 ^ off); nia.
Qed.

(** Reading the field that was just OR-ed in: old bits stay. *)
Lemma get_or_same off w x v :
  0 <= off -> 0 <= w -> off + w <= 32 ->
  get_field off w (or_field off w x v) = Z.lor (get_field off w x) (v mod 2 ^ w).
Proof.
  intros. unfold get_field, or_field. rewrite wrap_field by done.
  rewrite <- Z.land_ones by done. apply Z.bits_inj'. intros i Hi.
  rewrite !Z.land_spec, !Z.lor_spec, !Z.land_spec, !Z.shiftr_spec, Z.lor_spec by done.
  rewrite Z.shiftl_spec, Z.land_spec by lia.
  replace (i + off - off) with i by lia.
  destruct (Z.testbit x (i + off)), (Z.testbit v i), (Z.testbit (Z.ones w) i); done.
Qed.

(** A field that does not overlap the one written is unchanged. *)
Lemma get_or_other off w off' w' x v :
  0 <= off -> 0 <= w -> off + w <= 32 -> 0 <= off' -> 0 <= w' ->
  off' + w' <= off \/ off + w <= off' ->
  get_field off' w' (or_field off w x v) = get_field off' w' x.
Proof.
  intros. unfold get_field, or_field. rewrite wrap_field by done.
  apply Z.bits_inj'. intros i Hi.
  rewrite !Z.land_spec, !Z.shiftr_spec, Z.lor_spec by done.
  destruct (decide (i < w')) as [Hlt|].
  - rewrite Z.shiftl_spec, Z.land_spec by lia.
    destruct (decide (i + off' - off < 0)) as [Hneg|].
    + by rewrite (Z.testbit_neg_r v), orb_false_r by done.
    + rewrite (Z.testbit_ones_nonneg w) by lia.
      replace (i + off' - off <? w) with false by lia.
      by rewrite andb_false_r, orb_false_r.
  - rewrite (Z.testbit_ones_nonneg w') by lia.
    replace (i <? w') with false by lia. by rewrite !andb_false_r.
Qed.

Lemma get_zero off w : 0 <= off -> get_field off w 0 = 0.
Proof. intros. unfold get_field. by rewrite Z.shiftr_0_l. Qed.

(** Normalises reads of an immediate built by the setters. *)
Ltac imm_fields :=
  repeat match goal with
  | |- context [SetHINT ?i ?v] => change (SetHINT i v) with (or_field 31 1 i v)
  | |- context [SetTarget ?i ?v] => change (SetTarget i v) with (or_field 23 8 i v)
  | |- context [SetCSN ?i ?v] => change (SetCSN i v) with (or_field 15 8 i v)
  | |- context [SetRID ?i ?v] => change (SetRID i v) with (or_field 11 4 i v)
  | |- context [SetFID ?i ?v] => change (SetFID i v) with (or_field 0 11 i v)
  end;
  repeat match goal with
  | |- context [GetHINT ?i] => change (GetHINT i) with (get_field 31 1 i)
  | |- context [GetRESERVED ?i] => change (GetRESERVED i) with (get_field 23 8 i)
  | |- context [GetTarget ?i] => change (GetTarget i) with (get_field 23 8 i)
  | |- context [GetCSN ?i] => change (GetCSN i) with (get_field 15 8 i)
  | |- context [GetRID ?i] => change (GetRID i) with (get_field 11 4 i)
  | |- context [GetFID ?i] => change (GetFID i) with (get_field 0 11 i)
  end;
  repeat first [ rewrite get_or_same by lia | rewrite get_or_other by lia
               | rewrite get_zero by lia ];
  rewrite ?Z.lor_0_l.

(** The immediate of a data chunk as [senderCC_tx_message] builds it. *)
Definition make_imm (fid : Z) (last_chunk : bool) (rid csn : Z) : Z :=
  let imm := SetFID 0 fid in
  let imm := if last_chunk then SetHINT imm 1 else imm in
  let imm := SetRID imm rid in
  SetCSN imm csn.

(** The immediate of a data chunk as [receiverCC_tx_message] builds it. *)
Definition make_imm_eqds (pull_target fid : Z) (last_chunk : bool) (rid csn : Z) : Z :=
  let imm := SetTarget 0 pull_target in
  let imm := SetFID imm fid in
  let imm := if last_chunk then SetHINT imm 1 else imm in
  let imm := SetRID imm rid in
  SetCSN imm csn.

Lemma make_imm_fields fid last rid csn :
  let imm := make_imm fid last rid csn in
  GetFID imm = fid mod 2 ^ 11 /\ GetHINT imm = Z.b2z last /\
  GetRID imm = rid mod 2 ^ 4 /\ GetCSN imm = csn mod 2 ^ 8 /\ GetRESERVED imm = 0.
Proof. unfold make_imm. destruct last; repeat split; imm_fields; done. Qed.

Lemma make_imm_eqds_fields target fid last rid csn :
  let imm := make_imm_eqds target fid last rid csn in
  GetTarget imm = target mod 2 ^ 8 /\ GetFID imm = fid mod 2 ^ 11 /\
  GetHINT imm = Z.b2z last /\ GetRID imm = rid mod 2 ^ 4 /\ GetCSN imm = csn mod 2 ^ 8.
Proof. unfold make_imm_eqds. destruct last; repeat split; imm_fields; done. Qed.

(** C34: what the sender packs into the 32-bit immediate of a chunk is what the
    receiver unpacks, for every flow id below [MAX_FLOW], request id below
    [kMaxReq] and 8-bit sequence number, with and without the EQDS target. *)
Theorem imm_roundtrip target fid last rid csn :
  in_word 8 target -> 0 <= fid < 2048 -> 0 <= rid < 16 -> in_word 8 csn ->
  let imm := make_imm fid last rid csn in
  let imm' := make_imm_eqds target fid last rid csn in
  (GetFID imm, GetHINT imm, GetRID imm, GetCSN imm) = (fid, Z.b2z last, rid, csn) /\
  (GetTarget imm', GetFID imm', GetHINT imm', GetRID imm', GetCSN imm')
    = (target, fid, Z.b2z last, rid, csn).
Proof.
  intros Ht Hf Hr Hc. simpl.
  destruct (make_imm_fields fid last rid csn) as (-> & -> & -> & -> & _).
  destruct (make_imm_eqds_fields target fid last rid csn) as (-> & -> & -> & -> & ->).
  unfold in_word in *. rewrite !Z.mod_small by lia. done.
Qed.

Lemma imm_roundtrip_witness :
  GetCSN (make_imm 2047 true 15 255) = 255 /\
  GetTarget (make_imm_eqds 200 2047 true 15 255) = 200.
Proof.
  destruct (imm_roundtrip 200 2047 true 15 255) as [H1 H2];
    [by vm_compute|lia|lia|by vm_compute|].
  simpl in H1, H2. split; congruence.
Defined.

(** [SetTarget] on an immediate that already carries a target ORs the two. *)
Lemma SetTarget_again imm target :
  GetTarget (SetTarget imm target) = Z.lor (GetTarget imm) (target mod 2 ^ 8).
Proof. by imm_fields. Qed.

End Imm.
