(* ===== verification/Queues.v ===== *)
(** * Bounded queues on an array

    [include/util/cb.h] ([CircularBuffer]) and [collective/rdma/util_buffpool.h]
    ([BuffPool]) keep a queue in an array between a head and a tail index, one
    slot always unused.  Both are shown to be the list of their elements.

    [DequeOps] / [DequeLaws] is what the users of a [CircularBuffer] rely on
    ([SharedPool] and [TimingWheel] are verified against it); the last section
    discharges it. *)

From S2P Require Import Prelude.
From stdpp Require Import options.

(** ** The interface *)

Class DequeOps (T Q : Type) := {
  dq_capacity : Q -> Z;
  dq_size : Q -> Z;
  dq_push_front : T -> Q -> bool * Q;
  dq_push_back : T -> Q -> bool * Q;
  dq_pop_front : Q -> option T * Q;
}.

(** [dq_repr q l]: [q] is well formed and holds exactly [l], front first. *)
Class DequeLaws (T Q : Type) `{!DequeOps T Q} := {
  dq_repr : Q -> list T -> Prop;
  dq_size_spec q l : dq_repr q l -> dq_size q = alen l;
  dq_bound q l : dq_repr q l -> alen l <= dq_capacity q;
  dq_push_front_ok q l x :
    dq_repr q l -> alen l < dq_capacity q ->
    exists q', dq_push_front x q = (true, q') /\ dq_repr q' (x :: l) /\
               dq_capacity q' = dq_capacity q;
  dq_push_front_full q l x :
    dq_repr q l -> alen l = dq_capacity q -> dq_push_front x q = (false, q);
  dq_push_back_ok q l x :
    dq_repr q l -> alen l < dq_capacity q ->
    exists q', dq_push_back x q = (true, q') /\ dq_repr q' (l ++ [x]) /\
               dq_capacity q' = dq_capacity q;
  dq_push_back_full q l x :
    dq_repr q l -> alen l = dq_capacity q -> dq_push_back x q = (false, q);
  dq_pop_front_cons q l x :
    dq_repr q (x :: l) ->
    exists q', dq_pop_front q = (Some x, q') /\ dq_repr q' l /\
               dq_capacity q' = dq_capacity q;
  dq_pop_front_nil q : dq_repr q [] -> dq_pop_front q = (None, q);
}.

(** ** CircularBuffer *)

Module Cb.

(** [items_], [head_], [tail_] and [capacity_] (the array's length, one more
    than the number of elements it may hold). *)
Record cb (T : Type) := Mk {
  items_ : list T;
  head_ : Z;
  tail_ : Z;
  capacity_ : Z;
}.
Arguments Mk {T} _ _ _ _.
Arguments items_ {T} _.
Arguments head_ {T} _.
Arguments tail_ {T} _.
Arguments capacity_ {T} _.

Section cb.
Context {T : Type}.
Implicit Types (q : cb T) (l : list T) (d x : T).

(** The dynamic constructor; [new T[capacity_]] holds default elements. *)
Definition CircularBuffer (dflt : T) (size : Z) : cb T :=
  let capacity := size +[32] 1 in
  Mk (replicate (Z.to_nat capacity) dflt) 0 0 capacity.

Definition capacity q : Z := capacity_ q -[32] 1.

Definition size q : Z :=
  if tail_ q <? head_ q then (tail_ q +[32] capacity_ q) -[32] head_ q
  else tail_ q -[32] head_ q.

Definition push_front d q : bool * cb T :=
  let new_head := ((head_ q +[32] capacity_ q) -[32] 1) mod capacity_ q in
  if new_head =? tail_ q then (false, q)
  else (true, Mk (aset (items_ q) new_head d) new_head (tail_ q) (capacity_ q)).

Definition push_back d q : bool * cb T :=
  let new_tail := (tail_ q +[32] 1) mod capacity_ q in
  if new_tail =? head_ q then (false, q)
  else (true, Mk (aset (items_ q) (tail_ q) d) (head_ q) new_tail (capacity_ q)).

Definition push_back_override d q : option T * cb T :=
  let new_tail := (tail_ q +[32] 1) mod capacity_ q in
  let '(overrided, head) :=
    if new_tail =? head_ q
    then (aget (items_ q) (head_ q), (head_ q +[32] 1) mod capacity_ q)
    else (None, head_ q) in
  (overrided, Mk (aset (items_ q) (tail_ q) d) head new_tail (capacity_ q)).

(** [None] is the [false] return; on success the element is the one written
    through the out-parameter. *)
Definition pop_front q : option T * cb T :=
  if head_ q =? tail_ q then (None, q)
  else (aget (items_ q) (head_ q),
        Mk (items_ q) ((head_ q +[32] 1) mod capacity_ q) (tail_ q) (capacity_ q)).

(** One iteration of the [work_steal] loop: the local [tail] of the thief and
    the two buffers. *)
Definition steal_one (tail : Z) (q victim : cb T) : Z * cb T * cb T :=
  let items :=
    match aget (items_ victim) (head_ victim) with
    | Some x => aset (items_ q) tail x
    | None => items_ q
    end in
  ((tail +[32] 1) mod capacity_ q,
   Mk items (head_ q) (tail_ q) (capacity_ q),
   Mk (items_ victim) ((head_ victim +[32] 1) mod capacity_ victim)
      (tail_ victim) (capacity_ victim)).

Fixpoint steal_loop (n : nat) (tail : Z) (q victim : cb T) : Z * cb T * cb T :=
  match n with
  | O => (tail, q, victim)
  | S n =>
      let '(tail, q, victim) := steal_one tail q victim in
      steal_loop n tail q victim
  end.

(** [work_steal]: [try_lock] is the answer of the victim's spin lock. *)
Definition work_steal (try_lock : bool) (q victim : cb T) : bool * cb T * cb T :=
  if size victim / 2 =? 0 then (false, q, victim)
  else if negb try_lock then (false, q, victim)
  else
    let cb_size := size victim in
    if cb_size / 2 =? 0 then (false, q, victim)
    else
      let steal_size := Z.min (cb_size / 2) (capacity q -[32] size q) in
      let '(tail, q, victim) := steal_loop (Z.to_nat steal_size) (tail_ q) q victim in
      (true, Mk (items_ q) (head_ q) tail (capacity_ q), victim).

Definition clear q : cb T := Mk (items_ q) (tail_ q) (tail_ q) (capacity_ q).

(** [for_each]: the elements [f] is called on, in order; [None] when the loop
    has not reached the tail within the fuel. *)
Fixpoint for_each_from (fuel : nat) (idx : Z) q : option (list T) :=
  if idx =? tail_ q then Some []
  else match fuel with
  | O => None
  | S fuel =>
      x ← aget (items_ q) idx;
      rest ← for_each_from fuel ((idx +[32] 1) mod capacity_ q) q;
      Some (x :: rest)
  end.

Definition for_each q : option (list T) :=
  for_each_from (Z.to_nat (capacity_ q)) (head_ q) q.

(** *** Representation *)

(** The array index of the [i]-th element after [h]. *)
Definition slot (cap h i : Z) : Z := if h + i <? cap then h + i else h + i - cap.

Record wf (q : cb T) : Prop := {
  wf_cap : 1 <= capacity_ q <= 2 ^ 31;
  wf_head : 0 <= head_ q < capacity_ q;
  wf_tail : 0 <= tail_ q < capacity_ q;
  wf_items : alen (items_ q) = capacity_ q;
}.

Record repr (q : cb T) (l : list T) : Prop := {
  repr_wf : wf q;
  repr_tail : tail_ q = slot (capacity_ q) (head_ q) (alen l);
  repr_len : alen l < capacity_ q;
  repr_get i : 0 <= i < alen l ->
    aget (items_ q) (slot (capacity_ q) (head_ q) i) = aget l i;
}.

Lemma slot_range cap h i : 0 <= h < cap -> 0 <= i < cap -> 0 <= slot cap h i < cap.
Proof. unfold slot. z_cases; lia. Qed.

Lemma slot_inj cap h i j :
  0 <= h < cap -> 0 <= i < cap -> 0 <= j < cap -> slot cap h i = slot cap h j -> i = j.
Proof. unfold slot. z_cases; lia. Qed.

Lemma slot_0 cap h : 0 <= h < cap -> slot cap h 0 = h.
Proof. unfold slot. z_cases; lia. Qed.

(** The index updates of the code, with the overflow discharged. *)
Lemma next_index cap h :
  1 <= cap <= 2 ^ 31 -> 0 <= h < cap -> (h +[32] 1) mod cap = slot cap h 1.
Proof.
  intros Hc Hh. rewrite wrap_id by word_lia. unfold slot.
  destruct (Z.ltb_spec (h + 1) cap).
  - apply Z.mod_small. lia.
  - replace (h + 1) with cap by lia. rewrite Z.mod_same; lia.
Qed.

Lemma prev_index cap h :
  1 <= cap <= 2 ^ 31 -> 0 <= h < cap ->
  ((h +[32] cap) -[32] 1) mod cap = slot cap h (cap - 1).
Proof.
  intros Hc Hh. rewrite (wrap_id 32 (h + cap)) by word_lia.
  rewrite wrap_id by word_lia. unfold slot.
  destruct (Z.ltb_spec (h + (cap - 1)) cap).
  - rewrite Z.mod_small; lia.
  - symmetry. apply (Z.mod_unique _ _ 1); lia.
Qed.

Lemma slot_slot cap h i j :
  0 <= h < cap -> 0 <= i < cap -> 0 <= j -> i + j < cap ->
  slot cap (slot cap h i) j = slot cap h (i + j).
Proof. unfold slot. z_cases; lia. Qed.

Lemma slot_prev cap h i :
  0 <= h < cap -> 0 <= i -> i + 1 < cap ->
  slot cap (slot cap h (cap - 1)) (i + 1) = slot cap h i.
Proof. unfold slot. z_cases; lia. Qed.

Lemma repr_size q l : repr q l -> size q = alen l.
Proof.
  intros [[Hc Hh Ht _] Htail Hlen _]. pose proof (alen_nonneg l).
  unfold size. revert Htail. unfold slot.
  z_cases; intros; try lia;
    rewrite ?(wrap_id 32 (tail_ q + capacity_ q)) by word_lia;
    rewrite wrap_id by word_lia; lia.
Qed.

Lemma repr_capacity q l : repr q l -> capacity q = capacity_ q - 1.
Proof. intros [[Hc _ _ _] _ _ _]. unfold capacity. apply wrap_id. word_lia. Qed.

Lemma CircularBuffer_repr dflt n :
  0 <= n < 2 ^ 31 -> repr (CircularBuffer dflt n) [] /\
  capacity (CircularBuffer dflt n) = n.
Proof.
  intros Hn. unfold CircularBuffer. rewrite wrap_id by word_lia.
  assert (repr (Mk (replicate (Z.to_nat (n + 1)) dflt) 0 0 (n + 1)) []) as Hr.
  { split; [split|..]; simpl; autorewrite with arr; intros; try word_lia.
    - unfold alen. rewrite length_replicate. lia.
    - by rewrite slot_0 by lia. }
  split; [done|]. erewrite repr_capacity by done. simpl. lia.
Qed.

(** *** Every operation is the list operation *)

Local Ltac facts Hr :=
  pose proof (wf_cap _ (repr_wf _ _ Hr)); pose proof (wf_head _ (repr_wf _ _ Hr));
  pose proof (wf_tail _ (repr_wf _ _ Hr)); pose proof (wf_items _ (repr_wf _ _ Hr));
  match type of Hr with repr _ ?l => pose proof (alen_nonneg l) end;
  pose proof (repr_len _ _ Hr); pose proof (repr_tail _ _ Hr) as Htail.

Lemma push_front_full q l x :
  repr q l -> alen l = capacity_ q - 1 -> push_front x q = (false, q).
Proof.
  intros Hr Hl. facts Hr. unfold push_front. rewrite prev_index by lia.
  by rewrite (repr_tail _ _ Hr), Hl, Z.eqb_refl.
Qed.

Lemma push_front_ok q l x :
  repr q l ->
  alen l < capacity_ q - 1 ->
  exists q', push_front x q = (true, q') /\ repr q' (x :: l) /\
             capacity_ q' = capacity_ q.
Proof.
  intros Hr Hl. facts Hr. unfold push_front. rewrite prev_index by lia.
  destruct (Z.eqb_spec (slot (capacity_ q) (head_ q) (capacity_ q - 1)) (tail_ q)) as [E|E].
  { rewrite Htail in E. apply slot_inj in E; lia. }
  eexists; split; [done|]; split; [|done].
  pose proof (slot_range (capacity_ q) (head_ q) (capacity_ q - 1)).
  split; [split|..]; simpl; autorewrite with arr; try lia.
  - rewrite slot_prev by lia. done.
  - intros i Hi. destruct (decide (i = 0)) as [->|].
    + rewrite slot_0 by lia. by rewrite aget_aset_eq by lia.
    + replace i with ((i - 1) + 1) by lia.
      rewrite slot_prev, aget_cons_S by lia.
      rewrite aget_aset_ne; [by apply (repr_get _ _ Hr); lia|lia| |].
      * apply slot_range; lia.
      * intros E'. apply slot_inj in E'; lia.
Qed.

Lemma push_back_full q l x :
  repr q l -> alen l = capacity_ q - 1 -> push_back x q = (false, q).
Proof.
  intros Hr Hl. facts Hr. unfold push_back.
  rewrite next_index by lia.
  rewrite Htail. unfold slot. z_cases; try lia; done.
Qed.

(** Writing at the tail and moving it, whether or not the front is dropped. *)
Lemma append_repr q l x h k :
  repr q l ->
  0 <= h < capacity_ q -> alen k + 1 < capacity_ q ->
  tail_ q = slot (capacity_ q) h (alen k) ->
  (forall i, 0 <= i < alen k ->
     aget (items_ q) (slot (capacity_ q) h i) = aget k i) ->
  repr (Mk (aset (items_ q) (tail_ q) x) h
           ((tail_ q +[32] 1) mod capacity_ q) (capacity_ q)) (k ++ [x]).
Proof.
  intros Hr Hh Hk Ht Hget. facts Hr. pose proof (alen_nonneg k).
  rewrite next_index, Ht, slot_slot by lia.
  pose proof (slot_range (capacity_ q) h (alen k + 1)).
  pose proof (slot_range (capacity_ q) h (alen k)).
  split; [split|..]; simpl; autorewrite with arr; try lia; try done.
  intros i Hi. destruct (decide (i = alen k)) as [->|].
  - rewrite aget_aset_eq by lia. rewrite aget_app_r by lia.
    by rewrite Z.sub_diag.
  - rewrite aget_app_l by lia. rewrite aget_aset_ne; [by apply Hget; lia|lia| |].
    + apply slot_range; lia.
    + intros E'. apply slot_inj in E'; lia.
Qed.

Lemma push_back_ok q l x :
  repr q l ->
  alen l < capacity_ q - 1 ->
  exists q', push_back x q = (true, q') /\ repr q' (l ++ [x]) /\
             capacity_ q' = capacity_ q.
Proof.
  intros Hr Hl. facts Hr. unfold push_back.
  destruct (Z.eqb_spec ((tail_ q +[32] 1) mod capacity_ q) (head_ q)) as [E|E].
  { rewrite next_index in E by lia.
    rewrite Htail, slot_slot in E by lia.
    rewrite <- (slot_0 (capacity_ q) (head_ q)) in E at 2 by lia.
    apply slot_inj in E; lia. }
  eexists; split; [done|]; split; [|done].
  eapply append_repr; [done|done|lia|done|apply (repr_get _ _ Hr)].
Qed.

Lemma pop_front_nil q : repr q [] -> pop_front q = (None, q).
Proof.
  intros Hr. facts Hr. unfold pop_front. rewrite Htail.
  rewrite alen_nil, slot_0 by lia. by rewrite Z.eqb_refl.
Qed.

(** The buffer without its first element, at the moved head. *)
Lemma tail_repr q l x k :
  repr q l ->
  l = x :: k ->
  aget (items_ q) (head_ q) = Some x /\
  repr (Mk (items_ q) ((head_ q +[32] 1) mod capacity_ q) (tail_ q) (capacity_ q)) k.
Proof.
  intros Hr E. facts Hr. assert (alen l = alen k + 1) as Hk by (subst; apply alen_cons).
  pose proof (alen_nonneg k).
  rewrite next_index by lia. split.
  - rewrite <- (slot_0 (capacity_ q) (head_ q)) by lia.
    rewrite (repr_get _ _ Hr) by lia. by rewrite E.
  - pose proof (slot_range (capacity_ q) (head_ q) 1).
    split; [split|..]; simpl; try lia.
    + rewrite slot_slot, Htail by lia. f_equal. lia.
    + intros i Hi. rewrite slot_slot, (Z.add_comm 1) by lia.
      rewrite (repr_get _ _ Hr) by lia. rewrite E. apply aget_cons_S. lia.
Qed.

Lemma head_ne_tail q l : repr q l -> l <> [] -> head_ q <> tail_ q.
Proof.
  intros Hr Hl. facts Hr. rewrite Htail.
  destruct l as [|x k]; [done|]. rewrite alen_cons in *. pose proof (alen_nonneg k).
  rewrite <- (slot_0 (capacity_ q) (head_ q)) at 1 by lia.
  intros E%slot_inj; lia.
Qed.

Lemma pop_front_cons q l x k :
  repr q l ->
  l = x :: k ->
  exists q', pop_front q = (Some x, q') /\ repr q' k /\ capacity_ q' = capacity_ q.
Proof.
  intros Hr E. destruct (tail_repr q l x k Hr E) as [Hx Hk].
  unfold pop_front. rewrite (proj2 (Z.eqb_neq _ _)) by (eapply head_ne_tail; [done|by subst]).
  rewrite Hx. by eexists.
Qed.

Lemma clear_repr q l : repr q l -> repr (clear q) [].
Proof.
  intros Hr. facts Hr.
  split; [split|..]; simpl; autorewrite with arr; try lia.
  by rewrite slot_0.
Qed.


Lemma push_back_override_ok q l x :
  repr q l -> alen l < capacity_ q - 1 ->
  exists q', push_back_override x q = (None, q') /\ repr q' (l ++ [x]) /\
             capacity_ q' = capacity_ q.
Proof.
  intros Hr Hl. destruct (push_back_ok q l x Hr Hl) as (q' & Hq & ? & ?).
  exists q'. revert Hq. unfold push_back, push_back_override.
  by case_match; intros [=<-].
Qed.

Lemma push_back_override_full q l x y :
  repr q (y :: l) -> alen l + 1 = capacity_ q - 1 ->
  exists q', push_back_override x q = (Some y, q') /\ repr q' (l ++ [x]) /\
             capacity_ q' = capacity_ q.
Proof.
  intros Hr Hl. facts Hr. rewrite alen_cons in *.
  destruct (tail_repr q _ y l Hr eq_refl) as [Hy Hk]. unfold push_back_override.
  assert ((tail_ q +[32] 1) mod capacity_ q = head_ q) as E.
  { rewrite next_index, Htail by lia. unfold slot. z_cases; lia. }
  rewrite (proj2 (Z.eqb_eq _ _) E), Hy. eexists; split; [done|]; split; [|done].
  apply (append_repr _ _ x ((head_ q +[32] 1) mod capacity_ q) l Hr); [|lia|..].
  - apply (wf_head _ (repr_wf _ _ Hk)).
  - apply (repr_tail _ _ Hk).
  - apply (repr_get _ _ Hk).
Qed.

Lemma steal_loop_repr n : forall q t victim l a v,
  repr (Mk (items_ q) (head_ q) t (capacity_ q)) l -> repr victim (a ++ v) ->
  length a = n -> alen l + alen a < capacity_ q ->
  exists q' t' victim',
    steal_loop n t q victim = (t', q', victim') /\
    repr (Mk (items_ q') (head_ q') t' (capacity_ q')) (l ++ a) /\
    repr victim' v /\ capacity_ q' = capacity_ q /\
    capacity_ victim' = capacity_ victim.
Proof.
  induction n as [|n IH]; intros q t victim l a v Hl Hv Ha Hcap; simpl.
  - destruct a; [|done]. rewrite app_nil_r. by eauto 10.
  - destruct a as [|x a]; [done|]. simpl in Ha. rewrite alen_cons in Hcap.
    pose proof (alen_nonneg a).
    destruct (tail_repr victim _ x (a ++ v) Hv eq_refl) as [Hx Hv'].
    unfold steal_one. rewrite Hx.
    assert (repr (Mk (aset (items_ q) t x) (head_ q)
                     ((t +[32] 1) mod capacity_ q) (capacity_ q)) (l ++ [x])) as Hl'.
    { apply (append_repr _ _ x (head_ q) l Hl); simpl.
      - apply (wf_head _ (repr_wf _ _ Hl)).
      - lia.
      - apply (repr_tail _ _ Hl).
      - apply (repr_get _ _ Hl). }
    edestruct (IH (Mk (aset (items_ q) t x) (head_ q) (tail_ q) (capacity_ q)))
      as (q' & t' & victim' & Hs & H1 & H2 & H3 & H4); [exact Hl'|exact Hv'|lia| |].
    { autorewrite with arr; simpl; lia. }
    exists q', t', victim'. rewrite Hs. by rewrite <- app_assoc in H1.
Qed.

(** What the thief takes: half of the victim's elements, as far as they fit. *)
Definition stolen (room : Z) (v : list T) : nat := Z.to_nat (Z.min (alen v / 2) room).

Lemma work_steal_repr q victim l v :
  repr q l -> repr victim v -> 2 <= alen v ->
  let n := stolen (capacity_ q - 1 - alen l) v in
  exists q' victim', work_steal true q victim = (true, q', victim') /\
    repr q' (l ++ take n v) /\ repr victim' (drop n v).
Proof.
  intros Hl Hv H2 n. facts Hl. unfold work_steal.
  rewrite (repr_size _ _ Hv), (repr_size _ _ Hl), (repr_capacity _ _ Hl).
  assert (1 <= alen v / 2) as Hhalf by (apply Z.div_le_lower_bound; lia).
  rewrite (proj2 (Z.eqb_neq _ _)) by lia. simpl. rewrite wrap_id by word_lia.
  assert (alen (take n v) = Z.min (alen v / 2) (capacity_ q - 1 - alen l)) as Hn.
  { assert (alen v / 2 <= alen v) by (apply Z.div_le_upper_bound; lia).
    unfold n, stolen, alen in *. rewrite length_take. lia. }
  edestruct (steal_loop_repr (length (take n v)) q (tail_ q) victim l (take n v))
    as (q' & t' & victim' & Hs & ? & ? & ? & ?); [by destruct q| |done|lia|].
  { by rewrite take_drop. }
  rewrite <- Hn. unfold alen. rewrite Nat2Z.id, Hs. by eauto.
Qed.

(** The walk does not look at [head_]. *)
Lemma for_each_from_head fuel : forall i q h,
  for_each_from fuel i q =
  for_each_from fuel i (Mk (items_ q) h (tail_ q) (capacity_ q)).
Proof.
  induction fuel as [|fuel IH]; intros i q h; simpl; [done|].
  case_match; [done|]. destruct (aget _ _); simpl; [|done]. by rewrite (IH _ q h).
Qed.

Lemma for_each_from_repr fuel : forall q l,
  repr q l -> (length l <= fuel)%nat -> for_each_from fuel (head_ q) q = Some l.
Proof.
  induction fuel as [|fuel IH]; intros q l Hr Hf; simpl.
  all: destruct l as [|x l]; simpl in Hf; try lia.
  1,2: by rewrite (repr_tail _ _ Hr), alen_nil, slot_0, Z.eqb_refl
         by apply (wf_head _ (repr_wf _ _ Hr)).
  rewrite (proj2 (Z.eqb_neq _ _)) by (eapply head_ne_tail; done).
  destruct (tail_repr q _ x l Hr eq_refl) as [Hx Hk]. rewrite Hx. simpl.
  specialize (IH _ l Hk ltac:(lia)). simpl in IH.
  by rewrite (for_each_from_head _ _ _ ((head_ q +[32] 1) mod capacity_ q)), IH.
Qed.

Lemma for_each_repr q l : repr q l -> for_each q = Some l.
Proof.
  intros Hr. apply for_each_from_repr; [done|].
  pose proof (repr_len _ _ Hr). unfold alen in *. lia.
Qed.

End cb.
End Cb.

(** ** The instance, and what a client sees *)

Section cb_deque.
Context (T : Type).
Import Cb.

#[export] Instance cb_ops : DequeOps T (cb T) := {
  dq_capacity := capacity;
  dq_size := size;
  dq_push_front := push_front;
  dq_push_back := push_back;
  dq_pop_front := pop_front;
}.

#[export] Program Instance cb_laws : DequeLaws T (cb T) := { dq_repr := repr }.
Next Obligation. apply repr_size. Qed.
Next Obligation.
  intros q l Hr. simpl. rewrite (repr_capacity q l Hr). pose proof (repr_len _ _ Hr). lia.
Qed.
Next Obligation.
  intros q l x Hr Hl. simpl in *. rewrite (repr_capacity q l Hr) in *.
  destruct (push_front_ok q l x Hr Hl) as (q' & ? & Hr' & Hc).
  exists q'. rewrite (repr_capacity _ _ Hr'). auto with lia.
Qed.
Next Obligation.
  intros q l x Hr Hl. simpl in *. rewrite (repr_capacity q l Hr) in *. by apply (push_front_full _ l).
Qed.
Next Obligation.
  intros q l x Hr Hl. simpl in *. rewrite (repr_capacity q l Hr) in *.
  destruct (push_back_ok q l x Hr Hl) as (q' & ? & Hr' & Hc).
  exists q'. rewrite (repr_capacity _ _ Hr'). auto with lia.
Qed.
Next Obligation.
  intros q l x Hr Hl. simpl in *. rewrite (repr_capacity q l Hr) in *. by apply (push_back_full _ l).
Qed.
Next Obligation.
  intros q l x Hr. simpl. destruct (pop_front_cons q _ x l Hr eq_refl) as (q' & ? & Hr' & Hc).
  exists q'. rewrite (repr_capacity _ _ Hr'), (repr_capacity _ _ Hr). auto with lia.
Qed.
Next Obligation. apply pop_front_nil. Qed.

End cb_deque.

(** The calls on one buffer, and their outcomes. *)
Inductive cb_op (T : Type) :=
  | PushFront (x : T) | PushBack (x : T) | PushBackOverride (x : T)
  | PopFront | Size | ForEach | Clear.
Arguments PushFront {T} _.
Arguments PushBack {T} _.
Arguments PushBackOverride {T} _.
Arguments PopFront {T}.
Arguments Size {T}.
Arguments ForEach {T}.
Arguments Clear {T}.

Inductive cb_out (T : Type) :=
  | OBool (b : bool) | OItem (x : option T) | OSize (n : Z)
  | OItems (l : option (list T)) | OUnit.
Arguments OBool {T} _.
Arguments OItem {T} _.
Arguments OSize {T} _.
Arguments OItems {T} _.
Arguments OUnit {T}.

Section trace.
Context {T : Type}.

Definition cb_step (o : cb_op T) (q : Cb.cb T) : cb_out T * Cb.cb T :=
  match o with
  | PushFront x => let '(b, q) := Cb.push_front x q in (OBool b, q)
  | PushBack x => let '(b, q) := Cb.push_back x q in (OBool b, q)
  | PushBackOverride x => let '(r, q) := Cb.push_back_override x q in (OItem r, q)
  | PopFront => let '(r, q) := Cb.pop_front q in (OItem r, q)
  | Size => (OSize (Cb.size q), q)
  | ForEach => (OItems (Cb.for_each q), q)
  | Clear => (OUnit, Cb.clear q)
  end.

(** A double-ended queue of at most [n] elements. *)
Definition list_step (n : Z) (o : cb_op T) (l : list T) : cb_out T * list T :=
  match o with
  | PushFront x => if alen l <? n then (OBool true, x :: l) else (OBool false, l)
  | PushBack x => if alen l <? n then (OBool true, l ++ [x]) else (OBool false, l)
  | PushBackOverride x =>
      if alen l <? n then (OItem None, l ++ [x]) else (OItem (head l), tail l ++ [x])
  | PopFront => (OItem (head l), tail l)
  | Size => (OSize (alen l), l)
  | ForEach => (OItems (Some l), l)
  | Clear => (OUnit, [])
  end.

Fixpoint run {S O I : Type} (step : I -> S -> O * S) (ops : list I) (s : S) : list O :=
  match ops with
  | [] => []
  | o :: ops => let '(r, s) := step o s in r :: run step ops s
  end.

Lemma cb_step_refines n o q l :
  1 <= n -> Cb.repr q l -> Cb.capacity_ q = n + 1 ->
  exists q' l' r, cb_step o q = (r, q') /\ list_step n o l = (r, l') /\
                  Cb.repr q' l' /\ Cb.capacity_ q' = n + 1.
Proof.
  intros Hn Hr Hc. pose proof (Cb.repr_len _ _ Hr).
  destruct o as [x|x|x| | | |]; simpl.
  - destruct (Z.ltb_spec (alen l) n).
    + destruct (Cb.push_front_ok q l x Hr) as (q' & -> & ? & ?); [lia|]. eauto 10 with lia.
    + rewrite (Cb.push_front_full q l x Hr) by lia. eauto 10.
  - destruct (Z.ltb_spec (alen l) n).
    + destruct (Cb.push_back_ok q l x Hr) as (q' & -> & ? & ?); [lia|]. eauto 10 with lia.
    + rewrite (Cb.push_back_full q l x Hr) by lia. eauto 10.
  - destruct (Z.ltb_spec (alen l) n).
    + destruct (Cb.push_back_override_ok q l x Hr) as (q' & -> & ? & ?); [lia|].
      eauto 10 with lia.
    + destruct l as [|y l]; [rewrite alen_nil in *; lia|]. rewrite alen_cons in *.
      destruct (Cb.push_back_override_full q l x y Hr) as (q' & -> & ? & ?); [lia|].
      eauto 10 with lia.
  - destruct l as [|y l].
    + rewrite (Cb.pop_front_nil q Hr). eauto 10.
    + destruct (Cb.pop_front_cons q _ y l Hr eq_refl) as (q' & -> & ? & ?). eauto 10 with lia.
  - rewrite (Cb.repr_size q l Hr). eauto 10.
  - rewrite (Cb.for_each_repr q l Hr). eauto 10.
  - eauto 10 using Cb.clear_repr.
Qed.

Lemma cb_run_refines n ops : forall q l,
  1 <= n -> Cb.repr q l -> Cb.capacity_ q = n + 1 ->
  run cb_step ops q = run (list_step n) ops l.
Proof.
  induction ops as [|o ops IH]; intros q l Hn Hr Hc; simpl; [done|].
  destruct (cb_step_refines n o q l Hn Hr Hc) as (q' & l' & r & -> & -> & ? & ?).
  f_equal. auto.
Qed.

(** C29: whatever sequence of calls a client makes on a buffer constructed for
    [n] elements, every answer (success flags, popped and overridden elements,
    sizes, the elements visited by [for_each]) is the one of a double-ended
    queue holding at most [n] elements. *)
Theorem circular_buffer_refines_list (dflt : T) (n : Z) (ops : list (cb_op T)) :
  1 <= n < 2 ^ 31 ->
  run cb_step ops (Cb.CircularBuffer dflt n) = run (list_step n) ops [].
Proof.
  intros Hn. destruct (Cb.CircularBuffer_repr dflt n) as [Hr _]; [lia|].
  apply cb_run_refines; [lia|done|]. simpl. apply wrap_id. word_lia.
Qed.

End trace.

Lemma circular_buffer_refines_list_witness :
  run cb_step [PushBack 1; PushFront 2; PushBack 3; PushBackOverride 4; PopFront]
    (Cb.CircularBuffer 0 2) =
  [OBool true; OBool true; OBool false; OItem (Some 2); OItem (Some 1)].
Proof. rewrite (circular_buffer_refines_list 0 2) by lia. reflexivity. Defined.

(** a successful [work_steal] moves exactly the first half of the victim's
    elements (fewer when the thief has less room) to the back of the thief, in
    order: no element is lost or duplicated. *)
Theorem work_steal_moves {T} (q victim : Cb.cb T) (l v : list T) :
  Cb.repr q l -> Cb.repr victim v -> 2 <= alen v ->
  exists k q' victim',
    Cb.work_steal true q victim = (true, q', victim') /\
    k = Z.min (alen v / 2) (Cb.capacity q - alen l) /\
    Cb.repr q' (l ++ take (Z.to_nat k) v) /\ Cb.repr victim' (drop (Z.to_nat k) v).
Proof.
  intros Hl Hv H2. destruct (Cb.work_steal_repr q victim l v Hl Hv H2) as (q' & victim' & ? & ? & ?).
  eexists _, q', victim'. by rewrite (Cb.repr_capacity _ _ Hl).
Qed.

Lemma work_steal_moves_witness :
  exists q victim,
    Cb.work_steal true (Cb.CircularBuffer 0 2)
      (snd (Cb.push_back 8 (snd (Cb.push_back 7 (Cb.CircularBuffer 0 2))))) =
    (true, q, victim) /\ Cb.for_each q = Some [7] /\ Cb.for_each victim = Some [8].
Proof.
  destruct (Cb.CircularBuffer_repr 0 2 ltac:(lia)) as [H0 _].
  destruct (Cb.push_back_ok _ _ 7 H0 ltac:(by vm_compute)) as (q1 & E1 & H1 & _).
  destruct (Cb.push_back_ok _ _ 8 H1) as (q2 & E2 & H2 & _).
  { vm_compute in E1. injection E1 as <-. by vm_compute. }
  rewrite E1. simpl. rewrite E2. simpl.
  destruct (work_steal_moves _ _ _ _ H0 H2 ltac:(by vm_compute))
    as (k & q & v & -> & -> & ? & ?).
  exists q, v. split_and!; [done|by apply Cb.for_each_repr..].
Defined.

(** ** BuffPool *)

Module BuffPool.

Record t := Mk {
  base_addr_ : Z;
  head_ : Z;
  tail_ : Z;
  num_elements_ : Z;
  element_size_ : Z;
  buffer_pool_ : list Z;
}.

Definition full (p : t) : bool :=
  Z.land (tail_ p +[32] 1) (num_elements_ p -[32] 1) =? head_ p.

Definition empty (p : t) : bool := head_ p =? tail_ p.

Definition size (p : t) : Z :=
  Z.land (tail_ p -[32] head_ p) (num_elements_ p -[32] 1).

(** [None] is the [-1] return. *)
Definition alloc_buff (p : t) : option Z * t :=
  if empty p then (None, p)
  else
    ((fun off => base_addr_ p +[64] off) <$> aget (buffer_pool_ p) (head_ p),
     Mk (base_addr_ p) (Z.land (head_ p +[32] 1) (num_elements_ p -[32] 1)) (tail_ p)
        (num_elements_ p) (element_size_ p) (buffer_pool_ p)).

Definition free_buff (buff_addr : Z) (p : t) : t :=
  if full p then p
  else
    Mk (base_addr_ p) (head_ p) (Z.land (tail_ p +[32] 1) (num_elements_ p -[32] 1))
       (num_elements_ p) (element_size_ p)
       (aset (buffer_pool_ p) (tail_ p) (buff_addr -[64] base_addr_ p)).

Definition buff (base element_size : Z) (i : nat) : Z :=
  base +[64] (wrap 64 (Z.of_nat i * element_size)).

(** The constructor's loop, [i] from [0] to [num_elements_ - 1] exclusive.  The
    region is the caller's memory region or the result of [mmap]. *)
Fixpoint fill (n : nat) (i : nat) (p : t) : t :=
  match n with
  | O => p
  | S n => fill n (S i) (free_buff (buff (base_addr_ p) (element_size_ p) i) p)
  end.

Definition BuffPool (base num_elements element_size : Z) : t :=
  fill (Z.to_nat (num_elements -[32] 1)) 0
    (Mk base 0 0 num_elements element_size
        (replicate (Z.to_nat num_elements) 0)).

(** The pool's ring of offsets. *)
Definition to_cb (p : t) : Cb.cb Z :=
  Cb.Mk (buffer_pool_ p) (head_ p) (tail_ p) (num_elements_ p).

(** The pool is well formed and offers the buffers [l], next first. *)
Record repr (p : t) (l : list Z) : Prop := {
  repr_pow : exists k, 0 <= k <= 31 /\ num_elements_ p = 2 ^ k;
  repr_base : in_word 64 (base_addr_ p);
  repr_word : Forall (in_word 64) l;
  repr_cb : Cb.repr (to_cb p) (map (fun b => b -[64] base_addr_ p) l);
}.

Lemma mask_mod k x : 0 <= k <= 31 -> Z.land x (2 ^ k -[32] 1) = x mod 2 ^ k.
Proof.
  intros Hk. rewrite wrap_id; [by apply land_mask; lia|].
  pose proof (pow2_pos k). pose proof (Z.pow_lt_mono_r 2 k 32). unfold in_word. lia.
Qed.

Lemma offset_addr base b : in_word 64 b -> base +[64] (b -[64] base) = b.
Proof. intros Hb. rewrite wrap_add_r, Zplus_minus. by apply wrap_id. Qed.

Lemma pool_size p l : repr p l -> size p = alen l.
Proof.
  intros [(k & Hk & Hp) _ _ Hr]. unfold size. rewrite Hp, mask_mod by done.
  rewrite wrap_mod_pow2 by lia.
  pose proof (Cb.repr_len _ _ Hr) as Hl. pose proof (Cb.repr_tail _ _ Hr) as Ht.
  unfold alen in Hl, Ht. rewrite length_map in Hl, Ht. fold (alen l) in Hl, Ht.
  pose proof (alen_nonneg l). unfold to_cb in *; simpl in *. rewrite Ht, Hp in *.
  unfold Cb.slot. z_cases; symmetry; [apply (Z.mod_unique _ _ 0)|apply (Z.mod_unique _ _ (-1))]; lia.
Qed.

(** The two operations are those of the ring of offsets. *)
Lemma alloc_buff_cb p l :
  repr p l ->
  alloc_buff p =
  ((fun off => base_addr_ p +[64] off) <$> fst (Cb.pop_front (to_cb p)),
   let q := snd (Cb.pop_front (to_cb p)) in
   Mk (base_addr_ p) (Cb.head_ q) (Cb.tail_ q) (num_elements_ p) (element_size_ p)
      (Cb.items_ q)).
Proof.
  intros [(k & Hk & Hp) _ _ _]. unfold alloc_buff, empty, Cb.pop_front. simpl.
  case_match; simpl; [by destruct p|]. by rewrite Hp, mask_mod.
Qed.

Lemma free_buff_cb p l b :
  repr p l ->
  free_buff b p =
  let q := snd (Cb.push_back (b -[64] base_addr_ p) (to_cb p)) in
  Mk (base_addr_ p) (Cb.head_ q) (Cb.tail_ q) (num_elements_ p) (element_size_ p)
     (Cb.items_ q).
Proof.
  intros [(k & Hk & Hp) _ _ _]. unfold free_buff, full, Cb.push_back. simpl.
  rewrite Hp, mask_mod by done. case_match; simpl; [|done]. rewrite <- Hp. by destruct p.
Qed.

Lemma alloc_buff_nil p : repr p [] -> alloc_buff p = (None, p).
Proof.
  intros Hr. rewrite (alloc_buff_cb p [] Hr), (Cb.pop_front_nil _ (repr_cb _ _ Hr)).
  by destruct p.
Qed.

Lemma alloc_buff_cons p b l :
  repr p (b :: l) ->
  exists p', alloc_buff p = (Some b, p') /\ repr p' l /\
             num_elements_ p' = num_elements_ p /\ base_addr_ p' = base_addr_ p.
Proof.
  intros Hr. rewrite (alloc_buff_cb p _ Hr). destruct Hr as [Hp Hb Hw Hc].
  apply Forall_cons in Hw as [Hbw Hw].
  destruct (Cb.pop_front_cons _ _ _ _ Hc eq_refl) as (q & -> & Hq & Hcap). simpl.
  rewrite offset_addr by done. eexists; split; [done|]; split; [|done].
  split; simpl; try done. destruct q. by simpl in *; subst.
Qed.

Lemma free_buff_ok p l b :
  repr p l -> in_word 64 b -> alen l < num_elements_ p - 1 ->
  repr (free_buff b p) (l ++ [b]) /\ num_elements_ (free_buff b p) = num_elements_ p /\
  base_addr_ (free_buff b p) = base_addr_ p /\
  element_size_ (free_buff b p) = element_size_ p.
Proof.
  intros Hr Hbw Hl. rewrite (free_buff_cb p l b Hr). destruct Hr as [Hp Hb Hw Hc].
  edestruct (Cb.push_back_ok _ _ (b -[64] base_addr_ p) Hc) as (q & -> & Hq & Hcap).
  { unfold alen. rewrite length_map. exact Hl. }
  simpl. split; [|done]. split; simpl; try done.
  - by apply Forall_app_2; [|apply Forall_singleton].
  - rewrite map_app. destruct q. by simpl in *; subst.
Qed.

Lemma fill_repr n : forall i p l,
  repr p l -> alen l + Z.of_nat n <= num_elements_ p - 1 ->
  repr (fill n i p) (l ++ map (buff (base_addr_ p) (element_size_ p)) (seq i n)) /\
  num_elements_ (fill n i p) = num_elements_ p.
Proof.
  induction n as [|n IH]; intros i p l Hr Hl; simpl; [by rewrite app_nil_r|].
  destruct (free_buff_ok p l (buff (base_addr_ p) (element_size_ p) i) Hr)
    as (Hr' & Hn & Hb & He); [by apply wrap_range|lia|].
  destruct (IH (S i) _ _ Hr') as [H1 H2].
  { autorewrite with arr. lia. }
  rewrite <- app_assoc, Hb, He in H1. rewrite Hn in H2. done.
Qed.

Definition buffers (base num element_size : Z) : list Z :=
  map (buff base element_size) (seq 0 (Z.to_nat (num - 1))).

Lemma BuffPool_repr base k es :
  0 <= k <= 31 -> in_word 64 base ->
  repr (BuffPool base (2 ^ k) es) (buffers base (2 ^ k) es) /\
  num_elements_ (BuffPool base (2 ^ k) es) = 2 ^ k.
Proof.
  intros Hk Hb. pose proof (pow2_pos k ltac:(lia)).
  pose proof (Z.pow_le_mono_r 2 k 31 ltac:(lia) ltac:(lia)).
  unfold BuffPool. rewrite wrap_id by (unfold in_word; word_lia).
  apply (fill_repr (Z.to_nat (2 ^ k - 1)) 0
           (Mk base 0 0 (2 ^ k) es (replicate (Z.to_nat (2 ^ k)) 0)) []).
  - split; simpl; [by exists k|done|done|].
    split; [split|..]; simpl; autorewrite with arr; try lia.
    + unfold alen. rewrite length_replicate. lia.
    + by rewrite Cb.slot_0 by lia.
  - rewrite alen_nil. simpl. lia.
Qed.

Lemma buffers_NoDup base num es :
  0 <= base -> 1 <= es -> base + num * es <= 2 ^ 64 -> NoDup (buffers base num es).
Proof.
  intros Hb Hes Hfit. apply NoDup_fmap_2_strong; [|apply NoDup_seq].
  intros i j Hi%elem_of_seq Hj%elem_of_seq. unfold buff.
  assert (forall i, (i < Z.to_nat (num - 1))%nat ->
    base +[64] (wrap 64 (Z.of_nat i * es)) = base + Z.of_nat i * es) as Heq.
  { intros m Hm. rewrite wrap_add_r. apply wrap_id. unfold in_word.
    assert (Z.of_nat m * es <= (num - 1) * es) by (apply Z.mul_le_mono_nonneg_r; lia).
    nia. }
  rewrite !Heq by lia. nia.
Qed.

(** A client that frees only buffers it holds. *)
Inductive client : t * list Z -> t * list Z -> Prop :=
  | client_alloc p p' b held :
      alloc_buff p = (Some b, p') -> client (p, held) (p', b :: held)
  | client_alloc_fail p p' held :
      alloc_buff p = (None, p') -> client (p, held) (p', held)
  | client_free p b held1 held2 :
      client (p, held1 ++ b :: held2) (free_buff b p, held1 ++ held2).

(** The free buffers and the held ones are together the pool's buffers. *)
Definition owned (all : list Z) (s : t * list Z) : Prop :=
  exists l, repr s.1 l /\ num_elements_ s.1 = alen all + 1 /\ l ++ s.2 ≡ₚ all.

Lemma client_owned all s s' :
  Forall (in_word 64) all -> client s s' -> owned all s -> owned all s'.
Proof.
  intros Hall Hs (l & Hr & Hn & Hp).
  assert (alen l + alen s.2 = alen all) as Hlen
    by (rewrite <- alen_app; unfold alen; by rewrite Hp).
  destruct Hs as [p p' b held Ha|p p' held Ha|p b held1 held2]; simpl in *.
  - destruct l as [|c l].
    { rewrite alloc_buff_nil in Ha by done. done. }
    destruct (alloc_buff_cons p c l Hr) as (q & Hq & ? & ? & ?).
    rewrite Hq in Ha. injection Ha as -> ->. exists l. split; [done|]. split; [simpl; lia|].
    simpl. by rewrite <- Hp, <- Permutation_middle.
  - destruct l as [|c l].
    { rewrite alloc_buff_nil in Ha by done. injection Ha as <-. by exists []. }
    destruct (alloc_buff_cons p c l Hr) as (q & Hq & ? & ? & ?). by rewrite Hq in Ha.
  - rewrite alen_app, alen_cons in Hlen. pose proof (alen_nonneg held1).
    pose proof (alen_nonneg held2).
    destruct (free_buff_ok p l b Hr) as (? & Hn' & _); [|lia|].
    { rewrite Forall_forall in Hall. apply Hall. rewrite <- Hp. set_solver. }
    exists (l ++ [b]). simpl. split; [done|]. split; [lia|].
    rewrite <- Hp, <- app_assoc. simpl. f_equiv. by rewrite <- Permutation_middle.
Qed.

(** whatever a client that frees only what it holds does with a pool, it
    never holds a buffer twice, every buffer it holds is one of the pool's
    [num_elements - 1] buffers, the pool's size counts exactly the others, and
    an allocation fails only when the client holds them all: a freed buffer is
    never lost. *)
Theorem buff_pool_ownership base k es p held :
  0 <= k <= 31 -> in_word 64 base -> 1 <= es -> base + 2 ^ k * es <= 2 ^ 64 ->
  rtc client (BuffPool base (2 ^ k) es, []) (p, held) ->
  NoDup held /\ held ⊆ buffers base (2 ^ k) es /\
  size p = 2 ^ k - 1 - alen held /\
  (fst (alloc_buff p) = None <-> alen held = 2 ^ k - 1).
Proof.
  intros Hk Hb Hes Hfit Hs. pose proof (pow2_pos k ltac:(lia)).
  set (all := buffers base (2 ^ k) es).
  assert (Forall (in_word 64) all) as Hall.
  { apply Forall_map, Forall_true. intros i. by apply wrap_range. }
  assert (alen all = 2 ^ k - 1) as Hlen.
  { unfold all, buffers, alen. rewrite length_map, length_seq. lia. }
  assert (owned all (p, held)) as (l & Hr & Hn & Hp).
  { eapply (rtc_invariant client (owned all)); [by eauto using client_owned|exact Hs|].
    destruct (BuffPool_repr base k es Hk Hb). exists all. rewrite app_nil_r.
    simpl. split_and!; [done|lia|done]. }
  simpl in *.
  assert (alen l + alen held = alen all) as Hlens
    by (rewrite <- alen_app; unfold alen; by rewrite Hp).
  assert (NoDup (l ++ held)) as Hnd
    by (rewrite Hp; apply buffers_NoDup; unfold in_word in *; lia).
  split_and!.
  - by apply NoDup_app in Hnd as (_ & _ & ?).
  - intros x Hx. rewrite <- Hp. by apply elem_of_app; right.
  - rewrite (pool_size p l Hr). lia.
  - destruct l as [|b l].
    + rewrite alloc_buff_nil by done. rewrite alen_nil in *. simpl. split; [lia|done].
    + destruct (alloc_buff_cons p b l Hr) as (q & -> & _). rewrite alen_cons in *.
      pose proof (alen_nonneg l). simpl. split; [done|lia].
Qed.

Lemma buff_pool_ownership_witness :
  exists p, rtc client (BuffPool 4096 (2 ^ 2) 64, []) (p, [4160; 4096]) /\
    size p = 1 /\ NoDup [4160; 4096].
Proof.
  exists (snd (alloc_buff (snd (alloc_buff (BuffPool 4096 (2 ^ 2) 64))))).
  assert (rtc client (BuffPool 4096 (2 ^ 2) 64, [])
    (snd (alloc_buff (snd (alloc_buff (BuffPool 4096 (2 ^ 2) 64)))), [4160; 4096])) as Hs.
  { eapply rtc_l; [apply client_alloc; vm_compute; reflexivity|].
    eapply rtc_l; [apply client_alloc; vm_compute; reflexivity|]. apply rtc_refl. }
  destruct (buff_pool_ownership 4096 2 64 _ _ ltac:(lia) ltac:(by vm_compute)
              ltac:(lia) ltac:(lia) Hs) as (Hnd & _ & Hsz & _).
  split; [exact Hs|]. split; [exact Hsz|exact Hnd].
Defined.

End BuffPool.
