(* ===== verification/SharedPool.v ===== *)
(** * SharedPool

    [include/util/shared_pool.h]: a global pool of items with, in the [Sync]
    variant, a cache of [kNumCachedItemsPerCPU] items per thread.  The model is
    over any pair of deques satisfying the interface of [Queues]; every call
    holds the global lock while it touches the global pool and a cache belongs
    to one thread, so calls of several threads interleave call by call. *)

From S2P Require Import Prelude Queues.

Module SharedPool.

Definition kNumCachedItemsPerCPU : Z := 64.

Record pool (G C : Type) := Mk {
  global_pool_ : G;
  th_cache_ : list C;     (* one per thread *)
}.
Arguments Mk {G C} _ _.
Arguments global_pool_ {G C} _.
Arguments th_cache_ {G C} _.

Section pool.
Context {T G C : Type} `{!DequeOps T G} `{!DequeOps T C}.

(** [UCCL_CHECK(from.pop_front(&m)); UCCL_CHECK(to.push_front(m))]. *)
Definition migrate1 {X Y} `{!DequeOps T X} `{!DequeOps T Y} (from : X) (to : Y) :
  result (X * Y) :=
  let '(m, from) := dq_pop_front from in
  match m with
  | None => Fail CheckFailed
  | Some item =>
      let '(ok, to) := dq_push_front item to in
      if ok : bool then Done (from, to) else Fail CheckFailed
  end.

Fixpoint migrate {X Y} `{!DequeOps T X} `{!DequeOps T Y} (n : nat) (from : X) (to : Y) :
  result (X * Y) :=
  match n with
  | O => Done (from, to)
  | S n => '(from, to) ← migrate1 from to; migrate n from to
  end.

(** [push] with [Sync]; the [cleanup_] callback acts on the item only. *)
Definition push_cached (item : T) (global : G) (cache : C) : result (G * C) :=
  '(cache, global) ←
    (if dq_size cache =? kNumCachedItemsPerCPU
     then migrate (Z.to_nat kNumCachedItemsPerCPU) cache global
     else Done (cache, global));
  let '(ok, cache) := dq_push_front item cache in
  if ok : bool then Done (global, cache) else Fail CheckFailed.

Definition pop_cached (global : G) (cache : C) : result (T * G * C) :=
  '(global, cache) ←
    (if dq_size cache =? 0
     then migrate (Z.to_nat kNumCachedItemsPerCPU) global cache
     else Done (global, cache));
  let '(r, cache) := dq_pop_front cache in
  match r with
  | None => Fail CheckFailed
  | Some item => Done (item, global, cache)
  end.

(** [push] and [pop] without [Sync]. *)
Definition push_global (item : T) (global : G) : result G :=
  let '(ok, global) := dq_push_front item global in
  if ok : bool then Done global else Fail CheckFailed.

Definition pop_global (global : G) : result (T * G) :=
  let '(r, global) := dq_pop_front global in
  match r with
  | None => Fail CheckFailed
  | Some item => Done (item, global)
  end.

(** [flush_th_cache], and the thread cache's destructor: the loop ends when the
    cache is empty; the result of [push_front] is not looked at.  [None] when
    the fuel does not suffice. *)
Fixpoint drain (fuel : nat) (global : G) (cache : C) : option (G * C) :=
  let '(r, cache) := dq_pop_front cache in
  match r with
  | None => Some (global, cache)
  | Some item =>
      match fuel with
      | O => None
      | S fuel => drain fuel (snd (dq_push_front item global)) cache
      end
  end.

Definition flush_cached (global : G) (cache : C) : option (G * C) :=
  drain (Z.to_nat (dq_size cache)) global cache.

Definition size_cached (global : G) (cache : C) : Z := dq_size cache +[32] dq_size global.

(** The calls of thread [tid]. *)
Definition push (tid : nat) (item : T) (p : pool G C) : result (pool G C) :=
  match th_cache_ p !! tid with
  | None => Fail OutOfBounds
  | Some cache =>
      '(global, cache) ← push_cached item (global_pool_ p) cache;
      Done (Mk global (<[tid := cache]> (th_cache_ p)))
  end.

Definition pop (tid : nat) (p : pool G C) : result (T * pool G C) :=
  match th_cache_ p !! tid with
  | None => Fail OutOfBounds
  | Some cache =>
      '(item, global, cache) ← pop_cached (global_pool_ p) cache;
      Done (item, Mk global (<[tid := cache]> (th_cache_ p)))
  end.

Definition flush_th_cache (tid : nat) (p : pool G C) : option (pool G C) :=
  match th_cache_ p !! tid with
  | None => None
  | Some cache =>
      '(global, cache) ← flush_cached (global_pool_ p) cache;
      Some (Mk global (<[tid := cache]> (th_cache_ p)))
  end.

End pool.

(** ** What the calls do *)

Section laws.
Context {T G C : Type} `{!DequeOps T G} `{!DequeOps T C}.
Context `{!DequeLaws T G} `{!DequeLaws T C}.
Implicit Types (global : G) (cache : C) (lg lc : list T) (item : T)
  (p : pool G C).

Local Ltac cache_lia := unfold alen, kNumCachedItemsPerCPU in *; simpl in *; lia.

Lemma migrate_ok {X Y} `{!DequeOps T X} `{!DequeOps T Y} `{!DequeLaws T X} `{!DequeLaws T Y}
    n : forall (from : X) (to : Y) (lf lt : list T),
  dq_repr from lf -> dq_repr to lt -> (n <= length lf)%nat ->
  alen lt + Z.of_nat n <= dq_capacity to ->
  exists from' to', migrate n from to = Done (from', to') /\
    dq_repr from' (drop n lf) /\ dq_repr to' (rev (take n lf) ++ lt) /\
    dq_capacity from' = dq_capacity from /\ dq_capacity to' = dq_capacity to.
Proof.
  induction n as [|n IH]; intros from to lf lt Hf Ht Hn Hcap; [by simpl; eauto 10|].
  destruct lf as [|x lf]; simpl in Hn; [lia|].
  destruct (dq_pop_front_cons from lf x Hf) as (from1 & Hpop & Hf1 & Hc1).
  destruct (dq_push_front_ok to lt x Ht) as (to1 & Hpush & Ht1 & Hc2); [lia|].
  destruct (IH from1 to1 lf (x :: lt) Hf1 Ht1) as (f' & t' & Hm & ? & ? & ? & ?);
    [lia|rewrite alen_cons; lia|].
  exists f', t'. simpl. unfold migrate1. rewrite Hpop, Hpush. simpl. rewrite Hm.
  rewrite <- app_assoc. simpl. split_and!; [done|done|done|congruence..].
Qed.

Lemma migrate_fail {X Y} `{!DequeOps T X} `{!DequeOps T Y} `{!DequeLaws T X} `{!DequeLaws T Y}
    n : forall (from : X) (to : Y) (lf lt : list T),
  dq_repr from lf -> dq_repr to lt -> (length lf < n)%nat ->
  alen lt + alen lf <= dq_capacity to -> migrate n from to = Fail CheckFailed.
Proof.
  induction n as [|n IH]; intros from to lf lt Hf Ht Hn Hcap; [lia|].
  simpl. unfold migrate1. destruct lf as [|x lf]; simpl in Hn.
  { by rewrite (dq_pop_front_nil from Hf). }
  rewrite alen_cons in Hcap. pose proof (alen_nonneg lf).
  destruct (dq_pop_front_cons from lf x Hf) as (from1 & -> & Hf1 & Hc1).
  destruct (dq_push_front_ok to lt x Ht) as (to1 & -> & Ht1 & Hc2); [lia|]. simpl.
  apply (IH from1 to1 lf (x :: lt)); [done|done|lia|rewrite alen_cons; lia].
Qed.

Lemma push_cached_room item global cache lg lc :
  dq_repr global lg -> dq_repr cache lc -> dq_capacity cache = kNumCachedItemsPerCPU ->
  alen lc < kNumCachedItemsPerCPU ->
  exists cache', push_cached item global cache = Done (global, cache') /\
    dq_repr cache' (item :: lc) /\ dq_capacity cache' = dq_capacity cache.
Proof.
  intros Hg Hc Hcap Hl. unfold push_cached. rewrite (dq_size_spec cache lc Hc).
  rewrite (proj2 (Z.eqb_neq _ _)) by lia. simpl.
  destruct (dq_push_front_ok cache lc item Hc) as (c' & -> & ? & ?); [lia|]. by eauto.
Qed.

(** A full cache first moves to the global pool, if that has room. *)
Lemma push_cached_full item global cache lg lc :
  dq_repr global lg -> dq_repr cache lc -> dq_capacity cache = kNumCachedItemsPerCPU ->
  alen lc = kNumCachedItemsPerCPU ->
  alen lg + kNumCachedItemsPerCPU <= dq_capacity global ->
  exists global' cache', push_cached item global cache = Done (global', cache') /\
    dq_repr global' (rev lc ++ lg) /\ dq_repr cache' [item] /\
    dq_capacity global' = dq_capacity global /\ dq_capacity cache' = dq_capacity cache.
Proof.
  intros Hg Hc Hcap Hl Hroom. unfold push_cached. rewrite (dq_size_spec cache lc Hc).
  rewrite (proj2 (Z.eqb_eq _ _)) by lia. unfold alen in Hl.
  destruct (migrate_ok (Z.to_nat kNumCachedItemsPerCPU) cache global lc lg Hc Hg)
    as (c1 & g1 & -> & Hc1 & Hg1 & ? & ?); [cache_lia..|]. simpl.
  rewrite drop_ge in Hc1 by lia. rewrite take_ge in Hg1 by lia.
  destruct (dq_push_front_ok c1 [] item Hc1) as (c' & -> & ? & ?);
    [cache_lia|].
  eexists _, _. split; [done|]. split_and!; [done|done|done|congruence].
Qed.

Lemma pop_cached_hit global cache lg lc item :
  dq_repr global lg -> dq_repr cache (item :: lc) ->
  exists cache', pop_cached global cache = Done (item, global, cache') /\
    dq_repr cache' lc /\ dq_capacity cache' = dq_capacity cache.
Proof.
  intros Hg Hc. unfold pop_cached. rewrite (dq_size_spec cache _ Hc), alen_cons.
  pose proof (alen_nonneg lc). rewrite (proj2 (Z.eqb_neq _ _)) by lia. simpl.
  destruct (dq_pop_front_cons cache lc item Hc) as (c' & -> & ? & ?). by eauto.
Qed.

(** An empty cache takes 64 items of the global pool and returns the last. *)
Lemma pop_cached_miss global cache lg :
  dq_repr global lg -> dq_repr cache [] -> dq_capacity cache = kNumCachedItemsPerCPU ->
  kNumCachedItemsPerCPU <= alen lg ->
  exists item global' cache', pop_cached global cache = Done (item, global', cache') /\
    take 64 lg = take 63 lg ++ [item] /\
    dq_repr global' (drop 64 lg) /\ dq_repr cache' (rev (take 63 lg)) /\
    dq_capacity global' = dq_capacity global /\ dq_capacity cache' = dq_capacity cache.
Proof.
  intros Hg Hc Hcap Hl. unfold pop_cached. rewrite (dq_size_spec cache _ Hc), alen_nil.
  rewrite Z.eqb_refl. destruct (lookup_lt_is_Some_2 lg 63) as [item Hi];
    [cache_lia|].
  destruct (migrate_ok (Z.to_nat kNumCachedItemsPerCPU) global cache lg [] Hg Hc)
    as (g1 & c1 & -> & Hg1 & Hc1 & ? & ?); [cache_lia..|].
  change (Z.to_nat kNumCachedItemsPerCPU) with 64%nat in *.
  rewrite app_nil_r, (take_S_r _ 63 item) in Hc1 by done. rewrite rev_app_distr in Hc1.
  destruct (dq_pop_front_cons c1 _ item Hc1) as (c' & Hpop & ? & ?).
  exists item, g1, c'. unfold mbind, result_bind. rewrite Hpop.
  split_and!; [done|by apply take_S_r|done|done|done|congruence].
Qed.

(** With fewer than 64 items in the global pool the refill aborts. *)
Lemma pop_cached_abort global cache lg :
  dq_repr global lg -> dq_repr cache [] -> dq_capacity cache = kNumCachedItemsPerCPU ->
  alen lg < kNumCachedItemsPerCPU -> pop_cached global cache = Fail CheckFailed.
Proof.
  intros Hg Hc Hcap Hl. unfold pop_cached. rewrite (dq_size_spec cache _ Hc), alen_nil.
  rewrite Z.eqb_refl, (migrate_fail _ global cache lg [] Hg Hc); [done|cache_lia..].
Qed.

Lemma drain_ok fuel : forall global cache lg lc,
  dq_repr global lg -> dq_repr cache lc -> (length lc <= fuel)%nat ->
  alen lg + alen lc <= dq_capacity global ->
  exists global' cache', drain fuel global cache = Some (global', cache') /\
    dq_repr global' (rev lc ++ lg) /\ dq_repr cache' [] /\
    dq_capacity global' = dq_capacity global /\ dq_capacity cache' = dq_capacity cache.
Proof.
  induction fuel as [|fuel IH]; intros global cache lg lc Hg Hc Hf Hroom; simpl.
  all: destruct lc as [|x lc]; simpl in Hf; [rewrite (dq_pop_front_nil cache Hc); by eauto 10|].
  { lia. }
  rewrite alen_cons in Hroom. pose proof (alen_nonneg lc).
  destruct (dq_pop_front_cons cache lc x Hc) as (c1 & -> & Hc1 & ?).
  destruct (dq_push_front_ok global lg x Hg) as (g1 & -> & Hg1 & ?); [lia|]. simpl.
  destruct (IH g1 c1 (x :: lg) lc) as (g' & c' & -> & ? & ? & ? & ?);
    [done|done|lia|rewrite alen_cons; lia|].
  exists g', c'. simpl. rewrite <- app_assoc. split_and!; [done|done|done|congruence..].
Qed.

(** ** Several threads *)

(** Threads push items they hold, pop and flush. *)
Inductive step : pool G C * list T -> pool G C * list T -> Prop :=
  | step_push tid item p p' held1 held2 :
      push tid item p = Done p' ->
      step (p, held1 ++ item :: held2) (p', held1 ++ held2)
  | step_pop tid item p p' held :
      pop tid p = Done (item, p') -> step (p, held) (p', item :: held)
  | step_flush tid p p' held :
      flush_th_cache tid p = Some p' -> step (p, held) (p', held).

(** The items in the global pool, in the caches and in the hands of the
    threads are [items]. *)
Definition cache_ok (cache : C) (lc : list T) : Prop :=
  dq_repr cache lc /\ dq_capacity cache = kNumCachedItemsPerCPU.

Definition conserved (items : list T) (s : pool G C * list T) : Prop :=
  exists lg lcs,
    dq_repr (global_pool_ s.1) lg /\ Forall2 cache_ok (th_cache_ s.1) lcs /\
    alen items <= dq_capacity (global_pool_ s.1) /\
    lg ++ concat lcs ++ s.2 ≡ₚ items.

(** Replacing one cache (and the global pool and the held items) keeps the
    items when what those three hold together is kept. *)
Lemma conserved_update items p held tid cache lc lg lcs global' cache' lg' lc' held' :
  dq_repr (global_pool_ p) lg -> Forall2 cache_ok (th_cache_ p) lcs ->
  alen items <= dq_capacity (global_pool_ p) -> lg ++ concat lcs ++ held ≡ₚ items ->
  th_cache_ p !! tid = Some cache -> lcs !! tid = Some lc ->
  dq_repr global' lg' -> cache_ok cache' lc' ->
  dq_capacity global' = dq_capacity (global_pool_ p) ->
  lg' ++ lc' ++ held' ≡ₚ lg ++ lc ++ held ->
  conserved items (Mk global' (<[tid := cache']> (th_cache_ p)), held').
Proof.
  intros Hg Hcs Hi Hp Hc Hlc Hg' Hc' Hcap Hperm.
  exists lg', (<[tid := lc']> lcs). simpl. split_and!; [done| |congruence|].
  { by apply Forall2_insert. }
  rewrite <- Hp. apply (Permutation_app_inv_l lc).
  pose proof (concat_insert lcs tid lc lc' Hlc) as HC.
  transitivity (concat lcs ++ (lg' ++ lc' ++ held')).
  - rewrite (Permutation_app_comm lc), <- !app_assoc, (Permutation_app_comm held' lc).
    rewrite (app_assoc (concat _) lc), HC, <- app_assoc.
    by rewrite !app_assoc, (Permutation_app_comm lg').
  - rewrite Hperm. rewrite !app_assoc, (Permutation_app_comm _ lg).
    rewrite (Permutation_app_comm lc lg). f_equiv. rewrite <- !app_assoc. f_equiv.
    apply Permutation_app_comm.
Qed.

Lemma conserved_cache items p held tid :
  conserved items (p, held) -> (tid < length (th_cache_ p))%nat ->
  exists lg lcs cache lc,
    dq_repr (global_pool_ p) lg /\ Forall2 cache_ok (th_cache_ p) lcs /\
    alen items <= dq_capacity (global_pool_ p) /\ lg ++ concat lcs ++ held ≡ₚ items /\
    th_cache_ p !! tid = Some cache /\ lcs !! tid = Some lc /\ cache_ok cache lc /\
    alen lg + alen lc + alen held <= dq_capacity (global_pool_ p).
Proof.
  intros (lg & lcs & Hg & Hcs & Hcap & Hp) Htid. simpl in *.
  destruct (lookup_lt_is_Some_2 _ _ Htid) as [cache Hc].
  destruct (Forall2_lookup_l _ _ _ _ _ Hcs Hc) as (lc & Hlc & Hok).
  exists lg, lcs, cache, lc. split_and!; try done.
  assert (alen lc <= alen (concat lcs)) as Hle.
  { pose proof (concat_insert lcs tid lc [] Hlc) as HC. rewrite app_nil_r in HC.
    apply Permutation_length in HC. rewrite length_app in HC. unfold alen. lia. }
  apply Permutation_length in Hp. rewrite !length_app in Hp. unfold alen in *. lia.
Qed.

Lemma push_total items p tid item held1 held2 :
  conserved items (p, held1 ++ item :: held2) -> (tid < length (th_cache_ p))%nat ->
  exists p', push tid item p = Done p' /\ conserved items (p', held1 ++ held2).
Proof.
  intros Hs Htid.
  destruct (conserved_cache _ _ _ _ Hs Htid)
    as (lg & lcs & cache & lc & Hg & Hcs & Hcap & Hp & Hc & Hlc & [Hr Hk] & Hroom).
  pose proof (dq_bound cache lc Hr). unfold push. rewrite Hc.
  destruct (decide (alen lc = kNumCachedItemsPerCPU)) as [Hfull|Hnot].
  - destruct (push_cached_full item _ _ lg lc Hg Hr Hk Hfull)
      as (g' & c' & -> & Hg' & Hc' & Hcapg & Hcapc).
    { autorewrite with arr in *. pose proof (alen_nonneg held1).
      pose proof (alen_nonneg held2). lia. }
    eexists; split; [done|].
    eapply conserved_update; [done..|exact Hg'|split; [exact Hc'|congruence]|done|].
    rewrite <- Permutation_rev. solve_Permutation.
  - destruct (push_cached_room item _ _ lg lc Hg Hr Hk) as (c' & -> & Hc' & Hcapc); [lia|].
    eexists; split; [done|].
    eapply conserved_update; [done..|exact Hg|split; [exact Hc'|congruence]|done|].
    solve_Permutation.
Qed.

Lemma pop_total items p tid held item p' :
  conserved items (p, held) -> pop tid p = Done (item, p') ->
  conserved items (p', item :: held).
Proof.
  intros Hs. unfold pop. destruct (th_cache_ p !! tid) as [c|] eqn:Etid; [|done].
  destruct (conserved_cache _ _ _ tid Hs)
    as (lg & lcs & cache & lc & Hg & Hcs & Hcap & Hp & Hc & Hlc & [Hr Hk] & Hroom).
  { by eapply lookup_lt_Some. }
  simplify_eq. destruct lc as [|x lc].
  - destruct (decide (kNumCachedItemsPerCPU <= alen lg)).
    + destruct (pop_cached_miss _ _ lg Hg Hr Hk)
        as (y & g' & c' & -> & Ht & Hg' & Hc' & Hcapg & Hcapc); [done|].
      simpl. intros [= -> <-].
      eapply conserved_update; [done..|exact Hg'|split; [exact Hc'|congruence]|done|].
      rewrite <- Permutation_rev. simpl.
      rewrite <- (take_drop 64 lg) at 3. rewrite Ht. clear.
      generalize (take 63 lg), (drop 64 lg). intros a b. solve_Permutation.
    + rewrite (pop_cached_abort _ _ lg Hg Hr Hk) by lia. done.
  - destruct (pop_cached_hit _ _ lg lc x Hg Hr) as (c' & -> & Hc' & Hcapc).
    simpl. intros [= -> <-].
    eapply conserved_update; [done..|exact Hg|split; [exact Hc'|congruence]|done|].
    solve_Permutation.
Qed.

Lemma flush_total items p tid held :
  conserved items (p, held) -> (tid < length (th_cache_ p))%nat ->
  exists p', flush_th_cache tid p = Some p' /\ conserved items (p', held).
Proof.
  intros Hs Htid.
  destruct (conserved_cache _ _ _ _ Hs Htid)
    as (lg & lcs & cache & lc & Hg & Hcs & Hcap & Hp & Hc & Hlc & [Hr Hk] & Hroom).
  pose proof (alen_nonneg held). unfold flush_th_cache, flush_cached.
  rewrite Hc, (dq_size_spec cache lc Hr).
  destruct (drain_ok (Z.to_nat (alen lc)) _ _ lg lc Hg Hr)
    as (g' & c' & -> & Hg' & Hc' & Hcapg & Hcapc); [unfold alen; lia|lia|].
  eexists; split; [done|].
  eapply conserved_update; [done..|exact Hg'|split; [exact Hc'|congruence]|done|].
  rewrite <- Permutation_rev. solve_Permutation.
Qed.

Lemma step_conserved items s s' : step s s' -> conserved items s -> conserved items s'.
Proof.
  destruct 1 as [tid item p p' held1 held2 H|tid item p p' held H|tid p p' held H];
    intros Hs.
  - destruct (push_total items p tid item held1 held2 Hs) as (p1 & E & ?).
    { unfold push in H. destruct (_ !! tid) eqn:E; [|done]. by eapply lookup_lt_Some. }
    by assert (p1 = p') as <- by congruence.
  - by eapply pop_total.
  - destruct (flush_total items p tid held Hs) as (p1 & E & ?).
    { unfold flush_th_cache in H. destruct (_ !! tid) eqn:E; [|done].
      by eapply lookup_lt_Some. }
    by assert (p1 = p') as <- by congruence.
Qed.

Lemma step_threads s s' :
  step s s' -> length (th_cache_ s'.1) = length (th_cache_ s.1).
Proof.
  destruct 1 as [tid item p p' held1 held2 H|tid item p p' held H|tid p p' held H];
    revert H; simpl; unfold push, pop, flush_th_cache;
    (destruct (_ !! tid); [|done]).
  - destruct (push_cached _ _ _) as [[??]|]; [|done]. intros [=<-]. apply length_insert.
  - destruct (pop_cached _ _) as [[[??]?]|]; [|done]. intros [= _ <-]. apply length_insert.
  - destruct (flush_cached _ _) as [[??]|]; [|done]. intros [=<-]. apply length_insert.
Qed.

(** The pool at the start: the items in the global pool, the caches empty. *)
Definition started (items : list T) (n : nat) (p : pool G C) : Prop :=
  dq_repr (global_pool_ p) items /\ length (th_cache_ p) = n /\
  Forall (fun c => cache_ok c []) (th_cache_ p).

Lemma started_conserved items n p : started items n p -> conserved items (p, []).
Proof.
  intros (Hg & Hn & Hc). exists items, (replicate (length (th_cache_ p)) []). simpl.
  split_and!; [done| |by apply dq_bound|].
  - apply Forall2_replicate_r; [|done]. done.
  - rewrite app_nil_r. assert (concat (replicate (length (th_cache_ p)) []) = @nil T) as ->.
    { clear. by induction (length (th_cache_ p)). }
    by rewrite app_nil_r.
Qed.


(** a [pop] by a thread with an empty cache succeeds exactly when the global
    pool has 64 items, and then returns its 64th item, leaving the 63 before it
    in the cache; with fewer items the call ends in a failed [UCCL_CHECK]. *)
Theorem shared_pool_pop_miss tid p lg cache :
  th_cache_ p !! tid = Some cache -> cache_ok cache [] -> dq_repr (global_pool_ p) lg ->
  (alen lg < 64 -> pop tid p = Fail CheckFailed) /\
  (64 <= alen lg -> exists item p' cache',
     pop tid p = Done (item, p') /\ lg !! 63%nat = Some item /\
     dq_repr (global_pool_ p') (drop 64 lg) /\
     th_cache_ p' !! tid = Some cache' /\ cache_ok cache' (rev (take 63 lg))).
Proof.
  intros Hc [Hr Hk] Hg. unfold pop. rewrite Hc. split; intros Hl.
  - by rewrite (pop_cached_abort _ _ lg Hg Hr Hk).
  - destruct (pop_cached_miss _ _ lg Hg Hr Hk)
      as (y & g' & c' & -> & Ht & Hg' & Hc' & Hcapg & Hcapc); [done|].
    eexists _, _, c'. split; [done|]. simpl. split_and!; [|done| |split; [done|congruence]].
    + rewrite <- (lookup_take_lt lg 64), Ht by lia. rewrite lookup_app_r;
        rewrite length_take_le by (unfold alen in *; lia); done.
    + apply list_lookup_insert_eq. by eapply lookup_lt_Some.
Qed.

End laws.

(** The pool as it is instantiated: both deques are circular buffers. *)
Definition SharedPool {T} (dflt : T) (capacity : Z) (threads : nat) :
  pool (Cb.cb T) (Cb.cb T) :=
  Mk (Cb.CircularBuffer dflt capacity)
     (replicate threads (Cb.CircularBuffer dflt kNumCachedItemsPerCPU)).

(** A pool whose global part has been filled, as by the pushes of the owner
    before the threads start. *)
Definition filled {T} (dflt : T) (items : list T) (capacity : Z) (threads : nat) :
  pool (Cb.cb T) (Cb.cb T) :=
  Mk (foldr (fun x g => snd (Cb.push_front x g)) (Cb.CircularBuffer dflt capacity) items)
     (th_cache_ (SharedPool dflt capacity threads)).

Lemma filled_started {T} (dflt : T) items capacity threads :
  0 <= capacity < 2 ^ 31 -> alen items <= capacity ->
  started items threads (filled dflt items capacity threads).
Proof.
  intros Hc Hi. split_and!; simpl.
  - cut (Cb.repr (global_pool_ (filled dflt items capacity threads)) items /\
         Cb.capacity_ (global_pool_ (filled dflt items capacity threads)) = capacity + 1);
      [by intros [? _]|]. simpl.
    induction items as [|x items IH]; simpl.
    { split; [by apply Cb.CircularBuffer_repr|]. simpl. apply wrap_id. word_lia. }
    rewrite alen_cons in Hi. destruct IH as [IH1 IH2]; [lia|].
    destruct (Cb.push_front_ok _ items x IH1) as (q & -> & ? & ?); [lia|].
    split; [done|simpl; congruence].
  - apply length_replicate.
  - apply Forall_replicate. split; by apply Cb.CircularBuffer_repr.
Qed.


Lemma shared_pool_pop_miss_witness :
  pop 0 (filled 0 (seqZ 0 63) 64 2) = Fail CheckFailed /\
  exists p', pop 0 (filled 0 (seqZ 0 64) 64 2) = Done (63, p').
Proof.
  assert (cache_ok (Cb.CircularBuffer 0 kNumCachedItemsPerCPU) []) as Hc
    by (split; by apply Cb.CircularBuffer_repr).
  split.
  - destruct (filled_started 0 (seqZ 0 63) 64 2) as (Hg & _); [lia|by vm_compute|].
    apply (shared_pool_pop_miss 0 (filled 0 (seqZ 0 63) 64 2) _ _ eq_refl Hc Hg). by vm_compute.
  - destruct (filled_started 0 (seqZ 0 64) 64 2) as (Hg & _); [lia|by vm_compute|].
    destruct (shared_pool_pop_miss 0 (filled 0 (seqZ 0 64) 64 2) _ _ eq_refl Hc Hg) as [_ H].
    destruct (H ltac:(by vm_compute)) as (item & p' & _ & Hp & Hi & _).
    vm_compute in Hi. injection Hi as <-. by exists p'.
Defined.

End SharedPool.
