(* ===== verification/Timer.v ===== *)
(** * TimerManager

    [collective/rdma/util_timer.h]: the retransmission timers of a thread, a
    binary min-heap on the expiry cycle with a map from each flow to its heap
    index.  [rdtsc()] is the argument [now] of the operations that read it, and
    timeouts are cycle counts (the conversion from microseconds is done by the
    caller).  The heap with its index map is shown to be a finite map from
    flows to timers. *)

From S2P Require Import Prelude.

Module Timer.

Record TimerData := { rdma_ctx : Z; flow : Z }.
Record TimerNode := Node { expire : Z; data : TimerData }.
Definition nflow (n : TimerNode) : Z := flow (data n).

#[global] Instance TimerData_eq_dec : EqDecision TimerData.
Proof. solve_decision. Defined.
#[global] Instance TimerNode_eq_dec : EqDecision TimerNode.
Proof. solve_decision. Defined.

Record t := Mk { heap_ : list TimerNode; flow_map_ : gmap Z nat }.

Definition size (m : t) : nat := length (heap_ m).

(** The comparison [heap_[a] < heap_[b]]. *)
Definition key (h : list TimerNode) (i : nat) : Z :=
  match h !! i with Some n => expire n | None => 0 end.

Definition set_flow (m : gmap Z nat) (h : list TimerNode) (i : nat) : gmap Z nat :=
  match h !! i with Some n => <[nflow n := i]> m | None => m end.

Definition swap_list (h : list TimerNode) (a b : nat) : list TimerNode :=
  match h !! a, h !! b with
  | Some x, Some y => <[b := x]> (<[a := y]> h)
  | _, _ => h
  end.

Definition swap_nodes (a b : nat) (m : t) : t :=
  let h := swap_list (heap_ m) a b in
  Mk h (set_flow (set_flow (flow_map_ m) h a) h b).

Definition parent (i : nat) : nat := (i - 1) / 2.

(** The loops, with a bound on their iterations: the index decreases to [0] in
    [heapify_up] and grows to the heap's size in [heapify_down]. *)
Fixpoint heapify_up_loop (fuel : nat) (index : nat) (m : t) : t :=
  match fuel with
  | O => m
  | S fuel =>
      if (0 <? index)%nat then
        if key (heap_ m) index <? key (heap_ m) (parent index)
        then heapify_up_loop fuel (parent index) (swap_nodes index (parent index) m)
        else m
      else m
  end.
Definition heapify_up (index : nat) (m : t) : t := heapify_up_loop index index m.

Definition smallest_child (h : list TimerNode) (index : nat) : nat :=
  let left := (2 * index + 1)%nat in
  let right := (2 * index + 2)%nat in
  let smallest :=
    if (left <? length h)%nat && (key h left <? key h index) then left else index in
  if (right <? length h)%nat && (key h right <? key h smallest) then right else smallest.

Fixpoint heapify_down_loop (fuel : nat) (index : nat) (m : t) : t :=
  match fuel with
  | O => m
  | S fuel =>
      let smallest := smallest_child (heap_ m) index in
      if (smallest =? index)%nat then m
      else heapify_down_loop fuel smallest (swap_nodes index smallest m)
  end.
Definition heapify_down (index : nat) (m : t) : t :=
  heapify_down_loop (size m - index) index m.

Definition adjust_heap_node (index : nat) (m : t) : t :=
  if (0 <? index)%nat && (key (heap_ m) index <? key (heap_ m) (parent index))
  then heapify_up index m else heapify_down index m.

Definition add_timer (d : TimerData) (new_expire : Z) (m : t) : t :=
  let h := heap_ m ++ [Node new_expire d] in
  heapify_up (length h - 1) (Mk h (<[flow d := (length h - 1)%nat]> (flow_map_ m))).

Definition arm_timer (now timeout : Z) (d : TimerData) (m : t) : t :=
  match flow_map_ m !! flow d with
  | Some _ => m
  | None => add_timer d (now +[64] timeout) m
  end.

Definition rearm_timer (now timeout : Z) (d : TimerData) (m : t) : t :=
  let new_expire := now +[64] timeout in
  match flow_map_ m !! flow d with
  | Some index =>
      adjust_heap_node index
        (Mk (alter (fun n => Node new_expire (data n)) index (heap_ m)) (flow_map_ m))
  | None => add_timer d new_expire m
  end.

(** One iteration of [check_expired] on a heap whose root is [n]. *)
Definition pop_root (n : TimerNode) (m : t) : t :=
  let fm := delete (nflow n) (flow_map_ m) in
  let '(h, fm) :=
    match last (heap_ m) with
    | Some b => if (1 <? length (heap_ m))%nat
                then (<[0%nat := b]> (heap_ m), <[nflow b := 0%nat]> fm)
                else (heap_ m, fm)
    | None => (heap_ m, fm)
    end in
  let h := removelast h in
  if (length h =? 0)%nat then Mk h fm else heapify_down 0 (Mk h fm).

Fixpoint check_expired_loop (fuel : nat) (now : Z) (m : t) : list TimerData * t :=
  match fuel, heap_ m with
  | S fuel, n :: _ =>
      if expire n <=? now then
        let '(expired, m) := check_expired_loop fuel now (pop_root n m) in
        (data n :: expired, m)
      else ([], m)
  | _, _ => ([], m)
  end.
Definition check_expired (now : Z) (m : t) : list TimerData * t :=
  check_expired_loop (size m) now m.

Definition disarm_timer (d : TimerData) (m : t) : t :=
  match flow_map_ m !! flow d with
  | None => m
  | Some index =>
      let fm := delete (flow d) (flow_map_ m) in
      if (index =? length (heap_ m) - 1)%nat then Mk (removelast (heap_ m)) fm
      else match last (heap_ m) with
      | Some b =>
          adjust_heap_node index
            (Mk (removelast (<[index := b]> (heap_ m))) (<[nflow b := index]> fm))
      | None => Mk (heap_ m) fm
      end
  end.

(** ** The invariant *)

Definition heap_ok (h : list TimerNode) : Prop :=
  forall j, (0 < j < length h)%nat -> key h (parent j) <= key h j.

(** The index map is exactly the position of every flow's timer. *)
Definition map_ok (m : t) : Prop :=
  forall f i, flow_map_ m !! f = Some i <-> nflow <$> heap_ m !! i = Some f.

Definition wf (m : t) : Prop := heap_ok (heap_ m) /\ map_ok m.

(** *** Heap order with a disturbed node *)

(** The order holds away from node [i], and [i]'s children are not before its
    parent. *)
Definition mid (i : nat) (h : list TimerNode) : Prop :=
  (forall j, (0 < j < length h)%nat -> j <> i -> parent j <> i ->
     key h (parent j) <= key h j) /\
  (forall j, (0 < i)%nat -> (0 < j < length h)%nat -> parent j = i ->
     key h (parent i) <= key h j).

Definition up_ok (i : nat) (h : list TimerNode) : Prop :=
  mid i h /\ forall j, (0 < j < length h)%nat -> parent j = i -> key h i <= key h j.

Definition down_ok (i : nat) (h : list TimerNode) : Prop :=
  mid i h /\ ((0 < i)%nat -> key h (parent i) <= key h i).

Lemma parent_lt j : (0 < j)%nat -> (parent j < j)%nat.
Proof. intros. apply Nat.Div0.div_lt_upper_bound. lia. Qed.

Lemma parent_iff i j :
  (0 < j)%nat -> parent j = i <-> (j = 2 * i + 1 \/ j = 2 * i + 2)%nat.
Proof.
  intros. unfold parent.
  pose proof (Nat.div_mod_eq (j - 1) 2). pose proof (Nat.mod_upper_bound (j - 1) 2). lia.
Qed.

Lemma length_swap h a b : length (swap_list h a b) = length h.
Proof. unfold swap_list. repeat case_match; rewrite ?length_insert; done. Qed.

Lemma lookup_swap h a b i :
  (a < length h)%nat -> (b < length h)%nat ->
  swap_list h a b !! i = if decide (i = b) then h !! a else if decide (i = a) then h !! b else h !! i.
Proof.
  intros Ha Hb. unfold swap_list.
  destruct (lookup_lt_is_Some_2 _ _ Ha) as [x Hx], (lookup_lt_is_Some_2 _ _ Hb) as [y Hy].
  rewrite Hx, Hy. repeat case_decide; subst.
  - apply list_lookup_insert_eq. by rewrite length_insert.
  - rewrite list_lookup_insert_ne by done. by apply list_lookup_insert_eq.
  - by rewrite !list_lookup_insert_ne.
Qed.

Lemma key_swap h a b i :
  (a < length h)%nat -> (b < length h)%nat ->
  key (swap_list h a b) i =
  if decide (i = b) then key h a else if decide (i = a) then key h b else key h i.
Proof.
  intros. unfold key. rewrite lookup_swap by done. by repeat case_decide.
Qed.

Lemma swap_Permutation h a b : swap_list h a b ≡ₚ h.
Proof.
  unfold swap_list. destruct (h !! a) as [x|] eqn:Ha; [|done].
  destruct (h !! b) as [y|] eqn:Hb; [|done].
  destruct (decide (a = b)) as [->|Hab].
  { simplify_eq. by rewrite (list_insert_id h b x Ha), (list_insert_id h b x Ha). }
  apply Permutation_inj. split; [by rewrite !length_insert|].
  exists (fun i => if decide (i = a) then b else if decide (i = b) then a else i).
  split.
  - intros i j. repeat case_decide; lia.
  - intros i. apply lookup_lt_Some in Ha as La. apply lookup_lt_Some in Hb as Lb.
    repeat case_decide; subst.
    + by rewrite list_lookup_insert_ne, list_lookup_insert_eq by done.
    + by rewrite list_lookup_insert_eq by (by rewrite length_insert).
    + by rewrite !list_lookup_insert_ne by done.
Qed.

Lemma up_step i h :
  (0 < i < length h)%nat -> up_ok i h -> key h i < key h (parent i) ->
  up_ok (parent i) (swap_list h i (parent i)).
Proof.
  intros Hi [[H1 H2] H3] Hlt. pose proof (parent_lt i ltac:(lia)).
  assert (forall p, (0 < p)%nat -> p = parent i -> key h (parent p) <= key h p) as Hp.
  { intros p ? ->. pose proof (parent_lt (parent i) ltac:(lia)). apply H1; lia. }
  split; [split|]; rewrite ?length_swap; intros j.
  - intros Hj Hne Hpar. pose proof (parent_lt j ltac:(lia)).
    rewrite !key_swap by lia. repeat case_decide; subst; try lia; try done.
    + apply H2; lia.
    + apply H1; lia.
  - intros H0 Hj Hpar. pose proof (parent_lt (parent i) H0).
    specialize (Hp (parent i) H0 eq_refl).
    rewrite !key_swap by lia. repeat case_decide; subst; try lia.
    pose proof (H1 j Hj ltac:(done) ltac:(lia)) as Hj1. rewrite Hpar in Hj1. lia.
  - intros Hj Hpar. pose proof (parent_lt j ltac:(lia)).
    rewrite !key_swap by lia. repeat case_decide; subst; try lia.
    pose proof (H1 j Hj ltac:(done) ltac:(lia)) as Hj1. rewrite Hpar in Hj1. lia.
Qed.

Lemma down_step i s h :
  (s < length h)%nat -> parent s = i -> (0 < s)%nat -> down_ok i h ->
  key h s < key h i ->
  (forall j, (0 < j < length h)%nat -> parent j = i -> key h s <= key h j) ->
  down_ok s (swap_list h i s).
Proof.
  intros Hs Hpar Hs0 [[H1 H2] H3] Hlt Hmin. pose proof (parent_lt s Hs0).
  split; [split|]; rewrite ?length_swap.
  - intros j Hj Hne Hpj. pose proof (parent_lt j ltac:(lia)).
    rewrite !key_swap by lia. repeat case_decide; subst; try lia; try done.
    + by apply Hmin.
    + apply H2; [lia|lia|done].
    + apply H1; lia.
  - intros j _ Hj Hpj. pose proof (parent_lt j ltac:(lia)).
    rewrite !key_swap by lia. repeat case_decide; subst; try lia.
    apply H1; lia.
  - intros _. rewrite !key_swap by lia. repeat case_decide; subst; lia.
Qed.

Lemma up_ok_done i h :
  up_ok i h -> ((0 < i)%nat -> key h (parent i) <= key h i) -> heap_ok h.
Proof.
  intros [[H1 H2] H3] H4 j Hj. destruct (decide (j = i)) as [->|]; [apply H4; lia|].
  destruct (decide (parent j = i)) as [<-|]; [by apply H3|by apply H1].
Qed.

Lemma down_ok_done i h :
  down_ok i h -> (forall j, (0 < j < length h)%nat -> parent j = i -> key h i <= key h j) ->
  heap_ok h.
Proof. intros [Hm Hd] Hc. by apply (up_ok_done i). Qed.

(** *** The loops restore the order and keep the timers and the index map *)

Lemma map_ok_inj m i j f :
  map_ok m -> nflow <$> heap_ m !! i = Some f -> nflow <$> heap_ m !! j = Some f -> i = j.
Proof. intros Hm Hi%Hm Hj%Hm. congruence. Qed.

Lemma swap_map_ok m a b :
  (a < size m)%nat -> (b < size m)%nat -> a <> b -> map_ok m -> map_ok (swap_nodes a b m).
Proof.
  unfold size. intros Ha Hb Hab Hm f i.
  destruct (lookup_lt_is_Some_2 _ _ Ha) as [x Hx], (lookup_lt_is_Some_2 _ _ Hb) as [y Hy].
  assert (nflow <$> heap_ m !! a = Some (nflow x)) as Fx by by rewrite Hx.
  assert (nflow <$> heap_ m !! b = Some (nflow y)) as Fy by by rewrite Hy.
  assert (nflow x <> nflow y) as Hne.
  { intros E. rewrite E in Fx. by apply Hab, (map_ok_inj m a b (nflow y)). }
  simpl. unfold set_flow. rewrite !lookup_swap by done.
  rewrite (decide_True _ _ (eq_refl b)), (decide_False (P := a = b)) by done.
  rewrite (decide_True _ _ (eq_refl a)), Hx, Hy. rewrite !lookup_insert.
  repeat case_decide; subst; try done; rewrite <- ?Hm.
  all: rewrite ?Hx, ?Hy; simpl; split; intros E; simplify_eq; try done.
  all: exfalso; apply Hm in E; pose proof (proj2 (Hm _ _) Fx);
    pose proof (proj2 (Hm _ _) Fy); congruence.
Qed.

Lemma size_swap a b m : size (swap_nodes a b m) = size m.
Proof. apply length_swap. Qed.

(** What a reordering of the heap keeps. *)
Record reordered (m m' : t) : Prop := {
  re_heap : heap_ok (heap_ m');
  re_map : map_ok m';
  re_perm : heap_ m' ≡ₚ heap_ m;
}.

Lemma reordered_swap m m' a b :
  reordered (swap_nodes a b m) m' -> reordered m m'.
Proof. intros [? ? Hp]. split; [done..|]. rewrite Hp. apply swap_Permutation. Qed.

Lemma heapify_up_loop_ok fuel : forall index m,
  (index <= fuel)%nat -> (index < size m)%nat -> up_ok index (heap_ m) -> map_ok m ->
  reordered m (heapify_up_loop fuel index m).
Proof.
  induction fuel as [|fuel IH]; intros index m Hf Hi Hup Hm; simpl.
  - split; [|done..]. eapply up_ok_done; [done|]. lia.
  - destruct (Nat.ltb_spec 0 index).
    2: { split; [|done..]. eapply up_ok_done; [done|]. lia. }
    pose proof (parent_lt index ltac:(lia)). destruct (Z.ltb_spec (key (heap_ m) index)
      (key (heap_ m) (parent index))).
    + eapply reordered_swap, IH; [lia|rewrite size_swap; lia| |].
      * apply up_step; [unfold size in *; lia|done|done].
      * apply swap_map_ok; [lia..|done].
    + split; [|done..]. eapply up_ok_done; [done|]. lia.
Qed.

Lemma smallest_child_spec h i :
  let s := smallest_child h i in
  (s = i /\ (forall j, (0 < j < length h)%nat -> parent j = i -> key h i <= key h j)) \/
  ((0 < s < length h)%nat /\ parent s = i /\ s <> i /\ key h s < key h i /\
   forall j, (0 < j < length h)%nat -> parent j = i -> key h s <= key h j).
Proof.
  cbn zeta. unfold smallest_child.
  assert (forall j, (0 < j)%nat -> parent j = i <-> (j = 2 * i + 1 \/ j = 2 * i + 2)%nat)
    as Hpar by (intros; by apply parent_iff).
  remember (2 * i + 1)%nat as l eqn:El. remember (2 * i + 2)%nat as r eqn:Er.
  destruct (Nat.ltb_spec l (length h)); destruct (Nat.ltb_spec r (length h));
    destruct (Z.ltb_spec (key h l) (key h i)); cbn [andb]; try lia; z_cases.
  all: try (right; split_and!; [lia|lia|apply Hpar; lia|lia|lia|];
            intros j Hj Hp; apply Hpar in Hp; [destruct Hp; subst j|]; lia).
  all: left; split; [done|]; intros j Hj Hp; apply Hpar in Hp; [destruct Hp; subst j|]; lia.
Qed.

Lemma heapify_down_loop_ok fuel : forall index m,
  (size m - index <= fuel)%nat -> (index < size m)%nat -> down_ok index (heap_ m) ->
  map_ok m -> reordered m (heapify_down_loop fuel index m).
Proof.
  induction fuel as [|fuel IH]; intros index m Hf Hi Hd Hm; simpl; [lia|].
  destruct (smallest_child_spec (heap_ m) index) as [[E Hc]|(Hs & Hp & Hne & Hlt & Hc)].
  - rewrite E, Nat.eqb_refl. split; [by eapply down_ok_done|done..].
  - rewrite (proj2 (Nat.eqb_neq _ _)) by done.
    pose proof (parent_lt (smallest_child (heap_ m) index) ltac:(lia)).
    eapply reordered_swap, IH; [rewrite size_swap; lia|rewrite size_swap; unfold size; lia| |].
    + apply down_step; [lia|done|lia|done..].
    + apply swap_map_ok; unfold size in *; [lia..|done].
Qed.

Lemma adjust_heap_node_ok index m :
  (index < size m)%nat -> mid index (heap_ m) -> map_ok m ->
  reordered m (adjust_heap_node index m).
Proof.
  intros Hi Hmid Hm. unfold adjust_heap_node.
  destruct (Nat.ltb_spec 0 index); simpl.
  1: destruct (Z.ltb_spec (key (heap_ m) index) (key (heap_ m) (parent index))).
  - apply heapify_up_loop_ok; [lia|done| |done]. split; [done|].
    intros j Hj Hpj. destruct Hmid as [_ H2]. specialize (H2 j ltac:(lia) Hj Hpj). lia.
  - apply heapify_down_loop_ok; [lia|done|by split|done].
  - apply heapify_down_loop_ok; [lia|done|split; [done|lia]|done].
Qed.

(** ** The operations *)

Lemma heapify_up_ok index m :
  (index < size m)%nat -> up_ok index (heap_ m) -> map_ok m ->
  reordered m (heapify_up index m).
Proof. intros. by apply heapify_up_loop_ok. Qed.

Lemma key_app_l h k i : (i < length h)%nat -> key (h ++ k) i = key h i.
Proof. intros. unfold key. by rewrite lookup_app_l. Qed.

Lemma key_insert_ne h i j n : i <> j -> key (<[i := n]> h) j = key h j.
Proof. intros. unfold key. by rewrite list_lookup_insert_ne. Qed.

Lemma map_ok_None m f n :
  map_ok m -> flow_map_ m !! f = None -> n ∈ heap_ m -> nflow n <> f.
Proof.
  intros Hm Hf [i Hi]%list_elem_of_lookup E.
  assert (flow_map_ m !! f = Some i) by (apply Hm; rewrite Hi; simpl; congruence).
  congruence.
Qed.

(** A new timer. *)
Lemma add_timer_ok d e m :
  wf m -> flow_map_ m !! flow d = None ->
  wf (add_timer d e m) /\ heap_ (add_timer d e m) ≡ₚ Node e d :: heap_ m.
Proof.
  intros [Hh Hm] Hf. unfold add_timer. set (h := heap_ m ++ [Node e d]).
  assert (length h = S (length (heap_ m))) as Hlen
    by (unfold h; rewrite length_app; simpl; lia).
  destruct (heapify_up_ok (length h - 1)
    (Mk h (<[flow d := (length h - 1)%nat]> (flow_map_ m)))) as [H1 H2 H3].
  - unfold size; simpl. lia.
  - split; [split|]; simpl; intros j.
    + intros Hj Hne _. pose proof (parent_lt j ltac:(lia)). unfold h.
      rewrite !key_app_l by lia. apply Hh. lia.
    + intros _ Hj Hp. pose proof (parent_lt j ltac:(lia)). lia.
    + intros Hj Hp. pose proof (parent_lt j ltac:(lia)). lia.
  - intros f i. simpl. replace (length h - 1)%nat with (length (heap_ m)) by lia.
    destruct (decide (i < length (heap_ m))%nat).
    + unfold h. rewrite lookup_app_l, <- (Hm f i) by done.
      destruct (decide (f = flow d)) as [->|].
      * rewrite lookup_insert_eq, Hf. split; intros; simplify_eq; lia.
      * by rewrite lookup_insert_ne.
    + unfold h. rewrite lookup_app_r, list_lookup_singleton by lia.
      rewrite lookup_insert_Some. case_match eqn:Ei; simpl.
      * assert (i = length (heap_ m)) as -> by lia. split; [|naive_solver].
        intros [[<- _]|[_ Hfi%Hm]]; [done|].
        by rewrite lookup_ge_None_2 in Hfi by lia.
      * split; [|done]. intros [[_ ?]|[_ Hfi%Hm]]; [lia|].
        by rewrite lookup_ge_None_2 in Hfi by lia.
  - split; [by split|]. rewrite H3. simpl. unfold h. solve_Permutation.
Qed.

(** A timer with a new expiry. *)
Lemma alter_mid h i n e :
  heap_ok h -> h !! i = Some n -> mid i (<[i := Node e (data n)]> h).
Proof.
  intros Hh Hi. split; intros j; rewrite length_insert.
  - intros Hj Hne Hp. rewrite !key_insert_ne by done. by apply Hh.
  - intros H0 Hj Hp. pose proof (parent_lt i H0). pose proof (parent_lt j ltac:(lia)).
    rewrite !key_insert_ne by lia. transitivity (key h i).
    + apply Hh. apply lookup_lt_Some in Hi. lia.
    + rewrite <- Hp. by apply Hh.
Qed.

Lemma insert_map_ok m i n n' :
  map_ok m -> heap_ m !! i = Some n -> nflow n' = nflow n ->
  map_ok (Mk (<[i := n']> (heap_ m)) (flow_map_ m)).
Proof.
  intros Hm Hi Hn f j. simpl. rewrite (Hm f j). destruct (decide (i = j)) as [<-|].
  - rewrite list_lookup_insert_eq by (by eapply lookup_lt_Some). rewrite Hi. simpl.
    by rewrite Hn.
  - by rewrite list_lookup_insert_ne.
Qed.

Lemma insert_Permutation {A} (l : list A) i x y :
  l !! i = Some x -> x :: <[i := y]> l ≡ₚ y :: l.
Proof.
  revert i. induction l as [|z l IH]; intros [|i] Hi; simpl in *; simplify_eq.
  - apply Permutation_swap.
  - rewrite Permutation_swap, IH by done. apply Permutation_swap.
Qed.

(** The last node moved to position [i], the last position dropped. *)
Lemma remove_mid h b i :
  heap_ok (h ++ [b]) -> (i < length h)%nat -> mid i (<[i := b]> h).
Proof.
  intros Hh Hi. assert (heap_ok h) as Hh'.
  { intros j Hj. specialize (Hh j). rewrite length_app in Hh.
    pose proof (parent_lt j ltac:(lia)). rewrite !key_app_l in Hh by lia. apply Hh. lia. }
  destruct (lookup_lt_is_Some_2 h i Hi) as [n Hn].
  pose proof (alter_mid h i n (expire b) Hh' Hn) as [H1 H2].
  assert (forall j, key (<[i := b]> h) j = key (<[i := Node (expire b) (data n)]> h) j) as E.
  { intros j. unfold key. destruct (decide (i = j)) as [<-|].
    - by rewrite !list_lookup_insert_eq.
    - by rewrite !list_lookup_insert_ne. }
  split; intros j; rewrite !E, length_insert; rewrite length_insert in *; auto.
Qed.

Lemma remove_map_ok m h b i n :
  map_ok m -> heap_ m = h ++ [b] -> h !! i = Some n ->
  map_ok (Mk (<[i := b]> h) (<[nflow b := i]> (delete (nflow n) (flow_map_ m)))).
Proof.
  intros Hm E Hi f j. simpl. apply lookup_lt_Some in Hi as Hlt.
  assert (nflow <$> heap_ m !! i = Some (nflow n)) as Fn
    by (by rewrite E, lookup_app_l, Hi by done).
  assert (nflow <$> heap_ m !! length h = Some (nflow b)) as Fb
    by (by rewrite E, lookup_app_r, Nat.sub_diag by done).
  assert (j < length h -> nflow <$> h !! j = nflow <$> heap_ m !! j)%nat as Fj
    by (intros; by rewrite E, lookup_app_l).
  pose proof (map_ok_inj m) as Hinj.
  rewrite lookup_insert_Some, lookup_delete_Some, (Hm f j).
  destruct (decide (i = j)) as [<-|Hij].
  - rewrite list_lookup_insert_eq by done. simpl. split; [|naive_solver].
    intros [[<- _]|(? & ? & ?)]; [done|]. congruence.
  - rewrite list_lookup_insert_ne by done. destruct (decide (j < length h)%nat) as [Hj|Hj].
    + rewrite Fj by done. split; [by intros [[_ ?]|(_ & _ & ?)]|]. intros Hf. right. split_and!; [| |done].
      * intros <-. pose proof (Hinj j (length h) _ Hm Hf Fb). lia.
      * intros <-. pose proof (Hinj j i _ Hm Hf Fn). lia.
    + rewrite (lookup_ge_None_2 h j) by lia. split; [|done].
      intros [[_ ?]|(Hb & _ & Hf)]; [done|].
      rewrite E, lookup_app_r in Hf by lia. apply fmap_Some in Hf as (x & Hx & ->).
      apply list_lookup_singleton_Some in Hx as [_ <-]. done.
Qed.

(** ** The timers as a finite map *)

Definition entry (n : TimerNode) : Z * TimerNode := (nflow n, n).

(** The armed timer of every flow. *)
Definition armed (m : t) : gmap Z TimerNode := list_to_map (entry <$> heap_ m).

Lemma flows_NoDup m : map_ok m -> NoDup ((entry <$> heap_ m).*1).
Proof.
  intros Hm. rewrite <- list_fmap_compose. apply NoDup_alt. intros i j f Hi Hj.
  rewrite list_lookup_fmap in Hi, Hj. by eapply map_ok_inj.
Qed.

Lemma armed_lookup m f n :
  map_ok m -> armed m !! f = Some n <-> n ∈ heap_ m /\ nflow n = f.
Proof.
  intros Hm. unfold armed. rewrite <- elem_of_list_to_map by (by apply flows_NoDup).
  rewrite list_elem_of_fmap. unfold entry. split.
  - by intros (? & [= -> ->] & ?).
  - intros [? <-]. by exists n.
Qed.

Lemma armed_index m f :
  map_ok m -> armed m !! f = i ← flow_map_ m !! f; heap_ m !! i.
Proof.
  intros Hm. destruct (flow_map_ m !! f) as [i|] eqn:E; simpl.
  - apply Hm in E as Hi. apply fmap_Some in Hi as (n & Hn & ->). rewrite Hn.
    apply armed_lookup; [done|]. split; [by eapply list_elem_of_lookup_2|done].
  - apply eq_None_not_Some. intros [n Hn]. apply armed_lookup in Hn as [Hin Hf]; [|done].
    by eapply map_ok_None.
Qed.

Lemma armed_Permutation m l :
  map_ok m -> heap_ m ≡ₚ l -> armed m = list_to_map (entry <$> l).
Proof.
  intros Hm Hp. apply list_to_map_proper; [by apply flows_NoDup|]. by rewrite Hp.
Qed.

(** A timer taken out of the heap is taken out of the map. *)
Lemma armed_delete m m' n :
  map_ok m -> map_ok m' -> heap_ m ≡ₚ n :: heap_ m' ->
  armed m' = delete (nflow n) (armed m).
Proof.
  intros Hm Hm' Hp. rewrite (armed_Permutation m _ Hm Hp). simpl.
  rewrite delete_insert_id; [done|]. apply not_elem_of_list_to_map_1.
  pose proof (flows_NoDup m Hm) as Hnd. rewrite Hp in Hnd. simpl in Hnd.
  by apply NoDup_cons in Hnd as [? _].
Qed.

(** A timer replaced in the heap is replaced in the map. *)
Lemma armed_update m m' n n' r :
  map_ok m -> map_ok m' -> heap_ m ≡ₚ n :: r -> heap_ m' ≡ₚ n' :: r ->
  nflow n' = nflow n -> armed m' = <[nflow n := n']> (armed m).
Proof.
  intros Hm Hm' Hp Hp' Hf.
  rewrite (armed_Permutation m _ Hm Hp), (armed_Permutation m' _ Hm' Hp'). simpl.
  by rewrite Hf, insert_insert_eq.
Qed.

Lemma wf_last m n i :
  wf m -> flow_map_ m !! nflow n = Some i -> heap_ m !! i = Some n ->
  exists h b, heap_ m = h ++ [b] /\ (i <= length h)%nat /\
    (i = length h -> b = n).
Proof.
  intros _ _ Hi. destruct (exists_last (l := heap_ m)) as (h & b & E).
  { intros E. by rewrite E in Hi. }
  exists h, b. rewrite E in Hi. apply lookup_lt_Some in Hi as Hl.
  rewrite length_app in Hl. simpl in Hl. split_and!; [done|lia|]. intros ->.
  rewrite lookup_app_r, Nat.sub_diag in Hi by lia. by simplify_eq/=.
Qed.

Lemma drop_last_wf m h b :
  wf m -> heap_ m = h ++ [b] -> wf (Mk h (delete (nflow b) (flow_map_ m))).
Proof.
  intros [Hh Hm] E. split; simpl.
  - rewrite E in Hh. intros j Hj. specialize (Hh j). rewrite length_app in Hh.
    pose proof (parent_lt j ltac:(lia)). rewrite !key_app_l in Hh by lia. apply Hh. lia.
  - intros f j. simpl. rewrite lookup_delete_Some, (Hm f j), E.
    assert (nflow <$> heap_ m !! length h = Some (nflow b)) as Fb
      by (by rewrite E, lookup_app_r, Nat.sub_diag by done).
    destruct (decide (j < length h)%nat) as [Hj|Hj].
    + rewrite lookup_app_l by done. split; [by intros [_ ?]|]. intros Hf.
      split; [|done]. intros <-.
      assert (j = length h); [|lia]. apply (map_ok_inj m j (length h) (nflow b)); [done| |done].
      by rewrite E, lookup_app_l.
    + rewrite (lookup_ge_None_2 h j) by lia. split; [|done]. intros [Hb Hf].
      rewrite lookup_app_r in Hf by lia. apply fmap_Some in Hf as (x & Hx & ->).
      apply list_lookup_singleton_Some in Hx as [_ <-]. done.
Qed.

(** Removing the node at [i]. *)
Lemma disarm_timer_ok d m :
  wf m -> wf (disarm_timer d m) /\ armed (disarm_timer d m) = delete (flow d) (armed m).
Proof.
  intros Hwf. pose proof Hwf as [Hh Hm]. unfold disarm_timer.
  pose proof (armed_index m (flow d) Hm) as Hidx.
  destruct (flow_map_ m !! flow d) as [i|] eqn:E; simpl in Hidx.
  2: { split; [done|]. by rewrite delete_id. }
  apply Hm in E as Hi. apply fmap_Some in Hi as (n & Hn & Hf). rewrite Hf in *.
  destruct (wf_last m n i Hwf E Hn) as (h & b & Eh & Hle & Hlast).
  rewrite Eh, length_app, removelast_last, last_snoc. simpl.
  destruct (Nat.eqb_spec i (length h + 1 - 1)).
  - rewrite <- Hlast by lia. pose proof (drop_last_wf m h b Hwf Eh) as Hw.
    split; [done|]. apply armed_delete; [done|apply Hw|]. rewrite Eh. simpl. solve_Permutation.
  - assert (i < length h)%nat as Hlt by lia.
    assert (h !! i = Some n) as Hhi by (by rewrite Eh, lookup_app_l in Hn).
    rewrite insert_app_l, removelast_last by done.
    pose proof (remove_map_ok m h b i n Hm Eh Hhi) as Hm1.
    destruct (adjust_heap_node_ok i
      (Mk (<[i := b]> h) (<[nflow b := i]> (delete (nflow n) (flow_map_ m))))) as [H1 H2 H3];
      [unfold size; simpl; by rewrite length_insert| |done|].
    { apply remove_mid; [by rewrite <- Eh|done]. }
    split; [by split|]. apply armed_delete; [done|done|]. rewrite H3, Eh. simpl.
    rewrite insert_Permutation by done. solve_Permutation.
Qed.

Lemma arm_timer_ok now timeout d m :
  wf m -> wf (arm_timer now timeout d m) /\
  armed (arm_timer now timeout d m) =
  match armed m !! flow d with
  | Some _ => armed m
  | None => <[flow d := Node (now +[64] timeout) d]> (armed m)
  end.
Proof.
  intros Hwf. unfold arm_timer. rewrite (armed_index m (flow d)) by apply Hwf.
  destruct (flow_map_ m !! flow d) as [i|] eqn:E; simpl.
  - apply Hwf in E. by apply fmap_Some in E as (n & -> & _).
  - destruct (add_timer_ok d (now +[64] timeout) m Hwf E) as [Hw Hp].
    split; [done|]. by rewrite (armed_Permutation _ _ (proj2 Hw) Hp).
Qed.

(** An existing timer keeps its data. *)
Lemma rearm_timer_ok now timeout d m :
  wf m -> wf (rearm_timer now timeout d m) /\
  armed (rearm_timer now timeout d m) =
  <[flow d := Node (now +[64] timeout)
                (match armed m !! flow d with Some n => data n | None => d end)]> (armed m).
Proof.
  intros Hwf. pose proof Hwf as [Hh Hm]. unfold rearm_timer.
  rewrite (armed_index m (flow d)) by done.
  destruct (flow_map_ m !! flow d) as [i|] eqn:E; simpl.
  2: { destruct (add_timer_ok d (now +[64] timeout) m Hwf E) as [Hw Hp].
       split; [done|]. by rewrite (armed_Permutation _ _ (proj2 Hw) Hp). }
  apply Hwf in E as Hi. apply fmap_Some in Hi as (n & Hn & Hf). rewrite Hn, Hf.
  set (n' := Node (now +[64] timeout) (data n)).
  assert (alter (fun n => Node (now +[64] timeout) (data n)) i (heap_ m) = <[i := n']> (heap_ m))
    as -> by (rewrite list_insert_alter; apply list_alter_ext; [intros; by simplify_eq|done]).
  destruct (adjust_heap_node_ok i (Mk (<[i := n']> (heap_ m)) (flow_map_ m))) as [H1 H2 H3].
  - unfold size; simpl. rewrite length_insert. by eapply lookup_lt_Some.
  - by apply alter_mid.
  - by eapply insert_map_ok.
  - split; [by split|].
    apply (armed_update m _ n n' (delete i (heap_ m))); [done|done|by apply delete_Permutation| |done].
    rewrite H3. simpl. apply (Permutation_cons_inv (a := n)).
    rewrite insert_Permutation by done. rewrite (delete_Permutation (heap_ m) i n) at 1 by done.
    apply Permutation_swap.
Qed.

(** Removing the root. *)
Lemma pop_root_ok n m l :
  wf m -> heap_ m = n :: l ->
  wf (pop_root n m) /\ n :: heap_ (pop_root n m) ≡ₚ heap_ m.
Proof.
  intros Hwf El. pose proof Hwf as [Hh Hm]. unfold pop_root.
  destruct (exists_last (l := heap_ m)) as (h & b & Eh); [by rewrite El|].
  assert ((h = [] /\ b = n) \/ (h !! 0%nat = Some n)) as [[-> ->]|H0].
  { destruct h as [|x h]; rewrite Eh in El; simplify_eq/=; auto. }
  - pose proof (drop_last_wf m [] n Hwf Eh). by rewrite Eh.
  - apply lookup_lt_Some in H0 as Hlt.
    rewrite Eh, last_snoc, length_app. simpl.
    rewrite (proj2 (Nat.ltb_lt _ _)) by lia.
    rewrite insert_app_l, removelast_last, length_insert by done.
    rewrite (proj2 (Nat.eqb_neq _ _)) by lia.
    pose proof (remove_map_ok m h b 0 n Hm Eh H0) as Hm1.
    destruct (heapify_down_loop_ok (length (<[0%nat := b]> h)) 0
      (Mk (<[0%nat := b]> h) (<[nflow b := 0%nat]> (delete (nflow n) (flow_map_ m)))))
      as [H1 H2 H3]; [unfold size; simpl; lia|unfold size; simpl; by rewrite length_insert| |done|].
    { split; [|lia]. apply remove_mid; [by rewrite <- Eh|done]. }
    unfold heapify_down, size. simpl. rewrite Nat.sub_0_r.
    split; [by split|]. rewrite H3. simpl. rewrite insert_Permutation by done.
    solve_Permutation.
Qed.

Lemma root_min m n l x :
  wf m -> heap_ m = n :: l -> x ∈ heap_ m -> expire n <= expire x.
Proof.
  intros [Hh _] El [i Hi]%list_elem_of_lookup.
  assert (forall k i, (i <= k)%nat -> (i < length (heap_ m))%nat ->
            key (heap_ m) 0 <= key (heap_ m) i) as Hmin.
  { induction k as [|k IH]; intros j Hj Hl.
    - by replace j with 0%nat by lia.
    - destruct (decide (j = 0)%nat) as [->|]; [done|].
      pose proof (parent_lt j ltac:(lia)). specialize (IH (parent j) ltac:(lia) ltac:(lia)).
      specialize (Hh j ltac:(lia)). lia. }
  specialize (Hmin i i ltac:(lia) (lookup_lt_Some _ _ _ Hi)).
  unfold key in Hmin. rewrite Hi, El in Hmin. done.
Qed.

(** [check_expired] takes out exactly the expired timers, earliest first. *)
Lemma check_expired_loop_ok fuel now : forall m,
  wf m -> (size m <= fuel)%nat ->
  let '(out, m') := check_expired_loop fuel now m in
  exists ns, out = data <$> ns /\ wf m' /\ ns ++ heap_ m' ≡ₚ heap_ m /\
    StronglySorted Z.le (expire <$> ns) /\ Forall (fun n => expire n <= now) ns /\
    Forall (fun n => now < expire n) (heap_ m').
Proof.
  induction fuel as [|fuel IH]; intros m Hwf Hf; simpl.
  { exists []. unfold size in Hf. destruct (heap_ m) eqn:E; simpl in Hf; [|lia].
    split_and!; first [done|constructor]. }
  destruct (heap_ m) as [|n l] eqn:E.
  { exists []. rewrite E. split_and!; first [done|constructor]. }
  destruct (Z.leb_spec (expire n) now) as [Hle|Hgt].
  - destruct (pop_root_ok n m l Hwf E) as [Hw Hp].
    assert (size (pop_root n m) <= fuel)%nat as Hs.
    { apply Permutation_length in Hp. unfold size in *. simpl in Hp. lia. }
    specialize (IH _ Hw Hs). destruct (check_expired_loop _ _ _) as [out m'].
    destruct IH as (ns & -> & Hw' & Hp' & Hsort & Hns & Hrest).
    exists (n :: ns). split_and!; [done|done| | |by constructor|done].
    + rewrite <- E, <- Hp. simpl. by rewrite Hp'.
    + simpl. constructor; [done|]. apply Forall_fmap, Forall_forall. intros x Hx. simpl.
      apply (root_min m n l x Hwf E). rewrite <- Hp, <- Hp'. set_solver.
  - exists []. split_and!; [done|done|by rewrite E|constructor|constructor|].
    apply Forall_forall. intros x Hx. pose proof (root_min m n l x Hwf E Hx). lia.
Qed.

(** ** The manager against its specification *)

Inductive op :=
  | Arm (now timeout : Z) (d : TimerData)
  | Rearm (now timeout : Z) (d : TimerData)
  | Disarm (d : TimerData)
  | CheckExpired (now : Z).

Definition step (o : op) (m : t) : list TimerData * t :=
  match o with
  | Arm now timeout d => ([], arm_timer now timeout d m)
  | Rearm now timeout d => ([], rearm_timer now timeout d m)
  | Disarm d => ([], disarm_timer d m)
  | CheckExpired now => check_expired now m
  end.

Fixpoint exec (ops : list op) (m : t) : list (list TimerData) * t :=
  match ops with
  | [] => ([], m)
  | o :: ops =>
      let '(out, m) := step o m in
      let '(outs, m) := exec ops m in (out :: outs, m)
  end.

(** What a call does to the map of armed timers, and what it returns. *)
Inductive spec_step : op -> gmap Z TimerNode -> list TimerData -> gmap Z TimerNode -> Prop :=
  | spec_arm_again now timeout d M n :
      M !! flow d = Some n -> spec_step (Arm now timeout d) M [] M
  | spec_arm_new now timeout d M :
      M !! flow d = None ->
      spec_step (Arm now timeout d) M [] (<[flow d := Node (now +[64] timeout) d]> M)
  | spec_rearm now timeout d M d' :
      d' = match M !! flow d with Some n => data n | None => d end ->
      spec_step (Rearm now timeout d) M [] (<[flow d := Node (now +[64] timeout) d']> M)
  | spec_disarm d M : spec_step (Disarm d) M [] (delete (flow d) M)
  | spec_check now M ns :
      ns ≡ₚ filter (fun n => expire n <= now) (map_to_list M).*2 ->
      StronglySorted Z.le (expire <$> ns) ->
      spec_step (CheckExpired now) M (data <$> ns)
        (filter (fun kn => now < expire kn.2) M).

Inductive spec_exec : list op -> gmap Z TimerNode -> list (list TimerData) -> gmap Z TimerNode -> Prop :=
  | spec_nil M : spec_exec [] M [] M
  | spec_cons o ops M out M1 outs M2 :
      spec_step o M out M1 -> spec_exec ops M1 outs M2 ->
      spec_exec (o :: ops) M (out :: outs) M2.

Lemma armed_values m : map_ok m -> (map_to_list (armed m)).*2 ≡ₚ heap_ m.
Proof.
  intros Hm. unfold armed. rewrite map_to_list_to_map by (by apply flows_NoDup).
  rewrite <- list_fmap_compose. unfold compose, entry. simpl. by rewrite list_fmap_id.
Qed.

Lemma filter_app_disjoint {A} (P : A -> Prop) `{!forall x, Decision (P x)} (l k : list A) :
  Forall P l -> Forall (fun x => ~ P x) k -> filter P (l ++ k) = l.
Proof.
  intros Hl Hk. induction Hl as [|x l Hx Hl IH]; simpl.
  - induction Hk; [done|]. by rewrite filter_cons_False.
  - by rewrite filter_cons_True, IH.
Qed.

Lemma check_expired_ok now m :
  wf m -> wf (check_expired now m).2 /\
  spec_step (CheckExpired now) (armed m) (check_expired now m).1 (armed (check_expired now m).2).
Proof.
  intros Hwf. pose proof (check_expired_loop_ok (size m) now m Hwf ltac:(done)) as H.
  unfold check_expired. destruct (check_expired_loop _ _ _) as [out m'].
  destruct H as (ns & -> & Hw' & Hp & Hsort & Hns & Hrest). simpl. split; [done|].
  destruct Hwf as [_ Hm]. pose proof Hw' as [_ Hm'].
  assert (armed m' = filter (fun kn => now < expire kn.2) (armed m)) as ->.
  { apply map_eq. intros f. apply option_eq. intros n. rewrite map_lookup_filter_Some.
    rewrite !armed_lookup by done. rewrite <- Hp, elem_of_app. rewrite Forall_forall in *.
    split.
    - intros [Hin <-]. split; [by auto|]. by apply Hrest.
    - intros [[[Hin|Hin] <-] Hlt]; [|done]. specialize (Hns n Hin). simpl in *. lia. }
  constructor; [|done]. rewrite (armed_values m Hm), <- Hp.
  rewrite filter_app_disjoint; [done|done|].
  eapply Forall_impl; [exact Hrest|]. simpl. lia.
Qed.

Lemma step_refines o m :
  wf m -> wf (step o m).2 /\ spec_step o (armed m) (step o m).1 (armed (step o m).2).
Proof.
  intros Hwf. destruct o as [now to d|now to d|d|now]; simpl.
  - destruct (arm_timer_ok now to d m Hwf) as [? ->]. split; [done|].
    destruct (armed m !! flow d) eqn:E; by econstructor.
  - destruct (rearm_timer_ok now to d m Hwf) as [? ->]. split; [done|]. by constructor.
  - destruct (disarm_timer_ok d m Hwf) as [? ->]. split; [done|]. by constructor.
  - by apply check_expired_ok.
Qed.

Definition TimerManager : t := Mk [] ∅.

Lemma TimerManager_wf : wf TimerManager.
Proof. split; [intros j; simpl; lia|]. intros f i. simpl. by rewrite lookup_empty. Qed.

Lemma exec_refines ops : forall m,
  wf m -> wf (exec ops m).2 /\ spec_exec ops (armed m) (exec ops m).1 (armed (exec ops m).2).
Proof.
  induction ops as [|o ops IH]; intros m Hwf; simpl; [by split; [|constructor]|].
  destruct (step_refines o m Hwf) as [Hw Hs]. destruct (step o m) as [out m1].
  destruct (IH m1 Hw) as [Hw2 Hs2]. destruct (exec ops m1) as [outs m2].
  simpl in *. split; [done|]. by econstructor.
Qed.

(** C23: a [TimerManager] is a finite map from flows to timers.  Whatever
    sequence of calls is made on a new manager, [arm_timer] adds a timer only
    for a flow without one, [rearm_timer] sets the expiry of the flow's timer
    (adding one if needed), [disarm_timer] removes it, and [check_expired]
    returns exactly the timers that have expired, earliest first, and removes
    them; in the end the heap is ordered and the index map exact. *)
Theorem timer_manager_refines_map ops :
  wf (exec ops TimerManager).2 /\
  spec_exec ops ∅ (exec ops TimerManager).1 (armed (exec ops TimerManager).2).
Proof. apply (exec_refines ops TimerManager), TimerManager_wf. Qed.

End Timer.
