(* ===== verification/IntrusiveList.v ===== *)
(** * Intrusive lists

    [include/util/list.h]: circular doubly linked lists through [list_head]
    members.  Nodes live in a memory indexed by their addresses; the pointer
    operations are shown to be those of a sequence, so that clients can be
    modelled with sequences. *)

From S2P Require Import Prelude.

Module LL.

Record list_head := Node { next : Z; prev : Z }.

Abbreviation mem := (gmap Z list_head).

Definition get (a : Z) (m : mem) : result list_head :=
  match m !! a with Some n => Done n | None => Fail OutOfBounds end.

(** [p->next = v] and [p->prev = v]. *)
Definition set_next (p v : Z) (m : mem) : result mem :=
  n ← get p m; Done (<[p := Node v (prev n)]> m).
Definition set_prev (p v : Z) (m : mem) : result mem :=
  n ← get p m; Done (<[p := Node (next n) v]> m).

Definition INIT_LIST_HEAD (list : Z) (m : mem) : result mem :=
  m ← set_next list list m; set_prev list list m.

Definition __list_add (new_node prv nxt : Z) (m : mem) : result mem :=
  m ← set_prev nxt new_node m;
  m ← set_next new_node nxt m;
  m ← set_prev new_node prv m;
  set_next prv new_node m.

Definition list_add (new_node head : Z) (m : mem) : result mem :=
  h ← get head m; __list_add new_node head (next h) m.

Definition list_add_tail (new_node head : Z) (m : mem) : result mem :=
  h ← get head m; __list_add new_node (prev h) head m.

Definition __list_del (prv nxt : Z) (m : mem) : result mem :=
  m ← set_prev nxt prv m; set_next prv nxt m.

Definition list_del (entry : Z) (m : mem) : result mem :=
  e ← get entry m;
  m ← __list_del (prev e) (next e) m;
  m ← set_next entry entry m;
  set_prev entry entry m.

Definition list_empty (head : Z) (m : mem) : result bool :=
  h ← get head m; Done (next h =? head).

(** ** The sequence of a list *)

Definition nxt (m : mem) (a : Z) : option Z := next <$> m !! a.
Definition prv (m : mem) (a : Z) : option Z := prev <$> m !! a.

(** Consecutive nodes point to each other. *)
Fixpoint links (m : mem) (l : list Z) : Prop :=
  match l with
  | a :: ((b :: _) as l') => nxt m a = Some b /\ prv m b = Some a /\ links m l'
  | _ => True
  end.

(** The list with head [h] holds [l]. *)
Definition repr (m : mem) (h : Z) (l : list Z) : Prop :=
  NoDup (h :: l) /\ links m (h :: l ++ [h]).

(** A node that is in no list points to itself. *)
Definition alone (m : mem) (a : Z) : Prop := nxt m a = Some a /\ prv m a = Some a.

Lemma links_app m l a k : links m (l ++ a :: k) <-> links m (l ++ [a]) /\ links m (a :: k).
Proof.
  induction l as [|x l IH]; [simpl; tauto|]. destruct l as [|y l]; simpl in *; [tauto|].
  rewrite IH. tauto.
Qed.

(** Only the [next] of all but the last and the [prev] of all but the first
    node matter. *)
Lemma links_frame m m' l :
  links m l ->
  (forall i a, l !! i = Some a -> (S i < length l)%nat -> nxt m' a = nxt m a) ->
  (forall i a, l !! S i = Some a -> prv m' a = prv m a) -> links m' l.
Proof.
  induction l as [|a [|b l] IH]; try done. intros (H1 & H2 & H3) Hn Hp.
  split; [rewrite (Hn 0%nat a); [done|done|simpl; lia]|].
  split; [by rewrite (Hp 0%nat b)|]. apply IH; [done| |].
  - intros i x Hx Hi. apply (Hn (S i)); [done|simpl in *; lia].
  - intros i x Hx. by apply (Hp (S i)).
Qed.

Lemma get_done a m n : m !! a = Some n -> get a m = Done n.
Proof. unfold get. by intros ->. Qed.

Lemma nxt_lookup m a b : nxt m a = Some b -> exists n, m !! a = Some n /\ next n = b.
Proof. unfold nxt. destruct (m !! a); simpl; naive_solver. Qed.
Lemma prv_lookup m a b : prv m a = Some b -> exists n, m !! a = Some n /\ prev n = b.
Proof. unfold prv. destruct (m !! a); simpl; naive_solver. Qed.

(** The effect of the pointer writes. *)
Lemma set_next_ok p v m : is_Some (m !! p) ->
  exists m', set_next p v m = Done m' /\ nxt m' p = Some v /\ (forall a, a <> p -> nxt m' a = nxt m a) /\
    (forall a, prv m' a = prv m a) /\ (forall a, is_Some (m' !! a) <-> is_Some (m !! a)) /\
    (forall a, a <> p -> m' !! a = m !! a).
Proof.
  intros [n Hn]. unfold set_next. rewrite (get_done _ _ _ Hn). cbn [mbind result_bind].
  eexists. split; [done|]. unfold nxt, prv. split_and!.
  - by rewrite lookup_insert_eq.
  - intros a Ha. by rewrite lookup_insert_ne.
  - intros a. destruct (decide (a = p)) as [->|]; [by rewrite lookup_insert_eq, Hn|by rewrite lookup_insert_ne].
  - intros a. destruct (decide (a = p)) as [->|]; [rewrite lookup_insert_eq, Hn|by rewrite lookup_insert_ne].
    split; eauto.
  - intros a Ha. by rewrite lookup_insert_ne.
Qed.

Lemma set_prev_ok p v m : is_Some (m !! p) ->
  exists m', set_prev p v m = Done m' /\ prv m' p = Some v /\ (forall a, a <> p -> prv m' a = prv m a) /\
    (forall a, nxt m' a = nxt m a) /\ (forall a, is_Some (m' !! a) <-> is_Some (m !! a)) /\
    (forall a, a <> p -> m' !! a = m !! a).
Proof.
  intros [n Hn]. unfold set_prev. rewrite (get_done _ _ _ Hn). cbn [mbind result_bind].
  eexists. split; [done|]. unfold nxt, prv. split_and!.
  - by rewrite lookup_insert_eq.
  - intros a Ha. by rewrite lookup_insert_ne.
  - intros a. destruct (decide (a = p)) as [->|]; [by rewrite lookup_insert_eq, Hn|by rewrite lookup_insert_ne].
  - intros a. destruct (decide (a = p)) as [->|]; [rewrite lookup_insert_eq, Hn|by rewrite lookup_insert_ne].
    split; eauto.
  - intros a Ha. by rewrite lookup_insert_ne.
Qed.

Lemma list_add_between x p n m :
  x <> p -> x <> n -> is_Some (m !! x) -> is_Some (m !! p) -> is_Some (m !! n) ->
  exists m', __list_add x p n m = Done m' /\
    nxt m' p = Some x /\ prv m' x = Some p /\ nxt m' x = Some n /\ prv m' n = Some x /\
    (forall a, a <> p -> a <> x -> nxt m' a = nxt m a) /\
    (forall a, a <> n -> a <> x -> prv m' a = prv m a) /\
    (forall a, is_Some (m' !! a) <-> is_Some (m !! a)) /\
    (forall a, a ∉ [x; p; n] -> m' !! a = m !! a).
Proof.
  intros Hp Hn Ex Ep En. unfold __list_add.
  destruct (set_prev_ok n x m En) as (m1 & -> & A1 & A2 & A3 & A4 & A5). cbn [mbind result_bind].
  destruct (set_next_ok x n m1) as (m2 & -> & B1 & B2 & B3 & B4 & B5); [by apply A4|]. cbn [mbind result_bind].
  destruct (set_prev_ok x p m2) as (m3 & -> & C1 & C2 & C3 & C4 & C5); [by apply B4, A4|]. cbn [mbind result_bind].
  destruct (set_next_ok p x m3) as (m4 & -> & D1 & D2 & D3 & D4 & D5); [by apply C4, B4, A4|].
  exists m4. split_and!; [done|done|..].
  - by rewrite D3.
  - by rewrite D2, C3.
  - by rewrite D3, C2, B3.
  - intros a ? ?. by rewrite D2, C3, B2, A3.
  - intros a ? ?. by rewrite D3, C2, B3, A2.
  - intros a. by rewrite D4, C4, B4, A4.
  - intros a Ha. rewrite !elem_of_cons in Ha. rewrite D5, C5, B5, A5; naive_solver.
Qed.

Lemma list_del_between p n m :
  is_Some (m !! p) -> is_Some (m !! n) ->
  exists m', __list_del p n m = Done m' /\ nxt m' p = Some n /\ prv m' n = Some p /\
    (forall a, a <> p -> nxt m' a = nxt m a) /\ (forall a, a <> n -> prv m' a = prv m a) /\
    (forall a, is_Some (m' !! a) <-> is_Some (m !! a)) /\
    (forall a, a ∉ [p; n] -> m' !! a = m !! a).
Proof.
  intros Ep En. unfold __list_del.
  destruct (set_prev_ok n p m En) as (m1 & -> & A1 & A2 & A3 & A4 & A5). cbn [mbind result_bind].
  destruct (set_next_ok p n m1) as (m2 & -> & B1 & B2 & B3 & B4 & B5); [by apply A4|].
  exists m2. split_and!; [done|done|..].
  - by rewrite B3.
  - intros a ?. by rewrite B2, A3.
  - intros a ?. by rewrite B3, A2.
  - intros a. by rewrite B4, A4.
  - intros a Ha. rewrite !elem_of_cons in Ha. rewrite B5, A5; naive_solver.
Qed.

(** The pairs of neighbours of [A ++ p :: n :: B]. *)
Lemma links_cut m A p n B :
  links m (A ++ p :: n :: B) <->
  links m (A ++ [p]) /\ nxt m p = Some n /\ prv m n = Some p /\ links m (n :: B).
Proof. rewrite links_app. simpl. tauto. Qed.

Lemma links_is_Some m l i a : links m l -> (1 < length l)%nat -> l !! i = Some a -> is_Some (m !! a).
Proof.
  revert i. induction l as [|x [|y l] IH]; intros i Hl Hlen Hi; try (simpl in *; lia).
  destruct Hl as (H1 & H2 & Hl). destruct i as [|i]; simpl in Hi.
  - injection Hi as ->. apply nxt_lookup in H1 as (? & ? & _). eauto.
  - destruct l as [|z l].
    + destruct i; [|done]. injection Hi as ->. apply prv_lookup in H2 as (? & ? & _). eauto.
    + apply (IH i); [done|simpl; lia|done].
Qed.

Lemma repr_is_Some m h l a : repr m h l -> a ∈ h :: l -> is_Some (m !! a).
Proof.
  intros [_ Hl] [i Hi]%list_elem_of_lookup. eapply links_is_Some; [exact Hl| |].
  - simpl. rewrite length_app. simpl. lia.
  - rewrite app_comm_cons. by apply lookup_app_l_Some.
Qed.

(** The cycle of a list around the gap between [p] and [n]. *)
Lemma cycle_nodup h (l1 l2 A B : list Z) p n :
  NoDup (h :: l1 ++ l2) -> h :: l1 = A ++ [p] -> l2 ++ [h] = n :: B ->
  p ∉ A /\ n ∉ B /\ (forall a, a ∈ A ++ [p] -> a ∈ h :: l1) /\ (forall a, a ∈ n :: B -> a ∈ l2 ++ [h]) /\
  n ∉ drop 1 (A ++ [p]) /\ p ∉ take (length B) (n :: B).
Proof.
  intros Hnd EA EB. rewrite app_comm_cons in Hnd. apply NoDup_app in Hnd as (H1 & H2 & H3).
  assert (NoDup (l2 ++ [h])) as H4.
  { apply NoDup_app. split; [done|]. split; [|apply NoDup_singleton].
    intros a Ha ->%list_elem_of_singleton. apply (H2 h); [left|done]. }
  pose proof H1 as H1'. pose proof H4 as H4'. rewrite EA in H1'. rewrite EB in H4'.
  apply NoDup_app in H1' as (_ & H5 & _). apply NoDup_cons in H4' as [H6 _].
  split_and!.
  - intros Hp. apply (H5 p Hp). by left.
  - done.
  - intros a. by rewrite EA.
  - intros a. by rewrite EB.
  - rewrite <- EA. simpl. rewrite drop_0. intros Hn. apply NoDup_cons in H1 as [H1 _].
    assert (n ∈ l2 ++ [h]) as [Hin| ->%list_elem_of_singleton]%elem_of_app by (rewrite EB; left); [|done].
    apply (H2 n); [by right|done].
  - replace (take (length B) (n :: B)) with l2.
    + intros Hp. apply (H2 p); [|done]. rewrite EA. apply elem_of_app. right. left.
    + rewrite <- EB, take_app_length'; [done|]. apply (f_equal length) in EB.
      rewrite length_app in EB. simpl in EB. lia.
Qed.

(** The halves of the cycle next to the gap are untouched by writes there. *)
Lemma halves_frame m m' h l1 l2 A B p n x :
  NoDup (h :: l1 ++ l2) -> h :: l1 = A ++ [p] -> l2 ++ [h] = n :: B -> x ∉ h :: l1 ++ l2 ->
  links m (A ++ [p]) -> links m (n :: B) ->
  (forall a, a <> p -> a <> x -> nxt m' a = nxt m a) ->
  (forall a, a <> n -> a <> x -> prv m' a = prv m a) ->
  links m' (A ++ [p]) /\ links m' (n :: B).
Proof.
  intros Hnd EA EB Hx HA HB Hn Hp.
  destruct (cycle_nodup h l1 l2 A B p n Hnd EA EB) as (K1 & K2 & K3 & K4 & K5 & K6).
  assert (x ∉ A ++ [p]) as XA by (intros ?%K3; set_solver).
  assert (x ∉ n :: B) as XB by (intros ?%K4; set_solver).
  split; (eapply links_frame; [eassumption|..]).
  - intros i a Ha Hi. rewrite length_app in Hi. simpl in Hi. rewrite lookup_app_l in Ha by lia.
    apply list_elem_of_lookup_2 in Ha. apply Hn; [congruence|]. intros ->. apply XA, elem_of_app. by left.
  - intros i a Ha. assert (a ∈ drop 1 (A ++ [p])) as Hin.
    { apply (list_elem_of_lookup_2 _ i). by rewrite lookup_drop. }
    apply list_elem_of_lookup_2 in Ha. apply Hp; congruence.
  - intros i a Ha Hi. simpl in Hi. assert (a ∈ take (length B) (n :: B)) as Hin.
    { apply (list_elem_of_lookup_2 _ i). rewrite lookup_take_lt; [done|lia]. }
    apply list_elem_of_lookup_2 in Ha. apply Hn; congruence.
  - intros i a Ha. simpl in Ha. apply list_elem_of_lookup_2 in Ha.
    apply Hp; [congruence|]. intros ->. apply XB. by right.
Qed.

Lemma insert_repr m h l1 l2 A B p n x :
  repr m h (l1 ++ l2) -> h :: l1 = A ++ [p] -> l2 ++ [h] = n :: B ->
  x ∉ h :: l1 ++ l2 -> is_Some (m !! x) ->
  exists m', __list_add x p n m = Done m' /\ repr m' h (l1 ++ x :: l2) /\
    (forall a, is_Some (m' !! a) <-> is_Some (m !! a)) /\
    (forall a, a ∉ x :: h :: l1 ++ l2 -> m' !! a = m !! a).
Proof.
  intros [Hnd Hl] EA EB Hx Ex.
  assert (h :: (l1 ++ l2) ++ [h] = A ++ p :: n :: B) as E.
  { rewrite <- app_assoc, EB, app_comm_cons, EA, <- app_assoc. done. }
  rewrite E in Hl. apply links_cut in Hl as (HA & H1 & H2 & HB).
  assert (p ∈ h :: l1 ++ l2) as Hp by (rewrite app_comm_cons, EA; set_solver).
  assert (n ∈ h :: l1 ++ l2) as Hn.
  { assert (n ∈ l2 ++ [h]) as Hin by (rewrite EB; left). set_solver. }
  destruct (list_add_between x p n m) as (m' & Em & N1 & P1 & N2 & P2 & F1 & F2 & F3 & F4);
    [congruence|congruence|done|..].
  { apply nxt_lookup in H1 as (? & ? & _). eauto. }
  { apply prv_lookup in H2 as (? & ? & _). eauto. }
  destruct (halves_frame m m' h l1 l2 A B p n x) as [HA' HB']; try done.
  exists m'. split_and!; [done| |done|].
  - split.
    + rewrite app_comm_cons in Hnd |- *. apply NoDup_app in Hnd as (K1 & K2 & K3).
      apply NoDup_app. split_and!; [done|set_solver|]. constructor; [set_solver|done].
    + replace (h :: (l1 ++ x :: l2) ++ [h]) with (A ++ p :: x :: n :: B).
      * apply links_cut. split; [done|]. split; [done|]. split; [done|]. simpl. done.
      * rewrite <- app_assoc, <- app_comm_cons, EB, app_comm_cons, EA, <- app_assoc. done.
  - intros a Ha. apply F4. set_solver.
Qed.

Lemma split_head h (l1 : list Z) : exists A p, h :: l1 = A ++ [p].
Proof. destruct (exists_last (l := h :: l1)) as (A & p & ->); [done|]. eauto. Qed.
Lemma split_tail (l2 : list Z) h : exists n B, l2 ++ [h] = n :: B.
Proof. destruct l2; simpl; eauto. Qed.

Lemma delete_repr m h l1 l2 x :
  repr m h (l1 ++ x :: l2) ->
  exists m', list_del x m = Done m' /\ repr m' h (l1 ++ l2) /\ alone m' x /\
    forall a, a ∉ h :: l1 ++ x :: l2 -> m' !! a = m !! a.
Proof.
  intros [Hnd Hl]. destruct (split_head h l1) as (A & p & EA). destruct (split_tail l2 h) as (n & B & EB).
  assert (h :: (l1 ++ x :: l2) ++ [h] = A ++ p :: x :: n :: B) as E.
  { rewrite <- app_assoc, <- app_comm_cons, EB, app_comm_cons, EA, <- app_assoc. done. }
  rewrite E in Hl. apply links_cut in Hl as (HA & H1 & H2 & H3 & H4 & HB).
  rewrite app_comm_cons in Hnd. apply NoDup_app in Hnd as (K1 & K2 & K3). apply NoDup_cons in K3 as [K3 K4].
  assert (NoDup (h :: l1 ++ l2)) as Hnd'.
  { rewrite app_comm_cons. apply NoDup_app. split_and!; [done|set_solver|done]. }
  assert (x ∉ h :: l1 ++ l2) as Hx.
  { rewrite app_comm_cons, elem_of_app. intros [Hin|Hin]; [|done]. apply (K2 _ Hin). left. }
  assert (p ∈ h :: l1 ++ l2) as Hp by (rewrite app_comm_cons, EA; set_solver).
  assert (n ∈ h :: l1 ++ l2) as Hn.
  { assert (n ∈ l2 ++ [h]) as Hin by (rewrite EB; left). set_solver. }
  apply nxt_lookup in H3 as (e & Ee & En). apply prv_lookup in H2 as (e' & Ee' & Ep).
  assert (e' = e) as -> by congruence.
  unfold list_del. rewrite (get_done _ _ _ Ee). cbn [mbind result_bind]. rewrite En, Ep.
  destruct (list_del_between p n m) as (m1 & -> & N1 & P1 & F1 & F2 & F3 & F4).
  { apply nxt_lookup in H1 as (? & ? & _). eauto. }
  { apply prv_lookup in H4 as (? & ? & _). eauto. }
  cbn [mbind result_bind].
  destruct (set_next_ok x x m1) as (m2 & -> & B1 & B2 & B3 & B4 & B5); [apply F3; eauto|]. cbn [mbind result_bind].
  destruct (set_prev_ok x x m2) as (m3 & -> & C1 & C2 & C3 & C4 & C5); [apply B4, F3; eauto|].
  destruct (halves_frame m m3 h l1 l2 A B p n x) as [HA' HB']; try done.
  { intros a ? ?. by rewrite C3, B2, F1. }
  { intros a ? ?. by rewrite C2, B3, F2. }
  exists m3. split; [done|]. split.
  - split; [done|]. replace (h :: (l1 ++ l2) ++ [h]) with (A ++ p :: n :: B).
    + apply links_cut. split; [done|]. split; [rewrite C3, B2, N1; congruence|].
      split; [rewrite C2, B3, P1; congruence|done].
    + rewrite <- app_assoc, EB, app_comm_cons, EA, <- app_assoc. done.
  - split; [split; [by rewrite C3|done]|]. intros a Ha. rewrite C5, B5, F4; set_solver.
Qed.

Lemma add_repr m h l x : repr m h l -> is_Some (m !! x) -> x ∉ h :: l ->
  exists m', list_add x h m = Done m' /\ repr m' h (x :: l) /\
    forall a, a ∉ x :: h :: l -> m' !! a = m !! a.
Proof.
  intros Hr Ex Hx. destruct (split_tail l h) as (n & B & EB).
  destruct (insert_repr m h [] l [] B h n x Hr eq_refl EB Hx Ex) as (m' & E & Hr' & _ & F).
  exists m'. split_and!; [|done|done]. unfold list_add. destruct Hr as [_ Hl].
  rewrite EB in Hl. destruct Hl as [(e & He & En)%nxt_lookup _].
  rewrite (get_done _ _ _ He). cbn [mbind result_bind]. by rewrite En.
Qed.

Lemma add_tail_repr m h l x : repr m h l -> is_Some (m !! x) -> x ∉ h :: l ->
  exists m', list_add_tail x h m = Done m' /\ repr m' h (l ++ [x]) /\
    forall a, a ∉ x :: h :: l -> m' !! a = m !! a.
Proof.
  intros Hr Ex Hx. destruct (split_head h l) as (A & p & EA).
  rewrite <- (app_nil_r l) in Hr, Hx.
  destruct (insert_repr m h l [] A [] p h x Hr EA eq_refl Hx Ex) as (m' & E & Hr' & _ & F).
  rewrite (app_nil_r l) in *. exists m'. split_and!; [|done|done]. unfold list_add_tail.
  destruct Hr as [_ Hl]. rewrite app_comm_cons, EA, <- app_assoc in Hl.
  apply links_cut in Hl as (_ & _ & (e & He & Ep)%prv_lookup & _).
  rewrite (get_done _ _ _ He). cbn [mbind result_bind]. by rewrite Ep.
Qed.

Lemma empty_repr m h l : repr m h l -> list_empty h m = Done (bool_decide (l = [])).
Proof.
  intros [Hnd Hl]. destruct (split_tail l h) as (n & B & EB). rewrite EB in Hl.
  destruct Hl as [(e & He & <-)%nxt_lookup _]. unfold list_empty. rewrite (get_done _ _ _ He).
  cbn [mbind result_bind]. f_equal. destruct l as [|y l]; simpl in EB; injection EB as <- _.
  - by rewrite Z.eqb_refl, bool_decide_true.
  - rewrite bool_decide_false by done. apply Z.eqb_neq. apply NoDup_cons in Hnd as [Hnd _].
    intros ->. apply Hnd. left.
Qed.

(** C36: The pointer operations of the intrusive lists are those of a sequence: adding at
    either end, removing a member (which then points to itself, as an unlinked
    node), and the test for emptiness; nodes outside the list are not written. *)
Theorem list_ops_refine m h l x :
  repr m h l -> is_Some (m !! x) ->
  list_empty h m = Done (bool_decide (l = [])) /\
  (x ∉ h :: l -> exists m', list_add x h m = Done m' /\ repr m' h (x :: l) /\
     forall a, a ∉ x :: h :: l -> m' !! a = m !! a) /\
  (x ∉ h :: l -> exists m', list_add_tail x h m = Done m' /\ repr m' h (l ++ [x]) /\
     forall a, a ∉ x :: h :: l -> m' !! a = m !! a) /\
  (forall l1 l2, l = l1 ++ x :: l2 -> exists m', list_del x m = Done m' /\ repr m' h (l1 ++ l2) /\
     alone m' x /\ forall a, a ∉ h :: l -> m' !! a = m !! a).
Proof.
  intros Hr Ex. split_and!; [by apply empty_repr|by apply add_repr|by apply add_tail_repr|].
  intros l1 l2 ->. by apply delete_repr.
Qed.

Lemma list_ops_refine_witness :
  let m := {[ 1 := Node 2 2; 2 := Node 1 1; 3 := Node 3 3 ]} : mem in
  exists m1 m2, list_add_tail 3 1 m = Done m1 /\ repr m1 1 [2; 3] /\
    list_del 2 m = Done m2 /\ repr m2 1 [] /\ alone m2 2.
Proof.
  assert (repr {[ 1 := Node 2 2; 2 := Node 1 1; 3 := Node 3 3 ]} 1 [2]) as Hr.
  { split; [apply (bool_decide_unpack _); vm_compute; exact I|]. repeat split. }
  destruct (list_ops_refine _ 1 [2] 3 Hr) as (_ & _ & H1 & _); [by eexists|].
  destruct (list_ops_refine _ 1 [2] 2 Hr) as (_ & _ & _ & H2); [by eexists|].
  destruct H1 as (m1 & E1 & R1 & _); [set_solver|].
  destruct (H2 [] [] eq_refl) as (m2 & E2 & R2 & A2 & _). exists m1, m2. auto.
Defined.
End LL.
