(* ===== verification/Float64.v ===== *)
(** * Binary64 arithmetic

    The [double] computations of the pacing and congestion-control code, on the
    Standard Library's executable specification of IEEE 754 binary64. *)

From S2P Require Import Prelude.
From Stdlib Require Import Floats.SpecFloat.

Declare Scope double_scope.
Delimit Scope double_scope with D.

Abbreviation double := spec_float.
Bind Scope double_scope with spec_float.

(** The nearest double of an integer, and of a literal [n / d]. *)
Definition of_Z (z : Z) : double := binary_normalize 53 1024 z 0 false.
Definition dadd : double -> double -> double := SFadd 53 1024.
Definition dsub : double -> double -> double := SFsub 53 1024.
Definition dmul : double -> double -> double := SFmul 53 1024.
Definition ddiv : double -> double -> double := SFdiv 53 1024.
Definition dsqrt : double -> double := SFsqrt 53 1024.
Definition lit (n d : Z) : double := ddiv (of_Z n) (of_Z d).

Notation "x + y" := (dadd x y) : double_scope.
Notation "x - y" := (dsub x y) : double_scope.
Notation "x * y" := (dmul x y) : double_scope.
Notation "x / y" := (ddiv x y) : double_scope.
Notation "x <? y" := (SFltb x y) : double_scope.
Notation "x <=? y" := (SFleb x y) : double_scope.

(** [std::max(a, b)] is [a < b ? b : a], [std::min(a, b)] is [b < a ? b : a]. *)
Definition dmax (a b : double) : double := if (a <? b)%D then b else a.
Definition dmin (a b : double) : double := if (b <? a)%D then b else a.

(** The conversion to an unsigned integer of width [w]: truncation towards
    zero, [None] where the language leaves the result undefined. *)
Definition to_uint (w : Z) (x : double) : option Z :=
  match x with
  | S754_zero _ => Some 0
  | S754_finite s m e =>
      let t := Z.shiftl (Z.pos m) e in
      if s then (if t =? 0 then Some 0 else None)
      else if t <? 2 ^ w then Some t else None
  | _ => None
  end.

(** A conversion whose undefined cases are given the value 0. *)
Definition cast_uint (w : Z) (x : double) : Z := default 0 (to_uint w x).

(** [to_usec]: cycles of a clock in microseconds. *)
Definition to_usec (cycles : Z) (freq_ghz : double) : double :=
  (of_Z cycles / (freq_ghz * of_Z 1000))%D.

Lemma dlt_irrefl x : (x <? x)%D = false.
Proof.
  unfold SFltb, SFcompare. destruct x as [| [] | |[] m e]; try done;
    rewrite Z.compare_refl, Pos.compare_cont_refl; done.
Qed.

Lemma to_uint_range w x n : 0 <= w -> to_uint w x = Some n -> in_word w n.
Proof.
  intros Hw. pose proof (pow2_pos w Hw). unfold in_word. destruct x as [s|s| |s m e]; simpl.
  - intros [=<-]. lia.
  - done.
  - done.
  - assert (0 <= Z.shiftl (Z.pos m) e) by (apply Z.shiftl_nonneg; lia).
    destruct s; z_cases; intros [=<-]; lia.
Qed.
