(* ===== verification/TimingWheel.v ===== *)
(** * TimingWheel

    [collective/rdma/timing_wheel.h]: the pacer's wheel of time slots.  A slot
    is a chain of buckets of [kWheelBucketCap] entries; the first bucket of a
    chain is in the wheel array, the others come from a pool kept in a
    [CircularBuffer].  Buckets live in one store indexed by pointers: the
    pointers below [kWheelNumWslots] are the wheel array, those above the pool
    buffer.  Chains, the [last_] pointers and the pool are shown to implement a
    stable queue of entries ordered by the time they are due. *)

From stdpp Require Import functions.
From S2P Require Import Prelude Queues Float64.

Module TimingWheel.

Definition kWheelBucketCap : Z := 5.
Definition kNumBktEntriesBits : Z := 3.
Definition kBypassTimingWheelThres : Z := 9000.

Record wheel_bkt_t := Bkt {
  num_entries_ : Z;          (* 3 bits *)
  tx_tsc_ : Z;               (* 61 bits *)
  last_ : nat;
  next_ : option nat;
  entry_ : list Z;
}.

Definition set_num (n : Z) (b : wheel_bkt_t) : wheel_bkt_t :=
  Bkt (wrap kNumBktEntriesBits n) (tx_tsc_ b) (last_ b) (next_ b) (entry_ b).
Definition set_tx (t : Z) (b : wheel_bkt_t) : wheel_bkt_t :=
  Bkt (num_entries_ b) (wrap (64 - kNumBktEntriesBits) t) (last_ b) (next_ b) (entry_ b).
Definition set_last (p : nat) (b : wheel_bkt_t) : wheel_bkt_t :=
  Bkt (num_entries_ b) (tx_tsc_ b) p (next_ b) (entry_ b).
Definition set_next (p : option nat) (b : wheel_bkt_t) : wheel_bkt_t :=
  Bkt (num_entries_ b) (tx_tsc_ b) (last_ b) p (entry_ b).
Definition set_entry (i : Z) (e : Z) (b : wheel_bkt_t) : wheel_bkt_t :=
  Bkt (num_entries_ b) (tx_tsc_ b) (last_ b) (next_ b) (aset (entry_ b) i e).

Abbreviation store := (list wheel_bkt_t).

Definition reset_bkt (b : wheel_bkt_t) : wheel_bkt_t := set_num 0 (set_next None b).

(** The wheel; [wslot_width_tsc_] and [horizon_tsc_] are its constant members. *)
Record wheel (P : Type) := Mk {
  bkts : store;
  cur_wslot_ : nat;
  bkt_pool_ : P;
  ready_entries_ : Z;
  ready_queue_ : list Z;
  wslot_width_tsc_ : Z;
  horizon_tsc_ : Z;
}.
Arguments Mk {P} _ _ _ _ _ _ _.
Arguments bkts {P} _.
Arguments cur_wslot_ {P} _.
Arguments bkt_pool_ {P} _.
Arguments ready_entries_ {P} _.
Arguments ready_queue_ {P} _.
Arguments wslot_width_tsc_ {P} _.
Arguments horizon_tsc_ {P} _.

(** Reading a bucket through a pointer. *)
Definition deref (st : store) (p : nat) : result wheel_bkt_t :=
  match st !! p with Some b => Done b | None => Fail OutOfBounds end.

Section wheel.
Context {P : Type} `{!DequeOps nat P}.
Context (kWheelNumWslots : nat).
Implicit Types w : wheel P.

Definition with_bkts (st : store) w : wheel P :=
  Mk st (cur_wslot_ w) (bkt_pool_ w) (ready_entries_ w) (ready_queue_ w)
     (wslot_width_tsc_ w) (horizon_tsc_ w).
Definition with_pool (q : P) w : wheel P :=
  Mk (bkts w) (cur_wslot_ w) q (ready_entries_ w) (ready_queue_ w)
     (wslot_width_tsc_ w) (horizon_tsc_ w).

Definition alloc_bkt w : result (nat * wheel P) :=
  let '(r, q) := dq_pop_front (bkt_pool_ w) in
  match r with
  | None => Fail CheckFailed
  | Some p => Done (p, with_pool q (with_bkts (alter reset_bkt p (bkts w)) w))
  end.

(** The two [assert]s are checked. *)
Definition insert_into_wslot (ws_i : nat) (ent : Z) w : result (wheel P) :=
  hd ← deref (bkts w) ws_i;
  let last_bkt := last_ hd in
  b ← deref (bkts w) last_bkt;
  _ ← check (bool_decide (next_ b = None));
  _ ← check (num_entries_ b <? kWheelBucketCap);
  let b := set_num (num_entries_ b + 1) (set_entry (num_entries_ b) ent b) in
  let w := with_bkts (<[last_bkt := b]> (bkts w)) w in
  if num_entries_ b =? kWheelBucketCap then
    '(new_bkt, w) ← alloc_bkt w;
    Done (with_bkts (alter (set_last new_bkt) ws_i
                       (alter (set_next (Some new_bkt)) last_bkt (bkts w))) w)
  else Done w.

(** [if (bkt != &wheel_[ws_i]) UCCL_CHECK(bkt_pool_.push_front(bkt))]. *)
Definition return_bkt (ws_i p : nat) w : result (wheel P) :=
  if (p =? ws_i)%nat then Done w
  else let '(ok, q) := dq_push_front p (bkt_pool_ w) in
       if ok : bool then Done (with_pool q w) else Fail CheckFailed.

(** The inner loop of [reap_wslot] moves the entries of one bucket, the outer
    one walks the chain; [None] fuel cannot be met on a well-formed chain. *)
Fixpoint reap_chain (fuel : nat) (ws_i : nat) (bkt : option nat) w : result (wheel P) :=
  match bkt, fuel with
  | None, _ => Done w
  | Some _, O => Fail OutOfBounds
  | Some p, S fuel =>
      b ← deref (bkts w) p;
      let es := take (Z.to_nat (num_entries_ b)) (entry_ b) in
      let w := Mk (alter reset_bkt p (bkts w)) (cur_wslot_ w) (bkt_pool_ w)
                  (ready_entries_ w +[64] alen es) (ready_queue_ w ++ es)
                  (wslot_width_tsc_ w) (horizon_tsc_ w) in
      w ← return_bkt ws_i p w;
      reap_chain fuel ws_i (next_ b) w
  end.

Definition reap_wslot (ws_i : nat) w : result (wheel P) :=
  w ← reap_chain (length (bkts w)) ws_i (Some ws_i) w;
  Done (with_bkts (alter (set_last ws_i) ws_i (bkts w)) w).

(** [reap]: the loop runs while the current slot's time has come. *)
Definition reap_one w : result (wheel P) :=
  let cur := cur_wslot_ w in
  w ← reap_wslot cur w;
  let w := with_bkts
    (alter (fun b => set_tx (tx_tsc_ b + wslot_width_tsc_ w * Z.of_nat kWheelNumWslots) b)
       cur (bkts w)) w in
  let cur := if (cur + 1 =? kWheelNumWslots)%nat then 0%nat else (cur + 1)%nat in
  Done (Mk (bkts w) cur (bkt_pool_ w) (ready_entries_ w) (ready_queue_ w)
           (wslot_width_tsc_ w) (horizon_tsc_ w)).

Fixpoint reap_loop (fuel : nat) (reap_tsc : Z) w : result (wheel P) :=
  b ← deref (bkts w) (cur_wslot_ w);
  if tx_tsc_ b <=? reap_tsc then
    match fuel with
    | O => Fail OutOfBounds
    | S fuel => w ← reap_one w; reap_loop fuel reap_tsc w
    end
  else Done w.

(** The current slot's time grows by the slot width in every iteration. *)
Definition reap_fuel (reap_tsc : Z) w : nat :=
  match bkts w !! cur_wslot_ w with
  | Some b => Z.to_nat ((reap_tsc - tx_tsc_ b) / wslot_width_tsc_ w + 1)
  | None => 0
  end.

Definition reap (reap_tsc : Z) w : result (wheel P) :=
  reap_loop (reap_fuel reap_tsc w) reap_tsc w.

Definition insert (ent ref_tsc desired_tx_tsc : Z) w : result (wheel P) :=
  _ ← check (ref_tsc <=? desired_tx_tsc);
  _ ← check (desired_tx_tsc -[64] ref_tsc <=? horizon_tsc_ w);
  w ← reap ref_tsc w;
  b ← deref (bkts w) (cur_wslot_ w);
  _ ← check (ref_tsc <? tx_tsc_ b);
  if desired_tx_tsc <=? tx_tsc_ b then insert_into_wslot (cur_wslot_ w) ent w
  else
    let wslot_delta := 1 + (desired_tx_tsc - tx_tsc_ b) / wslot_width_tsc_ w in
    _ ← check (wslot_delta <? Z.of_nat kWheelNumWslots);
    let dst_wslot := (cur_wslot_ w + Z.to_nat wslot_delta)%nat in
    let dst_wslot := if (kWheelNumWslots <=? dst_wslot)%nat
                     then (dst_wslot - kWheelNumWslots)%nat else dst_wslot in
    insert_into_wslot dst_wslot ent w.

(** [queue_on_timing_wheel]: whether the chunk was queued, the new
    [*prev_desired_tx_tsc] and the wheel.  [kTestConstantRate] is off. *)
Definition queue_on_timing_wheel (freq_ghz target_rate : double)
    (prev_desired_tx_tsc ref_tsc wr chunk_size : Z) (allow_bypass : bool) w :
    result (bool * Z * wheel P) :=
  if (chunk_size <? kBypassTimingWheelThres) && allow_bypass
  then Done (false, prev_desired_tx_tsc, w)
  else
    let ns_delta := (of_Z 1000000000 * (of_Z chunk_size / target_rate))%D in
    match to_uint 64 (ns_delta * freq_ghz)%D with
    | None => Fail OutOfBounds
    | Some cycles =>
        match to_uint 64 (of_Z prev_desired_tx_tsc + of_Z cycles)%D with
        | None => Fail OutOfBounds
        | Some desired_tx_tsc =>
            let desired_tx_tsc := Z.max desired_tx_tsc ref_tsc in
            if (desired_tx_tsc =? ref_tsc) && allow_bypass
            then Done (false, desired_tx_tsc, w)
            else w ← insert wr ref_tsc desired_tx_tsc w;
                 Done (true, desired_tx_tsc, w)
        end
    end.

(** The constructor: [new_pool] is the empty [bkt_pool_], [base_tsc] the time
    read, [garbage] the uninitialised entries. *)
Fixpoint fill_pool (n : nat) (p : nat) (q : P) : result P :=
  match n with
  | O => Done q
  | S n => let '(ok, q) := dq_push_front p q in
           if ok : bool then fill_pool n (S p) q else Fail CheckFailed
  end.

Definition init_wheel (base_tsc width : Z) (garbage : list Z) : store :=
  (fun ws_i => Bkt 0 (wrap (64 - kNumBktEntriesBits) (base_tsc + (Z.of_nat ws_i + 1) * width))
                   ws_i None garbage) <$> seq 0 kWheelNumWslots.

Definition TimingWheel (base_tsc width horizon : Z) (garbage : list Z) (kBktPoolSize : nat)
    (new_pool : P) : result (wheel P) :=
  q ← fill_pool kBktPoolSize kWheelNumWslots new_pool;
  Done (Mk (init_wheel base_tsc width garbage ++
            replicate kBktPoolSize (Bkt 0 0 0 None garbage)) 0 q 0 [] width horizon).

End wheel.

(** ** Chains of buckets *)

(** [chain_ok st c es]: the pointers [c] are linked by [next_], every bucket but
    the last is full, the last is not, and together they hold [es]. *)
Inductive chain_ok (st : store) : list nat -> list Z -> Prop :=
  | chain_last p b :
      st !! p = Some b -> next_ b = None -> 0 <= num_entries_ b < kWheelBucketCap ->
      chain_ok st [p] (take (Z.to_nat (num_entries_ b)) (entry_ b))
  | chain_cons p q c b es :
      st !! p = Some b -> next_ b = Some q -> num_entries_ b = kWheelBucketCap ->
      chain_ok st (q :: c) es ->
      chain_ok st (p :: q :: c) (take (Z.to_nat kWheelBucketCap) (entry_ b) ++ es).

(** What a chain reads of a bucket. *)
Definition payload (b : wheel_bkt_t) : Z * option nat * list Z :=
  (num_entries_ b, next_ b, entry_ b).

Lemma chain_frame st st' c es :
  chain_ok st c es -> (forall p, p ∈ c -> payload <$> st' !! p = payload <$> st !! p) ->
  chain_ok st' c es.
Proof.
  unfold payload.
  induction 1 as [p b Hb Hn Hk|p q c b es Hb Hn Hk Hc IH]; intros Hsame.
  - specialize (Hsame p ltac:(set_solver)). rewrite Hb in Hsame. simpl in Hsame.
    apply fmap_Some in Hsame as (b' & Hb' & [= E1 E2 E3]). rewrite E1, E3.
    constructor; congruence.
  - pose proof (Hsame p ltac:(set_solver)) as Hp. rewrite Hb in Hp. simpl in Hp.
    apply fmap_Some in Hp as (b' & Hb' & [= E1 E2 E3]). rewrite E3.
    econstructor; [done|congruence|congruence|]. apply IH. set_solver.
Qed.

Lemma chain_lookup st c es p : chain_ok st c es -> p ∈ c -> is_Some (st !! p).
Proof. induction 1; set_solver. Qed.

Lemma chain_nonempty st c es : chain_ok st c es -> c <> [].
Proof. by destruct 1. Qed.

(** The last bucket of a chain, and a chain whose last bucket took one entry. *)
Lemma chain_snoc st c es :
  chain_ok st c es -> NoDup c -> Forall (fun b => alen (entry_ b) = kWheelBucketCap) st ->
  exists p b, last c = Some p /\ st !! p = Some b /\ next_ b = None /\
    0 <= num_entries_ b < kWheelBucketCap /\
    forall e st' b', 
      entry_ b' = aset (entry_ b) (num_entries_ b) e ->
      num_entries_ b' = num_entries_ b + 1 -> st' !! p = Some b' ->
      (forall r, r ∈ c -> r <> p -> payload <$> st' !! r = payload <$> st !! r) ->
      (num_entries_ b' < kWheelBucketCap -> next_ b' = None -> chain_ok st' c (es ++ [e])) /\
      (forall q bq, num_entries_ b' = kWheelBucketCap -> next_ b' = Some q ->
         st' !! q = Some bq -> next_ bq = None -> num_entries_ bq = 0 ->
         chain_ok st' (c ++ [q]) (es ++ [e])).
Proof.
  intros Hc Hnd Hst.
  induction Hc as [p b Hb Hn Hk|p q c b es Hb Hn Hk Hc IH].
  - exists p, b. split_and!; [done|done|done|lia|lia|].
    intros e st' b' He Hnum Hp Hr.
    assert (alen (entry_ b) = kWheelBucketCap) as Hlen by by eapply Forall_lookup_1 in Hst.
    assert (take (Z.to_nat (num_entries_ b)) (entry_ b) ++ [e] =
            take (Z.to_nat (num_entries_ b')) (entry_ b')) as ->.
    { rewrite Hnum, Z2Nat.inj_add by lia. rewrite Nat.add_1_r.
      erewrite take_S_r by (rewrite He; apply aget_aset_eq; lia).
      f_equal. rewrite He. unfold aset. by rewrite take_insert_ge by lia. }
    split.
    + intros Hlt Hnone. constructor; [done|done|lia].
    + intros q bq H5 Hq Hbq Hnq H0. rewrite H5.
      rewrite <- (app_nil_r (take _ (entry_ b'))). econstructor; [done|done|done|].
      replace [] with (take (Z.to_nat (num_entries_ bq)) (entry_ bq)) by by rewrite H0.
      constructor; [done|done|]. rewrite H0. done.
  - apply NoDup_cons in Hnd as [Hnp Hnd]. destruct (IH Hnd) as (l & bl & Hl & Hbl & ? & ? & Hsn).
    exists l, bl. assert (l ∈ q :: c) by (by eapply last_Some_elem_of).
    split_and!; [done|done|done|lia|lia|].
    intros e st' b' He Hnum Hp Hr. rewrite <- app_assoc.
    destruct (Hsn e st' b' He Hnum Hp) as [Hs1 Hs2]; [set_solver|].
    assert (payload <$> st' !! p = payload <$> st !! p) as Hpay by (apply Hr; set_solver).
    rewrite Hb in Hpay. apply fmap_Some in Hpay as (b2 & Hb2 & [= E1 E2 E3]).
    rewrite E3. split.
    + intros. econstructor; [done|congruence|congruence|]. by apply Hs1.
    + intros. simpl. econstructor; [done|congruence|congruence|]. by eapply Hs2.
Qed.

(** ** The invariant *)

Section inv.
Context {P : Type} `{!DequeOps nat P} `{!DequeLaws nat P}.
Context (N : nat).          (* kWheelNumWslots *)
Implicit Types (w : wheel P) (slots : nat -> list Z) (chains : nat -> list nat)
  (own : nat -> option nat) (free : list nat) (T : Z).

(** The fields a walk over a chain leaves alone. *)
Definition same_clock w w' : Prop :=
  cur_wslot_ w' = cur_wslot_ w /\ wslot_width_tsc_ w' = wslot_width_tsc_ w /\
  horizon_tsc_ w' = horizon_tsc_ w.

Lemma return_bkt_ok ws p w free :
  dq_repr (bkt_pool_ w) free ->
  alen free + alen (filter (fun p => p <> ws) [p]) <= dq_capacity (bkt_pool_ w) ->
  exists q, return_bkt ws p w = Done (with_pool q w) /\
    dq_repr q (filter (fun p => p <> ws) [p] ++ free) /\
    dq_capacity q = dq_capacity (bkt_pool_ w).
Proof.
  intros Hp. unfold return_bkt. rewrite filter_cons.
  destruct (Nat.eqb_spec p ws) as [->|Hne]; intros Hcap.
  - exists (bkt_pool_ w). rewrite decide_False by tauto. by destruct w.
  - rewrite decide_True in Hcap |- * by done. autorewrite with arr in Hcap.
    destruct (dq_push_front_ok (bkt_pool_ w) free p Hp) as (q & -> & ? & ?); [lia|].
    by exists q.
Qed.

Lemma reap_chain_ok fuel : forall ws c es w free,
  chain_ok (bkts w) c es -> NoDup c -> (length c <= fuel)%nat ->
  dq_repr (bkt_pool_ w) free ->
  alen free + alen (filter (fun p => p <> ws) c) <= dq_capacity (bkt_pool_ w) ->
  exists w', reap_chain fuel ws (head c) w = Done w' /\
    ready_queue_ w' = ready_queue_ w ++ es /\ same_clock w w' /\
    dq_repr (bkt_pool_ w') (rev (filter (fun p => p <> ws) c) ++ free) /\
    dq_capacity (bkt_pool_ w') = dq_capacity (bkt_pool_ w) /\
    (forall p, bkts w' !! p = if decide (p ∈ c) then reset_bkt <$> bkts w !! p
                              else bkts w !! p).
Proof.
  induction fuel as [|fuel IH]; intros ws c es w free Hc Hnd Hf Hp Hcap.
  { apply chain_nonempty in Hc. destruct c; simpl in Hf; [done|lia]. }
  destruct c as [|p c]; [by apply chain_nonempty in Hc|].
  apply NoDup_cons in Hnd as [Hpc Hnd]. simpl.
  assert (exists b, bkts w !! p = Some b /\ next_ b = head c /\
    (c = [] /\ es = take (Z.to_nat (num_entries_ b)) (entry_ b) \/
     exists es', es = take (Z.to_nat (num_entries_ b)) (entry_ b) ++ es' /\
                 chain_ok (bkts w) c es')) as (b & Hb & Hn & Hes).
  { inversion Hc; subst; [by eauto 10|].
    exists b. split_and!; [done|done|]. right. eexists. split; [|done]. congruence. }
  unfold deref. rewrite Hb. simpl. rewrite Hn.
  destruct (return_bkt_ok ws p (Mk (alter reset_bkt p (bkts w)) (cur_wslot_ w) (bkt_pool_ w)
      (ready_entries_ w +[64] alen (take (Z.to_nat (num_entries_ b)) (entry_ b)))
      (ready_queue_ w ++ take (Z.to_nat (num_entries_ b)) (entry_ b))
      (wslot_width_tsc_ w) (horizon_tsc_ w)) free Hp) as (q2 & -> & Hp2 & Hcap2).
  { simpl. rewrite filter_cons in Hcap |- *. pose proof (alen_nonneg (filter (fun p => p <> ws) c)).
    case_decide; autorewrite with arr in *; simpl; lia. }
  simpl in *. destruct Hes as [[-> ->]|(es' & -> & Hc')].
  - eexists. split; [by destruct fuel|]. split_and!; [done..| |done|].
    { rewrite filter_cons in Hp2 |- *; by case_decide. }
    intros r; simpl. destruct (decide (r = p)) as [->|].
    + by rewrite list_lookup_alter_eq, decide_True by set_solver.
    + by rewrite list_lookup_alter_ne, decide_False by set_solver.
  - edestruct (IH ws c es') as (w' & -> & Hq' & Hclk' & Hp' & Hcap' & Hst');
      [| done|lia|exact Hp2| |].
    { eapply chain_frame; [done|]. intros r Hr. simpl. rewrite list_lookup_alter_ne; [done|].
      set_solver. }
    { simpl. rewrite Hcap2. rewrite filter_cons in Hcap |- *.
      case_decide; autorewrite with arr in *; simpl; autorewrite with arr; lia. }
    exists w'. simpl in *. split_and!; [done| |apply Hclk'..| |congruence|].
    + by rewrite Hq', app_assoc.
    + rewrite filter_cons in Hp' |- *. case_decide; [|done].
      simpl in *. by rewrite <- app_assoc.
    + intros r. rewrite Hst'. destruct (decide (r = p)) as [->|].
      * rewrite decide_False by done. by rewrite list_lookup_alter_eq, decide_True by set_solver.
      * rewrite list_lookup_alter_ne by done.
        destruct (decide (r ∈ c)); [rewrite decide_True|rewrite decide_False]; set_solver.
Qed.

(** The wheel index of the [k]-th slot from [cur]. *)
Definition idx (cur k : nat) : nat := if (cur + k <? N)%nat then (cur + k)%nat else (cur + k - N)%nat.

(** [slots] are the contents of the slots, [chains] their buckets, [own] the
    slot a bucket belongs to, [free] the pool and [T] the current slot's time. *)
Record inv w own chains slots free T : Prop := {
  inv_cur : (cur_wslot_ w < N)%nat;
  inv_width : 1 <= wslot_width_tsc_ w;
  inv_len : (N <= length (bkts w))%nat;
  inv_st : Forall (fun b => alen (entry_ b) = kWheelBucketCap) (bkts w);
  inv_chain i : (i < N)%nat ->
    exists rest, chains i = i :: rest /\ Forall (fun p => (N <= p)%nat) rest;
  inv_own i p : (i < N)%nat -> p ∈ chains i -> own p = Some i;
  inv_nodup i : (i < N)%nat -> NoDup (chains i);
  inv_ok i : (i < N)%nat -> chain_ok (bkts w) (chains i) (slots i);
  inv_last i : (i < N)%nat -> last_ <$> bkts w !! i = last (chains i);
  inv_tx k : (k < N)%nat ->
    tx_tsc_ <$> bkts w !! idx (cur_wslot_ w) k = Some (T + Z.of_nat k * wslot_width_tsc_ w);
  inv_pool : dq_repr (bkt_pool_ w) free;
  inv_free p : p ∈ free -> own p = None /\ (N <= p < length (bkts w))%nat;
  inv_free_nodup : NoDup free;
  inv_cap : Z.of_nat (length (bkts w)) - Z.of_nat N <= dq_capacity (bkt_pool_ w);
}.

Lemma idx_lt cur k : (cur < N)%nat -> (k <= N)%nat -> (idx cur k < N)%nat.
Proof. unfold idx. intros. destruct (Nat.ltb_spec (cur + k) N); lia. Qed.

Lemma idx_inj cur j k :
  (cur < N)%nat -> (j < N)%nat -> (k < N)%nat -> idx cur j = idx cur k -> j = k.
Proof.
  unfold idx. intros. destruct (Nat.ltb_spec (cur + j) N), (Nat.ltb_spec (cur + k) N); lia.
Qed.

Lemma idx_0 cur : (cur < N)%nat -> idx cur 0 = cur.
Proof. unfold idx. intros. destruct (Nat.ltb_spec (cur + 0) N); lia. Qed.

Lemma idx_next cur k :
  (cur < N)%nat -> (k < N)%nat ->
  idx (idx cur 1) k = if (k + 1 =? N)%nat then cur else idx cur (k + 1).
Proof.
  unfold idx. intros. destruct (Nat.ltb_spec (cur + 1) N);
    repeat match goal with |- context [(?a <? ?b)%nat] => destruct (Nat.ltb_spec a b) end;
    destruct (Nat.eqb_spec (k + 1) N); lia.
Qed.

(** Chains of different slots share no bucket, and none with the pool. *)
Lemma inv_disjoint w own chains slots free T i j p :
  inv w own chains slots free T -> (i < N)%nat -> (j < N)%nat -> i <> j ->
  p ∈ chains i -> p ∉ chains j.
Proof. intros H Hi Hj Hij Hp Hp'. pose proof (inv_own _ _ _ _ _ _ H) as Ho.
  pose proof (Ho i p Hi Hp). pose proof (Ho j p Hj Hp'). congruence. Qed.

Lemma inv_head w own chains slots free T i :
  inv w own chains slots free T -> (i < N)%nat -> i ∈ chains i.
Proof. intros H Hi. destruct (inv_chain _ _ _ _ _ _ H i Hi) as (r & -> & _). set_solver. Qed.

Lemma lookup_same_length {A} (l k : list A) :
  (forall p, is_Some (l !! p) <-> is_Some (k !! p)) -> length l = length k.
Proof.
  intros H. destruct (lt_eq_lt_dec (length l) (length k)) as [[Hlt| ->]|Hlt]; [|done|].
  - apply lookup_lt_is_Some, H, lookup_lt_is_Some in Hlt. lia.
  - apply lookup_lt_is_Some, H, lookup_lt_is_Some in Hlt. lia.
Qed.

(** The pool can take back the buckets of a chain. *)
Lemma inv_room w own chains slots free T i :
  inv w own chains slots free T -> (i < N)%nat ->
  alen free + alen (filter (fun p => p <> i) (chains i)) <= dq_capacity (bkt_pool_ w).
Proof.
  intros H Hi. etransitivity; [|apply (inv_cap _ _ _ _ _ _ H)].
  destruct (inv_chain _ _ _ _ _ _ H i Hi) as (rest & Hc & Hrest).
  set (f := filter (fun p => p <> i) (chains i)).
  assert (free ++ f ⊆+ seq N (length (bkts w) - N)) as Hsub.
  { apply NoDup_submseteq.
    - apply NoDup_app. split_and!; [apply H| |apply NoDup_filter; by apply H].
      intros p Hp Hf. apply (inv_free _ _ _ _ _ _ H) in Hp as [Ho _].
      apply list_elem_of_filter in Hf as [_ Hf]. rewrite (inv_own _ _ _ _ _ _ H i p Hi Hf) in Ho. done.
    - intros p [Hp|Hp]%elem_of_app.
      + apply (inv_free _ _ _ _ _ _ H) in Hp as [_ ?]. apply elem_of_seq. lia.
      + apply list_elem_of_filter in Hp as [Hne Hp].
        pose proof (chain_lookup _ _ _ p (inv_ok _ _ _ _ _ _ H i Hi) Hp) as Hl%lookup_lt_is_Some.
        rewrite Hc in Hp. rewrite Forall_forall in Hrest.
        apply elem_of_cons in Hp as [->|Hp]; [done|]. specialize (Hrest p Hp).
        apply elem_of_seq. lia. }
  apply submseteq_length in Hsub. rewrite length_app, length_seq in Hsub.
  pose proof (inv_len _ _ _ _ _ _ H). unfold alen. lia.
Qed.

(** A store in which only the buckets of chain [i] were reset. *)
Lemma reset_fields (st st' : store) (c : list nat) (i p : nat) :
  (forall p, st' !! p = if decide (p ∈ c) then reset_bkt <$> st !! p else st !! p) ->
  let st2 := alter (set_last i) i st' in
  tx_tsc_ <$> st2 !! p = tx_tsc_ <$> st !! p /\
  entry_ <$> st2 !! p = entry_ <$> st !! p /\
  (p ∉ c -> payload <$> st2 !! p = payload <$> st !! p) /\
  (p <> i -> last_ <$> st2 !! p = last_ <$> st !! p).
Proof.
  intros H. simpl. destruct (decide (p = i)) as [->|Hne].
  - rewrite list_lookup_alter_eq, H. by case_decide; destruct (st !! i).
  - rewrite list_lookup_alter_ne, H by done. by case_decide; destruct (st !! p).
Qed.

(** Replacing the chain of slot [i], its buckets coming from and going to the
    pool, keeps the invariant. *)
Lemma inv_update w own chains slots free T i w' c' es' free' :
  inv w own chains slots free T -> (i < N)%nat -> same_clock w w' ->
  length (bkts w') = length (bkts w) ->
  (forall p, tx_tsc_ <$> bkts w' !! p = tx_tsc_ <$> bkts w !! p) ->
  (forall p, length <$> (entry_ <$> bkts w' !! p) = length <$> (entry_ <$> bkts w !! p)) ->
  (forall p, p ∉ chains i -> p ∉ free -> payload <$> bkts w' !! p = payload <$> bkts w !! p) ->
  (forall p, (p < N)%nat -> p <> i -> last_ <$> bkts w' !! p = last_ <$> bkts w !! p) ->
  (exists rest, c' = i :: rest /\ Forall (fun p => (N <= p)%nat) rest) ->
  NoDup c' -> chain_ok (bkts w') c' es' -> last_ <$> bkts w' !! i = last c' ->
  dq_repr (bkt_pool_ w') free' -> dq_capacity (bkt_pool_ w') = dq_capacity (bkt_pool_ w) ->
  NoDup free' -> (forall p, p ∈ c' -> p ∈ chains i \/ p ∈ free) ->
  (forall p, p ∈ free' -> (p ∉ c') /\ (N <= p)%nat /\ (p ∈ chains i \/ p ∈ free)) ->
  inv w' (fun p => if decide (p ∈ c') then Some i else if decide (p ∈ free') then None else own p)
    (<[i := c']> chains) (<[i := es']> slots) free' T.
Proof.
  intros H Hi (Hcur & Hwd & _) Hlen Htx Hent Hpay Hlast Hc' Hnd' Hok' Hl' Hp' Hcap' Hfnd Hsrc Hfree.
  assert (forall j p, (j < N)%nat -> j <> i -> p ∈ chains j ->
    (p ∉ chains i) /\ (p ∉ free) /\ (p ∉ c') /\ (p ∉ free')) as Hother.
  { intros j p Hj Hne Hp. assert (p ∉ chains i) by by eapply inv_disjoint.
    assert (p ∉ free).
    { intros Hf%(inv_free _ _ _ _ _ _ H). rewrite (inv_own _ _ _ _ _ _ H j p Hj Hp) in Hf.
      by destruct Hf. }
    split_and!; [done|done|by intros [?|?]%Hsrc|]. by intros (_ & _ & [?|?])%Hfree. }
  assert (forall j p, (j < N)%nat -> j <> i -> p ∈ chains j ->
    payload <$> bkts w' !! p = payload <$> bkts w !! p) as Hpay'.
  { intros j p Hj Hne Hp. destruct (Hother j p Hj Hne Hp) as (? & ? & _). by apply Hpay. }
  split; rewrite ?Hcur, ?Hwd, ?Hlen, ?Hcap'; try done; try apply H.
  - apply Forall_lookup. intros p b Hb. specialize (Hent p). rewrite Hb in Hent. simpl in Hent.
    destruct (bkts w !! p) as [b0|] eqn:Hb0; simplify_eq/=.
    pose proof (Forall_lookup_1 _ _ _ _ (inv_st _ _ _ _ _ _ H) Hb0) as E. simpl in E.
    unfold alen in *. congruence.
  - intros j Hj. destruct (decide (i = j)) as [<-|].
    + by rewrite fn_lookup_insert.
    + rewrite fn_lookup_insert_ne by done. by apply H.
  - intros j p Hj. destruct (decide (i = j)) as [<-|].
    + rewrite fn_lookup_insert. intros. by rewrite decide_True.
    + rewrite fn_lookup_insert_ne by done. intros Hp.
      destruct (Hother j p Hj ltac:(done) Hp) as (_ & _ & ? & ?).
      rewrite !decide_False by done. by apply H.
  - intros j Hj. destruct (decide (i = j)) as [<-|].
    + by rewrite fn_lookup_insert.
    + rewrite fn_lookup_insert_ne by done. by apply H.
  - intros j Hj. destruct (decide (i = j)) as [<-|].
    + by rewrite !fn_lookup_insert.
    + rewrite !fn_lookup_insert_ne by done. eapply chain_frame; [by apply H|].
      intros p Hp. by apply (Hpay' j).
  - intros j Hj. destruct (decide (i = j)) as [<-|].
    + by rewrite fn_lookup_insert.
    + rewrite fn_lookup_insert_ne, Hlast by done. by apply H.
  - intros k Hk. rewrite Htx. by apply H.
  - intros p Hp. destruct (Hfree p Hp) as (Hnc & HN & Hin).
    rewrite decide_False, decide_True by done. split; [done|].
    destruct Hin as [Hin|Hin]; [|by apply H in Hin as [_ ?]].
    pose proof (chain_lookup _ _ _ p (inv_ok _ _ _ _ _ _ H i Hi) Hin) as Hl%lookup_lt_is_Some. lia.
Qed.

Lemma reap_wslot_ok w own chains slots free T i :
  inv w own chains slots free T -> (i < N)%nat ->
  exists w' own' chains' free', reap_wslot i w = Done w' /\
    ready_queue_ w' = ready_queue_ w ++ slots i /\ same_clock w w' /\
    inv w' own' chains' (<[i := []]> slots) free' T.
Proof.
  intros H Hi. pose proof (inv_ok _ _ _ _ _ _ H i Hi) as Hc.
  pose proof (inv_nodup _ _ _ _ _ _ H i Hi) as Hnd.
  destruct (inv_chain _ _ _ _ _ _ H i Hi) as (rest & Ec & Hrest).
  destruct (reap_chain_ok (length (bkts w)) i (chains i) (slots i) w free Hc)
    as (w1 & Hr & Hq & Hclk & Hp & Hcap & Hst); [done| |by apply H|by eapply inv_room|].
  { rewrite <- (length_seq (length (bkts w)) 0). apply submseteq_length, NoDup_submseteq; [done|].
    intros p Hp%(chain_lookup _ _ _ _ Hc)%lookup_lt_is_Some. apply elem_of_seq. lia. }
  rewrite Ec in Hr at 1. simpl in Hr. unfold reap_wslot. rewrite Hr. simpl.
  pose proof (fun p => reset_fields (bkts w) (bkts w1) (chains i) i p Hst) as Hf. simpl in Hf.
  assert (i ∈ chains i) as Hhd by by eapply inv_head.
  set (rest' := filter (fun p => p <> i) (chains i)) in *.
  eexists _, _, _, _. split; [done|]. split; [done|]. split; [exact Hclk|].
  eapply (inv_update w own chains slots free T i _ [i] [] (rev rest' ++ free) H Hi); simpl.
  - done.
  - apply lookup_same_length. intros p. destruct (Hf p) as [Htx _].
    destruct (alter _ _ _ !! p), (bkts w !! p); naive_solver.
  - intros p. apply Hf.
  - intros p. by destruct (Hf p) as (_ & -> & _).
  - intros p ? _. by apply Hf.
  - intros p _ ?. by apply Hf.
  - by exists [].
  - apply NoDup_singleton.
  - destruct (chain_lookup _ _ _ i Hc Hhd) as [b Hb].
    assert (alter (set_last i) i (bkts w1) !! i = Some (set_last i (reset_bkt b))) as Hb'
      by (by rewrite list_lookup_alter_eq, Hst, decide_True, Hb by done).
    replace [] with (take (Z.to_nat (num_entries_ (set_last i (reset_bkt b)))) (entry_ b)) by done.
    by apply (chain_last _ _ _ Hb').
  - rewrite list_lookup_alter_eq, Hst, decide_True by done.
    by destruct (chain_lookup _ _ _ i Hc Hhd) as [b ->].
  - done.
  - done.
  - apply NoDup_app. split_and!; [rewrite <- Permutation_rev; by apply NoDup_filter| |by apply H].
    intros p Hp1 Hp2%(inv_free _ _ _ _ _ _ H). rewrite <- Permutation_rev in Hp1.
    apply list_elem_of_filter in Hp1 as [_ Hp1].
    rewrite (inv_own _ _ _ _ _ _ H i p Hi Hp1) in Hp2. by destruct Hp2.
  - intros p ->%list_elem_of_singleton. by left.
  - intros p. rewrite elem_of_app, <- Permutation_rev, list_elem_of_singleton.
    intros [[Hne Hin]%list_elem_of_filter|Hin].
    + split_and!; [done| |by left]. rewrite Forall_forall in Hrest. apply Hrest.
      rewrite Ec in Hin. set_solver.
    + apply H in Hin as Hin'. split_and!; [|lia|by right]. intros ->. lia.
Qed.

Lemma inv_cur_bkt w own chains slots free T :
  inv w own chains slots free T ->
  exists b, bkts w !! cur_wslot_ w = Some b /\ tx_tsc_ b = T.
Proof.
  intros H. pose proof (inv_cur _ _ _ _ _ _ H) as Hc.
  pose proof (inv_tx _ _ _ _ _ _ H 0 ltac:(lia)) as Htx. rewrite idx_0 in Htx by done.
  apply fmap_Some in Htx as (b & Hb & E). exists b. split; [done|]. lia.
Qed.

(** One iteration of [reap] empties the current slot and moves to the next. *)
Lemma reap_one_ok w own chains slots free T :
  inv w own chains slots free T -> 0 <= T ->
  T + Z.of_nat N * wslot_width_tsc_ w < 2 ^ 61 ->
  exists w' own' chains' free', reap_one N w = Done w' /\
    ready_queue_ w' = ready_queue_ w ++ slots (cur_wslot_ w) /\
    cur_wslot_ w' = idx (cur_wslot_ w) 1 /\ wslot_width_tsc_ w' = wslot_width_tsc_ w /\
    horizon_tsc_ w' = horizon_tsc_ w /\
    inv w' own' chains' (<[cur_wslot_ w := []]> slots) free' (T + wslot_width_tsc_ w).
Proof.
  intros H HT Hbound. pose proof (inv_cur _ _ _ _ _ _ H) as Hcur.
  pose proof (inv_width _ _ _ _ _ _ H) as Hwidth.
  destruct (reap_wslot_ok w own chains slots free T (cur_wslot_ w) H Hcur)
    as (w1 & own' & chains' & free' & Hr & Hq & (Hc1 & Hw1 & Hh1) & H1).
  unfold reap_one. rewrite Hr. simpl. eexists _, own', chains', free'.
  split; [done|]. simpl. rewrite Hw1, Hh1.
  assert ((if (cur_wslot_ w + 1 =? N)%nat then 0%nat else (cur_wslot_ w + 1)%nat) =
          idx (cur_wslot_ w) 1) as ->.
  { unfold idx. destruct (Nat.eqb_spec (cur_wslot_ w + 1) N);
      destruct (Nat.ltb_spec (cur_wslot_ w + 1) N); lia. }
  split_and!; [done..|].
  set (f := fun b => set_tx (tx_tsc_ b + wslot_width_tsc_ w * Z.of_nat N) b).
  assert (forall p, payload <$> alter f (cur_wslot_ w) (bkts w1) !! p = payload <$> bkts w1 !! p /\
    last_ <$> alter f (cur_wslot_ w) (bkts w1) !! p = last_ <$> bkts w1 !! p /\
    (p <> cur_wslot_ w -> alter f (cur_wslot_ w) (bkts w1) !! p = bkts w1 !! p)) as Hf.
  { intros p. destruct (decide (p = cur_wslot_ w)) as [->|].
    - rewrite list_lookup_alter_eq. by destruct (bkts w1 !! _).
    - by rewrite list_lookup_alter_ne by done. }
  destruct H1 as [G1 G2 G3 G4 G5 G6 G7 G8 G9 G10 G11 G12 G13 G14]. rewrite Hc1, Hw1 in *.
  split; simpl; rewrite ?length_alter; try done.
  - apply idx_lt; lia.
  - apply Forall_alter; [done|]. done.
  - intros i Hi. eapply chain_frame; [by apply G8|]. intros p _. apply Hf.
  - intros i Hi. rewrite <- G9 by done. apply Hf.
  - intros k Hk. rewrite idx_next by lia. destruct (Nat.eqb_spec (k + 1) N) as [E|].
    + pose proof (G10 0%nat ltac:(lia)) as Htx. rewrite idx_0 in Htx by done.
      apply fmap_Some in Htx as (b & Hb & Hbt). rewrite list_lookup_alter_eq, Hb. simpl.
      f_equal. rewrite <- Hbt. change (wrap (64 - kNumBktEntriesBits) (T + Z.of_nat 0 * wslot_width_tsc_ w + wslot_width_tsc_ w * Z.of_nat N) = T + wslot_width_tsc_ w + Z.of_nat k * wslot_width_tsc_ w).
      rewrite wrap_id; [|unfold in_word; change (64 - kNumBktEntriesBits) with 61]; nia.
    + destruct (Hf (idx (cur_wslot_ w) (k + 1))) as (_ & _ & ->).
      * rewrite G10 by lia. f_equal. lia.
      * rewrite <- (idx_0 (cur_wslot_ w)) at 2 by done. intros E%idx_inj; lia.
Qed.

(** The entries waiting in the wheel with the time they are due, earliest slot
    first. *)
Definition pending (width T : Z) (cur : nat) slots : list (Z * Z) :=
  concat ((fun k => pair (T + Z.of_nat k * width) <$> slots (idx cur k)) <$> seq 0 N).

Lemma pending_next width T cur slots :
  (cur < N)%nat ->
  pending width T cur slots =
  (pair T <$> slots cur) ++ pending width (T + width) (idx cur 1) (<[cur := []]> slots).
Proof.
  intros Hc. unfold pending. assert (exists n, N = S n) as [n EN] by (exists (N - 1)%nat; lia).
  assert (seq 0 N = 0%nat :: seq 1 n) as E1 by (by rewrite EN).
  assert (seq 0 N = seq 0 n ++ [n]) as E2 by (by rewrite EN, seq_S).
  rewrite E1 at 1. rewrite E2. rewrite fmap_cons, fmap_app, concat_app. simpl. rewrite idx_0 by done.
  rewrite Z.add_0_r. f_equal. rewrite app_nil_r.
  rewrite (idx_next cur n) by lia. replace (n + 1 =? N)%nat with true by (symmetry; apply Nat.eqb_eq; lia).
  rewrite fn_lookup_insert. simpl. rewrite app_nil_r. f_equal.
  rewrite <- fmap_S_seq, <- list_fmap_compose. apply list_fmap_ext. intros i k [-> Hk]%lookup_seq. simpl.
  unfold compose. rewrite idx_next by lia.
  replace (i + 1 =? N)%nat with false by (symmetry; apply Nat.eqb_neq; lia).
  rewrite fn_lookup_insert_ne.
  - rewrite Nat.add_1_r. f_equal. f_equal. lia.
  - rewrite <- (idx_0 cur) at 1 by done. intros E%idx_inj; lia.
Qed.

Lemma pending_due width T cur slots :
  1 <= width -> Forall (fun de => T <= de.1) (pending width T cur slots).
Proof.
  intros Hw. apply Forall_concat, Forall_fmap, Forall_forall. intros k _. simpl.
  apply Forall_fmap, Forall_true. intros e. simpl. nia.
Qed.

Definition due_by (t : Z) (de : Z * Z) : Prop := de.1 <= t.
Definition due_after (t : Z) (de : Z * Z) : Prop := t < de.1.
#[local] Instance due_by_dec t de : Decision (due_by t de).
Proof. unfold due_by. apply _. Defined.
#[local] Instance due_after_dec t de : Decision (due_after t de).
Proof. unfold due_after. apply _. Defined.

(** [represents w pd T]: the wheel's current slot is due at [T] and the entries
    [pd] wait in it. *)
Definition represents w (pd : list (Z * Z)) (T : Z) : Prop :=
  exists own chains slots free, inv w own chains slots free T /\
    pd = pending (wslot_width_tsc_ w) T (cur_wslot_ w) slots.

Lemma reap_loop_ok fuel t : forall w pd T,
  represents w pd T -> 0 <= T -> (t - T) / wslot_width_tsc_ w + 1 <= Z.of_nat fuel ->
  t + Z.of_nat N * wslot_width_tsc_ w < 2 ^ 61 ->
  exists w' T', reap_loop N fuel t w = Done w' /\
    ready_queue_ w' = ready_queue_ w ++ (filter (due_by t) pd).*2 /\
    represents w' (filter (due_after t) pd) T' /\ t < T' /\
    (T' = T \/ T' <= t + wslot_width_tsc_ w) /\ T <= T' /\
    (T' - T) mod wslot_width_tsc_ w = 0 /\
    wslot_width_tsc_ w' = wslot_width_tsc_ w /\ horizon_tsc_ w' = horizon_tsc_ w.
Proof.
  induction fuel as [|fuel IH]; intros w pd T (own & chains & slots & free & H & EP) HT Hf Hb.
  all: destruct (inv_cur_bkt _ _ _ _ _ _ H) as (b & Hcb & Htx).
  all: pose proof (inv_width _ _ _ _ _ _ H) as Hwd.
  all: simpl; unfold deref; rewrite Hcb; simpl; rewrite Htx.
  all: destruct (Z.leb_spec T t) as [Hle|Hgt].
  1: { exfalso. assert (0 <= (t - T) / wslot_width_tsc_ w) by (apply Z.div_pos; lia). lia. }
  2: {
    destruct (reap_one_ok _ _ _ _ _ _ H HT) as
      (w1 & own1 & chains1 & free1 & Hr & Hq & Hcur & Hw1 & Hh1 & H1); [nia|].
    rewrite Hr. simpl.
    destruct (IH w1 (pending (wslot_width_tsc_ w) (T + wslot_width_tsc_ w) (cur_wslot_ w1)
      (<[cur_wslot_ w := []]> slots)) (T + wslot_width_tsc_ w))
      as (w' & T' & Hr' & Hq' & Hrep & Ht & HT' & HTT & Hmod & Hw' & Hh').
    { exists own1, chains1, (<[cur_wslot_ w := []]> slots), free1. by rewrite Hw1. }
    { lia. }
    { rewrite Hw1. replace (t - (T + wslot_width_tsc_ w)) with
        (t - T + (-1) * wslot_width_tsc_ w) by lia. rewrite Z.div_add by lia. lia. }
    { by rewrite Hw1. }
    exists w', T'. rewrite Hw1, Hcur in *. rewrite EP, pending_next by apply H.
    set (P1 := pending _ _ (idx _ _) _) in *.
    rewrite !filter_app, fmap_app.
    assert (filter (due_by t) (pair T <$> slots (cur_wslot_ w)) = pair T <$> slots (cur_wslot_ w)) as ->.
    { clear -Hle. induction (slots (cur_wslot_ w)); simpl; [done|].
      rewrite filter_cons_True by done. by f_equal. }
    assert (filter (due_after t) (pair T <$> slots (cur_wslot_ w)) = []) as ->.
    { clear -Hle. induction (slots (cur_wslot_ w)); simpl; [done|].
      rewrite filter_cons_False by (unfold due_after; simpl; lia). done. }
    split_and!; [done| |done|lia|lia|lia| |done|congruence].
    - rewrite Hq', Hq, <- app_assoc. f_equal. f_equal.
      rewrite <- list_fmap_compose. symmetry. apply list_fmap_id.
    - replace (T' - T) with (T' - (T + wslot_width_tsc_ w) + 1 * wslot_width_tsc_ w) by lia.
      by rewrite Z_mod_plus_full. }
  all: exists w, T.
  all: assert (filter (due_by t) pd = [] /\ filter (due_after t) pd = pd) as [-> ->].
  1,3: pose proof (pending_due (wslot_width_tsc_ w) T (cur_wslot_ w) slots Hwd) as Hall;
    rewrite <- EP in Hall; clear -Hall Hgt; induction Hall as [|de pd Hd _ [IH1 IH2]]; [done|];
    rewrite filter_cons_False by (unfold due_by; lia);
    rewrite filter_cons_True by (unfold due_after; lia); by rewrite IH2.
  all: split_and!; [done|by rewrite app_nil_r|by exists own, chains, slots, free|lia|lia|lia| |done..].
  all: by rewrite Z.sub_diag.
Qed.

(** An entry added to a slot. *)
Lemma pending_insert width T cur slots k e :
  1 <= width -> (cur < N)%nat -> (k < N)%nat ->
  let due := T + Z.of_nat k * width in
  exists before after, pending width T cur slots = before ++ after /\
    pending width T cur (<[idx cur k := slots (idx cur k) ++ [e]]> slots) =
      before ++ (due, e) :: after /\
    Forall (due_by due) before /\ Forall (due_after due) after.
Proof.
  intros Hw Hc Hk due. unfold pending.
  replace (seq 0 N) with (seq 0 k ++ k :: seq (S k) (N - S k)).
  2: { rewrite <- (take_drop_middle (seq 0 N) k k) at 1 by (by apply lookup_seq).
       by rewrite take_seq, drop_seq, Nat.min_l by lia. }
  rewrite !fmap_app, !concat_app, !fmap_cons. simpl. rewrite !fn_lookup_insert.
  rewrite fmap_app. fold due.
  assert (forall l : list nat, (forall j, j ∈ l -> j <> k /\ (j < N)%nat) ->
    (fun j => pair (T + Z.of_nat j * width) <$>
       (<[idx cur k := slots (idx cur k) ++ [e]]> slots) (idx cur j)) <$> l =
    (fun j => pair (T + Z.of_nat j * width) <$> slots (idx cur j)) <$> l) as Hsame.
  { intros l Hl. apply list_fmap_ext. intros i j Hj%list_elem_of_lookup_2.
    destruct (Hl j Hj). rewrite fn_lookup_insert_ne; [done|]. intros E%idx_inj; lia. }
  rewrite !Hsame by (intros j Hj%elem_of_seq; lia). simpl.
  set (front := concat (_ <$> seq 0 k)). set (back := concat (_ <$> seq (S k) _)).
  exists (front ++ (pair due <$> slots (idx cur k))), back.
  rewrite <- !app_assoc. simpl. split; [done|]. split; [done|].
  split; [apply Forall_app; split|].
  - apply Forall_concat, Forall_fmap, Forall_forall. intros j Hj%elem_of_seq. simpl.
    apply Forall_fmap, Forall_true. intros x. unfold due_by, due. simpl. nia.
  - apply Forall_fmap, Forall_true. intros x. unfold due_by. simpl. lia.
  - apply Forall_concat, Forall_fmap, Forall_forall. intros j Hj%elem_of_seq. simpl.
    apply Forall_fmap, Forall_true. intros x. unfold due_after, due. simpl. nia.
Qed.

Lemma insert_store_fields (st : store) l (b b' : wheel_bkt_t) :
  st !! l = Some b -> alen (entry_ b') = alen (entry_ b) -> tx_tsc_ b' = tx_tsc_ b ->
  last_ b' = last_ b ->
  forall p, tx_tsc_ <$> <[l := b']> st !! p = tx_tsc_ <$> st !! p /\
    length <$> (entry_ <$> <[l := b']> st !! p) = length <$> (entry_ <$> st !! p) /\
    last_ <$> <[l := b']> st !! p = last_ <$> st !! p.
Proof.
  intros Hb He Ht Hl p. destruct (decide (p = l)) as [->|].
  - rewrite list_lookup_insert_eq by (by eapply lookup_lt_Some). rewrite Hb. simpl.
    unfold alen in He. rewrite Ht, Hl. split_and!; [done|f_equal; lia|done].
  - by rewrite list_lookup_insert_ne.
Qed.

Lemma lookup_alter_dec {A} (f : A -> A) (l : list A) i p :
  alter f i l !! p = (if decide (p = i) then f else id) <$> l !! p.
Proof.
  case_decide; subst; [apply list_lookup_alter_eq|].
  rewrite list_lookup_alter_ne by done. by rewrite option_fmap_id.
Qed.

(** The entry [e] in the last bucket [b] of a chain. *)
Definition put (e : Z) (b : wheel_bkt_t) : wheel_bkt_t :=
  set_num (num_entries_ b + 1) (set_entry (num_entries_ b) e b).

Lemma put_num e b :
  0 <= num_entries_ b < kWheelBucketCap -> num_entries_ (put e b) = num_entries_ b + 1.
Proof.
  intros. simpl. apply wrap_id. unfold in_word, kNumBktEntriesBits, kWheelBucketCap in *. lia.
Qed.

(** The bucket still has room. *)
Lemma insert_room_inv w own chains slots free T i e l b :
  inv w own chains slots free T -> (i < N)%nat -> last (chains i) = Some l ->
  bkts w !! l = Some b -> num_entries_ (put e b) <> kWheelBucketCap ->
  exists own' chains',
    inv (with_bkts (<[l := put e b]> (bkts w)) w) own' chains'
      (<[i := slots i ++ [e]]> slots) free T.
Proof.
  intros H Hi Hl Hb E5. pose proof (inv_ok _ _ _ _ _ _ H i Hi) as Hc.
  pose proof (inv_nodup _ _ _ _ _ _ H i Hi) as Hnd.
  destruct (inv_chain _ _ _ _ _ _ H i Hi) as (rest & Ec & Hrest).
  destruct (chain_snoc _ _ _ Hc Hnd (inv_st _ _ _ _ _ _ H))
    as (l0 & b0 & Hl0 & Hb0 & Hnone & Hnum & Hsnoc). simplify_eq.
  assert (l ∈ chains i) as Hlc by by eapply last_Some_elem_of.
  pose proof (put_num e b Hnum) as Hput. set (b' := put e b) in *.
  pose proof (insert_store_fields (bkts w) l b b' Hb (alen_aset _ _ _) eq_refl eq_refl) as Hf.
  eexists _, _.
  eapply (inv_update w own chains slots free T i _ (chains i) (slots i ++ [e]) free H Hi); simpl.
  + done.
  + apply length_insert.
  + intros p. apply Hf.
  + intros p. apply Hf.
  + intros p Hp _. rewrite list_lookup_insert_ne; [done|]. congruence.
  + intros p _ _. apply Hf.
  + by exists rest.
  + done.
  + destruct (Hsnoc e (<[l := b']> (bkts w)) b') as [Hsn _].
    * done.
    * exact Hput.
    * apply list_lookup_insert_eq. by eapply lookup_lt_Some.
    * intros r _ Hne. by rewrite list_lookup_insert_ne.
    * apply Hsn; [|done]. lia.
  + destruct (Hf i) as (_ & _ & ->). by apply H.
  + apply H.
  + done.
  + apply H.
  + auto.
  + intros p Hp. destruct (inv_free _ _ _ _ _ _ H p Hp) as [Hop ?]. split_and!; [|lia|by right].
    intros Hin. rewrite (inv_own _ _ _ _ _ _ H i p Hi Hin) in Hop. done.
Qed.

(** Bucket [q] is reset and chained behind [l], the last of slot [i]. *)
Definition chained (q l i : nat) (st : store) : store :=
  alter (set_last q) i (alter (set_next (Some q)) l (alter reset_bkt q st)).

Lemma chained_at q l i (st : store) p : chained q l i st !! p =
  (if decide (p = i) then set_last q else id) <$> ((if decide (p = l) then set_next (Some q) else id) <$>
    ((if decide (p = q) then reset_bkt else id) <$> st !! p)).
Proof. unfold chained. rewrite !lookup_alter_dec. by repeat case_decide; subst; rewrite ?option_fmap_id. Qed.

Lemma chained_before q l i (st : store) b : (l < length st)%nat -> q <> l ->
  chained q l i (<[l := b]> st) !! l = Some ((if decide (l = i) then set_last q else id) (set_next (Some q) b)).
Proof.
  intros Hl Hq. rewrite chained_at, list_lookup_insert_eq by done. simpl.
  by rewrite (decide_True _ _ (eq_refl l)), (decide_False (P := l = q)) by done.
Qed.

Lemma chained_payload q l i (st : store) b p : p <> l -> p <> q -> payload <$> chained q l i (<[l := b]> st) !! p = payload <$> st !! p.
Proof.
  intros H1 H2. rewrite chained_at, list_lookup_insert_ne by done. rewrite (decide_False (P := p = l)), (decide_False (P := p = q)) by done.
  destruct (st !! p); simpl; [|done]. by destruct (decide (p = i)).
Qed.

Lemma chained_fields q l i (st : store) p : tx_tsc_ <$> chained q l i st !! p = tx_tsc_ <$> st !! p /\
  length <$> (entry_ <$> chained q l i st !! p) = length <$> (entry_ <$> st !! p) /\ (p <> i -> last_ <$> chained q l i st !! p = last_ <$> st !! p).
Proof. rewrite chained_at. destruct (st !! p); simpl; [|done]. by repeat case_decide. Qed.

Lemma chained_ok (st : store) (c : list nat) (es : list Z) e l b q i :
  chain_ok st c es -> NoDup c -> Forall (fun b => alen (entry_ b) = kWheelBucketCap) st ->
  last c = Some l -> st !! l = Some b -> num_entries_ (put e b) = kWheelBucketCap -> q ∉ c -> q <> i -> (q < length st)%nat ->
  chain_ok (chained q l i (<[l := put e b]> st)) (c ++ [q]) (es ++ [e]).
Proof.
  intros Hc Hnd Hst Hl Hb E5 Hq Hqi Hlen. destruct (chain_snoc _ _ _ Hc Hnd Hst) as (l0 & b0 & Hl0 & Hb0 & Hnone & Hnum & Hsnoc).
  simplify_eq. assert (l ∈ c) as Hlc by by eapply last_Some_elem_of. assert (q <> l) as Hql by congruence.
  pose proof (put_num e b Hnum) as Hput. destruct (lookup_lt_is_Some_2 st q Hlen) as [bq Hbq].
  destruct (Hsnoc e (chained q l i (<[l := put e b]> st)) ((if decide (l = i) then set_last q else id) (set_next (Some q) (put e b))))
    as [_ Hfull].
  - by case_decide.
  - by case_decide.
  - apply chained_before; [by eapply lookup_lt_Some|done].
  - intros r Hr Hne. apply chained_payload; [done|congruence].
  - apply (Hfull q (reset_bkt bq)); [by case_decide|by case_decide| |done|done].
    rewrite chained_at, list_lookup_insert_ne, Hbq by done.
    by rewrite (decide_False (P := q = i)), (decide_False (P := q = l)), decide_True by done.
Qed.

(** The bucket is full: the bucket [q] of the pool is chained. *)
Lemma insert_full_inv w own chains slots q free T i e l b pool' :
  inv w own chains slots (q :: free) T -> (i < N)%nat -> last (chains i) = Some l ->
  bkts w !! l = Some b -> num_entries_ (put e b) = kWheelBucketCap ->
  dq_repr pool' free -> dq_capacity pool' = dq_capacity (bkt_pool_ w) ->
  exists own' chains',
    inv (with_bkts (chained q l i (<[l := put e b]> (bkts w))) (with_pool pool' w))
      own' chains' (<[i := slots i ++ [e]]> slots) free T.
Proof.
  intros H Hi Hl Hb E5 Hp' Hcap'. pose proof (inv_ok _ _ _ _ _ _ H i Hi) as Hc.
  pose proof (inv_nodup _ _ _ _ _ _ H i Hi) as Hnd.
  destruct (inv_chain _ _ _ _ _ _ H i Hi) as (rest & Ec & Hrest).
  destruct (chain_snoc _ _ _ Hc Hnd (inv_st _ _ _ _ _ _ H))
    as (l0 & b0 & Hl0 & Hb0 & Hnone & Hnum & Hsnoc). simplify_eq.
  assert (l ∈ chains i) as Hlc by by eapply last_Some_elem_of.
  pose proof (put_num e b Hnum) as Hput. set (b' := put e b) in *.
  pose proof (insert_store_fields (bkts w) l b b' Hb (alen_aset _ _ _) eq_refl eq_refl) as Hf.
  pose proof (chained_fields q l i (<[l := b']> (bkts w))) as Hcf.
  destruct (inv_free _ _ _ _ _ _ H q ltac:(set_solver)) as [Hoq Hqr].
  assert (q ∉ chains i) as Hqc by (intros Hq; rewrite (inv_own _ _ _ _ _ _ H i q Hi Hq) in Hoq; done).
  assert (q <> l /\ q <> i) as (Hql & Hqi) by (split; [congruence|lia]).
  pose proof (inv_free_nodup _ _ _ _ _ _ H) as (Hqf & Hfn)%NoDup_cons.
  eexists _, _.
  eapply (inv_update w own chains slots (q :: free) T i _ (chains i ++ [q]) (slots i ++ [e]) free H Hi); simpl.
  + done.
  + unfold chained. by rewrite !length_alter, length_insert.
  + intros p. by rewrite (proj1 (Hcf p)), (proj1 (Hf p)).
  + intros p. by rewrite (proj1 (proj2 (Hcf p))), (proj1 (proj2 (Hf p))).
  + intros p Hp1 Hp2. apply chained_payload; set_solver.
  + intros p Hp Hne. by rewrite (proj2 (proj2 (Hcf p))), (proj2 (proj2 (Hf p))).
  + exists (rest ++ [q]). rewrite Ec. split; [done|]. apply Forall_app. split; [done|]. constructor; [lia|constructor].
  + apply NoDup_app. split_and!; [done| |apply NoDup_singleton]. intros p Hp ->%list_elem_of_singleton. done.
  + apply (chained_ok _ _ _ _ l b); (done || lia || apply H).
  + rewrite last_snoc, chained_at. rewrite (decide_True _ _ (eq_refl i)).
    destruct (lookup_lt_is_Some_2 (<[l := b']> (bkts w)) i) as [bi ->]; [|done].
    rewrite length_insert. pose proof (inv_len _ _ _ _ _ _ H). lia.
  + done.
  + done.
  + done.
  + intros p. rewrite elem_of_app, list_elem_of_singleton. set_solver.
  + intros p Hp. destruct (inv_free _ _ _ _ _ _ H p ltac:(set_solver)) as [Hop ?].
    split_and!; [|lia|right; set_solver]. rewrite elem_of_app, list_elem_of_singleton.
    intros [Hin| ->]; [|done]. rewrite (inv_own _ _ _ _ _ _ H i p Hi Hin) in Hop. done.
Qed.

(** Only a full bucket with an empty pool makes it fail. *)
Lemma insert_into_wslot_cases w own chains slots free T i e :
  inv w own chains slots free T -> (i < N)%nat ->
  (exists w' own' chains' free', insert_into_wslot i e w = Done w' /\
    ready_queue_ w' = ready_queue_ w /\ same_clock w w' /\
    inv w' own' chains' (<[i := slots i ++ [e]]> slots) free' T) \/
  (free = [] /\ insert_into_wslot i e w = Fail CheckFailed).
Proof.
  intros H Hi.
  destruct (chain_snoc _ _ _ (inv_ok _ _ _ _ _ _ H i Hi) (inv_nodup _ _ _ _ _ _ H i Hi)
    (inv_st _ _ _ _ _ _ H)) as (l & b & Hl & Hb & Hnone & Hnum & _).
  pose proof (inv_last _ _ _ _ _ _ H i Hi) as Hlast. rewrite Hl in Hlast.
  apply fmap_Some in Hlast as (hd & Hhd & El).
  unfold insert_into_wslot, deref. rewrite Hhd. simpl. rewrite <- El, Hb. simpl.
  rewrite bool_decide_true by done. simpl. rewrite (proj2 (Z.ltb_lt _ _)) by lia. simpl.
  fold (put e b). change (wrap kNumBktEntriesBits (num_entries_ b + 1)) with (num_entries_ (put e b)).
  destruct (Z.eqb_spec (num_entries_ (put e b)) kWheelBucketCap) as [E5|E5].
  - unfold alloc_bkt. simpl. destruct free as [|q free].
    { right. by rewrite (dq_pop_front_nil _ (inv_pool _ _ _ _ _ _ H)). }
    left. destruct (dq_pop_front_cons (bkt_pool_ w) free q (inv_pool _ _ _ _ _ _ H))
      as (pool' & Hpop & Hp' & Hcap').
    destruct (insert_full_inv w own chains slots q free T i e l b pool') as (own' & chains' & ?);
      try done.
    rewrite Hpop. simpl. by eexists _, own', chains', free.
  - left. destruct (insert_room_inv w own chains slots free T i e l b) as (own' & chains' & ?);
      try done.
    by eexists _, own', chains', free.
Qed.

(** ** What the wheel promises *)

Lemma reap_ok t w pd T :
  represents w pd T -> 0 <= T -> t + Z.of_nat N * wslot_width_tsc_ w < 2 ^ 61 ->
  exists w' T', reap N t w = Done w' /\
    ready_queue_ w' = ready_queue_ w ++ (filter (due_by t) pd).*2 /\
    represents w' (filter (due_after t) pd) T' /\ t < T' /\
    (T' = T \/ T' <= t + wslot_width_tsc_ w) /\ T <= T' /\
    (T' - T) mod wslot_width_tsc_ w = 0 /\
    wslot_width_tsc_ w' = wslot_width_tsc_ w /\ horizon_tsc_ w' = horizon_tsc_ w.
Proof.
  intros Hr HT Hb. unfold reap. apply reap_loop_ok; try done. unfold reap_fuel.
  destruct Hr as (own & chains & slots & free & H & _).
  destruct (inv_cur_bkt _ _ _ _ _ _ H) as (b & -> & <-). lia.
Qed.

(** The slot time an entry gets: the current slot's if it is not before the
    desired time, else the first one strictly after it. *)
Definition due_time (width T desired : Z) : Z :=
  if desired <=? T then T else T + (1 + (desired - T) / width) * width.

Lemma due_time_bounds width T desired :
  1 <= width -> desired <= due_time width T desired /\
  (T < desired -> due_time width T desired <= desired + width).
Proof.
  intros Hw. unfold due_time. z_cases; [lia|].
  pose proof (Z.div_mod (desired - T) width ltac:(lia)).
  pose proof (Z.mod_pos_bound (desired - T) width ltac:(lia)). nia.
Qed.

(** The pool has a bucket left. *)
Definition pool_has_bucket w : Prop := 0 < dq_size (bkt_pool_ w).

(** The outcome of putting [e] among the entries [pd]. *)
Definition queued w w' pd T e due : Prop :=
  exists before after, pd = before ++ after /\
    represents w' (before ++ (due, e) :: after) T /\
    Forall (due_by due) before /\ Forall (due_after due) after /\
    ready_queue_ w' = ready_queue_ w /\ same_clock w w'.

Lemma insert_slot_cases w pd T e k :
  represents w pd T -> (k < N)%nat ->
  (exists w', insert_into_wslot (idx (cur_wslot_ w) k) e w = Done w' /\
     queued w w' pd T e (T + Z.of_nat k * wslot_width_tsc_ w)) \/
  (~ pool_has_bucket w /\ insert_into_wslot (idx (cur_wslot_ w) k) e w = Fail CheckFailed).
Proof.
  intros (own & chains & slots & free & H & ->) Hk.
  pose proof (inv_cur _ _ _ _ _ _ H) as Hcur.
  destruct (insert_into_wslot_cases w own chains slots free T (idx (cur_wslot_ w) k) e H)
    as [(w' & own' & chains' & free' & Hi & Hq & Hclk & H')|[-> Hi]].
  { apply idx_lt; lia. }
  - left. destruct (pending_insert (wslot_width_tsc_ w) T (cur_wslot_ w) slots k e)
      as (before & after & -> & E & Hb & Ha); [apply H|done|done|].
    exists w'. split; [done|]. exists before, after. destruct Hclk as (Hc & Hw & Hh).
    split_and!; try done.
    exists own', chains', (<[idx (cur_wslot_ w) k := slots (idx (cur_wslot_ w) k) ++ [e]]> slots), free'.
    split; [done|]. by rewrite Hc, Hw, E.
  - right. split; [|done]. unfold pool_has_bucket.
    rewrite (dq_size_spec _ _ (inv_pool _ _ _ _ _ _ H)). unfold alen; simpl. lia.
Qed.

(** [insert] once the wheel has been advanced. *)
Lemma insert_cases e ref desired w pd T :
  represents w pd T -> 0 <= T -> ref + Z.of_nat N * wslot_width_tsc_ w < 2 ^ 61 ->
  exists w1 T1, reap N ref w = Done w1 /\ represents w1 (filter (due_after ref) pd) T1 /\
    ready_queue_ w1 = ready_queue_ w ++ (filter (due_by ref) pd).*2 /\
    ref < T1 /\ T <= T1 /\ (T1 - T) mod wslot_width_tsc_ w = 0 /\
    wslot_width_tsc_ w1 = wslot_width_tsc_ w /\ horizon_tsc_ w1 = horizon_tsc_ w /\
    ((exists w', insert N e ref desired w = Done w' /\
       queued w1 w' (filter (due_after ref) pd) T1 e
         (due_time (wslot_width_tsc_ w) T1 desired)) \/
     insert N e ref desired w = Fail CheckFailed /\
     (desired < ref \/ horizon_tsc_ w < desired -[64] ref \/
      (Z.of_nat N - 1) * wslot_width_tsc_ w <= desired - T1 \/ ~ pool_has_bucket w1)).
Proof.
  intros Hr HT Hb.
  destruct (reap_ok ref w pd T Hr HT Hb)
    as (w1 & T1 & Hreap & Hq & Hr1 & Ht & _ & HTT & Hmod & Hw1 & Hh1).
  exists w1, T1. split_and!; try done. unfold insert.
  destruct (Z.leb_spec ref desired) as [Hrd|]; simpl; [|right; split; [done|]; lia].
  destruct (Z.leb_spec (desired -[64] ref) (horizon_tsc_ w)) as [Hhor|]; simpl; [|right; split; [done|]; lia].
  rewrite Hreap. simpl.
  assert (exists own chains slots free, inv w1 own chains slots free T1) as
    (own & chains & slots & free & H) by (destruct Hr1 as (? & ? & ? & ? & ? & _); by eauto).
  pose proof (inv_cur _ _ _ _ _ _ H) as Hcur. pose proof (inv_width _ _ _ _ _ _ H) as Hwd.
  destruct (inv_cur_bkt _ _ _ _ _ _ H) as (b & Hcb & Htx). unfold deref. rewrite Hcb. simpl.
  rewrite Htx, (proj2 (Z.ltb_lt ref T1)) by lia. simpl. unfold due_time.
  rewrite Hw1 in Hwd |- *. destruct (Z.leb_spec desired T1) as [Hle|Hgt].
  - destruct (insert_slot_cases w1 _ T1 e 0 Hr1) as [(w' & Hi & Hqd)|[Hno Hi]]; [lia|left|right];
      rewrite idx_0 in Hi by done; rewrite Hi; [|auto].
    exists w'. split; [done|]. by rewrite Z.add_0_r in Hqd.
  - set (delta := 1 + (desired - T1) / wslot_width_tsc_ w).
    assert (1 <= delta) as Hd1.
    { pose proof (Z.div_pos (desired - T1) (wslot_width_tsc_ w)). unfold delta. lia. }
    destruct (Z.ltb_spec delta (Z.of_nat N)) as [Hd2|Hd2]; simpl.
    2: { right. split; [done|]. right; right; left. unfold delta in Hd2.
         pose proof (Z.mul_div_le (desired - T1) (wslot_width_tsc_ w) ltac:(lia)). nia. }
    assert ((if (N <=? cur_wslot_ w1 + Z.to_nat delta)%nat
             then (cur_wslot_ w1 + Z.to_nat delta - N)%nat
             else (cur_wslot_ w1 + Z.to_nat delta)%nat) = idx (cur_wslot_ w1) (Z.to_nat delta)) as ->.
    { unfold idx. destruct (Nat.ltb_spec (cur_wslot_ w1 + Z.to_nat delta) N);
        destruct (Nat.leb_spec N (cur_wslot_ w1 + Z.to_nat delta)); lia. }
    destruct (insert_slot_cases w1 _ T1 e (Z.to_nat delta) Hr1) as [(w' & Hi & Hqd)|[Hno Hi]];
      [lia|left|right]; rewrite Hi; [|auto].
    exists w'. split; [done|]. by rewrite Z2Nat.id, Hw1 in Hqd by lia.
Qed.

(** reaping at time [t] moves exactly the waiting entries whose slot time is
    at most [t] to the ready queue, in the order of their slot times and within
    a slot in the order they were inserted; the others keep waiting.  No check
    fails and the loop ends. *)
Theorem reap_moves_due t w pd T :
  represents w pd T -> 0 <= T -> t + Z.of_nat N * wslot_width_tsc_ w < 2 ^ 61 ->
  exists w' T', reap N t w = Done w' /\
    ready_queue_ w' = ready_queue_ w ++ (filter (due_by t) pd).*2 /\
    represents w' (filter (due_after t) pd) T' /\ t < T'.
Proof.
  intros Hr HT Hb. destruct (reap_ok t w pd T Hr HT Hb) as (w' & T' & ? & ? & ? & ? & _).
  by exists w', T'.
Qed.

(** an entry inserted with a desired time within the horizon first lets the
    entries due at the reference time out, and then waits behind every entry
    due no later than itself and before every entry due later.  It is due
    neither before its desired time nor, once the wheel is behind that time,
    more than one slot after it. *)
Theorem insert_waits_in_order e ref desired w pd T :
  represents w pd T -> 0 <= T -> ref + Z.of_nat N * wslot_width_tsc_ w < 2 ^ 61 ->
  0 <= ref <= desired -> desired - ref <= horizon_tsc_ w -> desired < 2 ^ 64 ->
  horizon_tsc_ w <= (Z.of_nat N - 1) * wslot_width_tsc_ w ->
  (forall w', reap N ref w = Done w' -> pool_has_bucket w') ->
  exists w' T' before after,
    let due := due_time (wslot_width_tsc_ w) T' desired in
    insert N e ref desired w = Done w' /\
    ready_queue_ w' = ready_queue_ w ++ (filter (due_by ref) pd).*2 /\
    filter (due_after ref) pd = before ++ after /\
    represents w' (before ++ (due, e) :: after) T' /\
    Forall (due_by due) before /\ Forall (due_after due) after /\
    desired <= due /\ (T' < desired -> due <= desired + wslot_width_tsc_ w).
Proof.
  intros Hr HT Hb Href Hhor Hd Hcov Hpool.
  destruct (insert_cases e ref desired w pd T Hr HT Hb)
    as (w1 & T1 & Hreap & Hr1 & Hq & Ht & HTT & _ & Hw1 & _ & [(w' & Hi & Hqd)|[_ Hbad]]).
  - destruct Hqd as (bf & af & E & Hr' & ? & ? & Hq' & Hclk).
    exists w', T1, bf, af. assert (1 <= wslot_width_tsc_ w) as Hwd.
    { destruct Hr as (? & ? & ? & ? & Hinv & _). apply Hinv. }
    destruct (due_time_bounds (wslot_width_tsc_ w) T1 desired Hwd).
    split_and!; try done. congruence.
  - specialize (Hpool w1 Hreap). rewrite wrap_id in Hbad by (unfold in_word; lia).
    exfalso. destruct Hbad as [?|[?|[?|?]]]; [lia|lia|nia|done].
Qed.

(** ** Per-flow order *)

(** Later requests of a flow, on a wheel that has moved forward by whole slots,
    are not due before earlier ones. *)
Lemma due_time_mono width T1 T2 d1 d2 :
  1 <= width -> T1 <= T2 -> (T2 - T1) mod width = 0 -> d1 < d2 ->
  due_time width T1 d1 <= due_time width T2 d2.
Proof.
  intros Hw HT Hmod Hd. apply Z.mod_divide in Hmod as [k Hk]; [|lia].
  assert (T2 = T1 + k * width) as -> by lia. unfold due_time.
  pose proof (Z.div_mod (d1 - T1) width ltac:(lia)).
  pose proof (Z.mod_pos_bound (d1 - T1) width ltac:(lia)).
  pose proof (Z.div_mod (d2 - (T1 + k * width)) width ltac:(lia)).
  pose proof (Z.mod_pos_bound (d2 - (T1 + k * width)) width ltac:(lia)).
  assert (0 <= k) by nia. z_cases; [nia|nia| |].
  - assert ((d1 - T1) / width < k) by (apply Z.div_lt_upper_bound; nia). nia.
  - assert ((d1 - T1) / width <= (d2 - T1) / width) by (apply Z.div_le_mono; lia).
    replace ((d2 - (T1 + k * width))) with (d2 - T1 + (- k) * width) by lia.
    rewrite Z.div_add by lia. nia.
Qed.

Inductive action :=
  | Insert (ent ref_tsc desired_tx_tsc : Z)
  | Reap (reap_tsc : Z).

Definition act (a : action) w : result (wheel P) :=
  match a with
  | Insert ent ref_tsc desired_tx_tsc => insert N ent ref_tsc desired_tx_tsc w
  | Reap reap_tsc => reap N reap_tsc w
  end.

Fixpoint acts (l : list action) w : result (wheel P) :=
  match l with
  | [] => Done w
  | a :: l => w ← act a w; acts l w
  end.

(** The insertions of the flow [phi], [flow_of] giving an entry's flow. *)
Definition inserted (flow_of : Z -> Z) (phi : Z) (l : list action) : list (Z * Z) :=
  omap (fun a => match a with
                 | Insert e _ d => if flow_of e =? phi then Some (d, e) else None
                 | Reap _ => None
                 end) l.

Definition time_of (a : action) : Z :=
  match a with Insert _ ref_tsc _ => ref_tsc | Reap t => t end.

Definition of_flow (flow_of : Z -> Z) (phi : Z) (l : list Z) : list Z :=
  filter (fun e => flow_of e = phi) l.

Lemma of_flow_app flow_of phi l k :
  of_flow flow_of phi (l ++ k) = of_flow flow_of phi l ++ of_flow flow_of phi k.
Proof. apply filter_app. Qed.

(** Everything of flow [phi] sent or waiting, in order. *)
Definition sequence (flow_of : Z -> Z) (phi : Z) w (pd : list (Z * Z)) : list Z :=
  of_flow flow_of phi (ready_queue_ w ++ pd.*2).

Lemma represents_width w pd T : represents w pd T -> 1 <= wslot_width_tsc_ w.
Proof. intros (? & ? & ? & ? & H & _). apply H. Qed.

Definition no_later (a b : Z * Z) : Prop := a.1 <= b.1.

Lemma StronglySorted_app_intro {A} (R : A -> A -> Prop) (l k : list A) :
  StronglySorted R l -> StronglySorted R k -> (forall x y, x ∈ l -> y ∈ k -> R x y) ->
  StronglySorted R (l ++ k).
Proof.
  induction 1 as [|x l Hl IH Hx]; intros Hk HR; simpl; [done|]. constructor.
  - apply IH; [done|]. intros. apply HR; [by right|done].
  - apply Forall_app. split; [done|]. apply Forall_forall. intros y Hy. apply HR; [by left|done].
Qed.

Lemma represents_sorted w pd T : represents w pd T -> StronglySorted no_later pd.
Proof.
  intros Hr. pose proof (represents_width _ _ _ Hr) as Hw.
  destruct Hr as (_ & _ & slots & _ & _ & ->). unfold pending.
  generalize (cur_wslot_ w). intros cur. generalize 0%nat. generalize N at 1 as n.
  induction n as [|n IH]; intros a; simpl; [constructor|].
  apply StronglySorted_app_intro; [|apply IH|].
  - induction (slots (idx cur a)) as [|x l IHl]; simpl; constructor; [done|].
    apply Forall_fmap, Forall_true. intros y. unfold no_later. simpl. lia.
  - intros x y (e & -> & _)%list_elem_of_fmap Hy. unfold no_later. simpl.
    assert (Forall (fun de => T + Z.of_nat a * wslot_width_tsc_ w <= de.1) (concat
      ((fun k => pair (T + Z.of_nat k * wslot_width_tsc_ w) <$> slots (idx cur k)) <$> seq (S a) n))) as Hall.
    { apply Forall_concat, Forall_fmap, Forall_forall. intros k Hk%elem_of_seq. simpl.
      apply Forall_fmap, Forall_true. intros z. simpl. nia. }
    rewrite Forall_forall in Hall. by apply Hall.
Qed.

(** A sorted list splits at a time. *)
Lemma sorted_split t pd :
  StronglySorted no_later pd -> filter (due_by t) pd ++ filter (due_after t) pd = pd.
Proof.
  induction 1 as [|x pd Hs IH Hx]; [done|].
  destruct (decide (due_by t x)) as [Hd|Hd].
  - rewrite filter_cons_True by done. rewrite filter_cons_False by (unfold due_by, due_after in *; lia).
    simpl. by rewrite IH.
  - rewrite filter_cons_False by done. rewrite filter_cons_True by (unfold due_by, due_after in *; lia).
    assert (filter (due_by t) pd = []) as E.
    { clear IH Hs. induction Hx as [|y pd Hy Hx IH]; [done|].
      rewrite filter_cons_False; [done|]. unfold due_by, no_later in *. lia. }
    rewrite E in IH |- *. simpl in *. by rewrite IH.
Qed.

Record fifo_inv (flow_of : Z -> Z) (hist : list action) w pd T : Prop := {
  fifo_repr : represents w pd T;
  fifo_time : 0 <= T;
  fifo_seq phi : sequence flow_of phi w pd = (inserted flow_of phi hist).*2;
  fifo_due phi d e : last (inserted flow_of phi hist) = Some (d, e) ->
    exists T0, T0 <= T /\ (T - T0) mod wslot_width_tsc_ w = 0 /\
      Forall (fun de => flow_of de.2 = phi -> de.1 <= due_time (wslot_width_tsc_ w) T0 d) pd;
}.

Lemma grid_trans width a b c :
  (b - a) mod width = 0 -> (c - b) mod width = 0 -> (c - a) mod width = 0.
Proof.
  intros H1 H2. replace (c - a) with ((c - b) + (b - a)) by lia.
  rewrite Zplus_mod, H1, H2. apply Zmod_0_l.
Qed.

(** Letting the due entries out keeps the order. *)
Lemma fifo_reap flow_of hist w pd T w1 T1 t :
  fifo_inv flow_of hist w pd T -> represents w1 (filter (due_after t) pd) T1 ->
  ready_queue_ w1 = ready_queue_ w ++ (filter (due_by t) pd).*2 ->
  T <= T1 -> (T1 - T) mod wslot_width_tsc_ w = 0 -> wslot_width_tsc_ w1 = wslot_width_tsc_ w ->
  fifo_inv flow_of hist w1 (filter (due_after t) pd) T1.
Proof.
  intros [Hr HT Hseq Hdue] Hr1 Hq HTT Hmod Hw. split; [done|lia| |].
  - intros phi. rewrite <- (Hseq phi). unfold sequence. rewrite Hq, <- app_assoc, <- fmap_app.
    by rewrite (sorted_split t pd) by (by eapply represents_sorted).
  - intros phi d e Hl. destruct (Hdue phi d e Hl) as (T0 & HT0 & Hm0 & Hall). rewrite Hw.
    exists T0. split; [lia|]. split; [by eapply grid_trans|].
    apply Forall_forall. intros x [_ Hx]%list_elem_of_filter. rewrite Forall_forall in Hall. auto.
Qed.

Lemma inserted_app flow_of phi l k :
  inserted flow_of phi (l ++ k) = inserted flow_of phi l ++ inserted flow_of phi k.
Proof. apply omap_app. Qed.

(** An entry later than those of its flow goes behind them. *)
Lemma fifo_insert flow_of hist w pd T w' e ref d :
  fifo_inv flow_of hist w pd T ->
  queued w w' pd T e (due_time (wslot_width_tsc_ w) T d) ->
  (forall d0 e0, last (inserted flow_of (flow_of e) hist) = Some (d0, e0) -> d0 < d) ->
  exists pd', fifo_inv flow_of (hist ++ [Insert e ref d]) w' pd' T.
Proof.
  intros [Hr HT Hseq Hdue] (bf & af & -> & Hr' & Hbf & Haf & Hq & (_ & Hw & _)) Hlt.
  exists (bf ++ (due_time (wslot_width_tsc_ w) T d, e) :: af).
  pose proof (represents_width _ _ _ Hr) as Hwd.
  assert (Forall (fun de => flow_of de.2 <> flow_of e) af) as Hno.
  { apply Forall_forall. intros [du x] Hx E. simpl in E.
    rewrite Forall_forall in Haf. specialize (Haf _ Hx). unfold due_after in Haf. simpl in Haf.
    destruct (last (inserted flow_of (flow_of e) hist)) as [[d0 e0]|] eqn:El.
    - destruct (Hdue _ _ _ El) as (T0 & ? & ? & Hall). rewrite Forall_forall in Hall.
      specialize (Hall (du, x) ltac:(set_solver) E). simpl in Hall.
      pose proof (due_time_mono (wslot_width_tsc_ w) T0 T d0 d Hwd ltac:(done) ltac:(done)
        (Hlt d0 e0 eq_refl)). lia.
    - specialize (Hseq (flow_of e)). apply last_None in El. rewrite El in Hseq.
      assert (x ∈ sequence flow_of (flow_of e) w (bf ++ af)) as Hin.
      { unfold sequence, of_flow. apply list_elem_of_filter. split; [done|].
        apply elem_of_app. right. apply list_elem_of_fmap. exists (du, x). set_solver. }
      rewrite Hseq in Hin. by apply not_elem_of_nil in Hin. }
  split; [done|done| |].
  - intros phi. specialize (Hseq phi). unfold sequence in *. rewrite Hq.
    rewrite fmap_app, fmap_cons, inserted_app, fmap_app, <- Hseq, fmap_app, !of_flow_app.
    rewrite <- !app_assoc. f_equal. f_equal. unfold of_flow at 1. simpl.
    rewrite filter_cons. destruct (Z.eqb_spec (flow_of e) phi) as [<-|Hne]; simpl.
    + rewrite decide_True by done. fold (of_flow flow_of (flow_of e) af.*2).
      assert (of_flow flow_of (flow_of e) af.*2 = []) as ->; [|done].
      clear -Hno. induction Hno; [done|]. simpl. unfold of_flow. by rewrite filter_cons_False.
    + rewrite decide_False by done. by rewrite app_nil_r.
  - intros phi d0 e0. rewrite inserted_app. simpl. rewrite Hw.
    destruct (Z.eqb_spec (flow_of e) phi) as [<-|Hne]; simpl.
    + rewrite last_snoc. intros [= <- <-]. exists T. split; [lia|]. split; [by rewrite Z.sub_diag|].
      apply Forall_app. split; [|constructor; [simpl; lia|]].
      * eapply Forall_impl; [exact Hbf|]. intros x Hx _. exact Hx.
      * eapply Forall_impl; [exact Hno|]. simpl. done.
    + rewrite app_nil_r. intros Hl. destruct (Hdue phi d0 e0 Hl) as (T0 & ? & ? & Hall).
      exists T0. split_and!; [done|done|]. apply Forall_app in Hall as [H1 H2].
      apply Forall_app. split; [done|]. constructor; [done|done].
Qed.

Lemma fifo_act flow_of hist w pd T a w' :
  fifo_inv flow_of hist w pd T ->
  time_of a + Z.of_nat N * wslot_width_tsc_ w < 2 ^ 61 ->
  (forall phi, StronglySorted Z.lt (inserted flow_of phi (hist ++ [a])).*1) ->
  act a w = Done w' ->
  exists pd' T', fifo_inv flow_of (hist ++ [a]) w' pd' T' /\
    wslot_width_tsc_ w' = wslot_width_tsc_ w.
Proof.
  intros Hf Ht Hsort Ha. pose proof Hf as [Hr HT _ _]. destruct a as [e ref d|t]; simpl in *.
  - destruct (insert_cases e ref d w pd T Hr HT Ht)
      as (w1 & T1 & _ & Hr1 & Hq1 & _ & HTT & Hmod & Hw1 & _ & [(w2 & Hi & Hqd)|[Hi _]]);
      [|congruence].
    assert (w2 = w') as -> by congruence.
    assert (fifo_inv flow_of hist w1 (filter (due_after ref) pd) T1) as Hf1 by by eapply fifo_reap.
    rewrite <- Hw1 in Hqd.
    destruct (fifo_insert flow_of hist w1 _ T1 w' e ref d Hf1 Hqd) as (pd' & Hf').
    + intros d0 e0 El. specialize (Hsort (flow_of e)).
      rewrite inserted_app in Hsort. simpl in Hsort. rewrite Z.eqb_refl in Hsort. simpl in Hsort.
      apply last_Some in El as (l & El). rewrite El, !fmap_app in Hsort. simpl in Hsort.
      rewrite <- app_assoc in Hsort. clear -Hsort.
      induction l as [|x l IH]; simpl in Hsort; inversion_clear Hsort; [|by apply IH].
      by inversion_clear H0.
    + exists pd', T1. split; [done|]. destruct Hqd as (? & ? & _ & _ & _ & _ & _ & (_ & -> & _)).
      done.
  - destruct (reap_ok t w pd T Hr HT Ht)
      as (w1 & T1 & Hreap & Hq & Hr1 & _ & _ & HTT & Hmod & Hw1 & _).
    assert (w1 = w') as -> by congruence. exists (filter (due_after t) pd), T1.
    split; [|done]. destruct (fifo_reap flow_of hist w pd T w' T1 t Hf Hr1 Hq HTT Hmod Hw1) as [? ? Hs Hd].
    split; [done|done|intros phi|intros phi]; rewrite inserted_app; simpl; rewrite app_nil_r;
      [apply Hs|apply Hd].
Qed.

Lemma sorted_prefix {A} (R : A -> A -> Prop) (l k : list A) :
  StronglySorted R (l ++ k) -> StronglySorted R l.
Proof.
  induction l as [|x l IH]; simpl; [constructor|]. inversion_clear 1.
  constructor; [by apply IH|]. by apply Forall_app in H1 as [? _].
Qed.

Lemma fifo_acts flow_of l : forall hist w pd T w',
  fifo_inv flow_of hist w pd T ->
  Forall (fun a => time_of a + Z.of_nat N * wslot_width_tsc_ w < 2 ^ 61) l ->
  (forall phi, StronglySorted Z.lt (inserted flow_of phi (hist ++ l)).*1) ->
  acts l w = Done w' -> exists pd' T', fifo_inv flow_of (hist ++ l) w' pd' T'.
Proof.
  induction l as [|a l IH]; intros hist w pd T w' Hf Ht Hsort Ha; simpl in Ha.
  { rewrite app_nil_r. simplify_eq. by exists pd, T. }
  apply Forall_cons in Ht as [Hta Ht]. destruct (act a w) as [w1|] eqn:E; simpl in Ha; [|done].
  replace (hist ++ a :: l) with ((hist ++ [a]) ++ l) in * by (by rewrite <- app_assoc).
  destruct (fifo_act flow_of hist w pd T a w1 Hf Hta) as (pd1 & T1 & Hf1 & Hw1); [|done|].
  { intros phi. specialize (Hsort phi). rewrite inserted_app, fmap_app in Hsort.
    by eapply sorted_prefix. }
  eapply (IH (hist ++ [a]) w1 pd1 T1); [done|by rewrite Hw1|done|done].
Qed.

(** C32: pacing keeps the order of a flow.  When, over any interleaving of
    insertions and reaps on an empty wheel, each flow's entries are inserted
    with strictly increasing desired times, then the entries of a flow that
    have come out so far are, in this order, the first ones it inserted. *)
Theorem wheel_preserves_flow_order flow_of l w0 w T phi :
  represents w0 [] T -> ready_queue_ w0 = [] -> 0 <= T ->
  Forall (fun a => time_of a + Z.of_nat N * wslot_width_tsc_ w0 < 2 ^ 61) l ->
  (forall phi, StronglySorted Z.lt (inserted flow_of phi l).*1) ->
  acts l w0 = Done w ->
  exists waiting, of_flow flow_of phi (ready_queue_ w) ++ waiting = (inserted flow_of phi l).*2.
Proof.
  intros Hr Hq HT Ht Hsort Ha.
  destruct (fifo_acts flow_of l [] w0 [] T w) as (pd & T' & [_ _ Hseq _]); try done.
  { split; [done|done| |done]. intros phi'. unfold sequence. by rewrite Hq. }
  exists (of_flow flow_of phi pd.*2). simpl in Hseq. rewrite <- (Hseq phi).
  unfold sequence. by rewrite of_flow_app.
Qed.

(** ** The constructor *)

Lemma fill_pool_ok n : forall p q l,
  dq_repr q l -> alen l + Z.of_nat n <= dq_capacity q ->
  exists q', fill_pool n p q = Done q' /\ dq_repr q' (rev (seq p n) ++ l) /\
    dq_capacity q' = dq_capacity q.
Proof.
  induction n as [|n IH]; intros p q l Hq Hcap; simpl; [by eauto|].
  destruct (dq_push_front_ok q l p Hq) as (q1 & -> & Hq1 & Hc1); [lia|].
  destruct (IH (S p) q1 (p :: l) Hq1) as (q' & -> & Hq' & Hc'); [rewrite alen_cons; lia|].
  exists q'. rewrite <- app_assoc. split_and!; [done|done|congruence].
Qed.

Lemma TimingWheel_represents base width horizon garbage M pool :
  (1 <= N)%nat -> 1 <= width -> 0 <= base -> base + Z.of_nat N * width < 2 ^ 61 ->
  alen garbage = kWheelBucketCap -> dq_repr pool [] -> Z.of_nat M <= dq_capacity pool ->
  exists w, TimingWheel N base width horizon garbage M pool = Done w /\
    represents w [] (base + width) /\ ready_queue_ w = [] /\
    wslot_width_tsc_ w = width /\ horizon_tsc_ w = horizon.
Proof.
  intros HN Hwd Hb0 Hb Hg Hp Hcap. unfold TimingWheel.
  destruct (fill_pool_ok M N pool [] Hp) as (q & -> & Hq & Hcq); [unfold alen; simpl; lia|]. simpl.
  rewrite app_nil_r in Hq. eexists; split; [done|]. split_and!; try done. simpl.
  set (st := init_wheel N base width garbage ++ replicate M (Bkt 0 0 0 None garbage)).
  assert (length (init_wheel N base width garbage) = N) as Hlen
    by (unfold init_wheel; by rewrite length_fmap, length_seq).
  assert (forall i, (i < N)%nat -> st !! i = Some (Bkt 0
    (wrap (64 - kNumBktEntriesBits) (base + (Z.of_nat i + 1) * width)) i None garbage)) as Hst.
  { intros i Hi. unfold st. rewrite lookup_app_l by lia. unfold init_wheel.
    rewrite list_lookup_fmap, lookup_seq_lt by done. done. }
  exists (fun p => if decide (p < N)%nat then Some p else None), (fun i => [i]), (fun _ => []),
    (rev (seq N M)). split.
  - split; simpl; fold st; try done.
    + unfold st. rewrite length_app, length_replicate. lia.
    + apply Forall_app. split; [|by apply Forall_replicate].
      apply Forall_fmap, Forall_true. done.
    + intros i Hi. exists []. done.
    + intros i p Hi ->%list_elem_of_singleton. by rewrite decide_True.
    + intros i Hi. apply NoDup_singleton.
    + intros i Hi. apply (chain_last st i _ (Hst i Hi)); done.
    + intros i Hi. by rewrite Hst.
    + intros k Hk. unfold idx. rewrite (proj2 (Nat.ltb_lt _ _)) by lia. rewrite Hst by lia. simpl.
      f_equal. rewrite wrap_id; [lia|]. unfold in_word, kNumBktEntriesBits. nia.
    + intros p. rewrite <- Permutation_rev. intros Hp'%elem_of_seq.
      rewrite decide_False by lia. split; [done|]. unfold st. rewrite length_app, length_replicate. lia.
    + rewrite <- Permutation_rev. apply NoDup_seq.
    + unfold st. rewrite length_app, length_replicate. lia.
  - unfold pending. simpl. induction (seq 0 N); simpl; [done|]. done.
Qed.

End inv.

(** ** A concrete wheel *)

Definition get {A} (r : result A) (dflt : A) : A :=
  match r with Done a => a | Fail _ => dflt end.

(** Four slots of 100 cycles, eight spare buckets, started at cycle 1000. *)
Definition small : wheel (Cb.cb nat) :=
  get (TimingWheel 4 1000 100 300 (replicate 5 0) 8 (Cb.CircularBuffer 0%nat 8))
    (Mk [] 0 (Cb.CircularBuffer 0%nat 8) 0 [] 0 0).

Lemma small_represents :
  represents 4 small [] 1100 /\ ready_queue_ small = [] /\
  wslot_width_tsc_ small = 100 /\ horizon_tsc_ small = 300.
Proof.
  destruct (TimingWheel_represents 4 1000 100 300 (replicate 5 0) 8 (Cb.CircularBuffer 0%nat 8))
    as (w & E & Hw); [lia|lia|lia|lia|done|by apply Cb.CircularBuffer_repr|by vm_compute|].
  unfold small. rewrite E. exact Hw.
Qed.

Lemma reap_moves_due_witness :
  exists w' T', reap 4 1250 small = Done w' /\ ready_queue_ w' = [] /\
    represents 4 w' [] T' /\ 1250 < T'.
Proof.
  destruct small_represents as (Hr & Hq & Hw & _).
  destruct (reap_moves_due 4 1250 small [] 1100 Hr) as (w' & T' & H1 & H2 & H3 & H4);
    [lia|rewrite Hw; lia|].
  exists w', T'. split_and!; [exact H1|by rewrite H2, Hq|exact H3|exact H4].
Defined.

Lemma insert_waits_in_order_witness :
  exists w' T' before after, insert 4 7 1050 1290 small = Done w' /\
    [] = before ++ after /\ represents 4 w' (before ++ (due_time 100 T' 1290, 7) :: after) T'.
Proof.
  destruct small_represents as (Hr & _ & Hw & Hh).
  destruct (insert_waits_in_order 4 7 1050 1290 small [] 1100 Hr)
    as (w' & T' & bf & af & H1 & _ & H2 & H3 & _);
    rewrite ?Hw, ?Hh; try lia.
  { intros w' E. vm_compute in E. injection E as <-. by vm_compute. }
  exists w', T', bf, af. rewrite Hw in H3. split_and!; [exact H1|exact H2|exact H3].
Defined.

Lemma wheel_preserves_flow_order_witness :
  let l := [Insert 10 1050 1090; Insert 11 1060 1200; Insert 20 1070 1080;
            Reap 1150; Insert 12 1160 1210; Reap 1300; Reap 1400] in
  exists w waiting, acts 4 l small = Done w /\
    ready_queue_ w = [10; 20; 11; 12] /\
    of_flow (fun e => e / 10) 1 (ready_queue_ w) ++ waiting = [10; 11; 12].
Proof.
  intros l. destruct small_represents as (Hr & Hq & Hw & _).
  destruct (acts 4 l small) as [w|] eqn:E; [|by vm_compute in E].
  destruct (wheel_preserves_flow_order 4 (fun e => e / 10) l small w 1100 1 Hr Hq)
    as (waiting & H); [lia| | |exact E|].
  - rewrite Hw. repeat constructor; simpl; lia.
  - intros [|[p|[p|p|]|]|p]; vm_compute; repeat constructor.
  - exists w, waiting. split; [done|]. split; [|exact H].
    vm_compute in E. by injection E as <-.
Defined.

End TimingWheel.
