(* ===== verification/Cc.v ===== *)
(** * Congestion control

    The sender-side algorithms of [include/cc]: Swift ([swift.h]), Timely
    ([timely.h]) and the wrapper [CongestionControlState] ([cc_state.h]) that the
    point-to-point and expert-parallel transports use.  The clock is an argument;
    [assert]s are checked (the library is built without [NDEBUG]). *)

From S2P Require Import Prelude Float64.
From Stdlib Require Import Floats.SpecFloat.

(** ** Swift *)

Module Swift.

Definition kMSS : Z := 4096.
Definition kDefaultWnd : Z := 1024 * 1024.
Definition kMinCwnd : Z := kMSS.
Definition kMaxCwnd : Z := 1024 * 1024.
Definition kAI : double := of_Z 8.
Definition kBeta : double := lit 8 10.
Definition kMaxDF : double := lit 1 2.
Definition kBaseDelay : double := of_Z 50.

(** Newton's method, 20 iterations from [x]. *)
Definition csqrt (x : double) : double :=
  Nat.iter 20 (fun r => ((r + x / r) * lit 1 2)%D) x.

Definition kFSRange : double := (of_Z 5 * kBaseDelay)%D.
Definition kFSMinCwnd : double := of_Z 32.
Definition kFSMaxCwnd : double := of_Z 100.
Definition kFSAlpha : double :=
  (kFSRange / ((of_Z 1 / csqrt kFSMinCwnd) - (of_Z 1 / csqrt kFSMaxCwnd)))%D.
Definition kFSBeta : double := (SFopp kFSAlpha / csqrt kFSMaxCwnd)%D.

Record SwiftCC := MkSwift {
  srate_ : double;
  last_decrease_tsc_ : Z;
  rtt_ : double;
  min_rtt_ : double;
  prev_cwnd_ : Z;
  swift_cwnd_ : Z;
}.

(** [SwiftCC(freq_ghz, link_bandwidth)]; [prev_cwnd_] is not initialised. *)
Definition SwiftCC_init (now : Z) (link_bandwidth : double) (garbage : Z) : SwiftCC :=
  MkSwift link_bandwidth now kBaseDelay kBaseDelay garbage kDefaultWnd.

Section swift.
Context (freq_ghz : double).
Implicit Types s : SwiftCC.

Definition update_rtt (delay : double) s : SwiftCC :=
  MkSwift (srate_ s) (last_decrease_tsc_ s)
    (rtt_ s * of_Z 7 / of_Z 8 + delay / of_Z 8)%D (dmin (min_rtt_ s) delay)
    (prev_cwnd_ s) (swift_cwnd_ s).

Definition can_decrease (now : Z) s : bool :=
  (rtt_ s <=? to_usec (now -[64] last_decrease_tsc_ s) freq_ghz)%D.

Definition get_target_delay s : double :=
  let fs := (kFSAlpha / dsqrt (of_Z (prev_cwnd_ s / kMSS)) + kFSBeta)%D in
  let fs := if (kFSRange <? fs)%D then kFSRange else fs in
  let fs := if (fs <? of_Z 0)%D then of_Z 0 else fs in
  let fs := if prev_cwnd_ s =? 0 then of_Z 0 else fs in
  (kBaseDelay + fs)%D.

(** The window before it is clamped. *)
Definition raw_wnd (delay target : double) (acked_bytes : Z) (cand : bool) (cwnd : Z) : Z :=
  if (delay <? target)%D then
    cast_uint 32 (of_Z cwnd + (of_Z acked_bytes * kAI) / of_Z cwnd)%D
  else if cand then
    cast_uint 32 (of_Z cwnd *
      dmax (of_Z 1 - kBeta * (delay - target) / delay) (of_Z 1 - kMaxDF))%D
  else cwnd.

Definition clamp (cwnd : Z) : Z :=
  let cwnd := if cwnd <? kMinCwnd then kMinCwnd else cwnd in
  if kMaxCwnd <? cwnd then kMaxCwnd else cwnd.

Definition adjust_wnd (now : Z) (delay : double) (acked_bytes : Z) s : SwiftCC :=
  let cand := can_decrease now s in
  let s := update_rtt delay (MkSwift (srate_ s) (last_decrease_tsc_ s) (rtt_ s) (min_rtt_ s)
                               (swift_cwnd_ s) (swift_cwnd_ s)) in
  let cwnd := raw_wnd delay (get_target_delay s) acked_bytes cand (swift_cwnd_ s) in
  MkSwift (srate_ s) (last_decrease_tsc_ s) (rtt_ s) (min_rtt_ s) (prev_cwnd_ s) (clamp cwnd).

Definition get_wnd s : Z := swift_cwnd_ s.

Definition window_ok s : Prop := kMinCwnd <= get_wnd s <= kMaxCwnd.

Lemma clamp_ok cwnd : kMinCwnd <= clamp cwnd <= kMaxCwnd.
Proof. unfold clamp, kMinCwnd, kMaxCwnd, kMSS. z_cases; lia. Qed.
End swift.

End Swift.

(** ** Timely *)

Module Timely.

Definition kEwmaAlpha : double := lit 125 1000.
Definition kBeta : double := lit 8 1000.
Definition kMinRate : double := (lit 1 10 * of_Z 1000 * of_Z 1000 * of_Z 1000)%D.
Definition kAddRate : double := (lit 5 10 * of_Z 1000 * of_Z 1000 * of_Z 1000)%D.
Definition kTLow : double := of_Z 35.
Definition kTHigh : double := of_Z 350.
Definition kMinRTT : double := of_Z 2.

Record TimelyCC := MkTimely {
  rate_ : double;
  neg_gradient_count_ : Z;
  prev_rtt_ : double;
  avg_rtt_diff_ : double;
  last_update_tsc_ : Z;
  min_rtt_tsc_ : double;
  t_low_tsc_ : double;
  freq_ghz_ : double;
  link_bandwidth_ : double;
  prev_desired_tx_tsc_ : Z;
}.
Definition set_prev_desired_tx_tsc_ (v : Z) (r : TimelyCC) : TimelyCC :=
  MkTimely (rate_ r) (neg_gradient_count_ r) (prev_rtt_ r) (avg_rtt_diff_ r) (last_update_tsc_ r) (min_rtt_tsc_ r) (t_low_tsc_ r) (freq_ghz_ r) (link_bandwidth_ r) v.

Definition TimelyCC_init (now : Z) (freq_ghz link_bandwidth : double) : TimelyCC :=
  MkTimely link_bandwidth 0 kMinRTT (of_Z 0) now (kMinRTT * freq_ghz * of_Z 1000)%D
    (kTLow * freq_ghz * of_Z 1000)%D freq_ghz link_bandwidth 0.

Section timely.
Implicit Types t : TimelyCC.

Definition w_func (g : double) : double :=
  if (g <=? SFopp (lit 1 4))%D then of_Z 0
  else if (lit 1 4 <=? g)%D then of_Z 1
  else (of_Z 2 * g + lit 1 2)%D.

(** The rate before it is limited ([kPatched] is true). *)
Definition new_rate (rate sample_rtt avg_rtt_diff delta_factor : double) : double :=
  let ai_factor := (kAddRate * delta_factor)%D in
  if (sample_rtt <? kTLow)%D then (rate + ai_factor)%D
  else
    let md_factor := (delta_factor * kBeta)%D in
    let norm_grad := (avg_rtt_diff / kMinRTT)%D in
    if (sample_rtt <=? kTHigh)%D then
      let wght := w_func norm_grad in
      let err := ((sample_rtt - kTLow) / kTLow)%D in
      (rate * (of_Z 1 - md_factor * wght * err) + ai_factor * (of_Z 1 - wght))%D
    else (rate * (of_Z 1 - md_factor * (of_Z 1 - kTHigh / sample_rtt)))%D.

Definition limit_rate (rate new link : double) : double :=
  dmax (dmin (dmax new (rate * lit 5 10)%D) link) kMinRate.

(** [update_rate] with its sanity check; [kRecord] and [kLatencyStats] are off. *)
Definition update_rate (now sample_rtt_tsc : Z) (ewma_alpha : double) t : result TimelyCC :=
  _ ← check ((1000000000 <=? now) && (last_update_tsc_ t <=? now));
  if SFeqb (rate_ t) (link_bandwidth_ t) && (of_Z sample_rtt_tsc <=? t_low_tsc_ t)%D then Done t
  else if (of_Z sample_rtt_tsc <? min_rtt_tsc_ t)%D then Done t
  else
    let sample_rtt := to_usec sample_rtt_tsc (freq_ghz_ t) in
    let rtt_diff := (sample_rtt - prev_rtt_ t)%D in
    let neg := if (rtt_diff <? of_Z 0)%D then neg_gradient_count_ t +[64] 1 else 0 in
    let avg := ((of_Z 1 - ewma_alpha) * avg_rtt_diff_ t + ewma_alpha * rtt_diff)%D in
    let delta := dmin (of_Z (now -[64] last_update_tsc_ t) / min_rtt_tsc_ t)%D (of_Z 1) in
    let rate := limit_rate (rate_ t) (new_rate (rate_ t) sample_rtt avg delta) (link_bandwidth_ t) in
    Done (MkTimely rate neg sample_rtt avg now (min_rtt_tsc_ t) (t_low_tsc_ t) (freq_ghz_ t)
            (link_bandwidth_ t) (prev_desired_tx_tsc_ t)).

Definition get_wnd t : Z := cast_uint 32 (rate_ t * prev_rtt_ t / of_Z 1000000)%D.

(** The rate is between [kMinRate] and the bandwidth of the link. *)
Definition rate_ok t : Prop :=
  (rate_ t <? kMinRate)%D = false /\ (link_bandwidth_ t <? rate_ t)%D = false.

Lemma limit_rate_ok rate new link :
  (link <? kMinRate)%D = false ->
  (limit_rate rate new link <? kMinRate)%D = false /\ (link <? limit_rate rate new link)%D = false.
Proof.
  intros Hl. unfold limit_rate. set (x := dmax new _). unfold dmax at 1 2.
  destruct (dmin x link <? kMinRate)%D eqn:E; [by split; [apply dlt_irrefl|]|]. split; [done|].
  unfold dmin in *. destruct (link <? x)%D eqn:E'; [apply dlt_irrefl|done].
Qed.

Lemma update_rate_ok now d alpha t :
  1000000000 <= now -> last_update_tsc_ t <= now -> (link_bandwidth_ t <? kMinRate)%D = false ->
  rate_ok t ->
  exists t', update_rate now d alpha t = Done t' /\ rate_ok t' /\ last_update_tsc_ t' <= now /\
    link_bandwidth_ t' = link_bandwidth_ t.
Proof.
  intros H1 H2 Hl Hr. unfold update_rate.
  rewrite (proj2 (Z.leb_le _ _) H1), (proj2 (Z.leb_le _ _) H2). cbn [andb check mbind result_bind].
  destruct (_ && _); [by exists t|]. destruct (of_Z d <? _)%D; [by exists t|]. eexists. split; [done|].
  split; [apply limit_rate_ok; exact Hl|]. done.
Qed.
End timely.

End Timely.

(** ** Congestion control of the point-to-point and expert-parallel transports *)

Module CcState.

Inductive Mode := kNone | kTimely | kSwift.

Definition kTscWindowSize : Z := 65536.

Record CongestionControlState := MkState {
  send_tsc_ : list Z;
  mode_ : Mode;
  timely_ : Timely.TimelyCC;
  swift_ : Swift.SwiftCC;
}.

(** The constructor and [init]; the slots are zero. *)
Definition init (mode : Mode) (now : Z) (freq_ghz link_bw_bps : double) (garbage : Z) :
    CongestionControlState :=
  MkState (replicate (Z.to_nat kTscWindowSize) 0) mode (Timely.TimelyCC_init now freq_ghz link_bw_bps)
    (Swift.SwiftCC_init now link_bw_bps garbage).

(** [parseMode] on the value of the environment variable. *)
Definition tolower (c : Z) : Z := if (65 <=? c) && (c <=? 90) then c + 32 else c.
Definition parseMode (env : option (list Z)) : Mode :=
  match env with
  | None => kNone
  | Some v =>
      let mode := map tolower v in
      if decide (mode = [116; 105; 109; 101; 108; 121]) then kTimely
      else if decide (mode = [115; 119; 105; 102; 116]) then kSwift
      else kNone
  end.

Section state.
Context (freq_ghz : double).
Implicit Types s : CongestionControlState.

Definition enabled s : bool := match mode_ s with kNone => false | _ => true end.
Definition set_slot (wr_id v : Z) s : CongestionControlState :=
  MkState (aset (send_tsc_ s) (wr_id mod kTscWindowSize) v) (mode_ s) (timely_ s) (swift_ s).
Definition slot (wr_id : Z) s : Z := default 0 (aget (send_tsc_ s) (wr_id mod kTscWindowSize)).

Definition recordSendTsc (now wr_id : Z) s : CongestionControlState :=
  match mode_ s with kNone => s | _ => set_slot wr_id now s end.

Definition onAck (now wr_id acked_bytes : Z) s : result CongestionControlState :=
  match mode_ s with
  | kNone => Done s
  | mode =>
      if slot wr_id s =? 0 then Done s
      else
        let sample_rtt_tsc := now -[64] slot wr_id s in
        if sample_rtt_tsc =? 0 then Done s
        else
          s ← match mode with
              | kTimely =>
                  t ← Timely.update_rate now sample_rtt_tsc Timely.kEwmaAlpha (timely_ s);
                  Done (MkState (send_tsc_ s) mode t (swift_ s))
              | _ =>
                  let bytes := if 0 <? acked_bytes then wrap 32 acked_bytes else Swift.kMSS in
                  Done (MkState (send_tsc_ s) mode (timely_ s)
                    (Swift.adjust_wnd freq_ghz now (to_usec sample_rtt_tsc freq_ghz) bytes (swift_ s)))
              end;
          Done (set_slot wr_id 0 s)
  end.

Definition getWindowBytes s : Z :=
  match mode_ s with
  | kTimely => Timely.get_wnd (timely_ s)
  | kSwift => Swift.get_wnd (swift_ s)
  | kNone => 0
  end.
End state.

(** *** Every RTT sample is used once *)

Inductive event := Send (now wr_id : Z) | Ack (now wr_id acked_bytes : Z).

Definition run_event (freq : double) (e : event) s : result CongestionControlState :=
  match e with
  | Send now wr_id => Done (recordSendTsc now wr_id s)
  | Ack now wr_id n => onAck freq now wr_id n s
  end.

(** Whether the acknowledgement feeds the algorithm. *)
Definition samples (e : event) s : bool :=
  match e with
  | Send _ _ => false
  | Ack now wr_id _ =>
      enabled s && negb (slot wr_id s =? 0) && negb (now -[64] slot wr_id s =? 0)
  end.

Fixpoint run (freq : double) (h : list event) s : result (nat * CongestionControlState) :=
  match h with
  | [] => Done (O, s)
  | e :: h =>
      s' ← run_event freq e s;
      '(n, s'') ← run freq h s';
      Done ((Nat.b2n (samples e s) + n)%nat, s'')
  end.

Definition is_send (e : event) : bool := match e with Send _ _ => true | _ => false end.
Definition sends (h : list event) : nat := length (filter is_send h).

Definition busy (l : list Z) : nat := length (filter (fun v => v <> 0) l).

Definition set_count (v : Z) : nat := if v =? 0 then 0%nat else 1%nat.

Lemma busy_insert (l : list Z) (i : nat) (x v : Z) : l !! i = Some x ->
  (busy (<[i := v]> l) + set_count x = busy l + set_count v)%nat.
Proof.
  intros Hx. apply take_drop_middle in Hx as E. pose proof (lookup_lt_Some _ _ _ Hx) as Hlt.
  rewrite insert_take_drop by done. rewrite <- E at 3. unfold busy. rewrite !filter_app, !length_app.
  rewrite !filter_cons. unfold set_count.
  destruct (Z.eqb_spec x 0), (Z.eqb_spec v 0), (decide (v <> 0)), (decide (x <> 0)); cbn; try done; lia.
Qed.

Lemma busy_aset (l : list Z) (i v : Z) : 0 <= i ->
  (busy (aset l i v) <= busy l + set_count v)%nat /\
  (v = 0 -> default 0 (aget l i) <> 0 -> (busy (aset l i v) + 1 = busy l)%nat).
Proof.
  intros Hi. unfold aset, aget. destruct (l !! Z.to_nat i) as [x|] eqn:Hx.
  - pose proof (busy_insert l (Z.to_nat i) x v Hx) as H. unfold set_count in *.
    destruct (Z.eqb_spec x 0), (Z.eqb_spec v 0); cbn [default]; split; intros; try done; lia.
  - rewrite list_insert_ge by (by apply lookup_ge_None). split; [lia|done].
Qed.

Lemma run_event_busy freq e s s' : run_event freq e s = Done s' ->
  (Nat.b2n (samples e s) + busy (send_tsc_ s') <= busy (send_tsc_ s) + sends [e])%nat.
Proof.
  pose proof (fun wr_id v => busy_aset (send_tsc_ s) (wr_id mod kTscWindowSize) v
    (proj1 (Z.mod_pos_bound wr_id kTscWindowSize eq_refl))) as Hb.
  destruct e as [now wr|now wr n]; unfold run_event, samples, enabled.
  - change (sends [Send now wr]) with 1%nat. intros [= <-]. unfold recordSendTsc, set_slot. cbn. destruct (Hb wr now) as [H _].
    unfold set_count in H. destruct (mode_ s); cbn [send_tsc_]; [lia|..]; destruct (now =? 0); lia.
  - unfold onAck, slot, set_slot. destruct (mode_ s); [intros [= <-]; cbn; lia|..].
    all: destruct (Z.eqb_spec (default 0 (aget (send_tsc_ s) (wr mod kTscWindowSize))) 0) as [|Hne];
      [intros [= <-]; cbn; lia|].
    all: destruct (_ =? 0); [intros [= <-]; cbn; lia|].
    all: intros [s1 [H1 H2]]%bind_done; injection H2 as <-; destruct (Hb wr 0) as [_ H]; specialize (H eq_refl Hne).
    + apply bind_done in H1 as (t & _ & [= <-]). cbn [andb negb Nat.b2n send_tsc_]. lia.
    + injection H1 as <-. cbn [andb negb Nat.b2n send_tsc_]. lia.
Qed.

Lemma init_idle mode now ghz bw garbage : busy (send_tsc_ (init mode now ghz bw garbage)) = O.
Proof.
  unfold init. cbn [send_tsc_]. generalize (Z.to_nat kTscWindowSize). intros k. unfold busy.
  induction k as [|k IH]; [done|]. cbn [replicate]. rewrite filter_cons. by case_decide.
Qed.

(** Every recorded send feeds at most one RTT sample to the congestion
    control: in any history of sends and acknowledgements, duplicates and
    colliding request numbers included, the acknowledgements that update the
    algorithm are no more than the sends recorded in the history and those
    outstanding at its start, which for a new object are none. *)
Theorem samples_at_most_sends freq h s n s' :
  run freq h s = Done (n, s') ->
  (n + busy (send_tsc_ s') <= busy (send_tsc_ s) + sends h)%nat /\
  forall mode now ghz bw garbage, busy (send_tsc_ (init mode now ghz bw garbage)) = O.
Proof.
  intros Hr. split; [|intros; apply init_idle].
  revert n s' s Hr. induction h as [|e h IH]; intros n s' s; cbn [run].
  - intros [= <- <-]. lia.
  - intros (s1 & H1 & ([m s2] & H2 & [= <- <-])%bind_done)%bind_done.
    apply run_event_busy in H1. apply IH in H2. change (e :: h) with ([e] ++ h).
    unfold sends in *. rewrite filter_app, length_app. lia.
Qed.

(** Two sends and four acknowledgements, two of them duplicates. *)
Module Example.
Definition start : CongestionControlState :=
  MkState [0; 0; 0; 0] kSwift (Timely.TimelyCC_init 1000 (of_Z 1) (of_Z 1000000000))
    (Swift.SwiftCC_init 1000 (of_Z 1000000000) 0).
Definition history : list event :=
  [Send 2000 1; Ack 9000 1 4096; Ack 9500 1 4096; Send 9600 65538; Ack 9700 2 0; Ack 9800 65538 0].

Lemma samples_at_most_sends_witness :
  exists s', run (of_Z 1) history start = Done (2%nat, s') /\
    (2 + busy (send_tsc_ s') <= busy (send_tsc_ start) + sends history)%nat.
Proof.
  destruct (run (of_Z 1) history start) as [[n s']|] eqn:E; [|vm_compute in E; discriminate].
  assert (n = 2%nat) as -> by (vm_compute in E; congruence).
  exists s'. split; [reflexivity|]. apply (samples_at_most_sends (of_Z 1) history start 2 s' E).
Defined.
End Example.

End CcState.

(** ** The bandwidth of the link *)

Module LinkBandwidth.

Definition kDefault : double := (of_Z 400 * of_Z 1000000000 / of_Z 8)%D.
Definition kSpeeds : list Z := [2500; 5000; 10000; 10000; 14000; 25000; 50000; 100000].
Definition kWidths : list Z := [1; 4; 8; 12; 2].

(** The lowest set bit below [max], or [max]. *)
Fixpoint firstBit_from (val i : Z) (n : nat) : Z :=
  match n with
  | O => i
  | S n => if Z.testbit val i then i else firstBit_from val (i + 1) n
  end.
Definition firstBit (val max : Z) : Z := firstBit_from val 0 (Z.to_nat max).

(** [env] is the value of the environment variable, read as a number; [port] the
    speed and the width of the port where the device could be asked. *)
Definition get_link_bandwidth_bps (env : option double) (port : option (Z * Z)) : result double :=
  let detect :=
    match port with
    | Some (active_speed, active_width) =>
        match aget kSpeeds (firstBit active_speed 7), aget kWidths (firstBit active_width 4) with
        | Some spd, Some wid => Done (of_Z spd * of_Z wid * of_Z 1000000 / of_Z 8)%D
        | _, _ => Fail OutOfBounds
        end
    | None => Done kDefault
    end in
  match env with
  | Some gbps =>
      if (of_Z 0 <? gbps)%D then Done (gbps * of_Z 1000000000 / of_Z 8)%D else detect
  | None => detect
  end.

Lemma firstBit_from_range val n : forall i, i <= firstBit_from val i n <= i + Z.of_nat n.
Proof.
  induction n as [|n IH]; intros i; cbn [firstBit_from]; [lia|]. destruct (Z.testbit _ _); [lia|].
  specialize (IH (i + 1)). lia.
Qed.

Lemma firstBit_range val max : 0 <= max -> 0 <= firstBit val max <= max.
Proof. intros. pose proof (firstBit_from_range val (Z.to_nat max) 0). unfold firstBit. lia. Qed.

Definition at_least_min (r : result double) : bool :=
  match r with Done b => negb (b <? Timely.kMinRate)%D | Fail _ => false end.

(** Detecting the bandwidth of the link never reads outside the tables of
    speeds and widths, whatever the device reports, and what it detects is never
    below the lowest rate of Timely, so that the bounds on the rate of Timely
    are not contradictory. *)
Theorem link_bandwidth_detected port :
  exists b, get_link_bandwidth_bps None port = Done b /\ (b <? Timely.kMinRate)%D = false.
Proof.
  unfold get_link_bandwidth_bps. destruct port as [[sp wd]|]; [|exists kDefault; split; [reflexivity|vm_compute; reflexivity]].
  pose proof (firstBit_range sp 7 ltac:(lia)) as Hs. pose proof (firstBit_range wd 4 ltac:(lia)) as Hw.
  set (i := firstBit sp 7) in *. set (j := firstBit wd 4) in *. clearbody i j.
  assert (i ∈ seqZ 0 8) as Hi by (apply elem_of_seqZ; lia).
  assert (j ∈ seqZ 0 5) as Hj by (apply elem_of_seqZ; lia).
  assert (forallb (fun i => forallb (fun j => at_least_min
    match aget kSpeeds i, aget kWidths j with
    | Some spd, Some wid => Done (of_Z spd * of_Z wid * of_Z 1000000 / of_Z 8)%D
    | _, _ => Fail OutOfBounds end) (seqZ 0 5)) (seqZ 0 8) = true) as H by (vm_compute; reflexivity).
  rewrite forallb_forall in H. specialize (H i ltac:(by apply list_elem_of_In)). cbn beta in H.
  rewrite forallb_forall in H. specialize (H j ltac:(by apply list_elem_of_In)). cbn beta in H.
  destruct (aget kSpeeds i) as [spd|]; [|discriminate H]. destruct (aget kWidths j) as [wid|]; [|discriminate H].
  eexists. split; [reflexivity|]. apply negb_true_iff. exact H.
Qed.
End LinkBandwidth.
