(* ===== verification/Pcb.v ===== *)
(** * Protocol control block

    [collective/rdma/pcb.h]: the per-flow protocol state and the 128-bit SACK
    bitmap kept in 64-bit buckets.  The congestion-control members are a
    parameter [CC] of the record.  The bitmap is shown to be one integer whose
    bits move down by one per in-order chunk. *)

From S2P Require Import Prelude Csn.

Module Pcb.

Definition kSackBitmapSize : Z := 128.
Definition kSackBitmapBucketSize : Z := 64.

Record PCB (CC : Type) := MkPcb {
  snd_nxt : Z;
  snd_una : Z;
  rcv_nxt : Z;
  sack_bitmap : list Z;
  sack_bitmap_count : Z;
  tx_sack_bitmap : list Z;
  tx_sack_bitmap_count : Z;
  tx_sack_bitmap_base : Z;
  t_remote_nic_rx : Z;
  duplicate_acks : Z;
  rto_rexmits_consectutive : Z;
  snd_ooo_acks : Z;
  stats_fast_rexmits : Z;
  stats_rto_rexmits : Z;
  stats_accept_retr : Z;
  stats_chunk_drop : Z;
  stats_retr_chunk_drop : Z;
  cc : CC;
}.
Arguments MkPcb {CC} _ _ _ _ _ _ _ _ _ _ _ _ _ _ _ _ _ _ .
Arguments snd_nxt {CC} _.
Arguments snd_una {CC} _.
Arguments rcv_nxt {CC} _.
Arguments sack_bitmap {CC} _.
Arguments sack_bitmap_count {CC} _.
Arguments tx_sack_bitmap {CC} _.
Arguments tx_sack_bitmap_count {CC} _.
Arguments tx_sack_bitmap_base {CC} _.
Arguments t_remote_nic_rx {CC} _.
Arguments duplicate_acks {CC} _.
Arguments rto_rexmits_consectutive {CC} _.
Arguments snd_ooo_acks {CC} _.
Arguments stats_fast_rexmits {CC} _.
Arguments stats_rto_rexmits {CC} _.
Arguments stats_accept_retr {CC} _.
Arguments stats_chunk_drop {CC} _.
Arguments stats_retr_chunk_drop {CC} _.
Arguments cc {CC} _.
Definition set_snd_nxt {CC} (v : Z) (r : PCB CC) : PCB CC :=
  MkPcb v (snd_una r) (rcv_nxt r) (sack_bitmap r) (sack_bitmap_count r) (tx_sack_bitmap r) (tx_sack_bitmap_count r) (tx_sack_bitmap_base r) (t_remote_nic_rx r) (duplicate_acks r) (rto_rexmits_consectutive r) (snd_ooo_acks r) (stats_fast_rexmits r) (stats_rto_rexmits r) (stats_accept_retr r) (stats_chunk_drop r) (stats_retr_chunk_drop r) (cc r).
Definition set_snd_una {CC} (v : Z) (r : PCB CC) : PCB CC :=
  MkPcb (snd_nxt r) v (rcv_nxt r) (sack_bitmap r) (sack_bitmap_count r) (tx_sack_bitmap r) (tx_sack_bitmap_count r) (tx_sack_bitmap_base r) (t_remote_nic_rx r) (duplicate_acks r) (rto_rexmits_consectutive r) (snd_ooo_acks r) (stats_fast_rexmits r) (stats_rto_rexmits r) (stats_accept_retr r) (stats_chunk_drop r) (stats_retr_chunk_drop r) (cc r).
Definition set_rcv_nxt {CC} (v : Z) (r : PCB CC) : PCB CC :=
  MkPcb (snd_nxt r) (snd_una r) v (sack_bitmap r) (sack_bitmap_count r) (tx_sack_bitmap r) (tx_sack_bitmap_count r) (tx_sack_bitmap_base r) (t_remote_nic_rx r) (duplicate_acks r) (rto_rexmits_consectutive r) (snd_ooo_acks r) (stats_fast_rexmits r) (stats_rto_rexmits r) (stats_accept_retr r) (stats_chunk_drop r) (stats_retr_chunk_drop r) (cc r).
Definition set_sack_bitmap {CC} (v : list Z) (r : PCB CC) : PCB CC :=
  MkPcb (snd_nxt r) (snd_una r) (rcv_nxt r) v (sack_bitmap_count r) (tx_sack_bitmap r) (tx_sack_bitmap_count r) (tx_sack_bitmap_base r) (t_remote_nic_rx r) (duplicate_acks r) (rto_rexmits_consectutive r) (snd_ooo_acks r) (stats_fast_rexmits r) (stats_rto_rexmits r) (stats_accept_retr r) (stats_chunk_drop r) (stats_retr_chunk_drop r) (cc r).
Definition set_sack_bitmap_count {CC} (v : Z) (r : PCB CC) : PCB CC :=
  MkPcb (snd_nxt r) (snd_una r) (rcv_nxt r) (sack_bitmap r) v (tx_sack_bitmap r) (tx_sack_bitmap_count r) (tx_sack_bitmap_base r) (t_remote_nic_rx r) (duplicate_acks r) (rto_rexmits_consectutive r) (snd_ooo_acks r) (stats_fast_rexmits r) (stats_rto_rexmits r) (stats_accept_retr r) (stats_chunk_drop r) (stats_retr_chunk_drop r) (cc r).
Definition set_tx_sack_bitmap {CC} (v : list Z) (r : PCB CC) : PCB CC :=
  MkPcb (snd_nxt r) (snd_una r) (rcv_nxt r) (sack_bitmap r) (sack_bitmap_count r) v (tx_sack_bitmap_count r) (tx_sack_bitmap_base r) (t_remote_nic_rx r) (duplicate_acks r) (rto_rexmits_consectutive r) (snd_ooo_acks r) (stats_fast_rexmits r) (stats_rto_rexmits r) (stats_accept_retr r) (stats_chunk_drop r) (stats_retr_chunk_drop r) (cc r).
Definition set_tx_sack_bitmap_count {CC} (v : Z) (r : PCB CC) : PCB CC :=
  MkPcb (snd_nxt r) (snd_una r) (rcv_nxt r) (sack_bitmap r) (sack_bitmap_count r) (tx_sack_bitmap r) v (tx_sack_bitmap_base r) (t_remote_nic_rx r) (duplicate_acks r) (rto_rexmits_consectutive r) (snd_ooo_acks r) (stats_fast_rexmits r) (stats_rto_rexmits r) (stats_accept_retr r) (stats_chunk_drop r) (stats_retr_chunk_drop r) (cc r).
Definition set_tx_sack_bitmap_base {CC} (v : Z) (r : PCB CC) : PCB CC :=
  MkPcb (snd_nxt r) (snd_una r) (rcv_nxt r) (sack_bitmap r) (sack_bitmap_count r) (tx_sack_bitmap r) (tx_sack_bitmap_count r) v (t_remote_nic_rx r) (duplicate_acks r) (rto_rexmits_consectutive r) (snd_ooo_acks r) (stats_fast_rexmits r) (stats_rto_rexmits r) (stats_accept_retr r) (stats_chunk_drop r) (stats_retr_chunk_drop r) (cc r).
Definition set_t_remote_nic_rx {CC} (v : Z) (r : PCB CC) : PCB CC :=
  MkPcb (snd_nxt r) (snd_una r) (rcv_nxt r) (sack_bitmap r) (sack_bitmap_count r) (tx_sack_bitmap r) (tx_sack_bitmap_count r) (tx_sack_bitmap_base r) v (duplicate_acks r) (rto_rexmits_consectutive r) (snd_ooo_acks r) (stats_fast_rexmits r) (stats_rto_rexmits r) (stats_accept_retr r) (stats_chunk_drop r) (stats_retr_chunk_drop r) (cc r).
Definition set_duplicate_acks {CC} (v : Z) (r : PCB CC) : PCB CC :=
  MkPcb (snd_nxt r) (snd_una r) (rcv_nxt r) (sack_bitmap r) (sack_bitmap_count r) (tx_sack_bitmap r) (tx_sack_bitmap_count r) (tx_sack_bitmap_base r) (t_remote_nic_rx r) v (rto_rexmits_consectutive r) (snd_ooo_acks r) (stats_fast_rexmits r) (stats_rto_rexmits r) (stats_accept_retr r) (stats_chunk_drop r) (stats_retr_chunk_drop r) (cc r).
Definition set_rto_rexmits_consectutive {CC} (v : Z) (r : PCB CC) : PCB CC :=
  MkPcb (snd_nxt r) (snd_una r) (rcv_nxt r) (sack_bitmap r) (sack_bitmap_count r) (tx_sack_bitmap r) (tx_sack_bitmap_count r) (tx_sack_bitmap_base r) (t_remote_nic_rx r) (duplicate_acks r) v (snd_ooo_acks r) (stats_fast_rexmits r) (stats_rto_rexmits r) (stats_accept_retr r) (stats_chunk_drop r) (stats_retr_chunk_drop r) (cc r).
Definition set_snd_ooo_acks {CC} (v : Z) (r : PCB CC) : PCB CC :=
  MkPcb (snd_nxt r) (snd_una r) (rcv_nxt r) (sack_bitmap r) (sack_bitmap_count r) (tx_sack_bitmap r) (tx_sack_bitmap_count r) (tx_sack_bitmap_base r) (t_remote_nic_rx r) (duplicate_acks r) (rto_rexmits_consectutive r) v (stats_fast_rexmits r) (stats_rto_rexmits r) (stats_accept_retr r) (stats_chunk_drop r) (stats_retr_chunk_drop r) (cc r).
Definition set_stats_fast_rexmits {CC} (v : Z) (r : PCB CC) : PCB CC :=
  MkPcb (snd_nxt r) (snd_una r) (rcv_nxt r) (sack_bitmap r) (sack_bitmap_count r) (tx_sack_bitmap r) (tx_sack_bitmap_count r) (tx_sack_bitmap_base r) (t_remote_nic_rx r) (duplicate_acks r) (rto_rexmits_consectutive r) (snd_ooo_acks r) v (stats_rto_rexmits r) (stats_accept_retr r) (stats_chunk_drop r) (stats_retr_chunk_drop r) (cc r).
Definition set_stats_rto_rexmits {CC} (v : Z) (r : PCB CC) : PCB CC :=
  MkPcb (snd_nxt r) (snd_una r) (rcv_nxt r) (sack_bitmap r) (sack_bitmap_count r) (tx_sack_bitmap r) (tx_sack_bitmap_count r) (tx_sack_bitmap_base r) (t_remote_nic_rx r) (duplicate_acks r) (rto_rexmits_consectutive r) (snd_ooo_acks r) (stats_fast_rexmits r) v (stats_accept_retr r) (stats_chunk_drop r) (stats_retr_chunk_drop r) (cc r).
Definition set_stats_accept_retr {CC} (v : Z) (r : PCB CC) : PCB CC :=
  MkPcb (snd_nxt r) (snd_una r) (rcv_nxt r) (sack_bitmap r) (sack_bitmap_count r) (tx_sack_bitmap r) (tx_sack_bitmap_count r) (tx_sack_bitmap_base r) (t_remote_nic_rx r) (duplicate_acks r) (rto_rexmits_consectutive r) (snd_ooo_acks r) (stats_fast_rexmits r) (stats_rto_rexmits r) v (stats_chunk_drop r) (stats_retr_chunk_drop r) (cc r).
Definition set_stats_chunk_drop {CC} (v : Z) (r : PCB CC) : PCB CC :=
  MkPcb (snd_nxt r) (snd_una r) (rcv_nxt r) (sack_bitmap r) (sack_bitmap_count r) (tx_sack_bitmap r) (tx_sack_bitmap_count r) (tx_sack_bitmap_base r) (t_remote_nic_rx r) (duplicate_acks r) (rto_rexmits_consectutive r) (snd_ooo_acks r) (stats_fast_rexmits r) (stats_rto_rexmits r) (stats_accept_retr r) v (stats_retr_chunk_drop r) (cc r).
Definition set_stats_retr_chunk_drop {CC} (v : Z) (r : PCB CC) : PCB CC :=
  MkPcb (snd_nxt r) (snd_una r) (rcv_nxt r) (sack_bitmap r) (sack_bitmap_count r) (tx_sack_bitmap r) (tx_sack_bitmap_count r) (tx_sack_bitmap_base r) (t_remote_nic_rx r) (duplicate_acks r) (rto_rexmits_consectutive r) (snd_ooo_acks r) (stats_fast_rexmits r) (stats_rto_rexmits r) (stats_accept_retr r) (stats_chunk_drop r) v (cc r).
Definition set_cc {CC} (v : CC) (r : PCB CC) : PCB CC :=
  MkPcb (snd_nxt r) (snd_una r) (rcv_nxt r) (sack_bitmap r) (sack_bitmap_count r) (tx_sack_bitmap r) (tx_sack_bitmap_count r) (tx_sack_bitmap_base r) (t_remote_nic_rx r) (duplicate_acks r) (rto_rexmits_consectutive r) (snd_ooo_acks r) (stats_fast_rexmits r) (stats_rto_rexmits r) (stats_accept_retr r) (stats_chunk_drop r) (stats_retr_chunk_drop r) v.

Section pcb.
Context {CC : Type}.
Implicit Types p : PCB CC.

(** A control block with its default member initialisers. *)
Definition fresh (c : CC) : PCB CC :=
  MkPcb 0 0 0 [0; 0] 0 [0; 0] 0 0 0 0 0 0 0 0 0 0 0 c.

(** [get_snd_nxt] returns the number and advances. *)
Definition get_snd_nxt p : Z * PCB CC :=
  (snd_nxt p, set_snd_nxt (Csn.add_assign (snd_nxt p) 1) p).

Definition advance_rcv_nxt p : PCB CC :=
  set_rcv_nxt (Csn.add_assign (rcv_nxt p) 1) p.

(** The loop over the buckets: each takes its right neighbour's lowest bit. *)
Fixpoint shift_buckets (l : list Z) : list Z :=
  match l with
  | [] => []
  | [x] => [Z.shiftr x 1]
  | x :: ((y :: _) as r) =>
      Z.lor (Z.shiftr x 1) (wrap 64 (Z.shiftl y 63)) :: shift_buckets r
  end.

Definition sack_bitmap_shift_left_one p : PCB CC :=
  set_sack_bitmap_count (sack_bitmap_count p -[8] 1)
    (set_sack_bitmap (shift_buckets (sack_bitmap p)) p).

(** A bucket read past the array is out of bounds; its bit is tested with
    [1ULL << k]. *)
Definition bit_is_set (l : list Z) (index : Z) : result bool :=
  match aget l (index / kSackBitmapBucketSize) with
  | Some b => Done (negb (Z.land b (Z.shiftl 1 (index mod kSackBitmapBucketSize)) =? 0))
  | None => Fail OutOfBounds
  end.

Definition sack_bitmap_bit_is_set (index : Z) p : result bool :=
  bit_is_set (sack_bitmap p) index.

Definition sack_bitmap_bit_set (index : Z) p : result (PCB CC) :=
  if kSackBitmapSize <=? index then Fail CheckFailed
  else match aget (sack_bitmap p) (index / kSackBitmapBucketSize) with
  | None => Fail OutOfBounds
  | Some b =>
      Done (set_sack_bitmap_count (sack_bitmap_count p +[8] 1)
        (set_sack_bitmap
           (aset (sack_bitmap p) (index / kSackBitmapBucketSize)
              (Z.lor b (Z.shiftl 1 (index mod kSackBitmapBucketSize)))) p))
  end.
End pcb.

(** ** The buckets as one integer *)

Fixpoint join (l : list Z) : Z :=
  match l with [] => 0 | x :: l => x + 2 ^ 64 * join l end.

Definition buckets (l : list Z) : Prop := Forall (in_word 64) l.

Lemma join_nonneg l : buckets l -> 0 <= join l.
Proof. induction 1 as [|x l Hx Hl IH]; simpl; unfold in_word in *; lia. Qed.

Lemma testbit_join_low x j i :
  in_word 64 x -> 0 <= i < 64 -> Z.testbit (x + 2 ^ 64 * j) i = Z.testbit x i.
Proof.
  intros Hx Hi. rewrite <- (Z.mod_pow2_bits_low _ 64) by lia.
  rewrite (Z.mul_comm (2 ^ 64)), Z_mod_plus_full. by rewrite Z.mod_small.
Qed.

Lemma testbit_join_high x j i :
  in_word 64 x -> 64 <= i -> Z.testbit (x + 2 ^ 64 * j) i = Z.testbit j (i - 64).
Proof.
  intros Hx Hi. replace i with ((i - 64) + 64) at 1 by lia.
  rewrite <- Z.shiftr_spec, Z.shiftr_div_pow2 by lia. f_equal.
  rewrite (Z.mul_comm (2 ^ 64)), Z.div_add by lia. rewrite Z.div_small by done. lia.
Qed.

Lemma word_high_bits x i : in_word 64 x -> 64 <= i -> Z.testbit x i = false.
Proof.
  intros Hx Hi. rewrite <- (Z.mod_small x (2 ^ 64)) by done.
  by rewrite Z.mod_pow2_bits_high by lia.
Qed.

Lemma word_of_bits x :
  0 <= x -> (forall i, 64 <= i -> Z.testbit x i = false) -> in_word 64 x.
Proof.
  intros Hx H. split; [done|].
  destruct (decide (x = 0)) as [->|]; [lia|]. apply Z.log2_lt_pow2; [lia|].
  destruct (Z.lt_ge_cases (Z.log2 x) 64) as [|Hge]; [done|].
  specialize (H _ Hge). rewrite Z.bit_log2 in H by lia. done.
Qed.

Lemma land_bit x i : 0 <= i -> negb (Z.land x (2 ^ i) =? 0) = Z.testbit x i.
Proof.
  intros Hi. destruct (Z.testbit x i) eqn:E, (Z.eqb_spec (Z.land x (2 ^ i)) 0) as [H0|H0];
    try done; exfalso.
  - apply (f_equal (fun z => Z.testbit z i)) in H0.
    rewrite Z.land_spec, Z.pow2_bits_true, E, Z.bits_0 in H0 by lia. done.
  - apply H0, Z.bits_inj'. intros j Hj. rewrite Z.land_spec, Z.bits_0.
    destruct (decide (j = i)) as [->|]; [by rewrite E|].
    rewrite Z.pow2_bits_false by lia. by rewrite andb_false_r.
Qed.

(** The two bucket coordinates of an index past the first bucket. *)
Lemma bucket_S i :
  64 <= i -> i / 64 = (i - 64) / 64 + 1 /\ i mod 64 = (i - 64) mod 64 /\ 0 <= (i - 64) / 64.
Proof. intros. Z.to_euclidean_division_equations. lia. Qed.

Lemma bit_is_set_join l i :
  buckets l -> 0 <= i < 64 * alen l -> bit_is_set l i = Done (Z.testbit (join l) i).
Proof.
  intros Hl. revert i. induction Hl as [|x l Hx Hl IH]; intros i Hi.
  - unfold alen in Hi. simpl in Hi. lia.
  - rewrite alen_cons in Hi. unfold bit_is_set, kSackBitmapBucketSize in *. simpl join.
    destruct (Z.lt_ge_cases i 64).
    + rewrite testbit_join_low by (done || lia). rewrite Z.div_small, Z.mod_small by lia.
      unfold aget. simpl. by rewrite Z.shiftl_1_l, land_bit by lia.
    + rewrite testbit_join_high by (done || lia). rewrite <- IH by lia.
      destruct (bucket_S i) as (-> & -> & ?); [done|]. by rewrite aget_cons_S.
Qed.

Lemma bit_set_join l i b :
  buckets l -> 0 <= i -> aget l (i / 64) = Some b ->
  let l' := aset l (i / 64) (Z.lor b (Z.shiftl 1 (i mod 64))) in
  buckets l' /\ join l' = Z.setbit (join l) i.
Proof.
  intros Hl. revert i. induction Hl as [|x l Hx Hl IH]; intros i Hi Hb; [done|].
  destruct (Z.lt_ge_cases i 64).
  - rewrite Z.div_small, Z.mod_small in * by lia. unfold aget, aset in *. simpl in *.
    simplify_eq. rewrite Z.shiftl_1_l.
    assert (in_word 64 (Z.lor b (2 ^ i))) as Hw.
    { apply word_of_bits; [apply Z.lor_nonneg; split; [apply Hx|lia]|].
      intros j Hj. rewrite Z.lor_spec, word_high_bits, Z.pow2_bits_false by (done || lia).
      done. }
    split; [by constructor|]. apply Z.bits_inj'. intros j Hj.
    rewrite Z.setbit_eqb by done. destruct (Z.lt_ge_cases j 64).
    + rewrite !testbit_join_low, Z.lor_spec, Z.pow2_bits_eqb by (done || lia). by rewrite orb_comm.
    + rewrite !testbit_join_high by (done || lia). by destruct (Z.eqb_spec i j); [lia|].
  - destruct (bucket_S i) as (E1 & E2 & ?); [done|]. rewrite E1, E2 in *.
    rewrite aget_cons_S in Hb by done. destruct (IH (i - 64)) as [Hw HJ]; [lia|done|].
    assert (forall v, aset (x :: l) ((i - 64) / 64 + 1) v = x :: aset l ((i - 64) / 64) v)
      as Hset.
    { intros v. unfold aset. by replace (Z.to_nat _) with (S (Z.to_nat ((i - 64) / 64))) by lia. }
    rewrite Hset. split; [by constructor|]. simpl. rewrite HJ. apply Z.bits_inj'. intros j Hj.
    rewrite Z.setbit_eqb by done. destruct (Z.lt_ge_cases j 64).
    + rewrite !testbit_join_low by (done || lia). by destruct (Z.eqb_spec i j); [lia|].
    + rewrite !testbit_join_high, Z.setbit_eqb by (done || lia). f_equal. lia.
Qed.

Lemma shift_buckets_length l : alen (shift_buckets l) = alen l.
Proof. unfold alen. induction l as [|x [|y l] IH]; simpl in *; lia. Qed.

Lemma shift_buckets_join l :
  buckets l -> buckets (shift_buckets l) /\ join (shift_buckets l) = Z.shiftr (join l) 1.
Proof.
  induction 1 as [|x l Hx Hl IH]; [by split; [constructor|]|]. destruct l as [|y l].
  { simpl. rewrite !Z.add_0_r. split; [|done]. constructor; [|done].
    unfold in_word in *. rewrite Z.shiftr_div_pow2 by lia. word_lia. }
  destruct IH as [IHw IHj]. pose proof (Forall_inv Hl) as Hy.
  cbn [shift_buckets]. cbn [shift_buckets] in IHw, IHj.
  assert (forall j, 0 <= j -> Z.testbit (Z.lor (Z.shiftr x 1) (wrap 64 (Z.shiftl y 63))) j
    = Z.testbit x (j + 1) || ((j =? 63) && Z.testbit y 0)) as Hb.
  { intros j Hj. rewrite Z.lor_spec, Z.shiftr_spec by done. f_equal. unfold wrap.
    destruct (Z.lt_ge_cases j 64).
    - rewrite Z.mod_pow2_bits_low, Z.shiftl_spec by lia.
      destruct (Z.eqb_spec j 63) as [->|]; [done|]. by rewrite Z.testbit_neg_r by lia.
    - rewrite Z.mod_pow2_bits_high by lia. by destruct (Z.eqb_spec j 63); [lia|]. }
  assert (in_word 64 (Z.lor (Z.shiftr x 1) (wrap 64 (Z.shiftl y 63)))) as Hw.
  { apply word_of_bits.
    - apply Z.lor_nonneg. split; [apply Z.shiftr_nonneg, Hx|apply wrap_range; lia].
    - intros i Hi. rewrite Hb by lia. rewrite word_high_bits by (done || lia).
      by destruct (Z.eqb_spec i 63); [lia|]. }
  split; [by constructor|]. cbn [join] in *. rewrite IHj. apply Z.bits_inj'. intros j Hj.
  rewrite Z.shiftr_spec by done. destruct (Z.lt_ge_cases j 64).
  - rewrite testbit_join_low, Hb by (done || lia). destruct (Z.eqb_spec j 63) as [->|].
    + rewrite word_high_bits by (done || lia). simpl orb.
      rewrite (testbit_join_high x) by (done || lia). by rewrite (testbit_join_low y) by (done || lia).
    + rewrite orb_false_r. by rewrite testbit_join_low by (done || lia).
  - rewrite !(testbit_join_high) by (done || lia).
    rewrite Z.shiftr_spec by lia. f_equal. lia.
Qed.

(** ** The bitmap's invariant *)

(** The number of set bits among the lowest [k]. *)
Fixpoint count_bits (k : nat) (n : Z) : Z :=
  match k with
  | O => 0
  | S k => count_bits k n + Z.b2z (Z.testbit n (Z.of_nat k))
  end.

Definition popcount (n : Z) : Z := count_bits 128 n.

Definition sack {CC} (p : PCB CC) : Z := join (sack_bitmap p).

(** Two 64-bit buckets, and the counter is the population count. *)
Definition wf {CC} (p : PCB CC) : Prop :=
  alen (sack_bitmap p) = 2 /\ buckets (sack_bitmap p) /\
  sack_bitmap_count p = popcount (sack p).

Lemma count_bits_range k n : 0 <= count_bits k n <= Z.of_nat k.
Proof. induction k; simpl; [lia|]. destruct (Z.testbit _ _); simpl Z.b2z; lia. Qed.

Lemma count_bits_setbit k n i :
  0 <= i -> Z.testbit n i = false ->
  count_bits k (Z.setbit n i) = count_bits k n + (if i <? Z.of_nat k then 1 else 0).
Proof.
  intros Hi Hn. induction k as [|k IH]; simpl count_bits; [z_cases; lia|].
  rewrite IH, Z.setbit_eqb by lia. destruct (Z.eqb_spec i (Z.of_nat k)) as [->|].
  - rewrite Hn. simpl Z.b2z. z_cases; lia.
  - simpl orb. z_cases; lia.
Qed.

Lemma count_bits_shiftr k n :
  count_bits k (Z.shiftr n 1) + Z.b2z (Z.testbit n 0) = count_bits (S k) n.
Proof.
  induction k as [|k IH]; [done|]. cbn [count_bits] in *.
  rewrite Z.shiftr_spec, <- IH by lia.
  replace (Z.of_nat (S k)) with (Z.of_nat k + 1) by lia. lia.
Qed.

Lemma count_bits_shiftr_top k n :
  Z.testbit n (Z.of_nat k) = false -> Z.testbit n 0 = true ->
  count_bits k (Z.shiftr n 1) = count_bits k n - 1.
Proof.
  intros Hk H0. pose proof (count_bits_shiftr k n) as E. cbn [count_bits] in E.
  rewrite Hk, H0 in E. simpl Z.b2z in E. lia.
Qed.

Lemma popcount_range n : 0 <= popcount n <= 128.
Proof. exact (count_bits_range 128 n). Qed.

Lemma popcount_setbit n i :
  0 <= i < 128 -> Z.testbit n i = false -> popcount (Z.setbit n i) = popcount n + 1.
Proof.
  intros Hi Hn. etrans; [exact (count_bits_setbit 128 n i (proj1 Hi) Hn)|].
  change (Z.of_nat 128) with 128. rewrite (proj2 (Z.ltb_lt i 128)) by apply Hi.
  unfold popcount. reflexivity.
Qed.

Lemma popcount_shiftr n :
  Z.testbit n 128 = false -> Z.testbit n 0 = true ->
  popcount (Z.shiftr n 1) = popcount n - 1.
Proof. exact (count_bits_shiftr_top 128 n). Qed.

#[global] Opaque popcount.

Lemma sack_high {CC} (p : PCB CC) i : wf p -> 128 <= i -> Z.testbit (sack p) i = false.
Proof.
  intros (Hl & Hw & _) Hi. unfold sack.
  destruct (sack_bitmap p) as [|x [|y [|z l]]]; unfold alen in Hl; simpl in Hl; try lia.
  inversion_clear Hw as [|?? Hx Hw']. inversion_clear Hw' as [|?? Hy _]. cbn [join].
  rewrite !testbit_join_high by (done || lia). by rewrite Z.bits_0.
Qed.

Lemma fresh_wf {CC} (c : CC) : wf (fresh c).
Proof. split; [done|]. split; [|done]. by repeat constructor. Qed.

Lemma bit_is_set_spec {CC} (p : PCB CC) i :
  wf p -> 0 <= i < 128 -> sack_bitmap_bit_is_set i p = Done (Z.testbit (sack p) i).
Proof. intros (Hl & Hw & _) Hi. apply bit_is_set_join; [done|]. lia. Qed.

Lemma bit_set_spec {CC} (p : PCB CC) i :
  wf p -> 0 <= i < 128 -> Z.testbit (sack p) i = false ->
  exists bm cnt, sack_bitmap_bit_set i p =
    Done (set_sack_bitmap_count cnt (set_sack_bitmap bm p)) /\
    wf (set_sack_bitmap_count cnt (set_sack_bitmap bm p)) /\ join bm = Z.setbit (sack p) i.
Proof.
  intros (Hl & Hw & Hc) Hi Hn. unfold sack_bitmap_bit_set, kSackBitmapSize, kSackBitmapBucketSize.
  rewrite (proj2 (Z.leb_gt 128 i)) by lia.
  destruct (aget_is_Some (sack_bitmap p) (i / 64)) as [b Hb]; [word_lia|]. rewrite Hb.
  destruct (bit_set_join _ i b Hw) as [Hw' Hj]; [lia|done|].
  eexists _, _. split; [done|]. split; [|exact Hj]. unfold wf, sack. simpl.
  rewrite alen_aset, Hj. split; [done|]. split; [done|].
  change (join (sack_bitmap p)) with (sack p). rewrite popcount_setbit, Hc by done.
  pose proof (popcount_range (sack p)). apply wrap_id. unfold in_word. lia.
Qed.

Lemma shift_spec {CC} (p : PCB CC) :
  wf p -> Z.testbit (sack p) 0 = true ->
  wf (sack_bitmap_shift_left_one p) /\
  sack (sack_bitmap_shift_left_one p) = Z.shiftr (sack p) 1.
Proof.
  intros Hwf H0. pose proof Hwf as (Hl & Hw & Hc).
  destruct (shift_buckets_join _ Hw) as [Hw' Hj].
  split; [|exact Hj]. unfold wf, sack. simpl. rewrite shift_buckets_length, Hj, Hc.
  split; [done|]. split; [done|]. change (join (sack_bitmap p)) with (sack p).
  pose proof (popcount_range (Z.shiftr (sack p) 1)).
  rewrite popcount_shiftr in * by (done || by apply sack_high). apply wrap_id. 
  pose proof (popcount_range (sack p)). unfold in_word. lia.
Qed.

End Pcb.
