(* ===== verification/SharedIo.v ===== *)
(** * Shared I/O context

    [SharedIOContext] of [collective/rdma/rdma_io.{h,cc}] and the parts of
    [RDMAContext] that fill its work requests: the buffer pools of an engine,
    the batch of ACK work requests on the control queue pair, and the refill of
    the two receive queues.  The verbs calls are outputs: the chain of work
    requests handed to [ibv_post_send] or [ibv_post_recv].

    The pools are used through the interface [PoolOps]/[PoolLaws], which
    [BuffPool] implements. *)

From S2P Require Import Prelude Queues.

Class PoolOps (P : Type) := {
  pl_alloc : P -> option Z * P;
  pl_free : Z -> P -> P;
}.

(** [pl_repr p cap l]: the pool of capacity [cap] hands out [l], next first. *)
Class PoolLaws (P : Type) `{PoolOps P} := {
  pl_repr : P -> Z -> list Z -> Prop;
  pl_alloc_nil p cap : pl_repr p cap [] -> pl_alloc p = (None, p);
  pl_alloc_cons p cap b l : pl_repr p cap (b :: l) ->
    exists p', pl_alloc p = (Some b, p') /\ pl_repr p' cap l;
  pl_free_ok p cap l b : pl_repr p cap l -> in_word 64 b -> alen l < cap ->
    pl_repr (pl_free b p) cap (l ++ [b]);
}.

#[export] Instance buff_pool_ops : PoolOps BuffPool.t :=
  { pl_alloc := BuffPool.alloc_buff; pl_free := BuffPool.free_buff }.

#[export, refine] Instance buff_pool_laws : PoolLaws BuffPool.t := {
  pl_repr p cap l := BuffPool.repr p l /\ cap = BuffPool.num_elements_ p - 1 }.
Proof.
  - intros p cap [H _]. by apply BuffPool.alloc_buff_nil.
  - intros p cap b l [H ->]. destruct (BuffPool.alloc_buff_cons p b l H)
      as (p' & E & H' & Hn & _). exists p'. simpl. rewrite Hn. done.
  - intros p cap l b [H ->] Hb Hl.
    destruct (BuffPool.free_buff_ok p l b H Hb Hl) as (H' & Hn & _).
    split; [done|]. simpl. by rewrite Hn.
Defined.

(** ** Data *)

Module Io.

Definition kMaxAckWRs : Z := 8.
Definition kMaxBatchCQ : Z := 16.
Definition kPostRQThreshold : Z := kMaxBatchCQ.
Definition kMaxInline : Z := 64.
Definition kPktSize : Z := 36.
Definition kChunkSize : Z := kPktSize * kMaxBatchCQ.
Definition UD_ADDITION : Z := 40.

(** Big-endian members are kept as the values they decode to. *)
Record UcclSackHdr := MkSack {
  peer_id : Z;
  hfid : Z;
  path : Z;
  ackno : Z;
  hsack_bitmap_count : Z;
  remote_queueing : Z;
  hsack_bitmap : list Z;
}.

(** The members of an [ibv_send_wr] of the control queue pair and of its
    scatter element that [try_post_acks] writes. *)
Record ack_wr := MkAckWr {
  sge_addr : Z;
  sge_length : Z;
  wr_id : Z;
  imm_data : Z;
  inline : bool;
  has_next : bool;
}.

(** A receive work request: its buffer and its descriptor. *)
Record recv_wr := MkRecvWr { rsge_addr : Z; rwr_id : Z }.

Record io (P : Type) := MkIo {
  ctrl_chunk_pool_ : P;
  cq_desc_pool_ : P;
  retr_chunk_pool_ : P;
  retr_hdr_pool_ : P;
  descs : gmap Z Z;
  ctrl_mem : gmap Z UcclSackHdr;
  tx_ack_wr_ : list ack_wr;
  nr_tx_ack_wr_ : Z;
  inflight_ctrl_wrs_ : Z;
  srq_cnt : Z;
  ctrl_rq_cnt : Z;
  sent_acks : list (list ack_wr);
  posted_ctrl : list recv_wr;
  posted_srq : list recv_wr;
}.
Arguments MkIo {P} _ _ _ _ _ _ _ _ _ _ _ _ _ _ .
Arguments ctrl_chunk_pool_ {P} _.
Arguments cq_desc_pool_ {P} _.
Arguments retr_chunk_pool_ {P} _.
Arguments retr_hdr_pool_ {P} _.
Arguments descs {P} _.
Arguments ctrl_mem {P} _.
Arguments tx_ack_wr_ {P} _.
Arguments nr_tx_ack_wr_ {P} _.
Arguments inflight_ctrl_wrs_ {P} _.
Arguments srq_cnt {P} _.
Arguments ctrl_rq_cnt {P} _.
Arguments sent_acks {P} _.
Arguments posted_ctrl {P} _.
Arguments posted_srq {P} _.
Definition set_ctrl_chunk_pool_ {P} (v : P) (r : io P) : io P :=
  MkIo v (cq_desc_pool_ r) (retr_chunk_pool_ r) (retr_hdr_pool_ r) (descs r) (ctrl_mem r) (tx_ack_wr_ r) (nr_tx_ack_wr_ r) (inflight_ctrl_wrs_ r) (srq_cnt r) (ctrl_rq_cnt r) (sent_acks r) (posted_ctrl r) (posted_srq r).
Definition set_cq_desc_pool_ {P} (v : P) (r : io P) : io P :=
  MkIo (ctrl_chunk_pool_ r) v (retr_chunk_pool_ r) (retr_hdr_pool_ r) (descs r) (ctrl_mem r) (tx_ack_wr_ r) (nr_tx_ack_wr_ r) (inflight_ctrl_wrs_ r) (srq_cnt r) (ctrl_rq_cnt r) (sent_acks r) (posted_ctrl r) (posted_srq r).
Definition set_retr_chunk_pool_ {P} (v : P) (r : io P) : io P :=
  MkIo (ctrl_chunk_pool_ r) (cq_desc_pool_ r) v (retr_hdr_pool_ r) (descs r) (ctrl_mem r) (tx_ack_wr_ r) (nr_tx_ack_wr_ r) (inflight_ctrl_wrs_ r) (srq_cnt r) (ctrl_rq_cnt r) (sent_acks r) (posted_ctrl r) (posted_srq r).
Definition set_retr_hdr_pool_ {P} (v : P) (r : io P) : io P :=
  MkIo (ctrl_chunk_pool_ r) (cq_desc_pool_ r) (retr_chunk_pool_ r) v (descs r) (ctrl_mem r) (tx_ack_wr_ r) (nr_tx_ack_wr_ r) (inflight_ctrl_wrs_ r) (srq_cnt r) (ctrl_rq_cnt r) (sent_acks r) (posted_ctrl r) (posted_srq r).
Definition set_descs {P} (v : gmap Z Z) (r : io P) : io P :=
  MkIo (ctrl_chunk_pool_ r) (cq_desc_pool_ r) (retr_chunk_pool_ r) (retr_hdr_pool_ r) v (ctrl_mem r) (tx_ack_wr_ r) (nr_tx_ack_wr_ r) (inflight_ctrl_wrs_ r) (srq_cnt r) (ctrl_rq_cnt r) (sent_acks r) (posted_ctrl r) (posted_srq r).
Definition set_ctrl_mem {P} (v : gmap Z UcclSackHdr) (r : io P) : io P :=
  MkIo (ctrl_chunk_pool_ r) (cq_desc_pool_ r) (retr_chunk_pool_ r) (retr_hdr_pool_ r) (descs r) v (tx_ack_wr_ r) (nr_tx_ack_wr_ r) (inflight_ctrl_wrs_ r) (srq_cnt r) (ctrl_rq_cnt r) (sent_acks r) (posted_ctrl r) (posted_srq r).
Definition set_tx_ack_wr_ {P} (v : list ack_wr) (r : io P) : io P :=
  MkIo (ctrl_chunk_pool_ r) (cq_desc_pool_ r) (retr_chunk_pool_ r) (retr_hdr_pool_ r) (descs r) (ctrl_mem r) v (nr_tx_ack_wr_ r) (inflight_ctrl_wrs_ r) (srq_cnt r) (ctrl_rq_cnt r) (sent_acks r) (posted_ctrl r) (posted_srq r).
Definition set_nr_tx_ack_wr_ {P} (v : Z) (r : io P) : io P :=
  MkIo (ctrl_chunk_pool_ r) (cq_desc_pool_ r) (retr_chunk_pool_ r) (retr_hdr_pool_ r) (descs r) (ctrl_mem r) (tx_ack_wr_ r) v (inflight_ctrl_wrs_ r) (srq_cnt r) (ctrl_rq_cnt r) (sent_acks r) (posted_ctrl r) (posted_srq r).
Definition set_inflight_ctrl_wrs_ {P} (v : Z) (r : io P) : io P :=
  MkIo (ctrl_chunk_pool_ r) (cq_desc_pool_ r) (retr_chunk_pool_ r) (retr_hdr_pool_ r) (descs r) (ctrl_mem r) (tx_ack_wr_ r) (nr_tx_ack_wr_ r) v (srq_cnt r) (ctrl_rq_cnt r) (sent_acks r) (posted_ctrl r) (posted_srq r).
Definition set_srq_cnt {P} (v : Z) (r : io P) : io P :=
  MkIo (ctrl_chunk_pool_ r) (cq_desc_pool_ r) (retr_chunk_pool_ r) (retr_hdr_pool_ r) (descs r) (ctrl_mem r) (tx_ack_wr_ r) (nr_tx_ack_wr_ r) (inflight_ctrl_wrs_ r) v (ctrl_rq_cnt r) (sent_acks r) (posted_ctrl r) (posted_srq r).
Definition set_ctrl_rq_cnt {P} (v : Z) (r : io P) : io P :=
  MkIo (ctrl_chunk_pool_ r) (cq_desc_pool_ r) (retr_chunk_pool_ r) (retr_hdr_pool_ r) (descs r) (ctrl_mem r) (tx_ack_wr_ r) (nr_tx_ack_wr_ r) (inflight_ctrl_wrs_ r) (srq_cnt r) v (sent_acks r) (posted_ctrl r) (posted_srq r).
Definition set_sent_acks {P} (v : list (list ack_wr)) (r : io P) : io P :=
  MkIo (ctrl_chunk_pool_ r) (cq_desc_pool_ r) (retr_chunk_pool_ r) (retr_hdr_pool_ r) (descs r) (ctrl_mem r) (tx_ack_wr_ r) (nr_tx_ack_wr_ r) (inflight_ctrl_wrs_ r) (srq_cnt r) (ctrl_rq_cnt r) v (posted_ctrl r) (posted_srq r).
Definition set_posted_ctrl {P} (v : list recv_wr) (r : io P) : io P :=
  MkIo (ctrl_chunk_pool_ r) (cq_desc_pool_ r) (retr_chunk_pool_ r) (retr_hdr_pool_ r) (descs r) (ctrl_mem r) (tx_ack_wr_ r) (nr_tx_ack_wr_ r) (inflight_ctrl_wrs_ r) (srq_cnt r) (ctrl_rq_cnt r) (sent_acks r) v (posted_srq r).
Definition set_posted_srq {P} (v : list recv_wr) (r : io P) : io P :=
  MkIo (ctrl_chunk_pool_ r) (cq_desc_pool_ r) (retr_chunk_pool_ r) (retr_hdr_pool_ r) (descs r) (ctrl_mem r) (tx_ack_wr_ r) (nr_tx_ack_wr_ r) (inflight_ctrl_wrs_ r) (srq_cnt r) (ctrl_rq_cnt r) (sent_acks r) (posted_ctrl r) v.

Section io.
Context {P : Type} `{PoolOps P}.
Implicit Types s : io P.

(** The pops check that the pool is not empty. *)
Definition pop_ctrl_chunk s : result (Z * io P) :=
  match pl_alloc (ctrl_chunk_pool_ s) with
  | (Some a, p) => Done (a, set_ctrl_chunk_pool_ p s)
  | (None, _) => Fail CheckFailed
  end.
Definition push_ctrl_chunk (addr : Z) s : io P :=
  set_ctrl_chunk_pool_ (pl_free addr (ctrl_chunk_pool_ s)) s.

Definition pop_cqe_desc s : result (Z * io P) :=
  match pl_alloc (cq_desc_pool_ s) with
  | (Some a, p) => Done (a, set_cq_desc_pool_ p s)
  | (None, _) => Fail CheckFailed
  end.
Definition push_cqe_desc (desc : Z) s : io P :=
  set_cq_desc_pool_ (pl_free desc (cq_desc_pool_ s)) s.

Definition pop_retr_chunk s : result (Z * io P) :=
  match pl_alloc (retr_chunk_pool_ s) with
  | (Some a, p) => Done (a, set_retr_chunk_pool_ p s)
  | (None, _) => Fail CheckFailed
  end.
Definition push_retr_chunk (addr : Z) s : io P :=
  set_retr_chunk_pool_ (pl_free addr (retr_chunk_pool_ s)) s.

Definition pop_retr_hdr s : result (Z * io P) :=
  match pl_alloc (retr_hdr_pool_ s) with
  | (Some a, p) => Done (a, set_retr_hdr_pool_ p s)
  | (None, _) => Fail CheckFailed
  end.
Definition push_retr_hdr (addr : Z) s : io P :=
  set_retr_hdr_pool_ (pl_free addr (retr_hdr_pool_ s)) s.

(** [cqe_desc->data = v]. *)
Definition set_desc (desc v : Z) s : io P := set_descs (<[desc := v]> (descs s)) s.

(** [flush_acks]: ends the chain and posts it. *)
Definition flush_acks s : result (io P) :=
  if nr_tx_ack_wr_ s =? 0 then Done s
  else match aget (tx_ack_wr_ s) (nr_tx_ack_wr_ s - 1) with
  | None => Fail OutOfBounds
  | Some w =>
      let wrs := aset (tx_ack_wr_ s) (nr_tx_ack_wr_ s - 1)
        (MkAckWr (sge_addr w) (sge_length w) (wr_id w) (imm_data w) (inline w) false) in
      Done (set_nr_tx_ack_wr_ 0
        (set_inflight_ctrl_wrs_ (inflight_ctrl_wrs_ s +[32] nr_tx_ack_wr_ s)
          (set_sent_acks (sent_acks s ++ [take (Z.to_nat (nr_tx_ack_wr_ s)) wrs])
            (set_tx_ack_wr_ wrs s))))
  end.

(** [RDMAContext::try_post_acks]: the next slot of the batch sends the
    [num_ack] packets of the control chunk. *)
Definition try_post_acks (num_ack chunk_addr : Z) (force : bool) s : result (io P) :=
  if num_ack =? 0 then Done s
  else
    let idx := nr_tx_ack_wr_ s in
    '(cqe_desc, s) ← pop_cqe_desc s;
    let s := set_desc cqe_desc chunk_addr s in
    if alen (tx_ack_wr_ s) <=? idx then Fail OutOfBounds
    else
      let len := wrap 32 (kPktSize * num_ack) in
      let w := MkAckWr chunk_addr len cqe_desc num_ack (len <=? kMaxInline)
                 (negb (idx =? kMaxAckWRs - 1)) in
      let s := set_nr_tx_ack_wr_ (idx +[32] 1) (set_tx_ack_wr_ (aset (tx_ack_wr_ s) idx w) s) in
      if force || (nr_tx_ack_wr_ s =? kMaxAckWRs) then flush_acks s else Done s.

(** The loop of [check_ctrl_rq]: one receive per control chunk. *)
Fixpoint fill_ctrl_rq (n : nat) (acc : list recv_wr) s : result (list recv_wr * io P) :=
  match n with
  | O => Done (acc, s)
  | S n =>
      '(chunk_addr, s) ← pop_ctrl_chunk s;
      '(cqe_desc, s) ← pop_cqe_desc s;
      fill_ctrl_rq n (acc ++ [MkRecvWr chunk_addr cqe_desc]) (set_desc cqe_desc chunk_addr s)
  end.

Definition check_ctrl_rq (force : bool) s : result (io P) :=
  let n := ctrl_rq_cnt s in
  if negb force && (n <? kPostRQThreshold) then Done s
  else
    let post_batch := Z.min kPostRQThreshold n in
    '(wrs, s) ← fill_ctrl_rq (Z.to_nat post_batch) [] s;
    Done (set_ctrl_rq_cnt (ctrl_rq_cnt s -[32] post_batch)
            (set_posted_ctrl (posted_ctrl s ++ wrs) s)).

(** The loop of [check_srq]: in RC mode the receives carry no buffer. *)
Fixpoint fill_srq (rc_mode : bool) (n : nat) (acc : list recv_wr) s :
    result (list recv_wr * io P) :=
  match n with
  | O => Done (acc, s)
  | S n =>
      if rc_mode then fill_srq rc_mode n (acc ++ [MkRecvWr 0 0]) s
      else
        '(chunk_addr, s) ← pop_retr_chunk s;
        '(cqe_desc, s) ← pop_cqe_desc s;
        fill_srq rc_mode n (acc ++ [MkRecvWr chunk_addr cqe_desc])
          (set_desc cqe_desc chunk_addr s)
  end.

Definition check_srq (rc_mode force : bool) s : result (io P) :=
  let n := srq_cnt s in
  if negb force && (n <? kPostRQThreshold) then Done s
  else
    let post_batch := Z.min kPostRQThreshold n in
    '(wrs, s) ← fill_srq rc_mode (Z.to_nat post_batch) [] s;
    Done (set_srq_cnt (srq_cnt s -[32] post_batch)
            (set_posted_srq (posted_srq s ++ wrs) s)).

(** ** The ACK batch *)

(** There is always a free slot: the batch is posted when it is full. *)
Definition batch_ok s : Prop :=
  alen (tx_ack_wr_ s) = kMaxAckWRs /\ 0 <= nr_tx_ack_wr_ s < kMaxAckWRs.

Definition has_desc s : Prop := is_Some (pl_alloc (cq_desc_pool_ s)).1.
Definition has_ctrl s : Prop := is_Some (pl_alloc (ctrl_chunk_pool_ s)).1.

Lemma flush_acks_ok s :
  alen (tx_ack_wr_ s) = kMaxAckWRs -> 0 <= nr_tx_ack_wr_ s <= kMaxAckWRs ->
  exists s', flush_acks s = Done s' /\ batch_ok s' /\
    cq_desc_pool_ s' = cq_desc_pool_ s /\ ctrl_chunk_pool_ s' = ctrl_chunk_pool_ s.
Proof.
  intros Hl Hn. unfold flush_acks, batch_ok, kMaxAckWRs in *.
  destruct (Z.eqb_spec (nr_tx_ack_wr_ s) 0); [exists s; split_and!; (done || lia)|].
  destruct (aget_is_Some (tx_ack_wr_ s) (nr_tx_ack_wr_ s - 1)) as [w ->]; [lia|].
  eexists. split; [done|]. simpl. rewrite alen_aset. split_and!; (done || lia).
Qed.

Lemma try_post_acks_batch n a force s s' :
  try_post_acks n a force s = Done s' -> batch_ok s -> batch_ok s'.
Proof.
  unfold try_post_acks. destruct (n =? 0); [by intros [=<-]|].
  unfold pop_cqe_desc. destruct (pl_alloc _) as [[d|] p]; [|done]. cbn.
  intros E [Hl Hn]. destruct (Z.leb_spec (alen (tx_ack_wr_ s)) (nr_tx_ack_wr_ s)); [done|].
  assert (nr_tx_ack_wr_ s +[32] 1 = nr_tx_ack_wr_ s + 1) as Hw.
  { apply wrap_id. unfold in_word, kMaxAckWRs in *. lia. }
  rewrite Hw in E. case_match eqn:Ef.
  - match type of E with flush_acks ?x = _ => destruct (flush_acks_ok x) as (s1 & E1 & Hb & _) end;
      [simpl; by rewrite alen_aset|simpl; lia|]. congruence.
  - injection E as <-. apply orb_false_iff in Ef as [_ Ef]. apply Z.eqb_neq in Ef.
    split; simpl in *; [by rewrite alen_aset|lia].
Qed.

Lemma try_post_acks_done n a force s :
  batch_ok s -> has_desc s -> exists s', try_post_acks n a force s = Done s'.
Proof.
  intros [Hl Hn] [d Hd]. unfold try_post_acks. destruct (n =? 0); [by eexists|].
  unfold pop_cqe_desc. destruct (pl_alloc _) as [o p]. simpl in Hd. subst o. cbn.
  destruct (Z.leb_spec (alen (tx_ack_wr_ s)) (nr_tx_ack_wr_ s)); [lia|].
  assert (nr_tx_ack_wr_ s +[32] 1 = nr_tx_ack_wr_ s + 1) as ->.
  { apply wrap_id. unfold in_word, kMaxAckWRs in *. lia. }
  case_match; [|by eexists].
  match goal with |- context [flush_acks ?x] => destruct (flush_acks_ok x) as (s1 & E1 & _) end;
    [simpl; by rewrite alen_aset|simpl; lia|by eexists].
Qed.

(** The ACK work requests in the order they were filled, those already posted
    first. *)
Definition key (w : ack_wr) : Z * Z * Z * Z := (sge_addr w, sge_length w, wr_id w, imm_data w).
Definition staged s : list (Z * Z * Z * Z) :=
  map key (concat (sent_acks s) ++ take (Z.to_nat (nr_tx_ack_wr_ s)) (tx_ack_wr_ s)).

Lemma flush_acks_staged s s' :
  batch_ok s \/ (alen (tx_ack_wr_ s) = kMaxAckWRs /\ nr_tx_ack_wr_ s = kMaxAckWRs) ->
  flush_acks s = Done s' -> staged s' = staged s /\ ctrl_mem s' = ctrl_mem s.
Proof.
  intros Hb. assert (0 <= nr_tx_ack_wr_ s <= alen (tx_ack_wr_ s)) as Hn.
  { unfold batch_ok, kMaxAckWRs in *. lia. }
  unfold flush_acks. destruct (Z.eqb_spec (nr_tx_ack_wr_ s) 0); [by intros [=<-]|].
  destruct (aget _ _) as [w|] eqn:Hw; [|done]. intros [=<-]. split; [|done].
  unfold staged. simpl. rewrite concat_app, take_0, app_nil_r. simpl. rewrite app_nil_r.
  rewrite !map_app. f_equal. unfold aset, aget in *. set (k := Z.to_nat (nr_tx_ack_wr_ s)).
  assert (k <= length (tx_ack_wr_ s))%nat by (unfold alen in *; lia).
  replace (Z.to_nat (nr_tx_ack_wr_ s - 1)) with (k - 1)%nat in * by lia.
  change (map key) with (fmap (M := list) key). rewrite !fmap_take, list_fmap_insert. f_equal. apply list_insert_id.
  by rewrite list_lookup_fmap, Hw.
Qed.

Lemma try_post_acks_staged n a force s s' :
  try_post_acks n a force s = Done s' -> batch_ok s -> n <> 0 ->
  exists d, fst (pl_alloc (cq_desc_pool_ s)) = Some d /\
    staged s' = staged s ++ [(a, wrap 32 (kPktSize * n), d, n)] /\
    ctrl_mem s' = ctrl_mem s.
Proof.
  unfold try_post_acks. intros E [Hl Hn] Hne. rewrite (proj2 (Z.eqb_neq n 0) Hne) in E.
  unfold pop_cqe_desc in E. destruct (pl_alloc _) as [[d|] p]; [|done]. cbn in E.
  exists d. split; [done|].
  destruct (Z.leb_spec (alen (tx_ack_wr_ s)) (nr_tx_ack_wr_ s)); [done|].
  assert (nr_tx_ack_wr_ s +[32] 1 = nr_tx_ack_wr_ s + 1) as Hw.
  { apply wrap_id. unfold in_word, kMaxAckWRs in *. lia. }
  rewrite Hw in E. set (w := MkAckWr _ _ _ _ _ _) in E. set (s1 := set_nr_tx_ack_wr_ _ _) in E.
  assert (staged s1 = staged s ++ [key w]) as Hs1.
  { unfold staged, s1. simpl. rewrite !map_app, <- app_assoc. f_equal. unfold aset.
    replace (Z.to_nat (nr_tx_ack_wr_ s + 1)) with (S (Z.to_nat (nr_tx_ack_wr_ s))) by lia.
    rewrite (take_S_r _ _ w).
    - rewrite take_insert_ge by lia. by rewrite map_app.
    - apply list_lookup_insert_eq. unfold alen in *. lia. }
  change (_, _, _, _) with (key w). rewrite <- Hs1. change (ctrl_mem s) with (ctrl_mem s1).
  case_match; [|by injection E as <-]. eapply flush_acks_staged; [|exact E].
  unfold batch_ok, s1. simpl. rewrite alen_aset. unfold kMaxAckWRs in *.
  destruct (decide (nr_tx_ack_wr_ s = 7)); [right|left]; lia.
Qed.
End io.

End Io.
