(* ===== verification/Eqds.v ===== *)
(** * EQDS, the receiver-driven congestion control

    [include/cc/eqds.h], [collective/rdma/eqds.{h,cc}]: the credits of a sending
    flow, and the receiver's pacer, which grants credits to the flows that ask for
    them.  Credits are 8-bit pull numbers in quanta of 16 KiB.

    The intrusive lists of the pacer are sequences of flows ([IntrusiveList.v]
    shows the pointer operations to be those of sequences); a node is linked when
    it is in the sequence.  Work completions are inputs, the pull packets sent
    are an output. *)

From S2P Require Import Prelude Queues SharedIo.

Module Eqds.

(** ** Pull numbers *)

Definition pullno_lt (a b : Z) : bool := signed 8 (a - b) <? 0.
Definition pullno_le (a b : Z) : bool := signed 8 (a - b) <=? 0.
Definition pullno_eq (a b : Z) : bool := signed 8 (a - b) =? 0.
Definition pullno_ge (a b : Z) : bool := 0 <=? signed 8 (a - b).
Definition pullno_gt (a b : Z) : bool := 0 <? signed 8 (a - b).

Definition PULL_QUANTUM : Z := 16384.
Definition PULL_SHIFT : Z := 14.

Definition unquantize (pull_quanta : Z) : Z := wrap 32 (Z.shiftl pull_quanta PULL_SHIFT).
Definition quantize_floor (bytes : Z) : Z := wrap 8 (Z.shiftr bytes PULL_SHIFT).
Definition quantize_ceil (bytes : Z) : Z :=
  wrap 8 (Z.shiftr (wrap 32 (bytes + PULL_QUANTUM - 1)) PULL_SHIFT).

(** ** A flow's credits *)

Definition INIT_PULL_QUANTA : Z := 50.
Definition kEQDSMaxCwnd : Z := 500000.

Record EQDSCC := MkEqds {
  pull_ : Z;
  last_sent_pull_target_ : Z;
  credit_pull_ : Z;
  credit_spec_ : Z;
  in_speculating_ : bool;
  highest_pull_target_ : Z;
  latest_pull_ : Z;
  fid_ : Z;
  pc_qpw_ : Z;
}.
Definition set_pull_ (v : Z) (r : EQDSCC) : EQDSCC :=
  MkEqds v (last_sent_pull_target_ r) (credit_pull_ r) (credit_spec_ r) (in_speculating_ r) (highest_pull_target_ r) (latest_pull_ r) (fid_ r) (pc_qpw_ r).
Definition set_last_sent_pull_target_ (v : Z) (r : EQDSCC) : EQDSCC :=
  MkEqds (pull_ r) v (credit_pull_ r) (credit_spec_ r) (in_speculating_ r) (highest_pull_target_ r) (latest_pull_ r) (fid_ r) (pc_qpw_ r).
Definition set_credit_pull_ (v : Z) (r : EQDSCC) : EQDSCC :=
  MkEqds (pull_ r) (last_sent_pull_target_ r) v (credit_spec_ r) (in_speculating_ r) (highest_pull_target_ r) (latest_pull_ r) (fid_ r) (pc_qpw_ r).
Definition set_credit_spec_ (v : Z) (r : EQDSCC) : EQDSCC :=
  MkEqds (pull_ r) (last_sent_pull_target_ r) (credit_pull_ r) v (in_speculating_ r) (highest_pull_target_ r) (latest_pull_ r) (fid_ r) (pc_qpw_ r).
Definition set_in_speculating_ (v : bool) (r : EQDSCC) : EQDSCC :=
  MkEqds (pull_ r) (last_sent_pull_target_ r) (credit_pull_ r) (credit_spec_ r) v (highest_pull_target_ r) (latest_pull_ r) (fid_ r) (pc_qpw_ r).
Definition set_highest_pull_target_ (v : Z) (r : EQDSCC) : EQDSCC :=
  MkEqds (pull_ r) (last_sent_pull_target_ r) (credit_pull_ r) (credit_spec_ r) (in_speculating_ r) v (latest_pull_ r) (fid_ r) (pc_qpw_ r).
Definition set_latest_pull_ (v : Z) (r : EQDSCC) : EQDSCC :=
  MkEqds (pull_ r) (last_sent_pull_target_ r) (credit_pull_ r) (credit_spec_ r) (in_speculating_ r) (highest_pull_target_ r) v (fid_ r) (pc_qpw_ r).
Definition set_fid_ (v : Z) (r : EQDSCC) : EQDSCC :=
  MkEqds (pull_ r) (last_sent_pull_target_ r) (credit_pull_ r) (credit_spec_ r) (in_speculating_ r) (highest_pull_target_ r) (latest_pull_ r) v (pc_qpw_ r).
Definition set_pc_qpw_ (v : Z) (r : EQDSCC) : EQDSCC :=
  MkEqds (pull_ r) (last_sent_pull_target_ r) (credit_pull_ r) (credit_spec_ r) (in_speculating_ r) (highest_pull_target_ r) (latest_pull_ r) (fid_ r) v.

(** As set up by [handle_install_flow_on_engine]. *)
Definition EQDSCC_init (fid pc_qpw : Z) : EQDSCC :=
  MkEqds INIT_PULL_QUANTA INIT_PULL_QUANTA 0 kEQDSMaxCwnd true INIT_PULL_QUANTA INIT_PULL_QUANTA
    fid pc_qpw.

Section cc.
Implicit Types e : EQDSCC.

Definition credit e : Z := credit_pull_ e +[32] credit_spec_ e.

Definition spend_credit (chunk_size : Z) e : bool * EQDSCC :=
  if 0 <? credit_pull_ e then
    (true, set_credit_pull_ (if chunk_size <? credit_pull_ e then credit_pull_ e - chunk_size else 0) e)
  else
    let e' := set_credit_spec_ (if chunk_size <? credit_spec_ e then credit_spec_ e - chunk_size else 0) e in
    (in_speculating_ e && (0 <? credit_spec_ e), e').

Definition stop_speculating e : EQDSCC := set_in_speculating_ false e.

(** [backlog] is the flow's [backlog_bytes_], [wnd] the window of Timely. *)
Definition compute_pull_target (backlog wnd chunk_size : Z) e : Z * EQDSCC :=
  let t := if wnd +[32] chunk_size <? backlog then wnd +[32] chunk_size else backlog in
  let t := if kEQDSMaxCwnd <? t then kEQDSMaxCwnd else t in
  let t := if credit e <? t then t - credit e else 0 in
  let t := t +[32] unquantize (pull_ e) in
  let old := unquantize (last_sent_pull_target_ e) in
  let '(t, e) :=
    if negb (in_speculating_ e) && (0 <? credit_spec_ e) && (t -[32] old <? PULL_QUANTUM / 2) then
      (t +[32] PULL_QUANTUM,
       set_credit_spec_ (if PULL_QUANTUM <? credit_spec_ e then credit_spec_ e - PULL_QUANTUM else 0) e)
    else (t, e) in
  (quantize_ceil t, set_last_sent_pull_target_ (quantize_ceil t) e).

Definition handle_pull_target (pull_target : Z) e : bool * EQDSCC :=
  if pullno_gt pull_target (highest_pull_target_ e) then (true, set_highest_pull_target_ pull_target e)
  else (false, e).

Definition handle_pull (pullno : Z) e : bool * EQDSCC :=
  if pullno_gt pullno (pull_ e) then
    let extra := pullno -[8] pull_ e in
    let c := credit_pull_ e +[32] unquantize extra in
    (true, set_pull_ pullno (set_credit_pull_ (if kEQDSMaxCwnd <? c then kEQDSMaxCwnd else c) e))
  else (false, e).

Definition backlog e : Z :=
  if pullno_gt (highest_pull_target_ e) (latest_pull_ e)
  then highest_pull_target_ e -[8] latest_pull_ e else 0.

Definition idle_credit_enough e : bool :=
  let idle := if pullno_ge (highest_pull_target_ e) (latest_pull_ e) then 0
              else latest_pull_ e -[8] highest_pull_target_ e in
  quantize_floor kEQDSMaxCwnd <=? idle.
End cc.

(** ** The pacer *)

Definition kCreditPerPull : Z := 4.
Definition kSendersPerPull : Z := 1.
Definition kMaxBatchCQ : Z := 16.

(** [PacerCreditQPWrapper]: the buffers of its pull packets and the number of
    completions to wait for. *)
Record qpw (P : Type) := MkQpw { poll_cq_cnt_ : Z; pacer_credit_chunk_pool_ : P }.
Arguments MkQpw {P} _ _.
Arguments poll_cq_cnt_ {P} _.
Arguments pacer_credit_chunk_pool_ {P} _.

Record pacer (P : Type) := MkPacer {
  ccs : gmap Z EQDSCC;
  qpws : gmap Z (qpw P);
  active_senders_ : list Z;
  idle_senders_ : list Z;
  poll_cq_list_ : list Z;
  cmdq_ : list Z;
  last_pacing_tsc_ : Z;
  pulls : list (Z * Z * Z);
}.
Arguments MkPacer {P} _ _ _ _ _ _ _ _ .
Arguments ccs {P} _.
Arguments qpws {P} _.
Arguments active_senders_ {P} _.
Arguments idle_senders_ {P} _.
Arguments poll_cq_list_ {P} _.
Arguments cmdq_ {P} _.
Arguments last_pacing_tsc_ {P} _.
Arguments pulls {P} _.
Definition set_ccs {P} (v : gmap Z EQDSCC) (r : pacer P) : pacer P :=
  MkPacer v (qpws r) (active_senders_ r) (idle_senders_ r) (poll_cq_list_ r) (cmdq_ r) (last_pacing_tsc_ r) (pulls r).
Definition set_qpws {P} (v : gmap Z (qpw P)) (r : pacer P) : pacer P :=
  MkPacer (ccs r) v (active_senders_ r) (idle_senders_ r) (poll_cq_list_ r) (cmdq_ r) (last_pacing_tsc_ r) (pulls r).
Definition set_active_senders_ {P} (v : list Z) (r : pacer P) : pacer P :=
  MkPacer (ccs r) (qpws r) v (idle_senders_ r) (poll_cq_list_ r) (cmdq_ r) (last_pacing_tsc_ r) (pulls r).
Definition set_idle_senders_ {P} (v : list Z) (r : pacer P) : pacer P :=
  MkPacer (ccs r) (qpws r) (active_senders_ r) v (poll_cq_list_ r) (cmdq_ r) (last_pacing_tsc_ r) (pulls r).
Definition set_poll_cq_list_ {P} (v : list Z) (r : pacer P) : pacer P :=
  MkPacer (ccs r) (qpws r) (active_senders_ r) (idle_senders_ r) v (cmdq_ r) (last_pacing_tsc_ r) (pulls r).
Definition set_cmdq_ {P} (v : list Z) (r : pacer P) : pacer P :=
  MkPacer (ccs r) (qpws r) (active_senders_ r) (idle_senders_ r) (poll_cq_list_ r) v (last_pacing_tsc_ r) (pulls r).
Definition set_last_pacing_tsc_ {P} (v : Z) (r : pacer P) : pacer P :=
  MkPacer (ccs r) (qpws r) (active_senders_ r) (idle_senders_ r) (poll_cq_list_ r) (cmdq_ r) v (pulls r).
Definition set_pulls {P} (v : list (Z * Z * Z)) (r : pacer P) : pacer P :=
  MkPacer (ccs r) (qpws r) (active_senders_ r) (idle_senders_ r) (poll_cq_list_ r) (cmdq_ r) (last_pacing_tsc_ r) v.

Section pacer.
Context {P : Type} `{PoolOps P}.
Implicit Types s : pacer P.

Definition get_cc (id : Z) s : result EQDSCC :=
  match ccs s !! id with Some e => Done e | None => Fail OutOfBounds end.
Definition put_cc (id : Z) (e : EQDSCC) s : pacer P := set_ccs (<[id := e]> (ccs s)) s.
Definition get_qpw (q : Z) s : result (qpw P) :=
  match qpws s !! q with Some w => Done w | None => Fail OutOfBounds end.
Definition put_qpw (q : Z) (w : qpw P) s : pacer P := set_qpws (<[q := w]> (qpws s)) s.

(** The sequences of the intrusive lists. *)
Definition list_del (x : Z) (l : list Z) : list Z := filter (fun y => y <> x) l.
Definition list_add_tail (x : Z) (l : list Z) : list Z := l ++ [x].
Definition linked (x : Z) (l : list Z) : bool := bool_decide (x ∈ l).

(** [x->next]: [None] is the head of the list. *)
Fixpoint succ (x : Z) (l : list Z) : option Z :=
  match l with
  | [] => None
  | y :: l => if y =? x then head l else succ x l
  end.

Definition send_pull_packet (id : Z) s : result (bool * pacer P) :=
  e ← get_cc id s;
  w ← get_qpw (pc_qpw_ e) s;
  match pl_alloc (pacer_credit_chunk_pool_ w) with
  | (None, _) => Done (false, s)
  | (Some a, p) =>
      let s := set_pulls (pulls s ++ [(wrap 16 (fid_ e), wrap 16 (latest_pull_ e), a)]) s in
      let s := put_qpw (pc_qpw_ e) (MkQpw (poll_cq_cnt_ w +[32] 1) p) s in
      Done (true,
        if linked (pc_qpw_ e) (poll_cq_list_ s) then s
        else set_poll_cq_list_ (list_add_tail (pc_qpw_ e) (poll_cq_list_ s)) s)
  end.

(** Whether the flow's demand is met, and the credits. *)
Definition grant_credit (id : Z) (idle : bool) s : result (bool * Z * pacer P) :=
  e ← get_cc id s;
  let increment := if idle then kCreditPerPull else Z.min kCreditPerPull (backlog e) in
  let e := set_latest_pull_ (latest_pull_ e +[8] increment) e in
  let s := put_cc id e s in
  '(sent, s) ← send_pull_packet id s;
  let e := if sent : bool then e else set_latest_pull_ (latest_pull_ e -[8] increment) e in
  let s := put_cc id e s in
  Done (backlog e =? 0, increment, s).

(** The [list_for_each_safe] over the active senders; it is left when the credits
    or the senders of the interval are used up.  [pos] and [nx] are the cursors
    [pos] and [n]. *)
Fixpoint grant_pass (fuel : nat) (pos nx : option Z) (budget total : Z) s :
    result (Z * Z * pacer P) :=
  match pos, fuel with
  | None, _ => Done (budget, total, s)
  | Some _, O => Fail OutOfBounds
  | Some p, S fuel =>
      let s := set_active_senders_ (list_del p (active_senders_ s)) s in
      '(done, consumed, s) ← grant_credit p false s;
      s ← (if done : bool then
             _ ← check (negb (linked p (idle_senders_ s)));
             Done (set_idle_senders_ (list_add_tail p (idle_senders_ s)) s)
           else Done (set_active_senders_ (list_add_tail p (active_senders_ s)) s));
      let total := total +[16] consumed in
      if kCreditPerPull * kSendersPerPull <=? total then Done (budget, total, s)
      else
        let budget := budget +[32] 1 in
        if kSendersPerPull <=? budget then Done (budget, total, s)
        else grant_pass fuel nx (q ← nx; succ q (active_senders_ s)) budget total s
  end.

(** The [while] loop around it, with the credits consumed. *)
Fixpoint grant_active (fuel : nat) (budget total : Z) s : result (Z * pacer P) :=
  match active_senders_ s with
  | [] => Done (total, s)
  | p :: _ =>
      if (budget <? kSendersPerPull) || (total <? kCreditPerPull * kSendersPerPull) then
        match fuel with
        | O => Fail OutOfBounds
        | S fuel =>
            '(budget, total, s) ← grant_pass (Z.to_nat kSendersPerPull) (Some p)
              (succ p (active_senders_ s)) budget total s;
            grant_active fuel budget total s
        end
      else Done (total, s)
  end.

(** The [list_for_each_safe] over the idle senders.  [None]: still running. *)
Fixpoint idle_pass (fuel : nat) (pos nx : option Z) s : option (result (pacer P)) :=
  match pos with
  | None => Some (Done s)
  | Some p =>
      match fuel with
      | O => None
      | S fuel =>
          let s := set_idle_senders_ (list_del p (idle_senders_ s)) s in
          match grant_credit p true s with
          | Fail e => Some (Fail e)
          | Done (done, _, s) =>
              match ccs s !! p with
              | None => Some (Fail OutOfBounds)
              | Some e =>
                  let s := if done && negb (idle_credit_enough e)
                           then set_idle_senders_ (list_add_tail p (idle_senders_ s)) s else s in
                  idle_pass fuel nx (q ← nx; succ q (idle_senders_ s)) s
              end
          end
      end
  end.

(** Every iteration meets a demand or consumes a credit, and the loop is left once
    the 16-bit count of credits has wrapped around. *)
Definition grant_fuel s : nat :=
  (length (active_senders_ s) + Z.to_nat (2 ^ 16 + kCreditPerPull))%nat.

Definition handle_grant_credit (fuel : nat) s : option (result (pacer P)) :=
  match active_senders_ s with
  | [] =>
      let pos := head (idle_senders_ s) in
      idle_pass fuel pos (q ← pos; succ q (idle_senders_ s)) s
  | _ => Some ('(_, s) ← grant_active (grant_fuel s) 0 0 s; Done s)
  end.

(** [poll_cq] with the completions [cqes] that are there: their buffers, [None]
    where the status is an error. *)
Definition poll_cq (cqes : list (option Z)) (q : Z) s : result (bool * pacer P) :=
  w ← get_qpw q s;
  if poll_cq_cnt_ w =? 0 then Done (true, s)
  else match cqes with
  | [] => Done (false, s)
  | _ =>
      let batch := take (Z.to_nat kMaxBatchCQ) cqes in
      let w := fold_left (fun w c =>
        MkQpw (poll_cq_cnt_ w -[32] 1)
          (match c with Some a => pl_free a (pacer_credit_chunk_pool_ w)
                      | None => pacer_credit_chunk_pool_ w end)) batch w in
      Done (poll_cq_cnt_ w =? 0, put_qpw q w s)
  end.

(** The [list_for_each_safe] of [handle_poll_cq]: no element is added, so it goes
    over the sequence. *)
Fixpoint poll_pass (cqes : Z -> list (option Z)) (l : list Z) s : result (pacer P) :=
  match l with
  | [] => Done s
  | q :: l =>
      '(done, s) ← poll_cq (cqes q) q s;
      poll_pass cqes l (if done : bool then set_poll_cq_list_ (list_del q (poll_cq_list_ s)) s else s)
  end.

Definition handle_poll_cq (cqes : Z -> list (option Z)) s : result (pacer P) :=
  poll_pass cqes (poll_cq_list_ s) s.

(** A request moves the flow to the active senders. *)
Definition activate (id : Z) s : pacer P :=
  if linked id (active_senders_ s) then s
  else
    let s := if linked id (idle_senders_ s)
             then set_idle_senders_ (list_del id (idle_senders_ s)) s else s in
    set_active_senders_ (list_add_tail id (active_senders_ s)) s.

Fixpoint pull_requests (budget : nat) s : pacer P :=
  match budget, cmdq_ s with
  | S budget, id :: l => pull_requests budget (activate id (set_cmdq_ l s))
  | _, _ => s
  end.

Definition handle_pull_request s : pacer P := pull_requests 16 s.

(** [request_pull] of an engine. *)
Definition request_pull (id : Z) s : pacer P := set_cmdq_ (cmdq_ s ++ [id]) s.

Definition run_pacer (pacing_interval_tsc now : Z) (cqes : Z -> list (option Z)) (fuel : nat) s :
    option (result (pacer P)) :=
  let s := handle_pull_request s in
  match handle_poll_cq cqes s with
  | Fail e => Some (Fail e)
  | Done s =>
      if pacing_interval_tsc <=? now -[64] last_pacing_tsc_ s then
        match handle_grant_credit fuel s with
        | Some (Done s) => Some (Done (set_last_pacing_tsc_ now s))
        | r => r
        end
      else Some (Done s)
  end.

(** ** The pacer's invariant *)

Section inv.
Context `{!PoolLaws P}.

(** A queue pair's pull packets in flight and its free buffers. *)
Definition qpw_ok (N : Z) (w : qpw P) : Prop :=
  0 <= poll_cq_cnt_ w /\ N < 2 ^ 32 /\ exists cap free,
    pl_repr (pacer_credit_chunk_pool_ w) cap free /\ poll_cq_cnt_ w + alen free <= N <= cap.

Definition cc_ok s (e : EQDSCC) : Prop :=
  in_word 8 (latest_pull_ e) /\ in_word 8 (highest_pull_target_ e) /\ is_Some (qpws s !! pc_qpw_ e).

(** A flow is in at most one of the two lists, once; a queue pair with packets in
    flight is in the poll list. *)
Record pinv (N : Z) s : Prop := {
  i_lists : NoDup (active_senders_ s ++ idle_senders_ s);
  i_known : forall id, id ∈ active_senders_ s ++ idle_senders_ s ++ cmdq_ s -> is_Some (ccs s !! id);
  i_ccs : forall id e, ccs s !! id = Some e -> cc_ok s e;
  i_qpws : forall q w, qpws s !! q = Some w -> qpw_ok N w;
  i_poll : NoDup (poll_cq_list_ s) /\ (forall q, q ∈ poll_cq_list_ s -> is_Some (qpws s !! q)) /\
    forall q w, qpws s !! q = Some w -> poll_cq_cnt_ w <> 0 -> q ∈ poll_cq_list_ s;
}.

(** What granting does not touch. *)
Definition same_lists s s' : Prop :=
  active_senders_ s' = active_senders_ s /\ idle_senders_ s' = idle_senders_ s /\ cmdq_ s' = cmdq_ s.

Lemma send_pull_packet_ok N id s e :
  pinv N s -> ccs s !! id = Some e ->
  exists b s', send_pull_packet id s = Done (b, s') /\ pinv N s' /\ same_lists s s' /\
    ccs s' = ccs s.
Proof.
  intros [L1 L2 L3 L4 (L5 & L6 & L7)] He. unfold send_pull_packet, get_cc, get_qpw. rewrite He.
  cbn [mbind result_bind]. destruct (L3 _ _ He) as (_ & _ & [w Hw]). rewrite Hw. cbn [mbind result_bind].
  destruct (L4 _ _ Hw) as (Hc & HN & cap & free & Hp & Hsum & Hcap).
  destruct free as [|a free].
  { rewrite (pl_alloc_nil _ _ Hp). exists false, s. by split_and!. }
  destruct (pl_alloc_cons _ _ _ _ Hp) as (p & -> & Hp'). rewrite alen_cons in Hsum.
  pose proof (alen_nonneg free). simpl.
  assert (poll_cq_cnt_ w +[32] 1 = poll_cq_cnt_ w + 1) as Ec by (apply wrap_id; word_lia). rewrite Ec.
  set (w' := MkQpw (poll_cq_cnt_ w + 1) p).
  assert (forall q, is_Some (qpws s !! q) -> is_Some (<[pc_qpw_ e := w']> (qpws s) !! q)) as Hdom.
  { intros q [x Hx]. destruct (decide (pc_qpw_ e = q)) as [->|];
      [rewrite lookup_insert_eq|rewrite lookup_insert_ne by done]; eauto. }
  assert (qpw_ok N w') as Hw'.
  { split; [simpl; lia|]. split; [done|]. exists cap, free. simpl. split; [done|lia]. }
  eexists true, _. split; [done|]. unfold linked. split; [|by case_bool_decide].
  case_bool_decide as Hin; split; simpl; try done.
  - intros id' e' He'. destruct (L3 _ _ He') as (? & ? & ?). split_and!; auto.
  - intros q x. destruct (decide (pc_qpw_ e = q)) as [<-|]; [rewrite lookup_insert_eq; by intros [= <-]|].
    rewrite lookup_insert_ne by done. eauto.
  - split; [done|]. split; [auto|]. intros q x.
    destruct (decide (pc_qpw_ e = q)) as [<-|]; [done|]. rewrite lookup_insert_ne by done. eauto.
  - intros id' e' He'. destruct (L3 _ _ He') as (? & ? & ?). split_and!; auto.
  - intros q x. destruct (decide (pc_qpw_ e = q)) as [<-|]; [rewrite lookup_insert_eq; by intros [= <-]|].
    rewrite lookup_insert_ne by done. eauto.
  - unfold list_add_tail. split; [apply NoDup_app; split_and!; [done| |apply NoDup_singleton]|].
    { intros x Hx ->%list_elem_of_singleton. done. }
    split; [intros q [Hq| ->%list_elem_of_singleton]%elem_of_app; auto|].
    intros q x. rewrite elem_of_app. destruct (decide (pc_qpw_ e = q)) as [<-|]; [right; left|].
    rewrite lookup_insert_ne by done. eauto.
Qed.

Lemma put_cc_inv N id e e' s :
  pinv N s -> ccs s !! id = Some e -> in_word 8 (latest_pull_ e') ->
  highest_pull_target_ e' = highest_pull_target_ e -> pc_qpw_ e' = pc_qpw_ e ->
  pinv N (put_cc id e' s).
Proof.
  intros [L1 L2 L3 L4 L5] He Hl Hh Hq. split; simpl; try done.
  - intros x Hx. destruct (decide (id = x)) as [->|]; [rewrite lookup_insert_eq; eauto|].
    rewrite lookup_insert_ne by done. auto.
  - intros x y. destruct (decide (id = x)) as [<-|].
    + rewrite lookup_insert_eq. intros [= <-]. destruct (L3 _ _ He) as (_ & ? & ?).
      unfold cc_ok. rewrite Hh, Hq. by split_and!.
    + rewrite lookup_insert_ne by done. intros Hy. apply (L3 _ _ Hy).
Qed.

Lemma backlog_range e : 0 <= backlog e < 256.
Proof. unfold backlog. destruct (pullno_gt _ _); [apply (wrap_range 8)|]; lia. Qed.

(** A grant: an unmet demand costs at least one quantum. *)
Lemma grant_credit_ok N id idle s :
  pinv N s -> is_Some (ccs s !! id) ->
  exists done consumed s', grant_credit id idle s = Done (done, consumed, s') /\ pinv N s' /\
    same_lists s s' /\ (forall x, is_Some (ccs s !! x) -> is_Some (ccs s' !! x)) /\ 0 <= consumed <= kCreditPerPull /\
    (idle = false -> done = false -> 1 <= consumed).
Proof.
  intros Hi [e He]. unfold grant_credit, get_cc. rewrite He. cbn [mbind result_bind].
  set (inc := if idle then kCreditPerPull else Z.min kCreditPerPull (backlog e)).
  pose proof (backlog_range e) as Hb.
  assert (0 <= inc <= kCreditPerPull) as Hinc by (unfold inc, kCreditPerPull; destruct idle; lia).
  set (e1 := set_latest_pull_ _ e).
  assert (pinv N (put_cc id e1 s)) as Hi1.
  { eapply put_cc_inv; [done|done|apply wrap_range; lia|done|done]. }
  assert (ccs (put_cc id e1 s) !! id = Some e1) as He1 by (simpl; apply lookup_insert_eq).
  destruct (send_pull_packet_ok N id _ e1 Hi1 He1) as (sent & s2 & -> & Hi2 & Hs2 & Hc2).
  cbn [mbind result_bind]. set (e2 := if sent then e1 else _).
  assert (in_word 8 (latest_pull_ e2) /\ highest_pull_target_ e2 = highest_pull_target_ e /\
    pc_qpw_ e2 = pc_qpw_ e) as (F1 & F2 & F3).
  { unfold e2. destruct sent; split_and!; try done; apply wrap_range; lia. }
  assert (ccs s2 !! id = Some e1) as He2 by (by rewrite Hc2).
  eexists _, _, _. split; [done|]. split; [by eapply put_cc_inv|].
  split; [destruct Hs2 as (? & ? & ?); by split_and!|].
  split; [|split; [done|]].
  { intros x Hx. simpl. rewrite Hc2. simpl. destruct (decide (x = id)) as [->|].
    - rewrite lookup_insert_eq. eauto.
    - by rewrite !lookup_insert_ne. }
  intros -> Hd. destruct (decide (inc = 0)) as [E0|]; [|lia]. exfalso.
  assert (latest_pull_ e2 = latest_pull_ e) as El.
  { destruct (i_ccs _ _ Hi _ _ He) as (Hw & _ & _).
    unfold e2, e1. rewrite E0. destruct sent; simpl; word_lia. }
  assert (backlog e2 = backlog e) as Eb by (unfold backlog; by rewrite El, F2).
  rewrite Eb in Hd. unfold inc, kCreditPerPull in E0. lia.
Qed.

Lemma list_del_notin x l : x ∉ l -> list_del x l = l.
Proof.
  unfold list_del. induction l as [|y l IH]; intros Hx; [done|]. rewrite filter_cons.
  rewrite decide_True by (intros ->; apply Hx; left). f_equal. apply IH. intros ?. apply Hx. by right.
Qed.

Lemma list_del_head x l : x ∉ l -> list_del x (x :: l) = l.
Proof.
  intros Hx. unfold list_del. rewrite filter_cons, decide_False by tauto. by apply list_del_notin.
Qed.

Lemma elem_of_list_del x y l : y ∈ list_del x l <-> y <> x /\ y ∈ l.
Proof. unfold list_del. by rewrite list_elem_of_filter. Qed.

Lemma NoDup_list_del x l : NoDup l -> NoDup (list_del x l).
Proof. apply NoDup_filter. Qed.

(** The invariant depends on the lists through their members. *)
Lemma lists_inv N s a i :
  pinv N s -> NoDup (a ++ i) -> (forall x, x ∈ a ++ i -> is_Some (ccs s !! x)) ->
  pinv N (set_active_senders_ a (set_idle_senders_ i s)).
Proof.
  intros [L1 L2 L3 L4 L5] Hnd Hk. split; simpl; try done. intros x. rewrite app_assoc, elem_of_app.
  intros [Hx|Hx]; [auto|]. apply L2. rewrite !elem_of_app. auto.
Qed.

(** A granted sender goes to the end of one of the lists. *)
Lemma relink_ok N p l (done : bool) s :
  pinv N s -> active_senders_ s = l -> p ∉ l -> p ∉ idle_senders_ s -> is_Some (ccs s !! p) ->
  exists s2, (if done then _ ← check (negb (linked p (idle_senders_ s)));
        Done (set_idle_senders_ (list_add_tail p (idle_senders_ s)) s)
      else Done (set_active_senders_ (list_add_tail p (active_senders_ s)) s)) = Done s2 /\
    pinv N s2 /\ (active_senders_ s2 = l \/ active_senders_ s2 = l ++ [p] /\ done = false).
Proof.
  intros Hi <- Hpl Hpi Hs. pose proof Hi as [M1 M2 _ _ _]. unfold linked, list_add_tail.
  rewrite (bool_decide_false (p ∈ idle_senders_ s)) by done.
  destruct done; cbn [check negb mbind result_bind]; (eexists; split; [done|]).
  - split; [|left; done].
    apply (lists_inv N s (active_senders_ s) (idle_senders_ s ++ [p])) in Hi; [by destruct s| |].
    + rewrite app_assoc. apply NoDup_app. split_and!; [done| |apply NoDup_singleton].
      intros x Hx ->%list_elem_of_singleton. apply elem_of_app in Hx. tauto.
    + intros x. rewrite app_assoc, elem_of_app. intros [Hx| ->%list_elem_of_singleton]; [|done].
      apply M2. rewrite app_assoc, elem_of_app. by left.
  - split; [|right; done].
    apply (lists_inv N s (active_senders_ s ++ [p]) (idle_senders_ s)) in Hi; [by destruct s| |].
    + rewrite <- app_assoc. apply NoDup_app in M1 as (M1 & M3 & M4). apply NoDup_app.
      split_and!; [done| |constructor; done]. intros x Hx [->|?]%elem_of_cons; [done|by apply (M3 x)].
    + intros x. rewrite <- app_assoc, elem_of_app. intros [Hx|[->|Hx]%elem_of_cons]; [|done|];
        apply M2; rewrite !elem_of_app; auto.
Qed.

(** One sender of the interval. *)
Lemma grant_pass_one N p l nx budget total s :
  pinv N s -> active_senders_ s = p :: l -> 0 <= budget < 2 ^ 32 - 1 -> in_word 16 total ->
  exists c s', 0 <= c <= kCreditPerPull /\ pinv N s' /\
    (active_senders_ s' = l \/ active_senders_ s' = l ++ [p] /\ 1 <= c) /\
    grant_pass 1 (Some p) nx budget total s =
      Done (if kCreditPerPull <=? total +[16] c then budget else budget + 1, total +[16] c, s').
Proof.
  intros Hi Ha Hb Ht. pose proof Hi as [L1 L2 _ _ _]. rewrite Ha in L1, L2.
  assert (p ∉ l /\ p ∉ idle_senders_ s) as [Hpl Hpi].
  { simpl in L1. apply NoDup_cons in L1 as [L1 _]. rewrite elem_of_app in L1. tauto. }
  assert (pinv N (set_active_senders_ l s)) as Hi0.
  { apply (lists_inv N s l (idle_senders_ s)) in Hi; [by destruct s|by apply NoDup_cons in L1 as [_ ?]|].
    intros x Hx. apply L2. simpl. right. rewrite app_assoc, elem_of_app. by left. }
  cbn [grant_pass]. rewrite Ha, (list_del_head p l Hpl).
  destruct (grant_credit_ok N p false _ Hi0) as
    (done & consumed & s1 & -> & Hi1 & (E1 & E2 & E3) & Hs1 & Hc & Hd).
  { simpl. apply L2. left. }
  simpl in E1, E2. cbn [mbind result_bind].
  destruct (relink_ok N p l done s1) as (s2 & -> & Hi2 & Hact);
    [done|done|done|by rewrite E2|apply Hs1; simpl; apply L2; left|].
  cbn [mbind result_bind]. unfold kCreditPerPull, kSendersPerPull in *.
  assert (budget +[32] 1 = budget + 1) as -> by (apply wrap_id; word_lia).
  exists consumed, s2. split; [done|]. split; [done|]. split.
  - destruct Hact as [?|[? ?]]; [by left|right]. auto.
  - change (4 * 1) with 4. destruct (4 <=? _); [done|].
    rewrite (proj2 (Z.leb_le 1 (budget + 1))) by lia. done.
Qed.

(** What is left of the loop. *)
Definition grant_left (budget total len : Z) : Z :=
  len + (if budget =? 0 then 2 ^ 16 + kCreditPerPull - total else Z.max 0 (kCreditPerPull - total)).

Lemma grant_active_ok N fuel : forall budget total s,
  pinv N s -> 0 <= budget -> budget + Z.of_nat fuel < 2 ^ 32 - 1 -> in_word 16 total ->
  grant_left budget total (alen (active_senders_ s)) <= Z.of_nat fuel ->
  exists t' s', grant_active fuel budget total s = Done (t', s') /\ pinv N s'.
Proof.
  induction fuel as [|fuel IH]; intros budget total s Hi Hb Hbf Ht Hm; cbn [grant_active];
    (destruct (active_senders_ s) as [|p l] eqn:Ha; [by exists total, s|]);
    unfold grant_left, kCreditPerPull, kSendersPerPull in *;
    rewrite alen_cons in Hm; pose proof (alen_nonneg l).
  - destruct (Z.eqb_spec budget 0); word_lia.
  - destruct (_ || _) eqn:Eg; [|by exists total, s].
    assert (budget = 0 \/ total < 4) as Hg by lia. clear Eg.
    change (Z.to_nat 1) with 1%nat.
    destruct (grant_pass_one N p l (succ p (p :: l)) budget total s) as (c & s' & Hc & Hi' & Hl & ->);
      [done|done|lia|done|]. unfold kCreditPerPull in *.
    cbn [mbind result_bind]. apply IH;
      [done|destruct (4 <=? _); lia|destruct (4 <=? _); lia|apply wrap_range; lia|].
    assert (alen (active_senders_ s') = alen l \/ alen (active_senders_ s') = alen l + 1 /\ 1 <= c) as Hl'.
    { destruct Hl as [->|[-> ?]]; [by left|right]. by rewrite alen_app. }
    clear IH Hi Hi' Ha Hl. destruct (Z.leb_spec 4 (total +[16] c)); z_cases; word_lia.
Qed.

(** *** A single demand *)

(** The flow [p] is the only active one, with [b] quanta to be granted and [k]
    buffers for its pull packets. *)
Definition lone (p b k : Z) s : Prop :=
  active_senders_ s = [p] /\ p ∉ idle_senders_ s /\
  exists e w cap free, ccs s !! p = Some e /\ qpws s !! pc_qpw_ e = Some w /\
    in_word 8 (latest_pull_ e) /\ in_word 8 (highest_pull_target_ e) /\ backlog e = b /\
    pl_repr (pacer_credit_chunk_pool_ w) cap free /\ k <= alen free.

Lemma backlog_granted e inc :
  in_word 8 (latest_pull_ e) -> in_word 8 (highest_pull_target_ e) -> 0 <= inc <= backlog e ->
  backlog (set_latest_pull_ (latest_pull_ e +[8] inc) e) = backlog e - inc.
Proof.
  unfold backlog, pullno_gt. simpl. intros Hl Hh. 
  destruct (Z.ltb_spec 0 (signed 8 (highest_pull_target_ e - latest_pull_ e)));
  destruct (Z.ltb_spec 0 (signed 8 (highest_pull_target_ e - (latest_pull_ e +[8] inc)))); word_lia.
Qed.

Lemma grant_credit_sent p b k s :
  lone p b k (set_active_senders_ [p] s) -> 1 <= k ->
  exists s', grant_credit p false s = Done (b <=? kCreditPerPull, Z.min kCreditPerPull b, s') /\
    idle_senders_ s' = idle_senders_ s /\ active_senders_ s' = active_senders_ s /\
    lone p (b - Z.min kCreditPerPull b) (k - 1) (set_active_senders_ [p] s').
Proof.
  intros (_ & Hidle & e & w & cap & free & He & Hw & H1 & H2 & <- & Hp & Hk) Hk1. simpl in *.
  destruct free as [|a free]; [rewrite alen_nil in Hk; lia|]. rewrite alen_cons in Hk.
  destruct (pl_alloc_cons _ _ _ _ Hp) as (p' & Ea & Hp').
  unfold grant_credit, get_cc. rewrite He. cbn [mbind result_bind].
  set (inc := Z.min kCreditPerPull (backlog e)). set (e1 := set_latest_pull_ _ e).
  pose proof (backlog_range e) as Hb. assert (0 <= inc <= backlog e) as Hinc by (unfold inc, kCreditPerPull; lia).
  unfold send_pull_packet, get_cc, get_qpw. simpl. rewrite lookup_insert_eq. cbn [mbind result_bind].
  change (pc_qpw_ e1) with (pc_qpw_ e). rewrite Hw. cbn [mbind result_bind]. rewrite Ea.
  assert (backlog e1 = backlog e - inc) as Eb by (by apply backlog_granted).
  set (s2 := if linked _ _ then _ else _).
  assert (active_senders_ s2 = active_senders_ s /\ idle_senders_ s2 = idle_senders_ s /\ ccs s2 = <[p := e1]> (ccs s) /\
    qpws s2 !! pc_qpw_ e = Some (MkQpw (poll_cq_cnt_ w +[32] 1) p')) as (E0 & E1 & E2 & E3).
  { unfold s2. destruct (linked _ _); simpl; by rewrite lookup_insert_eq. }
  eexists. cbn [mbind result_bind]. split; [do 3 f_equal|].
  - rewrite Eb. unfold inc, kCreditPerPull. z_cases; lia.
  - split; [done|]. split; [done|]. split; [done|]. split; [simpl; by rewrite E1|].
    exists e1, (MkQpw (poll_cq_cnt_ w +[32] 1) p'), cap, free. simpl. rewrite lookup_insert_eq.
    split_and!; [done|done|apply wrap_range; lia|done|done|done|lia].
Qed.

Lemma grant_active_all p fuel : forall b total s,
  lone p b b s -> 0 < b <= Z.of_nat fuel -> total = 0 \/ kCreditPerPull <= total ->
  0 <= total -> total + b < 2 ^ 16 ->
  exists s', grant_active fuel 0 total s = Done (total + b, s') /\ active_senders_ s' = [] /\
    idle_senders_ s' = idle_senders_ s ++ [p] /\ exists e, ccs s' !! p = Some e /\ backlog e = 0.
Proof.
  unfold kCreditPerPull. induction fuel as [|fuel IH]; intros b total s Hs Hb Ht Ht0 Hsum; [lia|].
  pose proof Hs as (Ha & Hidle & _). cbn [grant_active]. rewrite Ha. cbn [orb Z.ltb Z.compare].
  change (Z.to_nat kSendersPerPull) with 1%nat. cbn [grant_pass]. rewrite Ha.
  rewrite (list_del_head p []) by apply not_elem_of_nil.
  destruct (grant_credit_sent p b b (set_active_senders_ [] s)) as (s1 & -> & Ei & Ea & Hs1); [|lia|].
  { destruct Hs as (_ & ? & ?). split; [done|]. done. }
  unfold kCreditPerPull in *. cbn [mbind result_bind]. simpl in Ei, Ea.
  assert (total +[16] Z.min 4 b = total + Z.min 4 b) as -> by (apply wrap_id; word_lia).
  change (0 +[32] 1) with 1. change (kSendersPerPull <=? 1) with true. cbn iota.
  destruct (Z.leb_spec b 4) as [Hle|Hgt].
  - unfold linked. rewrite Ei, bool_decide_false by done. cbn [check negb mbind result_bind].
    assert (exists e, ccs s1 !! p = Some e /\ backlog e = 0) as He.
    { destruct Hs1 as (_ & _ & e & ? & ? & ? & ? & _ & _ & _ & ? & _). exists e. split; [done|lia]. }
    exists (set_idle_senders_ (list_add_tail p (idle_senders_ s)) s1).
    split; [|by split_and!]. replace (Z.min 4 b) with b by lia.
    destruct (_ <=? total + b); cbn [mbind result_bind]; by destruct fuel; cbn [grant_active]; simpl; rewrite Ea.
  - cbn [mbind result_bind]. replace (Z.min 4 b) with 4 in * by lia.
    unfold kSendersPerPull. rewrite (proj2 (Z.leb_le (4 * 1) (total + 4))) by lia. cbn [mbind result_bind].
    destruct (IH (b - 4) (total + 4) (set_active_senders_ (list_add_tail p (active_senders_ s1)) s1))
      as (s' & -> & G1 & G2 & G3); [|lia|lia|lia|lia|].
    + rewrite Ea. destruct Hs1 as (K1 & K2 & e & w & cap & free & K). split; [done|]. split; [done|].
      exists e, w, cap, free. destruct K as (? & ? & ? & ? & ? & ? & ?). split_and!; try done. lia.
    + exists s'. split; [do 2 f_equal; lia|]. rewrite G2. simpl. by rewrite Ei.
Qed.

(** One call of the pacer grants the whole backlog of a sender, up to 127 quanta:
    the [while] condition admits a further sender while fewer than
    [kSendersPerPull] were counted, and a grant that reaches the credits of the
    interval leaves the inner loop before it counts the sender.  The interval is
    computed for [kCreditPerPull * kSendersPerPull] = 4 quanta. *)
Theorem pacer_grants_whole_backlog p b fuel s :
  lone p b b s -> 0 < b ->
  exists s', handle_grant_credit fuel s = Some (Done s') /\ active_senders_ s' = [] /\
    idle_senders_ s' = idle_senders_ s ++ [p] /\ exists e, ccs s' !! p = Some e /\ backlog e = 0.
Proof.
  intros Hs Hb. unfold handle_grant_credit, grant_fuel. destruct Hs as (Ha & Hr) eqn:Es. clear Es.
  assert (b < 256) by (destruct Hr as (_ & e & ? & ? & ? & _ & _ & _ & _ & <- & _); apply backlog_range).
  rewrite Ha. destruct (grant_active_all p (length [p] + Z.to_nat (2 ^ 16 + kCreditPerPull))%nat b 0 s)
    as (s' & -> & E1 & E2 & E3); [done|unfold kCreditPerPull; simpl length; lia|by left|lia|lia|].
  exists s'. by split_and!.
Qed.

(** *** Idle senders without buffers *)

(** The flow has no demand and less than the idle credit, and no buffer is left
    for its pull packet. *)
Definition starved s (p : Z) : Prop := exists e w cap,
  ccs s !! p = Some e /\ qpws s !! pc_qpw_ e = Some w /\ in_word 8 (latest_pull_ e) /\
  backlog e = 0 /\ idle_credit_enough e = false /\ pl_repr (pacer_credit_chunk_pool_ w) cap [].

Lemma grant_credit_starved p s :
  starved s p -> grant_credit p true s = Done (true, kCreditPerPull, s).
Proof.
  intros (e & w & cap & He & Hw & Hl & Hb & _ & Hp).
  unfold grant_credit, get_cc. rewrite He. cbn [mbind result_bind].
  set (e1 := set_latest_pull_ _ e). unfold send_pull_packet, get_cc, get_qpw. simpl.
  rewrite lookup_insert_eq. cbn [mbind result_bind]. change (pc_qpw_ e1) with (pc_qpw_ e).
  rewrite Hw. cbn [mbind result_bind]. rewrite (pl_alloc_nil _ _ Hp). cbn [mbind result_bind].
  assert (set_latest_pull_ (latest_pull_ e +[8] kCreditPerPull -[8] kCreditPerPull) e1 = e) as ->.
  { unfold e1. destruct e; simpl in *. unfold set_latest_pull_. simpl. f_equal.
    unfold kCreditPerPull. word_lia. }
  rewrite Hb. unfold put_cc. simpl. rewrite insert_insert_eq, insert_id by done. by destruct s.
Qed.

(** The cursor is followed by a re-linked sender. *)
Lemma idle_pass_spins fuel : forall x y l s,
  idle_senders_ s = x :: y :: l -> NoDup (x :: y :: l) -> Forall (starved s) (x :: y :: l) ->
  idle_pass fuel (Some x) (Some y) s = None.
Proof.
  induction fuel as [|fuel IH]; intros x y l s Hs Hnd Hst; [done|]. cbn [idle_pass]. rewrite Hs.
  pose proof Hnd as [Hx Hnd']%NoDup_cons. rewrite list_del_head by done.
  set (s1 := set_idle_senders_ (y :: l) s).
  assert (Forall (starved s1) (x :: y :: l)) as Hst1 by done.
  apply Forall_cons in Hst1 as [Hx1 Hst1]. rewrite (grant_credit_starved x s1 Hx1).
  destruct Hx1 as (e & w & cap & He & _ & _ & _ & Hen & _). rewrite He, Hen. cbn [negb andb].
  set (s2 := set_idle_senders_ _ s1).
  assert (idle_senders_ s2 = y :: l ++ [x]) as E2 by done.
  cbn [mbind option_bind]. rewrite E2. cbn [succ]. rewrite Z.eqb_refl.
  assert (exists z l', l ++ [x] = z :: l') as (z & l' & El) by (destruct l; simpl; eauto).
  rewrite El in *. cbn [head]. apply (IH y z l' s2); [done| |].
  - rewrite <- El. apply NoDup_cons in Hnd' as [Hy Hl]. apply NoDup_cons. split.
    + rewrite elem_of_app, list_elem_of_singleton. intros [?| ->]; [done|]. apply Hx. left.
    + apply NoDup_app. split_and!; [done| |apply NoDup_singleton].
      intros a Ha ->%list_elem_of_singleton. apply Hx. by right.
  - rewrite <- El. apply Forall_cons in Hst1 as [? ?]. constructor; [done|].
    apply Forall_app. split; [done|]. constructor; [|done]. by apply Forall_cons in Hst as [? _].
Qed.

(** With two or more idle senders and no buffer left for their pull packets the
    pacer never comes back from [handle_grant_credit]: [list_for_each_safe] meets
    the senders that are re-linked at the tail again, and only
    [handle_poll_cq], which is not reached, could free buffers. *)
Theorem idle_senders_spin fuel s :
  active_senders_ s = [] -> (2 <= length (idle_senders_ s))%nat -> NoDup (idle_senders_ s) ->
  Forall (starved s) (idle_senders_ s) -> handle_grant_credit fuel s = None.
Proof.
  intros Ha Hlen Hnd Hst. unfold handle_grant_credit. rewrite Ha.
  destruct (idle_senders_ s) as [|x [|y l]] eqn:Ei; [simpl in Hlen; lia..|].
  cbn [head mbind option_bind succ]. rewrite Z.eqb_refl. cbn [head].
  by apply (idle_pass_spins fuel x y l).
Qed.

(** *** Every operation keeps the invariant *)

Lemma succ_elem x y l : succ x l = Some y -> y ∈ l.
Proof.
  induction l as [|z l IH]; [done|]. cbn [succ]. destruct (z =? x).
  - destruct l; [done|]. intros [= ->]. right. left.
  - intros Hy. right. auto.
Qed.

Lemma idle_pass_ok N fuel : forall pos nx s r,
  pinv N s -> active_senders_ s = [] ->
  (forall p, pos = Some p \/ nx = Some p -> is_Some (ccs s !! p)) ->
  idle_pass fuel pos nx s = Some r -> exists s', r = Done s' /\ pinv N s'.
Proof.
  induction fuel as [|fuel IH]; intros [p|] nx s r Hi Ha Hk; cbn [idle_pass];
    try (intros [= <-]; eauto).
  pose proof Hi as [L1 L2 _ _ _]. rewrite Ha in L1, L2. simpl in L1, L2.
  set (s0 := set_idle_senders_ (list_del p (idle_senders_ s)) s).
  assert (pinv N s0) as Hi0.
  { apply (lists_inv N s [] (list_del p (idle_senders_ s))) in Hi;
      [unfold s0; by destruct s; simpl in *; subst|by apply NoDup_list_del|].
    simpl. intros x [_ Hx]%elem_of_list_del. apply L2, elem_of_app. by left. }
  destruct (grant_credit_ok N p true s0 Hi0) as
    (done & c & s1 & -> & Hi1 & (E1 & E2 & E3) & Hdom & _); [apply Hk; by left|].
  destruct (Hdom p) as [e He]; [apply Hk; by left|]. rewrite He. set (s2 := if done && _ then _ else s1). simpl in E1, E2.
  assert (pinv N s2 /\ active_senders_ s2 = [] /\ forall x, x ∈ idle_senders_ s2 -> is_Some (ccs s2 !! x))
    as (Hi2 & Ha2 & Hk2).
  { pose proof Hi1 as [M1 M2 _ _ _]. rewrite E1, E2, Ha in M1, M2. simpl in M1, M2.
    unfold s2. destruct (done && _).
    - assert (forall x, x ∈ list_del p (idle_senders_ s) ++ [p] -> is_Some (ccs s1 !! x)) as Hin.
      { intros x [Hx| ->%list_elem_of_singleton]%elem_of_app; [|eauto]. apply M2, elem_of_app. by left. }
      split; [|simpl; rewrite E1, E2; by split].
      apply (lists_inv N s1 [] (list_del p (idle_senders_ s) ++ [p])) in Hi1.
      + rewrite E2. unfold list_add_tail. destruct s1; simpl in *; subst; by rewrite Ha in Hi1 |- *.
      + simpl. apply NoDup_app. split_and!; [done| |apply NoDup_singleton].
        intros x [Hne _]%elem_of_list_del ->%list_elem_of_singleton. done.
      + exact Hin.
    - split; [done|]. split; [congruence|]. intros x. rewrite E2. intros Hx. apply M2, elem_of_app. by left. }
  intros E. eapply IH; [exact Hi2|exact Ha2| |exact E].
  intros q [->|Hq].
  - replace (ccs s2) with (ccs s1) by (unfold s2; by destruct (done && _)). apply Hdom, Hk. by right.
  - destruct nx as [n|]; [|done]. apply Hk2. by eapply succ_elem.
Qed.

Lemma activate_ok N id s : pinv N s -> is_Some (ccs s !! id) -> pinv N (activate id s).
Proof.
  intros Hi Hid. pose proof Hi as [L1 L2 _ _ _]. unfold activate, linked, list_add_tail.
  case_bool_decide as Ha; [done|].
  assert (NoDup (active_senders_ s ++ [id] ++ list_del id (idle_senders_ s))) as Hnd.
  { apply NoDup_app in L1 as (L1 & L3 & L4). apply NoDup_app. split_and!; [done| |].
    - intros x Hx [->|[_ Hy]%elem_of_list_del]%elem_of_cons; [done|by apply (L3 x)].
    - constructor; [rewrite elem_of_list_del; tauto|by apply NoDup_list_del]. }
  assert (forall x, x ∈ (active_senders_ s ++ [id]) ++ list_del id (idle_senders_ s) -> is_Some (ccs s !! x)) as Hk.
  { intros x. rewrite <- app_assoc, elem_of_app. intros [Hx|[->|[_ Hx]%elem_of_list_del]%elem_of_cons]; [|done|];
      apply L2; rewrite !elem_of_app; auto. }
  rewrite app_assoc in Hnd.
  pose proof (lists_inv N s _ _ Hi Hnd Hk) as Hr.
  case_bool_decide as Hidle; [destruct s; exact Hr|].
  rewrite list_del_notin in Hr by done. destruct s; exact Hr.
Qed.

Lemma pull_requests_ok N n : forall s, pinv N s -> pinv N (pull_requests n s).
Proof.
  induction n as [|n IH]; intros s Hi; [done|]. cbn [pull_requests].
  destruct (cmdq_ s) as [|id l] eqn:E; [done|]. apply IH. pose proof Hi as [L1 L2 L3 L4 L5].
  apply activate_ok; [|simpl; apply L2; rewrite E, !elem_of_app; right; right; left].
  split; simpl; try done. intros x Hx. apply L2. rewrite E. rewrite !elem_of_app in *.
  destruct Hx as [?|[?|?]]; auto. right. right. by right.
Qed.

(** The completions there can be: at most one per packet in flight. *)
Definition legal_cqes (cqes : Z -> list (option Z)) s (q : Z) : Prop := forall w,
  qpws s !! q = Some w -> alen (cqes q) <= poll_cq_cnt_ w /\
    Forall (fun c => match c with Some a => in_word 64 a | None => True end) (cqes q).

Definition complete (w : qpw P) (c : option Z) : qpw P :=
  MkQpw (poll_cq_cnt_ w -[32] 1)
    (match c with Some a => pl_free a (pacer_credit_chunk_pool_ w) | None => pacer_credit_chunk_pool_ w end).

Lemma complete_ok N l : forall w,
  qpw_ok N w -> alen l <= poll_cq_cnt_ w ->
  Forall (fun c => match c with Some a => in_word 64 a | None => True end) l ->
  qpw_ok N (fold_left complete l w).
Proof.
  induction l as [|c l IH]; intros w Hw Hl Hc; [done|]. cbn [fold_left]. rewrite alen_cons in Hl.
  apply Forall_cons in Hc as [Ha Hc]. pose proof (alen_nonneg l).
  destruct Hw as (H1 & H2 & cap & free & H3 & H4 & H5). pose proof (alen_nonneg free).
  assert (poll_cq_cnt_ w -[32] 1 = poll_cq_cnt_ w - 1) as E by (apply wrap_id; word_lia).
  apply IH; [|simpl; lia|done]. unfold complete. rewrite E. split; [simpl; lia|]. split; [done|].
  exists cap. destruct c as [a|]; [exists (free ++ [a])|exists free]; simpl.
  - split; [apply pl_free_ok; [done|done|lia]|]. rewrite alen_app, alen_cons, alen_nil. lia.
  - split; [done|lia].
Qed.

(** The invariant after an update of queue pair [q]. *)
Lemma qpw_inv N s s' q w' :
  pinv N s -> q ∈ poll_cq_list_ s -> ccs s' = ccs s -> active_senders_ s' = active_senders_ s ->
  idle_senders_ s' = idle_senders_ s -> cmdq_ s' = cmdq_ s ->
  qpws s' = <[q := w']> (qpws s) -> qpw_ok N w' ->
  poll_cq_list_ s' = poll_cq_list_ s \/
    poll_cq_list_ s' = list_del q (poll_cq_list_ s) /\ poll_cq_cnt_ w' = 0 -> pinv N s'.
Proof.
  intros [L1 L2 L3 L4 (L5 & L6 & L7)] Hq E1 E2 E3 E4 E5 Hw' Hp. split; rewrite ?E1, ?E2, ?E3, ?E4; try done.
  - intros x y Hy. destruct (L3 x y Hy) as (? & ? & ?). split_and!; [done|done|]. rewrite E5.
    destruct (decide (q = pc_qpw_ y)) as [->|]; [rewrite lookup_insert_eq|rewrite lookup_insert_ne]; eauto.
  - intros x y. rewrite E5. destruct (decide (q = x)) as [<-|];
      [rewrite lookup_insert_eq; by intros [= <-]|rewrite lookup_insert_ne by done; eauto].
  - rewrite E5. split; [destruct Hp as [->|[-> _]]; [done|by apply NoDup_list_del]|]. split.
    + intros x Hx. destruct (decide (q = x)) as [<-|]; [rewrite lookup_insert_eq; eauto|].
      rewrite lookup_insert_ne by done. apply L6. destruct Hp as [E|[E _]]; rewrite E in Hx; [done|].
      by apply elem_of_list_del in Hx as [_ ?].
    + intros x y. destruct (decide (q = x)) as [<-|].
      * rewrite lookup_insert_eq. intros [= <-] Hne. destruct Hp as [->|[_ ?]]; done.
      * rewrite lookup_insert_ne by done. intros Hy Hne. specialize (L7 x y Hy Hne).
        destruct Hp as [->|[-> _]]; [done|]. apply elem_of_list_del. split; [congruence|done].
Qed.

Lemma poll_cq_ok N cqes q s :
  pinv N s -> is_Some (qpws s !! q) -> legal_cqes cqes s q -> q ∈ poll_cq_list_ s ->
  exists done s', poll_cq (cqes q) q s = Done (done, s') /\
    pinv N (if done : bool then set_poll_cq_list_ (list_del q (poll_cq_list_ s')) s' else s') /\
    (forall q', q' <> q -> qpws s' !! q' = qpws s !! q') /\ poll_cq_list_ s' = poll_cq_list_ s.
Proof.
  intros Hi [w Hw] Hl Hq. pose proof Hi as [_ _ _ L4 _]. destruct (Hl w Hw) as [Hn Hc].
  unfold poll_cq, get_qpw. rewrite Hw. cbn [mbind result_bind].
  destruct (Z.eqb_spec (poll_cq_cnt_ w) 0) as [E0|].
  { exists true, s. split; [done|]. split; [|done]. apply (qpw_inv N s _ q w); simpl; try done.
    - by rewrite insert_id.
    - eauto.
    - by right. }
  destruct (cqes q) as [|c l] eqn:Ec; [by exists false, s|].
  fold complete. set (w' := fold_left complete _ w).
  assert (qpw_ok N w') as Hw'.
  { apply complete_ok; [eauto| |by apply Forall_take]. unfold alen in *. rewrite length_take. lia. }
  eexists _, _. split; [done|]. split; [|split; [|done]].
  - apply (qpw_inv N s _ q w'); destruct (Z.eqb_spec (poll_cq_cnt_ w') 0); simpl; auto.
  - intros q' Hne. simpl. by rewrite lookup_insert_ne.
Qed.

(** What polling does not touch. *)
Definition same_pacing s s' : Prop :=
  ccs s' = ccs s /\ active_senders_ s' = active_senders_ s /\ last_pacing_tsc_ s' = last_pacing_tsc_ s /\
  idle_senders_ s' = idle_senders_ s.

Lemma poll_pass_ok N cqes l : forall s,
  pinv N s -> NoDup l -> (forall q, q ∈ l -> q ∈ poll_cq_list_ s /\ legal_cqes cqes s q) ->
  exists s', poll_pass cqes l s = Done s' /\ pinv N s' /\ same_pacing s s'.
Proof.
  induction l as [|q l IH]; intros s Hi Hnd Hl; [by exists s|]. cbn [poll_pass].
  apply NoDup_cons in Hnd as [Hq Hnd]. destruct (Hl q) as [Hin Hleg]; [left|].
  destruct (poll_cq_ok N cqes q s) as (fin & s1 & E & Hi1 & Hoth & Hp);
    [done|by apply (i_poll _ _ Hi)|done|done|].
  rewrite E. cbn [mbind result_bind].
  assert (same_pacing s s1) as Ec.
  { unfold poll_cq, get_qpw in E. destruct (qpws s !! q); [|done]. cbn [mbind result_bind] in E.
    destruct (_ =? 0); [by injection E as _ <-|].
    destruct (cqes q); by injection E as _ <-. }
  set (s2 := if fin then _ else s1).
  assert (same_pacing s1 s2 /\ qpws s2 = qpws s1) as [E1 E2] by (unfold s2; by destruct fin).
  destruct (IH s2) as (s' & -> & Hi' & Ec'); [done|done| |].
  2: { exists s'. split_and!; [done|done|]. unfold same_pacing in *. intuition congruence. }
  intros q' Hq'. assert (q' <> q) by (intros ->; done). destruct (Hl q') as [Hin' Hleg']; [by right|]. split.
  - unfold s2. destruct fin; simpl; rewrite ?Hp; [|done]. by apply elem_of_list_del.
  - intros w. rewrite E2, Hoth by done. apply Hleg'.
Qed.

Lemma pull_requests_frame n : forall s,
  ccs (pull_requests n s) = ccs s /\ qpws (pull_requests n s) = qpws s /\
  poll_cq_list_ (pull_requests n s) = poll_cq_list_ s /\
  last_pacing_tsc_ (pull_requests n s) = last_pacing_tsc_ s.
Proof.
  induction n as [|n IH]; intros s; [done|]. cbn [pull_requests]. destruct (cmdq_ s) as [|id l]; [done|].
  destruct (IH (activate id (set_cmdq_ l s))) as (-> & -> & -> & ->). unfold activate.
  destruct (linked id (active_senders_ _)); [done|]. by destruct (linked id (idle_senders_ _)).
Qed.

Lemma known_length (l : list Z) (m : gmap Z EQDSCC) :
  NoDup l -> (forall x, x ∈ l -> is_Some (m !! x)) -> (length l <= size m)%nat.
Proof.
  intros Hnd Hk. rewrite <- (size_list_to_set (C := gset Z) l Hnd), <- (size_dom (D := gset Z) m).
  apply subseteq_size. intros x Hx. apply elem_of_dom, Hk. by apply elem_of_list_to_set in Hx.
Qed.

End inv.
End pacer.

(** ** A flow's spending *)

(** [EQDSRDMAContext::EventOnChunkSize] without the window of the sender's
    algorithm: what is sent of [remaining] bytes. *)
Definition chunk_of (chunk_size remaining : Z) (e : EQDSCC) : Z * EQDSCC :=
  let c := Z.min (Z.min chunk_size (credit e)) remaining in
  let '(ok, e) := spend_credit c e in (if ok then c else 0, e).

Definition credits_ok (e : EQDSCC) : Prop :=
  0 <= credit_pull_ e <= kEQDSMaxCwnd /\ 0 <= credit_spec_ e <= kEQDSMaxCwnd /\ in_word 8 (pull_ e).

(** The chunks sent between two grants. *)
Fixpoint spend_all (chunk_size : Z) (reqs : list Z) (e : EQDSCC) : Z * EQDSCC :=
  match reqs with
  | [] => (0, e)
  | r :: reqs =>
      let '(c, e) := chunk_of chunk_size r e in
      let '(t, e) := spend_all chunk_size reqs e in (c + t, e)
  end.

Lemma chunk_of_ok chunk_size r e :
  credits_ok e -> in_speculating_ e = false -> 0 < chunk_size -> 0 <= r ->
  let '(c, e') := chunk_of chunk_size r e in
  credits_ok e' /\ in_speculating_ e' = false /\ 0 <= c <= chunk_size /\
  (credit_pull_ e = 0 -> c = 0 /\ credit_pull_ e' = 0) /\
  (0 < credit_pull_ e' -> credit_pull_ e' + c <= credit_pull_ e) /\ 0 <= credit_pull_ e'.
Proof.
  intros (H1 & H2 & H3) Hs Hc Hr. unfold chunk_of, credit, kEQDSMaxCwnd in *.
  rewrite (wrap_id 32 (_ + _)) by word_lia. set (c := Z.min _ r). assert (0 <= c <= chunk_size) by lia.
  unfold spend_credit, credits_ok, kEQDSMaxCwnd.
  destruct (Z.ltb_spec 0 (credit_pull_ e)); simpl.
  - destruct (Z.ltb_spec c (credit_pull_ e)); split_and!; try done; try lia.
  - rewrite Hs. simpl. destruct (Z.ltb_spec c (credit_spec_ e)); split_and!; try done; try lia.
Qed.

(** A flow that has stopped speculating sends, between two grants, less than one
    chunk more than its pull credit, whatever its speculative credit is, and
    nothing without pull credit; the credits stay within [kEQDSMaxCwnd].  The
    excess exists: [spend_credit] lets a chunk of up to the sum of both credits
    pass and clears a pull credit that is smaller than the chunk. *)
Theorem overspend_less_than_chunk chunk_size reqs e :
  credits_ok e -> in_speculating_ e = false -> 0 < chunk_size -> Forall (fun r => 0 <= r) reqs ->
  let '(t, e') := spend_all chunk_size reqs e in
  credits_ok e' /\ 0 <= t /\ t < credit_pull_ e + chunk_size /\ (credit_pull_ e = 0 -> t = 0).
Proof.
  intros He Hs Hc Hr. revert e He Hs.
  assert (forall e, credits_ok e -> in_speculating_ e = false ->
    let '(t, e') := spend_all chunk_size reqs e in
    credits_ok e' /\ 0 <= t /\ (credit_pull_ e = 0 -> t = 0) /\
    (0 < credit_pull_ e -> t < credit_pull_ e + chunk_size)) as Hall.
  { induction Hr as [|r reqs Hr Hreqs IH]; intros e He Hs; simpl; [split_and!; try done; lia|].
    pose proof (chunk_of_ok chunk_size r e He Hs Hc Hr) as Ho.
    destruct (chunk_of chunk_size r e) as [c e1]. destruct Ho as (Ho1 & Ho2 & Ho3 & Ho4 & Ho5 & Ho6).
    specialize (IH e1 Ho1 Ho2). destruct (spend_all chunk_size reqs e1) as [t e'].
    destruct IH as (I1 & I2 & I3 & I4). split; [done|]. split; [lia|].
    split; [intros E; destruct (Ho4 E) as [? ?]; rewrite I3 by done; lia|]. intros.
    destruct (decide (credit_pull_ e1 = 0)) as [E|]; [rewrite I3 by done; lia|]. lia. }
  intros e He Hs. specialize (Hall e He Hs). destruct (spend_all chunk_size reqs e) as [t e'].
  destruct Hall as (A1 & A2 & A3 & A4). split; [done|]. split; [done|]. split; [|done].
  destruct He as ((? & _) & _). destruct (decide (credit_pull_ e = 0)) as [E|]; [rewrite A3 by done; lia|].
  apply A4. lia.
Qed.

(** ** Examples *)

Module Example.

(** A pool of 15 buffers, and one without any. *)
Definition pool : BuffPool.t := BuffPool.BuffPool 4096 16 4.
Definition no_pool : BuffPool.t := BuffPool.BuffPool 4096 1 4.

Lemma pool_repr : pl_repr pool 15 (BuffPool.buffers 4096 16 4).
Proof. split; [|by vm_compute]. apply (BuffPool.BuffPool_repr 4096 4 4); [lia|done]. Qed.

Lemma no_pool_repr : pl_repr no_pool 0 [].
Proof. split; [|by vm_compute]. apply (BuffPool.BuffPool_repr 4096 0 4); [lia|done]. Qed.

(** Flow 1 asks for 10 quanta, flow 2 for none; both use queue pair 9. *)
Definition cc1 : EQDSCC := set_highest_pull_target_ 60 (EQDSCC_init 1 9).
Definition cc2 : EQDSCC := EQDSCC_init 2 9.

Definition state (p : BuffPool.t) (active idle cmdq : list Z) : pacer BuffPool.t :=
  MkPacer {[ 1 := cc1; 2 := cc2 ]} {[ 9 := MkQpw 0 p ]} active idle [] cmdq 0 [].

Lemma pacer_grants_whole_backlog_witness :
  lone 1 10 10 (state pool [1] [] []) /\
  exists s', handle_grant_credit 0 (state pool [1] [] []) = Some (Done s') /\ active_senders_ s' = [].
Proof.
  assert (lone 1 10 10 (state pool [1] [] [])) as Hl.
  { split; [done|]. split; [apply not_elem_of_nil|].
    exists cc1, (MkQpw 0 pool), 15, (BuffPool.buffers 4096 16 4).
    split_and!; [reflexivity|reflexivity|by split|by split|reflexivity|exact pool_repr|by vm_compute]. }
  split; [exact Hl|].
  destruct (pacer_grants_whole_backlog 1 10 0 _ Hl) as (s' & E & A & _); [lia|]. exists s'. auto.
Defined.

Definition stuck : pacer BuffPool.t :=
  MkPacer {[ 2 := cc2; 3 := EQDSCC_init 3 9 ]} {[ 9 := MkQpw 0 no_pool ]} [] [2; 3] [] [] 0 [].

Lemma idle_senders_spin_witness : handle_grant_credit 1000 stuck = None.
Proof.
  apply idle_senders_spin; [done|simpl; lia|apply (bool_decide_unpack _); vm_compute; exact I|].
  constructor; [|constructor; [|constructor]].
  - exists cc2, (MkQpw 0 no_pool), 0.
    split_and!; [reflexivity|reflexivity|by split|reflexivity|reflexivity|exact no_pool_repr].
  - exists (EQDSCC_init 3 9), (MkQpw 0 no_pool), 0.
    split_and!; [reflexivity|reflexivity|by split|reflexivity|reflexivity|exact no_pool_repr].
Defined.

Lemma state_inv : pinv 15 (state pool [1] [] [2]).
Proof.
  split; simpl.
  - apply NoDup_singleton.
  - intros id Hid. repeat (apply elem_of_cons in Hid as [->|Hid]; [eexists; reflexivity|]).
    by apply not_elem_of_nil in Hid.
  - intros id e He. assert (e = cc1 \/ e = cc2) as [-> | ->].
    { apply lookup_insert_Some in He as [[_ <-]|[_ He]]; [by left|].
      apply lookup_singleton_Some in He as [_ <-]. by right. }
    all: split; [by split|]; split; [by split|]; eexists; reflexivity.
  - intros q w Hw. apply lookup_singleton_Some in Hw as [_ <-]. split; [done|]. split; [done|].
    exists 15, (BuffPool.buffers 4096 16 4). split; [exact pool_repr|by vm_compute].
  - split; [constructor|]. split; [intros q Hq; by apply not_elem_of_nil in Hq|].
    intros q w Hw Hne. apply lookup_singleton_Some in Hw as [_ <-]. done.
Qed.


(** One byte of pull credit pays for a chunk of 64 KiB. *)
Definition poor : EQDSCC := set_credit_pull_ 1 (stop_speculating (EQDSCC_init 1 9)).

Lemma overspend_less_than_chunk_witness :
  (spend_all 65536 [100000; 100000] poor).1 = 65536 /\
  credits_ok (spend_all 65536 [100000; 100000] poor).2.
Proof.
  split; [reflexivity|].
  pose proof (overspend_less_than_chunk 65536 [100000; 100000] poor) as Ho.
  destruct (spend_all 65536 [100000; 100000] poor) as [t e]. apply Ho.
  - split; [done|]. by split.
  - reflexivity.
  - lia.
  - repeat constructor; lia.
Defined.
End Example.

End Eqds.
