(* ===== verification/Flow.v ===== *)
(** * Sub-flows

    [RXTracking], [TXTracking], [RecvRequest] and [SubUcclFlow] of
    [collective/rdma/rdma_io.h], the per-engine half of a flow, and the
    congestion-control hooks ([RDMAContext::EventOn*]) as a type class.  A hook
    is given the members of the sub-flow it reads and returns those it may
    write; [X] is the state the hooks share across flows (the timing wheel, the
    pacer's channel). *)

From S2P Require Import Prelude Float64 Csn Pcb.

Module Flow.

Definition kMAXRXOOO : Z := 8.
Definition kMAXCumWQE : Z := 4.
Definition kMaxReq : Z := 16.

(** ** Immediate acknowledgements *)

Record RXTracking := MkRx {
  ready_csn_ : list (Z * Z);
  ooo_ : bool;
  cumulative_wqe_ : Z;
  cumulative_bytes_ : Z;
  consectutive_ooo_ : Z;
}.
Definition set_ready_csn_ (v : list (Z * Z)) (r : RXTracking) : RXTracking :=
  MkRx v (ooo_ r) (cumulative_wqe_ r) (cumulative_bytes_ r) (consectutive_ooo_ r).
Definition set_ooo_ (v : bool) (r : RXTracking) : RXTracking :=
  MkRx (ready_csn_ r) v (cumulative_wqe_ r) (cumulative_bytes_ r) (consectutive_ooo_ r).
Definition set_cumulative_wqe_ (v : Z) (r : RXTracking) : RXTracking :=
  MkRx (ready_csn_ r) (ooo_ r) v (cumulative_bytes_ r) (consectutive_ooo_ r).
Definition set_cumulative_bytes_ (v : Z) (r : RXTracking) : RXTracking :=
  MkRx (ready_csn_ r) (ooo_ r) (cumulative_wqe_ r) v (consectutive_ooo_ r).
Definition set_consectutive_ooo_ (v : Z) (r : RXTracking) : RXTracking :=
  MkRx (ready_csn_ r) (ooo_ r) (cumulative_wqe_ r) (cumulative_bytes_ r) v.

Definition fresh_rx : RXTracking := MkRx [] false 0 0 0.

Definition cumulate_wqe (t : RXTracking) : RXTracking :=
  set_cumulative_wqe_ (cumulative_wqe_ t +[32] 1) t.
Definition cumulate_bytes (bytes : Z) (t : RXTracking) : RXTracking :=
  set_cumulative_bytes_ (cumulative_bytes_ t +[32] bytes) t.
Definition encounter_ooo (t : RXTracking) : RXTracking :=
  let n := consectutive_ooo_ t +[32] 1 in
  if kMAXRXOOO <=? n then set_consectutive_ooo_ 0 (set_ooo_ true t)
  else set_consectutive_ooo_ n t.
Definition real_ooo (t : RXTracking) : bool := ooo_ t.
(** [kMAXCumBytes] depends on the configured chunk size. *)
Definition need_imm_ack (kMAXCumBytes : Z) (t : RXTracking) : bool :=
  ooo_ t || (cumulative_wqe_ t =? kMAXCumWQE) || (kMAXCumBytes <=? cumulative_bytes_ t).
Definition clear_imm_ack (t : RXTracking) : RXTracking :=
  MkRx (ready_csn_ t) false 0 0 0.

(** [std::set<std::pair<UINT_CSN, void*>>]: the pairs in the order of the
    comparator, lexicographic with [UINT_CSN::operator<] first.  A request
    pointer is [0] for null and otherwise the index in [reqs_] plus one. *)
Definition ready_lt (a b : Z * Z) : bool :=
  Csn.seqno_lt a.1 b.1 || (negb (Csn.seqno_lt b.1 a.1) && (a.2 <? b.2)).

Fixpoint ready_insert (x : Z * Z) (l : list (Z * Z)) : list (Z * Z) :=
  match l with
  | [] => [x]
  | y :: l' =>
      if ready_lt x y then x :: l
      else if ready_lt y x then y :: ready_insert x l'
      else l
  end.

(** ** Requests *)

Inductive req_type := UNUSED | RECV.

#[export] Instance req_type_eq_dec : EqDecision req_type.
Proof. solve_decision. Defined.

(** [received_bytes] has [kMaxRecv = 1] element. *)
Record RecvRequest := MkReq {
  rtype : req_type;
  ureq : Z;
  received_bytes : Z;
  fin_msg : Z;
}.

(** [memset(req, 0, sizeof(struct RecvRequest))]. *)
Definition zero_req : RecvRequest := MkReq UNUSED 0 0 0.

(** The receive side of a [ucclRequest]: the flow it was posted on, the length
    reported to the application and the [rid] of its FIFO element. *)
Record ucclRequest := MkUreq { context : Z; data_len : Z; erid : Z }.

(** ** Transmitted chunks *)

Record ChunkTrack := MkTrack {
  tureq : Z;
  twr_ex : Z;
  timestamp : Z;
  tcsn : Z;
  last_chunk : bool;
}.

(** ** SubUcclFlow *)

Record SubUcclFlow (CC : Type) := MkSub {
  fid_ : Z;
  next_ack_path_ : Z;
  unacked_bytes_ : Z;
  in_wheel_cnt_ : Z;
  pcb : Pcb.PCB CC;
  backlog_bytes_ : Z;
  rto_armed : bool;
  in_rtx : bool;
  txtracking : list ChunkTrack;
  rxtracking : RXTracking;
  scoreboard_rtt_ : list double;
  reqs_ : list RecvRequest;
}.
Arguments MkSub {CC} _ _ _ _ _ _ _ _ _ _ _ _ .
Arguments fid_ {CC} _.
Arguments next_ack_path_ {CC} _.
Arguments unacked_bytes_ {CC} _.
Arguments in_wheel_cnt_ {CC} _.
Arguments pcb {CC} _.
Arguments backlog_bytes_ {CC} _.
Arguments rto_armed {CC} _.
Arguments in_rtx {CC} _.
Arguments txtracking {CC} _.
Arguments rxtracking {CC} _.
Arguments scoreboard_rtt_ {CC} _.
Arguments reqs_ {CC} _.
Definition set_fid_ {CC} (v : Z) (r : SubUcclFlow CC) : SubUcclFlow CC :=
  MkSub v (next_ack_path_ r) (unacked_bytes_ r) (in_wheel_cnt_ r) (pcb r) (backlog_bytes_ r) (rto_armed r) (in_rtx r) (txtracking r) (rxtracking r) (scoreboard_rtt_ r) (reqs_ r).
Definition set_next_ack_path_ {CC} (v : Z) (r : SubUcclFlow CC) : SubUcclFlow CC :=
  MkSub (fid_ r) v (unacked_bytes_ r) (in_wheel_cnt_ r) (pcb r) (backlog_bytes_ r) (rto_armed r) (in_rtx r) (txtracking r) (rxtracking r) (scoreboard_rtt_ r) (reqs_ r).
Definition set_unacked_bytes_ {CC} (v : Z) (r : SubUcclFlow CC) : SubUcclFlow CC :=
  MkSub (fid_ r) (next_ack_path_ r) v (in_wheel_cnt_ r) (pcb r) (backlog_bytes_ r) (rto_armed r) (in_rtx r) (txtracking r) (rxtracking r) (scoreboard_rtt_ r) (reqs_ r).
Definition set_in_wheel_cnt_ {CC} (v : Z) (r : SubUcclFlow CC) : SubUcclFlow CC :=
  MkSub (fid_ r) (next_ack_path_ r) (unacked_bytes_ r) v (pcb r) (backlog_bytes_ r) (rto_armed r) (in_rtx r) (txtracking r) (rxtracking r) (scoreboard_rtt_ r) (reqs_ r).
Definition set_pcb {CC} (v : Pcb.PCB CC) (r : SubUcclFlow CC) : SubUcclFlow CC :=
  MkSub (fid_ r) (next_ack_path_ r) (unacked_bytes_ r) (in_wheel_cnt_ r) v (backlog_bytes_ r) (rto_armed r) (in_rtx r) (txtracking r) (rxtracking r) (scoreboard_rtt_ r) (reqs_ r).
Definition set_backlog_bytes_ {CC} (v : Z) (r : SubUcclFlow CC) : SubUcclFlow CC :=
  MkSub (fid_ r) (next_ack_path_ r) (unacked_bytes_ r) (in_wheel_cnt_ r) (pcb r) v (rto_armed r) (in_rtx r) (txtracking r) (rxtracking r) (scoreboard_rtt_ r) (reqs_ r).
Definition set_rto_armed {CC} (v : bool) (r : SubUcclFlow CC) : SubUcclFlow CC :=
  MkSub (fid_ r) (next_ack_path_ r) (unacked_bytes_ r) (in_wheel_cnt_ r) (pcb r) (backlog_bytes_ r) v (in_rtx r) (txtracking r) (rxtracking r) (scoreboard_rtt_ r) (reqs_ r).
Definition set_in_rtx {CC} (v : bool) (r : SubUcclFlow CC) : SubUcclFlow CC :=
  MkSub (fid_ r) (next_ack_path_ r) (unacked_bytes_ r) (in_wheel_cnt_ r) (pcb r) (backlog_bytes_ r) (rto_armed r) v (txtracking r) (rxtracking r) (scoreboard_rtt_ r) (reqs_ r).
Definition set_txtracking {CC} (v : list ChunkTrack) (r : SubUcclFlow CC) : SubUcclFlow CC :=
  MkSub (fid_ r) (next_ack_path_ r) (unacked_bytes_ r) (in_wheel_cnt_ r) (pcb r) (backlog_bytes_ r) (rto_armed r) (in_rtx r) v (rxtracking r) (scoreboard_rtt_ r) (reqs_ r).
Definition set_rxtracking {CC} (v : RXTracking) (r : SubUcclFlow CC) : SubUcclFlow CC :=
  MkSub (fid_ r) (next_ack_path_ r) (unacked_bytes_ r) (in_wheel_cnt_ r) (pcb r) (backlog_bytes_ r) (rto_armed r) (in_rtx r) (txtracking r) v (scoreboard_rtt_ r) (reqs_ r).
Definition set_scoreboard_rtt_ {CC} (v : list double) (r : SubUcclFlow CC) : SubUcclFlow CC :=
  MkSub (fid_ r) (next_ack_path_ r) (unacked_bytes_ r) (in_wheel_cnt_ r) (pcb r) (backlog_bytes_ r) (rto_armed r) (in_rtx r) (txtracking r) (rxtracking r) v (reqs_ r).
Definition set_reqs_ {CC} (v : list RecvRequest) (r : SubUcclFlow CC) : SubUcclFlow CC :=
  MkSub (fid_ r) (next_ack_path_ r) (unacked_bytes_ r) (in_wheel_cnt_ r) (pcb r) (backlog_bytes_ r) (rto_armed r) (in_rtx r) (txtracking r) (rxtracking r) (scoreboard_rtt_ r) v.

Section flow.
Context {CC : Type}.
Implicit Types f : SubUcclFlow CC.

(** [SubUcclFlow(fid, link_bandwidth)], for a number of paths.  The constructor
    initialises neither [next_ack_path_] nor [reqs_]: their contents are those
    of the allocated memory. *)
Definition SubUcclFlow_init (fid : Z) (paths : nat) (path0 : Z) (reqs : list RecvRequest)
    (c : CC) : SubUcclFlow CC :=
  MkSub fid path0 0 0 (Pcb.fresh c) 0 false false [] fresh_rx
    (replicate paths (of_Z 0)) reqs.

Definition set_cc_state (c : CC) f : SubUcclFlow CC := set_pcb (Pcb.set_cc c (pcb f)) f.

(** The first unused request. *)
Fixpoint find_unused (l : list RecvRequest) (i : Z) : option Z :=
  match l with
  | [] => None
  | r :: l => if decide (rtype r = UNUSED) then Some i else find_unused l (i + 1)
  end.

Definition alloc_recvreq f : option Z := find_unused (reqs_ f) 0.
Definition get_recvreq_by_id (id : Z) f : result RecvRequest :=
  match aget (reqs_ f) id with Some r => Done r | None => Fail OutOfBounds end.
Definition put_recvreq (id : Z) (r : RecvRequest) f : SubUcclFlow CC :=
  set_reqs_ (aset (reqs_ f) id r) f.
Definition free_recvreq (id : Z) f : SubUcclFlow CC := put_recvreq id zero_req f.

(** The exponentially weighted RTT of a path. *)
Definition kPPEwmaAlpha : double := lit 125 1000.

Definition update_scoreboard_rtt (freq_ghz : double) (newrtt_tsc qpidx : Z) f :
    result (SubUcclFlow CC) :=
  match aget (scoreboard_rtt_ f) qpidx with
  | None => Fail OutOfBounds
  | Some r =>
      Done (set_scoreboard_rtt_ (aset (scoreboard_rtt_ f) qpidx
        (((of_Z 1 - kPPEwmaAlpha) * r + kPPEwmaAlpha * to_usec newrtt_tsc freq_ghz)%D)) f)
  end.
End flow.

End Flow.

(** ** Congestion-control hooks *)

Class RxHooks (CC X : Type) := {
  EventOnRxData : Z -> CC -> X -> CC * X;
  EventOnRxRTXData : Z -> CC -> X -> CC * X;
}.

(** The sender's hooks.  [EventOnChunkSize] is given the unacknowledged bytes of
    the flow and of the engine and the remaining bytes; [EventOnQueueData] the
    number of the flow's chunks in the wheel, the work request, its size on the
    wire and the time; [EventOnTxRTXData] the length, the backlog and the
    immediate of the chunk, and the flow's [in_rtx] flag.  [on_rtt] is what an
    RTT sample does to the congestion-control members, at a time of reading: the
    time and the length of the sample and the acknowledged bytes. *)
Class TxHooks (CC X : Type) := {
  EventOnChunkSize : Z -> Z -> Z -> CC -> Z * CC;
  EventOnQueueData : Z -> Z -> Z -> Z -> CC -> X -> result (bool * CC * X);
  EventOnTxRTXData : Z -> Z -> Z -> bool -> CC -> bool * (Z * bool * CC);
  EventOnRxACK : bool -> CC -> bool * CC;
  EventOnRxNACK : bool -> CC -> bool * CC;
  on_rtt : Z -> Z -> Z -> Z -> CC -> result CC;
}.

(** What the sender relies on: a chunk is no longer than what remains, and the
    wheel is bypassed only when it holds no chunk of the flow.  [may_queue] says
    whether the algorithm uses the wheel at all; [rtt_ok] which times of a sample
    it accepts. *)
Class TxLaws (CC X : Type) `{TxHooks CC X} := {
  may_queue : bool;
  chunk_size_le fu eu rem c : 0 <= rem -> 0 <= fst (EventOnChunkSize fu eu rem c) <= rem;
  queue_never n a sz now c x :
    may_queue = false -> exists c' x', EventOnQueueData n a sz now c x = Done (false, c', x');
  queue_bypass n a sz now c x c' x' :
    may_queue = true -> EventOnQueueData n a sz now c x = Done (false, c', x') -> n = 0;
  rtt_ok : Z -> CC -> Prop;
  on_rtt_done now t d seg c : rtt_ok t c -> exists c', on_rtt now t d seg c = Done c';
  rtt_ok_ack t b c : rtt_ok t c -> rtt_ok t (snd (EventOnRxACK b c));
}.

(** The context's timing wheel as [burst_timing_wheel] uses it. *)
Class Pacer (X : Type) := {
  pc_reap : Z -> X -> result X;
  pc_ready : X -> list Z;
  pc_pop : X -> X;
}.
