(* ===== verification/Receiver.v ===== *)
(** * Receive path of the RDMA transport

    The receiving half of [RDMAContext] ([collective/rdma/transport.cc]):
    buffers are supplied, chunks arrive in any order within the window, directly
    ([uc_rx_chunk], [rc_rx_chunk]) or retransmitted ([uc_rx_rtx_chunk]), the
    in-order prefix advances ([try_update_csn]), complete messages wake the
    application, and ACKs are crafted and posted.

    Times ([rdtsc], the hardware time stamp) are arguments.  Immediates are in
    host order, after [ntohl].  The copy of a retransmitted payload, the FIFO
    posts and the wake-ups are outputs. *)

From S2P Require Import Prelude Float64 Csn Queues Pcb SharedIo Flow.

Module Rx.
Import Flow.

(** What the handlers read of the context and of the configuration. *)
Record config := MkConfig {
  kMAXCumBytes : Z;
  remote_peer_id : Z;
  freq_ghz : double;
  nic_ts_ratio_ : double;
  nic_ts_offset_ : double;
  qpn2idx_ : gmap Z Z;
  rc_mode_ : bool;
}.

(** A completion: [ibv_wc], or what is read from [ibv_cq_ex]. *)
Record cqe := MkCqe { byte_len : Z; cimm : Z; qp_num : Z }.

Record retr_chunk_hdr := MkRetrHdr { remote_addr : Z; rimm : Z }.
Definition sizeof_retr_chunk_hdr : Z := 12.

(** A wake-up: the flow, its request and the length it reports. *)
Record wake := MkWake { wfid : Z; wureq : Z; wlen : Z }.

(** A copy to the application buffer: destination, source and length. *)
Record copy := MkCopy { cdst : Z; csrc : Z; clen : Z }.

Record rctx (CC X P : Type) := MkRctx {
  receiver_flow_tbl_ : gmap Z (SubUcclFlow CC);
  ack_list_ : list Z;
  ureqs : gmap Z ucclRequest;
  cca : X;
  io_ctx_ : Io.io P;
  woken : list wake;
  copies : list copy;
  fifo_posts : list Z;
}.
Arguments MkRctx {CC X P} _ _ _ _ _ _ _ _ .
Arguments receiver_flow_tbl_ {CC X P} _.
Arguments ack_list_ {CC X P} _.
Arguments ureqs {CC X P} _.
Arguments cca {CC X P} _.
Arguments io_ctx_ {CC X P} _.
Arguments woken {CC X P} _.
Arguments copies {CC X P} _.
Arguments fifo_posts {CC X P} _.
Definition set_receiver_flow_tbl_ {CC X P} (v : gmap Z (SubUcclFlow CC)) (r : rctx CC X P) : rctx CC X P :=
  MkRctx v (ack_list_ r) (ureqs r) (cca r) (io_ctx_ r) (woken r) (copies r) (fifo_posts r).
Definition set_ack_list_ {CC X P} (v : list Z) (r : rctx CC X P) : rctx CC X P :=
  MkRctx (receiver_flow_tbl_ r) v (ureqs r) (cca r) (io_ctx_ r) (woken r) (copies r) (fifo_posts r).
Definition set_ureqs {CC X P} (v : gmap Z ucclRequest) (r : rctx CC X P) : rctx CC X P :=
  MkRctx (receiver_flow_tbl_ r) (ack_list_ r) v (cca r) (io_ctx_ r) (woken r) (copies r) (fifo_posts r).
Definition set_cca {CC X P} (v : X) (r : rctx CC X P) : rctx CC X P :=
  MkRctx (receiver_flow_tbl_ r) (ack_list_ r) (ureqs r) v (io_ctx_ r) (woken r) (copies r) (fifo_posts r).
Definition set_io_ctx_ {CC X P} (v : Io.io P) (r : rctx CC X P) : rctx CC X P :=
  MkRctx (receiver_flow_tbl_ r) (ack_list_ r) (ureqs r) (cca r) v (woken r) (copies r) (fifo_posts r).
Definition set_woken {CC X P} (v : list wake) (r : rctx CC X P) : rctx CC X P :=
  MkRctx (receiver_flow_tbl_ r) (ack_list_ r) (ureqs r) (cca r) (io_ctx_ r) v (copies r) (fifo_posts r).
Definition set_copies {CC X P} (v : list copy) (r : rctx CC X P) : rctx CC X P :=
  MkRctx (receiver_flow_tbl_ r) (ack_list_ r) (ureqs r) (cca r) (io_ctx_ r) (woken r) v (fifo_posts r).
Definition set_fifo_posts {CC X P} (v : list Z) (r : rctx CC X P) : rctx CC X P :=
  MkRctx (receiver_flow_tbl_ r) (ack_list_ r) (ureqs r) (cca r) (io_ctx_ r) (woken r) (copies r) v.

Section rx.
Context {CC X P : Type} `{RxHooks CC X} `{PoolOps P} (cfg : config).
Implicit Types (c : rctx CC X P) (f : SubUcclFlow CC).

Definition kReassemblyMaxSeqnoDistance : Z := Pcb.kSackBitmapSize.

(** [receiver_flow_tbl_[fid]->sub_flows_[engine_offset_]]. *)
Definition get_flow (fid : Z) c : result (SubUcclFlow CC) :=
  match receiver_flow_tbl_ c !! fid with Some f => Done f | None => Fail OutOfBounds end.
Definition put_flow (fid : Z) f c : rctx CC X P :=
  set_receiver_flow_tbl_ (<[fid := f]> (receiver_flow_tbl_ c)) c.

Definition convert_nic_to_host (nic_clock : Z) : Z :=
  cast_uint 64 (nic_ts_ratio_ cfg * of_Z nic_clock + nic_ts_offset_ cfg)%D.

(** The header [craft_ack] writes, [t4] being the current time. *)
Definition sack_header (t4 : Z) f : Io.UcclSackHdr :=
  let t2 := convert_nic_to_host (Pcb.t_remote_nic_rx (pcb f)) in
  Io.MkSack (wrap 16 (remote_peer_id cfg)) (wrap 16 (fid_ f)) (wrap 16 (next_ack_path_ f))
    (wrap 16 (Pcb.rcv_nxt (pcb f))) (wrap 16 (Pcb.sack_bitmap_count (pcb f)))
    (cast_uint 64 (to_usec (t4 -[64] t2) (freq_ghz cfg))) (Pcb.sack_bitmap (pcb f)).

Definition craft_ack (t4 : Z) f (chunk_addr idx_in_chunk : Z) (s : Io.io P) : Io.io P :=
  let pkt_addr := chunk_addr +[64] (Io.kPktSize * idx_in_chunk) in
  Io.set_ctrl_mem (<[pkt_addr := sack_header t4 f]> (Io.ctrl_mem s)) s.

(** The loop of [uc_post_acks] over the flows with a pending ACK. *)
Fixpoint craft_acks (t4 : Z) (chunk_addr : Z) (l : list Z) (num_ack : Z) c :
    result (Z * rctx CC X P) :=
  match l with
  | [] => Done (num_ack, c)
  | fid :: l =>
      f ← get_flow fid c;
      craft_acks t4 chunk_addr l (num_ack + 1)
        (set_io_ctx_ (craft_ack t4 f chunk_addr num_ack (io_ctx_ c)) c)
  end.

Definition uc_post_acks (t4 : Z) c : result (rctx CC X P) :=
  '(chunk_addr, s) ← Io.pop_ctrl_chunk (io_ctx_ c);
  '(num_ack, c) ← craft_acks t4 chunk_addr (ack_list_ c) 0 (set_io_ctx_ s c);
  s ← Io.try_post_acks num_ack chunk_addr false (io_ctx_ c);
  let s := if num_ack =? 0 then Io.push_ctrl_chunk chunk_addr s else s in
  Done (set_ack_list_ [] (set_io_ctx_ s c)).

(** [if (list_empty(&subflow->ack.ack_link)) list_add_tail(...)]. *)
Definition add_pending_ack (fid : Z) c : rctx CC X P :=
  if decide (fid ∈ ack_list_ c) then c else set_ack_list_ (ack_list_ c ++ [fid]) c.
Definition del_pending_ack (fid : Z) c : rctx CC X P :=
  set_ack_list_ (filter (fun x => x <> fid) (ack_list_ c)) c.

(** The state [try_update_csn] works on: the sub-flow, the requests it
    completes and the wake-ups. *)
Record upd := MkUpd { usub : SubUcclFlow CC; uheap : gmap Z ucclRequest; uwoken : list wake }.

(** The request that the last chunk of a message completes. *)
Definition complete_req (rid : Z) (u : upd) : result upd :=
  r ← get_recvreq_by_id rid (usub u);
  match uheap u !! ureq r with
  | None => Fail OutOfBounds
  | Some q =>
      let n := signed 32 (received_bytes r) in
      Done (MkUpd (free_recvreq rid (usub u))
                  (<[ureq r := MkUreq (context q) n (erid q)]> (uheap u))
                  (uwoken u ++ [MkWake (fid_ (usub u)) (ureq r) n]))
  end.

(** One iteration: the head of [ready_csn_] is the expected chunk. *)
Definition advance_csn (req : Z) (ready : list (Z * Z)) (u : upd) : result upd :=
  u ← (if req =? 0 then Done u else complete_req (req - 1) u);
  let f := usub u in
  let p := Pcb.advance_rcv_nxt (pcb f) in
  let p := if rc_mode_ cfg then p else Pcb.sack_bitmap_shift_left_one p in
  Done (MkUpd (set_pcb p (set_rxtracking (set_ready_csn_ ready (rxtracking f)) f))
              (uheap u) (uwoken u)).

Fixpoint update_loop (ready : list (Z * Z)) (u : upd) : result upd :=
  match ready with
  | [] => Done u
  | (csn, req) :: ready =>
      if csn =? Pcb.rcv_nxt (pcb (usub u)) then
        u ← advance_csn req ready u; update_loop ready u
      else Done u
  end.

Definition try_update_csn (u : upd) : result upd :=
  update_loop (ready_csn_ (rxtracking (usub u))) u.

(** The request of a chunk, unless it is not one of this flow. *)
Definition locate (rid fid : Z) f (heap : gmap Z ucclRequest) : result (option RecvRequest) :=
  r ← get_recvreq_by_id rid f;
  if decide (rtype r = RECV) then
    match heap !! ureq r with
    | None => Fail OutOfBounds
    | Some q => Done (if context q =? fid then Some r else None)
    end
  else Done None.

(** The tail the three handlers share: count the bytes, remember the sequence
    number, with the request if this is the last chunk, and advance. *)
Definition accept_chunk (fid rid csn len last : Z) (r : RecvRequest) f c :
    result (rctx CC X P) :=
  let f := put_recvreq rid
    (MkReq (rtype r) (ureq r) (received_bytes r +[32] len) (fin_msg r)) f in
  let req := if last =? 0 then 0 else rid + 1 in
  let t := rxtracking f in
  let f := set_rxtracking
    (set_ready_csn_ (ready_insert (Csn.of_uint32 csn, req) (ready_csn_ t)) t) f in
  u ← try_update_csn (MkUpd f (ureqs c) (woken c));
  Done (put_flow fid (usub u) (set_ureqs (uheap u) (set_woken (uwoken u) c))).

Definition drop_chunk (fid : Z) f c : rctx CC X P :=
  put_flow fid (set_pcb (Pcb.set_stats_chunk_drop (Pcb.stats_chunk_drop (pcb f) +[32] 1)
                           (pcb f)) f) c.
Definition drop_rtx_chunk (fid : Z) f c : rctx CC X P :=
  put_flow fid (set_pcb (Pcb.set_stats_retr_chunk_drop
                           (Pcb.stats_retr_chunk_drop (pcb f) +[32] 1) (pcb f)) f) c.

Definition run_hook (hook : CC -> X -> CC * X) (fid : Z) c : result (rctx CC X P) :=
  f ← get_flow fid c;
  let '(cc', x') := hook (Pcb.cc (pcb f)) (cca c) in
  Done (set_cca x' (put_flow fid (set_cc_state cc' f) c)).

(** The end of [uc_rx_chunk]: out-of-order and cumulative counters, and an ACK
    that is pending or, if needed, sent at once.  [t4] is the time at which it
    is crafted. *)
Definition uc_ack_chunk (t4 fid qpidx distance len : Z) c : result (rctx CC X P) :=
  f ← get_flow fid c;
  let t := rxtracking f in
  let t := if distance =? 0 then t else encounter_ooo t in
  let t := cumulate_bytes len (cumulate_wqe t) in
  let f := set_next_ack_path_ (wrap 16 qpidx) (set_rxtracking t f) in
  let c := add_pending_ack fid (put_flow fid f c) in
  if need_imm_ack (kMAXCumBytes cfg) t then
    '(chunk_addr, s) ← Io.pop_ctrl_chunk (io_ctx_ c);
    let s := craft_ack t4 f chunk_addr 0 s in
    s ← Io.try_post_acks 1 chunk_addr true s;
    Done (del_pending_ack fid
      (put_flow fid (set_rxtracking (clear_imm_ack t) f) (set_io_ctx_ s c)))
  else Done c.

(** [uc_rx_chunk]: [ts] is the time stamp of the completion. *)
Definition uc_rx_chunk (ts t4 : Z) (e : cqe) c : result (rctx CC X P) :=
  let qpidx := default 0 (qpn2idx_ cfg !! qp_num e) in
  let last := Imm.GetHINT (cimm e) in
  let csn := Imm.GetCSN (cimm e) in
  let rid := Imm.GetRID (cimm e) in
  let fid := Imm.GetFID (cimm e) in
  f ← get_flow fid c;
  req ← locate rid fid f (ureqs c);
  match req with
  | None => Done (drop_chunk fid f c)
  | Some r =>
  let ecsn := Pcb.rcv_nxt (pcb f) in
  let distance := Csn.sub (Csn.of_uint32 csn) ecsn in
  if Csn.seqno_lt (Csn.of_uint32 csn) ecsn then Done (drop_chunk fid f c)
  else if kReassemblyMaxSeqnoDistance <? distance then Done (drop_chunk fid f c)
  else
    set ← Pcb.sack_bitmap_bit_is_set distance (pcb f);
    _ ← check (negb set);
    p ← Pcb.sack_bitmap_bit_set distance (Pcb.set_t_remote_nic_rx ts (pcb f));
    c ← accept_chunk fid rid csn (byte_len e) last r (set_pcb p f) c;
    uc_ack_chunk t4 fid qpidx distance (byte_len e) c ≫= run_hook (EventOnRxData (cimm e)) fid
  end.

(** [uc_rx_rtx_chunk]: the header and the payload are in the buffer at
    [chunk_addr]. *)
Definition uc_rx_rtx_chunk (e : cqe) (chunk_addr : Z) (hdr : retr_chunk_hdr) c :
    result (rctx CC X P) :=
  let chunk_len := byte_len e -[64] sizeof_retr_chunk_hdr in
  let last := Imm.GetHINT (rimm hdr) in
  let csn := Imm.GetCSN (rimm hdr) in
  let rid := Imm.GetRID (rimm hdr) in
  let fid := Imm.GetFID (rimm hdr) in
  f ← get_flow fid c;
  req ← locate rid fid f (ureqs c);
  match req with
  | None => Done (drop_rtx_chunk fid f c)
  | Some r =>
  let ecsn := Pcb.rcv_nxt (pcb f) in
  let distance := Csn.sub (Csn.of_uint32 csn) ecsn in
  if Csn.seqno_lt (Csn.of_uint32 csn) ecsn then Done (drop_rtx_chunk fid f c)
  else if kReassemblyMaxSeqnoDistance <? distance then Done (drop_rtx_chunk fid f c)
  else
    set ← Pcb.sack_bitmap_bit_is_set distance (pcb f);
    if set : bool then Done (drop_rtx_chunk fid f c)
    else
      let c := set_copies (copies c ++
        [MkCopy (remote_addr hdr) (chunk_addr +[64] sizeof_retr_chunk_hdr) chunk_len]) c in
      p ← Pcb.sack_bitmap_bit_set distance
        (Pcb.set_stats_accept_retr (Pcb.stats_accept_retr (pcb f) +[32] 1) (pcb f));
      c ← accept_chunk fid rid csn chunk_len last r (set_pcb p f) c;
      let c := add_pending_ack fid c in
      f ← get_flow fid c;
      run_hook (EventOnRxRTXData (rimm hdr)) fid
        (put_flow fid (set_next_ack_path_ (2 ^ 16 - 1) f) c)
  end.

(** [rc_rx_chunk]: the transport is reliable, nothing is checked but the
    request. *)
Definition rc_rx_chunk (e : cqe) c : result (rctx CC X P) :=
  let last := Imm.GetHINT (cimm e) in
  let csn := Imm.GetCSN (cimm e) in
  let rid := Imm.GetRID (cimm e) in
  let fid := Imm.GetFID (cimm e) in
  f ← get_flow fid c;
  req ← locate rid fid f (ureqs c);
  match req with
  | None => Fail CheckFailed
  | Some r =>
      c ← accept_chunk fid rid csn (byte_len e) last r f c;
      run_hook (EventOnRxData (cimm e)) fid c
  end.

(** [supply_rx_buff]: [None] is the [-1] return, when all requests are taken. *)
Definition supply_rx_buff (u : Z) c : result (option Z * rctx CC X P) :=
  match ureqs c !! u with
  | None => Fail OutOfBounds
  | Some q =>
      f ← get_flow (context q) c;
      match alloc_recvreq f with
      | None => Done (None, c)
      | Some rid =>
          let f := put_recvreq rid (MkReq RECV u 0 0) f in
          Done (Some rid,
            set_fifo_posts (fifo_posts c ++ [u])
              (set_ureqs (<[u := MkUreq (context q) (data_len q) rid]> (ureqs c))
                 (put_flow (context q) f c)))
      end
  end.
End rx.

End Rx.
