(* ===== verification/ReceiverSpec.v ===== *)
(** * Correctness of the receive path

    A flow's chunks have unbounded positions 0, 1, 2, ...; a [schedule] says
    which message each belongs to, whether it is the message's last and how long
    it is.  Messages may interleave: a message that runs out of budget is
    resumed after others.  The state of the
    receiver is compared with the set of positions that arrived: the expected
    sequence number is the first missing position, the SACK bitmap is the set of
    positions beyond it, and the application is woken exactly for the messages
    that lie below it, in order, once, and with their full length. *)

From S2P Require Import Prelude Float64 Csn Queues Pcb SharedIo Flow Receiver.

Module RxSpec.
Import Flow Rx.

Record schedule := MkSchedule { msg_no : Z -> nat; is_last : Z -> bool; len_of : Z -> Z }.

(** ** Positions, messages and lengths *)

Section spec.
Context (sc : schedule).

(** The message of position [n]: the index of its buffer. *)
Definition msg_of (n : Z) : Z := Z.of_nat (msg_no sc n).

(** The bytes of message [m] among the positions [l]. *)
Fixpoint bytes_of (m : Z) (l : list Z) : Z :=
  match l with
  | [] => 0
  | k :: l => (if msg_of k =? m then len_of sc k else 0) + bytes_of m l
  end.

Lemma msg_of_nonneg n : 0 <= msg_of n.
Proof. unfold msg_of. lia. Qed.

(** A schedule: nothing of a message follows its last chunk, no chunk is
    negative and no message overflows an [int]. *)
Definition schedule_ok : Prop :=
  (forall n k, 0 <= n < k -> is_last sc n = true -> msg_of k <> msg_of n) /\
  (forall k, 0 <= len_of sc k) /\
  (forall n, 0 <= n -> bytes_of (msg_of n) (seqZ 0 (n + 1)) < 2 ^ 31).

(** The last chunk of message [m] is not below [nxt]. *)
Definition open (nxt m : Z) : Prop :=
  0 <= m /\ forall k, 0 <= k < nxt -> is_last sc k = true -> msg_of k <> m.

Lemma open_ge n nxt : schedule_ok -> 0 <= nxt <= n -> open nxt (msg_of n).
Proof.
  intros [Hs _] Hn. split; [apply msg_of_nonneg|]. intros k Hk Hl E.
  apply (Hs k n); [lia|done|done].
Qed.

Lemma open_S nxt m :
  0 <= nxt -> open (nxt + 1) m -> open nxt m /\ (is_last sc nxt = true -> m <> msg_of nxt).
Proof.
  intros Hn [Hm Ho]. split; [split; [done|]; intros k Hk; apply Ho; lia|].
  intros Hl ->. apply (Ho nxt); [lia|done|done].
Qed.

Lemma bytes_of_app m l k : bytes_of m (l ++ k) = bytes_of m l + bytes_of m k.
Proof. induction l; simpl; lia. Qed.

Lemma bytes_of_none m l : Forall (fun k => msg_of k <> m) l -> bytes_of m l = 0.
Proof.
  induction 1 as [|k l Hk Hl IH]; simpl; [done|].
  rewrite (proj2 (Z.eqb_neq _ _) Hk). lia.
Qed.

Lemma bytes_of_Permutation m l k : l ≡ₚ k -> bytes_of m l = bytes_of m k.
Proof. induction 1; simpl; lia. Qed.

Lemma bytes_of_nonneg m l : (forall k, 0 <= len_of sc k) -> 0 <= bytes_of m l.
Proof.
  intros Hl. induction l as [|k l IH]; simpl; [done|]. pose proof (Hl k). case_match; lia.
Qed.

(** ** Sorted insertion *)

Fixpoint insert_pos (n : Z) (l : list Z) : list Z :=
  match l with
  | [] => [n]
  | k :: l' => if n <? k then n :: l else k :: insert_pos n l'
  end.

Lemma insert_pos_Permutation n l : insert_pos n l ≡ₚ n :: l.
Proof.
  induction l as [|k l IH]; simpl; [done|]. case_match; [done|].
  rewrite IH. apply Permutation_swap.
Qed.

Lemma elem_of_insert_pos n l k : k ∈ insert_pos n l <-> k = n \/ k ∈ l.
Proof. rewrite insert_pos_Permutation. apply elem_of_cons. Qed.

Lemma insert_pos_sorted n l :
  StronglySorted Z.lt l -> n ∉ l -> StronglySorted Z.lt (insert_pos n l).
Proof.
  induction 1 as [|k l Hs IH Hk]; intros Hn; simpl; [by repeat constructor|].
  apply not_elem_of_cons in Hn as [Hnk Hnl]. destruct (Z.ltb_spec n k).
  - constructor; [by constructor|]. constructor; [done|].
    eapply Forall_impl; [exact Hk|]. simpl. lia.
  - constructor; [by apply IH|]. apply Forall_forall. intros x Hx.
    apply elem_of_insert_pos in Hx as [->|Hx]; [lia|].
    by apply (proj1 (Forall_forall _ _) Hk).
Qed.

(** ** The ordered set of ready chunks *)

Context (rid_of : Z -> Z).

(** What [ready_csn_] holds for a position. *)
Definition entry (n : Z) : Z * Z :=
  (Csn.csn n, if is_last sc n then rid_of (msg_of n) + 1 else 0).

Lemma ready_lt_entry n m :
  -128 < n - m < 128 -> n <> m -> ready_lt (entry n) (entry m) = (n <? m).
Proof.
  intros Hw Hne. unfold ready_lt, entry. simpl fst.
  rewrite !Csn.seqno_lt_csn by lia.
  destruct (Z.ltb_spec n m), (Z.ltb_spec m n); simpl; try done; lia.
Qed.

Lemma ready_insert_map n l lo :
  n ∉ l -> lo <= n < lo + 128 -> Forall (fun k => lo <= k < lo + 128) l ->
  ready_insert (entry n) (map entry l) = map entry (insert_pos n l).
Proof.
  intros Hn Hw Hl. induction Hl as [|k l Hk Hl IH]; simpl; [done|].
  apply not_elem_of_cons in Hn as [Hnk Hnl].
  rewrite (ready_lt_entry n k) by lia. destruct (Z.ltb_spec n k); [done|].
  rewrite (ready_lt_entry k n) by lia.
  destruct (Z.ltb_spec k n); [|lia]. simpl. by rewrite IH.
Qed.
End spec.

(** ** The invariant of a receiving flow *)

Section inv.
Context {CC X P : Type} `{RxHooks CC X} `{PoolOps P} `{!PoolLaws P}.
Context (cfg : config) (sc : schedule) (phi : Z).
Implicit Types (c : rctx CC X P) (f : SubUcclFlow CC).

(** The application buffers supplied to the flow, oldest first: the request
    and the index its FIFO element carries.  Message [m] goes into the [m]-th. *)
Implicit Types sup : list (Z * Z).

Definition ureq_of sup (m : Z) : Z := default 0 (fst <$> aget sup m).
Definition rid_of sup (m : Z) : Z := default 0 (snd <$> aget sup m).

(** The wake-ups that the messages ending below position [nxt] deserve. *)
Definition completion sup (n : Z) : list wake :=
  if is_last sc n then
    [MkWake phi (ureq_of sup (msg_of sc n)) (bytes_of sc (msg_of sc n) (seqZ 0 (n + 1)))]
  else [].
Definition completions sup (nxt : Z) : list wake := seqZ 0 nxt ≫= completion sup.

(** The flow [f] with requests [heap] has accepted every position below [nxt]
    and those of [got], which wait. *)
Record core f (heap : gmap Z ucclRequest) (wk : list wake) sup (nxt : Z) (got : list Z) :
    Prop := {
  c_fid : fid_ f = phi;
  c_pos : 0 <= nxt;
  c_nxt : Pcb.rcv_nxt (pcb f) = Csn.csn nxt;
  c_sorted : StronglySorted Z.lt got;
  c_win : Forall (fun n => nxt <= n < nxt + 128) got;
  c_ready : ready_csn_ (rxtracking f) = map (entry sc (rid_of sup)) got;
  c_wf : rc_mode_ cfg = false -> Pcb.wf (pcb f);
  c_bits : rc_mode_ cfg = false -> forall i, 0 <= i < 128 ->
    Z.testbit (Pcb.sack (pcb f)) i = bool_decide (nxt + i ∈ got);
  c_reqs : alen (reqs_ f) = kMaxReq;
  c_active : forall m u rid, open sc nxt m -> aget sup m = Some (u, rid) ->
    0 <= rid < kMaxReq /\
    aget (reqs_ f) rid =
      Some (MkReq RECV u (wrap 32 (bytes_of sc m (seqZ 0 nxt ++ got))) 0);
  c_rids : forall m m' u u' rid, open sc nxt m -> open sc nxt m' ->
    aget sup m = Some (u, rid) -> aget sup m' = Some (u', rid) -> m = m';
  c_heap : forall rid r, aget (reqs_ f) rid = Some r -> rtype r = RECV ->
    exists q, heap !! ureq r = Some q /\ context q = phi;
  c_got : Forall (fun n => msg_of sc n < alen sup) (seqZ 0 nxt ++ got);
  c_woken : filter (fun w => wfid w = phi) wk = completions sup nxt;
}.

(** Only these members of the flow matter. *)
Lemma core_ext f f' heap wk sup nxt got :
  core f heap wk sup nxt got ->
  fid_ f' = fid_ f -> Pcb.rcv_nxt (pcb f') = Pcb.rcv_nxt (pcb f) ->
  Pcb.sack_bitmap (pcb f') = Pcb.sack_bitmap (pcb f) ->
  Pcb.sack_bitmap_count (pcb f') = Pcb.sack_bitmap_count (pcb f) ->
  ready_csn_ (rxtracking f') = ready_csn_ (rxtracking f) -> reqs_ f' = reqs_ f ->
  core f' heap wk sup nxt got.
Proof.
  intros [] Efid Enxt Ebm Ecnt Erdy Ereqs.
  assert (Pcb.sack (pcb f') = Pcb.sack (pcb f)) as Es by (unfold Pcb.sack; by rewrite Ebm).
  assert (Pcb.wf (pcb f) -> Pcb.wf (pcb f')) as Ewf.
  { unfold Pcb.wf. by rewrite Es, Ebm, Ecnt. }
  split; rewrite ?Efid, ?Enxt, ?Erdy, ?Ereqs, ?Es; eauto.
Qed.

Lemma completions_S sup nxt :
  0 <= nxt -> completions sup (nxt + 1) = completions sup nxt ++ completion sup nxt.
Proof.
  intros. unfold completions. rewrite seqZ_snoc, bind_app by done. f_equal.
  simpl. by rewrite app_nil_r.
Qed.

(** When the last chunk of a message is next, all its bytes have arrived. *)
Lemma last_has_all nxt got :
  schedule_ok sc -> 0 <= nxt -> is_last sc nxt = true -> Forall (fun n => nxt < n) got ->
  bytes_of sc (msg_of sc nxt) (seqZ 0 nxt ++ nxt :: got)
  = bytes_of sc (msg_of sc nxt) (seqZ 0 (nxt + 1)).
Proof.
  intros [Hs _] Hn Hl Hg. rewrite seqZ_snoc by done. rewrite !bytes_of_app. simpl.
  rewrite (bytes_of_none sc _ got); [lia|].
  eapply Forall_impl; [exact Hg|]. intros k Hk. simpl in Hk.
  apply Hs; [lia|done].
Qed.

Lemma sorted_head nxt got :
  StronglySorted Z.lt (nxt :: got) -> Forall (fun n => nxt < n) got /\ StronglySorted Z.lt got.
Proof. inversion 1; subst. done. Qed.

(** The bitmap after the expected chunk is consumed. *)
Lemma shift_bits (p : Pcb.PCB CC) nxt got :
  Pcb.wf p -> (forall i, 0 <= i < 128 ->
    Z.testbit (Pcb.sack p) i = bool_decide (nxt + i ∈ nxt :: got)) ->
  Forall (fun n => n < nxt + 128) got ->
  let p' := Pcb.sack_bitmap_shift_left_one (Pcb.advance_rcv_nxt p) in
  Pcb.wf p' /\ forall i, 0 <= i < 128 ->
    Z.testbit (Pcb.sack p') i = bool_decide (nxt + 1 + i ∈ got).
Proof.
  intros Hwf Hb Hw p'. destruct (Pcb.shift_spec (Pcb.advance_rcv_nxt p)) as [Hwf' Hs]; [done| |].
  { change (Z.testbit (Pcb.sack p) 0 = true). rewrite Hb by lia. apply bool_decide_eq_true.
    rewrite Z.add_0_r. apply elem_of_cons. by left. }
  split; [done|]. intros i Hi. unfold p'. rewrite Hs.
  change (Pcb.sack (Pcb.advance_rcv_nxt p)) with (Pcb.sack p).
  rewrite Z.shiftr_spec by lia. destruct (decide (i + 1 < 128)).
  - rewrite Hb by lia. apply bool_decide_ext. rewrite elem_of_cons.
    replace (nxt + (i + 1)) with (nxt + 1 + i) by lia. split; [|by right].
    intros [?|?]; [lia|done].
  - rewrite Pcb.sack_high by (done || lia). symmetry. apply bool_decide_eq_false.
    intros Hin. apply (proj1 (Forall_forall _ _) Hw) in Hin. lia.
Qed.

Lemma complete_req_ok f heap wk sup nxt got :
  core f heap wk sup nxt (nxt :: got) -> schedule_ok sc -> is_last sc nxt = true ->
  exists u q n, aget (reqs_ f) (rid_of sup (msg_of sc nxt)) = Some (MkReq RECV u n 0) /\
    heap !! u = Some q /\
    complete_req (rid_of sup (msg_of sc nxt)) (MkUpd f heap wk) =
    Done (MkUpd (free_recvreq (rid_of sup (msg_of sc nxt)) f)
            (<[u := MkUreq (context q) (signed 32 n) (erid q)]> heap)
            (wk ++ completion sup nxt)).
Proof.
  intros [] Hok Hlast. pose proof Hok as (_ & Hl & Hm). apply Forall_app in c_got0 as [_ [Hsup _]%Forall_cons].
  destruct (aget_is_Some sup (msg_of sc nxt)) as [[u rid] Hu].
  { split; [apply msg_of_nonneg|done]. }
  destruct (c_active0 _ _ _ (open_ge sc nxt nxt Hok (conj c_pos0 (Z.le_refl _))) Hu) as [Hrid Hreq].
  assert (rid_of sup (msg_of sc nxt) = rid) as Er by (unfold rid_of; by rewrite Hu).
  destruct (c_heap0 _ _ Hreq eq_refl) as (q & Hq & Hc). simpl in Hq.
  exists u, q, (wrap 32 (bytes_of sc (msg_of sc nxt) (seqZ 0 nxt ++ nxt :: got))). rewrite Er.
  split; [done|]. split; [done|]. unfold complete_req, get_recvreq_by_id. simpl.
  rewrite Hreq. simpl. rewrite Hq. do 3 f_equal. unfold completion. rewrite Hlast, c_fid0.
  unfold ureq_of. rewrite Hu. simpl. do 2 f_equal.
  destruct (sorted_head _ _ c_sorted0) as [Hgt _].
  rewrite last_has_all by done. specialize (Hm nxt c_pos0).
  pose proof (bytes_of_nonneg sc (msg_of sc nxt) (seqZ 0 (nxt + 1)) Hl). word_lia.
Qed.

(** After the requests are dealt with, consuming position [nxt] re-establishes
    the invariant one position further. *)
Lemma core_advance f f' heap heap' wk wk' sup nxt got :
  core f heap wk sup nxt (nxt :: got) ->
  fid_ f' = fid_ f -> pcb f' = pcb f -> alen (reqs_ f') = alen (reqs_ f) ->
  (forall m u rid, open sc (nxt + 1) m -> aget sup m = Some (u, rid) ->
     aget (reqs_ f') rid = aget (reqs_ f) rid) ->
  (forall rid r, aget (reqs_ f') rid = Some r -> rtype r = RECV ->
     exists q, heap' !! ureq r = Some q /\ context q = phi) ->
  filter (fun w => wfid w = phi) wk' = completions sup (nxt + 1) ->
  let p := Pcb.advance_rcv_nxt (pcb f') in
  let p := if rc_mode_ cfg then p else Pcb.sack_bitmap_shift_left_one p in
  core (set_pcb p (set_rxtracking (set_ready_csn_ (map (entry sc (rid_of sup)) got)
                                     (rxtracking f')) f'))
    heap' wk' sup (nxt + 1) got.
Proof.
  intros [] Efid Epcb Elen Hact Hheap Hwk. destruct (sorted_head _ _ c_sorted0) as [Hgt Hs].
  apply Forall_cons in c_win0 as [_ Hwin]. pose proof c_got0 as [_ [Hsup _]%Forall_cons]%Forall_app.
  assert (seqZ 0 (nxt + 1) ++ got = seqZ 0 nxt ++ nxt :: got) as Hl.
  { rewrite seqZ_snoc by done. by rewrite <- app_assoc. }
  assert (Forall (fun n => n < nxt + 128) got) as Hlt.
  { eapply Forall_impl; [exact Hwin|]. simpl. lia. }
  simpl. rewrite Epcb. split; simpl; try done.
  - congruence.
  - lia.
  - assert (Csn.add_assign (Pcb.rcv_nxt (pcb f)) 1 = Csn.csn (nxt + 1)) as E
      by (by rewrite c_nxt0, Csn.add_assign_csn).
    destruct (rc_mode_ cfg); exact E.
  - apply Forall_forall. intros n Hn.
    apply (proj1 (Forall_forall _ _) Hgt) in Hn as H1.
    apply (proj1 (Forall_forall _ _) Hlt) in Hn as H2. lia.
  - intros Hrc. rewrite Hrc. by apply (shift_bits (pcb f) nxt got (c_wf0 Hrc) (c_bits0 Hrc)).
  - intros Hrc. rewrite Hrc. by apply (shift_bits (pcb f) nxt got (c_wf0 Hrc) (c_bits0 Hrc)).
  - congruence.
  - intros m u rid Hm Hu. rewrite (Hact m u rid Hm Hu), Hl. apply c_active0; [|done].
    by apply open_S.
  - intros m m' u u' rid Hm Hm'. apply c_rids0; by apply open_S.
  - by rewrite Hl.
Qed.

Lemma filter_completion sup nxt :
  filter (fun w => wfid w = phi) (completion sup nxt) = completion sup nxt.
Proof. unfold completion. destruct (is_last sc nxt); [|done]. by rewrite filter_cons_True. Qed.

Lemma advance_csn_ok f heap wk sup nxt got :
  core f heap wk sup nxt (nxt :: got) -> schedule_ok sc ->
  exists u', advance_csn cfg (entry sc (rid_of sup) nxt).2 (map (entry sc (rid_of sup)) got)
               (MkUpd f heap wk) = Done u' /\
    core (usub u') (uheap u') (uwoken u') sup (nxt + 1) got.
Proof.
  intros Hc Hlen. pose proof Hc as []. apply Forall_app in c_got0 as [_ [Hsup _]%Forall_cons].
  assert (filter (fun w => wfid w = phi) (wk ++ completion sup nxt)
          = completions sup (nxt + 1)) as Hwk.
  { by rewrite filter_app, filter_completion, completions_S, c_woken0. }
  unfold advance_csn, entry. simpl snd.
  destruct (is_last sc nxt) eqn:Hlast.
  - destruct (aget_is_Some sup (msg_of sc nxt)) as [[u rid] Hu].
    { split; [apply msg_of_nonneg|done]. }
    destruct (c_active0 _ _ _ (open_ge sc nxt nxt Hlen (conj c_pos0 (Z.le_refl _))) Hu) as [Hrid Hreq].
    destruct (complete_req_ok _ _ _ _ _ _ Hc Hlen Hlast) as (u' & q & n & Hr & Hq & E).
    assert (rid_of sup (msg_of sc nxt) = rid) as Er by (unfold rid_of; by rewrite Hu).
    rewrite Er in *. destruct (Z.eqb_spec (rid + 1) 0); [lia|].
    replace (rid + 1 - 1) with rid by lia. rewrite E. eexists. split; [done|].
    apply (core_advance f (free_recvreq rid f) heap _ wk _ sup nxt got Hc); try done.
    + cbn. by rewrite alen_aset.
    + intros m v rid' Hm Hv. cbn. rewrite aget_aset_ne; [done|lia| |].
      * apply (c_active0 m v rid'); [by apply open_S|done].
      * intros ->. destruct (open_S sc nxt m c_pos0 Hm) as [Hopen Hne]. apply (Hne Hlast).
        eapply (c_rids0 m _ v u); [done|by apply open_ge|done|done].
    + cbn. intros rid' r Hr' Ht. unfold aget, aset in Hr'.
      apply list_lookup_insert_Some in Hr' as [(_ & <- & _)|[_ Hr']]; [done|].
      destruct (c_heap0 rid' r Hr' Ht) as (q' & Hq' & Hctx).
      destruct (decide (ureq r = u')) as [Eu|]; [|by rewrite lookup_insert_ne; eauto].
      rewrite Eu in Hq' |- *. rewrite lookup_insert_eq. eexists. split; [done|]. simpl. congruence.
  - eexists. split; [done|].
    apply (core_advance f f heap _ wk _ sup nxt got Hc); try done.
    unfold completion in Hwk. rewrite Hlast, app_nil_r in Hwk. done.
Qed.

(** The loop consumes the whole run of ready positions. *)
Lemma update_loop_ok got : forall f heap wk sup nxt,
  core f heap wk sup nxt got -> schedule_ok sc ->
  exists u' nxt' got', update_loop cfg (map (entry sc (rid_of sup)) got) (MkUpd f heap wk) = Done u' /\
    core (usub u') (uheap u') (uwoken u') sup nxt' got' /\
    nxt' ∉ got' /\ nxt <= nxt' /\ seqZ 0 nxt ++ got = seqZ 0 nxt' ++ got'.
Proof.
  induction got as [|n got IH]; intros f heap wk sup nxt Hc Hlen.
  { eexists _, nxt, []. split; [done|]. split; [done|]. split; [apply not_elem_of_nil|]. done. }
  pose proof Hc as []. apply Forall_cons in c_win0 as [Hn Hwin]. cbn [map update_loop].
  destruct (entry sc (rid_of sup) n) as [k p] eqn:En. unfold entry in En.
  injection En as Ek Ep. simpl usub. rewrite c_nxt0, <- Ek.
  destruct (Z.eqb_spec (Csn.csn n) (Csn.csn nxt)) as [E|E].
  - apply Csn.csn_inj in E as ->; [|lia].
    destruct (advance_csn_ok f heap wk sup nxt got Hc Hlen) as (u1 & E1 & Hc1).
    assert ((entry sc (rid_of sup) nxt).2 = p) as Ep' by exact Ep.
    rewrite Ep' in E1. rewrite E1. cbn [mbind result_bind].
    destruct u1 as [f1 h1 w1]. simpl in Hc1.
    destruct (IH f1 h1 w1 sup (nxt + 1) Hc1 Hlen) as (u' & nxt' & got' & E' & Hc' & Hnin & Hle & Hl).
    exists u', nxt', got'. split; [exact E'|]. split; [done|]. split; [done|]. split; [lia|].
    rewrite <- Hl, seqZ_snoc by done. by rewrite <- app_assoc.
  - eexists _, nxt, (n :: got). split; [done|]. split; [done|]. split; [|done].
    intros [->|Hin]%elem_of_cons; [done|].
    destruct (sorted_head _ _ c_sorted0) as [Hgt _].
    apply (proj1 (Forall_forall _ _) Hgt) in Hin. lia.
Qed.

Lemma rid_of_Some sup m u rid : aget sup m = Some (u, rid) -> rid_of sup m = rid.
Proof. intros E. unfold rid_of. by rewrite E. Qed.

(** A chunk's request is found: of a message that is still open, always. *)
Lemma locate_open f heap wk sup nxt got m u rid :
  core f heap wk sup nxt got -> open sc nxt m -> aget sup m = Some (u, rid) ->
  locate rid phi f heap =
    Done (Some (MkReq RECV u (wrap 32 (bytes_of sc m (seqZ 0 nxt ++ got))) 0)).
Proof.
  intros [] Hm Hu. destruct (c_active0 m u rid Hm Hu) as [Hr Hreq].
  unfold locate, get_recvreq_by_id. rewrite Hreq. cbn [mbind result_bind rtype].
  destruct (c_heap0 _ _ Hreq eq_refl) as (q & Hq & Hctx). simpl ureq in *. rewrite Hq, Hctx.
  by rewrite Z.eqb_refl.
Qed.

Lemma locate_total f heap wk sup nxt got rid :
  core f heap wk sup nxt got -> 0 <= rid < kMaxReq ->
  exists o, locate rid phi f heap = Done o.
Proof.
  intros [] Hr. destruct (aget_is_Some (reqs_ f) rid) as [r Hreq]; [lia|].
  unfold locate, get_recvreq_by_id. rewrite Hreq. cbn [mbind result_bind].
  destruct (decide (rtype r = RECV)); [|by eexists].
  destruct (c_heap0 _ _ Hreq ltac:(done)) as (q & -> & _). by eexists.
Qed.

(** Accepting position [n]: the request counts its bytes, the set of ready
    chunks gets it.  [f'] is the flow once its bit is set. *)
Lemma core_insert f f' heap wk sup nxt got n r rid :
  schedule_ok sc -> core f heap wk sup nxt got -> n ∉ got -> nxt <= n < nxt + 128 -> msg_of sc n < alen sup ->
  rid = rid_of sup (msg_of sc n) -> aget (reqs_ f) rid = Some r ->
  fid_ f' = fid_ f -> Pcb.rcv_nxt (pcb f') = Pcb.rcv_nxt (pcb f) ->
  (rc_mode_ cfg = false -> Pcb.wf (pcb f') /\
     Pcb.sack (pcb f') = Z.setbit (Pcb.sack (pcb f)) (n - nxt)) ->
  ready_csn_ (rxtracking f') = ready_insert (entry sc (rid_of sup) n) (ready_csn_ (rxtracking f)) ->
  reqs_ f' = aset (reqs_ f) rid
    (MkReq (rtype r) (ureq r) (received_bytes r +[32] len_of sc n) (fin_msg r)) ->
  core f' heap wk sup nxt (insert_pos n got).
Proof.
  intros Hok [] Hn Hw Hsup -> Hr Efid Enxt Hbit Erdy Ereqs.
  assert (open sc nxt (msg_of sc n)) as Hmm by (apply open_ge; [done|lia]).
  destruct (aget_is_Some sup (msg_of sc n)) as [[u rid] Hu].
  { split; [apply msg_of_nonneg|done]. }
  rewrite (rid_of_Some _ _ _ _ Hu) in *. destruct (c_active0 _ _ _ Hmm Hu) as [Hrid Hreq].
  simplify_eq/=. split; try done; try congruence.
  - by apply insert_pos_sorted.
  - apply Forall_forall. intros k [->|Hk]%elem_of_insert_pos; [done|].
    by apply (proj1 (Forall_forall _ _) c_win0).
  - rewrite Erdy, c_ready0. by apply ready_insert_map with nxt.
  - intros Hrc. by apply Hbit.
  - intros Hrc i Hi. rewrite (proj2 (Hbit Hrc)), Z.setbit_eqb by lia.
    rewrite (c_bits0 Hrc) by lia. apply eq_true_iff_eq. rewrite orb_true_iff.
    rewrite !bool_decide_eq_true, elem_of_insert_pos, Z.eqb_eq.
    split; (intros [?|?]; [left; lia|by right]).
  - rewrite Ereqs, alen_aset. done.
  - intros m v rid' Hm Hv. destruct (c_active0 m v rid' Hm Hv) as [Hr' Hreq'].
    split; [done|]. rewrite bytes_of_app, (bytes_of_Permutation _ _ _ _ (insert_pos_Permutation n got)).
    simpl bytes_of. rewrite Ereqs. destruct (decide (rid' = rid)) as [->|Hne].
    + assert (m = msg_of sc n) as -> by (by eapply c_rids0). simplify_eq.
      rewrite aget_aset_eq by lia. rewrite Z.eqb_refl, wrap_add_l, bytes_of_app.
      do 2 f_equal. f_equal. lia.
    + rewrite aget_aset_ne by lia. destruct (Z.eqb_spec (msg_of sc n) m); [simplify_eq|].
      by rewrite Z.add_0_l, <- bytes_of_app.
  - intros rid' r' Hr' Ht. rewrite Ereqs in Hr'. unfold aget, aset in Hr'.
    apply list_lookup_insert_Some in Hr' as [(_ & <- & _)|[_ Hr']]; [|by eapply c_heap0].
    by apply (c_heap0 rid _ Hr).
  - apply Forall_app in c_got0 as [? Hg]. apply Forall_app_2; [done|].
    rewrite insert_pos_Permutation. by constructor.
Qed.
End inv.

(** ** What a handler of one flow leaves alone *)

Section frame.
Context {CC X P : Type} `{RxHooks CC X} `{PoolOps P} (cfg : config).
Implicit Types (c : rctx CC X P) (f : SubUcclFlow CC) (u : @upd CC).

(** The requests keep the flow they were posted on. *)
Definition same_owner (h h' : gmap Z ucclRequest) : Prop :=
  forall k q, h !! k = Some q -> exists q', h' !! k = Some q' /\ context q' = context q.

#[global] Instance same_owner_preorder : PreOrder same_owner.
Proof.
  split; [by intros h k q Hq; eauto|]. intros h1 h2 h3 H12 H23 k q Hq.
  destruct (H12 k q Hq) as (q' & Hq' & E). destruct (H23 k q' Hq') as (q'' & ? & ?).
  exists q''. split; [done|congruence].
Qed.

Lemma same_owner_insert h k q q' :
  h !! k = Some q -> context q' = context q -> same_owner h (<[k := q']> h).
Proof.
  intros Hk Hc j x Hj. destruct (decide (j = k)) as [->|].
  - rewrite lookup_insert_eq. exists q'. split; [done|congruence].
  - rewrite lookup_insert_ne by done. eauto.
Qed.

(** The wake-ups of [wk'] beyond [wk] are those of flow [psi]. *)
Definition wakes_only (psi : Z) (wk wk' : list wake) : Prop :=
  exists l, wk' = wk ++ l /\ Forall (fun w => wfid w = psi) l.

#[global] Instance wakes_only_preorder psi : PreOrder (wakes_only psi).
Proof.
  split; [intros wk; exists []; by rewrite app_nil_r|].
  intros w1 w2 w3 (l & -> & Hl) (l' & -> & Hl').
  exists (l ++ l'). rewrite app_assoc. split; [done|by apply Forall_app_2].
Qed.

Record upd_frame u u' : Prop := {
  uf_fid : fid_ (usub u') = fid_ (usub u);
  uf_heap : same_owner (uheap u) (uheap u');
  uf_woken : wakes_only (fid_ (usub u)) (uwoken u) (uwoken u');
}.

#[global] Instance upd_frame_preorder : PreOrder upd_frame.
Proof.
  split; [by intros u; split|]. intros u1 u2 u3 [E1 H1 W1] [E2 H2 W2].
  split; [congruence|by etrans|]. rewrite E1 in W2. by etrans.
Qed.

Lemma advance_csn_frame req ready u u' :
  advance_csn cfg req ready u = Done u' -> upd_frame u u'.
Proof.
  unfold advance_csn. destruct (req =? 0); cbn; [by intros [=<-]|].
  unfold complete_req, get_recvreq_by_id. destruct (aget _ _) as [r|]; [|done]. cbn.
  destruct (uheap u !! ureq r) as [q|] eqn:Hq; [|done]. cbn. intros [=<-]. split; cbn; [done| |].
  - by apply same_owner_insert with q.
  - eexists. split; [done|]. by constructor.
Qed.

Lemma update_loop_frame ready : forall u u',
  update_loop cfg ready u = Done u' -> upd_frame u u'.
Proof.
  induction ready as [|[k req] ready IH]; intros u u'; cbn [update_loop]; [by intros [=<-]|].
  case_match; [|by intros [=<-]].
  destruct (advance_csn cfg req ready u) as [u1|] eqn:E; [|done]. cbn [mbind result_bind].
  intros E'. etrans; [by eapply advance_csn_frame|by apply IH].
Qed.

Record frame (psi : Z) c c' : Prop := {
  fr_tbl : forall chi, chi <> psi -> receiver_flow_tbl_ c' !! chi = receiver_flow_tbl_ c !! chi;
  fr_fid : (forall f, receiver_flow_tbl_ c !! psi = Some f -> fid_ f = psi) ->
    forall f, receiver_flow_tbl_ c' !! psi = Some f -> fid_ f = psi;
  fr_heap : same_owner (ureqs c) (ureqs c');
  fr_woken : (forall f, receiver_flow_tbl_ c !! psi = Some f -> fid_ f = psi) ->
    wakes_only psi (woken c) (woken c');
  fr_batch : Io.batch_ok (io_ctx_ c) -> Io.batch_ok (io_ctx_ c');
}.

#[global] Instance frame_preorder psi : PreOrder (frame psi).
Proof.
  split; [by intros c; split|]. intros c1 c2 c3 [T1 F1 H1 W1 B1] [T2 F2 H2 W2 B2].
  split; [|by eauto|by etrans| |by auto].
  - intros chi Hne. by rewrite T2, T1.
  - intros Hf. etrans; [by apply W1|]. by apply W2, F1.
Qed.

Lemma same_io_frame psi c c' :
  receiver_flow_tbl_ c' = receiver_flow_tbl_ c -> ureqs c' = ureqs c -> woken c' = woken c ->
  (Io.batch_ok (io_ctx_ c) -> Io.batch_ok (io_ctx_ c')) -> frame psi c c'.
Proof. intros E1 E2 E3 E4. split; rewrite ?E1, ?E2, ?E3; done. Qed.

(** Replacing the flow by one with the same identifier. *)
Lemma put_flow_frame psi f f' c :
  receiver_flow_tbl_ c !! psi = Some f -> fid_ f' = fid_ f -> frame psi c (put_flow psi f' c).
Proof.
  intros Hf E. split; simpl; try done.
  - intros chi Hne. by rewrite lookup_insert_ne.
  - intros Hfid g. rewrite lookup_insert_eq. intros [=<-]. rewrite E. by apply Hfid.
Qed.

Lemma get_flow_Done psi c f : get_flow psi c = Done f -> receiver_flow_tbl_ c !! psi = Some f.
Proof. unfold get_flow. by destruct (_ !! _); intros [=<-]. Qed.

Lemma accept_chunk_frame psi rid csn len last r f f0 c c' :
  receiver_flow_tbl_ c !! psi = Some f0 -> fid_ f = fid_ f0 ->
  accept_chunk cfg psi rid csn len last r f c = Done c' -> frame psi c c'.
Proof.
  intros Hf Ef. unfold accept_chunk. unfold try_update_csn.
  match goal with |- context [update_loop cfg ?l ?u] =>
    destruct (update_loop cfg l u) as [u'|] eqn:E; [|done] end.
  cbn. intros [=<-]. apply update_loop_frame in E as [E1 E2 E3]. cbn in *.
  split; simpl; try done.
  - intros chi Hne. by rewrite lookup_insert_ne.
  - intros Hfid g. rewrite lookup_insert_eq. intros [=<-]. rewrite E1, Ef. by apply Hfid.
  - intros Hfid. rewrite Ef, (Hfid _ Hf) in E3. done.
Qed.

Lemma run_hook_frame hook psi c c' : run_hook hook psi c = Done c' -> frame psi c c'.
Proof.
  unfold run_hook. destruct (get_flow psi c) as [f|] eqn:E; [|done]. cbn.
  destruct (hook _ _) as [cc' x']. intros [=<-]. apply get_flow_Done in E.
  etrans; [exact (put_flow_frame psi f (set_cc_state cc' f) c E eq_refl)|by apply same_io_frame].
Qed.

Lemma add_pending_ack_frame psi chi c : frame psi c (add_pending_ack chi c).
Proof. unfold add_pending_ack. case_match; [done|]. by apply same_io_frame. Qed.

Lemma uc_ack_chunk_frame t4 psi qpidx d len c c' :
  uc_ack_chunk cfg t4 psi qpidx d len c = Done c' -> frame psi c c'.
Proof.
  unfold uc_ack_chunk. destruct (get_flow psi c) as [f|] eqn:E; [|done]. cbn [mbind result_bind].
  apply get_flow_Done in E.
  set (t := cumulate_bytes _ _). set (f1 := set_next_ack_path_ _ _).
  assert (frame psi c (add_pending_ack psi (put_flow psi f1 c))) as F1.
  { etrans; [by apply (put_flow_frame psi f f1)|apply add_pending_ack_frame]. }
  destruct (need_imm_ack _ _); [|by intros [=<-]].
  set (c1 := add_pending_ack _ _) in *. unfold Io.pop_ctrl_chunk.
  destruct (pl_alloc _) as [[a|] p]; [|done]. cbn [mbind result_bind].
  match goal with |- context [Io.try_post_acks ?n ?a ?b ?s] =>
    destruct (Io.try_post_acks n a b s) as [s'|] eqn:Es; [|done] end.
  cbn [mbind result_bind]. intros [=<-]. pose proof (Io.try_post_acks_batch _ _ _ _ _ Es) as Hb.
  assert (receiver_flow_tbl_ c1 !! psi = Some f1) as Hf1.
  { unfold c1, add_pending_ack. case_match; simpl; by rewrite lookup_insert_eq. }
  etrans; [exact F1|]. etrans; [by apply (same_io_frame psi c1 (set_io_ctx_ s' c1))|].
  etrans; [by apply (put_flow_frame psi f1 (set_rxtracking (clear_imm_ack t) f1))|].
  by apply same_io_frame.
Qed.

Lemma uc_rx_chunk_frame ts t4 e c c' :
  uc_rx_chunk cfg ts t4 e c = Done c' -> frame (Imm.GetFID (cimm e)) c c'.
Proof.
  unfold uc_rx_chunk. set (psi := Imm.GetFID _).
  destruct (get_flow psi c) as [f|] eqn:E; [|done]. cbn [mbind result_bind].
  apply get_flow_Done in E. destruct (locate _ _ _ _) as [[r|]|]; [| |done]; cycle 1.
  { intros [=<-]. by apply (put_flow_frame psi f). }
  cbn [mbind result_bind]. case_match; [intros [=<-]; by apply (put_flow_frame psi f)|].
  case_match; [intros [=<-]; by apply (put_flow_frame psi f)|].
  destruct (Pcb.sack_bitmap_bit_is_set _ _) as [b|]; [|done]. cbn [mbind result_bind].
  destruct (check _); [|done]. cbn [mbind result_bind].
  destruct (Pcb.sack_bitmap_bit_set _ _) as [p|]; [|done]. cbn [mbind result_bind].
  destruct (accept_chunk _ _ _ _ _ _ _ _ _) as [c1|] eqn:E1; [|done]. cbn [mbind result_bind].
  destruct (uc_ack_chunk _ _ _ _ _ _ _) as [c2|] eqn:E2; [|done]. cbn [mbind result_bind].
  intros E3. etrans; [by eapply (accept_chunk_frame psi _ _ _ _ _ (set_pcb p f) f)|].
  etrans; [by eapply uc_ack_chunk_frame|by eapply run_hook_frame].
Qed.

Lemma uc_rx_rtx_chunk_frame e a h c c' :
  uc_rx_rtx_chunk cfg e a h c = Done c' -> frame (Imm.GetFID (rimm h)) c c'.
Proof.
  unfold uc_rx_rtx_chunk. set (psi := Imm.GetFID _).
  destruct (get_flow psi c) as [f|] eqn:E; [|done]. cbn [mbind result_bind].
  apply get_flow_Done in E. destruct (locate _ _ _ _) as [[r|]|]; [| |done]; cycle 1.
  { intros [=<-]. by apply (put_flow_frame psi f). }
  cbn [mbind result_bind]. case_match; [intros [=<-]; by apply (put_flow_frame psi f)|].
  case_match; [intros [=<-]; by apply (put_flow_frame psi f)|].
  destruct (Pcb.sack_bitmap_bit_is_set _ _) as [[|]|]; [| |done].
  { intros [=<-]. by apply (put_flow_frame psi f). }
  cbn [mbind result_bind]. set (c0 := set_copies _ _).
  destruct (Pcb.sack_bitmap_bit_set _ _) as [p|]; [|done]. cbn [mbind result_bind].
  destruct (accept_chunk _ _ _ _ _ _ _ _ _) as [c1|] eqn:E1; [|done]. cbn [mbind result_bind].
  destruct (get_flow psi _) as [f1|] eqn:E2; [|done]. cbn [mbind result_bind].
  apply get_flow_Done in E2. intros E3.
  etrans; [by apply (same_io_frame psi c c0)|].
  etrans; [by eapply (accept_chunk_frame psi _ _ _ _ _ (set_pcb p f) f)|].
  etrans; [by apply (add_pending_ack_frame psi psi)|].
  etrans; [by apply (put_flow_frame psi f1 (set_next_ack_path_ (2 ^ 16 - 1) f1))|].
  by eapply run_hook_frame.
Qed.

Lemma rc_rx_chunk_frame e c c' :
  rc_rx_chunk cfg e c = Done c' -> frame (Imm.GetFID (cimm e)) c c'.
Proof.
  unfold rc_rx_chunk. set (psi := Imm.GetFID _).
  destruct (get_flow psi c) as [f|] eqn:E; [|done]. cbn [mbind result_bind].
  apply get_flow_Done in E. destruct (locate _ _ _ _) as [[r|]|]; [| done|done].
  cbn [mbind result_bind].
  destruct (accept_chunk _ _ _ _ _ _ _ _ _) as [c1|] eqn:E1; [|done]. cbn [mbind result_bind].
  intros E3. etrans; [by eapply (accept_chunk_frame psi _ _ _ _ _ f f)|by eapply run_hook_frame].
Qed.

Lemma supply_rx_buff_frame k q c o c' :
  supply_rx_buff k c = Done (o, c') -> ureqs c !! k = Some q -> frame (context q) c c'.
Proof.
  unfold supply_rx_buff. intros E Hq. rewrite Hq in E.
  destruct (get_flow (context q) c) as [f|] eqn:Ef; [|done]. cbn [mbind result_bind] in E.
  apply get_flow_Done in Ef. destruct (alloc_recvreq f) as [rid|]; [|by injection E as _ <-].
  injection E as _ <-. destruct (put_flow_frame (context q) f
    (put_recvreq rid (MkReq RECV k 0 0) f) c Ef eq_refl) as [].
  split; simpl in *; try done. by apply same_owner_insert with q.
Qed.

Lemma craft_acks_io t4 a l : forall n c n' c',
  craft_acks cfg t4 a l n c = Done (n', c') ->
  receiver_flow_tbl_ c' = receiver_flow_tbl_ c /\ ureqs c' = ureqs c /\ woken c' = woken c /\
  (Io.batch_ok (io_ctx_ c) -> Io.batch_ok (io_ctx_ c')).
Proof.
  induction l as [|psi l IH]; intros n c n' c'; cbn [craft_acks]; [by intros [=<- <-]|].
  destruct (get_flow psi c) as [f|]; [|done]. cbn [mbind result_bind]. intros E.
  destruct (IH _ _ _ _ E) as (? & ? & ? & Hb). done.
Qed.

Lemma uc_post_acks_frame t4 psi c c' : uc_post_acks cfg t4 c = Done c' -> frame psi c c'.
Proof.
  unfold uc_post_acks, Io.pop_ctrl_chunk. destruct (pl_alloc _) as [[a|] p]; [|done].
  cbn [mbind result_bind]. destruct (craft_acks _ _ _ _ _ _) as [[n c1]|] eqn:E1; [|done].
  cbn [mbind result_bind]. apply craft_acks_io in E1 as (E2 & E3 & E4 & Hb).
  destruct (Io.try_post_acks _ _ _ _) as [s|] eqn:E5; [|done]. cbn [mbind result_bind].
  intros [=<-]. apply same_io_frame; simpl; [done..|]. intros Hok.
  assert (Io.batch_ok s) as Hs by (eapply Io.try_post_acks_batch; [exact E5|]; by apply Hb).
  by destruct (n =? 0).
Qed.
End frame.

(** ** Handlers on their own flow *)

Section handlers.
Context {CC X P : Type} `{RxHooks CC X} `{PoolOps P}.
Context (cfg : config) (sc : schedule) (phi : Z).
Implicit Types (c : rctx CC X P) (f : SubUcclFlow CC).

(** What the network and the application did for the flow so far. *)
Record ghost := MkGhost { arrived : gset Z; supplied : list (Z * Z) }.

Record inv c (g : ghost) (nxt : Z) (got : list Z) : Prop := {
  i_flow : exists f, receiver_flow_tbl_ c !! phi = Some f /\
    core cfg sc phi f (ureqs c) (woken c) (supplied g) nxt got;
  i_next : nxt ∉ got;
  i_arrived : forall n, n ∈ arrived g <-> 0 <= n < nxt \/ n ∈ got;
  i_fids : forall psi f, receiver_flow_tbl_ c !! psi = Some f -> fid_ f = psi;
  i_batch : Io.batch_ok (io_ctx_ c);
}.

(** The first position that is missing. *)
Definition first_missing (s : gset Z) (n : Z) : Prop :=
  0 <= n /\ n ∉ s /\ forall k, 0 <= k < n -> k ∈ s.

Lemma inv_first c g nxt got : inv c g nxt got -> first_missing (arrived g) nxt.
Proof.
  intros [(f & Hf & Hc) Hn Ha _ _]. split; [apply Hc|]. split.
  - rewrite Ha. intros [?|?]; [lia|done].
  - intros k Hk. rewrite Ha. by left.
Qed.

Lemma first_missing_unique s n m : first_missing s n -> first_missing s m -> n = m.
Proof.
  intros (H1 & H2 & H3) (H4 & H5 & H6). destruct (Z.lt_total n m) as [|[|]]; [|done|].
  - destruct H2. apply H6. lia.
  - destruct H5. apply H3. lia.
Qed.

Lemma wakes_other psi wk wk' :
  psi <> phi -> wakes_only psi wk wk' ->
  filter (fun w => wfid w = phi) wk' = filter (fun w => wfid w = phi) wk.
Proof.
  intros Hne (l & -> & Hl). rewrite filter_app.
  assert (filter (fun w => wfid w = phi) l = []) as ->; [|by rewrite app_nil_r].
  induction Hl as [|w l Hw Hl IH]; [done|]. rewrite filter_cons_False; [done|congruence].
Qed.

Lemma core_heap f heap heap' wk sup nxt got :
  core cfg sc phi f heap wk sup nxt got -> same_owner heap heap' ->
  core cfg sc phi f heap' wk sup nxt got.
Proof.
  intros [] Ho. split; try done. intros rid r Hr Ht.
  destruct (c_heap0 rid r Hr Ht) as (q & Hq & Hctx).
  destruct (Ho _ _ Hq) as (q' & ? & ?). exists q'. split; [done|congruence].
Qed.

(** A handler of another flow changes nothing of this one. *)
Lemma inv_frame psi c c' g nxt got :
  inv c g nxt got -> frame psi c c' -> psi <> phi -> inv c' g nxt got.
Proof.
  intros [(f & Hf & Hc) Hn Ha Hfid Hb] [T F Ho W B] Hne. split; try done; [| |by apply B].
  - exists f. rewrite T by done. split; [done|]. eapply core_heap in Hc; [|exact Ho].
    destruct Hc. split; try done. rewrite <- c_woken0. apply (wakes_other psi); [done|].
    apply W. intros f' Hf'. by apply Hfid.
  - intros chi f' Hf'. destruct (decide (chi = psi)) as [->|].
    + eapply F; [|done]. intros f'' Hf''. by apply Hfid.
    + rewrite T in Hf' by done. by apply Hfid.
Qed.

Definition own c sup nxt got : Prop :=
  exists f, receiver_flow_tbl_ c !! phi = Some f /\
    core cfg sc phi f (ureqs c) (woken c) sup nxt got.

(** Changes of the flow that the invariant does not see. *)
Lemma own_put f f' c sup nxt got :
  receiver_flow_tbl_ c !! phi = Some f -> own c sup nxt got ->
  fid_ f' = fid_ f -> Pcb.rcv_nxt (pcb f') = Pcb.rcv_nxt (pcb f) ->
  Pcb.sack_bitmap (pcb f') = Pcb.sack_bitmap (pcb f) ->
  Pcb.sack_bitmap_count (pcb f') = Pcb.sack_bitmap_count (pcb f) ->
  ready_csn_ (rxtracking f') = ready_csn_ (rxtracking f) -> reqs_ f' = reqs_ f ->
  own (put_flow phi f' c) sup nxt got.
Proof.
  intros Hf (f0 & Hf0 & Hc) ? ? ? ? ? ?. simplify_eq. exists f'. simpl.
  rewrite lookup_insert_eq. split; [done|]. by eapply core_ext.
Qed.

Lemma own_ext c c' sup nxt got :
  own c sup nxt got -> receiver_flow_tbl_ c' = receiver_flow_tbl_ c ->
  ureqs c' = ureqs c -> woken c' = woken c -> own c' sup nxt got.
Proof. intros (f & Hf & Hc) E1 E2 E3. exists f. by rewrite E1, E2, E3. Qed.

Lemma run_hook_own hook c sup nxt got :
  own c sup nxt got -> exists c', run_hook hook phi c = Done c' /\ own c' sup nxt got.
Proof.
  intros Ho. pose proof Ho as (f & Hf & Hc). unfold run_hook, get_flow. rewrite Hf.
  cbn [mbind result_bind]. destruct (hook _ _) as [cc' x']. eexists. split; [done|].
  eapply own_ext; [by apply (own_put f (set_cc_state cc' f) c)|done..].
Qed.

Lemma add_pending_ack_own psi c sup nxt got :
  own c sup nxt got -> own (add_pending_ack psi c) sup nxt got.
Proof. intros Ho. unfold add_pending_ack. case_match; [done|]. by eapply own_ext. Qed.

Lemma encounter_ooo_ready t : ready_csn_ (encounter_ooo t) = ready_csn_ t.
Proof. unfold encounter_ooo. by case_match. Qed.

Definition can_ack c : Prop := Io.has_ctrl (io_ctx_ c) /\ Io.has_desc (io_ctx_ c).

Lemma uc_ack_chunk_own t4 qpidx d len c sup nxt got :
  own c sup nxt got -> Io.batch_ok (io_ctx_ c) ->
  (forall c', uc_ack_chunk cfg t4 phi qpidx d len c = Done c' -> own c' sup nxt got) /\
  (can_ack c -> exists c', uc_ack_chunk cfg t4 phi qpidx d len c = Done c').
Proof.
  intros Ho Hb. pose proof Ho as (f & Hf & Hc). unfold uc_ack_chunk, get_flow. rewrite Hf.
  cbn [mbind result_bind]. set (t := cumulate_bytes _ _). set (f1 := set_next_ack_path_ _ _).
  assert (ready_csn_ t = ready_csn_ (rxtracking f)) as Ht.
  { unfold t. simpl. case_match; [done|]. apply encounter_ooo_ready. }
  assert (own (put_flow phi f1 c) sup nxt got) as Ho1 by (by apply (own_put f f1 c)).
  apply (add_pending_ack_own phi) in Ho1. set (c1 := add_pending_ack _ _) in *.
  assert (receiver_flow_tbl_ c1 !! phi = Some f1) as Hf1.
  { unfold c1, add_pending_ack. case_match; simpl; by rewrite lookup_insert_eq. }
  assert (io_ctx_ c1 = io_ctx_ c) as Eio by (unfold c1, add_pending_ack; by case_match).
  destruct (need_imm_ack _ _); [|split; [by intros ? [=<-]|by eexists]].
  rewrite Eio. unfold Io.pop_ctrl_chunk. unfold can_ack, Io.has_ctrl.
  destruct (pl_alloc _) as [[a|] p]; [|by split; [|intros [[? [=]] _]]].
  cbn [mbind result_bind]. set (s := craft_ack _ _ _ _ _ _). split.
  - intros c'. destruct (Io.try_post_acks _ _ _ _) as [s'|] eqn:Es; [|done].
    cbn [mbind result_bind]. intros [=<-].
    eapply own_ext; [apply (own_put f1 (set_rxtracking (clear_imm_ack t) f1) (set_io_ctx_ s' c1));
      [done|by eapply own_ext|done..]|done..].
  - intros [_ Hd]. destruct (Io.try_post_acks_done 1 a true s) as [s' ->]; [done|done|].
    by eexists.
Qed.

Lemma of_uint32_idemp n : Csn.of_uint32 (Csn.csn n) = Csn.csn n.
Proof. rewrite Csn.of_uint32_csn. apply Csn.csn_small, Csn.csn_range. Qed.

(** Accepting a new chunk of the window always succeeds and advances the
    in-order prefix as far as it can. *)
Lemma accept_chunk_ok f f0 c sup nxt got n r :
  receiver_flow_tbl_ c !! phi = Some f0 ->
  core cfg sc phi f0 (ureqs c) (woken c) sup nxt got -> schedule_ok sc ->
  n ∉ got -> nxt <= n < nxt + 128 -> msg_of sc n < alen sup ->
  aget (reqs_ f0) (rid_of sup (msg_of sc n)) = Some r ->
  fid_ f = fid_ f0 -> Pcb.rcv_nxt (pcb f) = Pcb.rcv_nxt (pcb f0) ->
  (rc_mode_ cfg = false -> Pcb.wf (pcb f) /\
     Pcb.sack (pcb f) = Z.setbit (Pcb.sack (pcb f0)) (n - nxt)) ->
  rxtracking f = rxtracking f0 -> reqs_ f = reqs_ f0 ->
  exists c' nxt' got',
    accept_chunk cfg phi (rid_of sup (msg_of sc n)) (Csn.csn n) (len_of sc n)
      (if is_last sc n then 1 else 0) r f c = Done c' /\
    own c' sup nxt' got' /\ nxt' ∉ got' /\
    seqZ 0 nxt ++ insert_pos n got = seqZ 0 nxt' ++ got' /\ io_ctx_ c' = io_ctx_ c.
Proof.
  intros Hf Hc Hlen Hn Hw Hsup Hr Efid Enxt Hbit Erx Ereqs. unfold accept_chunk.
  set (f1 := set_rxtracking _ _).
  assert (core cfg sc phi f1 (ureqs c) (woken c) sup nxt (insert_pos n got)) as Hc1.
  { apply (core_insert cfg sc phi f0 f1 _ _ _ _ _ n r (rid_of sup (msg_of sc n)));
      try done; simpl; rewrite ?Erx, ?Ereqs; [|done].
    rewrite of_uint32_idemp. unfold entry. by destruct (is_last sc n). }
  destruct (update_loop_ok cfg sc phi _ _ _ _ _ _ Hc1 Hlen)
    as (u & nxt' & got' & E & Hc' & Hn' & _ & Hl).
  unfold try_update_csn. cbn [usub]. rewrite (c_ready _ _ _ _ _ _ _ _ _ Hc1), E.
  cbn [mbind result_bind]. eexists _, nxt', got'. split; [done|]. split; [|done].
  exists (usub u). simpl. rewrite lookup_insert_eq. done.
Qed.

(** ** Arrivals *)

Definition arrive (n : Z) (g : ghost) : ghost := MkGhost ({[n]} ∪ arrived g) (supplied g).

(** The immediate of the chunk at position [n]. *)
Definition carries (g : ghost) (imm n : Z) : Prop :=
  Imm.GetFID imm = phi /\ Imm.GetCSN imm = Csn.csn n /\
  Imm.GetRID imm = rid_of (supplied g) (msg_of sc n) /\
  Imm.GetHINT imm = (if is_last sc n then 1 else 0).

(** The sender keeps within half the sequence space of the first missing chunk
    and only sends to buffers it was given. *)
Definition in_window (g : ghost) (n : Z) : Prop :=
  0 <= n /\ msg_of sc n < alen (supplied g) /\
  exists m, first_missing (arrived g) m /\ m - 128 <= n < m + 128.

Lemma GetRID_range imm : 0 <= Imm.GetRID imm < kMaxReq.
Proof.
  unfold Imm.GetRID, kMaxReq. change 0xF with (2 ^ 4 - 1). rewrite land_mask by lia. word_lia.
Qed.

Lemma frame_fids psi c c' :
  frame psi c c' -> (forall chi f, receiver_flow_tbl_ c !! chi = Some f -> fid_ f = chi) ->
  forall chi f, receiver_flow_tbl_ c' !! chi = Some f -> fid_ f = chi.
Proof.
  intros [T F _ _ _] Hfid chi f Hf. destruct (decide (chi = psi)) as [->|].
  - eapply F; [|done]. intros f' Hf'. by apply Hfid.
  - rewrite T in Hf by done. by apply Hfid.
Qed.

Lemma inv_new c c' g nxt got n nxt' got' :
  inv c g nxt got -> frame phi c c' -> nxt <= n -> own c' (supplied g) nxt' got' ->
  nxt' ∉ got' -> seqZ 0 nxt ++ insert_pos n got = seqZ 0 nxt' ++ got' ->
  inv c' (arrive n g) nxt' got'.
Proof.
  intros [Hf Hn Ha Hfid Hb] Hfr Hle Hown Hn' Hl. split; [done|done| |by eapply frame_fids|].
  - intros k. simpl. rewrite elem_of_union, elem_of_singleton, Ha.
    assert (k ∈ seqZ 0 nxt ++ insert_pos n got <-> k ∈ seqZ 0 nxt' ++ got') as He by (by rewrite Hl).
    rewrite !elem_of_app, !elem_of_seqZ, elem_of_insert_pos in He.
    split; [|tauto]. intros [->|[?|?]]; apply He; [right; by left|left; lia|right; by right].
  - by apply (fr_batch _ _ _ Hfr).
Qed.

Lemma inv_old c c' g nxt got n :
  inv c g nxt got -> frame phi c c' -> n ∈ arrived g -> own c' (supplied g) nxt got ->
  inv c' (arrive n g) nxt got.
Proof.
  intros [Hf Hn Ha Hfid Hb] Hfr Hin Hown. split; [done|done| |by eapply frame_fids|].
  - intros k. simpl. rewrite elem_of_union, elem_of_singleton, <- Ha.
    split; [by intros [->|?]|by right].
  - by apply (fr_batch _ _ _ Hfr).
Qed.

(** The tests on a chunk whose request is found: behind, or new. *)
Lemma window_tests f heap wk sup nxt got n :
  core cfg sc phi f heap wk sup nxt got -> nxt - 128 <= n < nxt + 128 ->
  Csn.seqno_lt (Csn.of_uint32 (Csn.csn n)) (Pcb.rcv_nxt (pcb f)) = (n <? nxt) /\
  (nxt <= n -> Csn.sub (Csn.of_uint32 (Csn.csn n)) (Pcb.rcv_nxt (pcb f)) = n - nxt).
Proof.
  intros Hc Hw. rewrite of_uint32_idemp, (c_nxt _ _ _ _ _ _ _ _ _ Hc).
  split; [by apply Csn.seqno_lt_csn; lia|]. intros. apply Csn.sub_csn_exact. lia.
Qed.

Lemma chunk_bit f heap wk sup nxt got n :
  core cfg sc phi f heap wk sup nxt got -> rc_mode_ cfg = false -> nxt <= n < nxt + 128 ->
  Pcb.sack_bitmap_bit_is_set (n - nxt) (pcb f) = Done (bool_decide (n ∈ got)).
Proof.
  intros [] Hrc Hw. rewrite Pcb.bit_is_set_spec by (auto || lia).
  rewrite c_bits0 by (done || lia). do 2 f_equal. apply bool_decide_ext.
  by replace (nxt + (n - nxt)) with n by lia.
Qed.

(** The control block once the bit of a new position is set. *)
Lemma set_new_bit f heap wk sup nxt got n (p0 : Pcb.PCB CC) :
  core cfg sc phi f heap wk sup nxt got -> rc_mode_ cfg = false ->
  n ∉ got -> nxt <= n < nxt + 128 ->
  Pcb.sack_bitmap p0 = Pcb.sack_bitmap (pcb f) ->
  Pcb.sack_bitmap_count p0 = Pcb.sack_bitmap_count (pcb f) ->
  exists p, Pcb.sack_bitmap_bit_set (n - nxt) p0 = Done p /\ Pcb.wf p /\
    Pcb.sack p = Z.setbit (Pcb.sack (pcb f)) (n - nxt) /\ Pcb.rcv_nxt p = Pcb.rcv_nxt p0.
Proof.
  intros [] Hrc Hng Hw Ebm Ecnt.
  assert (Pcb.sack p0 = Pcb.sack (pcb f)) as Es by (unfold Pcb.sack; by rewrite Ebm).
  destruct (Pcb.bit_set_spec p0 (n - nxt)) as (bm & cnt & E & Hwf & Hj).
  - destruct (c_wf0 Hrc) as (?&?&?). unfold Pcb.wf. by rewrite Es, Ebm, Ecnt.
  - lia.
  - rewrite Es, (c_bits0 Hrc) by lia. replace (nxt + (n - nxt)) with n by lia.
    by apply bool_decide_eq_false.
  - eexists. split; [exact E|]. rewrite <- Es. done.
Qed.

(** Everything a handler computes for a new chunk, up to its acceptance. *)
Lemma new_chunk f c sup nxt got n :
  receiver_flow_tbl_ c !! phi = Some f ->
  core cfg sc phi f (ureqs c) (woken c) sup nxt got -> schedule_ok sc ->
  n ∉ got -> nxt <= n < nxt + 128 -> msg_of sc n < alen sup ->
  exists r, locate (rid_of sup (msg_of sc n)) phi f (ureqs c) = Done (Some r) /\
    forall f', fid_ f' = fid_ f -> Pcb.rcv_nxt (pcb f') = Pcb.rcv_nxt (pcb f) ->
      (rc_mode_ cfg = false -> Pcb.wf (pcb f') /\
         Pcb.sack (pcb f') = Z.setbit (Pcb.sack (pcb f)) (n - nxt)) ->
      rxtracking f' = rxtracking f -> reqs_ f' = reqs_ f ->
    exists c1 nxt' got', accept_chunk cfg phi (rid_of sup (msg_of sc n)) (Csn.csn n)
        (len_of sc n) (if is_last sc n then 1 else 0) r f' c = Done c1 /\
      own c1 sup nxt' got' /\ nxt' ∉ got' /\
      seqZ 0 nxt ++ insert_pos n got = seqZ 0 nxt' ++ got' /\ io_ctx_ c1 = io_ctx_ c.
Proof.
  intros Hf Hc Hlen Hng Hw Hsup.
  assert (open sc nxt (msg_of sc n)) as Hmm.
  { apply open_ge; [done|]. split; [|lia]. apply Hc. }
  destruct (aget_is_Some sup (msg_of sc n)) as [[u rid] Hu].
  { split; [apply msg_of_nonneg|done]. }
  pose proof (rid_of_Some _ _ _ _ Hu) as Er.
  destruct (c_active _ _ _ _ _ _ _ _ _ Hc _ _ _ Hmm Hu) as [_ Hreq].
  eexists. rewrite Er. split; [by eapply locate_open|]. rewrite <- Er in *.
  intros f' ? ? ? ? ?. by apply (accept_chunk_ok f' f).
Qed.

(** A chunk behind the first missing one is dropped, and nothing changes. *)
Lemma stale_request f c sup nxt got imm :
  core cfg sc phi f (ureqs c) (woken c) sup nxt got ->
  exists o, locate (Imm.GetRID imm) phi f (ureqs c) = Done o.
Proof. intros Hc. eapply locate_total; [done|apply GetRID_range]. Qed.

Lemma uc_rx_chunk_ok c g nxt got ts t4 e n :
  inv c g nxt got -> rc_mode_ cfg = false -> schedule_ok sc ->
  carries g (cimm e) n -> byte_len e = len_of sc n -> in_window g n ->
  n < nxt \/ n ∉ arrived g ->
  (forall c', uc_rx_chunk cfg ts t4 e c = Done c' ->
     exists nxt' got', inv c' (arrive n g) nxt' got') /\
  (can_ack c -> exists c', uc_rx_chunk cfg ts t4 e c = Done c').
Proof.
  intros Hi Hrc Hlen (Efid & Ecsn & Erid & Ehint) Eb (Hn0 & Hsup & m & Hm & Hw) Hnew.
  assert (m = nxt) as -> by (by eapply first_missing_unique; [|eapply inv_first]).
  pose proof (uc_rx_chunk_frame cfg ts t4 e c) as Hfr. rewrite Efid in Hfr. revert Hfr.
  pose proof Hi as [(f & Hf & Hc) Hnn Ha _ Hb].
  destruct (stale_request f c _ _ _ (cimm e) Hc) as [o Eo].
  unfold uc_rx_chunk. rewrite Efid, Ecsn, Ehint, Eb. unfold get_flow.
  rewrite Hf. cbn [mbind result_bind]. rewrite Eo. cbn [mbind result_bind].
  destruct (window_tests f _ _ _ _ _ n Hc Hw) as [-> Hsub].
  destruct (Z.ltb_spec n nxt) as [Hlt|Hge].
  { assert (own (drop_chunk phi f c) (supplied g) nxt got) as Hown
      by (apply (own_put f); try done; by exists f).
    intros Hfr. assert (n ∈ arrived g) as Hin by (apply Ha; left; lia).
    destruct o as [r|]; (split; [intros c' [=<-]; exists nxt, got|by eexists]);
      apply (inv_old c); try done; by apply Hfr. }
  destruct Hnew as [?|Hnew]; [lia|].
  assert (n ∉ got) as Hng by (intros ?; apply Hnew, Ha; by right).
  destruct (new_chunk f c _ nxt got n Hf Hc Hlen Hng ltac:(lia) Hsup) as (r & El & Hacc).
  rewrite <- Erid, Eo in El. injection El as ->.
  rewrite (Hsub Hge). unfold kReassemblyMaxSeqnoDistance, Pcb.kSackBitmapSize.
  destruct (Z.ltb_spec 128 (n - nxt)); [lia|].
  rewrite (chunk_bit _ _ _ _ _ _ _ Hc Hrc), (bool_decide_eq_false_2 _ Hng) by lia.
  cbn [mbind result_bind negb check].
  destruct (set_new_bit f _ _ _ _ _ n (Pcb.set_t_remote_nic_rx ts (pcb f)) Hc Hrc Hng)
    as (p & -> & Hwf & Hs & Ep); [lia|done|done|]. cbn [mbind result_bind]. rewrite Erid.
  destruct (Hacc (set_pcb p f)) as (c1 & nxt' & got' & -> & Ho1 & Hn' & Hl & Eio); try done.
  cbn [mbind result_bind]. rewrite <- Eio in Hb.
  destruct (uc_ack_chunk_own t4 (default 0 (qpn2idx_ cfg !! qp_num e)) (n - nxt) (len_of sc n)
    c1 _ _ _ Ho1 Hb) as [Hack Hdone]. intros Hfr. split.
  - intros c' Hc'. pose proof (Hfr c' Hc') as Hfr'. clear Hfr.
    destruct (uc_ack_chunk _ _ _ _ _ _ _) as [c2|] eqn:E2; [|done]. cbn [mbind result_bind] in Hc'.
    destruct (run_hook_own (EventOnRxData (cimm e)) c2 _ _ _ (Hack c2 eq_refl)) as (c3 & E3 & Ho3).
    rewrite E3 in Hc'. injection Hc' as ->. exists nxt', got'. by eapply inv_new.
  - intros Hcan. unfold can_ack in *. rewrite <- Eio in Hcan. destruct (Hdone Hcan) as [c2 E2].
    rewrite E2. cbn [mbind result_bind].
    destruct (run_hook_own (EventOnRxData (cimm e)) c2 _ _ _ (Hack c2 E2)) as (c3 & -> & _).
    by eexists.
Qed.

(** The handlers leave the list of copies alone; only a retransmission adds one. *)
Lemma accept_chunk_copies psi rid csn len last r f c c' :
  accept_chunk cfg psi rid csn len last r f c = Done c' -> copies c' = copies c.
Proof. by intros (u & _ & [= <-])%bind_done. Qed.

Lemma run_hook_copies hook psi c c' : run_hook hook psi c = Done c' -> copies c' = copies c.
Proof. intros (f & _ & E)%bind_done. destruct (hook _ _). by injection E as <-. Qed.

Lemma add_pending_ack_copies psi c : copies (add_pending_ack psi c) = copies c.
Proof. unfold add_pending_ack. by case_decide. Qed.

Lemma uc_rx_rtx_chunk_ok c g nxt got e a h n :
  inv c g nxt got -> rc_mode_ cfg = false -> schedule_ok sc ->
  carries g (rimm h) n -> byte_len e -[64] sizeof_retr_chunk_hdr = len_of sc n ->
  in_window g n ->
  exists c' nxt' got', uc_rx_rtx_chunk cfg e a h c = Done c' /\ inv c' (arrive n g) nxt' got' /\
    (n ∉ arrived g -> copies c' =
       copies c ++ [MkCopy (remote_addr h) (a +[64] sizeof_retr_chunk_hdr) (len_of sc n)]).
Proof.
  intros Hi Hrc Hlen (Efid & Ecsn & Erid & Ehint) Eb (Hn0 & Hsup & m & Hm & Hw).
  assert (m = nxt) as -> by (by eapply first_missing_unique; [|eapply inv_first]).
  pose proof (uc_rx_rtx_chunk_frame cfg e a h c) as Hfr. rewrite Efid in Hfr. revert Hfr.
  pose proof Hi as [(f & Hf & Hc) Hnn Ha _ Hb].
  destruct (stale_request f c _ _ _ (rimm h) Hc) as [o Eo].
  assert (own (drop_rtx_chunk phi f c) (supplied g) nxt got) as Hown
    by (apply (own_put f); try done; by exists f).
  unfold uc_rx_rtx_chunk. rewrite Efid, Ecsn, Ehint, Eb.
  replace (get_flow phi c) with (Done f) by (unfold get_flow; by rewrite Hf).
  cbn [mbind result_bind]. rewrite Eo. cbn [mbind result_bind].
  destruct (window_tests f _ _ _ _ _ n Hc Hw) as [-> Hsub].
  destruct (decide (n ∈ arrived g)) as [Hin|Hnew].
  { destruct o as [r|]; [|intros Hfr; eexists _, nxt, got; split; [done|]; split; [|done];
      apply (inv_old c); try done; by apply Hfr].
    destruct (Z.ltb_spec n nxt) as [Hlt|Hge].
    { intros Hfr. eexists _, nxt, got. split; [done|]. split; [|done]. apply (inv_old c); try done. by apply Hfr. }
    rewrite (Hsub Hge). unfold kReassemblyMaxSeqnoDistance, Pcb.kSackBitmapSize.
    destruct (Z.ltb_spec 128 (n - nxt)); [lia|].
    assert (n ∈ got) as Hg by (apply Ha in Hin as [?|?]; [lia|done]).
    rewrite (chunk_bit _ _ _ _ _ _ _ Hc Hrc), (bool_decide_eq_true_2 _ Hg) by lia.
    intros Hfr. eexists _, nxt, got. split; [done|]. split; [|done]. apply (inv_old c); try done. by apply Hfr. }
  assert (n ∉ got) as Hng by (intros ?; apply Hnew, Ha; by right).
  assert (nxt <= n) as Hge by (destruct (Z.lt_ge_cases n nxt); [destruct Hnew; apply Ha; left|]; lia).
  set (c0 := set_copies _ c).
  destruct (new_chunk f c0 _ nxt got n Hf Hc Hlen Hng ltac:(lia) Hsup) as (r & El & Hacc).
  change (ureqs c0) with (ureqs c) in El. rewrite <- Erid, Eo in El. injection El as ->.
  rewrite (Hsub Hge). destruct (Z.ltb_spec n nxt); [lia|].
  unfold kReassemblyMaxSeqnoDistance, Pcb.kSackBitmapSize.
  destruct (Z.ltb_spec 128 (n - nxt)); [lia|].
  rewrite (chunk_bit _ _ _ _ _ _ _ Hc Hrc), (bool_decide_eq_false_2 _ Hng) by lia.
  cbn [mbind result_bind].
  match goal with |- context [Pcb.sack_bitmap_bit_set _ ?p0] =>
    destruct (set_new_bit f _ _ _ _ _ n p0 Hc Hrc Hng) as (p & -> & Hwf & Hs & Ep) end;
    [lia|done|done|]. cbn [mbind result_bind]. rewrite Erid.
  destruct (Hacc (set_pcb p f)) as (c1 & nxt' & got' & E1 & Ho1 & Hn' & Hl & Eio); try done.
  rewrite E1. apply accept_chunk_copies in E1. cbn [mbind result_bind]. apply (add_pending_ack_own phi) in Ho1.
  pose proof Ho1 as (f1 & Hf1 & _). unfold get_flow. rewrite Hf1. cbn [mbind result_bind].
  apply (own_put f1 (set_next_ack_path_ (2 ^ 16 - 1) f1)) in Ho1; try done.
  destruct (run_hook_own (EventOnRxRTXData (rimm h)) _ _ _ _ Ho1) as (c3 & E3 & Ho3).
  rewrite E3. apply run_hook_copies in E3. intros Hfr. eexists _, nxt', got'. split; [done|]. split.
  - eapply inv_new; try done. by apply Hfr.
  - intros _. rewrite E3. simpl. by rewrite add_pending_ack_copies, E1.
Qed.

Lemma rc_rx_chunk_ok c g nxt got e n :
  inv c g nxt got -> rc_mode_ cfg = true -> schedule_ok sc ->
  carries g (cimm e) n -> byte_len e = len_of sc n -> in_window g n -> n ∉ arrived g ->
  exists c' nxt' got', rc_rx_chunk cfg e c = Done c' /\ inv c' (arrive n g) nxt' got'.
Proof.
  intros Hi Hrc Hlen (Efid & Ecsn & Erid & Ehint) Eb (Hn0 & Hsup & m & Hm & Hw) Hnew.
  assert (m = nxt) as -> by (by eapply first_missing_unique; [|eapply inv_first]).
  pose proof (rc_rx_chunk_frame cfg e c) as Hfr. rewrite Efid in Hfr. revert Hfr.
  pose proof Hi as [(f & Hf & Hc) Hnn Ha _ Hb].
  assert (n ∉ got) as Hng by (intros ?; apply Hnew, Ha; by right).
  assert (nxt <= n) as Hge by (destruct (Z.lt_ge_cases n nxt); [destruct Hnew; apply Ha; left|]; lia).
  destruct (new_chunk f c _ nxt got n Hf Hc Hlen Hng ltac:(lia) Hsup) as (r & El & Hacc).
  unfold rc_rx_chunk. rewrite Efid, Ecsn, Ehint, Eb, Erid.
  replace (get_flow phi c) with (Done f) by (unfold get_flow; by rewrite Hf).
  cbn [mbind result_bind]. rewrite El. cbn [mbind result_bind].
  destruct (Hacc f) as (c1 & nxt' & got' & -> & Ho1 & Hn' & Hl & Eio); [done|done|congruence|done|done|].
  cbn [mbind result_bind].
  destruct (run_hook_own (EventOnRxData (cimm e)) _ _ _ _ Ho1) as (c3 & -> & Ho3).
  intros Hfr. eexists _, nxt', got'. split; [done|]. eapply inv_new; try done. by apply Hfr.
Qed.

(** ** Supplying a buffer *)

Lemma find_unused_spec l : forall i k, find_unused l i = Some k ->
  i <= k < i + alen l /\ exists r, aget l (k - i) = Some r /\ rtype r = UNUSED.
Proof.
  induction l as [|r l IH]; intros i k; simpl; [done|]. rewrite alen_cons.
  pose proof (alen_nonneg l). destruct (decide (rtype r = UNUSED)).
  - intros [=<-]. split; [lia|]. exists r. by rewrite Z.sub_diag.
  - intros Hk. destruct (IH _ _ Hk) as (? & r' & Hr' & ?). split; [lia|].
    exists r'. replace (k - i) with (k - (i + 1) + 1) by lia. by rewrite aget_cons_S by lia.
Qed.

(** A new buffer does not change what the old ones say. *)
Lemma supplied_snoc sup x l :
  Forall (fun n => msg_of sc n < alen sup) l ->
  map (entry sc (rid_of (sup ++ [x]))) l = map (entry sc (rid_of sup)) l /\
  l ≫= completion sc phi (sup ++ [x]) = l ≫= completion sc phi sup.
Proof.
  assert (forall n, msg_of sc n < alen sup ->
    aget (sup ++ [x]) (msg_of sc n) = aget sup (msg_of sc n)) as Hg.
  { intros n Hn. apply aget_app_l. pose proof (msg_of_nonneg sc n). lia. }
  induction 1 as [|n l Hn Hl [IH1 IH2]]; [done|].
  rewrite !bind_cons, IH2. cbn [map]. rewrite IH1.
  unfold entry, completion, rid_of, ureq_of. by rewrite (Hg n Hn).
Qed.

Lemma core_supply f heap wk sup nxt got u q rid :
  core cfg sc phi f heap wk sup nxt got -> heap !! u = Some q -> context q = phi ->
  alloc_recvreq f = Some rid ->
  core cfg sc phi (put_recvreq rid (MkReq RECV u 0 0) f)
    (<[u := MkUreq (context q) (data_len q) rid]> heap) wk (sup ++ [(u, rid)]) nxt got.
Proof.
  intros Hc Hq Hctx Hrid. eapply core_heap in Hc;
    [|by apply (same_owner_insert heap u q (MkUreq (context q) (data_len q) rid))].
  apply find_unused_spec in Hrid as (Hr & r & Hreq & Hun). rewrite Z.sub_0_r in Hreq.
  destruct Hc.
  pose proof c_got0 as [Hg1 Hg2]%Forall_app.
  destruct (supplied_snoc sup (u, rid) got Hg2) as [E1 _].
  destruct (supplied_snoc sup (u, rid) (seqZ 0 nxt) Hg1) as [_ E2].
  assert (forall m v k, open sc nxt m -> aget sup m = Some (v, k) -> k <> rid) as Hfree.
  { intros m v k Hm Hv ->. destruct (c_active0 m v rid Hm Hv) as [_ E]. by simplify_eq. }
  split; try done; simpl.
  - by rewrite c_ready0, E1.
  - by rewrite alen_aset.
  - intros m v k Hm Hv. rewrite aget_snoc in Hv by apply Hm.
    destruct (Z.eqb_spec m (alen sup)) as [->|].
    + injection Hv as <- <-. split; [unfold kMaxReq in *; lia|]. rewrite aget_aset_eq by lia.
      rewrite bytes_of_none; [done|]. eapply Forall_impl; [exact c_got0|]. simpl. lia.
    + rewrite aget_aset_ne; [by apply c_active0|lia| |].
      * by apply (c_active0 m v k).
      * intros <-. by eapply Hfree.
  - intros m m' v v' k Hm Hm' Hv Hv'. rewrite aget_snoc in Hv by apply Hm. rewrite aget_snoc in Hv' by apply Hm'.
    destruct (Z.eqb_spec m (alen sup)), (Z.eqb_spec m' (alen sup)); [congruence| | |].
    + injection Hv as <- <-. by destruct (Hfree m' v' rid Hm' Hv').
    + injection Hv' as <- <-. by destruct (Hfree m v rid Hm Hv).
    + by eapply c_rids0.
  - intros k r' Hk Ht. unfold aget, aset in Hk.
    apply list_lookup_insert_Some in Hk as [(_ & <- & _)|[_ Hk]]; [|by eapply c_heap0].
    simpl. rewrite lookup_insert_eq. by eexists.
  - eapply Forall_impl; [exact c_got0|]. simpl. rewrite alen_app, alen_cons, alen_nil. lia.
  - unfold completions in *. by rewrite E2.
Qed.

Lemma supply_rx_buff_ok c g nxt got u q :
  inv c g nxt got -> ureqs c !! u = Some q -> context q = phi ->
  exists o c', supply_rx_buff u c = Done (o, c') /\
    inv c' (MkGhost (arrived g)
              (supplied g ++ from_option (fun rid => [(u, rid)]) [] o)) nxt got.
Proof.
  intros Hi Hq Hctx. pose proof (supply_rx_buff_frame u q c) as Hfr. revert Hfr.
  pose proof Hi as [(f & Hf & Hc) Hn Ha Hfid Hb].
  unfold supply_rx_buff, get_flow. rewrite Hq, Hctx, Hf. cbn [mbind result_bind]. intros Hfr.
  destruct (alloc_recvreq f) as [rid|] eqn:Hrid; (eexists _, _; split; [done|]); simpl; cycle 1.
  { rewrite app_nil_r. by destruct g. }
  specialize (Hfr _ _ eq_refl eq_refl). split; try done; [|by eapply frame_fids].
  eexists. simpl. rewrite lookup_insert_eq. split; [done|].
  pose proof (core_supply f _ _ _ _ _ u q rid Hc Hq Hctx Hrid) as Hs. by rewrite Hctx in Hs.
Qed.

(** ** Histories of a receiving flow *)

(** A successful handler of another flow. *)
Inductive other_step (psi : Z) c c' : Prop :=
  | other_chunk ts t4 e :
      Imm.GetFID (cimm e) = psi -> uc_rx_chunk cfg ts t4 e c = Done c' -> other_step psi c c'
  | other_rtx e a h :
      Imm.GetFID (rimm h) = psi -> uc_rx_rtx_chunk cfg e a h c = Done c' -> other_step psi c c'
  | other_rc e :
      Imm.GetFID (cimm e) = psi -> rc_rx_chunk cfg e c = Done c' -> other_step psi c c'
  | other_supply u q o :
      ureqs c !! u = Some q -> context q = psi -> supply_rx_buff u c = Done (o, c') ->
      other_step psi c c'.

Lemma other_step_frame psi c c' : other_step psi c c' -> frame psi c c'.
Proof.
  intros [ts t4 e <- E|e a h <- E|e <- E|u q o Hq <- E].
  - by eapply uc_rx_chunk_frame.
  - by eapply uc_rx_rtx_chunk_frame.
  - by eapply rc_rx_chunk_frame.
  - by eapply supply_rx_buff_frame.
Qed.

(** A step of the context: a chunk of the flow arrives, a buffer of the flow is
    supplied, the pending ACKs are posted, or another flow makes a step. *)
Inductive rstep : rctx CC X P * ghost -> rctx CC X P * ghost -> Prop :=
  | step_chunk c c' g ts t4 e n :
      rc_mode_ cfg = false -> carries g (cimm e) n -> byte_len e = len_of sc n ->
      in_window g n -> n ∉ arrived g ->
      uc_rx_chunk cfg ts t4 e c = Done c' -> rstep (c, g) (c', arrive n g)
  | step_rtx c c' g e a h n :
      rc_mode_ cfg = false -> carries g (rimm h) n ->
      byte_len e -[64] sizeof_retr_chunk_hdr = len_of sc n -> in_window g n ->
      uc_rx_rtx_chunk cfg e a h c = Done c' -> rstep (c, g) (c', arrive n g)
  | step_rc c c' g e n :
      rc_mode_ cfg = true -> carries g (cimm e) n -> byte_len e = len_of sc n ->
      in_window g n -> n ∉ arrived g ->
      rc_rx_chunk cfg e c = Done c' -> rstep (c, g) (c', arrive n g)
  | step_supply c c' g u q o :
      ureqs c !! u = Some q -> context q = phi -> supply_rx_buff u c = Done (o, c') ->
      rstep (c, g) (c', MkGhost (arrived g)
                          (supplied g ++ from_option (fun rid => [(u, rid)]) [] o))
  | step_post_acks c c' g t4 : uc_post_acks cfg t4 c = Done c' -> rstep (c, g) (c', g)
  | step_other c c' g psi : psi <> phi -> other_step psi c c' -> rstep (c, g) (c', g).

(** A context in which the flow was just created, its requests zeroed. *)
Definition starts c : Prop :=
  (exists paths path0 cc0, receiver_flow_tbl_ c !! phi =
     Some (SubUcclFlow_init phi paths path0 (replicate (Z.to_nat kMaxReq) zero_req) cc0)) /\
  woken c = [] /\ (forall psi f, receiver_flow_tbl_ c !! psi = Some f -> fid_ f = psi) /\
  Io.batch_ok (io_ctx_ c).

Lemma starts_inv c : starts c -> inv c (MkGhost ∅ []) 0 [].
Proof.
  intros ((paths & path0 & cc0 & Hf) & Hwk & Hfid & Hb).
  split; try done; [|apply not_elem_of_nil|].
  - eexists. split; [exact Hf|]. split; try done; try by constructor.
    + intros _. apply Pcb.fresh_wf.
    + intros _ i Hi. rewrite bool_decide_eq_false_2 by apply not_elem_of_nil.
      change (Pcb.sack _) with 0. by rewrite Z.bits_0.
    + intros rid r Hr Ht. apply lookup_replicate in Hr as [-> _]. done.
    + by rewrite Hwk.
  - intros n. simpl. rewrite elem_of_empty, elem_of_nil. lia.
Qed.

Lemma inv_step a b :
  schedule_ok sc -> rstep a b -> (exists nxt got, inv a.1 a.2 nxt got) ->
  exists nxt got, inv b.1 b.2 nxt got.
Proof.
  intros Hlen Hs (nxt & got & Hi). destruct Hs; simpl in *.
  - eapply uc_rx_chunk_ok; try done. by right.
  - destruct (uc_rx_rtx_chunk_ok c g nxt got e a h n) as (c1 & nxt' & got' & E & ? & _); try done.
    assert (c1 = c') as -> by congruence. eauto.
  - destruct (rc_rx_chunk_ok c g nxt got e n) as (c1 & nxt' & got' & E & ?); try done.
    assert (c1 = c') as -> by congruence. eauto.
  - destruct (supply_rx_buff_ok c g nxt got u q) as (o' & c1 & E & ?); try done.
    assert (o' = o /\ c1 = c') as [-> ->] by (split; congruence). eauto.
  - exists nxt, got. eapply (inv_frame (phi + 1)); [done| |lia]. by eapply uc_post_acks_frame.
  - exists nxt, got. eapply inv_frame; [done| |done]. by apply other_step_frame.
Qed.

Lemma reachable_inv c0 c g :
  schedule_ok sc -> starts c0 -> rtc rstep (c0, MkGhost ∅ []) (c, g) ->
  exists nxt got, inv c g nxt got.
Proof.
  intros Hlen Hs Hr.
  apply (rtc_invariant rstep (fun a => exists nxt got, inv a.1 a.2 nxt got) _ (c, g)) in Hr.
  - exact Hr.
  - intros a b Hab Ha. by apply (inv_step a b Hlen Hab).
  - exists 0, []. by apply starts_inv.
Qed.

(** C2: whatever order the chunks of a flow arrive in, whatever is retransmitted
    or duplicated and whatever other flows do, the expected sequence number is
    that of the first position that has not arrived, bit [i] of the SACK bitmap
    says whether the [i]-th position after it has arrived, and the application
    has been woken exactly once for each message that lies below it, in the
    order of the messages, for the buffer supplied for that message and with
    the message's full length. *)
Theorem receiver_delivers c0 c g :
  schedule_ok sc -> starts c0 -> rtc rstep (c0, MkGhost ∅ []) (c, g) ->
  exists nxt f, first_missing (arrived g) nxt /\
    receiver_flow_tbl_ c !! phi = Some f /\
    Pcb.rcv_nxt (pcb f) = Csn.of_uint32 nxt /\
    (rc_mode_ cfg = false -> forall i, 0 <= i < Pcb.kSackBitmapSize ->
       Pcb.sack_bitmap_bit_is_set i (pcb f) = Done (bool_decide (nxt + i ∈ arrived g))) /\
    filter (fun w => wfid w = phi) (woken c) = completions sc phi (supplied g) nxt.
Proof.
  intros Hlen Hs Hr. destruct (reachable_inv c0 c g Hlen Hs Hr) as (nxt & got & Hi).
  pose proof Hi as [(f & Hf & Hc) Hn Ha _ _]. exists nxt, f.
  split; [by eapply inv_first|]. split; [done|].
  rewrite Csn.of_uint32_csn. pose proof Hc as [].
  split; [done|]. split; [|done]. intros Hrc i Hi'. unfold Pcb.kSackBitmapSize in *.
  rewrite Pcb.bit_is_set_spec by auto. rewrite (c_bits0 Hrc) by done. f_equal.
  apply bool_decide_ext. rewrite Ha. split; [by right|]. intros [?|?]; [lia|done].
Qed.

(** No legal arrival makes the receiver fail.  In every reachable state a
    chunk within the window is processed: a retransmission or an RC chunk
    unconditionally, a direct UC chunk that is not a duplicate as long as the
    pools can provide the buffers of an immediate ACK. *)
Theorem receiver_never_fails c0 c g n imm :
  schedule_ok sc -> starts c0 -> rtc rstep (c0, MkGhost ∅ []) (c, g) ->
  in_window g n -> carries g imm n ->
  (rc_mode_ cfg = false -> forall e a h, rimm h = imm ->
     byte_len e -[64] sizeof_retr_chunk_hdr = len_of sc n ->
     exists c', uc_rx_rtx_chunk cfg e a h c = Done c') /\
  (rc_mode_ cfg = false -> forall ts t4 e, cimm e = imm -> byte_len e = len_of sc n ->
     n ∉ arrived g -> can_ack c -> exists c', uc_rx_chunk cfg ts t4 e c = Done c') /\
  (rc_mode_ cfg = true -> forall e, cimm e = imm -> byte_len e = len_of sc n ->
     n ∉ arrived g -> exists c', rc_rx_chunk cfg e c = Done c').
Proof.
  intros Hlen Hs Hr Hw Hcar. destruct (reachable_inv c0 c g Hlen Hs Hr) as (nxt & got & Hi).
  split_and!; intros Hrc.
  - intros e a h <- Hb. destruct (uc_rx_rtx_chunk_ok c g nxt got e a h n) as (c' & _ & _ & ? & _); eauto.
  - intros ts t4 e <- Hb Hn Hcan.
    destruct (uc_rx_chunk_ok c g nxt got ts t4 e n) as [_ Hd]; eauto.
  - intros e <- Hb Hn. destruct (rc_rx_chunk_ok c g nxt got e n) as (c' & _ & _ & ? & _); eauto.
Qed.
End handlers.

(** ** Posting the pending ACKs *)

Section acks.
Context {CC X P : Type} `{RxHooks CC X} `{PoolOps P} `{!PoolLaws P} (cfg : config).
Implicit Types (c : rctx CC X P) (f : SubUcclFlow CC).

Definition pkt_addr (a i : Z) : Z := a + Io.kPktSize * i.

Lemma craft_acks_ok t4 a l : forall n c,
  Forall (fun fid => is_Some (receiver_flow_tbl_ c !! fid)) l ->
  0 <= n -> n + alen l <= Io.kMaxBatchCQ -> 0 <= a -> a + Io.kChunkSize <= 2 ^ 64 ->
  exists mem, craft_acks cfg t4 a l n c =
      Done (n + alen l, set_io_ctx_ (Io.set_ctrl_mem mem (io_ctx_ c)) c) /\
    (forall i fid f, l !! i = Some fid -> receiver_flow_tbl_ c !! fid = Some f ->
       mem !! pkt_addr a (n + Z.of_nat i) = Some (sack_header cfg t4 f)) /\
    (forall x, x < pkt_addr a n -> mem !! x = Io.ctrl_mem (io_ctx_ c) !! x).
Proof.
  unfold Io.kChunkSize, Io.kMaxBatchCQ, pkt_addr, Io.kPktSize.
  induction l as [|fid l IH]; intros n c Hl Hn Hb Ha Ha'.
  { exists (Io.ctrl_mem (io_ctx_ c)). rewrite alen_nil, Z.add_0_r. split; [|done].
    by destruct c as [? ? ? ? []]. }
  apply Forall_cons in Hl as [[f Hf] Hl]. rewrite alen_cons in *. cbn [craft_acks].
  pose proof (alen_nonneg l).
  unfold get_flow. rewrite Hf. cbn [mbind result_bind]. set (c1 := set_io_ctx_ _ c).
  destruct (IH (n + 1) c1) as (mem & E & Hm & Hold); [done|lia..|].
  exists mem. rewrite E. replace (n + 1 + alen l) with (n + (alen l + 1)) by lia.
  assert (Io.ctrl_mem (io_ctx_ c1) =
    <[a + 36 * n := sack_header cfg t4 f]> (Io.ctrl_mem (io_ctx_ c))) as E1.
  { simpl. unfold Io.kPktSize. rewrite wrap_id; [done|]. unfold in_word. lia. }
  split; [done|]. split.
  - intros [|i] fid' f' Hi Hf'; simpl in Hi.
    + simplify_eq. rewrite Z.add_0_r, Hold by lia. rewrite E1. by rewrite lookup_insert_eq.
    + replace (n + Z.of_nat (S i)) with (n + 1 + Z.of_nat i) by lia. by eapply Hm.
  - intros x Hx. rewrite Hold by lia. rewrite E1. rewrite lookup_insert_ne by lia. done.
Qed.

(** posting the pending ACKs of a batch takes one control chunk [a]; the
    [i]-th packet of the chunk is the ACK header of the [i]-th pending flow, one
    work request sending exactly these packets is queued after those queued
    before, and no ACK stays pending.  Without pending ACKs the chunk goes back
    to the pool.  The peer's receive buffer, which also takes the 40 bytes a
    datagram is prefixed with, has room for at most 14 of the 16 packets. *)
Theorem uc_post_acks_posts t4 c cap a free :
  Forall (fun fid => is_Some (receiver_flow_tbl_ c !! fid)) (ack_list_ c) ->
  alen (ack_list_ c) <= Io.kMaxBatchCQ -> 0 <= a -> a + Io.kChunkSize <= 2 ^ 64 ->
  Io.batch_ok (io_ctx_ c) -> Io.has_desc (io_ctx_ c) ->
  pl_repr (Io.ctrl_chunk_pool_ (io_ctx_ c)) cap (a :: free) -> alen (a :: free) <= cap ->
  exists c', uc_post_acks cfg t4 c = Done c' /\ ack_list_ c' = [] /\
    receiver_flow_tbl_ c' = receiver_flow_tbl_ c /\
    (ack_list_ c = [] ->
       Io.staged (io_ctx_ c') = Io.staged (io_ctx_ c) /\
       pl_repr (Io.ctrl_chunk_pool_ (io_ctx_ c')) cap (free ++ [a])) /\
    (ack_list_ c <> [] ->
       (exists d, Io.staged (io_ctx_ c') = Io.staged (io_ctx_ c) ++
          [(a, Io.kPktSize * alen (ack_list_ c), d, alen (ack_list_ c))]) /\
       (forall i fid f, ack_list_ c !! i = Some fid -> receiver_flow_tbl_ c !! fid = Some f ->
          Io.ctrl_mem (io_ctx_ c') !! pkt_addr a (Z.of_nat i) = Some (sack_header cfg t4 f)) /\
       (Io.UD_ADDITION + Io.kPktSize * alen (ack_list_ c) <= Io.kChunkSize <->
          alen (ack_list_ c) <= 14)).
Proof.
  intros Hl Hn Ha Ha' Hb Hd Hp Hcap. unfold uc_post_acks, Io.pop_ctrl_chunk.
  destruct (pl_alloc_cons _ _ _ _ Hp) as (p' & -> & Hp'). cbn [mbind result_bind].
  set (s := Io.set_ctrl_chunk_pool_ p' (io_ctx_ c)). set (c1 := set_io_ctx_ s c).
  destruct (craft_acks_ok t4 a (ack_list_ c) 0 c1) as (mem & E & Hm & _); [done..|].
  change (ack_list_ c1) with (ack_list_ c). rewrite E. cbn [mbind result_bind].
  rewrite Z.add_0_l. simpl io_ctx_. set (s1 := Io.set_ctrl_mem mem s).
  destruct (Io.try_post_acks_done (alen (ack_list_ c)) a false s1) as [s2 E2]; [done|done|].
  rewrite E2. cbn [mbind result_bind]. eexists. split; [done|]. split; [done|]. split; [done|].
  split.
  - intros Hnil. rewrite Hnil in *. unfold Io.try_post_acks in E2. simpl in E2.
    injection E2 as <-. simpl. split; [done|]. rewrite alen_cons in Hcap.
    apply pl_free_ok; [done| |lia]. unfold in_word, Io.kChunkSize, Io.kPktSize, Io.kMaxBatchCQ in *. lia.
  - intros Hne. assert (alen (ack_list_ c) <> 0) as Hz.
    { destruct (ack_list_ c); [done|]. rewrite alen_cons. pose proof (alen_nonneg l). lia. }
    destruct (Io.try_post_acks_staged _ _ _ _ _ E2 Hb Hz) as (d & _ & Es & Em).
    pose proof (alen_nonneg (ack_list_ c)).
    rewrite (proj2 (Z.eqb_neq _ _) Hz). simpl. rewrite Es, Em. split_and!.
    + exists d. rewrite wrap_id; [done|]. unfold in_word, Io.kPktSize, Io.kMaxBatchCQ in *. lia.
    + intros i fid f Hi Hf. by apply (Hm i fid f).
    + unfold Io.UD_ADDITION, Io.kChunkSize, Io.kPktSize, Io.kMaxBatchCQ. lia.
Qed.
End acks.

(** ** A concrete receiver *)

Module Example.

#[global] Instance no_hooks : RxHooks unit unit :=
  { EventOnRxData := fun _ c x => (c, x); EventOnRxRTXData := fun _ c x => (c, x) }.

(** A message of two 100-byte chunks, then messages of one chunk each. *)
Definition sched : schedule :=
  MkSchedule (fun n => Z.to_nat (n - 1)) (fun n => 1 <=? n) (fun n => if n <? 4 then 100 else 0).

Definition cfg : config := MkConfig 4096 3 (of_Z 2) (of_Z 1) (of_Z 0) {[ 17 := 1 ]} false.

Definition pool (base : Z) : BuffPool.t := BuffPool.BuffPool base 4 576.

Definition start : rctx unit unit BuffPool.t :=
  MkRctx {[ 5 := SubUcclFlow_init 5 2 0 (replicate 16 zero_req) tt ]} []
    {[ 70 := MkUreq 5 1000 0 ]} tt
    (Io.MkIo (pool 4096) (pool 8192) (pool 12288) (pool 16384) ∅ ∅
       (replicate 8 (Io.MkAckWr 0 0 0 0 false false)) 0 0 0 0 [] [] [])
    [] [] [].

Definition imm (n rid : Z) : Z :=
  Imm.SetHINT (Imm.SetCSN (Imm.SetRID (Imm.SetFID 0 5) rid) (Csn.csn n))
    (if is_last sched n then 1 else 0).

Definition ok {A} (r : result A) (d : A) : A := match r with Done a => a | Fail _ => d end.

(** One buffer; position 1 arrives first, position 0 is retransmitted twice. *)
Definition c1 := (ok (supply_rx_buff 70 start) (None, start)).2.
Definition c2 := ok (uc_rx_chunk cfg 1000 2000 (MkCqe 100 (imm 1 0) 17) c1) c1.
Definition hdr0 := MkRetrHdr 65536 (imm 0 0).
Definition c3 := ok (uc_rx_rtx_chunk cfg (MkCqe 112 0 17) 12288 hdr0 c2) c2.
Definition c4 := ok (uc_rx_rtx_chunk cfg (MkCqe 112 0 17) 12288 hdr0 c3) c3.

Definition g1 := MkGhost ∅ [(70, 0)].
Definition g4 := arrive 0 (arrive 0 (arrive 1 g1)).

Lemma sched_bytes m k : 0 <= k -> bytes_of sched m (seqZ 0 k) <= 100 * Z.min k 4.
Proof.
  intros Hk. pattern k. apply natlike_ind; [done| |done]. intros n Hn IH. unfold Z.succ.
  rewrite seqZ_snoc, bytes_of_app by done. cbn [bytes_of len_of sched]. z_cases; lia.
Qed.

Lemma sched_fine : schedule_ok sched.
Proof.
  split; [intros n k; unfold msg_of; simpl; z_cases; lia|].
  split; [intros k; simpl; z_cases; lia|]. intros n Hn.
  pose proof (sched_bytes (msg_of sched n) (n + 1) ltac:(lia)). lia.
Qed.

Lemma start_starts : starts 5 start.
Proof.
  split_and!; [by exists 2%nat, 0, tt|done| |by vm_compute].
  intros psi f Hf. unfold start in Hf. simpl in Hf.
  apply lookup_singleton_Some in Hf as [<- <-]. done.
Qed.

Lemma missing_0 (s : gset Z) : 0 ∉ s -> first_missing s 0.
Proof. intros ?. split; [done|]. split; [done|]. lia. Qed.

Lemma window_1 : in_window sched g1 1.
Proof.
  split; [done|]. split; [by vm_compute|]. exists 0. split; [|lia]. by apply missing_0.
Qed.

Lemma window_0 : in_window sched (arrive 1 g1) 0.
Proof.
  split; [done|]. split; [by vm_compute|]. exists 0. split; [|lia]. apply missing_0. set_solver.
Qed.

Lemma first_2 : first_missing (arrived (arrive 0 (arrive 1 g1))) 2.
Proof.
  split; [done|]. split; [set_solver|]. intros k Hk.
  assert (k = 0 \/ k = 1) as [-> | ->] by lia; set_solver.
Qed.

Lemma window_0_again : in_window sched (arrive 0 (arrive 1 g1)) 0.
Proof. split; [done|]. split; [by vm_compute|]. exists 2. split; [apply first_2|lia]. Qed.

Lemma history1 : rtc (rstep cfg sched 5) (start, MkGhost ∅ []) (c1, g1).
Proof.
  eapply rtc_l; [|done].
  by apply (step_supply cfg sched 5 start c1 (MkGhost ∅ []) 70 (MkUreq 5 1000 0) (Some 0)).
Qed.

Lemma history : rtc (rstep cfg sched 5) (start, MkGhost ∅ []) (c4, g4).
Proof.
  etrans; [exact history1|]. eapply rtc_l.
  { apply (step_chunk cfg sched 5 c1 c2 g1 1000 2000 (MkCqe 100 (imm 1 0) 17) 1);
      [done|done|done|exact window_1|set_solver|by vm_compute]. }
  eapply rtc_l.
  { apply (step_rtx cfg sched 5 c2 c3 (arrive 1 g1) (MkCqe 112 0 17) 12288 hdr0 0);
      [done|done|done|exact window_0|by vm_compute]. }
  eapply rtc_l; [|done].
  apply (step_rtx cfg sched 5 c3 c4 (arrive 0 (arrive 1 g1)) (MkCqe 112 0 17) 12288 hdr0 0);
    [done|done|done|exact window_0_again|by vm_compute].
Qed.
End Example.

Lemma receiver_delivers_witness :
  exists nxt, first_missing (arrived Example.g4) nxt /\
    filter (fun w => wfid w = 5) (woken Example.c4)
      = completions Example.sched 5 (supplied Example.g4) nxt /\
    woken Example.c4 = [MkWake 5 70 200] /\ copies Example.c4 = [MkCopy 65536 12300 100].
Proof.
  destruct (receiver_delivers Example.cfg Example.sched 5 Example.start Example.c4 Example.g4
    Example.sched_fine Example.start_starts Example.history) as (nxt & f & H1 & _ & _ & _ & H2).
  exists nxt. split; [exact H1|]. split; [exact H2|]. clear. split; vm_compute; reflexivity.
Defined.

Lemma receiver_never_fails_witness :
  (exists c', uc_rx_chunk Example.cfg 1000 2000 (MkCqe 100 (Example.imm 1 0) 17) Example.c1
     = Done c') /\
  (exists c', uc_rx_rtx_chunk Example.cfg (MkCqe 112 0 17) 12288
     (MkRetrHdr 65636 (Example.imm 1 0)) Example.c1 = Done c').
Proof.
  destruct (receiver_never_fails Example.cfg Example.sched 5 Example.start Example.c1 Example.g1 1
    (Example.imm 1 0) Example.sched_fine Example.start_starts Example.history1
    Example.window_1) as (H1 & H2 & _).
  - split_and!; vm_compute; reflexivity.
  - split; [|by apply H1]. apply H2; [done|done|done|set_solver|].
    split; eexists; vm_compute; reflexivity.
Defined.

Lemma uc_post_acks_posts_witness :
  ack_list_ Example.c2 = [5] /\
  exists c', uc_post_acks Example.cfg 3000 Example.c2 = Done c' /\ ack_list_ c' = [].
Proof.
  split; [vm_compute; reflexivity|].
  destruct (uc_post_acks_posts Example.cfg 3000 Example.c2 3 4096 [4672; 5248])
    as (c' & E & El & _); [| | | | | | | |exact (ex_intro _ c' (conj E El))].
  - repeat constructor. eexists. vm_compute. reflexivity.
  - by vm_compute.
  - lia.
  - by vm_compute.
  - by vm_compute.
  - eexists. vm_compute. reflexivity.
  - replace (Io.ctrl_chunk_pool_ (io_ctx_ Example.c2)) with (Example.pool 4096)
      by (vm_compute; reflexivity).
    split; [|by vm_compute]. apply (BuffPool.BuffPool_repr 4096 2 576); [lia|by vm_compute].
  - by vm_compute.
Defined.

End RxSpec.
