(* ===== verification/Sender.v ===== *)
(** * Send path of the RDMA transport

    The sending half of [RDMAContext] ([collective/rdma/transport.cc]): messages
    are cut into chunks ([senderCC_tx_message]), which are posted at once or
    queued in the timing wheel and posted by [burst_timing_wheel]; ACKs release
    them ([uc_rx_ack], [rc_rx_ack] and the [TXTracking] functions of
    [rdma_io.cc]) and lost ones are retransmitted ([__retransmit_for_flow]).

    Times are arguments; random choices come from the list [rand_].  A work
    request is a [wr_ex] object in memory, named by its address; what is posted
    to a queue pair and the wake-ups are outputs. *)

From S2P Require Import Prelude Float64 Csn Queues Pcb SharedIo Flow Timer.
From Stdlib Require Import Floats.SpecFloat.

Module Tx.
Import Flow.

Definition kSignalInterval : Z := 1.
Definition kMAXUseCacheQPSize : Z := 8192.
Definition kMAXConsecutiveSameChoiceBytes : Z := 16384.
Definition ROCE_DUP_ACK_THRES : Z := 32.
Definition kMaxBurstTW : Z := 8.
Definition kMAXRTTUS : Z := 10000.
Definition IB_HDR_OVERHEAD : Z := 8 + 40 + 12.
Definition ROCE_IPV4_HDR_OVERHEAD : Z := 14 + 20 + 8 + 12.

(** What the functions read of the context and of the configuration. *)
Record config := MkConfig {
  rdma_ctx_ : Z;
  chunk_size_ : Z;
  mtu_bytes_ : Z;
  port_entropy_ : Z;
  is_roce_ : bool;
  rc_mode_ : bool;
  bypass_pacing_ : bool;
  kMaxUnAckedBytesPerEngineHigh : Z;
  freq_ghz : double;
  link_speed_ : double;
  nic_ts_ratio_ : double;
  nic_ts_offset_ : double;
  rto_timeout_ : Z;
}.

(** The send side of a [ucclRequest]. *)
Record sreq := MkSreq {
  context : Z;
  data_len : Z;
  laddr : Z;
  raddr : Z;
  lkey : Z;
  rkey : Z;
  rid : Z;
  sent_offset : Z;
  acked_bytes : Z;
  inc_backlog : Z;
}.
Definition set_context (v : Z) (r : sreq) : sreq :=
  MkSreq v (data_len r) (laddr r) (raddr r) (lkey r) (rkey r) (rid r) (sent_offset r) (acked_bytes r) (inc_backlog r).
Definition set_data_len (v : Z) (r : sreq) : sreq :=
  MkSreq (context r) v (laddr r) (raddr r) (lkey r) (rkey r) (rid r) (sent_offset r) (acked_bytes r) (inc_backlog r).
Definition set_laddr (v : Z) (r : sreq) : sreq :=
  MkSreq (context r) (data_len r) v (raddr r) (lkey r) (rkey r) (rid r) (sent_offset r) (acked_bytes r) (inc_backlog r).
Definition set_raddr (v : Z) (r : sreq) : sreq :=
  MkSreq (context r) (data_len r) (laddr r) v (lkey r) (rkey r) (rid r) (sent_offset r) (acked_bytes r) (inc_backlog r).
Definition set_lkey (v : Z) (r : sreq) : sreq :=
  MkSreq (context r) (data_len r) (laddr r) (raddr r) v (rkey r) (rid r) (sent_offset r) (acked_bytes r) (inc_backlog r).
Definition set_rkey (v : Z) (r : sreq) : sreq :=
  MkSreq (context r) (data_len r) (laddr r) (raddr r) (lkey r) v (rid r) (sent_offset r) (acked_bytes r) (inc_backlog r).
Definition set_rid (v : Z) (r : sreq) : sreq :=
  MkSreq (context r) (data_len r) (laddr r) (raddr r) (lkey r) (rkey r) v (sent_offset r) (acked_bytes r) (inc_backlog r).
Definition set_sent_offset (v : Z) (r : sreq) : sreq :=
  MkSreq (context r) (data_len r) (laddr r) (raddr r) (lkey r) (rkey r) (rid r) v (acked_bytes r) (inc_backlog r).
Definition set_acked_bytes (v : Z) (r : sreq) : sreq :=
  MkSreq (context r) (data_len r) (laddr r) (raddr r) (lkey r) (rkey r) (rid r) (sent_offset r) v (inc_backlog r).
Definition set_inc_backlog (v : Z) (r : sreq) : sreq :=
  MkSreq (context r) (data_len r) (laddr r) (raddr r) (lkey r) (rkey r) (rid r) (sent_offset r) (acked_bytes r) v.

(** The operations of data work requests. *)
Inductive opcode := IBV_WR_RDMA_WRITE_WITH_IMM | IBV_WR_RDMA_WRITE | IBV_WR_RDMA_READ.

(** [struct wr_ex]: a work request with its scatter element. *)
Record wr_ex := MkWrEx {
  sge_addr : Z;
  sge_lkey : Z;
  sge_length : Z;
  remote_addr : Z;
  wrkey : Z;
  imm_data : Z;
  wr_id : Z;
  signaled : bool;
  wureq : Z;
  qpidx : Z;
  wr_opcode : opcode;
}.
Definition set_sge_addr (v : Z) (r : wr_ex) : wr_ex :=
  MkWrEx v (sge_lkey r) (sge_length r) (remote_addr r) (wrkey r) (imm_data r) (wr_id r) (signaled r) (wureq r) (qpidx r) (wr_opcode r).
Definition set_sge_lkey (v : Z) (r : wr_ex) : wr_ex :=
  MkWrEx (sge_addr r) v (sge_length r) (remote_addr r) (wrkey r) (imm_data r) (wr_id r) (signaled r) (wureq r) (qpidx r) (wr_opcode r).
Definition set_sge_length (v : Z) (r : wr_ex) : wr_ex :=
  MkWrEx (sge_addr r) (sge_lkey r) v (remote_addr r) (wrkey r) (imm_data r) (wr_id r) (signaled r) (wureq r) (qpidx r) (wr_opcode r).
Definition set_remote_addr (v : Z) (r : wr_ex) : wr_ex :=
  MkWrEx (sge_addr r) (sge_lkey r) (sge_length r) v (wrkey r) (imm_data r) (wr_id r) (signaled r) (wureq r) (qpidx r) (wr_opcode r).
Definition set_wrkey (v : Z) (r : wr_ex) : wr_ex :=
  MkWrEx (sge_addr r) (sge_lkey r) (sge_length r) (remote_addr r) v (imm_data r) (wr_id r) (signaled r) (wureq r) (qpidx r) (wr_opcode r).
Definition set_imm_data (v : Z) (r : wr_ex) : wr_ex :=
  MkWrEx (sge_addr r) (sge_lkey r) (sge_length r) (remote_addr r) (wrkey r) v (wr_id r) (signaled r) (wureq r) (qpidx r) (wr_opcode r).
Definition set_wr_id (v : Z) (r : wr_ex) : wr_ex :=
  MkWrEx (sge_addr r) (sge_lkey r) (sge_length r) (remote_addr r) (wrkey r) (imm_data r) v (signaled r) (wureq r) (qpidx r) (wr_opcode r).
Definition set_signaled (v : bool) (r : wr_ex) : wr_ex :=
  MkWrEx (sge_addr r) (sge_lkey r) (sge_length r) (remote_addr r) (wrkey r) (imm_data r) (wr_id r) v (wureq r) (qpidx r) (wr_opcode r).
Definition set_wureq (v : Z) (r : wr_ex) : wr_ex :=
  MkWrEx (sge_addr r) (sge_lkey r) (sge_length r) (remote_addr r) (wrkey r) (imm_data r) (wr_id r) (signaled r) v (qpidx r) (wr_opcode r).
Definition set_qpidx (v : Z) (r : wr_ex) : wr_ex :=
  MkWrEx (sge_addr r) (sge_lkey r) (sge_length r) (remote_addr r) (wrkey r) (imm_data r) (wr_id r) (signaled r) (wureq r) v (wr_opcode r).
Definition set_wr_opcode (v : opcode) (r : wr_ex) : wr_ex :=
  MkWrEx (sge_addr r) (sge_lkey r) (sge_length r) (remote_addr r) (wrkey r) (imm_data r) (wr_id r) (signaled r) (wureq r) (qpidx r) v.

(** As [WrExBuffPool] initialises a buffer. *)
Definition zero_wr : wr_ex := MkWrEx 0 0 0 0 0 0 0 false 0 0 IBV_WR_RDMA_WRITE_WITH_IMM.

(** What goes to a data queue pair: an RDMA write with immediate, or a
    retransmission, a send of a header and the payload. *)
Inductive post :=
| PostWrite (qp : Z) (w : wr_ex)
| PostRtx (qp : Z) (hdr remote imm addr len : Z).

Record sctx (CC X P : Type) := MkSctx {
  sender_flow_tbl_ : gmap Z (SubUcclFlow CC);
  sureqs : gmap Z sreq;
  wrs : gmap Z wr_ex;
  wr_ex_pool_ : P;
  engine_unacked_bytes_ : Z;
  rto_ : Timer.t;
  cca : X;
  io_ctx_ : Io.io P;
  signal_cnts : list Z;
  consecutive_same_choice_bytes_ : Z;
  last_qp_choice_ : Z;
  rand_ : list Z;
  posted : list post;
  swoken : list Z;
}.
Arguments MkSctx {CC X P} _ _ _ _ _ _ _ _ _ _ _ _ _ _ .
Arguments sender_flow_tbl_ {CC X P} _.
Arguments sureqs {CC X P} _.
Arguments wrs {CC X P} _.
Arguments wr_ex_pool_ {CC X P} _.
Arguments engine_unacked_bytes_ {CC X P} _.
Arguments rto_ {CC X P} _.
Arguments cca {CC X P} _.
Arguments io_ctx_ {CC X P} _.
Arguments signal_cnts {CC X P} _.
Arguments consecutive_same_choice_bytes_ {CC X P} _.
Arguments last_qp_choice_ {CC X P} _.
Arguments rand_ {CC X P} _.
Arguments posted {CC X P} _.
Arguments swoken {CC X P} _.
Definition set_sender_flow_tbl_ {CC X P} (v : gmap Z (SubUcclFlow CC)) (r : sctx CC X P) : sctx CC X P :=
  MkSctx v (sureqs r) (wrs r) (wr_ex_pool_ r) (engine_unacked_bytes_ r) (rto_ r) (cca r) (io_ctx_ r) (signal_cnts r) (consecutive_same_choice_bytes_ r) (last_qp_choice_ r) (rand_ r) (posted r) (swoken r).
Definition set_sureqs {CC X P} (v : gmap Z sreq) (r : sctx CC X P) : sctx CC X P :=
  MkSctx (sender_flow_tbl_ r) v (wrs r) (wr_ex_pool_ r) (engine_unacked_bytes_ r) (rto_ r) (cca r) (io_ctx_ r) (signal_cnts r) (consecutive_same_choice_bytes_ r) (last_qp_choice_ r) (rand_ r) (posted r) (swoken r).
Definition set_wrs {CC X P} (v : gmap Z wr_ex) (r : sctx CC X P) : sctx CC X P :=
  MkSctx (sender_flow_tbl_ r) (sureqs r) v (wr_ex_pool_ r) (engine_unacked_bytes_ r) (rto_ r) (cca r) (io_ctx_ r) (signal_cnts r) (consecutive_same_choice_bytes_ r) (last_qp_choice_ r) (rand_ r) (posted r) (swoken r).
Definition set_wr_ex_pool_ {CC X P} (v : P) (r : sctx CC X P) : sctx CC X P :=
  MkSctx (sender_flow_tbl_ r) (sureqs r) (wrs r) v (engine_unacked_bytes_ r) (rto_ r) (cca r) (io_ctx_ r) (signal_cnts r) (consecutive_same_choice_bytes_ r) (last_qp_choice_ r) (rand_ r) (posted r) (swoken r).
Definition set_engine_unacked_bytes_ {CC X P} (v : Z) (r : sctx CC X P) : sctx CC X P :=
  MkSctx (sender_flow_tbl_ r) (sureqs r) (wrs r) (wr_ex_pool_ r) v (rto_ r) (cca r) (io_ctx_ r) (signal_cnts r) (consecutive_same_choice_bytes_ r) (last_qp_choice_ r) (rand_ r) (posted r) (swoken r).
Definition set_rto_ {CC X P} (v : Timer.t) (r : sctx CC X P) : sctx CC X P :=
  MkSctx (sender_flow_tbl_ r) (sureqs r) (wrs r) (wr_ex_pool_ r) (engine_unacked_bytes_ r) v (cca r) (io_ctx_ r) (signal_cnts r) (consecutive_same_choice_bytes_ r) (last_qp_choice_ r) (rand_ r) (posted r) (swoken r).
Definition set_cca {CC X P} (v : X) (r : sctx CC X P) : sctx CC X P :=
  MkSctx (sender_flow_tbl_ r) (sureqs r) (wrs r) (wr_ex_pool_ r) (engine_unacked_bytes_ r) (rto_ r) v (io_ctx_ r) (signal_cnts r) (consecutive_same_choice_bytes_ r) (last_qp_choice_ r) (rand_ r) (posted r) (swoken r).
Definition set_io_ctx_ {CC X P} (v : Io.io P) (r : sctx CC X P) : sctx CC X P :=
  MkSctx (sender_flow_tbl_ r) (sureqs r) (wrs r) (wr_ex_pool_ r) (engine_unacked_bytes_ r) (rto_ r) (cca r) v (signal_cnts r) (consecutive_same_choice_bytes_ r) (last_qp_choice_ r) (rand_ r) (posted r) (swoken r).
Definition set_signal_cnts {CC X P} (v : list Z) (r : sctx CC X P) : sctx CC X P :=
  MkSctx (sender_flow_tbl_ r) (sureqs r) (wrs r) (wr_ex_pool_ r) (engine_unacked_bytes_ r) (rto_ r) (cca r) (io_ctx_ r) v (consecutive_same_choice_bytes_ r) (last_qp_choice_ r) (rand_ r) (posted r) (swoken r).
Definition set_consecutive_same_choice_bytes_ {CC X P} (v : Z) (r : sctx CC X P) : sctx CC X P :=
  MkSctx (sender_flow_tbl_ r) (sureqs r) (wrs r) (wr_ex_pool_ r) (engine_unacked_bytes_ r) (rto_ r) (cca r) (io_ctx_ r) (signal_cnts r) v (last_qp_choice_ r) (rand_ r) (posted r) (swoken r).
Definition set_last_qp_choice_ {CC X P} (v : Z) (r : sctx CC X P) : sctx CC X P :=
  MkSctx (sender_flow_tbl_ r) (sureqs r) (wrs r) (wr_ex_pool_ r) (engine_unacked_bytes_ r) (rto_ r) (cca r) (io_ctx_ r) (signal_cnts r) (consecutive_same_choice_bytes_ r) v (rand_ r) (posted r) (swoken r).
Definition set_rand_ {CC X P} (v : list Z) (r : sctx CC X P) : sctx CC X P :=
  MkSctx (sender_flow_tbl_ r) (sureqs r) (wrs r) (wr_ex_pool_ r) (engine_unacked_bytes_ r) (rto_ r) (cca r) (io_ctx_ r) (signal_cnts r) (consecutive_same_choice_bytes_ r) (last_qp_choice_ r) v (posted r) (swoken r).
Definition set_posted {CC X P} (v : list post) (r : sctx CC X P) : sctx CC X P :=
  MkSctx (sender_flow_tbl_ r) (sureqs r) (wrs r) (wr_ex_pool_ r) (engine_unacked_bytes_ r) (rto_ r) (cca r) (io_ctx_ r) (signal_cnts r) (consecutive_same_choice_bytes_ r) (last_qp_choice_ r) (rand_ r) v (swoken r).
Definition set_swoken {CC X P} (v : list Z) (r : sctx CC X P) : sctx CC X P :=
  MkSctx (sender_flow_tbl_ r) (sureqs r) (wrs r) (wr_ex_pool_ r) (engine_unacked_bytes_ r) (rto_ r) (cca r) (io_ctx_ r) (signal_cnts r) (consecutive_same_choice_bytes_ r) (last_qp_choice_ r) (rand_ r) (posted r) v.

Section tx.
Context {CC X P : Type} `{TxHooks CC X} `{PoolOps P} (cfg : config).
Implicit Types (c : sctx CC X P) (f : SubUcclFlow CC).

Definition get_flow (fid : Z) c : result (SubUcclFlow CC) :=
  match sender_flow_tbl_ c !! fid with Some f => Done f | None => Fail OutOfBounds end.
Definition put_flow (fid : Z) f c : sctx CC X P :=
  set_sender_flow_tbl_ (<[fid := f]> (sender_flow_tbl_ c)) c.
Definition get_wr (a : Z) c : wr_ex := default zero_wr (wrs c !! a).
Definition put_wr (a : Z) (w : wr_ex) c : sctx CC X P := set_wrs (<[a := w]> (wrs c)) c.

(** ** Path selection *)

Definition can_use_last_choice (msize : Z) c : bool * sctx CC X P :=
  let cond1 := msize <=? kMAXUseCacheQPSize in
  let cond2 := consecutive_same_choice_bytes_ c +[32] msize <=? kMAXConsecutiveSameChoiceBytes in
  if cond1 && cond2 then
    (true, set_consecutive_same_choice_bytes_ (consecutive_same_choice_bytes_ c +[32] msize) c)
  else (false, set_consecutive_same_choice_bytes_ 0 c).

(** A draw of the uniform distribution on [0, port_entropy_ - 1]. *)
Definition select_qpidx_rand c : Z * sctx CC X P :=
  match rand_ c with
  | [] => (0, c)
  | r :: l => (r mod port_entropy_ cfg, set_rand_ l c)
  end.

Definition select_qpidx_pot (msize : Z) f c : result (Z * sctx CC X P) :=
  let '(same, c) := can_use_last_choice msize c in
  if same : bool then Done (last_qp_choice_ c, c)
  else
    let '(q1, c) := select_qpidx_rand c in
    let '(q2, c) := select_qpidx_rand c in
    match aget (scoreboard_rtt_ f) q1, aget (scoreboard_rtt_ f) q2 with
    | Some r1, Some r2 =>
        let qpidx := if SFltb r1 r2 then q1 else q2 in
        Done (qpidx, set_last_qp_choice_ qpidx c)
    | _, _ => Fail OutOfBounds
    end.

(** ** Retransmission timer *)

Definition timer_data (fid : Z) : Timer.TimerData :=
  {| Timer.rdma_ctx := rdma_ctx_ cfg; Timer.flow := fid |}.

Definition arm_timer_for_flow (now fid : Z) f c : SubUcclFlow CC * sctx CC X P :=
  if rto_armed f then (f, c)
  else (set_rto_armed true f,
        set_rto_ (Timer.arm_timer now (rto_timeout_ cfg) (timer_data fid) (rto_ c)) c).

Definition rearm_timer_for_flow (now fid : Z) f c : SubUcclFlow CC * sctx CC X P :=
  if rto_armed f then
    (f, set_rto_ (Timer.rearm_timer now (rto_timeout_ cfg) (timer_data fid) (rto_ c)) c)
  else arm_timer_for_flow now fid f c.

Definition mark_flow_timeout f : SubUcclFlow CC := set_rto_armed false f.

Definition disarm_timer_for_flow (fid : Z) f c : SubUcclFlow CC * sctx CC X P :=
  if rto_armed f then
    (set_rto_armed false f, set_rto_ (Timer.disarm_timer (timer_data fid) (rto_ c)) c)
  else (f, c).

(** ** Transmission *)

(** Post a chunk on a path: choose the queue pair, signal every
    [kSignalInterval]-th request, remember the path, and track the chunk. *)
Definition post_wr (now u a csn : Z) (last : bool) (fid : Z) f c :
    result (SubUcclFlow CC * sctx CC X P) :=
  '(q, c) ← select_qpidx_pot (sge_length (get_wr a c)) f c;
  match aget (signal_cnts c) q with
  | None => Fail OutOfBounds
  | Some n =>
      let w := set_qpidx q (set_signaled (n mod kSignalInterval =? 0) (get_wr a c)) in
      let c := set_signal_cnts (aset (signal_cnts c) q (n +[32] 1)) (put_wr a w c) in
      let c := set_posted (posted c ++ [PostWrite q w]) c in
      let f := set_txtracking (txtracking f ++ [MkTrack u a now csn last]) f in
      Done (if rc_mode_ cfg then (f, c) else arm_timer_for_flow now fid f c)
  end.

(** The header bytes a chunk is charged with for pacing. *)
Definition hdr_overhead (chunk : Z) : Z :=
  if (chunk =? chunk_size_ cfg) && (mtu_bytes_ cfg =? 4096) then
    let num := (chunk_size_ cfg + 4096) / 4096 in
    if is_roce_ cfg then wrap 32 (num * IB_HDR_OVERHEAD) else wrap 32 (num * ROCE_IPV4_HDR_OVERHEAD)
  else
    let num_mtu := wrap 32 (chunk + mtu_bytes_ cfg) / mtu_bytes_ cfg in
    wrap 32 (num_mtu * (if is_roce_ cfg then ROCE_IPV4_HDR_OVERHEAD else IB_HDR_OVERHEAD)).

(** The work request of the next chunk of request [r]. *)
Definition fill_wr (r : sreq) (chunk imm wrid : Z) (w : wr_ex) : wr_ex :=
  MkWrEx (laddr r +[64] sent_offset r) (lkey r) chunk (raddr r +[64] sent_offset r) (rkey r)
    imm wrid (signaled w) (wureq w) (qpidx w) (wr_opcode w).

Definition chunk_wr_id (fid csn : Z) : Z :=
  if rc_mode_ cfg then Z.lor (wrap 64 (Z.shiftl csn 56)) fid else 0.

(** The chunk of work request [a] is posted, unless the congestion control puts
    it into the timing wheel. *)
Definition post_or_queue (now u a chunk csn : Z) (last : bool) (fid : Z) f c :
    result (SubUcclFlow CC * sctx CC X P) :=
  if bypass_pacing_ cfg then post_wr now u a csn last fid f c
  else
    '(queued, cc', x') ← EventOnQueueData (in_wheel_cnt_ f) a
      (chunk +[32] hdr_overhead chunk) now (Pcb.cc (pcb f)) (cca c);
    let f := set_cc_state cc' f in
    let c := set_cca x' c in
    if queued : bool then
      Done (set_in_wheel_cnt_ (in_wheel_cnt_ f +[32] 1) f, put_wr a (set_wureq u (get_wr a c)) c)
    else post_wr now u a csn last fid f c.

(** One iteration of [senderCC_tx_message] for a chunk of [chunk] bytes of
    request [u]. *)
Definition tx_chunk (now fid u chunk : Z) c : result (sctx CC X P) :=
  match sureqs c !! u with
  | None => Fail OutOfBounds
  | Some r =>
  f ← get_flow fid c;
  match pl_alloc (wr_ex_pool_ c) with
  | (None, _) => Fail CheckFailed
  | (Some a, p) =>
      let last := sent_offset r +[32] chunk =? wrap 32 (data_len r) in
      let '(csn, pcb') := Pcb.get_snd_nxt (pcb f) in
      let f := set_pcb pcb' f in
      let imm := Imm.make_imm fid last (rid r) csn in
      let w := fill_wr r chunk imm (chunk_wr_id fid (Imm.GetCSN imm)) (get_wr a c) in
      let c := put_wr a w (set_wr_ex_pool_ p c) in
      '(f, c) ← post_or_queue now u a chunk (Imm.GetCSN imm) (negb (Imm.GetHINT imm =? 0)) fid f c;
      let f := set_unacked_bytes_ (unacked_bytes_ f +[32] chunk) f in
      let r := set_sent_offset (sent_offset r +[32] chunk) r in
      Done (set_engine_unacked_bytes_ (engine_unacked_bytes_ c +[32] chunk)
             (set_sureqs (<[u := r]> (sureqs c)) (put_flow fid f c)))
  end
  end.

(** The loop of [senderCC_tx_message]; [false] is the return before the whole
    message is handed out.  Every iteration but that of an empty message
    advances [sent_offset]. *)
Fixpoint tx_loop (fuel : nat) (now fid u : Z) c : result (bool * sctx CC X P) :=
  match fuel with
  | O => Fail OutOfBounds
  | S fuel =>
      match sureqs c !! u with
      | None => Fail OutOfBounds
      | Some r =>
      if (sent_offset r <? wrap 32 (data_len r)) || (data_len r =? 0) then
        f ← get_flow fid c;
        let '(chunk, cc') := EventOnChunkSize (unacked_bytes_ f) (engine_unacked_bytes_ c)
          (wrap 32 (data_len r - sent_offset r)) (Pcb.cc (pcb f)) in
        let c := put_flow fid (set_cc_state cc' f) c in
        if (chunk =? 0) && negb (data_len r =? 0) then Done (false, c)
        else
          c ← tx_chunk now fid u chunk c;
          if data_len r =? 0 then Done (true, c) else tx_loop fuel now fid u c
      else Done (true, c)
      end
  end.

Definition senderCC_tx_message (now u : Z) c : result (bool * sctx CC X P) :=
  match sureqs c !! u with
  | None => Fail OutOfBounds
  | Some r =>
      tx_loop (S (Z.to_nat (data_len r - sent_offset r))) now (context r) u c
  end.

(** ** The timing wheel *)

(** One iteration of [burst_timing_wheel]: the head of the ready queue. *)
Definition burst_one `{!Pacer X} (now a : Z) c : result (sctx CC X P) :=
  let w := get_wr a c in
  match sureqs c !! wureq w with
  | None => Fail OutOfBounds
  | Some r =>
      let fid := context r in
      f ← get_flow fid c;
      let imm := imm_data w in
      '(f, c) ← post_wr now (wureq w) a (Imm.GetCSN imm) (negb (Imm.GetHINT imm =? 0)) fid f c;
      let f := set_in_wheel_cnt_ (in_wheel_cnt_ f -[32] 1) f in
      Done (put_flow fid f (set_cca (pc_pop (cca c)) c))
  end.

Fixpoint burst_loop `{!Pacer X} (n : nat) (now : Z) c : result (sctx CC X P) :=
  match n with
  | O => Done c
  | S n =>
      match pc_ready (cca c) with
      | [] => Fail OutOfBounds
      | a :: _ =>
          c ← burst_one now a c;
          if kMaxUnAckedBytesPerEngineHigh cfg <=? engine_unacked_bytes_ c then Done c
          else burst_loop n now c
      end
  end.

Definition burst_timing_wheel `{!Pacer X} (now : Z) c : result (sctx CC X P) :=
  x ← pc_reap now (cca c);
  let c := set_cca x c in
  let num_chunks := Z.min kMaxBurstTW (alen (pc_ready x)) in
  burst_loop (Z.to_nat num_chunks) now c.

(** ** Retransmission *)

Definition try_retransmit_chunk (a : Z) f c : result (bool * SubUcclFlow CC * sctx CC X P) :=
  let w := get_wr a c in
  let '(ok, (imm, rtx, cc')) :=
    EventOnTxRTXData (sge_length w) (backlog_bytes_ f) (imm_data w) (in_rtx f) (Pcb.cc (pcb f)) in
  let f := set_in_rtx rtx (set_cc_state cc' f) in
  let c := put_wr a (set_imm_data imm w) c in
  if negb ok then Done (false, f, c)
  else
    '(hdr, s) ← Io.pop_retr_hdr (io_ctx_ c);
    '(desc, s) ← Io.pop_cqe_desc s;
    let c := set_io_ctx_ (Io.set_desc desc hdr s) c in
    Done (true, f,
      set_posted (posted c ++
        [PostRtx (qpidx w) hdr (remote_addr w) imm (sge_addr w) (sge_length w)]) c).

(** [get_unacked_chunk_from_idx]. *)
Definition get_unacked_chunk_from_idx (idx : Z) f : result ChunkTrack :=
  match aget (txtracking f) idx with Some t => Done t | None => Fail OutOfBounds end.

Definition count_rexmit (rto : bool) f : SubUcclFlow CC :=
  let p := pcb f in
  if rto then
    set_pcb (Pcb.set_rto_rexmits_consectutive (Pcb.rto_rexmits_consectutive p +[16] 1)
      (Pcb.set_stats_rto_rexmits (Pcb.stats_rto_rexmits p +[32] 1) p)) f
  else set_pcb (Pcb.set_stats_fast_rexmits (Pcb.stats_fast_rexmits p +[32] 1) p) f.

(** The holes of the SACK bitmap, from index [index] while [count] set bits are
    left: the loop of [__retransmit_for_flow].  [fuel] is what is left of the
    [kSackBitmapSize] indices. *)
Fixpoint rtx_loop (fuel : nat) (base count index : Z) (done : bool) f c :
    result (bool * SubUcclFlow CC * sctx CC X P) :=
  match fuel with
  | O => Done (done, f, c)
  | S fuel =>
      if (count =? 0) || bool_decide (txtracking f = []) then Done (done, f, c)
      else
        set ← Pcb.bit_is_set (Pcb.tx_sack_bitmap (pcb f)) index;
        if set : bool then rtx_loop fuel base (count -[8] 1) (index + 1) done f c
        else
          t ← get_unacked_chunk_from_idx index f;
          if Csn.add base (Csn.of_uint32 index) =? tcsn t then
            '(ok, f, c) ← try_retransmit_chunk (twr_ex t) f c;
            if ok : bool then rtx_loop fuel base count (index + 1) true f c
            else Done (done, f, c)
          else rtx_loop fuel base count (index + 1) done f c
  end.

Definition retransmit_for_flow (now fid : Z) (rto : bool) f c :
    result (SubUcclFlow CC * sctx CC X P) :=
  match txtracking f with
  | [] => Done (f, c)
  | oldest :: _ =>
      let count := Pcb.tx_sack_bitmap_count (pcb f) in
      if count =? 0 then
        '(_, f, c) ← try_retransmit_chunk (twr_ex oldest) f c;
        let '(f, c) := rearm_timer_for_flow now fid f c in
        Done (count_rexmit rto f, c)
      else
        let base := Csn.of_uint32 (Pcb.tx_sack_bitmap_base (pcb f)) in
        '(done, f, c) ← rtx_loop (Z.to_nat Pcb.kSackBitmapSize) base count 0 false f c;
        let '(f, c) := rearm_timer_for_flow now fid f c in
        Done (if done : bool then count_rexmit rto f else f, c)
  end.

(** [fast_retransmit_for_flow] and [rto_retransmit_for_flow] work on RoCE only
    ([kTestLoss] is false). *)
Definition fast_retransmit_for_flow (now fid : Z) f c : result (SubUcclFlow CC * sctx CC X P) :=
  if is_roce_ cfg then retransmit_for_flow now fid false f c else Done (f, c).
Definition rto_retransmit_for_flow (now fid : Z) f c : result (SubUcclFlow CC * sctx CC X P) :=
  if is_roce_ cfg then retransmit_for_flow now fid true f c else Done (f, c).

Definition drain_rtx_queue (now fid : Z) f c : result (SubUcclFlow CC * sctx CC X P) :=
  fast_retransmit_for_flow now fid f c.

(** ** Acknowledgements *)

Definition us_to_cycles (us : double) : Z :=
  cast_uint 64 (us * of_Z 1000 * freq_ghz cfg)%D.

(** The delay of the fabric: the time since the oldest chunk [t1] less the time
    spent in the end points and on the wire.  [now1] and [now2] are the times
    read where a time stamp is not credible. *)
Definition fabric_delay (t1 t5 t6 remote_queueing seg_size now1 now2 : Z) : Z :=
  let t5 := if t5 <=? t1 then now1 else t5 in
  let endpoint := wrap 64 (t6 - t5 + remote_queueing) in
  let fabric := wrap 64 (t6 - t1 - endpoint) in
  let serial := us_to_cycles (of_Z seg_size * of_Z 1000000 / link_speed_ cfg)%D in
  if (serial <? fabric) || SFltb (to_usec fabric (freq_ghz cfg)) (of_Z kMAXRTTUS) then
    fabric -[64] serial
  else
    let endpoint := wrap 64 (t6 - now2 + remote_queueing) in
    let fabric := wrap 64 (t6 - t1 - endpoint) in
    if serial <? fabric then fabric -[64] serial else 0.

(** The loop of [ack_transmitted_chunks]: the oldest [n] chunks are released.
    [t1] is the first time stamp that is not zero, [seg] the bytes released. *)
Fixpoint ack_loop (n : nat) (t1 seg : Z) f c : result (Z * Z * SubUcclFlow CC * sctx CC X P) :=
  match n with
  | O => Done (t1, seg, f, c)
  | S n =>
      match txtracking f with
      | [] => Fail OutOfBounds
      | t :: rest =>
          let c := if last_chunk t then set_swoken (swoken c ++ [tureq t]) c else c in
          let len := sge_length (get_wr (twr_ex t) c) in
          let f := set_unacked_bytes_ (unacked_bytes_ f -[32] len) (set_txtracking rest f) in
          let c := set_wr_ex_pool_ (pl_free (twr_ex t) (wr_ex_pool_ c)) c in
          ack_loop n (if t1 =? 0 then timestamp t else t1) (seg +[32] len) f c
      end
  end.

Definition ack_transmitted_chunks (num_acked t5 t6 remote_queueing now1 now2 : Z) f c :
    result (Z * SubUcclFlow CC * sctx CC X P) :=
  '(t1, seg, f, c) ← ack_loop (Z.to_nat num_acked) 0 0 f c;
  let d := fabric_delay t1 t5 t6 remote_queueing seg now1 now2 in
  f ← (if d =? 0 then Done f
       else cc' ← on_rtt now2 t6 d seg (Pcb.cc (pcb f)); Done (set_cc_state cc' f));
  Done (d, f, c).

(** The fast-recovery loop of [uc_rx_ack] over the bitmap of the ACK. *)
Fixpoint recovery_loop (fuel : nat) (now fid : Z) (bitmap : list Z) (count index : Z) f c :
    result (SubUcclFlow CC * sctx CC X P) :=
  match fuel with
  | O => Done (f, c)
  | S fuel =>
      if (count =? 0) || bool_decide (txtracking f = []) then Done (f, c)
      else
        set ← Pcb.bit_is_set bitmap index;
        if set : bool then recovery_loop fuel now fid bitmap (count -[16] 1) (index + 1) f c
        else
          t ← get_unacked_chunk_from_idx index f;
          '(stop, f, c) ←
            (if Csn.add (Pcb.snd_una (pcb f)) (Csn.of_uint32 index) =? tcsn t then
               '(ok, f, c) ← try_retransmit_chunk (twr_ex t) f c;
               if ok : bool then Done (false, count_rexmit false f, c) else Done (true, f, c)
             else Done (false, f, c));
          let '(f, c) := rearm_timer_for_flow now fid f c in
          if stop : bool then Done (f, c)
          else recovery_loop fuel now fid bitmap count (index + 1) f c
  end.

(** A duplicate ACK. *)
Definition rx_dup_ack (now fid : Z) (h : Io.UcclSackHdr) f c :
    result (SubUcclFlow CC * sctx CC X P) :=
  let '(rtx, cc') := EventOnRxNACK (in_rtx f) (Pcb.cc (pcb f)) in
  let f := set_in_rtx rtx (set_cc_state cc' f) in
  let dup := Pcb.duplicate_acks (pcb f) +[16] 1 in
  let f := set_pcb (Pcb.set_snd_ooo_acks (Csn.of_uint32 (Io.hsack_bitmap_count h))
                      (Pcb.set_duplicate_acks dup (pcb f))) f in
  let thres := if is_roce_ cfg then ROCE_DUP_ACK_THRES else 65536 in
  if dup <? thres then Done (f, c)
  else if dup =? thres then fast_retransmit_for_flow now fid f c
  else recovery_loop (Z.to_nat Pcb.kSackBitmapSize) now fid (Io.hsack_bitmap h)
         (Io.hsack_bitmap_count h) 0 f c.

(** An ACK of new data. *)
Definition rx_valid_ack (t5 t6 now1 now2 fid : Z) (h : Io.UcclSackHdr) f c :
    result (SubUcclFlow CC * sctx CC X P) :=
  let '(rtx, cc') := EventOnRxACK (in_rtx f) (Pcb.cc (pcb f)) in
  let f := set_in_rtx rtx (set_cc_state cc' f) in
  let num_acked := Csn.sub (Csn.of_uint32 (Io.ackno h)) (Pcb.snd_una (pcb f)) in
  let rq := us_to_cycles (of_Z (Io.remote_queueing h)) in
  let before := unacked_bytes_ f in
  '(rtt, f, c) ← ack_transmitted_chunks num_acked t5 t6 rq now1 now2 f c;
  let reduced := before -[32] unacked_bytes_ f in
  let c := set_engine_unacked_bytes_ (engine_unacked_bytes_ c -[32] reduced) c in
  f ← (if Io.path h <? port_entropy_ cfg then update_scoreboard_rtt (freq_ghz cfg) rtt (Io.path h) f
       else Done f);
  let p := Pcb.set_rto_rexmits_consectutive 0 (Pcb.set_snd_ooo_acks 0
             (Pcb.set_duplicate_acks 0 (Pcb.set_snd_una (Csn.of_uint32 (Io.ackno h)) (pcb f)))) in
  let f := set_pcb p f in
  Done (if bool_decide (txtracking f = []) then disarm_timer_for_flow fid f c
        else rearm_timer_for_flow now2 fid f c).

(** The copy of the bitmap at the sender. *)
Definition copy_sack (h : Io.UcclSackHdr) f : SubUcclFlow CC :=
  set_pcb (Pcb.set_tx_sack_bitmap_base (Io.ackno h)
    (Pcb.set_tx_sack_bitmap_count (wrap 8 (Io.hsack_bitmap_count h))
      (Pcb.set_tx_sack_bitmap (Io.hsack_bitmap h) (pcb f)))) f.

Definition uc_rx_ack (t5 t6 now1 now2 : Z) (h : Io.UcclSackHdr) c : result (sctx CC X P) :=
  let fid := Io.hfid h in
  f ← get_flow fid c;
  let ackno := Csn.of_uint32 (Io.ackno h) in
  if Csn.seqno_lt ackno (Pcb.snd_una (pcb f)) then Done c
  else if Csn.seqno_gt ackno (Pcb.snd_nxt (pcb f)) then Done c
  else
    '(f, c) ← (if Csn.seqno_eq ackno (Pcb.snd_una (pcb f)) then rx_dup_ack now2 fid h f c
               else rx_valid_ack t5 t6 now1 now2 fid h f c);
    Done (put_flow fid (copy_sack h f) c).

(** The search of [ack_rc_transmitted_chunks]. *)
Fixpoint take_csn (csn : Z) (l : list ChunkTrack) : option (ChunkTrack * list ChunkTrack) :=
  match l with
  | [] => None
  | t :: l =>
      if tcsn t =? csn then Some (t, l)
      else match take_csn csn l with Some (x, l') => Some (x, t :: l') | None => None end
  end.

(** [ack_rc_transmitted_chunks]: the pair it returns is the transmission time
    and the path.  Without the chunk both are uninitialised. *)
Definition ack_rc_transmitted_chunks (csn now : Z) f c :
    result (Z * Z * SubUcclFlow CC * sctx CC X P) :=
  match take_csn csn (txtracking f) with
  | None => Fail OutOfBounds
  | Some (t, rest) =>
      let w := get_wr (twr_ex t) c in
      match sureqs c !! tureq t with
      | None => Fail OutOfBounds
      | Some r =>
          let len := sge_length w in
          let acked := acked_bytes r +[32] len in
          let c := set_sureqs (<[tureq t := set_acked_bytes acked r]> (sureqs c)) c in
          let c := if acked =? wrap 32 (data_len r) then set_swoken (swoken c ++ [tureq t]) c else c in
          let c := set_engine_unacked_bytes_ (engine_unacked_bytes_ c -[32] len) c in
          let c := set_wr_ex_pool_ (pl_free (twr_ex t) (wr_ex_pool_ c)) c in
          let f := set_txtracking rest (set_unacked_bytes_ (unacked_bytes_ f -[32] len) f) in
          cc' ← on_rtt now now (now -[64] timestamp t) len (Pcb.cc (pcb f));
          let f := set_cc_state cc' f in
          Done (timestamp t, qpidx w, f, c)
      end
  end.

Definition rc_rx_ack (now wrid : Z) c : result (sctx CC X P) :=
  let csn := Z.land (Z.shiftr wrid 56) 0xff in
  let fid := Z.land wrid 0xffffffffffffff in
  f ← get_flow fid c;
  '(ts, q, f, c) ← ack_rc_transmitted_chunks (Csn.of_uint32 csn) now f c;
  f ← update_scoreboard_rtt (freq_ghz cfg) ts q f;
  Done (put_flow fid f c).

(** A flow whose retransmission timer expired ([UcclRDMAEngine::process_rto]). *)
Definition handle_rto (now fid : Z) c : result (sctx CC X P) :=
  f ← get_flow fid c;
  '(f, c) ← rto_retransmit_for_flow now fid (mark_flow_timeout f) c;
  Done (put_flow fid f c).
End tx.

End Tx.
