(* ===== verification/SenderSpec.v ===== *)
(** * Sending messages and retransmitting chunks

    What [senderCC_tx_message] posts: the chunks of a message are a contiguous
    partition of its bytes with consecutive sequence numbers.  And what
    retransmission leaves alone: the windows of all flows. *)

From S2P Require Import Prelude Float64 Csn Queues Pcb SharedIo Flow Timer Sender.

Module TxSpec.
Import Flow Tx.

(** ** Chunks *)

Record chunk := MkChunk { k_addr : Z; k_ureq : Z; k_len : Z; k_last : bool }.

Fixpoint bytes (l : list chunk) : Z :=
  match l with [] => 0 | k :: l => k_len k + bytes l end.

Lemma bytes_app l k : bytes (l ++ k) = bytes l + bytes k.
Proof. induction l; simpl; lia. Qed.

(** What the tracking list says of the chunk at position [n]. *)
Definition track_of (n : Z) (k : chunk) : Z * Z * Z * bool :=
  (k_ureq k, k_addr k, Csn.csn n, k_last k).
Definition track_key (t : ChunkTrack) : Z * Z * Z * bool :=
  (tureq t, twr_ex t, tcsn t, last_chunk t).

Fixpoint tracks (n : Z) (l : list chunk) : list (Z * Z * Z * bool) :=
  match l with [] => [] | k :: l => track_of n k :: tracks (n + 1) l end.

Lemma tracks_app l k : forall n, tracks n (l ++ k) = tracks n l ++ tracks (n + alen l) k.
Proof.
  induction l as [|x l IH]; intros n; simpl; [by rewrite alen_nil, Z.add_0_r|].
  rewrite IH, alen_cons. do 3 f_equal. lia.
Qed.

Lemma tracks_length l : forall n, length (tracks n l) = length l.
Proof. induction l; intros n; simpl; auto. Qed.

(** ** Posting a chunk *)

Section post.
Context {CC X P : Type} `{TxHooks CC X} `{PoolOps P} (cfg : config).
Implicit Types (c : sctx CC X P) (f : SubUcclFlow CC).

(** The path tables cover the [port_entropy_] queue pairs. *)
Record paths_ok c : Prop := {
  p_pos : 0 < port_entropy_ cfg;
  p_cnts : alen (signal_cnts c) = port_entropy_ cfg;
  p_last : 0 <= last_qp_choice_ c < port_entropy_ cfg;
}.
Definition flow_paths f : Prop := alen (scoreboard_rtt_ f) = port_entropy_ cfg.

Lemma rand_range c : 0 < port_entropy_ cfg -> 0 <= fst (select_qpidx_rand cfg c) < port_entropy_ cfg.
Proof.
  intros. unfold select_qpidx_rand. destruct (rand_ c); simpl; [lia|].
  by apply Z.mod_pos_bound.
Qed.

(** The context with another path state. *)
Definition same_but_paths c c' : Prop :=
  sender_flow_tbl_ c' = sender_flow_tbl_ c /\ sureqs c' = sureqs c /\ wrs c' = wrs c /\
  wr_ex_pool_ c' = wr_ex_pool_ c /\ engine_unacked_bytes_ c' = engine_unacked_bytes_ c /\
  rto_ c' = rto_ c /\ cca c' = cca c /\ io_ctx_ c' = io_ctx_ c /\
  signal_cnts c' = signal_cnts c /\ posted c' = posted c /\ swoken c' = swoken c.

Lemma rand_same c : same_but_paths c (snd (select_qpidx_rand cfg c)).
Proof. unfold select_qpidx_rand. by destruct (rand_ c). Qed.

Lemma select_qpidx_pot_ok msize f c :
  paths_ok c -> flow_paths f ->
  exists q c', select_qpidx_pot cfg msize f c = Done (q, c') /\
    0 <= q < port_entropy_ cfg /\ same_but_paths c c' /\ paths_ok c'.
Proof.
  intros [Hp Hc Hl] Hf. unfold select_qpidx_pot, can_use_last_choice.
  destruct (_ && _); [by eexists _, _; split; [done|]|].
  set (c0 := set_consecutive_same_choice_bytes_ 0 c).
  pose proof (rand_range c0 Hp) as H1. destruct (select_qpidx_rand cfg c0) as [q1 c1] eqn:E1.
  pose proof (rand_range c1 Hp) as H2. destruct (select_qpidx_rand cfg c1) as [q2 c2] eqn:E2.
  assert (same_but_paths c c2) as Hs.
  { pose proof (rand_same c0) as S1. rewrite E1 in S1. pose proof (rand_same c1) as S2.
    rewrite E2 in S2. unfold same_but_paths in *. simpl in *. intuition congruence. }
  assert (signal_cnts c2 = signal_cnts c) as Es by apply Hs.
  simpl in H1, H2. unfold flow_paths in Hf.
  destruct (aget_is_Some (scoreboard_rtt_ f) q1) as [r1 ->]; [lia|].
  destruct (aget_is_Some (scoreboard_rtt_ f) q2) as [r2 ->]; [lia|].
  eexists _, _. split; [done|].
  assert (0 <= (if SpecFloat.SFltb r1 r2 then q1 else q2) < port_entropy_ cfg) by (by case_match).
  split; [done|]. split; [done|]. split; simpl; [done|congruence|done].
Qed.

(** The members of a work request that posting does not change. *)
Definition wr_key (w : wr_ex) : Z * Z * Z * Z := (sge_addr w, remote_addr w, sge_length w, imm_data w).

Lemma arm_timer_same now fid f c :
  let '(f', c') := arm_timer_for_flow cfg now fid f c in
  f' = set_rto_armed true f /\ sender_flow_tbl_ c' = sender_flow_tbl_ c /\ sureqs c' = sureqs c /\
  wrs c' = wrs c /\ wr_ex_pool_ c' = wr_ex_pool_ c /\
  engine_unacked_bytes_ c' = engine_unacked_bytes_ c /\ cca c' = cca c /\
  posted c' = posted c /\ swoken c' = swoken c /\ (paths_ok c -> paths_ok c').
Proof.
  unfold arm_timer_for_flow. destruct (rto_armed f) eqn:E; split_and!; try done.
  - destruct f. simpl in *. by subst.
  - intros [? ? ?]. by split.
Qed.

(** The flow after a chunk was posted. *)
Definition posted_flow (now u a csn : Z) (last : bool) f : SubUcclFlow CC :=
  let f := set_txtracking (txtracking f ++ [MkTrack u a now csn last]) f in
  if rc_mode_ cfg then f else set_rto_armed true f.

Lemma post_wr_ok now u a csn last fid f c :
  paths_ok c -> flow_paths f ->
  exists c' q w, post_wr cfg now u a csn last fid f c = Done (posted_flow now u a csn last f, c') /\
    paths_ok c' /\ 0 <= q < port_entropy_ cfg /\
    wr_key w = wr_key (get_wr a c) /\ wureq w = wureq (get_wr a c) /\ qpidx w = q /\
    wrs c' = <[a := w]> (wrs c) /\ posted c' = posted c ++ [PostWrite q w] /\
    sender_flow_tbl_ c' = sender_flow_tbl_ c /\ sureqs c' = sureqs c /\
    wr_ex_pool_ c' = wr_ex_pool_ c /\ engine_unacked_bytes_ c' = engine_unacked_bytes_ c /\
    cca c' = cca c /\ swoken c' = swoken c.
Proof.
  intros Hc Hf. unfold post_wr.
  destruct (select_qpidx_pot_ok (sge_length (get_wr a c)) f c Hc Hf)
    as (q & c1 & -> & Hq & (E1&E2&E3&E4&E5&E6&E7&E8&E9&E10&E11) & [Hp1 Hp2 Hp3]).
  cbn [mbind result_bind]. destruct (aget_is_Some (signal_cnts c1) q) as [n ->]; [lia|].
  assert (get_wr a c1 = get_wr a c) as Ew by (unfold get_wr; by rewrite E3).
  unfold posted_flow. set (f1 := set_txtracking _ f). set (w := set_qpidx q _).
  set (c2 := set_posted _ _).
  assert (paths_ok c2) as Hc2 by (split; simpl; rewrite ?alen_aset; done).
  assert (wr_key w = wr_key (get_wr a c) /\ wureq w = wureq (get_wr a c)) as [K1 K2].
  { unfold w. rewrite Ew. done. }
  pose proof (arm_timer_same now fid f1 c2) as Ha.
  destruct (arm_timer_for_flow cfg now fid f1 c2) as [f2 c3].
  destruct Ha as (-> & A1 & A2 & A3 & A4 & A5 & A6 & A7 & A8 & A9).
  destruct (rc_mode_ cfg); (eexists _, q, w; split; [done|]); rewrite ?A1, ?A2, ?A3, ?A4, ?A5, ?A6, ?A7, ?A8;
    simpl; rewrite ?E1, ?E2, ?E3, ?E4, ?E5, ?E7, ?E10, ?E11; split_and!; auto; lia.
Qed.

(** ** Sending a chunk *)

(** The work request of the chunk of [len] bytes at offset [off] of request [r],
    at position [n] of flow [fid]. *)
Definition chunk_last (r : sreq) (off len : Z) : bool := off +[32] len =? wrap 32 (data_len r).
Definition chunk_key (r : sreq) (fid n off len : Z) : Z * Z * Z * Z :=
  (laddr r +[64] off, raddr r +[64] off, len,
   Imm.make_imm fid (chunk_last r off len) (rid r) (Csn.csn n)).

(** What the congestion control decided: the chunk goes to the wheel. *)
Definition queue_decision (now fid a len : Z) f c (qd : bool) : Prop :=
  if bypass_pacing_ cfg then qd = false
  else exists cc' x', EventOnQueueData (in_wheel_cnt_ f) a (len +[32] hdr_overhead cfg len) now
    (Pcb.cc (pcb f)) (cca c) = Done (qd, cc', x').

(** The flow after a chunk at position [n] was handed out. *)
Record sent_flow (qd : bool) (now u a n len : Z) (last : bool) f f' : Prop := {
  sf_trk : txtracking f' =
    if qd then txtracking f else txtracking f ++ [MkTrack u a now (Csn.csn n) last];
  sf_wheel : in_wheel_cnt_ f' = if qd then in_wheel_cnt_ f +[32] 1 else in_wheel_cnt_ f;
  sf_una : Pcb.snd_una (pcb f') = Pcb.snd_una (pcb f);
  sf_nxt : Pcb.snd_nxt (pcb f') = Csn.csn (n + 1);
  sf_bytes : unacked_bytes_ f' = unacked_bytes_ f +[32] len;
  sf_paths : scoreboard_rtt_ f' = scoreboard_rtt_ f;
}.

Lemma make_imm_csn fid last rid n :
  Imm.GetCSN (Imm.make_imm fid last rid (Csn.csn n)) = Csn.csn n /\
  Imm.GetHINT (Imm.make_imm fid last rid (Csn.csn n)) = Z.b2z last.
Proof.
  destruct (Imm.make_imm_fields fid last rid (Csn.csn n)) as (_ & -> & _ & -> & _).
  split; [|done]. apply Z.mod_small. change (2 ^ 8) with 256. apply Csn.csn_range.
Qed.

Lemma queue_decision_queued now fid a len f c :
  queue_decision now fid a len f c true -> bypass_pacing_ cfg = false /\
  exists cc' x', EventOnQueueData (in_wheel_cnt_ f) a (len +[32] hdr_overhead cfg len) now
    (Pcb.cc (pcb f)) (cca c) = Done (true, cc', x').
Proof. unfold queue_decision. destruct (bypass_pacing_ cfg); [done|auto]. Qed.

Lemma queue_decision_posted now a len fid u csn last f c :
  queue_decision now fid a len f c false ->
  exists f2 c2,
    post_or_queue cfg now u a len csn last fid f c
      = post_wr cfg now u a csn last fid f2 c2 /\
    Pcb.snd_una (pcb f2) = Pcb.snd_una (pcb f) /\ Pcb.snd_nxt (pcb f2) = Pcb.snd_nxt (pcb f) /\
    txtracking f2 = txtracking f /\ in_wheel_cnt_ f2 = in_wheel_cnt_ f /\
    unacked_bytes_ f2 = unacked_bytes_ f /\ scoreboard_rtt_ f2 = scoreboard_rtt_ f /\
    wrs c2 = wrs c /\ posted c2 = posted c /\ sender_flow_tbl_ c2 = sender_flow_tbl_ c /\
    sureqs c2 = sureqs c /\ wr_ex_pool_ c2 = wr_ex_pool_ c /\
    engine_unacked_bytes_ c2 = engine_unacked_bytes_ c /\ swoken c2 = swoken c /\
    (paths_ok c -> paths_ok c2).
Proof.
  unfold queue_decision, post_or_queue. destruct (bypass_pacing_ cfg); [intros _; by exists f, c|].
  intros (cc' & x' & ->). cbn [mbind result_bind].
  exists (set_cc_state cc' f), (set_cca x' c). split_and!; try done.
  intros [? ? ?]. by split.
Qed.

Lemma tx_chunk_ok `{!PoolLaws P} now fid u len c r f a free cap n qd :
  paths_ok c -> sender_flow_tbl_ c !! fid = Some f -> flow_paths f ->
  sureqs c !! u = Some r -> pl_repr (wr_ex_pool_ c) cap (a :: free) ->
  Pcb.snd_nxt (pcb f) = Csn.csn n -> queue_decision now fid a len f c qd ->
  exists c' f' w, tx_chunk cfg now fid u len c = Done c' /\ paths_ok c' /\
    sender_flow_tbl_ c' = <[fid := f']> (sender_flow_tbl_ c) /\
    sent_flow qd now u a n len (chunk_last r (sent_offset r) len) f f' /\
    sureqs c' = <[u := set_sent_offset (sent_offset r +[32] len) r]> (sureqs c) /\
    pl_repr (wr_ex_pool_ c') cap free /\
    (forall b, wrs c' !! b = if decide (b = a) then Some w else wrs c !! b) /\
    wr_key w = chunk_key r fid n (sent_offset r) len /\ (qd = true -> wureq w = u) /\
    (if qd then posted c' = posted c
     else exists q, 0 <= q < port_entropy_ cfg /\ posted c' = posted c ++ [PostWrite q w] /\ qpidx w = q) /\
    engine_unacked_bytes_ c' = engine_unacked_bytes_ c +[32] len /\ swoken c' = swoken c.
Proof.
  intros Hc Hf Hfp Hr Hp Hn Hqd. unfold tx_chunk, get_flow. rewrite Hr, Hf. cbn [mbind result_bind].
  destruct (pl_alloc_cons _ _ _ _ Hp) as (p' & -> & Hp'). unfold Pcb.get_snd_nxt. rewrite Hn.
  fold (chunk_last r (sent_offset r) len). set (last := chunk_last r (sent_offset r) len).
  set (f1 := set_pcb _ f). set (imm := Imm.make_imm _ _ _ _). set (w1 := fill_wr _ _ _ _ _).
  set (c1 := put_wr a w1 _).
  destruct (make_imm_csn fid last (rid r) n) as [Ecsn Ehint]. fold imm in Ecsn, Ehint.
  rewrite Ecsn, Ehint. replace (negb (Z.b2z last =? 0)) with last by (by destruct last).
  assert (paths_ok c1) as Hc1 by (destruct Hc; by split).
  assert (get_wr a c1 = w1) as Ew1.
  { unfold get_wr, c1. simpl. by rewrite lookup_insert_eq. }
  assert (forall f2, Pcb.snd_una (pcb f2) = Pcb.snd_una (pcb f) ->
    Pcb.snd_nxt (pcb f2) = Csn.csn (n + 1) -> txtracking f2 = txtracking f ->
    in_wheel_cnt_ f2 = in_wheel_cnt_ f -> unacked_bytes_ f2 = unacked_bytes_ f ->
    scoreboard_rtt_ f2 = scoreboard_rtt_ f ->
    sent_flow false now u a n len last f (set_unacked_bytes_ (unacked_bytes_ f2 +[32] len)
      (posted_flow now u a (Csn.csn n) last f2))) as Hsf.
  { intros f2 E1 E2 E3 E4 E5 E6. unfold posted_flow.
    destruct (rc_mode_ cfg); split; simpl; congruence. }
  assert (Csn.add_assign (Csn.csn n) 1 = Csn.csn (n + 1)) as Enxt by apply Csn.add_assign_csn.
  destruct qd.
  - destruct (queue_decision_queued now fid a len f1 c1 Hqd) as (Eb & cc' & x' & E).
    unfold post_or_queue. rewrite Eb, E. cbn [mbind result_bind]. eexists _, _, (set_wureq u w1).
    split; [reflexivity|]. simpl. unfold get_wr, c1. simpl. rewrite lookup_insert_eq. simpl.
    split_and!; try done; try (destruct Hc; by split).
    intros b. case_decide as Ea; [subst; by rewrite lookup_insert_eq|].
    by rewrite !lookup_insert_ne by congruence.
  - destruct (queue_decision_posted now a len fid u (Csn.csn n) last f1 c1) as (f2 & c2 & -> & Hf2);
      [exact Hqd|]. destruct Hf2 as (E1 & E2 & E3 & E4 & E5 & E6 & G1 & G2 & G3 & G4 & G5 & G6 & G7 & Hc2).
    destruct (post_wr_ok now u a (Csn.csn n) last fid f2 c2) as
      (c3 & q & w & -> & Hc3 & Hq & Hk & _ & Hqi & Hw3 & P1 & P2 & P3 & P4 & P5 & _ & P6);
      [auto|unfold flow_paths; rewrite E6; exact Hfp|].
    cbn [mbind result_bind]. eexists _, _, w. split; [reflexivity|].
    replace (unacked_bytes_ (posted_flow now u a (Csn.csn n) last f2)) with (unacked_bytes_ f2)
      by (unfold posted_flow; by destruct (rc_mode_ cfg)).
    simpl. rewrite P2, P3, P4, P5, P6, P1, G2, G3, G4, G5, G6, G7.
    split_and!; try done; try (destruct Hc3; by split); [by apply Hsf; rewrite ?E2| | |by exists q].
    + intros b. rewrite Hw3, G1. unfold c1. simpl.
      case_decide as Ea; [subst; by rewrite lookup_insert_eq|].
      by rewrite !lookup_insert_ne by congruence.
    + rewrite Hk. unfold get_wr. rewrite G1. fold (get_wr a c1). by rewrite Ew1.
Qed.

(** ** Sending a message *)

(** The chunks of lengths [ls] of request [u] from offset [off] on, in the
    buffers [free]. *)
Fixpoint cut (r : sreq) (u off : Z) (free ls : list Z) : list chunk :=
  match free, ls with
  | a :: free, len :: ls => MkChunk a u len (chunk_last r off len) :: cut r u (off + len) free ls
  | _, _ => []
  end.

(** Their work requests, from position [n] of the flow on. *)
Fixpoint keys (r : sreq) (fid n off : Z) (ls : list Z) : list (Z * Z * Z * Z) :=
  match ls with
  | [] => []
  | len :: ls => chunk_key r fid n off len :: keys r fid (n + 1) (off + len) ls
  end.

Definition write_key (p : post) : option (Z * Z * Z * Z) :=
  match p with PostWrite _ w => Some (wr_key w) | PostRtx _ _ _ _ _ _ => None end.

Fixpoint sum (ls : list Z) : Z := match ls with [] => 0 | x :: ls => x + sum ls end.

(** [c'] is [c] after the chunks [ls] of request [u] of flow [fid] were posted,
    the first at offset [off] and position [n]. *)
Record handed (fid u : Z) (r : sreq) (n off : Z) (free ls : list Z) c f c' f' : Prop := {
  h_tbl : sender_flow_tbl_ c' = <[fid := f']> (sender_flow_tbl_ c);
  h_posted : exists ps, posted c' = posted c ++ ps /\ map write_key ps = map Some (keys r fid n off ls);
  h_trk : map track_key (txtracking f') = map track_key (txtracking f) ++ tracks n (cut r u off free ls);
  h_nxt : Pcb.snd_nxt (pcb f') = Csn.csn (n + alen ls);
  h_una : Pcb.snd_una (pcb f') = Pcb.snd_una (pcb f);
  h_bytes : unacked_bytes_ f' = wrap 32 (unacked_bytes_ f + sum ls);
  h_engine : engine_unacked_bytes_ c' = wrap 32 (engine_unacked_bytes_ c + sum ls);
  h_off : sureqs c' = <[u := set_sent_offset (off + sum ls) r]> (sureqs c);
  h_woken : swoken c' = swoken c;
}.

Definition direct `{!TxLaws CC X} : Prop := bypass_pacing_ cfg = true \/ may_queue = false.

Lemma direct_decision `{!TxLaws CC X} now fid a len f c :
  direct -> queue_decision now fid a len f c false.
Proof.
  unfold queue_decision. intros [->|E]; [done|].
  destruct (queue_never (in_wheel_cnt_ f) a (len +[32] hdr_overhead cfg len) now (Pcb.cc (pcb f))
    (cca c) E) as (? & ? & ?). destruct (bypass_pacing_ cfg); eauto.
Qed.

Lemma set_sent_offset_id r : set_sent_offset (sent_offset r) r = r.
Proof. by destruct r. Qed.

Lemma handed_nil fid u r n free c f f' :
  sender_flow_tbl_ c !! fid = Some f -> sureqs c !! u = Some r -> Pcb.snd_nxt (pcb f) = Csn.csn n ->
  in_word 32 (unacked_bytes_ f) -> in_word 32 (engine_unacked_bytes_ c) ->
  pcb f' = Pcb.set_cc (Pcb.cc (pcb f')) (pcb f) -> txtracking f' = txtracking f ->
  unacked_bytes_ f' = unacked_bytes_ f ->
  handed fid u r n (sent_offset r) free [] c f (put_flow fid f' c) f'.
Proof.
  intros Hf Hr Hn Hw1 Hw2 E1 E2 E3. split; simpl; try done.
  - exists []. by rewrite app_nil_r.
  - rewrite E2. destruct free; by rewrite app_nil_r.
  - rewrite E1, alen_nil, Z.add_0_r. done.
  - by rewrite E1.
  - by rewrite E3, Z.add_0_r, wrap_id.
  - by rewrite Z.add_0_r, wrap_id.
  - by rewrite Z.add_0_r, set_sent_offset_id, insert_id.
Qed.

Lemma handed_same fid u r n free c f :
  sender_flow_tbl_ c !! fid = Some f -> sureqs c !! u = Some r -> Pcb.snd_nxt (pcb f) = Csn.csn n ->
  in_word 32 (unacked_bytes_ f) /\ in_word 32 (engine_unacked_bytes_ c) ->
  handed fid u r n (sent_offset r) free [] c f c f.
Proof.
  intros Hf Hr Hn [Hw1 Hw2]. pose proof (handed_nil fid u r n free c f f Hf Hr Hn Hw1 Hw2) as Hh.
  replace (put_flow fid f c) with c in Hh; [apply Hh; [by destruct (pcb f)|done..]|].
  unfold put_flow. rewrite insert_id by done. by destruct c.
Qed.

Lemma keys_set_offset r fid o ls : forall n off,
  keys (set_sent_offset o r) fid n off ls = keys r fid n off ls.
Proof. induction ls; intros; simpl; f_equal; auto. Qed.

Lemma cut_set_offset r u o ls : forall off free,
  cut (set_sent_offset o r) u off free ls = cut r u off free ls.
Proof. induction ls; intros off [|]; simpl; f_equal; auto. Qed.

Lemma handed_cons fid u r n off a free len ls c f c1 f1 c' f' :
  handed fid u r n off [a] [len] c f c1 f1 ->
  handed fid u (set_sent_offset (off + len) r) (n + 1) (off + len) free ls c1 f1 c' f' ->
  handed fid u r n off (a :: free) (len :: ls) c f c' f'.
Proof.
  intros [A1 (ps1 & A2 & A2') A3 A4 A5 A6 A7 A8 A9] [B1 (ps2 & B2 & B2') B3 B4 B5 B6 B7 B8 B9].
  rewrite cut_set_offset in B3. rewrite keys_set_offset in B2'.
  split.
  - by rewrite B1, A1, insert_insert_eq.
  - exists (ps1 ++ ps2). rewrite B2, A2, app_assoc, map_app, B2', A2'. done.
  - rewrite B3, A3, <- app_assoc. done.
  - rewrite B4, alen_cons. f_equal. lia.
  - congruence.
  - rewrite B6, A6, wrap_add_l. simpl. f_equal. lia.
  - rewrite B7, A7, wrap_add_l. simpl. f_equal. lia.
  - rewrite B8, A8, insert_insert_eq. simpl. unfold set_sent_offset. simpl. f_equal. f_equal. lia.
  - congruence.
Qed.

(** The premises of sending: the flow and the request exist, the next position is
    [n], the pool has the buffers [free]. *)
Record can_send `{!PoolLaws P} (fid u : Z) (cap : Z) c f r (free : list Z) (n : Z) : Prop := {
  cs_paths : paths_ok c;
  cs_flow : sender_flow_tbl_ c !! fid = Some f;
  cs_fpaths : flow_paths f;
  cs_req : sureqs c !! u = Some r;
  cs_pool : pl_repr (wr_ex_pool_ c) cap free;
  cs_nxt : Pcb.snd_nxt (pcb f) = Csn.csn n;
  cs_bytes : in_word 32 (unacked_bytes_ f) /\ in_word 32 (engine_unacked_bytes_ c);
}.

Lemma tx_chunk_handed `{!PoolLaws P} `{!TxLaws CC X} now fid u len cap c f f0 cc' r a free n :
  direct -> can_send fid u cap c f0 r (a :: free) n -> f = set_cc_state cc' f0 ->
  0 <= sent_offset r -> 0 <= len -> sent_offset r + len < 2 ^ 31 ->
  exists c' f', tx_chunk cfg now fid u len (put_flow fid f c) = Done c' /\
    handed fid u r n (sent_offset r) [a] [len] c f0 c' f' /\
    can_send fid u cap c' f' (set_sent_offset (sent_offset r + len) r) free (n + 1).
Proof.
  intros Hd [Hp Hf Hfp Hr Hpool Hn [Hb1 Hb2]] -> Ho Hl Hs. set (f := set_cc_state cc' f0).
  destruct (tx_chunk_ok now fid u len (put_flow fid f c) r f a free cap n false)
    as (c' & f' & w & E & Hp' & Et & [S1 S2 S3 S4 S5 S6] & Er & Hpool' & _ & Hk & _ & (q & _ & Eq & _) & Ee & Ew);
    [by destruct Hp|by simpl; rewrite lookup_insert_eq|done|done|done|done|by apply direct_decision|].
  assert (sent_offset r +[32] len = sent_offset r + len) as Eo by (apply wrap_id; word_lia).
  rewrite Eo in *. simpl in *. rewrite insert_insert_eq in Et.
  exists c', f'. split; [done|]. split; split; try done.
  - exists [PostWrite q w]. simpl. by rewrite Hk.
  - rewrite S1, map_app. done.
  - rewrite S5. simpl. by rewrite Z.add_0_r.
  - rewrite Ee. simpl. by rewrite Z.add_0_r.
  - rewrite Er. simpl. by rewrite Z.add_0_r.
  - rewrite Et. by rewrite lookup_insert_eq.
  - unfold flow_paths. rewrite S6. exact Hfp.
  - rewrite Er. by rewrite lookup_insert_eq.
  - rewrite S5, Ee. split; apply wrap_range; lia.
Qed.

Lemma tx_chunk_no_buff `{!PoolLaws P} now fid u len c r f cap :
  sureqs c !! u = Some r -> sender_flow_tbl_ c !! fid = Some f ->
  pl_repr (wr_ex_pool_ c) cap [] -> tx_chunk cfg now fid u len c = Fail CheckFailed.
Proof.
  intros Hr Hf Hp. unfold tx_chunk, get_flow. rewrite Hr, Hf. cbn [mbind result_bind].
  by rewrite (pl_alloc_nil _ _ Hp).
Qed.

(** What sending the rest of a message does: the chunks [ls] are posted, until all
    is sent, the congestion control stops, or the pool is empty. *)
Definition tx_outcome (fid u : Z) c f r (free : list Z) (n : Z)
    (res : result (bool * sctx CC X P)) : Prop :=
  exists ls, alen ls <= alen free /\ Forall (fun len => 0 <= len) ls /\
    sent_offset r + sum ls <= data_len r /\
    ((exists c' f' b, res = Done (b, c') /\ handed fid u r n (sent_offset r) free ls c f c' f' /\
       (b = true <-> sent_offset r + sum ls = data_len r /\ (data_len r = 0 -> ls = [0])) /\
       (data_len r <> 0 -> Forall (fun len => 0 < len) ls))
     \/ res = Fail CheckFailed /\ alen ls = alen free /\
       (sent_offset r + sum ls < data_len r \/ data_len r = 0)).

Lemma tx_outcome_cons fid u len a free c1 f1 c f r n res :
  handed fid u r n (sent_offset r) [a] [len] c f c1 f1 -> 0 < len -> data_len r <> 0 ->
  tx_outcome fid u c1 f1 (set_sent_offset (sent_offset r + len) r) free (n + 1) res ->
  tx_outcome fid u c f r (a :: free) n res.
Proof.
  intros Hh Hl Hd (ls & H1 & H2 & H3 & H4). exists (len :: ls). simpl in *. rewrite !alen_cons.
  split; [lia|]. split; [constructor; [lia|done]|]. split; [lia|].
  destruct H4 as [(c' & f' & b & -> & Hh' & Hb & Hpos)|(-> & ? & ?)]; [left|right; split_and!; [done|lia..]].
  exists c', f', b. split; [done|]. split; [by eapply handed_cons|]. split.
  - rewrite Hb. split; intros [? ?]; (split; [lia|]); intros; by destruct Hd.
  - intros. constructor; auto.
Qed.

Lemma tx_loop_outcome `{!PoolLaws P} `{!TxLaws CC X} now fid u cap fuel : forall c f r free n,
  direct -> can_send fid u cap c f r free n ->
  0 <= sent_offset r <= data_len r -> data_len r < 2 ^ 31 ->
  data_len r - sent_offset r < Z.of_nat fuel ->
  tx_outcome fid u c f r free n (tx_loop cfg fuel now fid u c).
Proof.
  induction fuel as [|fuel IH]; intros c f r free n Hd Hs Ho Hl Hfuel; [lia|].
  pose proof Hs as [Hp Hf Hfp Hr Hpool Hn [Hb1 Hb2]]. cbn [tx_loop]. rewrite Hr.
  rewrite (wrap_id 32 (data_len r)) by word_lia.
  destruct (_ || _) eqn:Eg; cycle 1.
  { apply orb_false_iff in Eg as [E1 E2]. exists []. simpl. rewrite alen_nil.
    split; [apply alen_nonneg|]. split; [constructor|]. split; [lia|]. left.
    exists c, f, true. split; [done|]. split; [by apply handed_same|].
    split; [split; [lia|done]|done]. }
  unfold get_flow. rewrite Hf. cbn [mbind result_bind].
  rewrite (wrap_id 32 (_ - _)) by word_lia.
  pose proof (chunk_size_le (unacked_bytes_ f) (engine_unacked_bytes_ c)
    (data_len r - sent_offset r) (Pcb.cc (pcb f)) ltac:(lia)) as Hchunk.
  destruct (EventOnChunkSize _ _ _ _) as [len cc']. simpl in Hchunk.
  destruct ((len =? 0) && _) eqn:Estop.
  { exists []. simpl. rewrite alen_nil.
    split; [apply alen_nonneg|]. split; [constructor|]. split; [lia|]. left.
    eexists _, _, false. split; [done|]. split; [by apply handed_nil|].
    split; [split; [done|lia]|done]. }
  destruct free as [|a free].
  { exists []. split; [done|]. split; [constructor|]. split; [simpl; lia|]. right.
    split; [|simpl; lia].
    rewrite (tx_chunk_no_buff now fid u len _ r (set_cc_state cc' f) cap);
      [done|done|by simpl; rewrite lookup_insert_eq|done]. }
  destruct (tx_chunk_handed now fid u len cap c (set_cc_state cc' f) f cc' r a free n)
    as (c1 & f1 & -> & Hh & Hs1); try done; try lia.
  cbn [mbind result_bind]. destruct (data_len r =? 0) eqn:E0.
  - exists [len]. simpl. rewrite !alen_cons, alen_nil. pose proof (alen_nonneg free).
    split; [lia|]. split; [repeat constructor; lia|]. split; [lia|]. left.
    exists c1, f1, true. split; [done|]. split; [|split; [split; [|done]|lia]].
    + eapply handed_cons, handed_same; [exact Hh|apply Hs1..].
    + intros _. split; [lia|]. intros _. f_equal. lia.
  - apply (tx_outcome_cons fid u len a free c1 f1); [done|lia|lia|].
    apply IH; simpl; [done|done|lia..].
Qed.

End post.

(** ** Retransmission leaves the windows alone *)

Section keeps.
Context {CC X P : Type} `{TxHooks CC X} `{PoolOps P} (cfg : config).
Implicit Types (c : sctx CC X P) (f : SubUcclFlow CC).

(** The members of a flow that make up its window. *)
Definition same_window f f' : Prop :=
  txtracking f' = txtracking f /\ Pcb.snd_una (pcb f') = Pcb.snd_una (pcb f) /\
  Pcb.snd_nxt (pcb f') = Pcb.snd_nxt (pcb f) /\ in_wheel_cnt_ f' = in_wheel_cnt_ f /\
  unacked_bytes_ f' = unacked_bytes_ f /\ scoreboard_rtt_ f' = scoreboard_rtt_ f.

(** Those of a context; the work requests change at most in the immediate data,
    and only those of the flow's posted chunks. *)
Definition same_memory (T : list ChunkTrack) c c' : Prop :=
  sender_flow_tbl_ c' = sender_flow_tbl_ c /\ sureqs c' = sureqs c /\
  wr_ex_pool_ c' = wr_ex_pool_ c /\ engine_unacked_bytes_ c' = engine_unacked_bytes_ c /\
  swoken c' = swoken c /\ signal_cnts c' = signal_cnts c /\ last_qp_choice_ c' = last_qp_choice_ c /\
  (forall a, sge_length (get_wr a c') = sge_length (get_wr a c)) /\
  (forall a, a ∉ map twr_ex T -> wrs c' !! a = wrs c !! a) /\
  exists ps, posted c' = posted c ++ ps /\ Forall (fun p => write_key p = None) ps.

Definition keeps '((f, c) : SubUcclFlow CC * sctx CC X P) '((f', c') : SubUcclFlow CC * sctx CC X P) : Prop :=
  same_window f f' /\ same_memory (txtracking f) c c'.

#[global] Instance keeps_preorder : PreOrder keeps.
Proof.
  split.
  - intros [f c]. split; [done|]. unfold same_memory. split_and!; try done.
    exists []. by rewrite app_nil_r.
  - intros [f1 c1] [f2 c2] [f3 c3] [(A1&A2&A3&A4&A5&A6) (B1&B2&B3&B4&B5&B6&B7&B8&B9&ps1&B10&B11)]
      [(C1&C2&C3&C4&C5&C6) (D1&D2&D3&D4&D5&D6&D7&D8&D9&ps2&D10&D11)].
    split; [split_and!; congruence|]. split_and!; try congruence.
    + intros a Ha. rewrite D9 by congruence. auto.
    + exists (ps1 ++ ps2). rewrite D10, B10, app_assoc. split; [done|]. by apply Forall_app.
Qed.

Lemma try_retransmit_keeps a f c ok f' c' :
  a ∈ map twr_ex (txtracking f) ->
  try_retransmit_chunk a f c = Done (ok, f', c') -> keeps (f, c) (f', c').
Proof.
  intros Ha. unfold try_retransmit_chunk.
  destruct (EventOnTxRTXData _ _ _ _ _) as [ok' [[imm rtx] cc']].
  assert (forall c2, wrs c2 = wrs (put_wr a (set_imm_data imm (get_wr a c)) c) ->
    (forall b, sge_length (get_wr b c2) = sge_length (get_wr b c)) /\
    (forall b, b ∉ map twr_ex (txtracking f) -> wrs c2 !! b = wrs c !! b)) as Hw.
  { intros c2 E. split; intros b; unfold get_wr; rewrite E; simpl.
    - destruct (decide (b = a)) as [->|]; [by rewrite lookup_insert_eq|by rewrite lookup_insert_ne].
    - intros Hb. rewrite lookup_insert_ne; [done|congruence]. }
  destruct ok'; simpl.
  - destruct (Io.pop_retr_hdr _) as [[hdr s]|] eqn:E1; [|done]. cbn [mbind result_bind].
    destruct (Io.pop_cqe_desc s) as [[desc s']|] eqn:E2; [|done]. cbn [mbind result_bind].
    injection 1 as <- <- <-. split; [done|].
    match goal with |- same_memory _ _ ?c2 => destruct (Hw c2 eq_refl) end.
    split_and!; try done. by eexists [_]; split; [done|repeat constructor].
  - injection 1 as <- <- <-. split; [done|].
    match goal with |- same_memory _ _ ?c2 => destruct (Hw c2 eq_refl) end.
    split_and!; try done. exists []. by rewrite app_nil_r.
Qed.

Lemma same_window_keeps f f' c : same_window f f' -> keeps (f, c) (f', c).
Proof.
  intros Hw. split; [done|]. split_and!; try done. exists []. by rewrite app_nil_r.
Qed.

Lemma rto_keeps f c t : keeps (f, c) (f, set_rto_ t c).
Proof. split; [done|]. split_and!; try done. exists []. by rewrite app_nil_r. Qed.

Lemma rearm_keeps now fid f c : keeps (f, c) (rearm_timer_for_flow cfg now fid f c).
Proof.
  unfold rearm_timer_for_flow, arm_timer_for_flow. destruct (rto_armed f); [apply rto_keeps|].
  transitivity (set_rto_armed true f, c); [by apply same_window_keeps|apply rto_keeps].
Qed.

Lemma disarm_keeps fid f c : keeps (f, c) (disarm_timer_for_flow cfg fid f c).
Proof.
  unfold disarm_timer_for_flow. destruct (rto_armed f); [|done].
  transitivity (set_rto_armed false f, c); [by apply same_window_keeps|apply rto_keeps].
Qed.

Lemma count_rexmit_keeps rto f c : keeps (f, c) (count_rexmit rto f, c).
Proof. apply same_window_keeps. by destruct rto. Qed.

Lemma unacked_tracked idx f t :
  get_unacked_chunk_from_idx idx f = Done t -> twr_ex t ∈ map twr_ex (txtracking f).
Proof.
  unfold get_unacked_chunk_from_idx. destruct (aget _ _) as [t'|] eqn:E; [|done].
  intros [= ->]. apply (list_elem_of_fmap_2 twr_ex). by eapply list_elem_of_lookup_2.
Qed.

Lemma rtx_loop_keeps fuel : forall base count index done f c done' f' c',
  rtx_loop fuel base count index done f c = Done (done', f', c') -> keeps (f, c) (f', c').
Proof.
  induction fuel as [|fuel IH]; intros base count index done f c done' f' c'; cbn [rtx_loop].
  { by injection 1 as <- <- <-. }
  destruct (_ || _); [by injection 1 as <- <- <-|].
  intros (set & _ & E)%bind_done. destruct set; [eauto|].
  apply bind_done in E as (t & Et & E). destruct (_ =? _); [|eauto].
  apply bind_done in E as ([[ok f1] c1] & E1 & E).
  apply try_retransmit_keeps in E1; [|by eapply unacked_tracked].
  transitivity (f1, c1); [done|]. destruct ok; [eauto|]. by injection E as <- <- <-.
Qed.

Lemma retransmit_keeps now fid rto f c f' c' :
  retransmit_for_flow cfg now fid rto f c = Done (f', c') -> keeps (f, c) (f', c').
Proof.
  unfold retransmit_for_flow. destruct (txtracking f) as [|t l] eqn:Et; [by injection 1 as <- <-|].
  destruct (_ =? 0); intros ([[ok f1] c1] & E1 & E)%bind_done.
  - apply try_retransmit_keeps in E1; [|rewrite Et; left].
    pose proof (rearm_keeps now fid f1 c1) as Hr. destruct (rearm_timer_for_flow _ _ _ _ _) as [f2 c2].
    injection E as <- <-. do 2 (etrans; [eassumption|]). apply count_rexmit_keeps.
  - apply rtx_loop_keeps in E1.
    pose proof (rearm_keeps now fid f1 c1) as Hr. destruct (rearm_timer_for_flow _ _ _ _ _) as [f2 c2].
    injection E as <- <-. do 2 (etrans; [eassumption|]).
    destruct ok; [apply count_rexmit_keeps|done].
Qed.

Lemma recovery_keeps now fid bitmap fuel : forall count index f c f' c',
  recovery_loop cfg fuel now fid bitmap count index f c = Done (f', c') -> keeps (f, c) (f', c').
Proof.
  induction fuel as [|fuel IH]; intros count index f c f' c'; cbn [recovery_loop].
  { by injection 1 as <- <-. }
  destruct (_ || _); [by injection 1 as <- <-|].
  intros (set & _ & E)%bind_done. destruct set; [eauto|].
  apply bind_done in E as (t & Et & E). apply bind_done in E as ([[stop f1] c1] & E1 & E).
  transitivity (f1, c1).
  - destruct (_ =? _); [|by injection E1 as <- <- <-].
    apply bind_done in E1 as ([[ok f2] c2] & E2 & E1).
    apply try_retransmit_keeps in E2; [|by eapply unacked_tracked].
    etrans; [exact E2|]. destruct ok; injection E1 as <- <- <-;
      [apply (count_rexmit_keeps false)|done].
  - pose proof (rearm_keeps now fid f1 c1) as Hr. destruct (rearm_timer_for_flow _ _ _ _ _) as [f2 c2].
    etrans; [exact Hr|]. destruct stop; [by injection E as <- <-|eauto].
Qed.

Lemma dup_ack_keeps now fid h f c f' c' :
  rx_dup_ack cfg now fid h f c = Done (f', c') -> keeps (f, c) (f', c').
Proof.
  unfold rx_dup_ack. destruct (EventOnRxNACK _ _) as [rtx cc'].
  set (f1 := set_pcb _ (set_in_rtx _ _)). intros E. transitivity (f1, c); [by apply same_window_keeps|].
  destruct (_ <? _); [by injection E as <- <-|]. destruct (_ =? _); [|by eapply recovery_keeps].
  unfold fast_retransmit_for_flow in E. destruct (is_roce_ cfg); [|by injection E as <- <-].
  by eapply retransmit_keeps.
Qed.
End keeps.

End TxSpec.
