(* ===== verification/SenderInv.v ===== *)
(** * The sender implements windows of chunks

    The specification of a sending flow is the sequence of its chunks with
    unbounded positions: those acknowledged, those posted, and those waiting in
    the timing wheel.  The tracking lists, sequence numbers, byte counters and
    work-request memory of a context are shown to implement the windows of all
    its flows at once, every operation to be a run of steps of the windows, and
    the wake-ups to be the requests whose last chunk was acknowledged. *)

From S2P Require Import Prelude Float64 Csn Queues Pcb SharedIo Flow Timer Sender SenderSpec.

Module TxInv.
Import Flow Tx TxSpec.

(** ** The windows *)

Record window := MkWindow { acked : list chunk; trk : list chunk; que : list chunk }.

Definition una (w : window) : Z := alen (acked w).
Definition live (w : window) : list chunk := trk w ++ que w.
Definition nxt (w : window) : Z := una w + alen (live w).
Definition addrs (w : window) : list Z := map k_addr (live w).

(** The requests of the last chunks of [l]. *)
Definition woken (l : list chunk) : list Z := map k_ureq (filter (fun k => k_last k) l).

Lemma woken_app l k : woken (l ++ k) = woken l ++ woken k.
Proof. unfold woken. by rewrite filter_app, map_app. Qed.

Definition send (k : chunk) (w : window) : window := MkWindow (acked w) (trk w ++ [k]) (que w).
Definition enqueue (k : chunk) (w : window) : window := MkWindow (acked w) (trk w) (que w ++ [k]).
Definition burst (w : window) : window :=
  MkWindow (acked w) (trk w ++ take 1 (que w)) (drop 1 (que w)).
Definition ack (n : nat) (w : window) : window :=
  MkWindow (acked w ++ take n (trk w)) (drop n (trk w)) (que w).

(** The windows of all flows and the wake-ups. *)
Definition spec : Type := gmap Z window * list Z.

Inductive wstep : spec -> spec -> Prop :=
| w_send ws log fid w k : ws !! fid = Some w -> que w = [] ->
    wstep (ws, log) (<[fid := send k w]> ws, log)
| w_queue ws log fid w k : ws !! fid = Some w -> wstep (ws, log) (<[fid := enqueue k w]> ws, log)
| w_burst ws log fid w : ws !! fid = Some w -> que w <> [] ->
    wstep (ws, log) (<[fid := burst w]> ws, log)
| w_ack ws log fid w n : ws !! fid = Some w -> (n <= length (trk w))%nat ->
    wstep (ws, log) (<[fid := ack n w]> ws, log ++ woken (take n (trk w))).

(** The buffers of the live chunks. *)
Definition outstanding (ws : gmap Z window) : list Z :=
  map_to_list ws ≫= fun p => addrs p.2.

Lemma outstanding_insert ws fid w' :
  outstanding (<[fid := w']> ws) ≡ₚ addrs w' ++ outstanding (delete fid ws).
Proof.
  unfold outstanding. rewrite <- insert_delete_eq.
  rewrite map_to_list_insert by apply lookup_delete_eq. done.
Qed.

Lemma outstanding_lookup ws fid w :
  ws !! fid = Some w -> outstanding ws ≡ₚ addrs w ++ outstanding (delete fid ws).
Proof. intros E. rewrite <- outstanding_insert. by rewrite insert_id. Qed.

Section inv.
Context {CC X P : Type} `{TxHooks CC X} `{!TxLaws CC X} `{PoolOps P} `{!PoolLaws P}.
Context (cfg : config).
Implicit Types (c : sctx CC X P) (f : SubUcclFlow CC).

(** The work request of a live chunk. *)
Definition wr_ok c (k : chunk) : Prop :=
  sge_length (get_wr (k_addr k) c) = k_len k /\ in_word 32 (k_len k).

(** That of a chunk in the wheel at position [n] of flow [fid]. *)
Definition queued_ok c (fid n : Z) (k : chunk) : Prop :=
  let w := get_wr (k_addr k) c in
  wureq w = k_ureq k /\ Imm.GetCSN (imm_data w) = Csn.csn n /\
  Imm.GetHINT (imm_data w) = Z.b2z (k_last k) /\
  exists r, sureqs c !! k_ureq k = Some r /\ context r = fid.

Fixpoint queue_ok c (fid n : Z) (l : list chunk) : Prop :=
  match l with [] => True | k :: l => queued_ok c fid n k /\ queue_ok c fid (n + 1) l end.

Record flow_ok c (fid : Z) f (w : window) : Prop := {
  o_una : Pcb.snd_una (pcb f) = Csn.csn (una w);
  o_nxt : Pcb.snd_nxt (pcb f) = Csn.csn (nxt w);
  o_trk : map track_key (txtracking f) = tracks (una w) (trk w);
  o_wheel : in_wheel_cnt_ f = wrap 32 (alen (que w));
  o_bytes : unacked_bytes_ f = wrap 32 (bytes (live w));
  o_wr : Forall (wr_ok c) (live w);
  o_que : queue_ok c fid (una w + alen (trk w)) (que w);
  o_paths : flow_paths cfg f;
  o_direct : direct cfg -> que w = [];
}.

(** The windows [ws] of all flows, over the buffers [bufs] of the work-request
    pool, of which [free] are free: every buffer is free or of one live chunk. *)
Record sinv (bufs : list Z) (cap : Z) (ws : gmap Z window) c : Prop := {
  s_paths : paths_ok cfg c;
  s_bufs : NoDup bufs /\ alen bufs <= cap /\ Forall (in_word 64) bufs /\ alen bufs < 2 ^ 32;
  s_pool : exists free, pl_repr (wr_ex_pool_ c) cap free /\ free ++ outstanding ws ≡ₚ bufs;
  s_flows : forall fid w, ws !! fid = Some w ->
    exists f, sender_flow_tbl_ c !! fid = Some f /\ flow_ok c fid f w;
  s_tbl : forall fid f, sender_flow_tbl_ c !! fid = Some f -> is_Some (ws !! fid);
  s_engine : in_word 32 (engine_unacked_bytes_ c);
}.

(** ** Frames *)

(** Requests stay, and stay on their flow. *)
Definition reqs_kept c c' : Prop := forall u r, sureqs c !! u = Some r ->
  exists r', sureqs c' !! u = Some r' /\ context r' = context r.

Lemma reqs_kept_eq c c' : sureqs c' = sureqs c -> reqs_kept c c'.
Proof. intros E u r Hr. exists r. by rewrite E. Qed.

Lemma queue_ok_frame c c' fid l : forall n,
  reqs_kept c c' -> (forall k, k ∈ l -> get_wr (k_addr k) c' = get_wr (k_addr k) c) ->
  queue_ok c fid n l -> queue_ok c' fid n l.
Proof.
  induction l as [|k l IH]; intros n Hr Hw; [done|]. simpl.
  intros [(H1 & H2 & H3 & r & H4 & H5) Hl]. split.
  - unfold queued_ok. rewrite Hw by left. destruct (Hr _ _ H4) as (r' & ? & ?).
    split_and!; try done. exists r'. split; congruence.
  - apply IH; [done| |done]. intros. apply Hw. by right.
Qed.

Lemma wr_ok_frame c c' l :
  (forall k, k ∈ l -> sge_length (get_wr (k_addr k) c') = sge_length (get_wr (k_addr k) c)) ->
  Forall (wr_ok c) l -> Forall (wr_ok c') l.
Proof.
  intros Hw Hl. apply Forall_forall. intros k Hk.
  rewrite Forall_forall in Hl. destruct (Hl k Hk). split; [|done]. by rewrite Hw.
Qed.

Lemma flow_ok_frame c c' fid f w :
  reqs_kept c c' -> (forall k, k ∈ live w -> get_wr (k_addr k) c' = get_wr (k_addr k) c) ->
  flow_ok c fid f w -> flow_ok c' fid f w.
Proof.
  intros Hr Hw [H1 H2 H3 H4 H5 H6 H7 H8 H9]. split; try done.
  - eapply wr_ok_frame; [|done]. intros k Hk. by rewrite Hw.
  - eapply queue_ok_frame; [done| |done]. intros k Hk. apply Hw. apply elem_of_app. by right.
Qed.

Lemma live_addr k w : k ∈ live w -> k_addr k ∈ addrs w.
Proof. intros. by apply (list_elem_of_fmap_2 k_addr). Qed.

Lemma other_addr ws fid fid' w k :
  fid <> fid' -> ws !! fid' = Some w -> k ∈ live w -> k_addr k ∈ outstanding (delete fid ws).
Proof.
  intros Hne Hw Hk. apply list_elem_of_bind. exists (fid', w). split; [by apply live_addr|].
  apply elem_of_map_to_list. by rewrite lookup_delete_ne.
Qed.

(** An operation on flow [fid] that touches only its buffers and free ones. *)
Lemma sinv_update bufs cap ws c c' fid f' w w' free free' :
  sinv bufs cap ws c -> ws !! fid = Some w ->
  free ++ outstanding ws ≡ₚ bufs ->
  paths_ok cfg c' -> sender_flow_tbl_ c' = <[fid := f']> (sender_flow_tbl_ c) ->
  pl_repr (wr_ex_pool_ c') cap free' -> free' ++ addrs w' ≡ₚ free ++ addrs w ->
  flow_ok c' fid f' w' -> in_word 32 (engine_unacked_bytes_ c') -> reqs_kept c c' ->
  (forall b, b ∉ addrs w -> b ∉ free -> wrs c' !! b = wrs c !! b) ->
  sinv bufs cap (<[fid := w']> ws) c'.
Proof.
  intros [Hp Hb _ Hfl Ht He] Hw Hown Hp' Et Hpool Hperm Hf' He' Hr Hwr.
  assert (NoDup (free ++ addrs w ++ outstanding (delete fid ws))) as Hnd.
  { rewrite <- (outstanding_lookup _ _ _ Hw), Hown. apply Hb. }
  split; try done.
  - exists free'. split; [done|]. rewrite outstanding_insert, <- Hown, (outstanding_lookup _ _ _ Hw).
    by rewrite !app_assoc, Hperm.
  - intros fid' w1. destruct (decide (fid' = fid)) as [->|Hne].
    + rewrite lookup_insert_eq. intros [= <-]. exists f'. by rewrite Et, lookup_insert_eq.
    + rewrite lookup_insert_ne by done. intros Hw1. destruct (Hfl _ _ Hw1) as (f1 & Hf1 & Hok).
      exists f1. rewrite Et, lookup_insert_ne by done. split; [done|].
      eapply flow_ok_frame; [done| |done]. intros k Hk. unfold get_wr. rewrite Hwr; [done|..].
      all: pose proof (other_addr ws fid fid' w1 k ltac:(done) Hw1 Hk) as Ho.
      all: apply NoDup_app in Hnd as (_ & Hd1 & (_ & Hd2 & _)%NoDup_app).
      * intros Hin. by apply (Hd2 _ Hin).
      * intros Hin. apply (Hd1 _ Hin). apply elem_of_app. by right.
  - intros fid' f1. rewrite Et. destruct (decide (fid' = fid)) as [->|Hne].
    + rewrite !lookup_insert_eq. eauto.
    + rewrite !lookup_insert_ne by done. apply Ht.
Qed.

(** ** Sending a chunk *)

Lemma queue_ok_app c fid l k : forall n,
  queue_ok c fid n (l ++ [k]) <-> queue_ok c fid n l /\ queued_ok c fid (n + alen l) k.
Proof.
  induction l as [|x l IH]; intros n; simpl.
  - rewrite alen_nil, Z.add_0_r. naive_solver.
  - rewrite IH, alen_cons. replace (n + 1 + alen l) with (n + (alen l + 1)) by lia. naive_solver.
Qed.

Lemma tx_chunk_decides now fid u len c c' r f a p :
  sureqs c !! u = Some r -> sender_flow_tbl_ c !! fid = Some f -> pl_alloc (wr_ex_pool_ c) = (Some a, p) ->
  tx_chunk cfg now fid u len c = Done c' -> exists qd, queue_decision cfg now fid a len f c qd.
Proof.
  intros Hr Hf Ha. unfold tx_chunk, get_flow, queue_decision, post_or_queue. rewrite Hr, Hf, Ha.
  cbn [mbind result_bind]. unfold Pcb.get_snd_nxt.
  destruct (bypass_pacing_ cfg); [by exists false|].
  intros ([f2 c2] & E & _)%bind_done. apply bind_done in E as ([[qd cc'] x'] & E & _).
  exists qd, cc', x'. exact E.
Qed.

(** The wheel is bypassed only when it holds no chunk of the flow. *)
Lemma decided_order now fid a len f c qd w :
  queue_decision cfg now fid a len f c qd -> in_wheel_cnt_ f = wrap 32 (alen (que w)) ->
  alen (que w) < 2 ^ 32 -> (direct cfg -> que w = []) ->
  (qd = false -> que w = []) /\ (qd = true -> ~ direct cfg).
Proof.
  unfold queue_decision, direct. intros Hq Hi Hs Hd.
  destruct (bypass_pacing_ cfg) eqn:Eb; [subst qd; split; [auto|done]|].
  destruct Hq as (cc' & x' & E). destruct may_queue eqn:Em.
  - split; [|intros _ [?|?]; done]. intros ->. apply queue_bypass in E; [|done].
    rewrite Hi, wrap_id in E; [by destruct (que w)|]. split; [apply alen_nonneg|done].
  - split; [auto|]. intros -> _. destruct (queue_never (in_wheel_cnt_ f) a
      (len +[32] hdr_overhead cfg len) now (Pcb.cc (pcb f)) (cca c) Em) as (? & ? & ?). congruence.
Qed.

Lemma sinv_que_small bufs cap ws c fid w :
  sinv bufs cap ws c -> ws !! fid = Some w -> alen (live w) < 2 ^ 32.
Proof.
  intros [_ (_ & _ & _ & Hb) (free & _ & Hown) _ _ _] Hw.
  apply Permutation_length in Hown. rewrite (outstanding_lookup _ _ _ Hw) in Hown.
  unfold alen, addrs in *. rewrite !length_app, length_map in Hown. lia.
Qed.

Lemma sent_flow_ok bufs cap ws c fid f w now u a len r qd c' f' wr :
  sinv bufs cap ws c -> ws !! fid = Some w -> flow_ok c fid f w -> a ∉ addrs w ->
  sureqs c !! u = Some r -> context r = fid -> in_word 32 len ->
  (qd = false -> que w = []) -> (qd = true -> ~ direct cfg) ->
  sent_flow qd now u a (nxt w) len (chunk_last r (sent_offset r) len) f f' ->
  sureqs c' = <[u := set_sent_offset (sent_offset r +[32] len) r]> (sureqs c) ->
  (forall b, wrs c' !! b = if decide (b = a) then Some wr else wrs c !! b) ->
  wr_key wr = chunk_key r fid (nxt w) (sent_offset r) len -> (qd = true -> wureq wr = u) ->
  let k := MkChunk a u len (chunk_last r (sent_offset r) len) in
  flow_ok c' fid f' (if qd then enqueue k w else send k w).
Proof.
  intros Hi Hw [H1 H2 H3 H4 H5 H6 H7 H8 H9] Ha Hr Hc Hl Hq1 Hq2 [S1 S2 S3 S4 S5 S6] Er Hwr Hk Hu k.
  assert (live (if qd then enqueue k w else send k w) = live w ++ [k]) as El.
  { unfold live. destruct qd; simpl; [by rewrite app_assoc|]. by rewrite Hq1, !app_nil_r. }
  assert (una (if qd then enqueue k w else send k w) = una w) as Eu by (by destruct qd).
  assert (get_wr a c' = wr) as Ea by (unfold get_wr; by rewrite Hwr, decide_True).
  assert (forall k', k' ∈ live w -> get_wr (k_addr k') c' = get_wr (k_addr k') c) as Hfr.
  { intros k' Hk'%live_addr. unfold get_wr. rewrite Hwr, decide_False; [done|congruence]. }
  injection Hk as _ _ Hlen Himm.
  assert (reqs_kept c c') as Hkept.
  { intros u' r'. rewrite Er. destruct (decide (u' = u)) as [->|].
    - rewrite Hr, lookup_insert_eq. intros [= <-]. eauto.
    - rewrite lookup_insert_ne by done. eauto. }
  split.
  - by rewrite Eu, S3.
  - rewrite S4. unfold nxt. rewrite Eu, El, alen_app. f_equal. change (alen [k]) with 1. lia.
  - rewrite S1, Eu. destruct qd; simpl; [done|]. rewrite map_app, tracks_app, H3. simpl.
    do 2 f_equal. unfold track_key, track_of. simpl. unfold nxt, live. by rewrite Hq1, app_nil_r.
  - rewrite S2, H4. destruct qd; [|done]. simpl. rewrite alen_app. by rewrite wrap_add_l.
  - rewrite S5, El, bytes_app, H5, wrap_add_l. simpl. f_equal. lia.
  - rewrite El. apply Forall_app. split.
    + eapply wr_ok_frame; [|done]. intros. by rewrite Hfr.
    + apply Forall_singleton. split; simpl; [congruence|done].
  - rewrite Eu. destruct qd; simpl; [|by rewrite (Hq1 eq_refl)].
    apply queue_ok_app. split.
    + eapply queue_ok_frame; [done| |done]. intros k' ?. apply Hfr, elem_of_app. by right.
    + unfold queued_ok. simpl. rewrite Ea, Himm.
      replace (una w + alen (trk w) + alen (que w)) with (nxt w)
        by (unfold nxt, live; rewrite alen_app; lia).
      destruct (make_imm_csn fid (chunk_last r (sent_offset r) len) (rid r) (nxt w)) as [-> ->].
      split_and!; [auto|done|done|]. eexists. rewrite Er, lookup_insert_eq. done.
  - unfold flow_paths. by rewrite S6.
  - intros Hd. destruct qd; [by destruct (Hq2 eq_refl)|]. simpl. auto.
Qed.

(** The chunk that is sent, in a buffer [a] that was free. *)
Lemma tx_chunk_sent bufs cap ws now fid u len c r c' :
  sinv bufs cap ws c -> sureqs c !! u = Some r -> context r = fid -> in_word 32 len ->
  tx_chunk cfg now fid u len c = Done c' ->
  exists w a qd wr, let k := MkChunk a u len (chunk_last r (sent_offset r) len) in
    ws !! fid = Some w /\ (qd = false -> que w = []) /\ (qd = true -> ~ direct cfg) /\ a ∉ addrs w /\
    sinv bufs cap (<[fid := if qd : bool then enqueue k w else send k w]> ws) c' /\ swoken c' = swoken c /\
    sureqs c' = <[u := set_sent_offset (sent_offset r +[32] len) r]> (sureqs c) /\
    (forall b, wrs c' !! b = if decide (b = a) then Some wr else wrs c !! b) /\
    wr_key wr = chunk_key r fid (nxt w) (sent_offset r) len /\
    (if qd then posted c' = posted c else posted c' = posted c ++ [PostWrite (qpidx wr) wr]).
Proof.
  intros Hi Hr Hc Hl E. pose proof Hi as [Hp Hb (free & Hpool & Hown) Hfl Ht He].
  destruct (sender_flow_tbl_ c !! fid) as [f|] eqn:Hf; cycle 1.
  { unfold tx_chunk, get_flow in E. rewrite Hr, Hf in E. done. }
  destruct (Ht _ _ Hf) as [w Hw]. destruct (Hfl _ _ Hw) as (f1 & Hf1 & Hok).
  assert (f1 = f) as -> by congruence.
  destruct free as [|a free].
  { rewrite (tx_chunk_no_buff cfg now fid u len c r f cap Hr Hf Hpool) in E. done. }
  destruct (pl_alloc_cons _ _ _ _ Hpool) as (p' & Ha & _).
  destruct (tx_chunk_decides now fid u len c c' r f a p' Hr Hf Ha E) as [qd Hqd].
  assert (alen (que w) < 2 ^ 32) as Hsm.
  { pose proof (sinv_que_small _ _ _ _ _ _ Hi Hw). unfold live in *. rewrite alen_app in *.
    pose proof (alen_nonneg (trk w)). lia. }
  destruct (decided_order now fid a len f c qd w Hqd (o_wheel _ _ _ _ Hok) Hsm (o_direct _ _ _ _ Hok))
    as [Hq1 Hq2].
  destruct (tx_chunk_ok cfg now fid u len c r f a free cap (nxt w) qd) as
    (c2 & f' & wr & E' & Hp' & Et & Hsf & Er & Hpool' & Hwr & Hk & Hu & Hpo & Ee & Ew);
    [done|done|apply Hok|done|done|apply Hok|done|].
  assert (c2 = c') as -> by congruence. rewrite Ew.
  assert (NoDup ((a :: free) ++ outstanding ws)) as Hnd by (rewrite Hown; apply Hb).
  rewrite (outstanding_lookup _ _ _ Hw) in Hnd.
  assert (a ∉ addrs w) as Haw.
  { apply NoDup_cons in Hnd as [Hnd _]. intros ?. apply Hnd. rewrite !elem_of_app. auto. }
  exists w, a, qd, wr. split_and!; try done; cycle 1.
  { destruct qd; [done|]. by destruct Hpo as (q & _ & -> & <-). }
  eapply sinv_update; [done|done|exact Hown|done|done|exact Hpool'| |by eapply sent_flow_ok|..].
  + unfold addrs, live. destruct qd; simpl; rewrite ?map_app; simpl.
    * rewrite !app_assoc, <- Permutation_cons_append. done.
    * rewrite (Hq1 eq_refl). simpl. rewrite !app_nil_r, app_assoc.
      by rewrite <- Permutation_cons_append.
  + rewrite Ee. apply wrap_range. lia.
  + intros u' r'. rewrite Er. destruct (decide (u' = u)) as [->|].
    * rewrite Hr, lookup_insert_eq. intros [= <-]. eauto.
    * rewrite lookup_insert_ne by done. eauto.
  + intros b _ Hb'. rewrite Hwr, decide_False; [done|]. intros ->. apply Hb'. left.
Qed.

Lemma tx_chunk_step bufs cap ws now fid u len c r c' :
  sinv bufs cap ws c -> sureqs c !! u = Some r -> context r = fid -> in_word 32 len ->
  tx_chunk cfg now fid u len c = Done c' ->
  exists ws', wstep (ws, swoken c) (ws', swoken c') /\ sinv bufs cap ws' c' /\
    sureqs c' = <[u := set_sent_offset (sent_offset r +[32] len) r]> (sureqs c).
Proof.
  intros Hi Hr Hc Hl E. destruct (tx_chunk_sent _ _ _ _ _ _ _ _ _ _ Hi Hr Hc Hl E)
    as (w & a & qd & wr & Hw & Hq1 & _ & _ & Hi' & Ew & Er & _).
  eexists. split_and!; [|exact Hi'|done]. rewrite Ew. destruct qd; constructor; auto.
Qed.

Lemma trk_addrs f n l :
  map track_key (txtracking f) = tracks n l -> map twr_ex (txtracking f) = map k_addr l.
Proof.
  intros E. replace (map twr_ex (txtracking f)) with
    (map (fun t => t.1.1.2) (map track_key (txtracking f))) by (by rewrite map_map).
  rewrite E. clear. revert n. induction l; intros; simpl; f_equal; auto.
Qed.

(** What keeps the windows' members keeps the windows. *)
Lemma flow_ok_keeps bufs cap ws c fid f w f' c' :
  sinv bufs cap ws c -> ws !! fid = Some w -> flow_ok c fid f w ->
  keeps (f, c) (f', c') -> flow_ok c' fid f' w.
Proof.
  intros Hi Hw [H1 H2 H3 H4 H5 H6 H7 H8 H9]
    [(A1&A2&A3&A4&A5&A6) (B1&B2&B3&B4&B5&B6&B7&B8&B9&_)].
  split; try congruence.
  - eapply wr_ok_frame; [|done]. auto.
  - eapply queue_ok_frame; [by apply reqs_kept_eq| |done].
    intros k Hk. unfold get_wr. rewrite B9; [done|]. intros Hin.
    rewrite (trk_addrs _ _ _ H3) in Hin. destruct Hi as [_ (Hnd & _) (free & _ & Hown) _ _ _].
    rewrite <- Hown, (outstanding_lookup _ _ _ Hw) in Hnd.
    apply NoDup_app in Hnd as (_ & _ & (Hnd & _)%NoDup_app). unfold addrs, live in Hnd.
    rewrite map_app in Hnd. apply NoDup_app in Hnd as (_ & Hd & _).
    apply (Hd _ Hin). by apply (list_elem_of_fmap_2 k_addr).
  - exact H9.
Qed.

Lemma sinv_keeps bufs cap ws c fid f f' c' :
  sinv bufs cap ws c -> sender_flow_tbl_ c !! fid = Some f ->
  keeps (f, c) (f', c') -> sinv bufs cap ws (put_flow fid f' c').
Proof.
  intros Hi Hf Hk. pose proof Hi as [Hp Hb (free & Hpool & Hown) Hfl Ht He].
  destruct (Ht _ _ Hf) as [w Hw]. destruct (Hfl _ _ Hw) as (f1 & Hf1 & Hok).
  assert (f1 = f) as -> by congruence.
  pose proof (flow_ok_keeps _ _ _ _ _ _ _ _ _ Hi Hw Hok Hk) as Hok'.
  destruct Hk as [Hsw (B1&B2&B3&B4&B5&B6&B7&B8&B9&_)].
  rewrite <- (insert_id ws fid w Hw).
  eapply (sinv_update _ _ _ c _ fid f' w w free free); [done|done|done| | | |done| | |..].
  - destruct Hp. split; simpl; [done|congruence|congruence].
  - simpl. by rewrite B1.
  - simpl. by rewrite B3.
  - by apply (flow_ok_frame c'); [by apply reqs_kept_eq|..].
  - simpl. by rewrite B4.
  - by apply reqs_kept_eq.
  - intros b Hb1 _. simpl. apply B9. rewrite (trk_addrs _ _ _ (o_trk _ _ _ _ Hok)).
    unfold addrs, live in Hb1. rewrite map_app, elem_of_app in Hb1. tauto.
Qed.

(** ** Sending a message *)

Lemma tx_loop_steps bufs cap now fid u fuel : forall ws c r b c',
  sinv bufs cap ws c -> sureqs c !! u = Some r -> context r = fid ->
  0 <= sent_offset r <= data_len r -> data_len r < 2 ^ 31 ->
  tx_loop cfg fuel now fid u c = Done (b, c') ->
  exists ws', rtc wstep (ws, swoken c) (ws', swoken c') /\ sinv bufs cap ws' c'.
Proof.
  induction fuel as [|fuel IH]; intros ws c r b c' Hi Hr Hc Ho Hl; cbn [tx_loop]; [done|].
  rewrite Hr. rewrite (wrap_id 32 (data_len r)) by word_lia.
  destruct (_ || _); [|injection 1 as <- <-; eauto using rtc_refl].
  intros (f & Hf & E)%bind_done. unfold get_flow in Hf.
  destruct (sender_flow_tbl_ c !! fid) as [f1|] eqn:Hf1; [|done]. injection Hf as ->.
  rewrite (wrap_id 32 (_ - _)) in E by word_lia.
  pose proof (chunk_size_le (unacked_bytes_ f) (engine_unacked_bytes_ c)
    (data_len r - sent_offset r) (Pcb.cc (pcb f)) ltac:(lia)) as Hchunk.
  destruct (EventOnChunkSize _ _ _ _) as [len cc']. simpl in Hchunk.
  set (c1 := put_flow fid (set_cc_state cc' f) c) in E.
  assert (sinv bufs cap ws c1) as Hi1 by (eapply sinv_keeps; [done|done|by apply same_window_keeps]).
  destruct (_ && _); [injection E as <- <-; eauto using rtc_refl|].
  apply bind_done in E as (c2 & E1 & E).
  destruct (tx_chunk_step bufs cap ws now fid u len c1 r c2 Hi1) as (ws2 & Hs & Hi2 & Er);
    [done|done|word_lia|done|]. change (swoken c1) with (swoken c) in Hs.
  destruct (_ =? 0); [injection E as <- <-; eauto using rtc_once|].
  destruct (IH ws2 c2 (set_sent_offset (sent_offset r +[32] len) r) b c' Hi2) as (ws3 & Hs3 & Hi3).
  { rewrite Er. apply lookup_insert_eq. }
  1-4: simpl; try done; rewrite ?wrap_id; word_lia.
  exists ws3. split; [|done]. by eapply rtc_l.
Qed.

(** ** The timing wheel *)

Lemma sinv_nodup bufs cap ws c fid w : sinv bufs cap ws c -> ws !! fid = Some w -> NoDup (addrs w).
Proof.
  intros [_ (Hnd & _) (free & _ & Hown) _ _ _] Hw.
  rewrite <- Hown, (outstanding_lookup _ _ _ Hw) in Hnd. by apply NoDup_app in Hnd as (_ & _ & (? & _)%NoDup_app).
Qed.

Lemma burst_live w : live (burst w) = live w.
Proof. unfold live, burst. simpl. rewrite <- app_assoc. by rewrite take_drop. Qed.

Lemma posted_flow_fields now u a csn last f :
  let f' := posted_flow cfg now u a csn last f in
  pcb f' = pcb f /\ scoreboard_rtt_ f' = scoreboard_rtt_ f /\ unacked_bytes_ f' = unacked_bytes_ f /\
  txtracking f' = txtracking f ++ [MkTrack u a now csn last] /\ in_wheel_cnt_ f' = in_wheel_cnt_ f.
Proof. unfold posted_flow. by destruct (rc_mode_ cfg). Qed.

Lemma burst_flow_ok c fid f w k l now c' f' wr :
  flow_ok c fid f w -> NoDup (addrs w) -> que w = k :: l ->
  f' = set_in_wheel_cnt_ (in_wheel_cnt_ f -[32] 1)
         (posted_flow cfg now (k_ureq k) (k_addr k) (Csn.csn (una w + alen (trk w))) (k_last k) f) ->
  sureqs c' = sureqs c -> wrs c' = <[k_addr k := wr]> (wrs c) ->
  wr_key wr = wr_key (get_wr (k_addr k) c) -> flow_ok c' fid f' (burst w).
Proof.
  intros [H1 H2 H3 H4 H5 H6 H7 H8 H9] Hnd Eq -> Er Hwr Hk.
  assert (forall k', k' ∈ live w -> sge_length (get_wr (k_addr k') c') = sge_length (get_wr (k_addr k') c))
    as Hlen.
  { intros k' _. unfold get_wr at 1. rewrite Hwr. destruct (decide (k_addr k' = k_addr k)) as [->|].
    - rewrite lookup_insert_eq. simpl. by injection Hk.
    - by rewrite lookup_insert_ne. }
  assert (forall k', k' ∈ l -> get_wr (k_addr k') c' = get_wr (k_addr k') c) as Hoth.
  { intros k' Hk'. unfold get_wr. rewrite Hwr, lookup_insert_ne; [done|]. intros E.
    unfold addrs, live in Hnd. rewrite Eq, map_app in Hnd. apply NoDup_app in Hnd as (_ & _ & Hnd).
    apply NoDup_cons in Hnd as [Hnd _]. apply Hnd. rewrite E. by apply (list_elem_of_fmap_2 k_addr). }
  destruct (posted_flow_fields now (k_ureq k) (k_addr k) (Csn.csn (una w + alen (trk w))) (k_last k) f)
    as (P1 & P2 & P3 & P4 & _).
  split; simpl; rewrite ?P1, ?P2, ?P3, ?P4; unfold nxt; rewrite ?burst_live; try done.
  - rewrite map_app, Eq, tracks_app, H3. done.
  - rewrite H4, Eq, alen_cons, wrap_sub_l. simpl. rewrite drop_0. f_equal. lia.
  - eapply wr_ok_frame; done.
  - rewrite Eq in *. simpl in *. rewrite alen_app. destruct H7 as [_ H7].
    rewrite take_0, drop_0, alen_cons, alen_nil. change (una (burst w)) with (una w).
    replace (una w + (alen (trk w) + (0 + 1))) with (una w + alen (trk w) + 1) by lia.
    eapply queue_ok_frame; [by apply reqs_kept_eq|done|done].
  - unfold flow_paths. simpl. by rewrite P2.
  - intros Hd. rewrite Eq in H9. by specialize (H9 Hd).
Qed.

Lemma burst_one_step `{!Pacer X} bufs cap ws now fid w k l c :
  sinv bufs cap ws c -> ws !! fid = Some w -> que w = k :: l ->
  exists c', burst_one cfg now (k_addr k) c = Done c' /\
    wstep (ws, swoken c) (<[fid := burst w]> ws, swoken c') /\
    sinv bufs cap (<[fid := burst w]> ws) c' /\ cca c' = pc_pop (cca c).
Proof.
  intros Hi Hw Eq. pose proof Hi as [Hp Hb (free & Hpool & Hown) Hfl Ht He].
  destruct (Hfl _ _ Hw) as (f & Hf & Hok). pose proof (o_que _ _ _ _ Hok) as Hq. rewrite Eq in Hq.
  destruct Hq as [(Hu & Hcsn & Hhint & r & Hr & Hc) _].
  unfold burst_one, get_flow. rewrite Hu, Hr, Hc, Hf, Hcsn, Hhint. cbn [mbind result_bind].
  replace (negb (Z.b2z (k_last k) =? 0)) with (k_last k) by (by destruct (k_last k)).
  destruct (post_wr_ok cfg now (k_ureq k) (k_addr k) (Csn.csn (una w + alen (trk w))) (k_last k) fid f c)
    as (c1 & q & wr & -> & Hp1 & _ & Hk & _ & _ & Hwr & _ & P1 & P2 & P3 & P4 & P5 & P6); [done|apply Hok|].
  cbn [mbind result_bind]. eexists. split; [done|]. simpl. rewrite P6, P5.
  split; [constructor; [done|by rewrite Eq]|]. split; [|done].
  destruct (posted_flow_fields now (k_ureq k) (k_addr k) (Csn.csn (una w + alen (trk w))) (k_last k) f)
    as (_ & _ & _ & _ & ->).
  eapply (sinv_update _ _ _ c _ fid _ w (burst w) free free); [done|done|done|by destruct Hp1| | | | | |..].
  - simpl. by rewrite P1.
  - simpl. by rewrite P3.
  - unfold addrs. by rewrite burst_live.
  - eapply burst_flow_ok; [done|by eapply sinv_nodup|done|done|done|done|done].
  - simpl. by rewrite P4.
  - by apply reqs_kept_eq.
  - intros b Hb1 _. simpl. rewrite Hwr, lookup_insert_ne; [done|]. intros <-. apply Hb1.
    apply live_addr. unfold live. rewrite Eq, elem_of_app. right. left.
Qed.

(** ** Acknowledgements *)

Lemma ack_loop_ok cap n : forall t1 seg f c pos l free,
  map track_key (txtracking f) = tracks pos l -> (n <= length l)%nat ->
  pl_repr (wr_ex_pool_ c) cap free -> alen free + Z.of_nat n <= cap ->
  Forall (wr_ok c) l -> Forall (in_word 64) (map k_addr l) ->
  exists t1' p',
    ack_loop n t1 seg f c = Done (t1', fold_left (fun s k => s +[32] k_len k) (take n l) seg,
      set_unacked_bytes_ (fold_left (fun s k => s -[32] k_len k) (take n l) (unacked_bytes_ f))
        (set_txtracking (drop n (txtracking f)) f),
      set_wr_ex_pool_ p' (set_swoken (swoken c ++ woken (take n l)) c)) /\
    pl_repr p' cap (free ++ map k_addr (take n l)).
Proof.
  induction n as [|n IH]; intros t1 seg f c pos l free Ht Hn Hp Hcap Hwr Had.
  { simpl. exists t1, (wr_ex_pool_ c). rewrite !app_nil_r. split; [|done].
    by destruct f, c. }
  destruct l as [|k l]; [simpl in Hn; lia|].
  destruct (txtracking f) as [|t ts] eqn:Etx; [done|].
  injection Ht as Eu Ea _ El Ht.
  cbn [ack_loop]. rewrite Etx.
  apply Forall_cons in Hwr as [[Hlen _] Hwr]. apply Forall_cons in Had as [Ha Had].
  rewrite El. set (c1 := if k_last k then _ else _).
  assert (get_wr (k_addr k) c1 = get_wr (k_addr k) c) as Ew by (unfold c1; by destruct (k_last k)).
  rewrite Ea, Ew, Hlen.
  set (f2 := set_unacked_bytes_ _ _). set (c2 := set_wr_ex_pool_ _ c1).
  destruct (IH (if t1 =? 0 then timestamp t else t1) (seg +[32] k_len k) f2 c2 (pos + 1) l
    (free ++ [k_addr k])) as (t1' & p' & E & Hp'); [done|simpl in Hn; lia| | | |done|].
  - unfold c2. simpl. replace (wr_ex_pool_ c1) with (wr_ex_pool_ c) by (unfold c1; by destruct (k_last k)).
    apply pl_free_ok; [done|done|lia].
  - rewrite alen_app, alen_cons, alen_nil. lia.
  - eapply (wr_ok_frame c); [|done]. intros k' _. unfold c2, c1. by destruct (k_last k).
  - exists t1', p'. rewrite E. split; [|by rewrite <- app_assoc in Hp'].
    simpl. f_equal. f_equal. unfold c2, c1, woken. rewrite filter_cons.
    destruct (k_last k); simpl; [|done]. by rewrite <- app_assoc, Eu.
Qed.

Lemma fold_add_bytes l : forall s, in_word 32 s ->
  fold_left (fun s k => s +[32] k_len k) l s = wrap 32 (s + bytes l).
Proof.
  induction l as [|k l IH]; intros s Hs; simpl; [by rewrite Z.add_0_r, wrap_id|].
  rewrite IH by (apply wrap_range; lia). rewrite wrap_add_l. f_equal. lia.
Qed.

Lemma fold_sub_bytes l : forall s, in_word 32 s ->
  fold_left (fun s k => s -[32] k_len k) l s = wrap 32 (s - bytes l).
Proof.
  induction l as [|k l IH]; intros s Hs; simpl; [by rewrite Z.sub_0_r, wrap_id|].
  rewrite IH by (apply wrap_range; lia). rewrite wrap_sub_l. f_equal. lia.
Qed.

(** The flow and the context after the oldest [n] chunks of [w] were released. *)
Record released (n : nat) (w : window) cap free f c f' c' : Prop := {
  r_trk : txtracking f' = drop n (txtracking f);
  r_una : Pcb.snd_una (pcb f') = Csn.csn (una w + Z.of_nat n);
  r_nxt : Pcb.snd_nxt (pcb f') = Pcb.snd_nxt (pcb f);
  r_wheel : in_wheel_cnt_ f' = in_wheel_cnt_ f;
  r_bytes : unacked_bytes_ f' = wrap 32 (unacked_bytes_ f - bytes (take n (trk w)));
  r_paths : flow_paths cfg f';
  r_pool : pl_repr (wr_ex_pool_ c') cap (free ++ map k_addr (take n (trk w)));
  r_woken : swoken c' = swoken c ++ woken (take n (trk w));
  r_engine : engine_unacked_bytes_ c' =
    wrap 32 (engine_unacked_bytes_ c - bytes (take n (trk w)));
  r_tbl : sender_flow_tbl_ c' = sender_flow_tbl_ c;
  r_reqs : sureqs c' = sureqs c;
  r_wrs : wrs c' = wrs c;
  r_posted : posted c' = posted c;
  r_ctx : signal_cnts c' = signal_cnts c /\ last_qp_choice_ c' = last_qp_choice_ c;
}.

(** The timers change neither. *)
Lemma released_timer n w cap free f c f1 c1 b fid now :
  released n w cap free f c f1 c1 ->
  let '(f', c') := if b : bool then disarm_timer_for_flow cfg fid f1 c1
                   else rearm_timer_for_flow cfg now fid f1 c1 in
  released n w cap free f c f' c'.
Proof.
  intros [R1 R2 R3 R4 R5 R6 R7 R8 R9 R10 R11 R12 R13 R14].
  unfold disarm_timer_for_flow, rearm_timer_for_flow, arm_timer_for_flow.
  destruct b, (rto_armed f1); by split.
Qed.

Lemma rx_valid_ack_ok bufs cap ws fid t5 t6 now1 now2 h f c w n free :
  sinv bufs cap ws c -> ws !! fid = Some w -> flow_ok c fid f w ->
  pl_repr (wr_ex_pool_ c) cap free -> free ++ outstanding ws ≡ₚ bufs ->
  Csn.of_uint32 (Io.ackno h) = Csn.csn (una w + Z.of_nat n) -> 0 <= Io.path h ->
  (n <= length (trk w))%nat -> Z.of_nat n < 256 -> rtt_ok t6 (Pcb.cc (pcb f)) ->
  exists f' c', rx_valid_ack cfg t5 t6 now1 now2 fid h f c = Done (f', c') /\
    released n w cap free f c f' c'.
Proof.
  intros Hi Hw Hok Hpool Hown Hack Hpath Hn Hn256 Hrtt.
  pose proof Hok as [H1 H2 H3 H4 H5 H6 H7 H8 H9]. pose proof Hi as [_ (Hnd & Hcap & Hin & _) _ _ _ He].
  unfold rx_valid_ack. pose proof (rtt_ok_ack t6 (in_rtx f) _ Hrtt) as Hrtt'.
  destruct (EventOnRxACK _ _) as [rtx cc'].
  set (f1 := set_in_rtx rtx (set_cc_state cc' f)).
  rewrite Hack. change (Pcb.snd_una (pcb f1)) with (Pcb.snd_una (pcb f)). rewrite H1.
  rewrite Csn.sub_csn_exact by lia. replace (una w + Z.of_nat n - una w) with (Z.of_nat n) by lia.
  rewrite (outstanding_lookup _ _ _ Hw) in Hown.
  unfold ack_transmitted_chunks. rewrite Nat2Z.id.
  destruct (ack_loop_ok cap n 0 0 f1 c (una w) (trk w) free) as (t1 & p' & -> & Hp');
    [done|done|done| | | |].
  { pose proof (Permutation_length Hown) as Hlen. unfold addrs, live in Hlen.
    rewrite !length_app, map_app, length_app, !length_map in Hlen. unfold alen in *. lia. }
  { unfold live in H6. by apply Forall_app in H6 as [? _]. }
  { rewrite <- Hown in Hin. rewrite !Forall_app in Hin. destruct Hin as (_ & Hin & _).
    unfold addrs, live in Hin. rewrite map_app in Hin. by apply Forall_app in Hin as [? _]. }
  cbn [mbind result_bind]. set (d := fabric_delay _ _ _ _ _ _ _ _).
  destruct (on_rtt_done now2 t6 d (fold_left (fun s k => s +[32] k_len k) (take n (trk w)) 0) cc' Hrtt')
    as [cc2 Ecc].
  set (f1' := set_unacked_bytes_ _ _). set (f2 := if d =? 0 then f1' else set_cc_state cc2 f1').
  match goal with |- context [if d =? 0 then Done f1' else ?m] =>
    replace (if d =? 0 then Done f1' else m) with (Done f2)
      by (unfold f2; destruct (d =? 0); [done|]; simpl; by rewrite Ecc) end.
  cbn [mbind result_bind]. set (c2 := set_engine_unacked_bytes_ _ _).
  assert (in_word 32 (unacked_bytes_ f)) as Hb by (rewrite H5; apply wrap_range; lia).
  assert (unacked_bytes_ f2 = wrap 32 (unacked_bytes_ f - bytes (take n (trk w)))) as Eb.
  { transitivity (fold_left (fun s k => s -[32] k_len k) (take n (trk w)) (unacked_bytes_ f)).
    - unfold f2. by destruct (d =? 0).
    - by apply fold_sub_bytes. }
  assert (exists f3, (if Io.path h <? port_entropy_ cfg
      then update_scoreboard_rtt (freq_ghz cfg) d (Io.path h) f2 else Done f2) = Done f3 /\
    pcb f3 = pcb f2 /\ txtracking f3 = txtracking f2 /\ in_wheel_cnt_ f3 = in_wheel_cnt_ f2 /\
    unacked_bytes_ f3 = unacked_bytes_ f2 /\ flow_paths cfg f3) as (f3 & -> & E1 & E2 & E3 & E4 & E5).
  { assert (flow_paths cfg f2) as Hfp by (unfold f2; by destruct (d =? 0)).
    destruct (Io.path h <? port_entropy_ cfg) eqn:Ep; [|by exists f2]. unfold update_scoreboard_rtt.
    destruct (aget_is_Some (scoreboard_rtt_ f2) (Io.path h)) as [x ->]; [unfold flow_paths in Hfp; lia|].
    eexists. split; [done|]. split_and!; try done. unfold flow_paths. simpl. by rewrite alen_aset. }
  cbn [mbind result_bind]. set (f4 := set_pcb _ f3).
  assert (released n w cap free f c f4 c2) as Hr.
  { split; simpl; try done.
    - rewrite E2. unfold f2. by destruct (d =? 0).
    - rewrite E1. unfold f2. by destruct (d =? 0).
    - rewrite E3. unfold f2. by destruct (d =? 0).
    - by rewrite E4.
    - change (unacked_bytes_ f1) with (unacked_bytes_ f).
      rewrite Eb, (wrap_sub_r 32 (unacked_bytes_ f)), wrap_sub_r. f_equal. lia. }
  apply (released_timer _ _ _ _ _ _ _ _ (bool_decide (txtracking f4 = [])) fid now2) in Hr.
  destruct (if bool_decide _ then _ else _) as [f' c']. eauto.
Qed.

Lemma ack_live n w : (n <= length (trk w))%nat -> live w = take n (trk w) ++ live (ack n w).
Proof. intros. unfold live. simpl. by rewrite app_assoc, take_drop. Qed.

Lemma tracks_drop l n pos : drop n (tracks pos l) = tracks (pos + Z.of_nat (n `min` length l)) (drop n l).
Proof.
  revert n pos. induction l as [|k l IH]; intros [|n] pos; simpl; try done.
  - by rewrite Z.add_0_r.
  - rewrite IH. f_equal. lia.
Qed.

Lemma released_flow_ok n w cap free fid f c f' c' :
  flow_ok c fid f w -> (n <= length (trk w))%nat -> released n w cap free f c f' c' ->
  flow_ok c' fid f' (ack n w).
Proof.
  intros [H1 H2 H3 H4 H5 H6 H7 H8 H9] Hn [R1 R2 R3 R4 R5 R6 R7 R8 R9 R10 R11 R12 _ _].
  pose proof (ack_live n w Hn) as El.
  assert (alen (take n (trk w)) = Z.of_nat n) as En by (unfold alen; rewrite length_take; lia).
  assert (una (ack n w) = una w + Z.of_nat n) as Eu by (unfold una; simpl; by rewrite alen_app, En).
  assert (forall a, get_wr a c' = get_wr a c) as Eg by (intros; unfold get_wr; by rewrite R12).
  split; rewrite ?Eu; try done.
  - rewrite R3, H2. unfold nxt. rewrite Eu, El, alen_app, En. f_equal. lia.
  - rewrite R1. change (map track_key) with (fmap (M:=list) track_key). rewrite fmap_drop.
    change (fmap (M:=list) track_key) with (map track_key). rewrite H3, tracks_drop.
    rewrite Nat.min_l by lia. done.
  - by rewrite R4, H4.
  - rewrite R5, H5, El, bytes_app, wrap_sub_l. f_equal. lia.
  - eapply wr_ok_frame; [intros; by rewrite Eg|]. rewrite El in H6. by apply Forall_app in H6 as [_ ?].
  - replace (una w + Z.of_nat n + alen (trk (ack n w))) with (una w + alen (trk w)).
    + eapply queue_ok_frame; [by apply reqs_kept_eq|done|done].
    + simpl. unfold alen. rewrite length_drop. lia.
Qed.

Lemma copy_sack_window h f : same_window f (copy_sack h f).
Proof. done. Qed.

(** What the ACKs of a well-behaved receiver look like to the flow: the position
    acknowledged is at most the last posted one, and old by less than half the
    sequence space; [t6] is a time the congestion control accepts. *)
Definition truthful (t6 : Z) (h : Io.UcclSackHdr) f (d : Z) : Prop :=
  rtt_ok t6 (Pcb.cc (pcb f)) /\ -128 < d <= alen (txtracking f) /\ alen (txtracking f) + in_wheel_cnt_ f < 128 /\
  Csn.of_uint32 (Io.ackno h) = Csn.add (Pcb.snd_una (pcb f)) d /\ 0 <= Io.path h.

Lemma truthful_window bufs cap ws c fid f w t6 h d :
  sinv bufs cap ws c -> ws !! fid = Some w -> flow_ok c fid f w -> truthful t6 h f d ->
  rtt_ok t6 (Pcb.cc (pcb f)) /\ -128 < d <= alen (trk w) /\ alen (live w) < 128 /\
  Csn.of_uint32 (Io.ackno h) = Csn.csn (una w + d) /\ 0 <= Io.path h.
Proof.
  intros Hi Hw Hok (Hrtt & Hd & Hs & Ha & Hp). pose proof Hok as [H1 _ H3 H4 _ _ _ _ _].
  assert (alen (txtracking f) = alen (trk w)) as El.
  { unfold alen. rewrite <- (length_map track_key), H3. by rewrite tracks_length. }
  rewrite H1, Csn.add_csn in Ha. rewrite El in *. split_and!; try done; try lia.
  pose proof (sinv_que_small _ _ _ _ _ _ Hi Hw) as Hsm. unfold live in *. rewrite alen_app in *.
  pose proof (alen_nonneg (trk w)). pose proof (alen_nonneg (que w)).
  rewrite H4, wrap_id in Hs by (split; lia). lia.
Qed.

Lemma ack_sinv bufs cap ws c fid f w n free f' c' h :
  sinv bufs cap ws c -> ws !! fid = Some w -> flow_ok c fid f w -> (n <= length (trk w))%nat ->
  free ++ outstanding ws ≡ₚ bufs -> released n w cap free f c f' c' ->
  sinv bufs cap (<[fid := ack n w]> ws) (put_flow fid (copy_sack h f') c').
Proof.
  intros Hi Hw Hok Hn Hown Hr. pose proof (released_flow_ok _ _ _ _ _ _ _ _ _ Hok Hn Hr) as Hok'.
  pose proof Hi as [Hp _ _ _ _ _]. destruct Hr as [R1 R2 R3 R4 R5 R6 R7 R8 R9 R10 R11 R12 _ [R13 R14]].
  eapply (sinv_update _ _ _ c _ fid (copy_sack h f') w (ack n w) free); try done.
  - destruct Hp. split; simpl; [done|congruence|congruence].
  - simpl. by rewrite R10.
  - unfold addrs. rewrite (ack_live n w Hn), map_app. by rewrite app_assoc.
  - apply (flow_ok_frame c'); [by apply reqs_kept_eq|done|]. destruct Hok'. by split.
  - simpl. rewrite R9. apply wrap_range. lia.
  - by apply reqs_kept_eq.
  - intros b _ _. simpl. by rewrite R12.
Qed.

(** An ACK: old ones are ignored, a duplicate leaves the windows alone, one of new
    data releases exactly the chunks below the acknowledged position. *)
Lemma uc_rx_ack_step bufs cap ws c t5 t6 now1 now2 h f d :
  sinv bufs cap ws c -> sender_flow_tbl_ c !! Io.hfid h = Some f -> truthful t6 h f d ->
  (d < 0 -> uc_rx_ack cfg t5 t6 now1 now2 h c = Done c) /\
  (0 < d -> exists c', uc_rx_ack cfg t5 t6 now1 now2 h c = Done c') /\
  forall c', uc_rx_ack cfg t5 t6 now1 now2 h c = Done c' ->
    exists ws', rtc wstep (ws, swoken c) (ws', swoken c') /\ sinv bufs cap ws' c' /\
      (d <= 0 -> ws' = ws) /\
      (0 < d -> exists w, ws !! Io.hfid h = Some w /\ ws' = <[Io.hfid h := ack (Z.to_nat d) w]> ws).
Proof.
  intros Hi Hf Ht. pose proof Hi as [_ _ (free & Hpool & Hown) Hfl Htb _].
  destruct (Htb _ _ Hf) as [w Hw]. destruct (Hfl _ _ Hw) as (f1 & Hf1 & Hok).
  assert (f1 = f) as -> by congruence.
  destruct (truthful_window _ _ _ _ _ _ _ _ _ _ Hi Hw Hok Ht) as (Hrtt & Hd & Hlive & Hack & Hpath).
  pose proof (o_una _ _ _ _ Hok) as Hu. pose proof (o_nxt _ _ _ _ Hok) as Hx.
  assert (alen (live w) = alen (trk w) + alen (que w)) as El by (unfold live; by rewrite alen_app).
  pose proof (alen_nonneg (que w)). pose proof (alen_nonneg (trk w)).
  unfold uc_rx_ack, get_flow. rewrite Hf. cbn [mbind result_bind]. rewrite Hack, Hu, Hx. unfold nxt.
  rewrite Csn.seqno_lt_csn by lia. rewrite Csn.seqno_eq_csn by lia.
  destruct (Z.ltb_spec (una w + d) (una w)) as [Hlt|Hge].
  { split; [done|]. split; [lia|]. intros c' [= <-]. exists ws. split; [done|]. split; [done|]. split; [done|lia]. }
  rewrite Csn.seqno_gt_csn by lia. rewrite (proj2 (Z.ltb_ge _ _)) by lia.
  split; [lia|]. destruct (Z.eqb_spec (una w + d) (una w)) as [Heq|Hne].
  - split; [lia|]. intros c' ([f' c1] & E & [= <-])%bind_done. apply dup_ack_keeps in E.
    exists ws. assert (keeps (f, c) (copy_sack h f', c1)) as Hk.
    { etrans; [exact E|]. by apply same_window_keeps. }
    assert (swoken c1 = swoken c) as Es by apply E. simpl. rewrite Es.
    split; [done|]. split; [by eapply sinv_keeps|]. split; [done|lia].
  - destruct (rx_valid_ack_ok bufs cap ws (Io.hfid h) t5 t6 now1 now2 h f c w (Z.to_nat d) free)
      as (f' & c' & -> & Hr); [done|done|done|done|done|by rewrite Z2Nat.id by lia|done|unfold alen in *; lia|lia|done|].
    split; [intros _; by eexists|]. intros c2 [= <-]. eexists. split; [|split; [|split; [lia|]]].
    + apply rtc_once. simpl. rewrite (r_woken _ _ _ _ _ _ _ _ Hr).
      constructor; [done|]. unfold alen in *. lia.
    + eapply ack_sinv; try done. unfold alen in *. lia.
    + intros _. by exists w.
Qed.

Lemma handle_rto_step bufs cap ws c now fid c' :
  sinv bufs cap ws c -> handle_rto cfg now fid c = Done c' ->
  sinv bufs cap ws c' /\ swoken c' = swoken c.
Proof.
  intros Hi (f & Hf & E)%bind_done. unfold get_flow in Hf.
  destruct (sender_flow_tbl_ c !! fid) as [f1|] eqn:Hf1; [|done]. injection Hf as ->.
  apply bind_done in E as ([f' c1] & E & [= <-]).
  assert (keeps (f, c) (f', c1)) as Hk.
  { transitivity (mark_flow_timeout f, c); [by apply same_window_keeps|].
    unfold rto_retransmit_for_flow in E. destruct (is_roce_ cfg); [by eapply retransmit_keeps|].
    by injection E as <- <-. }
  split; [by eapply sinv_keeps|apply Hk].
Qed.

(** ** Runs of the sender *)

(** The head of the ready queue is the oldest waiting chunk of its flow: the
    order in which the wheel gives back the chunks of a flow. *)
Definition head_of_flow `{!Pacer X} (ws : gmap Z window) c : Prop :=
  exists fid w k l q, pc_ready (cca c) = k_addr k :: q /\ ws !! fid = Some w /\ que w = k :: l.

Inductive sop :=
| TxMessage (now u : Z)
| Reap (now : Z)
| BurstOne (now : Z)
| RxAck (t5 t6 now1 now2 : Z) (h : Io.UcclSackHdr)
| Rto (now fid : Z).

Definition do_op `{!Pacer X} (o : sop) c : result (sctx CC X P) :=
  match o with
  | TxMessage now u => '(_, c) ← senderCC_tx_message cfg now u c; Done c
  | Reap now => x ← pc_reap now (cca c); Done (set_cca x c)
  | BurstOne now => match pc_ready (cca c) with [] => Done c | a :: _ => burst_one cfg now a c end
  | RxAck t5 t6 now1 now2 h => uc_rx_ack cfg t5 t6 now1 now2 h c
  | Rto now fid => handle_rto cfg now fid c
  end.

(** What the environment of an operation provides: requests that are within
    bounds, ACKs of a receiver that acknowledges what it received, and a wheel
    that gives the chunks of a flow back in order. *)
Definition legal `{!Pacer X} (o : sop) (ws : gmap Z window) c : Prop :=
  match o with
  | TxMessage _ u => exists r, sureqs c !! u = Some r /\ 0 <= sent_offset r <= data_len r /\
      data_len r < 2 ^ 31
  | Reap _ => True
  | BurstOne _ => pc_ready (cca c) = [] \/ head_of_flow ws c
  | RxAck _ t6 _ _ h => exists f d, sender_flow_tbl_ c !! Io.hfid h = Some f /\ truthful t6 h f d
  | Rto _ _ => True
  end.

(** The requests whose last chunk was acknowledged. *)
Definition acked_requests (ws : gmap Z window) : list Z :=
  map_to_list ws ≫= fun p => woken (acked p.2).

Lemma acked_requests_insert ws fid w' :
  acked_requests (<[fid := w']> ws) ≡ₚ woken (acked w') ++ acked_requests (delete fid ws).
Proof.
  unfold acked_requests. rewrite <- insert_delete_eq.
  rewrite map_to_list_insert by apply lookup_delete_eq. done.
Qed.

Lemma wstep_woken p q :
  wstep p q -> p.2 ≡ₚ acked_requests p.1 -> q.2 ≡ₚ acked_requests q.1.
Proof.
  intros Hs Hp. destruct Hs as [ws log fid w k Hw _|ws log fid w k Hw|ws log fid w Hw _|ws log fid w n Hw _];
    simpl in *; rewrite acked_requests_insert, Hp, <- (insert_id ws fid w Hw) at 1;
    rewrite acked_requests_insert; simpl; [done..|].
  rewrite woken_app, <- !app_assoc. f_equiv. by rewrite Permutation_app_comm.
Qed.

Lemma do_op_step `{!Pacer X} bufs cap ws c o c' :
  sinv bufs cap ws c -> legal o ws c -> do_op o c = Done c' ->
  exists ws', rtc wstep (ws, swoken c) (ws', swoken c') /\ sinv bufs cap ws' c'.
Proof.
  intros Hi Hl. destruct o as [now u|now|now|t5 t6 now1 now2 h|now fid]; simpl in *.
  - intros ([b c1] & E & [= <-])%bind_done. destruct Hl as (r & Hr & Ho & Hd).
    unfold senderCC_tx_message in E. rewrite Hr in E. by eapply tx_loop_steps.
  - intros (x & _ & [= <-])%bind_done. exists ws. split; [done|].
    destruct Hi as [[? ? ?] ? ? Hfl ? ?]. split; try done. intros fid w Hw.
    destruct (Hfl fid w Hw) as (f & Hf & Hok). exists f. split; [done|].
    by apply (flow_ok_frame c); [apply reqs_kept_eq|..].
  - destruct Hl as [->|(fid & w & k & l & q & -> & Hw & Hq)]; [intros [= <-]; by exists ws|].
    destruct (burst_one_step bufs cap ws now fid w k l c Hi Hw Hq) as (c1 & -> & Hs & Hi' & _).
    intros [= <-]. eexists. split; [by apply rtc_once|done].
  - destruct Hl as (f & d & Hf & Ht). intros E.
    destruct (uc_rx_ack_step bufs cap ws c t5 t6 now1 now2 h f d Hi Hf Ht) as (_ & _ & Hstep).
    destruct (Hstep c' E) as (ws' & ? & ? & _). by exists ws'.
  - intros E. destruct (handle_rto_step _ _ _ _ _ _ _ Hi E) as [Hi' ->]. by exists ws.
Qed.

(** C7: The sender refines the windows of chunks.  From a state that implements the
    windows [ws], every operation (sending a message, reaping the wheel, posting
    the next ready chunk, an ACK, a timeout) is a run of window steps and leads
    to a state that implements the resulting windows: the tracking lists hold
    exactly the posted chunks with their sequence numbers, [snd_una] and
    [snd_nxt] delimit the live ones, the byte counters are the sums of their
    lengths, each work-request buffer is free or belongs to exactly one live
    chunk, and the requests woken are exactly those whose last chunk has been
    acknowledged. *)
Theorem sender_refines `{!Pacer X} bufs cap ws c o c' :
  sinv bufs cap ws c -> swoken c ≡ₚ acked_requests ws ->
  legal o ws c -> do_op o c = Done c' ->
  exists ws', rtc wstep (ws, swoken c) (ws', swoken c') /\ sinv bufs cap ws' c' /\
    swoken c' ≡ₚ acked_requests ws'.
Proof.
  intros Hi Hwk Hl E. destruct (do_op_step _ _ _ _ _ _ Hi Hl E) as (ws' & Hs & Hi').
  exists ws'. split_and!; [done|done|].
  apply (rtc_invariant wstep (fun p => p.2 ≡ₚ acked_requests p.1) _ _ wstep_woken Hs Hwk).
Qed.

(** C13: An ACK for the position [snd_una + d] of a flow, [d] at most the number of
    posted chunks and the window less than half the sequence space, is processed
    without failure when it acknowledges new data, and releases exactly the [d]
    oldest chunks: their buffers, their bytes, and the wake-ups of the requests
    that end among them.  An older ACK changes nothing, a duplicate none of the
    windows. *)
Theorem acks_release_prefix bufs cap ws c t5 t6 now1 now2 h f d :
  sinv bufs cap ws c -> sender_flow_tbl_ c !! Io.hfid h = Some f -> truthful t6 h f d ->
  (d < 0 -> uc_rx_ack cfg t5 t6 now1 now2 h c = Done c) /\
  (0 < d -> exists c', uc_rx_ack cfg t5 t6 now1 now2 h c = Done c') /\
  forall c', uc_rx_ack cfg t5 t6 now1 now2 h c = Done c' ->
    exists ws', rtc wstep (ws, swoken c) (ws', swoken c') /\ sinv bufs cap ws' c' /\
      (d <= 0 -> ws' = ws) /\
      (0 < d -> exists w, ws !! Io.hfid h = Some w /\ ws' = <[Io.hfid h := ack (Z.to_nat d) w]> ws).
Proof. apply uc_rx_ack_step. Qed.
End inv.

End TxInv.
