(* ===== verification/Retransmit.v ===== *)
(** * Selective retransmission

    [__retransmit_for_flow] walks the copy of the receiver's SACK bitmap and
    retransmits the chunks below the highest acknowledged one that the receiver
    has not got: exactly the holes, each once, in order, from the memory the
    first transmission used. *)

From S2P Require Import Prelude Csn Pcb SharedIo Flow Timer Sender SenderSpec.

Module Rtx.
Import Flow Tx TxSpec.

(** ** The holes of a bitmap *)

(** The number of bits of [s] set from [i] on. *)
Definition above (s i : Z) : Z := Pcb.count_bits (Z.to_nat (128 - i)) (Z.shiftr s i).

(** The clear bits below the highest set one. *)
Definition holes_from (s i : Z) : list Z :=
  filter (fun j => Z.testbit s j = false /\ above s j <> 0) (seqZ i (128 - i)).
Definition holes (s : Z) : list Z := holes_from s 0.

Lemma above_step s i : 0 <= i < 128 -> above s i = above s (i + 1) + Z.b2z (Z.testbit s i).
Proof.
  intros Hi. unfold above. replace (Z.to_nat (128 - i)) with (S (Z.to_nat (128 - (i + 1)))) by lia.
  rewrite <- Pcb.count_bits_shiftr, Z.shiftr_shiftr, Z.shiftr_spec by lia. by rewrite Z.add_0_l.
Qed.

Lemma above_nonneg s i : 0 <= above s i.
Proof. apply Pcb.count_bits_range. Qed.

Lemma count_bits_pos k n :
  0 < Pcb.count_bits k n <-> exists j, (j < k)%nat /\ Z.testbit n (Z.of_nat j) = true.
Proof.
  induction k as [|k IH]; simpl; [split; [lia|intros (? & ? & _); lia]|].
  pose proof (Pcb.count_bits_range k n). destruct (Z.testbit n (Z.of_nat k)) eqn:E; simpl.
  - split; [intros _; exists k; split; [lia|done]|lia].
  - rewrite Z.add_0_r, IH. split; intros (j & Hj & Hb); exists j; (split; [|done]); [lia|].
    destruct (decide (j = k)) as [->|]; [congruence|lia].
Qed.

Lemma above_pos s i : 0 <= i -> above s i <> 0 <-> exists j, i <= j < 128 /\ Z.testbit s j = true.
Proof.
  intros Hi. pose proof (above_nonneg s i). transitivity (0 < above s i); [lia|].
  unfold above. rewrite count_bits_pos. split; intros (j & Hj & Hb).
  - exists (Z.of_nat j + i). rewrite Z.shiftr_spec in Hb by lia. split; [lia|done].
  - exists (Z.to_nat (j - i)). rewrite Z.shiftr_spec by lia. split; [lia|].
    rewrite <- Hb. f_equal. lia.
Qed.

Lemma holes_spec s i :
  i ∈ holes s <-> 0 <= i < 128 /\ Z.testbit s i = false /\ exists j, i < j < 128 /\ Z.testbit s j = true.
Proof.
  unfold holes, holes_from. rewrite list_elem_of_filter, elem_of_seqZ. split.
  - intros [[Hb Ha] Hi]. split; [lia|]. split; [done|]. apply above_pos in Ha as (j & Hj & Hbj); [|lia].
    exists j. split; [|done]. destruct (decide (i = j)) as [->|]; [congruence|lia].
  - intros (Hi & Hb & j & Hj & Hbj). split; [|lia]. split; [done|].
    apply above_pos; [lia|]. exists j. split; [lia|done].
Qed.

Lemma holes_from_step s i : 0 <= i < 128 -> above s i <> 0 ->
  holes_from s i = (if Z.testbit s i then [] else [i]) ++ holes_from s (i + 1).
Proof.
  intros Hi Ha. unfold holes_from. rewrite seqZ_cons by lia. rewrite filter_cons.
  replace (Z.pred (128 - i)) with (128 - (i + 1)) by lia. unfold Z.succ.
  destruct (Z.testbit s i) eqn:E; [by rewrite decide_False by naive_solver|by rewrite decide_True].
Qed.

Lemma holes_from_end s i : 0 <= i -> above s i = 0 -> holes_from s i = [].
Proof.
  intros Hi Ha. unfold holes_from. apply elem_of_nil_inv.
  intros j. rewrite list_elem_of_filter, elem_of_seqZ. intros [[_ Hj] ?].
  apply above_pos in Hj as (j' & ? & ?); [|lia].
  assert (above s i <> 0); [|done]. apply above_pos; [done|]. exists j'. split; [lia|done].
Qed.

(** ** Retransmission *)

Section rtx.
Context {CC X P : Type} `{TxHooks CC X} `{PoolOps P} `{!PoolLaws P} (cfg : config).
Implicit Types (c : sctx CC X P) (f : SubUcclFlow CC).

(** The congestion control lets retransmissions pass, as Swift and Timely do. *)
Definition open_rtx : Prop := forall len bl imm rtx (cc : CC),
  EventOnTxRTXData len bl imm rtx cc = (true, (imm, rtx, cc)).

(** What a retransmission carries, its header buffer aside. *)
Definition rtx_key (p : post) : option (Z * (Z * Z * Z * Z)) :=
  match p with
  | PostRtx qp _ remote imm addr len => Some (qp, (addr, remote, len, imm))
  | PostWrite _ _ => None
  end.

(** The header and descriptor buffers left. *)
Definition rtx_pools c (n : Z) : Prop := exists cap1 hs cap2 ds,
  pl_repr (Io.retr_hdr_pool_ (io_ctx_ c)) cap1 hs /\ n <= alen hs /\
  pl_repr (Io.cq_desc_pool_ (io_ctx_ c)) cap2 ds /\ n <= alen ds.

Lemma try_retransmit_open a f c n :
  open_rtx -> rtx_pools c (n + 1) -> 0 <= n ->
  exists c' p, try_retransmit_chunk a f c = Done (true, f, c') /\ rtx_pools c' n /\
    posted c' = posted c ++ [p] /\
    rtx_key p = Some (qpidx (get_wr a c), wr_key (get_wr a c)) /\
    (forall b, get_wr b c' = get_wr b c).
Proof.
  intros Ho (cap1 & hs & cap2 & ds & H1 & L1 & H2 & L2) Hn. unfold try_retransmit_chunk. rewrite Ho.
  destruct hs as [|h hs]; [rewrite alen_nil in L1; lia|].
  destruct ds as [|d ds]; [rewrite alen_nil in L2; lia|]. rewrite alen_cons in *.
  destruct (pl_alloc_cons _ _ _ _ H1) as (p1 & E1 & H1').
  destruct (pl_alloc_cons _ _ _ _ H2) as (p2 & E2 & H2').
  cbn [negb]. unfold Io.pop_retr_hdr. simpl io_ctx_. rewrite E1. cbn [mbind result_bind].
  unfold Io.pop_cqe_desc. simpl Io.cq_desc_pool_. rewrite E2. cbn [mbind result_bind].
  eexists _, _. split; [by destruct f as [? ? ? ? [] ? ? ? ? ? ? ?]|].
  split; [exists cap1, hs, cap2, ds; split_and!; [done|lia|done|lia]|].
  split; [done|]. split; [done|]. intros b. unfold get_wr. simpl.
  destruct (decide (b = a)) as [->|]; [|by rewrite lookup_insert_ne].
  rewrite lookup_insert_eq. simpl. by destruct (default zero_wr (wrs c !! a)).
Qed.

(** The sender's copy of the bitmap, [s], is of what was received beyond position
    [n], where the tracking list starts. *)
Record sack_ok f (s n : Z) : Prop := {
  k_bits : Pcb.buckets (Pcb.tx_sack_bitmap (pcb f)) /\ alen (Pcb.tx_sack_bitmap (pcb f)) = 2 /\
    Pcb.join (Pcb.tx_sack_bitmap (pcb f)) = s;
  k_base : Csn.of_uint32 (Pcb.tx_sack_bitmap_base (pcb f)) = Csn.csn n;
  k_count : Pcb.tx_sack_bitmap_count (pcb f) = above s 0;
  k_csn : forall i t, 0 <= i -> aget (txtracking f) i = Some t -> tcsn t = Csn.csn (n + i);
  k_in : forall i, 0 <= i < 128 -> Z.testbit s i = true -> i < alen (txtracking f);
}.

(** What is retransmitted of the chunk at index [i]. *)
Definition resent c f (i : Z) : option (Z * (Z * Z * Z * Z)) :=
  t ← aget (txtracking f) i; Some (qpidx (get_wr (twr_ex t) c), wr_key (get_wr (twr_ex t) c)).

Lemma rtx_loop_ok s n f fuel : forall i done c,
  open_rtx -> sack_ok f s n -> 0 <= i -> Z.of_nat fuel = 128 - i ->
  rtx_pools c (alen (holes_from s i)) ->
  exists done' c' ps,
    rtx_loop fuel (Csn.csn n) (above s i) i done f c = Done (done', f, c') /\
    posted c' = posted c ++ ps /\ map rtx_key ps = map (resent c f) (holes_from s i) /\
    (forall b, get_wr b c' = get_wr b c) /\
    done' = (done || negb (bool_decide (holes_from s i = []))).
Proof.
  induction fuel as [|fuel IH]; intros i done c Ho Hs Hi Hfuel Hp.
  { assert (i = 128) as -> by lia. exists done, c, []. cbn [rtx_loop].
    change (holes_from s 128) with (@nil Z). rewrite app_nil_r. split_and!; try done.
    by rewrite bool_decide_true, orb_false_r. }
  cbn [rtx_loop]. destruct (Z.eqb_spec (above s i) 0) as [Ez|Ez].
  { exists done, c, []. rewrite (holes_from_end s i Hi Ez). rewrite app_nil_r. split_and!; try done.
    by rewrite bool_decide_true, orb_false_r. }
  pose proof Hs as [(Hb1 & Hb2 & Hb3) Hbase Hcnt Hcsn Hin].
  pose proof Ez as (j & Hj & Hbj)%above_pos; [|done]. pose proof (Hin j ltac:(lia) Hbj) as Hlt.
  rewrite bool_decide_false by (intros E; rewrite E, alen_nil in Hlt; lia). cbn [orb].
  rewrite Pcb.bit_is_set_join by (done || lia). rewrite Hb3. cbn [mbind result_bind].
  rewrite (holes_from_step s i) in Hp |- * by lia.
  pose proof (above_step s i ltac:(lia)) as Ea. pose proof (above_nonneg s (i + 1)).
  destruct (Z.testbit s i) eqn:Eb; simpl Z.b2z in Ea; cbn [app] in *.
  - pose proof (Pcb.count_bits_range (Z.to_nat (128 - i)) (Z.shiftr s i)) as Hr. fold (above s i) in Hr.
    replace (above s i -[8] 1) with (above s (i + 1)) by (rewrite wrap_id; word_lia).
    apply IH; [done|done|lia|lia|done].
  - rewrite alen_cons in Hp. replace (above s i) with (above s (i + 1)) by lia.
    assert (i < j) by (destruct (decide (i = j)) as [->|]; [congruence|lia]).
    destruct (aget_is_Some (txtracking f) i) as [t Et]; [lia|].
    unfold get_unacked_chunk_from_idx. rewrite Et. cbn [mbind result_bind].
    rewrite (Hcsn i t Hi Et), Csn.add_csn. replace (Csn.csn (n + Csn.of_uint32 i)) with (Csn.csn (n + i))
      by (rewrite Csn.of_uint32_csn; unfold Csn.csn; word_lia).
    rewrite Z.eqb_refl.
    destruct (try_retransmit_open (twr_ex t) f c (alen (holes_from s (i + 1))) Ho Hp (alen_nonneg _))
      as (c1 & p & -> & Hp1 & Epost & Ekey & Ewr). cbn [mbind result_bind].
    destruct (IH (i + 1) true c1 Ho Hs ltac:(lia) ltac:(lia) Hp1) as (d' & c' & ps & E & P1 & P2 & P3 & ->).
    exists true, c', (p :: ps). split; [done|]. rewrite P1, Epost, <- app_assoc. split; [done|]. split.
    + simpl. rewrite P2, Ekey. f_equal; [unfold resent; by rewrite Et|]. apply map_ext. intros j'.
      unfold resent. destruct (aget (txtracking f) j'); [|done]. simpl. by rewrite Ewr.
    + split; [intros; by rewrite P3|]. by rewrite orb_true_r.
Qed.

Lemma rtx_pools_le c n m : rtx_pools c n -> m <= n -> rtx_pools c m.
Proof.
  intros (cap1 & hs & cap2 & ds & H1 & L1 & H2 & L2) Hm.
  exists cap1, hs, cap2, ds. split_and!; [done|lia|done|lia].
Qed.

Lemma rearm_posted now fid f c : posted (rearm_timer_for_flow cfg now fid f c).2 = posted c.
Proof. unfold rearm_timer_for_flow, arm_timer_for_flow. by destruct (rto_armed f). Qed.

Lemma sack_empty bm s :
  Pcb.buckets bm /\ alen bm = 2 /\ Pcb.join bm = s -> (above s 0 =? 0) = (s =? 0).
Proof.
  intros (Hb & Hl & <-). destruct bm as [|x [|y [|z l]]]; try done.
  2: { rewrite !alen_cons in Hl. pose proof (alen_nonneg l). lia. }
  simpl Pcb.join.
  apply Forall_cons in Hb as [Hx Hb]. apply Forall_cons in Hb as [Hy _].
  set (s := x + 2 ^ 64 * (y + 2 ^ 64 * 0)). assert (0 <= s < 2 ^ 128) as Hs.
  { unfold s, in_word in *. change (2 ^ 128) with (2 ^ 64 * 2 ^ 64). nia. }
  destruct (Z.eqb_spec s 0) as [->|Hne]; [vm_compute; reflexivity|].
  apply Z.eqb_neq. apply above_pos; [done|]. exists (Z.log2 s). split; [|apply Z.bit_log2; lia].
  split; [apply Z.log2_nonneg|]. apply Z.log2_lt_pow2; lia.
Qed.

End rtx.
End Rtx.
