(* ===== verification/ChunkLoop.v ===== *)
(** * The chunk loop

    The loop that [receiverCC_tx_message], [senderCC_tx_write] and
    [senderCC_tx_read] of [collective/rdma/transport.cc] share: ask the congestion
    control how much of the rest of a request may go, hand out a chunk, advance.
    What a chunk does is an argument; if it posts the next piece, the loop posts
    contiguous pieces of the request. *)

From S2P Require Import Prelude Float64 Csn Queues Pcb SharedIo Flow Timer Sender SenderSpec.

Module ChunkLoop.
Import Flow Tx TxSpec.

Section loop.
Context {CC X P : Type} `{TxHooks CC X} `{PoolOps P}.
Context (step : Z -> sctx CC X P -> result (sctx CC X P)).
Implicit Types (c : sctx CC X P) (f : SubUcclFlow CC).

Fixpoint chunk_loop (fuel : nat) (fid u : Z) c : result (bool * sctx CC X P) :=
  match fuel with
  | O => Fail OutOfBounds
  | S fuel =>
      match sureqs c !! u with
      | None => Fail OutOfBounds
      | Some r =>
      if (sent_offset r <? wrap 32 (data_len r)) || (data_len r =? 0) then
        f ← get_flow fid c;
        let '(chunk, cc') := EventOnChunkSize (unacked_bytes_ f) (engine_unacked_bytes_ c)
          (wrap 32 (data_len r - sent_offset r)) (Pcb.cc (pcb f)) in
        let c := put_flow fid (set_cc_state cc' f) c in
        if (chunk =? 0) && negb (data_len r =? 0) then Done (false, c)
        else
          c ← step chunk c;
          if data_len r =? 0 then Done (true, c) else chunk_loop fuel fid u c
      else Done (true, c)
      end
  end.

(** ** Pieces *)

(** [csn_of] is where a work request carries its sequence number, [good] what else
    is required of it; [drains] says whether sending reduces the backlog. *)
Context (cfg : config) (csn_of : wr_ex -> Z) (good : wr_ex -> Prop) (drains : bool).

(** Where a chunk is read from and written to, its length and number. *)
Definition piece (p : post) : option (Z * Z * Z * Z) :=
  match p with
  | PostWrite _ w => Some (sge_addr w, remote_addr w, sge_length w, csn_of w)
  | _ => None
  end.
Definition good_post (p : post) : Prop := match p with PostWrite _ w => good w | _ => False end.

Fixpoint pieces (r : sreq) (off n : Z) (ls : list Z) : list (Z * Z * Z * Z) :=
  match ls with
  | [] => []
  | len :: ls => (laddr r +[64] off, raddr r +[64] off, len, Csn.csn n) :: pieces r (off + len) (n + 1) ls
  end.

(** The context after the chunks [ls] of request [u] were sent. *)
Record sent_pieces (fid u : Z) (r : sreq) (n : Z) (ls : list Z) c f c' f' : Prop := {
  rs_flow : sender_flow_tbl_ c' = <[fid := f']> (sender_flow_tbl_ c);
  rs_req : sureqs c' = <[u := set_sent_offset (sent_offset r + sum ls) r]> (sureqs c);
  rs_backlog : backlog_bytes_ f' = if drains then backlog_bytes_ f -[32] sum ls else backlog_bytes_ f;
  rs_unacked : unacked_bytes_ f' = unacked_bytes_ f +[32] sum ls;
  rs_posted : exists ps, posted c' = posted c ++ ps /\ Forall good_post ps /\
    map piece ps = map Some (pieces r (sent_offset r) n ls);
}.

Definition words f : Prop := in_word 32 (backlog_bytes_ f) /\ in_word 32 (unacked_bytes_ f).

Lemma sent_pieces_nil fid u r n c f k :
  sender_flow_tbl_ c !! fid = Some f -> sureqs c !! u = Some r -> words f ->
  sent_pieces fid u r n [] c f (put_flow fid (set_cc_state k f) c) (set_cc_state k f).
Proof.
  intros Hf Hr [H1 H2]. split; cbn; rewrite ?Z.add_0_r, ?Z.sub_0_r, ?set_sent_offset_id; try done.
  - by rewrite insert_id.
  - rewrite wrap_id by done. by destruct drains.
  - by rewrite wrap_id.
  - exists []. by rewrite app_nil_r.
Qed.

Lemma set_cc_id f : set_cc_state (Pcb.cc (pcb f)) f = f.
Proof. by destruct f as [????[]]. Qed.

Lemma put_flow_id fid f c : sender_flow_tbl_ c !! fid = Some f -> put_flow fid f c = c.
Proof. intros. unfold put_flow. destruct c; cbn in *. by rewrite insert_id. Qed.

Lemma sent_pieces_same fid u r n c f :
  sender_flow_tbl_ c !! fid = Some f -> sureqs c !! u = Some r -> words f ->
  sent_pieces fid u r n [] c f c f.
Proof.
  intros Hf Hr Hw. pose proof (sent_pieces_nil fid u r n c f (Pcb.cc (pcb f)) Hf Hr Hw) as Hs.
  by rewrite set_cc_id, put_flow_id in Hs.
Qed.

Lemma pieces_req r r' ls : laddr r' = laddr r -> raddr r' = raddr r ->
  forall off n, pieces r' off n ls = pieces r off n ls.
Proof.
  intros E1 E2. induction ls as [|len ls IH]; intros; cbn; [done|]. by rewrite IH, E1, E2.
Qed.

Lemma sent_pieces_cons fid u r n len ls c f c1 f1 c' f' :
  sent_pieces fid u r n [len] c f c1 f1 ->
  sent_pieces fid u (set_sent_offset (sent_offset r + len) r) (n + 1) ls c1 f1 c' f' ->
  sent_pieces fid u r n (len :: ls) c f c' f'.
Proof.
  intros [A1 A2 A3 A4 (ps & A5 & Ag & A6)] [B1 B2 B3 B4 (ps' & B5 & Bg & B6)]. cbn in *.
  rewrite Z.add_0_r in *. split; cbn.
  - by rewrite B1, A1, insert_insert_eq.
  - rewrite B2, A2, insert_insert_eq, Z.add_assoc. done.
  - rewrite B3, A3. destruct drains; [|done]. rewrite wrap_sub_l. f_equal. lia.
  - rewrite B4, A4, wrap_add_l. f_equal. lia.
  - exists (ps ++ ps'). rewrite B5, A5, app_assoc. split; [done|]. split; [by apply Forall_app|].
    rewrite map_app, A6, B6. cbn. by rewrite (pieces_req r).
Qed.

(** What sending the rest of a request does: the chunks [ls] are posted, until all
    is sent, the congestion control stops, or the pool is empty. *)
Definition loop_outcome (fid u : Z) c f r (free : list Z) (n : Z)
    (res : result (bool * sctx CC X P)) : Prop :=
  exists ls, alen ls <= alen free /\ sent_offset r + sum ls <= data_len r /\
    ((exists c' f' b, res = Done (b, c') /\ sent_pieces fid u r n ls c f c' f' /\
       (b = true <-> sent_offset r + sum ls = data_len r /\ (data_len r = 0 -> ls = [0])))
     \/ res = Fail CheckFailed /\ alen ls = alen free).

(** A step hands out one chunk, and fails only without a buffer. *)
Record step_ok `{!PoolLaws P} (fid u cap : Z) : Prop := {
  step_sends len c f0 k r a free n :
    can_send cfg fid u cap c f0 r (a :: free) n -> words f0 ->
    0 <= sent_offset r -> 0 <= len -> sent_offset r + len < 2 ^ 31 ->
    exists c' f', step len (put_flow fid (set_cc_state k f0) c) = Done c' /\
      sent_pieces fid u r n [len] c f0 c' f' /\ words f' /\
      can_send cfg fid u cap c' f' (set_sent_offset (sent_offset r + len) r) free (n + 1);
  step_no_buff len c r f :
    sureqs c !! u = Some r -> sender_flow_tbl_ c !! fid = Some f ->
    pl_repr (wr_ex_pool_ c) cap [] -> step len c = Fail CheckFailed;
}.

Lemma chunk_loop_outcome `{!PoolLaws P} `{!TxLaws CC X} fid u cap fuel : forall c f r free n,
  step_ok fid u cap -> can_send cfg fid u cap c f r free n -> words f ->
  0 <= sent_offset r <= data_len r -> data_len r < 2 ^ 31 ->
  data_len r - sent_offset r < Z.of_nat fuel ->
  loop_outcome fid u c f r free n (chunk_loop fuel fid u c).
Proof.
  induction fuel as [|fuel IH]; intros c f r free n Hstep Hs Hb Ho Hl Hfuel; [lia|].
  pose proof Hs as [Hp Hf Hfp Hr Hpool Hn _]. cbn [chunk_loop]. rewrite Hr.
  rewrite (wrap_id 32 (data_len r)) by word_lia.
  destruct (_ || _) eqn:Eg; cycle 1.
  { apply orb_false_iff in Eg as [E1 E2]. exists []. rewrite alen_nil.
    split; [apply alen_nonneg|]. cbn [sum]. split; [lia|]. left.
    exists c, f, true. split; [done|]. split; [by apply sent_pieces_same|].
    split; [split; [lia|lia]|done]. }
  unfold get_flow. rewrite Hf. cbn [mbind result_bind].
  rewrite (wrap_id 32 (_ - _)) by word_lia.
  pose proof (chunk_size_le (unacked_bytes_ f) (engine_unacked_bytes_ c)
    (data_len r - sent_offset r) (Pcb.cc (pcb f)) ltac:(lia)) as Hchunk.
  destruct (EventOnChunkSize _ _ _ _) as [len cc']. cbn [fst] in Hchunk.
  destruct ((len =? 0) && _) eqn:Estop.
  { exists []. rewrite alen_nil.
    split; [apply alen_nonneg|]. cbn [sum]. split; [lia|]. left.
    eexists _, _, false. split; [done|]. split; [by apply sent_pieces_nil|].
    split; [done|lia]. }
  destruct free as [|a free].
  { exists []. split; [done|]. cbn [sum]. split; [lia|]. right. split; [|done].
    rewrite (step_no_buff _ _ _ Hstep len _ r (set_cc_state cc' f));
      [done|done|apply lookup_insert_eq|done]. }
  destruct (step_sends _ _ _ Hstep len c f cc' r a free n) as (c1 & f1 & -> & Hh & Hb' & Hs1); try done; try lia.
  cbn [mbind result_bind]. destruct (data_len r =? 0) eqn:E0.
  - exists [len]. rewrite !alen_cons, alen_nil. cbn [sum]. pose proof (alen_nonneg free).
    split; [lia|]. split; [lia|]. left.
    exists c1, f1, true. split; [done|]. split; [done|]. split; [|done].
    intros _. split; [lia|]. intros _. f_equal. lia.
  - destruct (IH c1 f1 (set_sent_offset (sent_offset r + len) r) free (n + 1))
      as (ls & H1 & H2 & H3); cbn [sent_offset data_len set_sent_offset] in *; try done; try lia.
    exists (len :: ls). rewrite !alen_cons. cbn [sum]. split; [lia|]. split; [lia|].
    destruct H3 as [(c' & f' & b & -> & Hs' & Hbt)|[-> ?]]; [left|right; split; [done|lia]].
    exists c', f', b. split; [done|]. split; [by eapply sent_pieces_cons|].
    rewrite Hbt. split; intros [? ?]; split; lia || (intros; lia).
Qed.
End loop.
End ChunkLoop.
