(* ===== verification/OneSided.v ===== *)
(** * One-sided reads and writes

    [RDMAContext::senderCC_tx_write], [senderCC_tx_read] and the dispatch
    [tx_message] of [collective/rdma/transport.cc] and [transport.h].  The two
    functions differ in the operation code only. *)

From S2P Require Import Prelude Float64 Csn Queues Pcb SharedIo Flow Timer Sender SenderSpec ChunkLoop.

Module OneSided.
Import Flow Tx TxSpec.

Inductive ReqType := ReqTx | ReqRx | ReqFlush | ReqTxRC | ReqRxRC | ReqRead | ReqWrite.

Section one_sided.
Context {CC X P : Type} `{TxHooks CC X} `{PoolOps P} (cfg : config).
Implicit Types (c : sctx CC X P) (f : SubUcclFlow CC).

(** The work request of the next chunk of request [r]; the members that are not
    written keep what the buffer's last user left. *)
Definition os_fill (op : opcode) (r : sreq) (chunk wrid : Z) (w : wr_ex) : wr_ex :=
  MkWrEx (laddr r +[64] sent_offset r) (lkey r) chunk (raddr r +[64] sent_offset r) (rkey r)
    (imm_data w) wrid true (wureq w) (qpidx w) op.

Definition os_chunk (op : opcode) (now fid u chunk : Z) c : result (sctx CC X P) :=
  match sureqs c !! u with
  | None => Fail OutOfBounds
  | Some r =>
  f ← get_flow fid c;
  match pl_alloc (wr_ex_pool_ c) with
  | (None, _) => Fail CheckFailed
  | (Some a, p) =>
      let '(csn, pcb') := Pcb.get_snd_nxt (pcb f) in
      let f := set_pcb pcb' f in
      let w := os_fill op r chunk (Z.lor (wrap 64 (Z.shiftl csn 56)) fid) (get_wr a c) in
      '(q, c) ← select_qpidx_pot cfg chunk f (set_wr_ex_pool_ p c);
      let w := set_qpidx q w in
      let c := put_wr a w c in
      let c := set_posted (posted c ++ [PostWrite q w]) c in
      let hint := sent_offset r +[32] chunk =? wrap 32 (data_len r) in
      let f := set_txtracking (txtracking f ++ [MkTrack u a now csn hint]) f in
      let r := set_sent_offset (sent_offset r +[32] chunk) r in
      let f := set_unacked_bytes_ (unacked_bytes_ f +[32] chunk) f in
      Done (set_engine_unacked_bytes_ (engine_unacked_bytes_ c +[32] chunk)
             (set_sureqs (<[u := r]> (sureqs c)) (put_flow fid f c)))
  end
  end.

Definition one_sided (op : opcode) (now u : Z) c : result (bool * sctx CC X P) :=
  match sureqs c !! u with
  | None => Fail OutOfBounds
  | Some r =>
      if data_len r =? 0 then Fail CheckFailed
      else ChunkLoop.chunk_loop (os_chunk op now (context r) u)
             (S (Z.to_nat (data_len r - sent_offset r))) (context r) u c
  end.

Definition senderCC_tx_write (now u : Z) c : result (bool * sctx CC X P) :=
  one_sided IBV_WR_RDMA_WRITE now u c.
Definition senderCC_tx_read (now u : Z) c : result (bool * sctx CC X P) :=
  one_sided IBV_WR_RDMA_READ now u c.

(** [tx_message] without receiver-side congestion control. *)
Definition tx_message (type : ReqType) (now u : Z) c : result (bool * sctx CC X P) :=
  match type with
  | ReqRead => senderCC_tx_read now u c
  | ReqWrite => senderCC_tx_write now u c
  | _ => senderCC_tx_message cfg now u c
  end.

(** ** What they post *)

Context `{!PoolLaws P}.

(** The sequence number is in the high byte of [wr_id]. *)
Definition id_csn (w : wr_ex) : Z := Z.shiftr (wr_id w) 56.
Definition os_good (op : opcode) (w : wr_ex) : Prop := wr_opcode w = op /\ signaled w = true.

Lemma id_csn_packed csn fid : in_word 8 csn -> 0 <= fid < 2 ^ 56 ->
  Z.shiftr (Z.lor (wrap 64 (Z.shiftl csn 56)) fid) 56 = csn.
Proof.
  intros Hc Hf. rewrite wrap_id.
  2: { rewrite Z.shiftl_mul_pow2 by lia. unfold in_word in *. word_lia. }
  rewrite Z.shiftr_lor, Z.shiftr_shiftl_l, Z.sub_diag, Z.shiftl_0_r by lia.
  rewrite (Z.shiftr_div_pow2 fid), Z.div_small, Z.lor_0_r by lia. done.
Qed.

Lemma os_step_ok op now fid u cap : 0 <= fid < 2 ^ 56 ->
  ChunkLoop.step_ok (os_chunk op now fid u) cfg id_csn (os_good op) false fid u cap.
Proof.
  intros Hfid. split; cycle 1.
  { intros len c r f Hr Hf Hp. unfold os_chunk, get_flow. rewrite Hr, Hf. cbn [mbind result_bind].
    by rewrite (pl_alloc_nil _ _ Hp). }
  intros len c f0 k r a free n [Hp Hf Hfp Hr Hpool Hn [Hb1 Hb2]] [Hw1 Hw2] Ho Hl Hs.
  set (c0 := put_flow fid _ c).
  assert (sureqs c0 !! u = Some r) as Hr0 by exact Hr.
  assert (sender_flow_tbl_ c0 !! fid = Some (set_cc_state k f0)) as Hf0 by apply lookup_insert_eq.
  unfold os_chunk, get_flow. rewrite Hr0, Hf0. cbn [mbind result_bind].
  destruct (pl_alloc_cons _ _ _ _ Hpool) as (p' & Ea & Hp').
  change (wr_ex_pool_ c0) with (wr_ex_pool_ c). rewrite Ea. unfold Pcb.get_snd_nxt.
  change (Pcb.snd_nxt (pcb (set_cc_state k f0))) with (Pcb.snd_nxt (pcb f0)). rewrite Hn.
  set (f1 := set_pcb _ _). set (w1 := os_fill _ _ _ _ _). set (c1 := set_wr_ex_pool_ p' c0).
  destruct (select_qpidx_pot_ok cfg len f1 c1) as
    (q & c2 & -> & Hq & (E1 & E2 & E3 & E4 & E5 & E6 & E7 & E8 & E9 & E10 & E11) & Hp2);
    [destruct Hp; by split|exact Hfp|].
  cbn [mbind result_bind].
  assert (sent_offset r +[32] len = sent_offset r + len) as Eo by (apply wrap_id; word_lia).
  assert (Csn.add_assign (Csn.csn n) 1 = Csn.csn (n + 1)) as Enxt by apply Csn.add_assign_csn.
  change (sender_flow_tbl_ c1) with (<[fid := set_cc_state k f0]> (sender_flow_tbl_ c)) in E1.
  change (sureqs c1) with (sureqs c) in E2. change (posted c1) with (posted c) in E10.
  change (wr_ex_pool_ c1) with p' in E4.
  eexists _, _. split; [reflexivity|]. split; [|split].
  - split; cbn; rewrite ?E1, ?E2, ?E10, ?Eo, ?Z.add_0_r, ?insert_insert_eq; try done.
    exists [PostWrite q (set_qpidx q w1)]. split; [done|]. split; [by repeat constructor|].
    unfold id_csn. cbn. rewrite id_csn_packed; [done|apply Csn.csn_range|done].
  - split; cbn; [done|]. apply wrap_range. lia.
  - split; cbn; rewrite ?E1, ?E2, ?E4, ?Eo, ?lookup_insert_eq; try done.
    + destruct Hp2. by split.
    + split; apply wrap_range; lia.
Qed.

(** A one-sided write or read hands (the rest of) its bytes to the queue pairs
    as contiguous pieces with the requested operation, each signalled and
    numbered with the next sequence numbers in the high byte of [wr_id]; it
    reports completion exactly when all is posted, fails only when the pool of
    work requests is used up, and leaves the backlog of EQDS alone. *)
Theorem one_sided_partitions `{!TxLaws CC X} op now u cap c f r free n :
  0 <= context r < 2 ^ 56 -> can_send cfg (context r) u cap c f r free n -> ChunkLoop.words f ->
  0 <= sent_offset r <= data_len r -> 0 < data_len r < 2 ^ 31 ->
  ChunkLoop.loop_outcome id_csn (os_good op) false (context r) u c f r free n (one_sided op now u c).
Proof.
  intros Hc Hs Hw Ho Hl. unfold one_sided. rewrite (cs_req _ _ _ _ _ _ _ _ _ Hs).
  rewrite (proj2 (Z.eqb_neq (data_len r) 0)) by lia.
  apply (ChunkLoop.chunk_loop_outcome _ cfg _ _ _ (context r) u cap);
    [by apply os_step_ok|done|done|done|lia|lia].
Qed.
End one_sided.
End OneSided.
