(* ===== verification/Contexts.v ===== *)
(** * The RDMA contexts

    [TimelyRDMAContext], [SwiftRDMAContext] and [EQDSRDMAContext] of
    [collective/rdma/transport.h]: the congestion-control hooks of the send and
    receive paths, as instances of the hook classes of [Flow.v] whose laws they
    are shown to satisfy; and the send path of EQDS,
    [RDMAContext::receiverCC_tx_message] and [rx_credit]. *)

From S2P Require Import Prelude Float64 Csn Queues TimingWheel Cc Pcb SharedIo Eqds Flow Timer Sender SenderSpec ChunkLoop.

Module Ctx.
Import Flow Tx.

(** The congestion-control members of a [PCB]. *)
Record cc := MkCc {
  timely_cc : Timely.TimelyCC;
  swift_cc : Swift.SwiftCC;
  eqds_cc : Eqds.EQDSCC;
}.

(** The limits of an engine, those of its link layer. *)
Record limits := MkLimits {
  chunk_size : Z;
  kMaxUnAckedBytesPerFlow : Z;
  kLow : Z;
  kHigh : Z;
  freq : double;
}.

(** The limits as [transport_config.h] derives them from the chunk size. *)
Definition limits_of (chunk_size : Z) (roce : bool) (freq : double) : limits :=
  let unit := Z.max chunk_size 32768 in
  MkLimits chunk_size (wrap 32 (2 * unit))
    (wrap 32 ((if roce then 8 else 18) * unit)) (wrap 32 ((if roce then 12 else 24) * unit)) freq.

Section hooks.
Context (g : limits).

(** What both [ack_transmitted_chunks] and [ack_rc_transmitted_chunks] do with an
    RTT sample. *)
Definition update_cc (now t d seg : Z) (c : cc) : result cc :=
  timely ← Timely.update_rate t d Timely.kEwmaAlpha (timely_cc c);
  Done (MkCc timely (Swift.adjust_wnd (freq g) now (to_usec d (freq g)) seg (swift_cc c)) (eqds_cc c)).

Definition rtt_time_ok (t : Z) (c : cc) : Prop :=
  1000000000 <= t /\ Timely.last_update_tsc_ (timely_cc c) <= t.

Lemma update_cc_done now t d seg c : rtt_time_ok t c -> exists c', update_cc now t d seg c = Done c'.
Proof.
  intros [H1 H2]. unfold update_cc, Timely.update_rate.
  rewrite (proj2 (Z.leb_le _ _)), (proj2 (Z.leb_le (Timely.last_update_tsc_ _) t)) by done.
  cbn [andb check mbind result_bind].
  repeat (destruct (_ && _) || destruct (SpecFloat.SFltb _ _)); eauto.
Qed.

(** ** Timely *)

Section timely.
Context {P : Type} `{!DequeOps nat P} (kWheelNumWslots : nat).

Definition timely_chunk_size (fu eu remaining_bytes : Z) (c : cc) : Z * cc :=
  let ready := Z.min remaining_bytes (chunk_size g) in
  (if kHigh g <? eu +[32] ready then 0
   else if (eu +[32] ready <=? kLow g) || (fu +[32] ready <=? kMaxUnAckedBytesPerFlow g) then ready
   else 0, c).

Definition timely_queue (n a size now : Z) (c : cc) (w : TimingWheel.wheel P) :
    result (bool * cc * TimingWheel.wheel P) :=
  '(queued, prev, w) ← TimingWheel.queue_on_timing_wheel kWheelNumWslots (freq g)
    (Timely.rate_ (timely_cc c)) (Timely.prev_desired_tx_tsc_ (timely_cc c)) now a size (n =? 0) w;
  Done (queued, MkCc (Timely.set_prev_desired_tx_tsc_ prev (timely_cc c)) (swift_cc c) (eqds_cc c), w).

Definition timely_tx : TxHooks cc (TimingWheel.wheel P) := {|
  EventOnChunkSize := timely_chunk_size;
  EventOnQueueData := timely_queue;
  EventOnTxRTXData := fun _ _ imm rtx c => (true, (imm, rtx, c));
  EventOnRxACK := fun rtx c => (rtx, c);
  EventOnRxNACK := fun rtx c => (rtx, c);
  on_rtt := update_cc;
|}.
End timely.

(** ** Swift *)

Definition swift_chunk_size (fu eu remaining_bytes : Z) (c : cc) : Z * cc :=
  (if remaining_bytes <=? chunk_size g then remaining_bytes
   else
     let hard_budget := kHigh g -[32] eu in
     let soft_budget := kLow g -[32] eu in
     let flow_budget := kMaxUnAckedBytesPerFlow g -[32] fu in
     let cc_budget := Swift.get_wnd (swift_cc c) -[32] fu in
     let ready := Z.min (Z.min remaining_bytes cc_budget) (chunk_size g) in
     if hard_budget <? ready then 0
     else if (ready <=? soft_budget) || (ready <=? flow_budget) then ready
     else 0, c).

Definition swift_tx : TxHooks cc unit := {|
  EventOnChunkSize := swift_chunk_size;
  EventOnQueueData := fun _ _ _ _ c x => Done (false, c, x);
  EventOnTxRTXData := fun _ _ imm rtx c => (true, (imm, rtx, c));
  EventOnRxACK := fun rtx c => (rtx, c);
  EventOnRxNACK := fun rtx c => (rtx, c);
  on_rtt := update_cc;
|}.

(** ** EQDS *)

Definition set_eqds (e : Eqds.EQDSCC) (c : cc) : cc := MkCc (timely_cc c) (swift_cc c) e.

Definition eqds_chunk_size (fu eu remaining_bytes : Z) (c : cc) : Z * cc :=
  if Timely.get_wnd (timely_cc c) <=? fu then (0, c)
  else
    let '(chunk, e) := Eqds.chunk_of (chunk_size g) remaining_bytes (eqds_cc c) in
    (chunk, set_eqds e c).

(** A retransmission needs credit; its immediate data gets the new target. *)
Definition eqds_tx_rtx (len backlog imm : Z) (rtx : bool) (c : cc) : bool * (Z * bool * cc) :=
  let e := eqds_cc c in
  if Eqds.credit e <? len then (false, (imm, true, c))
  else
    let '(ok, e) := Eqds.spend_credit len e in
    if negb ok then (false, (imm, true, set_eqds e c))
    else
      let '(target, e) := Eqds.compute_pull_target backlog (Timely.get_wnd (timely_cc c)) len e in
      (true, (Imm.SetTarget imm target, rtx, set_eqds e c)).

Definition eqds_tx : TxHooks cc unit := {|
  EventOnChunkSize := eqds_chunk_size;
  EventOnQueueData := fun _ _ _ _ c x => Done (false, c, x);
  EventOnTxRTXData := eqds_tx_rtx;
  EventOnRxACK := fun _ c => (false, set_eqds (Eqds.stop_speculating (eqds_cc c)) c);
  EventOnRxNACK := fun rtx c => (rtx, c);
  on_rtt := update_cc;
|}.

(** The receiver's side: [X] is the channel to the pacer. *)
Definition eqds_rx_data (id : Z) (imm : Z) (c : cc) (cmdq : list Z) : cc * list Z :=
  let '(newer, e) := Eqds.handle_pull_target (Imm.GetTarget imm) (eqds_cc c) in
  (set_eqds e c, if newer : bool then cmdq ++ [id] else cmdq).

Definition eqds_rx (id : Z) : RxHooks cc (list Z) := {|
  EventOnRxData := eqds_rx_data id;
  EventOnRxRTXData := eqds_rx_data id;
|}.
Definition plain_rx {X} : RxHooks cc X := {|
  EventOnRxData := fun _ c x => (c, x);
  EventOnRxRTXData := fun _ c x => (c, x);
|}.

(** ** The laws *)

Context (Hchunk : 0 <= chunk_size g).

Lemma timely_laws {P} `{!DequeOps nat P} (K : nat) :
  @TxLaws cc (TimingWheel.wheel P) (timely_tx K).
Proof.
  refine {| may_queue := true; rtt_ok := rtt_time_ok |}.
  - intros fu eu rem c Hr. simpl. destruct (_ <? _); [simpl; lia|]. destruct (_ || _); simpl; lia.
  - done.
  - intros n a sz now c x c' x' _. simpl. unfold timely_queue, TimingWheel.queue_on_timing_wheel.
    destruct (Z.eqb_spec n 0) as [|]; [done|]. rewrite !andb_false_r.
    destruct (to_uint _ _); [|done].
    destruct (to_uint _ _); [|done]. rewrite andb_false_r. by destruct (TimingWheel.insert _ _ _ _ _).
  - intros. by apply update_cc_done.
  - done.
Defined.

Lemma swift_laws : @TxLaws cc unit swift_tx.
Proof.
  refine {| may_queue := false; rtt_ok := rtt_time_ok |}.
  - intros fu eu rem c Hr. simpl. unfold swift_chunk_size.
    pose proof (wrap_range 32 (Swift.get_wnd (swift_cc c) - fu) ltac:(lia)) as [? _].
    set (ready := Z.min (Z.min _ _) _). assert (0 <= ready <= rem) by lia.
    destruct (rem <=? _); [simpl; lia|]. destruct (_ <? ready); [simpl; lia|]. destruct (_ || _); simpl; lia.
  - intros. simpl. eauto.
  - done.
  - intros. by apply update_cc_done.
  - done.
Defined.

Lemma eqds_laws : @TxLaws cc unit eqds_tx.
Proof.
  refine {| may_queue := false; rtt_ok := rtt_time_ok |}.
  - intros fu eu rem c Hr. simpl. unfold eqds_chunk_size, Eqds.chunk_of.
    destruct (_ <=? _); simpl; [lia|]. destruct (Eqds.spend_credit _ _) as [[] e]; simpl; [|lia].
    pose proof (wrap_range 32 (Eqds.credit_pull_ (eqds_cc c) + Eqds.credit_spec_ (eqds_cc c)) ltac:(lia)) as [? _].
    unfold Eqds.credit. lia.
  - intros. simpl. eauto.
  - done.
  - intros. by apply update_cc_done.
  - done.
Defined.
End hooks.

(** ** The algorithms stay within their bounds *)

Section samples.
Context (g : limits).

(** The RTT samples of a flow, in the order of the acknowledgements. *)
Fixpoint feed (l : list (Z * Z * Z * Z)) (c : cc) : result cc :=
  match l with
  | [] => Done c
  | (now, t, d, seg) :: l => c ← update_cc g now t d seg c; feed l c
  end.

Fixpoint times_ok (last : Z) (l : list (Z * Z * Z * Z)) : Prop :=
  match l with
  | [] => True
  | (_, t, _, _) :: l => 1000000000 <= t /\ last <= t /\ times_ok t l
  end.

Definition cc_ok (c : cc) : Prop := Timely.rate_ok (timely_cc c) /\ Swift.window_ok (swift_cc c).

End samples.

(** ** The limits of an engine *)

Section engine_limit.
Context (g : limits) {P D : Type} `{PoolOps P} `{!DequeOps nat D} (K : nat) (cfg : config).
#[local] Instance wheel_tx : TxHooks cc (TimingWheel.wheel D) := timely_tx g K.
Implicit Types c : sctx cc (TimingWheel.wheel D) P.

Lemma post_wr_engine now u a csn last fid f c f' c' :
  post_wr cfg now u a csn last fid f c = Done (f', c') -> engine_unacked_bytes_ c' = engine_unacked_bytes_ c.
Proof.
  unfold post_wr. intros ([q c1] & H1 & H2)%bind_done.
  assert (engine_unacked_bytes_ c1 = engine_unacked_bytes_ c) as <-.
  { revert H1. unfold select_qpidx_pot, can_use_last_choice.
    destruct (_ && _); [by intros [= <- <-]|]. set (c0 := set_consecutive_same_choice_bytes_ 0 c).
    pose proof (TxSpec.rand_same cfg c0) as (_ & _ & _ & _ & E1 & _).
    destruct (select_qpidx_rand cfg c0) as [q1 c2].
    pose proof (TxSpec.rand_same cfg c2) as (_ & _ & _ & _ & E2 & _).
    destruct (select_qpidx_rand cfg c2) as [q2 c3]. cbn in E1, E2.
    destruct (aget (scoreboard_rtt_ f) q1); [|done]. destruct (aget (scoreboard_rtt_ f) q2); [|done].
    intros [= _ <-]. cbn. congruence. }
  destruct (aget _ _); [|done]. injection H2 as H2. unfold arm_timer_for_flow in H2.
  cbn [rto_armed set_txtracking] in H2.
  destruct (rc_mode_ cfg), (rto_armed f); injection H2 as <- <-; done.
Qed.

Lemma post_or_queue_engine now u a chunk csn last fid f c f' c' :
  post_or_queue cfg now u a chunk csn last fid f c = Done (f', c') ->
  engine_unacked_bytes_ c' = engine_unacked_bytes_ c.
Proof.
  unfold post_or_queue. destruct (bypass_pacing_ cfg); [apply post_wr_engine|].
  intros ([[b k] x] & _ & H2)%bind_done. destruct b; [by injection H2 as <- <-|].
  by apply post_wr_engine in H2.
Qed.

Lemma tx_chunk_engine now fid u chunk c c' :
  tx_chunk cfg now fid u chunk c = Done c' ->
  engine_unacked_bytes_ c' = engine_unacked_bytes_ c +[32] chunk.
Proof.
  unfold tx_chunk. destruct (sureqs c !! u) as [r|]; [|done]. intros (f & _ & Hd)%bind_done.
  destruct (pl_alloc _) as [[a|] p]; [|done]. destruct (Pcb.get_snd_nxt _) as [csn pcb'].
  apply bind_done in Hd as ([f1 c1] & H1 & [= <-]). apply post_or_queue_engine in H1. cbn in *. by rewrite H1.
Qed.

Definition within_limit c : Prop := 0 <= engine_unacked_bytes_ c <= kHigh g.

(** Timely keeps the unacknowledged bytes of an engine within its high limit:
    no call of [senderCC_tx_message] takes them beyond it, whatever the message
    and the flow. *)
Theorem timely_respects_limit now u c b c' :
  within_limit c -> senderCC_tx_message cfg now u c = Done (b, c') -> within_limit c'.
Proof.
  unfold within_limit. intros Hc. unfold senderCC_tx_message. destruct (sureqs c !! u) as [r|]; [|done].
  generalize (S (Z.to_nat (data_len r - sent_offset r))) (context r). intros fuel fid. clear r.
  revert c Hc. induction fuel as [|fuel IH]; intros c Hc; cbn [tx_loop]; [done|].
  destruct (sureqs c !! u) as [r|]; [|done]. destruct (_ || _); [|by intros [= <- <-]].
  intros (f & Hf & Hd)%bind_done. cbn [EventOnChunkSize wheel_tx timely_tx timely_chunk_size] in Hd.
  unfold timely_chunk_size in Hd. set (ready := Z.min _ _) in Hd.
  set (chunk := if _ <? _ then 0 else _) in Hd.
  assert (engine_unacked_bytes_ c +[32] chunk <= kHigh g \/ chunk = 0) as Hk.
  { unfold chunk. destruct (Z.ltb_spec (kHigh g) (engine_unacked_bytes_ c +[32] ready)); [by right|].
    destruct (_ || _); auto. }
  clearbody chunk. destruct (_ && _); [by injection Hd as <- <-|].
  apply bind_done in Hd as (c1 & H1 & H2). apply tx_chunk_engine in H1. cbn in H1.
  assert (0 <= engine_unacked_bytes_ c1 <= kHigh g) as Hc1.
  { rewrite H1. pose proof (wrap_range 32 (engine_unacked_bytes_ c + chunk) ltac:(lia)) as [? _].
    destruct Hk as [|E]; [done|]. rewrite E, Z.add_0_r in *. split; [done|]. unfold wrap.
    pose proof (Z.mod_le (engine_unacked_bytes_ c) (2 ^ 32)). lia. }
  destruct (data_len r =? 0); [by injection H2 as <- <-|]. by apply (IH c1).
Qed.
End engine_limit.

(** Swift has no such guarantee.  Once the unacknowledged bytes are beyond the
    limits and the window of the flow, which the last chunk of a message may
    always exceed, the budgets [SwiftRDMAContext::EventOnChunkSize] computes in
    unsigned arithmetic wrap around, and it hands out full chunks. *)
Theorem swift_budgets_wrap g fu eu rem c :
  0 < chunk_size g < 2 ^ 20 -> chunk_size g < rem < 2 ^ 32 ->
  kLow g < eu -> kHigh g < eu < 2 ^ 31 -> 0 <= kLow g -> 0 <= kHigh g ->
  0 <= Swift.get_wnd (swift_cc c) < fu -> fu < 2 ^ 31 ->
  swift_chunk_size g fu eu rem c = (chunk_size g, c).
Proof.
  intros Hg Hr Hl Hh Hl0 Hh0 Hw Hf. unfold swift_chunk_size.
  rewrite (proj2 (Z.leb_gt rem (chunk_size g))) by lia.
  assert (forall a b, 0 <= a < b -> b < 2 ^ 31 -> 2 ^ 31 < wrap 32 (a - b)) as Hwrap.
  { intros a b Hab Hb. unfold wrap. rewrite <- (Z.mod_add _ 1), Z.mod_small by lia. lia. }
  pose proof (Hwrap (kHigh g) eu). pose proof (Hwrap (kLow g) eu).
  pose proof (Hwrap (Swift.get_wnd (swift_cc c)) fu).
  replace (Z.min (Z.min rem _) _) with (chunk_size g) by lia.
  rewrite (proj2 (Z.ltb_ge _ (chunk_size g))) by lia.
  by rewrite (proj2 (Z.leb_le (chunk_size g) (wrap 32 (kLow g - eu)))) by lia.
Qed.

(** ** The send path of EQDS *)

Section receiverCC.
Context (g : limits) {P : Type} `{PoolOps P} (cfg : config).
Implicit Types (c : sctx cc unit P) (f : SubUcclFlow cc).
#[local] Instance the_tx : TxHooks cc unit := eqds_tx g.

Definition pull_target (chunk : Z) f : Z * SubUcclFlow cc :=
  let k := Pcb.cc (pcb f) in
  let '(target, e) := Eqds.compute_pull_target (backlog_bytes_ f) (Timely.get_wnd (timely_cc k)) chunk (eqds_cc k) in
  (target, set_cc_state (set_eqds e k) f).

(** One iteration of the loop of [receiverCC_tx_message] for a chunk of [chunk]
    bytes of request [u]. *)
Definition rcc_chunk (now fid u chunk : Z) c : result (sctx cc unit P) :=
  match sureqs c !! u with
  | None => Fail OutOfBounds
  | Some r =>
  f ← get_flow fid c;
  let f := set_backlog_bytes_ (backlog_bytes_ f -[32] chunk) f in
  let '(target, f) := pull_target chunk f in
  match pl_alloc (wr_ex_pool_ c) with
  | (None, _) => Fail CheckFailed
  | (Some a, p) =>
      let last := sent_offset r +[32] chunk =? wrap 32 (data_len r) in
      let '(csn, pcb') := Pcb.get_snd_nxt (pcb f) in
      let f := set_pcb pcb' f in
      let imm := Imm.make_imm_eqds target fid last (rid r) csn in
      let w := fill_wr r chunk imm (chunk_wr_id cfg fid (Imm.GetCSN imm)) (get_wr a c) in
      let c := put_wr a w (set_wr_ex_pool_ p c) in
      '(f, c) ← post_wr cfg now u a (Imm.GetCSN imm) (negb (Imm.GetHINT imm =? 0)) fid f c;
      let f := set_unacked_bytes_ (unacked_bytes_ f +[32] chunk) f in
      let r := set_sent_offset (sent_offset r +[32] chunk) r in
      Done (set_engine_unacked_bytes_ (engine_unacked_bytes_ c +[32] chunk)
             (set_sureqs (<[u := r]> (sureqs c)) (put_flow fid f c)))
  end
  end.

Definition rcc_loop (fuel : nat) (now fid u : Z) c : result (bool * sctx cc unit P) :=
  ChunkLoop.chunk_loop (rcc_chunk now fid u) fuel fid u c.

(** The message is counted in the backlog once. *)
Definition count_backlog (fid u : Z) (r : sreq) f c : sctx cc unit P :=
  if inc_backlog r =? 0 then
    put_flow fid (set_backlog_bytes_ (backlog_bytes_ f +[32] data_len r) f)
      (set_sureqs (<[u := set_inc_backlog 1 r]> (sureqs c)) c)
  else c.

Definition receiverCC_tx_message (now u : Z) c : result (bool * sctx cc unit P) :=
  match sureqs c !! u with
  | None => Fail OutOfBounds
  | Some r =>
      let fid := context r in
      f ← get_flow fid c;
      let c := count_backlog fid u r f c in
      f ← get_flow fid c;
      if in_rtx f then
        '(f, c) ← drain_rtx_queue cfg now fid f c;
        Done (false, put_flow fid f c)
      else rcc_loop (S (Z.to_nat (data_len r - sent_offset r))) now fid u c
  end.

(** A credit packet for flow [fid]: [rx_credit] with [EventOnRxCredit]. *)
Definition rx_credit (now fid pullno : Z) c : result (sctx cc unit P) :=
  match sender_flow_tbl_ c !! fid with
  | None => Done c
  | Some f =>
      let k := Pcb.cc (pcb f) in
      let e := snd (Eqds.handle_pull pullno (Eqds.stop_speculating (eqds_cc k))) in
      let f := set_cc_state (set_eqds e k) f in
      if in_rtx f then
        '(f, c) ← drain_rtx_queue cfg now fid f c;
        Done (put_flow fid f c)
      else Done (put_flow fid f c)
  end.

Context `{!PoolLaws P}.

(** The immediate data carries the sequence number; any operation code will do. *)
Definition imm_csn (w : wr_ex) : Z := Imm.GetCSN (imm_data w).
#[local] Abbreviation sent_pieces := (ChunkLoop.sent_pieces imm_csn (fun _ => True) true).

Lemma make_imm_eqds_csn target fid last rid n :
  Imm.GetCSN (Imm.make_imm_eqds target fid last rid (Csn.csn n)) = Csn.csn n.
Proof.
  destruct (Imm.make_imm_eqds_fields target fid last rid (Csn.csn n)) as (_ & _ & _ & _ & ->).
  apply Z.mod_small. change (2 ^ 8) with 256. apply Csn.csn_range.
Qed.

Lemma get_put_wr a w c : get_wr a (put_wr a w c) = w.
Proof. unfold get_wr, put_wr. cbn. by rewrite lookup_insert_eq. Qed.

Lemma posted_flow_kept now u a csn last f :
  let f' := TxSpec.posted_flow cfg now u a csn last f in
  backlog_bytes_ f' = backlog_bytes_ f /\ unacked_bytes_ f' = unacked_bytes_ f /\
  Pcb.snd_nxt (pcb f') = Pcb.snd_nxt (pcb f) /\ scoreboard_rtt_ f' = scoreboard_rtt_ f.
Proof. unfold TxSpec.posted_flow. by destruct (rc_mode_ cfg). Qed.

Lemma rcc_chunk_ok now fid u len cap c f0 k r a free n :
  TxSpec.can_send cfg fid u cap c f0 r (a :: free) n -> ChunkLoop.words f0 ->
  0 <= sent_offset r -> 0 <= len -> sent_offset r + len < 2 ^ 31 ->
  exists c' f', rcc_chunk now fid u len (put_flow fid (set_cc_state k f0) c) = Done c' /\
    sent_pieces fid u r n [len] c f0 c' f' /\ ChunkLoop.words f' /\
    TxSpec.can_send cfg fid u cap c' f' (set_sent_offset (sent_offset r + len) r) free (n + 1).
Proof.
  intros [Hp Hf Hfp Hr Hpool Hn [Hb1 Hb2]] Hb Ho Hl Hs. set (c0 := put_flow fid _ c).
  assert (sureqs c0 !! u = Some r) as Hr0 by exact Hr.
  assert (sender_flow_tbl_ c0 !! fid = Some (set_cc_state k f0)) as Hf0 by apply lookup_insert_eq.
  unfold rcc_chunk, get_flow. rewrite Hr0, Hf0. cbn [mbind result_bind]. unfold pull_target.
  destruct (Eqds.compute_pull_target _ _ _ _) as [target e].
  destruct (pl_alloc_cons _ _ _ _ Hpool) as (p' & Ea & Hp').
  change (wr_ex_pool_ c0) with (wr_ex_pool_ c). rewrite Ea. unfold Pcb.get_snd_nxt.
  set (f2 := set_cc_state _ (set_backlog_bytes_ _ _)).
  assert (Pcb.snd_nxt (pcb f2) = Csn.csn n) as -> by exact Hn.
  set (f1 := set_pcb _ _). set (imm := Imm.make_imm_eqds _ _ _ _ _). set (w1 := fill_wr _ _ _ _ _).
  set (c1 := put_wr a w1 _).
  assert (Imm.GetCSN imm = Csn.csn n) as Ei by apply make_imm_eqds_csn.
  destruct (TxSpec.post_wr_ok cfg now u a (Imm.GetCSN imm) (negb (Imm.GetHINT imm =? 0)) fid f1 c1) as
    (c3 & q & w & -> & Hc3 & Hq & Hk & _ & _ & Hw3 & P1 & P2 & P3 & P4 & P5 & _ & P6);
    [destruct Hp; by split|exact Hfp|].
  cbn [mbind result_bind].
  assert (sent_offset r +[32] len = sent_offset r + len) as Eo by (apply wrap_id; word_lia).
  unfold TxSpec.wr_key in Hk. replace (get_wr a c1) with w1 in Hk
    by (symmetry; apply get_put_wr).
  injection Hk as K1 K2 K3 K4.
  assert (Csn.add_assign (Csn.csn n) 1 = Csn.csn (n + 1)) as Enxt by apply Csn.add_assign_csn.
  destruct (posted_flow_kept now u a (Imm.GetCSN imm) (negb (Imm.GetHINT imm =? 0)) f1)
    as (F1 & F2 & F3 & F4).
  set (f3 := TxSpec.posted_flow _ _ _ _ _ _ _) in *. clearbody f3.
  change (backlog_bytes_ f1) with (backlog_bytes_ f0 -[32] len) in F1.
  change (unacked_bytes_ f1) with (unacked_bytes_ f0) in F2.
  change (Pcb.snd_nxt (pcb f1)) with (Csn.add_assign (Csn.csn n) 1) in F3. rewrite Enxt in F3.
  change (scoreboard_rtt_ f1) with (scoreboard_rtt_ f0) in F4.
  change (sureqs c1) with (sureqs c) in P3. change (wr_ex_pool_ c1) with p' in P4.
  change (posted c1) with (posted c) in P1.
  change (sender_flow_tbl_ c1) with (<[fid := set_cc_state k f0]> (sender_flow_tbl_ c)) in P2.
  clear Hw3 P5 P6. eexists _, (set_unacked_bytes_ (unacked_bytes_ f3 +[32] len) f3).
  split; [reflexivity|]. split; [|split].
  - split; cbn; rewrite ?P2, ?P3, ?Eo, ?Z.add_0_r, ?insert_insert_eq, ?F1, ?F2; try done.
    exists [PostWrite q w]. unfold imm_csn. cbn. rewrite P1, K1, K2, K3, K4, Ei. by repeat constructor.
  - split; cbn; rewrite ?F1; apply wrap_range; lia.
  - split; cbn; rewrite ?P3, ?P2, ?P4, ?P5, ?Eo, ?lookup_insert_eq; try done.
    + by destruct Hc3.
    + unfold TxSpec.flow_paths. cbn. rewrite F4. exact Hfp.
    + split; apply wrap_range; lia.
Qed.

Lemma rcc_chunk_no_buff now fid u len c r f cap :
  sureqs c !! u = Some r -> sender_flow_tbl_ c !! fid = Some f ->
  pl_repr (wr_ex_pool_ c) cap [] -> rcc_chunk now fid u len c = Fail CheckFailed.
Proof.
  intros Hr Hf Hp. unfold rcc_chunk, get_flow. rewrite Hr, Hf. cbn [mbind result_bind].
  destruct (pull_target _ _). by rewrite (pl_alloc_nil _ _ Hp).
Qed.

Lemma rcc_step_ok now fid u cap :
  ChunkLoop.step_ok (rcc_chunk now fid u) cfg imm_csn (fun _ => True) true fid u cap.
Proof. split; intros; [by eapply rcc_chunk_ok|by eapply rcc_chunk_no_buff]. Qed.

(** *** The backlog *)

(** What request [r] adds to the backlog of flow [fid]: its unsent bytes, once it
    is counted. *)
Definition owes (fid : Z) (r : sreq) : Z :=
  if (context r =? fid) && negb (inc_backlog r =? 0) then data_len r - sent_offset r else 0.
Definition owed (fid : Z) (m : gmap Z sreq) : Z := map_fold (fun _ r s => owes fid r + s) 0 m.

Lemma owed_insert fid m u r r' :
  m !! u = Some r -> owed fid (<[u := r']> m) = owed fid m - owes fid r + owes fid r'.
Proof.
  intros Hu. unfold owed. rewrite <- (insert_delete_id m u r Hu) at 2. rewrite <- insert_delete_eq.
  rewrite !map_fold_insert_L by (try apply lookup_delete_eq; intros; lia). lia.
Qed.

Definition backlog_ok c : Prop := forall fid f,
  sender_flow_tbl_ c !! fid = Some f -> backlog_bytes_ f = wrap 32 (owed fid (sureqs c)).

Lemma backlog_ok_word c fid f :
  backlog_ok c -> sender_flow_tbl_ c !! fid = Some f -> in_word 32 (backlog_bytes_ f).
Proof. intros Hb Hf. rewrite (Hb _ _ Hf). apply wrap_range. lia. Qed.

(** A change of one request and of its flow's backlog by the same number. *)
Lemma backlog_ok_update c c' u r r' f f' d :
  backlog_ok c -> sureqs c !! u = Some r -> sender_flow_tbl_ c !! context r = Some f ->
  sureqs c' = <[u := r']> (sureqs c) -> sender_flow_tbl_ c' = <[context r := f']> (sender_flow_tbl_ c) ->
  context r' = context r -> owes (context r) r' = owes (context r) r + d ->
  backlog_bytes_ f' = wrap 32 (backlog_bytes_ f + d) -> backlog_ok c'.
Proof.
  intros Hb Hr Hf Er Et Ec Ho Ef fid fx. rewrite Er, Et, (owed_insert fid _ _ _ _ Hr).
  destruct (decide (fid = context r)) as [->|Hne].
  - rewrite lookup_insert_eq. intros [= <-]. rewrite Ef, (Hb _ _ Hf), wrap_add_l. f_equal. lia.
  - rewrite lookup_insert_ne by congruence. intros Hx. rewrite (Hb _ _ Hx).
    unfold owes. rewrite Ec, (proj2 (Z.eqb_neq (context r) fid)) by congruence. cbn. f_equal. lia.
Qed.

Lemma count_backlog_ok cap u r f c free n :
  backlog_ok c -> TxSpec.can_send cfg (context r) u cap c f r free n ->
  (inc_backlog r = 0 -> sent_offset r = 0) ->
  exists f0 r0, let c0 := count_backlog (context r) u r f c in
    backlog_ok c0 /\ TxSpec.can_send cfg (context r) u cap c0 f0 r0 free n /\ posted c0 = posted c /\
    in_rtx f0 = in_rtx f /\ inc_backlog r0 <> 0 /\ r0 = set_inc_backlog (inc_backlog r0) r.
Proof.
  intros Hb [Hp Hf Hfp Hr Hpool Hn Hw] Hi. unfold count_backlog.
  destruct (Z.eqb_spec (inc_backlog r) 0) as [E|E]; cycle 1.
  { exists f, r. split_and!; try done. by destruct r. }
  exists (set_backlog_bytes_ (backlog_bytes_ f +[32] data_len r) f), (set_inc_backlog 1 r). cbn zeta.
  split.
  { eapply (backlog_ok_update c _ u r _ f _ (data_len r)); try done.
    unfold owes. cbn. rewrite E, Z.eqb_refl. cbn. rewrite Hi by done. lia. }
  split; [|done]. split; try done; cbn.
  - by destruct Hp.
  - apply lookup_insert_eq.
  - apply lookup_insert_eq.
Qed.

End receiverCC.
End Ctx.
