(* ===== verification/SenderExamples.v ===== *)
(** * The sender on concrete states

    A context with one flow, the Swift, Timely or EQDS hooks and small pools, on
    which the premises of the theorems about the sender hold. *)

From S2P Require Import Prelude Float64 Csn Queues TimingWheel Cc Pcb SharedIo Eqds Flow Timer Sender.
From S2P Require Import SenderSpec SenderInv Retransmit ChunkLoop OneSided Contexts.

Module TxExample.
Import Flow Tx TxSpec TxInv Rtx Ctx.

Definition g : limits := limits_of 65536 true (of_Z 2).
Definition cfg : config := MkConfig 4096 65536 4096 2 true false false 786432 (of_Z 2)
  (of_Z 1000000000) (of_Z 1) (of_Z 0) 10000.

Definition cc0 : cc := MkCc (Timely.TimelyCC_init 1000 (of_Z 2) (of_Z 1000000000))
  (Swift.SwiftCC_init 1000 (of_Z 1000000000) 0) (Eqds.EQDSCC_init 5 9).

Definition pool (base : Z) : BuffPool.t := BuffPool.BuffPool base 16 64.
Definition bufs (base : Z) : list Z := BuffPool.buffers base 16 64.
Definition flow0 : SubUcclFlow cc := SubUcclFlow_init 5 2 0 [] cc0.

(** A message of two full chunks and a rest. *)
Definition req0 : sreq := MkSreq 5 150000 1048576 2097152 11 12 3 0 0 0.

Definition start {X} (x : X) : sctx cc X BuffPool.t :=
  MkSctx {[ 5 := flow0 ]} {[ 70 := req0 ]} ∅ (pool 4096) 0 Timer.TimerManager x
    (Io.MkIo (pool 8192) (pool 12288) (pool 16384) (pool 20480) ∅ ∅
       (replicate 8 (Io.MkAckWr 0 0 0 0 false false)) 0 0 0 0 [] [] [])
    [0; 0] 0 0 [1; 0; 1; 1; 0] [] [].

#[global] Instance tx : TxHooks cc unit := swift_tx g.
#[global] Instance laws : TxLaws cc unit := swift_laws g ltac:(done).
#[global] Instance no_pacer : Pacer unit :=
  { pc_reap := fun _ x => Done x; pc_ready := fun _ => []; pc_pop := fun x => x }.

Lemma wr_pool_repr base : in_word 64 base -> pl_repr (pool base) 15 (bufs base).
Proof. intros Hb. destruct (BuffPool.BuffPool_repr base 4 64 ltac:(lia) Hb) as [H1 H2]. by split. Qed.

Lemma start_paths {X} (x : X) : paths_ok cfg (start x).
Proof. by split. Qed.

Lemma start_can_send {X} (x : X) : can_send cfg 5 70 15 (start x) flow0 req0 (bufs 4096) 0.
Proof.
  split; [apply start_paths|by apply lookup_singleton_Some|done|by apply lookup_singleton_Some| |done|done].
  by apply wr_pool_repr.
Qed.


(** ** The windows *)

Definition ws0 : gmap Z window := {[ 5 := MkWindow [] [] [] ]}.

Lemma start_sinv : sinv cfg (bufs 4096) 15 ws0 (start tt).
Proof.
  split.
  - apply start_paths.
  - split; [by apply (bool_decide_unpack _); vm_compute|]. split; [by vm_compute|].
    split; [|by vm_compute]. by repeat constructor.
  - exists (bufs 4096). split; [by apply wr_pool_repr|]. by rewrite app_nil_r.
  - intros fid w Hw. unfold ws0 in Hw. apply lookup_singleton_Some in Hw as [<- <-]. exists flow0. split; [by apply lookup_singleton_Some|].
    by split.
  - intros fid f Hf. cbn in Hf. apply lookup_singleton_Some in Hf as [<- <-]. by exists (MkWindow [] [] []).
  - done.
Qed.

Definition get {A} (r : result A) (d : A) : A := match r with Done a => a | Fail _ => d end.
Definition sent : sctx cc unit BuffPool.t := get (do_op cfg (TxMessage 2000 70) (start tt)) (start tt).

Lemma sent_eq : do_op cfg (TxMessage 2000 70) (start tt) = Done sent.
Proof. by vm_compute. Qed.

Lemma start_legal : legal (TxMessage 2000 70) ws0 (start tt).
Proof. exists req0. split; [by apply lookup_singleton_Some|done]. Qed.

Lemma sender_refines_witness : exists ws',
  rtc wstep (ws0, swoken (start tt)) (ws', swoken sent) /\ sinv cfg (bufs 4096) 15 ws' sent /\
  swoken sent ≡ₚ acked_requests ws'.
Proof.
  apply (sender_refines cfg (bufs 4096) 15 ws0 (start tt) (TxMessage 2000 70) sent);
    [apply start_sinv|done|apply start_legal|apply sent_eq].
Defined.

Definition ack2 : Io.UcclSackHdr := Io.MkSack 0 5 0 2 0 100 [0; 0].
Definition flow1 : SubUcclFlow cc := default flow0 (sender_flow_tbl_ sent !! 5).

Lemma flow1_sent : sender_flow_tbl_ sent !! 5 = Some flow1.
Proof. by vm_compute. Qed.

Lemma ack2_truthful : truthful 1000000000 ack2 flow1 2.
Proof. split; [by vm_compute|]. by vm_compute. Qed.

Lemma acks_release_prefix_witness : exists ws ws' c',
  sinv cfg (bufs 4096) 15 ws sent /\ uc_rx_ack cfg 900 1000000000 3000 3100 ack2 sent = Done c' /\
  sinv cfg (bufs 4096) 15 ws' c' /\ exists w, ws !! 5 = Some w /\ ws' = <[5 := ack 2 w]> ws.
Proof.
  destruct (do_op_step cfg (bufs 4096) 15 ws0 (start tt) (TxMessage 2000 70) sent start_sinv start_legal sent_eq)
    as (ws & _ & Hi). exists ws.
  destruct (acks_release_prefix cfg (bufs 4096) 15 ws sent 900 1000000000 3000 3100 ack2 flow1 2
    Hi flow1_sent ack2_truthful) as (_ & Hp & Hd).
  destruct (Hp ltac:(lia)) as [c' E]. destruct (Hd c' E) as (ws' & _ & Hi' & _ & Hw).
  exists ws', c'. split; [exact Hi|]. split; [exact E|]. split; [exact Hi'|apply Hw; lia].
Defined.

(** ** Retransmission *)

(** The third of the chunks was received. *)
Definition sack_third : Io.UcclSackHdr := Io.MkSack 0 5 0 0 1 0 [4; 0].
Definition flow2 : SubUcclFlow cc := copy_sack sack_third flow1.

Lemma flow2_sack : sack_ok flow2 4 0.
Proof.
  split; [split; [by repeat constructor|done]|done|by vm_compute| |].
  - intros i t Hi Ht. pose proof (aget_Some_lt _ _ _ Hi Ht) as Hl.
    assert (alen (txtracking flow2) = 3) as E by (by vm_compute). rewrite E in Hl.
    assert (i = 0 \/ i = 1 \/ i = 2) as [->|[->| ->]] by lia; vm_compute in Ht; by injection Ht as <-.
  - intros i Hi Hb. assert (i = 2) as ->; [|by vm_compute].
    destruct (decide (i = 2)); [done|]. exfalso. revert Hb. change 4 with (2 ^ 2).
    by rewrite Z.pow2_bits_false.
Qed.

Lemma sent_rtx_pools : rtx_pools sent 2.
Proof.
  assert (Io.retr_hdr_pool_ (io_ctx_ sent) = pool 20480) as E1 by (vm_compute; reflexivity).
  assert (Io.cq_desc_pool_ (io_ctx_ sent) = pool 12288) as E2 by (vm_compute; reflexivity).
  exists 15, (bufs 20480), 15, (bufs 12288). rewrite E1, E2. clear E1 E2.
  split; [by apply wr_pool_repr|]. split; [by vm_compute|]. split; [by apply wr_pool_repr|by vm_compute].
Qed.


(** ** One-sided operations *)

Lemma one_sided_partitions_witness :
  ChunkLoop.loop_outcome OneSided.id_csn (OneSided.os_good IBV_WR_RDMA_READ) false 5 70 (start tt) flow0
    req0 (bufs 4096) 0 (OneSided.senderCC_tx_read cfg 2000 70 (start tt)).
Proof.
  unfold OneSided.senderCC_tx_read.
  apply (OneSided.one_sided_partitions cfg IBV_WR_RDMA_READ 2000 70 15 (start tt) flow0 req0 (bufs 4096) 0);
    [by vm_compute|apply start_can_send|by vm_compute|by vm_compute|by vm_compute].
Defined.

(** A reliable connection with a single work-request buffer, a read and a message
    of one chunk each. *)
Definition rc_cfg : config := MkConfig 4096 65536 4096 2 true true true 786432 (of_Z 2)
  (of_Z 1000000000) (of_Z 1) (of_Z 0) 10000.
Definition one_buffer : sctx cc unit BuffPool.t :=
  set_sureqs {[ 80 := MkSreq 5 4096 1048576 2097152 11 12 0 0 0 0;
                81 := MkSreq 5 4096 1048576 3145728 11 12 3 0 0 0 ]}
    (set_wr_ex_pool_ (BuffPool.BuffPool 4096 2 64) (start tt)).

Definition read_then_send : result (sctx cc unit BuffPool.t) :=
  '(_, c) ← OneSided.tx_message rc_cfg OneSided.ReqRead 2000 80 one_buffer;
  c ← rc_rx_ack rc_cfg 1000000000 5 c;
  '(_, c) ← OneSided.tx_message rc_cfg OneSided.ReqTx 1000000100 81 c;
  Done c.

Definition posted_ops (r : result (sctx cc unit BuffPool.t)) : list (Z * opcode) :=
  match r with
  | Done c => omap (fun p => match p with PostWrite _ w => Some (remote_addr w, wr_opcode w) | _ => None end) (posted c)
  | Fail _ => []
  end.

(** A message sent after a one-sided read may itself go out as a read: the
    work requests of messages rely on the operation code the pool gave their
    buffer at start-up, and one-sided operations overwrite it and hand the
    buffer back.  Here the chunk of the message, which should be written to
    address 3145728, is posted as a read from there, over the send buffer. *)
Theorem message_posted_as_read :
  posted_ops read_then_send = [(2097152, IBV_WR_RDMA_READ); (3145728, IBV_WR_RDMA_READ)] /\
  posted_ops ('(_, c) ← OneSided.tx_message rc_cfg OneSided.ReqTx 2000 81 one_buffer; Done c)
    = [(3145728, IBV_WR_RDMA_WRITE_WITH_IMM)].
Proof. split; vm_compute; reflexivity. Qed.

(** ** EQDS *)

Lemma start_backlog : backlog_ok (start tt).
Proof. intros fid f Hf. cbn in Hf. apply lookup_singleton_Some in Hf as [<- <-]. by vm_compute. Qed.


(** ** The bounds *)

Definition history : list (Z * Z * Z * Z) :=
  [(1000000000, 1000000000, 500000, 65536); (1000000100, 1000000100, 0, 0);
   (1000000100, 1000000100, 2 ^ 63, 4096)].


Definition wheel : TimingWheel.wheel (Cb.cb nat) :=
  get (TimingWheel.TimingWheel 4 1000 200000 600000 (replicate 5 0) 8 (Cb.CircularBuffer 0%nat 8))
    TimingWheel.small.
#[global] Instance timely : TxHooks cc (TimingWheel.wheel (Cb.cb nat)) := timely_tx g 4.
Definition paced : bool * sctx cc (TimingWheel.wheel (Cb.cb nat)) BuffPool.t :=
  get (senderCC_tx_message cfg 2000 70 (start wheel)) (false, start wheel).

Lemma timely_respects_limit_witness : within_limit g paced.2.
Proof.
  apply (timely_respects_limit g 4 cfg 2000 70 (start wheel) paced.1 paced.2);
    [by vm_compute|vm_compute; reflexivity].
Defined.

Lemma swift_budgets_wrap_witness :
  swift_chunk_size g 2000000 1000000 150000 cc0 = (65536, cc0).
Proof. apply (swift_budgets_wrap g 2000000 1000000 150000 cc0); done. Defined.

End TxExample.
