(* ===== verification/Engine.v ===== *)
(** * The engine

    [UcclRDMAEngine] of [collective/rdma/transport.cc]: one iteration of its
    loop, which takes work from the channel of the application threads, keeps
    what cannot be done yet, serves the timing wheels and the timers, and
    installs contexts and flows.  What a context does with a piece of work is an
    interface ([EngineOps]); [EnginePaths.v] plugs in the receive and the send
    path. *)

From S2P Require Import Prelude.

Module Engine.

Definition kMaxTxWork : nat := 4.
Definition kMaxRxWork : nat := 8.
Definition MAX_FLOW : Z := 2048.

(** ** State *)

Inductive ctrl_op := kInstallCtx | kInstallFlow (flow flow_id : Z) (is_send : bool).
Record CtrlMsg := MkCtrl { opcode : ctrl_op; cpeer_id : Z; poll_ctx : Z }.

#[export] Instance ctrl_op_eq_dec : EqDecision ctrl_op.
Proof. solve_decision. Defined.
#[export] Instance ctrl_msg_eq_dec : EqDecision CtrlMsg.
Proof. solve_decision. Defined.

(** What the contexts of an engine do; [S] is their state and that of the shared
    I/O context and the timers. *)
Class EngineOps (S : Type) := {
  supply_rx_buff : Z -> Z -> S -> result (bool * S);
  tx_message : Z -> Z -> S -> result (bool * S);
  data_len : Z -> S -> Z;
  burst_timing_wheel : Z -> S -> result S;
  check_expired : Z -> S -> list (Z * Z) * S;
  timeout_flow : Z -> Z -> S -> result S;
  create_context : Z -> S -> S;
  request_pull : Z -> Z -> S -> result S;
  synchronize : S -> S;
  update_clock : Z -> S -> S;
  poll_credit_cq : Z -> S -> result (Z * S);
  check_credit_rq : Z -> bool -> S -> result S;
  poll_ctrl_cq : S -> result S;
  uc_poll_send_cq : S -> result S;
  uc_poll_recv_cq : S -> result S;
  rc_poll_send_cq : S -> result S;
  rc_poll_recv_cq : S -> result S;
  check_ctrl_rq : bool -> S -> result S;
  check_srq : bool -> S -> result S;
}.

(** The flow tables of the contexts, by context and flow id, and the map from
    peers and flow ids to contexts of the shared I/O context.  A missing entry of
    a table is a null pointer. *)
Record flow_tables := MkTables {
  sender_flow_tbl_ : gmap (Z * Z) Z;
  receiver_flow_tbl_ : gmap (Z * Z) Z;
  nr_flows_ : gmap Z Z;
  fid_to_rdma_ctx_map_ : gmap (Z * Z) Z;
}.

(** Channel messages are pairs of a peer and a request, works of a context and a
    request; a null request is [0].  Contexts are numbered in the order of their
    creation; [next_ctx] is the next one. *)
Record engine (S : Type) := MkEngine {
  rdma_ctx_map_ : gmap Z Z;
  rx_cmdq_ : list (Z * Z);
  tx_cmdq_ : list (Z * Z);
  ctrl_cmdq_ : list CtrlMsg;
  pending_rx_works_ : list (Z * Z);
  pending_tx_works_ : list (Z * Z);
  pending_install_flow_works_ : list CtrlMsg;
  last_periodic_tsc_ : Z;
  woken : list Z;
  tbl : flow_tables;
  next_ctx : Z;
  st : S;
}.
Arguments MkEngine {S} _ _ _ _ _ _ _ _ _ _ _ _.
Arguments rdma_ctx_map_ {S} _.
Arguments rx_cmdq_ {S} _.
Arguments tx_cmdq_ {S} _.
Arguments ctrl_cmdq_ {S} _.
Arguments pending_rx_works_ {S} _.
Arguments pending_tx_works_ {S} _.
Arguments pending_install_flow_works_ {S} _.
Arguments last_periodic_tsc_ {S} _.
Arguments woken {S} _.
Arguments tbl {S} _.
Arguments next_ctx {S} _.
Arguments st {S} _.

Definition add_sender_flow (ctx flow flow_id : Z) (t : flow_tables) : result flow_tables :=
  match sender_flow_tbl_ t !! (ctx, flow_id) with
  | Some _ => Fail CheckFailed
  | None =>
      Done (MkTables (<[(ctx, flow_id) := flow]> (sender_flow_tbl_ t)) (receiver_flow_tbl_ t)
              (<[ctx := default 0 (nr_flows_ t !! ctx) +[32] 1]> (nr_flows_ t)) (fid_to_rdma_ctx_map_ t))
  end.

Definition add_receiver_flow (ctx flow flow_id : Z) (t : flow_tables) : result flow_tables :=
  match receiver_flow_tbl_ t !! (ctx, flow_id) with
  | Some _ => Fail CheckFailed
  | None =>
      Done (MkTables (sender_flow_tbl_ t) (<[(ctx, flow_id) := flow]> (receiver_flow_tbl_ t))
              (<[ctx := default 0 (nr_flows_ t !! ctx) +[32] 1]> (nr_flows_ t)) (fid_to_rdma_ctx_map_ t))
  end.

Definition record_sender_ctx_mapping (peer_id fid ctx : Z) (t : flow_tables) : result flow_tables :=
  match fid_to_rdma_ctx_map_ t !! (peer_id, fid) with
  | Some _ => Fail CheckFailed
  | None =>
      Done (MkTables (sender_flow_tbl_ t) (receiver_flow_tbl_ t) (nr_flows_ t)
              (<[(peer_id, fid) := ctx]> (fid_to_rdma_ctx_map_ t)))
  end.

Section engine.
Context {S : Type} `{EngineOps S} (kMaxTxBytesThres kSlowTimerIntervalTsc_ : Z).
Context (bypass_pacing rc_mode is_no_rto receiver_eqds : bool).
Implicit Types e : engine S.

Definition with_rx (q p : list (Z * Z)) (s : S) e : engine S :=
  MkEngine (rdma_ctx_map_ e) q (tx_cmdq_ e) (ctrl_cmdq_ e) p (pending_tx_works_ e)
    (pending_install_flow_works_ e) (last_periodic_tsc_ e) (woken e) (tbl e) (next_ctx e) s.
Definition with_tx (q p : list (Z * Z)) (s : S) e : engine S :=
  MkEngine (rdma_ctx_map_ e) (rx_cmdq_ e) q (ctrl_cmdq_ e) (pending_rx_works_ e) p
    (pending_install_flow_works_ e) (last_periodic_tsc_ e) (woken e) (tbl e) (next_ctx e) s.
Definition with_st (s : S) e : engine S := with_rx (rx_cmdq_ e) (pending_rx_works_ e) s e.
Definition with_time (t : Z) e : engine S :=
  MkEngine (rdma_ctx_map_ e) (rx_cmdq_ e) (tx_cmdq_ e) (ctrl_cmdq_ e) (pending_rx_works_ e)
    (pending_tx_works_ e) (pending_install_flow_works_ e) t (woken e) (tbl e) (next_ctx e) (st e).
Definition with_ctl (q p : list CtrlMsg) e : engine S :=
  MkEngine (rdma_ctx_map_ e) (rx_cmdq_ e) (tx_cmdq_ e) q (pending_rx_works_ e) (pending_tx_works_ e) p
    (last_periodic_tsc_ e) (woken e) (tbl e) (next_ctx e) (st e).
Definition with_flow (w : list Z) (t : flow_tables) (s : S) e : engine S :=
  MkEngine (rdma_ctx_map_ e) (rx_cmdq_ e) (tx_cmdq_ e) (ctrl_cmdq_ e) (pending_rx_works_ e)
    (pending_tx_works_ e) (pending_install_flow_works_ e) (last_periodic_tsc_ e) w t (next_ctx e) s.
Definition with_ctx (m : gmap Z Z) (n : Z) (s : S) e : engine S :=
  MkEngine m (rx_cmdq_ e) (tx_cmdq_ e) (ctrl_cmdq_ e) (pending_rx_works_ e)
    (pending_tx_works_ e) (pending_install_flow_works_ e) (last_periodic_tsc_ e) (woken e) (tbl e) n s.

Definition find_ctx (m : gmap Z Z) (peer_id : Z) : result Z :=
  match m !! peer_id with Some ctx => Done ctx | None => Fail CheckFailed end.

(** ** Receive work *)

(** The loop over the pending works: whether the call ends here, the budget left,
    the works left. *)
Fixpoint rx_pending (budget : nat) (p : list (Z * Z)) (s : S) :
    result (bool * nat * list (Z * Z) * S) :=
  match p with
  | [] => Done (false, budget, [], s)
  | (ctx, u) :: p' =>
      match budget with
      | O => Done (true, O, p, s)
      | Datatypes.S budget =>
          '(ok, s) ← supply_rx_buff ctx u s;
          if ok : bool then rx_pending budget p' s else Done (true, budget, p, s)
      end
  end.

(** The loop over the channel. *)
Fixpoint rx_channel (budget : nat) (m : gmap Z Z) (q p : list (Z * Z)) (s : S) :
    result (list (Z * Z) * list (Z * Z) * S) :=
  match budget, q with
  | O, _ | _, [] => Done (q, p, s)
  | Datatypes.S budget, (peer_id, u) :: q =>
      ctx ← find_ctx m peer_id;
      '(ok, s) ← supply_rx_buff ctx u s;
      rx_channel budget m q (if ok : bool then p else p ++ [(ctx, u)]) s
  end.

Definition handle_rx_work e : result (engine S) :=
  '(ends, budget, p, s) ← rx_pending kMaxRxWork (pending_rx_works_ e) (st e);
  if ends : bool then Done (with_rx (rx_cmdq_ e) p s e)
  else
    '(q, p, s) ← rx_channel budget (rdma_ctx_map_ e) (rx_cmdq_ e) p s;
    Done (with_rx q p s e).

(** ** Transmit work *)

(** [budget] passes over the pending works: the front is tried and goes to the
    back if it cannot be finished. *)
Fixpoint tx_pending (budget : nat) (p : list (Z * Z)) (s : S) : result (list (Z * Z) * S) :=
  match budget, p with
  | O, _ | _, [] => Done (p, s)
  | Datatypes.S budget, (ctx, u) :: p =>
      if u =? 0 then tx_pending budget p s
      else
        '(ok, s) ← tx_message ctx u s;
        tx_pending budget (if ok : bool then p else p ++ [(ctx, u)]) s
  end.

Fixpoint tx_channel (budget : nat) (bytes : Z) (m : gmap Z Z) (q p : list (Z * Z)) (s : S) :
    result (list (Z * Z) * list (Z * Z) * S) :=
  match budget, q with
  | O, _ | _, [] => Done (q, p, s)
  | Datatypes.S budget, (peer_id, u) :: q =>
      ctx ← find_ctx m peer_id;
      '(ok, s) ← tx_message ctx u s;
      let p := if ok : bool then p else p ++ [(ctx, u)] in
      let bytes := bytes +[32] data_len u s in
      if kMaxTxBytesThres <=? bytes then Done (q, p, s)
      else tx_channel budget bytes m q p s
  end.

Definition handle_tx_work e : result (engine S) :=
  '(p, s) ← tx_pending (length (pending_tx_works_ e)) (pending_tx_works_ e) (st e);
  '(q, p, s) ← tx_channel kMaxTxWork 0 (rdma_ctx_map_ e) (tx_cmdq_ e) p s;
  Done (with_tx q p s e).

(** ** Timing wheels and timers *)

(** The contexts of the map, in its order. *)
Definition ctxs_of e : list Z := map snd (map_to_list (rdma_ctx_map_ e)).

Fixpoint burst_all (ctxs : list Z) (s : S) : result S :=
  match ctxs with
  | [] => Done s
  | ctx :: ctxs => s ← burst_timing_wheel ctx s; burst_all ctxs s
  end.

Definition handle_timing_wheel e : result (engine S) :=
  if bypass_pacing then Done e
  else s ← burst_all (ctxs_of e) (st e); Done (with_st s e).

Fixpoint timeout_all (l : list (Z * Z)) (s : S) : result S :=
  match l with
  | [] => Done s
  | (ctx, flow) :: l => s ← timeout_flow ctx flow s; timeout_all l s
  end.

Definition handle_rto (now : Z) e : result (engine S) :=
  if is_no_rto then Done e
  else
    let '(expired, s) := check_expired now (st e) in
    s ← timeout_all expired s;
    Done (with_st s e).

(** ** Control messages *)

Definition install_flow (w : CtrlMsg) (flow flow_id : Z) (is_send : bool) e : result (engine S) :=
  match rdma_ctx_map_ e !! cpeer_id w with
  | None => Done (with_ctl (ctrl_cmdq_ e) (pending_install_flow_works_ e ++ [w]) e)
  | Some ctx =>
      if negb (flow_id <? MAX_FLOW) then Fail CheckFailed
      else
        '(t, s) ← (if is_send
                   then t ← add_sender_flow ctx flow flow_id (tbl e);
                        t ← record_sender_ctx_mapping (cpeer_id w) flow_id ctx t;
                        Done (t, st e)
                   else t ← add_receiver_flow ctx flow flow_id (tbl e);
                        s ← (if receiver_eqds then request_pull ctx flow (st e) else Done (st e));
                        Done (t, s));
        Done (with_flow (woken e ++ [poll_ctx w]) t s e)
  end.

(** [kInstallCtx] in the pending list cannot occur. *)
Definition handle_install_flow_on_engine (w : CtrlMsg) e : result (engine S) :=
  match opcode w with
  | kInstallFlow flow flow_id is_send => install_flow w flow flow_id is_send e
  | kInstallCtx => Done e
  end.

(** The context is created and entered; its queue pairs are connected by a thread
    that wakes the caller. *)
Definition handle_install_ctx_on_engine (w : CtrlMsg) e : result (engine S) :=
  match rdma_ctx_map_ e !! cpeer_id w with
  | Some _ => Fail CheckFailed
  | None =>
      let ctx := next_ctx e in
      Done (with_ctx (<[cpeer_id w := ctx]> (rdma_ctx_map_ e)) (ctx + 1) (create_context ctx (st e)) e)
  end.

Fixpoint ctl_pending (n : nat) e : result (engine S) :=
  match n, pending_install_flow_works_ e with
  | O, _ | _, [] => Done e
  | Datatypes.S n, w :: p =>
      e ← handle_install_flow_on_engine w
            (with_ctl (ctrl_cmdq_ e) p e);
      ctl_pending n e
  end.

Fixpoint ctl_channel (q : list CtrlMsg) e : result (engine S) :=
  match q with
  | [] => Done e
  | w :: q =>
      let e := with_ctl q (pending_install_flow_works_ e) e in
      e ← match opcode w with
          | kInstallCtx => handle_install_ctx_on_engine w e
          | kInstallFlow _ _ _ => handle_install_flow_on_engine w e
          end;
      ctl_channel q e
  end.

Definition process_ctl_reqs e : result (engine S) :=
  e ← ctl_pending (length (pending_install_flow_works_ e)) e;
  ctl_channel (ctrl_cmdq_ e) e.

(** ** The loop *)

Definition periodic_process (now : Z) e : result (engine S) :=
  e ← (if rc_mode then Done e else handle_rto now e);
  process_ctl_reqs e.

Fixpoint rc_credit (ctxs : list Z) (work : Z) (s : S) : result S :=
  match ctxs with
  | [] => Done s
  | ctx :: ctxs =>
      let s := update_clock ctx s in
      if receiver_eqds
      then '(n, s) ← poll_credit_cq ctx s;
           let work := work +[32] n in
           s ← check_credit_rq ctx (work =? 0) s;
           rc_credit ctxs work s
      else rc_credit ctxs work s
  end.

Fixpoint uc_credit (ctxs : list Z) (work : Z) (s : S) : result (Z * S) :=
  match ctxs with
  | [] => Done (work, s)
  | ctx :: ctxs =>
      let s := update_clock ctx s in
      if receiver_eqds
      then '(n, s) ← poll_credit_cq ctx s; uc_credit ctxs (work +[32] n) s
      else uc_credit ctxs work s
  end.

Fixpoint refill_credit (ctxs : list Z) (force : bool) (s : S) : result S :=
  match ctxs with
  | [] => Done s
  | ctx :: ctxs =>
      s ← (if receiver_eqds then check_credit_rq ctx force s else Done s);
      refill_credit ctxs force s
  end.

Definition rc_handle_completion e : result (engine S) :=
  s ← rc_credit (ctxs_of e) 0 (st e);
  s ← rc_poll_send_cq s;
  s ← rc_poll_recv_cq s;
  s ← check_srq false s;
  Done (with_st s e).

Definition uc_handle_completion e : result (engine S) :=
  s ← poll_ctrl_cq (st e);
  '(work, s) ← uc_credit (ctxs_of e) 0 s;
  s ← uc_poll_send_cq s;
  s ← uc_poll_recv_cq s;
  s ← refill_credit (ctxs_of e) (work =? 0) s;
  s ← check_ctrl_rq false s;
  s ← check_srq false s;
  Done (with_st s e).

Definition handle_completion e : result (engine S) :=
  if negb rc_mode then uc_handle_completion e else rc_handle_completion e.

(** One iteration of [run]; [now] is the time read at its start. *)
Definition iterate (now : Z) e : result (engine S) :=
  e ← (if kSlowTimerIntervalTsc_ <=? now -[64] last_periodic_tsc_ e
       then e ← periodic_process now e; Done (with_time now e)
       else Done e);
  let e := with_st (synchronize (st e)) e in
  e ← handle_rx_work e;
  e ← handle_tx_work e;
  e ← handle_timing_wheel e;
  handle_completion e.

End engine.

(** What the engine relies on: the work of a known request is answered, a flow
    takes buffers until it is full, and stays full while only buffers are supplied.
    [flow_of] is the flow of a work. *)
Class RxLaws (S : Type) `{EngineOps S} (flow_of : Z * Z -> Z) := {
  rx_good : S -> Prop;
  rx_known : Z * Z -> S -> Prop;
  rx_full : Z -> S -> Prop;
  supply_law ctx u s : rx_good s -> rx_known (ctx, u) s ->
    exists ok s', supply_rx_buff ctx u s = Done (ok, s') /\
    rx_good s' /\ (ok = false <-> rx_full (flow_of (ctx, u)) s) /\
    (forall phi, rx_full phi s -> rx_full phi s') /\ (forall w, rx_known w s -> rx_known w s');
}.

(** ** What the handlers do with the works *)

Section works.
Context {S : Type} `{EngineOps S}.
Abbreviation outcome := (Z * Z * bool)%type.

(** The same operations, with a log of the works that were tried. *)
#[global] Instance logged : EngineOps (S * list outcome) := {|
  supply_rx_buff ctx u s :=
    '(ok, s') ← supply_rx_buff ctx u s.1; Done (ok, (s', s.2 ++ [(ctx, u, ok)]));
  tx_message ctx u s :=
    '(ok, s') ← tx_message ctx u s.1; Done (ok, (s', s.2 ++ [(ctx, u, ok)]));
  data_len u s := data_len u s.1;
  burst_timing_wheel ctx s := s' ← burst_timing_wheel ctx s.1; Done (s', s.2);
  check_expired now s := let '(l, s') := check_expired now s.1 in (l, (s', s.2));
  timeout_flow ctx f s := s' ← timeout_flow ctx f s.1; Done (s', s.2);
  create_context c s := (create_context c s.1, s.2);
  request_pull c f s := s' ← request_pull c f s.1; Done (s', s.2);
  synchronize s := (synchronize s.1, s.2);
  update_clock c s := (update_clock c s.1, s.2);
  poll_credit_cq c s := '(n, s') ← poll_credit_cq c s.1; Done (n, (s', s.2));
  check_credit_rq c b s := s' ← check_credit_rq c b s.1; Done (s', s.2);
  poll_ctrl_cq s := s' ← poll_ctrl_cq s.1; Done (s', s.2);
  uc_poll_send_cq s := s' ← uc_poll_send_cq s.1; Done (s', s.2);
  uc_poll_recv_cq s := s' ← uc_poll_recv_cq s.1; Done (s', s.2);
  rc_poll_send_cq s := s' ← rc_poll_send_cq s.1; Done (s', s.2);
  rc_poll_recv_cq s := s' ← rc_poll_recv_cq s.1; Done (s', s.2);
  check_ctrl_rq b s := s' ← check_ctrl_rq b s.1; Done (s', s.2);
  check_srq b s := s' ← check_srq b s.1; Done (s', s.2);
|}.

Definition failed (l : list outcome) : list (Z * Z) := map fst (List.filter (fun x => negb x.2) l).
Definition done_works (l : list outcome) : list (Z * Z) := map fst (List.filter (fun x => x.2) l).
Definition real (w : Z * Z) : bool := negb (w.2 =? 0).
Implicit Types (e : engine (S * list outcome)) (s : S * list outcome).

(** The works that the messages [q] of the channel stand for. *)
Definition resolve (m : gmap Z Z) (q works : list (Z * Z)) : Prop :=
  Forall2 (fun x w => m !! x.1 = Some w.1 /\ x.2 = w.2) q works.

Lemma failed_app l k : failed (l ++ k) = failed l ++ failed k.
Proof. unfold failed. by rewrite List.filter_app, map_app. Qed.
Lemma done_works_app l k : done_works (l ++ k) = done_works l ++ done_works k.
Proof. unfold done_works. by rewrite List.filter_app, map_app. Qed.

Lemma tx_pending_log p0 : forall p s p' s',
  tx_pending (length p0) (p0 ++ p) s = Done (p', s') ->
  exists l, s'.2 = s.2 ++ l /\ map fst l = List.filter real p0 /\ p' = p ++ failed l.
Proof.
  induction p0 as [|[ctx u] p0 IH]; intros p s p' s'; cbn [length app tx_pending].
  { intros [= <- <-]. exists []. by rewrite !app_nil_r. }
  cbn [List.filter]. unfold real at 1. cbn [snd]. destruct (u =? 0); cbn [negb]; [apply IH|].
  intros ([ok s1] & H1 & H2)%bind_done. apply bind_done in H1 as ([ok1 s1'] & _ & [= <- <-]).
  replace (if ok1 then p0 ++ p else (p0 ++ p) ++ [(ctx, u)])
    with (p0 ++ (if ok1 then p else p ++ [(ctx, u)])) in H2 by (destruct ok1; by rewrite ?app_assoc).
  destruct (IH _ _ _ _ H2) as (l & E1 & E2 & E3). cbn in E1. exists ((ctx, u, ok1) :: l).
  rewrite E1, <- app_assoc. split; [done|]. split; [cbn; by rewrite E2|].
  rewrite E3. destruct ok1; cbn; [done|]. by rewrite <- app_assoc.
Qed.

Lemma tx_channel_log thres m budget : forall bytes q p s q' p' s',
  tx_channel thres budget bytes m q p s = Done (q', p', s') ->
  exists k l works, q' = drop k q /\ (k <= budget)%nat /\ resolve m (take k q) works /\
    s'.2 = s.2 ++ l /\ map fst l = works /\ p' = p ++ failed l.
Proof.
  assert (forall q p s, exists k l works, q = drop k q /\ (k <= 0)%nat /\ resolve m (take k q) works /\
    (s : S * list outcome).2 = s.2 ++ l /\ map fst l = works /\ p = p ++ failed l) as Hnil.
  { intros q p s. exists 0%nat, [], []. rewrite drop_0, take_0, !app_nil_r. split_and!; try done. constructor. }
  induction budget as [|budget IH]; intros bytes q p s q' p' s'; cbn [tx_channel].
  { intros [= <- <- <-]. apply Hnil. }
  destruct q as [|[peer u] q].
  { intros [= <- <- <-]. destruct (Hnil [] p s) as (k & l & w & ? & ? & ?). exists k, l, w. split; [done|].
    split; [lia|done]. }
  intros (ctx & Hctx & ([ok s1] & H1 & H2)%bind_done)%bind_done.
  apply bind_done in H1 as ([ok1 s1'] & _ & [= <- <-]).
  assert (m !! peer = Some ctx) as Em by (unfold find_ctx in Hctx; destruct (m !! peer); congruence).
  destruct (thres <=? _).
  - injection H2 as <- <- <-. exists 1%nat, [(ctx, u, ok1)], [(ctx, u)]. cbn.
    split_and!; [by rewrite drop_0|lia|by repeat constructor|done|done|]. by destruct ok1; rewrite ?app_nil_r.
  - destruct (IH _ _ _ _ _ _ _ H2) as (k & l & works & E1 & E2 & E3 & E4 & E5 & E6).
    exists (Datatypes.S k), ((ctx, u, ok1) :: l), ((ctx, u) :: works). cbn in *.
    split_and!; [done|lia|by constructor|by rewrite E4, <- app_assoc|by rewrite E5|].
    rewrite E6. destruct ok1; cbn; [done|]. by rewrite <- app_assoc.
Qed.

(** The peers of the channel are installed. *)
Definition known (m : gmap Z Z) (q : list (Z * Z)) : Prop := Forall (fun x => is_Some (m !! x.1)) q.

Lemma known_resolve m q : known m q -> exists works, resolve m q works.
Proof.
  induction 1 as [|[p u] q [c Hc] _ [works IH]]; [by exists []; constructor|].
  exists ((c, u) :: works). by constructor.
Qed.

Definition tx_fails (works : list (Z * Z)) (err : fault) : Prop :=
  exists w (s : S), w ∈ works /\ tx_message w.1 w.2 s = Fail err.

Lemma tx_pending_fail budget err : forall p s, tx_pending budget p s = Fail err -> tx_fails p err.
Proof.
  induction budget as [|budget IH]; intros p s; [done|]. destruct p as [|[ctx u] p]; [done|].
  cbn [tx_pending]. assert (tx_fails p err -> tx_fails ((ctx, u) :: p) err) as Hc.
  { intros (w & s' & Hw & E). exists w, s'. split; [by right|done]. }
  destruct (u =? 0); [by intros ?%IH%Hc|]. cbn. destruct (tx_message ctx u s.1) as [[ok s1]|err'] eqn:E; cbn.
  - intros (w & s' & Hw & E')%IH. exists w, s'. split; [|done]. destruct ok; [by right|].
    apply elem_of_app in Hw as [?| ->%list_elem_of_singleton]; [by right|by left].
  - intros [= ->]. exists (ctx, u), s.1. split; [by left|done].
Qed.

Lemma tx_channel_fail thres m budget err : forall bytes q works p s,
  resolve m q works -> tx_channel thres budget bytes m q p s = Fail err -> tx_fails works err.
Proof.
  induction budget as [|budget IH]; intros bytes q works p s Hr; [done|].
  destruct Hr as [|[peer u] [ctx u'] q works [Ec [= <-]] Hr]; [done|].
  cbn [tx_channel]. unfold find_ctx. cbn in Ec. rewrite Ec. cbn.
  destruct (tx_message ctx u s.1) as [[ok s1]|err'] eqn:E; cbn.
  - destruct (thres <=? _); [done|]. intros (w & s' & Hw & E')%(IH _ _ _ _ _ Hr).
    exists w, s'. split; [by right|done].
  - intros [= ->]. exists (ctx, u), s.1. split; [by left|done].
Qed.

(** C31: [handle_tx_work] tries each pending work once, in the order in which they
    wait, and then at most [kMaxTxWork] new ones from the channel in their order;
    exactly those that could not be finished are pending afterwards, again in that
    order, so that no work is lost, doubled or overtaken in the queue.  The call
    fails only when sending one of these works fails. *)
Theorem tx_work_round_robin thres e :
  known (rdma_ctx_map_ e) (tx_cmdq_ e) ->
  match handle_tx_work thres e with
  | Done e' => exists k works l,
      resolve (rdma_ctx_map_ e) (take k (tx_cmdq_ e)) works /\ (k <= kMaxTxWork)%nat /\
      tx_cmdq_ e' = drop k (tx_cmdq_ e) /\ (st e').2 = (st e).2 ++ l /\
      map fst l = List.filter real (pending_tx_works_ e) ++ works /\
      pending_tx_works_ e' = failed l
  | Fail err => exists works, resolve (rdma_ctx_map_ e) (tx_cmdq_ e) works /\
      tx_fails (pending_tx_works_ e ++ works) err
  end.
Proof.
  intros [works Hw]%known_resolve. unfold handle_tx_work.
  assert (forall w1 w2 err, tx_fails w1 err \/ tx_fails w2 err -> tx_fails (w1 ++ w2) err) as Happ.
  { intros w1 w2 err [(w & s & ? & ?)|(w & s & ? & ?)]; exists w, s; rewrite elem_of_app; auto. }
  destruct (tx_pending _ _ _) as [[p s]|err] eqn:H1; cbn [mbind result_bind]; cycle 1.
  { apply tx_pending_fail in H1. exists works. auto. }
  destruct (tx_channel _ _ _ _ _ _ _) as [[[q p'] s']|err] eqn:H2; cbn [mbind result_bind]; cycle 1.
  { eapply tx_channel_fail in H2; [|done]. exists works. auto. }
  replace (pending_tx_works_ e) with (pending_tx_works_ e ++ []) in H1 at 2 by apply app_nil_r.
  apply tx_pending_log in H1 as (l1 & E1 & E2 & E3). cbn in E3.
  apply tx_channel_log in H2 as (k & l2 & works' & F1 & F2 & F3 & F4 & F5 & F6).
  exists k, works', (l1 ++ l2). cbn.
  rewrite F4, E1, F6, E3, map_app, E2, F5, failed_app, app_assoc. done.
Qed.

(** *** Receive works *)

Context (flow_of : Z * Z -> Z) `{!RxLaws S flow_of}.

Definition works_of (phi : Z) (l : list (Z * Z)) : list (Z * Z) := List.filter (fun w => flow_of w =? phi) l.

Lemma works_of_app phi l k : works_of phi (l ++ k) = works_of phi l ++ works_of phi k.
Proof. apply List.filter_app. Qed.

Definition all_known (l : list (Z * Z)) (s0 : S) : Prop := Forall (fun w => rx_known w s0) l.

Lemma works_of_nil phi l : (forall w, w ∈ l -> flow_of w <> phi) -> works_of phi l = [].
Proof.
  induction l as [|w l IH]; intros Hl; [done|]. cbn. rewrite (proj2 (Z.eqb_neq _ _)) by (apply Hl; by left).
  apply IH. intros w' Hw'. apply Hl. by right.
Qed.

(** The pending works of the call are of full flows. *)
Lemma rx_channel_log m budget : forall q works p s,
  rx_good s.1 -> resolve m q works -> all_known works s.1 -> (forall w, w ∈ p -> rx_full (flow_of w) s.1) ->
  exists k l q' p' s', rx_channel budget m q p s = Done (q', p', s') /\
    q' = drop k q /\ (k <= budget)%nat /\ s'.2 = s.2 ++ l /\
    forall phi, works_of phi (p ++ take k works) = works_of phi (done_works l) ++ works_of phi p'.
Proof.
  induction budget as [|budget IH]; intros q works p s Hg Hr Hk Hp.
  { exists 0%nat, [], q, p, s. rewrite take_0, drop_0, !app_nil_r. split_and!; done. }
  destruct Hr as [|[peer u] [ctx u'] q works [Ec [= <-]] Hr].
  { exists 0%nat, [], [], p, s. rewrite !app_nil_r. split_and!; try done. lia. }
  cbn [rx_channel]. unfold find_ctx. cbn in Ec. rewrite Ec. cbn [mbind result_bind].
  apply Forall_cons in Hk as [Hu Hk].
  destruct (supply_law ctx u _ Hg Hu) as (ok & s1 & E & Hg' & Hok & Hfull & Hkn). cbn. rewrite E. cbn.
  destruct (IH q works (if ok then p else p ++ [(ctx, u)]) (s1, s.2 ++ [(ctx, u, ok)]))
    as (k & l & q' & p' & s' & E1 & E2 & E3 & E4 & E5); [done|done|by eapply Forall_impl; [exact Hk|]; auto| |].
  { intros w Hw. cbn. destruct ok; [by apply Hfull, Hp|].
    apply elem_of_app in Hw as [Hw| ->%list_elem_of_singleton]; [by apply Hfull, Hp|by apply Hfull, Hok]. }
  exists (Datatypes.S k), ((ctx, u, ok) :: l), q', p', s'. cbn [take drop].
  split_and!; [done|done|lia|by rewrite E4; cbn; rewrite <- app_assoc|]. intros phi.
  specialize (E5 phi). rewrite !works_of_app in *. destruct ok.
  - cbn. destruct (Z.eqb_spec (flow_of (ctx, u)) phi) as [Ef|]; [|done].
    assert (works_of phi p = []) as Ep; [|rewrite Ep in *; cbn in *; by f_equal].
    apply works_of_nil. intros w Hw Hf. apply Hp in Hw. rewrite Hf, <- Ef in Hw. by apply Hok in Hw.
  - change (done_works ((ctx, u, false) :: l)) with (done_works l).
    rewrite works_of_app in E5. rewrite <- E5, <- app_assoc. cbn. by destruct (flow_of (ctx, u) =? phi).
Qed.

Lemma rx_pending_log budget : forall p s,
  rx_good s.1 -> all_known p s.1 ->
  exists ends b p' s' l, rx_pending budget p s = Done (ends, b, p', s') /\
    s'.2 = s.2 ++ l /\ p = done_works l ++ p' /\ rx_good s'.1 /\ (b <= budget)%nat /\
    (ends = false -> p' = []) /\ forall w, rx_known w s.1 -> rx_known w s'.1.
Proof.
  induction budget as [|budget IH]; intros [|[ctx u] p] s Hg Hk; cbn [rx_pending];
    try (eexists _, _, _, _, []; rewrite app_nil_r; by split_and!).
  apply Forall_cons in Hk as [Hu Hk].
  destruct (supply_law ctx u _ Hg Hu) as (ok & s1 & E & Hg' & _ & _ & Hkn). cbn. rewrite E. cbn. destruct ok.
  - destruct (IH p (s1, s.2 ++ [(ctx, u, true)])) as (en & b & p' & s' & l & E1 & E2 & E3 & E4 & E5 & E6 & E7);
      [done|by eapply Forall_impl; [exact Hk|]; auto|].
    exists en, b, p', s', ((ctx, u, true) :: l). cbn in *. rewrite E2, <- app_assoc. split_and!; try done.
    + by rewrite E3 at 1.
    + lia.
    + auto.
  - eexists _, _, _, _, [(ctx, u, false)]. split_and!; try done. lia.
Qed.

End works.

(** *** Control messages *)

Section control.
Context {S : Type} `{EngineOps S} (receiver_eqds : bool).
Implicit Types e : engine S.

(** A message that installs a flow; the flow it names: peer, flow id, direction. *)
Definition flow_key (w : CtrlMsg) : option (Z * Z * bool) :=
  match opcode w with
  | kInstallFlow _ flow_id is_send => Some (cpeer_id w, flow_id, is_send)
  | kInstallCtx => None
  end.

Definition flow_table (is_send : bool) (t : flow_tables) : gmap (Z * Z) Z :=
  if is_send then sender_flow_tbl_ t else receiver_flow_tbl_ t.

Definition installed e (k : Z * Z * bool) : Prop :=
  exists ctx, rdma_ctx_map_ e !! k.1.1 = Some ctx /\ is_Some (flow_table k.2 (tbl e) !! (ctx, k.1.2)).

(** Each peer has its own context, and tables have entries of created contexts
    only. *)
Record eng_ok e : Prop := {
  ctx_lt p c : rdma_ctx_map_ e !! p = Some c -> c < next_ctx e;
  ctx_inj p q c : rdma_ctx_map_ e !! p = Some c -> rdma_ctx_map_ e !! q = Some c -> p = q;
  tbl_lt b c f : is_Some (flow_table b (tbl e) !! (c, f)) -> c < next_ctx e;
  fid_ok p f c : fid_to_rdma_ctx_map_ (tbl e) !! (p, f) = Some c ->
    rdma_ctx_map_ e !! p = Some c /\ is_Some (sender_flow_tbl_ (tbl e) !! (c, f));
}.

(** From [e] to [e'] the flows of [done] were installed and those of [wait] were
    not, for lack of a context; [peers] got contexts. *)
Record dealt (done wait : list CtrlMsg) (peers : list Z) e e' : Prop := {
  d_ok : eng_ok e';
  d_dom p : is_Some (rdma_ctx_map_ e' !! p) <-> is_Some (rdma_ctx_map_ e !! p) \/ p ∈ peers;
  d_map : rdma_ctx_map_ e ⊆ rdma_ctx_map_ e';
  d_woken : woken e' = woken e ++ map poll_ctx done;
  d_wait : Forall (fun w => rdma_ctx_map_ e !! cpeer_id w = None) wait;
  d_installed k : installed e' k <-> installed e k \/ Some k ∈ map flow_key done;
}.

Lemma dealt_nil e : eng_ok e -> dealt [] [] [] e e.
Proof. constructor; [done|set_solver|done|by rewrite app_nil_r|constructor|]. intros k. cbn. set_solver. Qed.

Lemma dealt_app d1 w1 c1 d2 w2 c2 e e1 e2 :
  dealt d1 w1 c1 e e1 -> dealt d2 w2 c2 e1 e2 -> dealt (d1 ++ d2) (w1 ++ w2) (c1 ++ c2) e e2.
Proof.
  intros [H1 H1' H2 H3 H4 H5] [G1 G1' G2 G3 G4 G5].
  constructor; [done|intros p; rewrite G1', H1', elem_of_app; tauto|by etrans|by rewrite G3, H3, map_app, app_assoc| |].
  - apply Forall_app. split; [done|]. eapply Forall_impl; [exact G4|]. cbn. intros w Hw.
    by eapply lookup_weaken_None.
  - intros k. rewrite G5, H5, map_app, elem_of_app. tauto.
Qed.

Definition pull_total : Prop := forall ctx flow (s : S), exists s', request_pull ctx flow s = Done s'.

(** A new entry in a flow table. *)
Lemma installed_entry e e' p c f b :
  eng_ok e -> rdma_ctx_map_ e !! p = Some c -> rdma_ctx_map_ e' = rdma_ctx_map_ e ->
  (forall b' x, is_Some (flow_table b' (tbl e') !! x) <->
    is_Some (flow_table b' (tbl e) !! x) \/ (b' = b /\ x = (c, f))) ->
  forall k, installed e' k <-> installed e k \/ k = (p, f, b).
Proof.
  intros Hok Hp Hm Ht [[q g] b']. unfold installed. rewrite Hm. cbn. split.
  - intros (c' & H1 & [H2|[-> [= -> ->]]]%Ht); [left; by eexists|].
    right. by rewrite (ctx_inj _ Hok _ _ _ H1 Hp).
  - intros [(c' & H1 & H2)|[= -> -> ->]]; [exists c'|exists c]; (split; [done|apply Ht]); [by left|by right].
Qed.

(** Entering a flow keeps the invariant. *)
Lemma eng_ok_entry e e' p c f b :
  eng_ok e -> rdma_ctx_map_ e !! p = Some c -> rdma_ctx_map_ e' = rdma_ctx_map_ e -> next_ctx e' = next_ctx e ->
  (forall b' x, is_Some (flow_table b' (tbl e') !! x) <->
    is_Some (flow_table b' (tbl e) !! x) \/ (b' = b /\ x = (c, f))) ->
  (fid_to_rdma_ctx_map_ (tbl e') = fid_to_rdma_ctx_map_ (tbl e) \/
   (b = true /\ fid_to_rdma_ctx_map_ (tbl e') = <[(p, f) := c]> (fid_to_rdma_ctx_map_ (tbl e)))) ->
  eng_ok e'.
Proof.
  intros Hok Hp Hm Hn Ht Hf. destruct Hok as [H1 H2 H3 H4].
  assert (forall x, is_Some (sender_flow_tbl_ (tbl e) !! x) -> is_Some (sender_flow_tbl_ (tbl e') !! x)) as Hs.
  { intros x Hx. apply (Ht true). by left. }
  constructor; rewrite ?Hm, ?Hn; try done.
  - intros b' c' f' [Hb|[-> [= -> ->]]]%Ht; [by eapply H3|by eapply H1].
  - intros q g c' Hq. destruct Hf as [Hf|[-> Hf]]; rewrite Hf in Hq.
    + apply H4 in Hq as [? ?]. by split; [|apply Hs].
    + apply lookup_insert_Some in Hq as [[[= -> ->] ->]|[_ [? ?]%H4]]; [|by split; [|apply Hs]].
      split; [done|]. apply (Ht true). by right.
Qed.

Lemma flow_step e w k :
  pull_total -> eng_ok e -> flow_key w = Some k -> k.1.2 < MAX_FLOW -> ~ installed e k ->
  exists e' d wt, handle_install_flow_on_engine receiver_eqds w e = Done e' /\ dealt d wt [] e e' /\
    [w] ≡ₚ d ++ wt /\ ctrl_cmdq_ e' = ctrl_cmdq_ e /\
    pending_install_flow_works_ e' = pending_install_flow_works_ e ++ wt.
Proof.
  intros Hpull Hok Hk Hmax Hnew. unfold handle_install_flow_on_engine, flow_key in *.
  destruct (opcode w) as [|flow f b] eqn:Eo; [done|]. injection Hk as <-. cbn in Hmax. unfold install_flow.
  destruct (rdma_ctx_map_ e !! cpeer_id w) as [c|] eqn:Ec; cycle 1.
  { eexists _, [], [w]. split; [done|]. split; [|done]. constructor; cbn; try done; [by destruct Hok|set_solver|by rewrite app_nil_r|by constructor|].
    intros k. set_solver. }
  rewrite (proj2 (Z.ltb_lt _ _) Hmax). cbn [negb].
  assert (flow_table b (tbl e) !! (c, f) = None) as En.
  { apply eq_None_not_Some. intros Hs. apply Hnew. by exists c. }
  assert (forall t s, (forall b' x, is_Some (flow_table b' t !! x) <->
      is_Some (flow_table b' (tbl e) !! x) \/ (b' = b /\ x = (c, f))) ->
    (fid_to_rdma_ctx_map_ t = fid_to_rdma_ctx_map_ (tbl e) \/
     (b = true /\ fid_to_rdma_ctx_map_ t = <[(cpeer_id w, f) := c]> (fid_to_rdma_ctx_map_ (tbl e)))) ->
    dealt [w] [] [] e (with_flow (woken e ++ [poll_ctx w]) t s e)) as Hd.
  { intros t s Ht Hf. constructor; [by eapply eng_ok_entry|cbn; set_solver|done|done|constructor|]. intros k.
    rewrite (installed_entry e _ _ _ _ _ Hok Ec) by done. cbn. unfold flow_key. rewrite Eo. set_solver. }
  destruct b; cbn in En.
  - unfold add_sender_flow, record_sender_ctx_mapping. rewrite En. cbn [mbind result_bind fid_to_rdma_ctx_map_].
    destruct (fid_to_rdma_ctx_map_ (tbl e) !! (cpeer_id w, f)) as [c'|] eqn:Ef.
    { apply Hok in Ef as [? [? ?]]. congruence. }
    cbn [mbind result_bind]. eexists _, [w], []. split; [done|]. split; [|cbn; by rewrite app_nil_r].
    apply Hd; [|by right]. intros [] x; cbn; [|naive_solver]. rewrite lookup_insert_is_Some'. naive_solver.
  - unfold add_receiver_flow. rewrite En. cbn [mbind result_bind].
    assert (exists s', (if receiver_eqds then request_pull c flow (st e) else Done (st e)) = Done s') as [s' Es]
      by (destruct receiver_eqds; [apply Hpull|by eexists]).
    rewrite Es. cbn [mbind result_bind]. eexists _, [w], []. split; [done|]. split; [|cbn; by rewrite app_nil_r].
    apply Hd; [|by left]. intros [] x; cbn; [naive_solver|]. rewrite lookup_insert_is_Some'. naive_solver.
Qed.

Lemma ctx_step e w :
  eng_ok e -> rdma_ctx_map_ e !! cpeer_id w = None ->
  exists e', handle_install_ctx_on_engine w e = Done e' /\ dealt [] [] [cpeer_id w] e e' /\
    ctrl_cmdq_ e' = ctrl_cmdq_ e /\ pending_install_flow_works_ e' = pending_install_flow_works_ e.
Proof.
  intros [H1 H2 H3 H4] Hn. unfold handle_install_ctx_on_engine. rewrite Hn. eexists. split; [done|].
  split; [|done]. constructor; cbn.
  - constructor; cbn.
    + intros p c [[_ <-]|[_ ?%H1]]%lookup_insert_Some; lia.
    + intros p q c [[<- <-]|[_ Hp]]%lookup_insert_Some [[<- Hc]|[_ Hq]]%lookup_insert_Some;
        [done|by apply H1 in Hq; lia|subst; by apply H1 in Hp; lia|by eapply H2].
    + intros b c f ?%H3. lia.
    + intros p f c [Hp ?]%H4. split; [|done]. rewrite lookup_insert_ne; congruence.
  - intros p. rewrite lookup_insert_is_Some'. set_solver.
  - by apply insert_subseteq.
  - by rewrite app_nil_r.
  - constructor.
  - intros k. unfold installed. cbn. split.
    + intros (c & [[_ <-]|[_ Hc]]%lookup_insert_Some & Ht); [by apply H3 in Ht; lia|]. left. by exists c.
    + intros [(c & Hc & Ht)|Hin%not_elem_of_nil]; [|done]. exists c. split; [|done].
      rewrite lookup_insert_ne; congruence.
Qed.

(** *** Queues of messages *)

Definition ctx_peer (w : CtrlMsg) : option Z :=
  match opcode w with kInstallCtx => Some (cpeer_id w) | kInstallFlow _ _ _ => None end.
Definition is_flow (w : CtrlMsg) : bool :=
  match opcode w with kInstallCtx => false | kInstallFlow _ _ _ => true end.

(** Messages that ask for new contexts and new flows, each once. *)
Record fresh_msgs e (ws : list CtrlMsg) : Prop := {
  f_flow : Forall (fun k => k.1.2 < MAX_FLOW /\ ~ installed e k) (omap flow_key ws);
  f_keys : NoDup (omap flow_key ws);
  f_ctx : Forall (fun p => rdma_ctx_map_ e !! p = None) (omap ctx_peer ws);
  f_peers : NoDup (omap ctx_peer ws);
}.

Lemma fresh_next e e' w ws d wt :
  fresh_msgs e (w :: ws) -> dealt d wt (omap ctx_peer [w]) e e' -> d ++ wt ⊆+ [w] -> fresh_msgs e' ws.
Proof.
  intros [H1 H2 H3 H4] [_ Hdom _ _ _ Hi] Hd.
  assert (d ⊆+ [w]) as Hd' by (etrans; [apply submseteq_inserts_r|exact Hd]; done).
  constructor.
  - apply Forall_forall. intros k Hk. rewrite Hi.
    assert (k ∈ omap flow_key (w :: ws)) as Hk' by (cbn; destruct (flow_key w); set_solver).
    rewrite Forall_forall in H1. destruct (H1 _ Hk') as [? Hn]. split; [done|]. intros [?|Hin]; [done|].
    apply list_elem_of_fmap in Hin as (w' & Ew & Hw). apply (elem_of_submseteq _ _ _ Hw), list_elem_of_singleton in Hd' as ->.
    cbn in H2. rewrite <- Ew in H2. by apply NoDup_cons in H2 as [? _].
  - cbn in H2. destruct (flow_key w); [by apply NoDup_cons in H2 as [_ ?]|done].
  - apply Forall_forall. intros p Hp. apply eq_None_not_Some. rewrite Hdom.
    assert (p ∈ omap ctx_peer (w :: ws)) as Hp' by (cbn; destruct (ctx_peer w); set_solver).
    rewrite Forall_forall in H3. intros [[? ?]|Hin]; [apply H3 in Hp'; congruence|].
    cbn in *. destruct (ctx_peer w); [|by apply not_elem_of_nil in Hin].
    apply list_elem_of_singleton in Hin as ->. by apply NoDup_cons in H4 as [? _].
  - cbn in H4. destruct (ctx_peer w); [by apply NoDup_cons in H4 as [_ ?]|done].
Qed.

Lemma flow_next e w ws :
  pull_total -> eng_ok e -> is_flow w = true -> fresh_msgs e (w :: ws) ->
  exists e' d wt, handle_install_flow_on_engine receiver_eqds w e = Done e' /\ dealt d wt [] e e' /\
    [w] ≡ₚ d ++ wt /\ ctrl_cmdq_ e' = ctrl_cmdq_ e /\
    pending_install_flow_works_ e' = pending_install_flow_works_ e ++ wt /\ fresh_msgs e' ws.
Proof.
  intros Hpull Hok Hw Hf. unfold is_flow in Hw. destruct (opcode w) as [|flow f b] eqn:Eo; [done|].
  assert (flow_key w = Some (cpeer_id w, f, b)) as Ek by (unfold flow_key; by rewrite Eo).
  pose proof (f_flow _ _ Hf) as Hk. cbn in Hk. rewrite Ek in Hk. apply Forall_cons in Hk as [[Hmax Hnew] _].
  destruct (flow_step e w _ Hpull Hok Ek Hmax Hnew) as (e' & d & wt & E1 & E2 & E3 & E4 & E5).
  exists e', d, wt. split_and!; try done. eapply fresh_next; [done| |by rewrite E3].
  cbn. unfold ctx_peer. by rewrite Eo.
Qed.

(** The queues of messages do not matter to what is installed. *)
Lemma eng_ok_ctl q p e : eng_ok e -> eng_ok (with_ctl q p e).
Proof. by intros []; constructor. Qed.
Lemma fresh_msgs_ctl q p e ws : fresh_msgs e ws -> fresh_msgs (with_ctl q p e) ws.
Proof. by intros []; constructor. Qed.
Lemma dealt_ctl q p d wt c e e' : dealt d wt c (with_ctl q p e) e' -> dealt d wt c e e'.
Proof. by intros []; constructor. Qed.

Lemma ctl_pending_deals p0 : forall p e ws,
  pull_total -> eng_ok e -> pending_install_flow_works_ e = p0 ++ p ->
  Forall (fun w => is_flow w = true) p0 -> fresh_msgs e (p0 ++ ws) ->
  exists e' d wt, ctl_pending receiver_eqds (length p0) e = Done e' /\ dealt d wt [] e e' /\
    p0 ≡ₚ d ++ wt /\ ctrl_cmdq_ e' = ctrl_cmdq_ e /\ pending_install_flow_works_ e' = p ++ wt /\
    fresh_msgs e' ws.
Proof.
  induction p0 as [|w p0 IH]; intros p e ws Hpull Hok Hp Hfl Hf.
  { exists e, [], []. split; [done|]. split; [by apply dealt_nil|]. by rewrite !app_nil_r. }
  cbn [length ctl_pending]. rewrite Hp. cbn [app]. apply Forall_cons in Hfl as [Hw Hfl].
  destruct (flow_next (with_ctl (ctrl_cmdq_ e) (p0 ++ p) e) w (p0 ++ ws) Hpull)
    as (e1 & d1 & w1 & E1 & E2 & E3 & E4 & E5 & E6); [by apply eng_ok_ctl|done|by apply fresh_msgs_ctl|].
  rewrite E1. cbn [mbind result_bind]. cbn in E5. rewrite <- app_assoc in E5.
  destruct (IH _ e1 ws Hpull (d_ok _ _ _ _ _ E2) E5 Hfl E6) as (e2 & d2 & w2 & F1 & F2 & F3 & F4 & F5 & F6).
  exists e2, (d1 ++ d2), (w1 ++ w2). split; [done|]. split; [|split_and!; [|by rewrite F4|by rewrite F5, app_assoc|done]].
  - change (@nil Z) with (@nil Z ++ []). by eapply dealt_app; [eapply dealt_ctl|].
  - change (w :: p0) with ([w] ++ p0). rewrite E3, F3. solve_Permutation.
Qed.

Lemma ctl_channel_deals q : forall e,
  pull_total -> eng_ok e -> ctrl_cmdq_ e = q -> fresh_msgs e q ->
  exists e' d wt, ctl_channel receiver_eqds q e = Done e' /\ dealt d wt (omap ctx_peer q) e e' /\
    List.filter is_flow q ≡ₚ d ++ wt /\ ctrl_cmdq_ e' = [] /\
    pending_install_flow_works_ e' = pending_install_flow_works_ e ++ wt.
Proof.
  induction q as [|w q IH]; intros e Hpull Hok Hq Hf.
  { exists e, [], []. split; [done|]. split; [by apply dealt_nil|]. by rewrite !app_nil_r. }
  set (e0 := with_ctl q (pending_install_flow_works_ e) e).
  assert (exists e1 d1 w1, match opcode w with
      | kInstallCtx => handle_install_ctx_on_engine w e0
      | kInstallFlow _ _ _ => handle_install_flow_on_engine receiver_eqds w e0
      end = Done e1 /\ dealt d1 w1 (omap ctx_peer [w]) e0 e1 /\
    List.filter is_flow [w] ≡ₚ d1 ++ w1 /\ ctrl_cmdq_ e1 = q /\
    pending_install_flow_works_ e1 = pending_install_flow_works_ e ++ w1 /\ fresh_msgs e1 q)
    as (e1 & d1 & w1 & E1 & E2 & E3 & E4 & E5 & E6).
  { assert (eng_ok e0) as Hok0 by by apply eng_ok_ctl.
    assert (fresh_msgs e0 (w :: q)) as Hf0 by by apply fresh_msgs_ctl.
    cbn. unfold ctx_peer, is_flow at 1. destruct (opcode w) eqn:Eo.
    - pose proof (f_ctx _ _ Hf0) as Hc. cbn in Hc. unfold ctx_peer at 1 in Hc. rewrite Eo in Hc.
      apply Forall_cons in Hc as [Hc _]. destruct (ctx_step e0 w Hok0 Hc) as (e1 & F1 & F2 & F3 & F4).
      exists e1, [], []. rewrite F4, !app_nil_r. split_and!; try done.
      eapply (fresh_next e0 _ w _ [] []); [done| |by apply submseteq_nil_l]. cbn. unfold ctx_peer. by rewrite Eo.
    - apply (flow_next e0); try done. unfold is_flow. by rewrite Eo. }
  cbn [ctl_channel]. fold e0. rewrite E1. cbn [mbind result_bind].
  destruct (IH e1 Hpull (d_ok _ _ _ _ _ E2) E4 E6) as (e2 & d2 & w2 & F1 & F2 & F3 & F4 & F5).
  exists e2, (d1 ++ d2), (w1 ++ w2). split; [done|].
  split; [|split_and!; [|done|by rewrite F5, E5, app_assoc]].
  - replace (omap ctx_peer (w :: q)) with (omap ctx_peer [w] ++ omap ctx_peer q) by (cbn; by destruct (ctx_peer w)).
    by eapply dealt_app; [eapply dealt_ctl|].
  - change (w :: q) with ([w] ++ q). rewrite List.filter_app, E3, F3. solve_Permutation.
Qed.

(** The waiting flows are still to be installed. *)
Lemma fresh_wait e e' d wt c ws :
  fresh_msgs e ws -> dealt d wt c e e' -> List.filter is_flow ws ≡ₚ d ++ wt ->
  Forall (fun w => is_flow w = true) wt /\ fresh_msgs e' wt.
Proof.
  intros [H1 H2 _ _] [_ _ _ _ _ Hi] Hp.
  assert (omap flow_key ws = omap flow_key (List.filter is_flow ws)) as Ew.
  { clear. induction ws as [|w ws IH]; [done|]. cbn. rewrite IH.
    assert (flow_key w = None <-> is_flow w = false) as Hw by (unfold flow_key, is_flow; by destruct (opcode w)).
    destruct (is_flow w), (flow_key w) eqn:Ek; cbn; rewrite ?Ek; naive_solver. }
  assert (Forall (fun w => is_flow w = true) wt) as Hw.
  { apply Forall_forall. intros w Hw. assert (w ∈ List.filter is_flow ws) as Hin by (rewrite Hp; set_solver).
    by apply list_elem_of_In, filter_In in Hin as [_ ?]. }
  split; [done|]. rewrite Ew, Hp, omap_app in H1, H2. apply NoDup_app in H2 as (_ & Hdis & H2).
  apply Forall_app in H1 as [_ H1].
  assert (omap ctx_peer wt = []) as Ec.
  { clear - Hw. induction Hw as [|w wt Hw _ IH]; [done|]. cbn. rewrite IH. unfold is_flow, ctx_peer in *.
    by destruct (opcode w). }
  constructor; rewrite ?Ec; try done; try constructor. apply Forall_forall. intros k Hk. rewrite Hi.
  rewrite Forall_forall in H1. destruct (H1 _ Hk). split; [done|]. intros [?|Hin]; [done|].
  apply (Hdis k); [|done]. apply list_elem_of_omap. apply list_elem_of_fmap in Hin as (w & ? & ?). by exists w.
Qed.

(** What holds between two calls of [process_ctl_reqs]. *)
Record ctl_ready e : Prop := {
  r_ok : eng_ok e;
  r_pending : Forall (fun w => is_flow w = true) (pending_install_flow_works_ e);
  r_fresh : fresh_msgs e (pending_install_flow_works_ e ++ ctrl_cmdq_ e);
}.

(** C25: [process_ctl_reqs] returns with the control queue empty.  Every context
    that was asked for is in the map.  Each flow that waited or was asked for is
    either installed in the table of its peer's context, with its caller woken
    once, or waits because the peer had no context when the call began; a flow
    whose peer had one never waits on.  Nothing else is installed, each peer keeps
    its own context, and the call may be repeated. *)
Theorem control_installs_flows e :
  pull_total -> ctl_ready e ->
  exists e' d wt, process_ctl_reqs receiver_eqds e = Done e' /\ ctl_ready e' /\
    ctrl_cmdq_ e' = [] /\ pending_install_flow_works_ e' = wt /\
    pending_install_flow_works_ e ++ List.filter is_flow (ctrl_cmdq_ e) ≡ₚ d ++ wt /\
    dealt d wt (omap ctx_peer (ctrl_cmdq_ e)) e e'.
Proof.
  intros Hpull [Hok Hpend Hf]. unfold process_ctl_reqs.
  destruct (ctl_pending_deals (pending_install_flow_works_ e) [] e (ctrl_cmdq_ e))
    as (e1 & d1 & w1 & E1 & E2 & E3 & E4 & E5 & E6); try done; [by rewrite app_nil_r|].
  rewrite E1. cbn [mbind result_bind]. rewrite <- E4 in E6.
  destruct (ctl_channel_deals _ e1 Hpull (d_ok _ _ _ _ _ E2) eq_refl E6) as (e2 & d2 & w2 & F1 & F2 & F3 & F4 & F5).
  rewrite E4 in F2, F3. rewrite E5 in F5. cbn in F5.
  assert (pending_install_flow_works_ e ++ List.filter is_flow (ctrl_cmdq_ e) ≡ₚ (d1 ++ d2) ++ (w1 ++ w2)) as Hp
    by (rewrite E3, F3; solve_Permutation).
  pose proof (dealt_app _ _ _ _ _ _ _ _ _ E2 F2 : dealt _ _ (omap ctx_peer (ctrl_cmdq_ e)) _ _) as Hd.
  exists e2, (d1 ++ d2), (w1 ++ w2). split; [done|]. split; [|done].
  destruct (fresh_wait _ _ _ _ _ _ Hf Hd) as [G1 G2].
  { rewrite List.filter_app, <- Hp. apply Permutation_app_tail. clear - Hpend.
    induction Hpend as [|w ws Hw _ IH]; [done|]. cbn. rewrite Hw. by constructor. }
  constructor; [apply Hd|by rewrite F5|]. by rewrite F4, F5, app_nil_r.
Qed.
End control.
End Engine.
