(* ===== verification/EnginePaths.v ===== *)
(** * The engine on the send and receive paths

    The instance of the engine's interface ([EngineOps]) in which contexts do what
    [Receiver.v], [Sender.v] and [OneSided.v] describe, the law of the receive side,
    and engines on which the premises of the theorems hold. *)

From S2P Require Import Prelude Float64 Csn Queues Cc Pcb SharedIo Flow Timer Receiver ReceiverSpec Sender.
From S2P Require Import SenderSpec OneSided Contexts SenderExamples Engine.

Module EnginePaths.
Import Flow Engine.

Section paths.
Context {RC RX SC SX P : Type} `{RxHooks RC RX} `{TxHooks SC SX} `{!Pacer SX} `{PoolOps P}.

(** [now] is the time of the iteration, [type_of] the kind of a request. *)
Context (tcfg : Tx.config) (now : Z) (type_of : Z -> OneSided.ReqType).

(** Creating a context, asking for credit, polling the completion queues and
    reading the clock of the NIC are arguments. *)
Abbreviation paths := (Rx.rctx RC RX P * Tx.sctx SC SX P)%type.
Context (create : Z -> paths -> paths) (pull : Z -> Z -> paths -> result paths).
Context (poll : paths -> result paths) (clock : paths -> paths) (credit : paths -> result (Z * paths)).

#[global] Instance path_ops : EngineOps paths := {|
  supply_rx_buff _ u s :=
    '(o, c) ← Rx.supply_rx_buff u s.1;
    Done (match o with Some _ => true | None => false end, (c, s.2));
  tx_message _ u s :=
    '(ok, c) ← OneSided.tx_message tcfg (type_of u) now u s.2; Done (ok, (s.1, c));
  data_len u s := match Tx.sureqs s.2 !! u with Some r => Tx.data_len r | None => 0 end;
  burst_timing_wheel _ s := c ← Tx.burst_timing_wheel tcfg now s.2; Done (s.1, c);
  check_expired now s :=
    let '(l, t) := Timer.check_expired now (Tx.rto_ s.2) in
    (map (fun d => (Timer.rdma_ctx d, Timer.flow d)) l, (s.1, Tx.set_rto_ t s.2));
  timeout_flow _ flow s := c ← Tx.handle_rto tcfg now flow s.2; Done (s.1, c);
  create_context := create;
  request_pull := pull;
  synchronize := clock;
  update_clock _ s := s;
  poll_credit_cq _ := credit;
  check_credit_rq _ _ := poll;
  poll_ctrl_cq := poll;
  uc_poll_send_cq := poll;
  uc_poll_recv_cq := poll;
  rc_poll_send_cq := poll;
  rc_poll_recv_cq := poll;
  check_ctrl_rq _ := poll;
  check_srq _ := poll;
|}.

(** ** The law of the receive side *)

(** [flows] gives the flow of each request. *)
Context (flows : Z -> Z).

Definition recv_good (s : paths) : Prop :=
  forall u q, Rx.ureqs s.1 !! u = Some q ->
    Flow.context q = flows u /\ is_Some (Rx.receiver_flow_tbl_ s.1 !! flows u).

Definition recv_full (phi : Z) (s : paths) : Prop :=
  exists f, Rx.receiver_flow_tbl_ s.1 !! phi = Some f /\ alloc_recvreq f = None.

#[global] Program Instance path_rx_laws : RxLaws paths (fun w => flows w.2) := {|
  rx_good := recv_good;
  rx_known w s := is_Some (Rx.ureqs s.1 !! w.2);
  rx_full := recv_full;
|}.
Next Obligation.
  intros ctx u [c sc] Hg [q Hq]. cbn in *. destruct (Hg u q Hq) as [Hc [f Hf]]. cbn in Hf.
  unfold Rx.supply_rx_buff, Rx.get_flow. rewrite Hq, Hc, Hf. cbn [mbind result_bind].
  destruct (alloc_recvreq f) as [rid|] eqn:Ea; cbn [mbind result_bind]; eexists _, _; (split; [done|]); cycle 1.
  { split_and!; try done. split; [|done]. intros _. by exists f. }
  split_and!.
  - intros v q' Hv. cbn in *. rewrite lookup_insert_is_Some'.
    apply lookup_insert_Some in Hv as [[<- <-]|[_ [? ?]%Hg]]; [by split; [|left]|by split; [|right]].
  - split; [done|]. intros (f' & Hf' & Ha). cbn in Hf'. congruence.
  - intros phi (f' & Hf' & Ha). cbn in *. exists f'. split; [|done].
    cbn. rewrite lookup_insert_ne; [done|]. intros <-. congruence.
  - intros w Hw. cbn in *. rewrite lookup_insert_is_Some'. by right.
Qed.
End paths.

(** ** Concrete engines *)

(** A receiver with room for two more buffers of flow 5 and a full flow 6; a sender
    with one message. *)
Definition busy_reqs (n : nat) : list RecvRequest := replicate n (MkReq RECV 70 0 0) ++ replicate (16 - n) zero_req.
Definition rflow (fid : Z) (n : nat) : SubUcclFlow unit := SubUcclFlow_init fid 2 0 (busy_reqs n) tt.

Definition receiver : Rx.rctx unit unit BuffPool.t :=
  Rx.set_receiver_flow_tbl_ {[ 5 := rflow 5 14; 6 := rflow 6 16 ]}
    (Rx.set_ureqs {[ 71 := MkUreq 5 1000 0; 72 := MkUreq 6 1000 0; 73 := MkUreq 5 1000 0; 74 := MkUreq 5 1000 0 ]}
       RxSpec.Example.start).
Definition flows (u : Z) : Z := if u =? 72 then 6 else 5.

Abbreviation state := (Rx.rctx unit unit BuffPool.t * Tx.sctx Ctx.cc unit BuffPool.t)%type.
#[global] Instance ops : EngineOps state :=
  path_ops TxExample.cfg 2000 (fun _ => OneSided.ReqTx) (fun _ s => s) (fun _ _ s => Done s) Done (fun s => s) (fun s => Done (0, s)).
#[global] Instance rx_laws : RxLaws state (fun w => flows w.2) := path_rx_laws _ _ _ _ _ _ _ _ flows.

Definition tables0 : flow_tables := MkTables ∅ ∅ ∅ ∅.
Definition eng (rx tx prx ptx : list (Z * Z)) : engine (state * list (Z * Z * bool)) :=
  MkEngine {[ 1 := 0 ]} rx tx [] prx ptx [] 0 [] tables0 1 ((receiver, TxExample.start tt), []).

Definition is_done {A} (r : result A) : bool := match r with Done _ => true | Fail _ => false end.
Lemma is_done_eq {A} (r : result A) : is_done r = true -> exists a, r = Done a.
Proof. destruct r; [by eexists|done]. Qed.

(** A message waits and the channel has the next work of the same peer. *)
Definition sending := eng [] [(1, 70)] [] [(0, 0); (0, 70)].

Lemma tx_work_round_robin_witness : exists e' k works l,
  handle_tx_work 2097152 sending = Done e' /\ resolve {[ 1 := 0 ]} (take k [(1, 70)]) works /\
  (st e').2 = l /\ map fst l = (0, 70) :: works /\ pending_tx_works_ e' = failed l.
Proof.
  destruct (is_done_eq (handle_tx_work 2097152 sending)) as [e' E]; [vm_compute; reflexivity|].
  assert (known {[ 1 := 0 ]} [(1, 70)]) as Hk by (repeat constructor; by eexists).
  pose proof (tx_work_round_robin 2097152 sending Hk) as Hr. rewrite E in Hr.
  destruct Hr as (k & works & l & H1 & _ & _ & H4 & H5 & H6). exists e', k, works, l.
  exact (conj E (conj H1 (conj H4 (conj H5 H6)))).
Defined.

(** A work of the full flow waits; three more of the other flow arrive, for two of
    which there is room. *)
Definition receiving := eng [(1, 71); (1, 72); (1, 73); (1, 74)] [] [] [].
Definition arriving : list (Z * Z) := [(0, 71); (0, 72); (0, 73); (0, 74)].

Lemma receiving_good : recv_good flows (st receiving).1.
Proof.
  intros u q Hq. cbn in Hq.
  repeat (apply lookup_insert_Some in Hq as [[<- <-]|[_ Hq]]; [by split; [|eexists]|]).
  apply lookup_singleton_Some in Hq as [<- <-]. by split; [|eexists].
Qed.


(** A flow waits for peer 2, whose context is now asked for, and the channel also
    asks for a flow of peer 1 and one of peer 3, which has no context. *)
Definition flow_msg (peer fid : Z) (b : bool) : CtrlMsg := MkCtrl (kInstallFlow 4096 fid b) peer (100 + fid).
Definition installing : engine state :=
  MkEngine {[ 1 := 0 ]} [] [] [MkCtrl kInstallCtx 2 200; flow_msg 1 7 true; flow_msg 3 8 false] [] []
    [flow_msg 2 9 false] 0 [] tables0 1 (receiver, TxExample.start tt).

Lemma installing_ready : ctl_ready installing.
Proof.
  assert (forall k, ~ installed installing k) as Hn.
  { intros [[p f] b] (c & _ & [x Hx]). destruct b; cbn in Hx; by apply lookup_empty_Some in Hx. }
  split.
  - split; cbn.
    + intros p c [_ <-]%lookup_singleton_Some. done.
    + by intros p q c [<- _]%lookup_singleton_Some [<- _]%lookup_singleton_Some.
    + intros [] c f [x Hx]; cbn in Hx; by apply lookup_empty_Some in Hx.
    + intros p f c Hx. by apply lookup_empty_Some in Hx.
  - by repeat constructor.
  - split; cbn.
    + repeat constructor; try done; apply Hn.
    + by apply (bool_decide_unpack _); vm_compute.
    + by repeat constructor.
    + by apply (bool_decide_unpack _); vm_compute.
Qed.

Lemma control_installs_flows_witness : exists e' d wt,
  process_ctl_reqs true installing = Done e' /\ ctl_ready e' /\ pending_install_flow_works_ e' = wt /\
  [flow_msg 2 9 false; flow_msg 1 7 true; flow_msg 3 8 false] ≡ₚ d ++ wt /\ dealt d wt [2] installing e'.
Proof.
  destruct (control_installs_flows true installing) as (e' & d & wt & H1 & H2 & _ & H4 & H5 & H6).
  - intros ctx flow s. by eexists.
  - apply installing_ready.
  - exists e', d, wt. exact (conj H1 (conj H2 (conj H4 (conj H5 H6)))).
Defined.
End EnginePaths.
