(* ===== verification/ChunkGraph.v ===== *)
(** * Chunk graphs of collectives

    The planner of the micro-kernel runtime
    ([experimental/ukernel/src/ccl/algo/chunk_graph.cc]): from the configuration
    of a collective every rank derives its own list of operations on chunks of
    the tensor, with dependencies between them; [Put] writes a chunk to a peer,
    [Recv] waits for one, [RecvReduce] combines it with the local data.

    The shards of an all-reduce are shown to cut the tensor into consecutive
    pieces, and the list is given in closed form ([allreduce_plan]): which
    operations it has, on which bytes, with which peers and after which others.

    A vector is a list, a [size_t] a 64-bit word; an exception is a value. *)

From S2P Require Import Prelude.

Module ChunkGraph.

(** ** Data of [coll_types.h], [coll_config.h] and [chunk_graph.h] *)

Inductive CollKind := AllReduceRing | AllToAllPairwise.
Inductive AlgoOpKind := Put | Recv | RecvReduce.
Inductive ScalarType :=
  UInt8 | Int8 | Int16 | Int32 | Int64 | Float16 | Float32 | Float64 | BFloat16 | Bool.
Inductive ReductionKind := RNone | Sum | Prod | Max | Min | BitwiseAnd.

#[export] Instance CollKind_eq_dec : EqDecision CollKind.
Proof. solve_decision. Defined.
#[export] Instance AlgoOpKind_eq_dec : EqDecision AlgoOpKind.
Proof. solve_decision. Defined.

Definition scalar_type_size (dtype : ScalarType) : Z :=
  match dtype with
  | UInt8 | Int8 | Bool => 1
  | Int16 | Float16 | BFloat16 => 2
  | Int32 | Float32 => 4
  | Int64 | Float64 => 8
  end.

Record CollectiveConfig := MkConfig {
  kind : CollKind;
  nranks : Z;
  rank : Z;
  input_bytes : Z;
  output_bytes : Z;
  tile_bytes : Z;
  input_split_bytes : list Z;
  output_split_bytes : list Z;
  dtype : ScalarType;
  reduction : ReductionKind;
  signal_group_tiles : Z;
}.

Record Chunk := MkChunk {
  op : AlgoOpKind;
  bytes : Z;
  src_off : Z;
  dst_off : Z;
  src_rank : Z;
  dst_rank : Z;
  pair_id : Z;
  deps : list Z;
}.

Record CollAlgo := MkAlgo {
  akind : CollKind;
  anranks : Z;
  arank : Z;
  ainput_bytes : Z;
  aoutput_bytes : Z;
  areduction : ReductionKind;
  chunks : list Chunk;
}.

(** [std::invalid_argument] with its message, or a value. *)
Inductive planned (A : Type) :=
| Planned (a : A)
| Invalid (what : string).
Arguments Planned {A} _.
Arguments Invalid {A} _.

#[export] Instance planned_bind : MBind planned :=
  fun A B f m => match m with Planned a => f a | Invalid w => Invalid w end.

Definition require (b : bool) (what : string) : planned () := if b then Planned tt else Invalid what.

(** ** [utils.h] and [topology.cc] *)

Definition kNoOp : Z := 0xFFFFFFFF.
Definition kNoPairId : Z := 0xFFFFFFFF.

Definition add_dep (ds : list Z) (dep : Z) : list Z :=
  if dep =? kNoOp then ds else if bool_decide (dep ∈ ds) then ds else ds ++ [dep].

Definition ceil_div (a b : Z) : Z := if b =? 0 then 0 else (a +[64] b -[64] 1) / b.

(** [RingTopology]: [%] rounds towards zero. *)
Definition ring_wrap (n r : Z) : Z :=
  if n <=? 0 then 0 else let v := Z.rem r n in if v <? 0 then v + n else v.
Definition ring_next (n r : Z) : Z := ring_wrap n (r + 1).
Definition ring_prev (n r : Z) : Z := ring_wrap n (r - 1).

(** ** Shards and splits *)

Definition balanced_shard_offset_bytes (bytes elem_bytes nranks owner_rank : Z) : Z :=
  let total_elems := bytes / elem_bytes in
  let base_elems := total_elems / nranks in
  let extra_elems := total_elems mod nranks in
  let offset_elems := wrap 64 (owner_rank * base_elems) +[64] Z.min owner_rank extra_elems in
  wrap 64 (offset_elems * elem_bytes).

Definition balanced_shard_size_bytes (bytes elem_bytes nranks owner_rank : Z) : Z :=
  let total_elems := bytes / elem_bytes in
  let base_elems := total_elems / nranks in
  let extra_elems := total_elems mod nranks in
  let shard_elems := base_elems +[64] (if owner_rank <? extra_elems then 1 else 0) in
  wrap 64 (shard_elems * elem_bytes).

Definition equal_alltoall_splits (total_bytes nranks : Z) : list Z :=
  replicate (Z.to_nat nranks) (total_bytes / nranks).

Fixpoint prefix_from (running : Z) (splits : list Z) : list Z :=
  match splits with
  | [] => []
  | s :: splits => running :: prefix_from (running +[64] s) splits
  end.
Definition prefix_bytes (splits : list Z) : list Z := prefix_from 0 splits.

Fixpoint check_splits (which : string) (splits : list Z) (elem_bytes sum : Z) : planned Z :=
  match splits with
  | [] => Planned sum
  | part :: splits =>
      _ ← require (part mod elem_bytes =? 0) ("alltoall " +:+ which +:+ " split bytes must align to dtype size");
      check_splits which splits elem_bytes (sum +[64] part)
  end.

Definition validate_alltoall_splits (splits : list Z) (nranks elem_bytes total_bytes : Z) (which : string) :
    planned () :=
  _ ← require (alen splits =? nranks) ("alltoall " +:+ which +:+ " split count must equal nranks");
  sum ← check_splits which splits elem_bytes 0;
  require (sum =? total_bytes) ("alltoall " +:+ which +:+ " split bytes must sum to tensor bytes").

Definition require_collective_config (c : CollectiveConfig) : planned () :=
  _ ← require (negb (nranks c <? 2)) "collective requires at least two ranks";
  _ ← require (negb ((rank c <? 0) || (nranks c <=? rank c))) "collective rank out of range";
  let elem_bytes := scalar_type_size (dtype c) in
  _ ← require (negb (elem_bytes =? 0)) "collective dtype has invalid element size";
  match kind c with
  | AllReduceRing =>
      _ ← require (negb (input_bytes c =? 0)) "collective input_bytes must be positive";
      require (input_bytes c mod elem_bytes =? 0) "collective input_bytes must be aligned to dtype size"
  | AllToAllPairwise =>
      _ ← require (negb ((input_bytes c =? 0) || (output_bytes c =? 0)))
            "alltoall requires positive input/output tensor bytes";
      _ ← require ((input_bytes c mod elem_bytes =? 0) && (output_bytes c mod elem_bytes =? 0))
            "alltoall input/output tensor bytes must align to dtype size";
      let has_input := negb (bool_decide (input_split_bytes c = [])) in
      let has_output := negb (bool_decide (output_split_bytes c = [])) in
      _ ← require (eqb has_input has_output) "alltoall split configuration must provide both input and output splits";
      if negb has_input then
        let denom := wrap 64 (nranks c * elem_bytes) in
        require ((input_bytes c mod denom =? 0) && (output_bytes c mod denom =? 0))
          "equal-split alltoall requires input/output tensor bytes divisible by nranks * dtype size"
      else
        _ ← validate_alltoall_splits (input_split_bytes c) (nranks c) elem_bytes (input_bytes c) "input";
        validate_alltoall_splits (output_split_bytes c) (nranks c) elem_bytes (output_bytes c) "output"
  end.

Definition make_empty_algo (c : CollectiveConfig) : CollAlgo :=
  MkAlgo AllReduceRing (nranks c) (rank c) (input_bytes c) (output_bytes c) (reduction c) [].

(** The builders set the kind and add operations. *)
Definition filled (k : CollKind) (cs : list Chunk) (a : CollAlgo) : CollAlgo :=
  MkAlgo k (anranks a) (arank a) (ainput_bytes a) (aoutput_bytes a) (areduction a) cs.

(** [ChunkBuilder::add_op] returns the index of the new operation. *)
Definition add_op (k : AlgoOpKind) (bytes src_off dst_off src_rank dst_rank : Z) (deps : list Z) (pair_id : Z)
    (b : list Chunk) : Z * list Chunk :=
  (wrap 32 (alen b), b ++ [MkChunk k bytes src_off dst_off src_rank dst_rank pair_id deps]).

(** ** All-reduce on a ring *)

Section allreduce.
Context (c : CollectiveConfig).
Abbreviation n := (nranks c).
Abbreviation elem := (scalar_type_size (dtype c)).

Definition shard_size (owner : Z) : Z := balanced_shard_size_bytes (input_bytes c) elem n owner.
Definition shard_offset (owner : Z) : Z := balanced_shard_offset_bytes (input_bytes c) elem n owner.

(** The builder: the operations so far and [ready_ops]. *)
Definition builder := (list Chunk * list Z)%type.

(** A step sends a shard to the next rank. *)
Definition send_shard (owner pair : Z) (b : builder) : builder :=
  let '(cs, ready) := b in
  if 0 <? shard_size owner then
    let ds := add_dep [] (default kNoOp (aget ready owner)) in
    let '(_, cs) := add_op Put (shard_size owner) (shard_offset owner) (shard_offset owner)
                      (-1) (ring_next n (rank c)) ds pair cs in
    (cs, ready)
  else (cs, ready).

(** It receives another one from the previous rank and, in the first phase,
    reduces it. *)
Definition recv_shard (reduce : bool) (owner pair : Z) (b : builder) : builder :=
  let '(cs, ready) := b in
  if 0 <? shard_size owner then
    let '(recv_op, cs) := add_op Recv (shard_size owner) (shard_offset owner) (shard_offset owner)
                            (ring_prev n (rank c)) (-1) [] pair cs in
    if reduce then
      let '(reduce_op, cs) := add_op RecvReduce (shard_size owner) (shard_offset owner) (shard_offset owner)
                                (ring_prev n (rank c)) (-1) [recv_op] pair cs in
      (cs, aset ready owner reduce_op)
    else (cs, aset ready owner recv_op)
  else (cs, ready).

Definition reduce_step (b : builder) (ring_step : Z) : builder :=
  let send_owner := ring_wrap n (rank c - ring_step) in
  let recv_owner := ring_wrap n (rank c - ring_step - 1) in
  recv_shard true recv_owner (wrap 32 (recv_owner * 2))
    (send_shard send_owner (wrap 32 (send_owner * 2)) b).

Definition gather_step (b : builder) (ring_step : Z) : builder :=
  let send_owner := ring_wrap n (rank c + 1 - ring_step) in
  let recv_owner := ring_wrap n (rank c - ring_step) in
  recv_shard false recv_owner (wrap 32 (recv_owner * 2 + 1))
    (send_shard send_owner (wrap 32 (send_owner * 2 + 1)) b).

Definition build_allreduce_ring_algo : CollAlgo :=
  let steps := seqZ 0 (n - 1) in
  let b := ([], replicate (Z.to_nat n) kNoOp) in
  let b := foldl gather_step (foldl reduce_step b steps) steps in
  filled AllReduceRing b.1 (make_empty_algo c).
End allreduce.

(** ** All-to-all *)

Section alltoall.
Context (c : CollectiveConfig).

Definition alltoall_peer (ins outs inp outp : list Z) (b : Z * list Chunk) (peer : Z) : Z * list Chunk :=
  let '(next_pair, cs) := b in
  if peer =? rank c then (next_pair, cs)
  else
    let at_ l i := default 0 (aget l i) in
    let cs := if 0 <? at_ ins peer
              then (add_op Put (at_ ins peer) (at_ inp peer) (at_ outp (rank c)) (-1) peer [] next_pair cs).2
              else cs in
    let cs := if 0 <? at_ outs peer
              then (add_op Recv (at_ outs peer) (at_ outp peer) (at_ outp peer) peer (-1) [] next_pair cs).2
              else cs in
    (next_pair +[32] 1, cs).

Definition build_alltoall_pairwise_algo : planned CollAlgo :=
  let ins := if bool_decide (input_split_bytes c = []) then equal_alltoall_splits (input_bytes c) (nranks c)
             else input_split_bytes c in
  let outs := if bool_decide (output_split_bytes c = []) then equal_alltoall_splits (output_bytes c) (nranks c)
              else output_split_bytes c in
  _ ← require (default 0 (aget ins (rank c)) =? default 0 (aget outs (rank c)))
        "alltoall self split size must match between input and output";
  let b := foldl (alltoall_peer ins outs (prefix_bytes ins) (prefix_bytes outs)) (1, []) (seqZ 0 (nranks c)) in
  Planned (filled AllToAllPairwise b.2 (make_empty_algo c)).
End alltoall.

Definition build_coll_algo (c : CollectiveConfig) : planned CollAlgo :=
  _ ← require_collective_config c;
  match kind c with
  | AllReduceRing => Planned (build_allreduce_ring_algo c)
  | AllToAllPairwise => build_alltoall_pairwise_algo c
  end.

(** ** Shards cut the tensor *)

Section shards.
Context (c : CollectiveConfig).
Abbreviation n := (nranks c).
Abbreviation elem := (scalar_type_size (dtype c)).

(** What [require_collective_config] leaves of an all-reduce. *)
Record allreduce_ok : Prop := {
  ok_ranks : 2 <= n < 2 ^ 29;
  ok_rank : 0 <= rank c < n;
  ok_bytes : 0 <= input_bytes c < 2 ^ 64;
  ok_aligned : input_bytes c mod elem = 0;
}.
Context (Hok : allreduce_ok).

Lemma elem_pos : 0 < elem <= 8.
Proof. destruct (dtype c); simpl; lia. Qed.

Definition total : Z := input_bytes c / elem.

Lemma total_bytes : total * elem = input_bytes c /\ 0 <= total.
Proof.
  destruct Hok. pose proof elem_pos. unfold total. split; [|apply Z.div_pos; lia].
  rewrite Z.mul_comm. symmetry. apply Z.div_exact; lia.
Qed.

Lemma total_split : total = n * (total / n) + total mod n /\ 0 <= total mod n < n /\ 0 <= total / n.
Proof.
  destruct Hok, total_bytes. split; [apply Z.div_mod; lia|]. split; [apply Z.mod_pos_bound; lia|apply Z.div_pos; lia].
Qed.

Lemma elem_words x : 0 <= x <= total -> 0 <= x * elem < 2 ^ 64 /\ 0 <= x < 2 ^ 64.
Proof. destruct Hok, total_bytes. pose proof elem_pos. nia. Qed.

Lemma shard_offset_eq i : 0 <= i <= n -> shard_offset c i = (i * (total / n) + Z.min i (total mod n)) * elem.
Proof.
  intros Hi. destruct total_split as (Ht & Hx & Hb). unfold shard_offset, balanced_shard_offset_bytes. fold total.
  assert (0 <= i * (total / n) + Z.min i (total mod n) <= total) as Hr by nia.
  pose proof (elem_words _ Hr). unfold wrap. rewrite (Z.mod_small (i * _)) by nia.
  rewrite (Z.mod_small (_ + Z.min _ _)) by lia. by rewrite (Z.mod_small (_ * elem)) by lia.
Qed.

Lemma shard_size_eq i : 0 <= i < n ->
  shard_size c i = (total / n + if i <? total mod n then 1 else 0) * elem.
Proof.
  intros Hi. destruct total_split as (Ht & Hx & Hb). unfold shard_size, balanced_shard_size_bytes. fold total.
  assert (0 <= total / n + (if i <? total mod n then 1 else 0) <= total) as Hr by (destruct (Z.ltb_spec i (total mod n)); nia).
  pose proof (elem_words _ Hr). unfold wrap. rewrite (Z.mod_small (_ + _)) by lia.
  by rewrite (Z.mod_small (_ * elem)) by lia.
Qed.

Lemma shard_next i : 0 <= i < n -> shard_offset c (i + 1) = shard_offset c i + shard_size c i.
Proof.
  intros Hi. rewrite !shard_offset_eq, shard_size_eq by lia. destruct (Z.ltb_spec i (total mod n)).
  - rewrite !Z.min_l by lia. ring.
  - rewrite !Z.min_r by lia. ring.
Qed.

Lemma shard_first : shard_offset c 0 = 0.
Proof. destruct Hok, total_split as (? & ? & ?). rewrite shard_offset_eq by lia. rewrite Z.min_l by lia. lia. Qed.

Lemma shard_last : shard_offset c n = input_bytes c.
Proof.
  destruct total_split as (Ht & Hx & Hb), total_bytes as [Hb' _]. destruct Hok. rewrite shard_offset_eq by lia.
  rewrite Z.min_r by lia. rewrite <- Hb'. f_equal. lia.
Qed.

Lemma shard_size_pos i : 0 <= i < n -> 0 <= shard_size c i.
Proof. intros Hi. destruct total_split as (? & ? & ?). pose proof elem_pos. rewrite shard_size_eq by done. z_cases; nia. Qed.

Lemma shard_offset_mono i j : 0 <= i <= j -> j <= n -> shard_offset c i <= shard_offset c j.
Proof.
  intros Hi. pattern j. apply Zlt_lower_bound_ind with i; [|lia]. assert (0 <= i) as Hi0 by lia. clear j Hi.
  intros j IH Hj Hn. destruct (decide (i = j)) as [->|]; [done|]. etrans; [apply (IH (j - 1)); lia|].
  pose proof (shard_next (j - 1) ltac:(lia)). pose proof (shard_size_pos (j - 1) ltac:(lia)).
  replace (j - 1 + 1) with j in * by lia. lia.
Qed.

(** The shard of a byte is unique. *)
Lemma shard_disjoint i j x : 0 <= i < n -> 0 <= j < n ->
  shard_offset c i <= x < shard_offset c i + shard_size c i ->
  shard_offset c j <= x < shard_offset c j + shard_size c j -> i = j.
Proof.
  intros Hi Hj. rewrite <- !shard_next by done. intros H1 H2.
  destruct (Z.lt_trichotomy i j) as [|[|]]; [|done|]; exfalso.
  - pose proof (shard_offset_mono (i + 1) j ltac:(lia) ltac:(lia)). lia.
  - pose proof (shard_offset_mono (j + 1) i ltac:(lia) ltac:(lia)). lia.
Qed.

Lemma shard_exists x : 0 <= x < input_bytes c ->
  exists i, 0 <= i < n /\ shard_offset c i <= x < shard_offset c i + shard_size c i.
Proof.
  intros Hx. rewrite <- shard_last in Hx. destruct Hok as [Hn _ _ _].
  assert (forall k, 0 <= k -> k <= n -> x < shard_offset c k ->
    exists i, 0 <= i < n /\ shard_offset c i <= x < shard_offset c i + shard_size c i) as H.
  { intros k Hk. pattern k. apply natlike_ind; [rewrite shard_first; lia| |done]. clear k Hk. intros k Hk IH Hkn Hxk.
    unfold Z.succ in *. destruct (Z.lt_ge_cases x (shard_offset c k)); [apply IH; lia|].
    exists k. rewrite shard_next in Hxk by lia. lia. }
  apply (H n); lia.
Qed.
End shards.

(** ** Positions in a list *)

Section index.
Context {A : Type} `{EqDecision A}.
Implicit Types (k : A) (l : list A).

Fixpoint index_in l k : Z :=
  match l with
  | [] => 0
  | x :: l => if decide (x = k) then 0 else 1 + index_in l k
  end.

Lemma index_in_range l k : k ∈ l -> 0 <= index_in l k < alen l.
Proof.
  induction l as [|x l IH]; [by intros ?%not_elem_of_nil|]. rewrite elem_of_cons, alen_cons. cbn.
  pose proof (alen_nonneg l). destruct (decide (x = k)); [lia|]. intros [->|Hk%IH]; [done|lia].
Qed.

Lemma index_in_app_l l l' k : k ∈ l -> index_in (l ++ l') k = index_in l k.
Proof.
  induction l as [|x l IH]; [by intros ?%not_elem_of_nil|]. rewrite elem_of_cons. cbn.
  destruct (decide (x = k)); [done|]. intros [->|Hk%IH]; [done|lia].
Qed.

Lemma index_in_app_r l l' k : k ∉ l -> index_in (l ++ l') k = alen l + index_in l' k.
Proof.
  induction l as [|x l IH]; [done|]. rewrite not_elem_of_cons, alen_cons. cbn. intros [? Hk%IH].
  destruct (decide (x = k)); [done|lia].
Qed.

Lemma index_in_get l k : k ∈ l -> aget l (index_in l k) = Some k.
Proof.
  induction l as [|x l IH]; [by intros ?%not_elem_of_nil|]. rewrite elem_of_cons. cbn.
  destruct (decide (x = k)) as [->|]; [done|]. intros [->|Hk]; [done|].
  pose proof (index_in_range _ _ Hk). rewrite Z.add_comm, aget_cons_S by lia. auto.
Qed.

Lemma index_in_unique l k i : NoDup l -> 0 <= i -> aget l i = Some k -> index_in l k = i.
Proof.
  intros Hnd Hi Hk. assert (k ∈ l) as Hin by by eapply list_elem_of_lookup_2.
  pose proof (index_in_get l k Hin) as Hg. pose proof (index_in_range l k Hin).
  unfold aget in *. pose proof (NoDup_lookup _ _ _ _ Hnd Hk Hg). lia.
Qed.
End index.

(** ** The plan of an all-reduce in closed form *)

(** The operations of a rank: the phase (reduce or gather) and the shard. *)
Inductive ckey := CPut (gather : bool) (s : Z) | CRecv (gather : bool) (s : Z) | CRed (s : Z).

#[export] Instance ckey_eq_dec : EqDecision ckey.
Proof. solve_decision. Defined.

Section plan.
Context (c : CollectiveConfig) (Hok : allreduce_ok c).
Abbreviation n := (nranks c).
Abbreviation r := (rank c).

(** How far the shard has travelled from its owner. *)
Definition dist (s : Z) : Z := (r - s) mod n.

Definition pair_of (gather : bool) (s : Z) : Z := 2 * s + if gather then 1 else 0.

(** What an operation waits for. *)
Definition cdeps (k : ckey) : list ckey :=
  match k with
  | CPut false s => if dist s =? 0 then [] else [CRed s]
  | CPut true s => if dist s =? n - 1 then [CRed s] else [CRecv true s]
  | CRecv _ _ => []
  | CRed s => [CRecv false s]
  end.

Definition chunk_spec (idx : ckey -> Z) (k : ckey) : Chunk :=
  let ds := map idx (cdeps k) in
  let mk o s from to g := MkChunk o (shard_size c s) (shard_offset c s) (shard_offset c s) from to (pair_of g s) ds in
  match k with
  | CPut g s => mk Put s (-1) (ring_next n r) g
  | CRecv g s => mk Recv s (ring_prev n r) (-1) g
  | CRed s => mk RecvReduce s (ring_prev n r) (-1) false
  end.

(** The operations of a step. *)
Definition if_any (s : Z) (l : list ckey) : list ckey := if 0 <? shard_size c s then l else [].
Definition reduce_keys (k : Z) : list ckey :=
  let s := (r - k) mod n in let t := (r - k - 1) mod n in
  if_any s [CPut false s] ++ if_any t [CRecv false t; CRed t].
Definition gather_keys (k : Z) : list ckey :=
  let s := (r + 1 - k) mod n in let t := (r - k) mod n in
  if_any s [CPut true s] ++ if_any t [CRecv true t].
Definition plan_keys : list ckey :=
  (seqZ 0 (n - 1) ≫= reduce_keys) ++ (seqZ 0 (n - 1) ≫= gather_keys).

(** What the builder has after the operations [L]; [rk] gives the operation after
    which a shard may be sent on. *)
Record built (L : list ckey) (rk : Z -> option ckey) (b : builder) : Prop := {
  b_nodup : NoDup L;
  b_chunks : b.1 = map (chunk_spec (index_in L)) L;
  b_closed : forall k, k ∈ L -> Forall (fun d => d ∈ L) (cdeps k);
  b_ready : alen b.2 = n /\ forall s, 0 <= s < n -> 0 < shard_size c s ->
    match rk s with
    | Some k => k ∈ L /\ aget b.2 s = Some (index_in L k)
    | None => aget b.2 s = Some kNoOp
    end;
}.

Lemma ring_wrap_mod x : ring_wrap n x = x mod n.
Proof.
  destruct Hok as [Hn _ _ _]. unfold ring_wrap. rewrite (proj2 (Z.leb_gt n 0)) by lia.
  pose proof (Z.rem_bound_abs x n ltac:(lia)) as Hr. pose proof (Z.quot_rem' x n).
  destruct (Z.ltb_spec (Z.rem x n) 0).
  - apply Z.mod_unique with (Z.quot x n - 1); nia.
  - apply Z.mod_unique with (Z.quot x n); nia.
Qed.

(** An extension of the list changes no earlier chunk. *)
Lemma chunk_spec_ext L L' k : Forall (fun d => d ∈ L) (cdeps k) ->
  chunk_spec (index_in (L ++ L')) k = chunk_spec (index_in L) k.
Proof.
  intros Hd. assert (map (index_in (L ++ L')) (cdeps k) = map (index_in L) (cdeps k)) as E.
  { induction Hd as [|d ds Hd _ IH]; [done|]. cbn. rewrite IH. f_equal. by apply index_in_app_l. }
  unfold chunk_spec. by rewrite E.
Qed.

Lemma built_snoc L rk rk' cs ready ready' k :
  built L rk (cs, ready) -> k ∉ L -> Forall (fun d => d ∈ L) (cdeps k) ->
  alen ready' = n ->
  (forall s, 0 <= s < n -> 0 < shard_size c s ->
    (rk' s = rk s /\ aget ready' s = aget ready s) \/ (rk' s = Some k /\ aget ready' s = Some (alen L))) ->
  built (L ++ [k]) rk' (cs ++ [chunk_spec (index_in L) k], ready').
Proof.
  intros [H1 H2 H3 [H4 H5]] Hk Hd Hl Hr. split; cbn in *.
  - apply NoDup_app. split; [done|]. split; [set_solver|apply NoDup_singleton].
  - rewrite map_app, H2. cbn. f_equal; [|by rewrite chunk_spec_ext].
    apply map_ext_in. intros k' Hk'. symmetry. apply chunk_spec_ext, H3. by apply list_elem_of_In.
  - intros k' [Hk'|Hk']%elem_of_app; (eapply Forall_impl; [|intros d Hd'; apply elem_of_app; left; exact Hd']);
      [by apply H3|]. by apply list_elem_of_singleton in Hk' as ->.
  - split; [done|]. intros s Hs Hz. specialize (H5 s Hs Hz). destruct (Hr s Hs Hz) as [[-> ->]|[-> ->]].
    + destruct (rk s) as [k'|]; [|done]. destruct H5 as [? ->]. split; [set_solver|]. by rewrite index_in_app_l.
    + split; [set_solver|]. rewrite index_in_app_r by done. cbn. rewrite decide_True by done. f_equal. lia.
Qed.

Lemma built_rk L rk rk' b :
  built L rk b -> (forall s, 0 <= s < n -> 0 < shard_size c s -> rk' s = rk s) -> built L rk' b.
Proof.
  intros [H1 H2 H3 [H4 H5]] Hr. split; try done. split; [done|]. intros s Hs Hz. rewrite Hr by done. by apply H5.
Qed.

Lemma pair_of_word g s : 0 <= s < n -> wrap 32 (s * 2 + if g : bool then 1 else 0) = pair_of g s.
Proof.
  intros Hs. destruct Hok as [Hn _ _ _]. unfold pair_of. rewrite Z.mul_comm. apply Z.mod_small. destruct g; lia.
Qed.

Lemma send_built L rk b g s :
  built L rk b -> 0 <= s < n -> CPut g s ∉ L -> alen L < kNoOp ->
  (0 < shard_size c s -> option_list (rk s) = cdeps (CPut g s)) ->
  built (L ++ if_any s [CPut g s]) rk (send_shard c s (pair_of g s) b).
Proof.
  intros Hb Hs Hk Hl Hd. destruct b as [cs ready]. unfold send_shard, if_any.
  destruct (Z.ltb_spec 0 (shard_size c s)) as [Hz|]; [|by rewrite app_nil_r].
  pose proof (b_ready _ _ _ Hb) as [Hn Hr]. specialize (Hr s Hs Hz). specialize (Hd Hz). cbn in Hn, Hr.
  assert (add_dep [] (default kNoOp (aget ready s)) = map (index_in L) (cdeps (CPut g s))) as ->.
  { rewrite <- Hd. destruct (rk s) as [k|]; cbn.
    - destruct Hr as [Hin ->]. pose proof (index_in_range _ _ Hin). unfold add_dep. cbn.
      by rewrite (proj2 (Z.eqb_neq _ _)) by lia.
    - by rewrite Hr. }
  apply (built_snoc L rk rk cs ready ready (CPut g s)); try done; [|by auto].
  rewrite <- Hd. destruct (rk s); constructor; [by destruct Hr|constructor].
Qed.

(** The operation after which a received shard may be sent on. *)
Definition landed (g : bool) (s : Z) : ckey := if g then CRecv true s else CRed s.

Lemma recv_built L rk b g s :
  built L rk b -> 0 <= s < n -> CRecv g s ∉ L -> (g = false -> CRed s ∉ L) -> alen L + 1 < 2 ^ 32 ->
  built (L ++ if_any s (CRecv g s :: if g then [] else [CRed s]))
    (fun x => if x =? s then Some (landed g s) else rk x) (recv_shard c (negb g) s (pair_of g s) b).
Proof.
  intros Hb Hs Hk Hk' Hl. destruct b as [cs ready]. unfold recv_shard, if_any.
  destruct (Z.ltb_spec 0 (shard_size c s)) as [Hz|Hz]; cycle 1.
  { rewrite app_nil_r. eapply built_rk; [exact Hb|]. cbn. intros x Hx Hxz.
    rewrite (proj2 (Z.eqb_neq x s)); [done|]. intros ->. lia. }
  pose proof (b_ready _ _ _ Hb) as [Hn _]. cbn in Hn. pose proof (alen_nonneg L).
  assert (alen cs = alen L) as El.
  { pose proof (b_chunks _ _ _ Hb) as E. cbn in E. rewrite E. unfold alen. by rewrite length_map. }
  unfold add_op. rewrite El, (wrap_id 32 (alen L)) by (unfold in_word; lia).
  assert (forall i x, 0 <= x < n -> (x = s /\ aget (aset ready s i) x = Some i) \/
    (x <> s /\ aget (aset ready s i) x = aget ready x)) as Ha.
  { intros i x Hx. destruct (decide (x = s)) as [->|]; [left|right]; (split; [done|]);
      [apply aget_aset_eq|apply aget_aset_ne]; lia. }
  destruct g; cbn [negb landed].
  - apply (built_snoc L rk _ cs ready _ (CRecv true s)); try done; [by rewrite alen_aset|].
    intros x Hx _. destruct (Ha (alen L) x Hx) as [[-> ->]|[? ->]]; [right; by rewrite Z.eqb_refl|left].
    by rewrite (proj2 (Z.eqb_neq x s)).
  - change [CRecv false s; CRed s] with ([CRecv false s] ++ [CRed s]). rewrite app_assoc.
    rewrite alen_app, El, alen_cons, alen_nil, (wrap_id 32) by (unfold in_word; lia).
    assert (built (L ++ [CRecv false s]) rk (cs ++ [chunk_spec (index_in L) (CRecv false s)], ready)) as Hb1.
    { apply (built_snoc L rk _ cs ready _ (CRecv false s)); try done. by auto. }
    assert ([alen L] = map (index_in (L ++ [CRecv false s])) (cdeps (CRed s))) as ->.
    { cbn. rewrite index_in_app_r by done. cbn. rewrite decide_True by done. f_equal. lia. }
    apply (built_snoc _ _ _ _ _ _ (CRed s) Hb1).
    + rewrite not_elem_of_app, list_elem_of_singleton. split; [by apply Hk'|done].
    + repeat constructor. set_solver.
    + by rewrite alen_aset.
    + intros x Hx _. replace (alen (L ++ [CRecv false s])) with (alen L + (0 + 1)) by (by rewrite alen_app).
      destruct (Ha (alen L + (0 + 1)) x Hx) as [[-> ->]|[? ->]]; [right; by rewrite Z.eqb_refl|left].
      by rewrite (proj2 (Z.eqb_neq x s)).
Qed.

(** Positions on the ring. *)
Lemma dist_step k : 0 <= k < n -> dist ((r - k) mod n) = k.
Proof.
  intros Hk. unfold dist. rewrite Zminus_mod_idemp_r. replace (r - (r - k)) with k by lia. by apply Z.mod_small.
Qed.
Lemma dist_range s : 0 <= dist s < n.
Proof. destruct Hok. apply Z.mod_pos_bound. lia. Qed.
Lemma owner_range x : 0 <= x mod n < n.
Proof. destruct Hok. apply Z.mod_pos_bound. lia. Qed.
Lemma dist_owner s : 0 <= s < n -> (r - dist s) mod n = s.
Proof.
  intros Hs. unfold dist. rewrite Zminus_mod_idemp_r. replace (r - (r - s)) with s by lia. by apply Z.mod_small.
Qed.
Lemma dist_eq s k : 0 <= s < n -> 0 <= k < n -> dist s = k <-> s = (r - k) mod n.
Proof. intros Hs Hk. split; [intros <-; by rewrite dist_owner|intros ->; by apply dist_step]. Qed.

Lemma elem_of_if_any k s l : k ∈ if_any s l <-> 0 < shard_size c s /\ k ∈ l.
Proof. unfold if_any. destruct (Z.ltb_spec 0 (shard_size c s)); [tauto|]. rewrite elem_of_nil. lia. Qed.

(** Which operations the first [m] steps of a phase have. *)
Definition in_reduce (m : Z) (k : ckey) : Prop :=
  match k with
  | CPut false s => 0 <= s < n /\ 0 < shard_size c s /\ dist s < m
  | CRecv false s | CRed s => 0 <= s < n /\ 0 < shard_size c s /\ 1 <= dist s <= m
  | _ => False
  end.
Definition in_gather (m : Z) (k : ckey) : Prop :=
  match k with
  | CPut true s => 0 <= s < n /\ 0 < shard_size c s /\ (dist s + 1) mod n < m
  | CRecv true s => 0 <= s < n /\ 0 < shard_size c s /\ dist s < m
  | _ => False
  end.

Lemma dist_succ s k : 0 <= s < n -> 0 <= k < n -> (dist s + 1) mod n = k <-> s = (r + 1 - k) mod n.
Proof.
  intros Hs Hk. unfold dist. rewrite Zplus_mod_idemp_l. split.
  - intros <-. rewrite Zminus_mod_idemp_r. replace (r + 1 - (r - s + 1)) with s by lia. by rewrite Z.mod_small.
  - intros ->. rewrite <- Zplus_mod_idemp_l, Zminus_mod_idemp_r, Zplus_mod_idemp_l.
    replace (r - (r + 1 - k) + 1) with k by lia. by apply Z.mod_small.
Qed.

Lemma reduce_keys_in m k : 0 <= m <= n - 1 -> k ∈ seqZ 0 m ≫= reduce_keys <-> in_reduce m k.
Proof.
  intros Hm. rewrite list_elem_of_bind. setoid_rewrite elem_of_seqZ. unfold reduce_keys.
  setoid_rewrite elem_of_app. setoid_rewrite elem_of_if_any. split.
  - intros (j & [[Hz Hk]|[Hz Hk]] & Hj).
    + apply list_elem_of_singleton in Hk as ->. cbn. pose proof (owner_range (r - j)). rewrite dist_step by lia. lia.
    + replace (r - j - 1) with (r - (j + 1)) in * by lia. pose proof (owner_range (r - (j + 1))).
      apply elem_of_cons in Hk as [->|Hk]; [|apply list_elem_of_singleton in Hk as ->]; cbn; rewrite dist_step by lia; lia.
  - destruct k as [[] s|[] s|s]; cbn; try done; intros (Hs & Hz & Hd); pose proof (dist_range s).
    + exists (dist s). rewrite dist_owner by done. split; [left; set_solver|lia].
    + exists (dist s - 1). replace (r - (dist s - 1) - 1) with (r - dist s) by lia. rewrite dist_owner by done.
      split; [right; set_solver|lia].
    + exists (dist s - 1). replace (r - (dist s - 1) - 1) with (r - dist s) by lia. rewrite dist_owner by done.
      split; [right; set_solver|lia].
Qed.

Lemma gather_keys_in m k : 0 <= m <= n - 1 -> k ∈ seqZ 0 m ≫= gather_keys <-> in_gather m k.
Proof.
  intros Hm. rewrite list_elem_of_bind. setoid_rewrite elem_of_seqZ. unfold gather_keys.
  setoid_rewrite elem_of_app. setoid_rewrite elem_of_if_any. split.
  - intros (j & [[Hz Hk]|[Hz Hk]] & Hj); apply list_elem_of_singleton in Hk as ->; cbn.
    + pose proof (owner_range (r + 1 - j)) as Ho. rewrite (proj2 (dist_succ _ j Ho ltac:(lia))) by done. lia.
    + pose proof (owner_range (r - j)). rewrite dist_step by lia. lia.
  - destruct k as [[] s|[] s|s]; cbn; try done; intros (Hs & Hz & Hd); pose proof (dist_range s).
    + pose proof (owner_range (dist s + 1)) as Ho. exists ((dist s + 1) mod n).
      rewrite <- (proj1 (dist_succ s _ Hs Ho) eq_refl). split; [left; set_solver|lia].
    + exists (dist s). rewrite dist_owner by done. split; [right; set_solver|lia].
Qed.

Definition rk_reduce (m s : Z) : option ckey := if (1 <=? dist s) && (dist s <=? m) then Some (CRed s) else None.
Definition rk_gather (m s : Z) : option ckey := if dist s <? m then Some (CRecv true s) else rk_reduce (n - 1) s.

Lemma if_any_len s l : alen (if_any s l) <= alen l.
Proof. unfold if_any. destruct (0 <? _); [done|]. rewrite alen_nil. apply alen_nonneg. Qed.

Lemma steps_len f m w : 0 <= m -> (forall k, alen (f k : list ckey) <= w) -> alen (seqZ 0 m ≫= f) <= w * m.
Proof.
  intros Hm Hf. pattern m. apply natlike_ind; [change (0 <= w * 0); lia| |done]. clear m Hm. intros m Hm IH.
  unfold Z.succ. rewrite seqZ_snoc, bind_app, alen_app by done. cbn. rewrite app_nil_r. specialize (Hf m). lia.
Qed.

Lemma reduce_len k : alen (reduce_keys k) <= 3.
Proof.
  unfold reduce_keys. rewrite alen_app.
  pose proof (if_any_len ((r - k) mod n) [CPut false ((r - k) mod n)]).
  pose proof (if_any_len ((r - k - 1) mod n) [CRecv false ((r - k - 1) mod n); CRed ((r - k - 1) mod n)]).
  rewrite !alen_cons, !alen_nil in *. lia.
Qed.

Lemma gather_len k : alen (gather_keys k) <= 2.
Proof.
  unfold gather_keys. rewrite alen_app.
  pose proof (if_any_len ((r + 1 - k) mod n) [CPut true ((r + 1 - k) mod n)]).
  pose proof (if_any_len ((r - k) mod n) [CRecv true ((r - k) mod n)]).
  rewrite !alen_cons, !alen_nil in *. lia.
Qed.

Lemma reduce_built m : 0 <= m <= n - 1 ->
  built (seqZ 0 m ≫= reduce_keys) (rk_reduce m)
    (foldl (reduce_step c) ([], replicate (Z.to_nat n) kNoOp) (seqZ 0 m)).
Proof.
  intros [Hm Hmn]. revert Hmn. pattern m. apply natlike_ind; [| |done]; clear m Hm.
  { intros _. change (seqZ 0 0) with (@nil Z). split; cbn; [constructor|done|set_solver|]. destruct Hok as [Hn _ _ _]. split.
    - unfold alen. rewrite length_replicate. lia.
    - intros s Hs _. pose proof (dist_range s). unfold rk_reduce.
      destruct ((1 <=? dist s) && (dist s <=? 0)) eqn:E; [lia|]. unfold aget. apply lookup_replicate. lia. }
  intros m Hm IH Hmn. unfold Z.succ in *. specialize (IH ltac:(lia)). rewrite seqZ_snoc by done.
  rewrite foldl_app, bind_app. cbn [foldl]. cbn [mbind list_bind]. rewrite app_nil_r. unfold reduce_step.
  rewrite !ring_wrap_mod.
  pose proof (owner_range (r - m)) as Ho1. pose proof (owner_range (r - m - 1)) as Ho2.
  pose proof (dist_step m ltac:(lia)) as Hd1. pose proof (dist_step (m + 1) ltac:(lia)) as Hd2.
  replace (r - (m + 1)) with (r - m - 1) in Hd2 by lia.
  pose proof (steps_len reduce_keys m 3 Hm reduce_len) as Hlen. pose proof (ok_ranks _ Hok) as Hn.
  pose proof (pair_of_word false _ Ho1) as Hp1. pose proof (pair_of_word false _ Ho2) as Hp2. rewrite Z.add_0_r in Hp1, Hp2.
  rewrite Hp1, Hp2. unfold reduce_keys at 2. rewrite app_assoc.
  eapply built_rk; [apply (recv_built _ (rk_reduce m) _ false)|]; try done.
  - apply send_built; try done.
    + rewrite reduce_keys_in by lia. cbn. rewrite Hd1. lia.
    + unfold kNoOp. lia.
    + intros _. cbn. unfold rk_reduce. rewrite Hd1. destruct (Z.eqb_spec m 0) as [->|]; [done|].
      by rewrite (proj2 (Z.leb_le 1 m)), Z.leb_refl by lia.
  - rewrite elem_of_app, reduce_keys_in, elem_of_if_any by lia. cbn. rewrite Hd2. set_solver by lia.
  - intros _. rewrite elem_of_app, reduce_keys_in, elem_of_if_any by lia. cbn. rewrite Hd2. set_solver by lia.
  - rewrite alen_app. pose proof (if_any_len ((r - m) mod n) [CPut false ((r - m) mod n)]).
    rewrite alen_cons, alen_nil in *. lia.
  - intros s Hs Hz. cbn. unfold rk_reduce. destruct (Z.eqb_spec s ((r - m - 1) mod n)) as [->|Hne].
    + rewrite Hd2. by rewrite (proj2 (Z.leb_le 1 (m + 1))), Z.leb_refl by lia.
    + assert (dist s <> m + 1) as Hd by (intros E%dist_eq; [|lia..]; apply Hne; rewrite E; f_equal; lia).
      z_cases; try done; lia.
Qed.

Lemma gather_built m : 0 <= m <= n - 1 ->
  built ((seqZ 0 (n - 1) ≫= reduce_keys) ++ (seqZ 0 m ≫= gather_keys)) (rk_gather m)
    (foldl (gather_step c) (foldl (reduce_step c) ([], replicate (Z.to_nat n) kNoOp) (seqZ 0 (n - 1))) (seqZ 0 m)).
Proof.
  intros [Hm Hmn]. revert Hmn. pattern m. apply natlike_ind; [| |done]; clear m Hm.
  { intros Hmn. change (seqZ 0 0) with (@nil Z). cbn [foldl]. rewrite app_nil_r.
    eapply built_rk; [apply reduce_built; lia|]. intros s Hs _. unfold rk_gather. pose proof (dist_range s).
    by rewrite (proj2 (Z.ltb_ge _ _)) by lia. }
  intros m Hm IH Hmn. unfold Z.succ in *. specialize (IH ltac:(lia)). rewrite seqZ_snoc by done.
  rewrite foldl_app, bind_app. cbn [foldl]. cbn [mbind list_bind]. rewrite app_nil_r. unfold gather_step.
  rewrite !ring_wrap_mod.
  pose proof (owner_range (r + 1 - m)) as Ho1. pose proof (owner_range (r - m)) as Ho2.
  pose proof (proj2 (dist_succ _ m Ho1 ltac:(lia)) eq_refl) as Hd1. pose proof (dist_step m ltac:(lia)) as Hd2.
  pose proof (steps_len reduce_keys (n - 1) 3 ltac:(lia) reduce_len) as Hlen1.
  pose proof (steps_len gather_keys m 2 Hm gather_len) as Hlen2. pose proof (ok_ranks _ Hok) as Hn.
  rewrite (pair_of_word true _ Ho1), (pair_of_word true _ Ho2). unfold gather_keys at 2.
  rewrite (app_assoc (seqZ 0 m ≫= gather_keys)), !(app_assoc (seqZ 0 (n - 1) ≫= reduce_keys)).
  eapply built_rk; [apply (recv_built _ (rk_gather m) _ true)|]; try done.
  - apply send_built; try done.
    + rewrite elem_of_app, reduce_keys_in, gather_keys_in by lia. cbn. rewrite Hd1. lia.
    + rewrite alen_app. unfold kNoOp. lia.
    + intros _. cbn. unfold rk_gather, rk_reduce. pose proof (dist_range ((r + 1 - m) mod n)) as Hr.
      destruct (Z.eqb_spec (dist ((r + 1 - m) mod n)) (n - 1)) as [E|E].
      * rewrite E in *. replace (n - 1 + 1) with (1 * n) in Hd1 by lia. rewrite Z.mod_mul in Hd1 by lia.
        by rewrite (proj2 (Z.ltb_ge (n - 1) m)), (proj2 (Z.leb_le 1 (n - 1))), Z.leb_refl by lia.
      * rewrite Z.mod_small in Hd1 by lia. by rewrite (proj2 (Z.ltb_lt _ m)) by lia.
  - rewrite !elem_of_app, reduce_keys_in, gather_keys_in, elem_of_if_any by lia. cbn. rewrite Hd2. set_solver by lia.
  - rewrite !alen_app. pose proof (if_any_len ((r + 1 - m) mod n) [CPut true ((r + 1 - m) mod n)]).
    rewrite alen_cons, alen_nil in *. lia.
  - intros s Hs Hz. cbn. unfold rk_gather. destruct (Z.eqb_spec s ((r - m) mod n)) as [->|Hne].
    + rewrite Hd2. by rewrite (proj2 (Z.ltb_lt m (m + 1))) by lia.
    + assert (dist s <> m) as Hd by (intros E%dist_eq; [|lia..]; by apply Hne).
      destruct (Z.ltb_spec (dist s) (m + 1)), (Z.ltb_spec (dist s) m); try done; lia.
Qed.

(** The operations of a rank: a shard that has travelled [d] steps is sent unless
    it is complete, received and reduced unless it is the rank's own; a complete
    shard is sent unless it has been everywhere, and received by all but the rank
    that completed it. *)
Definition in_plan (k : ckey) : Prop := in_reduce (n - 1) k \/ in_gather (n - 1) k.

Lemma plan_keys_in k : k ∈ plan_keys <-> in_plan k.
Proof. pose proof (ok_ranks _ Hok). unfold plan_keys. rewrite elem_of_app, reduce_keys_in, gather_keys_in by lia. done. Qed.

Lemma allreduce_built : built plan_keys (rk_gather (n - 1))
  (foldl (gather_step c) (foldl (reduce_step c) ([], replicate (Z.to_nat n) kNoOp) (seqZ 0 (n - 1))) (seqZ 0 (n - 1))).
Proof. pose proof (ok_ranks _ Hok). apply gather_built. lia. Qed.

Lemma allreduce_plan : chunks (build_allreduce_ring_algo c) = map (chunk_spec (index_in plan_keys)) plan_keys.
Proof. apply (b_chunks _ _ _ allreduce_built). Qed.

Lemma plan_keys_nodup : NoDup plan_keys.
Proof. apply (b_nodup _ _ _ allreduce_built). Qed.

Lemma cdeps_in_plan k : k ∈ plan_keys -> Forall (fun d => d ∈ plan_keys) (cdeps k).
Proof. apply (b_closed _ _ _ allreduce_built). Qed.
End plan.
End ChunkGraph.
