(* ===== verification/Lower.v ===== *)
(** * Lowering chunk graphs to tiles

    [experimental/ukernel/src/ccl/lower.cc]: every chunk is cut into tiles, the
    dependencies of chunks become dependencies of tiles with the same index, and
    the operations of the planner become those of the executor: a [Put] is
    followed by a [Signal] for every group of tiles, a [Recv] becomes a
    [WaitSignal] for every group, a [RecvReduce] a [Reduce]. *)

From S2P Require Import Prelude ChunkGraph.

Module Lower.
Import ChunkGraph.

(** ** Data of [coll_types.h] *)

Inductive ExecOpKind := EPut | Reduce | Signal | WaitSignal.
Inductive CollectiveBufferRole := Input | Output | Scratch.

#[export] Instance ExecOpKind_eq_dec : EqDecision ExecOpKind.
Proof. solve_decision. Defined.
#[export] Instance Role_eq_dec : EqDecision CollectiveBufferRole.
Proof. solve_decision. Defined.

Record Op := MkOp {
  okind : AlgoOpKind;
  obytes : Z;
  osrc_off : Z;
  odst_off : Z;
  osrc_peer : Z;
  odst_peer : Z;
  odeps : list Z;
}.

Record TiledOp := MkTiled {
  tkind : ExecOpKind;
  tbytes : Z;
  tsrc_off : Z;
  tdst_off : Z;
  tsrc_peer : Z;
  tdst_peer : Z;
  ttag : Z;
  tdeps : list Z;
  src_buf_role : CollectiveBufferRole;
  dst_buf_role : CollectiveBufferRole;
}.

Definition set_tdeps (ds : list Z) (o : TiledOp) : TiledOp :=
  MkTiled (tkind o) (tbytes o) (tsrc_off o) (tdst_off o) (tsrc_peer o) (tdst_peer o) (ttag o) ds
    (src_buf_role o) (dst_buf_role o).

(** A default [TiledOp] of kind [k] with its peers and tag. *)
Definition signal_op (k : ExecOpKind) (src dst tag : Z) : TiledOp :=
  MkTiled k 0 0 0 src dst tag [] Input Output.

(** A local copy or reduction. *)
Definition local_op (k : ExecOpKind) (bytes src dst : Z) (from to : CollectiveBufferRole) (ds : list Z) : TiledOp :=
  MkTiled k bytes src dst 0xFFFFFFFF 0xFFFFFFFF 0 ds from to.

Record TiledResult := MkResult {
  ops : list TiledOp;
  staging_bytes_required : Z;
  rinput_bytes : Z;
  routput_bytes : Z;
  rrank : Z;
  rnranks : Z;
  rreduction : ReductionKind;
  fused_put_signal : list (Z * Z);
  sig_group_size : list (Z * Z);
  wait_group_size : list (Z * Z);
}.

(** ** Tiles *)

Definition peer_word (r : Z) : Z := if r <? 0 then 0xFFFFFFFF else wrap 32 r.

Fixpoint tiles_from (c : Chunk) (tile_bytes : Z) (k : nat) (off : Z) : list Op :=
  match k with
  | O => []
  | S k =>
      MkOp (op c) (Z.min tile_bytes (bytes c -[64] off)) (src_off c +[64] off) (dst_off c +[64] off)
        (peer_word (src_rank c)) (peer_word (dst_rank c)) []
      :: tiles_from c tile_bytes k (off +[64] tile_bytes)
  end.

Definition num_tiles (tile_bytes : Z) (c : Chunk) : Z := ceil_div (bytes c) tile_bytes.

(** The tiles of all chunks; where those of each chunk begin; how many it has. *)
Definition tile_chunks (cs : list Chunk) (tile_bytes : Z) : list Op * list Z * list Z :=
  foldl (fun '(os, first, nts) c =>
      let nt := num_tiles tile_bytes c in
      (os ++ tiles_from c tile_bytes (Z.to_nat nt) 0, first ++ [alen os], nts ++ [nt]))
    ([], [], []) cs.

Definition at_ (l : list Z) (i : Z) : Z := default 0 (aget l i).

Definition push_dep (i d : Z) (os : list Op) : list Op :=
  match aget os i with
  | Some o => aset os i (MkOp (okind o) (obytes o) (osrc_off o) (odst_off o) (osrc_peer o) (odst_peer o) (odeps o ++ [d]))
  | None => os
  end.

Definition chunk_deps (first nts : list Z) (i : Z) (os : list Op) (dep : Z) : list Op :=
  foldl (fun os t => push_dep (at_ first i + t) (wrap 32 (at_ first dep + t)) os) os
    (seqZ 0 (Z.min (at_ nts i) (at_ nts dep))).

Definition propagate_deps (cs : list Chunk) (first nts : list Z) (os : list Op) : list Op :=
  foldl (fun os '(i, c) => foldl (chunk_deps first nts i) os (deps c)) os (imap (fun i c => (Z.of_nat i, c)) cs).

Definition make_tag (pair tile_idx : Z) : Z := Z.lor (wrap 64 (Z.shiftl pair 16)) tile_idx.

Definition op_to_tiled (o : Op) : TiledOp :=
  MkTiled EPut (obytes o) (osrc_off o) (odst_off o) (osrc_peer o) (odst_peer o) 0 (odeps o) Input Output.

(** ** Lowering *)

(** What the loop over the chunks updates. *)
Record lowering := MkLow {
  out : list TiledOp;
  old_to_new : list Z;
  new_deps : list (Z * Z);
  staging_bytes : Z;
  staging_bytes_out : Z;
  put_signal : list (Z * Z);
  sig_groups : list (Z * Z);
  wait_groups : list (Z * Z);
}.

(** What the loop over the tiles of a chunk updates besides. *)
Record local := MkLocal {
  cp_indices : list Z;
  put_indices : list Z;
  snap_cp_indices : list Z;
  sig_group_puts : list Z;
  cur_group_ws : Z;
  chunk_staging : Z;
}.
Definition fresh_local : local := MkLocal [] [] [] [] kNoOp 0.

Definition next_idx (l : lowering) : Z := wrap 32 (alen (out l)).
Definition emit (o : TiledOp) (l : lowering) : lowering :=
  MkLow (out l ++ [o]) (old_to_new l) (new_deps l) (staging_bytes l) (staging_bytes_out l)
    (put_signal l) (sig_groups l) (wait_groups l).
Definition becomes (old new : Z) (l : lowering) : lowering :=
  MkLow (out l) (aset (old_to_new l) old new) (new_deps l) (staging_bytes l) (staging_bytes_out l)
    (put_signal l) (sig_groups l) (wait_groups l).
Definition depend (ds : list (Z * Z)) (l : lowering) : lowering :=
  MkLow (out l) (old_to_new l) (new_deps l ++ ds) (staging_bytes l) (staging_bytes_out l)
    (put_signal l) (sig_groups l) (wait_groups l).

Section lower.
Context (inplace stage_puts reduce_snap_hs : bool) (signal_group_tiles : Z).

Definition G : Z := if signal_group_tiles =? 0 then 1 else signal_group_tiles.

Definition fits_imm (tag : Z) : bool := tag <=? 0xFFFFFFFF.

(** The end of a [Put]: the signal of its group if it is the last one. *)
Definition signal_group (ch : Chunk) (nt t : Z) (o : Op) (lo : local) (l : lowering) : local * lowering :=
  if (t mod G =? G - 1) || (t + 1 =? nt) then
    let tag := make_tag (pair_id ch) (t / G) in
    let sig := next_idx l in
    let l := emit (signal_op Signal 0 (odst_peer o) tag) (depend (map (pair sig) (sig_group_puts lo)) l) in
    let l := if fits_imm tag
             then MkLow (out l) (old_to_new l) (new_deps l) (staging_bytes l) (staging_bytes_out l)
                    (put_signal l ++ map (pair sig) (sig_group_puts lo))
                    (sig_groups l ++ [(sig, wrap 32 (alen (sig_group_puts lo)))]) (wait_groups l)
             else l in
    (MkLocal (cp_indices lo) (put_indices lo) (snap_cp_indices lo) [] (cur_group_ws lo) (chunk_staging lo), l)
  else (lo, l).

(** A staged [Put]: a copy to scratch memory, then the [Put] from there. *)
Definition lower_staged_put (old : Z) (o : Op) (lo : local) (l : lowering) : local * lowering :=
  let staging_off := chunk_staging lo in
  let cp := next_idx l in
  let l := emit (local_op EPut (obytes o) (osrc_off o) staging_off Input Scratch (odeps o)) l in
  let put := next_idx l in
  let l := emit (MkTiled EPut (obytes o) staging_off (odst_off o) 0xFFFFFFFF (odst_peer o) 0 [] Scratch Output)
             (becomes old put l) in
  (MkLocal (cp_indices lo ++ [cp]) (put_indices lo ++ [put]) (snap_cp_indices lo) (sig_group_puts lo ++ [put])
     (cur_group_ws lo) (chunk_staging lo +[64] obytes o), depend [(put, cp)] l).

Definition lower_put (old : Z) (o : Op) (lo : local) (l : lowering) : local * lowering :=
  let put := next_idx l in
  let p := op_to_tiled o in
  let from := if negb (bool_decide (odeps o = [])) && (osrc_peer o =? 0xFFFFFFFF) then Output else Input in
  let p := MkTiled (tkind p) (tbytes p) (tsrc_off p) (tdst_off p) (tsrc_peer p) (tdst_peer p) (ttag p)
             (tdeps p) from (dst_buf_role p) in
  (MkLocal (cp_indices lo) (put_indices lo ++ [put]) (snap_cp_indices lo) (sig_group_puts lo ++ [put])
     (cur_group_ws lo) (chunk_staging lo), emit p (becomes old put l)).

Definition lower_recv (ch : Chunk) (nt t old : Z) (o : Op) (lo : local) (l : lowering) : local * lowering :=
  let '(lo, l) :=
    if t mod G =? 0 then
      let tag := make_tag (pair_id ch) (t / G) in
      let ws := next_idx l in
      let l := emit (signal_op WaitSignal (osrc_peer o) 0 tag) l in
      let l := if fits_imm tag
               then MkLow (out l) (old_to_new l) (new_deps l) (staging_bytes l) (staging_bytes_out l)
                      (put_signal l) (sig_groups l) (wait_groups l ++ [(ws, wrap 32 (Z.min G (nt - t)))])
               else l in
      (MkLocal (cp_indices lo) (put_indices lo) (snap_cp_indices lo) (sig_group_puts lo) ws (chunk_staging lo), l)
    else (lo, l) in
  (lo, becomes old (cur_group_ws lo) l).

Definition lower_reduce (old : Z) (o : Op) (lo : local) (l : lowering) : local * lowering :=
  if inplace then
    let staging_off := staging_bytes l in
    let l := MkLow (out l) (old_to_new l) (new_deps l) (staging_bytes l +[64] obytes o) (staging_bytes_out l)
               (put_signal l) (sig_groups l) (wait_groups l) in
    let cp := next_idx l in
    let l := emit (local_op EPut (obytes o) (odst_off o) staging_off Output Scratch []) l in
    let red := next_idx l in
    let l := emit (local_op Reduce (obytes o) staging_off (odst_off o) Scratch Output (odeps o))
               (becomes old red (depend [(red, cp)] l)) in
    (MkLocal (cp_indices lo) (put_indices lo) (snap_cp_indices lo ++ [cp]) (sig_group_puts lo) (cur_group_ws lo)
       (chunk_staging lo), l)
  else
    let red := next_idx l in
    (lo, emit (local_op Reduce (obytes o) (osrc_off o) (odst_off o) Input Output (odeps o)) (becomes old red l)).

Definition lower_tile (ch : Chunk) (first nt : Z) (os : list Op) (st : local * lowering) (t : Z) : local * lowering :=
  let '(lo, l) := st in
  let old := first + t in
  match aget os old with
  | None => (lo, l)
  | Some o =>
      match okind o with
      | Put =>
          if pair_id ch =? kNoPairId then (lo, l)
          else
            let '(lo, l) := (if stage_puts then lower_staged_put old o lo l else lower_put old o lo l) in
            signal_group ch nt t o lo l
      | Recv => lower_recv ch nt t old o lo l
      | RecvReduce => lower_reduce old o lo l
      end
  end.

(** After the tiles of a chunk: the handshake of staged copies. *)
Definition copies_done (ch : Chunk) (lo : local) (l : lowering) : lowering :=
  if stage_puts && negb (bool_decide (put_indices lo = [])) then
    let tag := make_tag (pair_id ch) 0xFFFF in
    let peer := wrap 32 (dst_rank ch) in
    let sig := next_idx l in
    let l := emit (signal_op Signal 0 peer tag) (depend (map (pair sig) (cp_indices lo)) l) in
    let ws := next_idx l in
    depend (map (fun p => (p, ws)) (put_indices lo)) (emit (signal_op WaitSignal peer 0 tag) l)
  else l.

(** ... and that of the snapshots of an in-place reduction. *)
Definition snapshots_done (ch : Chunk) (lo : local) (l : lowering) : lowering :=
  if reduce_snap_hs && negb (pair_id ch =? kNoPairId) && (pair_id ch mod 2 =? 0) then
    let tag := make_tag (pair_id ch) 0xFFFE in
    let l := if negb (bool_decide (snap_cp_indices lo = [])) then
               let sig := next_idx l in
               emit (signal_op Signal 0 (wrap 32 (src_rank ch)) tag) (depend (map (pair sig) (snap_cp_indices lo)) l)
             else l in
    if negb (bool_decide (put_indices lo = [])) then
      let ws := next_idx l in
      depend (map (fun p => (p, ws)) (put_indices lo)) (emit (signal_op WaitSignal (wrap 32 (dst_rank ch)) 0 tag) l)
    else l
  else l.

Definition lower_chunk (first nts : list Z) (os : list Op) (l : lowering) (x : Z * Chunk) : lowering :=
  let '(ci, ch) := x in
  let nt := at_ nts ci in
  let '(lo, l) := foldl (lower_tile ch (at_ first ci) nt os) (fresh_local, l) (seqZ 0 nt) in
  let l := snapshots_done ch lo (copies_done ch lo l) in
  MkLow (out l) (old_to_new l) (new_deps l) (staging_bytes l) (Z.max (staging_bytes_out l) (chunk_staging lo))
    (put_signal l) (sig_groups l) (wait_groups l).

Definition remap (n_old : Z) (o2n : list Z) (dep : Z) : Z :=
  if (dep <? n_old) && negb (default kNoOp (aget o2n dep) =? kNoOp) then default kNoOp (aget o2n dep) else dep.

Definition add_new_dep (os : list TiledOp) (nd : Z * Z) : list TiledOp :=
  match aget os nd.1 with
  | Some o => aset os nd.1 (set_tdeps (tdeps o ++ [nd.2]) o)
  | None => os
  end.

Definition lower_to_tiled (os : list Op) (cs : list Chunk) (first nts : list Z) : lowering :=
  let l := MkLow [] (replicate (length os) kNoOp) [] 0 0 [] [] [] in
  let l := foldl (lower_chunk first nts os) l (imap (fun i c => (Z.of_nat i, c)) cs) in
  let mapped := map (fun o => set_tdeps (map (remap (alen os) (old_to_new l)) (tdeps o)) o) (out l) in
  MkLow (foldl add_new_dep mapped (new_deps l)) (old_to_new l) (new_deps l)
    (Z.max (staging_bytes l) (staging_bytes_out l)) (staging_bytes_out l)
    (put_signal l) (sig_groups l) (wait_groups l).
End lower.

Definition lower_algo (a : CollAlgo) (tile_bytes : Z) (inplace stage_puts : bool) (signal_group_tiles : Z)
    (reduce_snap_hs : bool) : planned TiledResult :=
  _ ← require (negb (tile_bytes =? 0)) "tile_bytes must be positive";
  let res os st ps sg wg := MkResult os st (ainput_bytes a) (aoutput_bytes a) (arank a) (anranks a) (areduction a) ps sg wg in
  if bool_decide (chunks a = []) then Planned (res [] 0 [] [] [])
  else
    let '(os, first, nts) := tile_chunks (chunks a) tile_bytes in
    let os := propagate_deps (chunks a) first nts os in
    let l := lower_to_tiled inplace stage_puts reduce_snap_hs signal_group_tiles os (chunks a) first nts in
    Planned (res (out l) (staging_bytes l) (put_signal l) (sig_groups l) (wait_groups l)).

Definition build_tiled (c : CollectiveConfig) (inplace : bool) : planned TiledResult :=
  _ ← require (negb (bool_decide (kind c = AllToAllPairwise) && negb inplace)) "AllToAll requires inplace (input == output)";
  a ← build_coll_algo c;
  let stage_puts := bool_decide (kind c = AllToAllPairwise) && inplace && negb (bool_decide (input_split_bytes c = [])) in
  let reduce_snap_hs := bool_decide (kind c = AllReduceRing) && inplace in
  lower_algo a (tile_bytes c) inplace stage_puts (signal_group_tiles c) reduce_snap_hs.
End Lower.
