(* ===== verification/LowerSpec.v ===== *)
(** * What lowering produces

    The tiled plan of [Lower.v] in closed form, for plans without staged copies:
    which operations it has, on which bytes, and after which others each of them
    runs.  An operation is named by a key; the position of a key in the list of
    keys is the index of the operation. *)

From S2P Require Import Prelude ChunkGraph Lower.

Module LowerSpec.
Import ChunkGraph Lower.

(** ** Tiles *)

Section tiles.
Context (tile : Z).

(** The [t]-th tile of a chunk. *)
Definition tile_op (c : Chunk) (t : Z) (ds : list Z) : Op :=
  let off := wrap 64 (t * tile) in
  MkOp (op c) (Z.min tile (bytes c -[64] off)) (src_off c +[64] off) (dst_off c +[64] off)
    (peer_word (src_rank c)) (peer_word (dst_rank c)) ds.

Fixpoint starts (base : Z) (cs : list Chunk) : list Z :=
  match cs with
  | [] => []
  | c :: cs => base :: starts (base + num_tiles tile c) cs
  end.

Definition all_tiles (cs : list Chunk) : list Op :=
  cs ≫= fun c => tiles_from c tile (Z.to_nat (num_tiles tile c)) 0.

Context (Htile : 0 < tile).

Lemma num_tiles_nonneg c : 0 <= num_tiles tile c.
Proof.
  unfold num_tiles, ceil_div. rewrite (proj2 (Z.eqb_neq tile 0)) by lia. apply Z.div_pos; [apply wrap_range; lia|lia].
Qed.

Lemma tiles_from_len c k off : length (tiles_from c tile k off) = k.
Proof. revert off. induction k; intros off; cbn; auto. Qed.

Lemma tiles_from_get c k : forall m t, 0 <= t < Z.of_nat k ->
  aget (tiles_from c tile k (wrap 64 (m * tile))) t = Some (tile_op c (m + t) []).
Proof.
  induction k as [|k IH]; intros m t Ht; [lia|]. cbn [tiles_from]. destruct (decide (t = 0)) as [->|].
  { unfold tile_op. by rewrite Z.add_0_r. }
  replace t with (t - 1 + 1) at 1 by lia. rewrite aget_cons_S by lia.
  replace (wrap 64 (m * tile) +[64] tile) with (wrap 64 ((m + 1) * tile)).
  - rewrite IH by lia. do 2 f_equal. lia.
  - unfold wrap. rewrite Zplus_mod_idemp_l. f_equal. lia.
Qed.

Lemma all_tiles_cons c cs :
  all_tiles (c :: cs) = tiles_from c tile (Z.to_nat (num_tiles tile c)) 0 ++ all_tiles cs.
Proof. done. Qed.

Lemma chunk_tiles_len c : alen (tiles_from c tile (Z.to_nat (num_tiles tile c)) 0) = num_tiles tile c.
Proof. pose proof (num_tiles_nonneg c). unfold alen. rewrite tiles_from_len. lia. Qed.

Lemma tile_chunks_eq cs : tile_chunks cs tile = (all_tiles cs, starts 0 cs, map (num_tiles tile) cs).
Proof.
  unfold tile_chunks.
  assert (forall os fs ns, foldl (fun '(os, first, nts) c =>
      (os ++ tiles_from c tile (Z.to_nat (num_tiles tile c)) 0, first ++ [alen os], nts ++ [num_tiles tile c]))
      (os, fs, ns) cs = (os ++ all_tiles cs, fs ++ starts (alen os) cs, ns ++ map (num_tiles tile) cs)) as H.
  { induction cs as [|c cs IH]; intros os fs ns; [by rewrite !app_nil_r|]. cbn [foldl starts map].
    rewrite IH, alen_app, chunk_tiles_len, all_tiles_cons. by rewrite <- !app_assoc. }
  by rewrite H.
Qed.

(** The tiles of chunk [i] begin at [first i]. *)
Lemma starts_get cs : forall base i c, 0 <= i -> aget cs i = Some c ->
  exists f, aget (starts base cs) i = Some f /\ base <= f /\ f + num_tiles tile c <= base + alen (all_tiles cs) /\
    forall t, 0 <= t < num_tiles tile c -> aget (all_tiles cs) (f - base + t) = Some (tile_op c t []).
Proof.
  induction cs as [|c0 cs IH]; intros base i c Hi Hc; [done|]. pose proof (num_tiles_nonneg c0).
  rewrite all_tiles_cons, alen_app, chunk_tiles_len. pose proof (alen_nonneg (all_tiles cs)).
  destruct (decide (i = 0)) as [->|].
  - injection Hc as <-. exists base. split; [done|]. split; [lia|]. split; [lia|]. intros t Ht.
    rewrite Z.sub_diag, Z.add_0_l, aget_app_l by (rewrite chunk_tiles_len; lia).
    apply (tiles_from_get c0 _ 0 t). lia.
  - replace i with (i - 1 + 1) in * by lia. rewrite aget_cons_S in Hc by lia.
    destruct (IH (base + num_tiles tile c0) (i - 1) c ltac:(lia) Hc) as (f & E1 & E2 & E3 & E4).
    exists f. cbn [starts]. rewrite aget_cons_S by lia. split; [done|]. split; [lia|]. split; [lia|]. intros t Ht.
    rewrite aget_app_r by (rewrite chunk_tiles_len; lia). rewrite chunk_tiles_len, <- (E4 t Ht). f_equal. lia.
Qed.

Lemma starts_mono cs : forall base i j c f f', 0 <= i < j -> aget cs i = Some c ->
  aget (starts base cs) i = Some f -> aget (starts base cs) j = Some f' -> f + num_tiles tile c <= f'.
Proof.
  induction cs as [|c0 cs IH]; intros base i j c f f' Hij Hc Hf Hf'; [done|]. cbn [starts] in *.
  replace j with (j - 1 + 1) in * by lia. rewrite aget_cons_S in Hf' by lia. destruct (decide (i = 0)) as [->|].
  - injection Hc as <-. injection Hf as <-.
    assert (0 <= j - 1) as Hj by lia. revert Hf'. generalize (j - 1), (base + num_tiles tile c0), Hj. clear - Htile.
    induction cs as [|c cs IH]; intros k b Hk Hf; [done|]. cbn [starts] in Hf. destruct (decide (k = 0)) as [->|].
    + by injection Hf as <-.
    + replace k with (k - 1 + 1) in Hf by lia. rewrite aget_cons_S in Hf by lia. apply IH in Hf; [|lia].
      pose proof (num_tiles_nonneg c). lia.
  - replace i with (i - 1 + 1) in * by lia. rewrite aget_cons_S in Hc by lia. rewrite aget_cons_S in Hf by lia. eapply (IH _ (i - 1) (j - 1)); eauto; lia.
Qed.

Lemma starts_succ cs : forall base i c f f', 0 <= i -> aget cs i = Some c ->
  aget (starts base cs) i = Some f -> aget (starts base cs) (i + 1) = Some f' -> f' = f + num_tiles tile c.
Proof.
  induction cs as [|c0 cs IH]; intros base i c f f' Hi Hc Hf Hf'; [done|]. cbn [starts] in *.
  rewrite aget_cons_S in Hf' by lia. destruct (decide (i = 0)) as [->|].
  - injection Hc as <-. injection Hf as <-. destruct cs; [done|]. by injection Hf' as <-.
  - replace i with (i - 1 + 1) in Hc, Hf, Hf' by lia. rewrite aget_cons_S in Hc by lia. rewrite aget_cons_S in Hf by lia.
    eapply (IH _ (i - 1)); eauto. lia.
Qed.
End tiles.

(** ** Dependencies of tiles *)

(** [os'] is [os] with the dependencies [E] added. *)
Definition same_but_deps (o o' : Op) : Prop :=
  okind o' = okind o /\ obytes o' = obytes o /\ osrc_off o' = osrc_off o /\ odst_off o' = odst_off o /\
  osrc_peer o' = osrc_peer o /\ odst_peer o' = odst_peer o.

Definition grows (E : Z -> Z -> Prop) (os os' : list Op) : Prop :=
  alen os' = alen os /\ forall j o, 0 <= j -> aget os j = Some o ->
  exists o', aget os' j = Some o' /\ same_but_deps o o' /\ forall d, d ∈ odeps o' <-> d ∈ odeps o \/ E j d.

Lemma grows_push i d os : 0 <= i < alen os -> grows (fun j d' => j = i /\ d' = d) os (push_dep i d os).
Proof.
  intros Hi. unfold push_dep. destruct (aget_is_Some os i Hi) as [o E]. rewrite E. split; [apply alen_aset|].
  intros j o' Hj Ho'. destruct (decide (j = i)) as [->|].
  - rewrite aget_aset_eq by done. assert (o' = o) as -> by congruence. eexists. split; [done|]. split; [done|].
    intros d'. cbn. rewrite elem_of_app, list_elem_of_singleton. naive_solver.
  - rewrite aget_aset_ne by lia. exists o'. split; [done|]. split; [done|]. naive_solver.
Qed.

Lemma grows_fold {A} (f : list Op -> A -> list Op) (E : A -> Z -> Z -> Prop) (m : Z) (l : list A) : forall os,
  alen os = m -> (forall os x, x ∈ l -> alen os = m -> grows (E x) os (f os x)) ->
  grows (fun j d => exists x, x ∈ l /\ E x j d) os (foldl f os l).
Proof.
  induction l as [|x l IH]; intros os Hm Hf.
  - split; [done|]. intros j o Hj Ho. exists o. split; [done|]. split; [done|]. intros d. set_solver.
  - destruct (Hf os x ltac:(by left) Hm) as [Hl1 H1]. cbn [foldl].
    destruct (IH (f os x) ltac:(congruence)) as [Hl2 H2]; [intros os' y Hy; apply Hf; by right|].
    split; [congruence|]. intros j o Hj Ho. destruct (H1 j o Hj Ho) as (o1 & E1 & S1 & D1).
    destruct (H2 j o1 Hj E1) as (o2 & E2 & S2 & D2). exists o2. split; [done|].
    split; [unfold same_but_deps in *; naive_solver congruence|]. intros d. rewrite D2, D1. set_solver.
Qed.

Section deps.
Context (cs : list Chunk) (tile : Z) (Htile : 0 < tile).
Context (Hdeps : forall c d, c ∈ cs -> d ∈ deps c -> 0 <= d < alen cs).

Definition first (i : Z) : Z := at_ (starts tile 0 cs) i.
Definition ntiles (i : Z) : Z := at_ (map (num_tiles tile) cs) i.

Lemma ntiles_get i c : aget cs i = Some c -> ntiles i = num_tiles tile c.
Proof. intros Hc. unfold ntiles, at_, aget in *. by rewrite list_lookup_fmap, Hc. Qed.

Lemma ntiles_nonneg i : 0 <= ntiles i.
Proof.
  unfold ntiles, at_, aget. rewrite list_lookup_fmap. destruct (cs !! Z.to_nat i); [|done]. by apply num_tiles_nonneg.
Qed.

Lemma first_get i c : 0 <= i -> aget cs i = Some c ->
  0 <= first i /\ first i + ntiles i <= alen (all_tiles tile cs) /\
  forall t, 0 <= t < ntiles i -> aget (all_tiles tile cs) (first i + t) = Some (tile_op tile c t []).
Proof.
  intros Hi Hc. destruct (starts_get tile Htile cs 0 i c Hi Hc) as (f & E1 & E2 & E3 & E4).
  unfold first, at_. rewrite E1, (ntiles_get i c Hc). cbn. split; [done|]. split; [lia|]. intros t Ht.
  rewrite <- (E4 t Ht). f_equal. lia.
Qed.

(** A tile belongs to one chunk. *)
Lemma first_inj i j t u : 0 <= i < alen cs -> 0 <= j < alen cs -> 0 <= t < ntiles i -> 0 <= u < ntiles j ->
  first i + t = first j + u -> i = j /\ t = u.
Proof.
  intros Hi Hj Ht Hu E. destruct (aget_is_Some cs i Hi) as [c Hc], (aget_is_Some cs j Hj) as [c' Hc'].
  destruct (starts_get tile Htile cs 0 i c ltac:(lia) Hc) as (f & E1 & _).
  destruct (starts_get tile Htile cs 0 j c' ltac:(lia) Hc') as (f' & E2 & _).
  unfold first, at_ in E. rewrite E1, E2 in E. cbn in E.
  rewrite (ntiles_get _ _ Hc) in Ht. rewrite (ntiles_get _ _ Hc') in Hu.
  destruct (Z.lt_trichotomy i j) as [Hij|[->|Hij]].
  - pose proof (starts_mono tile Htile cs 0 i j c f f' ltac:(lia) Hc E1 E2). lia.
  - assert (f = f') by congruence. split; [done|lia].
  - pose proof (starts_mono tile Htile cs 0 j i c' f' f ltac:(lia) Hc' E2 E1). lia.
Qed.

Definition tile_dep (j d : Z) : Prop :=
  exists i c dep t, aget cs i = Some c /\ 0 <= i /\ dep ∈ deps c /\ 0 <= t < Z.min (ntiles i) (ntiles dep) /\
    j = first i + t /\ d = wrap 32 (first dep + t).

Definition lowered_tiles : list Op :=
  propagate_deps cs (starts tile 0 cs) (map (num_tiles tile) cs) (all_tiles tile cs).

Lemma propagate_grows : grows tile_dep (all_tiles tile cs) lowered_tiles.
Proof.
  assert (forall i c, 0 <= i -> aget cs i = Some c -> forall os dep, alen os = alen (all_tiles tile cs) ->
    grows (fun j d => exists t, t ∈ seqZ 0 (Z.min (ntiles i) (ntiles dep)) /\ j = first i + t /\ d = wrap 32 (first dep + t))
      os (chunk_deps (starts tile 0 cs) (map (num_tiles tile) cs) i os dep)) as Hc.
  { intros i c Hi Hc os dep Hl. unfold chunk_deps. destruct (first_get i c Hi Hc) as (H1 & H2 & _).
    apply (grows_fold _ (fun t j d => j = first i + t /\ d = wrap 32 (first dep + t)) _ _ _ Hl).
    intros os' t Ht Hl'. apply elem_of_seqZ in Ht. apply grows_push. fold (first i). unfold ntiles in *. lia. }
  assert (forall ics, (forall i c, (i, c) ∈ ics -> 0 <= i /\ aget cs i = Some c) -> forall os,
    alen os = alen (all_tiles tile cs) ->
    grows (fun j d => exists x, x ∈ ics /\ exists dep, dep ∈ deps x.2 /\ exists t,
        t ∈ seqZ 0 (Z.min (ntiles x.1) (ntiles dep)) /\ j = first x.1 + t /\ d = wrap 32 (first dep + t)) os
      (foldl (fun os '(i, c) => foldl (chunk_deps (starts tile 0 cs) (map (num_tiles tile) cs) i) os (deps c)) os ics)) as Hf.
  { intros ics Hics os Hl. eapply (grows_fold _ (fun x j d => exists dep, dep ∈ deps x.2 /\ exists t,
        t ∈ seqZ 0 (Z.min (ntiles x.1) (ntiles dep)) /\ j = first x.1 + t /\ d = wrap 32 (first dep + t)) _ _ _ Hl).
    intros os' [i c] Hx Hl'. destruct (Hics i c Hx) as [Hi Hic].
    apply (grows_fold _ (fun dep j d => exists t, t ∈ seqZ 0 (Z.min (ntiles i) (ntiles dep)) /\
      j = first i + t /\ d = wrap 32 (first dep + t)) _ _ _ Hl'). intros os'' dep _ Hl''. by eapply Hc. }
  destruct (Hf (imap (fun i c => (Z.of_nat i, c)) cs)) with (os := all_tiles tile cs) as [Hl H]; [|done|].
  { intros i c Hx. apply elem_of_lookup_imap in Hx as (k & c' & [= -> ->] & Hk). split; [lia|].
    unfold aget. by rewrite Nat2Z.id. }
  split; [exact Hl|]. intros j o Hj Ho. destruct (H j o Hj Ho) as (o' & E & S & D). exists o'. split; [exact E|].
  split; [done|]. intros d. rewrite D. apply or_iff_compat_l. split.
  - intros ([i c] & Hx & dep & Hd & t & Ht%elem_of_seqZ & -> & ->). cbn in *.
    apply elem_of_lookup_imap in Hx as (k & c' & [= -> ->] & Hk). exists (Z.of_nat k), c', dep, t.
    unfold aget at 1. rewrite Nat2Z.id. split_and!; try done; lia.
  - intros (i & c & dep & t & Hc' & Hi & Hd & Ht & -> & ->). exists (i, c). split.
    + apply elem_of_lookup_imap. exists (Z.to_nat i), c. split; [f_equal; lia|exact Hc'].
    + exists dep. split; [done|]. exists t. split; [|done]. apply elem_of_seqZ. cbn. lia.
Qed.
End deps.

Lemma first_0 cs tile : first cs tile 0 = 0.
Proof. by destruct cs. Qed.

(** ** Keys of the tiled operations *)

(** The write of a tile, the signal and the wait of a group, the snapshot and the
    reduction of a tile, and the handshake of the snapshots of a chunk. *)
Inductive lkey :=
| LPut (i t : Z) | LSig (i g : Z) | LWait (i g : Z) | LSnap (i t : Z) | LRed (i t : Z)
| LHsSig (i : Z) | LHsWait (i : Z).

#[export] Instance lkey_eq_dec : EqDecision lkey.
Proof. solve_decision. Defined.

Definition kchunk (k : lkey) : Z :=
  match k with
  | LPut i _ | LSig i _ | LWait i _ | LSnap i _ | LRed i _ | LHsSig i | LHsWait i => i
  end.

Section lower.
Context (cs : list Chunk) (tile : Z) (Htile : 0 < tile).
Context (Hdeps : forall c d, c ∈ cs -> d ∈ deps c -> 0 <= d < alen cs).
Context (Hpairs : forall c, c ∈ cs -> pair_id c <> kNoPairId).
Context (inplace : bool) (sgt : Z) (Hsgt : 0 <= sgt).
Abbreviation G := (Lower.G sgt).
Abbreviation nt := (ntiles cs tile).
Abbreviation first := (first cs tile).
Abbreviation os := (lowered_tiles cs tile).

Lemma G_pos : 0 < G.
Proof. unfold Lower.G. destruct (Z.eqb_spec sgt 0); lia. Qed.

(** A chunk and a tile by their positions. *)
Definition chunk_at (i : Z) : Chunk := default (MkChunk Put 0 0 0 0 0 0 []) (aget cs i).
Definition tile_at (i t : Z) : Op := default (MkOp Put 0 0 0 0 0 []) (aget os (first i + t)).
Definition snaps (i : Z) : bool := inplace && (pair_id (chunk_at i) mod 2 =? 0).

(** The keys that occur. *)
Definition valid (k : lkey) : Prop :=
  0 <= kchunk k < alen cs /\
  match k with
  | LPut i t => op (chunk_at i) = Put /\ 0 <= t < nt i
  | LSig i g => op (chunk_at i) = Put /\ 0 <= g /\ g * G < nt i
  | LWait i g => op (chunk_at i) = Recv /\ 0 <= g /\ g * G < nt i
  | LSnap i t => op (chunk_at i) = RecvReduce /\ inplace = true /\ 0 <= t < nt i
  | LRed i t => op (chunk_at i) = RecvReduce /\ 0 <= t < nt i
  | LHsSig i => op (chunk_at i) = RecvReduce /\ snaps i = true /\ 0 < nt i
  | LHsWait i => op (chunk_at i) = Put /\ snaps i = true /\ 0 < nt i
  end.

(** The tile at which an operation is emitted; the handshakes follow the tiles. *)
Definition kpos (k : lkey) : Z :=
  match k with
  | LPut _ t | LSnap _ t | LRed _ t => t
  | LSig i g => Z.min ((g + 1) * G) (nt i) - 1
  | LWait _ g => g * G
  | LHsSig i | LHsWait i => nt i
  end.

Definition group_end (i t : Z) : bool := (t mod G =? G - 1) || (t + 1 =? nt i).

Definition tile_keys (i t : Z) : list lkey :=
  match op (chunk_at i) with
  | Put => LPut i t :: if group_end i t then [LSig i (t / G)] else []
  | Recv => if t mod G =? 0 then [LWait i (t / G)] else []
  | RecvReduce => if inplace then [LSnap i t; LRed i t] else [LRed i t]
  end.

Definition end_keys (i : Z) : list lkey :=
  if snaps i && (0 <? nt i) then
    match op (chunk_at i) with Put => [LHsWait i] | Recv => [] | RecvReduce => [LHsSig i] end
  else [].

Definition chunk_keys (i : Z) : list lkey := (seqZ 0 (nt i) ≫= tile_keys i) ++ end_keys i.
Definition keys : list lkey := seqZ 0 (alen cs) ≫= chunk_keys.

Lemma tile_keys_in i t k : 0 <= i < alen cs -> 0 <= t < nt i ->
  k ∈ tile_keys i t <-> valid k /\ kchunk k = i /\ kpos k = t.
Proof.
  intros Hi Ht. pose proof G_pos as HG. pose proof (Z.div_mod t G ltac:(lia)) as Hdm.
  pose proof (Z.mod_pos_bound t G HG) as Hm. unfold tile_keys, group_end, valid. split.
  - destruct (op (chunk_at i)) eqn:Eo.
    + intros [->|Hk]%elem_of_cons; [cbn; by rewrite Eo|].
      destruct ((t mod G =? G - 1) || (t + 1 =? nt i)) eqn:E; [|by apply not_elem_of_nil in Hk].
      apply list_elem_of_singleton in Hk as ->. cbn. rewrite Eo. split_and!; try done; nia.
    + destruct (Z.eqb_spec (t mod G) 0); [|by intros ?%not_elem_of_nil].
      intros ->%list_elem_of_singleton. cbn. rewrite Eo. split_and!; try done; nia.
    + destruct inplace; [intros [->| ->%list_elem_of_singleton]%elem_of_cons|intros ->%list_elem_of_singleton];
        cbn; by rewrite Eo.
  - intros ([_ Hv] & Hc & Hp). destruct k as [j u|j g|j g|j u|j u|j|j]; cbn in Hc, Hp; subst j;
      destruct Hv as [-> Hv]; try (subst u; by left); try lia.
    + right. assert (t / G = g) as <- by (symmetry; apply Z.div_unique with (t - g * G); nia).
      destruct ((t mod G =? G - 1) || (t + 1 =? nt i)) eqn:E; [by left|]. exfalso. nia.
    + subst t. rewrite Z.mod_mul, Z.div_mul by lia. by left.
    + destruct Hv as [-> _]. subst u. by left.
    + subst u. destruct inplace; [right|]; by left.
Qed.

Lemma end_keys_in i k : 0 <= i < alen cs -> k ∈ end_keys i <-> valid k /\ kchunk k = i /\ kpos k = nt i.
Proof.
  intros Hi. pose proof G_pos as HG. unfold end_keys, valid. split.
  - destruct (snaps i && (0 <? nt i)) eqn:E; [|by intros ?%not_elem_of_nil].
    apply andb_true_iff in E as [E1 E2%Z.ltb_lt]. destruct (op (chunk_at i)) eqn:Eo; intros Hk; [|by apply not_elem_of_nil in Hk|];
      apply list_elem_of_singleton in Hk as ->; cbn; by rewrite Eo.
  - intros ([_ Hv] & Hc & Hp). destruct k as [j u|j g|j g|j u|j u|j|j]; cbn in Hc, Hp; subst j;
      destruct Hv as [-> Hv]; try lia; destruct Hv as [-> Hv]; rewrite (proj2 (Z.ltb_lt 0 (nt i))) by lia; by left.
Qed.

Lemma nt_nonneg i : 0 <= nt i.
Proof. by apply ntiles_nonneg. Qed.

Lemma kpos_range k : valid k -> 0 <= kpos k <= nt (kchunk k).
Proof. pose proof G_pos. intros [_ Hv]. destruct k; cbn in *; nia. Qed.

Lemma chunk_keys_in i k : 0 <= i < alen cs -> k ∈ chunk_keys i <-> valid k /\ kchunk k = i.
Proof.
  intros Hi. unfold chunk_keys. rewrite elem_of_app, end_keys_in, list_elem_of_bind by done.
  setoid_rewrite elem_of_seqZ. split.
  - intros [(t & Hk & Ht)|Hk]; [apply tile_keys_in in Hk; [naive_solver|done|lia]|naive_solver].
  - intros [Hv Hc]. pose proof (kpos_range k Hv) as Hp. rewrite Hc in Hp.
    destruct (decide (kpos k = nt i)); [by right|left]. exists (kpos k). split; [|lia].
    apply tile_keys_in; [done|lia|done].
Qed.

Lemma keys_in k : k ∈ keys <-> valid k.
Proof.
  unfold keys. rewrite list_elem_of_bind. setoid_rewrite elem_of_seqZ. split.
  - intros (i & Hk & Hi). apply chunk_keys_in in Hk; [naive_solver|lia].
  - intros Hv. exists (kchunk k). split; [|destruct Hv; lia]. apply chunk_keys_in; [apply Hv|done].
Qed.

Lemma tile_keys_nodup i t : NoDup (tile_keys i t).
Proof.
  unfold tile_keys. destruct (op (chunk_at i)); [destruct (group_end i t)|destruct (_ =? 0)|destruct inplace];
    repeat constructor; set_solver.
Qed.

Lemma chunk_keys_nodup i : 0 <= i < alen cs -> NoDup (chunk_keys i).
Proof.
  intros Hi. unfold chunk_keys. apply NoDup_app. split_and!.
  - apply NoDup_bind; [|intros; apply tile_keys_nodup|apply NoDup_seqZ].
    intros t u k Ht%elem_of_seqZ Hu%elem_of_seqZ Hk Hk'. apply tile_keys_in in Hk; [|lia..].
    apply tile_keys_in in Hk'; [|lia..]. naive_solver congruence.
  - intros k (t & Hk & Ht%elem_of_seqZ)%list_elem_of_bind Hk'. apply tile_keys_in in Hk; [|lia..].
    apply end_keys_in in Hk'; [|lia]. naive_solver lia.
  - unfold end_keys. destruct (_ && _); [|constructor]. destruct (op _); repeat constructor; set_solver.
Qed.

Lemma keys_nodup : NoDup keys.
Proof.
  apply NoDup_bind; [|intros i Hi%elem_of_seqZ; apply chunk_keys_nodup; lia|apply NoDup_seqZ].
  intros i j k Hi%elem_of_seqZ Hj%elem_of_seqZ Hk Hk'. apply chunk_keys_in in Hk; [|lia].
  apply chunk_keys_in in Hk'; [|lia]. naive_solver congruence.
Qed.

Lemma seqZ_one m : seqZ m 1 = [m].
Proof. by rewrite seqZ_cons by lia. Qed.

(** The keys before tile [t] of chunk [i]. *)
Definition upto (i t : Z) : list lkey := (seqZ 0 i ≫= chunk_keys) ++ (seqZ 0 t ≫= tile_keys i).

Lemma upto_tile i t : 0 <= t -> upto i (t + 1) = upto i t ++ tile_keys i t.
Proof. intros Ht. unfold upto. rewrite seqZ_snoc, bind_app, app_assoc by done. cbn. by rewrite app_nil_r. Qed.

Lemma upto_chunk i : 0 <= i -> upto (i + 1) 0 = upto i (nt i) ++ end_keys i.
Proof.
  intros Hi. unfold upto. rewrite seqZ_snoc, bind_app, <- !app_assoc by done. cbn. by rewrite !app_nil_r.
Qed.

Lemma upto_prefix i : 0 <= i < alen cs -> exists rest, keys = upto i (nt i) ++ end_keys i ++ rest.
Proof.
  intros Hi. unfold keys, upto. exists (seqZ (i + 1) (alen cs - (i + 1)) ≫= chunk_keys).
  replace (alen cs) with (i + (alen cs - i)) at 1 by lia. rewrite seqZ_app, bind_app, <- app_assoc by lia. f_equal.
  replace (alen cs - i) with (1 + (alen cs - (i + 1))) by lia. rewrite seqZ_app, bind_app, seqZ_one, Z.add_0_l by lia.
  cbn. unfold chunk_keys at 1. by rewrite app_nil_r, <- app_assoc.
Qed.

Lemma upto_prefix_tile i t : 0 <= i < alen cs -> 0 <= t < nt i -> exists rest, keys = upto i t ++ tile_keys i t ++ rest.
Proof.
  intros Hi Ht. destruct (upto_prefix i Hi) as [rest E]. rewrite E. unfold upto.
  exists ((seqZ (t + 1) (nt i - (t + 1)) ≫= tile_keys i) ++ end_keys i ++ rest).
  replace (nt i) with (t + (1 + (nt i - (t + 1)))) at 1 by lia. rewrite !seqZ_app, !bind_app, seqZ_one by lia.
  cbn. by rewrite app_nil_r, <- !app_assoc.
Qed.

Definition idx (k : lkey) : Z := index_in keys k.

Lemma lidx_next L k rest : keys = L ++ k :: rest -> idx k = alen L.
Proof.
  intros E. unfold idx. pose proof keys_nodup as Hn. rewrite E in *. apply NoDup_app in Hn as (_ & Hd & _).
  rewrite index_in_app_r by (intros Hk; apply (Hd k Hk); by left). cbn. rewrite decide_True by done. lia.
Qed.

(** ** The operations before dependencies are renamed *)

Lemma chunk_at_get i : 0 <= i < alen cs -> aget cs i = Some (chunk_at i) /\ chunk_at i ∈ cs.
Proof.
  intros Hi. destruct (aget_is_Some cs i Hi) as [c Hc]. unfold chunk_at. rewrite Hc. split; [done|].
  by eapply list_elem_of_lookup_2.
Qed.

Lemma tile_at_get i t : 0 <= i < alen cs -> 0 <= t < nt i ->
  aget os (first i + t) = Some (tile_at i t) /\ same_but_deps (tile_op tile (chunk_at i) t []) (tile_at i t) /\
  forall d, d ∈ odeps (tile_at i t) <-> exists dep, dep ∈ deps (chunk_at i) /\ t < nt dep /\ d = wrap 32 (first dep + t).
Proof.
  intros Hi Ht. destruct (chunk_at_get i Hi) as [Hc Hin].
  destruct (first_get cs tile Htile i _ ltac:(lia) Hc) as (Hf & _ & Hget).
  destruct (propagate_grows cs tile Htile) as [_ Hp].
  destruct (Hp (first i + t) _ ltac:(lia) (Hget t Ht)) as (o & E & S & D).
  unfold tile_at. rewrite E. cbn. split; [done|]. split; [done|]. intros d. rewrite D. cbn. split.
  - intros [?%not_elem_of_nil|(j & c & dep & u & Hj & Hj0 & Hdep & Hu & E1 & E2)]; [done|].
    pose proof (aget_Some_lt cs j c Hj0 Hj) as Hjl.
    destruct (first_inj cs tile Htile i j t u) as [<- <-]; try done; [lia|].
    assert (c = chunk_at i) as -> by congruence. exists dep. split_and!; [done|lia|done].
  - intros (dep & Hdep & Hu & ->). right. exists i, (chunk_at i), dep, t. split_and!; try done; lia.
Qed.

Fixpoint stage_sum (l : list Op) : Z :=
  match l with
  | [] => 0
  | o :: l => (if decide (okind o = RecvReduce) then obytes o else 0) + stage_sum l
  end.

(** Where the snapshot of a tile goes in the scratch buffer. *)
Definition stage_of (i t : Z) : Z := wrap 64 (stage_sum (take (Z.to_nat (first i + t)) os)).

Definition pre (k : lkey) : TiledOp :=
  match k with
  | LPut i t =>
      let x := tile_at i t in
      MkTiled EPut (obytes x) (osrc_off x) (odst_off x) (osrc_peer x) (odst_peer x) 0 (odeps x)
        (if negb (bool_decide (odeps x = [])) && (osrc_peer x =? 0xFFFFFFFF) then Output else Input) Output
  | LSig i g => signal_op Signal 0 (peer_word (dst_rank (chunk_at i))) (make_tag (pair_id (chunk_at i)) g)
  | LWait i g => signal_op WaitSignal (peer_word (src_rank (chunk_at i))) 0 (make_tag (pair_id (chunk_at i)) g)
  | LSnap i t => let x := tile_at i t in local_op EPut (obytes x) (odst_off x) (stage_of i t) Output Scratch []
  | LRed i t =>
      let x := tile_at i t in
      if inplace then local_op Reduce (obytes x) (stage_of i t) (odst_off x) Scratch Output (odeps x)
      else local_op Reduce (obytes x) (osrc_off x) (odst_off x) Input Output (odeps x)
  | LHsSig i => signal_op Signal 0 (wrap 32 (src_rank (chunk_at i))) (make_tag (pair_id (chunk_at i)) 0xFFFE)
  | LHsWait i => signal_op WaitSignal (wrap 32 (dst_rank (chunk_at i))) 0 (make_tag (pair_id (chunk_at i)) 0xFFFE)
  end.

(** The dependencies that lowering adds, and the operation with which it does. *)
Definition edge (a b : lkey) : Prop :=
  match a, b with
  | LSig i g, LPut j t => i = j /\ t / G = g /\ valid b
  | LRed i t, LSnap j u => i = j /\ t = u /\ valid b
  | LHsSig i, LSnap j t => i = j /\ valid a /\ valid b
  | LPut i t, LHsWait j => i = j /\ valid a /\ valid b
  | _, _ => False
  end.
Definition emitter (a b : lkey) : lkey := match b with LHsWait _ => b | _ => a end.

Definition new_edges (P : lkey -> Prop) (nds : list (Z * Z)) : Prop :=
  forall x y, (x, y) ∈ nds <-> exists a b, edge a b /\ P (emitter a b) /\ x = idx a /\ y = idx b.

Record core (L : list lkey) (l : lowering) : Prop := {
  co_rest : exists rest, keys = L ++ rest;
  co_out : out l = map pre L;
  co_new : new_edges (fun k => k ∈ L) (new_deps l);
}.

Context (Hsmall : alen keys < 2 ^ 32).

Lemma core_next L l k rest : core L l -> keys = L ++ k :: rest -> next_idx l = idx k.
Proof.
  intros [_ Ho _] E. unfold next_idx. rewrite (lidx_next _ _ _ E), Ho. unfold alen at 1. rewrite length_map.
  apply wrap_id. rewrite E, alen_app in Hsmall. pose proof (alen_nonneg L). pose proof (alen_nonneg (k :: rest)).
  unfold in_word. unfold alen in *. lia.
Qed.

Lemma core_snoc L l l' k rest nds :
  core L l -> keys = L ++ k :: rest -> out l' = out l ++ [pre k] -> new_deps l' = new_deps l ++ nds ->
  new_edges (fun x => x = k) nds -> core (L ++ [k]) l'.
Proof.
  intros [_ Ho Hn] E1 E2 E3 E4. split.
  - exists rest. by rewrite <- app_assoc.
  - by rewrite E2, Ho, map_app.
  - intros x y. rewrite E3, elem_of_app, (Hn x y), (E4 x y). setoid_rewrite elem_of_app.
    setoid_rewrite list_elem_of_singleton. naive_solver.
Qed.

(** Operations that bring no new dependency. *)
Lemma no_edges k : match k with LPut _ _ | LWait _ _ | LSnap _ _ => True | LRed _ _ => inplace = false | _ => False end ->
  new_edges (fun x => x = k) [].
Proof.
  intros Hk x y. split; [by intros ?%not_elem_of_nil|]. intros (a & b & He & Hem & _).
  destruct a, b; cbn in He, Hem; try done; subst k; try done. destruct He as (_ & _ & Hv). destruct Hv as [_ Hv]. naive_solver congruence.
Qed.

(** ** A tile at a time *)

(** What an old operation becomes. *)
Definition new_of (i t : Z) : lkey :=
  match op (chunk_at i) with Put => LPut i t | Recv => LWait i (t / G) | RecvReduce => LRed i t end.

Definition o2n_ok (i t : Z) (l : lowering) : Prop :=
  alen (old_to_new l) = alen os /\
  forall j u, 0 <= j < alen cs -> 0 <= u < nt j -> j < i \/ (j = i /\ u < t) ->
    aget (old_to_new l) (first j + u) = Some (idx (new_of j u)).

Record local_ok (i t : Z) (lo : local) : Prop := {
  lo_puts : put_indices lo = if decide (op (chunk_at i) = Put) then map (fun u => idx (LPut i u)) (seqZ 0 t) else [];
  lo_snaps : snap_cp_indices lo =
    if decide (op (chunk_at i) = RecvReduce /\ inplace = true) then map (fun u => idx (LSnap i u)) (seqZ 0 t) else [];
  lo_group : op (chunk_at i) = Put -> t < nt i ->
    sig_group_puts lo = map (fun u => idx (LPut i u)) (seqZ (t - t mod G) (t mod G));
  lo_wait : op (chunk_at i) = Recv -> 0 < t -> cur_group_ws lo = idx (LWait i ((t - 1) / G));
}.

Record tiled (i t : Z) (st : local * lowering) : Prop := {
  td_core : core (upto i t) st.2;
  td_local : local_ok i t st.1;
  td_o2n : o2n_ok i t st.2;
  td_stage : inplace = true -> staging_bytes st.2 = stage_of i t;
}.

Lemma os_len : alen os = alen (all_tiles tile cs).
Proof. by destruct (propagate_grows cs tile Htile). Qed.

Lemma tile_bound i t : 0 <= i < alen cs -> 0 <= t < nt i -> 0 <= first i + t < alen os.
Proof.
  intros Hi Ht. destruct (chunk_at_get i Hi) as [Hc _].
  destruct (first_get cs tile Htile i _ ltac:(lia) Hc) as (Hf & Hl & _). rewrite os_len. lia.
Qed.

Lemma o2n_becomes i t l l' : o2n_ok i t l -> 0 <= i < alen cs -> 0 <= t < nt i ->
  old_to_new l' = aset (old_to_new l) (first i + t) (idx (new_of i t)) -> o2n_ok i (t + 1) l'.
Proof.
  intros [Hl Ho] Hi Ht E. pose proof (tile_bound i t Hi Ht). split; [by rewrite E, alen_aset|].
  intros j u Hj Hu Hb. rewrite E. pose proof (tile_bound j u Hj Hu).
  destruct (decide (j = i /\ u = t)) as [[-> ->]|Hne]; [apply aget_aset_eq; lia|].
  rewrite aget_aset_ne; [apply Ho; [done..|lia]|lia|lia|].
  intros E'. apply Hne. destruct (first_inj cs tile Htile i j t u) as [<- <-]; done.
Qed.

Lemma stage_sum_app l k : stage_sum (l ++ k) = stage_sum l + stage_sum k.
Proof. induction l as [|o l IH]; [done|]. cbn. rewrite IH. lia. Qed.

Lemma stage_next i t : 0 <= i < alen cs -> 0 <= t < nt i ->
  stage_of i (t + 1) = stage_of i t +[64] (if decide (op (chunk_at i) = RecvReduce) then obytes (tile_at i t) else 0).
Proof.
  intros Hi Ht. pose proof (tile_bound i t Hi Ht). destruct (tile_at_get i t Hi Ht) as (E & [Hk _] & _). cbn in Hk.
  unfold stage_of. replace (Z.to_nat (first i + (t + 1))) with (S (Z.to_nat (first i + t))) by lia.
  erewrite take_S_r by exact E. rewrite stage_sum_app. cbn. rewrite Hk, Z.add_0_r.
  unfold wrap. by rewrite Zplus_mod_idemp_l.
Qed.

Lemma lower_recv_ok i t lo l : op (chunk_at i) = Recv -> 0 <= i < alen cs -> 0 <= t < nt i -> tiled i t (lo, l) ->
  tiled i (t + 1) (lower_recv sgt (chunk_at i) (nt i) t (first i + t) (tile_at i t) lo l).
Proof.
  intros Eo Hi Ht [Hc [L1 L2 _ L4] Ho Hs]. cbn [fst snd] in *. pose proof G_pos as HG.
  destruct (upto_prefix_tile i t Hi Ht) as [rest Ek]. destruct (tile_at_get i t Hi Ht) as (_ & (_ & _ & _ & _ & Esrc & _) & _).
  cbn in Esrc. unfold lower_recv. unfold tile_keys in Ek. rewrite Eo in Ek.
  assert (stage_of i (t + 1) = stage_of i t) as Est.
  { rewrite stage_next, Eo by done. cbn. rewrite Z.add_0_r. apply wrap_id, wrap_range. lia. }
  destruct (Z.eqb_spec (t mod G) 0) as [Em|Em].
  - cbn [app] in Ek. rewrite (core_next _ _ _ _ Hc Ek), Esrc.
    assert (forall l', out l' = out l ++ [pre (LWait i (t / G))] -> new_deps l' = new_deps l ->
      old_to_new l' = aset (old_to_new l) (first i + t) (idx (new_of i t)) -> staging_bytes l' = staging_bytes l ->
      tiled i (t + 1) (MkLocal (cp_indices lo) (put_indices lo) (snap_cp_indices lo) (sig_group_puts lo)
        (idx (LWait i (t / G))) (chunk_staging lo), l')) as H.
    { intros l' E1 E2 E3 E4. split; cbn [fst snd].
      - rewrite upto_tile by lia. unfold tile_keys. rewrite Eo, Em. eapply (core_snoc _ _ _ _ _ []); eauto; [by rewrite app_nil_r|].
        by apply no_edges.
      - split; cbn; rewrite ?Eo in *; try done. intros _ _. by replace (t + 1 - 1) with t by lia.
      - by eapply o2n_becomes.
      - intros Hin. rewrite E4, Est. by apply Hs. }
    unfold new_of in H. rewrite Eo in H. destruct (fits_imm _); by apply H.
  - assert (0 < t) as Ht0 by (destruct (decide (t = 0)) as [->|]; [done|lia]). rewrite (L4 Eo Ht0).
    assert ((t - 1) / G = t / G) as Ediv.
    { pose proof (Z.div_mod t G ltac:(lia)). pose proof (Z.mod_pos_bound t G HG).
      symmetry. apply Z.div_unique with (t mod G - 1); lia. }
    split; cbn [fst snd].
    + rewrite upto_tile by lia. unfold tile_keys. rewrite Eo, (proj2 (Z.eqb_neq _ _) Em), app_nil_r.
      destruct Hc. by split.
    + split; rewrite ?Eo in *; try done. intros _ _. rewrite (L4 eq_refl Ht0), Ediv. by replace (t + 1 - 1) with t by lia.
    + eapply o2n_becomes; [exact Ho|done|done|]. cbn. rewrite Ediv. unfold new_of. by rewrite Eo.
    + intros Hin. cbn. rewrite Est. by apply Hs.
Qed.

Lemma lower_reduce_ok i t lo l : op (chunk_at i) = RecvReduce -> 0 <= i < alen cs -> 0 <= t < nt i -> tiled i t (lo, l) ->
  tiled i (t + 1) (lower_reduce inplace (first i + t) (tile_at i t) lo l).
Proof.
  intros Eo Hi Ht [Hc [L1 L2 _ _] Ho Hs]. cbn [fst snd] in *.
  destruct (upto_prefix_tile i t Hi Ht) as [rest Ek]. unfold tile_keys in Ek. rewrite Eo in Ek.
  pose proof (stage_next i t Hi Ht) as Est. rewrite decide_True in Est by done.
  unfold lower_reduce. destruct (sumbool_of_bool inplace) as [Ein|Ein]; rewrite Ein in Ek |- *.
  - cbn [app] in Ek. rewrite (Hs Ein). set (l1 := emit (local_op EPut _ _ _ Output Scratch []) _).
    assert (core (upto i t ++ [LSnap i t]) l1) as Hc1.
    { eapply (core_snoc _ _ _ _ _ []); [exact Hc|exact Ek|done|by rewrite app_nil_r|by apply no_edges]. }
    assert (keys = (upto i t ++ [LSnap i t]) ++ LRed i t :: rest) as Ek2 by by rewrite Ek, <- app_assoc.
    rewrite (core_next _ _ _ _ Hc1 Ek2).
    replace (next_idx _) with (idx (LSnap i t)) by (symmetry; apply (core_next _ _ _ _ Hc Ek)).
    split; cbn [fst snd].
    + rewrite upto_tile by lia. unfold tile_keys. rewrite Eo, Ein.
      change [LSnap i t; LRed i t] with ([LSnap i t] ++ [LRed i t]). rewrite app_assoc.
      eapply (core_snoc _ l1 _ _ _ [(idx (LRed i t), idx (LSnap i t))]); [exact Hc1|exact Ek2| |done|].
      * cbn. by rewrite Ein.
      * intros x y. rewrite list_elem_of_singleton. split.
        -- intros [= -> ->]. exists (LRed i t), (LSnap i t). unfold edge, valid. cbn. by rewrite Eo.
        -- intros (a & b & He & Hem & -> & ->). destruct a, b; cbn in He, Hem; try done; injection Hem as -> ->.
           by destruct He as (<- & <- & _).
    + split; cbn; rewrite ?Eo in *; try done. cbn in L2. rewrite Ein, !decide_True in * by done.
      by rewrite L2, seqZ_snoc, map_app by lia.
    + eapply o2n_becomes; [exact Ho|done|done|]. cbn. unfold new_of. by rewrite Eo.
    + intros _. cbn. by rewrite Est.
  - cbn [app] in Ek. rewrite (core_next _ _ _ _ Hc Ek). split; cbn [fst snd].
    + rewrite upto_tile by lia. unfold tile_keys. rewrite Eo, Ein.
      eapply (core_snoc _ _ _ _ _ []); [exact Hc|exact Ek| |by rewrite app_nil_r|by apply no_edges]. cbn. by rewrite Ein.
    + split; cbn; rewrite ?Eo in *; try done. cbn in L2. rewrite L2, !decide_False by naive_solver congruence. done.
    + eapply o2n_becomes; [exact Ho|done|done|]. cbn. unfold new_of. by rewrite Eo.
    + intros Hin. congruence.
Qed.

(** The puts of the group of a tile that ends it. *)
Lemma group_edges i t : op (chunk_at i) = Put -> 0 <= i < alen cs -> 0 <= t < nt i -> group_end i t = true ->
  new_edges (fun k => k = LSig i (t / G))
    (map (pair (idx (LSig i (t / G)))) (map (fun u => idx (LPut i u)) (seqZ (t - t mod G) (t mod G + 1)))).
Proof.
  intros Eo Hi Ht Hend x y. pose proof G_pos as HG. pose proof (Z.div_mod t G ltac:(lia)) as Hdm.
  pose proof (Z.mod_pos_bound t G HG) as Hm. rewrite list_elem_of_fmap. setoid_rewrite list_elem_of_fmap.
  setoid_rewrite elem_of_seqZ. unfold group_end in Hend. split.
  - intros (y' & [= -> ->] & u & -> & Hu). exists (LSig i (t / G)), (LPut i u). unfold edge, valid. cbn. rewrite Eo.
    assert (0 <= G * (t / G)) by (pose proof (Z.div_pos t G); nia).
    split_and!; try done; try lia. symmetry. apply Z.div_unique with (u - t / G * G); lia.
  - intros (a & b & He & Hem & -> & ->). destruct a, b; cbn in He, Hem; try done; injection Hem as -> ->.
    destruct He as (<- & Ed & _ & _ & Hu). eexists. split; [done|]. eexists. split; [done|].
    pose proof (Z.div_mod t0 G ltac:(lia)). pose proof (Z.mod_pos_bound t0 G HG). rewrite Ed in *.
    apply orb_true_iff in Hend as [E%Z.eqb_eq|E%Z.eqb_eq]; lia.
Qed.

Lemma lower_put_ok i t lo l : op (chunk_at i) = Put -> 0 <= i < alen cs -> 0 <= t < nt i -> tiled i t (lo, l) ->
  tiled i (t + 1) (let '(lo, l) := lower_put (first i + t) (tile_at i t) lo l in
                   signal_group sgt (chunk_at i) (nt i) t (tile_at i t) lo l).
Proof.
  intros Eo Hi Ht [Hc [L1 L2 L3 _] Ho Hs]. cbn [fst snd] in *. pose proof G_pos as HG.
  destruct (upto_prefix_tile i t Hi Ht) as [rest Ek]. unfold tile_keys in Ek. rewrite Eo in Ek. cbn [app] in Ek.
  destruct (tile_at_get i t Hi Ht) as (_ & (_ & _ & _ & _ & _ & Edst) & _). cbn in Edst.
  assert (stage_of i (t + 1) = stage_of i t) as Est.
  { rewrite stage_next, Eo by done. cbn. rewrite Z.add_0_r. apply wrap_id, wrap_range. lia. }
  unfold lower_put. rewrite (core_next _ _ _ _ Hc Ek), (L3 Eo) by lia. set (l1 := emit _ _).
  assert (core (upto i t ++ [LPut i t]) l1) as Hc1.
  { eapply (core_snoc _ _ _ _ _ []); [exact Hc|exact Ek|done|by rewrite app_nil_r|by apply no_edges]. }
  assert (o2n_ok i (t + 1) l1) as Ho1.
  { eapply o2n_becomes; [exact Ho|done|done|]. cbn. unfold new_of. by rewrite Eo. }
  replace (map (fun u => idx (LPut i u)) (seqZ (t - t mod G) (t mod G)) ++ [idx (LPut i t)])
    with (map (fun u => idx (LPut i u)) (seqZ (t - t mod G) (t mod G + 1))); cycle 1.
  { pose proof (Z.mod_pos_bound t G HG). rewrite (seqZ_app _ _ 1), map_app, seqZ_one by lia. cbn.
    by replace (t - t mod G + t mod G) with t by lia. }
  assert (forall grp, (t + 1 < nt i -> grp = map (fun u => idx (LPut i u)) (seqZ (t + 1 - (t + 1) mod G) ((t + 1) mod G))) ->
    local_ok i (t + 1) (MkLocal (cp_indices lo) (put_indices lo ++ [idx (LPut i t)]) (snap_cp_indices lo) grp
      (cur_group_ws lo) (chunk_staging lo))) as Hloc.
  { intros grp Hg. split; cbn; rewrite ?Eo in *; try done. cbn in L1. by rewrite L1, seqZ_snoc, map_app by lia. }
  unfold signal_group. fold (group_end i t). destruct (group_end i t) eqn:Eg.
  - assert (keys = (upto i t ++ [LPut i t]) ++ LSig i (t / G) :: rest) as Ek2 by by rewrite Ek, <- app_assoc.
    rewrite (core_next _ _ _ _ Hc1 Ek2), Edst. cbn [sig_group_puts].
    assert (forall l', out l' = out l1 ++ [pre (LSig i (t / G))] ->
      new_deps l' = new_deps l1 ++ map (pair (idx (LSig i (t / G))))
        (map (fun u => idx (LPut i u)) (seqZ (t - t mod G) (t mod G + 1))) ->
      old_to_new l' = old_to_new l1 -> staging_bytes l' = staging_bytes l1 ->
      tiled i (t + 1) (MkLocal (cp_indices lo) (put_indices lo ++ [idx (LPut i t)]) (snap_cp_indices lo) []
        (cur_group_ws lo) (chunk_staging lo), l')) as H.
    { intros l' E1 E2 E3 E4. split; cbn [fst snd].
      - rewrite upto_tile by lia. unfold tile_keys. rewrite Eo, Eg.
        change (LPut i t :: [LSig i (t / G)]) with ([LPut i t] ++ [LSig i (t / G)]). rewrite app_assoc.
        eapply core_snoc; [exact Hc1|exact Ek2|exact E1|exact E2|by apply group_edges].
      - apply Hloc. intros Hlt. unfold group_end in Eg. apply orb_true_iff in Eg as [Eg%Z.eqb_eq|Eg%Z.eqb_eq]; [|lia].
        assert ((t + 1) mod G = 0) as ->; [|done]. rewrite <- Zplus_mod_idemp_l, Eg.
        replace (G - 1 + 1) with (1 * G) by lia. apply Z.mod_mul. lia.
      - destruct Ho1 as [? ?]. split; by rewrite E3.
      - intros Hin. rewrite E4, Est. by apply Hs. }
    destruct (fits_imm _); by apply H.
  - split; cbn [fst snd]; [|apply Hloc|done|].
    + rewrite upto_tile by lia. unfold tile_keys. by rewrite Eo, Eg.
    + intros Hlt. unfold group_end in Eg. apply orb_false_iff in Eg as [Eg%Z.eqb_neq _].
      pose proof (Z.mod_pos_bound t G HG) as Hm.
      assert ((t + 1) mod G = t mod G + 1) as ->.
      { rewrite <- Zplus_mod_idemp_l. apply Z.mod_small. lia. }
      do 2 f_equal. lia.
    + intros Hin. cbn. rewrite Est. by apply Hs.
Qed.

Lemma lower_tile_ok i t st : 0 <= i < alen cs -> 0 <= t < nt i -> tiled i t st ->
  tiled i (t + 1) (lower_tile inplace false sgt (chunk_at i) (first i) (nt i) os st t).
Proof.
  intros Hi Ht Hst. destruct st as [lo l], (chunk_at_get i Hi) as [_ Hin].
  destruct (tile_at_get i t Hi Ht) as (E & [Hk _] & _). cbn in Hk. unfold lower_tile. rewrite E, Hk.
  destruct (op (chunk_at i)) eqn:Eo.
  - rewrite (proj2 (Z.eqb_neq _ _) (Hpairs _ Hin)). by apply lower_put_ok.
  - by apply lower_recv_ok.
  - by apply lower_reduce_ok.
Qed.

(** ** A chunk at a time *)

Record chunked (i : Z) (l : lowering) : Prop := {
  ch_core : core (upto i 0) l;
  ch_o2n : o2n_ok i 0 l;
  ch_stage : inplace = true -> i < alen cs -> staging_bytes l = stage_of i 0;
}.

Lemma tiles_ok i l m : 0 <= i < alen cs -> 0 <= m <= nt i -> chunked i l ->
  tiled i m (foldl (lower_tile inplace false sgt (chunk_at i) (first i) (nt i) os) (fresh_local, l) (seqZ 0 m)).
Proof.
  intros Hi [Hm Hmn] [H1 H2 H3]. revert Hmn. pattern m. apply natlike_ind; [| |done]; clear m Hm.
  - intros _. split; cbn; try done; [|intros Hin; apply H3; [done|lia]]. split; cbn; try lia.
    + by destruct (decide _).
    + by destruct (decide _).
    + intros _ _. by rewrite Zmod_0_l.
  - intros m Hm IH Hmn. unfold Z.succ in *. rewrite seqZ_snoc, foldl_app by done. cbn.
    apply lower_tile_ok; [done|lia|apply IH; lia].
Qed.

(** The handshake of snapshots. *)
Lemma snapshots_ok i lo l : 0 <= i < alen cs -> tiled i (nt i) (lo, l) ->
  let l' := snapshots_done inplace (chunk_at i) lo l in
  core (upto i (nt i) ++ end_keys i) l' /\ old_to_new l' = old_to_new l /\ staging_bytes l' = staging_bytes l.
Proof.
  intros Hi [Hc [L1 L2 _ _] _ _]. cbn [fst snd] in *. destruct (chunk_at_get i Hi) as [_ Hin].
  pose proof (Hpairs _ Hin) as Hp. destruct (upto_prefix i Hi) as [rest Ek]. pose proof (nt_nonneg i).
  unfold snapshots_done. rewrite (proj2 (Z.eqb_neq _ _) Hp). cbn [negb]. rewrite andb_true_r.
  fold (snaps i). unfold end_keys in *. destruct (snaps i) eqn:Es; cbn [andb] in *; [|by rewrite app_nil_r].
  assert (inplace = true) as Ein by (unfold snaps in Es; by apply andb_true_iff in Es as [? _]).
  assert (forall f : Z -> lkey, bool_decide (map (fun u => idx (f u)) (seqZ 0 (nt i)) = []) = negb (0 <? nt i)) as Hemp.
  { intros f. destruct (Z.ltb_spec 0 (nt i)); [apply bool_decide_eq_false|apply bool_decide_eq_true].
    - by rewrite seqZ_cons by lia.
    - by rewrite seqZ_nil by lia. }
  destruct (op (chunk_at i)) eqn:Eo.
  - rewrite decide_True in L1 by done. rewrite decide_False in L2 by naive_solver. rewrite L1, L2, Hemp. cbn [negb].
    rewrite bool_decide_eq_true_2, negb_involutive by done. cbn [negb].
    destruct (Z.ltb_spec 0 (nt i)); [|by rewrite app_nil_r]. cbn [app] in Ek. rewrite (core_next _ _ _ _ Hc Ek).
    split; [|done]. eapply core_snoc; [exact Hc|exact Ek|done|done|]. intros x y.
    rewrite list_elem_of_fmap. setoid_rewrite list_elem_of_fmap. setoid_rewrite elem_of_seqZ. split.
    + intros (y' & [= -> ->] & u & -> & Hu). exists (LPut i u), (LHsWait i). unfold edge, valid. cbn. rewrite Eo.
      split_and!; try done; lia.
    + intros (a & b & He & Hem & -> & ->). destruct a, b; cbn in He, Hem; try done. injection Hem as ->.
      destruct He as (<- & (_ & _ & Hu) & _). eexists. split; [done|]. eexists. split; [done|]. cbn in Hu. lia.
  - rewrite decide_False in L1 by done. rewrite decide_False in L2 by naive_solver. rewrite L1, L2.
    rewrite !bool_decide_eq_true_2 by done. cbn. by destruct (0 <? nt i); rewrite app_nil_r.
  - rewrite decide_False in L1 by done. rewrite decide_True in L2 by done. rewrite L1, L2, Hemp, negb_involutive.
    rewrite (bool_decide_eq_true_2 (@nil Z = [])) by done. cbn [negb].
    destruct (Z.ltb_spec 0 (nt i)); [|by rewrite app_nil_r]. cbn [app] in Ek. rewrite (core_next _ _ _ _ Hc Ek).
    split; [|done]. eapply core_snoc; [exact Hc|exact Ek|done|done|]. intros x y.
    rewrite list_elem_of_fmap. setoid_rewrite list_elem_of_fmap. setoid_rewrite elem_of_seqZ. split.
    + intros (y' & [= -> ->] & u & -> & Hu). exists (LHsSig i), (LSnap i u). unfold edge, valid. cbn. rewrite Eo.
      split_and!; try done; lia.
    + intros (a & b & He & Hem & -> & ->). destruct a, b; cbn in He, Hem; try done. injection Hem as ->.
      destruct He as (<- & _ & (_ & _ & _ & Hu)). eexists. split; [done|]. eexists. split; [done|]. cbn in Hu. lia.
Qed.

Lemma first_succ i : 0 <= i -> i + 1 < alen cs -> first (i + 1) = first i + nt i.
Proof.
  intros Hi Hl. destruct (chunk_at_get i ltac:(lia)) as [Hc _], (chunk_at_get (i + 1) ltac:(lia)) as [Hc' _].
  destruct (starts_get tile Htile cs 0 i _ Hi Hc) as (f & E & _).
  destruct (starts_get tile Htile cs 0 (i + 1) _ ltac:(lia) Hc') as (f' & E' & _).
  pose proof (starts_succ tile cs 0 i _ f f' Hi Hc E E') as ->.
  unfold LowerSpec.first, at_. by rewrite E, E', (ntiles_get cs tile i _ Hc).
Qed.

Lemma lower_chunk_ok i l : 0 <= i < alen cs -> chunked i l ->
  chunked (i + 1) (lower_chunk inplace false inplace sgt (starts tile 0 cs) (map (num_tiles tile) cs) os l (i, chunk_at i)).
Proof.
  intros Hi Hl. pose proof (tiles_ok i l (nt i) Hi ltac:(pose proof (nt_nonneg i); lia) Hl) as Ht.
  unfold lower_chunk. fold (first i) (nt i).
  destruct (foldl _ _ _) as [lo l1]. destruct (snapshots_ok i lo l1 Hi Ht) as (Hc & Ho & Hs).
  destruct Ht as [_ _ [Hl2 Ho2] Hs2]. cbn [fst snd] in *. unfold copies_done. cbn [andb].
  set (l2 := snapshots_done _ _ _ _) in *. split.
  - rewrite upto_chunk by lia. destruct Hc. by split.
  - split; cbn; rewrite Ho; [done|]. intros j u Hj Hu Hb. apply Ho2; [done..|]. destruct Hb as [Hb|[_ Hb]]; [|lia].
    destruct (decide (j = i)) as [->|]; [right; split; [done|lia]|left; lia].
  - intros Hin Hlt. cbn. rewrite Hs, (Hs2 Hin). unfold stage_of. do 3 f_equal. rewrite first_succ by lia. lia.
Qed.

Lemma chunks_ok l0 m : 0 <= m <= alen cs -> chunked 0 l0 ->
  chunked m (foldl (lower_chunk inplace false inplace sgt (starts tile 0 cs) (map (num_tiles tile) cs) os) l0
    (map (fun i => (i, chunk_at i)) (seqZ 0 m))).
Proof.
  intros [Hm Hmn] H0. revert Hmn. pattern m. apply natlike_ind; [by intros _| |done]. clear m Hm.
  intros m Hm IH Hmn. unfold Z.succ in *. rewrite seqZ_snoc, map_app, foldl_app by done. cbn.
  apply lower_chunk_ok; [lia|apply IH; lia].
Qed.

(** ** The tiled plan *)

Lemma new_dep_get nds : forall l j o, 0 <= j -> (forall x y, (x, y) ∈ nds -> 0 <= x) -> aget l j = Some o ->
  exists o', aget (foldl add_new_dep l nds) j = Some o' /\ set_tdeps [] o' = set_tdeps [] o /\
    forall d, d ∈ tdeps o' <-> d ∈ tdeps o \/ (j, d) ∈ nds.
Proof.
  induction nds as [|[x y] nds IH]; intros l j o Hj Hx Ho; cbn [foldl].
  { exists o. split; [done|]. split; [done|]. set_solver. }
  assert (0 <= x) as Hx0 by (apply (Hx x y); by left).
  assert (exists o1, aget (add_new_dep l (x, y)) j = Some o1 /\ set_tdeps [] o1 = set_tdeps [] o /\
    forall d, d ∈ tdeps o1 <-> d ∈ tdeps o \/ (j = x /\ d = y)) as (o1 & E1 & S1 & D1).
  { unfold add_new_dep. cbn [fst snd]. destruct (decide (j = x)) as [->|].
    - rewrite Ho, aget_aset_eq by (split; [done|by eapply aget_Some_lt]). eexists. split; [done|]. split; [done|].
      intros d. cbn. rewrite elem_of_app, list_elem_of_singleton. naive_solver.
    - exists o. split; [|naive_solver]. destruct (aget l x); [by rewrite aget_aset_ne|done]. }
  destruct (IH _ j o1 Hj (fun x' y' H => Hx x' y' (list_elem_of_further _ _ _ H)) E1) as (o2 & E2 & S2 & D2).
  exists o2. split; [done|]. split; [by rewrite S2|]. intros d. rewrite D2, D1, elem_of_cons. naive_solver.
Qed.

Lemma new_dep_len nds : forall l, alen (foldl add_new_dep l nds) = alen l.
Proof.
  induction nds as [|[x y] nds IH]; intros l; [done|]. cbn [foldl]. rewrite IH. unfold add_new_dep. cbn.
  destruct (aget l x); [apply alen_aset|done].
Qed.

(** What an operation of the plan waits for. *)
Definition waits_for (k b : lkey) : Prop :=
  edge k b \/
  match k with
  | LPut i t | LRed i t => valid k /\ exists dep, dep ∈ deps (chunk_at i) /\ t < nt dep /\ b = new_of dep t
  | _ => False
  end.

Lemma edge_valid a b : edge a b -> valid a /\ valid b.
Proof.
  pose proof G_pos as HG. destruct a, b; cbn; try done; [by intros (_ & ?)| | |by intros (_ & ?)].
  - intros (<- & <- & Hv). split; [|done]. destruct Hv as (Hi & Ho & Ht). split; [done|]. split; [done|].
    pose proof (Z.mul_div_le t G HG). split; [apply Z.div_pos; lia|lia].
  - intros (<- & <- & Hv). split; [|done]. destruct Hv as (Hi & Ho & _ & Ht). by split.
Qed.

Lemma new_of_valid i t : 0 <= i < alen cs -> 0 <= t < nt i -> valid (new_of i t).
Proof.
  intros Hi Ht. pose proof G_pos as HG. unfold new_of. destruct (op (chunk_at i)) eqn:Eo; split; cbn; try done.
  split; [done|]. pose proof (Z.mul_div_le t G HG). split; [apply Z.div_pos; lia|lia].
Qed.

Context (Hsmall' : alen (all_tiles tile cs) < 2 ^ 32).

Lemma idx_range k : valid k -> 0 <= idx k < alen keys.
Proof. intros Hv. apply index_in_range, keys_in, Hv. Qed.

(** The dependencies that were propagated, renamed. *)
Lemma remap_tile_deps i t l d : 0 <= i < alen cs -> 0 <= t < nt i -> o2n_ok (alen cs) 0 l ->
  d ∈ map (remap (alen os) (old_to_new l)) (odeps (tile_at i t)) <->
  exists dep, dep ∈ deps (chunk_at i) /\ t < nt dep /\ d = idx (new_of dep t).
Proof.
  intros Hi Ht [Hl Ho]. destruct (tile_at_get i t Hi Ht) as (_ & _ & D), (chunk_at_get i Hi) as [_ Hin].
  assert (forall dep, dep ∈ deps (chunk_at i) -> t < nt dep ->
    remap (alen os) (old_to_new l) (wrap 32 (first dep + t)) = idx (new_of dep t)) as Hr.
  { intros dep Hdep Hlt. pose proof (Hdeps _ _ Hin Hdep) as Hd. pose proof (tile_bound dep t Hd ltac:(lia)) as Hb.
    assert (alen os < 2 ^ 32) as Hs by (by rewrite os_len).
    rewrite wrap_id by (unfold in_word; lia). unfold remap. rewrite (proj2 (Z.ltb_lt _ _)) by lia.
    rewrite Ho by (try lia; left; lia). cbn.
    pose proof (idx_range _ (new_of_valid dep t Hd ltac:(lia))). by rewrite (proj2 (Z.eqb_neq _ _)) by (unfold kNoOp; lia). }
  rewrite list_elem_of_fmap. split.
  - intros (x & -> & (dep & Hdep & Hlt & ->)%D). exists dep. split_and!; [done|done|by apply Hr].
  - intros (dep & Hdep & Hlt & ->). exists (wrap 32 (first dep + t)). split; [by rewrite Hr|]. apply D. by exists dep.
Qed.

Definition tiled_plan : list TiledOp :=
  out (lower_to_tiled inplace false inplace sgt os cs (starts tile 0 cs) (map (num_tiles tile) cs)).

Lemma tiled_plan_spec :
  alen tiled_plan = alen keys /\
  forall k, valid k -> exists o, aget tiled_plan (idx k) = Some o /\ set_tdeps [] o = set_tdeps [] (pre k) /\
    forall d, d ∈ tdeps o <-> exists b, waits_for k b /\ d = idx b.
Proof.
  unfold tiled_plan, lower_to_tiled.
  replace (imap (fun i c => (Z.of_nat i, c)) cs) with (map (fun i => (i, chunk_at i)) (seqZ 0 (alen cs))); cycle 1.
  { apply list_eq. intros j. rewrite list_lookup_fmap, list_lookup_imap. destruct (cs !! j) as [c|] eqn:E.
    - pose proof (lookup_lt_Some _ _ _ E). rewrite lookup_seqZ_lt by (unfold alen; lia). cbn.
      unfold chunk_at, aget. by rewrite Z.add_0_l, Nat2Z.id, E.
    - apply lookup_ge_None in E. rewrite lookup_seqZ_ge by (unfold alen; lia). done. }
  set (l0 := MkLow [] (replicate (length os) kNoOp) [] 0 0 [] [] []). pose proof (alen_nonneg cs).
  assert (chunked 0 l0) as H0.
  { split; cbn; [| |intros _ _; unfold stage_of; by rewrite first_0].
    - split; [by eexists|done|]. intros x y. split; [by intros ?%not_elem_of_nil|].
      intros (a & b & _ & Hem & _). by apply not_elem_of_nil in Hem.
    - split; [cbn; unfold alen at 1; by rewrite length_replicate|]. lia. }
  destruct (chunks_ok l0 (alen cs) ltac:(lia) H0) as [[_ Hout Hnew] Ho _]. cbn [out].
  set (l := foldl _ l0 _) in *.
  assert (upto (alen cs) 0 = keys) as Ek by (unfold upto, keys; by rewrite app_nil_r). rewrite Ek in *.
  assert (forall x y, (x, y) ∈ new_deps l <-> exists a b, edge a b /\ x = idx a /\ y = idx b) as Hn.
  { intros x y. rewrite (Hnew x y). split; [naive_solver|]. intros (a & b & He & -> & ->). exists a, b.
    split_and!; try done. apply keys_in. destruct (edge_valid a b He). by destruct b. }
  split.
  { rewrite new_dep_len. unfold alen. by rewrite length_map, Hout, length_map. }
  intros k Hk. pose proof (idx_range k Hk) as Hr.
  assert (aget (map (fun o => set_tdeps (map (remap (alen os) (old_to_new l)) (tdeps o)) o) (out l)) (idx k) =
    Some (set_tdeps (map (remap (alen os) (old_to_new l)) (tdeps (pre k))) (pre k))) as Eget.
  { unfold aget. rewrite Hout, !list_lookup_fmap. fold (aget keys (idx k)).
    unfold idx. rewrite index_in_get by by apply keys_in. done. }
  assert (forall x y, (x, y) ∈ new_deps l -> 0 <= x) as Hpos.
  { intros x y (a & b & He & -> & _)%Hn. by apply idx_range, (edge_valid a b). }
  destruct (new_dep_get (new_deps l) _ (idx k) _ (proj1 Hr) Hpos Eget) as (o & E & S & D).
  exists o. split; [exact E|]. split; [done|]. intros d. rewrite D. cbn [set_tdeps tdeps]. rewrite Hn.
  assert ((exists a b, edge a b /\ idx k = idx a /\ d = idx b) <-> exists b, edge k b /\ d = idx b) as ->.
  { split; [|naive_solver]. intros (a & b & He & Ea & ->). exists b. split; [|done].
    replace k with a; [done|]. destruct (edge_valid a b He) as [Ha _].
    pose proof (index_in_get _ _ (proj2 (keys_in a) Ha)) as G1. pose proof (index_in_get _ _ (proj2 (keys_in k) Hk)) as G2.
    unfold idx in Ea. congruence. }
  assert (d ∈ map (remap (alen os) (old_to_new l)) (tdeps (pre k)) <-> exists b,
    match k with
    | LPut i t | LRed i t => valid k /\ exists dep, dep ∈ deps (chunk_at i) /\ t < nt dep /\ b = new_of dep t
    | _ => False
    end /\ d = idx b) as ->; [|unfold waits_for; naive_solver].
  destruct k as [i t|i g|i g|i t|i t|i|i]; cbn [pre tdeps signal_op local_op map];
    try (split; [by intros ?%not_elem_of_nil|naive_solver]); pose proof Hk as (Hi & _ & Ht); cbn in Hi, Ht.
  - rewrite remap_tile_deps by done. naive_solver.
  - replace (tdeps (if inplace then _ else _)) with (odeps (tile_at i t)) by by destruct inplace.
    rewrite remap_tile_deps by done. naive_solver.
Qed.
End lower.
End LowerSpec.
