(* ===== verification/Collective.v ===== *)
(** * Running the plans of a collective

    The ranks run the operations of their tiled plans ([Lower.v]) in any order in
    which each follows its dependencies, at any relative speed: a [Put] writes
    local or remote memory, a [Reduce] combines two local buffers element by
    element, a [Signal] sends its tag to a peer and a [WaitSignal] takes one.  This
    is what [executor.cc] asks of its backends.

    An element is at the byte offset where it begins. *)

From S2P Require Import Prelude ChunkGraph Lower.

Module Collective.
Import ChunkGraph Lower.

Section run.
Context {V : Type} (vop : V -> V -> V) (elem : Z) (inplace : bool) (plan : Z -> list TiledOp).

(** The memory of the ranks by buffer and offset, the tags under way from a rank
    to another, and the operations that are done. *)
Record world := MkWorld {
  mem : Z -> CollectiveBufferRole -> Z -> V;
  tags : list (Z * Z * Z);
  done : gset (Z * Z);
}.

(** In place, the input is the output buffer. *)
Definition buffer (b : CollectiveBufferRole) : CollectiveBufferRole :=
  match b with Input => if inplace then Output else Input | _ => b end.

Definition write (r : Z) (b : CollectiveBufferRole) (f : Z -> V) (m : Z -> CollectiveBufferRole -> Z -> V) :
    Z -> CollectiveBufferRole -> Z -> V :=
  fun r' b' => if bool_decide (r' = r /\ b' = b) then f else m r' b'.

(** What the executor hands to a backend: offsets and lengths are cut to 32 bits.
    The reduction is [vop]; the path of a [Put], the flags and the count of a wait
    have their default values. *)
Record Cmd := MkCmd {
  ckind : ExecOpKind;
  csrc_buf : CollectiveBufferRole;
  cdst_buf : CollectiveBufferRole;
  csrc_off : Z;
  cdst_off : Z;
  cbytes : Z;
  csrc_peer : Z;
  cdst_peer : Z;
  ctag : Z;
}.

Definition make_cmd (o : TiledOp) : Cmd :=
  MkCmd (tkind o) (buffer (src_buf_role o)) (buffer (dst_buf_role o)) (wrap 32 (tsrc_off o)) (wrap 32 (tdst_off o))
    (wrap 32 (tbytes o)) (tsrc_peer o) (tdst_peer o) (ttag o).

Definition copy (c : Cmd) (from to : Z -> V) : Z -> V :=
  fun x => if (cdst_off c <=? x) && (x <? cdst_off c + cbytes c) then from (csrc_off c + (x - cdst_off c)) else to x.

Definition combine (c : Cmd) (from to : Z -> V) : Z -> V :=
  fun x => if (cdst_off c <=? x) && (x <? cdst_off c + cbytes c / elem * elem) && ((x - cdst_off c) mod elem =? 0)
           then vop (to x) (from (csrc_off c + (x - cdst_off c))) else to x.

Fixpoint remove_tag (t : Z * Z * Z) (l : list (Z * Z * Z)) : option (list (Z * Z * Z)) :=
  match l with
  | [] => None
  | x :: l => if decide (x = t) then Some l else l' ← remove_tag t l; Some (x :: l')
  end.

(** A command of rank [r]; [None] while the tag has not arrived. *)
Definition exec (r : Z) (c : Cmd) (w : world) : option (world) :=
  let to := if cdst_peer c =? 0xFFFFFFFF then r else cdst_peer c in
  match ckind c with
  | EPut =>
      Some (MkWorld (write to (cdst_buf c) (copy c (mem w r (csrc_buf c)) (mem w to (cdst_buf c))) (mem w))
              (tags w) (done w))
  | Reduce =>
      Some (MkWorld (write r (cdst_buf c) (combine c (mem w r (csrc_buf c)) (mem w r (cdst_buf c))) (mem w))
              (tags w) (done w))
  | Signal => Some (MkWorld (mem w) (tags w ++ [(r, cdst_peer c, ctag c)]) (done w))
  | WaitSignal => l ← remove_tag (csrc_peer c, r, ctag c) (tags w); Some (MkWorld (mem w) l (done w))
  end.

(** A step of rank [r]: an operation all of whose dependencies are done. *)
Definition try_op (r i : Z) (o : TiledOp) (w : world) : option world :=
  if bool_decide ((r, i) ∉ done w /\ 0 <= i /\ Forall (fun d => (r, d) ∈ done w) (tdeps o)) then
    w' ← exec r (make_cmd o) w; Some (MkWorld (mem w') (tags w') ({[ (r, i) ]} ∪ done w'))
  else None.
Definition try_step (r i : Z) (w : world) : option world := o ← aget (plan r) i; try_op r i o w.

Definition step (w w' : world) : Prop := exists r i, try_step r i w = Some w'.

(** A schedule that tries every operation of every rank in turn, a number of
    times. *)
Definition sweep (ranks : list Z) (w : world) : world :=
  foldl (fun w r => foldl (fun w '(i, o) => default w (try_op r i o w)) w (imap (fun i o => (Z.of_nat i, o)) (plan r))) w ranks.
Fixpoint sweeps (k : nat) (ranks : list Z) (w : world) : world :=
  match k with O => w | S k => sweeps k ranks (sweep ranks w) end.

Lemma sweep_steps ranks w : rtc step w (sweep ranks w).
Proof.
  unfold sweep. revert w. induction ranks as [|r ranks IH]; intros w; [done|]. cbn [foldl]. etrans; [|apply IH].
  assert (forall x, x ∈ imap (fun i o => (Z.of_nat i, o)) (plan r) -> aget (plan r) x.1 = Some x.2) as Hp.
  { intros [i o] (j & o' & [= -> ->] & Hj)%elem_of_lookup_imap. cbn. unfold aget. by rewrite Nat2Z.id. }
  revert Hp. generalize (imap (fun i o => (Z.of_nat i, o)) (plan r)). intros l. revert w.
  induction l as [|[i o] l IHl]; intros w Hp; [done|]. cbn [foldl]. etrans; [|apply IHl; intros x Hx; apply Hp; by right].
  destruct (try_op r i o w) as [w'|] eqn:E; cbn; [|done]. apply rtc_once. exists r, i.
  pose proof (Hp (i, o) ltac:(by left)) as Eo. cbn in Eo. unfold try_step. by rewrite Eo.
Qed.

Lemma sweeps_steps k ranks w : rtc step w (sweeps k ranks w).
Proof. revert w. induction k as [|k IH]; intros w; [done|]. cbn. etrans; [apply sweep_steps|apply IH]. Qed.


(** No operation of [ranks] can go on. *)
Definition blocked (ranks : list Z) (w : world) : bool :=
  forallb (fun r => forallb (fun i => match try_step r i w with None => true | Some _ => false end)
    (seqZ 0 (alen (plan r)))) ranks.

Lemma blocked_stuck ranks w : (forall r, r ∉ ranks -> plan r = []) -> blocked ranks w = true -> forall w', ~ step w w'.
Proof.
  intros Hout Hb w' (r & i & E). assert (r ∈ ranks /\ 0 <= i < alen (plan r)) as [Hr Hi].
  { unfold try_step in E. destruct (aget (plan r) i) as [o|] eqn:Eo; [|done]. split.
    - destruct (decide (r ∈ ranks)) as [|Hr]; [done|]. by rewrite (Hout r Hr) in Eo.
    - cbn in E. unfold try_op in E. case_bool_decide as H; [|done]. destruct H as (_ & Hi & _). split; [done|]. by eapply aget_Some_lt. }
  unfold blocked in Hb. rewrite forallb_forall in Hb. specialize (Hb r ltac:(by apply list_elem_of_In)). rewrite forallb_forall in Hb.
  specialize (Hb i ltac:(apply list_elem_of_In, elem_of_seqZ; lia)). by rewrite E in Hb.
Qed.
End run.
Arguments MkWorld {V} _ _ _.
Arguments mem {V} _ _ _ _.
Arguments tags {V} _.
Arguments done {V} _.

Definition plan_of (c : Z -> CollectiveConfig) (inplace : bool) (r : Z) : list TiledOp :=
  match build_tiled (c r) inplace with Planned t => ops t | Invalid _ => [] end.
End Collective.
