(* ===== verification/RingPlan.v ===== *)
(** * The plans of a ring all-reduce

    The tiled plans of all ranks of an all-reduce, from [ChunkGraph.v] and
    [LowerSpec.v] together: the operations of a rank by the shard and the tile
    they are about, the command each of them gives to a backend and the
    operations it waits for. *)

From S2P Require Import Prelude ChunkGraph Lower LowerSpec Collective.

Module RingPlan.
Import ChunkGraph Lower LowerSpec Collective.

(** The configuration of rank [r]. *)
Definition at_rank (c : CollectiveConfig) (r : Z) : CollectiveConfig :=
  MkConfig (kind c) (nranks c) r (input_bytes c) (output_bytes c) (tile_bytes c) (input_split_bytes c)
    (output_split_bytes c) (dtype c) (reduction c) (signal_group_tiles c).

Lemma wait_div t m : 0 < m -> 0 <= t -> 0 <= t / m /\ t / m * m <= t.
Proof. intros Hm Ht. pose proof (Z.mul_div_le t m Hm). split; [apply Z.div_pos; lia|lia]. Qed.

Lemma bind_alen_le {A B} (f : A -> list B) (w : Z) (l : list A) :
  (forall x, x ∈ l -> alen (f x) <= w) -> alen (l ≫= f) <= w * alen l.
Proof.
  induction l as [|x l IH]; intros Hf; cbn; [change (0 <= w * 0); lia|]. rewrite alen_app, alen_cons.
  pose proof (Hf x ltac:(by left)). assert (alen (l ≫= f) <= w * alen l) by (apply IH; intros y Hy; apply Hf; by right).
  lia.
Qed.

Lemma bind_seqZ_le {B} (f : Z -> list B) (w m : Z) :
  0 <= m -> (forall i, 0 <= i < m -> alen (f i) <= w) -> alen (seqZ 0 m ≫= f) <= w * m.
Proof.
  intros Hm Hf. assert (alen (seqZ 0 m) = m) as E by (unfold alen; rewrite length_seqZ; lia).
  rewrite <- E at 2. apply bind_alen_le. intros i Hi%elem_of_seqZ. apply Hf. lia.
Qed.

Definition zsum : list Z -> Z := foldr Z.add 0.

Lemma zsum_app l k : zsum (l ++ k) = zsum l + zsum k.
Proof. induction l as [|x l IH]; [done|]. cbn. fold (zsum (l ++ k)). rewrite IH. unfold zsum. lia. Qed.

Lemma zsum_nonneg l : Forall (fun x => 0 <= x) l -> 0 <= zsum l.
Proof. induction 1 as [|x l Hx _ IH]; cbn; [done|lia]. Qed.

Lemma zsum_map_sub (f : Z -> Z) (l k : list Z) :
  NoDup l -> (forall x, x ∈ l -> x ∈ k) -> (forall x, x ∈ k -> 0 <= f x) -> zsum (map f l) <= zsum (map f k).
Proof.
  intros Hn Hs Hf. destruct (submseteq_Permutation l k) as [k' Hk]; [by apply NoDup_submseteq|].
  assert (zsum (map f k) = zsum (map f (l ++ k'))) as ->.
  { clear -Hk. induction Hk; cbn in *; unfold zsum in *; cbn; lia. }
  rewrite map_app, zsum_app. pose proof (zsum_nonneg (map f k')) as H. rewrite Forall_map in H. cbn in H.
  assert (0 <= zsum (map f k')); [|lia]. apply H, Forall_forall. intros x Hx. apply Hf. rewrite Hk. set_solver.
Qed.

(** The operations of a rank: the write of a tile, the signal and the wait of a
    group of tiles in either phase, the snapshot and the reduction of a tile, and
    the handshake after the snapshots of a shard. *)
Inductive rkey :=
| RPut (g : bool) (s t : Z) | RSig (g : bool) (s q : Z) | RWait (g : bool) (s q : Z)
| RSnap (s t : Z) | RRed (s t : Z) | RHsSig (s : Z) | RHsWait (s : Z).

Definition kshard (k : rkey) : Z :=
  match k with
  | RPut _ s _ | RSig _ s _ | RWait _ s _ | RSnap s _ | RRed s _ | RHsSig s | RHsWait s => s
  end.

Definition kckey (k : rkey) : ckey :=
  match k with
  | RPut g s _ | RSig g s _ => CPut g s
  | RWait g s _ => CRecv g s
  | RSnap s _ | RRed s _ | RHsSig s => CRed s
  | RHsWait s => CPut false s
  end.

Section plan.
Context (c : CollectiveConfig) (inplace : bool).
Abbreviation n := (nranks c).
Abbreviation tile := (tile_bytes c).
Abbreviation sgt := (signal_group_tiles c).
Abbreviation G := (Lower.G sgt).
Abbreviation cfg := (at_rank c).
Abbreviation off := (shard_offset c).
Abbreviation size := (shard_size c).

(** The tiles of a shard. *)
Definition tiles_of (s : Z) : Z := ceil_div (size s) tile.

(** An all-reduce that fits: tensors below 4 GiB, as the offsets of commands need;
    the tile groups of a shard are numbered below [0xFFFE], so that tags differ;
    the operations of a rank have 32-bit indices. *)
Record ring_ok : Prop := {
  ro_kind : kind c = AllReduceRing;
  ro_ranks : 2 <= n < 2 ^ 29;
  ro_bytes : 0 < input_bytes c < 2 ^ 32;
  ro_aligned : input_bytes c mod scalar_type_size (dtype c) = 0;
  ro_tile : 0 < tile < 2 ^ 32;
  ro_group : 0 <= sgt;
  ro_groups : tiles_of 0 <= 0xFFFE * G;
  ro_ops : 15 * n * (tiles_of 0 + 1) < 2 ^ 32;
}.
Context (Hok : ring_ok).

Lemma cfg_ok r : 0 <= r < n -> allreduce_ok (cfg r).
Proof. intros Hr. destruct Hok. split; cbn; lia. Qed.

Lemma cfg0_ok : allreduce_ok (cfg 0).
Proof. apply cfg_ok. destruct Hok. lia. Qed.

(** Shards do not depend on the rank. *)
Lemma size_pos s : 0 <= s < n -> 0 <= size s.
Proof. apply (shard_size_pos (cfg 0) cfg0_ok). Qed.

Lemma shard_bounds s : 0 <= s < n -> 0 <= off s /\ off s + size s <= input_bytes c.
Proof.
  intros Hs. pose proof cfg0_ok as H0.
  pose proof (shard_offset_mono _ H0 0 s ltac:(lia) ltac:(cbn; lia)) as H1.
  pose proof (shard_offset_mono _ H0 (s + 1) n ltac:(lia) ltac:(cbn; lia)) as H2.
  pose proof (shard_first _ H0) as H3. pose proof (shard_last _ H0) as H4. pose proof (shard_next _ H0 s ltac:(cbn; lia)) as H5.
  change (shard_offset (cfg 0)) with off in *. change (shard_size (cfg 0)) with size in *. cbn in H4. lia.
Qed.

Lemma size_le_0 s : 0 <= s < n -> size s <= size 0.
Proof.
  intros Hs. pose proof cfg0_ok as H0. destruct Hok. pose proof (elem_pos (cfg 0)) as He. cbn in He.
  pose proof (shard_size_eq _ H0 s ltac:(cbn; lia)) as E1. pose proof (shard_size_eq _ H0 0 ltac:(cbn; lia)) as E2.
  change (shard_size (cfg 0)) with size in *. rewrite E1, E2. cbn.
  assert (0 <= (input_bytes c / scalar_type_size (dtype c)) mod n) by (apply Z.mod_pos_bound; lia).
  z_cases; nia.
Qed.

Lemma tiles_eq s : 0 <= s < n -> tiles_of s = (size s + tile - 1) / tile.
Proof.
  intros Hs. pose proof (shard_bounds s Hs). pose proof (size_pos s Hs). destruct Hok. unfold tiles_of, ceil_div.
  rewrite (proj2 (Z.eqb_neq tile 0)) by lia. by rewrite !wrap_id by (unfold in_word; rewrite ?wrap_id by (unfold in_word; lia); lia).
Qed.

Lemma tiles_le s : 0 <= s < n -> 0 <= tiles_of s <= tiles_of 0.
Proof.
  intros Hs. pose proof (size_pos s Hs). pose proof (size_le_0 s Hs). destruct Hok. rewrite !tiles_eq by lia.
  split; [apply Z.div_pos|apply Z.div_le_mono]; lia.
Qed.

(** The bytes of a tile. *)
Definition tile_off (s t : Z) : Z := off s + t * tile.
Definition tile_len (s t : Z) : Z := Z.min tile (size s - t * tile).

Lemma tile_in s t : 0 <= s < n -> 0 <= t < tiles_of s ->
  off s <= tile_off s t /\ 0 < tile_len s t /\ tile_off s t + tile_len s t <= off s + size s.
Proof.
  intros Hs Ht. rewrite tiles_eq in Ht by done. destruct Hok. unfold tile_off, tile_len.
  pose proof (Z.mul_div_le (size s + tile - 1) tile ltac:(lia)). nia.
Qed.

Lemma tile_words s t : 0 <= s < n -> 0 <= t < tiles_of s ->
  0 <= tile_off s t < 2 ^ 32 /\ 0 < tile_len s t < 2 ^ 32 /\ 0 <= t * tile < 2 ^ 32.
Proof.
  intros Hs Ht. pose proof (tile_in s t Hs Ht). pose proof (shard_bounds s Hs). destruct Hok.
  unfold tile_off, tile_len in *. nia.
Qed.

Definition in_tile (s t x : Z) : Prop :=
  0 <= s < n /\ 0 <= t < tiles_of s /\ tile_off s t <= x < tile_off s t + tile_len s t.

Lemma in_tile_exists x : 0 <= x < input_bytes c -> exists s t, in_tile s t x.
Proof.
  intros Hx. destruct (shard_exists _ cfg0_ok x Hx) as (s & Hs & Hxs).
  change (shard_offset (cfg 0)) with off in *. change (shard_size (cfg 0)) with size in *. cbn in Hs.
  exists s, ((x - off s) / tile). split; [done|]. rewrite tiles_eq by done. destruct Hok.
  pose proof (Z.mul_div_le (x - off s) tile ltac:(lia)). pose proof (Z.mul_succ_div_gt (x - off s) tile ltac:(lia)).
  unfold tile_off, tile_len. split; [|nia]. split; [apply Z.div_pos; lia|].
  apply Z.lt_le_trans with ((x - off s) / tile + 1); [lia|]. apply Z.div_le_lower_bound; lia.
Qed.

Lemma in_tile_unique s t s' t' x : in_tile s t x -> in_tile s' t' x -> s = s' /\ t = t'.
Proof.
  intros (Hs & Ht & Hx) (Hs' & Ht' & Hx'). pose proof (tile_in s t Hs Ht). pose proof (tile_in s' t' Hs' Ht').
  assert (s = s') as <- by (apply (shard_disjoint _ cfg0_ok s s' x); cbn; try done;
    change (shard_offset (at_rank c 0)) with off; change (shard_size (at_rank c 0)) with size; lia).
  split; [done|]. unfold tile_off, tile_len in *. destruct Hok. nia.
Qed.

(** ** Chunks *)

Definition chunks_of (r : Z) : list Chunk := chunks (build_allreduce_ring_algo (cfg r)).
#[local] Arguments chunks_of _ : simpl never.
Definition ci (r : Z) (k : ckey) : Z := index_in (plan_keys (cfg r)) k.

Definition cshard (k : ckey) : Z := match k with CPut _ s | CRecv _ s | CRed s => s end.
Definition cpair (k : ckey) : Z := match k with CPut g s | CRecv g s => pair_of g s | CRed s => pair_of false s end.

Section rank.
Context (r : Z) (Hr : 0 <= r < n).
Abbreviation cs := (chunks_of r).
Abbreviation nt := (ntiles cs tile).

Lemma chunks_len : alen cs = alen (plan_keys (cfg r)).
Proof. unfold chunks_of. rewrite allreduce_plan by by apply cfg_ok. unfold alen. by rewrite length_map. Qed.

Lemma ci_range k : in_plan (cfg r) k -> 0 <= ci r k < alen cs.
Proof. intros Hk. rewrite chunks_len. apply index_in_range, plan_keys_in; [by apply cfg_ok|done]. Qed.

Lemma chunk_ci k : in_plan (cfg r) k -> chunk_at cs (ci r k) = chunk_spec (cfg r) (ci r) k.
Proof.
  intros Hk. unfold chunk_at, chunks_of, aget. rewrite allreduce_plan, list_lookup_fmap by by apply cfg_ok.
  change (plan_keys (cfg r) !! Z.to_nat (ci r k)) with (aget (plan_keys (cfg r)) (ci r k)). unfold ci at 1.
  rewrite index_in_get; [done|]. apply plan_keys_in; [by apply cfg_ok|done].
Qed.

Lemma ci_inj k k' : in_plan (cfg r) k -> in_plan (cfg r) k' -> ci r k = ci r k' -> k = k'.
Proof.
  intros Hk Hk' E. assert (aget (plan_keys (cfg r)) (ci r k) = Some k) as E1
    by (apply index_in_get, plan_keys_in; [by apply cfg_ok|done]).
  assert (aget (plan_keys (cfg r)) (ci r k') = Some k') as E2
    by (apply index_in_get, plan_keys_in; [by apply cfg_ok|done]). congruence.
Qed.

Lemma ci_surj i : 0 <= i < alen cs -> exists k, in_plan (cfg r) k /\ i = ci r k.
Proof.
  intros Hi. rewrite chunks_len in Hi. destruct (aget_is_Some _ _ Hi) as [k Hk]. exists k. split.
  - apply plan_keys_in; [by apply cfg_ok|]. by eapply list_elem_of_lookup_2.
  - symmetry. apply index_in_unique; [by apply plan_keys_nodup, cfg_ok|lia|done].
Qed.

Lemma in_plan_shard k : in_plan (cfg r) k -> 0 <= cshard k < n /\ 0 < size (cshard k).
Proof. intros [Hk|Hk]; destruct k as [[] s|[] s|s]; cbn in Hk |- *; try done; tauto. Qed.

Lemma nt_ci k : in_plan (cfg r) k -> nt (ci r k) = tiles_of (cshard k).
Proof.
  intros Hk. destruct (chunk_at_get cs (ci r k) (ci_range k Hk)) as [E _].
  rewrite (ntiles_get _ _ _ _ E), (chunk_ci k Hk). by destruct k.
Qed.

Lemma tiles_pos k : in_plan (cfg r) k -> 0 < tiles_of (cshard k).
Proof.
  intros [Hs Hz]%in_plan_shard. rewrite tiles_eq by done. destruct Hok.
  apply Z.lt_le_trans with 1; [lia|]. apply Z.div_le_lower_bound; lia.
Qed.

Lemma chunk_deps_ok ch d : ch ∈ cs -> d ∈ deps ch -> 0 <= d < alen cs.
Proof.
  unfold chunks_of at 1. rewrite allreduce_plan, list_elem_of_fmap by by apply cfg_ok.
  intros (k & -> & Hk) Hd. pose proof (cdeps_in_plan _ (cfg_ok r Hr) k Hk) as Hc.
  assert (d ∈ map (index_in (plan_keys (cfg r))) (cdeps (cfg r) k)) as (b & -> & Hb)%list_elem_of_fmap by (by destruct k).
  rewrite chunks_len. apply index_in_range. by eapply Forall_forall in Hc.
Qed.

Lemma pair_range k : in_plan (cfg r) k -> 0 <= cpair k < 2 ^ 30.
Proof. intros [Hs _]%in_plan_shard. destruct Hok. destruct k as [[] s|[] s|s]; cbn in *; unfold pair_of; lia. Qed.

Lemma chunk_pairs_ok ch : ch ∈ cs -> pair_id ch <> kNoPairId.
Proof.
  unfold chunks_of at 1. rewrite allreduce_plan, list_elem_of_fmap by by apply cfg_ok. intros (k & -> & Hk).
  rewrite plan_keys_in in Hk by by apply cfg_ok. pose proof (pair_range k Hk). unfold kNoPairId. destruct k; cbn in *; lia.
Qed.

(** ** How many operations there are *)

Lemma chunks_count : alen cs <= 5 * n.
Proof.
  destruct Hok. rewrite chunks_len. unfold plan_keys. cbn. rewrite alen_app.
  pose proof (steps_len (reduce_keys (cfg r)) (n - 1) 3 ltac:(lia) (reduce_len (cfg r))).
  pose proof (steps_len (gather_keys (cfg r)) (n - 1) 2 ltac:(lia) (gather_len (cfg r))). lia.
Qed.

Lemma nt_le i : 0 <= i < alen cs -> 0 <= nt i <= tiles_of 0.
Proof.
  intros (k & Hk & ->)%ci_surj. rewrite nt_ci by done. apply tiles_le. by apply in_plan_shard.
Qed.

Lemma tiles_small : alen (all_tiles tile cs) < 2 ^ 32.
Proof.
  pose proof chunks_count as Hc. pose proof (alen_nonneg cs). pose proof (tiles_le 0 ltac:(lia)) as H0. destruct Hok.
  assert (alen (all_tiles tile cs) <= tiles_of 0 * alen cs); [|nia].
  apply bind_alen_le. intros ch (i & Hi)%list_elem_of_lookup. rewrite chunk_tiles_len by lia.
  assert (aget cs (Z.of_nat i) = Some ch) as E by (unfold aget; by rewrite Nat2Z.id).
  pose proof (aget_Some_lt _ _ _ (Nat2Z.is_nonneg i) E). rewrite <- (ntiles_get cs tile (Z.of_nat i) ch E). apply nt_le. lia.
Qed.

Lemma keys_small : alen (keys cs tile inplace sgt) < 2 ^ 32.
Proof.
  pose proof chunks_count as Hc. pose proof (alen_nonneg cs). pose proof (tiles_le 0 ltac:(lia)) as H0. destruct Hok.
  assert (alen (keys cs tile inplace sgt) <= (2 * tiles_of 0 + 1) * alen cs) as Hk; [|nia].
  apply bind_seqZ_le; [done|]. intros i Hi.
  pose proof (nt_le i ltac:(lia)) as Hn. unfold chunk_keys. rewrite alen_app.
  assert (alen (seqZ 0 (nt i) ≫= tile_keys cs tile inplace sgt i) <= 2 * nt i).
  { apply bind_seqZ_le; [lia|]. intros t _. unfold tile_keys.
    destruct (op _); [destruct (group_end _ _ _ _ _)|destruct (_ =? 0)|destruct inplace]; done. }
  assert (alen (end_keys cs tile inplace i) <= 1); [|lia].
  unfold end_keys. destruct (_ && _); [|done]. by destruct (op _).
Qed.

(** ** Keys *)

Definition lk (k : rkey) : lkey :=
  let i := ci r (kckey k) in
  match k with
  | RPut _ _ t => LPut i t
  | RSig _ _ q => LSig i q
  | RWait _ _ q => LWait i q
  | RSnap _ t => LSnap i t
  | RRed _ t => LRed i t
  | RHsSig _ => LHsSig i
  | RHsWait _ => LHsWait i
  end.

Definition rvalid (k : rkey) : Prop :=
  in_plan (cfg r) (kckey k) /\
  match k with
  | RPut _ s t | RRed s t => 0 <= t < tiles_of s
  | RSnap s t => inplace = true /\ 0 <= t < tiles_of s
  | RSig _ s q | RWait _ s q => 0 <= q /\ q * G < tiles_of s
  | RHsSig _ | RHsWait _ => inplace = true
  end.

Abbreviation valid := (LowerSpec.valid cs tile inplace sgt).

Lemma lk_valid k : rvalid k -> valid (lk k).
Proof.
  intros [Hk Hv]. pose proof (ci_range _ Hk) as Hi. pose proof (chunk_ci _ Hk) as Hc. pose proof (nt_ci _ Hk) as Hn.
  pose proof (tiles_pos _ Hk) as Hp.
  destruct k; cbn [lk kckey] in *; (split; [done|]); rewrite ?Hn, ?Hc; cbn in *; try (split; [done|exact Hv]);
    unfold snaps; rewrite Hc, Hv; cbn; unfold pair_of; rewrite Z.add_0_r, Z.mul_comm, Z.mod_mul by lia; done.
Qed.

Lemma lk_surj l : valid l -> exists k, rvalid k /\ lk k = l.
Proof.
  intros [Hi Hv]. destruct (ci_surj _ Hi) as (ck & Hk & E).
  pose proof (chunk_ci _ Hk) as Hc. pose proof (nt_ci _ Hk) as Hn. rewrite <- E in Hc, Hn.
  assert (forall i, snaps cs inplace i = true -> inplace = true /\ pair_id (chunk_at cs i) mod 2 = 0) as Hs.
  { intros i [H1 H2%Z.eqb_eq]%andb_true_iff. done. }
  destruct l as [i t|i g|i g|i t|i t|i|i]; cbn [kchunk] in E, Hc, Hn; subst i; cbn in Hv; rewrite ?Hc, ?Hn in Hv;
    destruct ck as [g' s|g' s|s]; cbn in Hv; destruct Hv as [Ho Hv]; try done.
  - by exists (RPut g' s t).
  - by exists (RSig g' s g).
  - by exists (RWait g' s g).
  - by exists (RSnap s t).
  - by exists (RRed s t).
  - destruct Hv as [[Hp _]%Hs _]. by exists (RHsSig s).
  - destruct Hv as [[Hp Hm]%Hs _]. rewrite Hc in Hm. cbn in Hm. destruct g'; [|by exists (RHsWait s)].
    exfalso. unfold pair_of in Hm. replace (2 * s + 1) with (1 + s * 2) in Hm by lia. by rewrite Z.mod_add in Hm by lia.
Qed.

Lemma lk_inj k k' : rvalid k -> rvalid k' -> lk k = lk k' -> k = k'.
Proof.
  intros [Hk _] [Hk' _] E. assert (kckey k = kckey k') as Ec.
  { apply ci_inj; [done|done|]. destruct k, k'; cbn [lk] in E; by simplify_eq. }
  destruct k, k'; cbn [lk kckey] in *; simplify_eq; done.
Qed.

(** ** Tiles of the plan *)

Lemma cdeps_shard k b : b ∈ cdeps (cfg r) k -> cshard b = cshard k.
Proof.
  destruct k as [[] s|[] s|s]; cbn; repeat case_match; intros Hb; try by apply not_elem_of_nil in Hb.
  all: by apply list_elem_of_singleton in Hb as ->.
Qed.

Lemma cdeps_in k b : in_plan (cfg r) k -> b ∈ cdeps (cfg r) k -> in_plan (cfg r) b.
Proof.
  intros Hk Hb. pose proof (cfg_ok r Hr) as Hc. apply (plan_keys_in _ Hc).
  apply (plan_keys_in _ Hc) in Hk. pose proof (cdeps_in_plan _ Hc k Hk) as Hf. by eapply Forall_forall in Hf.
Qed.

Lemma tile_spec k t : in_plan (cfg r) k -> 0 <= t < tiles_of (cshard k) ->
  let x := tile_at cs tile (ci r k) t in
  obytes x = tile_len (cshard k) t /\ osrc_off x = tile_off (cshard k) t /\ odst_off x = tile_off (cshard k) t /\
  osrc_peer x = peer_word (src_rank (chunk_spec (cfg r) (ci r) k)) /\
  odst_peer x = peer_word (dst_rank (chunk_spec (cfg r) (ci r) k)) /\
  forall d, d ∈ odeps x <-> exists b, b ∈ cdeps (cfg r) k /\ d = wrap 32 (first cs tile (ci r b) + t).
Proof.
  intros Hk Ht x. pose proof (ci_range _ Hk) as Hi. pose proof (chunk_ci _ Hk) as Hc. pose proof (nt_ci _ Hk) as Hn.
  destruct (in_plan_shard _ Hk) as [Hs _].
  destruct (tile_at_get cs tile ltac:(apply Hok) (ci r k) t Hi ltac:(lia)) as (_ & (_ & S1 & S2 & S3 & S4 & S5) & D).
  fold x in S1, S2, S3, S4, S5, D. rewrite Hc in *.
  pose proof (tile_words _ t Hs Ht) as (W1 & W2 & W3). pose proof (shard_bounds _ Hs) as Hb. pose proof (ro_bytes Hok) as Hb'.
  pose proof (size_pos _ Hs) as Hz. unfold tile_off, tile_len in *.
  assert (wrap 64 (t * tile) = t * tile) as Ew by (apply wrap_id; unfold in_word; lia).
  rewrite S1, S2, S3, S4, S5. unfold tile_op. cbn [obytes osrc_off odst_off osrc_peer odst_peer]. rewrite Ew.
  assert (bytes (chunk_spec (cfg r) (ci r) k) = size (cshard k)) as -> by by destruct k.
  assert (src_off (chunk_spec (cfg r) (ci r) k) = off (cshard k)) as -> by by destruct k.
  assert (dst_off (chunk_spec (cfg r) (ci r) k) = off (cshard k)) as -> by by destruct k.
  rewrite !wrap_id by (unfold in_word; lia). split_and!; try done. intros d. rewrite D.
  assert (deps (chunk_spec (cfg r) (ci r) k) = map (ci r) (cdeps (cfg r) k)) as -> by by destruct k.
  setoid_rewrite list_elem_of_fmap. split.
  - intros (dep & (b & -> & Hb2) & _ & ->). by exists b.
  - intros (b & Hb2 & ->). exists (ci r b). split; [by exists b|]. split; [|done].
    assert (in_plan (cfg r) b) as Hbp by by eapply cdeps_in.
    rewrite nt_ci, (cdeps_shard _ _ Hb2) by done. lia.
Qed.

(** ** The scratch buffer *)

Abbreviation os := (lowered_tiles cs tile).
Definition stage (s t : Z) : Z := stage_of cs tile (ci r (CRed s)) t.

Lemma stage_sum_nonneg l : Forall (fun o => 0 <= obytes o) l -> 0 <= stage_sum l.
Proof. induction 1; cbn; [done|]. case_decide; lia. Qed.

Lemma stage_sum_same (l l' : list Op) : Forall2 same_but_deps l l' -> stage_sum l' = stage_sum l.
Proof. induction 1 as [|o o' l l' (E1 & E2 & _) _ IH]; [done|]. cbn. by rewrite E1, E2, IH. Qed.

Lemma os_same : Forall2 same_but_deps (all_tiles tile cs) os.
Proof.
  destruct (propagate_grows cs tile ltac:(apply Hok)) as [Hl Hp]. apply Forall2_same_length_lookup_2.
  { unfold alen in Hl. lia. }
  intros j o o' Ho Ho'. assert (aget (all_tiles tile cs) (Z.of_nat j) = Some o) as E by (unfold aget; by rewrite Nat2Z.id).
  destruct (Hp (Z.of_nat j) o ltac:(lia) E) as (o2 & E2 & S & _). unfold aget in E2. rewrite Nat2Z.id in E2. by simplify_eq.
Qed.

(** The tiles of a chunk cover it. *)
Lemma chunk_stage ch k : op ch = RecvReduce -> 0 <= bytes ch < 2 ^ 63 -> 0 < tile < 2 ^ 32 -> forall m, 0 <= m ->
  (0 < Z.of_nat k -> (m + Z.of_nat k - 1) * tile < bytes ch) ->
  stage_sum (tiles_from ch tile k (wrap 64 (m * tile))) =
  Z.min ((m + Z.of_nat k) * tile) (bytes ch) - Z.min (m * tile) (bytes ch).
Proof.
  intros Eo Hb Ht. induction k as [|k IH]; intros m Hm Hk.
  { cbn. rewrite Z.add_0_r. lia. }
  assert (m * tile < bytes ch) as Hmt by nia.
  assert (wrap 64 (m * tile) = m * tile) as Ew by (apply wrap_id; unfold in_word; nia).
  cbn [tiles_from stage_sum okind obytes]. rewrite decide_True by done.
  assert (wrap 64 (m * tile) +[64] tile = wrap 64 ((m + 1) * tile)) as ->.
  { unfold wrap. rewrite Zplus_mod_idemp_l. f_equal. lia. }
  rewrite IH by nia. rewrite Ew, wrap_id by (unfold in_word; lia). rewrite Nat2Z.inj_succ. unfold Z.succ.
  replace (m + 1 + Z.of_nat k) with (m + (Z.of_nat k + 1)) by lia. nia.
Qed.

Definition red_shard (k : ckey) : option Z := match k with CRed s => Some s | _ => None end.

Lemma chunk_stage_all k : in_plan (cfg r) k ->
  stage_sum (tiles_from (chunk_spec (cfg r) (ci r) k) tile (Z.to_nat (tiles_of (cshard k))) 0) =
  default 0 (size <$> red_shard k).
Proof.
  intros Hk. destruct (in_plan_shard k Hk) as [Hs Hz]. pose proof (tiles_pos k Hk) as Hp. pose proof (shard_bounds _ Hs).
  pose proof (ro_bytes Hok). destruct (decide (op (chunk_spec (cfg r) (ci r) k) = RecvReduce)) as [Eo|Eo]; cycle 1.
  { assert (red_shard k = None) as -> by by destruct k. cbn [fmap option_fmap option_map default].
    generalize (Z.to_nat (tiles_of (cshard k))). intros m. generalize 0 at 1.
    induction m as [|m IH]; intros x; [done|]. cbn [tiles_from stage_sum okind]. by rewrite decide_False, IH by done. }
  destruct k as [| |s]; try done. cbn in *.
  pose proof (tile_in s (tiles_of s - 1) Hs ltac:(lia)) as Ht. unfold tile_off, tile_len in Ht.
  pose proof (chunk_stage (chunk_spec (cfg r) (ci r) (CRed s)) (Z.to_nat (tiles_of s)) Eo) as E.
  cbn [bytes chunk_spec] in E. change (shard_size (cfg r) s) with (size s) in E. rewrite Z2Nat.id in E by lia.
  specialize (E ltac:(lia) ltac:(apply Hok) 0 ltac:(lia) ltac:(lia)). change (wrap 64 (0 * tile)) with 0 in E.
  etrans; [exact E|]. clear E. rewrite tiles_eq in * by done. pose proof (ro_tile Hok).
  pose proof (Z.mul_succ_div_gt (size s + tile - 1) tile ltac:(lia)). nia.
Qed.

Lemma stage_total : stage_sum os <= input_bytes c.
Proof.
  rewrite (stage_sum_same _ _ os_same). pose proof (cfg_ok r Hr) as Hc.
  assert (forall l, (forall k, k ∈ l -> in_plan (cfg r) k) ->
    stage_sum (all_tiles tile (map (chunk_spec (cfg r) (ci r)) l)) = zsum (map size (omap red_shard l))) as E.
  { induction l as [|k l IH]; intros Hl; [done|]. pose proof (Hl k ltac:(by left)) as Hk. cbn [map]. rewrite all_tiles_cons, stage_sum_app, IH
      by (intros ? ?; apply Hl; by right).
    replace (num_tiles tile (chunk_spec (cfg r) (ci r) k)) with (tiles_of (cshard k)) by by destruct k.
    rewrite chunk_stage_all by done. cbn. destruct (red_shard k); cbn; unfold zsum; lia. }
  unfold chunks_of. rewrite allreduce_plan by done. rewrite E by (intros k Hk; by apply (plan_keys_in _ Hc)).
  etrans; [apply (zsum_map_sub size _ (seqZ 0 n))|].
  - pose proof (plan_keys_nodup _ Hc) as Hn. clear E. induction Hn as [|k l Hk Hn IH]; [constructor|]. cbn.
    destruct (red_shard k) as [s|] eqn:Ek; [|done]. constructor; [|done].
    rewrite list_elem_of_omap. intros (k' & Hk' & E). by destruct k, k'; simplify_eq/=.
  - intros s (k & Hk & E')%list_elem_of_omap. apply (plan_keys_in _ Hc) in Hk. apply elem_of_seqZ.
    apply in_plan_shard in Hk. destruct k; simplify_eq/=. lia.
  - intros s Hs%elem_of_seqZ. apply size_pos. lia.
  - assert (forall m, 0 <= m -> m <= n -> zsum (map size (seqZ 0 m)) = off m) as Ho.
    { intros m Hm. pattern m. apply natlike_ind; [|clear m Hm; intros m Hm IH Hmn|done].
      - intros _. symmetry. apply (shard_first _ Hc).
      - unfold Z.succ in *. rewrite seqZ_snoc, map_app, zsum_app, IH by lia. cbn. rewrite Z.add_0_r. symmetry.
        apply (shard_next _ Hc). cbn. lia. }
    rewrite Ho by (destruct Hok; lia). pose proof (shard_last _ Hc) as E'. cbn in E'.
    change (shard_offset (cfg r) n) with (off n) in E'. lia.
Qed.

Lemma os_nonneg : Forall (fun o => 0 <= obytes o) os.
Proof.
  assert (Forall (fun o => 0 <= obytes o) (all_tiles tile cs)) as Ha.
  { assert (forall ch m x, Forall (fun o => 0 <= obytes o) (tiles_from ch tile m x)) as Hf.
    { intros ch m. induction m as [|m IH]; intros x; constructor; [|apply IH]. cbn. pose proof (ro_tile Hok).
      pose proof (wrap_range 64 (bytes ch - x) ltac:(lia)) as [? _]. lia. }
    unfold all_tiles. apply Forall_bind, Forall_true. intros ch. apply Hf. }
  pose proof os_same as Hs. induction Hs as [|o o' l l' (_ & E & _) _ IH]; [done|]. inv Ha. constructor; [lia|auto].
Qed.

Lemma stage_take j j' : (j <= j')%nat -> stage_sum (take j os) <= stage_sum (take j' os).
Proof.
  intros Hj. rewrite <- (take_drop j (take j' os)), take_take, Nat.min_l, stage_sum_app by done.
  pose proof (stage_sum_nonneg (drop j (take j' os)) ltac:(apply Forall_drop, Forall_take, os_nonneg)). lia.
Qed.

Lemma stage_at s t : in_plan (cfg r) (CRed s) -> 0 <= t < tiles_of s ->
  let j := first cs tile (ci r (CRed s)) + t in
  0 <= stage s t /\ stage s t = stage_sum (take (Z.to_nat j) os) /\
  stage_sum (take (Z.to_nat (j + 1)) os) = stage s t + tile_len s t /\ 0 <= j.
Proof.
  intros Hk Ht j. pose proof (ci_range _ Hk) as Hi. pose proof (nt_ci _ Hk) as Hn. cbn in Hn.
  destruct (tile_spec _ _ Hk Ht) as (Eb & _). cbn in Eb.
  destruct (tile_at_get cs tile ltac:(apply Hok) (ci r (CRed s)) t Hi ltac:(lia)) as (E & (Eo & _) & _).
  pose proof (tile_bound cs tile ltac:(apply Hok) (ci r (CRed s)) t Hi ltac:(lia)) as Hj. fold j in E, Hj.
  rewrite (chunk_ci _ Hk) in Eo. cbn in Eo.
  assert (stage_sum (take (Z.to_nat (j + 1)) os) = stage_sum (take (Z.to_nat j) os) + tile_len s t) as E1.
  { replace (Z.to_nat (j + 1)) with (S (Z.to_nat j)) by lia. rewrite (take_S_r _ _ _ E), stage_sum_app. cbn.
    rewrite decide_True by done. rewrite Eb. lia. }
  assert (stage_sum (take (Z.to_nat (j + 1)) os) <= input_bytes c) as Hle.
  { etrans; [|exact stage_total]. rewrite <- (take_ge os (Z.to_nat (j + 1) + length os)) at 2 by lia. apply stage_take. lia. }
  pose proof (stage_sum_nonneg (take (Z.to_nat j) os) ltac:(apply Forall_take, os_nonneg)) as H0.
  pose proof (tile_words s t ltac:(by apply (in_plan_shard _ Hk)) Ht). pose proof (ro_bytes Hok).
  assert (stage s t = stage_sum (take (Z.to_nat j) os)) as E2.
  { unfold stage, stage_of. apply wrap_id. unfold in_word. lia. }
  rewrite E2. lia.
Qed.

Lemma stage_range s t : in_plan (cfg r) (CRed s) -> 0 <= t < tiles_of s ->
  0 <= stage s t /\ stage s t + tile_len s t <= input_bytes c.
Proof.
  intros Hk Ht. destruct (stage_at s t Hk Ht) as (H1 & _ & H2 & H3). split; [done|]. rewrite <- H2.
  etrans; [|exact stage_total]. rewrite <- (take_ge os (Z.to_nat (first cs tile (ci r (CRed s)) + t + 1) + length os)) at 2 by lia.
  apply stage_take. lia.
Qed.

(** Snapshots do not overlap. *)
Lemma stage_disjoint s t s' t' x : in_plan (cfg r) (CRed s) -> 0 <= t < tiles_of s ->
  in_plan (cfg r) (CRed s') -> 0 <= t' < tiles_of s' ->
  stage s t <= x < stage s t + tile_len s t -> stage s' t' <= x < stage s' t' + tile_len s' t' -> s = s' /\ t = t'.
Proof.
  intros Hk Ht Hk' Ht' Hx Hx'. destruct (stage_at s t Hk Ht) as (_ & E1 & E2 & E3).
  destruct (stage_at s' t' Hk' Ht') as (_ & E1' & E2' & E3').
  destruct (Z.lt_trichotomy (first cs tile (ci r (CRed s)) + t) (first cs tile (ci r (CRed s')) + t')) as [H|[H|H]].
  - pose proof (stage_take (Z.to_nat (first cs tile (ci r (CRed s)) + t + 1)) (Z.to_nat (first cs tile (ci r (CRed s')) + t')) ltac:(lia)). lia.
  - destruct (first_inj cs tile ltac:(apply Hok) (ci r (CRed s)) (ci r (CRed s')) t t') as [Ei ->]; try done;
      [by apply ci_range|by apply ci_range|by rewrite nt_ci|by rewrite nt_ci|].
    by apply ci_inj in Ei as [= ->].
  - pose proof (stage_take (Z.to_nat (first cs tile (ci r (CRed s')) + t' + 1)) (Z.to_nat (first cs tile (ci r (CRed s)) + t)) ltac:(lia)). lia.
Qed.

(** ** The plan of a rank *)

Abbreviation plan := (plan_of cfg inplace r).

Lemma plan_eq : plan = tiled_plan cs tile inplace sgt.
Proof.
  pose proof (ro_kind Hok) as Ek. pose proof (ro_bytes Hok). pose proof (ro_tile Hok). pose proof (ro_ranks Hok).
  unfold plan_of, build_tiled. cbn [kind at_rank]. rewrite Ek.
  rewrite (bool_decide_eq_false_2 (AllReduceRing = AllToAllPairwise)) by done. cbn [negb andb require mbind planned_bind].
  unfold build_coll_algo, require_collective_config. cbn [kind nranks rank input_bytes dtype tile_bytes signal_group_tiles at_rank].
  rewrite Ek, (proj2 (Z.ltb_ge n 2)), (proj2 (Z.ltb_ge r 0)), (proj2 (Z.leb_gt n r)) by lia.
  pose proof (elem_pos c). rewrite (proj2 (Z.eqb_neq (scalar_type_size (dtype c)) 0)), (proj2 (Z.eqb_neq (input_bytes c) 0)),
    (ro_aligned Hok) by lia. cbn [negb orb require mbind planned_bind Z.eqb].
  rewrite (bool_decide_eq_true_2 (AllReduceRing = AllReduceRing)) by done. cbn [andb]. unfold lower_algo.
  rewrite (proj2 (Z.eqb_neq tile 0)) by lia. cbn [negb require mbind planned_bind]. fold (chunks_of r). case_bool_decide as Ec.
  - rewrite Ec. done.
  - by rewrite tile_chunks_eq by lia.
Qed.

(** What a dependency on a chunk is for one of its tiles. *)
Definition newk (b : ckey) (t : Z) : rkey :=
  match b with CPut g s => RPut g s t | CRecv g s => RWait g s (t / G) | CRed s => RRed s t end.

Definition rdep (k b : rkey) : Prop :=
  match k with
  | RPut g s t =>
      (g = false /\ inplace = true /\ b = RHsWait s) \/ exists b', b' ∈ cdeps (cfg r) (CPut g s) /\ b = newk b' t
  | RRed s t => (inplace = true /\ b = RSnap s t) \/ exists b', b' ∈ cdeps (cfg r) (CRed s) /\ b = newk b' t
  | RSig g s q => exists t, b = RPut g s t /\ t / G = q /\ 0 <= t < tiles_of s
  | RHsSig s => exists t, b = RSnap s t /\ 0 <= t < tiles_of s
  | _ => False
  end.

Lemma newk_valid b t : in_plan (cfg r) b -> 0 <= t < tiles_of (cshard b) -> rvalid (newk b t).
Proof.
  intros Hb Ht. pose proof (G_pos sgt (ro_group Hok)). destruct b as [g s|g s|s]; cbn in *; (split; [done|]); try done.
  pose proof (wait_div t G). cbn. lia.
Qed.

Lemma rdep_valid k b : rvalid k -> rdep k b -> rvalid b.
Proof.
  intros [Hk Hv]. destruct k as [g s t|g s q|g s q|s t|s t|s|s]; cbn in Hv; cbn [rdep]; try done.
  - intros [(-> & E & ->)|(b' & Hb & ->)]; [by split|]. apply newk_valid; [by eapply cdeps_in|].
    by rewrite (cdeps_shard _ _ Hb).
  - intros (t & -> & _ & Ht). by split.
  - intros [[E ->]|(b' & Hb & ->)]; [by split|]. apply newk_valid; [by eapply cdeps_in|].
    by rewrite (cdeps_shard _ _ Hb).
  - intros (t & -> & Ht). by split.
Qed.

Lemma new_of_ci b t : in_plan (cfg r) b -> new_of cs sgt (ci r b) t = lk (newk b t).
Proof. intros Hb. unfold new_of. rewrite (chunk_ci b Hb). by destruct b. Qed.

Lemma tile_deps_iff k t l : in_plan (cfg r) k -> 0 <= t < tiles_of (cshard k) ->
  (exists dep, dep ∈ deps (chunk_at cs (ci r k)) /\ t < nt dep /\ l = new_of cs sgt dep t) <->
  exists b, b ∈ cdeps (cfg r) k /\ l = lk (newk b t).
Proof.
  intros Hk Ht. rewrite (chunk_ci k Hk).
  assert (deps (chunk_spec (cfg r) (ci r) k) = map (ci r) (cdeps (cfg r) k)) as -> by by destruct k.
  setoid_rewrite list_elem_of_fmap. split.
  - intros (dep & (b & -> & Hb) & _ & ->). exists b. split; [done|]. apply new_of_ci. by eapply cdeps_in.
  - intros (b & Hb & ->). pose proof (cdeps_in _ _ Hk Hb) as Hb'. exists (ci r b). split; [by exists b|].
    rewrite nt_ci, (cdeps_shard _ _ Hb) by done. split; [lia|]. by rewrite new_of_ci.
Qed.

Lemma edge_iff k l : rvalid k ->
  edge cs tile inplace sgt (lk k) l <-> exists b, l = lk b /\
    match k with
    | RPut g s t => g = false /\ inplace = true /\ b = RHsWait s
    | RRed s t => inplace = true /\ b = RSnap s t
    | RSig g s q => exists t, b = RPut g s t /\ t / G = q /\ 0 <= t < tiles_of s
    | RHsSig s => exists t, b = RSnap s t /\ 0 <= t < tiles_of s
    | _ => False
    end.
Proof.
  intros Hk. pose proof (lk_valid k Hk) as Hl. split.
  - intros He. destruct (edge_valid _ _ _ _ ltac:(apply Hok) _ _ He) as [_ Hv].
    destruct (lk_surj l Hv) as (b & Hb & <-). exists b. split; [done|].
    destruct k as [g s t|g s q|g s q|s t|s t|s|s], b as [g' s' t'|g' s' q'|g' s' q'|s' t'|s' t'|s'|s'];
      cbn [edge lk kckey] in He; try done; pose proof Hk as [Hk1 _]; pose proof Hb as [Hb1 Hb2]; cbn in Hb2;
      destruct He as [[=]%(ci_inj _ _ Hk1 Hb1) He]; subst; try done.
    + naive_solver.
    + destruct He as [<- _]. by destruct Hb2.
    + naive_solver.
  - intros (b & -> & Hb). destruct k as [g s t|g s q|g s q|s t|s t|s|s]; try done; destruct Hk as [Hk1 Hk2]; cbn in Hk1, Hk2.
    + destruct Hb as (-> & E & ->). cbn. split_and!; try done. by apply (lk_valid (RHsWait s)).
    + destruct Hb as (t & -> & E & Ht). cbn. split_and!; try done. by apply (lk_valid (RPut g s t)).
    + destruct Hb as (E & ->). cbn. split_and!; try done. by apply (lk_valid (RSnap s t)).
    + destruct Hb as (t & -> & Ht). cbn. split_and!; try done. by apply (lk_valid (RSnap s t)).
Qed.

Lemma split_deps {A B C} (V : Prop) (P : B -> Prop) (Q : C -> Prop) (f : B -> A) (g : C -> B) (l : A) : V ->
  ((exists b, l = f b /\ P b) \/ (V /\ exists b', Q b' /\ l = f (g b'))) <->
  exists b, (P b \/ exists b', Q b' /\ b = g b') /\ l = f b.
Proof. naive_solver. Qed.

Lemma only_edges {A B} (P : B -> Prop) (f : B -> A) (l : A) :
  ((exists b, l = f b /\ P b) \/ False) <-> exists b, P b /\ l = f b.
Proof. naive_solver. Qed.

Lemma waits_iff k l : rvalid k -> waits_for cs tile inplace sgt (lk k) l <-> exists b, rdep k b /\ l = lk b.
Proof.
  intros Hk. unfold waits_for. rewrite (edge_iff k l Hk). pose proof (lk_valid k Hk) as Hv.
  destruct k as [g s t|g s q|g s q|s t|s t|s|s]; cbn [lk rdep]; destruct Hk as [Hk1 Hk2]; cbn [kckey] in *; cbn in Hk2.
  - rewrite (tile_deps_iff (CPut g s) t l Hk1 Hk2). by apply split_deps.
  - apply only_edges.
  - apply only_edges.
  - apply only_edges.
  - rewrite (tile_deps_iff (CRed s) t l Hk1 Hk2). by apply split_deps.
  - apply only_edges.
  - apply only_edges.
Qed.

(** The command of an operation. *)
Definition rcmd (k : rkey) : Cmd :=
  let from := buffer inplace in
  match k with
  | RPut g s t =>
      MkCmd EPut (from (if negb g && (dist (cfg r) s =? 0) then Input else Output)) Output (tile_off s t) (tile_off s t)
        (tile_len s t) 0xFFFFFFFF ((r + 1) mod n) 0
  | RSig g s q => MkCmd Signal (from Input) Output 0 0 0 0 ((r + 1) mod n) (make_tag (pair_of g s) q)
  | RWait g s q => MkCmd WaitSignal (from Input) Output 0 0 0 ((r - 1) mod n) 0 (make_tag (pair_of g s) q)
  | RSnap s t => MkCmd EPut Output Scratch (tile_off s t) (stage s t) (tile_len s t) 0xFFFFFFFF 0xFFFFFFFF 0
  | RRed s t =>
      if inplace then MkCmd Reduce Scratch Output (stage s t) (tile_off s t) (tile_len s t) 0xFFFFFFFF 0xFFFFFFFF 0
      else MkCmd Reduce Input Output (tile_off s t) (tile_off s t) (tile_len s t) 0xFFFFFFFF 0xFFFFFFFF 0
  | RHsSig s => MkCmd Signal (from Input) Output 0 0 0 0 ((r - 1) mod n) (make_tag (pair_of false s) 0xFFFE)
  | RHsWait s => MkCmd WaitSignal (from Input) Output 0 0 0 ((r + 1) mod n) 0 (make_tag (pair_of false s) 0xFFFE)
  end.

Lemma ring_peer x : ring_wrap n x = x mod n /\ peer_word (x mod n) = x mod n /\ wrap 32 (x mod n) = x mod n.
Proof.
  pose proof (ro_ranks Hok). pose proof (Z.mod_pos_bound x n ltac:(lia)).
  pose proof (ring_wrap_mod (cfg r) (cfg_ok r Hr) x) as E. cbn in E. split; [done|]. unfold peer_word.
  rewrite (proj2 (Z.ltb_ge _ 0)) by lia. by rewrite wrap_id by (unfold in_word; lia).
Qed.

Lemma odeps_empty k t : in_plan (cfg r) k -> 0 <= t < tiles_of (cshard k) ->
  bool_decide (odeps (tile_at cs tile (ci r k) t) = []) = bool_decide (cdeps (cfg r) k = []).
Proof.
  intros Hk Ht. destruct (tile_spec k t Hk Ht) as (_ & _ & _ & _ & _ & D). apply bool_decide_ext.
  destruct (odeps _) as [|d ds], (cdeps (cfg r) k) as [|b bs]; try done.
  - exfalso. eapply not_elem_of_nil, D. exists b. split; [by left|done].
  - exfalso. destruct (proj1 (D d) ltac:(by left)) as (b & Hb & _). by apply not_elem_of_nil in Hb.
Qed.

Lemma pre_cmd k : rvalid k -> make_cmd inplace (pre cs tile inplace (lk k)) = rcmd k.
Proof.
  intros [Hk Hv]. destruct (in_plan_shard _ Hk) as [Hs _]. pose proof (chunk_ci _ Hk) as Hc.
  pose proof (ring_peer (r + 1)) as (P1 & P2 & P3). pose proof (ring_peer (r - 1)) as (Q1 & Q2 & Q3).
  pose proof (ro_bytes Hok).
  destruct k as [g s t|g s q|g s q|s t|s t|s|s]; cbn [lk pre kckey cshard] in *; cbn in Hv.
  2,3,6,7: rewrite Hc; unfold make_cmd; cbn; unfold ring_next, ring_prev; rewrite ?P1, ?Q1, ?P2, ?Q2, ?P3, ?Q3; done.
  all: destruct (tile_spec _ t Hk ltac:(apply Hv)) as (E1 & E2 & E3 & E4 & E5 & _);
    destruct (tile_words s t Hs ltac:(apply Hv)) as (W1 & W2 & _).
  - rewrite E1, E2, E3, E4, E5, (odeps_empty _ t Hk Hv). unfold make_cmd. cbn. unfold ring_next.
    rewrite P1, P2, !wrap_id by (unfold in_word; lia). rewrite andb_true_r. f_equal. f_equal.
    destruct g; cbn; [by destruct (_ =? n - 1)|by destruct (_ =? 0)].
  - rewrite E1, E3. destruct (stage_range s t Hk ltac:(apply Hv)). unfold make_cmd. cbn. fold (stage s t).
    by rewrite !wrap_id by (unfold in_word; lia).
  - rewrite E1, E2, E3. destruct (stage_range s t Hk Hv). unfold make_cmd, rcmd. fold (stage s t).
    destruct inplace; cbn; by rewrite !wrap_id by (unfold in_word; lia).
Qed.

Definition ridx (k : rkey) : Z := idx cs tile inplace sgt (lk k).

Lemma lk_get k : rvalid k -> aget (keys cs tile inplace sgt) (ridx k) = Some (lk k).
Proof. intros Hk. apply index_in_get, keys_in; [apply chunk_deps_ok|apply Hok|]. by apply lk_valid. Qed.

Lemma ridx_inj k k' : rvalid k -> rvalid k' -> ridx k = ridx k' -> k = k'.
Proof.
  intros Hk Hk' E. apply lk_inj; [done|done|]. pose proof (lk_get _ Hk). pose proof (lk_get _ Hk'). congruence.
Qed.

Lemma plan_len : alen plan = alen (keys cs tile inplace sgt).
Proof.
  rewrite plan_eq. apply tiled_plan_spec;
    [apply Hok|apply chunk_deps_ok|apply chunk_pairs_ok|apply Hok|apply keys_small|apply tiles_small].
Qed.

Lemma ridx_range k : rvalid k -> 0 <= ridx k < alen plan.
Proof. intros Hk. rewrite plan_len. apply index_in_range, keys_in; [apply chunk_deps_ok|apply Hok|]. by apply lk_valid. Qed.

(** Every operation of the plan, with its command and what it waits for. *)
Lemma plan_get k : rvalid k -> exists o, aget plan (ridx k) = Some o /\ make_cmd inplace o = rcmd k /\
  forall d, d ∈ tdeps o <-> exists b, rdep k b /\ d = ridx b.
Proof.
  intros Hk. rewrite plan_eq.
  destruct (tiled_plan_spec cs tile ltac:(apply Hok) chunk_deps_ok chunk_pairs_ok inplace sgt ltac:(apply Hok) keys_small tiles_small)
    as [_ Hp].
  destruct (Hp (lk k) (lk_valid k Hk)) as (o & E & S & D). exists o. split; [exact E|]. split.
  - rewrite <- (pre_cmd k Hk). assert (forall x, make_cmd inplace (set_tdeps [] x) = make_cmd inplace x) as Hm by done.
    by rewrite <- (Hm o), S, Hm.
  - intros d. rewrite D. setoid_rewrite (waits_iff k _ Hk). unfold ridx. naive_solver.
Qed.

Lemma plan_surj i o : 0 <= i -> aget plan i = Some o -> exists k, rvalid k /\ i = ridx k.
Proof.
  intros Hi Ho. apply aget_Some_lt in Ho; [|done]. rewrite plan_len in Ho.
  destruct (aget_is_Some (keys cs tile inplace sgt) i ltac:(lia)) as [l Hl].
  assert (LowerSpec.valid cs tile inplace sgt l) as Hv.
  { apply (keys_in cs tile chunk_deps_ok); [apply Hok|]. by eapply list_elem_of_lookup_2. }
  destruct (lk_surj l Hv) as (k & Hk & <-). exists k. split; [done|]. symmetry.
  apply index_in_unique; [|done|done]. apply keys_nodup; [apply Hok|apply chunk_deps_ok|apply chunk_pairs_ok|apply Hok].
Qed.
End rank.
End plan.
End RingPlan.
