(* ===== verification/RingSpec.v ===== *)
(** * A ring all-reduce runs to the end and is right

    All ranks run the plans of [RingPlan.v] by the steps of [Collective.v], in any
    order and at any speed.  The operations of the ranks on a tile form a chain
    that goes round the ring twice: every operation needs others that are
    earlier in that chain ([needs_time]).  What has been done is closed under
    [needs]; it determines which tags are under way ([ctl]) and what the buffers
    hold ([data]).  So a run that cannot go on has done everything, and then
    every rank has the reduction of all inputs.

    The in-place variant, with its snapshots and their handshake, and the
    out-of-place one are shown together. *)

From S2P Require Import Prelude ChunkGraph Lower LowerSpec Collective RingPlan.

Module RingSpec.
Import ChunkGraph Lower LowerSpec Collective RingPlan.

(** ** Tags *)

Lemma make_tag_inj p q p' q' : 0 <= p < 2 ^ 30 -> 0 <= q < 2 ^ 16 -> 0 <= p' < 2 ^ 30 -> 0 <= q' < 2 ^ 16 ->
  make_tag p q = make_tag p' q' -> p = p' /\ q = q'.
Proof.
  intros Hp Hq Hp' Hq'. assert (forall p q, 0 <= p < 2 ^ 30 -> 0 <= q < 2 ^ 16 -> make_tag p q = p * 2 ^ 16 + q) as E.
  { clear. intros p q Hp Hq. unfold make_tag. rewrite wrap_id by (unfold in_word; rewrite Z.shiftl_mul_pow2; lia).
    assert (Z.land (Z.shiftl p 16) q = 0) as Ea.
    { apply Z.bits_inj'. intros i Hi. rewrite Z.land_spec, Z.bits_0, Z.shiftl_spec by done.
      destruct (Z.lt_ge_cases i 16); [by rewrite Z.testbit_neg_r by lia|].
      rewrite <- (Z.mod_small q (2 ^ 16)), Z.mod_pow2_bits_high, andb_false_r by lia. done. }
    rewrite <- Z.lxor_lor, <- Z.add_nocarry_lxor by done. by rewrite Z.shiftl_mul_pow2 by lia. }
  rewrite !E by done. lia.
Qed.

Lemma remove_tag_spec T l : NoDup l -> T ∈ l ->
  exists l', remove_tag T l = Some l' /\ NoDup l' /\ forall x, x ∈ l' <-> x ∈ l /\ x <> T.
Proof.
  induction 1 as [|y l Hy Hl IH]; [by intros ?%not_elem_of_nil|]. intros [->|HT]%elem_of_cons; cbn.
  - rewrite decide_True by done. exists l. set_solver.
  - rewrite decide_False by (intros ->; done). destruct (IH HT) as (l' & -> & Hn & Hs). exists (y :: l').
    split; [done|]. split; [constructor; [naive_solver|done]|]. set_solver.
Qed.

Lemma remove_tag_None T l l' : remove_tag T l = Some l' -> T ∈ l.
Proof.
  revert l'. induction l as [|y l IH]; intros l'; [done|]. cbn. case_decide as E; [subst; by left|].
  destruct (remove_tag T l) eqn:E'; [|done]. right. by eapply IH.
Qed.

Section ring.
Context (c : CollectiveConfig) (inplace : bool) (Hok : ring_ok c).
Abbreviation n := (nranks c).
Abbreviation G := (Lower.G (signal_group_tiles c)).
Abbreviation ssize := (shard_size c).

(** ** Places on the ring *)

Definition dst (r s : Z) : Z := (r - s) mod n.

Lemma n_pos : 2 <= n.
Proof. destruct Hok. lia. Qed.

Lemma dst_range r s : 0 <= dst r s < n.
Proof. pose proof n_pos. apply Z.mod_pos_bound. lia. Qed.

Lemma mod_range x : 0 <= x mod n < n.
Proof. pose proof n_pos. apply Z.mod_pos_bound. lia. Qed.

Lemma dst_next r s : dst ((r + 1) mod n) s = (dst r s + 1) mod n.
Proof. unfold dst. rewrite Zminus_mod_idemp_l, Zplus_mod_idemp_l. f_equal. lia. Qed.

Lemma dst_prev r s : dst ((r - 1) mod n) s = (dst r s - 1) mod n.
Proof. unfold dst. rewrite !Zminus_mod_idemp_l. f_equal. lia. Qed.

Lemma next_prev r : 0 <= r < n -> ((r - 1) mod n + 1) mod n = r.
Proof. intros Hr. rewrite Zplus_mod_idemp_l. replace (r - 1 + 1) with r by lia. by apply Z.mod_small. Qed.

Lemma prev_next r : 0 <= r < n -> ((r + 1) mod n - 1) mod n = r.
Proof. intros Hr. rewrite Zminus_mod_idemp_l. replace (r + 1 - 1) with r by lia. by apply Z.mod_small. Qed.

Lemma succ_mod d : 0 <= d < n -> (d + 1) mod n = if d =? n - 1 then 0 else d + 1.
Proof.
  intros Hd. destruct (Z.eqb_spec d (n - 1)) as [->|]; [|apply Z.mod_small; lia].
  replace (n - 1 + 1) with (1 * n) by lia. apply Z.mod_mul. lia.
Qed.

Lemma pred_mod d : 0 <= d < n -> (d - 1) mod n = if d =? 0 then n - 1 else d - 1.
Proof.
  intros Hd. destruct (Z.eqb_spec d 0) as [->|]; [|apply Z.mod_small; lia].
  symmetry. apply Z.mod_unique with (-1); lia.
Qed.

(** ** Events *)

Lemma in_plan_iff r k : in_plan (at_rank c r) k <-> 0 <= cshard k < n /\ 0 < ssize (cshard k) /\
  match k with
  | CPut false s => dst r s < n - 1
  | CRecv false s | CRed s => 1 <= dst r s
  | CPut true s => (dst r s + 1) mod n < n - 1
  | CRecv true s => dst r s < n - 1
  end.
Proof.
  unfold in_plan. pose proof (dst_range r (cshard k)).
  destruct k as [[] s|[] s|s]; cbn in *; change (dist (at_rank c r) s) with (dst r s);
    change (shard_size (at_rank c r)) with ssize; tauto || lia.
Qed.

Definition ev (r : Z) (k : rkey) : Prop := 0 <= r < n /\ rvalid c inplace r k.

(** What an event needs: its dependencies, and a wait its signal. *)
Definition signal_of (r : Z) (k : rkey) : option (Z * rkey) :=
  match k with
  | RWait g s q => Some ((r - 1) mod n, RSig g s q)
  | RHsWait s => Some ((r + 1) mod n, RHsSig s)
  | _ => None
  end.
Definition needs (r : Z) (k : rkey) (r' : Z) (k' : rkey) : Prop :=
  (r' = r /\ rdep c inplace r k k') \/ signal_of r k = Some (r', k').

Lemma signal_ev r k r' k' : ev r k -> signal_of r k = Some (r', k') -> ev r' k'.
Proof.
  intros [Hr [Hp Hv]] E. pose proof n_pos. destruct k; cbn in E; simplify_eq; cbn in Hp, Hv; (split; [apply mod_range|]);
    (split; [|done]); cbn; rewrite in_plan_iff in *; cbn in *.
  - pose proof (dst_range r s). rewrite dst_prev, pred_mod by done. destruct Hp as (? & ? & Hp). split_and!; try done; try lia.
    destruct g.
    + rewrite succ_mod by (z_cases; lia). z_cases; lia.
    + z_cases; lia.
  - pose proof (dst_range r s). rewrite dst_next, succ_mod by done. destruct Hp as (? & ? & Hp). split_and!; try done; try lia.
    z_cases; lia.
Qed.

(** Every signal has its wait. *)
Lemma signal_wait r k : ev r k -> match k with RSig _ _ _ | RHsSig _ => True | _ => False end ->
  exists r1 k1, ev r1 k1 /\ signal_of r1 k1 = Some (r, k).
Proof.
  intros [Hr [Hp Hv]] Hk. pose proof n_pos. destruct k as [|g s q| | | |s|]; try done; cbn in Hp, Hv; rewrite in_plan_iff in Hp; cbn in Hp;
    pose proof (dst_range r s) as Hd; destruct Hp as (? & ? & Hp).
  - exists ((r + 1) mod n), (RWait g s q). cbn. rewrite prev_next by done. split; [|done]. split; [apply mod_range|].
    split; [|done]. cbn. rewrite in_plan_iff. cbn. rewrite dst_next. split_and!; try done; try lia.
    destruct g; [done|]. rewrite succ_mod by done. z_cases; lia.
  - exists ((r - 1) mod n), (RHsWait s). cbn. rewrite next_prev by done. split; [|done]. split; [apply mod_range|].
    split; [|done]. cbn. rewrite in_plan_iff. cbn. rewrite dst_prev, pred_mod by done. split_and!; try done; try lia.
    z_cases; lia.
Qed.

Lemma signal_inj r k r' k' e : ev r k -> ev r' k' -> signal_of r k = Some e -> signal_of r' k' = Some e -> r = r' /\ k = k'.
Proof.
  intros [Hr _] [Hr' _] E E'. destruct k, k'; cbn in E, E'; simplify_eq; (split; [|done]).
  - rewrite <- (next_prev r), <- (next_prev r') by done. congruence.
  - rewrite <- (prev_next r), <- (prev_next r') by done. congruence.
Qed.

Lemma needs_ev r k r' k' : ev r k -> needs r k r' k' -> ev r' k'.
Proof.
  intros He [[-> Hd]|Hs]; [|by eapply signal_ev]. destruct He as [Hr Hv]. split; [done|]. by eapply rdep_valid.
Qed.

(** The place of an event in the chain of its tile. *)
Definition time (r : Z) (k : rkey) : Z :=
  let d := dst r (kshard k) in
  match k with
  | RSnap _ _ => 0
  | RHsSig _ => 1
  | RHsWait _ => 2
  | RWait false _ _ => 4 * d + 1
  | RRed _ _ => 4 * d + 2
  | RPut false _ _ => 4 * d + 3
  | RSig false _ _ => 4 * d + 4
  | RPut true _ _ => 4 * n + 3 * ((d + 1) mod n)
  | RSig true _ _ => 4 * n + 3 * ((d + 1) mod n) + 1
  | RWait true _ _ => 4 * n + 3 * d + 2
  end.

Lemma time_nonneg r k : 0 <= time r k.
Proof.
  pose proof n_pos. pose proof (dst_range r (kshard k)). pose proof (mod_range (dst r (kshard k) + 1)).
  destruct k as [[]|[]|[]| | | |]; cbn in *; lia.
Qed.

Lemma needs_time r k r' k' : ev r k -> needs r k r' k' -> time r' k' < time r k.
Proof.
  intros [Hr [Hp Hv]] Hn. pose proof n_pos. rewrite in_plan_iff in Hp. pose proof (dst_range r (kshard k)) as Hd.
  destruct Hn as [[-> Hn]|Hn].
  - destruct k as [g s t|g s q|g s q|s t|s t|s|s]; cbn [rdep] in Hn; try done; cbn in Hp, Hv, Hd.
    + destruct Hn as [(-> & _ & ->)|(b & Hb & ->)]; [cbn; lia|].
      unfold cdeps in Hb. change (dist (at_rank c r) s) with (dst r s) in Hb. cbn in Hb.
      destruct g; [destruct (Z.eqb_spec (dst r s) (n - 1)) as [E|E]|destruct (Z.eqb_spec (dst r s) 0)];
        [..|by apply not_elem_of_nil in Hb|]; apply list_elem_of_singleton in Hb as ->; cbn; [|rewrite succ_mod by done; z_cases; lia|lia].
      rewrite E, succ_mod, Z.eqb_refl by lia. lia.
    + destruct Hn as (t & -> & _). destruct g; cbn; lia.
    + destruct Hn as [[_ ->]|(b & Hb & ->)]; [cbn; lia|]. apply list_elem_of_singleton in Hb as ->. cbn. lia.
    + destruct Hn as (t & -> & _). cbn. lia.
  - destruct k as [g s t|g s q|g s q|s t|s t|s|s]; clear Hv; cbn in Hn; simplify_eq; cbn in Hp, Hd |- *; [|lia].
    rewrite dst_prev, pred_mod by done. destruct g; [|z_cases; lia].
    rewrite succ_mod by (z_cases; lia). z_cases; lia.
Qed.

(** ** Steps *)

Abbreviation plan := (plan_of (at_rank c) inplace).

Lemma plan_out r : ~ 0 <= r < n -> plan r = [].
Proof.
  intros Hr. pose proof (ro_kind c Hok) as Ek. pose proof n_pos. unfold plan_of, build_tiled. cbn [kind at_rank]. rewrite Ek.
  rewrite (bool_decide_eq_false_2 (AllReduceRing = AllToAllPairwise)) by done. cbn [negb andb require mbind planned_bind].
  unfold build_coll_algo, require_collective_config. cbn [kind nranks rank input_bytes dtype tile_bytes signal_group_tiles at_rank].
  rewrite (proj2 (Z.ltb_ge n 2)) by lia. cbn [negb require mbind planned_bind].
  by destruct (Z.ltb_spec r 0), (Z.leb_spec n r); try lia.
Qed.

(** The tag a signal sends and the one a wait takes. *)
Definition stag (r : Z) (k : rkey) : option (Z * Z * Z) :=
  match k with
  | RSig g s q => Some (r, (r + 1) mod n, make_tag (pair_of g s) q)
  | RHsSig s => Some (r, (r - 1) mod n, make_tag (pair_of false s) 0xFFFE)
  | _ => None
  end.
Definition wtag (r : Z) (k : rkey) : option (Z * Z * Z) :=
  match k with
  | RWait g s q => Some ((r - 1) mod n, r, make_tag (pair_of g s) q)
  | RHsWait s => Some ((r + 1) mod n, r, make_tag (pair_of false s) 0xFFFE)
  | _ => None
  end.

Lemma signal_tag r k r1 k1 : ev r1 k1 -> signal_of r1 k1 = Some (r, k) -> stag r k = wtag r1 k1.
Proof.
  intros [Hr _] E. destruct k1; cbn in E; simplify_eq; cbn; [by rewrite next_prev|by rewrite prev_next].
Qed.

Lemma wait_signal r k T : wtag r k = Some T -> is_Some (signal_of r k).
Proof. destruct k; cbn; try done; by eexists. Qed.

Lemma group_range s q : 0 <= s < n -> 0 <= q -> q * G < tiles_of c s -> q < 0xFFFE.
Proof.
  intros Hs Hq Ht. pose proof (tiles_le c Hok s Hs). pose proof (ro_groups c Hok).
  pose proof (G_pos (signal_group_tiles c) (ro_group c Hok)). nia.
Qed.

Lemma pair_of_range g s : 0 <= s < n -> 0 <= pair_of g s < 2 ^ 30.
Proof. intros Hs. pose proof (ro_ranks c Hok). unfold pair_of. destruct g; lia. Qed.

Lemma pair_of_inj g s g' s' : pair_of g s = pair_of g' s' -> g = g' /\ s = s'.
Proof. unfold pair_of. destruct g, g'; intros; split; (done || lia). Qed.

Lemma wtag_inj r k r' k' T : ev r k -> ev r' k' -> wtag r k = Some T -> wtag r' k' = Some T -> r = r' /\ k = k'.
Proof.
  intros [Hr [Hp Hv]] [Hr' [Hp' Hv']] E E'. rewrite in_plan_iff in Hp, Hp'. destruct Hp as [Hs _], Hp' as [Hs' _].
  destruct k as [| |g s q| | | |s], k' as [| |g' s' q'| | | |s']; cbn in E, E'; try done;
    cbn [cshard kckey] in Hs, Hs'; cbn in Hv, Hv'; injection E as <-; injection E' as ? -> Et;
    try pose proof (group_range s q Hs ltac:(lia) ltac:(lia)); try pose proof (group_range s' q' Hs' ltac:(lia) ltac:(lia));
    apply make_tag_inj in Et as [[]%pair_of_inj Eq]; try apply pair_of_range; try lia; by subst.
Qed.

Section run.
Context {V : Type} (vop : V -> V -> V) (elem : Z).
Abbreviation try_step := (try_step vop elem inplace plan).
Abbreviation exec := (exec vop elem).

Definition did (w : world) (r : Z) (k : rkey) : Prop := (r, ridx c inplace r k) ∈ done (V := V) w.

Lemma exec_ctl r k w w1 : exec r (rcmd c inplace r k) w = Some w1 -> done w1 = done w /\
  match stag r k, wtag r k with
  | Some T, _ => tags w1 = tags w ++ [T]
  | None, Some T => remove_tag T (tags w) = Some (tags w1)
  | None, None => tags w1 = tags w
  end.
Proof.
  destruct k as [g s t|g s q|g s q|s t|s t|s|s]; cbn [rcmd stag wtag]; unfold Collective.exec.
  5: destruct inplace. all: cbn; intros E; simplify_eq; try done.
  all: destruct (remove_tag _ _) as [l|]; cbn in E; by simplify_eq.
Qed.

Lemma step_event r i w w' : try_step r i w = Some w' -> exists k w1,
  ev r k /\ i = ridx c inplace r k /\ ~ did w r k /\ (forall b, rdep c inplace r k b -> did w r b) /\
  exec r (rcmd c inplace r k) w = Some w1 /\ w' = MkWorld (mem w1) (tags w1) ({[ (r, i) ]} ∪ done w1).
Proof.
  unfold Collective.try_step. destruct (aget (plan r) i) as [o|] eqn:Eo; [|done]. cbn. unfold try_op. case_bool_decide as H; [|done].
  destruct H as (Hd & Hi & Hf). destruct (decide (0 <= r < n)) as [Hr|Hr]; [|by rewrite plan_out in Eo].
  destruct (plan_surj c inplace Hok r Hr i o Hi Eo) as (k & Hk & ->).
  destruct (plan_get c inplace Hok r Hr k Hk) as (o' & Eo' & Ec & Hdeps). assert (o' = o) as -> by congruence. rewrite Ec.
  destruct (exec r (rcmd c inplace r k) w) as [w1|] eqn:E1; cbn; intros [= <-]. exists k, w1. split_and!; try done.
  intros b Hb. rewrite Forall_forall in Hf. apply Hf, Hdeps. by exists b.
Qed.

Lemma event_step r k w w1 : ev r k -> ~ did w r k -> (forall b, rdep c inplace r k b -> did w r b) ->
  exec r (rcmd c inplace r k) w = Some w1 -> is_Some (try_step r (ridx c inplace r k) w).
Proof.
  intros [Hr Hk] Hd Hb E1. destruct (plan_get c inplace Hok r Hr k Hk) as (o & Eo & Ec & Hdeps). unfold Collective.try_step.
  rewrite Eo. cbn. unfold try_op. rewrite bool_decide_eq_true_2; [rewrite Ec, E1; cbn; by eexists|]. split; [done|].
  split; [by apply ridx_range|]. apply Forall_forall. intros d (b & Hd' & ->)%Hdeps. by apply Hb.
Qed.

Lemma did_step r k w w1 r' k' : ev r k -> ev r' k' -> done w1 = done w ->
  did (MkWorld (mem w1) (tags w1) ({[ (r, ridx c inplace r k) ]} ∪ done w1)) r' k' <-> did w r' k' \/ (r' = r /\ k' = k).
Proof.
  intros [Hr Hk] [Hr' Hk'] Ed. unfold did. cbn. rewrite Ed, elem_of_union, elem_of_singleton. split.
  - intros [[= -> E]|]; [|by left]. right. split; [done|]. by eapply (ridx_inj c inplace Hok r).
  - intros [|[-> ->]]; [by right|by left].
Qed.

(** ** What has been done is closed, and determines the tags *)

Record ctl (w : world (V := V)) : Prop := {
  ctl_done : forall r i, (r, i) ∈ done w -> exists k, ev r k /\ i = ridx c inplace r k;
  ctl_needs : forall r k r' k', ev r k -> did w r k -> needs r k r' k' -> did w r' k';
  ctl_nodup : NoDup (tags w);
  ctl_tags : forall T, T ∈ tags w <-> exists r k r' k',
    ev r k /\ wtag r k = Some T /\ signal_of r k = Some (r', k') /\ ~ did w r k /\ did w r' k';
}.

Lemma ctl_start m : ctl (MkWorld m [] ∅).
Proof.
  split; cbn; [set_solver|set_solver|constructor|]. intros T. rewrite elem_of_nil.
  split; [done|]. intros (r & k & r' & k' & _ & _ & _ & _ & H). unfold did in H. cbn in H. set_solver.
Qed.

(** A wait that has not been done can go on when its signal has. *)
Lemma wait_enabled w r k T r' k' : ctl w -> ev r k -> wtag r k = Some T -> signal_of r k = Some (r', k') ->
  ~ did w r k -> T ∈ tags w <-> did w r' k'.
Proof.
  intros Hw He ET Es Hd. rewrite (ctl_tags w Hw). split.
  - intros (r2 & k2 & r3 & k3 & He2 & ET2 & Es2 & _ & Hd3). destruct (wtag_inj r2 k2 r k T) as [-> ->]; try done. congruence.
  - intros Hd'. by exists r, k, r', k'.
Qed.

Section one_step.
Context (r : Z) (k : rkey) (w w1 : world (V := V)) (Hw : ctl w) (He : ev r k) (Hd : ~ did w r k).
Context (Hb : forall b, rdep c inplace r k b -> did w r b).
Context (Ex : exec r (rcmd c inplace r k) w = Some w1).

Definition next : world := MkWorld (mem w1) (tags w1) ({[ (r, ridx c inplace r k) ]} ∪ done w1).

Lemma did_next r' k' : ev r' k' -> did next r' k' <-> did w r' k' \/ (r' = r /\ k' = k).
Proof. intros He'. apply did_step; try done. by apply (exec_ctl r k). Qed.

Lemma wait_taken T : wtag r k = Some T -> T ∈ tags w.
Proof.
  destruct (exec_ctl r k w w1 Ex) as [_ Et]. intros ET. destruct k; try done; cbn in Et, ET; injection ET as <-; by eapply remove_tag_None.
Qed.

Lemma next_needs r' k' r2 k2 : ev r' k' -> did next r' k' -> needs r' k' r2 k2 -> did next r2 k2.
Proof.
  intros He' Hd' Hn. apply did_next; [by eapply needs_ev|]. left.
  apply (did_next _ _ He') in Hd' as [Hd'|[-> ->]]; [by eapply (ctl_needs w Hw r' k')|].
  destruct Hn as [[-> Hn]|Hs]; [by apply Hb|]. destruct (wtag r k) as [T|] eqn:ET; [|by destruct k].
  apply (wait_enabled w r k T); try done. by apply wait_taken.
Qed.

(** A signal adds the tag of its wait. *)
Lemma next_signal T0 : stag r k = Some T0 -> NoDup (tags w1) /\ forall T, T ∈ tags w1 <-> exists r1 k1 r2 k2,
  ev r1 k1 /\ wtag r1 k1 = Some T /\ signal_of r1 k1 = Some (r2, k2) /\ ~ did next r1 k1 /\ did next r2 k2.
Proof.
  intros Es. destruct (exec_ctl r k w w1 Ex) as [_ Et]. rewrite Es in Et.
  assert (wtag r k = None) as Hnw by by destruct k.
  destruct (signal_wait r k He) as (r1 & k1 & He1 & Hs1); [by destruct k|]. rewrite (signal_tag _ _ _ _ He1 Hs1) in Es.
  assert (~ did w r1 k1) as Hnd1.
  { intros Hd1. apply Hd. apply (ctl_needs w Hw r1 k1); try done. by right. }
  split.
  - rewrite Et. apply NoDup_app. split; [apply Hw|]. split; [|apply NoDup_singleton]. intros T HT ->%list_elem_of_singleton.
    apply (wait_enabled w r1 k1 T0 r k) in HT; done.
  - intros T. rewrite Et, elem_of_app, list_elem_of_singleton, (ctl_tags w Hw). split.
    + intros [(r2 & k2 & r3 & k3 & He2 & ET2 & Es2 & Hd2 & Hd3)| ->].
      * exists r2, k2, r3, k3. split_and!; try done; [|apply did_next; [by eapply signal_ev|by left]].
        rewrite (did_next _ _ He2). intros [|[-> ->]]; [done|congruence].
      * exists r1, k1, r, k. split_and!; try done; [|apply (did_next _ _ He); by right].
        rewrite (did_next _ _ He1). intros [|[-> ->]]; [done|congruence].
    + intros (r2 & k2 & r3 & k3 & He2 & ET2 & Es2 & Hd2 & Hd3). rewrite (did_next _ _ He2) in Hd2.
      rewrite (did_next _ _ (signal_ev _ _ _ _ He2 Es2)) in Hd3.
      destruct Hd3 as [Hd3|[-> ->]]; [left; exists r2, k2, r3, k3; tauto|right].
      destruct (signal_inj r2 k2 r1 k1 (r, k)) as [-> ->]; try done. congruence.
Qed.

(** Other operations take at most the tag they wait for. *)
Lemma next_other : stag r k = None -> NoDup (tags w1) /\ forall T, T ∈ tags w1 <-> exists r1 k1 r2 k2,
  ev r1 k1 /\ wtag r1 k1 = Some T /\ signal_of r1 k1 = Some (r2, k2) /\ ~ did next r1 k1 /\ did next r2 k2.
Proof.
  intros Es. destruct (exec_ctl r k w w1 Ex) as [_ Et]. rewrite Es in Et.
  assert (forall r2 k2 r3 k3, ev r2 k2 -> signal_of r2 k2 = Some (r3, k3) -> did next r3 k3 <-> did w r3 k3) as Hsig.
  { intros r2 k2 r3 k3 He2 Es2. rewrite (did_next _ _ (signal_ev _ _ _ _ He2 Es2)). split; [|by left]. intros [|[-> ->]]; [done|].
    exfalso. destruct k2; try done; injection Es2 as _ Ek; by rewrite <- Ek in Es. }
  assert (NoDup (tags w1) /\ forall T, T ∈ tags w1 <-> T ∈ tags w /\ wtag r k <> Some T) as [Hn Ht].
  { pose proof (ctl_nodup w Hw). destruct (wtag r k) as [T0|] eqn:ET; [|rewrite Et; split; [done|naive_solver]].
    destruct (remove_tag_spec T0 (tags w) ltac:(apply Hw) (wait_taken T0 ET)) as (l' & E' & Hn' & Hl).
    rewrite E' in Et. injection Et as ->. split; [done|]. intros T. rewrite Hl. naive_solver. }
  split; [done|]. intros T. rewrite Ht, (ctl_tags w Hw). split.
  - intros [(r2 & k2 & r3 & k3 & He2 & ET2 & Es2 & Hd2 & Hd3) Hne]. exists r2, k2, r3, k3.
    split_and!; try done; [rewrite (did_next _ _ He2); intros [|[-> ->]]; done|by apply (Hsig r2 k2)].
  - intros (r2 & k2 & r3 & k3 & He2 & ET2 & Es2 & Hd2 & Hd3). rewrite (did_next _ _ He2) in Hd2.
    rewrite (Hsig _ _ _ _ He2 Es2) in Hd3. split; [exists r2, k2, r3, k3; tauto|]. intros ET.
    destruct (wtag_inj r k r2 k2 T) as [-> ->]; try done. tauto.
Qed.

Lemma ctl_next : ctl next.
Proof.
  split; [|exact next_needs|..].
  - destruct (exec_ctl r k w w1 Ex) as [Ed _]. intros r' i. cbn. rewrite Ed, elem_of_union, elem_of_singleton.
    intros [[= -> ->]|H]; [by exists k|by apply (ctl_done w Hw)].
  - destruct (stag r k) as [T0|] eqn:Es; [by eapply next_signal|by apply next_other].
  - destruct (stag r k) as [T0|] eqn:Es; [by eapply next_signal|by apply next_other].
Qed.
End one_step.

(** ** A run that cannot go on is complete *)


Lemma stuck_complete w : ctl w -> (forall w', ~ step vop elem inplace plan w w') -> forall r k, ev r k -> did w r k.
Proof.
  intros Hw Hs. assert (forall m r k, ev r k -> time r k < m -> did w r k) as H.
  2: { intros r k He. by apply (H (time r k + 1)); [|lia]. }
  intros m r k. destruct (Z.lt_ge_cases m 0); [pose proof (time_nonneg r k); lia|]. revert r k. pattern m. apply natlike_ind; [| |done].
  { intros r k _. pose proof (time_nonneg r k). lia. }
  clear m H. intros m Hm IH r k He Ht. destruct (decide ((r, ridx c inplace r k) ∈ done w)) as [|Hd]; [done|]. exfalso.
  assert (forall r' k', needs r k r' k' -> did w r' k') as Hn.
  { intros r' k' Hk. apply IH; [by eapply needs_ev|]. pose proof (needs_time r k r' k' He Hk). lia. }
  assert (is_Some (exec r (rcmd c inplace r k) w)) as [w1 E1].
  { destruct (wtag r k) as [T|] eqn:ET.
    - destruct (wait_signal r k T ET) as [[r' k'] Es].
      assert (T ∈ tags w) as HT by (apply (wait_enabled w r k T r' k'); try done; apply Hn; by right).
      destruct (remove_tag_spec T (tags w) ltac:(apply Hw) HT) as (l & El & _).
      destruct k; try done; cbn in ET; injection ET as <-; unfold Collective.exec; cbn; rewrite El; by eexists.
    - destruct k; try done; unfold Collective.exec; cbn; try by eexists. by destruct inplace; eexists. }
  destruct (event_step r k w w1 He Hd (fun b Hb => Hn r b (or_introl (conj eq_refl Hb))) E1) as [w' Ew'].
  apply (Hs w'). by exists r, (ridx c inplace r k).
Qed.

(** ** The chain of a tile *)

Lemma dst_inj r r' s : 0 <= r < n -> 0 <= r' < n -> dst r s = dst r' s -> r = r'.
Proof.
  intros Hr Hr' E. unfold dst in E. rewrite <- (Z.mod_small r n), <- (Z.mod_small r' n) by done.
  replace r with (r - s + s) by lia. replace r' with (r' - s + s) by lia. by rewrite Zplus_mod, E, <- Zplus_mod.
Qed.

Lemma dst_owner r s : 0 <= r < n -> (s + dst r s) mod n = r.
Proof. intros Hr. unfold dst. rewrite Zplus_mod_idemp_r. replace (s + (r - s)) with r by lia. by apply Z.mod_small. Qed.

Section tile.
Context (w : world (V := V)) (Hw : ctl w) (s t : Z) (Hs : 0 <= s < n) (Ht : 0 <= t < tiles_of c s).

Lemma shard_nonempty : 0 < ssize s.
Proof. pose proof (tile_in c Hok s t Hs Ht). unfold tile_off in *. pose proof (ro_tile c Hok). nia. Qed.

Lemma put_ev g r : 0 <= r < n -> (if g : bool then (dst r s + 1) mod n < n - 1 else dst r s < n - 1) -> ev r (RPut g s t).
Proof.
  intros Hr Hg. split; [done|]. split; [|done]. cbn. rewrite in_plan_iff. cbn. pose proof shard_nonempty. by destruct g.
Qed.

Lemma red_ev r : 0 <= r < n -> 1 <= dst r s -> ev r (RRed s t).
Proof. intros Hr Hd. split; [done|]. split; [|done]. cbn. rewrite in_plan_iff. cbn. pose proof shard_nonempty. done. Qed.

Lemma wait_ev g r : 0 <= r < n -> (if g : bool then dst r s < n - 1 else 1 <= dst r s) -> ev r (RWait g s (t / G)).
Proof.
  intros Hr Hg. split; [done|]. split.
  - cbn. rewrite in_plan_iff. cbn. pose proof shard_nonempty. by destruct g.
  - pose proof (wait_div t G). pose proof (G_pos (signal_group_tiles c) (ro_group c Hok)). cbn. lia.
Qed.

(** A wait that is done has the tile written. *)
Lemma wait_put g r : 0 <= r < n -> (if g : bool then dst r s < n - 1 else 1 <= dst r s) ->
  did w r (RWait g s (t / G)) -> did w ((r - 1) mod n) (RPut g s t).
Proof.
  intros Hr Hg Hd. pose proof (wait_ev g r Hr Hg) as He.
  assert (did w ((r - 1) mod n) (RSig g s (t / G))) as Hd1 by (apply (ctl_needs w Hw r (RWait g s (t / G))); try done; by right).
  apply (ctl_needs w Hw ((r - 1) mod n) (RSig g s (t / G))); try done; [by apply (signal_ev r (RWait g s (t / G)))|].
  left. split; [done|]. by exists t.
Qed.

Lemma red_put r : 0 <= r < n -> 1 <= dst r s -> did w r (RRed s t) -> did w ((r - 1) mod n) (RPut false s t).
Proof.
  intros Hr Hd Hdid. apply wait_put; [done|done|]. apply (ctl_needs w Hw r (RRed s t)); [by apply red_ev|done|].
  left. split; [done|]. right. exists (CRecv false s). split; [by left|done].
Qed.

Lemma put_red r : 0 <= r < n -> 1 <= dst r s < n - 1 -> did w r (RPut false s t) -> did w r (RRed s t).
Proof.
  intros Hr Hd Hdid. apply (ctl_needs w Hw r (RPut false s t)); [apply put_ev; [done|lia]|done|]. left. split; [done|].
  right. exists (CRed s). split; [|done]. unfold cdeps. change (dist (at_rank c r) s) with (dst r s).
  rewrite (proj2 (Z.eqb_neq _ _)) by lia. by left.
Qed.

Lemma put2_red r : 0 <= r < n -> dst r s = n - 1 -> did w r (RPut true s t) -> did w r (RRed s t).
Proof.
  intros Hr Hd Hdid. pose proof n_pos. apply (ctl_needs w Hw r (RPut true s t)); [|done|].
  { apply put_ev; [done|]. rewrite Hd, succ_mod, Z.eqb_refl by lia. lia. }
  left. split; [done|]. right. exists (CRed s). split; [|done]. unfold cdeps. change (dist (at_rank c r) s) with (dst r s).
  cbn. rewrite Hd, Z.eqb_refl. by left.
Qed.

Lemma put2_prev r : 0 <= r < n -> dst r s + 1 < n - 1 -> did w r (RPut true s t) -> did w ((r - 1) mod n) (RPut true s t).
Proof.
  intros Hr Hd Hdid. pose proof (dst_range r s). apply wait_put; [done|lia|]. apply (ctl_needs w Hw r (RPut true s t)); [|done|].
  { apply put_ev; [done|]. rewrite Z.mod_small; lia. }
  left. split; [done|]. right. exists (CRecv true s). split; [|done]. unfold cdeps. change (dist (at_rank c r) s) with (dst r s).
  cbn. rewrite (proj2 (Z.eqb_neq _ _)) by lia. by left.
Qed.

(** A reduction is after all those before it on the ring, and the writes between them. *)
Lemma red_chain r : 0 <= r < n -> 1 <= dst r s -> did w r (RRed s t) -> forall r', 0 <= r' < n -> dst r' s < dst r s ->
  did w r' (RPut false s t) /\ (1 <= dst r' s -> did w r' (RRed s t)).
Proof.
  intros Hr. remember (dst r s) as d eqn:Ed. intros Hd. revert r Hr Ed. pattern d. apply Zlt_lower_bound_ind with 1; [|lia].
  clear d Hd. intros d IH Hd r Hr -> Hdid r' Hr' Hlt.
  pose proof (red_put r Hr Hd Hdid) as Hp. pose proof (dst_range r s). pose proof (dst_range r' s).
  assert (dst ((r - 1) mod n) s = dst r s - 1) as E by (rewrite dst_prev; apply Z.mod_small; lia).
  destruct (decide (dst r' s = dst r s - 1)) as [E'|E'].
  - assert (r' = (r - 1) mod n) as -> by (apply (dst_inj _ _ s); [done|apply mod_range|lia]).
    split; [done|]. intros. apply put_red; [apply mod_range|lia|done].
  - apply (IH (dst r s - 1) ltac:(lia) ((r - 1) mod n)); try lia; [apply mod_range|].
    apply put_red; [apply mod_range|lia|done].
Qed.

(** A write of the second round is after the whole first round. *)
Lemma put2_chain r : 0 <= r < n -> (dst r s + 1) mod n < n - 1 -> did w r (RPut true s t) -> forall r', 0 <= r' < n ->
  (dst r' s < n - 1 -> did w r' (RPut false s t)) /\ (1 <= dst r' s -> did w r' (RRed s t)).
Proof.
  intros Hr Hm Hdid. pose proof n_pos.
  assert (exists r0, 0 <= r0 < n /\ dst r0 s = n - 1 /\ did w r0 (RRed s t)) as (r0 & Hr0 & Hd0 & Hdid0).
  { remember ((dst r s + 1) mod n) as m eqn:Em. assert (0 <= m) as Hm0 by (subst; apply mod_range). revert r Hr Em Hdid Hm. pattern m.
    apply Zlt_0_ind; [|done]. clear m Hm0. intros m IH Hm0 r Hr -> Hdid Hm. pose proof (dst_range r s) as Hd.
    rewrite succ_mod in * by done. destruct (Z.eqb_spec (dst r s) (n - 1)) as [E|E]; [exists r; split; [done|]; split; [done|]; by apply put2_red|].
    apply (IH (dst r s) ltac:(lia) ((r - 1) mod n)); [apply mod_range| |by apply put2_prev|lia].
    rewrite dst_prev, Zplus_mod_idemp_l. rewrite Z.mod_small; lia. }
  intros r' Hr'. pose proof (dst_range r' s). destruct (decide (dst r' s = n - 1)) as [E|E].
  - assert (r' = r0) as -> by (apply (dst_inj _ _ s); [done..|lia]). split; [lia|done].
  - destruct (red_chain r0 Hr0 ltac:(lia) Hdid0 r' Hr' ltac:(lia)). tauto.
Qed.

(** In place, a tile is written after the snapshot of what was there. *)
Lemma put_snap r : inplace = true -> 0 <= r < n -> dst r s < n - 1 -> did w r (RPut false s t) ->
  did w ((r + 1) mod n) (RSnap s t).
Proof.
  intros Ei Hr Hd Hdid. assert (ev r (RHsWait s)) as He.
  { split; [done|]. split; [|done]. cbn. rewrite in_plan_iff. cbn. pose proof shard_nonempty. done. }
  assert (did w r (RHsWait s)) as H1.
  { apply (ctl_needs w Hw r (RPut false s t)); [by apply put_ev|done|]. left. split; [done|]. by left. }
  assert (did w ((r + 1) mod n) (RHsSig s)) as H2 by (apply (ctl_needs w Hw r (RHsWait s)); try done; by right).
  apply (ctl_needs w Hw ((r + 1) mod n) (RHsSig s)); [by apply (signal_ev r (RHsWait s))|done|].
  left. split; [done|]. by exists t.
Qed.

Lemma red_snap r : inplace = true -> 0 <= r < n -> 1 <= dst r s -> did w r (RRed s t) -> did w r (RSnap s t).
Proof.
  intros Ei Hr Hd Hdid. apply (ctl_needs w Hw r (RRed s t)); [by apply red_ev|done|]. left. split; [done|]. by left.
Qed.
End tile.

(** ** What an operation writes *)

Context (Helem : 0 < elem) (Hsize : (elem | scalar_type_size (dtype c))) (Htile : (elem | tile_bytes c)).

Lemma tile_aligned s t : 0 <= s < n -> (elem | tile_off c s t) /\ (elem | tile_len c s t).
Proof.
  intros Hs. pose proof (cfg0_ok c Hok) as H0.
  pose proof (shard_offset_eq _ H0 s ltac:(cbn; lia)) as E1. pose proof (shard_size_eq _ H0 s ltac:(cbn; lia)) as E2.
  change (shard_offset (at_rank c 0) s) with (shard_offset c s) in E1. change (shard_size (at_rank c 0) s) with (ssize s) in E2.
  assert (elem | shard_offset c s) as D1 by (rewrite E1; by apply Z.divide_mul_r).
  assert (elem | ssize s) as D2 by (rewrite E2; by apply Z.divide_mul_r).
  assert (elem | t * tile_bytes c) as D3 by by apply Z.divide_mul_r.
  unfold tile_off, tile_len. split; [by apply Z.divide_add_r|].
  destruct (Z.min_spec (tile_bytes c) (ssize s - t * tile_bytes c)) as [[_ ->]|[_ ->]]; [done|by apply Z.divide_sub_r].
Qed.

Lemma next_local r : (r + 1) mod n =? 0xFFFFFFFF = false.
Proof. pose proof (mod_range (r + 1)). pose proof (ro_ranks c Hok). apply Z.eqb_neq. lia. Qed.

Lemma mem_put r g s t w w1 : 0 <= s < n -> 0 <= t < tiles_of c s -> exec r (rcmd c inplace r (RPut g s t)) w = Some w1 ->
  forall r' b x, mem w1 r' b x =
    if decide (r' = (r + 1) mod n /\ b = Output /\ in_tile c s t x)
    then mem w r (buffer inplace (if negb g && (dst r s =? 0) then Input else Output)) x else mem w r' b x.
Proof.
  intros Hs Ht E r' b x. cbn [rcmd] in E. unfold Collective.exec in E. cbn [cdst_peer ckind] in E. rewrite next_local in E.
  injection E as <-. cbn. unfold write. case_bool_decide as H1.
  - destruct H1 as [-> ->]. unfold copy, in_tile. cbn.
    destruct (Z.leb_spec (tile_off c s t) x), (Z.ltb_spec x (tile_off c s t + tile_len c s t)); cbn;
      [rewrite decide_True by (split_and!; done || lia)|rewrite decide_False by (intros (_ & _ & _ & _ & ?); lia)..]; try done.
    change (dist (at_rank c r) s) with (dst r s). f_equal. lia.
  - rewrite decide_False by tauto. done.
Qed.

Lemma mem_red r s t w w1 : 0 <= s < n -> 0 <= t < tiles_of c s -> exec r (rcmd c inplace r (RRed s t)) w = Some w1 ->
  forall r' b x, ((elem | x) \/ r' <> r \/ b <> Output) -> mem w1 r' b x =
    if decide (r' = r /\ b = Output /\ in_tile c s t x)
    then vop (mem w r Output x) (if inplace then mem w r Scratch (stage c r s t + (x - tile_off c s t)) else mem w r Input x)
    else mem w r' b x.
Proof.
  intros Hs Ht E r' b x Hx. destruct (tile_aligned s t Hs) as [Do [l El]]. cbn [rcmd] in E. unfold Collective.exec in E.
  assert (E' : exists from, w1 = MkWorld (write r Output (combine vop elem (MkCmd Reduce (if inplace then Scratch else Input) Output
    from (tile_off c s t) (tile_len c s t) 0xFFFFFFFF 0xFFFFFFFF 0) (mem w r (if inplace then Scratch else Input)) (mem w r Output)) (mem w))
    (tags w) (done w) /\ from = (if inplace then stage c r s t else tile_off c s t)).
  { destruct inplace; cbn in E; injection E as <-; eexists; split; reflexivity. }
  clear E. destruct E' as (from & -> & ->). cbn. unfold write. case_bool_decide as H1.
  - destruct H1 as [-> ->]. destruct Hx as [[y ->]|[|]]; [|done..]. unfold combine, in_tile. cbn.
    assert (tile_len c s t / elem * elem = tile_len c s t) as -> by (rewrite El, Z.div_mul; lia).
    destruct Do as [o ->]. replace (y * elem - o * elem) with ((y - o) * elem) by lia. rewrite Z.mod_mul, Z.eqb_refl, andb_true_r by lia.
    destruct (Z.leb_spec (o * elem) (y * elem)), (Z.ltb_spec (y * elem) (o * elem + tile_len c s t)); cbn;
      [rewrite decide_True by (split_and!; done || lia)|rewrite decide_False by (intros (_ & _ & _ & _ & ?); lia)..]; try done.
    destruct inplace; do 2 f_equal; lia.
  - rewrite decide_False by tauto. done.
Qed.

Lemma mem_snap r s t w w1 : exec r (rcmd c inplace r (RSnap s t)) w = Some w1 ->
  forall r' b x, mem w1 r' b x =
    if decide (r' = r /\ b = Scratch /\ stage c r s t <= x < stage c r s t + tile_len c s t)
    then mem w r Output (tile_off c s t + (x - stage c r s t)) else mem w r' b x.
Proof.
  intros E r' b x. unfold Collective.exec in E. cbn in E. injection E as <-. cbn. unfold write. case_bool_decide as H1.
  - destruct H1 as [-> ->]. unfold copy. cbn.
    destruct (Z.leb_spec (stage c r s t) x), (Z.ltb_spec x (stage c r s t + tile_len c s t)); cbn;
      [by rewrite decide_True by (split_and!; done || lia)|by rewrite decide_False by (intros (_ & _ & ?); lia)..].
  - by rewrite decide_False by tauto.
Qed.

Lemma mem_signal r k w w1 : match k with RSig _ _ _ | RWait _ _ _ | RHsSig _ | RHsWait _ => True | _ => False end ->
  exec r (rcmd c inplace r k) w = Some w1 -> mem w1 = mem w.
Proof.
  intros Hk E. destruct k; try done; unfold Collective.exec in E; cbn in E; try by injection E as <-.
  all: destruct (remove_tag _ _); cbn in E; by simplify_eq.
Qed.

(** ** What the buffers hold *)

Context (m0 : Z -> CollectiveBufferRole -> Z -> V).

(** The input of a rank, and the reduction of the inputs from the owner of a
    shard on. *)
Definition own (r x : Z) : V := m0 r (buffer inplace Input) x.
Definition partial (s d x : Z) : V := fold_left (fun v j => vop v (own ((s + j) mod n) x)) (seqZ 1 d) (own s x).

Lemma partial_succ s d x : 0 <= d -> partial s (d + 1) x = vop (partial s d x) (own ((s + (d + 1)) mod n) x).
Proof.
  intros Hd. unfold partial. rewrite seqZ_app, fold_left_app by lia. rewrite seqZ_one. cbn. do 4 f_equal. lia.
Qed.

#[local] Instance did_dec w r k : Decision (did w r k).
Proof. unfold did. apply _. Defined.

(** Whether the complete tile has come, whether it is reduced, and whether the
    part of the ranks before has come. *)
Definition complete_in (w : world) (r s t : Z) : Prop := dst r s < n - 1 /\ did w ((r - 1) mod n) (RPut true s t).
Definition reduced (w : world) (r s t : Z) : Prop := 1 <= dst r s /\ did w r (RRed s t).
Definition part_in (w : world) (r s t : Z) : Prop := 1 <= dst r s /\ did w ((r - 1) mod n) (RPut false s t).

Definition content (w : world) (r s t x : Z) : V :=
  if decide (complete_in w r s t) then partial s (n - 1) x
  else if decide (reduced w r s t) then partial s (dst r s) x
  else if decide (part_in w r s t) then partial s (dst r s - 1) x
  else m0 r Output x.

Record data (w : world) : Prop := {
  data_out : forall r s t x, 0 <= r < n -> in_tile c s t x -> (elem | x) -> mem w r Output x = content w r s t x;
  data_in : inplace = false -> forall r x, mem w r Input x = m0 r Input x;
  data_snap : inplace = true -> forall r s t x, ev r (RSnap s t) -> in_tile c s t x -> (elem | x) ->
    did w r (RSnap s t) -> mem w r Scratch (stage c r s t + (x - tile_off c s t)) = m0 r Output x;
}.

Lemma data_start : data (MkWorld m0 [] ∅).
Proof.
  assert (forall r k, ~ did (MkWorld m0 [] ∅) r k) as Hd by (unfold did; cbn; set_solver).
  split; [|done|by intros _ r s t x _ _ _ ?%Hd]. intros r s t x _ _ _. unfold content, complete_in, reduced, part_in.
  rewrite !decide_False by (intros [_ ?%Hd]; done). done.
Qed.

Section states.
Context (w : world (V := V)) (Hw : ctl w) (s t : Z) (Hs : 0 <= s < n) (Ht : 0 <= t < tiles_of c s).

(** The second round has not begun while a rank has still to write or to reduce. *)
Lemma not_complete r r' : 0 <= r < n -> 0 <= r' < n ->
  (dst r' s < n - 1 /\ ~ did w r' (RPut false s t)) \/ (1 <= dst r' s /\ ~ did w r' (RRed s t)) -> ~ complete_in w r s t.
Proof.
  intros Hr Hr' Hn [Hd Hc]. destruct (put2_chain w Hw s t Hs Ht ((r - 1) mod n)) with (r' := r'); try done; [apply mod_range| |tauto].
  rewrite <- dst_next, next_prev by done. done.
Qed.

Lemma content_reduced r x : reduced w r s t -> ~ complete_in w r s t -> content w r s t x = partial s (dst r s) x.
Proof. intros H1 H2. unfold content. by rewrite decide_False, decide_True. Qed.
End states.

Section data_step.
Context (r : Z) (k : rkey) (w w1 : world (V := V)) (Hw : ctl w) (Hd : data w) (He : ev r k) (Hn : ~ did w r k).
Context (Hb : forall b, rdep c inplace r k b -> did w r b).
Context (Ex : exec r (rcmd c inplace r k) w = Some w1).
Abbreviation w' := (next r k w1).

(** The operations that change what a tile of a rank holds. *)
Definition affects (r' s t : Z) : Prop :=
  (r = (r' - 1) mod n /\ ((dst r' s < n - 1 /\ k = RPut true s t) \/ (1 <= dst r' s /\ k = RPut false s t))) \/
  (r = r' /\ k = RRed s t).

Lemma content_same r' s t x : 0 <= r' < n -> 0 <= s < n -> 0 <= t < tiles_of c s -> ~ affects r' s t ->
  content w' r' s t x = content w r' s t x.
Proof.
  clear Hw Hd Hn Hb. intros Hr' Hs Ht Ha. unfold content, affects in *.
  assert (complete_in w' r' s t <-> complete_in w r' s t) as E1.
  { unfold complete_in. destruct (decide (dst r' s < n - 1)) as [Hl|]; [|tauto].
    assert (ev ((r' - 1) mod n) (RPut true s t)) as Hv
      by (apply put_ev; try done; [apply mod_range|rewrite <- dst_next, next_prev by done; done]).
    rewrite (did_next r k w w1) by done. split; [|tauto]. intros [_ [|[E <-]]]; [done|]. exfalso. apply Ha. left. split; [done|]. by left. }
  assert (reduced w' r' s t <-> reduced w r' s t) as E2.
  { unfold reduced. destruct (decide (1 <= dst r' s)) as [Hl|]; [|tauto].
    rewrite (did_next r k w w1) by (try done; by apply red_ev). split; [|tauto]. intros [_ [|[E <-]]]; [done|]. exfalso. apply Ha. by right. }
  assert (part_in w' r' s t <-> part_in w r' s t) as E3.
  { unfold part_in. destruct (decide (1 <= dst r' s)) as [Hl|]; [|tauto]. pose proof (dst_range r' s).
    assert (ev ((r' - 1) mod n) (RPut false s t)) as Hv.
    { apply put_ev; try done; [apply mod_range|]. rewrite dst_prev, Z.mod_small; lia. }
    rewrite (did_next r k w w1) by done. split; [|tauto]. intros [_ [|[E <-]]]; [done|]. exfalso. apply Ha. left. split; [done|]. by right. }
  by rewrite (decide_ext _ _ _ _ E1), (decide_ext _ _ _ _ E2), (decide_ext _ _ _ _ E3).
Qed.
End data_step.

Lemma ev_tile r k : ev r k -> match k with RPut _ s t | RSnap s t | RRed s t => 0 <= s < n /\ 0 <= t < tiles_of c s | _ => True end.
Proof.
  intros [_ [Hp Hv]]. rewrite in_plan_iff in Hp. destruct Hp as [Hs _]. destruct k; cbn in *; try done. by destruct Hv.
Qed.

(** A write of the first round passes on what the rank has reduced. *)
Lemma data_put1 r s t w w1 x : ctl w -> data w -> ev r (RPut false s t) -> ~ did w r (RPut false s t) ->
  (forall b, rdep c inplace r (RPut false s t) b -> did w r b) -> exec r (rcmd c inplace r (RPut false s t)) w = Some w1 ->
  in_tile c s t x -> (elem | x) ->
  mem w r (buffer inplace (if dst r s =? 0 then Input else Output)) x = content (next r (RPut false s t) w1) ((r + 1) mod n) s t x.
Proof.
  intros Hw Hd He Hn Hb Ex Hx Hel. destruct (ev_tile _ _ He) as [Hs Ht]. pose proof He as [Hr [Hp _]].
  rewrite in_plan_iff in Hp. destruct Hp as (_ & _ & Hlt). cbn in Hlt. pose proof (dst_range r s) as Hdr. pose proof (mod_range (r + 1)) as Hr1.
  assert (dst ((r + 1) mod n) s = dst r s + 1) as E1 by (rewrite dst_next; apply Z.mod_small; lia).
  assert (forall r', 0 <= r' < n -> ~ complete_in w r' s t) as Hnc by (intros r' Hr'; apply (not_complete w Hw s t Hs Ht r' r); try done; by left).
  assert (content (next r (RPut false s t) w1) ((r + 1) mod n) s t x = partial s (dst r s) x) as ->.
  { unfold content. rewrite decide_False, decide_False, decide_True; [by rewrite E1, Z.add_simpl_r|..].
    - split; [lia|]. rewrite prev_next by done. apply (did_next r (RPut false s t) w w1); try done. by right.
    - intros [_ H]. apply (did_next r (RPut false s t) w w1) in H as [H|[_ [=]]]; try done; [|by apply red_ev; try done; lia].
      apply (red_put w Hw s t) in H; try done; [|lia]. by rewrite prev_next in H.
    - intros [H1 H2]. apply (Hnc _ Hr1). split; [done|]. rewrite prev_next in * by done.
      apply (did_next r (RPut false s t) w w1) in H2 as [H2|[_ [=]]]; try done. apply put_ev; try done. by rewrite <- dst_next. }
  destruct (Z.eqb_spec (dst r s) 0) as [E0|E0].
  - assert (r = s) as <- by (rewrite <- (dst_owner r s), E0 by done; rewrite Z.add_0_r; by apply Z.mod_small).
    rewrite E0. change (partial r 0 x) with (own r x). unfold own. destruct inplace eqn:Ei; cbn; [|by apply Hd].
    rewrite (data_out w Hd r r t x) by done. unfold content, reduced, part_in. rewrite !decide_False; try done; try lia. by apply Hnc.
  - cbn. rewrite (data_out w Hd r s t x) by done. apply content_reduced; [|by apply Hnc]. split; [lia|]. apply Hb. right. exists (CRed s).
    split; [|done]. unfold cdeps. change (dist (at_rank c r) s) with (dst r s). rewrite (proj2 (Z.eqb_neq _ _)) by done. by left.
Qed.

(** A write of the second round passes on the complete tile. *)
Lemma data_put2 r s t w w1 x : ctl w -> data w -> ev r (RPut true s t) ->
  (forall b, rdep c inplace r (RPut true s t) b -> did w r b) -> exec r (rcmd c inplace r (RPut true s t)) w = Some w1 ->
  in_tile c s t x -> (elem | x) ->
  mem w r Output x = content (next r (RPut true s t) w1) ((r + 1) mod n) s t x.
Proof.
  intros Hw Hd He Hb Ex Hx Hel. destruct (ev_tile _ _ He) as [Hs Ht]. pose proof He as [Hr [Hp _]].
  rewrite in_plan_iff in Hp. destruct Hp as (_ & _ & Hlt). cbn in Hlt. pose proof (dst_range r s) as Hdr.
  unfold content. rewrite decide_True; cycle 1.
  { split; [by rewrite dst_next|]. rewrite prev_next by done. apply (did_next r (RPut true s t) w w1); try done. by right. }
  rewrite (data_out w Hd r s t x) by done.
  assert (forall b, b ∈ (if dst r s =? n - 1 then [CRed s] else [CRecv true s]) -> did w r (newk c b t)) as Hb'.
  { intros b Hin. apply Hb. right. by exists b. }
  rewrite succ_mod in Hlt by done. destruct (Z.eqb_spec (dst r s) (n - 1)) as [E|E].
  - rewrite content_reduced; [by rewrite E|split; [lia|apply (Hb' (CRed s)); by left]|]. intros [? _]. lia.
  - unfold content. rewrite decide_True; [done|]. split; [lia|]. apply (wait_put w Hw s t Hs Ht true); [done|lia|].
    apply (Hb' (CRecv true s)). by left.
Qed.

(** A reduction adds the input of the rank. *)
Lemma data_red r s t w w1 x : ctl w -> data w -> ev r (RRed s t) -> ~ did w r (RRed s t) ->
  (forall b, rdep c inplace r (RRed s t) b -> did w r b) -> exec r (rcmd c inplace r (RRed s t)) w = Some w1 ->
  in_tile c s t x -> (elem | x) ->
  vop (mem w r Output x) (if inplace then mem w r Scratch (stage c r s t + (x - tile_off c s t)) else mem w r Input x) =
  content (next r (RRed s t) w1) r s t x.
Proof.
  intros Hw Hd He Hn Hb Ex Hx Hel. destruct (ev_tile _ _ He) as [Hs Ht]. pose proof He as [Hr [Hp _]].
  rewrite in_plan_iff in Hp. destruct Hp as (Hs' & Hz & Hlt). cbn in Hlt, Hz. pose proof (dst_range r s) as Hdr.
  assert (~ complete_in w r s t) as Hnc by (apply (not_complete w Hw s t Hs Ht r r); try done; by right).
  assert (content (next r (RRed s t) w1) r s t x = partial s (dst r s) x) as ->.
  { unfold content. rewrite decide_False, decide_True; [done|..].
    - split; [done|]. apply (did_next r (RRed s t) w w1); try done. by right.
    - intros [H1 H2]. apply Hnc. split; [done|]. apply (did_next r (RRed s t) w w1) in H2 as [H2|[_ [=]]]; try done.
      apply put_ev; try done; [apply mod_range|]. by rewrite <- dst_next, next_prev. }
  assert (mem w r Output x = partial s (dst r s - 1) x) as ->.
  { rewrite (data_out w Hd r s t x) by done. unfold content. rewrite decide_False, decide_False, decide_True; try done.
    - split; [done|]. apply (wait_put w Hw s t Hs Ht false); [done|done|]. apply Hb. right. exists (CRecv false s). split; [by left|done].
    - by intros [_ ?]. }
  replace (dst r s) with (dst r s - 1 + 1) at 2 by lia. rewrite partial_succ by lia.
  replace (dst r s - 1 + 1) with (dst r s) by lia. rewrite dst_owner by done. f_equal. unfold own.
  destruct inplace eqn:Ei; cbn; [|by apply Hd]. apply Hd; try done; [|apply Hb; by left].
  split; [done|]. split; [|done]. cbn. rewrite in_plan_iff. done.
Qed.

(** A snapshot is taken before anything has come. *)
Lemma data_untouched r s t w x : ctl w -> data w -> ev r (RSnap s t) -> ~ did w r (RSnap s t) -> in_tile c s t x -> (elem | x) ->
  mem w r Output x = m0 r Output x.
Proof.
  intros Hw Hd He Hn Hx Hel. destruct (ev_tile _ _ He) as [Hs Ht]. pose proof He as [Hr [Hp [Ei _]]].
  rewrite in_plan_iff in Hp. destruct Hp as (Hs' & Hz & Hlt). cbn in Hlt, Hz. pose proof (dst_range r s) as Hdr.
  assert (~ did w r (RRed s t)) as Hnr by (intros H; by apply Hn, (red_snap w Hw s t)).
  rewrite (data_out w Hd r s t x) by done. unfold content. rewrite !decide_False; try done.
  - intros [_ H]. apply Hn. apply (put_snap w Hw s t) in H; try done; [by rewrite next_prev in H|apply mod_range|].
    rewrite dst_prev, Z.mod_small; lia.
  - by intros [_ ?].
  - apply (not_complete w Hw s t Hs Ht r r); try done. by right.
Qed.

(** An operation that changes no tile of the output, no input and no snapshot but its own. *)
Lemma data_frame r k w w1 : ctl w -> data w -> ev r k -> exec r (rcmd c inplace r k) w = Some w1 ->
  (forall r' s t x, 0 <= r' < n -> in_tile c s t x -> (elem | x) ->
     mem w1 r' Output x = content (next r k w1) r' s t x \/ (mem w1 r' Output x = mem w r' Output x /\ ~ affects r k r' s t)) ->
  (inplace = false -> forall r' x, mem w1 r' Input x = mem w r' Input x) ->
  (forall r' s t x, ev r' (RSnap s t) -> in_tile c s t x -> (elem | x) -> ~ (r' = r /\ k = RSnap s t) ->
     mem w1 r' Scratch (stage c r' s t + (x - tile_off c s t)) = mem w r' Scratch (stage c r' s t + (x - tile_off c s t))) ->
  (forall s t x, k = RSnap s t -> in_tile c s t x -> (elem | x) ->
     mem w1 r Scratch (stage c r s t + (x - tile_off c s t)) = m0 r Output x) ->
  data (next r k w1).
Proof.
  intros Hw Hd He Ex Ho Hi Hs Hs'. split; cbn [mem next].
  - intros r' s t x Hr' Hx Hel. destruct (Ho r' s t x Hr' Hx Hel) as [E|[E Ha]]; [done|].
    rewrite E, (data_out w Hd r' s t x) by done. pose proof Hx as (Hst & Ht & _). symmetry. by apply (content_same r k w w1).
  - intros Ei r' x. rewrite Hi by done. by apply Hd.
  - intros Ei r' s t x He' Hx Hel Hdid. destruct (decide (r' = r /\ (r', ridx c inplace r' (RSnap s t)) = (r, ridx c inplace r k))) as [[-> Eq]|Hne].
    + injection Eq as Eq. apply (ridx_inj c inplace Hok r) in Eq; [|apply He|apply He'|apply He]. by apply Hs'.
    + assert (~ (r' = r /\ k = RSnap s t)) as Hne' by (intros [-> ->]; by apply Hne).
      rewrite Hs by done. apply Hd; try done. apply (did_next r k w w1) in Hdid as [|[E1 E2]]; try done. exfalso. by apply Hne'.
Qed.

Lemma not_affects r k r' s t : match k with RPut _ _ _ | RRed _ _ => False | _ => True end -> ~ affects r k r' s t.
Proof. intros Hk. by intros [[_ [[_ ->]|[_ ->]]]|[_ ->]]. Qed.

Section next.
Context (r : Z) (k : rkey) (w w1 : world (V := V)) (Hw : ctl w) (Hd : data w) (He : ev r k) (Hn : ~ did w r k).
Context (Hb : forall b, rdep c inplace r k b -> did w r b).
Context (Ex : exec r (rcmd c inplace r k) w = Some w1).

Lemma data_next_put g s t : k = RPut g s t -> data (next r k w1).
Proof.
  intros Ek. pose proof (ev_tile r k He) as Hst. revert He Hn Hb Ex Hst. rewrite Ek. intros He' Hn' Hb' Ex' [Hs Ht].
  pose proof (mem_put r g s t w w1 Hs Ht Ex') as Em. apply data_frame with w; try done.
  - intros r' s' t' x Hr' Hx Hel. rewrite Em. destruct (decide _) as [H|H].
    + left. destruct H as (-> & _ & Hx'). destruct (in_tile_unique c Hok _ _ _ _ _ Hx Hx') as [-> ->].
      destruct g; [by apply data_put2|by apply data_put1].
    + right. split; [done|]. intros [[-> H']|[_ [=]]]. apply H. rewrite next_prev by done. split; [done|]. split; [done|].
      by destruct H' as [[_ [= -> -> ->]]|[_ [= -> -> ->]]].
  - intros _ r' x. by rewrite Em, decide_False by (intros (_ & [=] & _)).
  - intros r' s' t' x _ _ _ _. by rewrite Em, decide_False by (intros (_ & [=] & _)).
Qed.

Lemma data_next_red s t : k = RRed s t -> data (next r k w1).
Proof.
  intros Ek. pose proof (ev_tile r k He) as Hst. revert He Hn Hb Ex Hst. rewrite Ek. intros He' Hn' Hb' Ex' [Hs Ht].
  pose proof (mem_red r s t w w1 Hs Ht Ex') as Em. apply data_frame with w; try done.
  - intros r' s' t' x Hr' Hx Hel. rewrite Em by by left. destruct (decide _) as [H|H].
    + left. destruct H as (-> & _ & Hx'). destruct (in_tile_unique c Hok _ _ _ _ _ Hx Hx') as [-> ->]. by apply data_red.
    + right. split; [done|]. intros [[_ [[_ [=]]|[_ [=]]]]|[-> [= -> ->]]]. by apply H.
  - intros _ r' x. by rewrite Em, decide_False by ((by intros (_ & [=] & _)) || (right; by right)).
  - intros r' s' t' x _ _ _ _. by rewrite Em, decide_False by ((by intros (_ & [=] & _)) || (right; by right)).
Qed.

Lemma data_next_snap s t : k = RSnap s t -> data (next r k w1).
Proof.
  intros Ek. pose proof (ev_tile r k He) as Hst. revert He Hn Hb Ex Hst. rewrite Ek. intros He' Hn' Hb' Ex' [Hs Ht].
  pose proof (mem_snap r s t w w1 Ex') as Em. apply data_frame with w; try done.
  - intros r' s' t' x Hr' Hx Hel. right. rewrite Em, decide_False by (intros (_ & [=] & _)). split; [done|]. by apply not_affects.
  - intros _ r' x. by rewrite Em, decide_False by (intros (_ & [=] & _)).
  - intros r' s' t' x He2 Hx Hel Hne. rewrite Em, decide_False; [done|]. intros (-> & _ & H). apply Hne. split; [done|].
    destruct He2 as [Hr' [Hp' [_ Ht']]], He' as [_ [Hp _]]. pose proof Hx as (_ & _ & Hx').
    by destruct (stage_disjoint c Hok r Hr' s t s' t' (stage c r s' t' + (x - tile_off c s' t'))) as [-> ->]; try done; lia.
  - intros s' t' x [= <- <-] Hx Hel. rewrite Em. pose proof Hx as (_ & _ & Hx'). rewrite decide_True by (split_and!; done || lia).
    replace (tile_off c s t + _) with x by lia. by apply (data_untouched r s t w x).
Qed.

End next.

Lemma data_next r k w w1 : ctl w -> data w -> ev r k -> ~ did w r k -> (forall b, rdep c inplace r k b -> did w r b) ->
  exec r (rcmd c inplace r k) w = Some w1 -> data (next r k w1).
Proof.
  intros Hw Hd He Hn Hb Ex. destruct k as [g s t|g s q|g s q|s t|s t|s|s];
    [by eapply data_next_put| | |by eapply data_next_snap|by eapply data_next_red| |];
    (assert (mem w1 = mem w) as Em by (eapply mem_signal; [|exact Ex]; done));
    (apply data_frame with w; try done; rewrite Em; try done; intros r' s' t' x _ _ _; right; split; [done|]; by apply not_affects).
Qed.

(** ** Runs *)

Abbreviation step := (step vop elem inplace plan).
Abbreviation start := (MkWorld m0 [] ∅).

Lemma step_inv w w' : ctl w -> data w -> step w w' -> ctl w' /\ data w' /\ size (done w') = S (size (done w)).
Proof.
  intros Hw Hd (r & i & E). destruct (step_event r i w w' E) as (k & w1 & He & -> & Hn & Hb & Ex & ->).
  split; [by apply (ctl_next r k w w1)|]. split; [by apply (data_next r k w w1)|]. cbn.
  destruct (exec_ctl r k w w1 Ex) as [Ed _]. rewrite Ed, size_union, size_singleton; [done|]. set_solver.
Qed.

Lemma run_inv m w : nsteps step m start w -> ctl w /\ data w /\ size (done w) = m.
Proof.
  assert (forall m w w', nsteps step m w w' -> ctl w -> data w -> ctl w' /\ data w' /\ size (done w') = (m + size (done w))%nat) as H.
  { clear m w. induction 1 as [w|m w w2 w' Hs _ IH]; intros Hw Hd; [done|].
    destruct (step_inv _ _ Hw Hd Hs) as (H1 & H2 & H3). destruct (IH H1 H2) as (H4 & H5 & H6). split_and!; try done. lia. }
  intros Hr. destruct (H _ _ _ Hr (ctl_start m0) data_start) as (H1 & H2 & H3). split_and!; try done. rewrite H3. cbn.
  rewrite size_empty. lia.
Qed.

(** All operations. *)
Definition all_ops : gset (Z * Z) := list_to_set (seqZ 0 n ≫= fun r => pair r <$> seqZ 0 (alen (plan r))).

Lemma all_ops_in r i : (r, i) ∈ all_ops <-> exists k, ev r k /\ i = ridx c inplace r k.
Proof.
  unfold all_ops. rewrite elem_of_list_to_set, list_elem_of_bind. split.
  - intros (r' & (j & [= <- <-] & Hi%elem_of_seqZ)%list_elem_of_fmap & Hr%elem_of_seqZ).
    destruct (aget_is_Some (plan r) i ltac:(lia)) as [o Ho].
    destruct (plan_surj c inplace Hok r ltac:(lia) i o ltac:(lia) Ho) as (k & Hk & ->). exists k. split; [|done]. split; [lia|done].
  - intros (k & [Hr Hk] & ->). pose proof (ridx_range c inplace Hok r Hr k Hk). exists r.
    split; [apply list_elem_of_fmap; eexists; split; [done|]|]; apply elem_of_seqZ; lia.
Qed.

Lemma done_all w : ctl w -> done w ⊆ all_ops.
Proof. intros Hw [r i] H. apply all_ops_in. by apply (ctl_done w Hw). Qed.

Lemma stuck_all w : ctl w -> (forall w', ~ step w w') <-> done w = all_ops.
Proof.
  intros Hw. split.
  - intros Hs. apply set_eq. intros [r i]. split; [by apply done_all|]. intros (k & He & ->)%all_ops_in. by apply (stuck_complete w).
  - intros E w' (r & i & H). destruct (step_event r i w w' H) as (k & w1 & He & -> & Hn & _). apply Hn. unfold did. rewrite E.
    apply all_ops_in. by exists k.
Qed.

Lemma all_ops_size : Z.of_nat (size all_ops) = zsum (map (fun r => alen (plan r)) (seqZ 0 n)).
Proof.
  unfold all_ops. rewrite size_list_to_set.
  - generalize (seqZ 0 n). intros l. induction l as [|r l IH]; [done|]. cbn. rewrite length_app, length_fmap, length_seqZ.
    pose proof (alen_nonneg (plan r)). lia.
  - apply NoDup_bind; [|intros r _; apply NoDup_fmap_2, NoDup_seqZ; apply _|apply NoDup_seqZ].
    intros r r' [x y] _ _ (? & [= -> _] & _)%list_elem_of_fmap (? & [= -> _] & _)%list_elem_of_fmap. done.
Qed.

Lemma stuck_tags w : ctl w -> done w = all_ops -> tags w = [].
Proof.
  intros Hw E. destruct (tags w) as [|T l] eqn:ET; [done|]. exfalso.
  destruct (proj1 (ctl_tags w Hw T)) as (r & k & r' & k' & He & _ & _ & Hn & _); [rewrite ET; by left|].
  apply Hn. unfold did. rewrite E. apply all_ops_in. by exists k.
Qed.

Lemma stuck_data w r s x : ctl w -> data w -> done w = all_ops -> 0 <= r < n -> 0 <= s < n ->
  shard_offset c s <= x < shard_offset c s + shard_size c s -> (elem | x) -> mem w r Output x = partial s (n - 1) x.
Proof.
  intros Hw Hd E Hr Hs Hx Hel. assert (forall r k, ev r k -> did w r k) as Hall.
  { intros r' k He. unfold did. rewrite E. apply all_ops_in. by exists k. }
  pose proof (shard_bounds c Hok s Hs). destruct (in_tile_exists c Hok x ltac:(lia)) as (s' & t & Ht).
  assert (s' = s) as ->.
  { destruct Ht as (Hs' & Ht & Hx'). pose proof (tile_in c Hok s' t Hs' Ht).
    apply (shard_disjoint _ (cfg0_ok c Hok) s' s x); cbn; try done;
    change (shard_offset (at_rank c 0)) with (shard_offset c); change (shard_size (at_rank c 0)) with (shard_size c); lia. }
  rewrite (data_out w Hd r s t x) by done. pose proof (dst_range r s). destruct Ht as (_ & Ht & _).
  unfold content. destruct (decide (dst r s = n - 1)) as [Ed|Ed].
  - rewrite decide_False by (intros [? _]; lia). pose proof n_pos. rewrite decide_True; [by rewrite Ed|]. split; [lia|].
    apply Hall, red_ev; try done. lia.
  - rewrite decide_True; [done|]. split; [lia|]. apply Hall, put_ev; try done; [apply mod_range|].
    rewrite <- dst_next, next_prev by done. lia.
Qed.
End run.
End ring.
End RingSpec.
