(* ===== verification/AllReduce.v ===== *)
(** * All-reduce

    What [RingPlan.v] and [RingSpec.v] give for the plans of [build_tiled]: an
    all-reduce ends after one step per operation, whatever the schedule, and then
    every rank holds the reduction of all inputs. *)

From S2P Require Import Prelude ChunkGraph Lower LowerSpec Collective RingPlan RingSpec.

Module AllReduce.
Import ChunkGraph Lower LowerSpec Collective RingPlan RingSpec.

(** ** Order of reduction *)

Section fold.
Context {V : Type} (vop : V -> V -> V) `{!Assoc (=) vop, !Comm (=) vop}.

Definition opt_op (a b : option V) : option V :=
  match a, b with Some a, Some b => Some (vop a b) | Some a, None => Some a | None, b => b end.

Lemma fold_opt l x : Some (fold_left vop l x) = foldr opt_op None (map Some (x :: l)).
Proof.
  revert x. induction l as [|y l IH]; intros x; [done|]. cbn [fold_left]. rewrite IH. cbn.
  destruct (foldr _ _ _); cbn; [by rewrite (assoc vop)|done].
Qed.

Lemma fold_perm x l y k : x :: l ≡ₚ y :: k -> fold_left vop l x = fold_left vop k y.
Proof.
  intros Hp. apply (inj Some). rewrite !fold_opt. apply foldr_permutation with (R := eq).
  - apply _.
  - intros a. apply _.
  - intros j1 a1 j2 a2 b _ _ _. destruct a1, a2, b; cbn; try done; f_equal; try by rewrite (comm vop).
    by rewrite !(assoc vop), (comm vop v v0).
  - by rewrite Hp.
Qed.
End fold.

(** The ranks from [s] on, round the ring, are all ranks. *)
Lemma ring_perm n s : 0 < n -> 0 <= s < n -> map (fun j => (s + j) mod n) (seqZ 0 n) ≡ₚ seqZ 0 n.
Proof.
  intros Hn Hs. apply NoDup_Permutation.
  - apply NoDup_fmap_2_strong; [|apply NoDup_seqZ]. intros i j Hi%elem_of_seqZ Hj%elem_of_seqZ E.
    assert ((s + i - (s + j)) mod n = 0) as E0 by (rewrite Zminus_mod, E, Z.sub_diag; apply Z.mod_0_l; lia).
    apply Z.mod_divide in E0 as [q Eq]; [|lia]. assert (q = 0) as -> by nia. lia.
  - apply NoDup_seqZ.
  - intros x. rewrite list_elem_of_fmap, elem_of_seqZ. split.
    + intros (j & -> & _). pose proof (Z.mod_pos_bound (s + j) n Hn). lia.
    + intros Hx. exists ((x - s) mod n). split; [|apply elem_of_seqZ; pose proof (Z.mod_pos_bound (x - s) n Hn); lia].
      rewrite Zplus_mod_idemp_r. replace (s + (x - s)) with x by lia. symmetry. apply Z.mod_small. lia.
Qed.

(** ** The reference *)

(** The reduction of the inputs round the ring from rank [s] on. *)
Definition ring_reduce {V} (vop : V -> V -> V) (n : Z) (input : Z -> Z -> V) (s x : Z) : V :=
  fold_left (fun v j => vop v (input ((s + j) mod n) x)) (seqZ 1 (n - 1)) (input s x).

(** The reduction in the order of the ranks. *)
Definition reduce_all {V} (vop : V -> V -> V) (n : Z) (input : Z -> Z -> V) (x : Z) : V :=
  fold_left (fun v j => vop v (input j x)) (seqZ 1 (n - 1)) (input 0 x).

Lemma fold_left_map {A B} (vop : B -> B -> B) (f : A -> B) l v :
  fold_left (fun v j => vop v (f j)) l v = fold_left vop (map f l) v.
Proof. revert v. induction l as [|a l IH]; intros v; [done|]. apply IH. Qed.

Lemma ring_reduce_all {V} (vop : V -> V -> V) `{!Assoc (=) vop, !Comm (=) vop} n input s x :
  2 <= n -> 0 <= s < n -> ring_reduce vop n input s x = reduce_all vop n input x.
Proof.
  intros Hn Hs. unfold ring_reduce, reduce_all.
  rewrite (fold_left_map vop (fun j => input ((s + j) mod n) x)), (fold_left_map vop (fun j => input j x)).
  apply fold_perm; [done|done|]. pose proof (ring_perm n s ltac:(lia) Hs) as Hp.
  rewrite (seqZ_cons 0 n) in Hp by lia. cbn [map] in Hp. rewrite Z.add_0_r, Z.mod_small in Hp by done.
  change (Z.succ 0) with 1 in Hp. replace (Z.pred n) with (n - 1) in Hp by lia.
  apply (Permutation_map (fun j => input j x)) in Hp. cbn [map] in Hp. by rewrite map_map in Hp.
Qed.

(** ** Schedules *)

Section run.
Context {V : Type} (vop : V -> V -> V) (elem : Z) (c : CollectiveConfig) (inplace : bool) (m0 : Z -> CollectiveBufferRole -> Z -> V).
Abbreviation n := (nranks c).
Abbreviation plan := (plan_of (at_rank c) inplace).
Abbreviation step := (step vop elem inplace plan).
Abbreviation start := (MkWorld m0 [] ∅).

(** The operations of all ranks. *)
Definition op_count : Z := zsum (map (fun r => alen (plan r)) (seqZ 0 n)).

Context (Hok : ring_ok c) (Helem : 0 < elem) (Hsize : (elem | scalar_type_size (dtype c))) (Htile : (elem | tile_bytes c)).

(** From any state of a run a step is possible, or everything is done. *)
Lemma step_or_done w : ctl c inplace w -> (exists w', step w w') \/ done w = all_ops c inplace.
Proof.
  intros Hw. destruct (decide (set_Exists (fun x => is_Some (try_step vop elem inplace plan x.1 x.2 w)) (all_ops c inplace))) as [H|H].
  - left. destruct H as ([r i] & _ & [w' Ew]). exists w', r, i. done.
  - right. apply (stuck_all c inplace Hok vop elem w Hw). intros w' (r & i & E). apply H. exists (r, i). split; [|by eexists].
    destruct (step_event c inplace Hok vop elem r i w w' E) as (k & w1 & He & -> & _). apply all_ops_in; [done|]. by exists k.
Qed.

Lemma run_extends k : forall m w, nsteps step m start w -> (m + k = size (all_ops c inplace))%nat ->
  exists w', nsteps step k w w' /\ done w' = all_ops c inplace.
Proof.
  induction k as [|k IH]; intros m w Hr Hk; destruct (run_inv c inplace Hok vop elem Helem Hsize Htile m0 m w Hr) as (Hw & _ & Hm).
  - exists w. split; [constructor|]. apply set_subseteq_size_eq; [by apply done_all|lia].
  - destruct (step_or_done w Hw) as [[w1 Hs]|E]; [|rewrite E in Hm; lia].
    destruct (IH (S m) w1) as (w' & Hr' & E); [by eapply nsteps_r|lia|]. exists w'. split; [by econstructor|done].
Qed.

Lemma done_stuck w : rtc step start w -> done w = all_ops c inplace -> forall w', ~ step w w'.
Proof.
  intros [m Hr]%rtc_nsteps E. destruct (run_inv c inplace Hok vop elem Helem Hsize Htile m0 m w Hr) as (Hw & _).
  by apply (stuck_all c inplace Hok vop elem w Hw).
Qed.
End run.

(** ** Correctness *)

(** C4: When the ranks of an all-reduce run their plans in any order that the
    dependencies allow and cannot go on, every operation of every plan has been
    done, no tag is left, and every element of the output of every rank is the
    reduction of that element over the inputs of all ranks, taken round the ring
    from the owner of its shard: the same value on all ranks. *)
Theorem allreduce_correct {V} (vop : V -> V -> V) (elem : Z) (c : CollectiveConfig) (inplace : bool)
    (m0 : Z -> CollectiveBufferRole -> Z -> V) (w : world) :
  ring_ok c -> 0 < elem -> (elem | scalar_type_size (dtype c)) -> (elem | tile_bytes c) ->
  rtc (step vop elem inplace (plan_of (at_rank c) inplace)) (MkWorld m0 [] ∅) w ->
  (forall w', ~ step vop elem inplace (plan_of (at_rank c) inplace) w w') ->
  tags w = [] /\
  (forall r i, 0 <= r < nranks c -> 0 <= i < alen (plan_of (at_rank c) inplace r) -> (r, i) ∈ done w) /\
  forall r s x, 0 <= r < nranks c -> 0 <= s < nranks c -> shard_offset c s <= x < shard_offset c s + shard_size c s ->
    (elem | x) -> mem w r Output x = ring_reduce vop (nranks c) (fun r => m0 r (buffer inplace Input)) s x.
Proof.
  intros Hok He Hs Ht [m Hr]%rtc_nsteps Hst.
  destruct (run_inv c inplace Hok vop elem He Hs Ht m0 m w Hr) as (Hw & Hd & _).
  apply (stuck_all c inplace Hok vop elem w Hw) in Hst. split; [by apply (stuck_tags c inplace Hok w)|]. split.
  - intros r i Hr' Hi. rewrite Hst. apply all_ops_in; [done|]. destruct (aget_is_Some _ _ Hi) as [o Ho].
    destruct (plan_surj c inplace Hok r Hr' i o ltac:(lia) Ho) as (k & Hk & ->). by exists k.
  - intros r s x Hr' Hs' Hx Hel. by apply (stuck_data c inplace Hok vop elem m0 w r s x).
Qed.

(** C15: No schedule of an all-reduce is longer than the plans of all ranks
    together, and every schedule can be continued to exactly that length, where
    it cannot go on: an all-reduce neither deadlocks nor diverges. *)
Theorem allreduce_terminates {V} (vop : V -> V -> V) (elem : Z) (c : CollectiveConfig) (inplace : bool)
    (m0 : Z -> CollectiveBufferRole -> Z -> V) (m : nat) (w : world) :
  ring_ok c -> 0 < elem -> (elem | scalar_type_size (dtype c)) -> (elem | tile_bytes c) ->
  nsteps (step vop elem inplace (plan_of (at_rank c) inplace)) m (MkWorld m0 [] ∅) w ->
  exists k w', Z.of_nat (m + k) = op_count c inplace /\
    nsteps (step vop elem inplace (plan_of (at_rank c) inplace)) k w w' /\
    forall w2, ~ step vop elem inplace (plan_of (at_rank c) inplace) w' w2.
Proof.
  intros Hok He Hs Ht Hr. destruct (run_inv c inplace Hok vop elem He Hs Ht m0 m w Hr) as (Hw & _ & Hm).
  pose proof (subseteq_size _ _ (done_all c inplace Hok w Hw)) as Hle. set (k := (size (all_ops c inplace) - m)%nat).
  destruct (run_extends vop elem c inplace m0 Hok He Hs Ht k m w Hr ltac:(lia)) as (w' & Hr' & E). exists k, w'.
  split_and!; [|done|].
  - unfold op_count. rewrite <- (all_ops_size c inplace). lia.
  - apply (done_stuck vop elem c inplace m0 Hok He Hs Ht); [|done]. apply rtc_nsteps. exists (m + k)%nat. by eapply nsteps_trans.
Qed.

(** C22: With an associative and commutative operation, every rank ends with the
    reduction of the inputs in the order of the ranks. *)
Theorem allreduce_order {V} (vop : V -> V -> V) `{!Assoc (=) vop, !Comm (=) vop} (elem : Z) (c : CollectiveConfig) (inplace : bool)
    (m0 : Z -> CollectiveBufferRole -> Z -> V) (w : world) (r x : Z) :
  ring_ok c -> 0 < elem -> (elem | scalar_type_size (dtype c)) -> (elem | tile_bytes c) ->
  rtc (step vop elem inplace (plan_of (at_rank c) inplace)) (MkWorld m0 [] ∅) w ->
  (forall w', ~ step vop elem inplace (plan_of (at_rank c) inplace) w w') ->
  0 <= r < nranks c -> 0 <= x < input_bytes c -> (elem | x) ->
  mem w r Output x = reduce_all vop (nranks c) (fun r => m0 r (buffer inplace Input)) x.
Proof.
  intros Hok He Hs Ht [m Hr]%rtc_nsteps Hst Hr' Hx Hel.
  destruct (run_inv c inplace Hok vop elem He Hs Ht m0 m w Hr) as (Hw & Hd & _).
  apply (stuck_all c inplace Hok vop elem w Hw) in Hst.
  destruct (shard_exists _ (cfg0_ok c Hok) x Hx) as (s & Hs' & Hxs).
  rewrite <- (ring_reduce_all vop (nranks c) _ s x) by (try done; apply Hok).
  by apply (stuck_data c inplace Hok vop elem m0 w r s x).
Qed.

(** ** Three ranks *)

Module Example.
(** Five elements of four bytes, tiles of one element, groups of two tiles. *)
Definition cfg : CollectiveConfig := MkConfig AllReduceRing 3 0 20 20 4 [] [] Float32 Sum 2.
Definition inputs (r : Z) (b : CollectiveBufferRole) (x : Z) : Z := match b with Scratch => 0 | _ => 100 * r + x end.
Definition final (inplace : bool) : world :=
  sweeps Z.add 4 inplace (plan_of (at_rank cfg) inplace) 6 [0; 1; 2] (MkWorld inputs [] ∅).

Lemma cfg_ring_ok : ring_ok cfg.
Proof. split; vm_compute; try done; split; done. Qed.
Lemma elem_ok : (4 | scalar_type_size (dtype cfg)) /\ (4 | tile_bytes cfg).
Proof. split; by exists 1. Qed.
Lemma final_done inplace : done (final inplace) = all_ops cfg inplace.
Proof. apply (bool_decide_unpack _). destruct inplace; vm_compute; exact I. Qed.
Lemma final_run inplace :
  rtc (step Z.add 4 inplace (plan_of (at_rank cfg) inplace)) (MkWorld inputs [] ∅) (final inplace).
Proof. exact (sweeps_steps Z.add 4 inplace _ 6 [0; 1; 2] (MkWorld inputs [] ∅)). Qed.
Lemma final_stuck inplace w' : ~ step Z.add 4 inplace (plan_of (at_rank cfg) inplace) (final inplace) w'.
Proof.
  exact (done_stuck Z.add 4 cfg inplace inputs cfg_ring_ok eq_refl (proj1 elem_ok) (proj2 elem_ok) (final inplace)
    (final_run inplace) (final_done inplace) w').
Qed.
End Example.
Import Example.

Lemma allreduce_correct_witness :
  tags (final true) = [] /\ forall r, 0 <= r < 3 -> mem (final true) r Output 16 = 348.
Proof.
  destruct (allreduce_correct Z.add 4 cfg true inputs (final true) cfg_ring_ok eq_refl (proj1 elem_ok) (proj2 elem_ok)
    (final_run true) (final_stuck true)) as (H1 & _ & H2).
  split; [exact H1|]. intros r Hr. refine (eq_trans (H2 r 2 16 Hr _ _ _) _).
  - vm_compute. split; [intros ?; discriminate|reflexivity].
  - vm_compute. split; [intros ?; discriminate|reflexivity].
  - exists 4. reflexivity.
  - vm_compute. reflexivity.
Defined.

Lemma allreduce_terminates_witness : exists k w',
  Z.of_nat (0 + k) = 76 /\ nsteps (step Z.add 4 true (plan_of (at_rank cfg) true)) k (MkWorld inputs [] ∅) w'.
Proof.
  destruct (allreduce_terminates Z.add 4 cfg true inputs 0 (MkWorld inputs [] ∅) cfg_ring_ok eq_refl (proj1 elem_ok) (proj2 elem_ok)
    (nsteps_O _ _)) as (k & w' & H1 & H2 & _).
  exists k, w'. split; [|exact H2]. refine (eq_trans H1 _). vm_compute. reflexivity.
Defined.

Lemma allreduce_order_witness : mem (final false) 1 Output 4 = 312.
Proof.
  refine (eq_trans (allreduce_order Z.add 4 cfg false inputs (final false) 1 4 cfg_ring_ok eq_refl (proj1 elem_ok) (proj2 elem_ok)
    (final_run false) (final_stuck false) _ _ _) _).
  - vm_compute. split; [intros ?; discriminate|reflexivity].
  - vm_compute. split; [intros ?; discriminate|reflexivity].
  - exists 1. reflexivity.
  - vm_compute. reflexivity.
Defined.
End AllReduce.
