(* ===== verification/Jring.v ===== *)
(** * The lock-free ring

    [include/util/jring.h] and [jring_elem_private.h]: a ring of fixed-size
    elements that any number of producers and consumers use at once.  A producer
    reserves slots by moving [prod.head], copies its elements into them and
    publishes them by moving [prod.tail], in the order of the reservations; a
    consumer does the same with [cons.head] and [cons.tail].

    The shared memory is the ring and its slots, an array of 32-bit words.  A
    thread inside of a call is at a program point; every access to shared memory
    is a step of its own, down to the single word of a copy, and the steps of all
    threads interleave.  Memory is sequentially consistent. *)

From S2P Require Import Prelude.

Module Jring.

(** ** The ring *)

Inductive jring_queue_behavior := JRING_QUEUE_FIXED | JRING_QUEUE_VARIABLE.
Inductive jring_sync_type := JRING_SYNC_MT | JRING_SYNC_ST.

#[export] Instance behavior_eq_dec : EqDecision jring_queue_behavior.
Proof. solve_decision. Defined.
#[export] Instance sync_eq_dec : EqDecision jring_sync_type.
Proof. solve_decision. Defined.

Record jring_headtail := MkHeadtail { head : Z; tail : Z; sync : jring_sync_type }.

Record jring := MkRing {
  size : Z;
  mask : Z;
  capacity : Z;
  esize : Z;
  prod : jring_headtail;
  cons : jring_headtail;
}.

Definition RING_SZ_MASK : Z := 0x0fffffff.
Definition CACHE_LINE_SIZE : Z := 64.
(** The members up to [ring], each head and tail on a cache line of its own. *)
Definition sizeof_jring : Z := 320.

Definition ISPOWEROF2 (x : Z) : bool := (Z.land (x -[32] 1) x =? 0) && negb (x =? 0).
Definition ALIGN_UP_POW2 (x y : Z) : Z := Z.lor (x -[64] 1) (y - 1) +[64] 1.

Definition jring_get_buf_ring_size (element_size count : Z) : Z :=
  if negb (element_size mod 4 =? 0) then 2 ^ 64 - 1
  else if negb (ISPOWEROF2 count) || (RING_SZ_MASK <? count) then 2 ^ 64 - 1
  else ALIGN_UP_POW2 (sizeof_jring + wrap 32 (count * element_size)) CACHE_LINE_SIZE.

Definition sync_of (m : bool) : jring_sync_type := if m then JRING_SYNC_MT else JRING_SYNC_ST.

Definition jring_init (count esize : Z) (mp mc : bool) : option jring :=
  if negb (ISPOWEROF2 count) then None
  else if negb (esize mod 4 =? 0) then None
  else Some (MkRing count (count - 1) (count - 1) esize (MkHeadtail 0 0 (sync_of mp)) (MkHeadtail 0 0 (sync_of mc))).

(** ** Calls *)

Inductive role := Prod | Cons.

#[export] Instance role_eq_dec : EqDecision role.
Proof. solve_decision. Defined.

(** A call of [__jring_do_enqueue_elem] or [__jring_do_dequeue_elem]. *)
Record call := MkCall {
  crole : role;
  cnum : Z;
  cbehavior : jring_queue_behavior;
  csingle : bool;
}.

Definition single (s : jring_sync_type) : bool := bool_decide (s = JRING_SYNC_ST).

Definition jring_sp_enqueue_bulk (n : Z) : call := MkCall Prod n JRING_QUEUE_FIXED (single JRING_SYNC_ST).
Definition jring_mp_enqueue_bulk (n : Z) : call := MkCall Prod n JRING_QUEUE_FIXED (single JRING_SYNC_MT).
Definition jring_enqueue_bulk (r : jring) (n : Z) : call :=
  if decide (sync (prod r) = JRING_SYNC_ST) then jring_sp_enqueue_bulk n else jring_mp_enqueue_bulk n.
Definition jring_sp_enqueue_burst (n : Z) : call := MkCall Prod n JRING_QUEUE_VARIABLE (single JRING_SYNC_ST).
Definition jring_mp_enqueue_burst (n : Z) : call := MkCall Prod n JRING_QUEUE_VARIABLE (single JRING_SYNC_MT).
Definition jring_enqueue_burst (r : jring) (n : Z) : call :=
  if decide (sync (prod r) = JRING_SYNC_ST) then jring_sp_enqueue_burst n else jring_mp_enqueue_burst n.
Definition jring_sc_dequeue_bulk (n : Z) : call := MkCall Cons n JRING_QUEUE_FIXED (single JRING_SYNC_ST).
Definition jring_mc_dequeue_bulk (n : Z) : call := MkCall Cons n JRING_QUEUE_FIXED (single JRING_SYNC_MT).
Definition jring_dequeue_bulk (r : jring) (n : Z) : call :=
  if decide (sync (cons r) = JRING_SYNC_ST) then jring_sc_dequeue_bulk n else jring_mc_dequeue_bulk n.
Definition jring_sc_dequeue_burst (n : Z) : call := MkCall Cons n JRING_QUEUE_VARIABLE (single JRING_SYNC_ST).
Definition jring_mc_dequeue_burst (n : Z) : call := MkCall Cons n JRING_QUEUE_VARIABLE (single JRING_SYNC_MT).
Definition jring_dequeue_burst (r : jring) (n : Z) : call :=
  if decide (sync (cons r) = JRING_SYNC_ST) then jring_sc_dequeue_burst n else jring_mc_dequeue_burst n.

Definition jring_count (r : jring) : Z :=
  let count := Z.land (tail (prod r) -[32] tail (cons r)) (mask r) in
  if capacity r <? count then capacity r else count.
Definition jring_free_count (r : jring) : Z := capacity r -[32] jring_count r.
Definition jring_full (r : jring) : bool := jring_free_count r =? 0.
Definition jring_empty (r : jring) : bool := tail (cons r) =? tail (prod r).

(** ** Copies

    The copies into and out of the ring are the same loops: the list of the
    moves they make, from the slot of the ring to that of the table or back. *)

Fixpoint copy_run (k : nat) (idx i : Z) : list (Z * Z) :=
  match k with O => [] | S k => (idx, i) :: copy_run k (idx + 1) (i + 1) end.

(** The unrolled loop, [unroll] moves an iteration. *)
Fixpoint copy_blocks (fuel : nat) (unroll bound idx i : Z) : list (Z * Z) * Z * Z :=
  match fuel with
  | S fuel =>
      if i <? bound then
        let '(ms, idx', i') := copy_blocks fuel unroll bound (idx + unroll) (i + unroll) in
        (copy_run (Z.to_nat unroll) idx i ++ ms, idx', i')
      else ([], idx, i)
  | O => ([], idx, i)
  end.

Definition copy_elems (unroll size idx n : Z) : list (Z * Z) :=
  if idx +[32] n <? size then
    let '(ms, idx, i) := copy_blocks (Z.to_nat n) unroll (Z.land n (Z.lnot (unroll - 1))) idx 0 in
    ms ++ copy_run (Z.to_nat (Z.land n (unroll - 1))) idx i
  else
    copy_run (Z.to_nat (size - idx)) idx 0 ++ copy_run (Z.to_nat (n - (size - idx))) 0 (size - idx).

(** A move of a wider unit as moves of its 32-bit words. *)
Definition words_of (width : Z) (ms : list (Z * Z)) : list (Z * Z) :=
  flat_map (fun '(a, b) => map (fun k => (a * width + k, b * width + k)) (seqZ 0 width)) ms.

Definition jring_enqueue_elems_32 (size idx n : Z) : list (Z * Z) := copy_elems 8 size idx n.
Definition jring_enqueue_elems_64 (r : jring) (head n : Z) : list (Z * Z) :=
  words_of 2 (copy_elems 4 (size r) (Z.land head (mask r)) n).
Definition jring_enqueue_elems_128 (r : jring) (head n : Z) : list (Z * Z) :=
  words_of 4 (copy_elems 2 (size r) (Z.land head (mask r)) n).

Definition jring_enqueue_elems (r : jring) (head n : Z) : list (Z * Z) :=
  if esize r =? 8 then jring_enqueue_elems_64 r head n
  else if esize r =? 16 then jring_enqueue_elems_128 r head n
  else
    let scale := esize r / 4 in
    jring_enqueue_elems_32 (wrap 32 (size r * scale)) (wrap 32 (Z.land head (mask r) * scale)) (wrap 32 (n * scale)).

Definition jring_dequeue_elems_32 (size idx n : Z) : list (Z * Z) := copy_elems 8 size idx n.
Definition jring_dequeue_elems_64 (r : jring) (head n : Z) : list (Z * Z) :=
  words_of 2 (copy_elems 4 (size r) (Z.land head (mask r)) n).
Definition jring_dequeue_elems_128 (r : jring) (head n : Z) : list (Z * Z) :=
  words_of 4 (copy_elems 2 (size r) (Z.land head (mask r)) n).

Definition jring_dequeue_elems (r : jring) (head n : Z) : list (Z * Z) :=
  if esize r =? 8 then jring_dequeue_elems_64 r head n
  else if esize r =? 16 then jring_dequeue_elems_128 r head n
  else
    let scale := esize r / 4 in
    jring_dequeue_elems_32 (wrap 32 (size r * scale)) (wrap 32 (Z.land head (mask r) * scale)) (wrap 32 (n * scale)).

(** ** Moving the heads *)

(** The entries that are free and how many of [max] are taken. *)
Definition jring_move_prod_head (r : jring) (max : Z) (b : jring_queue_behavior) (old_head cons_tail : Z) : Z * Z :=
  let free_entries := capacity r +[32] cons_tail -[32] old_head in
  (free_entries, if free_entries <? max then if decide (b = JRING_QUEUE_FIXED) then 0 else free_entries else max).
Definition jring_move_cons_head (r : jring) (max : Z) (b : jring_queue_behavior) (old_head prod_tail : Z) : Z * Z :=
  let entries := prod_tail -[32] old_head in
  (entries, if entries <? max then if decide (b = JRING_QUEUE_FIXED) then 0 else entries else max).

Definition other (ρ : role) : role := match ρ with Prod => Cons | Cons => Prod end.
Definition side (ρ : role) (r : jring) : jring_headtail := match ρ with Prod => prod r | Cons => cons r end.
Definition jring_elems (ρ : role) : jring -> Z -> Z -> list (Z * Z) :=
  match ρ with Prod => jring_enqueue_elems | Cons => jring_dequeue_elems end.
Definition move_head (ρ : role) : jring -> Z -> jring_queue_behavior -> Z -> Z -> Z * Z :=
  match ρ with Prod => jring_move_prod_head | Cons => jring_move_cons_head end.

Definition set_side (ρ : role) (h : jring_headtail) (r : jring) : jring :=
  match ρ with
  | Prod => MkRing (size r) (mask r) (capacity r) (esize r) h (cons r)
  | Cons => MkRing (size r) (mask r) (capacity r) (esize r) (prod r) h
  end.
Definition set_head (ρ : role) (x : Z) (r : jring) : jring :=
  set_side ρ (MkHeadtail x (tail (side ρ r)) (sync (side ρ r))) r.
Definition set_tail (ρ : role) (x : Z) (r : jring) : jring :=
  set_side ρ (MkHeadtail (head (side ρ r)) x (sync (side ρ r))) r.

(** ** Threads *)

Inductive stage :=
| Copying (todo : list (Z * Z))   (* [__jring_enqueue_elems], [__jring_dequeue_elems] *)
| Waiting                         (* [__jring_wait_until_equal_32] *)
| Storing.                        (* the store of [__jring_update_tail] *)

(** Where a call is.  [at_] and [from] are the positions that the heads stand for,
    without wrapping around; the code does not have them, and no step depends on
    them. *)
Inductive point :=
| AtHead
| AtTail (old at_ : Z)
| AtMove (old at_ avail n : Z)
| Owner (old new avail n from : Z) (s : stage).

Record thread := MkThread { tcall : call; tobj : list Z; tpoint : point }.

(** The ring, its words, the calls under way by thread; the positions of the heads
    and tails without wrapping around, and all words that were ever reserved. *)
Record world := MkWorld {
  ring : jring;
  buf : list Z;
  threads : gmap Z thread;
  hpos : role -> Z;
  tpos : role -> Z;
  hist : list Z;
}.

Inductive event :=
| Silent
| Returned (t : Z) (c : call) (n rest : Z) (obj : list Z).

Definition scale (r : jring) : Z := esize r / 4.
Definition upd (f : role -> Z) (ρ : role) (x : Z) : role -> Z :=
  fun ρ' => match ρ, ρ' with Prod, Prod | Cons, Cons => x | _, _ => f ρ' end.

Definition goes (t : Z) (th : thread) (p : point) (w : world) : world :=
  MkWorld (ring w) (buf w) (<[t := MkThread (tcall th) (tobj th) p]> (threads w)) (hpos w) (tpos w) (hist w).
Definition leaves (t : Z) (w : world) : world :=
  MkWorld (ring w) (buf w) (delete t (threads w)) (hpos w) (tpos w) (hist w).

(** The head has been moved: [n] elements from [old] on are owned. *)
Definition reserve (t : Z) (th : thread) (old avail n : Z) (w : world) : world :=
  let ρ := crole (tcall th) in
  let new := old +[32] n in
  let p := Owner old new avail n (hpos w ρ) (Copying (jring_elems ρ (ring w) old n)) in
  MkWorld (set_head ρ new (ring w)) (buf w) (<[t := MkThread (tcall th) (tobj th) p]> (threads w))
    (upd (hpos w) ρ (hpos w ρ + n)) (tpos w)
    (match ρ with Prod => hist w ++ take (Z.to_nat (n * scale (ring w))) (tobj th) | Cons => hist w end).

(** The tail of the other side is loaded; the call returns if it gets nothing. *)
Definition load_tail (t : Z) (th : thread) (old at_ : Z) (w : world) : event * world :=
  let c := tcall th in
  let ρ := crole c in
  let '(avail, n) := move_head ρ (ring w) (cnum c) (cbehavior c) old (tail (side (other ρ) (ring w))) in
  if n =? 0 then (Returned t c 0 avail (tobj th), leaves t w)
  else (Silent, goes t th (AtMove old at_ avail n) w).

(** The head is stored, or exchanged if it is still [old]. *)
Definition exchange_head (t : Z) (th : thread) (old avail n : Z) (w : world) : event * world :=
  let ρ := crole (tcall th) in
  if csingle (tcall th) then (Silent, reserve t th old avail n w)
  else if head (side ρ (ring w)) =? old then (Silent, reserve t th old avail n w)
  else (Silent, goes t th (AtTail (head (side ρ (ring w))) (hpos w ρ)) w).

(** One word is copied to its slot or from there. *)
Definition copy_word (t : Z) (th : thread) (a b : Z) (p : point) (w : world) : option (event * world) :=
  match crole (tcall th) with
  | Prod =>
      x ← aget (tobj th) b;
      Some (Silent, MkWorld (ring w) (aset (buf w) a x) (<[t := MkThread (tcall th) (tobj th) p]> (threads w)) (hpos w) (tpos w) (hist w))
  | Cons =>
      x ← aget (buf w) a;
      Some (Silent, MkWorld (ring w) (buf w) (<[t := MkThread (tcall th) (aset (tobj th) b x) p]> (threads w)) (hpos w) (tpos w) (hist w))
  end.

Definition jring_wait_until_equal_32 (t : Z) (th : thread) (old : Z) (p : point) (w : world) : option (event * world) :=
  if tail (side (crole (tcall th)) (ring w)) =? old then Some (Silent, goes t th p w) else None.

(** The new tail is stored, and the call returns. *)
Definition jring_update_tail (t : Z) (th : thread) (new avail n from : Z) (w : world) : event * world :=
  let ρ := crole (tcall th) in
  (Returned t (tcall th) n (avail -[32] n) (tobj th),
   MkWorld (set_tail ρ new (ring w)) (buf w) (delete t (threads w)) (hpos w) (upd (tpos w) ρ (from + n)) (hist w)).

(** The next step of thread [t]; [None] when it is not in a call or waits. *)
Definition next (t : Z) (w : world) : option (event * world) :=
  th ← threads w !! t;
  let ρ := crole (tcall th) in
  match tpoint th with
  | AtHead => Some (Silent, goes t th (AtTail (head (side ρ (ring w))) (hpos w ρ)) w)
  | AtTail old at_ => Some (load_tail t th old at_ w)
  | AtMove old at_ avail n => Some (exchange_head t th old avail n w)
  | Owner old new avail n from (Copying ((a, b) :: todo)) => copy_word t th a b (Owner old new avail n from (Copying todo)) w
  | Owner old new avail n from (Copying []) =>
      Some (Silent, goes t th (Owner old new avail n from (if csingle (tcall th) then Storing else Waiting)) w)
  | Owner old new avail n from Waiting => jring_wait_until_equal_32 t th old (Owner old new avail n from Storing) w
  | Owner old new avail n from Storing => Some (jring_update_tail t th new avail n from w)
  end.

(** A single-producer (or single-consumer) call must not overlap another one of
    its kind; the table must have room for the elements asked for. *)
Definition may_start (c : call) (obj : list Z) (w : world) : Prop :=
  0 <= cnum c < 2 ^ 32 /\ cnum c * scale (ring w) <= alen obj /\
  forall t th, threads w !! t = Some th -> crole (tcall th) = crole c -> csingle c = false /\ csingle (tcall th) = false.

Inductive step : world -> event -> world -> Prop :=
| step_start t c obj w : threads w !! t = None -> may_start c obj w ->
    step w Silent (MkWorld (ring w) (buf w) (<[t := MkThread c obj AtHead]> (threads w)) (hpos w) (tpos w) (hist w))
| step_next t e w w' : next t w = Some (e, w') -> step w e w'.

(** No head moves on by [2^31] elements between the load of it by a thread and
    the exchange that tests it. *)
Definition not_overtaken (w : world) : Prop :=
  forall t th, threads w !! t = Some th ->
    match tpoint th with
    | AtTail _ at_ | AtMove _ at_ _ _ => hpos w (crole (tcall th)) - at_ < 2 ^ 31
    | _ => True
    end.

(** The results of a run, oldest first. *)
Inductive run (w : world) : list event -> world -> Prop :=
| run_nil : run w [] w
| run_snoc es e w1 w2 : run w es w1 -> step w1 e w2 -> not_overtaken w2 -> run w (es ++ [e]) w2.

(** A ring after [jring_init], with whatever its slots contain. *)
Definition init (r : jring) (slots : list Z) : world := MkWorld r slots ∅ (fun _ => 0) (fun _ => 0) [].
End Jring.
