(* ===== verification/JringSpec.v ===== *)
(** * The lock-free ring is a queue

    The invariant of the ring of [Jring.v] and its refinement: whatever the
    interleaving of the threads, the ring is a bounded first-in-first-out queue
    whose elements are never torn, lost or repeated ([jring_linearizable]), and
    whose waits end ([jring_never_stuck]).  The copies, with their unrolled and
    wrapped loops, move each word to its place ([jring_copies]). *)

From S2P Require Import Prelude Jring.

Module JringSpec.
Import Jring.

(** A ring that [jring_get_buf_ring_size] accepts, small enough for its 32-bit
    product not to wrap around. *)
Record ring_ok (r : jring) : Prop := {
  ok_size : exists k, 0 <= k <= 28 /\ size r = 2 ^ k;
  ok_mask : mask r = size r - 1;
  ok_capacity : capacity r = size r - 1;
  ok_esize : esize r mod 4 = 0;
  ok_esize_pos : 0 < esize r;
  ok_bytes : size r * esize r < 2 ^ 32;
}.

(** ** Copies *)

Lemma copy_run_eq k idx i : copy_run k idx i = map (fun j => (idx + j, i + j)) (seqZ 0 (Z.of_nat k)).
Proof.
  revert idx i. induction k as [|k IH]; intros idx i; [done|]. cbn [copy_run]. rewrite IH.
  rewrite (seqZ_cons 0 (Z.of_nat (S k))) by lia. cbn [map]. rewrite !Z.add_0_r. f_equal.
  replace (Z.pred (Z.of_nat (S k))) with (Z.of_nat k) by lia. rewrite <- (fmap_add_seqZ 1 0).
  change (fmap (Z.add 1)) with (map (Z.add 1)). rewrite map_map. apply map_ext. intros j. f_equal; lia.
Qed.

Lemma copy_run_app a b idx i :
  copy_run (a + b) idx i = copy_run a idx i ++ copy_run b (idx + Z.of_nat a) (i + Z.of_nat a).
Proof.
  revert idx i. induction a as [|a IH]; intros idx i; [by rewrite !Z.add_0_r|]. cbn. rewrite IH.
  do 3 f_equal; lia.
Qed.

Lemma copy_blocks_eq u : 0 < u -> forall q fuel idx i, (q <= fuel)%nat ->
  copy_blocks fuel u (i + Z.of_nat q * u) idx i =
    (copy_run (Z.to_nat (Z.of_nat q * u)) idx i, idx + Z.of_nat q * u, i + Z.of_nat q * u).
Proof.
  intros Hu. induction q as [|q IH]; intros fuel idx i Hf.
  { replace (Z.of_nat 0 * u) with 0 by lia. rewrite !Z.add_0_r. destruct fuel; [done|]. cbn.
    by rewrite (proj2 (Z.ltb_ge i i)) by lia. }
  destruct fuel as [|fuel]; [lia|]. cbn. rewrite (proj2 (Z.ltb_lt i _)) by nia.
  replace (i + Z.of_nat (S q) * u) with (i + u + Z.of_nat q * u) by lia.
  rewrite IH by lia. replace (Z.to_nat (Z.of_nat (S q) * u)) with (Z.to_nat u + Z.to_nat (Z.of_nat q * u))%nat by lia.
  rewrite copy_run_app, Z2Nat.id by lia. by replace (idx + Z.of_nat (S q) * u) with (idx + u + Z.of_nat q * u) by lia.
Qed.

Lemma copy_elems_eq k sz idx n : 0 <= k <= 3 -> 0 <= idx < sz -> 0 <= n <= sz -> sz < 2 ^ 31 ->
  copy_elems (2 ^ k) sz idx n = map (fun j => ((idx + j) mod sz, j)) (seqZ 0 n).
Proof.
  intros Hk Hi Hn Hs. unfold copy_elems. rewrite wrap_id by word_lia. destruct (Z.ltb_spec (idx + n) sz).
  - assert (0 < 2 ^ k) as Hu by (apply pow2_pos; lia). rewrite land_mask by lia.
    pose proof (Z.div_mod n (2 ^ k) ltac:(lia)) as Hd. pose proof (Z.mod_pos_bound n (2 ^ k) ltac:(lia)) as Hm.
    pose proof (Z.div_pos n (2 ^ k) ltac:(lia) Hu) as Hq.
    assert (Z.land n (Z.lnot (2 ^ k - 1)) = 0 + Z.of_nat (Z.to_nat (n / 2 ^ k)) * 2 ^ k) as ->.
    { rewrite Z2Nat.id by lia. rewrite <- Z.ldiff_land, Z.sub_1_r, <- Z.ones_equiv, Z.ldiff_ones_r by lia.
      rewrite Z.shiftl_mul_pow2, Z.shiftr_div_pow2 by lia. lia. }
    rewrite copy_blocks_eq; [|done|].
    2: { apply Z2Nat.inj_le; [lia|lia|]. apply Z.div_le_upper_bound; nia. }
    rewrite !Z2Nat.id by lia.
    replace (idx + n / 2 ^ k * 2 ^ k) with (idx + Z.of_nat (Z.to_nat (n / 2 ^ k * 2 ^ k))) by (rewrite Z2Nat.id; nia).
    replace (0 + n / 2 ^ k * 2 ^ k) with (0 + Z.of_nat (Z.to_nat (n / 2 ^ k * 2 ^ k))) by (rewrite Z2Nat.id; nia).
    rewrite <- copy_run_app, copy_run_eq. rewrite <- Z2Nat.inj_add, Z2Nat.id by nia.
    replace (n / 2 ^ k * 2 ^ k + n mod 2 ^ k) with n by lia. apply map_ext_in. intros j Hj%list_elem_of_In%elem_of_seqZ.
    rewrite Z.mod_small by lia. f_equal. 
  - rewrite !copy_run_eq, !Z2Nat.id by lia. replace n with (sz - idx + (n - (sz - idx))) at 2 by lia.
    rewrite seqZ_app, map_app by lia. f_equal.
    + apply map_ext_in. intros j Hj%list_elem_of_In%elem_of_seqZ. by rewrite Z.mod_small by lia.
    + rewrite (Z.add_comm 0), <- (fmap_add_seqZ (sz - idx) 0). change (fmap ?f) with (map f). rewrite map_map. apply map_ext_in.
      intros j Hj%list_elem_of_In%elem_of_seqZ. f_equal. apply (Z.mod_unique_pos _ _ 1); lia.
Qed.

Lemma mod_block s u x k : 0 < s -> 0 < u -> 0 <= k < u -> x mod s * u + k = (x * u + k) mod (s * u).
Proof.
  intros Hs Hu Hk. pose proof (Z.div_mod x s ltac:(lia)). pose proof (Z.mod_pos_bound x s Hs).
  apply (Z.mod_unique_pos _ _ (x / s)); nia.
Qed.

Lemma words_of_eq u sz idx n : 0 < u -> 0 < sz -> 0 <= n ->
  words_of u (map (fun j => ((idx + j) mod sz, j)) (seqZ 0 n)) = map (fun k => ((idx * u + k) mod (sz * u), k)) (seqZ 0 (n * u)).
Proof.
  intros Hu Hs Hn. pattern n. apply natlike_ind; [done| |done]. clear n Hn. intros n Hn IH. unfold words_of in *. unfold Z.succ.
  rewrite seqZ_snoc, map_app, flat_map_app, IH by done. rewrite Z.mul_add_distr_r, Z.mul_1_l, (seqZ_app 0 (n * u) u), map_app by lia.
  f_equal. cbn [map flat_map]. rewrite app_nil_r, (Z.add_comm 0), <- (fmap_add_seqZ (n * u) 0). change (fmap ?f) with (map f).
  rewrite map_map. apply map_ext_in. intros k Hk%list_elem_of_In%elem_of_seqZ. rewrite mod_block by lia. do 2 f_equal. lia.
Qed.

Lemma ring_eta r : r = MkRing (size r) (mask r) (capacity r) (esize r) (prod r) (cons r).
Proof. by destruct r. Qed.

Section ring.
Context (r : jring) (Hok : ring_ok r).
Abbreviation sc := (scale r).
Abbreviation words := (size r * scale r).

Lemma ring_bounds : 0 < size r <= 2 ^ 28 /\ 0 < sc /\ esize r = 4 * sc /\ words * 4 < 2 ^ 32.
Proof.
  destruct Hok as [(k & Hk & Es) _ _ He He' Hb]. assert (esize r = 4 * sc) as E.
  { unfold scale. apply Z.div_exact; [lia|done]. }
  assert (0 < 2 ^ k <= 2 ^ 28) by (split; [apply pow2_pos; lia|apply Z.pow_le_mono_r; lia]). split_and!; nia.
Qed.

Lemma head_idx from : Z.land (wrap 32 from) (mask r) = from mod size r.
Proof.
  destruct Hok as [(k & Hk & Es) Em _ _ _ _]. rewrite Em, Es, land_mask by lia. apply wrap_mod_pow2. lia.
Qed.

Lemma jring_elems_eq ρ from n : 0 <= n <= size r ->
  jring_elems ρ r (wrap 32 from) n = map (fun k => ((from * sc + k) mod words, k)) (seqZ 0 (n * sc)).
Proof.
  intros Hn. transitivity (jring_enqueue_elems r (wrap 32 from) n); [by destruct ρ|]. destruct ring_bounds as (Hs & Hc & He & Hb). pose proof (Z.mod_pos_bound from (size r) ltac:(lia)) as Hm.
  assert (forall k, (from mod size r * sc + k) mod words = (from * sc + k) mod words) as Hk.
  { intros k. pose proof (mod_block (size r) sc from 0 ltac:(lia) Hc ltac:(lia)) as E. rewrite !Z.add_0_r in E.
    by rewrite E, Z.add_mod_idemp_l by nia. }
  unfold jring_enqueue_elems, jring_enqueue_elems_32, jring_enqueue_elems_64, jring_enqueue_elems_128. rewrite head_idx.
  destruct (Z.eqb_spec (esize r) 8); [|destruct (Z.eqb_spec (esize r) 16)].
  - rewrite (copy_elems_eq 2) by lia. rewrite words_of_eq by lia. replace 2 with sc by lia. apply map_ext. intros k. by rewrite Hk.
  - rewrite (copy_elems_eq 1) by lia. rewrite words_of_eq by lia. replace 4 with sc by lia. apply map_ext. intros k. by rewrite Hk.
  - fold sc. rewrite !wrap_id by (unfold in_word; nia). rewrite (copy_elems_eq 3) by nia. apply map_ext. intros k. by rewrite Hk.
Qed.

(** ** The queue

    What the ring promises: words in the order in which they were published, and
    the words that each consumer has claimed but not yet returned. *)

Record queue := MkQueue { items : list Z; taken : gmap Z (list Z) }.

Lemma queue_ext q q' : items q = items q' -> (forall t, taken q !! t = taken q' !! t) -> q = q'.
Proof. destruct q, q'. cbn. intros -> E. f_equal. by apply map_eq. Qed.

(** How many elements a successful call moves. *)
Definition answer (c : call) (n : Z) : Prop :=
  match cbehavior c with JRING_QUEUE_FIXED => n = cnum c | JRING_QUEUE_VARIABLE => n <= cnum c end.

(** What makes a dequeue return nothing. *)
Definition too_few (c : call) (q : queue) : Prop :=
  match cbehavior c with
  | JRING_QUEUE_FIXED => alen (items q) < cnum c * sc
  | JRING_QUEUE_VARIABLE => items q = []
  end.

Inductive qstep : queue -> event -> queue -> Prop :=
| q_silent q : qstep q Silent q
| q_take t l rest m : m !! t = None -> qstep (MkQueue (l ++ rest) m) Silent (MkQueue rest (<[t := l]> m))
| q_enqueue t c n rest obj q : crole c = Prod -> 0 < n -> answer c n ->
    alen (items q) + n * sc <= capacity r * sc -> n * sc <= alen obj ->
    qstep q (Returned t c n rest obj) (MkQueue (items q ++ take (Z.to_nat (n * sc)) obj) (taken q))
| q_dequeue t c n rest obj q : crole c = Cons -> 0 < n -> answer c n -> n * sc <= alen obj ->
    taken q !! t = Some (take (Z.to_nat (n * sc)) obj) ->
    qstep q (Returned t c n rest obj) (MkQueue (items q) (delete t (taken q)))
| q_enqueue_none t c rest obj q : crole c = Prod -> qstep q (Returned t c 0 rest obj) q
| q_dequeue_none t c rest obj q : crole c = Cons -> cnum c = 0 \/ too_few c q -> qstep q (Returned t c 0 rest obj) q.

Inductive qrun (q : queue) : list event -> queue -> Prop :=
| qrun_nil : qrun q [] q
| qrun_snoc es e q1 q2 : qrun q es q1 -> qstep q1 e q2 -> qrun q (es ++ [e]) q2.

(** ** The invariant *)

(** The ring with its heads and tails at given positions. *)
Definition ring_at (h t : role -> Z) : jring :=
  MkRing (size r) (mask r) (capacity r) (esize r)
    (MkHeadtail (wrap 32 (h Prod)) (wrap 32 (t Prod)) (sync (prod r)))
    (MkHeadtail (wrap 32 (h Cons)) (wrap 32 (t Cons)) (sync (cons r))).

Definition bonus (ρ : role) : Z := match ρ with Prod => capacity r | Cons => 0 end.

Definition todo_of (s : stage) : list (Z * Z) := match s with Copying todo => todo | _ => [] end.

(** What a thread owns: its side, where its slots begin, how many there are, and
    the words that a producer has not copied yet. *)
Definition own (th : thread) : option (role * Z * Z * Z) :=
  match tpoint th with
  | Owner _ _ _ n from s => Some (crole (tcall th), from, n, match crole (tcall th) with Prod => alen (todo_of s) | Cons => 0 end)
  | _ => None
  end.
Definition owner (w : world) (t : Z) : option (role * Z * Z * Z) := threads w !! t ≫= own.

Definition claim (h : list Z) (th : thread) : option (list Z) :=
  match own th with
  | Some (Cons, from, n, _) => Some (slice h (from * sc) ((from + n) * sc))
  | _ => None
  end.

Definition abs (w : world) : queue :=
  MkQueue (slice (hist w) (hpos w Cons * sc) (tpos w Prod * sc)) (omap (claim (hist w)) (threads w)).

Definition stage_ok (w : world) (ρ : role) (obj : list Z) (n from : Z) (s : stage) : Prop :=
  let done := n * sc - alen (todo_of s) in
  0 <= done /\ todo_of s = map (fun k => ((from * sc + k) mod words, k)) (seqZ done (alen (todo_of s))) /\
  (forall k, 0 <= k < match ρ with Prod => n * sc | Cons => done end -> aget obj k = aget (hist w) (from * sc + k)) /\
  match s with Storing => from = tpos w ρ | _ => True end.

Definition thread_ok (w : world) (th : thread) : Prop :=
  let c := tcall th in
  let ρ := crole c in
  0 <= cnum c < 2 ^ 32 /\ cnum c * sc <= alen (tobj th) /\
  match tpoint th with
  | AtHead => True
  | AtTail old at_ => old = wrap 32 at_ /\ 0 <= at_ <= hpos w ρ /\ (csingle c = true -> at_ = hpos w ρ)
  | AtMove old at_ avail n =>
      old = wrap 32 at_ /\ 0 <= at_ <= hpos w ρ /\ (csingle c = true -> at_ = hpos w ρ) /\ 0 < n /\ answer c n /\
      (at_ = hpos w ρ -> at_ + n <= tpos w (other ρ) + bonus ρ)
  | Owner old new avail n from s =>
      old = wrap 32 from /\ new = wrap 32 (from + n) /\ 0 < n /\ answer c n /\
      tpos w ρ <= from /\ from + n <= hpos w ρ /\ stage_ok w ρ (tobj th) n from s
  end.

Definition ordered (w : world) : Prop :=
  0 <= tpos w Cons /\ tpos w Cons <= hpos w Cons /\ hpos w Cons <= tpos w Prod /\ tpos w Prod <= hpos w Prod /\
  hpos w Prod <= tpos w Cons + capacity r.

Definition excl (w : world) : Prop :=
  forall t1 t2 th1 th2, t1 <> t2 -> threads w !! t1 = Some th1 -> threads w !! t2 = Some th2 ->
    crole (tcall th1) = crole (tcall th2) -> csingle (tcall th1) = false.

Definition disjoint_owners (w : world) : Prop :=
  forall t1 t2 ρ f1 n1 l1 f2 n2 l2, t1 <> t2 -> owner w t1 = Some (ρ, f1, n1, l1) -> owner w t2 = Some (ρ, f2, n2, l2) ->
    f1 + n1 <= f2 \/ f2 + n2 <= f1.

Definition covered (w : world) : Prop :=
  forall ρ p, tpos w ρ <= p < hpos w ρ -> exists t f n l, owner w t = Some (ρ, f, n, l) /\ f <= p < f + n.

Definition written (w : world) (p : Z) : Prop :=
  forall t f n l, owner w t = Some (Prod, f, n, l) -> f * sc <= p < (f + n) * sc -> p < (f + n) * sc - l.

Definition stored (w : world) : Prop :=
  forall p, tpos w Cons * sc <= p < hpos w Prod * sc -> written w p -> aget (buf w) (p mod words) = aget (hist w) p.

Record inv (w : world) : Prop := {
  i_ring : ring w = ring_at (hpos w) (tpos w);
  i_buf : alen (buf w) = words;
  i_order : ordered w;
  i_hist : alen (hist w) = hpos w Prod * sc;
  i_thread : forall t th, threads w !! t = Some th -> thread_ok w th;
  i_excl : excl w;
  i_disj : disjoint_owners w;
  i_cover : covered w;
  i_mem : stored w;
}.

Lemma scale_at h t : scale (ring_at h t) = sc.
Proof. done. Qed.

Lemma side_at ρ h t : side ρ (ring_at h t) = MkHeadtail (wrap 32 (h ρ)) (wrap 32 (t ρ)) (sync (side ρ r)).
Proof. by destruct ρ. Qed.

Lemma set_head_at ρ h t n : set_head ρ (wrap 32 (h ρ) +[32] n) (ring_at h t) = ring_at (upd h ρ (h ρ + n)) t.
Proof. destruct ρ; unfold ring_at, set_head, upd; cbn; by rewrite wrap_add_l. Qed.

Lemma set_tail_at ρ h t x : set_tail ρ (wrap 32 x) (ring_at h t) = ring_at h (upd t ρ x).
Proof. by destruct ρ. Qed.

Lemma move_head_at ρ h t max b at_ : move_head ρ (ring_at h t) max b (wrap 32 at_) (wrap 32 (t (other ρ))) =
  let avail := wrap 32 (bonus ρ + t (other ρ) - at_) in
  (avail, if avail <? max then if decide (b = JRING_QUEUE_FIXED) then 0 else avail else max).
Proof.
  unfold move_head, jring_move_prod_head, jring_move_cons_head, bonus, other.
  destruct ρ; cbn [capacity ring_at]; cbv zeta; autorewrite with word; rewrite ?Z.add_0_l; [|done].
  by rewrite <- (wrap_sub_l 32 (capacity r + wrap 32 (t Cons))), wrap_add_r, wrap_sub_l.
Qed.

Lemma owner_ok w t ρ f n l : inv w -> owner w t = Some (ρ, f, n, l) ->
  tpos w ρ <= f /\ 0 < n /\ f + n <= hpos w ρ /\ 0 <= l <= n * sc.
Proof.
  intros Hi. unfold owner. destruct (threads w !! t) as [th|] eqn:E; [|done]. cbn. pose proof (i_thread w Hi t th E) as Ht.
  unfold own, thread_ok in *. destruct (tpoint th); try done. intros [= <- <- <- <-].
  destruct Ht as (_ & _ & _ & _ & ? & _ & ? & ? & ? & _). pose proof (alen_nonneg (todo_of s)). destruct (crole _); lia.
Qed.

Definition with_threads (m : gmap Z thread) (w : world) : world := MkWorld (ring w) (buf w) m (hpos w) (tpos w) (hist w).

(** ** Steps that change one thread only *)

Lemma inv_threads w m : inv w -> (forall t, m !! t ≫= own = owner w t) -> (forall t th, m !! t = Some th -> thread_ok w th) ->
  excl (with_threads m w) -> inv (with_threads m w) /\ abs (with_threads m w) = abs w.
Proof.
  intros Hi Ho Ht He. assert (forall t, owner (with_threads m w) t = owner w t) as Hw by done. split.
  - destruct Hi as [? ? ? ? _ _ Hd Hc Hm]. split; try done.
    + intros t1 t2 ρ f1 n1 l1 f2 n2 l2 Hne. rewrite !Hw. by apply Hd.
    + intros ρ p Hp. destruct (Hc ρ p Hp) as (t & f & n & l & Et & Hp'). exists t, f, n, l. by rewrite Hw.
    + intros p Hp Hpw. apply (Hm p Hp). intros t f n l. rewrite <- Hw. apply Hpw.
  - unfold abs. cbn. f_equal. apply map_eq. intros t. rewrite !lookup_omap. specialize (Ho t). unfold owner in Ho.
    unfold claim. destruct (m !! t) as [th|], (threads w !! t) as [th'|]; cbn in *; by rewrite ?Ho, <- ?Ho.
Qed.

Lemma excl_insert w t th th' : excl w -> threads w !! t = Some th -> tcall th' = tcall th ->
  excl (with_threads (<[t := th']> (threads w)) w).
Proof.
  intros He Et Ec. assert (forall t1 th1, <[t := th']> (threads w) !! t1 = Some th1 ->
    exists th0, threads w !! t1 = Some th0 /\ tcall th0 = tcall th1) as Hx.
  { intros t1 th1 [[<- <-]|[_ H]]%lookup_insert_Some; eauto. }
  intros t1 t2 th1 th2 Hne (x1 & E1 & <-)%Hx (x2 & E2 & <-)%Hx. by apply (He t1 t2).
Qed.

Lemma excl_delete w t : excl w -> excl (with_threads (delete t (threads w)) w).
Proof. intros He t1 t2 th1 th2 Hne. cbn. intros [_ H1]%lookup_delete_Some [_ H2]%lookup_delete_Some. by apply (He t1 t2). Qed.

Lemma inv_goes w t th th' : inv w -> threads w !! t = Some th -> tcall th' = tcall th -> own th' = own th -> thread_ok w th' ->
  inv (with_threads (<[t := th']> (threads w)) w) /\ abs (with_threads (<[t := th']> (threads w)) w) = abs w.
Proof.
  intros Hi Et Ec Eo Ht. apply inv_threads; [done| | |by apply excl_insert with th, Ec; [apply Hi|]].
  - intros t'. unfold owner. destruct (decide (t' = t)) as [->|]; [by rewrite lookup_insert_eq, Et|by rewrite lookup_insert_ne].
  - intros t' x [[_ <-]|[_ Hx]]%lookup_insert_Some; [done|]. by apply (i_thread w Hi t').
Qed.

Lemma inv_leaves w t th : inv w -> threads w !! t = Some th -> own th = None ->
  inv (leaves t w) /\ abs (leaves t w) = abs w.
Proof.
  intros Hi Et Eo. apply inv_threads; [done| | |apply excl_delete, Hi].
  - intros t'. unfold owner. destruct (decide (t' = t)) as [->|]; [by rewrite lookup_delete_eq, Et|by rewrite lookup_delete_ne].
  - intros t' x [_ Hx]%lookup_delete_Some. by apply (i_thread w Hi t').
Qed.

Lemma inv_start w t c obj : inv w -> threads w !! t = None -> may_start c obj w ->
  inv (with_threads (<[t := MkThread c obj AtHead]> (threads w)) w) /\
  abs (with_threads (<[t := MkThread c obj AtHead]> (threads w)) w) = abs w.
Proof.
  intros Hi Et (Hn & Hl & Hs). rewrite (i_ring w Hi), scale_at in Hl. apply inv_threads; [done| | |].
  - intros t'. unfold owner. destruct (decide (t' = t)) as [->|]; [by rewrite lookup_insert_eq, Et|by rewrite lookup_insert_ne].
  - intros t' x [[_ <-]|[_ Hx]]%lookup_insert_Some; [done|]. by apply (i_thread w Hi t').
  - intros t1 t2 th1 th2 Hne. cbn. rewrite !lookup_insert_Some. intros [[-> <-]|[? H1]] [[-> <-]|[? H2]] Er; [done| | |].
    + by apply (Hs t2 th2).
    + by apply (Hs t1 th1).
    + by apply (i_excl w Hi t1 t2 th1 th2).
Qed.

(** ** Steps that move a head or a tail *)

Lemma thread_ok_mono w w' th : let ρ := crole (tcall th) in
  thread_ok w th -> ordered w -> alen (hist w) = hpos w Prod * sc ->
  hpos w ρ <= hpos w' ρ -> (csingle (tcall th) = true -> own th = None -> hpos w' ρ = hpos w ρ) ->
  tpos w (other ρ) <= tpos w' (other ρ) ->
  (forall f n l, own th = Some (ρ, f, n, l) -> tpos w' ρ <= f /\ (f = tpos w ρ -> f = tpos w' ρ)) ->
  (forall i, 0 <= i < alen (hist w) -> aget (hist w') i = aget (hist w) i) -> thread_ok w' th.
Proof.
  intros ρ Ht Ho Hl Hh Hs Hto Hown Hist. unfold thread_ok, own in *. fold ρ in Ht, Hown |- *. destruct ring_bounds as (_ & Hsc & _).
  destruct Ht as (Hn & Hc & Ht). split_and!; [lia..|]. destruct (tpoint th); [done| | |].
  - destruct Ht as (-> & ? & Hat). split_and!; [done|lia|lia|]. intros E. rewrite Hs by done. by apply Hat.
  - destruct Ht as (-> & ? & Hat & ? & ? & Hav). split_and!; [done|lia|lia| |done|done|lia].
    intros E. rewrite Hs by done. by apply Hat.
  - destruct Ht as (-> & -> & ? & ? & ? & ? & Hd & Htd & Hk & Hst). destruct (Hown _ _ _ eq_refl) as [Hf Hf'].
    assert (0 <= tpos w ρ /\ hpos w ρ <= hpos w Prod) as [Ht0 Hp] by (unfold ordered in Ho; destruct ρ; lia).
    split_and!; try done; [lia|]. split_and!; try done.
    + intros k Hk'. rewrite Hk by done. symmetry. apply Hist. pose proof (alen_nonneg (todo_of s)). destruct ρ; nia.
    + destruct s; [done|done|]. by apply Hf'.
Qed.

Lemma owner_insert w t th w' : threads w' = <[t := th]> (threads w) ->
  forall t', owner w' t' = if decide (t' = t) then own th else owner w t'.
Proof.
  intros E t'. unfold owner. rewrite E. destruct (decide (t' = t)) as [->|]; [by rewrite lookup_insert_eq|by rewrite lookup_insert_ne].
Qed.

Lemma owner_delete w t w' : threads w' = delete t (threads w) ->
  forall t', owner w' t' = if decide (t' = t) then None else owner w t'.
Proof.
  intros E t'. unfold owner. rewrite E. destruct (decide (t' = t)) as [->|]; [by rewrite lookup_delete_eq|by rewrite lookup_delete_ne].
Qed.

Lemma upd_eq f ρ x : upd f ρ x ρ = x.
Proof. by destruct ρ. Qed.
Lemma upd_other f ρ x : upd f ρ x (other ρ) = f (other ρ).
Proof. by destruct ρ. Qed.
Lemma upd_ne f ρ x ρ' : ρ' <> ρ -> upd f ρ x ρ' = f ρ'.
Proof. by destruct ρ, ρ'. Qed.

Lemma answer_le c n : answer c n -> n <= cnum c.
Proof. unfold answer. destruct (cbehavior c); lia. Qed.

Section reserve.
Context (w : world) (Hi : inv w) (t : Z) (th : thread) (at_ avail n : Z).
Context (Et : threads w !! t = Some th) (Ep : tpoint th = AtMove (wrap 32 at_) at_ avail n) (Eat : at_ = hpos w (crole (tcall th))).
Abbreviation ρ := (crole (tcall th)).
Abbreviation w' := (reserve t th (wrap 32 at_) avail n w).

Lemma reserve_facts : 0 < n /\ answer (tcall th) n /\ hpos w ρ + n <= tpos w (other ρ) + bonus ρ /\ n <= capacity r /\
  n * sc <= alen (tobj th) /\ owner w t = None /\ alen (jring_elems ρ (ring w) (wrap 32 at_) n) = n * sc /\
  jring_elems ρ (ring w) (wrap 32 at_) n = map (fun k => ((hpos w ρ * sc + k) mod words, k)) (seqZ 0 (n * sc)).
Proof.
  destruct ring_bounds as (Hs & Hsc & _). pose proof (i_order w Hi) as Ho. pose proof (i_thread w Hi t th Et) as Ht.
  unfold thread_ok in Ht. rewrite Ep in Ht. destruct Ht as (Hc & Hl & _ & _ & _ & Hn & Ha & Hf). pose proof (answer_le _ _ Ha).
  specialize (Hf Eat). rewrite Eat in Hf. pose proof (ok_capacity r Hok).
  assert (n <= capacity r) by (unfold ordered, bonus in *; destruct ρ; cbn in *; lia).
  assert (jring_elems ρ (ring w) (wrap 32 at_) n = map (fun k => ((hpos w ρ * sc + k) mod words, k)) (seqZ 0 (n * sc))) as Ee.
  { rewrite <- Eat. rewrite (i_ring w Hi). replace (jring_elems ρ (ring_at (hpos w) (tpos w))) with (jring_elems ρ r) by (by destruct ρ). apply jring_elems_eq. lia. }
  split_and!; try done; [nia|unfold owner, own; by rewrite Et; cbn; rewrite Ep|].
  rewrite Ee. unfold alen. rewrite length_map, length_seqZ. nia.
Qed.

Lemma reserve_owner t' : owner w' t' =
  if decide (t' = t) then Some (ρ, hpos w ρ, n, match ρ with Prod => n * sc | Cons => 0 end) else owner w t'.
Proof.
  destruct reserve_facts as (_ & _ & _ & _ & _ & _ & El & _). erewrite owner_insert by done. unfold own. cbn.
  by rewrite El.
Qed.

Lemma reserve_hist i : 0 <= i < alen (hist w) -> aget (hist w') i = aget (hist w) i.
Proof. intros. unfold reserve. cbn. destruct ρ; [|done]. by rewrite aget_app_l. Qed.

Lemma reserve_order : ordered w' /\ alen (hist w') = hpos w' Prod * sc /\ ring w' = ring_at (hpos w') (tpos w').
Proof.
  destruct reserve_facts as (Hn & _ & Hb & _ & Ho & _), ring_bounds as (_ & Hsc & _). pose proof (i_order w Hi). pose proof (i_hist w Hi) as Hh. split_and!.
  - unfold ordered, bonus, reserve, upd in *. cbn in *. destruct ρ; cbn in *; lia.
  - unfold reserve, upd. cbn. rewrite (i_ring w Hi), scale_at. destruct ρ; cbn; [|done]. rewrite alen_app, Hh, alen_take by nia. lia.
  - unfold reserve. cbn. rewrite (i_ring w Hi), Eat. apply set_head_at.
Qed.

Lemma reserve_threads t' x : threads w' !! t' = Some x -> thread_ok w' x.
Proof.
  destruct reserve_facts as (Hn & Ha & Hb & Hc & Hl & Eo & El & Ee). destruct ring_bounds as (Hs & Hsc & _).
  pose proof (i_order w Hi) as Hor. pose proof (i_hist w Hi) as Hh. pose proof (i_thread w Hi t th Et) as Hok'.
  cbn. intros [[<- <-]|[Hne Hx]]%lookup_insert_Some.
  - unfold thread_ok. cbn. unfold thread_ok in Hok'. destruct Hok' as (? & ? & _).
    assert (0 <= hpos w ρ /\ tpos w ρ <= hpos w ρ) by (unfold ordered in Hor; destruct ρ; lia).
    rewrite upd_eq. split_and!; try done; try lia; [by rewrite Eat|by rewrite Eat, wrap_add_l|].
    unfold stage_ok. cbn. rewrite El. split_and!; [lia| | |done].
    + rewrite Ee at 1. by rewrite Z.sub_diag.
    + intros k Hk. destruct ρ eqn:Er; [|lia]. rewrite aget_app_r by lia. rewrite Hh, (i_ring w Hi), scale_at.
      replace (hpos w Prod * sc + k - hpos w Prod * sc) with k by lia. unfold aget. symmetry. apply lookup_take_lt. lia.
  - pose proof (i_thread w Hi t' x Hx) as Hx'. apply (thread_ok_mono w); try done.
    + cbn. destruct (decide (crole (tcall x) = ρ)) as [->|]; [rewrite upd_eq|rewrite upd_ne by done]; lia.
    + intros Hsg _. cbn. destruct (decide (crole (tcall x) = ρ)) as [E|]; [|by rewrite upd_ne]. pose proof (i_excl w Hi t' t x th) as He. rewrite He in Hsg by done. done.
    + intros f m l E. assert (owner w t' = Some (crole (tcall x), f, m, l)) as Eo' by (unfold owner; by rewrite Hx).
      apply (owner_ok w _ _ _ _ _ Hi) in Eo'. split; [cbn; lia|done].
    + apply reserve_hist.
Qed.

Lemma reserve_inv : inv w'.
Proof.
  destruct reserve_facts as (Hn & Ha & Hb & Hc & Hl & Eo & El & Ee). destruct ring_bounds as (Hs & Hsc & _).
  destruct reserve_order as (Hor & Hh & Hr). split; try done.
  - apply Hi.
  - apply reserve_threads.
  - apply (excl_insert w t th); [apply Hi|done..].
  - intros t1 t2 ρ' f1 n1 l1 f2 n2 l2 Hne. rewrite !reserve_owner. repeat case_decide; simplify_eq; [| |by apply (i_disj w Hi)].
    + intros [= <- <- <- <-] (? & ? & ? & _)%(owner_ok w _ _ _ _ _ Hi). by right.
    + intros (? & ? & ? & _)%(owner_ok w _ _ _ _ _ Hi) [= <- <- <- <-]. by left.
  - intros ρ' p Hp. cbn in Hp. destruct (decide (p < hpos w ρ')) as [Hlt|Hge].
    + destruct (i_cover w Hi ρ' p ltac:(lia)) as (t' & f & m & l & Ho & Hp'). exists t', f, m, l. rewrite reserve_owner.
      rewrite decide_False by (intros ->; congruence). done.
    + exists t, (hpos w ρ), n. eexists. rewrite reserve_owner, decide_True by done. 
      destruct (decide (ρ' = ρ)) as [->|]; [rewrite upd_eq in Hp|rewrite upd_ne in Hp by done; lia]. split; [done|lia].
  - intros p Hp Hw. cbn [buf reserve]. destruct (decide (p < hpos w Prod * sc)) as [Hlt|Hge].
    + rewrite reserve_hist by (rewrite (i_hist w Hi); pose proof (i_order w Hi); unfold ordered in *; cbn in Hp; nia).
      apply (i_mem w Hi); [cbn in Hp; lia|]. intros t' f m l E. apply (Hw t'). rewrite reserve_owner.
      rewrite decide_False by (intros ->; congruence). done.
    + cbn in Hp. destruct (decide (Prod = ρ)) as [E|]; [|rewrite upd_ne in Hp by done; lia]. specialize (Hw t (hpos w ρ) n (n * sc)).
      rewrite reserve_owner, decide_True, <- E in Hw by done. specialize (Hw eq_refl). rewrite <- E, upd_eq in Hp. lia.
Qed.

Lemma reserve_abs : qstep (abs w) Silent (abs w').
Proof.
  destruct reserve_facts as (Hn & Ha & Hb & Hc & Hl & Eo & El & Ee). destruct ring_bounds as (Hs & Hsc & _).
  pose proof (i_order w Hi) as Hor. pose proof (i_hist w Hi) as Hh. pose proof reserve_inv as Hi'. unfold ordered in Hor.
  assert (forall t', t' <> t -> taken (abs w') !! t' = taken (abs w) !! t') as Htk.
  { intros t' Hne. unfold abs. cbn [taken]. rewrite !lookup_omap. cbn [threads reserve]. rewrite lookup_insert_ne by done.
    destruct (threads w !! t') as [x|] eqn:Ex; [|done]. cbn. unfold claim. destruct (own x) as [[[[ρ' f] m] l]|] eqn:E; [|done].
    destruct ρ'; [done|]. assert (owner w t' = Some (Cons, f, m, l)) as (? & ? & ? & _)%(owner_ok w _ _ _ _ _ Hi) by (unfold owner; by rewrite Ex).
    f_equal. destruct ρ; [|done]. apply slice_extend; nia. }
  assert (taken (abs w) !! t = None) as Hnone.
  { unfold abs. cbn. rewrite lookup_omap, Et. unfold claim, own. cbn. by rewrite Ep. }
  assert (taken (abs w') !! t = match ρ with Prod => None | Cons => Some (slice (hist w) (hpos w ρ * sc) ((hpos w ρ + n) * sc)) end) as Hsome.
  { unfold abs. cbn. rewrite lookup_omap, lookup_insert_eq. unfold claim, own. cbn. by destruct ρ. }
  destruct ρ eqn:Er; cbn in Hb.
  - replace (abs w') with (abs w); [constructor|]. apply queue_ext.
    + cbn. rewrite Er. cbn. symmetry. apply slice_extend; nia.
    + intros t'. destruct (decide (t' = t)) as [->|Hne]; [|by rewrite Htk]. by rewrite Hnone, Hsome.
  - set (l := slice (hist w) (hpos w Cons * sc) ((hpos w Cons + n) * sc)).
    replace (abs w) with (MkQueue (l ++ items (abs w')) (taken (abs w))).
    + replace (abs w') with (MkQueue (items (abs w')) (<[t := l]> (taken (abs w)))); [by constructor|].
      apply queue_ext; [done|]. intros t'. cbn [taken]. destruct (decide (t' = t)) as [->|Hne].
      * by rewrite lookup_insert_eq, Hsome.
      * by rewrite lookup_insert_ne, Htk.
    + apply queue_ext; [|done]. cbn. rewrite Er. cbn. apply slice_app; nia.
Qed.
End reserve.

(** ** Copies of single words *)

Lemma copying_head n from a b (todo : list (Z * Z)) : let done := n * sc - (alen todo + 1) in
  (a, b) :: todo = map (fun k => ((from * sc + k) mod words, k)) (seqZ done (alen todo + 1)) ->
  a = (from * sc + done) mod words /\ b = done /\ todo = map (fun k => ((from * sc + k) mod words, k)) (seqZ (done + 1) (alen todo)).
Proof.
  intros done. rewrite seqZ_cons by (pose proof (alen_nonneg todo); lia). cbn [map]. intros [= -> -> E].
  split_and!; [done..|]. rewrite E at 1. do 2 f_equal; lia.
Qed.

(** The slots of distinct positions between [cons.tail] and [prod.head] are distinct. *)
Lemma slots_differ w p p' : ordered w -> tpos w Cons * sc <= p < hpos w Prod * sc -> tpos w Cons * sc <= p' < hpos w Prod * sc ->
  p mod words = p' mod words -> p = p'.
Proof.
  intros Ho Hp Hp' E. destruct ring_bounds as (Hs & Hsc & _). pose proof (ok_capacity r Hok). unfold ordered in Ho.
  assert (hpos w Prod * sc - tpos w Cons * sc < words) by nia.
  pose proof (Z.div_mod p words ltac:(nia)). pose proof (Z.div_mod p' words ltac:(nia)).
  assert (- words < p - p' < words) by lia. assert (p - p' = words * (p / words - p' / words)) by lia.
  assert (p / words - p' / words = 0) by nia. nia.
Qed.

Lemma copying_facts w t th old new avail n from a b todo : inv w -> threads w !! t = Some th ->
  tpoint th = Owner old new avail n from (Copying ((a, b) :: todo)) ->
  let done := n * sc - (alen todo + 1) in
  0 <= done /\ a = (from * sc + done) mod words /\ b = done /\
  todo = map (fun k => ((from * sc + k) mod words, k)) (seqZ (done + 1) (alen todo)) /\ done < alen (tobj th) /\
  tpos w (crole (tcall th)) * sc <= from * sc + done < hpos w (crole (tcall th)) * sc.
Proof.
  intros Hi Et Ep done. destruct ring_bounds as (_ & Hsc & _). pose proof (i_thread w Hi t th Et) as Ht. unfold thread_ok in Ht.
  rewrite Ep in Ht. destruct Ht as (Hc & Hl & -> & -> & Hn & Ha & Hf & Hf' & Hd & Htd & _). cbn [todo_of] in *.
  rewrite alen_cons in Hd, Htd. apply copying_head in Htd. destruct Htd as (Ea & Eb & Etd).
  pose proof (answer_le _ _ Ha). pose proof (alen_nonneg todo). fold done in Hd, Ea, Eb, Etd. unfold done. split_and!; try done; nia.
Qed.

Section write.
Context (w : world) (Hi : inv w) (t : Z) (th : thread) (old new avail n from a b : Z) (todo : list (Z * Z)).
Context (Et : threads w !! t = Some th) (Ep : tpoint th = Owner old new avail n from (Copying ((a, b) :: todo))).

Lemma read_inv x : crole (tcall th) = Cons -> aget (buf w) a = Some x ->
  let th' := MkThread (tcall th) (aset (tobj th) b x) (Owner old new avail n from (Copying todo)) in
  inv (with_threads (<[t := th']> (threads w)) w) /\ abs (with_threads (<[t := th']> (threads w)) w) = abs w.
Proof.
  intros Er Ex th'. destruct (copying_facts w t th _ _ _ _ _ _ _ _ Hi Et Ep) as (Hd & Ea & Eb & Etd & Hlen & Hp). rewrite Er in Hp.
  pose proof (i_order w Hi) as Ho. unfold ordered in Ho. destruct ring_bounds as (_ & Hsc & _).
  apply (inv_goes w t th); [done..| |].
  { unfold own. cbn. by rewrite Ep, Er. }
  pose proof (i_thread w Hi t th Et) as Ht. unfold thread_ok in *. rewrite Ep in Ht. cbn. rewrite Er in *. cbn in Ht |- *.
  destruct Ht as (Hc & Hl & -> & -> & Hn & Ha & Hf & Hf' & Hd' & Htd & Hk & _). rewrite alen_aset. split_and!; try done; try lia.
  unfold stage_ok in *. cbn in *. rewrite alen_cons in *. replace (n * sc - alen todo) with (n * sc - (alen todo + 1) + 1) by lia.
  split_and!; try done; [lia|]. intros k Hk'. destruct (decide (k = b)) as [->|Hne].
  - rewrite aget_aset_eq by lia. rewrite <- Ex, Ea, Eb. apply (i_mem w Hi); [nia|].
    intros t' f m l E Hr. apply (owner_ok w _ _ _ _ _ Hi) in E. nia.
  - rewrite aget_aset_ne by lia. apply Hk. lia.
Qed.

Lemma write_inv x : crole (tcall th) = Prod -> aget (tobj th) b = Some x ->
  let th' := MkThread (tcall th) (tobj th) (Owner old new avail n from (Copying todo)) in
  let w' := MkWorld (ring w) (aset (buf w) a x) (<[t := th']> (threads w)) (hpos w) (tpos w) (hist w) in
  inv w' /\ abs w' = abs w.
Proof.
  intros Er Ex th' w'. destruct (copying_facts w t th _ _ _ _ _ _ _ _ Hi Et Ep) as (Hd & Ea & Eb & Etd & Hlen & Hp). rewrite Er in Hp.
  pose proof (i_order w Hi) as Ho. unfold ordered in Ho. destruct ring_bounds as (Hs & Hsc & _). pose proof (alen_nonneg todo) as Hnn.
  assert (forall t', owner w' t' = if decide (t' = t) then Some (Prod, from, n, alen todo) else owner w t') as Eow.
  { intros t'. erewrite owner_insert by done. unfold own. cbn. by rewrite Er. }
  assert (owner w t = Some (Prod, from, n, alen todo + 1)) as Eot.
  { unfold owner, own. rewrite Et. cbn. by rewrite Ep, Er; cbn; rewrite alen_cons. }
  pose proof (i_thread w Hi t th Et) as Ht. unfold thread_ok in Ht. rewrite Ep in Ht. rewrite Er in Ht.
  destruct Ht as (Hc & Hl & -> & -> & Hn & Ha & Hf & Hf' & Hd' & Htd & Hk & _). split.
  - split; try apply Hi.
    + cbn. rewrite alen_aset. apply Hi.
    + intros t' y. cbn. intros [[<- <-]|[Hne Hy]]%lookup_insert_Some; [|by apply (i_thread w Hi t' y)].
      unfold thread_ok. cbn. rewrite Er. split_and!; try done; try lia. unfold stage_ok. cbn.
      replace (n * sc - alen todo) with (n * sc - (alen todo + 1) + 1) by lia. split_and!; try done. lia.
    + apply (excl_insert w t th); [apply Hi|done..].
    + intros t1 t2 ρ f1 n1 l1 f2 n2 l2 Hne. rewrite !Eow.
      repeat case_decide; simplify_eq; [intros [= <- <- <- <-]|intros Ho1 [= <- <- <- <-]; revert Ho1|by apply (i_disj w Hi)].
      * exact (i_disj w Hi t t2 _ _ _ _ _ _ _ Hne Eot).
      * intros Ho1. exact (i_disj w Hi t1 t _ _ _ _ _ _ _ Hne Ho1 Eot).
    + intros ρ p Hp'. destruct (i_cover w Hi ρ p Hp') as (t' & f & m & l & Ho1 & Hfp). destruct (decide (t' = t)) as [->|Hne].
      * rewrite Ho1 in Eot. simplify_eq. exists t, from, n, (alen todo). by rewrite Eow, decide_True.
      * exists t', f, m, l. by rewrite Eow, decide_False.
    + intros p Hp' Hw. cbn. destruct (decide (p = from * sc + b)) as [->|Hne].
      * rewrite Eb, <- Ea, aget_aset_eq; [rewrite <- Ex, Eb; apply Hk; lia|]. rewrite (i_buf w Hi), Ea. apply Z.mod_pos_bound. nia.
      * rewrite aget_aset_ne.
        -- apply (i_mem w Hi p Hp'). intros t' f m l Ho1 Hr. destruct (decide (t' = t)) as [->|Hnt].
           ++ rewrite Eot in Ho1. injection Ho1 as <- <- <-. specialize (Hw t from n (alen todo)). rewrite Eow, decide_True in Hw by done.
              specialize (Hw eq_refl Hr). lia.
           ++ apply (Hw t'); [by rewrite Eow, decide_False|done].
        -- rewrite Ea. apply Z.mod_pos_bound. nia.
        -- apply Z.mod_pos_bound. nia.
        -- rewrite Ea. intros E. apply Hne. rewrite Eb. symmetry. apply (slots_differ w); [apply Hi|nia|done|done].
  - apply queue_ext; [done|]. intros t'. unfold abs. cbn. rewrite !lookup_omap. destruct (decide (t' = t)) as [->|].
    + rewrite lookup_insert_eq, Et. unfold claim, own. cbn. by rewrite Ep, Er.
    + by rewrite lookup_insert_ne.
Qed.
End write.

(** ** Publishing and releasing *)

Section store.
Context (w : world) (Hi : inv w) (t : Z) (th : thread) (old new avail n from : Z).
Context (Et : threads w !! t = Some th) (Ep : tpoint th = Owner old new avail n from Storing).
Abbreviation ρ := (crole (tcall th)).
Definition after_store : world :=
  MkWorld (set_tail ρ new (ring w)) (buf w) (delete t (threads w)) (hpos w) (upd (tpos w) ρ (from + n)) (hist w).

Lemma store_facts : owner w t = Some (ρ, from, n, 0) /\ new = wrap 32 (from + n) /\ from = tpos w ρ /\ 0 < n /\
  from + n <= hpos w ρ /\ answer (tcall th) n /\ n * sc <= alen (tobj th) /\
  forall k, 0 <= k < n * sc -> aget (tobj th) k = aget (hist w) (from * sc + k).
Proof.
  pose proof (i_thread w Hi t th Et) as Ht. unfold thread_ok in Ht. rewrite Ep in Ht. destruct ring_bounds as (_ & Hsc & _).
  destruct Ht as (Hc & Hl & -> & -> & Hn & Ha & Hf & Hf' & Hd & _ & Hk & Hst). pose proof (answer_le _ _ Ha).
  split_and!; try done; [|nia|].
  - unfold owner, own. rewrite Et. cbn. rewrite Ep. by destruct ρ.
  - intros k Hk'. apply Hk. cbn. rewrite Z.sub_0_r. by destruct ρ.
Qed.

Lemma store_owner t' : owner after_store t' = if decide (t' = t) then None else owner w t'.
Proof. by apply owner_delete. Qed.

Lemma store_inv : inv after_store.
Proof.
  destruct store_facts as (Eo & En & Ef & Hn & Hh & _). pose proof (i_order w Hi) as Ho. destruct ring_bounds as (_ & Hsc & _).
  split; try apply Hi.
  - cbn. rewrite (i_ring w Hi), En. apply set_tail_at.
  - unfold ordered in *. cbn. destruct ρ; cbn; lia.
  - intros t' x. cbn. intros [Hne Hx]%lookup_delete_Some. pose proof (i_thread w Hi t' x Hx) as Hx'.
    apply (thread_ok_mono w); try done; [apply Hi| |].
    + cbn. destruct (decide (other (crole (tcall x)) = ρ)) as [->|]; [rewrite upd_eq|rewrite upd_ne by done]; lia.
    + intros f m l E. assert (owner w t' = Some (crole (tcall x), f, m, l)) as Eo' by (unfold owner; by rewrite Hx).
      pose proof (owner_ok w _ _ _ _ _ Hi Eo') as Hf. cbn. destruct (decide (crole (tcall x) = ρ)) as [Er|].
      * rewrite Er in *. rewrite upd_eq. pose proof (i_disj w Hi t' t _ _ _ _ _ _ _ ltac:(done) Eo' Eo). lia.
      * rewrite upd_ne by done. split; [lia|done].
  - apply excl_delete, Hi.
  - intros t1 t2 ρ' f1 n1 l1 f2 n2 l2 Hne. rewrite !store_owner. repeat case_decide; try done. by apply (i_disj w Hi).
  - intros ρ' p Hp. cbn in Hp. assert (tpos w ρ' <= upd (tpos w) ρ (from + n) ρ') as Hle.
    { destruct (decide (ρ' = ρ)) as [->|]; [rewrite upd_eq|rewrite upd_ne by done]; lia. }
    destruct (i_cover w Hi ρ' p ltac:(lia)) as (t' & f & m & l & Ho' & Hp'). exists t', f, m, l. rewrite store_owner.
    rewrite decide_False; [done|]. intros ->. rewrite Eo in Ho'. injection Ho' as <- <- <- <-. rewrite upd_eq in Hp. lia.
  - intros p Hp Hw. cbn in Hp. apply (i_mem w Hi).
    + assert (tpos w Cons <= upd (tpos w) ρ (from + n) Cons) by (destruct ρ; cbn; lia). nia.
    + intros t' f m l Ho' Hr. destruct (decide (t' = t)) as [->|].
      * rewrite Eo in Ho'. injection Ho' as _ <- <- <-. lia.
      * apply (Hw t'); [by rewrite store_owner, decide_False|done].
Qed.

Lemma store_abs rest : qstep (abs w) (Returned t (tcall th) n rest (tobj th)) (abs after_store).
Proof.
  destruct store_facts as (Eo & En & Ef & Hn & Hh & Ha & Hl & Hk). destruct ring_bounds as (_ & Hsc & _).
  pose proof (i_order w Hi) as Ho. unfold ordered in Ho. pose proof (i_hist w Hi) as Hhist.
  assert (take (Z.to_nat (n * sc)) (tobj th) = slice (hist w) (from * sc) ((from + n) * sc)) as Es.
  { rewrite Z.mul_add_distr_r. apply take_slice; try done; destruct ρ; nia. }
  assert (forall t', taken (abs after_store) !! t' = if decide (t' = t) then None else taken (abs w) !! t') as Htk.
  { intros t'. cbn. rewrite !lookup_omap. cbn. case_decide as E; [by rewrite E, lookup_delete_eq|by rewrite lookup_delete_ne]. }
  assert (taken (abs w) !! t = match ρ with Prod => None | Cons => Some (slice (hist w) (from * sc) ((from + n) * sc)) end) as Ht.
  { cbn. rewrite lookup_omap, Et. unfold claim, own. cbn. rewrite Ep. by destruct ρ. }
  destruct ρ eqn:Er.
  - replace (abs after_store) with (MkQueue (items (abs w) ++ take (Z.to_nat (n * sc)) (tobj th)) (taken (abs w))).
    + constructor; try done. cbn. rewrite slice_len by nia. nia.
    + apply queue_ext.
      * cbn. rewrite Er, Es. cbn. rewrite <- Ef. apply slice_app; nia.
      * intros t'. rewrite Htk. cbn [taken]. case_decide as E; [by rewrite E, Ht|done].
  - replace (abs after_store) with (MkQueue (items (abs w)) (delete t (taken (abs w)))).
    + constructor; try done. by rewrite Ht, Es.
    + apply queue_ext; [cbn; by rewrite Er|]. intros t'. rewrite Htk. cbn [taken]. case_decide as E; [by rewrite E, lookup_delete_eq|].
      by rewrite lookup_delete_ne.
Qed.
End store.

(** ** Every step is one of the queue *)

Lemma wrap_eq x y : 0 <= y - x < 2 ^ 32 -> wrap 32 x = wrap 32 y -> x = y.
Proof. intros H E. word_lia. Qed.

(** The only one of its side that owns slots owns the first of them. *)
Lemma single_first w t th f n l : inv w -> threads w !! t = Some th -> csingle (tcall th) = true ->
  own th = Some (crole (tcall th), f, n, l) -> f = tpos w (crole (tcall th)).
Proof.
  intros Hi Et Hs Eo. assert (owner w t = Some (crole (tcall th), f, n, l)) as Ho by (unfold owner; by rewrite Et).
  pose proof (owner_ok w _ _ _ _ _ Hi Ho) as Hf.
  destruct (i_cover w Hi (crole (tcall th)) (tpos w (crole (tcall th))) ltac:(lia)) as (t' & f' & n' & l' & Ho' & Hp).
  destruct (decide (t' = t)) as [->|Hne]; [rewrite Ho in Ho'; injection Ho' as <- <- <-; lia|].
  unfold owner in Ho'. destruct (threads w !! t') as [th'|] eqn:Et'; [|done]. cbn in Ho'.
  assert (crole (tcall th') = crole (tcall th)) as Er by (unfold own in Ho'; destruct (tpoint th'); congruence).
  rewrite (i_excl w Hi t t' th th') in Hs by done. done.
Qed.

Lemma cut_answer (c : call) avail n : 0 <= avail ->
  n = (if avail <? cnum c then if decide (cbehavior c = JRING_QUEUE_FIXED) then 0 else avail else cnum c) -> 0 <= cnum c -> n <> 0 ->
  0 < n /\ answer c n /\ n <= avail.
Proof.
  intros Ha -> Hc. unfold answer. destruct (Z.ltb_spec avail (cnum c)), (cbehavior c); repeat case_decide; try done; lia.
Qed.

Lemma cut_none (c : call) avail : 
  (if avail <? cnum c then if decide (cbehavior c = JRING_QUEUE_FIXED) then 0 else avail else cnum c) = 0 ->
  cnum c = 0 \/ match cbehavior c with JRING_QUEUE_FIXED => avail < cnum c | JRING_QUEUE_VARIABLE => avail = 0 end.
Proof. destruct (Z.ltb_spec avail (cnum c)), (cbehavior c); repeat case_decide; try done; lia. Qed.

Section sim.
Context (w : world) (Hi : inv w) (Hfresh : not_overtaken w) (t : Z) (th : thread) (Et : threads w !! t = Some th).
Abbreviation ρ := (crole (tcall th)).

Lemma sim_tail old at_ avail n : tpoint th = AtTail old at_ ->
  move_head ρ (ring w) (cnum (tcall th)) (cbehavior (tcall th)) old (tail (side (other ρ) (ring w))) = (avail, n) ->
  if n =? 0 then inv (leaves t w) /\ qstep (abs w) (Returned t (tcall th) 0 avail (tobj th)) (abs (leaves t w))
  else inv (goes t th (AtMove old at_ avail n) w) /\ abs (goes t th (AtMove old at_ avail n) w) = abs w.
Proof.
  intros Ep Em. pose proof (i_thread w Hi t th Et) as Ht. pose proof (Hfresh t th Et) as Hlag. unfold thread_ok in Ht. rewrite Ep in Ht, Hlag.
  destruct Ht as (Hc & Hl & -> & Hat & Hsg). pose proof (i_order w Hi) as Ho. unfold ordered in Ho. destruct ring_bounds as (Hs & Hsc & _).
  pose proof (ok_capacity r Hok) as Hcap. rewrite (i_ring w Hi), side_at in Em. cbn [tail] in Em. rewrite move_head_at in Em. cbv zeta in Em.
  injection Em as Ea En. pose proof (wrap_range 32 (bonus ρ + tpos w (other ρ) - at_) ltac:(lia)) as Hr. rewrite Ea in Hr, En.
  destruct (Z.eqb_spec n 0) as [->|Hne].
  - destruct (inv_leaves w t th Hi Et ltac:(unfold own; by rewrite Ep)) as [Hi' ->]. split; [done|].
    destruct ρ eqn:Er; [by constructor|]. constructor; [done|]. apply cut_none in En. destruct En as [|En]; [by left|right].
    cbn in Ea. rewrite wrap_id in Ea by (unfold in_word; lia). unfold too_few. cbn. destruct (cbehavior (tcall th)).
    + rewrite slice_len by (rewrite ?(i_hist w Hi); nia). nia.
    + assert (hpos w Cons = tpos w Prod) as -> by lia. unfold slice. by rewrite Z.sub_diag.
  - destruct (cut_answer (tcall th) avail n ltac:(apply Hr) (eq_sym En) ltac:(lia) Hne) as (Hn & Ha & Hle).
    apply (inv_goes w t th); [done..|unfold own; cbn; by rewrite Ep|]. unfold thread_ok. cbn. split_and!; try done; try lia.
    intros E. rewrite wrap_id in Ea; [lia|]. unfold in_word. subst at_. unfold bonus in *. destruct ρ; cbn in *; lia.
Qed.

Lemma sim_move old at_ avail n : tpoint th = AtMove old at_ avail n ->
  (csingle (tcall th) = true \/ head (side ρ (ring w)) = old) ->
  inv (reserve t th old avail n w) /\ qstep (abs w) Silent (abs (reserve t th old avail n w)).
Proof.
  intros Ep Hcas. pose proof (i_thread w Hi t th Et) as Ht. pose proof (Hfresh t th Et) as Hlag. unfold thread_ok in Ht. rewrite Ep in Ht, Hlag.
  destruct Ht as (Hc & Hl & -> & Hat & Hsg & _). assert (at_ = hpos w ρ) as Eat.
  { destruct Hcas as [E|E]; [by apply Hsg|]. rewrite (i_ring w Hi), side_at in E. cbn in E. apply wrap_eq; [lia|done]. }
  split; [by apply reserve_inv|by apply reserve_abs].
Qed.

Lemma sim_head : tpoint th = AtHead \/ (csingle (tcall th) = false /\ exists old at_ avail n, tpoint th = AtMove old at_ avail n) ->
  let w' := goes t th (AtTail (head (side ρ (ring w))) (hpos w ρ)) w in inv w' /\ abs w' = abs w.
Proof.
  intros Ep. pose proof (i_thread w Hi t th Et) as (Hc & Hl & _). pose proof (i_order w Hi) as Ho. unfold ordered in Ho.
  apply (inv_goes w t th); [done..| |].
  - unfold own. cbn. destruct Ep as [->|(_ & old & at_ & avail & n & ->)]; done.
  - unfold thread_ok. cbn. rewrite (i_ring w Hi), side_at. cbn. split_and!; try done; destruct ρ; lia.
Qed.

Lemma sim_copied old new avail n from : tpoint th = Owner old new avail n from (Copying []) ->
  let w' := goes t th (Owner old new avail n from (if csingle (tcall th) then Storing else Waiting)) w in inv w' /\ abs w' = abs w.
Proof.
  intros Ep. pose proof (i_thread w Hi t th Et) as Ht. unfold thread_ok in Ht. rewrite Ep in Ht.
  destruct Ht as (Hc & Hl & Eo & En & Hn & Ha & Hf & Hf' & Hd & _ & Hk & _). apply (inv_goes w t th); [done..| |].
  - unfold own. cbn. rewrite Ep. by destruct (csingle _).
  - unfold thread_ok. cbn. split_and!; try done; try lia. unfold stage_ok.
    replace (todo_of (if csingle (tcall th) then Storing else Waiting)) with (todo_of (Copying [])) by (by destruct (csingle _)).
    split_and!; try done. destruct (csingle (tcall th)) eqn:Es; [|done].
    apply (single_first w t th from n (match ρ with Prod => alen (todo_of (Copying [])) | Cons => 0 end)); try done. unfold own. by rewrite Ep.
Qed.

Lemma sim_wait old new avail n from : tpoint th = Owner old new avail n from Waiting -> tail (side ρ (ring w)) = old ->
  let w' := goes t th (Owner old new avail n from Storing) w in inv w' /\ abs w' = abs w.
Proof.
  intros Ep Etl. pose proof (i_thread w Hi t th Et) as Ht. unfold thread_ok in Ht. rewrite Ep in Ht.
  pose proof (i_order w Hi) as Ho. unfold ordered in Ho. destruct ring_bounds as (Hs & _). pose proof (ok_capacity r Hok).
  destruct Ht as (Hc & Hl & Eo & En & Hn & Ha & Hf & Hf' & Hd & Htd & Hk & _). apply (inv_goes w t th); [done..|unfold own; cbn; by rewrite Ep|].
  unfold thread_ok. cbn. split_and!; try done; try lia. unfold stage_ok. split_and!; try done.
  rewrite (i_ring w Hi), side_at, Eo in Etl. cbn in Etl. symmetry. apply wrap_eq; [destruct ρ; lia|done].
Qed.
End sim.

Lemma next_sim w t e w' : inv w -> not_overtaken w -> next t w = Some (e, w') -> inv w' /\ qstep (abs w) e (abs w').
Proof.
  intros Hi Hf. unfold next, load_tail, exchange_head, copy_word, jring_wait_until_equal_32, jring_update_tail. destruct (threads w !! t) as [th|] eqn:Et; [|done]. cbn [mbind option_bind].
  assert (forall w1, inv w1 /\ abs w1 = abs w -> inv w1 /\ qstep (abs w) Silent (abs w1)) as Hsil.
  { intros w1 [? ->]. split; [done|constructor]. }
  destruct (tpoint th) as [|old at_|old at_ avail n|old new avail n from s] eqn:Ep.
  - intros [= <- <-]. apply Hsil. apply sim_head; auto.
  - destruct (move_head _ _ _ _ _ _) as [avail n] eqn:Em. pose proof (sim_tail w Hi Hf t th Et old at_ avail n Ep Em) as H.
    destruct (n =? 0); intros [= <- <-]; [done|by apply Hsil].
  - destruct (csingle (tcall th)) eqn:Es; [intros [= <- <-]; apply (sim_move w Hi Hf t th Et old at_); auto|].
    destruct (Z.eqb_spec (head (side (crole (tcall th)) (ring w))) old) as [E|]; intros [= <- <-].
    + apply (sim_move w Hi Hf t th Et old at_); auto.
    + apply Hsil. apply sim_head; [done..|]. right. split; [done|]. by exists old, at_, avail, n.
  - destruct s as [[|[a b] todo]| |].
    + intros [= <- <-]. apply Hsil. by apply sim_copied.
    + destruct (crole (tcall th)) eqn:Er.
      * destruct (aget (tobj th) b) as [x|] eqn:Ex; [|done]. intros [= <- <-]. apply Hsil. by eapply (write_inv w Hi t th).
      * destruct (aget (buf w) a) as [x|] eqn:Ex; [|done]. intros [= <- <-]. apply Hsil. by eapply (read_inv w Hi t th).
    + destruct (Z.eqb_spec (tail (side (crole (tcall th)) (ring w))) old); [|done]. intros [= <- <-]. apply Hsil. by apply sim_wait.
    + intros [= <- <-]. split; [by eapply (store_inv w Hi t th)|by eapply (store_abs w Hi t th)].
Qed.

Lemma ring_run_inv slots es w : prod r = MkHeadtail 0 0 (sync (prod r)) -> cons r = MkHeadtail 0 0 (sync (cons r)) -> alen slots = words ->
  run (init r slots) es w -> inv w /\ not_overtaken w /\ qrun (MkQueue [] ∅) es (abs w).
Proof.
  intros Ep Ec Hl. pose proof ring_bounds as (Hs & _). pose proof (ok_capacity r Hok). induction 1 as [|es e w1 w2 _ IH Hst Hf].
  - split_and!; [|intros t th; by cbn; rewrite lookup_empty|].
    + split; try done; cbn.
      * unfold ring_at. change (wrap 32 0) with 0. rewrite <- Ep, <- Ec. apply ring_eta.
      * unfold ordered. cbn. lia.
      * intros ρ p Hp. cbn in Hp. lia.
      * intros p Hp. cbn in Hp. lia.
    + replace (abs _) with (MkQueue [] ∅); [constructor|]. apply queue_ext; [done|]. intros t. cbn. by rewrite lookup_omap, lookup_empty.
  - destruct IH as (Hi & Hf1 & Hq). assert (inv w2 /\ qstep (abs w1) e (abs w2)) as [Hi2 Hq2]; [|split_and!; try done; by econstructor].
    destruct Hst as [t c obj w Et Hm|t e w w' E]; [|by apply (next_sim w t)].
    destruct (inv_start w t c obj Hi Et Hm) as [Hi2 Ea]. split; [exact Hi2|]. unfold with_threads in Ea. rewrite Ea. constructor.
Qed.

(** Between calls, the counters of the ring are those of the queue. *)
Lemma quiet_count w : inv w -> threads w = ∅ ->
  jring_count (ring w) * sc = alen (items (abs w)) /\ jring_empty (ring w) = bool_decide (items (abs w) = []) /\
  (jring_full (ring w) = true <-> alen (items (abs w)) = capacity r * sc).
Proof.
  intros Hi Hn. assert (forall ρ, tpos w ρ = hpos w ρ) as Hq.
  { intros ρ. pose proof (i_order w Hi) as Ho. unfold ordered in Ho. destruct (decide (tpos w ρ < hpos w ρ)); [|destruct ρ; lia].
    destruct (i_cover w Hi ρ (tpos w ρ) ltac:(lia)) as (t & f & n & l' & E & _). unfold owner in E. by rewrite Hn, lookup_empty in E. }
  pose proof (i_order w Hi) as Ho. unfold ordered in Ho. destruct ring_bounds as (Hs & Hsc & _). pose proof (ok_capacity r Hok) as Hcap.
  pose proof (Hq Prod). pose proof (Hq Cons). set (d := tpos w Prod - tpos w Cons).
  assert (jring_count (ring w) = d) as Ec.
  { unfold jring_count. rewrite (i_ring w Hi). cbn. autorewrite with word. destruct Hok as [(k & Hk & Es) Em _ _ _ _].
    rewrite Em, Es, land_mask by lia. fold d. rewrite wrap_mod_pow2 by lia. rewrite <- Es, Z.mod_small by lia.
    by rewrite (proj2 (Z.ltb_ge _ _)) by lia. }
  assert (alen (items (abs w)) = d * sc) as Ei by (cbn; rewrite slice_len by (rewrite ?(i_hist w Hi); nia); unfold d; nia).
  split_and!.
  - by rewrite Ec, Ei.
  - unfold jring_empty. rewrite (i_ring w Hi). cbn [tail prod cons ring_at]. destruct (Z.eqb_spec (wrap 32 (tpos w Cons)) (wrap 32 (tpos w Prod))) as [E|E].
    + apply wrap_eq in E; [|lia]. symmetry. apply bool_decide_eq_true. unfold alen in Ei. apply length_zero_iff_nil. nia.
    + symmetry. apply bool_decide_eq_false. intros E'. rewrite E' in Ei. unfold alen in Ei. cbn in Ei. apply E. f_equal. nia.
  - unfold jring_full, jring_free_count. rewrite Ec, Ei. rewrite (i_ring w Hi). cbn [capacity ring_at].
    rewrite wrap_id by (unfold in_word; lia). rewrite Z.eqb_eq. split; nia.
Qed.
End ring.
End JringSpec.
