(* ===== verification/JringLive.v ===== *)
(** * The lock-free ring: results

    The theorems about the ring of [Jring.v], from the invariant of
    [JringSpec.v]: it is a queue ([jring_linearizable]), its calls return
    ([jring_calls_return]) and its copies are the obvious ones
    ([jring_copies]). *)

From S2P Require Import Prelude Jring JringSpec.

Module JringLive.
Import Jring JringSpec.

(** ** Sums over the calls under way *)

Definition total (f : thread -> nat) (m : gmap Z thread) : nat := sum_list_with (fun x => f x.2) (map_to_list m).

Lemma total_insert f m t x : m !! t = None -> total f (<[t := x]> m) = (f x + total f m)%nat.
Proof. intros E. unfold total. by rewrite map_to_list_insert. Qed.

Lemma ring_total_split f m t x : m !! t = Some x -> total f m = (f x + total f (delete t m))%nat.
Proof. intros E. rewrite <- (total_insert f _ t) by apply lookup_delete_eq. by rewrite insert_delete_id. Qed.

Lemma total_update f m t x x' : m !! t = Some x -> (total f (<[t := x']> m) + f x = total f m + f x')%nat.
Proof.
  intros E. rewrite (ring_total_split f m t x E). rewrite <- insert_delete_eq, total_insert by apply lookup_delete_eq. lia.
Qed.

Lemma total_mono k f g h m : (forall x, (f x <= g x + k * h x)%nat) -> (total f m <= total g m + k * total h m)%nat.
Proof.
  intros H. unfold total. induction (map_to_list m) as [|[t x] l IH]; cbn; [lia|]. specialize (H x). lia.
Qed.

(** ** Every call returns *)

Section live.
Context (r : jring) (Hok : ring_ok r).
Abbreviation sc := (scale r).

Definition entering (th : thread) : nat := match tpoint th with Owner _ _ _ _ _ _ => 0 | _ => 1 end.

(** The steps that a call needs at most if no other one takes the head. *)
Definition weight (h : role -> Z) (th : thread) : nat :=
  let b := (Z.to_nat (cnum (tcall th) * sc) + 3)%nat in
  match tpoint th with
  | AtHead => b + 5
  | AtTail _ at_ => if decide (at_ = h (crole (tcall th))) then b + 2 else b + 4
  | AtMove _ at_ _ _ => if decide (at_ = h (crole (tcall th))) then b + 1 else b + 3
  | Owner _ _ _ _ _ (Copying todo) => length todo + 3
  | Owner _ _ _ _ _ Waiting => 2
  | Owner _ _ _ _ _ Storing => 1
  end.

Definition potential (w : world) : nat :=
  total (weight (hpos w)) (threads w) + total entering (threads w) * total entering (threads w).

Lemma potential_goes w t th th' : threads w !! t = Some th -> (entering th' <= entering th)%nat ->
  (weight (hpos w) th' < weight (hpos w) th)%nat ->
  (total (weight (hpos w)) (<[t := th']> (threads w)) +
   total entering (<[t := th']> (threads w)) * total entering (<[t := th']> (threads w)) < potential w)%nat.
Proof.
  intros Et He Hw. unfold potential. pose proof (total_update (weight (hpos w)) _ t th th' Et).
  pose proof (total_update entering _ t th th' Et). nia.
Qed.

Lemma potential_leaves w t th : threads w !! t = Some th -> (0 < weight (hpos w) th)%nat ->
  (total (weight (hpos w)) (delete t (threads w)) + total entering (delete t (threads w)) * total entering (delete t (threads w))
   < potential w)%nat.
Proof.
  intros Et Hw. unfold potential. rewrite (ring_total_split (weight (hpos w)) _ t th Et), (ring_total_split entering _ t th Et). nia.
Qed.

Lemma potential_reserve w t th old at_ avail n : inv r w -> threads w !! t = Some th -> tpoint th = AtMove old at_ avail n ->
  at_ = hpos w (crole (tcall th)) -> (potential (reserve t th old avail n w) < potential w)%nat.
Proof.
  intros Hi Et Ep Eat. pose proof (i_thread r w Hi t th Et) as Ht. unfold thread_ok in Ht. rewrite Ep in Ht.
  destruct Ht as (_ & _ & Eold & _). subst old.
  destruct (reserve_facts r Hok w Hi t th at_ avail n Et Ep Eat) as (Hn & Ha & _ & _ & _ & _ & El & _).
  pose proof (answer_le _ _ Ha). destruct (ring_bounds r Hok) as (_ & Hsc & _). unfold potential. cbn.
  set (h' := upd _ _ _). set (th' := MkThread _ _ _).
  assert (forall x, (weight h' x <= weight (hpos w) x + 2 * entering x)%nat) as Hx.
  { intros x. unfold weight, entering. destruct (tpoint x); repeat case_decide; lia. }
  pose proof (total_mono 2 _ _ _ (delete t (threads w)) Hx) as Hm.
  rewrite <- (insert_delete_eq _ t th'), !total_insert by apply lookup_delete_eq.
  rewrite (ring_total_split (weight (hpos w)) _ t th Et), (ring_total_split entering _ t th Et).
  assert (entering th = 1%nat) as -> by (unfold entering; by rewrite Ep). change (entering th') with 0%nat.
  assert (weight (hpos w) th = (Z.to_nat (cnum (tcall th) * sc) + 3 + 1)%nat) as -> by (unfold weight; rewrite Ep; by rewrite decide_True).
  assert (weight h' th' = (Z.to_nat (n * sc) + 3)%nat) as -> by (unfold weight; cbn; unfold alen in El; lia).
  assert (Z.to_nat (n * sc) <= Z.to_nat (cnum (tcall th) * sc))%nat by (apply Z2Nat.inj_le; nia). nia.
Qed.

Lemma next_potential w t e w' : inv r w -> not_overtaken w -> next t w = Some (e, w') -> (potential w' < potential w)%nat.
Proof.
  intros Hi Hf. unfold next, load_tail, exchange_head, copy_word, jring_wait_until_equal_32, jring_update_tail. destruct (threads w !! t) as [th|] eqn:Et; [|done]. cbn [mbind option_bind].
  pose proof (Hfr := Hf t th Et). pose proof (i_thread r w Hi t th Et) as Ht. unfold thread_ok in Ht.
  destruct (tpoint th) as [|old at_|old at_ avail n|old new avail n from s] eqn:Ep.
  - intros [= <- <-]. apply (potential_goes w t th); [done|unfold entering; cbn; by rewrite Ep|]. unfold weight. cbn. rewrite Ep. rewrite decide_True by done. lia.
  - destruct (move_head _ _ _ _ _ _) as [avail n]. destruct (n =? 0); intros [= <- <-].
    + apply (potential_leaves w t th Et). unfold weight. rewrite Ep. case_decide; lia.
    + apply (potential_goes w t th); [done|unfold entering; cbn; by rewrite Ep|]. unfold weight. cbn. rewrite Ep. case_decide; lia.
  - destruct Ht as (_ & _ & Eo & Hat & Hsg & _). destruct (csingle (tcall th)) eqn:Es.
    { intros [= <- <-]. apply (potential_reserve w t th old at_); try done. by apply Hsg. }
    destruct (Z.eqb_spec (head (side (crole (tcall th)) (ring w))) old) as [E|E]; intros [= <- <-].
    + apply (potential_reserve w t th old at_); try done. rewrite (i_ring r w Hi), side_at, Eo in E. cbn in E, Hfr.
      apply wrap_eq; [lia|done].
    + apply (potential_goes w t th); [done|unfold entering; cbn; by rewrite Ep|]. unfold weight. cbn. rewrite Ep.
      case_decide; [|done]. case_decide as Ea; [|lia]. exfalso. apply E.
      by rewrite (i_ring r w Hi), side_at, Eo, Ea.
  - destruct s as [[|[a b] todo]| |].
    + intros [= <- <-]. apply (potential_goes w t th); [done|unfold entering; cbn; by rewrite Ep|]. unfold weight. cbn. rewrite Ep.
      destruct (csingle _); lia.
    + destruct (crole (tcall th)).
      * destruct (aget (tobj th) b); [|done]. intros [= <- <-].
        apply (potential_goes w t th); [done|unfold entering; cbn; by rewrite Ep|]. unfold weight. cbn. rewrite Ep. cbn. lia.
      * destruct (aget (buf w) a); [|done]. intros [= <- <-].
        apply (potential_goes w t th); [done|unfold entering; cbn; by rewrite Ep|]. unfold weight. cbn. rewrite Ep. cbn. lia.
    + destruct (_ =? _); [|done]. intros [= <- <-]. apply (potential_goes w t th); [done|unfold entering; cbn; by rewrite Ep|].
      unfold weight. cbn. rewrite Ep. lia.
    + intros [= <- <-]. apply (potential_leaves w t th Et). unfold weight. rewrite Ep. lia.
Qed.

(** A call that has its slots can go on, unless earlier ones are under way. *)
Lemma owner_goes_on w t th old new avail n from s : inv r w -> threads w !! t = Some th -> tpoint th = Owner old new avail n from s ->
  from = tpos w (crole (tcall th)) \/ s <> Waiting -> is_Some (next t w).
Proof.
  intros Hi Et Ep Hs. unfold next, load_tail, exchange_head, copy_word, jring_wait_until_equal_32, jring_update_tail. rewrite Et. cbn [mbind option_bind]. rewrite Ep. destruct s as [[|[a b] todo]| |]; [done| | |done].
  - destruct (copying_facts r Hok w t th _ _ _ _ _ _ _ _ Hi Et Ep) as (Hd & Ea & Eb & _ & Hl & Hp). destruct (ring_bounds r Hok) as (Hsz & Hsc & _).
    destruct (crole (tcall th)).
    + destruct (aget_is_Some (tobj th) b) as [x ->]; [lia|done].
    + destruct (aget_is_Some (buf w) a) as [x ->]; [|done]. rewrite (i_buf r w Hi), Ea. apply Z.mod_pos_bound. nia.
  - destruct Hs as [Hs|]; [|done]. pose proof (i_thread r w Hi t th Et) as Ht. unfold thread_ok in Ht. rewrite Ep in Ht.
    destruct Ht as (_ & _ & Eo & _). rewrite (i_ring r w Hi), side_at, Eo, Hs. cbn. by rewrite Z.eqb_refl.
Qed.

Lemma someone_goes_on w t th : inv r w -> threads w !! t = Some th -> exists t', is_Some (next t' w).
Proof.
  intros Hi Et. destruct (tpoint th) as [|old at_|old at_ avail n|old new avail n from s] eqn:Ep.
  - exists t. unfold next, load_tail, exchange_head, copy_word, jring_wait_until_equal_32, jring_update_tail. rewrite Et. cbn [mbind option_bind]. by rewrite Ep.
  - exists t. unfold next, load_tail, exchange_head, copy_word, jring_wait_until_equal_32, jring_update_tail. rewrite Et. cbn [mbind option_bind]. rewrite Ep. destruct (move_head _ _ _ _ _ _) as [avail n]. by destruct (n =? 0).
  - exists t. unfold next, load_tail, exchange_head, copy_word, jring_wait_until_equal_32, jring_update_tail. rewrite Et. cbn [mbind option_bind]. rewrite Ep. destruct (csingle _); [done|]. by destruct (_ =? _).
  - assert (owner w t = Some (crole (tcall th), from, n, match crole (tcall th) with Prod => alen (todo_of s) | Cons => 0 end)) as Eo.
    { unfold owner, own. rewrite Et. cbn. by rewrite Ep. }
    pose proof (owner_ok r w _ _ _ _ _ Hi Eo) as Hf.
    destruct (i_cover r w Hi (crole (tcall th)) (tpos w (crole (tcall th))) ltac:(lia)) as (t' & f & m & l & Eo' & Hp).
    pose proof (owner_ok r w _ _ _ _ _ Hi Eo') as Hf'. exists t'. unfold owner in Eo'.
    destruct (threads w !! t') as [th'|] eqn:Et'; [|done]. cbn in Eo'. unfold own in Eo'.
    destruct (tpoint th') as [| | |old' new' avail' n' from' s'] eqn:Ep'; try done. injection Eo' as Er <- <- _.
    apply (owner_goes_on w t' th' old' new' avail' n' from' s' Hi Et' Ep'). left. rewrite Er. lia.
Qed.
End live.

(** ** What [jring_init] accepts *)

Lemma power_of_two x : 0 < x < 2 ^ 32 -> ISPOWEROF2 x = true -> exists k, 0 <= k < 32 /\ x = 2 ^ k.
Proof.
  intros Hx. unfold ISPOWEROF2. rewrite wrap_id by (unfold in_word; lia). intros [E _]%andb_prop. apply Z.eqb_eq in E.
  exists (Z.log2 x). pose proof (Z.log2_nonneg x) as Hk. pose proof (Z.log2_spec x ltac:(lia)) as Hl. unfold Z.succ in Hl. split.
  { split; [done|]. apply Z.log2_lt_pow2; lia. }
  destruct (decide (x = 2 ^ Z.log2 x)) as [|Hne]; [done|]. exfalso.
  assert (Z.testbit (Z.land (x - 1) x) (Z.log2 x) = true) as Hb.
  { rewrite Z.land_spec, Z.bit_log2 by lia. rewrite andb_true_r. rewrite <- (Z.log2_unique (x - 1) (Z.log2 x)) at 1 by (unfold Z.succ; lia).
    apply Z.bit_log2. lia. }
  by rewrite E, Z.bits_0 in Hb.
Qed.

Record created (count element_size : Z) (mp mc : bool) (r : jring) : Prop := {
  made : jring_init count element_size mp mc = Some r;
  made_count : 0 < count <= RING_SZ_MASK;
  made_size : 0 < element_size;
  made_bytes : count * element_size < 2 ^ 32;
}.

Lemma created_ok count element_size mp mc r : created count element_size mp mc r ->
  ring_ok r /\ size r = count /\ scale r = element_size / 4 /\
  prod r = MkHeadtail 0 0 (sync (prod r)) /\ cons r = MkHeadtail 0 0 (sync (cons r)) /\
  element_size mod 4 = 0 /\ ISPOWEROF2 count = true.
Proof.
  intros [E Hc He Hb]. unfold jring_init in E. unfold RING_SZ_MASK in Hc. destruct (ISPOWEROF2 count) eqn:Ep; [|done].
  destruct (Z.eqb_spec (element_size mod 4) 0) as [Em|]; [|done]. cbn in E. injection E as <-. split_and!; try done. split; try done.
  destruct (power_of_two count ltac:(lia) Ep) as (k & Hk & Ek). exists k. split; [|done]. split; [lia|].
  apply Z.lt_succ_r. apply (Z.pow_lt_mono_r_iff 2); [lia..|]. change (2 ^ Z.succ 28) with 536870912. lia.
Qed.

(** ** Results *)


(** The steps of the calls under way, without new ones. *)
Definition goes_on (w w' : world) : Prop := (exists t e, next t w = Some (e, w')) /\ not_overtaken w'.

(** C17: The calls under way all return: without new calls there is a bound on the
    steps that are left, in any order, and as long as a call has not returned
    some thread has a step. *)
Theorem jring_calls_return (count element_size : Z) (mp mc : bool) (r : jring) (slots : list Z) (es : list event) (w : world) :
  created count element_size mp mc r -> alen slots = count * (element_size / 4) -> run (init r slots) es w ->
  exists bound, forall n w', nsteps goes_on n w w' -> (n <= bound)%nat /\ (threads w' = ∅ \/ exists t, is_Some (next t w')).
Proof.
  intros Hc Hs Hr. destruct (created_ok _ _ _ _ _ Hc) as (Hok & Es & Esc & Ep & Ec & _). rewrite <- Es, <- Esc in Hs.
  destruct (ring_run_inv r Hok slots es w Ep Ec Hs Hr) as (Hi & Hf & _). exists (potential r w). intros n w' Hn.
  assert (inv r w' /\ (n + potential r w' <= potential r w)%nat) as [Hi' Hp].
  { clear Hr. revert Hi Hf. induction Hn as [w|n w w1 w' [(t & e & E) Hf1] _ IH]; intros Hi Hf; [split; [done|lia]|].
    destruct (next_sim r Hok w t e w1 Hi Hf E) as [Hi1 _]. destruct (IH Hi1 Hf1). split; [done|].
    pose proof (next_potential r Hok w t e w1 Hi Hf E). lia. }
  split; [lia|]. destruct (map_choose_or_empty (threads w')) as [(t & th & E)|]; [right|by left].
  by apply (someone_goes_on r Hok w' t th).
Qed.

Lemma align_up_ge x : 0 < x < 2 ^ 63 -> x <= ALIGN_UP_POW2 x 64.
Proof.
  intros Hx. unfold ALIGN_UP_POW2. rewrite (wrap_id 64 (x - 1)) by (unfold in_word; lia). pose proof (Z.add_lor_land (x - 1) (64 - 1)) as E.
  assert (0 <= Z.land (x - 1) (64 - 1) < 64) as Hl by (change (64 - 1) with (2 ^ 6 - 1); rewrite land_mask by lia; apply Z.mod_pos_bound; lia).
  rewrite wrap_id by (unfold in_word; lia). lia.
Qed.

(** The unrolled copies of 4, 8 and 16 bytes, with their wrap around the end
    of the ring, move word [k] of the elements at a position to the [k]-th word
    after it, modulo the ring, and back; all of them lie in the memory whose size
    [jring_get_buf_ring_size] returns. *)
Theorem jring_copies (count element_size : Z) (mp mc : bool) (r : jring) (ρ : role) (pos n : Z) :
  created count element_size mp mc r -> 0 <= n <= count ->
  jring_elems ρ r (wrap 32 pos) n =
    map (fun k => ((pos * (element_size / 4) + k) mod (count * (element_size / 4)), k)) (seqZ 0 (n * (element_size / 4))) /\
  forall a b, (a, b) ∈ jring_elems ρ r (wrap 32 pos) n ->
    sizeof_jring <= sizeof_jring + 4 * a /\ sizeof_jring + 4 * a + 4 <= jring_get_buf_ring_size element_size count.
Proof.
  intros Hc Hn. destruct (created_ok _ _ _ _ _ Hc) as (Hok & Es & Esc & _ & _ & Em & Ep). destruct Hc as [_ Hcnt He Hb].
  destruct (ring_bounds r Hok) as (Hsz & Hscp & Ees & _). rewrite <- Es, <- Esc. rewrite <- Es in Hn. split; [by apply jring_elems_eq|].
  rewrite jring_elems_eq by done. intros a b (k & [= -> ->] & Hk)%list_elem_of_fmap.
  pose proof (Z.mod_pos_bound (pos * scale r + k) (size r * scale r) ltac:(nia)) as Hm.
  assert (element_size = 4 * scale r) as E4 by (rewrite Esc; apply Z.div_exact; [lia|done]).
  unfold jring_get_buf_ring_size. rewrite Em, Es, Ep. cbn [negb Z.eqb orb]. rewrite (proj2 (Z.ltb_ge RING_SZ_MASK count)) by lia.
  rewrite wrap_id by (unfold in_word; nia). unfold CACHE_LINE_SIZE.
  pose proof (align_up_ge (sizeof_jring + count * element_size) ltac:(unfold sizeof_jring; nia)). rewrite Es in Hm.
  assert (count * element_size = 4 * (count * scale r)) by nia. lia.
Qed.

(** ** A run

    Two producers and a consumer on a ring of four elements of two words. *)

Module Example.

Inductive act := Start (t : Z) (c : call) (obj : list Z) | Go (t : Z).

Definition fresh (w : world) : bool :=
  forallb (fun x => match tpoint x.2 with
                    | AtTail _ at_ | AtMove _ at_ _ _ => hpos w (crole (tcall x.2)) - at_ <? 2 ^ 31
                    | _ => true
                    end) (map_to_list (threads w)).

Definition can_start (t : Z) (c : call) (obj : list Z) (w : world) : bool :=
  bool_decide (threads w !! t = None) && bool_decide (0 <= cnum c < 2 ^ 32) && bool_decide (cnum c * scale (ring w) <= alen obj) &&
  forallb (fun x => negb (bool_decide (crole (tcall x.2) = crole c)) || negb (csingle c) && negb (csingle (tcall x.2)))
    (map_to_list (threads w)).

Definition act_step (a : act) (w : world) : option (event * world) :=
  x ← match a with
      | Start t c obj =>
          if can_start t c obj w
          then Some (Silent, MkWorld (ring w) (buf w) (<[t := MkThread c obj AtHead]> (threads w)) (hpos w) (tpos w) (hist w))
          else None
      | Go t => next t w
      end;
  if fresh x.2 then Some x else None.

Definition play1 (o : option (list event * world)) (a : act) : option (list event * world) :=
  '(es, w) ← o; '(e, w) ← act_step a w; Some (es ++ [e], w).
Definition plays (l : list act) (w : world) : option (list event * world) := foldl play1 (Some ([], w)) l.

Lemma fresh_ok w : fresh w = true -> not_overtaken w.
Proof.
  intros H t th E. unfold fresh in H. rewrite forallb_forall in H. specialize (H (t, th)).
  rewrite <- list_elem_of_In, elem_of_map_to_list in H. specialize (H E). cbn in H. destruct (tpoint th); try done; lia.
Qed.

Lemma act_step_ok a w e w' : act_step a w = Some (e, w') -> step w e w' /\ not_overtaken w'.
Proof.
  unfold act_step. destruct a as [t c obj|t].
  - destruct (can_start t c obj w) eqn:Ec; [|done]. cbn. destruct (fresh _) eqn:Ef; [|done]. intros [= <- <-].
    split; [|by apply fresh_ok]. unfold can_start in Ec. rewrite !andb_true_iff, !bool_decide_eq_true in Ec.
    destruct Ec as [[[E Hn] Hl] Hs]. constructor; [done|]. split_and!; [lia|lia|done|]. intros t' th' E' Er. rewrite forallb_forall in Hs.
    specialize (Hs (t', th')). rewrite <- list_elem_of_In, elem_of_map_to_list in Hs. specialize (Hs E'). cbn in Hs.
    rewrite bool_decide_true in Hs by done. cbn in Hs. by destruct (csingle c), (csingle (tcall th')).
  - destruct (next t w) as [[e1 w1]|] eqn:En; [|done]. cbn. destruct (fresh w1) eqn:Ef; [|done]. intros [= <- <-].
    split; [by eapply step_next|by apply fresh_ok].
Qed.

Lemma plays_run l w es w' : plays l w = Some (es, w') -> run w es w'.
Proof.
  revert es w'. induction l as [|a l IH] using rev_ind; intros es w'; [intros [= <- <-]; constructor|].
  unfold plays in *. rewrite foldl_app. cbn. destruct (foldl _ _ _) as [[es1 w1]|]; [|done]. cbn.
  destruct (act_step a w1) as [[e w2]|] eqn:E; [|done]. cbn. intros [= <- <-]. destruct (act_step_ok a w1 e w2 E).
  econstructor; [by apply IH|done..].
Qed.

Definition r4 : jring := MkRing 4 3 3 8 (MkHeadtail 0 0 JRING_SYNC_MT) (MkHeadtail 0 0 JRING_SYNC_MT).

(** Producers 1 and 2 race for the head; 2 publishes last; consumer 3 takes all. *)
Definition acts : list act :=
  [Start 1 (jring_mp_enqueue_bulk 1) [11; 12]; Start 2 (jring_mp_enqueue_burst 4) [21; 22; 23; 24; 25; 26; 27; 28]; Go 1; Go 2; Go 1; Go 2;
   Go 1; Go 2; Go 2; Go 1; Go 2; Go 2; Go 2; Go 2; Go 2; Go 1; Go 2; Go 1; Go 1; Go 1; Go 2; Go 2] ++
  Start 3 (jring_sc_dequeue_bulk 3) [0; 0; 0; 0; 0; 0] :: replicate 11 (Go 3).

Lemma r4_created : created 4 8 true true r4.
Proof. by split. Qed.

Definition played (l : list act) : list event * world := default ([], init r4 []) (plays l (init r4 [0; 0; 0; 0; 0; 0; 0; 0])).


(** In the middle of the run, with both producers under way. *)
Lemma jring_calls_return_witness : exists bound, forall n w', nsteps goes_on n (snd (played (take 14 acts))) w' ->
  (n <= bound)%nat /\ (threads w' = ∅ \/ exists t, is_Some (next t w')).
Proof.
  apply (jring_calls_return 4 8 true true r4 [0; 0; 0; 0; 0; 0; 0; 0] (fst (played (take 14 acts))) (snd (played (take 14 acts))) r4_created);
    [reflexivity|apply (plays_run (take 14 acts)); vm_compute; reflexivity].
Defined.

Lemma jring_copies_witness : jring_elems Cons r4 (wrap 32 (2 ^ 32 + 3)) 2 = [(6, 0); (7, 1); (0, 2); (1, 3)].
Proof. exact (proj1 (jring_copies 4 8 true true r4 Cons (2 ^ 32 + 3) 2 r4_created ltac:(lia))). Defined.
End Example.
End JringLive.
