(* ===== verification/Executor.v ===== *)
(** * The executor of collectives

    [experimental/ukernel/src/ccl/executor.cc] and [executor.h]: the executor turns
    the tiled operations of a collective into a plan (successors in compressed
    rows, numbers of dependencies, groups of fused signals), keeps plans in a cache
    and schedules the operations of a run.  An enqueue thread takes ready
    operations from a ring, chooses a path for each and hands it to the device,
    transport or signal backend, which may refuse it; drain threads take completed
    operations, count them, and put the successors that have become ready on the
    ring.

    A run is the state that these threads share together with where each of them
    is; every atomic access is a step, and the steps interleave.  The ready ring is
    the queue that [JringLive.v] shows it to be.  Backends are free: they accept or
    refuse what they are offered and complete what they accepted in any order. *)

From S2P Require Import Prelude ChunkGraph Lower Collective Jring.

Module Executor.
Import ChunkGraph Lower.

(** ** Plans *)

Record CollPlan := MkPlan {
  tiled : TiledResult;
  nops : Z;
  successor_off : list Z;
  successor_data : list Z;
  indegree_init : list Z;
  initial_ready : list Z;
  put_to_sig : list Z;
  psig_group_size : list Z;
  pwait_group_size : list Z;
}.

(** [++l[i]] in an array of 32-bit words. *)
Definition incr (l : list Z) (i : Z) : list Z := aset l i (at_ l i +[32] 1).

Definition indexed {A} (l : list A) : list (Z * A) := imap (fun i x => (Z.of_nat i, x)) l.

Definition succ_count (os : list TiledOp) : list Z :=
  foldl (fun counts o => foldl incr counts (tdeps o)) (replicate (length os) 0) os.

Fixpoint offsets (off : Z) (counts : list Z) : list Z :=
  match counts with
  | [] => [off]
  | c :: counts => off :: offsets (off +[32] c) counts
  end.

(** [successor_data[pos[dep]++] = i]. *)
Definition place (i : Z) (st : list Z * list Z) (dep : Z) : list Z * list Z :=
  let '(pos, data) := st in (incr pos dep, aset data (at_ pos dep) i).

Definition fill_successors (os : list TiledOp) (off : list Z) (data : list Z) : list Z :=
  (foldl (fun st '(i, o) => foldl (place i) st (tdeps o)) (off, data) (indexed os)).2.

Definition no_deps (os : list TiledOp) : list Z :=
  map fst (filter (fun x => tdeps x.2 = []) (indexed os)).

Definition fusion_array (n : nat) (init : Z) (cut : Z -> Z) (l : list (Z * Z)) : list Z :=
  foldl (fun a x => aset a x.1 (cut x.2)) (replicate n init) l.

Definition plan_of_tiled (t : TiledResult) : CollPlan :=
  let n := length (ops t) in
  let off := offsets 0 (succ_count (ops t)) in
  let data := replicate (Z.to_nat (at_ off (alen (ops t)))) 0 in
  MkPlan t (alen (ops t)) off (fill_successors (ops t) off data)
    (map (fun o => wrap 32 (alen (tdeps o))) (ops t)) (no_deps (ops t))
    (fusion_array n (-1) (signed 32) (map (fun x => (x.2, x.1)) (fused_put_signal t)))
    (fusion_array n 0 (wrap 16) (sig_group_size t)) (fusion_array n 0 (wrap 16) (wait_group_size t)).

Definition build_plan (c : CollectiveConfig) (inplace : bool) : planned CollPlan :=
  t ← build_tiled c inplace; Planned (plan_of_tiled t).

(** ** The cache of plans *)

Definition kind_word (k : CollKind) : Z := match k with AllReduceRing => 0 | AllToAllPairwise => 1 end.
Definition dtype_word (d : ScalarType) : Z :=
  match d with
  | UInt8 => 0 | Int8 => 1 | Int16 => 2 | Int32 => 3 | Int64 => 4
  | Float16 => 5 | Float32 => 6 | Float64 => 7 | BFloat16 => 8 | Bool => 9
  end.
Definition reduction_word (r : ReductionKind) : Z :=
  match r with RNone => 0 | Sum => 1 | Prod => 2 | Max => 3 | Min => 4 | BitwiseAnd => 5 end.

(** The key, as the 64-bit words that are appended to it. *)
Definition plan_key (c : CollectiveConfig) (inplace : bool) : list Z :=
  [kind_word (kind c); wrap 64 (nranks c); wrap 64 (rank c); input_bytes c; output_bytes c; tile_bytes c;
   dtype_word (dtype c); reduction_word (reduction c); signal_group_tiles c; if inplace then 1 else 0;
   alen (input_split_bytes c)] ++ input_split_bytes c ++ [alen (output_split_bytes c)] ++ output_split_bytes c.

Definition kMaxCachedPlans : Z := 64.

(** The plan of a configuration, from the cache or built and put there. *)
Definition cached_plan (c : CollectiveConfig) (inplace : bool) (cache : gmap (list Z) CollPlan) :
    planned (CollPlan * gmap (list Z) CollPlan) :=
  match cache !! plan_key c inplace with
  | Some p => Planned (p, cache)
  | None =>
      let cache := if kMaxCachedPlans <=? Z.of_nat (size cache) then ∅ else cache in
      p ← build_plan c inplace; Planned (p, <[plan_key c inplace := p]> cache)
  end.

(** ** Paths and their metrics *)

Inductive PutPath := Device | Ipc | Rdma | PathNone.

#[export] Instance PutPath_eq_dec : EqDecision PutPath.
Proof. solve_decision. Defined.

Record PathMetrics := MkMetrics { minflight : Z; latency_ns : Z }.
Record PeerMetrics := MkPeer { mdevice : PathMetrics; mipc : PathMetrics; mrdma : PathMetrics }.

Definition path_of (p : PutPath) (m : PeerMetrics) : PathMetrics :=
  match p with Device => mdevice m | Ipc => mipc m | Rdma | PathNone => mrdma m end.
Definition on_path (p : PutPath) (f : PathMetrics -> PathMetrics) (m : PeerMetrics) : PeerMetrics :=
  match p with
  | Device => MkPeer (f (mdevice m)) (mipc m) (mrdma m)
  | Ipc => MkPeer (mdevice m) (f (mipc m)) (mrdma m)
  | Rdma => MkPeer (mdevice m) (mipc m) (f (mrdma m))
  | PathNone => m
  end.
Definition charge (x : Z) (m : PathMetrics) : PathMetrics := MkMetrics (minflight m +[32] x) (latency_ns m).

(** [tpt_metrics_], one entry per peer; empty when there is none. *)
Definition metrics := list PeerMetrics.
Definition on_peer (peer : Z) (f : PeerMetrics -> PeerMetrics) (ms : metrics) : metrics :=
  match aget ms peer with Some m => aset ms peer (f m) | None => ms end.
Definition in_range (peer : Z) (ms : metrics) : bool := (0 <=? peer) && (peer <? alen ms).

(** What the environment decides: whether a peer is on this host, a path forced by
    an environment variable, the limit of the BAR1 window (0 if unset), whether
    there is a communicator and which channels can carry a signal with a put. *)
Record env := MkEnv {
  same_host : Z -> bool;
  forced : PutPath;
  bar1_bytes : Z;
  has_comm : bool;
  device_fuses : Z -> bool;
  comm_fuses : Z -> PutPath -> bool;
}.

Section paths.
Context (e : env).

Definition path_cost (p : PutPath) (m : PeerMetrics) : Z :=
  wrap 64 (minflight (path_of p m) * latency_ns (path_of p m)).

Definition cheapest (m : PeerMetrics) : PutPath :=
  let dc := path_cost Device m in
  let ic := path_cost Ipc m in
  let rc := path_cost Rdma m in
  if (ic <=? dc) && (ic <=? rc) then Ipc else if dc <=? rc then Device else Rdma.

Definition pick_put_path (peer : Z) (ms : metrics) : PutPath * metrics :=
  if negb (in_range peer ms) then (Device, ms)
  else
    let p :=
      if negb (bool_decide (forced e = PathNone)) && same_host e peer then forced e
      else if negb (same_host e peer) then Rdma
      else match aget ms peer with Some m => cheapest m | None => Device end in
    (p, on_peer peer (on_path p (charge 1)) ms).

Definition release_put_inflight (peer : Z) (p : PutPath) (ms : metrics) : metrics :=
  if in_range peer ms then on_peer peer (on_path p (charge (-1))) ms else ms.

Definition update_path_metrics (sample : Z) (m : PathMetrics) : PathMetrics :=
  MkMetrics (minflight m -[32] 1) (wrap 64 (latency_ns m * 7 + sample) / 8).

Definition reroute (peer : Z) (ms : metrics) : metrics :=
  on_peer peer (fun m => on_path Ipc (charge 1) (on_path Device (charge (-1)) m)) ms.
End paths.

(** ** Commands *)

Inductive backend := Dev | Tpt | Sig.

(** A command with what the enqueue thread decides about it. *)
Record dispatch := MkDispatch {
  didx : Z;
  dcmd : Collective.Collective.Cmd;
  dpath : PutPath;
  dfused : bool;
  dtag : Z;
  dwait : Z;
}.

Definition is_put (k : ExecOpKind) : bool := bool_decide (k = EPut).
Definition remote (c : Collective.Collective.Cmd) : bool :=
  is_put (Collective.Collective.ckind c) && negb (Collective.Collective.cdst_peer c =? 0xFFFFFFFF).

Section route.
Context (e : env) (p : CollPlan) (inplace : bool).

(** The path of a remote put; a device write beyond the window goes by IPC. *)
Definition choose_path (c : Collective.Collective.Cmd) (ms : metrics) : PutPath * metrics :=
  let peer := signed 32 (Collective.Collective.cdst_peer c) in
  let '(path, ms) := pick_put_path e peer ms in
  if bool_decide (path = Device) && (0 <? bar1_bytes e) &&
     (bar1_bytes e <? Collective.Collective.cdst_off c +[32] Collective.Collective.cbytes c)
  then (Ipc, reroute (Collective.Collective.cdst_peer c) ms) else (path, ms).

(** Whether the put carries the signal of its group; a group on this host that the
    device cannot fuse goes by IPC. *)
Definition choose_fusion (idx : Z) (c : Collective.Collective.Cmd) (path : PutPath) (ms : metrics) : bool * PutPath * metrics :=
  let sig := default (-1) (aget (put_to_sig p) idx) in
  if negb (has_comm e) || bool_decide (put_to_sig p = []) || (sig <? 0) then (false, path, ms)
  else
    let peer := signed 32 (Collective.Collective.cdst_peer c) in
    let grp := at_ (psig_group_size p) sig in
    let dev := bool_decide (path = Device) && device_fuses e peer in
    let '(path, ms) :=
      if bool_decide (path = Device) && negb dev && (1 <? grp) && same_host e peer
      then (Ipc, reroute (Collective.Collective.cdst_peer c) ms) else (path, ms) in
    let fuse := dev || negb (bool_decide (path = Device)) && comm_fuses e peer (if decide (path = Rdma) then Rdma else Ipc) in
    (fuse, path, ms).

Definition wait_count (idx : Z) (c : Collective.Collective.Cmd) : Z :=
  let n := at_ (pwait_group_size p) idx in
  let peer := signed 32 (Collective.Collective.csrc_peer c) in
  if bool_decide (Collective.Collective.ckind c = WaitSignal) && has_comm e && (1 <? n) &&
     (comm_fuses e peer Ipc || comm_fuses e peer Rdma)
  then n else 0.

Definition route (idx : Z) (o : TiledOp) (ms : metrics) : dispatch * metrics :=
  let c := Collective.Collective.make_cmd inplace o in
  if remote c then
    let '(path, ms) := choose_path c ms in
    let '(fuse, path, ms) := choose_fusion idx c path ms in
    let tag := if fuse : bool
               then match aget (ops (tiled p)) (default (-1) (aget (put_to_sig p) idx)) with Some s => ttag s | None => 0 end
               else Collective.Collective.ctag c in
    (MkDispatch idx c path fuse tag 0, ms)
  else (MkDispatch idx c PathNone false (Collective.Collective.ctag c) (wait_count idx c), ms).
End route.

(** ** A run *)

Inductive CollectiveOpStatus := Queued | Running | Completed | Failed.

#[export] Instance status_eq_dec : EqDecision CollectiveOpStatus.
Proof. solve_decision. Defined.

Definition kIndegreeDone : Z := 0xFFFFFFFF.

(** Where the completion of an operation is being processed: by a drain thread
    ([drain_batch]) or by the enqueue thread ([complete_op_local]). *)
Inductive jpoint :=
| JLoad                 (* load of the indegree *)
| JCount                (* [done_count.fetch_add] *)
| JCallback             (* the metrics of the path *)
| JRelease (j : Z)      (* the loop over the successors *)
| JPush (succ j : Z)    (* [push_ready] of one that is ready *)
| JStore                (* [kIndegreeDone] is stored *)
| JStatus               (* [finalize_run]: load of the status *)
| JDone                 (* load of [done_count] *)
| JSwap.                (* exchange of the status *)

Record job := MkJob { jop : Z; jfrom : backend; jpath : PutPath; jpoint_ : jpoint }.

(** Where the enqueue thread is in [collect_ready] and [enqueue_to_ring]. *)
Inductive ephase :=
| Collecting (ready : list Z)
| Processing (todo : list Z) (dev tpt : list dispatch)
| Completing (j : job) (todo : list Z) (dev tpt : list dispatch)
| SubmitDev (dev tpt : list dispatch)
| SubmitTpt (tpt : list dispatch).

(** The members of [SprayRun], the enqueue thread, the operations that the backends
    have accepted and the jobs of the drain threads. *)
Record run := MkRun {
  status : CollectiveOpStatus;
  done_count : Z;
  submitted : list bool;
  ready_ring : list Z;
  deferred_dev : list Z;
  deferred_tpt : list Z;
  deferred_sig : list Z;
  indegree : list Z;
  fused_sig_cnt : list Z;
  enq : ephase;
  accepted : list (backend * Z * PutPath);
  jobs : list job;
}.

(** [submit] for a plan with operations. *)
Definition submit (p : CollPlan) : run :=
  MkRun Running 0 (replicate (Z.to_nat (nops p)) false) (initial_ready p) [] [] [] (indegree_init p)
    (replicate (Z.to_nat (nops p)) 0) (Collecting []) [] [].

Definition with_enq (x : ephase) (r : run) : run :=
  MkRun (status r) (done_count r) (submitted r) (ready_ring r) (deferred_dev r) (deferred_tpt r) (deferred_sig r)
    (indegree r) (fused_sig_cnt r) x (accepted r) (jobs r).
Definition with_ring (l : list Z) (r : run) : run :=
  MkRun (status r) (done_count r) (submitted r) l (deferred_dev r) (deferred_tpt r) (deferred_sig r)
    (indegree r) (fused_sig_cnt r) (enq r) (accepted r) (jobs r).
Definition with_deferred (dev tpt sig : list Z) (r : run) : run :=
  MkRun (status r) (done_count r) (submitted r) (ready_ring r) dev tpt sig
    (indegree r) (fused_sig_cnt r) (enq r) (accepted r) (jobs r).
Definition with_submitted (idx : Z) (r : run) : run :=
  MkRun (status r) (done_count r) (aset (submitted r) idx true) (ready_ring r) (deferred_dev r) (deferred_tpt r) (deferred_sig r)
    (indegree r) (fused_sig_cnt r) (enq r) (accepted r) (jobs r).
Definition with_accepted (l : list (backend * Z * PutPath)) (r : run) : run :=
  MkRun (status r) (done_count r) (submitted r) (ready_ring r) (deferred_dev r) (deferred_tpt r) (deferred_sig r)
    (indegree r) (fused_sig_cnt r) (enq r) l (jobs r).
Definition with_fused (l : list Z) (r : run) : run :=
  MkRun (status r) (done_count r) (submitted r) (ready_ring r) (deferred_dev r) (deferred_tpt r) (deferred_sig r)
    (indegree r) l (enq r) (accepted r) (jobs r).
Definition with_jobs (l : list job) (r : run) : run :=
  MkRun (status r) (done_count r) (submitted r) (ready_ring r) (deferred_dev r) (deferred_tpt r) (deferred_sig r)
    (indegree r) (fused_sig_cnt r) (enq r) (accepted r) l.
Definition with_indegree (l : list Z) (r : run) : run :=
  MkRun (status r) (done_count r) (submitted r) (ready_ring r) (deferred_dev r) (deferred_tpt r) (deferred_sig r)
    l (fused_sig_cnt r) (enq r) (accepted r) (jobs r).
Definition with_count (n : Z) (r : run) : run :=
  MkRun (status r) n (submitted r) (ready_ring r) (deferred_dev r) (deferred_tpt r) (deferred_sig r)
    (indegree r) (fused_sig_cnt r) (enq r) (accepted r) (jobs r).
Definition with_status (s : CollectiveOpStatus) (r : run) : run :=
  MkRun s (done_count r) (submitted r) (ready_ring r) (deferred_dev r) (deferred_tpt r) (deferred_sig r)
    (indegree r) (fused_sig_cnt r) (enq r) (accepted r) (jobs r).

(** What can be seen of a step: an operation handed to a backend or completed
    locally, an operation counted as done, the run completed. *)
Inductive event := Silent | Started (idx : Z) | Counted (idx : Z) | Finalized.

Section steps.
Context (e : env) (p : CollPlan) (inplace : bool).

Definition goes (j : job) (q : jpoint) : job := MkJob (jop j) (jfrom j) (jpath j) q.

(** The callback of [drain_batch]; the enqueue thread has none. *)
Definition callback (j : job) (sample : Z) (ms : metrics) : metrics :=
  match aget (ops (tiled p)) (jop j) with
  | None => ms
  | Some o =>
      let peer := signed 32 (tdst_peer o) in
      match jfrom j with
      | Dev =>
          if is_put (tkind o) && negb (tdst_peer o =? 0xFFFFFFFF) && in_range peer ms
          then on_peer peer (on_path Device (update_path_metrics sample)) ms else ms
      | Tpt =>
          if negb (bool_decide (jpath j = PathNone)) && in_range peer ms
          then on_peer peer (on_path (if decide (jpath j = Ipc) then Ipc else Rdma) (update_path_metrics sample)) ms else ms
      | Sig => ms
      end
  end.

(** A step of the processing of a completion; [None] is its end. *)
Definition job_step (j : job) (sample : Z) (r : run) (ms : metrics) : event * option job * run * metrics :=
  let d := jop j in
  match jpoint_ j with
  | JLoad => if at_ (indegree r) d =? kIndegreeDone then (Silent, None, r, ms) else (Silent, Some (goes j JCount), r, ms)
  | JCount => (Counted d, Some (goes j JCallback), with_count (done_count r + 1) r, ms)
  | JCallback => (Silent, Some (goes j (JRelease (at_ (successor_off p) d))), r, callback j sample ms)
  | JRelease k =>
      if k <? at_ (successor_off p) (d + 1) then
        let succ := at_ (successor_data p) k in
        let old := at_ (indegree r) succ in
        (Silent, Some (goes j (if old =? 1 then JPush succ (k + 1) else JRelease (k + 1))),
         with_indegree (aset (indegree r) succ (old -[32] 1)) r, ms)
      else (Silent, Some (goes j JStore), r, ms)
  | JPush succ k => (Silent, Some (goes j (JRelease k)), with_ring (ready_ring r ++ [succ]) r, ms)
  | JStore => (Silent, Some (goes j JStatus), with_indegree (aset (indegree r) d kIndegreeDone) r, ms)
  | JStatus => if decide (status r = Running) then (Silent, Some (goes j JDone), r, ms) else (Silent, None, r, ms)
  | JDone => if done_count r <? alen (ops (tiled p)) then (Silent, None, r, ms) else (Silent, Some (goes j JSwap), r, ms)
  | JSwap => if decide (status r = Running) then (Finalized, None, with_status Completed r, ms) else (Silent, None, r, ms)
  end.

(** A drain thread goes on with a completion it has claimed. *)
Definition drain_step (i : nat) (sample : Z) (r : run) (ms : metrics) : option (event * run * metrics) :=
  j ← jobs r !! i;
  let '(ev, o, r, ms) := job_step j sample r ms in
  Some (ev, with_jobs (match o with Some j => <[i := j]> (jobs r) | None => delete i (jobs r) end) r, ms).

(** [do_drain] returns an operation and [try_claim] finds its slot. *)
Definition claim_step (i : nat) (r : run) (ms : metrics) : option (event * run * metrics) :=
  x ← accepted r !! i;
  let '(b, idx, path) := x in
  Some (Silent, with_jobs (jobs r ++ [MkJob idx b path JLoad]) (with_accepted (delete i (accepted r)) r), ms).

(** A round of [SprayExecutor::wait]: the caller finds the run under way and, like the
    drain threads, tries to finalize it. *)
Definition wait_step (r : run) (ms : metrics) : option (event * run * metrics) :=
  if decide (status r = Running) then Some (Silent, with_jobs (jobs r ++ [MkJob 0 Sig PathNone JStatus]) r, ms) else None.

(** [fused_sig_cnt] counts the accepted puts that carry the signal. *)
Definition count_fused (d : dispatch) (r : run) : run :=
  if dfused d then
    let sig := default (-1) (aget (put_to_sig p) (didx d)) in
    with_fused (aset (fused_sig_cnt r) sig (at_ (fused_sig_cnt r) sig +[16] 1)) r
  else r.

Definition accept (b : backend) (d : dispatch) (r : run) : run :=
  with_submitted (didx d)
    (with_accepted (accepted r ++ [(b, didx d, match b with Tpt => dpath d | _ => PathNone end)]) (count_fused d r)).

(** A refused command gives its charge back. *)
Definition refuse (d : dispatch) (ms : metrics) : metrics :=
  if Collective.Collective.cdst_peer (dcmd d) =? 0xFFFFFFFF then ms
  else release_put_inflight (signed 32 (Collective.Collective.cdst_peer (dcmd d))) (dpath d) ms.

(** One operation of [ready] in the loop of [enqueue_to_ring]; [ok] is the answer of
    the signal backend. *)
Definition process (ok : bool) (idx : Z) (o : TiledOp) (todo : list Z) (dev tpt : list dispatch) (r : run) (ms : metrics) :
    event * run * metrics :=
  let '(d, ms) := route e p inplace idx o ms in
  match tkind o with
  | Signal | WaitSignal =>
      let grp := at_ (psig_group_size p) idx in
      if bool_decide (tkind o = Signal) && (0 <? grp) && (at_ (fused_sig_cnt r) idx =? grp) then
        (Started idx, with_enq (Completing (MkJob idx Sig PathNone JLoad) todo dev tpt) (with_submitted idx r), ms)
      else if ok then (Started idx, with_enq (Processing todo dev tpt) (accept Sig d r), ms)
      else (Silent, with_enq (Processing todo dev tpt)
                      (with_deferred (deferred_dev r) (deferred_tpt r) (deferred_sig r ++ [idx]) r), ms)
  | _ =>
      if remote (dcmd d) && negb (bool_decide (dpath d = Device))
      then (Silent, with_enq (Processing todo dev (tpt ++ [d])) r, ms)
      else (Silent, with_enq (Processing todo (dev ++ [d]) tpt) r, ms)
  end.

(** A step of the enqueue thread; [ok] is the answer of the backend it asks. *)
Definition enqueue_step (ok : bool) (sample : Z) (r : run) (ms : metrics) : option (event * run * metrics) :=
  match enq r with
  | Collecting ready =>
      match ready_ring r with
      | idx :: ring =>
          Some (Silent, with_enq (Collecting (if default false (aget (submitted r) idx) then ready else ready ++ [idx])) (with_ring ring r), ms)
      | [] =>
          Some (Silent, with_enq (Processing (deferred_sig r ++ deferred_tpt r ++ deferred_dev r ++ ready) [] [])
                          (with_deferred [] [] [] r), ms)
      end
  | Processing (idx :: todo) dev tpt =>
      o ← aget (ops (tiled p)) idx; Some (process ok idx o todo dev tpt r ms)
  | Processing [] dev tpt => Some (Silent, with_enq (SubmitDev dev tpt) r, ms)
  | Completing j todo dev tpt =>
      let '(ev, o, r, ms) := job_step j sample r ms in
      Some (ev, with_enq (match o with Some j => Completing j todo dev tpt | None => Processing todo dev tpt end) r, ms)
  | SubmitDev (d :: dev) tpt =>
      if ok then Some (Started (didx d), with_enq (SubmitDev dev tpt) (accept Dev d r), ms)
      else Some (Silent, with_enq (SubmitTpt tpt)
                   (with_deferred (deferred_dev r ++ map didx (d :: dev)) (deferred_tpt r) (deferred_sig r) r),
                 foldl (fun ms d => refuse d ms) ms (d :: dev))
  | SubmitDev [] tpt => Some (Silent, with_enq (SubmitTpt tpt) r, ms)
  | SubmitTpt (d :: tpt) =>
      if ok then Some (Started (didx d), with_enq (SubmitTpt tpt) (accept Tpt d r), ms)
      else Some (Silent, with_enq (Collecting [])
                   (with_deferred (deferred_dev r) (deferred_tpt r ++ map didx (d :: tpt)) (deferred_sig r) r),
                 foldl (fun ms d => refuse d ms) ms (d :: tpt))
  | SubmitTpt [] => Some (Silent, with_enq (Collecting []) r, ms)
  end.

Inductive step : run * metrics -> event -> run * metrics -> Prop :=
| step_enqueue ok sample r ms ev r' ms' : enqueue_step ok sample r ms = Some (ev, r', ms') -> step (r, ms) ev (r', ms')
| step_claim i r ms ev r' ms' : claim_step i r ms = Some (ev, r', ms') -> step (r, ms) ev (r', ms')
| step_drain i sample r ms ev r' ms' : drain_step i sample r ms = Some (ev, r', ms') -> step (r, ms) ev (r', ms')
| step_wait r ms ev r' ms' : wait_step r ms = Some (ev, r', ms') -> step (r, ms) ev (r', ms').

(** A run with its events, oldest first. *)
Inductive runs (x : run * metrics) : list event -> run * metrics -> Prop :=
| runs_nil : runs x [] x
| runs_snoc tr ev y z : runs x tr y -> step y ev z -> runs x (tr ++ [ev]) z.
End steps.

(** [SprayExecutor::release] of a run: [None] is the exception. *)
Definition may_release (r : run) : bool := bool_decide (status r = Completed) || bool_decide (status r = Failed).

(** ** The ready ring *)

(** The loop [while (count <= nops) count <<= 1] on 32-bit words. *)
Fixpoint ring_count (fuel : nat) (count nops : Z) : option Z :=
  match fuel with
  | O => None
  | S fuel => if count <=? nops then ring_count fuel (wrap 32 (Z.shiftl count 1)) nops else Some count
  end.

Definition init_ready_ring (fuel : nat) (nops : Z) : option Jring.jring :=
  count ← ring_count fuel 1 nops;
  let count := if count <? 1024 then 1024 else count in
  Jring.jring_init count 4 false true.
End Executor.
