(* ===== verification/PlanSpec.v ===== *)
(** * Plans of the executor

    The compressed rows of successors that [build_plan] computes are the reverse
    of the dependencies ([plan_successors]), and the cache of plans returns the
    plan of the configuration it is asked for ([cached_plan_right]). *)

From S2P Require Import Prelude ChunkGraph Lower Collective Executor.

Module PlanSpec.
Import ChunkGraph Lower Executor.

(** ** Dependencies and successors *)

(** Operation and dependency, in the order of the loops. *)
Definition edges (os : list TiledOp) : list (Z * Z) := flat_map (fun '(i, o) => map (pair i) (tdeps o)) (indexed os).

Definition to_dep (l : list (Z * Z)) (d : Z) : list Z := map fst (filter (fun x => x.2 = d) l).

(** The operations that depend on [d], once for each dependency. *)
Definition successors (os : list TiledOp) (d : Z) : list Z := to_dep (edges os) d.

Lemma to_dep_snoc l i d d' : to_dep (l ++ [(i, d)]) d' = to_dep l d' ++ (if decide (d = d') then [i] else []).
Proof. unfold to_dep. rewrite filter_app, map_app, filter_cons. cbn. by case_decide. Qed.

(** The loops over operations and dependencies are loops over the edges. *)
Lemma fold_edges {B} (f : Z -> B -> Z -> B) (os : list TiledOp) (b : B) :
  foldl (fun b '(i, o) => foldl (f i) b (tdeps o)) b (indexed os) = foldl (fun b '(i, d) => f i b d) b (edges os).
Proof.
  unfold edges. generalize (indexed os). intros l. revert b. induction l as [|[i o] l IH]; intros b; [done|]. cbn. rewrite foldl_app, IH.
  f_equal. clear. revert b. induction (tdeps o) as [|d ds IH]; intros b; [done|]. cbn. apply IH.
Qed.

Definition cnt (d : Z) (l : list (Z * Z)) : Z := alen (to_dep l d).

Lemma cnt_snoc l i d d' : cnt d' (l ++ [(i, d)]) = cnt d' l + (if decide (d = d') then 1 else 0).
Proof. unfold cnt. rewrite to_dep_snoc, alen_app. by case_decide. Qed.

Lemma cnt_le d l : 0 <= cnt d l <= alen l.
Proof. unfold cnt, to_dep, alen. rewrite length_map. pose proof (length_filter (fun x : Z * Z => x.2 = d) l). lia. Qed.

Lemma at_aset l i x j : 0 <= i -> 0 <= j -> at_ (aset l i x) j = if decide (i = j) then (if decide (i < alen l) then x else 0) else at_ l j.
Proof.
  intros Hi Hj. unfold at_. case_decide as E; [subst; case_decide|by rewrite aget_aset_ne].
  - by rewrite aget_aset_eq by lia.
  - unfold aget, aset, alen in *. by rewrite lookup_ge_None_2 by (rewrite length_insert; lia).
Qed.

(** The dependencies on operations before [k]. *)
Definition below (k : Z) (l : list (Z * Z)) : Z := alen (filter (fun x => x.2 < k) l).

Lemma below_next k l : below (k + 1) l = below k l + cnt k l.
Proof.
  unfold below, cnt, to_dep, alen. rewrite length_map. induction l as [|[i d] l IH]; [done|]. rewrite !filter_cons. cbn.
  repeat case_decide; cbn; lia.
Qed.

Lemma below_le k l : 0 <= below k l <= alen l.
Proof. unfold below, alen. pose proof (length_filter (fun x : Z * Z => x.2 < k) l). lia. Qed.

Lemma below_mono k k' l : k <= k' -> below k l <= below k' l.
Proof.
  intros H. unfold below, alen. induction l as [|[i d] l IH]; [done|]. rewrite !filter_cons. cbn. repeat case_decide; cbn; lia.
Qed.

Lemma below_none k l : Forall (fun x => k <= x.2) l -> below k l = 0.
Proof. unfold below. induction 1 as [|x l Hx _ IH]; [done|]. rewrite filter_cons_False by lia. done. Qed.

Lemma below_full k l : Forall (fun x => x.2 < k) l -> below k l = alen l.
Proof. unfold below. induction 1 as [|x l Hx _ IH]; [done|]. rewrite filter_cons_True by lia. rewrite !alen_cons. lia. Qed.

Lemma offsets_next counts : forall off k, 0 <= k < alen counts ->
  at_ (offsets off counts) (k + 1) = at_ (offsets off counts) k +[32] at_ counts k.
Proof.
  induction counts as [|c counts IH]; intros off k Hk; [unfold alen in Hk; cbn in Hk; lia|]. rewrite alen_cons in Hk. cbn [offsets].
  unfold at_ in *. rewrite aget_cons_S by lia. destruct (decide (k = 0)) as [->|]; [by destruct counts|].
  replace k with (k - 1 + 1) at 2 3 by lia. rewrite !aget_cons_S by lia. replace k with (k - 1 + 1) at 1 by lia. apply IH. lia.
Qed.

Lemma offsets_len counts off : alen (offsets off counts) = alen counts + 1.
Proof. revert off. induction counts as [|c counts IH]; intros off; [done|]. cbn [offsets]. rewrite !alen_cons. by rewrite IH. Qed.

Section csr.
Context (os : list TiledOp).
Abbreviation n := (alen os).
Context (Hdeps : Forall (fun x => 0 <= x.2 < n) (edges os)) (Hlen : alen (edges os) < 2 ^ 32).

Lemma edges_indexed : map snd (indexed os) = os.
Proof.
  unfold indexed. apply list_eq. intros i. rewrite list_lookup_fmap, list_lookup_imap. by destruct (os !! i).
Qed.

Lemma prefix_facts l r d : edges os = l ++ r -> cnt d l <= cnt d (edges os) /\ 0 <= cnt d l < 2 ^ 32.
Proof.
  intros E. pose proof (cnt_le d (edges os)). pose proof (cnt_le d l). rewrite E in *. unfold cnt, to_dep in *.
  rewrite filter_app, map_app, alen_app in *. pose proof (alen_nonneg (map fst (filter (fun x : Z * Z => x.2 = d) r))). lia.
Qed.

Lemma dep_range l i d r : edges os = l ++ [(i, d)] ++ r -> 0 <= d < n.
Proof.
  intros E. rewrite Forall_forall in Hdeps. apply (Hdeps (i, d)). rewrite E, !elem_of_app, list_elem_of_singleton. auto.
Qed.

Lemma succ_count_fold : succ_count os = foldl (fun b '(i, d) => incr b d) (replicate (length os) 0) (edges os).
Proof.
  rewrite <- (fold_edges (fun _ => incr)). unfold succ_count. rewrite <- edges_indexed at 2. rewrite foldl_fmap.
  generalize (replicate (length os) 0), (indexed os). intros b l. revert b. induction l as [|[i o] l IH]; intros b; [done|]. apply IH.
Qed.

Lemma succ_count_eq : alen (succ_count os) = n /\ forall d, 0 <= d < n -> at_ (succ_count os) d = cnt d (edges os).
Proof.
  rewrite succ_count_fold. assert (forall l r, edges os = l ++ r ->
    let c := foldl (fun b '(i, d) => incr b d) (replicate (length os) 0) l in
    alen c = n /\ forall d, 0 <= d < n -> at_ c d = cnt d l) as H; [|by apply (H _ []); rewrite app_nil_r].
  induction l as [|[i d] l IH] using rev_ind; intros r E.
  { cbn. split; [unfold alen; by rewrite length_replicate|]. intros d Hd. unfold at_, aget. rewrite lookup_replicate_2; [done|unfold alen in Hd; lia]. }
  rewrite foldl_app. cbn. rewrite <- app_assoc in E. destruct (IH _ E) as [Hl Hc]. set (c := foldl _ _ l) in *.
  pose proof (dep_range _ _ _ _ E) as Hd. unfold incr. split; [by rewrite alen_aset|].
  intros d' Hd'. rewrite at_aset, cnt_snoc by lia. destruct (decide (d = d')) as [->|]; [|rewrite Hc by done; lia].
  rewrite decide_True by lia. rewrite Hc by done. rewrite app_assoc in E. pose proof (prefix_facts _ r d' E) as Hp.
  rewrite cnt_snoc, decide_True in Hp by done. apply wrap_id. unfold in_word. pose proof (cnt_le d' l). lia.
Qed.

Abbreviation off := (offsets 0 (succ_count os)).

Lemma off_eq d : 0 <= d <= n -> at_ off d = below d (edges os).
Proof.
  destruct succ_count_eq as [Hl Hc]. intros Hd. revert Hd. intros [H0 Hn]. revert Hn. pattern d. apply natlike_ind; [| |done].
  - intros _. rewrite below_none; [by destruct (succ_count os)|]. eapply Forall_impl; [exact Hdeps|]. cbn. lia.
  - clear d H0. intros d Hd IH Hn. unfold Z.succ in *. rewrite offsets_next, IH, Hc, below_next by lia. apply wrap_id. unfold in_word.
    pose proof (below_le (d + 1) (edges os)). rewrite below_next in *. pose proof (cnt_le d (edges os)). pose proof (below_le d (edges os)). lia.
Qed.

Lemma below_all : below n (edges os) = alen (edges os).
Proof. apply below_full. eapply Forall_impl; [exact Hdeps|]. cbn. lia. Qed.

Abbreviation data0 := (replicate (Z.to_nat (at_ off n)) 0).

Lemma fill_prefix l r : edges os = l ++ r ->
  let st := foldl (fun st '(i, d) => place i st d) (off, data0) l in
  alen st.1 = n + 1 /\ alen st.2 = alen (edges os) /\
  (forall d, 0 <= d < n -> at_ st.1 d = below d (edges os) + cnt d l) /\
  (forall d k, 0 <= d < n -> 0 <= k < cnt d l -> aget st.2 (below d (edges os) + k) = aget (to_dep l d) k).
Proof.
  revert r. induction l as [|[i d] l IH] using rev_ind; intros r E.
  { cbn. destruct succ_count_eq as [Hl _]. pose proof (alen_nonneg os). split_and!.
    - by rewrite offsets_len, Hl.
    - unfold alen at 1. rewrite length_replicate, off_eq, below_all by lia. pose proof (alen_nonneg (edges os)). lia.
    - intros d Hd. rewrite off_eq by lia. change (cnt d []) with 0. lia.
    - intros d k Hd Hk. change (cnt d []) with 0 in Hk. lia. }
  pose proof E as E0. rewrite foldl_app. cbn. rewrite <- app_assoc in E. destruct (IH _ E) as (Hl1 & Hl2 & Hp & Hg). set (st := foldl _ _ l) in *.
  destruct st as [pos data]. cbn in *. pose proof (dep_range _ _ _ _ E) as Hd.
  pose proof (prefix_facts _ r d E0) as Hc. rewrite cnt_snoc, decide_True in Hc by done.
  pose proof (below_le (d + 1) (edges os)) as Hb. pose proof (below_le d (edges os)) as Hb0. rewrite below_next in Hb.
  assert (wrap 32 (at_ pos d + 1) = below d (edges os) + cnt d l + 1) as Ew.
  { rewrite Hp by done. apply wrap_id. unfold in_word. pose proof (cnt_le d l). lia. }
  split_and!.
  - unfold incr. by rewrite alen_aset.
  - by rewrite alen_aset.
  - intros d' Hd'. unfold incr. rewrite at_aset, cnt_snoc by lia. destruct (decide (d = d')) as [->|]; [|rewrite Hp by done; lia].
    rewrite decide_True by lia. rewrite Ew. lia.
  - intros d' k Hd' Hk. rewrite cnt_snoc in Hk. rewrite to_dep_snoc. destruct (decide (d = d')) as [<-|Hne].
    + rewrite (Hp d) by done. destruct (decide (k = cnt d l)) as [->|].
      * rewrite aget_aset_eq by lia. rewrite aget_app_r by (unfold cnt; lia). unfold cnt. by rewrite Z.sub_diag.
      * rewrite aget_aset_ne by lia. rewrite Hg by lia. symmetry. apply aget_app_l. unfold cnt in *. lia.
    + rewrite app_nil_r, (Hp d) by done. pose proof (cnt_le d' l). pose proof (cnt_le d l). pose proof (below_le d' (edges os)).
      pose proof (prefix_facts _ r d' E0) as Hc'. rewrite cnt_snoc, decide_False in Hc' by done.
      rewrite aget_aset_ne; [apply Hg; lia|lia|lia|].
      destruct (decide (d < d')).
      * pose proof (below_mono (d + 1) d' (edges os) ltac:(lia)). rewrite below_next in *. lia.
      * pose proof (below_mono (d' + 1) d (edges os) ltac:(lia)). rewrite below_next in *. lia.
Qed.

(** The row of [d] in the compressed successors. *)
Lemma csr_row d : 0 <= d < n ->
  let data := fill_successors os off data0 in
  0 <= at_ off d /\ at_ off (d + 1) = at_ off d + alen (successors os d) /\ at_ off (d + 1) <= alen data /\
  slice data (at_ off d) (at_ off (d + 1)) = successors os d.
Proof.
  intros Hd data. destruct (fill_prefix (edges os) [] ltac:(by rewrite app_nil_r)) as (_ & Hl & _ & Hg).
  rewrite <- (fold_edges place) in Hl, Hg. fold data in Hl, Hg. rewrite !off_eq, below_next by lia.
  pose proof (below_le (d + 1) (edges os)) as Hb. pose proof (below_le d (edges os)). rewrite below_next in Hb. change (alen (successors os d)) with (cnt d (edges os)).
  pose proof (cnt_le d (edges os)). split_and!; try lia; [unfold data, fill_successors; lia|].
  apply aget_ext; [rewrite slice_len by (unfold data, fill_successors; lia); unfold successors, cnt; lia|].
  rewrite slice_len by (unfold data, fill_successors; lia). intros k Hk. rewrite slice_get by lia. apply Hg; [done|lia].
Qed.
End csr.

(** ** Numbers of dependencies *)

(** How often [i] occurs. *)
Definition occ (i : Z) (l : list Z) : Z := alen (filter (fun x => x = i) l).

Lemma occ_app i l l' : occ i (l ++ l') = occ i l + occ i l'.
Proof. unfold occ. by rewrite filter_app, alen_app. Qed.

Lemma occ_perm i l l' : l ≡ₚ l' -> occ i l = occ i l'.
Proof. intros E. unfold occ, alen. by rewrite E. Qed.

Lemma occ_cons i x l : occ i (x :: l) = (if decide (x = i) then 1 else 0) + occ i l.
Proof. unfold occ. rewrite filter_cons. case_decide; rewrite ?alen_cons; lia. Qed.

Lemma occ_zero i l : occ i l = 0 <-> i ∉ l.
Proof.
  induction l as [|x l IH]; [split; [intros _ H; by apply elem_of_nil in H|done]|]. rewrite occ_cons, elem_of_cons.
  assert (0 <= occ i l) by apply alen_nonneg. case_decide; [subst; split; [lia|tauto]|]. rewrite Z.add_0_l, IH. naive_solver.
Qed.

Lemma occ_nonneg i l : 0 <= occ i l.
Proof. apply alen_nonneg. Qed.

Lemma edges_snoc os o : edges (os ++ [o]) = edges os ++ map (pair (alen os)) (tdeps o).
Proof.
  unfold edges, indexed. rewrite imap_app, flat_map_app. cbn. by rewrite app_nil_r, Nat.add_0_r.
Qed.

Lemma edge_in os i d : (i, d) ∈ edges os <-> exists o, 0 <= i /\ aget os i = Some o /\ d ∈ tdeps o.
Proof.
  unfold edges, indexed. rewrite list_elem_of_In, in_flat_map. split.
  - intros ([j o] & Hj & Hd). apply list_elem_of_In, elem_of_lookup_imap in Hj as (k & x & [= -> ->] & Hk).
    apply list_elem_of_In, list_elem_of_fmap in Hd as (d' & [= -> ->] & Hd). exists x. unfold aget. rewrite Nat2Z.id. split_and!; [lia|done|done].
  - intros (o & Hi & E & Hd). exists (i, o). split.
    + apply list_elem_of_In, elem_of_lookup_imap. exists (Z.to_nat i), o. split; [f_equal; lia|done].
    + apply list_elem_of_In, list_elem_of_fmap. by exists d.
Qed.

Lemma occ_edges os i o : aget os i = Some o -> 0 <= i -> occ i (map fst (edges os)) = alen (tdeps o).
Proof.
  intros E Hi. revert E. induction os as [|o' os IH] using rev_ind; [by unfold aget|]. rewrite edges_snoc, map_app, occ_app, map_map. cbn.
  assert (forall (l : list Z), occ i (map (fun _ => alen os) l) = if decide (i = alen os) then alen l else 0) as Ho.
  { induction l as [|x l IHl]; [by case_decide|]. cbn [map]. rewrite occ_cons, IHl, alen_cons. repeat case_decide; lia. }
  rewrite Ho. intros E. destruct (decide (i = alen os)) as [->|Hne].
  - rewrite aget_app_r, Z.sub_diag in E by lia. injection E as <-. rewrite (proj2 (occ_zero _ _)); [lia|].
    intros ([j d] & Ej & (x & Hj & E & _)%edge_in)%list_elem_of_fmap. cbn in Ej. apply aget_Some_lt in E; lia.
  - assert (i < alen os) by (pose proof (aget_Some_lt _ _ _ Hi E); rewrite alen_app in *; unfold alen in *; cbn in *; lia).
    rewrite aget_app_l in E by lia. rewrite (IH E). lia.
Qed.

Lemma concat_split {A B} (f g : A -> list B) l : concat (map (fun x => f x ++ g x) l) ≡ₚ concat (map f l) ++ concat (map g l).
Proof.
  induction l as [|x l IH]; [done|]. cbn. rewrite IH, !app_assoc. apply Permutation_app_tail. rewrite <- !app_assoc.
  apply Permutation_app_head, Permutation_app_comm.
Qed.

Lemma no_rows {A B} (f : A -> list B) l : (forall x, x ∈ l -> f x = []) -> concat (map f l) = [].
Proof.
  induction l as [|x l IH]; [done|]. intros H. cbn. rewrite H by left. apply IH. intros y Hy. apply H. by right.
Qed.

Lemma one_row (i d n : Z) : 0 <= d < n -> concat (map (fun d' => if decide (d = d') then [i] else []) (seqZ 0 n)) = [i].
Proof.
  intros Hd. replace n with (d + (1 + (n - d - 1))) by lia. rewrite (seqZ_app 0 d), seqZ_app, !map_app, !concat_app by lia. cbn.
  rewrite (seqZ_cons (0 + d) 1) by lia. cbn [map]. rewrite (decide_True (P := d = 0 + d)) by lia. rewrite (no_rows _ (seqZ 0 d)), (no_rows _ (seqZ _ (n - d - 1))).
  1: by cbn.
  all: intros l Hl%elem_of_seqZ; by rewrite decide_False by lia.
Qed.

Lemma rows_edges n l : Forall (fun x => 0 <= x.2 < n) l -> concat (map (to_dep l) (seqZ 0 n)) ≡ₚ map fst l.
Proof.
  induction l as [|[i d] l IH] using rev_ind; intros H.
  - by rewrite no_rows.
  - rewrite Forall_app, Forall_singleton in H. destruct H as [H Hd]. rewrite map_app. cbn. rewrite <- (IH H), <- (one_row i d n Hd), <- concat_split.
    erewrite map_ext; [done|]. intros d'. apply to_dep_snoc.
Qed.

Lemma in_no_deps os i : i ∈ no_deps os <-> exists o, 0 <= i /\ aget os i = Some o /\ tdeps o = [].
Proof.
  unfold no_deps, indexed. split.
  - intros ([j o] & -> & [Hd Hj]%list_elem_of_filter)%list_elem_of_fmap. apply elem_of_lookup_imap in Hj as (k & x & [= -> ->] & Hk). cbn in *. exists x.
    unfold aget. rewrite Nat2Z.id. split_and!; [lia|done|done].
  - intros (o & Hi & E & Hd). apply list_elem_of_fmap. exists (i, o). split; [done|]. apply list_elem_of_filter. split; [done|].
    apply elem_of_lookup_imap. exists (Z.to_nat i), o. split; [f_equal; lia|done].
Qed.

Lemma no_deps_nodup os : NoDup (no_deps os).
Proof.
  unfold no_deps. assert (NoDup (map fst (indexed os))) as H.
  { apply NoDup_alt. intros i j x. unfold indexed. rewrite !list_lookup_fmap, !list_lookup_imap. destruct (os !! i), (os !! j); cbn; try done. intros [= <-] [= E]. lia. }
  revert H. induction (indexed os) as [|x l IH]; [done|]. cbn. intros [Hx Hl]%NoDup_cons. case_decide; [|by apply IH]. cbn.
  apply NoDup_cons. split; [|by apply IH]. intros (y & Ey & [_ Hy]%list_elem_of_filter)%list_elem_of_fmap. apply Hx. apply list_elem_of_fmap. by exists y.
Qed.

(** What a plan needs of the tiled operations: dependencies are operations, and
    32 bits count them. *)
Record plan_ok (os : list TiledOp) : Prop := {
  deps_in_range : Forall (fun x => 0 <= x.2 < alen os) (edges os);
  few_edges : alen (edges os) < 2 ^ 32 - 1;
  few_ops : alen os < 2 ^ 32;
}.

Lemma indegree_right t i o : plan_ok (ops t) -> 0 <= i -> aget (ops t) i = Some o -> at_ (indegree_init (plan_of_tiled t)) i = alen (tdeps o).
Proof.
  intros Hp Hi E. pose proof (few_edges _ Hp). unfold at_. cbn. unfold aget in *. rewrite list_lookup_fmap, E. cbn. apply wrap_id. unfold in_word.
  pose proof (alen_nonneg (tdeps o)). rewrite <- (occ_edges (ops t) i o E Hi). unfold occ, alen in *.
  pose proof (length_filter (fun x => x = i) (map fst (edges (ops t)))). rewrite length_map in *. lia.
Qed.

(** In the plan of a collective the row of an operation in the compressed
    successors lists exactly the operations that depend on it, once for each
    dependency and in order; the initial indegree of an operation is the number of
    its dependencies; initially ready are exactly the operations without any. *)
Theorem plan_successors (t : TiledResult) : plan_ok (ops t) ->
  let p := plan_of_tiled t in
  (forall d, 0 <= d < nops p ->
     slice (successor_data p) (at_ (successor_off p) d) (at_ (successor_off p) (d + 1)) = successors (ops t) d) /\
  (forall i o, 0 <= i -> aget (ops t) i = Some o -> at_ (indegree_init p) i = alen (tdeps o)) /\
  (forall i, i ∈ initial_ready p <-> exists o, 0 <= i /\ aget (ops t) i = Some o /\ tdeps o = []) /\ NoDup (initial_ready p).
Proof.
  intros Hp p. pose proof Hp as [Hd Hl _]. split_and!.
  - intros d Hr. by apply csr_row; [|lia|].
  - intros i o. by apply indegree_right.
  - apply in_no_deps.
  - apply no_deps_nodup.
Qed.

(** ** The cache of plans *)

Record config_ok (c : CollectiveConfig) : Prop := {
  c_nranks : - 2 ^ 31 <= nranks c < 2 ^ 31;
  c_rank : - 2 ^ 31 <= rank c < 2 ^ 31;
}.

Lemma plan_key_inj c c' ip ip' : config_ok c -> config_ok c' -> plan_key c ip = plan_key c' ip' -> c = c' /\ ip = ip'.
Proof.
  intros [Hn Hr] [Hn' Hr']. unfold plan_key. cbn [app]. intros [= Ek En Er Ei Eo Et Ed Ere Eg Eip El E].
  assert (input_split_bytes c = input_split_bytes c' /\ alen (output_split_bytes c) :: output_split_bytes c = alen (output_split_bytes c') :: output_split_bytes c') as [Es [= _ Eo']].
  { apply app_inj_1; [unfold alen in El; lia|done]. }
  assert (nranks c = nranks c') by (unfold wrap in En; change (2 ^ 64) with 18446744073709551616 in En; Z.to_euclidean_division_equations; lia).
  assert (rank c = rank c') by (unfold wrap in Er; change (2 ^ 64) with 18446744073709551616 in Er; Z.to_euclidean_division_equations; lia).
  assert (ip = ip') by (by destruct ip, ip').
  assert (kind c = kind c') by (by destruct (kind c), (kind c')).
  assert (dtype c = dtype c') by (by destruct (dtype c), (dtype c')).
  assert (reduction c = reduction c') by (by destruct (reduction c), (reduction c')).
  split; [|done]. destruct c, c'. cbn in *. congruence.
Qed.

(** Every cached plan is the one of its key, and there are at most 64. *)
Definition cache_ok (cache : gmap (list Z) CollPlan) : Prop :=
  Z.of_nat (size cache) <= kMaxCachedPlans /\
  forall k p, cache !! k = Some p -> exists c ip, config_ok c /\ plan_key c ip = k /\ build_plan c ip = Planned p.

(** A plan from the cache is the plan that would be built for the
    configuration: the key tells apart all configurations that shape plans
    differently; errors are those of building it; the cache never exceeds its
    limit. *)
Theorem cached_plan_right (c : CollectiveConfig) (inplace : bool) (cache : gmap (list Z) CollPlan) : config_ok c -> cache_ok cache ->
  match cached_plan c inplace cache with
  | Planned (p, cache') => build_plan c inplace = Planned p /\ cache_ok cache' /\ cache' !! plan_key c inplace = Some p
  | Invalid w => build_plan c inplace = Invalid w
  end.
Proof.
  intros Hc [Hs Hk]. unfold cached_plan. destruct (cache !! plan_key c inplace) as [p|] eqn:E.
  - destruct (Hk _ _ E) as (c' & ip' & Hc' & Ek & Eb). destruct (plan_key_inj c' c ip' inplace Hc' Hc Ek) as [-> ->]. by split_and!.
  - set (cache' := if kMaxCachedPlans <=? Z.of_nat (size cache) then ∅ else cache).
    assert (Z.of_nat (size cache') < kMaxCachedPlans /\ cache' ⊆ cache) as [Hs' Hsub].
    { unfold cache'. destruct (Z.leb_spec kMaxCachedPlans (Z.of_nat (size cache))); [|done]. split; [done|apply map_empty_subseteq]. }
    destruct (build_plan c inplace) as [p|w] eqn:Eb; cbn; [|done]. split_and!; [done| |by rewrite lookup_insert_eq]. split.
    + rewrite map_size_insert. destruct (cache' !! _); cbn; lia.
    + intros k q [[<- <-]|[_ Hq]]%lookup_insert_Some; [by exists c, inplace|]. apply Hk. by apply (lookup_weaken _ _ _ _ Hq).
Qed.
End PlanSpec.
