(* ===== verification/ExecutorSpec.v ===== *)
(** * The scheduler of the executor

    The invariant of the runs of [Executor.v] under every interleaving of the
    enqueue thread, the drain threads and waiting callers: an operation is in one place at a time,
    its indegree counts the dependencies that have not been released, it is started
    after all its dependencies have completed and only once ([schedule_correct]);
    when nothing is left to do the run has completed ([schedule_completes]); and
    the ready ring never overflows ([ready_ring_fits]). *)

From S2P Require Import Prelude ChunkGraph Lower Collective Jring JringLive Executor PlanSpec.

Module ExecutorSpec.
Import ChunkGraph Lower Executor PlanSpec.

(** ** Traces *)

Definition started_of (ev : event) : list Z := match ev with Started i => [i] | _ => [] end.
Definition counted_of (ev : event) : list Z := match ev with Counted i => [i] | _ => [] end.
Definition final_of (ev : event) : list Z := match ev with Finalized => [0] | _ => [] end.
Definition started (tr : list event) : list Z := flat_map started_of tr.
Definition counted (tr : list event) : list Z := flat_map counted_of tr.
Definition finals (tr : list event) : list Z := flat_map final_of tr.

Lemma started_snoc tr ev : started (tr ++ [ev]) = started tr ++ started_of ev.
Proof. unfold started. rewrite flat_map_app. cbn. by rewrite app_nil_r. Qed.
Lemma counted_snoc tr ev : counted (tr ++ [ev]) = counted tr ++ counted_of ev.
Proof. unfold counted. rewrite flat_map_app. cbn. by rewrite app_nil_r. Qed.
Lemma finals_snoc tr ev : finals (tr ++ [ev]) = finals tr ++ final_of ev.
Proof. unfold finals. rewrite flat_map_app. cbn. by rewrite app_nil_r. Qed.

(** ** Places *)

Definition push_of (j : job) : list Z := match jpoint_ j with JPush s _ => [s] | _ => [] end.
Definition op_of (j : job) : list Z := match jpoint_ j with JStatus | JDone | JSwap => [] | _ => [jop j] end.
Definition counted_op (j : job) : list Z :=
  match jpoint_ j with JCallback | JRelease _ | JPush _ _ | JStore => [jop j] | _ => [] end.
Definition pushes (js : list job) : list Z := flat_map push_of js.
Definition job_ops (js : list job) : list Z := flat_map op_of js.
Definition counted_ops (js : list job) : list Z := flat_map counted_op js.

Lemma occ_nil i : occ i [] = 0.
Proof. done. Qed.

Lemma occ_flat_perm {A} (f : A -> list Z) i l l' : l ≡ₚ l' -> occ i (flat_map f l) = occ i (flat_map f l').
Proof. induction 1; cbn; rewrite ?occ_app; congruence || lia. Qed.

Lemma occ_pos_in i l : 0 < occ i l <-> i ∈ l.
Proof.
  destruct (decide (i ∈ l)) as [H|H].
  - split; [done|]. intros _. destruct (decide (occ i l = 0)) as [E%occ_zero|]; [done|]. pose proof (occ_nonneg i l). lia.
  - rewrite (proj2 (occ_zero i l) H). split; [lia|done].
Qed.

Lemma occ_nodup l : (forall i, occ i l <= 1) -> NoDup l.
Proof.
  induction l as [|x l IH]; intros H; [constructor|]. apply NoDup_cons. split.
  - intros Hx%occ_pos_in. specialize (H x). rewrite occ_cons, decide_True in H by done. lia.
  - apply IH. intros i. specialize (H i). rewrite occ_cons in H. case_decide; lia.
Qed.

Lemma insert_delete {A} (l : list A) i x : (i < length l)%nat -> <[i := x]> l ≡ₚ x :: delete i l.
Proof.
  revert i. induction l as [|y l IH]; intros [|i] Hi; cbn in *; try lia; [done|]. etransitivity; [apply Permutation_skip, IH; lia|apply Permutation_swap].
Qed.

Lemma slice_head (l : list Z) a b : 0 <= a < b -> b <= alen l -> slice l a b = at_ l a :: slice l (a + 1) b.
Proof.
  intros Ha Hb. rewrite <- (slice_app l a (a + 1) b) by lia. change (at_ l a :: slice l (a + 1) b) with ([at_ l a] ++ slice l (a + 1) b). f_equal. destruct (aget_is_Some l a ltac:(lia)) as [x Ex].
  apply aget_ext; [rewrite slice_len by lia; change (alen [at_ l a]) with 1; lia|]. rewrite slice_len by lia. intros i Hi.
  replace i with 0 by lia. rewrite slice_get, Z.add_0_r by lia. unfold at_. by rewrite Ex.
Qed.

Section plan.
Context (t : TiledResult) (Hp : plan_ok (ops t)).
Abbreviation os := (ops t).
Abbreviation p := (plan_of_tiled t).
Abbreviation n := (alen (ops t)).
Abbreviation off := (at_ (successor_off (plan_of_tiled t))).
Abbreviation data := (successor_data (plan_of_tiled t)).
Abbreviation succs := (successors (ops t)).

(** Every operation is started after its dependencies have been counted. *)
Definition deps_first (tr : list event) : Prop :=
  forall pre post i o d, tr = pre ++ Started i :: post -> aget os i = Some o -> d ∈ tdeps o -> d ∈ counted pre.

(** The invariant: [rest] are the successors that each operation has not released,
    [closed] the operations whose completion has been processed, [pend] those that
    are ready but not started, [acc] those that backends have and [js] the jobs. *)
Record sched (rest : list (list Z)) (closed : list Z) (tr : list event) (st : CollectiveOpStatus) (dc : Z) (ind : list Z)
    (sub : list bool) (pend acc : list Z) (js : list job) : Prop := {
  s_place : forall i, 0 <= i < n ->
    occ i pend + occ i (pushes js) + occ i acc + occ i (job_ops js) + occ i closed = if decide (occ i (concat rest) = 0) then 1 else 0;
  s_out : forall i, ~ 0 <= i < n -> occ i pend + occ i (pushes js) + occ i acc + occ i (job_ops js) + occ i closed = 0;
  s_rest_len : alen rest = n;
  s_rest_in : forall i, i ∈ concat rest -> 0 <= i < n;
  s_ind_len : alen ind = n;
  s_ind : forall i, 0 <= i < n -> at_ ind i = if decide (occ i closed = 0) then occ i (concat rest) else kIndegreeDone;
  s_rest : forall d l, 0 <= d < n -> aget rest d = Some l ->
    (occ d (job_ops js) = 0 -> occ d closed = 0 -> l = succs d) /\ (0 < occ d closed -> l = []);
  s_job : forall j, j ∈ js -> let d := jop j in
    match jpoint_ j with
    | JLoad | JCount | JCallback => aget rest d = Some (succs d)
    | JRelease k | JPush _ k => off d <= k <= off (d + 1) /\ aget rest d = Some (slice data k (off (d + 1)))
    | JStore => aget rest d = Some []
    | JStatus | JDone => True
    | JSwap => dc = n
    end;
  s_sub_len : alen sub = n;
  s_sub : forall i, 0 <= i < n -> (if default false (aget sub i) then 1 else 0) = occ i acc + occ i (job_ops js) + occ i closed;
  s_counted : forall i, occ i (counted tr) = occ i (counted_ops js) + occ i closed;
  s_done : dc = alen (counted tr);
  s_started : forall i, occ i (started tr) = occ i acc + occ i (job_ops js) + occ i closed;
  s_order : deps_first tr;
  s_status : (st = Running /\ finals tr = [] /\ (dc = n -> js <> [])) \/ (st = Completed /\ finals tr = [0] /\ dc = n);
  s_few : alen (concat rest) < 2 ^ 32 - 1;
}.

Lemma sched_perm rest closed tr st dc ind sub pend acc js pend' acc' js' :
  (forall i, occ i pend' = occ i pend) -> (forall i, occ i acc' = occ i acc) -> js ≡ₚ js' ->
  sched rest closed tr st dc ind sub pend acc js -> sched rest closed tr st dc ind sub pend' acc' js'.
Proof.
  intros Op Oa Ej [].
  assert (forall i, occ i (pushes js') = occ i (pushes js)) as O1 by (intros; by apply occ_flat_perm).
  assert (forall i, occ i (job_ops js') = occ i (job_ops js)) as O2 by (intros; by apply occ_flat_perm).
  assert (forall i, occ i (counted_ops js') = occ i (counted_ops js)) as O3 by (intros; by apply occ_flat_perm).
  split; intros; rewrite ?Op, ?Oa, ?O1, ?O2, ?O3; eauto.
  - apply s_job0. by rewrite Ej.
  - destruct s_status0 as [(? & ? & H)|?]; [left|by right]. split_and!; try done. intros E ->. apply (H E). by apply Permutation_nil_r.
Qed.

Lemma dep_edge i o d : 0 <= i -> aget os i = Some o -> d ∈ tdeps o -> 0 <= d < n /\ i ∈ succs d.
Proof.
  intros Hi E Hd. assert ((i, d) ∈ edges os) as He by (apply edge_in; by exists o). split.
  - pose proof (deps_in_range _ Hp) as H. rewrite Forall_forall in H. apply (H (i, d) He).
  - unfold successors, to_dep. apply list_elem_of_fmap. exists (i, d). split; [done|]. apply list_elem_of_filter. done.
Qed.

Lemma row d : 0 <= d < n ->
  0 <= off d <= off (d + 1) /\ off (d + 1) <= alen data /\ slice data (off d) (off (d + 1)) = succs d.
Proof.
  intros Hd. destruct (csr_row os (deps_in_range _ Hp) ltac:(pose proof (few_edges _ Hp); lia) d Hd) as (H0 & H1 & H2 & H3).
  pose proof (alen_nonneg (succs d)). split_and!; [exact H0| |exact H2|exact H3]. cbn. lia.
Qed.

Lemma in_concat (rest : list (list Z)) d l i : aget rest d = Some l -> i ∈ l -> i ∈ concat rest.
Proof. intros E Hi. apply list_elem_of_In, in_concat. exists l. split; [apply list_elem_of_In; by eapply list_elem_of_lookup_2|by apply list_elem_of_In]. Qed.

(** Counting places when one job changes. *)
Ltac occs := unfold pushes, job_ops, counted_ops in *; cbn [flat_map push_of op_of counted_op jpoint_ jop goes] in *;
  rewrite ?occ_app, ?occ_cons, ?occ_nil in *.

Ltac status_goes := match goal with H : _ \/ _ |- _ => destruct H as [(? & ? & H)|(? & ? & ?)]; [left|right]; by split_and! end.

Section inv.
Context (rest : list (list Z)) (closed : list Z) (tr : list event) (st : CollectiveOpStatus) (dc : Z) (ind : list Z).
Context (sub : list bool) (pend acc : list Z).

Lemma occ_in_flat {A} (f : A -> list Z) x (l : list A) i : x ∈ l -> occ i (f x) <= occ i (flat_map f l).
Proof.
  induction 1 as [x l|x y l _ IH]; cbn; rewrite occ_app; [pose proof (occ_nonneg i (flat_map f l))|pose proof (occ_nonneg i (f y))]; lia.
Qed.

Lemma flat_occ_in {A} (f : A -> list Z) (l : list A) i : 0 < occ i (flat_map f l) -> exists x, x ∈ l /\ i ∈ f x.
Proof.
  intros H%occ_pos_in. apply list_elem_of_In, in_flat_map in H as (x & Hx & Hi). exists x. by rewrite !list_elem_of_In.
Qed.

(** The dependencies of a ready operation have been counted. *)
Lemma ready_counted js i o d : sched rest closed tr st dc ind sub pend acc js -> 0 <= i < n -> occ i (concat rest) = 0 ->
  aget os i = Some o -> d ∈ tdeps o -> d ∈ counted tr.
Proof.
  intros S Hi Hz%occ_zero Eo Hd. destruct (dep_edge i o d ltac:(lia) Eo Hd) as [Hdn Hs]. apply occ_pos_in. rewrite (s_counted _ _ _ _ _ _ _ _ _ _ S).
  pose proof (occ_nonneg d closed). pose proof (occ_nonneg d (counted_ops js)). destruct (decide (occ d closed = 0)) as [Hc|]; [|lia].
  destruct (aget_is_Some rest d) as [l El]; [by rewrite (s_rest_len _ _ _ _ _ _ _ _ _ _ S)|].
  assert (l <> succs d) as Hne by (intros ->; apply Hz; by apply (in_concat rest d (succs d))).
  destruct (s_rest _ _ _ _ _ _ _ _ _ _ S d l Hdn El) as [Hl _].
  destruct (decide (occ d (job_ops js) = 0)) as [Hj|Hj]; [by destruct Hne; apply Hl|]. pose proof (occ_nonneg d (job_ops js)).
  destruct (flat_occ_in op_of js d ltac:(unfold job_ops in *; lia)) as (j & Hjs & Hop).
  pose proof (s_job _ _ _ _ _ _ _ _ _ _ S j Hjs) as Hjob. cbn in Hjob.
  assert (occ d (counted_op j) <= occ d (counted_ops js)) as Hoc by (by apply occ_in_flat). unfold op_of in Hop. unfold counted_op in Hoc.
  destruct (jpoint_ j); try (by apply elem_of_nil in Hop); apply list_elem_of_singleton in Hop; rewrite <- Hop in Hjob;
    try (rewrite El in Hjob; by injection Hjob as Hjob); rewrite <- Hop, occ_cons, decide_True in Hoc by done; rewrite occ_nil in Hoc; lia.
Qed.

Lemma deps_first_snoc ev : deps_first tr -> (forall i o d, ev = Started i -> aget os i = Some o -> d ∈ tdeps o -> d ∈ counted tr) ->
  deps_first (tr ++ [ev]).
Proof.
  intros H Hev pre post i o d E. destruct post as [|x post] using rev_ind.
  - apply app_inj_tail in E as [-> ->]. by apply Hev.
  - rewrite app_comm_cons, app_assoc in E. apply app_inj_tail in E as [-> ->]. by apply (H pre post).
Qed.

Lemma counted_jobs js i : occ i (counted_ops js) <= occ i (job_ops js).
Proof.
  unfold counted_ops, job_ops. induction js as [|j js IH]; [done|]. cbn. rewrite !occ_app. unfold counted_op at 1, op_of at 1.
  destruct (jpoint_ j); rewrite ?occ_cons, ?occ_nil; try case_decide; lia.
Qed.

Lemma place_le js i : sched rest closed tr st dc ind sub pend acc js ->
  occ i pend + occ i (pushes js) + occ i acc + occ i (job_ops js) + occ i closed <= 1 /\
  (0 < occ i pend + occ i (pushes js) + occ i acc + occ i (job_ops js) + occ i closed -> 0 <= i < n).
Proof.
  intros S. destruct (decide (0 <= i < n)) as [Hi|Hi].
  - rewrite (s_place _ _ _ _ _ _ _ _ _ _ S i Hi). case_decide; lia.
  - rewrite (s_out _ _ _ _ _ _ _ _ _ _ S i Hi). lia.
Qed.

Lemma in_range_length (l : list Z) : (forall i, occ i l <= 1) -> (forall i, i ∈ l -> 0 <= i < n) -> alen l <= n.
Proof.
  intros H1 H2. assert (l ⊆+ seqZ 0 n) as Hs%submseteq_length.
  { apply NoDup_submseteq; [by apply occ_nodup|]. intros i Hi%H2. by apply elem_of_seqZ. }
  rewrite length_seqZ in Hs. unfold alen in *. lia.
Qed.

Lemma counted_range js : sched rest closed tr st dc ind sub pend acc js -> dc <= n.
Proof.
  intros S. rewrite (s_done _ _ _ _ _ _ _ _ _ _ S). apply in_range_length.
  - intros i. rewrite (s_counted _ _ _ _ _ _ _ _ _ _ S). pose proof (counted_jobs js i). destruct (place_le js i S) as [Hle _].
    pose proof (occ_nonneg i pend). pose proof (occ_nonneg i acc). pose proof (occ_nonneg i (pushes js)). lia.
  - intros i Hi%occ_pos_in. rewrite (s_counted _ _ _ _ _ _ _ _ _ _ S) in Hi. pose proof (counted_jobs js i). destruct (place_le js i S) as [_ Hr].
    pose proof (occ_nonneg i pend). pose proof (occ_nonneg i acc). pose proof (occ_nonneg i (pushes js)). apply Hr. lia.
Qed.

(** A job that goes on without a change of what it holds. *)
Lemma sched_goes js j j' : push_of j' = push_of j -> op_of j' = op_of j -> counted_op j' = counted_op j ->
  (match jpoint_ j' with
   | JLoad | JCount | JCallback => aget rest (jop j') = Some (succs (jop j'))
   | JRelease k | JPush _ k => off (jop j') <= k <= off (jop j' + 1) /\ aget rest (jop j') = Some (slice data k (off (jop j' + 1)))
   | JStore => aget rest (jop j') = Some []
   | JStatus | JDone => True
   | JSwap => dc = n
   end) ->
  sched rest closed tr st dc ind sub pend acc (j :: js) -> sched rest closed tr st dc ind sub pend acc (j' :: js).
Proof.
  intros E1 E2 E3 Hj [].
  assert (pushes (j' :: js) = pushes (j :: js)) as O1 by (unfold pushes; cbn; congruence).
  assert (job_ops (j' :: js) = job_ops (j :: js)) as O2 by (unfold job_ops; cbn; congruence).
  assert (counted_ops (j' :: js) = counted_ops (j :: js)) as O3 by (unfold counted_ops; cbn; congruence).
  split; rewrite ?O1, ?O2, ?O3; try done.
  - intros x [->|Hx]%elem_of_cons; [done|]. apply s_job0. by right.
  - destruct s_status0 as [(? & ? & H)|?]; [left|by right]. by split_and!.
Qed.

Lemma sched_ends js j : push_of j = [] -> op_of j = [] -> counted_op j = [] -> (st = Running -> dc <> n) ->
  sched rest closed tr st dc ind sub pend acc (j :: js) -> sched rest closed tr st dc ind sub pend acc js.
Proof.
  intros E1 E2 E3 Hn [].
  assert (pushes (j :: js) = pushes js) as O1 by (unfold pushes; cbn; by rewrite E1).
  assert (job_ops (j :: js) = job_ops js) as O2 by (unfold job_ops; cbn; by rewrite E2).
  assert (counted_ops (j :: js) = counted_ops js) as O3 by (unfold counted_ops; cbn; by rewrite E3).
  rewrite ?O1, ?O2, ?O3 in *. split; try done.
  - intros x Hx. apply s_job0. by right.
  - destruct s_status0 as [(Hs & ? & H)|?]; [left|by right]. split_and!; try done. by specialize (Hn Hs).
Qed.

(** [done_count.fetch_add]. *)
Lemma sched_count js d f pa : sched rest closed tr st dc ind sub pend acc (MkJob d f pa JCount :: js) ->
  sched rest closed (tr ++ [Counted d]) st (dc + 1) ind sub pend acc (MkJob d f pa JCallback :: js).
Proof.
  intros S. assert (dc + 1 <= n) as Hdc.
  { rewrite (s_done _ _ _ _ _ _ _ _ _ _ S). transitivity (alen (d :: counted tr)); [by rewrite alen_cons|].
    apply in_range_length; [intros i|intros i Hi%occ_pos_in; revert Hi]; rewrite occ_cons, (s_counted _ _ _ _ _ _ _ _ _ _ S);
      destruct (place_le _ i S) as [H1 H2]; pose proof (counted_jobs js i); pose proof (occ_nonneg i pend);
      pose proof (occ_nonneg i acc); pose proof (occ_nonneg i (pushes js)); pose proof (occ_nonneg i closed); occs; case_decide; lia. }
  destruct S. split; rewrite ?started_snoc, ?counted_snoc, ?finals_snoc; cbn [started_of counted_of final_of]; rewrite ?app_nil_r; try done.
  - intros x [->|Hx]%elem_of_cons; [by apply (s_job0 _ ltac:(left))|]. specialize (s_job0 x ltac:(by right)). cbn in s_job0. destruct (jpoint_ x); try done. lia.
  - intros i. specialize (s_counted0 i). occs. lia.
  - rewrite alen_app. change (alen [d]) with 1. lia.
  - by apply deps_first_snoc.
  - destruct s_status0 as [(? & ? & H)|(? & ? & ?)]; [left|lia]. by split_and!.
Qed.

(** What holds of the operation of a job. *)
Lemma job_open js j : sched rest closed tr st dc ind sub pend acc (j :: js) -> op_of j = [jop j] ->
  0 <= jop j < n /\ occ (jop j) closed = 0 /\ occ (jop j) (concat rest) = 0 /\ occ (jop j) (job_ops js) = 0 /\
  (forall i, i ∈ pend \/ i ∈ pushes (j :: js) \/ i ∈ acc -> i <> jop j).
Proof.
  intros S Ej. set (d := jop j) in *. destruct (place_le _ d S) as [H1 H2]. pose proof (occ_nonneg d pend). pose proof (occ_nonneg d acc).
  pose proof (occ_nonneg d (pushes (j :: js))). pose proof (occ_nonneg d closed). pose proof (occ_nonneg d (job_ops js)).
  assert (occ d (job_ops (j :: js)) = 1 + occ d (job_ops js)) as Hj.
  { unfold job_ops. cbn. rewrite Ej, occ_app, occ_cons, decide_True by done. rewrite occ_nil. lia. }
  specialize (H2 ltac:(lia)). pose proof (s_place _ _ _ _ _ _ _ _ _ _ S d H2) as Hpl. split_and!; try lia; [case_decide; lia|].
  intros i Hi ->. rewrite <- !occ_pos_in in Hi. lia.
Qed.

(** [push_ready]. *)
Lemma sched_push js d f pa s k : sched rest closed tr st dc ind sub pend acc (MkJob d f pa (JPush s k) :: js) ->
  sched rest closed tr st dc ind sub (pend ++ [s]) acc (MkJob d f pa (JRelease k) :: js).
Proof.
  intros []. split; try done.
  - intros i Hi. specialize (s_place0 i Hi). occs. lia.
  - intros i Hi. specialize (s_out0 i Hi). occs. lia.
  - intros x [->|Hx]%elem_of_cons; [by apply (s_job0 _ ltac:(left))|]. apply s_job0. by right.
  - status_goes.
Qed.

(** The store of [kIndegreeDone]. *)
Lemma sched_store js d f pa : sched rest closed tr st dc ind sub pend acc (MkJob d f pa JStore :: js) ->
  sched rest (d :: closed) tr st dc (aset ind d kIndegreeDone) sub pend acc (MkJob d f pa JStatus :: js).
Proof.
  intros S. destruct (job_open _ _ S eq_refl) as (Hd & Hc & Hr & Hj & _). cbn in Hd, Hc, Hr, Hj.
  pose proof (s_job _ _ _ _ _ _ _ _ _ _ S _ ltac:(left)) as Ed. cbn in Ed. destruct S. split; try done.
  - intros i Hi. specialize (s_place0 i Hi). occs. lia.
  - intros i Hi. specialize (s_out0 i Hi). occs. lia.
  - by rewrite alen_aset.
  - intros i Hi. rewrite at_aset, occ_cons, (s_ind0 i Hi) by lia. pose proof (occ_nonneg i closed). destruct (decide (d = i)) as [->|].
    + rewrite decide_True, decide_False by lia. done.
    + by rewrite Z.add_0_l.
  - intros i l Hi El. destruct (s_rest0 i l Hi El) as [R1 R2]. pose proof (occ_nonneg i closed). occs. destruct (decide (d = i)) as [->|]; cbn in *.
    + split; [lia|]. intros _. congruence.
    + by rewrite !Z.add_0_l in *.
  - intros x [->|Hx]%elem_of_cons; [done|]. apply s_job0. by right.
  - intros i Hi. specialize (s_sub0 i Hi). occs. lia.
  - intros i. specialize (s_counted0 i). occs. lia.
  - intros i. specialize (s_started0 i). occs. lia.
  - status_goes.
Qed.

(** The exchange of the status. *)
Lemma sched_swap js d f pa : st = Running -> sched rest closed tr st dc ind sub pend acc (MkJob d f pa JSwap :: js) ->
  sched rest closed (tr ++ [Finalized]) Completed dc ind sub pend acc js.
Proof.
  intros Hst S. pose proof (s_job _ _ _ _ _ _ _ _ _ _ S _ ltac:(left)) as Hn. cbn in Hn.
  destruct S. split; rewrite ?started_snoc, ?counted_snoc, ?finals_snoc; cbn [started_of counted_of final_of]; rewrite ?app_nil_r; try done.
  - intros x Hx. apply s_job0. by right.
  - by apply deps_first_snoc.
  - right. destruct s_status0 as [(? & E & ?)|(? & ? & ?)]; [|congruence]. by rewrite E.
Qed.

Lemma sched_silent js : sched rest closed tr st dc ind sub pend acc js -> sched rest closed (tr ++ [Silent]) st dc ind sub pend acc js.
Proof.
  intros []. split; rewrite ?started_snoc, ?counted_snoc, ?finals_snoc; cbn [started_of counted_of final_of]; rewrite ?app_nil_r; try done.
  by apply deps_first_snoc.
Qed.

(** The jobs that are not at [d] do not see a change of its row. *)
Lemma jobs_elsewhere js d l : occ d (job_ops js) = 0 -> 0 <= d ->
  (forall j, j ∈ js -> op_of j = [jop j] -> 0 <= jop j) ->
  forall j, j ∈ js -> op_of j = [jop j] -> aget (aset rest d l) (jop j) = aget rest (jop j).
Proof.
  intros Hz Hd Hn j Hj Ho. rewrite aget_aset_ne; [done|done|by apply Hn|]. intros ->.
  pose proof (occ_in_flat op_of j js (jop j) Hj) as H. rewrite Ho, occ_cons, decide_True, occ_nil in H by done. unfold job_ops in *. lia.
Qed.

Lemma job_ops_nonneg js : sched rest closed tr st dc ind sub pend acc js -> forall j, j ∈ js -> op_of j = [jop j] -> 0 <= jop j.
Proof.
  intros S j Hj Ho. destruct (place_le _ (jop j) S) as [_ H]. pose proof (occ_in_flat op_of j js (jop j) Hj) as H1.
  rewrite Ho, occ_cons, decide_True, occ_nil in H1 by done. unfold job_ops in *. pose proof (occ_nonneg (jop j) pend). pose proof (occ_nonneg (jop j) acc).
  pose proof (occ_nonneg (jop j) (pushes js)). pose proof (occ_nonneg (jop j) closed). lia.
Qed.

Lemma occ_le_len i l : occ i l <= alen l.
Proof. unfold occ, alen. pose proof (length_filter (fun x => x = i) l). lia. Qed.

(** [indegree[succ].fetch_sub(1)]: when the old value is 1 the successor is ready. *)
Lemma sched_release js d f pa k : k < off (d + 1) -> sched rest closed tr st dc ind sub pend acc (MkJob d f pa (JRelease k) :: js) ->
  let succ := at_ data k in let old := at_ ind succ in
  exists rest', sched rest' closed tr st dc (aset ind succ (old -[32] 1)) sub pend acc
    (MkJob d f pa (if old =? 1 then JPush succ (k + 1) else JRelease (k + 1)) :: js).
Proof.
  intros Hk S succ old. destruct (job_open _ _ S eq_refl) as (Hd & Hc & _ & Hj & _). cbn in Hd, Hc, Hj.
  pose proof (s_job _ _ _ _ _ _ _ _ _ _ S _ ltac:(left)) as [Hoff Ed]. cbn [jop] in Hoff, Ed.
  destruct (row d Hd) as (H0 & Hlen & _).
  assert (slice data k (off (d + 1)) = succ :: slice data (k + 1) (off (d + 1))) as Es by (apply slice_head; lia).
  set (l' := slice data (k + 1) (off (d + 1))) in *. rewrite Es in Ed.
  assert (forall i, occ i (concat rest) = occ i (concat (aset rest d l')) + if decide (succ = i) then 1 else 0) as Ho.
  { intros i. pose proof (concat_insert rest (Z.to_nat d) _ l' Ed) as E%(occ_perm i). rewrite !occ_app, occ_cons in E. unfold aset. lia. }
  assert (0 <= succ < n) as Hs by (apply (s_rest_in _ _ _ _ _ _ _ _ _ _ S), (in_concat rest d _ _ Ed); left).
  assert (forall i, 0 <= occ i (concat (aset rest d l'))) as Hnn by (intros; apply occ_nonneg).
  pose proof (Ho succ) as Hos. rewrite decide_True in Hos by done. pose proof (Hnn succ) as Hnns.
  pose proof (s_place _ _ _ _ _ _ _ _ _ _ S succ Hs) as Hpl. rewrite decide_False in Hpl by lia.
  pose proof (occ_nonneg succ pend). pose proof (occ_nonneg succ acc). pose proof (occ_nonneg succ closed).
  pose proof (occ_nonneg succ (job_ops js)). pose proof (occ_nonneg succ (pushes js)).
  assert (occ succ closed = 0) as Hcs by (occs; case_decide; lia).
  assert (old = occ succ (concat rest)) as Eold by (unfold old; rewrite (s_ind _ _ _ _ _ _ _ _ _ _ S succ Hs), decide_True by done; done).
  pose proof (occ_le_len succ (concat rest)) as Hfew. pose proof (s_few _ _ _ _ _ _ _ _ _ _ S) as Hfew'.
  assert (old -[32] 1 = old - 1) as Ew by (apply wrap_id; unfold in_word; lia).
  assert (succ <> d) as Hsd by (intros E; rewrite E in *; occs; case_decide; lia).
  exists (aset rest d l'). rewrite Ew. pose proof (jobs_elsewhere js d l' Hj ltac:(lia)) as Hel. pose proof (job_ops_nonneg _ S) as Hjn. destruct S. split; try done.
  - intros i Hi. specialize (s_place0 i Hi). specialize (Ho i). specialize (Hnn i). occs. destruct (decide (succ = i)) as [<-|].
    + destruct (Z.eqb_spec old 1); occs; rewrite ?decide_True by done; repeat case_decide; lia.
    + rewrite Z.add_0_r in Ho. rewrite <- Ho. destruct (Z.eqb_spec old 1); occs; rewrite ?(decide_False (P := succ = i)) by done; lia.
  - intros i Hi. specialize (s_out0 i Hi). assert (succ <> i) by (intros ->; lia). occs. destruct (Z.eqb_spec old 1); occs; rewrite ?(decide_False (P := succ = i)) by done; lia.
  - by rewrite alen_aset.
  - intros i Hi%occ_pos_in. apply s_rest_in0, occ_pos_in. specialize (Ho i). case_decide; lia.
  - by rewrite alen_aset.
  - intros i Hi. rewrite at_aset, (s_ind0 i Hi), (Ho i) by lia. destruct (decide (succ = i)) as [<-|].
    + rewrite !decide_True by lia. lia.
    + by rewrite Z.add_0_r.
  - intros i l Hi. destruct (decide (d = i)) as [<-|].
    + intros _. occs. destruct (Z.eqb_spec old 1); occs; rewrite ?decide_True by done; split; lia.
    + rewrite aget_aset_ne by lia. intros El. specialize (s_rest0 i l Hi El). occs. destruct (Z.eqb_spec old 1); occs; done.
  - intros x [->|Hx]%elem_of_cons.
    + cbn [jop jpoint_]. rewrite aget_aset_eq by lia. destruct (Z.eqb_spec old 1); (split; [lia|done]).
    + specialize (s_job0 x ltac:(by right)). cbn in s_job0 |- *. specialize (Hel (fun j Hj => Hjn j ltac:(by right)) x Hx). unfold op_of in Hel.
      destruct (jpoint_ x); try done; by rewrite Hel.
  - intros i Hi. specialize (s_sub0 i Hi). occs. destruct (Z.eqb_spec old 1); occs; done.
  - intros i. specialize (s_counted0 i). occs. destruct (Z.eqb_spec old 1); occs; done.
  - intros i. specialize (s_started0 i). occs. destruct (Z.eqb_spec old 1); occs; done.
  - status_goes.
  - pose proof (concat_insert rest (Z.to_nat d) _ l' Ed) as E%Permutation_length. rewrite !length_app in E. cbn in E. unfold aset, alen in *. lia.
Qed.
End inv.

Arguments ready_counted {rest closed tr st dc ind sub pend acc} _ _ _ _.
Arguments place_le {rest closed tr st dc ind sub pend acc} _ _ _.

Section start.
Context (rest : list (list Z)) (closed : list Z) (tr : list event) (st : CollectiveOpStatus) (dc : Z) (ind : list Z).
Context (sub : list bool) (pend acc : list Z).

(** A ready operation is handed over or completed locally. *)
Lemma pend_ready js i : sched rest closed tr st dc ind sub (i :: pend) acc js ->
  0 <= i < n /\ occ i (concat rest) = 0 /\ occ i pend = 0 /\ occ i (pushes js) = 0 /\ occ i acc = 0 /\ occ i (job_ops js) = 0 /\ occ i closed = 0.
Proof.
  intros S. assert (0 <= i < n) as Hi.
  { destruct (decide (0 <= i < n)) as [|Hi]; [done|]. pose proof (s_out _ _ _ _ _ _ _ _ _ _ S i Hi) as H. rewrite occ_cons, decide_True in H by done.
    pose proof (occ_nonneg i pend). pose proof (occ_nonneg i (pushes js)). pose proof (occ_nonneg i acc). pose proof (occ_nonneg i (job_ops js)). pose proof (occ_nonneg i closed). lia. }
  pose proof (s_place _ _ _ _ _ _ _ _ _ _ S i Hi) as H. rewrite occ_cons, (decide_True (P := i = i)) in H by done.
  pose proof (occ_nonneg i pend). pose proof (occ_nonneg i (pushes js)). pose proof (occ_nonneg i acc). pose proof (occ_nonneg i (job_ops js)). pose proof (occ_nonneg i closed).
  case_decide; split_and!; lia.
Qed.

Lemma sched_start js js' acc' i :
  (acc' = i :: acc /\ js' = js \/ acc' = acc /\ exists f pa, js' = MkJob i f pa JLoad :: js) ->
  sched rest closed tr st dc ind sub (i :: pend) acc js ->
  sched rest closed (tr ++ [Started i]) st dc ind (aset sub i true) pend acc' js'.
Proof.
  intros Hjs S. destruct (pend_ready js i S) as (Hi & Hr & Hpd & Hps & Ha & Hj & Hc). pose proof (fun o d => ready_counted js i o d S Hi Hr) as Hdeps.
  assert (forall k, occ k (pushes js') = occ k (pushes js) /\ occ k (counted_ops js') = occ k (counted_ops js) /\
    occ k acc' + occ k (job_ops js') = occ k acc + occ k (job_ops js) + (if decide (i = k) then 1 else 0) /\
    occ k (job_ops js) <= occ k (job_ops js')) as Ho.
  { intros k. destruct Hjs as [[-> ->]|[-> (f & pa & ->)]]; occs; repeat case_decide; lia. }
  assert (aget rest i = Some (succs i)) as Er.
  { destruct (aget_is_Some rest i) as [l El]; [by rewrite (s_rest_len _ _ _ _ _ _ _ _ _ _ S)|]. rewrite El. f_equal. by apply (s_rest _ _ _ _ _ _ _ _ _ _ S i l Hi El). }
  destruct S. split; rewrite ?started_snoc, ?counted_snoc, ?finals_snoc; cbn [started_of counted_of final_of]; rewrite ?app_nil_r; try done.
  - intros k Hk. specialize (s_place0 k Hk). destruct (Ho k) as (? & ? & ? & ?). rewrite occ_cons in s_place0. lia.
  - intros k Hk. specialize (s_out0 k Hk). destruct (Ho k) as (? & ? & ? & ?). rewrite occ_cons in s_out0. lia.
  - intros k l Hk El. destruct (s_rest0 k l Hk El) as [R1 R2]. destruct (Ho k) as (? & ? & ? & ?). pose proof (occ_nonneg k (job_ops js)). split; [|done]. intros. apply R1; lia.
  - intros x Hx. destruct Hjs as [[-> ->]|[-> (f & pa & ->)]]; [by apply s_job0|]. apply elem_of_cons in Hx as [->|Hx]; [done|by apply s_job0].
  - by rewrite alen_aset.
  - intros k Hk. specialize (s_sub0 k Hk). destruct (Ho k) as (_ & _ & Hk' & _). destruct (decide (i = k)) as [<-|].
    + rewrite aget_aset_eq by lia. cbn. lia.
    + rewrite aget_aset_ne by lia. lia.
  - intros k. specialize (s_counted0 k). destruct (Ho k) as (? & ? & ? & ?). lia.
  - intros k. rewrite occ_app, (s_started0 k), occ_cons, occ_nil. destruct (Ho k) as (? & ? & ? & ?). lia.
  - apply deps_first_snoc; [done|]. intros i' o d [= <-]. apply Hdeps.
  - destruct s_status0 as [(? & ? & H)|?]; [left|by right]. split_and!; try done. intros E. specialize (H E). by destruct Hjs as [[-> ->]|[-> (f & pa & ->)]].
Qed.

(** [try_claim] of a completed operation. *)
Lemma sched_claim js i f pa : sched rest closed tr st dc ind sub pend (i :: acc) js ->
  sched rest closed tr st dc ind sub pend acc (MkJob i f pa JLoad :: js).
Proof.
  intros S. assert (0 <= i < n /\ aget rest i = Some (succs i)) as [Hi Er].
  { destruct (place_le _ i S) as [H1 H2]. rewrite occ_cons, decide_True in H1, H2 by done. pose proof (occ_nonneg i pend). pose proof (occ_nonneg i acc).
    pose proof (occ_nonneg i (pushes js)). pose proof (occ_nonneg i (job_ops js)). pose proof (occ_nonneg i closed).
    assert (0 <= i < n) as Hi by lia. split; [done|]. destruct (aget_is_Some rest i) as [l El]; [by rewrite (s_rest_len _ _ _ _ _ _ _ _ _ _ S)|].
    rewrite El. f_equal. apply (s_rest _ _ _ _ _ _ _ _ _ _ S i l Hi El); lia. }
  destruct S. split; try done.
  - intros k Hk. specialize (s_place0 k Hk). occs. lia.
  - intros k Hk. specialize (s_out0 k Hk). occs. lia.
  - intros k l Hk El. destruct (s_rest0 k l Hk El) as [R1 R2]. split; [|done]. occs. pose proof (occ_nonneg k (flat_map op_of js)). intros. apply R1; case_decide; lia.
  - intros x [->|Hx]%elem_of_cons; [done|by apply s_job0].
  - intros k Hk. specialize (s_sub0 k Hk). occs. lia.
  - intros k. specialize (s_started0 k). occs. lia.
  - destruct s_status0 as [(? & ? & H)|?]; [left|by right]. by split_and!.
Qed.
End start.

(** ** The invariant of a run *)

Definition enq_pend (x : ephase) : list Z :=
  match x with
  | Collecting ready => ready
  | Processing todo dev tpt | Completing _ todo dev tpt => todo ++ map didx dev ++ map didx tpt
  | SubmitDev dev tpt => map didx dev ++ map didx tpt
  | SubmitTpt tpt => map didx tpt
  end.

(** The operations that are ready but not started, that backends have, and all jobs. *)
Definition waiting (r : run) : list Z := deferred_sig r ++ deferred_tpt r ++ deferred_dev r ++ enq_pend (enq r).
Definition at_backends (r : run) : list Z := map (fun x => x.1.2) (accepted r).
Definition all_jobs (r : run) : list job := match enq r with Completing j _ _ _ => j :: jobs r | _ => jobs r end.

Definition sched_run (rest : list (list Z)) (closed : list Z) (tr : list event) (r : run) (wait acc : list Z) (js : list job) : Prop :=
  sched rest closed tr (status r) (done_count r) (indegree r) (submitted r) (ready_ring r ++ wait) acc js.

Definition inv (tr : list event) (r : run) : Prop :=
  exists rest closed, sched_run rest closed tr r (waiting r) (at_backends r) (all_jobs r).

(** What the processing of a completion leaves alone. *)
Definition same_threads (r r' : run) : Prop :=
  enq r' = enq r /\ accepted r' = accepted r /\ jobs r' = jobs r /\
  deferred_dev r' = deferred_dev r /\ deferred_tpt r' = deferred_tpt r /\ deferred_sig r' = deferred_sig r.

Lemma sched_job rest closed tr r wait acc j js sample ms ev o r' ms' : job_step p j sample r ms = (ev, o, r', ms') ->
  sched_run rest closed tr r wait acc (j :: js) ->
  same_threads r r' /\
  exists rest' closed', sched_run rest' closed' (tr ++ [ev]) r' wait acc (match o with Some j' => j' :: js | None => js end).
Proof.
  destruct j as [d f pa q]. unfold job_step, sched_run. cbn [jop jpoint_]. intros E S. pose proof (s_job _ _ _ _ _ _ _ _ _ _ S _ ltac:(left)) as Hj. cbn [jop jpoint_] in Hj.
  destruct q as [| | |k|s k| | | |].
  - destruct (job_open _ _ _ _ _ _ _ _ _ _ _ S eq_refl) as (Hd & Hc & Hr & _). cbn [jop] in *. rewrite (s_ind _ _ _ _ _ _ _ _ _ _ S d Hd), decide_True, Hr in E by done.
    cbn in E. injection E as <- <- <- <-. split; [done|]. exists rest, closed. apply sched_silent. by eapply sched_goes; [..|exact S].
  - injection E as <- <- <- <-. split; [done|]. exists rest, closed. by apply sched_count.
  - injection E as <- <- <- <-. split; [done|]. exists rest, closed. apply sched_silent. eapply sched_goes; [..|exact S]; try done. cbn [goes jop jpoint_].
    destruct (job_open _ _ _ _ _ _ _ _ _ _ _ S eq_refl) as (Hd & _). cbn [jop] in Hd. destruct (row d Hd) as (H0 & H1 & H2).
    change (at_ (offsets 0 (succ_count os)) d) with (off d). rewrite H2. split; [lia|done].
  - destruct (Z.ltb_spec k (off (d + 1))).
    + injection E as <- <- <- <-. split; [done|]. destruct (sched_release _ _ _ _ _ _ _ _ _ _ _ _ _ _ H S) as [rest' S']. exists rest', closed. by apply sched_silent.
    + injection E as <- <- <- <-. split; [done|]. exists rest, closed. apply sched_silent. eapply sched_goes; [..|exact S]; try done. cbn [goes jop jpoint_].
      destruct Hj as [Hk ->]. unfold slice. by replace (Z.to_nat (off (d + 1) - k)) with 0%nat by lia.
  - injection E as <- <- <- <-. split; [done|]. exists rest, closed. apply sched_silent. eapply sched_perm; [..|by apply sched_push in S]; try done.
    intros i. cbn. rewrite !occ_app. lia.
  - injection E as <- <- <- <-. split; [done|]. exists rest, (d :: closed). apply sched_silent. by apply sched_store.
  - case_decide as Hs; injection E as <- <- <- <-; (split; [done|]); exists rest, closed; apply sched_silent.
    + by eapply sched_goes; [..|exact S].
    + by eapply sched_ends; [..|exact S].
  - pose proof (counted_range _ _ _ _ _ _ _ _ _ _ S). change (alen (ops (tiled p))) with n in E.
    destruct (Z.ltb_spec (done_count r) n); injection E as <- <- <- <-; (split; [done|]); exists rest, closed; apply sched_silent.
    + eapply sched_ends; [..|exact S]; try done. lia.
    + eapply sched_goes; [..|exact S]; try done. cbn. lia.
  - case_decide as Hs; injection E as <- <- <- <-; (split; [done|]); exists rest, closed.
    + by eapply sched_swap.
    + apply sched_silent. by eapply sched_ends; [..|exact S].
Qed.

Section steps.
Context (e : env) (inplace : bool).

(** Rearranging what is ready. *)
Lemma sched_run_occ rest closed tr r wait acc js r' wait' acc' js' :
  status r' = status r -> done_count r' = done_count r -> indegree r' = indegree r -> submitted r' = submitted r ->
  (forall i, occ i (ready_ring r' ++ wait') = occ i (ready_ring r ++ wait)) -> (forall i, occ i acc' = occ i acc) -> js ≡ₚ js' ->
  sched_run rest closed tr r wait acc js -> sched_run rest closed tr r' wait' acc' js'.
Proof. unfold sched_run. intros -> -> -> ->. apply sched_perm. Qed.

Ltac occ_rearrange := intros ?; cbn; rewrite ?map_app, ?occ_app, ?occ_cons; cbn; rewrite ?occ_app, ?occ_cons, ?occ_nil; lia.

Lemma accept_same b d r :
  status (accept p b d r) = status r /\ done_count (accept p b d r) = done_count r /\ indegree (accept p b d r) = indegree r /\
  ready_ring (accept p b d r) = ready_ring r /\ submitted (accept p b d r) = aset (submitted r) (didx d) true /\
  deferred_dev (accept p b d r) = deferred_dev r /\ deferred_tpt (accept p b d r) = deferred_tpt r /\ deferred_sig (accept p b d r) = deferred_sig r /\
  jobs (accept p b d r) = jobs r /\ at_backends (accept p b d r) = at_backends r ++ [didx d].
Proof. unfold accept, count_fused, at_backends. destruct (dfused d); cbn; by rewrite map_app. Qed.

(** A backend accepts an operation of the enqueue thread. *)
Lemma inv_accept tr b d r x : (forall i, occ i (enq_pend (enq r)) = occ i (didx d :: enq_pend x)) -> (forall j a b c, x <> Completing j a b c) ->
  all_jobs r = jobs r -> inv tr r -> inv (tr ++ [Started (didx d)]) (with_enq x (accept p b d r)).
Proof.
  intros Ho Hx Hj (rest & closed & S). exists rest, closed. destruct (accept_same b d r) as (E1 & E2 & E3 & E4 & E5 & E6 & E7 & E8 & E9 & E10).
  unfold sched_run, waiting, all_jobs in *. change (at_backends (with_enq x ?r)) with (at_backends r).
  cbn [with_enq status done_count indegree submitted ready_ring deferred_sig deferred_tpt deferred_dev enq jobs]. rewrite E1, E2, E3, E4, E5, E6, E7, E8, E9, E10.
  rewrite Hj in S. assert (match x with Completing j _ _ _ => j :: jobs r | _ => jobs r end = jobs r) as -> by (destruct x; [done..|by edestruct Hx|done|done]).
  set (w := ready_ring r ++ deferred_sig r ++ deferred_tpt r ++ deferred_dev r ++ enq_pend x).
  apply (sched_perm rest closed _ _ _ _ _ w (didx d :: at_backends r) (jobs r)); [done|occ_rearrange|done|].
  apply (sched_start _ _ _ _ _ _ _ _ (at_backends r) (jobs r)); [by left|].
  eapply sched_perm; [..|exact S]; [|done|done]. intros i. specialize (Ho i). unfold w. rewrite occ_cons in Ho. rewrite !occ_cons, !occ_app, Ho. lia.
Qed.

Lemma inv_silent tr r r' : status r' = status r -> done_count r' = done_count r -> indegree r' = indegree r -> submitted r' = submitted r ->
  (forall i, occ i (ready_ring r' ++ waiting r') = occ i (ready_ring r ++ waiting r)) -> accepted r' = accepted r -> all_jobs r' = all_jobs r ->
  inv tr r -> inv (tr ++ [Silent]) r'.
Proof.
  intros E1 E2 E3 E4 E5 E6 E7 (rest & closed & S). exists rest, closed. apply sched_silent. unfold at_backends. rewrite E6, E7.
  by apply (sched_run_occ rest closed tr r (waiting r) (at_backends r) (all_jobs r)).
Qed.

Lemma route_didx idx o ms : didx (route e p inplace idx o ms).1 = idx.
Proof.
  unfold route. destruct (remote _); [|done]. destruct (choose_path _ _ _) as [path ms']. by destruct (choose_fusion _ _ _ _ _ _) as [[fuse path'] ms''].
Qed.

(** The enqueue thread completes an operation itself. *)
Lemma inv_local tr r idx todo dev tpt : enq r = Processing (idx :: todo) dev tpt -> inv tr r ->
  inv (tr ++ [Started idx]) (with_enq (Completing (MkJob idx Sig PathNone JLoad) todo dev tpt) (with_submitted idx r)).
Proof.
  intros Ee (rest & closed & S). exists rest, closed. unfold sched_run, waiting, all_jobs in *. rewrite Ee in S. cbn.
  apply (sched_start _ _ _ _ _ _ _ _ (at_backends r) (jobs r)); [right; eauto|].
  eapply sched_perm; [..|exact S]; [|done|done]. occ_rearrange.
Qed.

Lemma inv_process tr ok idx o todo dev tpt r ms ev r' ms' : enq r = Processing (idx :: todo) dev tpt ->
  process e p inplace ok idx o todo dev tpt r ms = (ev, r', ms') -> inv tr r -> inv (tr ++ [ev]) r'.
Proof.
  intros Ee E I. unfold process in E. pose proof (route_didx idx o ms) as Ed. destruct (route e p inplace idx o ms) as [d ms0]. cbn in Ed.
  assert (all_jobs r = jobs r) as Ej by (unfold all_jobs; by rewrite Ee).
  assert (forall q, inv (tr ++ [Started idx]) (with_enq (Processing todo dev tpt) (accept p q d r))) as Ha.
  { intros q. rewrite <- Ed. apply inv_accept; [|done|done|done]. rewrite Ee, Ed. occ_rearrange. }
  assert (forall dev' tpt', (forall i, occ i (map didx dev' ++ map didx tpt') = occ i (idx :: map didx dev ++ map didx tpt)) ->
    inv (tr ++ [Silent]) (with_enq (Processing todo dev' tpt') r)) as Hq.
  { intros dev' tpt' Ho. eapply inv_silent; [..|exact I]; try done. intros i. specialize (Ho i). unfold waiting. rewrite Ee. cbn.
    rewrite ?occ_app, ?occ_cons, ?occ_app in *. lia. }
  assert (inv (tr ++ [Silent]) (with_enq (Processing todo dev tpt) (with_deferred (deferred_dev r) (deferred_tpt r) (deferred_sig r ++ [idx]) r))) as Hd.
  { eapply inv_silent; [..|exact I]; try done. unfold waiting. rewrite Ee. occ_rearrange. }
  destruct (tkind o);
    repeat match type of E with context [if ?b then _ else _] => destruct b end; injection E as <- <- <-; try done;
    try (apply Hq; rewrite <- Ed; occ_rearrange); by apply inv_local.
Qed.

Lemma not_submitted tr r i : inv tr r -> i ∈ ready_ring r -> default false (aget (submitted r) i) = false.
Proof.
  intros (rest & closed & S) (l1 & l2 & E)%list_elem_of_split. unfold sched_run in S. rewrite E in S.
  destruct (pend_ready rest closed tr (status r) (done_count r) (indegree r) (submitted r) (l1 ++ l2 ++ waiting r) (at_backends r) (all_jobs r) i) as (Hi & _ & _ & _ & Ha & Hj & Hc).
  - eapply sched_perm; [..|exact S]; [|done|done]. occ_rearrange.
  - pose proof (s_sub _ _ _ _ _ _ _ _ _ _ S i Hi) as H. by destruct (default false _); [lia|].
Qed.

Lemma inv_enqueue tr ok sample r ms ev r' ms' : enqueue_step e p inplace ok sample r ms = Some (ev, r', ms') -> inv tr r -> inv (tr ++ [ev]) r'.
Proof.
  unfold enqueue_step. intros E I. destruct (enq r) as [ready|[|idx todo] dev tpt|j todo dev tpt|[|d dev] tpt|[|d tpt]] eqn:Ee.
  - destruct (ready_ring r) as [|idx ring] eqn:Er; injection E as <- <- <-; (eapply inv_silent; [..|exact I]); try done;
      try (unfold all_jobs; rewrite Ee; done); unfold waiting; cbn; rewrite ?Ee, ?Er; [occ_rearrange|].
    rewrite (not_submitted tr r idx I) by (rewrite Er; left). occ_rearrange.
  - injection E as <- <- <-. eapply inv_silent; [..|exact I]; try done; [|unfold all_jobs; by rewrite Ee]. unfold waiting. rewrite Ee. occ_rearrange.
  - destruct (aget _ idx) as [o|]; [|done]. cbn in E. injection E as E. by eapply inv_process.
  - destruct (job_step p j sample r ms) as [[[ev0 o] r0] ms0] eqn:Es. injection E as <- <- <-. destruct I as (rest & closed & S).
    unfold all_jobs in S. rewrite Ee in S. destruct (sched_job _ _ _ _ _ _ _ _ _ _ _ _ _ _ Es S) as [(E1 & E2 & E3 & E4 & E5 & E6) (rest' & closed' & S')].
    exists rest', closed'. eapply sched_run_occ; [..|exact S']; try done.
    + unfold waiting. destruct o; cbn; rewrite Ee, E4, E5, E6; done.
    + unfold at_backends. cbn. by rewrite E2.
    + unfold all_jobs. destruct o; cbn; by rewrite E3.
  - injection E as <- <- <-. eapply inv_silent; [..|exact I]; try done; [|unfold all_jobs; by rewrite Ee]. unfold waiting. rewrite Ee. occ_rearrange.
  - destruct ok; injection E as <- <- <-.
    + apply inv_accept; [rewrite Ee; occ_rearrange|done|by unfold all_jobs; rewrite Ee|done].
    + eapply inv_silent; [..|exact I]; try done; [|unfold all_jobs; by rewrite Ee]. unfold waiting. rewrite Ee. occ_rearrange.
  - injection E as <- <- <-. eapply inv_silent; [..|exact I]; try done; [|unfold all_jobs; by rewrite Ee]. unfold waiting. rewrite Ee. occ_rearrange.
  - destruct ok; injection E as <- <- <-.
    + apply inv_accept; [rewrite Ee; occ_rearrange|done|by unfold all_jobs; rewrite Ee|done].
    + eapply inv_silent; [..|exact I]; try done; [|unfold all_jobs; by rewrite Ee]. unfold waiting. rewrite Ee. occ_rearrange.
Qed.

Lemma inv_claim tr i r ms ev r' ms' : claim_step i r ms = Some (ev, r', ms') -> inv tr r -> inv (tr ++ [ev]) r'.
Proof.
  unfold claim_step. intros E (rest & closed & S). destruct (accepted r !! i) as [[[b idx] path]|] eqn:Ei; [|done]. cbn in E. injection E as <- <- <-.
  exists rest, closed. apply sched_silent. pose proof (delete_Permutation _ _ _ Ei) as Hperm.
  assert (forall k, occ k (idx :: map (fun x => x.1.2) (delete i (accepted r))) = occ k (at_backends r)) as Ho.
  { intros k. apply occ_perm. symmetry. exact (Permutation_map (fun x => x.1.2) Hperm). }
  assert (MkJob idx b path JLoad :: all_jobs r ≡ₚ all_jobs (with_jobs (jobs r ++ [MkJob idx b path JLoad]) (with_accepted (delete i (accepted r)) r))) as Hj.
  { unfold all_jobs. cbn. pose proof (Permutation_cons_append (jobs r) (MkJob idx b path JLoad)) as Hc. destruct (enq r); try done. rewrite <- Hc. apply Permutation_swap. }
  eapply sched_perm; [..|eapply sched_claim]; [done|done|exact Hj|].
  eapply sched_perm; [..|exact S]; [done|exact Ho|done].
Qed.

Lemma inv_drain tr i sample r ms ev r' ms' : drain_step p i sample r ms = Some (ev, r', ms') -> inv tr r -> inv (tr ++ [ev]) r'.
Proof.
  unfold drain_step. intros E (rest & closed & S). destruct (jobs r !! i) as [j|] eqn:Ei; [|done]. cbn in E.
  destruct (job_step p j sample r ms) as [[[ev0 o] r0] ms0] eqn:Es. injection E as <- <- <-. pose proof (delete_Permutation _ _ _ Ei) as Hperm.
  set (pre := match enq r with Completing j _ _ _ => [j] | _ => [] end).
  assert (all_jobs r = pre ++ jobs r) as Ea by (unfold all_jobs, pre; by destruct (enq r)).
  assert (all_jobs r ≡ₚ j :: pre ++ delete i (jobs r)) as Hj by (rewrite Ea; transitivity (pre ++ j :: delete i (jobs r)); [by apply Permutation_app_head|symmetry; apply Permutation_middle]).
  apply (sched_run_occ rest closed tr r (waiting r) (at_backends r) (all_jobs r) r (waiting r) (at_backends r) (j :: pre ++ delete i (jobs r))) in S; try done.
  destruct (sched_job _ _ _ _ _ _ _ _ _ _ _ _ _ _ Es S) as [(E1 & E2 & E3 & E4 & E5 & E6) (rest' & closed' & S')].
  exists rest', closed'. eapply sched_run_occ; [..|exact S']; try done.
  - unfold waiting. cbn. by rewrite E1, E4, E5, E6.
  - unfold at_backends. cbn. by rewrite E2.
  - assert (forall x : list job, all_jobs (with_jobs x r0) = pre ++ x) as -> by (intros; unfold all_jobs, pre; cbn; rewrite E1; by destruct (enq r)).
    rewrite E3. destruct o as [j'|]; [|done]. pose proof (lookup_lt_Some _ _ _ Ei). rewrite insert_delete by done. apply Permutation_middle.
Qed.

Lemma inv_wait tr r ms ev r' ms' : wait_step r ms = Some (ev, r', ms') -> inv tr r -> inv (tr ++ [ev]) r'.
Proof.
  unfold wait_step. intros E (rest & closed & S). case_decide as Hs; [|done]. injection E as <- <- <-. set (j := MkJob 0 Sig PathNone JStatus).
  exists rest, closed. apply sched_silent. apply (sched_run_occ rest closed tr r (waiting r) (at_backends r) (j :: all_jobs r)); try done.
  - unfold all_jobs. cbn. pose proof (Permutation_cons_append (jobs r) j) as Hc. destruct (enq r); try done. rewrite <- Hc. apply Permutation_swap.
  - destruct S. split; try done.
    + intros x [->|Hx]%elem_of_cons; [done|by apply s_job0].
    + status_goes.
Qed.

Lemma executor_step_inv tr r ms ev r' ms' : step e p inplace (r, ms) ev (r', ms') -> inv tr r -> inv (tr ++ [ev]) r'.
Proof. inversion 1; subst; [by eapply inv_enqueue|by eapply inv_claim|by eapply inv_drain|by eapply inv_wait]. Qed.

(** ** The start *)

Lemma nodup_occ i l : NoDup l -> occ i l = if decide (i ∈ l) then 1 else 0.
Proof.
  induction 1 as [|x l Hx _ IH]; [by rewrite decide_False by apply not_elem_of_nil|]. rewrite occ_cons, IH. pose proof (elem_of_cons l i x) as Hc.
  repeat case_decide; naive_solver.
Qed.

Lemma rest_start i o : 0 <= i -> aget os i = Some o -> occ i (concat (map succs (seqZ 0 n))) = alen (tdeps o).
Proof. intros Hi E. rewrite (occ_perm _ _ _ (rows_edges n (edges os) (deps_in_range _ Hp))). by apply occ_edges. Qed.

Lemma submit_inv : 0 < n -> inv [] (submit p).
Proof.
  intros Hn. exists (map succs (seqZ 0 n)), []. unfold sched_run, waiting, at_backends, all_jobs. cbn. pose proof (rows_edges n (edges os) (deps_in_range _ Hp)) as Hrows.
  split; cbn; rewrite ?app_nil_r; try done.
  - intros i Hi. destruct (aget_is_Some os i Hi) as [o Eo]. rewrite (rest_start i o), nodup_occ by (apply no_deps_nodup || lia || done). rewrite !occ_nil.
    pose proof (in_no_deps os i) as Hin. case_decide as H1; case_decide as H2; try lia.
    + destruct (proj1 Hin H1) as (o' & _ & Eo' & Ed). rewrite Eo in Eo'. injection Eo' as <-. rewrite Ed in H2. by destruct H2.
    + destruct H1. apply Hin. exists o. split_and!; [lia|done|]. by destruct (tdeps o); [|unfold alen in H2; cbn in H2; lia].
  - intros i Hi. rewrite !occ_nil, (proj2 (occ_zero i (no_deps os))); [done|]. intros (o & H0 & Eo & _)%in_no_deps. apply Hi. by split; [|eapply aget_Some_lt].
  - unfold alen. rewrite length_map, length_seqZ. lia.
  - intros i Hi. rewrite Hrows in Hi. apply list_elem_of_fmap in Hi as ([j d] & -> & (o & H0 & Eo & _)%edge_in). cbn. by split; [|eapply aget_Some_lt].
  - unfold alen. by rewrite length_map.
  - intros i Hi. destruct (aget_is_Some os i Hi) as [o Eo]. rewrite decide_True, (rest_start i o) by (done || lia).
    by apply (indegree_right t); [|lia|].
  - intros d l Hd. unfold aget. rewrite list_lookup_fmap, lookup_seqZ_lt by lia. intros [= <-]. split; [|rewrite occ_nil; lia]. intros _ _. f_equal. lia.
  - intros j Hj. by apply elem_of_nil in Hj.
  - unfold alen. rewrite length_replicate. lia.
  - intros i Hi. unfold aget. rewrite lookup_replicate_2 by lia. done.
  - intros pre post i o d E. by destruct pre.
  - left. split_and!; [done|done|]. lia.
  - pose proof (Permutation_length Hrows) as E. rewrite length_map in E. pose proof (few_edges _ Hp). change (to_dep (edges os)) with succs in E. unfold alen in *. lia.
Qed.

Lemma inv_runs ms tr y : 0 < n -> runs e p inplace (submit p, ms) tr y -> inv tr y.1.
Proof.
  intros Hn. induction 1 as [|tr ev [r ms1] [r' ms2] _ IH Hs]; [by apply submit_inv|]. by eapply executor_step_inv.
Qed.

Lemma runs_prefix x tr tr' y : runs e p inplace x (tr ++ tr') y -> exists z, runs e p inplace x tr z.
Proof.
  revert y. induction tr' as [|ev tr' IH] using rev_ind; intros y H; [rewrite app_nil_r in H; eauto|]. rewrite app_assoc in H.
  inversion H as [E|tr0 ev0 y0 z0 Hr Hs E Ez]; [by destruct (tr ++ tr')|]. apply app_inj_tail in E as [-> ->]. by eapply IH.
Qed.

(** What a trace promises: at most one start, completion and end, in order. *)
Definition well_scheduled (tr : list event) : Prop :=
  NoDup (started tr) /\ NoDup (counted tr) /\
  forall pre ev post, tr = pre ++ ev :: post ->
    match ev with
    | Silent => True
    | Started i => 0 <= i < n /\ forall o d, aget os i = Some o -> d ∈ tdeps o -> d ∈ counted pre
    | Counted i => i ∈ started pre
    | Finalized => (forall i, 0 <= i < n -> i ∈ counted pre) /\ finals pre = []
    end.

Lemma counted_le_started tr r i : inv tr r -> occ i (counted tr) <= occ i (started tr) <= 1 /\ (0 < occ i (started tr) -> 0 <= i < n).
Proof.
  intros (rest & closed & S). rewrite (s_counted _ _ _ _ _ _ _ _ _ _ S), (s_started _ _ _ _ _ _ _ _ _ _ S). pose proof (counted_jobs (all_jobs r) i).
  destruct (place_le (all_jobs r) i S) as [H1 H2]. pose proof (occ_nonneg i (ready_ring r ++ waiting r)). pose proof (occ_nonneg i (pushes (all_jobs r))).
  pose proof (occ_nonneg i (at_backends r)). split; [lia|]. intros. apply H2. lia.
Qed.

Lemma all_counted tr r : inv tr r -> done_count r = n -> forall i, 0 <= i < n -> i ∈ counted tr.
Proof.
  intros I En i Hi. pose proof (fun k => counted_le_started tr r k I) as Hc. pose proof I as (rest & closed & S).
  pose proof (s_done _ _ _ _ _ _ _ _ _ _ S) as Ed. rewrite En in Ed.
  destruct (decide (i ∈ counted tr)) as [|Hni]; [done|]. enough (alen (i :: counted tr) <= n) by (rewrite alen_cons in *; lia).
  apply in_range_length.
  - intros k. specialize (Hc k). rewrite occ_cons. case_decide as Ek; [|lia]. subst k. rewrite (proj2 (occ_zero i _) Hni). lia.
  - intros k [->|Hk%occ_pos_in]%elem_of_cons; [done|]. specialize (Hc k). lia.
Qed.

Lemma runs_well_scheduled ms tr y : 0 < n -> runs e p inplace (submit p, ms) tr y -> well_scheduled tr.
Proof.
  intros Hn Hr. pose proof (inv_runs ms tr y Hn Hr) as I. split_and!.
  - apply occ_nodup. intros i. pose proof (counted_le_started _ _ i I). lia.
  - apply occ_nodup. intros i. pose proof (counted_le_started _ _ i I). lia.
  - intros pre ev post E. replace (pre ++ ev :: post) with ((pre ++ [ev]) ++ post) in E by by rewrite <- app_assoc. rewrite E in Hr.
    destruct (runs_prefix _ _ _ _ Hr) as [z Hz]. pose proof (inv_runs ms _ z Hn Hz) as Iz. pose proof (fun i => counted_le_started _ _ i Iz) as Hc.
    destruct ev as [|i|i|]; [done| | |].
    + split.
      * apply (Hc i). rewrite started_snoc, occ_app. cbn. rewrite occ_cons, decide_True by done. pose proof (occ_nonneg i (started pre)). rewrite occ_nil. lia.
      * intros o d Eo Hd. destruct Iz as (rest & closed & S). by apply (s_order _ _ _ _ _ _ _ _ _ _ S pre [] i o d).
    + specialize (Hc i). rewrite counted_snoc, started_snoc, !occ_app in Hc. cbn in Hc. rewrite occ_cons, decide_True, !occ_nil in Hc by done.
      apply occ_pos_in. pose proof (occ_nonneg i (counted pre)). lia.
    + pose proof Iz as (rest & closed & S). pose proof (s_status _ _ _ _ _ _ _ _ _ _ S) as Hs. rewrite finals_snoc in Hs. cbn in Hs.
      destruct Hs as [(_ & H & _)|(_ & H & Hd)]; [by destruct (finals pre)|]. split; [|by destruct (finals pre) as [|? [|]]; inversion H].
      intros i Hi. pose proof (all_counted _ _ Iz Hd i Hi) as Hcn. rewrite counted_snoc in Hcn. cbn in Hcn. by rewrite app_nil_r in Hcn.
Qed.

(** ** The work that is left *)

(** The enqueue thread finds nothing to do. *)
Definition idle (r : run) : Prop := enq r = Collecting [] /\ ready_ring r = [] /\ deferred_sig r = [] /\ deferred_tpt r = [] /\ deferred_dev r = [].

(** The steps without refusals and idle polls. *)
Inductive works : run * metrics -> run * metrics -> Prop :=
| works_enqueue sample r ms ev r' ms' : ~ idle r -> enqueue_step e p inplace true sample r ms = Some (ev, r', ms') -> works (r, ms) (r', ms')
| works_claim i r ms ev r' ms' : claim_step i r ms = Some (ev, r', ms') -> works (r, ms) (r', ms')
| works_drain i sample r ms ev r' ms' : drain_step p i sample r ms = Some (ev, r', ms') -> works (r, ms) (r', ms').

Definition row_left (d k : Z) : Z := 30 * Z.max 0 (off (d + 1) - k).

Definition job_work (j : job) : Z :=
  let d := jop j in
  match jpoint_ j with
  | JLoad => row_left d (off d) + 8
  | JCount => row_left d (off d) + 7
  | JCallback => row_left d (off d) + 6
  | JRelease k => row_left d k + 5
  | JPush _ k => row_left d k + 30
  | JStore => 4
  | JStatus => 3
  | JDone => 2
  | JSwap => 1
  end.

Definition enq_work (x : ephase) : Z :=
  match x with
  | Collecting ready => 10 * alen ready
  | Processing todo dev tpt => 5 * alen todo + 2 * alen dev + 2 * alen tpt + 3
  | Completing j todo dev tpt => job_work j + 5 * alen todo + 2 * alen dev + 2 * alen tpt + 3
  | SubmitDev dev tpt => 2 * alen dev + 2 * alen tpt + 2
  | SubmitTpt tpt => 2 * alen tpt + 1
  end.

Fixpoint sum_of {A} (f : A -> Z) (l : list A) : Z := match l with [] => 0 | x :: l => f x + sum_of f l end.

Definition acc_work (x : backend * Z * PutPath) : Z := row_left x.1.2 (off x.1.2) + 9.

Definition unsent (b : bool) : Z := if b then 0 else 1.

(** What an operation that has not been handed over will cost. *)
Definition op_work : Z := 30 * alen (edges os) + 10.

Definition work (r : run) : Z :=
  op_work * sum_of unsent (submitted r) + 20 * alen (ready_ring r) +
  10 * (alen (deferred_sig r) + alen (deferred_tpt r) + alen (deferred_dev r)) + enq_work (enq r) +
  sum_of acc_work (accepted r) + sum_of job_work (jobs r).

Lemma sum_of_perm {A} (f : A -> Z) l k : l ≡ₚ k -> sum_of f l = sum_of f k.
Proof. induction 1; cbn; lia. Qed.

Lemma sum_of_snoc {A} (f : A -> Z) l x : sum_of f (l ++ [x]) = sum_of f l + f x.
Proof. rewrite (sum_of_perm f _ (x :: l)) by (symmetry; apply Permutation_cons_append). cbn. lia. Qed.

Lemma sum_of_delete {A} (f : A -> Z) l i x : l !! i = Some x -> sum_of f l = f x + sum_of f (delete i l).
Proof. intros E%delete_Permutation%(sum_of_perm f). done. Qed.

Lemma sum_of_insert {A} (f : A -> Z) l i x y : l !! i = Some x -> sum_of f (<[i := y]> l) = sum_of f l - f x + f y.
Proof. intros E. rewrite (sum_of_delete f l i x E), (sum_of_perm f _ _ (insert_delete l i y (lookup_lt_Some _ _ _ E))). cbn. lia. Qed.

Lemma job_work_pos j : 0 < job_work j.
Proof. unfold job_work, row_left. destruct (jpoint_ j); lia. Qed.

Lemma sum_of_nonneg {A} (f : A -> Z) l : (forall x, 0 <= f x) -> 0 <= sum_of f l.
Proof. intros H. induction l as [|x l IH]; cbn; [lia|]. specialize (H x). lia. Qed.

Lemma work_nonneg r : 0 <= work r.
Proof.
  unfold work, op_work. pose proof (alen_nonneg (edges os)). pose proof (sum_of_nonneg unsent (submitted r) (fun b => ltac:(by destruct b))).
  pose proof (sum_of_nonneg job_work (jobs r) (fun j => ltac:(pose proof (job_work_pos j); lia))).
  pose proof (sum_of_nonneg acc_work (accepted r) (fun x => ltac:(unfold acc_work, row_left; lia))).
  assert (0 <= enq_work (enq r)) by (unfold enq_work; destruct (enq r) as [| |j| |]; try pose proof (job_work_pos j); unfold alen; lia).
  unfold alen in *. nia.
Qed.

(** A step of a job lowers its work by more than what it puts on the ring. *)
Lemma job_step_work j sample r ms ev o r' ms' : job_step p j sample r ms = (ev, o, r', ms') ->
  submitted r' = submitted r /\ from_option job_work 0 o + 20 * alen (ready_ring r') < job_work j + 20 * alen (ready_ring r).
Proof.
  pose proof (job_work_pos j) as Hpos. unfold job_step. destruct j as [d f pa q]. unfold job_work in *. cbn [jop jpoint_] in *.
  destruct q as [| | |k|s k| | | |]; intros E; repeat match type of E with context [if ?b then _ else _] => destruct b eqn:? end; injection E as <- <- <- <-;
    (split; [done|]); cbn [from_option goes jop jpoint_ with_count with_ring with_indegree with_status ready_ring];
    rewrite ?alen_app, ?alen_cons, ?alen_nil; unfold row_left in *; try lia.
  change (at_ (offsets 0 (succ_count os)) d) with (off d). lia.
Qed.

Lemma row_left_le d : 0 <= d < n -> row_left d (off d) <= 30 * alen (edges os).
Proof.
  intros Hd. destruct (csr_row os (deps_in_range _ Hp) ltac:(pose proof (few_edges _ Hp); lia) d Hd) as (_ & E & _ & _). unfold row_left.
  pose proof (cnt_le d (edges os)) as Hc. unfold cnt in Hc. fold (succs d) in Hc. cbn. lia.
Qed.

(** A ready operation can be found and has not been handed over. *)
Lemma ready_op tr r i : inv tr r -> i ∈ enq_pend (enq r) -> 0 <= i < n /\ aget (submitted r) i = Some false.
Proof.
  intros (rest & closed & S) (l1 & l2 & E)%list_elem_of_split. unfold sched_run, waiting in S. rewrite E in S.
  set (w := ready_ring r ++ deferred_sig r ++ deferred_tpt r ++ deferred_dev r ++ l1 ++ l2).
  destruct (pend_ready rest closed tr (status r) (done_count r) (indegree r) (submitted r) w (at_backends r) (all_jobs r) i) as (Hi & _ & _ & _ & Ha & Hj & Hc).
  - eapply sched_perm; [..|exact S]; [|done|done]. unfold w. occ_rearrange.
  - split; [done|]. pose proof (s_sub _ _ _ _ _ _ _ _ _ _ S i Hi) as H. destruct (aget_is_Some (submitted r) i) as [b Eb]; [by rewrite (s_sub_len _ _ _ _ _ _ _ _ _ _ S)|].
    rewrite Eb in *. cbn in H. by destruct b; [lia|].
Qed.

Lemma hand_over (l : list bool) i : aget l i = Some false -> sum_of unsent (aset l i true) = sum_of unsent l - 1.
Proof. intros E. unfold aset. rewrite (sum_of_insert unsent l _ false true) by exact E. cbn. lia. Qed.

Lemma accept_work tr b d r x : inv tr r -> didx d ∈ enq_pend (enq r) -> enq_work x + 1 <= enq_work (enq r) ->
  work (with_enq x (accept p b d r)) < work r.
Proof.
  intros I Hin Hx. destruct (ready_op tr r _ I Hin) as [Hi Hs]. destruct (accept_same b d r) as (_ & _ & _ & E4 & E5 & E6 & E7 & E8 & E9 & _).
  assert (exists pa, accepted (accept p b d r) = accepted r ++ [(b, didx d, pa)]) as [pa Ea] by (unfold accept, count_fused; destruct (dfused d); eauto).
  unfold work. cbn [with_enq submitted ready_ring deferred_sig deferred_tpt deferred_dev enq accepted jobs]. rewrite E4, E5, E6, E7, E8, E9, Ea, sum_of_snoc, hand_over by done.
  pose proof (row_left_le _ Hi). unfold acc_work at 2, op_work. cbn [fst snd]. lia.
Qed.

Lemma process_work tr idx o todo dev tpt r ms ev r' ms' : enq r = Processing (idx :: todo) dev tpt ->
  process e p inplace true idx o todo dev tpt r ms = (ev, r', ms') -> inv tr r -> work r' < work r.
Proof.
  intros Ee E I. unfold process in E. pose proof (route_didx idx o ms) as Ed. destruct (route e p inplace idx o ms) as [d ms0]. cbn in Ed.
  assert (idx ∈ enq_pend (enq r)) as Hin by (rewrite Ee; left).
  assert (forall q, work (with_enq (Processing todo dev tpt) (accept p q d r)) < work r) as Ha.
  { intros q. apply (accept_work tr); [done|by rewrite Ed|]. rewrite Ee. cbn. rewrite alen_cons. lia. }
  assert (forall dev' tpt', alen dev' + alen tpt' = alen dev + alen tpt + 1 -> work (with_enq (Processing todo dev' tpt') r) < work r) as Hq.
  { intros dev' tpt' Hl. unfold work. cbn [with_enq submitted ready_ring deferred_sig deferred_tpt deferred_dev enq accepted jobs]. rewrite Ee. cbn [enq_work]. rewrite alen_cons. lia. }
  destruct (tkind o);
    repeat match type of E with context [if ?b then _ else _] => destruct b end; injection E as <- <- <-; try done;
    try (apply Hq; rewrite alen_app, alen_cons, alen_nil; lia).
  all: destruct (ready_op tr r _ I Hin) as [Hi Hs]; unfold work; cbn [with_enq with_submitted submitted ready_ring deferred_sig deferred_tpt deferred_dev enq accepted jobs];
  rewrite Ee, hand_over by done; cbn [enq_work job_work jop jpoint_]; rewrite alen_cons; pose proof (row_left_le _ Hi); unfold op_work; lia.
Qed.

Lemma enqueue_work tr sample r ms ev r' ms' : ~ idle r -> enqueue_step e p inplace true sample r ms = Some (ev, r', ms') -> inv tr r -> work r' < work r.
Proof.
  unfold enqueue_step. intros Hidle E I. destruct (enq r) as [ready|[|idx todo] dev tpt|j todo dev tpt|[|d dev] tpt|[|d tpt]] eqn:Ee.
  - destruct (ready_ring r) as [|idx ring] eqn:Er; injection E as <- <- <-; unfold work;
      cbn [with_enq with_ring with_deferred submitted ready_ring deferred_sig deferred_tpt deferred_dev enq accepted jobs enq_work]; rewrite Ee, Er; cbn [enq_work].
    + autorewrite with arr. assert (0 < alen (deferred_sig r) + alen (deferred_tpt r) + alen (deferred_dev r) + alen ready); [|lia].
      destruct (decide (0 < alen (deferred_sig r) + alen (deferred_tpt r) + alen (deferred_dev r) + alen ready)) as [|H]; [done|]. destruct Hidle.
      unfold idle, alen in *. rewrite Ee. repeat split; [f_equal|..|]; try done; apply nil_length_inv; lia.
    + case_match; autorewrite with arr; lia.
  - injection E as <- <- <-. unfold work. cbn [with_enq submitted ready_ring deferred_sig deferred_tpt deferred_dev enq accepted jobs]. rewrite Ee. cbn [enq_work]. autorewrite with arr. lia.
  - destruct (aget _ idx) as [o|]; [|done]. cbn in E. injection E as E. by eapply process_work.
  - destruct (job_step p j sample r ms) as [[[ev0 o] r0] ms0] eqn:Es. injection E as <- <- <-. destruct (job_step_work _ _ _ _ _ _ _ _ Es) as [E0 Hw].
    destruct I as (rest & closed & S). unfold all_jobs in S. rewrite Ee in S. destruct (sched_job _ _ _ _ _ _ _ _ _ _ _ _ _ _ Es S) as [(E1 & E2 & E3 & E4 & E5 & E6) _].
    unfold work. cbn [with_enq submitted ready_ring deferred_sig deferred_tpt deferred_dev enq accepted jobs]. rewrite E0, E2, E3, E4, E5, E6, Ee. destruct o; cbn [enq_work from_option] in *; lia.
  - injection E as <- <- <-. unfold work. cbn [with_enq submitted ready_ring deferred_sig deferred_tpt deferred_dev enq accepted jobs]. rewrite Ee. cbn [enq_work]. autorewrite with arr. lia.
  - injection E as <- <- <-. apply (accept_work tr); [done|rewrite Ee; left|]. rewrite Ee. cbn [enq_work]. rewrite alen_cons. lia.
  - injection E as <- <- <-. unfold work. cbn [with_enq submitted ready_ring deferred_sig deferred_tpt deferred_dev enq accepted jobs]. rewrite Ee. cbn [enq_work]. autorewrite with arr. lia.
  - injection E as <- <- <-. apply (accept_work tr); [done|rewrite Ee; left|]. rewrite Ee. cbn [enq_work]. rewrite alen_cons. lia.
Qed.

Lemma works_less tr r ms r' ms' : works (r, ms) (r', ms') -> inv tr r -> work r' < work r /\ exists ev, inv (tr ++ [ev]) r'.
Proof.
  inversion 1 as [sample r0 ms0 ev r1 ms1 Hi E|i r0 ms0 ev r1 ms1 E|i sample r0 ms0 ev r1 ms1 E]; subst; intros I.
  - split; [by eapply enqueue_work|exists ev; by eapply inv_enqueue].
  - split; [|exists ev; by eapply inv_claim]. unfold claim_step in E. destruct (accepted r !! i) as [[[b idx] path]|] eqn:Ei; [|done]. cbn in E. injection E as <- <- <-.
    unfold work. cbn [with_jobs with_accepted submitted ready_ring deferred_sig deferred_tpt deferred_dev enq accepted jobs].
    rewrite sum_of_snoc, (sum_of_delete acc_work _ _ _ Ei). unfold acc_work at 2. cbn [job_work jop jpoint_ fst snd]. lia.
  - split; [|exists ev; by eapply inv_drain]. unfold drain_step in E. destruct (jobs r !! i) as [j|] eqn:Ei; [|done]. cbn in E.
    destruct (job_step p j sample r ms) as [[[ev0 o] r0] ms0] eqn:Es. injection E as <- <- <-. destruct (job_step_work _ _ _ _ _ _ _ _ Es) as [E0 Hw].
    assert (same_threads r r0) as (E1 & E2 & E3 & E4 & E5 & E6).
    { unfold job_step in Es. destruct (jpoint_ j); repeat match type of Es with context [if ?b then _ else _] => destruct b end; by injection Es as <- <- <- <-. }
    unfold work. cbn [with_jobs submitted ready_ring deferred_sig deferred_tpt deferred_dev enq accepted jobs]. rewrite E0, E1, E2, E3, E4, E5, E6. pose proof (sum_of_delete job_work _ _ _ Ei).
    destruct o as [j'|]; cbn [from_option] in *; [rewrite (sum_of_insert job_work _ _ j) by done|]; lia.
Qed.

Lemma work_start : work (submit p) <= (op_work + 20) * n.
Proof.
  assert (alen (no_deps os) <= n) as Hr.
  { apply in_range_length; [intros i; rewrite nodup_occ by apply no_deps_nodup; case_decide; lia|].
    intros i (o & H0 & Eo & _)%in_no_deps. by split; [|eapply aget_Some_lt]. }
  assert (forall k, sum_of unsent (replicate k false) = Z.of_nat k) as Hs by (induction k; cbn [replicate sum_of unsent]; lia).
  unfold work. cbn [submit submitted ready_ring deferred_sig deferred_tpt deferred_dev enq accepted jobs enq_work sum_of]. rewrite Hs. cbn [plan_of_tiled nops initial_ready].
  autorewrite with arr. rewrite Z2Nat.id by apply alen_nonneg. lia.
Qed.

(** ** Completion *)

(** Dependencies are acyclic. *)
Definition ranked (rank : Z -> Z) : Prop :=
  forall i o d, 0 <= i -> aget os i = Some o -> d ∈ tdeps o -> 0 <= rank d < rank i.

(** An operation is ready once its dependencies have been closed. *)
Lemma closed_ready rest closed tr st dc ind sub pend acc js i : sched rest closed tr st dc ind sub pend acc js -> 0 <= i < n ->
  (forall d, occ d (job_ops js) = 0) -> (forall o d, aget os i = Some o -> d ∈ tdeps o -> 0 < occ d closed) -> occ i (concat rest) = 0.
Proof.
  intros S Hi Hj Hdeps. apply occ_zero. intros (l & Hl & Hil)%list_elem_of_In%List.in_concat.
  apply list_elem_of_In, list_elem_of_lookup_1 in Hl as [k Hk]. apply list_elem_of_In in Hil. set (d := Z.of_nat k).
  assert (aget rest d = Some l) as El by (unfold aget, d; by rewrite Nat2Z.id).
  assert (0 <= d < n) as Hd by (rewrite <- (s_rest_len _ _ _ _ _ _ _ _ _ _ S); split; [lia|eapply aget_Some_lt; [lia|exact El]]).
  destruct (s_rest _ _ _ _ _ _ _ _ _ _ S d l Hd El) as [H1 H2]. pose proof (occ_nonneg d closed).
  destruct (decide (occ d closed = 0)) as [Hc|]; [|rewrite H2 in Hil by lia; by apply elem_of_nil in Hil].
  rewrite (H1 (Hj d) Hc) in Hil. unfold successors, to_dep in Hil. apply list_elem_of_fmap in Hil as ([i' d'] & E1 & [E2 He]%list_elem_of_filter). cbn in E1, E2. subst i' d'.
  apply edge_in in He as (o & H0 & Eo & Hdo). specialize (Hdeps o d Eo Hdo). lia.
Qed.

Lemma all_closed rank rest closed tr st dc ind sub : ranked rank -> sched rest closed tr st dc ind sub [] [] [] -> forall i, 0 <= i < n -> i ∈ closed.
Proof.
  intros Hrank S. assert (forall m i, (Z.to_nat (rank i) < m)%nat -> 0 <= i < n -> i ∈ closed) as H; [|intros i Hi; by apply (H (Z.to_nat (rank i) + 1)%nat); [lia|]].
  induction m as [|m IH]; [lia|]. intros i Hm Hi. apply occ_pos_in. pose proof (s_place _ _ _ _ _ _ _ _ _ _ S i Hi) as Hpl. cbn in Hpl. rewrite !occ_nil in Hpl.
  rewrite (closed_ready _ _ _ _ _ _ _ _ _ _ i S Hi) in Hpl; [rewrite decide_True in Hpl by done; lia|done|].
  intros o d Eo Hd. destruct (dep_edge i o d ltac:(lia) Eo Hd) as [Hdn _]. pose proof (Hrank i o d ltac:(lia) Eo Hd). apply occ_pos_in, IH; [lia|done].
Qed.

(** A run all of whose operations have been closed has completed. *)
Lemma closed_completed rest closed tr st dc ind sub pend acc : sched rest closed tr st dc ind sub pend acc [] -> (forall i, 0 <= i < n -> i ∈ closed) ->
  st = Completed /\ dc = n.
Proof.
  intros S Hc. assert (dc = n) as Hdc.
  { assert (seqZ 0 n ⊆+ counted tr) as Hl%submseteq_length.
    { apply NoDup_submseteq; [apply NoDup_seqZ|]. intros i Hi%elem_of_seqZ. apply occ_pos_in. rewrite (s_counted _ _ _ _ _ _ _ _ _ _ S).
      assert (0 < occ i closed) by (apply occ_pos_in, Hc; lia). cbn. rewrite occ_nil. lia. }
    rewrite length_seqZ in Hl. pose proof (s_done _ _ _ _ _ _ _ _ _ _ S). pose proof (counted_range _ _ _ _ _ _ _ _ _ _ S). unfold alen in *. lia. }
  split; [|done]. destruct (s_status _ _ _ _ _ _ _ _ _ _ S) as [(Hs & _ & Hn)|(Hs & _)]; [|done]. by destruct Hn.
Qed.

(** When nothing is left to do the run has completed. *)
Lemma nothing_left rank tr r : ranked rank -> inv tr r -> ready_ring r = [] -> waiting r = [] -> accepted r = [] -> all_jobs r = [] ->
  status r = Completed /\ done_count r = n.
Proof.
  intros Hrank (rest & closed & S) E1 E2 E3 E4. unfold sched_run, at_backends in S. rewrite E1, E2, E3, E4 in S. cbn in S.
  eapply closed_completed; [exact S|]. by apply (all_closed rank _ _ _ _ _ _ _ Hrank S).
Qed.

Lemma drain_goes r ms : jobs r <> [] -> is_Some (drain_step p 0 0 r ms).
Proof.
  intros Hj. unfold drain_step. destruct (jobs r) as [|j js]; [done|]. cbn. by destruct (job_step p j 0 r ms) as [[[? ?] ?] ?]; eexists.
Qed.

Lemma enqueue_goes tr r ms : inv tr r -> is_Some (enqueue_step e p inplace true 0 r ms).
Proof.
  intros I. unfold enqueue_step. destruct (enq r) as [ready|[|idx todo] dev tpt|j todo dev tpt|[|d dev] tpt|[|d tpt]] eqn:Ee; try by eexists.
  - by destruct (ready_ring r); eexists.
  - destruct (ready_op tr r idx I) as [Hi _]; [rewrite Ee; left|]. change (ops (tiled p)) with os. destruct (aget_is_Some os idx Hi) as [o ->]. by eexists.
  - by destruct (job_step p j 0 r ms) as [[[? ?] ?] ?]; eexists.
Qed.

#[export] Instance idle_dec r : Decision (idle r).
Proof. unfold idle. repeat apply and_dec; try apply _. destruct (enq r) as [[|]| | | |]; (by left) || by right. Defined.

Lemma stuck_idle tr r ms : inv tr r -> (forall y, ~ works (r, ms) y) -> idle r /\ accepted r = [] /\ jobs r = [].
Proof.
  intros I Hst. split_and!.
  - destruct (decide (idle r)) as [|Hi]; [done|]. destruct (enqueue_goes tr r ms I) as [[[ev r'] ms'] E]. by destruct (Hst (r', ms')); eapply works_enqueue.
  - destruct (accepted r) as [|[[b idx] pa] l] eqn:Ea; [done|]. destruct (claim_step 0 r ms) as [[[ev r'] ms']|] eqn:E; [by destruct (Hst (r', ms')); eapply works_claim|].
    unfold claim_step in E. by rewrite Ea in E.
  - destruct (decide (jobs r = [])) as [|Hj]; [done|]. destruct (drain_goes r ms Hj) as [[[ev r'] ms'] E]. by destruct (Hst (r', ms')); eapply works_drain.
Qed.

(** From a state that satisfies the invariant. *)
Lemma works_complete rank tr x : ranked rank -> inv tr x.1 ->
  (forall k y, nsteps works k x y -> Z.of_nat k + work y.1 <= work x.1) /\
  (forall y, rtc works x y -> (forall z, ~ works y z) -> status y.1 = Completed /\ done_count y.1 = n).
Proof.
  intros Hrank I. assert (forall k y, nsteps works k x y -> (exists tr', inv tr' y.1) /\ Z.of_nat k + work y.1 <= work x.1) as Hk.
  { intros k. induction k as [|k IH]; intros y H; [inversion H; subst; eauto with lia|]. apply nsteps_inv_r in H as ([r1 ms1] & H1 & Hw). destruct y as [r2 ms2].
    destruct (IH _ H1) as [[tr1 I1] Hb]. destruct (works_less tr1 _ _ _ _ Hw I1) as [Hl [ev I2]]. cbn in *. split; [eauto|lia]. }
  split; [intros k y H; by apply Hk|]. intros [r ms] [k Hy]%rtc_nsteps_1 Hst. destruct (Hk k _ Hy) as [[tr' I'] _]. cbn in *.
  destruct (stuck_idle tr' r ms I' Hst) as ((E1 & E2 & E3 & E4 & E5) & E6 & E7).
  by apply (nothing_left rank tr' r); try done; [unfold waiting; rewrite E1, E3, E4, E5|unfold all_jobs; rewrite E1].
Qed.

(** The ready ring and the operations about to be pushed on it. *)
Lemma ring_length tr r : inv tr r -> alen (ready_ring r ++ pushes (all_jobs r)) <= n.
Proof.
  intros (rest & closed & S). apply in_range_length; intros i; destruct (place_le (all_jobs r) i S) as [H1 H2]; rewrite !occ_app in *;
    pose proof (occ_nonneg i (waiting r)); pose proof (occ_nonneg i (at_backends r)); pose proof (occ_nonneg i (job_ops (all_jobs r))); pose proof (occ_nonneg i closed).
  - lia.
  - intros Hi%occ_pos_in. rewrite occ_app in Hi. apply H2. lia.
Qed.
End steps.
End plan.

Arguments ready_counted {t} Hp {rest closed tr st dc ind sub pend acc} js i o d.
Arguments place_le {t rest closed tr st dc ind sub pend acc} js i.

(** ** The size of the ready ring *)

Lemma ring_count_right nops : 0 <= nops < 2 ^ 27 -> exists k, 0 <= k <= 27 /\ nops < 2 ^ k /\ ring_count 28 1 nops = Some (2 ^ k).
Proof.
  intros Hn. assert (forall fuel j, 0 <= j <= 27 -> Z.of_nat fuel = 28 - j -> exists k, 0 <= k <= 27 /\ nops < 2 ^ k /\ ring_count fuel (2 ^ j) nops = Some (2 ^ k)) as H; [|by apply (H 28%nat 0)].
  induction fuel as [|fuel IH]; intros j Hj Hf; [lia|]. cbn [ring_count]. destruct (Z.leb_spec (2 ^ j) nops) as [Hle|Hlt]; [|by exists j].
  assert (j <> 27) by (intros ->; lia). rewrite Z.shiftl_mul_pow2, Z.pow_1_r, Z.mul_comm, <- Z.pow_succ_r by lia.
  rewrite wrap_id; [by apply IH; lia|]. unfold in_word. pose proof (Z.pow_lt_mono_r 2 (Z.succ j) 32 ltac:(lia) ltac:(lia) ltac:(lia)). lia.
Qed.

Lemma pow2_accepted k : 0 <= k < 32 -> Jring.ISPOWEROF2 (2 ^ k) = true.
Proof.
  intros Hk. unfold Jring.ISPOWEROF2. pose proof (Z.pow_pos_nonneg 2 k ltac:(lia) ltac:(lia)). pose proof (Z.pow_lt_mono_r 2 k 32 ltac:(lia) ltac:(lia) ltac:(lia)).
  rewrite wrap_id by (unfold in_word; lia). rewrite Z.sub_1_r, <- Z.ones_equiv, Z.land_comm, Z.land_ones, Z.mod_same by lia.
  by rewrite (proj2 (Z.eqb_neq (2 ^ k) 0)) by lia.
Qed.

Lemma ready_ring_created nops : 0 <= nops < 2 ^ 27 -> exists count r, init_ready_ring 28 nops = Some r /\
  JringLive.JringLive.created count 4 false true r /\ nops <= Jring.capacity r.
Proof.
  intros Hn. destruct (ring_count_right nops Hn) as (k & Hk & Hlt & E). unfold init_ready_ring. rewrite E. cbn [mbind option_bind].
  assert (exists k', 0 <= k' <= 27 /\ nops < 2 ^ k' /\ (if 2 ^ k <? 1024 then 1024 else 2 ^ k) = 2 ^ k') as (k' & Hk' & Hlt' & ->).
  { destruct (Z.ltb_spec (2 ^ k) 1024); [exists 10|by exists k]. split_and!; lia || done. }
  unfold Jring.jring_init. rewrite pow2_accepted by lia. cbn [negb]. eexists (2 ^ k'), _. split; [done|]. split; [|cbn; lia].
  pose proof (Z.pow_pos_nonneg 2 k' ltac:(lia) ltac:(lia)). pose proof (Z.pow_le_mono_r 2 k' 27 ltac:(lia) ltac:(lia)).
  split; [unfold Jring.jring_init; by rewrite pow2_accepted by lia|unfold Jring.RING_SZ_MASK; lia|done|lia].
Qed.

(** ** Results *)

Definition executes (e : env) (t : TiledResult) (inplace : bool) (ms : metrics) (tr : list event) (x : run * metrics) : Prop :=
  runs e (plan_of_tiled t) inplace (submit (plan_of_tiled t), ms) tr x.

(** C5: In every interleaving of the enqueue thread, the drain threads and waiting callers, with
    backends that refuse operations and complete them in any order, an operation is
    started at most once and only after all its dependencies have been counted as
    done; it is counted at most once and after it was started; the run is finalized
    at most once, after all operations have been counted, and its status says so. *)
Theorem schedule_correct (e : env) (t : TiledResult) (inplace : bool) (ms : metrics) (tr : list event) (r : run) (ms' : metrics) :
  plan_ok (ops t) -> 0 < alen (ops t) -> executes e t inplace ms tr (r, ms') ->
  well_scheduled t tr /\ (status r = Completed <-> Finalized ∈ tr).
Proof.
  intros Hp Hn Hr. split; [by eapply runs_well_scheduled|]. destruct (inv_runs t Hp e inplace ms tr _ Hn Hr) as (rest & closed & S). cbn in S.
  assert (Finalized ∈ tr <-> finals tr <> []) as ->.
  { clear. induction tr as [|ev tr IH]; [split; [by intros ?%elem_of_nil|done]|]. rewrite elem_of_cons, IH. unfold finals. destruct ev; cbn; naive_solver. }
  destruct (s_status _ _ _ _ _ _ _ _ _ _ _ S) as [(-> & -> & _)|(-> & -> & _)]; split; done.
Qed.

(** C16: If the dependencies are acyclic, then after any history a run in which the
    backends accept what they are offered ends: there is a bound on the steps that
    are left (for a whole run, linear in operations times dependencies), and when no
    step is left the run is completed and all operations have been counted. *)
Theorem schedule_terminates (e : env) (t : TiledResult) (inplace : bool) (ms : metrics) (rank : Z -> Z) :
  plan_ok (ops t) -> 0 < alen (ops t) -> ranked t rank ->
  work t (submit (plan_of_tiled t)) <= 30 * (alen (edges (ops t)) + 1) * alen (ops t) /\
  forall tr x, executes e t inplace ms tr x ->
    (forall k y, nsteps (works t e inplace) k x y -> Z.of_nat k + work t y.1 <= work t x.1) /\
    (forall y, rtc (works t e inplace) x y -> (forall z, ~ works t e inplace y z) ->
       status y.1 = Completed /\ done_count y.1 = alen (ops t)).
Proof.
  intros Hp Hn Hrank. split.
  - etransitivity; [by apply work_start|]. unfold op_work. lia.
  - intros tr x Hx. apply (works_complete t Hp e inplace rank tr); [done|]. by eapply inv_runs.
Qed.

(** C33: The ready ring that is allocated for a run has room for every operation that
    is or is about to be pushed on it, so that the blocking push of a drain thread
    never waits; the size of its memory does not overflow. *)
Theorem ready_ring_fits (e : env) (t : TiledResult) (inplace : bool) (ms : metrics) (tr : list event) (r : run) (ms' : metrics) :
  plan_ok (ops t) -> 0 < alen (ops t) < 2 ^ 27 -> executes e t inplace ms tr (r, ms') ->
  exists count ring, init_ready_ring 28 (nops (plan_of_tiled t)) = Some ring /\
    JringLive.JringLive.created count 4 false true ring /\ alen (ready_ring r ++ pushes (all_jobs r)) <= Jring.capacity ring.
Proof.
  intros Hp Hn Hr. destruct (ready_ring_created (alen (ops t)) ltac:(lia)) as (count & ring & E & Hc & Hcap). exists count, ring. split_and!; [done|done|].
  pose proof (ring_length t tr r (inv_runs t Hp e inplace ms tr _ ltac:(lia) Hr)). lia.
Qed.
End ExecutorSpec.
