(* ===== verification/ExecutorRuns.v ===== *)
(** * Runs of the executor

    A player of scheduling choices, complete runs of the plan of a three-rank
    all-reduce, and the race between the completion of a run and the drain threads
    ([release_races_drain]). *)

From S2P Require Import Prelude ChunkGraph Lower Collective Jring JringLive RingPlan AllReduce Executor PlanSpec ExecutorSpec.

Module ExecutorRuns.
Import ChunkGraph Lower Executor PlanSpec ExecutorSpec.

(** ** Playing choices *)

Inductive choice := Enqueue (ok : bool) | Claim (i : nat) | Drain (i : nat) | Wait.

Section play.
Context (e : env) (t : TiledResult) (inplace : bool).
Abbreviation p := (plan_of_tiled t).

Definition act (c : choice) (x : run * metrics) : option (event * run * metrics) :=
  match c with
  | Enqueue ok => enqueue_step e p inplace ok 0 x.1 x.2
  | Claim i => claim_step i x.1 x.2
  | Drain i => drain_step p i 0 x.1 x.2
  | Wait => wait_step x.1 x.2
  end.

Definition play1 (st : list event * (run * metrics)) (c : choice) : list event * (run * metrics) :=
  match act c st.2 with Some (ev, r, ms) => (st.1 ++ [ev], (r, ms)) | None => st end.

Definition play (cs : list choice) (ms : metrics) : list event * (run * metrics) := foldl play1 ([], (submit p, ms)) cs.

Lemma act_step c x ev r ms : act c x = Some (ev, r, ms) -> step e p inplace x ev (r, ms).
Proof. destruct x as [r0 ms0], c; cbn; [by eapply step_enqueue|by eapply step_claim|by eapply step_drain|by eapply step_wait]. Qed.

Lemma play_executes cs ms : executes e t inplace ms (play cs ms).1 (play cs ms).2.
Proof.
  unfold play. induction cs as [|c cs IH] using rev_ind; [apply runs_nil|]. rewrite foldl_app. cbn. unfold play1 at 1 3.
  destruct (act c _) as [[[ev r] ms']|] eqn:E; [|done]. cbn. eapply runs_snoc; [exact IH|]. by apply (act_step c).
Qed.

(** Drain threads first, then the backends, then the enqueue thread. *)
Definition eager (x : run * metrics) : choice :=
  match jobs x.1, accepted x.1 with _ :: _, _ => Drain 0 | [], _ :: _ => Claim 0 | [], [] => Enqueue true end.

Fixpoint eager_choices (fuel : nat) (st : list event * (run * metrics)) : list choice :=
  match fuel with
  | O => []
  | S fuel => let c := eager st.2 in c :: eager_choices fuel (play1 st c)
  end.
End play.

Module Example.
(** Rank 0 of the three-rank all-reduce of [AllReduce.Example]. *)
Definition tiled : TiledResult :=
  match build_tiled AllReduce.AllReduce.Example.cfg false with Planned t => t | Invalid _ => MkResult [] 0 0 0 0 0 RNone [] [] [] end.
Definition host : env := MkEnv (fun _ => true) PathNone 0 true (fun _ => true) (fun _ _ => true).
Definition peers : metrics := replicate 3 (MkPeer (MkMetrics 0 1000) (MkMetrics 0 1000) (MkMetrics 0 1000)).
Definition choices : list choice := eager_choices host tiled false 398 ([], (submit (plan_of_tiled tiled), peers)).

(** Channels that cannot carry a signal with a put. *)
Definition plain : env := MkEnv (fun _ => true) PathNone 0 true (fun _ => false) (fun _ _ => false).
Definition plain_choices : list choice := eager_choices plain tiled false 400 ([], (submit (plan_of_tiled tiled), peers)).

(** The choices up to the one that counts the last operation. *)
Fixpoint until_counted (st : list event * (run * metrics)) (cs : list choice) : list choice :=
  match cs with
  | [] => []
  | c :: cs => if alen (ops tiled) <=? done_count st.2.1 then [] else c :: until_counted (play1 plain tiled false st c) cs
  end.

(** Then a caller that waits finalizes the run. *)
Definition race : list choice :=
  until_counted ([], (submit (plan_of_tiled tiled), peers)) plain_choices ++ [Wait; Drain 1; Drain 1; Drain 1].

Definition final : list event * (run * metrics) := play host tiled false choices peers.
Definition raced : list event * (run * metrics) := play plain tiled false race peers.

Definition ok_edge (x : Z * Z) : bool := (0 <=? x.2) && (x.2 <? x.1) && (x.2 <? alen (ops tiled)).

Lemma ok_edges x : x ∈ edges (ops tiled) -> 0 <= x.2 < x.1 /\ x.2 < alen (ops tiled).
Proof.
  assert (forallb ok_edge (edges (ops tiled)) = true) as H by (vm_compute; reflexivity).
  intros Hx%list_elem_of_In. rewrite forallb_forall in H. specialize (H x Hx). unfold ok_edge in H. lia.
Qed.

Lemma tiled_ok : plan_ok (ops tiled).
Proof.
  split; [|vm_compute; reflexivity|vm_compute; reflexivity]. apply Forall_forall. intros x Hx%ok_edges. lia.
Qed.

Lemma tiled_ranked : ranked tiled (fun i => i).
Proof. intros i o d Hi E Hd. assert ((i, d) ∈ edges (ops tiled)) as H%ok_edges by (apply edge_in; eauto). cbn in H. lia. Qed.

Lemma tiled_ops : 0 < alen (ops tiled) < 2 ^ 27.
Proof. vm_compute. split; reflexivity. Qed.
End Example.
Import Example.

(** ** Results *)

(** A run can be released while a drain thread still works on it: the operation
    is counted before its callback runs and its successors are released, so a
    waiting caller finalizes the run, [wait] returns, and [release] destroys the run
    that the drain thread goes on to read. *)
Theorem release_races_drain : exists e t inplace ms tr r ms',
  executes e t inplace ms tr (r, ms') /\ well_scheduled t tr /\ may_release r = true /\
  exists j, j ∈ jobs r /\ jpoint_ j = JCallback.
Proof.
  exists plain, tiled, false, peers, raced.1, raced.2.1, raced.2.2. split.
  { rewrite <- (surjective_pairing raced.2). apply play_executes. }
  split; [|split; [vm_compute; reflexivity|]].
  - eapply (runs_well_scheduled tiled tiled_ok plain false peers raced.1 raced.2); [apply tiled_ops|apply play_executes].
  - exists (MkJob 12 Sig PathNone JCallback). split; [|reflexivity]. assert (jobs raced.2.1 = [MkJob 12 Sig PathNone JCallback]) as -> by (vm_compute; reflexivity). left.
Qed.

Lemma schedule_correct_witness : well_scheduled tiled final.1 /\ status final.2.1 = Completed.
Proof.
  destruct (schedule_correct host tiled false peers final.1 final.2.1 final.2.2 tiled_ok (proj1 tiled_ops)) as [H1 H2].
  - rewrite <- (surjective_pairing final.2). apply play_executes.
  - split; [exact H1|]. vm_compute. reflexivity.
Defined.

Lemma idle_stuck t e inplace r ms : idle r -> accepted r = [] -> jobs r = [] -> forall z, ~ works t e inplace (r, ms) z.
Proof.
  intros Hi Ea Ej z. inversion 1 as [? ? ? ? ? ? Hn|? ? ? ? ? ? E|? ? ? ? ? ? ? E]; subst; [done|unfold claim_step in E; by rewrite Ea in E|unfold drain_step in E; by rewrite Ej in E].
Qed.

Lemma schedule_terminates_witness : done_count final.2.1 = 18.
Proof.
  assert (forall z, ~ works tiled host false final.2 z) as Hst.
  { rewrite (surjective_pairing final.2). apply idle_stuck; vm_compute; repeat split; reflexivity. }
  destruct (schedule_terminates host tiled false peers (fun i => i) tiled_ok (proj1 tiled_ops) tiled_ranked) as [_ H].
  destruct (H final.1 final.2 (play_executes host tiled false choices peers)) as [_ H2].
  exact (proj2 (H2 final.2 (rtc_refl _ _) Hst)).
Defined.

Lemma ready_ring_fits_witness : exists count ring, init_ready_ring 28 18 = Some ring /\ JringLive.JringLive.created count 4 false true ring.
Proof.
  destruct (ready_ring_fits host tiled false peers final.1 final.2.1 final.2.2 tiled_ok tiled_ops) as (count & ring & H1 & H2 & _).
  - rewrite <- (surjective_pairing final.2). apply play_executes.
  - exists count, ring. split; [exact H1|exact H2].
Defined.

Lemma plan_successors_witness : successors (ops tiled) 7 = [8; 9] /\ initial_ready (plan_of_tiled tiled) = [0; 1; 3; 7; 13; 17].
Proof.
  destruct (plan_successors tiled tiled_ok) as (H1 & _ & _). split; [|vm_compute; reflexivity].
  refine (eq_trans (eq_sym (H1 7 _)) _); vm_compute; [split; [intros ?; discriminate|reflexivity]|reflexivity].
Defined.

Lemma cached_plan_right_witness : exists p cache, cached_plan AllReduce.AllReduce.Example.cfg false ∅ = Planned (p, cache) /\ cache_ok cache.
Proof.
  assert (config_ok AllReduce.AllReduce.Example.cfg) as Hc by (split; vm_compute; split; (intros ?; discriminate) || reflexivity).
  assert (cache_ok ∅) as H0 by (split; [done|intros k p Hk; by rewrite lookup_empty in Hk]).
  pose proof (cached_plan_right AllReduce.AllReduce.Example.cfg false ∅ Hc H0) as H.
  destruct (cached_plan AllReduce.AllReduce.Example.cfg false ∅) as [[p cache]|w] eqn:E.
  - exists p, cache. split; [reflexivity|apply H].
  - vm_compute in E. discriminate.
Defined.
End ExecutorRuns.
