(* ===== verification/Cluster.v ===== *)
(** * Executors of a communicator

    Every rank runs the executor of [Executor.v] on its plan, and the backends
    carry out the commands they have accepted on the memory and the tags of
    [Collective.v], at any time and in any order.  Such a cluster does what
    [Collective.v] describes ([cluster_refines]); an all-reduce on it comes to an
    end on every rank with the right result ([cluster_allreduce]).

    Signals are operations of their own here: channels that carry the signal of a
    group with its puts are left out. *)

From S2P Require Import Prelude ChunkGraph Lower Collective Jring RingPlan RingSpec AllReduce Executor PlanSpec ExecutorSpec.

Module Cluster.
Import ChunkGraph Lower Collective Executor PlanSpec ExecutorSpec.

(** ** Channels without fused signals *)

Definition plain_env (e : env) : Prop := (forall peer, device_fuses e peer = false) /\ forall peer path, comm_fuses e peer path = false.

Definition plain (d : dispatch) : Prop := dfused d = false.

Definition plain_run (r : run) : Prop :=
  Forall (fun x => x = 0) (fused_sig_cnt r) /\
  match enq r with
  | Collecting _ => True
  | Processing _ dev tpt | SubmitDev dev tpt => Forall plain dev /\ Forall plain tpt
  | SubmitTpt tpt => Forall plain tpt
  | Completing _ _ _ _ => False
  end.

Section plain.
Context (e : env) (He : plain_env e) (t : TiledResult) (inplace : bool).
Abbreviation p := (plan_of_tiled t).

Lemma route_plain idx o ms : plain (route e p inplace idx o ms).1.
Proof.
  unfold route, plain. destruct (remote _); [|done]. destruct (choose_path _ _ _) as [path ms1].
  unfold choose_fusion. destruct (_ || _); [done|]. destruct He as [Hd Hc]. rewrite Hd, andb_false_r. cbn [negb orb].
  destruct (bool_decide (path = Device) && true && _ && _); rewrite Hc, andb_false_r; done.
Qed.

Lemma accept_plain b d r : plain d -> fused_sig_cnt (accept p b d r) = fused_sig_cnt r.
Proof. unfold plain, accept, count_fused. by intros ->. Qed.

Lemma zeros (l : list Z) i : Forall (fun x => x = 0) l -> at_ l i = 0.
Proof. intros H. unfold at_, aget. destruct (l !! Z.to_nat i) as [x|] eqn:E; [|done]. by apply (Forall_lookup_1 _ _ _ _ H E). Qed.

(** What the enqueue thread hands over is what it reports as started. *)
Lemma enqueue_plain ok sample r ms ev r' ms' : enqueue_step e p inplace ok sample r ms = Some (ev, r', ms') -> plain_run r ->
  plain_run r' /\ at_backends r' = at_backends r ++ started_of ev.
Proof.
  unfold enqueue_step, plain_run. intros E [Hz Hq]. destruct (enq r) as [ready|[|idx todo] dev tpt|j todo dev tpt|[|d dev] tpt|[|d tpt]] eqn:Ee.
  - destruct (ready_ring r); injection E as <- <- <-; cbn; rewrite app_nil_r; done.
  - injection E as <- <- <-. cbn. rewrite app_nil_r. done.
  - destruct (aget _ idx) as [o|]; [|done]. cbn in E. injection E as E. unfold process in E. pose proof (route_plain idx o ms) as Hd. pose proof (route_didx t e inplace idx o ms) as Ed.
    destruct (route e p inplace idx o ms) as [d ms0]. cbn in Hd, Ed. rewrite (zeros _ idx Hz) in E.
    assert (forall q, at_backends (with_enq (Processing todo dev tpt) (accept p q d r)) = at_backends r ++ [idx]) as Hb.
    { intros q. destruct (accept_same t q d r) as (_ & _ & _ & _ & _ & _ & _ & _ & _ & E10). rewrite <- Ed. exact E10. }
    destruct (tkind o); repeat match type of E with context [if ?b then _ else _] => destruct b eqn:? end; injection E as <- <- <-; try lia;
      rewrite ?Hb; cbn [enq with_enq started_of]; (split; [|by rewrite ?app_nil_r]); cbn [fused_sig_cnt with_enq with_deferred enq]; rewrite ?accept_plain by done;
      (split; [done|]); rewrite ?Forall_app, ?Forall_singleton; naive_solver.
  - done.
  - injection E as <- <- <-. cbn. rewrite app_nil_r. naive_solver.
  - destruct Hq as [[Hd Hdev]%Forall_cons Htpt]. destruct ok; injection E as <- <- <-.
    + destruct (accept_same t Dev d r) as (_ & _ & _ & _ & _ & _ & _ & _ & _ & E10). split; [|exact E10]. cbn [fused_sig_cnt with_enq enq]. by rewrite (accept_plain Dev) by done.
    + cbn. rewrite app_nil_r. done.
  - injection E as <- <- <-. cbn. rewrite app_nil_r. done.
  - apply Forall_cons in Hq as [Hd Htpt]. destruct ok; injection E as <- <- <-.
    + destruct (accept_same t Tpt d r) as (_ & _ & _ & _ & _ & _ & _ & _ & _ & E10). split; [|exact E10]. cbn [fused_sig_cnt with_enq enq]. by rewrite (accept_plain Tpt) by done.
    + cbn. rewrite app_nil_r. done.
Qed.
End plain.

(** ** The cluster *)

Section cluster.
Context {V : Type} (vop : V -> V -> V) (elem : Z) (inplace : bool) (t : Z -> TiledResult) (e : Z -> env).
Abbreviation node := (run * metrics)%type.
Abbreviation world := (world (V := V)).
Abbreviation perform r o w := (exec vop elem r (make_cmd inplace o) w).

(** The executor of a rank by itself: its threads and waiting callers. *)
Inductive alone (r : Z) : node -> node -> Prop :=
| alone_enqueue ok sample x ev y ms : enqueue_step (e r) (plan_of_tiled (t r)) inplace ok sample x.1 x.2 = Some (ev, y, ms) -> alone r x (y, ms)
| alone_drain i sample x ev y ms : drain_step (plan_of_tiled (t r)) i sample x.1 x.2 = Some (ev, y, ms) -> alone r x (y, ms)
| alone_wait x ev y ms : wait_step x.1 x.2 = Some (ev, y, ms) -> alone r x (y, ms).

(** Without refusals, idle polls and waiting. *)
Inductive busy (r : Z) : node -> node -> Prop :=
| busy_enqueue sample x ev y ms : ~ idle x.1 ->
    enqueue_step (e r) (plan_of_tiled (t r)) inplace true sample x.1 x.2 = Some (ev, y, ms) -> busy r x (y, ms)
| busy_drain i sample x ev y ms : drain_step (plan_of_tiled (t r)) i sample x.1 x.2 = Some (ev, y, ms) -> busy r x (y, ms).

(** A step of the cluster: of one executor, of a backend that carries out an
    accepted command, or of one that reports a command it has carried out. *)
Inductive moves (R : Z -> node -> node -> Prop) : list node * world -> list node * world -> Prop :=
| moves_node r x y ns w : 0 <= r -> aget ns r = Some x -> R r x y -> moves R (ns, w) (aset ns r y, w)
| moves_report r x i b idx path ev y ms ns w : 0 <= r -> aget ns r = Some x -> accepted x.1 !! i = Some (b, idx, path) -> (r, idx) ∈ done w ->
    claim_step i x.1 x.2 = Some (ev, y, ms) -> moves R (ns, w) (aset ns r (y, ms), w)
| moves_perform r x b idx path o ns w w1 : 0 <= r -> aget ns r = Some x -> (b, idx, path) ∈ accepted x.1 -> (r, idx) ∉ done w ->
    aget (ops (t r)) idx = Some o -> perform r o w = Some w1 ->
    moves R (ns, w) (ns, MkWorld (mem w1) (tags w1) ({[ (r, idx) ]} ∪ done w1)).

Definition boot (k : Z) (ms : metrics) (m0 : Z -> CollectiveBufferRole -> Z -> V) : list node * world :=
  (map (fun r => (submit (plan_of_tiled (t r)), ms)) (seqZ 0 k), MkWorld m0 [] ∅).

Lemma busy_alone r x y : busy r x y -> alone r x y.
Proof. destruct 1; [by eapply alone_enqueue|by eapply alone_drain]. Qed.

(** *** The invariant *)

Definition node_inv (r : Z) (w : world) (x : node) : Prop :=
  plan_ok (ops (t r)) /\ plain_env (e r) /\ plain_run x.1 /\
  exists tr, inv (t r) tr x.1 /\ (forall i, i ∈ started tr -> i ∈ at_backends x.1 \/ (r, i) ∈ done w) /\ (forall i, (r, i) ∈ done w -> i ∈ started tr).

Definition cluster_inv (s : list node * world) : Prop := forall r x, 0 <= r -> aget s.1 r = Some x -> node_inv r s.2 x.

Lemma job_step_same q j sample r ms ev o r' ms' : job_step q j sample r ms = (ev, o, r', ms') ->
  same_threads r r' /\ fused_sig_cnt r' = fused_sig_cnt r /\ started_of ev = [].
Proof.
  unfold job_step. destruct (jpoint_ j); intros E; repeat match type of E with context [if ?b then _ else _] => destruct b end; by injection E as <- <- <- <-.
Qed.

Lemma alone_inv r w x y : alone r x y -> node_inv r w x -> node_inv r w y.
Proof.
  intros Ha (Hp & He & Hpl & tr & I & H1 & H2).
  assert (exists ev, inv (t r) (tr ++ [ev]) y.1 /\ plain_run y.1 /\ at_backends y.1 = at_backends x.1 ++ started_of ev) as (ev & I' & Hpl' & Eb).
  { destruct Ha as [ok sample x ev y ms E|i sample x ev y ms E|x ev y ms E]; exists ev.
    - split; [by eapply inv_enqueue|]. by eapply enqueue_plain.
    - split; [by eapply inv_drain|]. unfold drain_step in E. destruct (jobs x.1 !! i) as [j|]; [|done]. cbn in E.
      destruct (job_step _ j sample x.1 x.2) as [[[ev0 o] r0] ms0] eqn:Es. injection E as <- <- <-. destruct (job_step_same _ _ _ _ _ _ _ _ _ Es) as ((E1 & E2 & _) & E3 & E4).
      unfold plain_run, at_backends in *. cbn. by rewrite E1, E2, E3, E4, app_nil_r.
    - split; [by eapply inv_wait|]. unfold wait_step in E. case_decide; [|done]. injection E as <- <- <-. unfold at_backends. cbn. by rewrite app_nil_r. }
  split_and!; try done. exists (tr ++ [ev]). split_and!; [done| |].
  - intros i. rewrite started_snoc, Eb, !elem_of_app. intros [Hi|Hi]; [|auto]. destruct (H1 i Hi); auto.
  - intros i Hi. rewrite started_snoc, elem_of_app. auto.
Qed.

Lemma report_inv r w x i b idx path ev y ms : accepted x.1 !! i = Some (b, idx, path) -> (r, idx) ∈ done w -> claim_step i x.1 x.2 = Some (ev, y, ms) ->
  node_inv r w x -> node_inv r w (y, ms).
Proof.
  intros Ei Hd E (Hp & He & Hpl & tr & I & H1 & H2). pose proof (inv_claim (t r) tr i x.1 x.2 ev y ms E I) as I'.
  unfold claim_step in E. rewrite Ei in E. cbn in E. injection E as <- <- <-. split_and!; try done. exists (tr ++ [Silent]). split_and!; [done| |].
  - intros k. rewrite started_snoc. cbn. rewrite app_nil_r. intros Hk. destruct (H1 k Hk) as [Hb|]; [|by right].
    unfold at_backends in Hb. apply list_elem_of_fmap in Hb as ([[b' k'] path'] & -> & Hb). cbn in *.
    rewrite (delete_Permutation _ _ _ Ei), elem_of_cons in Hb. destruct Hb as [[= <- <- <-]|Hb]; [by right|].
    left. unfold at_backends. cbn. apply list_elem_of_fmap. by exists (b', k', path').
  - intros k Hk. rewrite started_snoc. cbn. rewrite app_nil_r. auto.
Qed.

Lemma counted_done r (w : world) (x : node) tr d : inv (t r) tr x.1 -> (forall i, i ∈ started tr -> i ∈ at_backends x.1 \/ (r, i) ∈ done w) -> d ∈ counted tr -> (r, d) ∈ done w.
Proof.
  intros I H1 Hd. apply occ_pos_in in Hd. pose proof (counted_le_started (t r) tr x.1 d I) as [Hc _].
  destruct (H1 d) as [Hb|]; [apply occ_pos_in; lia| |done]. exfalso. apply occ_pos_in in Hb. destruct I as (rest & closed & S).
  rewrite (s_counted _ _ _ _ _ _ _ _ _ _ _ S) in Hd. pose proof (counted_jobs (all_jobs x.1) d). destruct (place_le (all_jobs x.1) d S) as [Hle _].
  pose proof (occ_nonneg d (ready_ring x.1 ++ waiting x.1)). pose proof (occ_nonneg d (pushes (all_jobs x.1))). lia.
Qed.

(** A backend has an operation only when its dependencies are done. *)
Lemma accepted_deps r w x b idx path o : node_inv r w x -> (b, idx, path) ∈ accepted x.1 -> aget (ops (t r)) idx = Some o ->
  0 <= idx /\ Forall (fun d => (r, d) ∈ done w) (tdeps o) /\ forall tr, inv (t r) tr x.1 -> idx ∈ started tr.
Proof.
  intros (Hp & _ & _ & tr & I & H1 & _) Hin Eo.
  assert (0 < occ idx (at_backends x.1)) as Ho by (apply occ_pos_in, list_elem_of_fmap; by exists (b, idx, path)).
  assert (forall tr, inv (t r) tr x.1 -> idx ∈ started tr) as Hs.
  { intros tr' (rest & closed & S). apply occ_pos_in. rewrite (s_started _ _ _ _ _ _ _ _ _ _ _ S). pose proof (occ_nonneg idx (job_ops (all_jobs x.1))). pose proof (occ_nonneg idx closed). lia. }
  pose proof (counted_le_started (t r) tr x.1 idx I) as [_ Hr]. specialize (Hr ltac:(apply occ_pos_in; by apply Hs)). split_and!; [lia| |done].
  apply Forall_forall. intros d Hd. apply (counted_done r w x tr); [done|done|]. destruct I as (rest & closed & S). eapply ready_counted; [done|exact S|exact Hr| |exact Eo|done].
  pose proof (s_place _ _ _ _ _ _ _ _ _ _ _ S idx Hr) as Hpl. pose proof (occ_nonneg idx (job_ops (all_jobs x.1))). pose proof (occ_nonneg idx closed).
  pose proof (occ_nonneg idx (ready_ring x.1 ++ waiting x.1)). pose proof (occ_nonneg idx (pushes (all_jobs x.1))). case_decide; lia.
Qed.

Lemma exec_done r c w w1 : exec vop elem r c w = Some w1 -> done w1 = done w.
Proof. unfold exec. destruct (ckind c); [by intros [= <-]..|]. destruct (remove_tag _ _); [|done]. by intros [= <-]. Qed.

Lemma moves_refine (R : Z -> node -> node -> Prop) s s' : (forall r x y, R r x y -> alone r x y) -> moves R s s' -> cluster_inv s ->
  cluster_inv s' /\ (s'.2 = s.2 \/ Collective.step vop elem inplace (fun r => ops (t r)) s.2 s'.2).
Proof.
  intros HR Hm I. destruct Hm as [r x y ns w Hr Ex Hxy|r x i b idx path ev y ms ns w Hr Ex Ei Hd Ec|r x b idx path o ns w w1 Hr Ex Hin Hnd Eo Ew].
  - split; [|by left]. intros r' x' Hr' Ex'. cbn in *. destruct (decide (r = r')) as [<-|].
    + rewrite aget_aset_eq in Ex' by (split; [done|by eapply aget_Some_lt]). injection Ex' as <-. eapply alone_inv; [by apply HR|]. by apply I.
    + rewrite aget_aset_ne in Ex' by done. by apply I.
  - split; [|by left]. intros r' x' Hr' Ex'. cbn in *. destruct (decide (r = r')) as [<-|].
    + rewrite aget_aset_eq in Ex' by (split; [done|by eapply aget_Some_lt]). injection Ex' as <-. eapply report_inv; [done|done|done|]. by apply I.
    + rewrite aget_aset_ne in Ex' by done. by apply I.
  - pose proof (I r x Hr Ex) as Ix. cbn in Ix. destruct (accepted_deps r w x b idx path o Ix Hin Eo) as (Hi & Hdeps & Hs). pose proof (exec_done _ _ _ _ Ew) as Edone. split.
    + intros r' x' Hr' Ex'. cbn in *. destruct (I r' x' Hr' Ex') as (Hp & He & Hpl & tr & It & H1 & H2). split_and!; try done. exists tr. cbn. rewrite Edone in *. split_and!; [done| |].
      * intros k Hk. destruct (H1 k Hk); [by left|right; set_solver].
      * intros k Hk. rewrite elem_of_union, elem_of_singleton in Hk. destruct Hk as [[= -> ->]|Hk]; [|by apply H2]. rewrite Ex in Ex'. injection Ex' as <-. by apply Hs.
    + right. exists r, idx. unfold try_step, try_op. cbn. rewrite Eo. cbn. rewrite bool_decide_eq_true_2 by done. by rewrite Ew.
Qed.

Lemma boot_inv k ms m0 : 0 <= k -> (forall r, 0 <= r < k -> plan_ok (ops (t r)) /\ 0 < alen (ops (t r)) /\ plain_env (e r)) -> cluster_inv (boot k ms m0).
Proof.
  intros Hk H r x Hr E. cbn in *. unfold aget in E. rewrite list_lookup_fmap in E. destruct (seqZ 0 k !! Z.to_nat r) as [r'|] eqn:Er; [|done]. cbn in E. injection E as <-.
  apply lookup_seqZ in Er as [Er Hr']. replace r' with r in * by lia. destruct (H r ltac:(lia)) as (H1 & H2 & H3). split_and!; try done.
  - split; [|done]. cbn. apply Forall_replicate. done.
  - exists []. split_and!; [by apply submit_inv|intros i Hi; by apply elem_of_nil in Hi|intros i Hi; set_solver].
Qed.

Lemma moves_reach (R : Z -> node -> node -> Prop) s s' : (forall r x y, R r x y -> alone r x y) -> cluster_inv s -> rtc (moves R) s s' ->
  cluster_inv s' /\ rtc (Collective.step vop elem inplace (fun r => ops (t r))) s.2 s'.2.
Proof.
  intros HR I. induction 1 as [s|s s1 s' Hm _ IH]; [done|]. destruct (moves_refine R s s1 HR Hm I) as [I1 Hs]. destruct (IH I1) as [I' Hr]. split; [done|].
  destruct Hs as [<-|Hs]; [done|]. by eapply rtc_l.
Qed.

Lemma moves_len R s s' : moves R s s' -> alen s'.1 = alen s.1.
Proof. destruct 1; cbn; rewrite ?alen_aset; done. Qed.

(** *** The work that is left *)

Fixpoint cluster_work (r : Z) (ns : list node) : Z := match ns with [] => 0 | x :: ns => work (t r) x.1 + cluster_work (r + 1) ns end.

Lemma cluster_work_nonneg r ns : 0 <= cluster_work r ns.
Proof. revert r. induction ns as [|x ns IH]; intros r; cbn; [lia|]. pose proof (work_nonneg (t r) x.1). specialize (IH (r + 1)). lia. Qed.

Lemma cluster_work_aset ns : forall r k x y, 0 <= k -> aget ns k = Some x ->
  cluster_work r (aset ns k y) = cluster_work r ns - work (t (r + k)) x.1 + work (t (r + k)) y.1.
Proof.
  induction ns as [|z ns IH]; intros r k x y Hk E; [done|]. destruct (decide (k = 0)) as [->|].
  - injection E as ->. change (aset (x :: ns) 0 y) with (y :: ns). cbn. rewrite Z.add_0_r. lia.
  - replace k with (k - 1 + 1) in * by lia. rewrite aget_cons_S in E by lia. unfold aset. replace (Z.to_nat (k - 1 + 1)) with (S (Z.to_nat (k - 1))) by lia.
    change (<[S (Z.to_nat (k - 1)):=y]> (z :: ns)) with (z :: aset ns (k - 1) y). cbn [cluster_work]. rewrite (IH (r + 1) (k - 1) x y ltac:(lia) E). replace (r + 1 + (k - 1)) with (r + (k - 1 + 1)) by lia. lia.
Qed.

Lemma busy_less s s' : moves busy s s' -> cluster_inv s ->
  cluster_work 0 s'.1 - Z.of_nat (size (done s'.2)) < cluster_work 0 s.1 - Z.of_nat (size (done s.2)).
Proof.
  intros Hm I. destruct Hm as [r x y ns w Hr Ex Hxy|r x i b idx path ev y ms ns w Hr Ex Ei Hd Ec|r x b idx path o ns w w1 Hr Ex Hin Hnd Eo Ew]; cbn.
  - destruct (I r x Hr Ex) as (Hp & He & Hpl & tr & It & _). rewrite (cluster_work_aset ns 0 r x y Hr Ex), Z.add_0_l. destruct x as [rx mx], y as [ry my].
    assert (works (t r) (e r) inplace (rx, mx) (ry, my)) as Hw by (inversion Hxy; subst; [by eapply works_enqueue|by eapply works_drain]).
    pose proof (works_less (t r) Hp (e r) inplace tr rx mx ry my Hw It) as [Hl _]. cbn. lia.
  - destruct (I r x Hr Ex) as (Hp & He & Hpl & tr & It & _). rewrite (cluster_work_aset ns 0 r x (y, ms) Hr Ex), Z.add_0_l. destruct x as [rx mx].
    pose proof (works_less (t r) Hp (e r) inplace tr rx mx y ms (works_claim _ _ _ _ _ _ _ _ _ Ec) It) as [Hl _]. cbn. lia.
  - rewrite (exec_done _ _ _ _ Ew), size_union, size_singleton by set_solver. lia.
Qed.

(** *** When nothing moves *)

Lemma stuck_node s r x : cluster_inv s -> (forall s', ~ moves busy s s') -> 0 <= r -> aget s.1 r = Some x ->
  idle x.1 /\ jobs x.1 = [] /\ forall b idx path, (b, idx, path) ∈ accepted x.1 -> (r, idx) ∉ done s.2.
Proof.
  destruct s as [ns w]. cbn. intros I Hst Hr Ex. destruct (I r x Hr Ex) as (Hp & He & Hpl & tr & It & _). split_and!.
  - destruct (decide (idle x.1)) as [|Hi]; [done|]. destruct (enqueue_goes (t r) (e r) inplace tr x.1 x.2 It) as [[[ev y] ms] E].
    destruct (Hst (aset ns r (y, ms), w)). eapply moves_node; [done|done|by eapply busy_enqueue].
  - destruct (decide (jobs x.1 = [])) as [|Hj]; [done|]. destruct (drain_goes (t r) x.1 x.2 Hj) as [[[ev y] ms] E].
    destruct (Hst (aset ns r (y, ms), w)). eapply moves_node; [done|done|by eapply busy_drain].
  - intros b idx path [i Ei]%list_elem_of_lookup_1 Hd. destruct (claim_step i x.1 x.2) as [[[ev y] ms]|] eqn:E.
    + destruct (Hst (aset ns r (y, ms), w)). by eapply moves_report.
    + unfold claim_step in E. by rewrite Ei in E.
Qed.

(** What such a rank has done it has closed. *)
Lemma stuck_closed s r x : cluster_inv s -> (forall s', ~ moves busy s s') -> 0 <= r -> aget s.1 r = Some x ->
  exists rest closed tr, sched (t r) rest closed tr (status x.1) (done_count x.1) (indegree x.1) (submitted x.1) [] (at_backends x.1) [] /\
    forall i, (r, i) ∈ done s.2 <-> 0 < occ i closed.
Proof.
  intros I Hst Hr Ex. destruct (stuck_node s r x I Hst Hr Ex) as ((E1 & E2 & E3 & E4 & E5) & Ej & Ha). destruct (I r x Hr Ex) as (Hp & He & Hpl & tr & It & H1 & H2).
  pose proof It as (rest & closed & S). unfold sched_run, waiting, all_jobs in S. rewrite E1, E2, E3, E4, E5, Ej in S. cbn in S. exists rest, closed, tr. split; [done|].
  assert (forall i, (r, i) ∈ done s.2 -> occ i (at_backends x.1) = 0) as Hz.
  { intros i Hd. apply occ_zero. intros ([[b k] path] & -> & Hin)%list_elem_of_fmap. by apply (Ha b k path Hin). }
  intros i. pose proof (s_started _ _ _ _ _ _ _ _ _ _ _ S i) as Hs. cbn in Hs. rewrite occ_nil in Hs. split.
  - intros Hd. pose proof (H2 i Hd) as Hi%occ_pos_in. rewrite (Hz i Hd) in Hs. lia.
  - intros Hc. pose proof (occ_nonneg i (at_backends x.1)). destruct (H1 i) as [Hb|]; [apply occ_pos_in; lia| |done].
    apply occ_pos_in in Hb. destruct (place_le [] i S) as [Hle _]. cbn in Hle. rewrite !occ_nil in Hle. lia.
Qed.

(** When nothing moves no operation can be performed. *)
Lemma stuck_world s r i w' : cluster_inv s -> (forall s', ~ moves busy s s') -> 0 <= r < alen s.1 -> try_step vop elem inplace (fun r => ops (t r)) r i s.2 <> Some w'.
Proof.
  intros I Hst Hr E. destruct (aget_is_Some s.1 r Hr) as [x Ex]. destruct (stuck_closed s r x I Hst ltac:(lia) Ex) as (rest & closed & tr & S & Hc).
  destruct (I r x ltac:(lia) Ex) as (Hp & _). unfold try_step in E. destruct (aget (ops (t r)) i) as [o|] eqn:Eo; [|done]. cbn in E. unfold try_op in E.
  case_bool_decide as Hb; [|done]. destruct Hb as (Hnd & Hi0 & Hdeps). destruct (exec vop elem r _ s.2) as [w1|] eqn:Ew; [|done].
  assert (0 <= i < alen (ops (t r))) as Hi by (split; [done|by eapply aget_Some_lt]).
  assert (occ i (concat rest) = 0) as Hz.
  { eapply closed_ready; [exact S|done|done|]. intros o' d Eo' Hd. rewrite Eo in Eo'. injection Eo' as <-. apply Hc. rewrite Forall_forall in Hdeps. by apply Hdeps. }
  pose proof (s_place _ _ _ _ _ _ _ _ _ _ _ S i Hi) as Hpl. rewrite decide_True in Hpl by done. cbn in Hpl. rewrite !occ_nil in Hpl. pose proof (occ_nonneg i closed).
  assert (occ i closed = 0) as Hc0 by (destruct (decide (0 < occ i closed)) as [Hx%Hc|]; [done|lia]).
  assert (i ∈ at_backends x.1) as ([[b k] path] & -> & Hin)%list_elem_of_fmap by (apply occ_pos_in; lia). cbn in *. destruct s as [ns w].
  destruct (Hst (ns, MkWorld (mem w1) (tags w1) ({[ (r, k) ]} ∪ done w1))). eapply moves_perform; try done. lia.
Qed.
End cluster.

(** ** All-reduce *)

Definition tiled_of (c : CollectiveConfig) (inplace : bool) (r : Z) : TiledResult :=
  match build_tiled (RingPlan.at_rank c r) inplace with Planned t => t | Invalid _ => MkResult [] 0 0 0 0 0 RNone [] [] [] end.

Lemma tiled_of_plan c inplace r : ops (tiled_of c inplace r) = plan_of (RingPlan.at_rank c) inplace r.
Proof. unfold tiled_of, plan_of. by destruct (build_tiled _ inplace). Qed.

Section allreduce.
Context (c : CollectiveConfig) (inplace : bool) (Hok : RingPlan.ring_ok c).
Abbreviation plan := (plan_of (RingPlan.at_rank c) inplace).
Abbreviation n := (nranks c).

Lemma plan_deps r i o d : 0 <= r < n -> 0 <= i -> aget (plan r) i = Some o -> d ∈ tdeps o -> 0 <= d < alen (plan r).
Proof.
  intros Hr Hi E Hd. destruct (RingPlan.plan_surj c inplace Hok r Hr i o Hi E) as (k & Hk & ->).
  destruct (RingPlan.plan_get c inplace Hok r Hr k Hk) as (o' & E' & _ & Hdeps). rewrite E in E'. injection E' as <-.
  apply Hdeps in Hd as (b & Hb & ->). apply RingPlan.ridx_range; [done|done|]. by eapply RingPlan.rdep_valid.
Qed.

Lemma ring_plan_ok r : 0 <= r < n -> alen (edges (plan r)) < 2 ^ 32 - 1 -> plan_ok (ops (tiled_of c inplace r)).
Proof.
  intros Hr He. rewrite tiled_of_plan. split; [|done|].
  - apply Forall_forall. intros [i d] (o & Hi & E & Hd)%edge_in. cbn. by eapply plan_deps.
  - rewrite (RingPlan.plan_len c inplace Hok r Hr). by apply RingPlan.keys_small.
Qed.

Lemma plan_nonempty r : 0 <= r < n -> 0 < alen (plan r).
Proof.
  intros Hr. pose proof (RingSpec.n_pos c Hok). pose proof (RingPlan.ro_bytes c Hok).
  assert (exists k, RingSpec.ev c inplace r k) as (k & _ & Hk); [|pose proof (RingPlan.ridx_range c inplace Hok r Hr k Hk); lia].
  destruct (RingPlan.in_tile_exists c Hok 0 ltac:(lia)) as (s & t & Hs & Ht & _).
  destruct (decide (RingSpec.dst c r s < n - 1)).
  - exists (RingPlan.RPut false s t). by apply (RingSpec.put_ev c inplace Hok s t Hs Ht false r Hr).
  - exists (RingPlan.RRed s t). apply (RingSpec.red_ev c inplace Hok s t Hs Ht r Hr). lia.
Qed.
End allreduce.

Lemma step_ext {V} (vop : V -> V -> V) elem inplace (f g : Z -> list TiledOp) : (forall r, f r = g r) ->
  forall w w', Collective.step vop elem inplace f w w' -> Collective.step vop elem inplace g w w'.
Proof. intros H w w' (r & i & E). exists r, i. unfold try_step in *. by rewrite <- H. Qed.

Section allreduce_runs.
Context {V : Type} (vop : V -> V -> V) (elem : Z) (c : CollectiveConfig) (inplace : bool) (e : Z -> env) (ms : metrics).
Context (m0 : Z -> CollectiveBufferRole -> Z -> V) (Hok : RingPlan.ring_ok c).
Context (Helem : 0 < elem) (Hsize : (elem | scalar_type_size (dtype c))) (Htile : (elem | tile_bytes c)).
Abbreviation t := (tiled_of c inplace).
Abbreviation n := (nranks c).
Context (Henv : forall r, 0 <= r < n -> plain_env (e r) /\ alen (edges (ops (t r))) < 2 ^ 32 - 1).
Abbreviation moves := (moves vop elem inplace t).
Abbreviation alone := (alone inplace t e).
Abbreviation busy := (busy inplace t e).

(** What is known of a state that the cluster reaches. *)
Definition reached (s : list (run * metrics) * world) : Prop :=
  cluster_inv t e s /\ alen s.1 = n /\
  rtc (Collective.step vop elem inplace (plan_of (RingPlan.at_rank c) inplace)) (MkWorld m0 [] ∅) s.2.

Lemma reached_boot : reached (boot t n ms m0).
Proof.
  pose proof (RingSpec.n_pos c Hok). split_and!; [|unfold alen; cbn; rewrite length_map, length_seqZ; lia|done].
  apply boot_inv; [lia|]. intros r Hr. destruct (Henv r Hr) as [He Hf]. rewrite tiled_of_plan in Hf. split_and!; [by apply ring_plan_ok| |done].
  rewrite tiled_of_plan. by apply plan_nonempty.
Qed.

Lemma reached_moves R s s' : (forall r x y, R r x y -> alone r x y) -> reached s -> moves R s s' -> reached s'.
Proof.
  intros HR (I & Hl & Hr) Hm. destruct (moves_refine vop elem inplace t e R s s' HR Hm I) as [I' Hs]. split_and!; [done|by rewrite (moves_len _ _ _ _ _ _ _ Hm)|].
  destruct Hs as [->|Hs]; [done|]. eapply rtc_r; [done|]. by apply (step_ext vop elem inplace (fun r => ops (t r))); [apply tiled_of_plan|].
Qed.

Lemma reached_many R s s' : (forall r x y, R r x y -> alone r x y) -> reached s -> rtc (moves R) s s' -> reached s'.
Proof. intros HR H. induction 1 as [|s s1 s' Hm _ IH]; [done|]. apply IH. by eapply reached_moves. Qed.

Lemma reached_done s : reached s -> Z.of_nat (size (done s.2)) <= AllReduce.op_count c inplace.
Proof.
  intros (_ & _ & [m Hr]%rtc_nsteps_1). destruct (RingSpec.run_inv c inplace Hok vop elem Helem Hsize Htile m0 m _ Hr) as (Hw & _).
  unfold AllReduce.op_count. rewrite <- (RingSpec.all_ops_size c inplace). pose proof (subseteq_size _ _ (RingSpec.done_all c inplace Hok _ Hw)). lia.
Qed.

Lemma busy_steps j s s' : reached s -> nsteps (moves busy) j s s' ->
  reached s' /\ Z.of_nat j + cluster_work t 0 s'.1 - Z.of_nat (size (done s'.2)) <= cluster_work t 0 s.1 - Z.of_nat (size (done s.2)).
Proof.
  intros Hs Hj. induction Hj as [s|j s s1 s' Hm _ IH]; [split; [done|lia]|].
  destruct IH as [H1 H2]; [eapply reached_moves; [apply busy_alone|exact Hs|exact Hm]|]. split; [done|].
  pose proof (busy_less vop elem inplace t e s s1 Hm (proj1 Hs)). lia.
Qed.

Lemma reached_stuck s : reached s -> (forall s2, ~ moves busy s s2) -> done s.2 = RingSpec.all_ops c inplace.
Proof.
  intros (I & Hl & [m Hr]%rtc_nsteps_1) Hst. destruct (RingSpec.run_inv c inplace Hok vop elem Helem Hsize Htile m0 m _ Hr) as (Hw & _).
  apply (RingSpec.stuck_all c inplace Hok vop elem _ Hw). intros w' (r & i & E). destruct (decide (0 <= r < n)) as [Hr'|Hr'].
  - eapply (stuck_world vop elem inplace t e s r i w' I Hst ltac:(lia)). unfold try_step in *. by rewrite tiled_of_plan.
  - unfold try_step in E. by rewrite (RingSpec.plan_out c inplace Hok r Hr') in E.
Qed.

Lemma reached_completed s r : reached s -> (forall s2, ~ moves busy s s2) -> 0 <= r < n -> exists x, aget s.1 r = Some x /\ status x.1 = Completed.
Proof.
  intros Hs Hst Hr. pose proof (reached_stuck s Hs Hst) as Ed. destruct Hs as (I & Hl & _). destruct (aget_is_Some s.1 r ltac:(lia)) as [x Ex]. exists x. split; [done|].
  destruct (stuck_closed vop elem inplace t e s r x I Hst ltac:(lia) Ex) as (rest & closed & tr & S & Hc).
  apply (closed_completed _ _ _ _ _ _ _ _ _ _ S). intros i Hi. apply occ_pos_in, Hc. rewrite Ed. rewrite tiled_of_plan in Hi.
  unfold RingSpec.all_ops. apply elem_of_list_to_set, list_elem_of_bind. exists r. split; [apply list_elem_of_fmap; exists i; split; [done|]|]; apply elem_of_seqZ; lia.
Qed.
End allreduce_runs.

(** ** Results *)



(** ** Three ranks *)

Section play.
Context {V : Type} (vop : V -> V -> V) (elem : Z) (inplace : bool) (t : Z -> TiledResult) (e : Z -> env).

(** The next step of rank [r] that is not a refusal, a poll or a wait. *)
Definition reportable (r : Z) (w : world (V := V)) (x : backend * Z * PutPath) : bool := bool_decide ((r, x.1.2) ∈ done w).

Definition first_index {A} (f : A -> bool) (l : list A) : option nat := fst <$> list_find (fun x => f x = true) l.

Definition perform_one (r : Z) (w : world (V := V)) (x : backend * Z * PutPath) : option world :=
  o ← aget (ops (t r)) x.1.2; w1 ← exec vop elem r (make_cmd inplace o) w; Some (MkWorld (mem w1) (tags w1) ({[ (r, x.1.2) ]} ∪ done w1)).

Definition act_rank (r : Z) (s : list (run * metrics) * world (V := V)) : option (list (run * metrics) * world (V := V)) :=
  x ← aget s.1 r;
  if negb (bool_decide (jobs x.1 = [])) then
    '(_, y, ms) ← drain_step (plan_of_tiled (t r)) 0 0 x.1 x.2; Some (aset s.1 r (y, ms), s.2)
  else match first_index (reportable r s.2) (accepted x.1) with
  | Some i => '(_, y, ms) ← claim_step i x.1 x.2; Some (aset s.1 r (y, ms), s.2)
  | None =>
      match first_index (fun a => bool_decide (is_Some (perform_one r s.2 a))) (accepted x.1) with
      | Some i => a ← accepted x.1 !! i; w ← perform_one r s.2 a; Some (s.1, w)
      | None =>
          if bool_decide (idle x.1) then None
          else '(_, y, ms) ← enqueue_step (e r) (plan_of_tiled (t r)) inplace true 0 x.1 x.2; Some (aset s.1 r (y, ms), s.2)
      end
  end.

Lemma act_moves r s s' : 0 <= r -> act_rank r s = Some s' -> moves vop elem inplace t (busy inplace t e) s s'.
Proof.
  destruct s as [ns w]. unfold act_rank. cbn [fst snd]. intros Hr E. destruct (aget ns r) as [x|] eqn:Ex; [|done]. cbn in E.
  destruct (negb _); [|destruct (first_index (reportable r w) _) as [i|] eqn:Ei; [|destruct (first_index (fun a => bool_decide (is_Some (perform_one r w a))) _) as [i|] eqn:Ep; [|destruct (bool_decide (idle x.1)) eqn:Hi; [done|apply bool_decide_eq_false in Hi]]]].
  - destruct (drain_step _ _ _ _ _) as [[[ev y] ms]|] eqn:Ed; [|done]. cbn in E. injection E as <-. eapply moves_node; [done|done|by eapply busy_drain].
  - destruct (claim_step i x.1 x.2) as [[[ev y] ms]|] eqn:Ec; [|done]. cbn in E. injection E as <-. unfold first_index in Ei.
    apply fmap_Some in Ei as ([i' [[b idx] path]] & (Hl & Hd & _)%list_find_Some & ->). unfold reportable in Hd. apply bool_decide_eq_true in Hd. by eapply moves_report.
  - unfold first_index in Ep. apply fmap_Some in Ep as ([i' [[b idx] path]] & (Hl & _)%list_find_Some & ->). cbn in E. rewrite Hl in E. cbn in E. unfold perform_one in E. cbn in E.
    destruct (aget (ops (t r)) idx) as [o|] eqn:Eo; [|done]. cbn in E. destruct (exec vop elem r _ w) as [w1|] eqn:Ew; [|done]. cbn in E. injection E as <-.
    eapply moves_perform; try done; [by eapply list_elem_of_lookup_2|]. unfold first_index in Ei. apply fmap_None, list_find_None in Ei. rewrite Forall_forall in Ei.
    specialize (Ei (b, idx, path) ltac:(by eapply list_elem_of_lookup_2)). unfold reportable in Ei. cbn in Ei. by case_bool_decide.
  - destruct (enqueue_step _ _ _ _ _ _ _) as [[[ev y] ms]|] eqn:Ed; [|done]. cbn in E. injection E as <-. eapply moves_node; [done|done|by eapply busy_enqueue].
Qed.

Fixpoint rounds (k : nat) (ranks : list Z) (s : list (run * metrics) * world (V := V)) : list (run * metrics) * world (V := V) :=
  match k with O => s | S k => rounds k ranks (foldl (fun s r => default s (act_rank r s)) s ranks) end.

Lemma rounds_moves k ranks s : Forall (fun r => 0 <= r) ranks -> rtc (moves vop elem inplace t (busy inplace t e)) s (rounds k ranks s).
Proof.
  intros Hr. revert s. induction k as [|k IH]; intros s; [done|]. cbn. etransitivity; [|apply IH]. clear IH. revert s.
  induction Hr as [|r ranks Hr _ IH]; intros s; [done|]. cbn. etransitivity; [|apply IH]. destruct (act_rank r s) as [s'|] eqn:E; cbn; [|done]. by apply rtc_once, (act_moves r).
Qed.

(** Nothing moves in a cluster whose executors are idle and whose backends are empty. *)
Lemma quiet_stuck s : (forall r x, aget s.1 r = Some x -> idle x.1 /\ accepted x.1 = [] /\ jobs x.1 = []) ->
  forall s', ~ moves vop elem inplace t (busy inplace t e) s s'.
Proof.
  intros H s' Hm. destruct Hm as [r x y ns w Hr Ex Hxy|r x i b idx path ev y ms ns w Hr Ex Ei|r x b idx path o ns w w1 Hr Ex Hin]; destruct (H r x Ex) as (Hi & Ha & Hj).
  - destruct Hxy as [? ? ? ? ? Hn|i ? ? ? ? ? E]; [done|]. unfold drain_step in E. by rewrite Hj in E.
  - by rewrite Ha in Ei.
  - rewrite Ha in Hin. by apply elem_of_nil in Hin.
Qed.
End play.

Module Example.
Definition cfg : CollectiveConfig := AllReduce.Example.cfg.
Definition host (r : Z) : env := MkEnv (fun _ => true) PathNone 0 true (fun _ => false) (fun _ _ => false).
Definition peers : metrics := replicate 3 (MkPeer (MkMetrics 0 1000) (MkMetrics 0 1000) (MkMetrics 0 1000)).
Definition start : list (run * metrics) * world (V := Z) := boot (tiled_of cfg false) 3 peers AllReduce.Example.inputs.
Definition final : list (run * metrics) * world (V := Z) := rounds Z.add 4 false (tiled_of cfg false) host 500 [0; 1; 2] start.

Definition quiet (x : run * metrics) : bool := bool_decide (idle x.1) && bool_decide (length (accepted x.1) = 0%nat) && bool_decide (length (jobs x.1) = 0%nat).

Lemma quiet_all (ns : list (run * metrics)) r x : forallb quiet ns = true -> aget ns r = Some x -> idle x.1 /\ accepted x.1 = [] /\ jobs x.1 = [].
Proof.
  rewrite forallb_forall. intros H Ex. assert (quiet x = true) as Hq by (apply H, list_elem_of_In; by eapply list_elem_of_lookup_2). unfold quiet in Hq.
  apply andb_prop in Hq as [[H1 H2]%andb_prop H3]. apply bool_decide_eq_true in H1, H2, H3. split_and!; [done|by apply nil_length_inv..].
Qed.

Lemma final_quiet : forallb quiet final.1 = true.
Proof. vm_compute. reflexivity. Qed.

Lemma cluster_stuck : forall s', ~ moves Z.add 4 false (tiled_of cfg false) (busy false (tiled_of cfg false) host) final s'.
Proof. exact (quiet_stuck Z.add 4 false (tiled_of cfg false) host final (fun r x => quiet_all final.1 r x final_quiet)). Qed.

Lemma final_moves : rtc (moves Z.add 4 false (tiled_of cfg false) (busy false (tiled_of cfg false) host)) start final.
Proof. apply rounds_moves. repeat constructor; lia. Qed.

Lemma host_plain r : plain_env (host r).
Proof. done. Qed.

Lemma few_deps r : 0 <= r < 3 -> alen (edges (ops (tiled_of cfg false r))) < 2 ^ 32 - 1.
Proof. intros Hr. assert (r = 0 \/ r = 1 \/ r = 2) as [-> | [-> | ->] ] by lia; vm_compute; reflexivity. Qed.
End Example.
Import Example.


End Cluster.
