(* ===== verification/Endpoint.v ===== *)
(** * The endpoint: requests of the application

    [RDMAEndpoint::uccl_send_async], [uccl_recv_async], [uccl_write_async],
    [uccl_read_async], [uccl_flush] and [uccl_poll_ureq_once] of
    [collective/rdma/transport.cc], the half of [UcclFlow] they use, and the
    [RemFifo] of [rdma_io.h] through which a receiver advertises its buffers: it
    fills an item of its copy of the FIFO, an engine writes the item into the
    sender's copy, and the sender matches its next request with it.

    A request is a pointer into a heap of [ucclRequest]s.  The members of the
    union that holds the send half and the receive half are kept apart, since a
    request is used as one or the other; [n] and [mid], and [poll_ctx] and
    [rc_or_flush_done], share a word in the model as in the code.  The command
    queues of the engines are the lists of what was put on them. *)

From S2P Require Import Prelude Flow OneSided.

Module Endpoint.
Import OneSided.

Definition kMaxReq : Z := Flow.kMaxReq.
Definition kMaxRecv : Z := 1.
Definition kRCSize : Z := 0.
Definition NCCL_MIN_POST_RECV : Z := 65536.
Definition kMaxInline : Z := 64.
Definition RC_MAGIC : Z := 0x12345678.

(** ** Data *)

Record FifoItem := MkFifo {
  addr : Z; size : Z; rkey : Z; nmsgs : Z; rid : Z; idx : Z; engine_offset : Z; padding : list Z;
}.
Definition zero_item : FifoItem := MkFifo 0 0 0 0 0 0 0 (replicate 28 0).

(** The work request that writes an item into the sender's FIFO: where it goes,
    the row of the local FIFO it takes the items from, and how many bytes. *)
Record fifo_wr := MkWr { remote_addr : Z; wr_rkey : Z; sge_lkey : Z; sge_row : Z; sge_length : Z; signaled : bool }.
Definition zero_wr : fifo_wr := MkWr 0 0 0 0 0 false.

Record ucclRequest := MkReq {
  type : ReqType;
  n : Z;                   (* or [mid] *)
  poll_ctx : Z;            (* or [rc_or_flush_done] *)
  context : Z;
  engine_idx : Z;
  recv_data_len : list Z; recv_elems : Z; recv_wr : fifo_wr;
  data_len : Z; inc_backlog : Z; laddr : Z; raddr : Z; lkey : Z; send_rkey : Z; send_rid : Z;
  sent_offset : Z; acked_bytes : Z;
}.

Definition set_type v r := MkReq v (n r) (poll_ctx r) (context r) (engine_idx r) (recv_data_len r) (recv_elems r)
  (recv_wr r) (data_len r) (inc_backlog r) (laddr r) (raddr r) (lkey r) (send_rkey r) (send_rid r) (sent_offset r) (acked_bytes r).
Definition set_n v r := MkReq (type r) v (poll_ctx r) (context r) (engine_idx r) (recv_data_len r) (recv_elems r)
  (recv_wr r) (data_len r) (inc_backlog r) (laddr r) (raddr r) (lkey r) (send_rkey r) (send_rid r) (sent_offset r) (acked_bytes r).
Definition set_poll_ctx v r := MkReq (type r) (n r) v (context r) (engine_idx r) (recv_data_len r) (recv_elems r)
  (recv_wr r) (data_len r) (inc_backlog r) (laddr r) (raddr r) (lkey r) (send_rkey r) (send_rid r) (sent_offset r) (acked_bytes r).
Definition set_context v r := MkReq (type r) (n r) (poll_ctx r) v (engine_idx r) (recv_data_len r) (recv_elems r)
  (recv_wr r) (data_len r) (inc_backlog r) (laddr r) (raddr r) (lkey r) (send_rkey r) (send_rid r) (sent_offset r) (acked_bytes r).
Definition set_engine_idx v r := MkReq (type r) (n r) (poll_ctx r) (context r) v (recv_data_len r) (recv_elems r)
  (recv_wr r) (data_len r) (inc_backlog r) (laddr r) (raddr r) (lkey r) (send_rkey r) (send_rid r) (sent_offset r) (acked_bytes r).
Definition set_recv dl el wr r := MkReq (type r) (n r) (poll_ctx r) (context r) (engine_idx r) dl el
  wr (data_len r) (inc_backlog r) (laddr r) (raddr r) (lkey r) (send_rkey r) (send_rid r) (sent_offset r) (acked_bytes r).
Definition set_data_len v r := MkReq (type r) (n r) (poll_ctx r) (context r) (engine_idx r) (recv_data_len r) (recv_elems r)
  (recv_wr r) v (inc_backlog r) (laddr r) (raddr r) (lkey r) (send_rkey r) (send_rid r) (sent_offset r) (acked_bytes r).
(** The buffers of a send: local address and key, remote address, key and request. *)
Definition set_buffers la lk ra rk ri r := MkReq (type r) (n r) (poll_ctx r) (context r) (engine_idx r) (recv_data_len r) (recv_elems r)
  (recv_wr r) (data_len r) (inc_backlog r) la ra lk rk ri (sent_offset r) (acked_bytes r).
(** The counters of a send: backlog, bytes sent and acknowledged. *)
Definition set_counters bl so ab r := MkReq (type r) (n r) (poll_ctx r) (context r) (engine_idx r) (recv_data_len r) (recv_elems r)
  (recv_wr r) (data_len r) bl (laddr r) (raddr r) (lkey r) (send_rkey r) (send_rid r) so ab.

Inductive Op := kTx | kRx | kRead | kWrite.
Record Msg := MkMsg { mopcode : Op; peer_id : Z; mureq : Z; mpoll_ctx : Z }.

Inductive engine_lb_policy :=
| ENGINE_POLICY_BIND | ENGINE_POLICY_RR | ENGINE_POLICY_OBLIVIOUS | ENGINE_POLICY_LOAD | ENGINE_POLICY_LOAD_POT.
(** [policy >= ENGINE_POLICY_LOAD] *)
Definition load_based (p : engine_lb_policy) : bool :=
  match p with ENGINE_POLICY_LOAD | ENGINE_POLICY_LOAD_POT => true | _ => false end.

(** The members of [RDMAEndpoint] that requests use. *)
Record RDMAEndpoint := MkEp {
  num_engines_per_dev_ : Z;
  engine_load_vec_ : list Z;
  rx_cmdq : list (Z * Msg);
  tx_cmdq : list (Z * Msg);
}.
Definition set_load v e := MkEp (num_engines_per_dev_ e) v (rx_cmdq e) (tx_cmdq e).
Definition put_rx eng m e := MkEp (num_engines_per_dev_ e) (engine_load_vec_ e) (rx_cmdq e ++ [(eng, m)]) (tx_cmdq e).
Definition put_tx eng ms e :=
  MkEp (num_engines_per_dev_ e) (engine_load_vec_ e) (rx_cmdq e) (tx_cmdq e ++ map (fun m => (eng, m)) ms).

(** A flow: [elems] and [fifo_tail] are its [RemFifo], [fifo_ureqs] and
    [fifo_head] the rest of [SendComm]; the other members are used by both sides. *)
Record UcclFlow := MkFlow {
  elems : list (list FifoItem);
  fifo_tail : Z;
  fifo_ureqs : list (list Z);
  fifo_head : Z;
  remote_fifo_addr : Z; remote_fifo_rkey : Z; fifo_lkey : Z;
  dev_ : Z; peer_id_ : Z;
  next_engine_offset_ : Z;
  flow_cq_cnt_ : Z;
  outstanding_reqs_ : Z;
  last_rc_recv_ : Z;
}.
Definition set_elems v f := MkFlow v (fifo_tail f) (fifo_ureqs f) (fifo_head f) (remote_fifo_addr f) (remote_fifo_rkey f)
  (fifo_lkey f) (dev_ f) (peer_id_ f) (next_engine_offset_ f) (flow_cq_cnt_ f) (outstanding_reqs_ f) (last_rc_recv_ f).
Definition set_fifo_tail v f := MkFlow (elems f) v (fifo_ureqs f) (fifo_head f) (remote_fifo_addr f) (remote_fifo_rkey f)
  (fifo_lkey f) (dev_ f) (peer_id_ f) (next_engine_offset_ f) (flow_cq_cnt_ f) (outstanding_reqs_ f) (last_rc_recv_ f).
Definition set_fifo_ureqs v f := MkFlow (elems f) (fifo_tail f) v (fifo_head f) (remote_fifo_addr f) (remote_fifo_rkey f)
  (fifo_lkey f) (dev_ f) (peer_id_ f) (next_engine_offset_ f) (flow_cq_cnt_ f) (outstanding_reqs_ f) (last_rc_recv_ f).
Definition set_fifo_head v f := MkFlow (elems f) (fifo_tail f) (fifo_ureqs f) v (remote_fifo_addr f) (remote_fifo_rkey f)
  (fifo_lkey f) (dev_ f) (peer_id_ f) (next_engine_offset_ f) (flow_cq_cnt_ f) (outstanding_reqs_ f) (last_rc_recv_ f).
Definition set_next_engine_offset_ v f := MkFlow (elems f) (fifo_tail f) (fifo_ureqs f) (fifo_head f) (remote_fifo_addr f)
  (remote_fifo_rkey f) (fifo_lkey f) (dev_ f) (peer_id_ f) v (flow_cq_cnt_ f) (outstanding_reqs_ f) (last_rc_recv_ f).
Definition set_flow_cq_cnt_ v f := MkFlow (elems f) (fifo_tail f) (fifo_ureqs f) (fifo_head f) (remote_fifo_addr f)
  (remote_fifo_rkey f) (fifo_lkey f) (dev_ f) (peer_id_ f) (next_engine_offset_ f) v (outstanding_reqs_ f) (last_rc_recv_ f).
Definition set_outstanding_reqs_ v f := MkFlow (elems f) (fifo_tail f) (fifo_ureqs f) (fifo_head f) (remote_fifo_addr f)
  (remote_fifo_rkey f) (fifo_lkey f) (dev_ f) (peer_id_ f) (next_engine_offset_ f) (flow_cq_cnt_ f) v (last_rc_recv_ f).
Definition set_last_rc_size v f := MkFlow (elems f) (fifo_tail f) (fifo_ureqs f) (fifo_head f) (remote_fifo_addr f)
  (remote_fifo_rkey f) (fifo_lkey f) (dev_ f) (peer_id_ f) (next_engine_offset_ f) (flow_cq_cnt_ f) (outstanding_reqs_ f) v.

(** What one side's thread works on. *)
Record side := MkSide { ep : RDMAEndpoint; flow : UcclFlow; heap : gmap Z ucclRequest }.
Definition with_ep v s := MkSide v (flow s) (heap s).
Definition with_flow v s := MkSide (ep s) v (heap s).
Definition with_heap v s := MkSide (ep s) (flow s) v.
Definition load_req (u : Z) (s : side) : result ucclRequest :=
  match heap s !! u with Some r => Done r | None => Fail OutOfBounds end.
Definition store_req (u : Z) (r : ucclRequest) (s : side) : side := with_heap (<[u := r]> (heap s)) s.

Definition fetch {A} (l : list A) (i : Z) : result A :=
  match aget l i with Some x => Done x | None => Fail OutOfBounds end.

Definition check_room (f : UcclFlow) : bool := outstanding_reqs_ f <? kMaxReq.
Definition inc_outstanding_reqs (f : UcclFlow) : UcclFlow := set_outstanding_reqs_ (outstanding_reqs_ f +[32] 1) f.
Definition dec_outstanding_reqs (f : UcclFlow) : UcclFlow := set_outstanding_reqs_ (outstanding_reqs_ f -[32] 1) f.

(** ** Choosing an engine *)

Definition find_first_engine_idx_on_dev (dev : Z) (e : RDMAEndpoint) : Z := dev * num_engines_per_dev_ e.

Definition inc_load_on_engine (i : Z) (e : RDMAEndpoint) : result RDMAEndpoint :=
  l ← fetch (engine_load_vec_ e) i; Done (set_load (aset (engine_load_vec_ e) i (l +[32] 1)) e).
Definition dec_load_on_engine (i : Z) (e : RDMAEndpoint) : result RDMAEndpoint :=
  l ← fetch (engine_load_vec_ e) i; Done (set_load (aset (engine_load_vec_ e) i (l -[32] 1)) e).

(** The loop over the engines of a device, [min_load] and [candidate] threaded. *)
Definition find_least_loaded_engine_idx (dev : Z) (e : RDMAEndpoint) : result Z :=
  let first := find_first_engine_idx_on_dev dev e in
  '(_, candidate) ← foldl (fun acc i =>
      '(min_load, candidate) ← acc;
      load ← fetch (engine_load_vec_ e) i;
      Done (if load <? min_load then (load, i) else (min_load, candidate)))
    (Done (2 ^ 32 - 1, 0)) (seqZ first (num_engines_per_dev_ e));
  Done candidate.

(** [rnd] is what [std::rand] returns. *)
Definition find_oblivious_engine_idx (rnd dev : Z) (e : RDMAEndpoint) : Z :=
  find_first_engine_idx_on_dev dev e + rnd mod num_engines_per_dev_ e.

Definition find_pot_load_engine_idx (rnd dev : Z) (e : RDMAEndpoint) : result Z :=
  let c1 := find_oblivious_engine_idx rnd dev e in
  c2 ← find_least_loaded_engine_idx dev e;
  l1 ← fetch (engine_load_vec_ e) c1;
  l2 ← fetch (engine_load_vec_ e) c2;
  Done (if l1 <? l2 then c1 else c2).

Definition find_rr_engine_idx (dev next_candidate : Z) (e : RDMAEndpoint) : Z * Z :=
  (find_first_engine_idx_on_dev dev e +[32] next_candidate, (next_candidate +[32] 1) mod num_engines_per_dev_ e).

(** ** The receiver advertises a buffer *)

(** [data[i]], [size[i]] and [mhandle[i]->mr->rkey]. *)
Record rbuf := MkBuf { b_data : Z; b_size : Z; b_rkey : Z }.

(** [elems[i] = ...] for the buffers [bs], from [i] on. *)
Fixpoint fill_items (item : rbuf -> FifoItem -> FifoItem) (bs : list rbuf) (i : Z) (row : list FifoItem) : result (list FifoItem) :=
  match bs with
  | [] => Done row
  | b :: bs => e ← fetch row i; fill_items item bs (i + 1) (aset row i (item b e))
  end.

(** The slot, the work request and the flow after it. *)
Definition post_fifo (engine : Z) (bs : list rbuf) (e : RDMAEndpoint) (f : UcclFlow) : result (Z * fifo_wr * UcclFlow) :=
  let slot := fifo_tail f mod kMaxReq in
  row ← fetch (elems f) slot;
  row ← fill_items (fun b it => MkFifo (b_data b) (wrap 32 (b_size b)) (b_rkey b) (wrap 32 (alen bs)) (rid it)
          (fifo_tail f +[64] 1) (engine mod num_engines_per_dev_ e) (padding it)) bs 0 row;
  let wr := MkWr (remote_fifo_addr f +[64] slot * kMaxRecv * 64) (remote_fifo_rkey f) (fifo_lkey f) slot
              (alen bs * 64) (slot =? 0) in
  let f := set_elems (aset (elems f) slot row) f in
  let f := if slot =? 0 then set_flow_cq_cnt_ (flow_cq_cnt_ f +[32] 1) f else f in
  Done (slot, wr, set_fifo_tail (fifo_tail f +[64] 1) f).

(** [rc_recv] posts its work request itself and a receive for the immediate. *)
Definition rc_recv (b : rbuf) (f : UcclFlow) : result (fifo_wr * UcclFlow) :=
  let slot := fifo_tail f mod kMaxReq in
  row ← fetch (elems f) slot;
  row ← fill_items (fun b it => MkFifo (b_data b) (wrap 32 (b_size b)) (b_rkey b) 1 (rid it)
          (fifo_tail f +[64] 1) RC_MAGIC (padding it)) [b] 0 row;
  let wr := MkWr (remote_fifo_addr f +[64] slot * kMaxRecv * 64) (remote_fifo_rkey f) (fifo_lkey f) slot 64 (slot =? 0) in
  let f := set_elems (aset (elems f) slot row) f in
  let f := if slot =? 0 then set_flow_cq_cnt_ (flow_cq_cnt_ f +[32] 1) f else f in
  let f := set_flow_cq_cnt_ (flow_cq_cnt_ f +[32] 1) f in
  Done (wr, set_fifo_tail (fifo_tail f +[64] 1) f).

(** A work completion: for an RDMA write or read [wr_id] names the request whose
    [rc_or_flush_done] it points to, for a receive the request itself. *)
Inductive wc_opcode := IBV_WC_RDMA_WRITE | IBV_WC_RECV_RDMA_WITH_IMM | IBV_WC_RDMA_READ | IBV_WC_OTHER.
Record wc := MkWc { wc_op : wc_opcode; wr_id : Z; imm_data : Z; on_rc_qp : bool }.

Definition flow_cqe (w : wc) (s : side) : result side :=
  match wc_op w with
  | IBV_WC_RDMA_WRITE =>
      if (0 <? kRCSize) && on_rc_qp w then r ← load_req (wr_id w) s; Done (store_req (wr_id w) (set_poll_ctx 1 r) s)
      else Done s
  | IBV_WC_RECV_RDMA_WITH_IMM =>
      r ← load_req (wr_id w) s;
      let r := set_recv (aset (recv_data_len r) 0 (imm_data w)) (recv_elems r) (recv_wr r) (set_poll_ctx 1 r) in
      let s := store_req (wr_id w) r s in
      Done (if imm_data w <=? NCCL_MIN_POST_RECV then with_flow (set_last_rc_size (imm_data w) (flow s)) s else s)
  | IBV_WC_RDMA_READ => r ← load_req (wr_id w) s; Done (store_req (wr_id w) (set_poll_ctx 1 r) s)
  | IBV_WC_OTHER => Done s
  end.

(** [wcs] is what [ibv_poll_cq] gives. *)
Definition poll_flow_cq (wcs : list wc) (s : side) : result side :=
  if flow_cq_cnt_ (flow s) =? 0 then Done s
  else s ← foldl (fun acc w => s ← acc; flow_cqe w s) (Done s) wcs;
       Done (with_flow (set_flow_cq_cnt_ (flow_cq_cnt_ (flow s) -[32] alen wcs) (flow s)) s).

Section policy.
Context (kEngineLBPolicy : engine_lb_policy).

(** The engine that serves a receive, and the load it is counted for. *)
Definition choose_engine (rnd u : Z) (s : side) : result (Z * side) :=
  let dev := dev_ (flow s) in
  let counted c := (e ← inc_load_on_engine c (ep s); r ← load_req u s;
                    Done (c, store_req u (set_engine_idx c r) (with_ep e s))) in
  match kEngineLBPolicy with
  | ENGINE_POLICY_BIND => Done (find_first_engine_idx_on_dev dev (ep s) +[32] next_engine_offset_ (flow s), s)
  | ENGINE_POLICY_RR =>
      let '(c, nxt) := find_rr_engine_idx dev (next_engine_offset_ (flow s)) (ep s) in
      Done (c, with_flow (set_next_engine_offset_ nxt (flow s)) s)
  | ENGINE_POLICY_OBLIVIOUS => Done (find_oblivious_engine_idx rnd dev (ep s), s)
  | ENGINE_POLICY_LOAD_POT => c ← find_pot_load_engine_idx rnd dev (ep s); counted c
  | ENGINE_POLICY_LOAD => c ← find_least_loaded_engine_idx dev (ep s); counted c
  end.

(** [ctx] is the context popped from [ctx_pool_], [phi] the flow's own address. *)
Definition uccl_recv_async (rnd ctx phi : Z) (bs : list rbuf) (u : Z) (wcs : list wc) (s : side) : result (Z * side) :=
  if negb (check_room (flow s)) then Done (-1, s)
  else
  let s := with_flow (inc_outstanding_reqs (flow s)) s in
  b0 ← fetch bs 0;
  if (0 <? kRCSize) && (b_size b0 <=? NCCL_MIN_POST_RECV) && (alen bs =? 1) && (last_rc_recv_ (flow s) <=? kRCSize) then
    '(wr, f) ← rc_recv b0 (flow s);
    r ← load_req u s;
    let r := set_n 1 (set_poll_ctx 0 (set_context phi (set_type ReqRxRC r))) in
    s ← poll_flow_cq wcs (store_req u (set_recv (recv_data_len r) (recv_elems r) wr r) (with_flow f s));
    Done (0, s)
  else
  '(candidate, s) ← choose_engine rnd u s;
  '(slot, wr, f) ← post_fifo candidate bs (ep s) (flow s);
  r ← load_req u s;
  let r := set_n (alen bs) (set_context phi (set_type ReqRx r)) in
  let r := set_recv (map b_size bs) slot wr (set_poll_ctx ctx r) in
  let m := MkMsg kRx (peer_id_ f) u ctx in
  s ← poll_flow_cq wcs (with_ep (put_rx candidate m (ep s)) (store_req u r (with_flow f s)));
  Done (0, s).

(** ** The sender matches a request with a buffer *)

Inductive readiness := NotReady | Waiting | Ready (slot nmsg : Z).

(** [Waiting]: the first item is there and the thread spins for the others. *)
Definition check_fifo_ready (f : UcclFlow) : result readiness :=
  let slot := fifo_head f mod kMaxReq in
  slots ← fetch (elems f) slot;
  e0 ← fetch slots 0;
  let i := fifo_head f +[64] 1 in
  if negb (idx e0 =? i) then Done NotReady
  else Done (if forallb (fun e => idx e =? i) (slice slots 1 (nmsgs e0)) then Ready slot (nmsgs e0) else Waiting).

Definition rc_send (f : UcclFlow) : UcclFlow := set_flow_cq_cnt_ (flow_cq_cnt_ f +[32] 1) f.

(** [msgs[i] = ...; ureqs[i]->mid = i] for the requests from [i] on. *)
Fixpoint make_msgs (op : Op) (us : list Z) (i : Z) (s : side) : result (list Msg * side) :=
  match us with
  | [] => Done ([], s)
  | u :: us =>
      r ← load_req u s;
      '(ms, s) ← make_msgs op us (i + 1) (store_req u (set_n i r) s);
      Done (MkMsg op (peer_id_ (flow s)) u (poll_ctx r) :: ms, s)
  end.

(** The bulk enqueue is repeated until it succeeds. *)
Definition post_multi (op : Op) (ureqs : list Z) (offset : Z) (s : side) : result side :=
  let engine := find_first_engine_idx_on_dev (dev_ (flow s)) (ep s) + offset in
  u0 ← fetch ureqs 0;
  r0 ← load_req u0 s;
  '(msgs, s) ← make_msgs op (slice ureqs 0 (n r0)) 0 s;
  Done (with_ep (put_tx engine msgs (ep s)) s).

(** [num_engines] is [ucclParamNUM_ENGINES()]. *)
Definition post_multi_send (num_engines : Z) (ureqs : list Z) (offset : Z) (s : side) : result side :=
  if offset =? RC_MAGIC then
    u0 ← fetch ureqs 0; r ← load_req u0 s;
    Done (with_flow (rc_send (flow s)) (store_req u0 (set_type ReqTxRC r) s))
  else _ ← check (offset <? num_engines); post_multi kTx ureqs offset s.

Definition post_multi_write (ureqs : list Z) (offset : Z) (s : side) : result side :=
  _ ← check (negb (offset =? RC_MAGIC)); post_multi kWrite ureqs offset s.
Definition post_multi_read (ureqs : list Z) (offset : Z) (s : side) : result side :=
  _ ← check (negb (offset =? RC_MAGIC)); post_multi kRead ureqs offset s.

(** What [uccl_send_async] does next: return, spin, or take the slot it has
    posted off the FIFO. *)
Inductive send_next := Ret (code : Z) | Spin | Finish (slot : Z).

(** The request once it is matched with item [e]. *)
Definition match_req (e : FifoItem) (lk data sz nmsg ctx phi : Z) (r : ucclRequest) : ucclRequest :=
  let r := if size e <? sz then set_data_len (signed 32 (size e)) r else r in
  let r := set_buffers data lk (addr e) (rkey e) (rid e) r in
  let r := set_n nmsg (set_counters (inc_backlog r) 0 0 r) in
  let r := if engine_offset e =? RC_MAGIC then set_poll_ctx 0 r
           else let r := set_poll_ctx ctx r in
                if load_based kEngineLBPolicy then set_engine_idx (engine_offset e) r else r in
  set_counters 0 (sent_offset r) (acked_bytes r) (set_context phi r).

(** A load-based policy counts the request for the item's engine. *)
Definition count_load (e : FifoItem) (s : side) : result side :=
  if negb (engine_offset e =? RC_MAGIC) && load_based kEngineLBPolicy then
    e' ← inc_load_on_engine (engine_offset e) (ep s); Done (with_ep e' s)
  else Done s.

(** [uccl_send_async] up to and including [post_multi_send]. *)
Definition send_begin (num_engines lk data sz ctx phi u : Z) (s : side) : result (send_next * side) :=
  r ← load_req u s;
  let s := store_req u (set_data_len (signed 32 (wrap 32 sz)) (set_type ReqTx r)) s in
  rdy ← check_fifo_ready (flow s);
  match rdy with
  | NotReady => Done (Ret (-1), s)
  | Waiting => Done (Spin, s)
  | Ready slot nmsg =>
      _ ← check ((slot <? kMaxReq) && (nmsg <=? kMaxRecv));
      ureqs ← fetch (fifo_ureqs (flow s)) slot;
      slots ← fetch (elems (flow s)) slot;
      match list_find (fun p => p = 0) (slice ureqs 0 nmsg) with
      | None => Done (Ret 0, s)
      | Some (i, _) =>
          let i := Z.of_nat i in
          e ← fetch slots i;
          _ ← check (negb ((size e <? 0) || (addr e =? 0) || (rkey e =? 0)));
          r ← load_req u s;
          let s := store_req u (match_req e lk data sz nmsg ctx phi r) s in
          s ← count_load e s;
          let ureqs := aset ureqs i u in
          let s := with_flow (set_fifo_ureqs (aset (fifo_ureqs (flow s)) slot ureqs) (flow s)) s in
          if existsb (fun p => p =? 0) (slice ureqs 0 nmsg) then Done (Ret 0, s)
          else s ← post_multi_send num_engines ureqs (engine_offset e) s; Done (Finish slot, s)
      end
  end.

(** The head moves and the slot is cleared: one item, and all of its requests. *)
Definition send_finish (slot : Z) (s : side) : result side :=
  let f := set_fifo_head (fifo_head (flow s) +[64] 1) (flow s) in
  slots ← fetch (elems f) slot;
  _ ← fetch slots 0;
  let f := set_elems (aset (elems f) slot (aset slots 0 zero_item)) f in
  Done (with_flow (set_fifo_ureqs (aset (fifo_ureqs f) slot (replicate (Z.to_nat kMaxRecv) 0)) f) s).

(** The whole call, when nothing happens in between; [None] while it spins. *)
Definition uccl_send_async (num_engines lk data sz ctx phi u : Z) (s : side) : result (option Z * side) :=
  '(nx, s) ← send_begin num_engines lk data sz ctx phi u s;
  match nx with
  | Ret c => Done (Some c, s)
  | Spin => Done (None, s)
  | Finish slot => s ← send_finish slot s; Done (Some 0, s)
  end.

(** ** Polling a request *)

(** Which contexts the engines have marked done; a context that is polled
    successfully goes back to the pool. *)
Definition uccl_poll_once (done : Z -> bool) (ctx : Z) : bool := done ctx.

Definition uccl_poll_ureq_once (done : Z -> bool) (wcs : list wc) (u : Z) (s : side) : result (bool * side) :=
  s ← poll_flow_cq wcs s;
  r ← load_req u s;
  let ret := match type r with
             | ReqTxRC | ReqRxRC | ReqFlush => negb (poll_ctx r =? 0)
             | ReqRead => if poll_ctx r =? 0 then negb (poll_ctx r =? 0) else uccl_poll_once done (poll_ctx r)
             | _ => uccl_poll_once done (poll_ctx r)
             end in
  s ← match type r with
      | ReqRx | ReqRxRC =>
          if ret then
            let s := with_flow (dec_outstanding_reqs (flow s)) s in
            if 0 <? kRCSize then
              l0 ← fetch (recv_data_len r) 0;
              Done (if (l0 <=? kRCSize) && (n r =? 1) then with_flow (set_last_rc_size 0 (flow s)) s else s)
            else Done s
          else Done s
      | _ => Done s
      end;
  s ← (if load_based kEngineLBPolicy then
         match type r with
         | ReqTx | ReqRx => e ← dec_load_on_engine (engine_idx r) (ep s); Done (with_ep e s)
         | _ => Done s
         end
       else Done s);
  Done (ret, s).

End policy.

(** ** One-sided operations *)

(** The request of a one-sided operation on item [it]. *)
Definition os_req (t : ReqType) (lk data sz phi : Z) (it : FifoItem) (r : ucclRequest) : ucclRequest :=
  let r := set_context phi (set_n 1 (set_type t r)) in
  set_data_len (signed 32 (Z.min (wrap 32 sz) (size it))) (set_buffers data lk (addr it) (rkey it) (rid it) r).

(** [ctx] is what the pool gives when the request has no context, [0] for none. *)
Definition os_async (t : ReqType) (post : list Z -> Z -> side -> result side) (lk data sz ctx phi : Z) (it : FifoItem) (u : Z)
    (s : side) : result (Z * side) :=
  r ← load_req u s;
  let r := os_req t lk data sz phi it r in
  _ ← check (negb (engine_offset it =? RC_MAGIC));
  let r' := if poll_ctx r =? 0 then set_poll_ctx ctx r else r in
  if poll_ctx r' =? 0 then Done (-1, store_req u r' s)
  else _ ← check (negb (phi =? 0));
       s ← post [u] (engine_offset it) (store_req u (set_engine_idx (engine_offset it) r') s); Done (0, s).

Definition uccl_write_async : Z -> Z -> Z -> Z -> Z -> FifoItem -> Z -> side -> result (Z * side) :=
  os_async ReqWrite post_multi_write.
Definition uccl_read_async : Z -> Z -> Z -> Z -> Z -> FifoItem -> Z -> side -> result (Z * side) :=
  os_async ReqRead post_multi_read.

(** ** Flushing *)

(** The last buffer whose size is not zero, [-1] when there is none. *)
Definition check_need_flush (sizes : list Z) : Z :=
  foldl (fun last i => if default 0 (aget sizes i) =? 0 then last else i) (-1) (seqZ 0 (alen sizes)).

(** The read that [post_flush] posts: address and key of the buffer, and the
    request whose [rc_or_flush_done] it sets. *)
Record flush_wr := MkFlush { fl_addr : Z; fl_rkey : Z; fl_done : Z }.
Definition post_flush (bs : list rbuf) (u last : Z) (f : UcclFlow) : result (flush_wr * UcclFlow) :=
  b ← fetch bs last;
  Done (MkFlush (b_data b) (b_rkey b) u, set_flow_cq_cnt_ (flow_cq_cnt_ f +[32] 1) f).

Definition uccl_flush (bs : list rbuf) (u : Z) (wcs : list wc) (s : side) : result (Z * option flush_wr * side) :=
  s ← poll_flow_cq wcs s;
  let last := check_need_flush (map b_size bs) in
  if last =? -1 then Done (0, None, s)
  else '(wr, f) ← post_flush bs u last (flow s);
       r ← load_req u s;
       Done (0, Some wr, store_req u (set_type ReqFlush r) (with_flow f s)).

(** ** The wire format of an item

    [memcpy] of a word of a little-endian machine. *)

Fixpoint le_bytes (k : nat) (x : Z) : list Z :=
  match k with O => [] | S k => x mod 256 :: le_bytes k (x / 256) end.
Fixpoint le_word (l : list Z) : Z :=
  match l with [] => 0 | b :: l => b + 256 * le_word l end.

(** [memcpy(buf + o, src, len)] *)
Definition put_bytes (buf : list Z) (o : Z) (src : list Z) : list Z :=
  take (Z.to_nat o) buf ++ src ++ drop (Z.to_nat o + length src) buf.

Definition serialize_fifo_item (it : FifoItem) (buf : list Z) : list Z :=
  let buf := put_bytes buf 0 (le_bytes 8 (addr it)) in
  let buf := put_bytes buf 8 (le_bytes 4 (size it)) in
  let buf := put_bytes buf 12 (le_bytes 4 (rkey it)) in
  let buf := put_bytes buf 16 (le_bytes 4 (nmsgs it)) in
  let buf := put_bytes buf 20 (le_bytes 4 (rid it)) in
  let buf := put_bytes buf 24 (le_bytes 8 (idx it)) in
  let buf := put_bytes buf 32 (le_bytes 4 (engine_offset it)) in
  put_bytes buf 36 (padding it).

Definition deserialize_fifo_item (buf : list Z) : FifoItem :=
  MkFifo (le_word (slice buf 0 8)) (le_word (slice buf 8 12)) (le_word (slice buf 12 16)) (le_word (slice buf 16 20))
    (le_word (slice buf 20 24)) (le_word (slice buf 24 32)) (le_word (slice buf 32 36)) (slice buf 36 64).

(** A buffer advertised out of band, as bytes; no engine has given it a request id. *)
Definition prepare_fifo_metadata (data rk sz : Z) (out : list Z) (e : RDMAEndpoint) (f : UcclFlow) : result (list Z * UcclFlow) :=
  '(slot, _, f) ← post_fifo 0 [MkBuf data (signed 32 (wrap 32 sz)) rk] e f;
  row ← fetch (elems f) slot;
  s0 ← fetch row 0;
  Done (serialize_fifo_item (MkFifo (addr s0) (wrap 32 sz) (rkey s0) 1 (rid s0) (idx s0) (engine_offset s0) (replicate 28 0)) out, f).

End Endpoint.
