(* ===== verification/EndpointSpec.v ===== *)
(** * The rendezvous of a send with a receive

    The two ends of a flow, the engines and the network between them, as a step
    relation over the operations of [Endpoint.v]: the receiver posts and polls
    receives, an engine gives a receive its request id and writes its item to
    the sender, the network delivers the writes in any order, and the sender
    matches.  Whatever the order, the [k]-th message that is posted goes to the
    [k]-th buffer that was advertised ([rendezvous_matches]); no buffer is lost,
    so a sender that keeps trying is served ([rendezvous_progress]), as long as
    the network does not write the slot that the sender is about to clear, which
    loses the buffer for good ([rendezvous_lost]). *)

From S2P Require Import Prelude Flow OneSided Endpoint.

Module Rendezvous.
Import OneSided Endpoint.

(** [supply_rx_buff], once the engine has a receive request: the id goes into
    the items, and the network takes what the work request points to. *)
Definition supply_items (id u : Z) (s : side) : result (Z * list FifoItem * side) :=
  r ← load_req u s;
  row ← fetch (elems (flow s)) (recv_elems r);
  _ ← check (n r =? 1);
  e ← fetch row 0;
  let row := aset row 0 (MkFifo (addr e) (size e) (rkey e) (nmsgs e) id (idx e) (engine_offset e) (padding e)) in
  Done (remote_addr (recv_wr r), take (Z.to_nat (sge_length (recv_wr r) / 64)) row,
        with_flow (set_elems (aset (elems (flow s)) (recv_elems r) row) (flow s)) s).

(** The row of the sender's FIFO that an address falls into, and a write to it. *)
Definition row_of (base a : Z) : Z := (a - base) / (kMaxRecv * 64).
Definition write_items (base a : Z) (items : list FifoItem) (f : UcclFlow) : UcclFlow :=
  match aget (elems f) (row_of base a) with
  | Some row => set_elems (aset (elems f) (row_of base a) (items ++ drop (length items) row)) f
  | None => f
  end.

(** A message as it was put on an engine's queue: the engine, the request at
    that moment, and the arguments of the call. *)
Record posted := MkPosted { p_engine : Z; p_msg : Msg; p_req : ucclRequest; p_lkey : Z; p_data : Z; p_size : Z; p_ctx : Z }.

(** [pc] is the slot that the sender has posted and not yet cleared; [supplied]
    has the receives that engines have taken, with their request ids; [recvs] and
    [sent] are the history of the flow. *)
Record world := MkWorld {
  rx : side; tx : side; pc : option Z;
  supplied : gmap Z Z; wire : list (Z * list FifoItem); completed : gset Z;
  recvs : list rbuf; sent : list posted;
}.

Section steps.
Context (policy : engine_lb_policy) (num_engines : Z).
(** Whether the network may write the slot that the sender is about to clear. *)
Context (racy : bool).

Definition base (w : world) : Z := remote_fifo_addr (flow (rx w)).
Definition rx_req (w : world) (k : Z) : option Z := (fun p => mureq (snd p)) <$> aget (rx_cmdq (ep (rx w))) k.

(** The buffers an application may post: a size that is an [int], and an address
    and a key that are not null. *)
Definition buf_ok (b : rbuf) : Prop :=
  in_word 64 (b_data b) /\ b_data b <> 0 /\ in_word 32 (b_rkey b) /\ b_rkey b <> 0 /\ 0 <= b_size b < 2 ^ 31.

Inductive step : world -> world -> Prop :=
| step_recv w rnd ctx phi b u wcs s :
    buf_ok b ->
    (forall k, 0 <= k -> k ∉ completed w -> rx_req w k <> Some u) ->
    check_room (flow (rx w)) = true ->
    uccl_recv_async policy rnd ctx phi [b] u wcs (rx w) = Done (0, s) ->
    step w (MkWorld s (tx w) (pc w) (supplied w) (wire w) (completed w) (recvs w ++ [b]) (sent w))
| step_supply w k u id a items s :
    rx_req w k = Some u -> 0 <= k -> supplied w !! k = None -> in_word 32 id ->
    supply_items id u (rx w) = Done (a, items, s) ->
    step w (MkWorld s (tx w) (pc w) (<[k := id]> (supplied w)) ((a, items) :: wire w) (completed w) (recvs w) (sent w))
| step_deliver w l1 a items l2 :
    wire w = l1 ++ (a, items) :: l2 ->
    racy = true \/ pc w <> Some (row_of (base w) a) ->
    step w (MkWorld (rx w) (with_flow (write_items (base w) a items (flow (tx w))) (tx w)) (pc w) (supplied w) (l1 ++ l2)
              (completed w) (recvs w) (sent w))
| step_poll w k u done wcs ret s :
    rx_req w k = Some u -> 0 <= k -> k ∉ completed w ->
    uccl_poll_ureq_once policy done wcs u (rx w) = Done (ret, s) ->
    (ret = true -> k < alen (sent w)) ->
    step w (MkWorld s (tx w) (pc w) (supplied w) (wire w) (if ret then {[k]} ∪ completed w else completed w) (recvs w) (sent w))
| step_send_not w lk data sz ctx phi u nx s :
    pc w = None -> u <> 0 ->
    send_begin policy num_engines lk data sz ctx phi u (tx w) = Done (nx, s) ->
    (forall slot, nx <> Finish slot) ->
    step w (MkWorld (rx w) s None (supplied w) (wire w) (completed w) (recvs w) (sent w))
| step_send w lk data sz ctx phi u slot s r eng m :
    pc w = None -> u <> 0 -> in_word 64 sz ->
    send_begin policy num_engines lk data sz ctx phi u (tx w) = Done (Finish slot, s) ->
    heap s !! u = Some r -> last (tx_cmdq (ep s)) = Some (eng, m) ->
    step w (MkWorld (rx w) s (Some slot) (supplied w) (wire w) (completed w) (recvs w)
              (sent w ++ [MkPosted eng m r lk data sz ctx]))
| step_finish w slot s :
    pc w = Some slot -> send_finish slot (tx w) = Done s ->
    step w (MkWorld (rx w) s None (supplied w) (wire w) (completed w) (recvs w) (sent w)).

(** ** The initial world *)

Definition empty_rows : list (list FifoItem) := replicate (Z.to_nat kMaxReq) [zero_item].
Definition empty_ureqs : list (list Z) := replicate (Z.to_nat kMaxReq) [0].

Record initial (w : world) : Prop := {
  in_rx : elems (flow (rx w)) = empty_rows /\ fifo_tail (flow (rx w)) = 0 /\ outstanding_reqs_ (flow (rx w)) = 0 /\
          rx_cmdq (ep (rx w)) = [];
  in_tx : elems (flow (tx w)) = empty_rows /\ fifo_ureqs (flow (tx w)) = empty_ureqs /\ fifo_head (flow (tx w)) = 0 /\
          tx_cmdq (ep (tx w)) = [];
  in_engines : num_engines_per_dev_ (ep (rx w)) = num_engines /\ num_engines_per_dev_ (ep (tx w)) = num_engines /\
               0 < num_engines < RC_MAGIC;
  in_base : 0 <= base w /\ base w + kMaxReq * kMaxRecv * 64 < 2 ^ 64;
  in_net : pc w = None /\ supplied w = ∅ /\ wire w = [] /\ completed w = ∅ /\ recvs w = [] /\ sent w = [];
}.

Definition reachable (w : world) : Prop := exists w0, initial w0 /\ rtc step w0 w.

End steps.

(** ** What the calls leave alone *)

Definition fifo_view (f : UcclFlow) :=
  (elems f, fifo_tail f, fifo_ureqs f, fifo_head f, remote_fifo_addr f, outstanding_reqs_ f, dev_ f, peer_id_ f).
Definition req_view (r : ucclRequest) := (type r, n r, recv_elems r, recv_wr r).

Definition keeps_heap (h h' : gmap Z ucclRequest) : Prop :=
  forall u r, h !! u = Some r -> exists r', h' !! u = Some r' /\ req_view r' = req_view r.
Definition keeps (s s' : side) : Prop :=
  ep s' = ep s /\ fifo_view (flow s') = fifo_view (flow s) /\ keeps_heap (heap s) (heap s').

Lemma keeps_heap_refl h : keeps_heap h h.
Proof. intros u r Hr. by exists r. Qed.
Hint Resolve keeps_heap_refl : core.

Lemma keeps_refl s : keeps s s.
Proof. by split_and!. Qed.

Lemma keeps_trans s1 s2 s3 : keeps s1 s2 -> keeps s2 s3 -> keeps s1 s3.
Proof.
  intros (E1 & V1 & H1) (E2 & V2 & H2). split_and!; [congruence|congruence|].
  intros u r (r' & Hr & E)%H1. destruct (H2 _ _ Hr) as (r'' & Hr' & E'). exists r''. split; [done|congruence].
Qed.

Lemma load_req_Done u s r : load_req u s = Done r <-> heap s !! u = Some r.
Proof. unfold load_req. destruct (heap s !! u); split; intros; simplify_eq; done. Qed.

Lemma fetch_Done {A} (l : list A) i x : fetch l i = Done x <-> aget l i = Some x.
Proof. unfold fetch. destruct (aget l i); split; intros; simplify_eq; done. Qed.

Lemma store_keeps u r r' s : heap s !! u = Some r -> req_view r' = req_view r -> keeps s (store_req u r' s).
Proof.
  intros Hr E. split_and!; [done|done|]. intros v rv Hv. cbn. destruct (decide (v = u)) as [->|Hne].
  - exists r'. rewrite lookup_insert_eq. split; [done|congruence].
  - exists rv. by rewrite lookup_insert_ne.
Qed.

Lemma flow_cqe_keeps c s s' : flow_cqe c s = Done s' -> keeps s s'.
Proof.
  unfold flow_cqe. destruct (wc_op c); intros H.
  - cbn in H. injection H as <-. apply keeps_refl.
  - apply bind_done in H as (r & Hr%load_req_Done & H). injection H as <-.
    case_match; by apply (store_keeps _ r _ s Hr).
  - apply bind_done in H as (r & Hr%load_req_Done & H). injection H as <-. by apply (store_keeps _ r _ s Hr).
  - injection H as <-. apply keeps_refl.
Qed.

Lemma flow_cqes_keeps wcs : forall acc s', foldl (fun acc c => s ← acc; flow_cqe c s) acc wcs = Done s' ->
  exists s, acc = Done s /\ keeps s s'.
Proof.
  induction wcs as [|c wcs IH]; intros acc s' H; [exists s'; split; [done|apply keeps_refl]|]. cbn in H.
  destruct (IH _ _ H) as (s1 & H1 & K). apply bind_done in H1 as (s & -> & H1). exists s. split; [done|].
  eapply keeps_trans; [by eapply flow_cqe_keeps|done].
Qed.

Lemma poll_flow_cq_keeps wcs s s' : poll_flow_cq wcs s = Done s' -> keeps s s'.
Proof.
  unfold poll_flow_cq. case_match; intros H'; [injection H' as <-; apply keeps_refl|].
  apply bind_done in H' as (s1 & H1 & H'). injection H' as <-. apply flow_cqes_keeps in H1 as (s0 & [= <-] & K).
  exact K.
Qed.

(** The engine is chosen without touching the FIFO. *)
Lemma choose_engine_keeps policy rnd u s c s' : choose_engine policy rnd u s = Done (c, s') ->
  rx_cmdq (ep s') = rx_cmdq (ep s) /\ tx_cmdq (ep s') = tx_cmdq (ep s) /\
  num_engines_per_dev_ (ep s') = num_engines_per_dev_ (ep s) /\
  fifo_view (flow s') = fifo_view (flow s) /\ keeps_heap (heap s) (heap s').
Proof.
  assert (forall c0, (e ← inc_load_on_engine c0 (ep s); r ← load_req u s;
                  Done (c0, store_req u (set_engine_idx c0 r) (with_ep e s))) = Done (c, s') ->
     rx_cmdq (ep s') = rx_cmdq (ep s) /\ tx_cmdq (ep s') = tx_cmdq (ep s) /\
     num_engines_per_dev_ (ep s') = num_engines_per_dev_ (ep s) /\
     fifo_view (flow s') = fifo_view (flow s) /\ keeps_heap (heap s) (heap s')) as Hc.
  { intros c0 H. apply bind_done in H as (e & He & H). apply bind_done in H as (r & Hr%load_req_Done & H). injection H as <- <-.
    apply bind_done in He as (l & _ & [= <-]). split_and!; [done..|]. cbn.
    by apply (store_keeps u r _ s Hr). }
  unfold choose_engine. destruct policy; cbn [find_rr_engine_idx]; intros H; simplify_eq; try (by split_and!).
  - apply bind_done in H as (c0 & _ & H). by apply Hc in H.
  - apply bind_done in H as (c0 & _ & H). by apply Hc in H.
Qed.

(** ** Receiving *)

Lemma post_fifo_one eng b e f it slot wr f' :
  aget (elems f) (fifo_tail f mod kMaxReq) = Some [it] ->
  post_fifo eng [b] e f = Done (slot, wr, f') ->
  slot = fifo_tail f mod kMaxReq /\ remote_addr wr = remote_fifo_addr f +[64] slot * 64 /\ sge_length wr = 64 /\
  fifo_view f' = (aset (elems f) slot [MkFifo (b_data b) (wrap 32 (b_size b)) (b_rkey b) 1 (rid it) (fifo_tail f +[64] 1)
                     (eng mod num_engines_per_dev_ e) (padding it)],
                  fifo_tail f +[64] 1, fifo_ureqs f, fifo_head f, remote_fifo_addr f, outstanding_reqs_ f, dev_ f, peer_id_ f).
Proof.
  intros Hrow H. unfold post_fifo, fetch in H. rewrite Hrow in H. cbn in H. injection H as <- <- <-.
  split_and!; [done|cbn; f_equal; unfold kMaxRecv; lia|done|]. by case_match.
Qed.

Lemma recv_effect policy rnd ctx phi b u wcs s it s' :
  aget (elems (flow s)) (fifo_tail (flow s) mod kMaxReq) = Some [it] ->
  check_room (flow s) = true -> uccl_recv_async policy rnd ctx phi [b] u wcs s = Done (0, s') ->
  let slot := fifo_tail (flow s) mod kMaxReq in
  exists eng wr,
    remote_addr wr = remote_fifo_addr (flow s) +[64] slot * 64 /\ sge_length wr = 64 /\
    fifo_view (flow s') =
      (aset (elems (flow s)) slot [MkFifo (b_data b) (wrap 32 (b_size b)) (b_rkey b) 1 (rid it) (fifo_tail (flow s) +[64] 1)
                     (eng mod num_engines_per_dev_ (ep s)) (padding it)],
       fifo_tail (flow s) +[64] 1, fifo_ureqs (flow s), fifo_head (flow s), remote_fifo_addr (flow s),
       outstanding_reqs_ (flow s) +[32] 1, dev_ (flow s), peer_id_ (flow s)) /\
    rx_cmdq (ep s') = rx_cmdq (ep s) ++ [(eng, MkMsg kRx (peer_id_ (flow s)) u ctx)] /\
    num_engines_per_dev_ (ep s') = num_engines_per_dev_ (ep s) /\
    (exists r, heap s' !! u = Some r /\ req_view r = (ReqRx, 1, slot, wr)) /\
    (forall v r, v <> u -> heap s !! v = Some r -> exists r', heap s' !! v = Some r' /\ req_view r' = req_view r).
Proof.
  intros Hrow Hroom H slot. unfold uccl_recv_async in H. rewrite Hroom in H. cbn [negb] in H.
  apply bind_done in H as (b0 & [= <-] & H). change (0 <? kRCSize) with false in H. cbn [andb] in H.
  apply bind_done in H as ([c s1] & Hc & H). apply choose_engine_keeps in Hc as (Eq & _ & En & Ev & Hh1).
  apply bind_done in H as ([[sl wr] f] & Hp & H). apply bind_done in H as (r & Hr%load_req_Done & H).
  apply bind_done in H as (s2 & Hk%poll_flow_cq_keeps & H). injection H as <-.
  unfold fifo_view in Ev. cbn in Ev. injection Ev as Ee Et Eu Eh Ea Eo Ed Ep.
  apply (post_fifo_one _ _ _ _ it) in Hp; [|by rewrite Ee, Et]. destruct Hp as (-> & Hra & Hlen & Hv).
  destruct Hk as (E2 & V2 & H2). cbn in E2, V2, H2. rewrite Et, Ea in Hra. rewrite Et in H2.
  exists c, wr. split_and!; [done|done| | | | |].
  - rewrite V2, Hv. unfold slot. by rewrite Ee, Et, Eu, Eh, Ea, Eo, Ed, Ep, En.
  - rewrite E2. cbn. rewrite Eq. assert (peer_id_ f = peer_id_ (flow s)) as ->; [|done].
    apply (f_equal snd) in Hv. cbn in Hv. congruence.
  - by rewrite E2.
  - destruct (H2 u _ ltac:(apply lookup_insert_eq)) as (r' & Hr' & Er'). exists r'. split; [done|]. by rewrite Er'.
  - intros v rv Hne Hv0. destruct (Hh1 _ _ Hv0) as (r1 & Hr1 & Ev1). destruct (H2 v r1) as (r2 & Hr2 & Ev2).
    { by rewrite lookup_insert_ne. }
    exists r2. split; [done|]. congruence.
Qed.

(** Polling a receive. *)
Lemma poll_effect policy done wcs u s ret s' r0 : heap s !! u = Some r0 -> type r0 = ReqRx ->
  uccl_poll_ureq_once policy done wcs u s = Done (ret, s') ->
  rx_cmdq (ep s') = rx_cmdq (ep s) /\ num_engines_per_dev_ (ep s') = num_engines_per_dev_ (ep s) /\
  fifo_view (flow s') = fifo_view (if ret then dec_outstanding_reqs (flow s) else flow s) /\ keeps_heap (heap s) (heap s').
Proof.
  intros Hu Ht H. unfold uccl_poll_ureq_once in H. apply bind_done in H as (s1 & (E1 & V1 & H1)%poll_flow_cq_keeps & H).
  apply bind_done in H as (r & Hr%load_req_Done & H). destruct (H1 _ _ Hu) as (r' & Hr' & Er). rewrite Hr in Hr'. injection Hr' as <-.
  assert (type r = ReqRx) as Hty by (unfold req_view in Er; congruence). rewrite Hty in H.
  change (0 <? kRCSize) with false in H.
  assert (forall f, fifo_view f = fifo_view (flow s) -> fifo_view (dec_outstanding_reqs f) = fifo_view (dec_outstanding_reqs (flow s))) as Hd.
  { intros f Hf. unfold fifo_view in *. cbn. injection Hf as -> -> -> -> -> -> -> ->. done. }
  apply bind_done in H as (s2 & Hs2 & H). apply bind_done in H as (s3 & Hs3 & H). injection H as <- <-.
  assert (ep s2 = ep s1 /\ heap s2 = heap s1 /\ fifo_view (flow s2) = fifo_view (if uccl_poll_once done (poll_ctx r) then dec_outstanding_reqs (flow s) else flow s)) as (E2 & Eh2 & V2).
  { destruct (uccl_poll_once done (poll_ctx r)); injection Hs2 as <-; split_and!; [done|done|by apply Hd|done..]. }
  assert (rx_cmdq (ep s3) = rx_cmdq (ep s2) /\ num_engines_per_dev_ (ep s3) = num_engines_per_dev_ (ep s2) /\
          flow s3 = flow s2 /\ heap s3 = heap s2) as (E3 & N3 & F3 & Eh3).
  { destruct (load_based policy); [|by injection Hs3 as <-]. apply bind_done in Hs3 as (e & He & [= <-]).
    apply bind_done in He as (l & _ & [= <-]). done. }
  rewrite E3, N3, F3, Eh3, Eh2, E2, E1. done.
Qed.

(** ** Sending *)

Lemma bind_of {A B} (m : result A) (k : A -> result B) a : m = Done a -> (x ← m; k x) = k a.
Proof. by intros ->. Qed.

Lemma send_unready policy ne lk data sz ctx phi u s e r :
  aget (elems (flow s)) (fifo_head (flow s) mod kMaxReq) = Some [e] -> idx e <> fifo_head (flow s) +[64] 1 ->
  heap s !! u = Some r ->
  send_begin policy ne lk data sz ctx phi u s =
    Done (Ret (-1), store_req u (set_data_len (signed 32 (wrap 32 sz)) (set_type ReqTx r)) s).
Proof.
  intros Hrow Hi Hu%load_req_Done. unfold send_begin. rewrite (bind_of _ _ r Hu).
  rewrite (bind_of _ _ NotReady); [done|]. unfold check_fifo_ready. cbn [flow store_req with_heap].
  rewrite (bind_of _ _ [e]) by (by apply fetch_Done). rewrite (bind_of _ _ e) by done. by rewrite (proj2 (Z.eqb_neq _ _) Hi).
Qed.

Lemma count_load_Done policy e s s' : count_load policy e s = Done s' -> exists l, s' = with_ep (set_load l (ep s)) s.
Proof.
  unfold count_load. case_match; intros H'.
  - apply bind_done in H' as (e' & He & [= <-]). apply bind_done in He as (l & _ & [= <-]). by eexists.
  - injection H' as <-. exists (engine_load_vec_ (ep s)). by destruct s as [[] ? ?].
Qed.

(** What makes an item one that a sender can use. *)
Record usable (ne : Z) (e : FifoItem) : Prop := {
  us_nmsgs : nmsgs e = 1; us_size : 0 <= size e; us_addr : addr e <> 0; us_rkey : rkey e <> 0;
  us_engine : 0 <= engine_offset e < ne;
}.

Definition matched policy e lk data sz ctx phi r : ucclRequest :=
  match_req policy e lk data sz 1 ctx phi (set_data_len (signed 32 (wrap 32 sz)) (set_type ReqTx r)).

Lemma post_one op u offset s r : heap s !! u = Some r -> n r = 1 ->
  post_multi op [u] offset s =
    Done (with_ep (put_tx (find_first_engine_idx_on_dev (dev_ (flow s)) (ep s) + offset)
                     [MkMsg op (peer_id_ (flow s)) u (poll_ctx r)] (ep s)) (store_req u (set_n 0 r) s)).
Proof.
  intros Hr Hn. unfold post_multi. cbn [fetch aget]. rewrite (bind_of _ _ u) by done.
  rewrite (bind_of _ _ r) by (by apply load_req_Done). rewrite Hn. change (slice [u] 0 1) with [u].
  cbn [make_msgs]. unfold load_req. by rewrite Hr.
Qed.

Lemma match_req_n policy e lk data sz nmsg ctx phi r : n (match_req policy e lk data sz nmsg ctx phi r) = nmsg.
Proof. unfold match_req. by repeat case_match. Qed.

Lemma send_ready policy ne lk data sz ctx phi u s e r :
  let slot := fifo_head (flow s) mod kMaxReq in
  aget (elems (flow s)) slot = Some [e] -> aget (fifo_ureqs (flow s)) slot = Some [0] ->
  idx e = fifo_head (flow s) +[64] 1 -> usable ne e -> ne < RC_MAGIC -> u <> 0 -> heap s !! u = Some r ->
  send_begin policy ne lk data sz ctx phi u s =
    (s1 ← count_load policy e (store_req u (matched policy e lk data sz ctx phi r)
              (store_req u (set_data_len (signed 32 (wrap 32 sz)) (set_type ReqTx r)) s));
     let s2 := with_flow (set_fifo_ureqs (aset (fifo_ureqs (flow s1)) slot [u]) (flow s1)) s1 in
     s3 ← post_multi kTx [u] (engine_offset e) s2; Done (Finish slot, s3)).
Proof.
  intros slot Hrow Hur Hi [Hn Hsz Ha Hk [He0 He]] Hne Hu Hr. unfold send_begin. rewrite (bind_of _ _ r) by (by apply load_req_Done).
  assert (0 <= slot < kMaxReq) as Hs by (apply Z.mod_pos_bound; done).
  rewrite (bind_of _ _ (Ready slot 1)).
  2: { unfold check_fifo_ready. cbn [flow store_req with_heap]. rewrite (bind_of _ _ [e]) by (by apply fetch_Done).
       rewrite (bind_of _ _ e) by done. by rewrite Hi, Z.eqb_refl, Hn. }
  rewrite (bind_of _ _ tt) by (by rewrite (proj2 (Z.ltb_lt slot kMaxReq)) by lia).
  rewrite (bind_of _ _ [0]) by (by apply fetch_Done). rewrite (bind_of _ _ [e]) by (by apply fetch_Done).
  change (list_find (fun p => p = 0) (slice [0] 0 1)) with (Some (0%nat, 0)). cbv iota beta.
  rewrite (bind_of _ _ e) by done.
  rewrite (bind_of _ _ tt).
  2: { by rewrite (proj2 (Z.ltb_ge (size e) 0)), (proj2 (Z.eqb_neq _ _) Ha), (proj2 (Z.eqb_neq _ _) Hk) by lia. }
  rewrite (bind_of _ _ (set_data_len (signed 32 (wrap 32 sz)) (set_type ReqTx r))) by (apply load_req_Done, lookup_insert_eq).
  fold (matched policy e lk data sz ctx phi r). destruct (count_load _ _ _) as [s1|]; [|done]. cbn [mbind result_bind].
  change (aset [0] (Z.of_nat 0) u) with [u]. change (slice [u] 0 1) with [u]. cbn [existsb]. rewrite (proj2 (Z.eqb_neq _ _) Hu). cbn [orb].
  unfold post_multi_send. rewrite (proj2 (Z.eqb_neq _ _)) by lia. by rewrite (proj2 (Z.ltb_lt _ _) He).
Qed.

(** A send that finds its item: the request is filled in and posted, and the
    FIFO keeps the item until the call ends. *)
Lemma send_effect policy ne lk data sz ctx phi u s e r s' nx :
  let slot := fifo_head (flow s) mod kMaxReq in
  aget (elems (flow s)) slot = Some [e] -> aget (fifo_ureqs (flow s)) slot = Some [0] ->
  idx e = fifo_head (flow s) +[64] 1 -> usable ne e -> ne < RC_MAGIC -> u <> 0 -> heap s !! u = Some r ->
  send_begin policy ne lk data sz ctx phi u s = Done (nx, s') ->
  let rq := matched policy e lk data sz ctx phi r in
  nx = Finish slot /\ flow s' = set_fifo_ureqs (aset (fifo_ureqs (flow s)) slot [u]) (flow s) /\
  heap s' !! u = Some (set_n 0 rq) /\ num_engines_per_dev_ (ep s') = num_engines_per_dev_ (ep s) /\
  tx_cmdq (ep s') = tx_cmdq (ep s) ++
    [(find_first_engine_idx_on_dev (dev_ (flow s)) (ep s) + engine_offset e, MkMsg kTx (peer_id_ (flow s)) u (poll_ctx rq))].
Proof.
  intros slot Hrow Hur Hi Hus Hne Hu Hr H rq. rewrite (send_ready _ _ _ _ _ _ _ _ _ e r) in H by done.
  apply bind_done in H as (s1 & (l & ->)%count_load_Done & H). cbn zeta in H.
  erewrite (post_one kTx u (engine_offset e) _ rq) in H; [|apply lookup_insert_eq|apply match_req_n].
  injection H as <- <-. split_and!; [done|done|apply lookup_insert_eq|done|done].
Qed.

(** ** The invariant *)

Section invariant.
Context (policy : engine_lb_policy) (ne : Z) (racy : bool).

Abbreviation cmds w := (rx_cmdq (ep (rx w))).
Abbreviation rxf w := (flow (rx w)).
Abbreviation txf w := (flow (tx w)).
Abbreviation posts w := (alen (sent w)).

(** The item of the [k]-th receive once it has its request id. *)
Definition item (b : rbuf) (eng k id : Z) : FifoItem :=
  MkFifo (b_data b) (b_size b) (b_rkey b) 1 id (k + 1) (eng mod ne) (replicate 28 0).
Definition item_at (w : world) (k id : Z) (e : FifoItem) : Prop :=
  exists b eng m, aget (recvs w) k = Some b /\ aget (cmds w) k = Some (eng, m) /\ e = item b eng k id.

(** The items in flight, by their index. *)
Definition wire_ids (w : world) : list Z := map (fun p => idx (hd zero_item (snd p))) (wire w).

(** Message [p] goes to the [k]-th buffer that was advertised: on the engine that
    serves the buffer, with its address, key and request id, and no longer than
    the buffer. *)
Definition serves (w : world) (k : Z) (p : posted) : Prop :=
  exists b eng m id, aget (recvs w) k = Some b /\ aget (cmds w) k = Some (eng, m) /\ supplied w !! k = Some id /\
    p_engine p = dev_ (txf w) * ne + eng mod ne /\ mopcode (p_msg p) = kTx /\ mpoll_ctx (p_msg p) = p_ctx p /\
    type (p_req p) = ReqTx /\ poll_ctx (p_req p) = p_ctx p /\
    laddr (p_req p) = p_data p /\ lkey (p_req p) = p_lkey p /\ data_len (p_req p) = Z.min (p_size p) (b_size b) /\
    raddr (p_req p) = b_data b /\ send_rkey (p_req p) = b_rkey b /\ send_rid (p_req p) = id /\
    sent_offset (p_req p) = 0 /\ acked_bytes (p_req p) = 0.

Record rx_inv (w : world) : Prop := {
  r_ne : num_engines_per_dev_ (ep (rx w)) = ne /\ 0 < ne < RC_MAGIC;
  r_base : 0 <= base w /\ base w + kMaxReq * kMaxRecv * 64 < 2 ^ 64;
  r_tail : fifo_tail (rxf w) = alen (recvs w) /\ alen (cmds w) = alen (recvs w);
  r_bufs : Forall buf_ok (recvs w);
  r_out : outstanding_reqs_ (rxf w) = alen (recvs w) - Z.of_nat (base.size (completed w)) /\ outstanding_reqs_ (rxf w) <= kMaxReq;
  r_completed : forall k, k ∈ completed w -> 0 <= k < posts w;
  r_supplied : forall k id, supplied w !! k = Some id -> 0 <= k < alen (recvs w);
  r_sent : forall k, 0 <= k < posts w -> is_Some (supplied w !! k);
  r_reqs : forall k u, 0 <= k -> k ∉ completed w -> rx_req w k = Some u -> exists r wr, heap (rx w) !! u = Some r /\
             req_view r = (ReqRx, 1, k mod kMaxReq, wr) /\ remote_addr wr = base w + k mod kMaxReq * 64 /\ sge_length wr = 64;
  r_rows : forall s, 0 <= s < kMaxReq -> exists e, aget (elems (rxf w)) s = Some [e] /\ padding e = replicate 28 0;
  r_staging : forall k, 0 <= k < alen (recvs w) -> supplied w !! k = None ->
                exists id e, aget (elems (rxf w)) (k mod kMaxReq) = Some [e] /\ item_at w k id e;
}.

(** Where the sender's FIFO is: its head and the slot being cleared. *)
Definition head_ok (w : world) : Prop :=
  match pc w with
  | None => fifo_head (txf w) = posts w
  | Some s => fifo_head (txf w) = posts w - 1 /\ 0 < posts w /\ s = (posts w - 1) mod kMaxReq
  end.

Record tx_inv (w : world) : Prop := {
  t_ne : num_engines_per_dev_ (ep (tx w)) = ne;
  t_head : head_ok w;
  t_ureqs : forall s, 0 <= s < kMaxReq -> exists u, aget (fifo_ureqs (txf w)) s = Some [u] /\ (pc w <> Some s -> u = 0);
  t_rows : forall s, 0 <= s < kMaxReq -> exists e, aget (elems (txf w)) s = Some [e] /\
             (e = zero_item \/ exists k id, k mod kMaxReq = s /\ supplied w !! k = Some id /\ item_at w k id e /\ k + 1 ∉ wire_ids w);
  t_wire : forall a its, (a, its) ∈ wire w -> exists k id e, a = base w + k mod kMaxReq * 64 /\ its = [e] /\
             supplied w !! k = Some id /\ item_at w k id e;
  t_nodup : NoDup (wire_ids w);
  t_gone : forall k, 0 <= k < posts w -> k + 1 ∉ wire_ids w;
  t_sent : forall k p, 0 <= k -> aget (sent w) k = Some p -> serves w k p;
}.

(** Two receives of one window have their own slots. *)
Lemma slot_distinct j k : j mod kMaxReq = k mod kMaxReq -> Z.abs (j - k) < kMaxReq -> j = k.
Proof.
  unfold kMaxReq, Flow.kMaxReq. intros E Hd. pose proof (Z.div_mod j 16 ltac:(lia)). pose proof (Z.div_mod k 16 ltac:(lia)). lia.
Qed.

Lemma mod_req k : 0 <= k mod kMaxReq < kMaxReq.
Proof. by apply Z.mod_pos_bound. Qed.

Lemma bounded_size (X : gset Z) h : 0 <= h -> (forall k, k ∈ X -> 0 <= k < h) -> Z.of_nat (base.size X) <= h.
Proof.
  intros Hh HX. assert (X ⊆ list_to_set (seqZ 0 h)) as Hs.
  { intros k Hk%HX. apply elem_of_list_to_set, elem_of_seqZ. lia. }
  apply subseteq_size in Hs. rewrite size_list_to_set in Hs by apply NoDup_seqZ. rewrite length_seqZ in Hs. lia.
Qed.

(** Completed receives have been posted to, so their number is bounded. *)
Lemma completed_size w : rx_inv w -> Z.of_nat (base.size (completed w)) <= posts w.
Proof. intros I. apply bounded_size; [apply alen_nonneg|apply (r_completed w I)]. Qed.

Lemma sent_recvs w : rx_inv w -> posts w <= alen (recvs w).
Proof.
  intros I. pose proof (alen_nonneg (sent w)). pose proof (alen_nonneg (recvs w)).
  destruct (decide (posts w = 0)); [lia|]. destruct (r_sent w I (posts w - 1)) as (id & Hid%(r_supplied w I)); lia.
Qed.

Lemma window w : rx_inv w -> alen (recvs w) <= posts w + kMaxReq.
Proof. intros I. pose proof (completed_size w I). destruct (r_out w I). lia. Qed.

(** ** The histories grow *)

Definition grows (w w' : world) : Prop :=
  (exists l, recvs w' = recvs w ++ l) /\ (exists l, cmds w' = cmds w ++ l) /\ supplied w ⊆ supplied w' /\
  dev_ (txf w') = dev_ (txf w).

Lemma item_at_range w k id e : 0 <= k -> item_at w k id e -> k < alen (recvs w) /\ k < alen (cmds w).
Proof. intros Hk (b & eng & m & Hb & Hc & _). split; by eapply aget_Some_lt. Qed.

Lemma item_at_grows w w' k id e : grows w w' -> 0 <= k -> item_at w k id e -> item_at w' k id e.
Proof.
  intros ((l & E) & (l' & E') & _) Hk Hi. destruct (item_at_range _ _ _ _ Hk Hi). destruct Hi as (b & eng & m & Hb & Hc & ->).
  exists b, eng, m. rewrite E, E', !aget_app_l by lia. done.
Qed.

Lemma serves_grows w w' k p : grows w w' -> 0 <= k -> serves w k p -> serves w' k p.
Proof.
  intros ((l & E) & (l' & E') & Hs & Hd) Hk (b & eng & m & id & Hb & Hc & Hi & Hp).
  exists b, eng, m, id. rewrite Hd, E, E', !aget_app_l by (split; [done|by eapply aget_Some_lt]).
  split_and!; try tauto. by eapply lookup_weaken.
Qed.

Lemma item_at_fun w k id id' e e' : item_at w k id e -> item_at w k id' e' -> id = id' -> e = e'.
Proof. intros (b & eng & m & Hb & Hc & ->) (b' & eng' & m' & Hb' & Hc' & ->) ->. congruence. Qed.

Lemma item_at_idx w k id e : item_at w k id e -> idx e = k + 1.
Proof. by intros (b & eng & m & _ & _ & ->). Qed.

Lemma item_at_usable w k id e : rx_inv w -> 0 <= k -> item_at w k id e -> usable ne e /\ size e < 2 ^ 31.
Proof.
  intros I Hk (b & eng & m & Hb & Hc & ->). pose proof (Forall_lookup_1 _ _ _ _ (r_bufs w I) Hb) as (Hd & Hd0 & Hr & Hr0 & Hz).
  destruct (r_ne w I) as (_ & Hn). split; [|cbn; lia]. constructor; cbn; [done|lia|done|done|]. apply Z.mod_pos_bound. lia.
Qed.

(** ** The receiver's half *)

Lemma fifo_view_inj f e t ur h a o d p : fifo_view f = (e, t, ur, h, a, o, d, p) ->
  elems f = e /\ fifo_tail f = t /\ fifo_ureqs f = ur /\ fifo_head f = h /\ remote_fifo_addr f = a /\ outstanding_reqs_ f = o /\
  dev_ f = d /\ peer_id_ f = p.
Proof. unfold fifo_view. intros [= -> -> -> -> -> -> -> ->]. by split_and!. Qed.

Lemma room w : rx_inv w -> check_room (rxf w) = true -> alen (recvs w) < posts w + kMaxReq.
Proof. intros I Hr%Z.ltb_lt. pose proof (completed_size w I). destruct (r_out w I). lia. Qed.

Lemma out_word w : rx_inv w -> 0 <= outstanding_reqs_ (rxf w) <= kMaxReq.
Proof. intros I. pose proof (completed_size w I). pose proof (sent_recvs w I). destruct (r_out w I). lia. Qed.

Lemma rx_recv w rnd ctx phi b u wcs s :
  rx_inv w -> alen (recvs w) + 1 < 2 ^ 64 - 1 -> buf_ok b -> (forall k, 0 <= k -> k ∉ completed w -> rx_req w k <> Some u) ->
  check_room (rxf w) = true -> uccl_recv_async policy rnd ctx phi [b] u wcs (rx w) = Done (0, s) ->
  let w' := MkWorld s (tx w) (pc w) (supplied w) (wire w) (completed w) (recvs w ++ [b]) (sent w) in
  grows w w' /\ base w' = base w /\ rx_inv w'.
Proof.
  intros I HN Hb Hu Hroom H w'. set (N := alen (recvs w)) in *. pose proof (alen_nonneg (recvs w)) as HN0. fold N in HN0.
  pose proof (room w I Hroom) as Hwin. fold N in Hwin. destruct (r_tail w I) as (Et & Ec). fold N in Et, Ec.
  destruct (r_rows w I (N mod kMaxReq) (mod_req N)) as (it & Hit & Hpad).
  rewrite <- Et in Hit. destruct (recv_effect _ _ _ _ _ _ _ _ it _ Hit Hroom H) as (eng & wr & Hra & Hlen & Hv & Hcm & Hnm & Hrq & Hkeep).
  rewrite Et in *. pose proof (out_word w I) as Ho. pose proof (mod_req N) as HmN. destruct (r_base w I) as (Hb0 & Hb1).
  apply fifo_view_inj in Hv as (Ve & Vt & _ & _ & Va & Vo & Vd & Vp). pose proof Hb as Hbo. destruct Hb as (Hb2 & Hb3 & Hb4 & Hb5 & Hb6).
  unfold base, kMaxRecv, kMaxReq, Flow.kMaxReq in Hb1, Ho. rewrite wrap_id in Vt by word_lia. rewrite wrap_id in Vo by word_lia.
  rewrite wrap_id in Hra by (unfold base, kMaxReq, Flow.kMaxReq in *; word_lia).
  rewrite (wrap_id 32) in Ve by word_lia. rewrite (wrap_id 64) in Ve by word_lia. destruct (r_ne w I) as (En & Hne). rewrite En in Ve.
  assert (item_at w' N (rid it) (item b eng N (rid it))) as HitN.
  { exists b, eng, (MkMsg kRx (peer_id_ (rxf w)) u ctx). cbn. rewrite Hcm. split_and!; [| |done].
    - rewrite aget_app_r by (unfold N; lia). by rewrite Z.sub_diag.
    - rewrite aget_app_r by lia. by rewrite Ec, Z.sub_diag. }
  rewrite Hpad in Ve. fold (item b eng N (rid it)) in Ve.
  assert (grows w w') as G by (split_and!; [by eexists|cbn; rewrite Hcm; by eexists|done|done]).
  split; [done|]. split; [done|]. constructor; cbn [rx tx pc supplied wire completed recvs sent w'].
  - rewrite Hnm. done.
  - unfold base in *. cbn. rewrite Va. done.
  - rewrite Vt, Hcm. autorewrite with arr. cbn. lia.
  - apply Forall_app. split; [apply (r_bufs w I)|]. by constructor.
  - rewrite Vo. autorewrite with arr. destruct (r_out w I). cbn. apply Z.ltb_lt in Hroom. fold N. lia.
  - apply (r_completed w I).
  - intros k id Hk%(r_supplied w I). autorewrite with arr. cbn. lia.
  - apply (r_sent w I).
  - intros k v Hk Hnc Hv. unfold rx_req in Hv. cbn in Hv. rewrite Hcm in Hv. unfold base. cbn. rewrite Va.
    destruct (aget (cmds w ++ _) k) as [q|] eqn:Hq; [|done]. cbn in Hv. injection Hv as <-.
    apply aget_snoc_inv in Hq as [(Hlt & Hq)|(-> & ->)]; [| |done].
    + assert (rx_req w k = Some (mureq q.2)) as Hq' by (unfold rx_req; by rewrite Hq).
      destruct (r_reqs w I k _ Hk Hnc Hq') as (r & wr' & Hr & Hrv & ?).
      destruct (Hkeep (mureq q.2) r) as (r' & Hr' & Erv); [intros E; apply (Hu k Hk Hnc); congruence|done|].
      exists r', wr'. split; [done|]. split; [by rewrite Erv|done].
    + rewrite Ec. destruct Hrq as (r & Hr & Erv). by exists r, wr.
  - intros s0 Hs0. rewrite Ve. destruct (decide (s0 = N mod kMaxReq)) as [->|Hne0].
    + rewrite aget_aset_eq; [by eexists|]. split; [lia|]. eapply aget_Some_lt; [lia|done].
    + rewrite aget_aset_ne by lia. by apply (r_rows w I).
  - intros k Hk Hs0. autorewrite with arr in Hk. cbn in Hk. rewrite Ve. destruct (decide (k = N)) as [->|Hne0].
    + exists (rid it), (item b eng N (rid it)). split; [|done]. rewrite aget_aset_eq; [done|]. split; [lia|]. eapply aget_Some_lt; [lia|done].
    + fold N in Hk. destruct (r_staging w I k) as (id & e & He & Hi); [fold N; lia|done|]. exists id, e.
      split; [|by apply (item_at_grows w w' k id e G); [lia|]].
      pose proof (mod_req k). rewrite aget_aset_ne; [done|lia|lia|].
      * intros Em. assert (posts w <= k) by (apply Z.nlt_ge; intros Hlt; destruct (r_sent w I k) as (? & ?); [lia|congruence]).
        apply slot_distinct in Em; lia.
Qed.

Lemma rx_req_range w k u : rx_inv w -> 0 <= k -> rx_req w k = Some u -> k < alen (recvs w).
Proof.
  intros I Hk H. unfold rx_req in H. destruct (aget (cmds w) k) eqn:E; [|done]. destruct (r_tail w I) as (_ & <-).
  by eapply aget_Some_lt.
Qed.

Lemma unsupplied_unsent w k : rx_inv w -> 0 <= k -> supplied w !! k = None -> posts w <= k /\ k ∉ completed w.
Proof.
  intros I Hk Hn. assert (posts w <= k).
  { apply Z.nlt_ge. intros Hlt. destruct (r_sent w I k) as (? & ?); [lia|congruence]. }
  split; [done|]. intros Hc%(r_completed w I). lia.
Qed.

Lemma supply_effect w k u id a items s :
  rx_inv w -> rx_req w k = Some u -> 0 <= k -> supplied w !! k = None -> supply_items id u (rx w) = Done (a, items, s) ->
  exists e, item_at w k id e /\ a = base w + k mod kMaxReq * 64 /\ items = [e] /\
    s = with_flow (set_elems (aset (elems (rxf w)) (k mod kMaxReq) [e]) (rxf w)) (rx w).
Proof.
  intros I Hu Hk Hn H. destruct (unsupplied_unsent w k I Hk Hn) as (_ & Hc).
  destruct (r_reqs w I k u Hk Hc Hu) as (r & wr & Hr & Hv & Ha & Hl). unfold req_view in Hv. injection Hv as Ht Hn1 He Hw.
  destruct (r_staging w I k) as (id0 & e & Hrow & b & eng & m & Hb & Hm & ->); [split; [done|by eapply rx_req_range]|done|].
  unfold supply_items in H. rewrite (bind_of _ _ r) in H by (by apply load_req_Done).
  rewrite He, Hn1, Hw, Ha, Hl in H. rewrite (bind_of _ _ [item b eng k id0]) in H by (by apply fetch_Done).
  cbn in H. injection H as <- <- <-. exists (item b eng k id). split_and!; [by exists b, eng, m|done..].
Qed.

Lemma rx_supply w k u id a items s :
  rx_inv w -> rx_req w k = Some u -> 0 <= k -> supplied w !! k = None -> supply_items id u (rx w) = Done (a, items, s) ->
  let w' := MkWorld s (tx w) (pc w) (<[k := id]> (supplied w)) ((a, items) :: wire w) (completed w) (recvs w) (sent w) in
  grows w w' /\ base w' = base w /\ rx_inv w'.
Proof.
  intros I Hu Hk Hn H w'. destruct (supply_effect w k u id a items s I Hu Hk Hn H) as (e & Hi & Ea & Eits & ->).
  pose proof (rx_req_range w k u I Hk Hu) as Hlt. pose proof (mod_req k) as Hm.
  assert (grows w w') as G by (split_and!; [exists []; by rewrite app_nil_r..|by apply insert_subseteq|done]).
  split; [done|]. split; [done|]. constructor; cbn [rx tx pc supplied wire completed recvs sent w'].
  - apply (r_ne w I).
  - apply (r_base w I).
  - apply (r_tail w I).
  - apply (r_bufs w I).
  - apply (r_out w I).
  - apply (r_completed w I).
  - intros j id' Hj. destruct (decide (j = k)) as [->|Hne]; [lia|]. rewrite lookup_insert_ne in Hj by done. by eapply (r_supplied w I).
  - intros j Hj. destruct (decide (j = k)) as [->|Hne]; [rewrite lookup_insert_eq; by eexists|].
    rewrite lookup_insert_ne by done. by apply (r_sent w I).
  - apply (r_reqs w I).
  - intros s0 Hs0. cbn [flow with_flow set_elems elems]. destruct (decide (s0 = k mod kMaxReq)) as [->|Hne0].
    + destruct (r_rows w I (k mod kMaxReq)) as (e0 & He0 & _); [done|]. rewrite aget_aset_eq.
      2: { split; [lia|]. eapply aget_Some_lt; [lia|done]. }
      exists e. split; [done|]. by destruct Hi as (b & eng & m & _ & _ & ->).
    + rewrite aget_aset_ne by lia. by apply (r_rows w I).
  - intros j Hj Hs0. assert (j <> k) as Hne by (intros ->; by rewrite lookup_insert_eq in Hs0). rewrite lookup_insert_ne in Hs0 by done.
    destruct (r_staging w I j Hj Hs0) as (id' & e' & He' & Hi'). exists id', e'. cbn [flow with_flow set_elems elems].
    pose proof (mod_req j). rewrite aget_aset_ne; [done|lia|lia|]. intros Em.
    destruct (unsupplied_unsent w k I Hk Hn), (unsupplied_unsent w j I ltac:(lia) Hs0). pose proof (window w I).
    apply slot_distinct in Em; lia.
Qed.

Lemma rx_poll w k u dn wcs ret s :
  rx_inv w -> rx_req w k = Some u -> 0 <= k -> k ∉ completed w ->
  uccl_poll_ureq_once policy dn wcs u (rx w) = Done (ret, s) -> (ret = true -> k < posts w) ->
  let w' := MkWorld s (tx w) (pc w) (supplied w) (wire w) (if ret then {[k]} ∪ completed w else completed w) (recvs w) (sent w) in
  grows w w' /\ base w' = base w /\ rx_inv w'.
Proof.
  intros I Hu Hk Hnc H Hret w'. destruct (r_reqs w I k u Hk Hnc Hu) as (r & wr & Hr & Hv & _). unfold req_view in Hv. injection Hv as Ht _ _ _.
  destruct (poll_effect _ _ _ _ _ _ _ r Hr Ht H) as (Ec & En & Ev & Hh). pose proof (out_word w I) as Ho. destruct (r_out w I) as (Eo & _).
  assert (forall j, j ∈ completed w' <-> (ret = true /\ j = k) \/ j ∈ completed w) as Hcw by (intros j; cbn; destruct ret; set_solver).
  assert (elems (flow s) = elems (rxf w) /\ fifo_tail (flow s) = fifo_tail (rxf w) /\ remote_fifo_addr (flow s) = remote_fifo_addr (rxf w) /\
          outstanding_reqs_ (flow s) = outstanding_reqs_ (if ret then dec_outstanding_reqs (rxf w) else rxf w)) as (Ve & Vt & Va & Vo).
  { apply fifo_view_inj in Ev as (? & ? & ? & ? & ? & ? & ? & ?). by destruct ret. }
  assert (grows w w') as G by (split_and!; [exists []; by rewrite app_nil_r|exists []; cbn; by rewrite Ec, app_nil_r|done|done]).
  assert (base w' = base w) as Eb by (unfold base; cbn; by rewrite Va).
  split; [done|]. split; [done|]. constructor; rewrite ?Eb; unfold rx_req; cbn [rx tx pc supplied wire completed recvs sent w']; rewrite ?Ec, ?En, ?Ve, ?Vt.
  - apply (r_ne w I).
  - apply (r_base w I).
  - apply (r_tail w I).
  - apply (r_bufs w I).
  - rewrite Vo. destruct ret; [|apply (r_out w I)]. rewrite size_union by set_solver. rewrite size_singleton. cbn.
    assert (Z.of_nat (base.size ({[k]} ∪ completed w)) <= posts w) as Hs.
    { apply bounded_size; [apply alen_nonneg|]. intros j [->%elem_of_singleton|Hj%(r_completed w I)]%elem_of_union; [|done]. auto. }
    rewrite size_union, size_singleton in Hs by set_solver. pose proof (sent_recvs w I).
    unfold kMaxReq, Flow.kMaxReq in *. rewrite wrap_id by word_lia. lia.
  - intros j [(-> & ->)|Hj%(r_completed w I)]%Hcw; [|done]. auto.
  - apply (r_supplied w I).
  - apply (r_sent w I).
  - intros j v Hj Hjc Hjv. destruct (r_reqs w I j v) as (rj & wrj & Hrj & Hvj & ?); [done|intros ?; apply Hjc, Hcw; by right|done|].
    destruct (Hh _ _ Hrj) as (rj' & Hrj' & Evj). exists rj', wrj. split; [done|]. split; [by rewrite Evj|done].
  - apply (r_rows w I).
  - intros j Hj Hjs. destruct (r_staging w I j Hj Hjs) as (id & e & He & Hi). exists id, e. split; [done|].
    apply (item_at_grows w w' j id e G); [lia|done].
Qed.

(** The sender's steps leave the receiver alone; a message may be posted. *)
Lemma rx_frame w w' : rx_inv w -> rx w' = rx w -> supplied w' = supplied w -> completed w' = completed w -> recvs w' = recvs w ->
  posts w <= posts w' -> (forall k, posts w <= k < posts w' -> is_Some (supplied w !! k)) -> rx_inv w'.
Proof.
  intros I Er Es Ec Ev Hp Hs. constructor; unfold base, rx_req, item_at; rewrite ?Er, ?Es, ?Ec, ?Ev; try by apply I.
  - intros k Hk%(r_completed w I). lia.
  - intros k Hk. destruct (decide (k < posts w)); [apply (r_sent w I)|apply Hs]; lia.
Qed.

(** ** The sender's half *)

Lemma tx_frame w w' : rx_inv w -> tx_inv w -> grows w w' -> base w' = base w -> tx w' = tx w -> pc w' = pc w -> wire w' = wire w ->
  sent w' = sent w -> tx_inv w'.
Proof.
  intros R T G Eb Et Ep Ew Es. pose proof G as (_ & _ & Hsub & _).
  constructor; unfold head_ok, wire_ids; rewrite ?Et, ?Ep, ?Ew, ?Es, ?Eb; try by apply T.
  - intros s Hs. destruct (t_rows w T s Hs) as (e & He & Hx). exists e. split; [done|].
    destruct Hx as [->|(k & id & Hk & Hid & Hi & Hw)]; [by left|right]. exists k, id. split; [done|].
    split; [by eapply lookup_weaken|]. split; [|done]. eapply item_at_grows; [done| |done]. apply (r_supplied w R k id Hid).
  - intros a its Hin. destruct (t_wire w T a its Hin) as (k & id & e & ? & ? & Hid & Hi). exists k, id, e. split_and!; [done|done| |].
    + by eapply lookup_weaken.
    + eapply item_at_grows; [done| |done]. apply (r_supplied w R k id Hid).
  - intros k p Hk Hp. eapply serves_grows; [done|done|]. by apply (t_sent w T).
Qed.

Lemma wire_id_in w k : rx_inv w -> tx_inv w -> k + 1 ∈ wire_ids w -> 0 <= k /\ is_Some (supplied w !! k).
Proof.
  intros R T ((a & its) & E & Hin%list_elem_of_In)%list_elem_of_In%in_map_iff.
  destruct (t_wire w T a its Hin) as (j & id & e & -> & -> & Hs & Hi). cbn in E. rewrite (item_at_idx _ _ _ _ Hi) in E.
  assert (j = k) as -> by lia. split; [apply (r_supplied w R k id Hs)|by eexists].
Qed.

Lemma tx_supply w k u id a items s :
  rx_inv w -> tx_inv w -> rx_req w k = Some u -> 0 <= k -> supplied w !! k = None -> supply_items id u (rx w) = Done (a, items, s) ->
  tx_inv (MkWorld s (tx w) (pc w) (<[k := id]> (supplied w)) ((a, items) :: wire w) (completed w) (recvs w) (sent w)).
Proof.
  intros R T Hu Hk Hn H. destruct (rx_supply w k u id a items s R Hu Hk Hn H) as (G & Eb & R').
  destruct (supply_effect w k u id a items s R Hu Hk Hn H) as (e & Hi & -> & -> & ->).
  set (w' := MkWorld _ _ _ _ _ _ _ _) in *. pose proof G as (_ & _ & Hsub & _).
  assert (wire_ids w' = k + 1 :: wire_ids w) as Ew by (unfold wire_ids; cbn; by rewrite (item_at_idx _ _ _ _ Hi)).
  assert (forall j, is_Some (supplied w !! j) -> j + 1 ∉ wire_ids w -> j + 1 ∉ wire_ids w') as Hnw.
  { intros j (? & Hj) Hjw. rewrite Ew. intros [Hjk|?]%elem_of_cons; [|done]. assert (j = k) by lia. congruence. }
  constructor; rewrite ?Ew.
  - apply (t_ne w T).
  - apply (t_head w T).
  - apply (t_ureqs w T).
  - intros s Hs. destruct (t_rows w T s Hs) as (e' & He & Hx). exists e'. split; [done|].
    destruct Hx as [->|(j & id' & Hj & Hid & Hi' & Hw)]; [by left|right]. exists j, id'. split; [done|].
    split; [by eapply lookup_weaken|]. split; [eapply item_at_grows; [done|apply (r_supplied w R j id' Hid)|done]|].
    rewrite <- Ew. apply Hnw; [by eexists|done].
  - intros a its [[= -> ->]|Hin]%elem_of_cons.
    + exists k, id, e. split_and!; [done|done|apply lookup_insert_eq|by eapply item_at_grows].
    + destruct (t_wire w T a its Hin) as (j & id' & e' & ? & ? & Hid & Hi'). exists j, id', e'. split_and!; [done|done| |].
      * by eapply lookup_weaken.
      * eapply item_at_grows; [done|apply (r_supplied w R j id' Hid)|done].
  - apply NoDup_cons. split; [|apply (t_nodup w T)]. intros Hin%wire_id_in; [|done|done]. destruct Hin as (_ & ? & ?). congruence.
  - intros j Hj. rewrite <- Ew. apply Hnw; [by apply (r_sent w R)|by apply (t_gone w T)].
  - intros j p Hj Hp. eapply serves_grows; [done|done|]. by apply (t_sent w T).
Qed.

Lemma write_effect b0 s0 e e0 f : 0 <= s0 < kMaxReq -> aget (elems f) s0 = Some [e0] ->
  row_of b0 (b0 + s0 * 64) = s0 /\ write_items b0 (b0 + s0 * 64) [e] f = set_elems (aset (elems f) s0 [e]) f.
Proof.
  intros Hs He. assert (row_of b0 (b0 + s0 * 64) = s0) as E.
  { unfold row_of, kMaxRecv. replace (b0 + s0 * 64 - b0) with (s0 * (1 * 64)) by lia. by rewrite Z.div_mul. }
  split; [done|]. unfold write_items. by rewrite E, He.
Qed.

Lemma rx_unchanged w tx' pc' wire' : rx_inv w ->
  rx_inv (MkWorld (rx w) tx' pc' (supplied w) wire' (completed w) (recvs w) (sent w)).
Proof. intros R. apply (rx_frame w); [done..|]. cbn. lia. Qed.

Lemma tx_deliver w l1 a items l2 : rx_inv w -> tx_inv w -> wire w = l1 ++ (a, items) :: l2 ->
  tx_inv (MkWorld (rx w) (with_flow (write_items (base w) a items (txf w)) (tx w)) (pc w) (supplied w) (l1 ++ l2)
            (completed w) (recvs w) (sent w)).
Proof.
  intros R T Ew. destruct (t_wire w T a items) as (k & id & e & -> & -> & Hs & Hi).
  { rewrite Ew. apply elem_of_app. right. left. }
  destruct (t_rows w T (k mod kMaxReq) (mod_req k)) as (e0 & He0 & _). pose proof (mod_req k) as Hm.
  destruct (write_effect (base w) (k mod kMaxReq) e e0 (txf w) Hm He0) as (_ & ->).
  set (w' := MkWorld _ _ _ _ _ _ _ _). pose proof (t_nodup w T) as Hnd.
  assert (wire_ids w ≡ₚ k + 1 :: wire_ids w') as Hp.
  { unfold wire_ids. cbn. rewrite Ew, !map_app. cbn. rewrite (item_at_idx _ _ _ _ Hi). symmetry. apply Permutation_middle. }
  rewrite Hp in Hnd. apply NoDup_cons in Hnd as (Hk & Hnd).
  assert (forall j, j ∉ wire_ids w -> j ∉ wire_ids w') as Hsub by (intros j Hj ?; apply Hj; rewrite Hp; by right).
  constructor.
  - apply (t_ne w T).
  - apply (t_head w T).
  - apply (t_ureqs w T).
  - intros s Hs0. cbn [tx flow with_flow set_elems elems w']. destruct (decide (s = k mod kMaxReq)) as [->|Hne].
    + rewrite aget_aset_eq by (split; [lia|eapply aget_Some_lt; [lia|done]]). exists e. split; [done|]. right. by exists k, id.
    + rewrite aget_aset_ne by lia. destruct (t_rows w T s Hs0) as (e' & He' & Hx). exists e'. split; [done|].
      destruct Hx as [->|(j & id' & ? & ? & ? & ?)]; [by left|right]. exists j, id'. split_and!; [done..|]. by apply Hsub.
  - intros a' its' Hin. apply (t_wire w T). rewrite Ew. apply elem_of_app. cbn in Hin. apply elem_of_app in Hin. set_solver.
  - done.
  - intros j Hj. apply Hsub. by apply (t_gone w T).
  - apply (t_sent w T).
Qed.

(** The item under the sender's head. *)
Lemma head_item w : rx_inv w -> tx_inv w -> alen (recvs w) < 2 ^ 64 - 1 -> pc w = None ->
  fifo_head (txf w) = posts w /\ aget (fifo_ureqs (txf w)) (posts w mod kMaxReq) = Some [0] /\
  exists e, aget (elems (txf w)) (posts w mod kMaxReq) = Some [e] /\ posts w +[64] 1 = posts w + 1 /\
   (idx e <> posts w + 1 \/ exists id, supplied w !! posts w = Some id /\ item_at w (posts w) id e /\ posts w + 1 ∉ wire_ids w).
Proof.
  intros R T HN Hpc. pose proof (t_head w T) as Hh. unfold head_ok in Hh. rewrite Hpc in Hh.
  destruct (t_ureqs w T _ (mod_req (posts w))) as (u & Hu & Hu0). rewrite Hu0 in Hu by (by rewrite Hpc).
  destruct (t_rows w T _ (mod_req (posts w))) as (e & He & Hx). pose proof (sent_recvs w R). pose proof (alen_nonneg (sent w)).
  split; [done|]. split; [done|]. exists e. split; [done|]. split; [apply wrap_id; word_lia|].
  destruct Hx as [->|(k & id & Hk & Hid & Hi & Hw)]; [left; cbn; lia|]. destruct (decide (k = posts w)) as [->|Hne].
  - right. by exists id.
  - left. rewrite (item_at_idx _ _ _ _ Hi). lia.
Qed.

(** A send that finds no item changes its request only. *)
Lemma send_not_effect w lk data sz ctx phi u nx s :
  rx_inv w -> tx_inv w -> alen (recvs w) < 2 ^ 64 - 1 -> pc w = None -> u <> 0 ->
  send_begin policy ne lk data sz ctx phi u (tx w) = Done (nx, s) -> (forall slot, nx <> Finish slot) ->
  exists r, s = store_req u r (tx w).
Proof.
  intros R T HN Hpc Hu H Hnx. destruct (head_item w R T HN Hpc) as (Hh & Hur & e & He & Ew & Hx).
  assert (exists r, heap (tx w) !! u = Some r) as (r & Hr).
  { apply bind_done in H as (r & Hr%load_req_Done & _). by exists r. }
  destruct Hx as [Hi|(id & Hid & Hi & _)].
  - rewrite (send_unready _ _ _ _ _ _ _ _ _ e r) in H; [|by rewrite Hh|by rewrite Hh, Ew|done]. injection H as <- <-. by eexists.
  - destruct (r_ne w R) as (_ & Hne). destruct (item_at_usable w _ _ _ R (alen_nonneg _) Hi) as (Hus & _).
    pose proof (item_at_idx _ _ _ _ Hi) as Hidx. rewrite <- Hh in He, Hur.
    destruct (send_effect _ _ _ _ _ _ _ _ _ e r _ _ He Hur ltac:(congruence) Hus ltac:(lia) Hu Hr H) as (-> & _). by destruct (Hnx _ eq_refl).
Qed.

Lemma tx_send_not w lk data sz ctx phi u nx s :
  rx_inv w -> tx_inv w -> alen (recvs w) < 2 ^ 64 - 1 -> pc w = None -> u <> 0 ->
  send_begin policy ne lk data sz ctx phi u (tx w) = Done (nx, s) -> (forall slot, nx <> Finish slot) ->
  tx_inv (MkWorld (rx w) s None (supplied w) (wire w) (completed w) (recvs w) (sent w)).
Proof.
  intros R T HN Hpc Hu H Hnx. destruct (send_not_effect w _ _ _ _ _ _ _ _ R T HN Hpc Hu H Hnx) as (r & ->).
  destruct (head_item w R T HN Hpc) as (Hh & _). constructor; try by apply T.
  - done.
  - intros s Hs. destruct (t_ureqs w T s Hs) as (v & Hv & Hv0). exists v. split; [done|]. intros _. apply Hv0. by rewrite Hpc.
Qed.

Lemma signed_small x : 0 <= x < 2 ^ 31 -> signed 32 x = x.
Proof. intros Hx. unfold signed. rewrite wrap_id by word_lia. by rewrite (proj2 (Z.ltb_lt x _)) by (cbn; lia). Qed.

(** A request that is matched with the item of a buffer. *)
Lemma matched_item b eng k id lk data sz ctx phi r : 0 <= b_size b < 2 ^ 31 -> 0 <= sz -> eng mod ne <> RC_MAGIC ->
  let q := matched policy (item b eng k id) lk data sz ctx phi r in
  type q = ReqTx /\ poll_ctx q = ctx /\ laddr q = data /\ lkey q = lk /\ data_len q = Z.min sz (b_size b) /\
  raddr q = b_data b /\ send_rkey q = b_rkey b /\ send_rid q = id /\ sent_offset q = 0 /\ acked_bytes q = 0.
Proof.
  intros Hb Hz He q. assert (data_len q = Z.min sz (b_size b)) as Hd.
  { unfold q, matched, match_req. cbn [size item engine_offset]. rewrite (proj2 (Z.eqb_neq _ _) He).
    destruct (Z.ltb_spec (b_size b) sz); destruct (load_based policy); cbn - [signed wrap];
      (rewrite signed_small; [|try rewrite wrap_id by word_lia; lia]); try rewrite wrap_id by word_lia; lia. }
  split_and!; try done; unfold q, matched, match_req; cbn [size item engine_offset]; rewrite (proj2 (Z.eqb_neq _ _) He);
    by destruct (b_size b <? sz), (load_based policy).
Qed.

Lemma send_posts w lk data sz ctx phi u slot s r eng m :
  rx_inv w -> tx_inv w -> alen (recvs w) < 2 ^ 64 - 1 -> pc w = None -> u <> 0 -> in_word 64 sz ->
  send_begin policy ne lk data sz ctx phi u (tx w) = Done (Finish slot, s) ->
  heap s !! u = Some r -> last (tx_cmdq (ep s)) = Some (eng, m) ->
  slot = posts w mod kMaxReq /\ flow s = set_fifo_ureqs (aset (fifo_ureqs (txf w)) slot [u]) (txf w) /\
  num_engines_per_dev_ (ep s) = ne /\ posts w + 1 ∉ wire_ids w /\ is_Some (supplied w !! posts w) /\
  (exists e, aget (elems (txf w)) slot = Some [e] /\ idx e = posts w + 1) /\
  serves w (posts w) (MkPosted eng m r lk data sz ctx).
Proof.
  intros R T HN Hpc Hu Hz H Hr Hl. destruct (head_item w R T HN Hpc) as (Hh & Hur & e & He & Ew & Hx).
  assert (exists r0, heap (tx w) !! u = Some r0) as (r0 & Hr0).
  { apply bind_done in H as (r0 & Hr0%load_req_Done & _). by exists r0. }
  rewrite <- Hh in He, Hur.
  destruct Hx as [Hi|(id & Hid & Hi & Hw)]; [rewrite (send_unready _ _ _ _ _ _ _ _ _ e r0) in H; [done|done|by rewrite Hh, Ew|done]|].
  destruct (r_ne w R) as (_ & Hne). destruct (item_at_usable w _ _ _ R (alen_nonneg _) Hi) as (Hus & Hsz).
  pose proof (item_at_idx _ _ _ _ Hi) as Hidx.
  destruct (send_effect _ _ _ _ _ _ _ _ _ e r0 _ _ He Hur ltac:(congruence) Hus ltac:(lia) Hu Hr0 H) as ([= ->] & Ef & Eh & En & Ec).
  rewrite Hh in *. split_and!; [done|done|rewrite En; apply (t_ne w T)|done|by eexists|by exists e|].
  rewrite Ec, last_snoc in Hl. injection Hl as <- <-. rewrite Eh in Hr. injection Hr as <-.
  destruct Hi as (b & eng & m & Hb & Hm & ->). pose proof (Z.mod_pos_bound eng ne ltac:(lia)) as Hme. destruct Hus as [_ Hs0 _ _ _]. cbn in Hs0, Hsz.
  destruct (matched_item b eng (posts w) id lk data sz ctx phi r0) as (Q1 & Q2 & Q3 & Q4 & Q5 & Q6 & Q7 & Q8 & Q9 & Q10);
    [done|apply Hz|lia|].
  exists b, eng, m, id. unfold find_first_engine_idx_on_dev. rewrite (t_ne w T). cbn [p_engine p_msg p_req p_ctx p_lkey p_data p_size mopcode mpoll_ctx].
  by split_and!.
Qed.

Lemma tx_send w lk data sz ctx phi u slot s r eng m :
  rx_inv w -> tx_inv w -> alen (recvs w) < 2 ^ 64 - 1 -> pc w = None -> u <> 0 -> in_word 64 sz ->
  send_begin policy ne lk data sz ctx phi u (tx w) = Done (Finish slot, s) ->
  heap s !! u = Some r -> last (tx_cmdq (ep s)) = Some (eng, m) ->
  let w' := MkWorld (rx w) s (Some slot) (supplied w) (wire w) (completed w) (recvs w) (sent w ++ [MkPosted eng m r lk data sz ctx]) in
  rx_inv w' /\ tx_inv w'.
Proof.
  intros R T HN Hpc Hu Hz H Hr Hl w'. destruct (head_item w R T HN Hpc) as (Hh & Hur & _).
  destruct (send_posts w _ _ _ _ _ _ _ _ _ _ _ R T HN Hpc Hu Hz H Hr Hl) as (-> & Ef & En & Hw & Hsup & _ & Hserves).
  assert (posts w' = posts w + 1) as Ep by (cbn; autorewrite with arr; cbn; lia). pose proof (alen_nonneg (sent w)).
  pose proof (mod_req (posts w)). split.
  { apply (rx_frame w); [done..|lia|]. intros k Hk. by assert (k = posts w) as -> by lia. }
  assert (grows w w') as G by (split_and!; [exists []; by rewrite app_nil_r..|done|cbn; by rewrite Ef]).
  constructor; rewrite ?Ep; try by apply T.
  - done.
  - unfold head_ok. rewrite Ep. cbn. rewrite Ef. cbn. split; [lia|]. split; [lia|]. f_equal. lia.
  - intros s0 Hs0. cbn [tx pc w']. rewrite Ef. cbn. destruct (decide (s0 = posts w mod kMaxReq)) as [->|Hne].
    + exists u. rewrite aget_aset_eq by (split; [lia|eapply aget_Some_lt; [lia|done]]). done.
    + rewrite aget_aset_ne by lia. destruct (t_ureqs w T s0 Hs0) as (v & Hv & Hv0). exists v. split; [done|]. intros _. apply Hv0. by rewrite Hpc.
  - cbn [tx w']. rewrite Ef. apply (t_rows w T).
  - intros k Hk. destruct (decide (k = posts w)) as [->|Hne]; [done|]. apply (t_gone w T). lia.
  - intros k p Hk Hp. apply (serves_grows w w' k p G Hk). cbn in Hp. apply aget_snoc_inv in Hp as [(_ & Hp)|(-> & ->)]; [| |done].
    + by apply (t_sent w T).
    + done.
Qed.

Lemma finish_effect w slot s : rx_inv w -> tx_inv w -> alen (recvs w) < 2 ^ 64 - 1 -> pc w = Some slot -> send_finish slot (tx w) = Done s ->
  slot = (posts w - 1) mod kMaxReq /\ 0 <= slot < kMaxReq /\
  s = with_flow (set_fifo_ureqs (aset (fifo_ureqs (txf w)) slot [0]) (set_elems (aset (elems (txf w)) slot [zero_item])
                  (set_fifo_head (posts w) (txf w)))) (tx w).
Proof.
  intros R T HN Hpc H. pose proof (t_head w T) as Hh. unfold head_ok in Hh. rewrite Hpc in Hh. destruct Hh as (Hh & Hp & Es).
  pose proof (mod_req (posts w - 1)) as Hm. rewrite <- Es in Hm. destruct (t_rows w T slot Hm) as (e & He & _). pose proof (sent_recvs w R).
  split; [done|]. split; [done|]. unfold send_finish in H. cbn [elems set_fifo_head] in H.
  rewrite (bind_of _ _ [e]) in H by (by apply fetch_Done). rewrite (bind_of _ _ e) in H by done.
  rewrite Hh, wrap_id in H by word_lia. replace (posts w - 1 + 1) with (posts w) in H by lia. by injection H as <-.
Qed.

Lemma tx_finish w slot s : rx_inv w -> tx_inv w -> alen (recvs w) < 2 ^ 64 - 1 -> pc w = Some slot -> send_finish slot (tx w) = Done s ->
  tx_inv (MkWorld (rx w) s None (supplied w) (wire w) (completed w) (recvs w) (sent w)).
Proof.
  intros R T HN Hpc H. destruct (finish_effect w slot s R T HN Hpc H) as (Es & Hm & ->).
  destruct (t_rows w T slot Hm) as (e & He & _). destruct (t_ureqs w T slot Hm) as (v & Hv & _).
  constructor; try by apply T.
  - done.
  - intros s0 Hs0. cbn. destruct (decide (s0 = slot)) as [->|Hne].
    + exists 0. by rewrite aget_aset_eq by (split; [lia|eapply aget_Some_lt; [lia|done]]).
    + rewrite aget_aset_ne by lia. destruct (t_ureqs w T s0 Hs0) as (v' & Hv' & Hv0). exists v'. split; [done|].
      intros _. apply Hv0. rewrite Hpc. congruence.
  - intros s0 Hs0. cbn. destruct (decide (s0 = slot)) as [->|Hne].
    + exists zero_item. rewrite aget_aset_eq by (split; [lia|eapply aget_Some_lt; [lia|done]]). split; [done|by left].
    + rewrite aget_aset_ne by lia. by apply (t_rows w T).
Qed.

(** ** Every step keeps the invariant *)

Definition inv (w : world) : Prop := alen (recvs w) < 2 ^ 64 - 1 -> rx_inv w /\ tx_inv w.

Lemma inv_initial w : initial ne w -> inv w.
Proof.
  intros [(E1 & E2 & E3 & E4) (F1 & F2 & F3 & F4) (N1 & N2 & N3) Hb (P1 & P2 & P3 & P4 & P5 & P6)] _.
  assert (forall s, 0 <= s < kMaxReq -> aget empty_rows s = Some [zero_item]) as Hr.
  { intros s Hs. apply lookup_replicate. split; [done|lia]. }
  assert (forall s, 0 <= s < kMaxReq -> aget empty_ureqs s = Some [0]) as Hu.
  { intros s Hs. apply lookup_replicate. split; [done|lia]. }
  split; constructor; unfold head_ok, wire_ids, rx_req; rewrite ?E1, ?E2, ?E3, ?E4, ?F1, ?F2, ?F3, ?P1, ?P2, ?P3, ?P4, ?P5, ?P6;
    autorewrite with arr; try done.
  all: try (intros s Hs; eexists; split; [by auto|]; by auto).
  all: try (intros; lia).
  - intros a its Hin. set_solver.
  - constructor.
Qed.

Lemma rdv_inv_step w w' : step policy ne racy w w' -> inv w -> inv w'.
Proof.
  intros Hstep I HN. destruct Hstep as [w rnd ctx phi b u wcs s Hb Hu Hroom H|w k u id a items s Hu Hk Hn _ H|w l1 a items l2 Ew _|
      w k u dn wcs ret s Hu Hk Hnc H Hret|w lk data sz ctx phi u nx s Hpc Hu H Hnx|w lk data sz ctx phi u slot s r eng m Hpc Hu Hz H Hr Hl|
      w slot s Hpc H]; cbn [recvs] in HN.
  - autorewrite with arr in HN. cbn in HN. destruct I as (R & T); [lia|].
    destruct (rx_recv w _ _ _ _ _ _ _ R ltac:(lia) Hb Hu Hroom H) as (G & Eb & R'). split; [done|]. by apply (tx_frame w).
  - destruct (I HN) as (R & T). split; [by eapply (rx_supply w)|by eapply (tx_supply w)].
  - destruct (I HN) as (R & T). split; [by apply rx_unchanged|by apply tx_deliver].
  - destruct (I HN) as (R & T). destruct (rx_poll w k u dn wcs ret s R Hu Hk Hnc H Hret) as (G & Eb & R'). split; [done|]. by apply (tx_frame w).
  - destruct (I HN) as (R & T). split; [by apply rx_unchanged|by eapply (tx_send_not w)].
  - destruct (I HN) as (R & T). by eapply (tx_send w).
  - destruct (I HN) as (R & T). split; [by apply rx_unchanged|by eapply (tx_finish w)].
Qed.

Lemma rdv_reachable_inv w : reachable policy ne racy w -> inv w.
Proof. intros (w0 & H0 & Hr). apply (rtc_invariant (step policy ne racy) inv w0 w); [|done|by apply inv_initial]. intros x y Hx Hs. by apply (rdv_inv_step x). Qed.

End invariant.

(** C9: The messages that a sender posts meet the buffers that the receiver
    advertised, in order: the [k]-th message goes to the [k]-th buffer, on the
    engine that serves it, with the buffer's address, key and request id and no
    more bytes than fit.  A receive completes only when its message was posted,
    and at most [kMaxReq] buffers wait. *)
Theorem rendezvous_matches policy ne racy w :
  reachable policy ne racy w -> alen (recvs w) < 2 ^ 64 - 1 ->
  (forall k p, 0 <= k -> aget (sent w) k = Some p -> serves ne w k p) /\
  (forall k, k ∈ completed w -> 0 <= k < alen (sent w)) /\
  alen (sent w) <= alen (recvs w) <= alen (sent w) + kMaxReq.
Proof.
  intros Hr HN. destruct (rdv_reachable_inv _ _ _ _ Hr HN) as (R & T). split_and!.
  - apply (t_sent _ _ T).
  - apply (r_completed _ _ R).
  - by eapply sent_recvs.
  - by eapply window.
Qed.

End Rendezvous.
