(* ===== verification/EndpointLive.v ===== *)
(** * No advertised buffer is lost

    The second half of the rendezvous of [EndpointSpec.v]: an item that an engine
    has written stays in flight or in the sender's FIFO until its message is
    posted, so a sender whose receiver has a buffer is served as soon as the
    engines and the network have done their part ([rendezvous_progress]).  This
    needs that the network does not write the slot that the sender is clearing:
    the last section has a run in which it does, after which the sender waits
    for ever ([rendezvous_lost]). *)

From S2P Require Import Prelude Flow OneSided Endpoint EndpointSpec.

Module RendezvousLive.
Import OneSided Endpoint Rendezvous.

Abbreviation posts w := (alen (sent w)).
Abbreviation txf w := (flow (tx w)).

Section live.
Context (policy : engine_lb_policy) (ne : Z).

(** The item of receive [k] is in the sender's FIFO. *)
Definition arrived (w : world) (k id : Z) : Prop :=
  exists e, aget (elems (txf w)) (k mod kMaxReq) = Some [e] /\ item_at ne w k id e.

Record kept (w : world) : Prop := {
  k_item : forall k id, posts w <= k -> supplied w !! k = Some id -> k + 1 ∈ wire_ids w \/ arrived w k id;
  k_held : forall s, pc w = Some s -> exists id, arrived w (posts w - 1) id;
}.

Definition live_inv (w : world) : Prop := alen (recvs w) < 2 ^ 64 - 1 -> rx_inv ne w /\ tx_inv ne w /\ kept w.

Lemma arrived_grows w w' k id : grows w w' -> elems (txf w') = elems (txf w) -> 0 <= k -> arrived w k id -> arrived w' k id.
Proof. intros G E Hk (e & He & Hi). exists e. rewrite E. split; [done|]. by eapply item_at_grows. Qed.

(** An item in flight belongs to a message that is still to be posted. *)
Lemma wire_unsent w k : rx_inv ne w -> tx_inv ne w -> k + 1 ∈ wire_ids w -> posts w <= k < alen (recvs w).
Proof.
  intros R T Hin. destruct (wire_id_in ne w k R T Hin) as (Hk & id & Hid). split; [|apply (r_supplied _ _ R k id Hid)].
  apply Z.nlt_ge. intros Hlt. by apply (t_gone _ _ T k).
Qed.

Lemma kept_frame w w' : rx_inv ne w -> kept w -> grows w w' -> tx w' = tx w -> pc w' = pc w -> sent w' = sent w ->
  wire w' = wire w -> supplied w' = supplied w -> tx_inv ne w -> kept w'.
Proof.
  intros R K G Et Ep Es Ew Eu T. constructor.
  - intros k id Hk Hid. rewrite Es in Hk. rewrite Eu in Hid. unfold wire_ids. rewrite Ew.
    destruct (k_item w K k id Hk Hid) as [?|Ha]; [by left|right]. apply (arrived_grows w w'); [done|by rewrite Et| |done].
    apply (r_supplied _ _ R k id Hid).
  - intros s Hs. rewrite Ep in Hs. destruct (k_held w K s Hs) as (id & Ha). exists id. rewrite Es.
    pose proof (t_head _ _ T) as Hh. unfold head_ok in Hh. rewrite Hs in Hh. apply (arrived_grows w w'); [done|by rewrite Et|lia|done].
Qed.

Lemma kept_supply w k u id a items s :
  rx_inv ne w -> tx_inv ne w -> kept w -> rx_req w k = Some u -> 0 <= k -> supplied w !! k = None ->
  supply_items id u (rx w) = Done (a, items, s) ->
  kept (MkWorld s (tx w) (pc w) (<[k := id]> (supplied w)) ((a, items) :: wire w) (completed w) (recvs w) (sent w)).
Proof.
  intros R T K Hu Hk Hn H. destruct (rx_supply ne w k u id a items s R Hu Hk Hn H) as (G & Eb & R').
  destruct (supply_effect ne w k u id a items s R Hu Hk Hn H) as (e & Hi & -> & -> & ->).
  set (w' := MkWorld _ _ _ _ _ _ _ _) in *.
  assert (wire_ids w' = k + 1 :: wire_ids w) as Ew by (unfold wire_ids; cbn; by rewrite (item_at_idx _ _ _ _ _ Hi)).
  constructor.
  - intros j id' Hj Hid. rewrite Ew. destruct (decide (j = k)) as [->|Hne]; [left; by left|].
    cbn [supplied w'] in Hid. rewrite lookup_insert_ne in Hid by done.
    destruct (k_item w K j id' Hj Hid) as [?|Ha]; [left; by right|right]. apply (arrived_grows w w'); [done|done| |done].
    apply (r_supplied _ _ R j id' Hid).
  - intros s Hs. destruct (k_held w K s Hs) as (id' & Ha). exists id'. pose proof (t_head _ _ T) as Hh. unfold head_ok in Hh.
    cbn in Hs. rewrite Hs in Hh. apply (arrived_grows w w'); [done|done|cbn; lia|done].
Qed.

Lemma kept_deliver w l1 a items l2 : rx_inv ne w -> tx_inv ne w -> kept w -> wire w = l1 ++ (a, items) :: l2 ->
  pc w <> Some (row_of (base w) a) ->
  kept (MkWorld (rx w) (with_flow (write_items (base w) a items (txf w)) (tx w)) (pc w) (supplied w) (l1 ++ l2)
            (completed w) (recvs w) (sent w)).
Proof.
  intros R T K Ew Hpc. destruct (t_wire _ _ T a items) as (k & id & e & -> & -> & Hs & Hi).
  { rewrite Ew. apply elem_of_app. right. left. }
  destruct (t_rows _ _ T (k mod kMaxReq) (mod_req k)) as (e0 & He0 & _). pose proof (mod_req k) as Hm.
  destruct (write_effect (base w) (k mod kMaxReq) e e0 (txf w) Hm He0) as (Hrow & ->). rewrite Hrow in Hpc.
  set (w' := MkWorld _ _ _ _ _ _ _ _).
  assert (wire_ids w ≡ₚ k + 1 :: wire_ids w') as Hp.
  { unfold wire_ids. cbn. rewrite Ew, !map_app. cbn. rewrite (item_at_idx _ _ _ _ _ Hi). symmetry. apply Permutation_middle. }
  destruct (wire_unsent w k R T) as (Hk1 & Hk2); [rewrite Hp; by left|]. pose proof (window ne w R) as Hwin.
  assert (k mod kMaxReq < alen (elems (txf w))) as Hlen by (eapply aget_Some_lt; [lia|done]).
  assert (arrived w' k id) as Hk.
  { exists e. cbn [tx w' flow with_flow set_elems elems]. by rewrite aget_aset_eq by lia. }
  constructor.
  - intros j id' Hj Hid. cbn [sent supplied w'] in Hj, Hid. destruct (decide (j = k)) as [->|Hne]; [right; by assert (id' = id) as -> by congruence|].
    destruct (k_item w K j id' Hj Hid) as [Hin|(e' & He' & Hi')].
    + left. rewrite Hp in Hin. apply elem_of_cons in Hin as [?|?]; [lia|done].
    + right. exists e'. split; [|done]. cbn [tx w' flow with_flow set_elems elems]. pose proof (mod_req j).
      rewrite aget_aset_ne; [done|lia|lia|]. intros Em. apply slot_distinct in Em; [lia|].
      pose proof (r_supplied _ _ R j id' Hid). lia.
  - intros s0 Hs0. destruct (k_held w K s0 Hs0) as (id' & e' & He' & Hi'). exists id', e'. split; [|done].
    cbn [tx w' flow with_flow set_elems elems sent]. pose proof (t_head _ _ T) as Hh. unfold head_ok in Hh. cbn [pc w'] in Hs0. rewrite Hs0 in Hh.
    destruct Hh as (_ & _ & Es). pose proof (mod_req (posts w - 1)). rewrite aget_aset_ne; [done|lia|lia|]. congruence.
Qed.

Lemma kept_finish w slot s : rx_inv ne w -> tx_inv ne w -> kept w -> alen (recvs w) < 2 ^ 64 - 1 -> pc w = Some slot ->
  send_finish slot (tx w) = Done s ->
  kept (MkWorld (rx w) s None (supplied w) (wire w) (completed w) (recvs w) (sent w)).
Proof.
  intros R T K HN Hpc H. destruct (finish_effect ne w slot s R T HN Hpc H) as (Es & Hm & ->).
  destruct (k_held w K slot Hpc) as (id & e & He & Hi). constructor; [|done].
  intros j id' Hj Hid. destruct (k_item w K j id' Hj Hid) as [?|(e' & He' & Hi')]; [by left|right]. exists e'. split; [|done].
  cbn [tx flow with_flow set_elems elems set_fifo_ureqs]. pose proof (mod_req j). rewrite aget_aset_ne; [done|lia|lia|].
  intros Em. rewrite <- Es, Em, He' in He. injection He as ->. apply item_at_idx in Hi, Hi'. cbn in Hj. lia.
Qed.

Lemma kept_send w lk data sz ctx phi u slot s r eng m :
  rx_inv ne w -> tx_inv ne w -> kept w -> alen (recvs w) < 2 ^ 64 - 1 -> pc w = None -> u <> 0 -> in_word 64 sz ->
  send_begin policy ne lk data sz ctx phi u (tx w) = Done (Finish slot, s) ->
  heap s !! u = Some r -> last (tx_cmdq (ep s)) = Some (eng, m) ->
  kept (MkWorld (rx w) s (Some slot) (supplied w) (wire w) (completed w) (recvs w) (sent w ++ [MkPosted eng m r lk data sz ctx])).
Proof.
  intros R T K HN Hpc Hu Hz H Hr Hl.
  destruct (send_posts policy ne w _ _ _ _ _ _ _ _ _ _ _ R T HN Hpc Hu Hz H Hr Hl) as (-> & Ef & _ & Hw & (id & Hid) & _ & _).
  assert (elems (flow s) = elems (txf w)) as Ee by (by rewrite Ef).
  constructor; cbn [sent supplied pc]; autorewrite with arr; cbn [alen length].
  - intros j id' Hj Hid'. destruct (k_item w K j id') as [?|Ha]; [cbn in Hj; lia|done|by left|right].
    unfold arrived in *. cbn [tx]. by rewrite Ee.
  - intros _ _. exists id. replace (posts w + (0 + 1) - 1) with (posts w) by lia.
    destruct (k_item w K (posts w) id) as [?|Ha]; [lia|done|done|]. unfold arrived in *. cbn [tx]. by rewrite Ee.
Qed.

Lemma live_step w w' : step policy ne false w w' -> live_inv w -> live_inv w'.
Proof.
  intros Hstep I HN.
  assert (alen (recvs w) < 2 ^ 64 - 1) as HN0.
  { destruct Hstep; try done. cbn in HN. autorewrite with arr in HN. cbn in HN. lia. }
  destruct (I HN0) as (R & T & K). destruct (rdv_inv_step policy ne false w w' Hstep (fun _ => conj R T) HN) as (R' & T').
  split; [done|]. split; [done|]. clear I. destruct Hstep as [w rnd ctx phi b u wcs s Hb Hu Hroom H|w k u id a items s Hu Hk Hn _ H|
      w l1 a items l2 Ew Hg|w k u dn wcs ret s Hu Hk Hnc H Hret|w lk data sz ctx phi u nx s Hpc Hu H Hnx|
      w lk data sz ctx phi u slot s r eng m Hpc Hu Hz H Hr Hl|w slot s Hpc H].
  - cbn in HN. autorewrite with arr in HN. cbn in HN.
    destruct (rx_recv policy ne w _ _ _ _ _ _ _ R ltac:(lia) Hb Hu Hroom H) as (G & _). by apply (kept_frame w).
  - by apply (kept_supply w k u).
  - destruct Hg as [?|Hg]; [done|]. by apply kept_deliver.
  - destruct (rx_poll policy ne w k u dn wcs ret s R Hu Hk Hnc H Hret) as (G & _). by apply (kept_frame w).
  - destruct (send_not_effect policy ne w _ _ _ _ _ _ _ _ R T HN0 Hpc Hu H Hnx) as (r & ->).
    constructor; [|done]. intros k id Hk Hid. by destruct (k_item w K k id Hk Hid); [left|right].
  - by eapply (kept_send w).
  - by eapply (kept_finish w).
Qed.

Lemma live_initial w : initial ne w -> live_inv w.
Proof.
  intros Hw HN. destruct (inv_initial ne w Hw HN) as (R & T). destruct Hw as [_ _ _ _ (P1 & P2 & P3 & P4 & P5 & P6)].
  split; [done|]. split; [done|]. constructor; rewrite ?P1, ?P2; done.
Qed.

Lemma reachable_live w : reachable policy ne false w -> live_inv w.
Proof.
  intros (w0 & H0 & Hr). apply (rtc_invariant (step policy ne false) live_inv w0 w); [|done|by apply live_initial].
  intros x y Hs. by apply live_step.
Qed.

(** ** The engines and the network *)

(** What is left for them to do. *)
Definition pending (w : world) : Z := 2 * (alen (recvs w) - Z.of_nat (base.size (supplied w))) + alen (wire w).

(** A receive that no engine has taken can be. *)
Lemma can_supply w k : rx_inv ne w -> 0 <= k < alen (recvs w) -> supplied w !! k = None ->
  exists u a items s, rx_req w k = Some u /\ supply_items 0 u (rx w) = Done (a, items, s).
Proof.
  intros R Hk Hn. destruct (unsupplied_unsent ne w k R ltac:(lia) Hn) as (_ & Hc). destruct (r_tail _ _ R) as (_ & Ec).
  destruct (aget_is_Some (rx_cmdq (ep (rx w))) k) as (q & Hq); [lia|].
  assert (rx_req w k = Some (mureq q.2)) as Hu by (unfold rx_req; by rewrite Hq).
  destruct (r_reqs _ _ R k _ ltac:(lia) Hc Hu) as (r & wr & Hr & Hv & _). unfold req_view in Hv. injection Hv as _ Hn1 He _.
  destruct (r_rows _ _ R _ (mod_req k)) as (e & Hrow & _). exists (mureq q.2). do 3 eexists. split; [done|].
  unfold supply_items. rewrite (bind_of _ _ r) by (by apply load_req_Done). rewrite He, Hn1.
  rewrite (bind_of _ _ [e]) by (by apply fetch_Done). by cbn.
Qed.

Lemma supplied_size w : rx_inv ne w -> Z.of_nat (base.size (supplied w)) <= alen (recvs w).
Proof.
  intros R. rewrite <- (size_dom (D := gset Z)). apply bounded_size; [apply alen_nonneg|].
  intros k (id & Hid)%elem_of_dom. apply (r_supplied _ _ R k id Hid).
Qed.

Lemma can_send w id lk data sz ctx phi u r :
  rx_inv ne w -> tx_inv ne w -> alen (recvs w) < 2 ^ 64 - 1 -> pc w = None -> arrived w (posts w) id -> u <> 0 ->
  heap (tx w) !! u = Some r -> (load_based policy = false \/ ne <= alen (engine_load_vec_ (ep (tx w)))) ->
  exists slot s, send_begin policy ne lk data sz ctx phi u (tx w) = Done (Finish slot, s).
Proof.
  intros R T HN Hpc (e & He & Hi) Hu Hr Hload. destruct (head_item ne w R T HN Hpc) as (Hh & Hur & _ & _ & Ew & _).
  destruct (item_at_usable ne w _ _ _ R (alen_nonneg _) Hi) as (Hus & _). destruct (r_ne _ _ R) as (_ & Hne).
  pose proof (item_at_idx _ _ _ _ _ Hi) as Hidx. rewrite <- Hh in He, Hur. destruct (us_engine _ _ Hus) as (Hoff0 & Hoff).
  rewrite (send_ready policy ne lk data sz ctx phi u (tx w) e r He Hur ltac:(congruence) Hus ltac:(lia) Hu Hr).
  set (s0 := store_req u _ _). assert (exists s1, count_load policy e s0 = Done s1) as (s1 & Hs1).
  { unfold count_load. destruct Hload as [->|Hlen]; [rewrite andb_false_r; by eexists|].
    case_match; [|by eexists]. unfold inc_load_on_engine, fetch.
    destruct (aget_is_Some (engine_load_vec_ (ep (tx w))) (engine_offset e)) as (l & Hl); [lia|].
    change (engine_load_vec_ (ep s0)) with (engine_load_vec_ (ep (tx w))). rewrite Hl. by eexists. }
  rewrite (bind_of _ _ s1 Hs1). apply count_load_Done in Hs1 as (l & ->). cbn zeta.
  erewrite (post_one kTx u (engine_offset e) _ (matched policy e lk data sz ctx phi r)); [|apply lookup_insert_eq|apply match_req_n].
  by do 2 eexists.
Qed.

Lemma engines_step w : rx_inv ne w -> tx_inv ne w -> kept w -> pc w = None -> posts w < alen (recvs w) ->
  (exists id, arrived w (posts w) id) \/
  exists w', step policy ne false w w' /\ pending w' < pending w /\
    sent w' = sent w /\ recvs w' = recvs w /\ pc w' = None /\ heap (tx w') = heap (tx w).
Proof.
  intros R T K Hpc Hp. pose proof (alen_nonneg (sent w)). destruct (supplied w !! posts w) as [id|] eqn:Hs.
  - destruct (k_item w K (posts w) id) as [Hin|Ha]; [lia|done| |left; by exists id]. right.
    unfold wire_ids in Hin. destruct (wire w) as [|[a its] l2] eqn:Ew; [by apply elem_of_nil in Hin|].
    eexists. split; [apply (step_deliver _ _ _ w [] a its l2 Ew); right; by rewrite Hpc|].
    unfold pending. cbn [supplied wire recvs sent pc tx app]. rewrite Ew. autorewrite with arr. split_and!; [lia|done..].
  - right. destruct (can_supply w (posts w) R ltac:(lia) Hs) as (u & a & items & s & Hu & H').
    eexists. split; [apply (step_supply _ _ _ w (posts w) u 0 a items s); [done|done|done|word_lia|done]|].
    unfold pending. cbn [supplied wire recvs sent pc tx]. rewrite map_size_insert_None by done. autorewrite with arr. split_and!; [lia|done..].
Qed.

End live.

(** C18: No advertised buffer is lost: when a receive waits for its message, the next
    send is accepted, or it returns [-1] and an engine or the network still has
    something to do, which brings the FIFO one step nearer to it. *)
Theorem rendezvous_progress policy ne w lk data sz ctx phi u r :
  reachable policy ne false w -> alen (recvs w) < 2 ^ 64 - 1 -> pc w = None -> alen (sent w) < alen (recvs w) ->
  u <> 0 -> heap (tx w) !! u = Some r -> (load_based policy = false \/ ne <= alen (engine_load_vec_ (ep (tx w)))) ->
  (exists slot s, send_begin policy ne lk data sz ctx phi u (tx w) = Done (Finish slot, s)) \/
  (exists w', step policy ne false w w' /\ 0 <= pending w' < pending w /\
     sent w' = sent w /\ recvs w' = recvs w /\ pc w' = None /\ heap (tx w') = heap (tx w)).
Proof.
  intros Hr HN Hpc Hp Hu Hh Hl. destruct (reachable_live policy ne w Hr HN) as (R & T & K).
  destruct (engines_step policy ne w R T K Hpc Hp) as [(id & Ha)|(w' & Hs & Hlt & E1 & E2 & E3 & E4)].
  - left. by eapply can_send.
  - right. exists w'. split; [done|]. split; [|done]. split; [|done].
    destruct (rdv_inv_step policy ne false w w' Hs (fun _ => conj R T) ltac:(by rewrite E2)) as (R' & _).
    pose proof (supplied_size _ _ R'). pose proof (alen_nonneg (wire w')). unfold pending. lia.
Qed.

End RendezvousLive.
