(* ===== verification/EndpointRuns.v ===== *)
(** * Runs of the rendezvous

    An executable form of the steps of [EndpointSpec.v], to exhibit runs; a run
    in which the network writes a slot between the moment its message is posted
    and the moment the sender clears it, and what becomes of the flow after it
    ([rendezvous_lost]). *)

From S2P Require Import Prelude Flow OneSided Endpoint EndpointSpec EndpointLive.

Module RendezvousRuns.
Import OneSided Endpoint Rendezvous RendezvousLive.

Inductive act :=
| ARecv (b : rbuf) (u ctx : Z)
| ASupply (k id : Z)
| ADeliver
| APoll (k : Z)
| ASend (lk data sz ctx u : Z)
| AFinish.

Definition buf_okb (b : rbuf) : bool :=
  (0 <? b_data b) && (b_data b <? 2 ^ 64) && (0 <? b_rkey b) && (b_rkey b <? 2 ^ 32) && (0 <=? b_size b) && (b_size b <? 2 ^ 31).

Section exec.
Context (policy : engine_lb_policy) (ne : Z) (racy : bool).

Definition exec (w : world) (a : act) : option world :=
  match a with
  | ARecv b u ctx =>
      if buf_okb b && check_room (flow (rx w)) &&
         forallb (fun k => bool_decide (k ∈ completed w) || negb (bool_decide (rx_req w k = Some u))) (seqZ 0 (alen (rx_cmdq (ep (rx w)))))
      then match uccl_recv_async policy 0 ctx 1 [b] u [] (rx w) with
           | Done (0, s) => Some (MkWorld s (tx w) (pc w) (supplied w) (wire w) (completed w) (recvs w ++ [b]) (sent w))
           | _ => None
           end
      else None
  | ASupply k id =>
      match rx_req w k, supplied w !! k with
      | Some u, None =>
          if (0 <=? k) && (0 <=? id) && (id <? 2 ^ 32) then
            match supply_items id u (rx w) with
            | Done (a, items, s) =>
                Some (MkWorld s (tx w) (pc w) (<[k := id]> (supplied w)) ((a, items) :: wire w) (completed w) (recvs w) (sent w))
            | Fail _ => None
            end
          else None
      | _, _ => None
      end
  | ADeliver =>
      match wire w with
      | (a, items) :: l =>
          if racy || negb (bool_decide (pc w = Some (row_of (base w) a))) then
            Some (MkWorld (rx w) (with_flow (write_items (base w) a items (flow (tx w))) (tx w)) (pc w) (supplied w) l
                    (completed w) (recvs w) (sent w))
          else None
      | [] => None
      end
  | APoll k =>
      match rx_req w k with
      | Some u =>
          if (0 <=? k) && negb (bool_decide (k ∈ completed w)) && (k <? alen (sent w)) then
            match uccl_poll_ureq_once policy (fun _ => true) [] u (rx w) with
            | Done (ret, s) =>
                Some (MkWorld s (tx w) (pc w) (supplied w) (wire w) (if ret then {[k]} ∪ completed w else completed w) (recvs w) (sent w))
            | Fail _ => None
            end
          else None
      | None => None
      end
  | ASend lk data sz ctx u =>
      match pc w with
      | None =>
          if negb (u =? 0) && (0 <=? sz) && (sz <? 2 ^ 64) then
            match send_begin policy ne lk data sz ctx 1 u (tx w) with
            | Done (Finish slot, s) =>
                match heap s !! u, last (tx_cmdq (ep s)) with
                | Some r, Some (eng, m) =>
                    Some (MkWorld (rx w) s (Some slot) (supplied w) (wire w) (completed w) (recvs w)
                            (sent w ++ [MkPosted eng m r lk data sz ctx]))
                | _, _ => None
                end
            | _ => None
            end
          else None
      | Some _ => None
      end
  | AFinish =>
      match pc w with
      | Some slot => match send_finish slot (tx w) with
                     | Done s => Some (MkWorld (rx w) s None (supplied w) (wire w) (completed w) (recvs w) (sent w))
                     | Fail _ => None
                     end
      | None => None
      end
  end.

Lemma buf_okb_ok b : buf_okb b = true -> buf_ok b.
Proof. unfold buf_okb, buf_ok, in_word. rewrite !andb_true_iff, !Z.ltb_lt, Z.leb_le. lia. Qed.

Lemma exec_step w a w' : exec w a = Some w' -> step policy ne racy w w'.
Proof.
  destruct a as [b u ctx|k id| |k|lk data sz ctx u|]; cbn; intros H.
  - case_match eqn:E; [|done]. apply andb_true_iff in E as ((Hb%buf_okb_ok & Hroom)%andb_true_iff & Hf).
    destruct (uccl_recv_async policy 0 ctx 1 [b] u [] (rx w)) as [[[] s]|] eqn:Er; simplify_eq.
    apply (step_recv _ _ _ w 0 ctx 1 b u []); [done| |done|done]. intros k Hk Hnc Hu.
    rewrite forallb_forall in Hf. specialize (Hf k). rewrite orb_true_iff, bool_decide_eq_true, negb_true_iff, bool_decide_eq_false in Hf.
    destruct Hf as [?|?]; [|done|done]. apply list_elem_of_In, elem_of_seqZ. unfold rx_req in Hu.
    destruct (aget (rx_cmdq (ep (rx w))) k) eqn:Ek; [|done]. apply aget_Some_lt in Ek; lia.
  - destruct (rx_req w k) as [u|] eqn:Hu; [|done]. destruct (supplied w !! k) eqn:Hs; [done|]. case_match eqn:E; [|done].
    apply andb_true_iff in E as ((Hk%Z.leb_le & Hid%Z.leb_le)%andb_true_iff & Hid'%Z.ltb_lt).
    destruct (supply_items id u (rx w)) as [[[a items] s]|] eqn:Es; [|done]. injection H as <-. by apply (step_supply _ _ _ w k u).
  - destruct (wire w) as [|[a items] l] eqn:Ew; [done|]. case_match eqn:E; [|done]. injection H as <-.
    apply (step_deliver _ _ _ w [] a items l); [done|].
    apply orb_true_iff in E as [->|Hn%negb_true_iff%bool_decide_eq_false]; [by left|by right].
  - destruct (rx_req w k) as [u|] eqn:Hu; [|done]. case_match eqn:E; [|done].
    apply andb_true_iff in E as ((Hk%Z.leb_le & Hc%negb_true_iff%bool_decide_eq_false)%andb_true_iff & Hs%Z.ltb_lt).
    destruct (uccl_poll_ureq_once policy _ [] u (rx w)) as [[ret s]|] eqn:Ep; [|done]. injection H as <-.
    by eapply (step_poll _ _ _ w k u).
  - destruct (pc w) eqn:Hpc; [done|]. case_match eqn:E; [|done].
    apply andb_true_iff in E as ((Hu%negb_true_iff%Z.eqb_neq & Hz%Z.leb_le)%andb_true_iff & Hz'%Z.ltb_lt).
    destruct (send_begin policy ne lk data sz ctx 1 u (tx w)) as [[[| |slot] s]|] eqn:Es; try done.
    destruct (heap s !! u) as [r|] eqn:Hr; [|done]. destruct (last (tx_cmdq (ep s))) as [[eng m]|] eqn:Hl; [|done]. injection H as <-.
    by eapply (step_send _ _ _ w).
  - destruct (pc w) as [slot|] eqn:Hpc; [|done]. destruct (send_finish slot (tx w)) as [s|] eqn:Es; [|done]. injection H as <-.
    by eapply (step_finish _ _ _ w).
Qed.

Definition execs (w : world) (l : list act) : option world := foldl (fun o a => o ≫= fun w => exec w a) (Some w) l.

Lemma execs_steps l : forall w w', execs w l = Some w' -> rtc (step policy ne racy) w w'.
Proof.
  unfold execs. induction l as [|a l IH] using rev_ind; intros w w' H; [by injection H as <-|].
  rewrite foldl_app in H. cbn in H. destruct (foldl _ (Some w) l) as [w1|] eqn:E; [|done]. cbn in H.
  eapply rtc_r; [by apply IH|by eapply exec_step].
Qed.

End exec.
(** ** A buffer that was lost *)

Section lost.
Context (policy : engine_lb_policy) (ne L : Z).

(** The item of receive [L] was written, and is neither in flight nor in the
    sender's FIFO, and its message was not posted. *)
Record lost (w : world) : Prop := {
  l_rx : rx_inv ne w;
  l_tx : tx_inv ne w;
  l_posts : posts w <= L;
  l_supplied : is_Some (supplied w !! L);
  l_wire : L + 1 ∉ wire_ids w;
  l_rows : forall s e, 0 <= s < kMaxReq -> aget (elems (txf w)) s = Some [e] -> idx e <> L + 1;
}.

Hypothesis (HL : 0 <= L < 2 ^ 63).

Lemma lost_bound w : lost w -> alen (recvs w) + 1 < 2 ^ 64 - 1.
Proof. intros D. pose proof (window _ _ (l_rx w D)). pose proof (l_posts w D). unfold kMaxReq, Flow.kMaxReq in *. lia. Qed.

Lemma lost_frame w w' : lost w -> rx_inv ne w' -> tx_inv ne w' -> sent w' = sent w -> supplied w ⊆ supplied w' ->
  (L + 1 ∈ wire_ids w' -> L + 1 ∈ wire_ids w) -> elems (txf w') = elems (txf w) -> lost w'.
Proof.
  intros D R T Es Hs Hw Ee. destruct (l_supplied w D) as (id & Hid). constructor; [done|done| | | |].
  - rewrite Es. apply (l_posts w D).
  - exists id. by eapply lookup_weaken.
  - intros Hin%Hw. by apply (l_wire w D).
  - rewrite Ee. apply (l_rows w D).
Qed.

Lemma lost_deliver w l1 a items l2 : lost w -> wire w = l1 ++ (a, items) :: l2 ->
  let w' := MkWorld (rx w) (with_flow (write_items (base w) a items (txf w)) (tx w)) (pc w) (supplied w) (l1 ++ l2)
              (completed w) (recvs w) (sent w) in
  rx_inv ne w' -> tx_inv ne w' -> lost w'.
Proof.
  intros D Ew w' R' T'. pose proof (l_tx w D) as T. destruct (t_wire _ _ T a items) as (k & id & e & -> & -> & Hs & Hi).
  { rewrite Ew. apply elem_of_app. right. left. }
  destruct (t_rows _ _ T (k mod kMaxReq) (mod_req k)) as (e0 & He0 & _). pose proof (mod_req k) as Hm.
  assert (k + 1 <> L + 1) as Hne.
  { intros E. apply (l_wire w D). rewrite <- E, <- (item_at_idx _ _ _ _ _ Hi). unfold wire_ids. rewrite Ew, map_app. apply elem_of_app. right. left. }
  constructor; [done|done|apply (l_posts w D)|apply (l_supplied w D)| |].
  - intros Hin. apply (l_wire w D). unfold wire_ids in *. cbn in Hin. rewrite Ew, map_app in *. cbn. apply elem_of_app in Hin. set_solver.
  - cbn [tx w']. rewrite (proj2 (write_effect (base w) (k mod kMaxReq) e e0 (txf w) Hm He0)). intros s0 e1 Hs0 He1.
    cbn [flow with_flow set_elems elems] in He1. destruct (decide (s0 = k mod kMaxReq)) as [->|Hn].
    + rewrite aget_aset_eq in He1 by (split; [lia|eapply aget_Some_lt; [lia|done]]). injection He1 as <-.
      by rewrite (item_at_idx _ _ _ _ _ Hi).
    + rewrite aget_aset_ne in He1 by lia. by apply (l_rows w D s0).
Qed.

Lemma lost_step w w' : step policy ne true w w' -> lost w -> lost w'.
Proof.
  intros Hstep D. pose proof (lost_bound w D) as HB. pose proof (l_rx w D) as R. pose proof (l_tx w D) as T.
  assert (rx_inv ne w' /\ tx_inv ne w') as (R' & T').
  { apply (rdv_inv_step policy ne true w w' Hstep (fun _ => conj R T)).
    destruct Hstep; cbn [recvs]; autorewrite with arr; cbn; lia. }
  destruct Hstep as [w rnd ctx phi b u wcs s Hb Hu Hroom H|w k u id a items s Hu Hk Hn _ H|
      w l1 a items l2 Ew Hg|w k u dn wcs ret s Hu Hk Hnc H Hret|w lk data sz ctx phi u nx s Hpc Hu H Hnx|
      w lk data sz ctx phi u slot s r eng m Hpc Hu Hz H Hr Hl|w slot s Hpc H].
  - by apply (lost_frame w).
  - destruct (supply_effect ne w k u id a items s R Hu Hk Hn H) as (e & Hi & -> & -> & ->).
    apply (lost_frame w); [done|done|done|done|by apply insert_subseteq| |done].
    unfold wire_ids. cbn. rewrite (item_at_idx _ _ _ _ _ Hi). intros [E|?]%elem_of_cons; [|done].
    assert (k = L) as -> by lia. destruct (l_supplied w D) as (? & ?). congruence.
  - by apply lost_deliver.
  - by apply (lost_frame w).
  - destruct (send_not_effect policy ne w _ _ _ _ _ _ _ _ R T ltac:(lia) Hpc Hu H Hnx) as (r & ->). by apply (lost_frame w).
  - destruct (send_posts policy ne w _ _ _ _ _ _ _ _ _ _ _ R T ltac:(lia) Hpc Hu Hz H Hr Hl) as (-> & Ef & _ & _ & _ & (e & He & Hi) & _).
    assert (posts w <> L) as Hne by (intros E; apply (l_rows w D _ e (mod_req _) He); lia). pose proof (l_posts w D).
    constructor; [done|done|cbn; autorewrite with arr; cbn; lia|apply (l_supplied w D)|apply (l_wire w D)|].
    cbn [tx]. rewrite Ef. apply (l_rows w D).
  - destruct (finish_effect ne w slot s R T ltac:(lia) Hpc H) as (Es & Hm & ->).
    constructor; [done|done|apply (l_posts w D)|apply (l_supplied w D)|apply (l_wire w D)|].
    intros s0 e1 Hs0 He1. cbn [tx flow with_flow set_elems set_fifo_ureqs elems] in He1. destruct (decide (s0 = slot)) as [->|Hn].
    + destruct (t_rows _ _ T slot Hm) as (e & He & _).
      rewrite aget_aset_eq in He1 by (split; [lia|eapply aget_Some_lt; [lia|done]]). injection He1 as <-. cbn. lia.
    + rewrite aget_aset_ne in He1 by lia. by apply (l_rows w D s0).
Qed.

(** Once lost, the buffer stays lost and its message is never posted. *)
Lemma lost_forever w w' : lost w -> rtc (step policy ne true) w w' -> posts w' <= L.
Proof.
  intros D Hr. apply l_posts. apply (rtc_invariant (step policy ne true) lost w w'); [|done|done].
  intros x y. apply lost_step.
Qed.

End lost.

(** ** Concrete runs *)

Definition zero_req : ucclRequest := MkReq ReqTx 0 0 0 0 [0] 0 zero_wr 0 0 0 0 0 0 0 0 0.
Definition flow0 : UcclFlow := MkFlow empty_rows 0 empty_ureqs 0 4096 5 6 0 3 0 0 0 0.
Definition side0 : side := MkSide (MkEp 2 [0; 0] [] []) flow0 (list_to_map (map (fun u => (u, zero_req)) (seqZ 1 32))).
Definition world0 : world := MkWorld side0 side0 None ∅ [] ∅ [] [].

Lemma initial0 : initial 2 world0.
Proof. constructor; by vm_compute. Qed.

Definition recv_act (k : Z) : act := ARecv (MkBuf (4096 * (k + 1)) (100 * (k + 1)) 7) (k + 1) (50 + k).
Definition send_act (k : Z) : act := ASend 9 (8192 + k) 250 (70 + k) 1.

(** Sixteen receives are posted, the first of them is served and completes, and
    the seventeenth, which takes the same slot, arrives before the sender has
    cleared it.  The other items follow. *)
Definition lossy_run : list act :=
  map recv_act (seqZ 0 16) ++ [ASupply 0 3; ADeliver; send_act 0; APoll 0; recv_act 16; ASupply 16 3; ADeliver; AFinish] ++
  flat_map (fun k => [ASupply k (k mod 16); ADeliver]) (seqZ 1 15).

(** Three receives, served in order though their items arrive in another. *)
Definition good_run : list act :=
  map recv_act (seqZ 0 3) ++ [ASupply 2 2; ASupply 0 0; ASupply 1 1; ADeliver; ADeliver; send_act 0; AFinish; send_act 1; AFinish; APoll 1; ADeliver].

(** What the runs below are checked for. *)
Definition summary (w : world) : Z * Z * option Z * bool * bool * bool :=
  (alen (sent w), alen (recvs w), pc w, forallb (fun k => bool_decide (is_Some (supplied w !! k))) (seqZ 0 (alen (recvs w))),
   bool_decide (length (wire w) = 0%nat), forallb (forallb (fun e => negb (idx e =? 17))) (elems (flow (tx w)))).

Lemma rdv_run_reaches {A} (f : world -> A) racy l x : option_map f (execs ENGINE_POLICY_RR 2 racy world0 l) = Some x ->
  exists w, reachable ENGINE_POLICY_RR 2 racy w /\ f w = x.
Proof.
  destruct (execs _ _ _ _ l) as [w|] eqn:E; [|done]. intros [= <-]. exists w. split; [|done].
  exists world0. split; [apply initial0|by eapply execs_steps].
Qed.

Lemma lossy_lost : exists w, reachable ENGINE_POLICY_RR 2 true w /\ summary w = (1, 17, None, true, true, true).
Proof. apply (rdv_run_reaches summary true lossy_run). by vm_compute. Qed.

(** C38: A write that lands on a slot between [post_multi_send] and the [memset] of
    [uccl_send_async] is lost: after a run of receives and sends in which this
    happens once, a receive is posted, its item has been written, nothing is in
    flight and fifteen other buffers are there, and whatever follows, at most
    sixteen messages are ever posted. *)
Theorem rendezvous_lost : exists w, reachable ENGINE_POLICY_RR 2 true w /\
  alen (recvs w) = 17 /\ alen (sent w) = 1 /\ wire w = [] /\ pc w = None /\
  (forall k, 0 <= k < 17 -> is_Some (supplied w !! k)) /\
  (forall w', rtc (step ENGINE_POLICY_RR 2 true) w w' -> alen (sent w') <= 16).
Proof.
  destruct lossy_lost as (w & Hr & E). exists w. unfold summary in E. injection E as Es Er Ep Hsup Hw Hrow.
  rewrite Er in Hsup. rewrite forallb_forall in Hsup. apply bool_decide_eq_true, length_zero_iff_nil in Hw.
  assert (forall k, 0 <= k < 17 -> is_Some (supplied w !! k)) as Hs.
  { intros k Hk. apply (bool_decide_eq_true (is_Some (supplied w !! k))), Hsup, list_elem_of_In, elem_of_seqZ. lia. }
  destruct (rdv_reachable_inv _ _ _ _ Hr) as (R & T); [rewrite Er; lia|]. split_and!; [done..|].
  intros w'. apply (lost_forever ENGINE_POLICY_RR 2 16 ltac:(lia)). constructor; [done|done|lia|apply Hs; lia| |].
  - unfold wire_ids. rewrite Hw. apply not_elem_of_nil.
  - intros s e Hs0 He. rewrite forallb_forall in Hrow. specialize (Hrow [e]). cbn in Hrow. rewrite andb_true_r in Hrow.
    apply Z.eqb_neq, negb_true_iff, Hrow, list_elem_of_In. unfold aget in He. by eapply list_elem_of_lookup_2.
Qed.

Lemma good_reached : exists w, reachable ENGINE_POLICY_RR 2 false w /\ summary w = (2, 3, None, true, true, true).
Proof. apply (rdv_run_reaches summary false good_run). by vm_compute. Qed.

Lemma rendezvous_matches_witness : exists w, alen (sent w) = 2 /\ forall k p, 0 <= k -> aget (sent w) k = Some p -> serves 2 w k p.
Proof.
  destruct good_reached as (w & Hr & E). injection E as Es Er _ _ _ _. exists w. split; [done|].
  apply (rendezvous_matches ENGINE_POLICY_RR 2 false w Hr). rewrite Er. lia.
Defined.

Lemma progress_reached : exists w r, reachable ENGINE_POLICY_RR 2 false w /\ alen (sent w) = 0 /\ alen (recvs w) = 3 /\ pc w = None /\
  heap (tx w) !! 1 = Some r.
Proof.
  destruct (rdv_run_reaches (fun w => (alen (sent w), alen (recvs w), pc w, heap (tx w) !! 1)) false (map recv_act (seqZ 0 3))
    (0, 3, None, Some zero_req)) as (w & Hr & E); [by vm_compute|].
  injection E as Es Er Ep Eh. exists w, zero_req. by split_and!.
Qed.

Lemma rendezvous_progress_witness : exists w, alen (sent w) < alen (recvs w) /\
  ((exists slot s, send_begin ENGINE_POLICY_RR 2 9 8192 250 70 1 1 (tx w) = Done (Finish slot, s)) \/
   exists w', step ENGINE_POLICY_RR 2 false w w' /\ 0 <= pending w' < pending w).
Proof.
  destruct progress_reached as (w & r & Hr & Es & Er & Ep & Eh). exists w. split; [lia|].
  destruct (rendezvous_progress ENGINE_POLICY_RR 2 w 9 8192 250 70 1 1 r Hr) as [?|(w' & ? & ? & _)];
    [lia|done|lia|lia|done|by left|by left|right; by exists w'].
Defined.

End RendezvousRuns.
