(* ===== verification/EndpointOps.v ===== *)
(** * The other operations of the endpoint

    The engine that the policies choose, the bytes of an advertised item, and
    requests that are polled before they are done or flushed with nothing to
    flush: facts about single calls of [Endpoint.v]. *)

From S2P Require Import Prelude Flow OneSided Endpoint EndpointSpec.

Module EndpointOps.
Import OneSided Endpoint Rendezvous.

(** ** The bytes of an item *)

Lemma length_le_bytes k x : length (le_bytes k x) = k.
Proof. revert x. induction k; intros x; cbn; [done|]. by rewrite IHk. Qed.

Lemma le_word_bytes k : forall x, 0 <= x < 256 ^ Z.of_nat k -> le_word (le_bytes k x) = x.
Proof.
  induction k as [|k IH]; intros x Hx; cbn [le_bytes le_word]; [cbn in Hx; lia|].
  rewrite Nat2Z.inj_succ, Z.pow_succ_r in Hx by lia. pose proof (Z.div_mod x 256 ltac:(lia)). pose proof (Z.mod_pos_bound x 256 ltac:(lia)).
  rewrite IH; [lia|]. split; [apply Z.div_pos; lia|]. apply Z.div_lt_upper_bound; lia.
Qed.

Lemma put_bytes_app pre rest o src : o = alen pre ->
  put_bytes (pre ++ rest) o src = (pre ++ src) ++ drop (length src) rest.
Proof.
  intros ->. unfold put_bytes, alen. rewrite Nat2Z.id, take_app_length, <- drop_drop, drop_app_length. by rewrite <- app_assoc.
Qed.

Lemma slice_skip (k : nat) x (l : list Z) a b : Z.of_nat k <= a ->
  slice (le_bytes k x ++ l) a b = slice l (a - Z.of_nat k) (b - Z.of_nat k).
Proof.
  intros Ha. unfold slice. replace (Z.to_nat a) with (length (le_bytes k x) + Z.to_nat (a - Z.of_nat k))%nat by (rewrite length_le_bytes; lia).
  rewrite <- drop_drop, drop_app_length. do 2 f_equal. lia.
Qed.

Lemma slice_here (x l : list Z) a b : a = 0 -> b = alen x -> slice (x ++ l) a b = x.
Proof. intros -> ->. unfold slice, alen. rewrite drop_0, Z.sub_0_r, Nat2Z.id. apply take_app_length. Qed.

Lemma field_read (k : nat) x l a b : a = 0 -> b = Z.of_nat k -> 0 <= x < 256 ^ Z.of_nat k -> le_word (slice (le_bytes k x ++ l) a b) = x.
Proof. intros Ha Hb Hx. rewrite slice_here; [by apply le_word_bytes|done|]. unfold alen. by rewrite length_le_bytes. Qed.

Record item_ok (it : FifoItem) : Prop := {
  io_addr : in_word 64 (addr it); io_size : in_word 32 (size it); io_rkey : in_word 32 (rkey it);
  io_nmsgs : in_word 32 (nmsgs it); io_rid : in_word 32 (rid it); io_idx : in_word 64 (idx it);
  io_engine : in_word 32 (engine_offset it); io_padding : length (padding it) = 28%nat;
}.

Definition item_bytes (it : FifoItem) : list Z :=
  le_bytes 8 (addr it) ++ le_bytes 4 (size it) ++ le_bytes 4 (rkey it) ++ le_bytes 4 (nmsgs it) ++ le_bytes 4 (rid it) ++
  le_bytes 8 (idx it) ++ le_bytes 4 (engine_offset it) ++ padding it.

(** The eight copies write the 64 bytes of the item and nothing else. *)
Lemma serialize_bytes it buf : length (padding it) = 28%nat ->
  serialize_fifo_item it buf = item_bytes it ++ drop 64 buf.
Proof.
  intros Hp. unfold serialize_fifo_item. rewrite <- (app_nil_l buf) at 1.
  rewrite (put_bytes_app [] buf 0) by done. cbn [app].
  do 7 (rewrite put_bytes_app by (unfold alen; rewrite ?length_app, ?length_le_bytes; done)).
  rewrite !length_le_bytes, Hp, !drop_drop. unfold item_bytes. by rewrite <- !app_assoc.
Qed.

(** C35: What a receiver writes out with [serialize_fifo_item] is what a sender reads
    with [deserialize_fifo_item]; the bytes after the item are left alone. *)
Theorem fifo_item_roundtrip it buf : item_ok it -> 64 <= alen buf ->
  deserialize_fifo_item (serialize_fifo_item it buf) = it /\
  alen (serialize_fifo_item it buf) = alen buf /\ drop 64 (serialize_fifo_item it buf) = drop 64 buf.
Proof.
  intros [Ha Hs Hk Hn Hr Hi He Hp] Hb. rewrite serialize_bytes by done.
  assert (length (item_bytes it) = 64%nat) as Hl by (unfold item_bytes; by rewrite !length_app, !length_le_bytes, Hp).
  split_and!.
  - unfold deserialize_fifo_item, item_bytes. rewrite <- !app_assoc.
    destruct it as [ad sz rk nm ri ix eo pd]. cbn [addr size rkey nmsgs rid idx engine_offset padding] in *.
    f_equal; repeat rewrite slice_skip by lia; try (apply field_read; [done|done|word_lia]). apply slice_here; [done|]. unfold alen. by rewrite Hp.
  - unfold alen in *. rewrite length_app, Hl, length_drop. lia.
  - rewrite <- Hl at 1. by rewrite drop_app_length.
Qed.

Lemma fifo_item_roundtrip_witness :
  let it := MkFifo 0x7f0012345678 65536 77 1 3 9 2 (replicate 28 0) in
  deserialize_fifo_item (serialize_fifo_item it (replicate 70 255)) = it.
Proof. apply (fifo_item_roundtrip (MkFifo 0x7f0012345678 65536 77 1 3 9 2 (replicate 28 0)) (replicate 70 255)); [|done]. constructor; done. Defined.

(** ** Engines *)

(** The loop of [find_least_loaded_engine_idx], from engine [i] on. *)
Definition scan (loads : list Z) (acc : result (Z * Z)) (ids : list Z) : result (Z * Z) :=
  foldl (fun acc i =>
      '(min_load, candidate) ← acc;
      load ← fetch loads i;
      Done (if load <? min_load then (load, i) else (min_load, candidate))) acc ids.

Lemma scan_spec loads ids : forall m c, (forall i, i ∈ ids -> exists l, aget loads i = Some l) ->
  exists m' c', scan loads (Done (m, c)) ids = Done (m', c') /\ m' <= m /\
    (forall i l, i ∈ ids -> aget loads i = Some l -> m' <= l) /\
    ((m', c') = (m, c) \/ (c' ∈ ids /\ aget loads c' = Some m')).
Proof.
  induction ids as [|i ids IH]; intros m c Hin.
  - exists m, c. split_and!; [done|done|set_solver|by left].
  - destruct (Hin i) as (l & Hl); [by left|]. unfold scan. cbn [foldl]. rewrite (bind_of _ _ (m, c)) by done.
    rewrite (bind_of _ _ l) by (by apply fetch_Done). fold (scan loads).
    assert (forall m1 c1, m1 <= m -> m1 <= l -> (m1, c1) = (m, c) \/ (c1 = i /\ m1 = l) ->
      exists m' c', scan loads (Done (m1, c1)) ids = Done (m', c') /\ m' <= m /\
        (forall i0 l0, i0 ∈ i :: ids -> aget loads i0 = Some l0 -> m' <= l0) /\
        ((m', c') = (m, c) \/ (c' ∈ i :: ids /\ aget loads c' = Some m'))) as Hgo.
    { intros m1 c1 H1 H2 H3. destruct (IH m1 c1) as (m' & c' & -> & Hm & Hall & Hc); [set_solver|]. exists m', c'. split_and!; [done|lia| |].
      - intros i0 l0 [->|Hi0]%elem_of_cons Hl0; [|by eapply Hall]. rewrite Hl in Hl0. injection Hl0 as <-. lia.
      - destruct Hc as [E|(Hc & Hv)]; [|right; split; [by right|done]]. injection E as -> ->. destruct H3 as [?|(-> & ->)]; [by left|].
        right. split; [by left|done]. }
    destruct (Z.ltb_spec l m); apply Hgo; [lia|lia|by right|lia|lia|by left].
Qed.

(** The engine with the least load of a device is found, and the power-of-two
    policy always takes it, whatever engine it draws: one of its two candidates
    is the least loaded engine already. *)
Theorem pot_is_least_loaded rnd dev e :
  0 < num_engines_per_dev_ e -> 0 <= dev -> (dev + 1) * num_engines_per_dev_ e <= alen (engine_load_vec_ e) ->
  Forall (fun l => 0 <= l < 2 ^ 32 - 1) (engine_load_vec_ e) ->
  exists c l, find_least_loaded_engine_idx dev e = Done c /\ find_pot_load_engine_idx rnd dev e = Done c /\
    dev * num_engines_per_dev_ e <= c < (dev + 1) * num_engines_per_dev_ e /\ aget (engine_load_vec_ e) c = Some l /\
    forall i l', dev * num_engines_per_dev_ e <= i < (dev + 1) * num_engines_per_dev_ e ->
      aget (engine_load_vec_ e) i = Some l' -> l <= l'.
Proof.
  intros Hn Hd Hlen Hl. set (N := num_engines_per_dev_ e) in *. set (loads := engine_load_vec_ e) in *.
  destruct (scan_spec loads (seqZ (dev * N) N) (2 ^ 32 - 1) 0) as (m & c & Hscan & _ & Hall & Hc).
  { intros i Hi%elem_of_seqZ. apply aget_is_Some. nia. }
  assert (c ∈ seqZ (dev * N) N /\ aget loads c = Some m) as (Hcin%elem_of_seqZ & Hm).
  { destruct Hc as [E|?]; [|done]. injection E as -> ->. exfalso. destruct (aget_is_Some loads (dev * N)) as (l & Hl0); [nia|].
    pose proof (Forall_lookup_1 _ _ _ _ Hl Hl0) as Hl1. cbn beta in Hl1. pose proof (Hall (dev * N) l ltac:(apply elem_of_seqZ; lia) Hl0). lia. }
  assert (find_least_loaded_engine_idx dev e = Done c) as Hleast.
  { unfold find_least_loaded_engine_idx, find_first_engine_idx_on_dev. fold N loads. unfold scan in Hscan. by rewrite Hscan. }
  exists c, m. split; [done|]. split; [|split; [lia|split; [done|intros i l' Hi; apply Hall, elem_of_seqZ; lia]]].
  unfold find_pot_load_engine_idx. rewrite (bind_of _ _ c Hleast). pose proof (Z.mod_pos_bound rnd N Hn).
  assert (find_oblivious_engine_idx rnd dev e = dev * N + rnd mod N) as -> by done. fold loads.
  destruct (aget_is_Some loads (dev * N + rnd mod N)) as (l1 & Hl1); [nia|].
  rewrite (bind_of _ _ l1) by (by apply fetch_Done). rewrite (bind_of _ _ m) by (by apply fetch_Done).
  rewrite (proj2 (Z.ltb_ge l1 m)); [done|]. apply (Hall (dev * N + rnd mod N)); [apply elem_of_seqZ; lia|done].
Qed.

Lemma pot_is_least_loaded_witness : exists c l,
  find_least_loaded_engine_idx 1 (MkEp 2 [5; 0; 7; 4] [] []) = Done c /\ find_pot_load_engine_idx 12 1 (MkEp 2 [5; 0; 7; 4] [] []) = Done c /\
  aget [5; 0; 7; 4] c = Some l.
Proof.
  destruct (pot_is_least_loaded 12 1 (MkEp 2 [5; 0; 7; 4] [] [])) as (c & l & H1 & H2 & _ & H3 & _);
    [done|done|done|repeat constructor; done|by exists c, l].
Defined.

(** Round robin: the [k]-th of the engines chosen in turn. *)
Lemma rr_turns dev e k : 0 < num_engines_per_dev_ e < 2 ^ 32 -> 0 <= dev -> (dev + 1) * num_engines_per_dev_ e < 2 ^ 32 -> 0 <= k ->
  find_rr_engine_idx dev (k mod num_engines_per_dev_ e) e =
    (dev * num_engines_per_dev_ e + k mod num_engines_per_dev_ e, (k + 1) mod num_engines_per_dev_ e).
Proof.
  intros Hn Hd Hm Hk. pose proof (Z.mod_pos_bound k (num_engines_per_dev_ e) ltac:(lia)). unfold find_rr_engine_idx, find_first_engine_idx_on_dev.
  rewrite !wrap_id by (unfold in_word; nia). by rewrite Z.add_mod_idemp_l by lia.
Qed.

(** ** Requests that are not done *)

(** Under a load-based policy a poll that finds its request unfinished takes the
    request off its engine's load all the same. *)
Lemma poll_unfinished policy u s r l : load_based policy = true -> heap s !! u = Some r -> type r = ReqRx \/ type r = ReqTx ->
  aget (engine_load_vec_ (ep s)) (engine_idx r) = Some l ->
  uccl_poll_ureq_once policy (fun _ => false) [] u s =
    Done (false, with_ep (set_load (aset (engine_load_vec_ (ep s)) (engine_idx r) (l -[32] 1)) (ep s))
                   (if flow_cq_cnt_ (flow s) =? 0 then s
                    else with_flow (set_flow_cq_cnt_ (flow_cq_cnt_ (flow s) -[32] 0) (flow s)) s)).
Proof.
  intros Hp Hu Ht Hl. unfold uccl_poll_ureq_once, poll_flow_cq. rewrite Hp.
  destruct (flow_cq_cnt_ (flow s) =? 0); cbn [foldl]; rewrite !(bind_of (Done _) _ _ eq_refl); unfold load_req; cbn [heap with_flow]; rewrite Hu;
    rewrite !(bind_of (Done _) _ _ eq_refl); destruct Ht as [-> | ->]; cbn [uccl_poll_once]; rewrite !(bind_of (Done _) _ _ eq_refl);
    unfold dec_load_on_engine, fetch; cbn [ep with_flow]; by rewrite Hl.
Qed.

(** A flush of buffers that are all empty posts nothing and leaves its request
    as its last user left it. *)
Lemma flush_nothing bs u s : flow_cq_cnt_ (flow s) = 0 -> Forall (fun b => b_size b = 0) bs -> uccl_flush bs u [] s = Done (0, None, s).
Proof.
  intros Hc Hb. unfold uccl_flush, poll_flow_cq. rewrite Hc. cbn [Z.eqb]. rewrite (bind_of (Done _) _ _ eq_refl).
  assert (check_need_flush (map b_size bs) = -1) as ->; [|done]. unfold check_need_flush.
  assert (forall ids, foldl (fun last i => if default 0 (aget (map b_size bs) i) =? 0 then last else i) (-1) ids = -1) as ->; [|done].
  induction ids as [|i ids IH]; [done|]. cbn. destruct (aget (map b_size bs) i) as [z|] eqn:E; [|done]. cbn.
  assert (z = 0) as ->; [|done]. apply list_lookup_fmap_Some in E as (b & -> & Hbi). by apply (Forall_lookup_1 _ _ _ _ Hb Hbi).
Qed.

End EndpointOps.
