(* ===== verification/EpRing.v ===== *)
(** * The command ring of the expert-parallel proxy

    [TransferCmd] and [RingBuffer] of [ep/include/ring_buffer.cuh]: the ring
    through which GPU threads hand commands to a CPU proxy, with the bit mask of
    acknowledged slots from which the proxy moves the tail.  The mask is a list
    of 64-bit words; a read or write outside of it is a fault, as is a failed
    [assert].  [Capacity] is the template parameter. *)

From S2P Require Import Prelude.

Module EpRing.

(** ** Commands *)

(** [CmdType], an 8-bit enumeration with two flag bits. *)
Definition EMPTY : Z := 0.
Definition WRITE : Z := 1.
Definition ATOMIC : Z := 2.
Definition QUIET : Z := 3.
Definition BARRIER : Z := 4.

Definition make_cmd_type (cmd : Z) (is_combine low_latency : bool) : Z :=
  let v := if is_combine then Z.lor cmd (Z.shiftl 1 6) else cmd in
  if low_latency then Z.lor v (Z.shiftl 1 7) else v.
Definition get_is_combine (c : Z) : bool := negb (Z.land (Z.shiftr c 6) 1 =? 0).
Definition get_low_latency (c : Z) : bool := negb (Z.land (Z.shiftr c 7) 1 =? 0).
Definition get_base_cmd (c : Z) : Z := Z.land c 0x3F.

(** The unions are one field each: [req_lptr] or [value], [expert_idx] or
    [atomic_offset]. *)
Record TransferCmd := MkCmd {
  cmd_type : Z; dst_rank : Z; atomic_val : Z; bytes : Z; req_rptr : Z; req_lptr : Z; expert_idx : Z;
}.
Definition set_cmd_type (t : Z) (c : TransferCmd) : TransferCmd :=
  MkCmd t (dst_rank c) (atomic_val c) (bytes c) (req_rptr c) (req_lptr c) (expert_idx c).
Definition empty_cmd : TransferCmd := MkCmd 0 0 0 0 0 0 0.

Definition kLLExpertBits : Z := 10.
Definition kLLExpertMask : Z := Z.shiftl 1 kLLExpertBits - 1.
Definition kLLNumTokensBits : Z := 13.
Definition kLLNumTokensMax : Z := Z.shiftl 1 kLLNumTokensBits - 1.
Definition kLLNumTokensHighMask : Z := Z.shiftl 1 (kLLNumTokensBits - 8) - 1.

Definition pack_ll_expert_slot (expert num_tokens : Z) : Z :=
  wrap 16 (Z.lor (Z.land expert kLLExpertMask) (Z.shiftl (Z.land (Z.shiftr num_tokens 8) kLLNumTokensHighMask) kLLExpertBits)).
Definition unpack_ll_expert (slot : Z) : Z := Z.land slot kLLExpertMask.
Definition unpack_ll_num_tokens (slot av : Z) : Z :=
  Z.lor av (Z.shiftl (Z.land (Z.shiftr slot kLLExpertBits) kLLNumTokensHighMask) 8).

Definition get_write_addr_shift (low_latency : bool) : Z := if low_latency then 4 else 2.
Definition decode_write_offset (shifted : Z) (low_latency : bool) : Z :=
  wrap 64 (Z.shiftl shifted (get_write_addr_shift low_latency)).

(** ** The mask of acknowledged slots *)

Definition fetch {A} (l : list A) (i : Z) : result A :=
  match aget l i with Some x => Done x | None => Fail OutOfBounds end.
Definition ones64 : Z := 2 ^ 64 - 1.
(** [~x] of a 64-bit word. *)
Definition not64 (x : Z) : Z := Z.lxor x ones64.
(** [x << k] of a 64-bit word. *)
Definition shl64 (x k : Z) : Z := wrap 64 (Z.shiftl x k).

(** [__builtin_ctzll] of a word that is not zero. *)
Fixpoint pos_ctz (p : positive) : Z := match p with xO p => 1 + pos_ctz p | _ => 0 end.
Definition ctzll (x : Z) : Z := match x with Zpos p => pos_ctz p | _ => 0 end.

Section ring.
Context (Capacity : Z).

Definition kNumWords : Z := (Capacity + 63) / 64.

Definition mark_acked (i : Z) (m : list Z) : result (list Z) :=
  _ ← check (i <? Capacity);
  w ← fetch m (Z.shiftr i 6);
  Done (aset m (Z.shiftr i 6) (Z.lor w (shl64 1 (Z.land i 63)))).

Definition clear_acked (i : Z) (m : list Z) : result (list Z) :=
  _ ← check (i <? Capacity);
  w ← fetch m (Z.shiftr i 6);
  Done (aset m (Z.shiftr i 6) (Z.land w (not64 (shl64 1 (Z.land i 63))))).

Definition is_acked (i : Z) (m : list Z) : result bool :=
  _ ← check (i <? Capacity);
  w ← fetch m (Z.shiftr i 6);
  Done (negb (Z.land (Z.shiftr w (Z.land i 63)) 1 =? 0)).

(** [(span == 64) ? ~0ull : ((1ull << span) - 1)] *)
Definition range_mask (span : Z) : Z := if span =? 64 then ones64 else shl64 1 span - 1.

(** The scan of the words after the first one; there are [fuel] of them at most. *)
Fixpoint next_word (fuel : nat) (word : Z) (m : list Z) : result Z :=
  match fuel with
  | O => Done Capacity
  | S fuel =>
      if kNumWords <=? word then Done Capacity
      else
      let start := Z.shiftl word 6 in
      let valid := if start <? Capacity then Z.min 64 (Capacity - start) else 0 in
      if valid =? 0 then Done Capacity
      else
      w ← fetch m word;
      let msk := range_mask valid in
      let blk := Z.land w msk in
      if blk =? msk then next_word fuel (word + 1) m
      else Done (start + ctzll (Z.land (not64 blk) msk))
  end.

Definition next_unacked (start_idx : Z) (m : list Z) : result Z :=
  if Capacity <=? start_idx then Done Capacity
  else
  let word := Z.shiftr start_idx 6 in
  let bit := Z.land start_idx 63 in
  let remaining := Capacity - start_idx in
  let span := if remaining <? 64 - bit then remaining else 64 - bit in
  w ← fetch m word;
  let rm := range_mask span in
  let slice := Z.land (Z.shiftr w bit) rm in
  let inv := Z.land (not64 slice) rm in
  if negb (inv =? 0) then Done (start_idx + ctzll inv)
  else next_word (Z.to_nat kNumWords) (word + 1) m.

(** [ack_mask[w] &= ~mask] *)
Definition clear_bits (w mask : Z) (m : list Z) : result (list Z) :=
  x ← fetch m w; Done (aset m w (Z.land x (not64 mask))).

Definition clear_acked_range (start stop : Z) (m : list Z) : result (list Z) :=
  if stop <=? start then Done m
  else if Capacity <=? start then Done m
  else
  _ ← check (stop <=? Capacity);
  let start_word := Z.shiftr start 6 in
  let end_word := Z.shiftr (stop - 1) 6 in
  if start_word =? end_word then
    clear_bits start_word (shl64 (Z.shiftr ones64 (64 - (stop - start))) (Z.land start 63)) m
  else
  '(start_word, m) ← (if negb (Z.land start 63 =? 0) then
                        m ← clear_bits start_word (shl64 ones64 (Z.land start 63)) m; Done (start_word + 1, m)
                      else Done (start_word, m));
  let m := foldl (fun m w => aset m w 0) m (seqZ start_word (end_word - start_word)) in
  if negb (Z.land stop 63 =? 0) then clear_bits end_word (Z.shiftr ones64 (64 - Z.land stop 63)) m
  else _ ← fetch m end_word; Done (aset m end_word 0).

(** The tail and the mask after it. *)
Definition advance_tail_from_mask (tail : Z) (m : list Z) : result (Z * list Z) :=
  let local := tail mod Capacity in
  next0 ← next_unacked local m;
  if next0 =? Capacity then
    if negb (local =? 0) then
      m ← clear_acked_range local Capacity m;
      let tail := tail +[64] (Capacity - local) in
      wrap0 ← next_unacked 0 m;
      if (0 <? wrap0) && (wrap0 <=? local) then
        m ← clear_acked_range 0 wrap0 m; Done (tail +[64] wrap0, m)
      else Done (tail, m)
    else Done (tail, m)
  else if local <? next0 then
    m ← clear_acked_range local next0 m; Done (tail +[64] (next0 - local), m)
  else Done (tail, m).

(** ** The ring as a queue of one producer and one consumer *)

Record ring (T : Type) := MkRing { head : Z; tail : Z; buf : list T }.
#[global] Arguments MkRing {T} _ _ _.
#[global] Arguments head {T} _.
#[global] Arguments tail {T} _.
#[global] Arguments buf {T} _.

Definition mask : Z := Capacity - 1.

Section queue.
Context {T : Type}.
Implicit Types r : ring T.

Definition full r : bool := head r -[64] tail r =? Capacity.
Definition empty r : bool := head r =? tail r.

(** The parameter of [commit_with_head] is an [int]. *)
Definition commit_with_head (new_head : Z) r : ring T := MkRing (wrap 64 (signed 32 (wrap 32 new_head))) (tail r) (buf r).

Definition push (x : T) r : bool * ring T :=
  if full r then (false, r)
  else (true, commit_with_head (head r +[64] 1) (MkRing (head r) (tail r) (aset (buf r) (Z.land (head r) mask) x))).

Definition pop r : option T * ring T :=
  if empty r then (None, r) else (aget (buf r) (Z.land (tail r) mask), MkRing (head r) (tail r +[64] 1) (buf r)).

End queue.
End ring.
End EpRing.
