(* ===== verification/EpRingSpec.v ===== *)
(** * The mask of the command ring

    The word-at-a-time routines of [EpRing.v] against a set of slots: the scan
    finds the first slot that is not acknowledged, the range is cleared exactly,
    and the tail moves over the longest run of acknowledged slots
    ([next_unacked_spec], [clear_acked_range_spec], [tail_advances]); except when the
    whole ring is acknowledged and the tail is at slot 0, where it stays
    ([tail_stuck_when_all_acked]).  Then the ring as a queue, and where its
    [int] head ends ([push_holds], [pop_holds], [ring_head_overflows]). *)

From S2P Require Import Prelude EpRing.

Module EpRingSpec.
Import EpRing.

(** ** Words *)

Lemma shiftr6 i : Z.shiftr i 6 = i / 64.
Proof. by rewrite Z.shiftr_div_pow2. Qed.

Lemma land63 i : Z.land i 63 = i mod 64.
Proof. apply (land_mask i 6). lia. Qed.

Lemma ones64_eq : ones64 = Z.ones 64.
Proof. done. Qed.

Lemma word_bits w x : 0 <= w -> 0 <= x -> (forall i, w <= i -> Z.testbit x i = false) -> in_word w x.
Proof.
  intros Hw Hx Hb. split; [done|]. destruct (decide (x = 0)) as [->|]; [by apply pow2_pos|].
  apply Z.log2_lt_pow2; [lia|]. apply Z.nle_gt. intros Hle. pose proof (Z.bit_log2 x ltac:(lia)). rewrite Hb in *; done.
Qed.

Lemma bits_word w x i : 0 <= w -> in_word w x -> w <= i -> Z.testbit x i = false.
Proof.
  intros Hw [H0 Hx] Hi. destruct (decide (x = 0)) as [->|]; [apply Z.testbit_0_l|]. apply Z.bits_above_log2; [done|].
  enough (Z.log2 x < w) by lia. apply Z.log2_lt_pow2; lia.
Qed.

Lemma testbit_ones_in n i : 0 <= n -> 0 <= i -> Z.testbit (Z.ones n) i = (i <? n).
Proof. intros. rewrite Z.testbit_ones_nonneg by lia. done. Qed.

Lemma testbit_not64 x i : 0 <= i < 64 -> Z.testbit (not64 x) i = negb (Z.testbit x i).
Proof. intros Hi. unfold not64. rewrite Z.lxor_spec, ones64_eq, testbit_ones_in by lia. rewrite (proj2 (Z.ltb_lt i 64)) by lia. apply xorb_true_r. Qed.

Lemma not64_word x : in_word 64 x -> in_word 64 (not64 x).
Proof.
  intros Hx. apply word_bits; [lia|apply Z.lxor_nonneg; split; intros; [done|apply Hx]|]. intros i Hi. unfold not64.
  rewrite Z.lxor_spec, ones64_eq, testbit_ones_in, (bits_word 64 x) by (lia || done). rewrite (proj2 (Z.ltb_ge i 64)) by lia. done.
Qed.

Lemma land_word x y : in_word 64 x -> 0 <= y -> in_word 64 (Z.land x y).
Proof.
  intros Hx Hy. apply word_bits; [lia|apply Z.land_nonneg; left; apply Hx|]. intros i Hi.
  by rewrite Z.land_spec, (bits_word 64 x) by (lia || done).
Qed.

Lemma lor_word x y : in_word 64 x -> in_word 64 y -> in_word 64 (Z.lor x y).
Proof.
  intros Hx Hy. apply word_bits; [lia|apply Z.lor_nonneg; split; [apply Hx|apply Hy]|]. intros i Hi.
  by rewrite Z.lor_spec, (bits_word 64 x), (bits_word 64 y) by (lia || done).
Qed.

Lemma testbit_shl64 x k i : 0 <= k -> 0 <= i < 64 -> Z.testbit (shl64 x k) i = Z.testbit x (i - k).
Proof. intros Hk Hi. unfold shl64, wrap. rewrite Z.mod_pow2_bits_low by lia. apply Z.shiftl_spec. lia. Qed.

Lemma shl64_word x k : in_word 64 (shl64 x k).
Proof. apply wrap_range. lia. Qed.

Lemma range_mask_ones span : 0 <= span <= 64 -> range_mask span = Z.ones span.
Proof.
  intros Hs. unfold range_mask. destruct (Z.eqb_spec span 64) as [->|Hne]; [done|].
  unfold shl64. rewrite Z.shiftl_1_l, wrap_id; [rewrite Z.ones_equiv; lia|]. split; [apply Z.pow_nonneg; lia|].
  apply Z.pow_lt_mono_r; lia.
Qed.

Lemma ctzll_spec x : 0 < x -> 0 <= ctzll x /\ Z.testbit x (ctzll x) = true /\ forall j, 0 <= j < ctzll x -> Z.testbit x j = false.
Proof.
  destruct x as [|p|p]; try lia. intros _. cbn [ctzll]. induction p as [p IH|p IH|].
  - split; [done|]. split; [done|]. cbn. lia.
  - destruct IH as (H0 & H1 & H2). cbn [pos_ctz]. change (Zpos p~0) with (2 * Zpos p). split; [lia|]. split.
    + replace (1 + pos_ctz p) with (Z.succ (pos_ctz p)) by lia. by rewrite Z.testbit_even_succ.
    + intros j Hj. destruct (decide (j = 0)) as [->|]; [apply Z.testbit_even_0|].
      replace j with (Z.succ (j - 1)) by lia. rewrite Z.testbit_even_succ by lia. apply H2. lia.
  - split; [done|]. split; [done|]. cbn. lia.
Qed.

(** What is missing of a slice of a word: [inv] of [next_unacked]. *)
Definition missing (w bit span : Z) : Z := Z.land (not64 (Z.land (Z.shiftr w bit) (Z.ones span))) (Z.ones span).

Lemma testbit_missing w bit span j : 0 <= bit -> 0 <= span <= 64 -> 0 <= j ->
  Z.testbit (missing w bit span) j = negb (Z.testbit w (bit + j)) && (j <? span).
Proof.
  intros Hb Hs Hj. unfold missing. rewrite Z.land_spec, testbit_ones_in by lia. destruct (Z.ltb_spec j span); [|by rewrite !andb_false_r].
  rewrite testbit_not64, Z.land_spec, Z.shiftr_spec, testbit_ones_in by lia. rewrite (proj2 (Z.ltb_lt j span)) by lia.
  by rewrite !andb_true_r, Z.add_comm.
Qed.

Lemma missing_none w bit span : 0 <= bit -> 0 <= span <= 64 -> missing w bit span = 0 ->
  forall j, 0 <= j < span -> Z.testbit w (bit + j) = true.
Proof.
  intros Hb Hs H0 j Hj. pose proof (testbit_missing w bit span j Hb Hs ltac:(lia)) as E. rewrite H0, Z.testbit_0_l in E.
  rewrite (proj2 (Z.ltb_lt j span)), andb_true_r in E by lia. by destruct (Z.testbit w (bit + j)).
Qed.

Lemma missing_some w bit span : 0 <= bit -> 0 <= span <= 64 -> missing w bit span <> 0 ->
  let c := ctzll (missing w bit span) in
  0 <= c < span /\ Z.testbit w (bit + c) = false /\ forall j, 0 <= j < c -> Z.testbit w (bit + j) = true.
Proof.
  intros Hb Hs H0 c. assert (0 <= missing w bit span) as Hn by (apply Z.land_nonneg; right; rewrite Z.ones_equiv; pose proof (pow2_pos span); lia).
  destruct (ctzll_spec (missing w bit span)) as (Hc0 & Hc1 & Hc2); [lia|]. fold c in Hc0, Hc1, Hc2.
  rewrite testbit_missing in Hc1 by lia. apply andb_true_iff in Hc1 as (Hw%negb_true_iff & Hlt%Z.ltb_lt). split; [lia|]. split; [done|].
  intros j Hj. specialize (Hc2 j Hj). rewrite testbit_missing in Hc2 by lia. rewrite (proj2 (Z.ltb_lt j span)), andb_true_r in Hc2 by lia.
  by apply negb_false_iff in Hc2.
Qed.

Lemma full_block w span : 0 <= span <= 64 -> Z.land w (Z.ones span) = Z.ones span <-> missing w 0 span = 0.
Proof.
  intros Hs. split; intros H.
  - unfold missing. rewrite Z.shiftr_0_r, H. apply Z.bits_inj'. intros i Hi. rewrite Z.land_spec, testbit_ones_in, Z.testbit_0_l by lia.
    destruct (Z.ltb_spec i span); [|apply andb_false_r]. rewrite testbit_not64, testbit_ones_in by lia.
    by rewrite (proj2 (Z.ltb_lt i span)) by lia.
  - apply Z.bits_inj'. intros i Hi. rewrite Z.land_spec, testbit_ones_in by lia. destruct (Z.ltb_spec i span); [|apply andb_false_r].
    rewrite andb_true_r. by apply (missing_none w 0 span ltac:(lia) Hs H i).
Qed.

(** ** The mask as a set of slots *)

Lemma fetch_ok {A} (l : list A) i x : fetch l i = Done x <-> aget l i = Some x.
Proof. unfold fetch. destruct (aget l i); split; intros; simplify_eq; done. Qed.

Lemma done_bind {A B} (m : result A) (k : A -> result B) a : m = Done a -> (x ← m; k x) = k a.
Proof. by intros ->. Qed.

Definition acked (m : list Z) (i : Z) : bool :=
  match aget m (i / 64) with Some w => Z.testbit w (i mod 64) | None => false end.

Section mask.
Context (Capacity : Z) (Hcap : 0 < Capacity).
Abbreviation words := (kNumWords Capacity).

Record mask_ok (m : list Z) : Prop := {
  mk_len : alen m = words;
  mk_words : Forall (in_word 64) m;
}.

Lemma words_bound i : 0 <= i < Capacity -> 0 <= i / 64 < words.
Proof. intros Hi. unfold kNumWords. split; [apply Z.div_pos; lia|]. apply Z.div_lt_upper_bound; [lia|].
  pose proof (Z.div_mod (Capacity + 63) 64 ltac:(lia)). pose proof (Z.mod_pos_bound (Capacity + 63) 64 ltac:(lia)). lia. Qed.

Lemma word_at m k : mask_ok m -> 0 <= k < words -> exists w, aget m k = Some w /\ in_word 64 w.
Proof.
  intros M Hk. destruct (aget_is_Some m k) as (w & Hw); [by rewrite (mk_len m M)|]. exists w. split; [done|].
  apply (Forall_lookup_1 _ _ _ _ (mk_words m M) Hw).
Qed.

Lemma aset_ok m k w : mask_ok m -> in_word 64 w -> mask_ok (aset m k w).
Proof. intros [Hl Hw] H. constructor; [by rewrite alen_aset|]. by apply Forall_insert. Qed.

Lemma acked_aset m k w i : mask_ok m -> 0 <= k < words -> 0 <= i ->
  acked (aset m k w) i = if decide (i / 64 = k) then Z.testbit w (i mod 64) else acked m i.
Proof.
  intros M Hk Hi. unfold acked. pose proof (Z.div_pos i 64 Hi ltac:(lia)). case_decide as E.
  - rewrite E, aget_aset_eq; [done|]. by rewrite (mk_len m M).
  - by rewrite aget_aset_ne by lia.
Qed.

(** [r] is the first slot from [s] on that is not acknowledged. *)
Definition first_unacked (m : list Z) (s r : Z) : Prop :=
  s <= r <= Capacity /\ (forall i, s <= i < r -> acked m i = true) /\ (r < Capacity -> acked m r = false).

Lemma acked_word m k w j : aget m k = Some w -> 0 <= j < 64 -> acked m (64 * k + j) = Z.testbit w j.
Proof.
  intros Hw Hj. unfold acked. replace ((64 * k + j) / 64) with k by (apply (Z.div_unique_pos _ _ _ j); lia).
  replace ((64 * k + j) mod 64) with j by (apply (Z.mod_unique_pos _ _ k); lia). by rewrite Hw.
Qed.

(** Scanning [span] bits of word [k] from [bit] on. *)
Lemma scan_word m k w bit span (next : result Z) r : aget m k = Some w -> 0 <= bit -> 0 < span -> bit + span <= 64 ->
  64 * k + bit + span <= Capacity ->
  (missing w bit span = 0 -> next = Done r -> first_unacked m (64 * k + bit + span) r) ->
  (if negb (missing w bit span =? 0) then Done (64 * k + bit + ctzll (missing w bit span)) else next) = Done r ->
  first_unacked m (64 * k + bit) r.
Proof.
  intros Hw Hb Hs Hbs Hc Hnext H. destruct (Z.eqb_spec (missing w bit span) 0) as [E|E]; cbn [negb] in H.
  - destruct (Hnext E H) as (H1 & H2 & H3). split_and!; [lia|lia| |done]. intros i Hi.
    destruct (decide (i < 64 * k + bit + span)); [|apply H2; lia]. replace i with (64 * k + (i - 64 * k)) by lia.
    rewrite (acked_word m k w) by (done || lia). replace (i - 64 * k) with (bit + (i - 64 * k - bit)) by lia.
    apply (missing_none w bit span); lia.
  - injection H as <-. destruct (missing_some w bit span ltac:(lia) ltac:(lia) E) as (H1 & H2 & H3). split_and!; [lia|lia| |].
    + intros i Hi. replace i with (64 * k + (i - 64 * k)) by lia. rewrite (acked_word m k w) by (done || lia).
      replace (i - 64 * k) with (bit + (i - 64 * k - bit)) by lia. apply H3. lia.
    + intros _. rewrite <- Z.add_assoc, (acked_word m k w) by (done || lia). done.
Qed.

Lemma next_word_spec m : mask_ok m -> forall fuel word, 0 <= word -> words - word <= Z.of_nat fuel ->
  exists r, next_word Capacity fuel word m = Done r /\ first_unacked m (Z.min (64 * word) Capacity) r.
Proof.
  intros M. assert (forall word, words <= word -> first_unacked m (Z.min (64 * word) Capacity) Capacity) as Hend.
  { intros word Hw. assert (Capacity <= 64 * word).
    { unfold kNumWords in Hw. pose proof (Z.div_mod (Capacity + 63) 64 ltac:(lia)). pose proof (Z.mod_pos_bound (Capacity + 63) 64 ltac:(lia)). lia. }
    rewrite Z.min_r by lia. split_and!; [lia|lia|intros i Hi; lia|lia]. }
  induction fuel as [|fuel IH]; intros word H0 Hf; cbn [next_word].
  { exists Capacity. split; [done|]. apply Hend. lia. }
  destruct (Z.leb_spec words word) as [Hle|Hlt]; [exists Capacity; split; [done|by apply Hend]|].
  assert (64 * word < Capacity) as Hst.
  { unfold kNumWords in Hlt. pose proof (Z.div_mod (Capacity + 63) 64 ltac:(lia)). pose proof (Z.mod_pos_bound (Capacity + 63) 64 ltac:(lia)). lia. }
  rewrite Z.shiftl_mul_pow2 by lia. change (2 ^ 6) with 64. rewrite (Z.mul_comm word). rewrite (proj2 (Z.ltb_lt _ _) Hst).
  set (valid := Z.min 64 (Capacity - 64 * word)). rewrite (proj2 (Z.eqb_neq valid 0)) by lia.
  destruct (word_at m word M ltac:(lia)) as (w & Hw & _). rewrite (done_bind _ _ w) by (by apply fetch_ok).
  rewrite range_mask_ones by lia. destruct (IH (word + 1)) as (r' & Hr' & Hf'); [lia|lia|].
  exists (if negb (missing w 0 valid =? 0) then 64 * word + ctzll (missing w 0 valid) else r').
  assert (Z.land w (Z.ones valid) =? Z.ones valid = (missing w 0 valid =? 0)) as ->.
  { apply eq_true_iff_eq. rewrite !Z.eqb_eq. apply full_block. lia. }
  assert (Z.land (not64 (Z.land w (Z.ones valid))) (Z.ones valid) = missing w 0 valid) as -> by (unfold missing; by rewrite Z.shiftr_0_r).
  split; [by destruct (missing w 0 valid =? 0)|]. rewrite Z.min_l by lia. rewrite <- (Z.add_0_r (64 * word)) at 1.
  eapply (scan_word m word w 0 valid (Done r')); [done|lia|lia|lia|lia| |].
  - intros E _. rewrite E. cbn [Z.eqb negb]. replace (64 * word + 0 + valid) with (Z.min (64 * (word + 1)) Capacity) by lia. done.
  - rewrite Z.add_0_r. by destruct (missing w 0 valid =? 0).
Qed.

(** [next_unacked] finds the first slot from [start] on that is not acknowledged. *)
Lemma next_unacked_spec m start : mask_ok m -> 0 <= start -> start <= Capacity ->
  exists r, next_unacked Capacity start m = Done r /\ first_unacked m start r.
Proof.
  intros M H0 Hle. unfold next_unacked. destruct (Z.leb_spec Capacity start) as [Hc|Hc].
  { exists Capacity. split; [done|]. split_and!; [lia|lia|intros i Hi; lia|lia]. }
  rewrite shiftr6, land63. pose proof (Z.div_mod start 64 ltac:(lia)) as Hd. pose proof (Z.mod_pos_bound start 64 ltac:(lia)) as Hm.
  destruct (word_at m (start / 64) M) as (w & Hw & _); [apply words_bound; lia|]. rewrite (done_bind _ _ w) by (by apply fetch_ok).
  set (k := start / 64) in *. set (bit := start mod 64) in *.
  set (span := if Capacity - start <? 64 - bit then Capacity - start else 64 - bit).
  assert (0 < span /\ bit + span <= 64 /\ start + span <= Capacity /\ (bit + span = 64 \/ start + span = Capacity)) as (Hs1 & Hs2 & Hs3 & Hs4).
  { unfold span. destruct (Z.ltb_spec (Capacity - start) (64 - bit)); lia. }
  rewrite range_mask_ones by lia. fold (missing w bit span).
  destruct (next_word_spec m M (Z.to_nat words) (k + 1)) as (r' & Hr' & Hf').
  { pose proof (words_bound start ltac:(lia)). lia. }
  { pose proof (words_bound start ltac:(lia)). lia. }
  exists (if negb (missing w bit span =? 0) then start + ctzll (missing w bit span) else r').
  split; [rewrite Hr'; by destruct (missing w bit span =? 0)|]. replace start with (64 * k + bit) at 1 by lia.
  eapply (scan_word m k w bit span (Done r')); [done|lia|lia|lia|lia| |].
  - intros E _. rewrite E. cbn [Z.eqb negb]. replace (64 * k + bit + span) with (Z.min (64 * (k + 1)) Capacity) by lia. done.
  - replace (64 * k + bit) with start by lia. by destruct (missing w bit span =? 0).
Qed.

(** ** Setting and clearing *)

Lemma mark_acked_spec m i : mask_ok m -> 0 <= i < Capacity ->
  exists m', mark_acked Capacity i m = Done m' /\ mask_ok m' /\ forall j, 0 <= j -> acked m' j = acked m j || (j =? i).
Proof.
  intros M Hi. unfold mark_acked. rewrite (proj2 (Z.ltb_lt i Capacity)) by lia. cbn [check]. rewrite (done_bind (Done tt) _ tt) by done.
  rewrite shiftr6, land63. pose proof (words_bound i Hi) as Hw. destruct (word_at m (i / 64) M Hw) as (w & Ew & Ww).
  rewrite (done_bind _ _ w) by (by apply fetch_ok). eexists. split; [done|]. split; [apply aset_ok; [done|]; apply lor_word; [done|apply shl64_word]|].
  intros j Hj. rewrite acked_aset by done. pose proof (Z.mod_pos_bound i 64 ltac:(lia)). pose proof (Z.mod_pos_bound j 64 ltac:(lia)).
  pose proof (Z.div_mod i 64 ltac:(lia)). pose proof (Z.div_mod j 64 ltac:(lia)). case_decide as E.
  - rewrite Z.lor_spec, testbit_shl64 by lia. unfold acked. rewrite E, Ew. f_equal.
    change 1 with (2 ^ 0). rewrite Z.pow2_bits_eqb by lia. apply eq_true_iff_eq. rewrite !Z.eqb_eq. lia.
  - assert (j <> i) as Hne by congruence. by rewrite (proj2 (Z.eqb_neq j i) Hne), orb_false_r.
Qed.

Lemma clear_bits_spec m k mk : mask_ok m -> 0 <= k < words -> in_word 64 mk ->
  exists m', clear_bits k mk m = Done m' /\ mask_ok m' /\
    forall i, 0 <= i -> acked m' i = acked m i && negb ((i / 64 =? k) && Z.testbit mk (i mod 64)).
Proof.
  intros M Hk Hm. unfold clear_bits. destruct (word_at m k M Hk) as (w & Ew & Ww). rewrite (done_bind _ _ w) by (by apply fetch_ok).
  eexists. split; [done|]. split; [apply aset_ok; [done|]; apply land_word; [done|]; apply (not64_word _ Hm)|].
  intros i Hi. rewrite acked_aset by done. pose proof (Z.mod_pos_bound i 64 ltac:(lia)). case_decide as E.
  - rewrite Z.land_spec, testbit_not64, (proj2 (Z.eqb_eq _ _) E) by lia. unfold acked. by rewrite E, Ew.
  - by rewrite (proj2 (Z.eqb_neq _ _) E), andb_true_r.
Qed.

Lemma clear_words_spec l : forall m, mask_ok m -> Forall (fun k => 0 <= k < words) l ->
  mask_ok (foldl (fun m w => aset m w 0) m l) /\
  forall i, 0 <= i -> acked (foldl (fun m w => aset m w 0) m l) i = acked m i && negb (bool_decide (i / 64 ∈ l)).
Proof.
  induction l as [|k l IH]; intros m M Hl; cbn [foldl].
  - split; [done|]. intros i Hi. by rewrite andb_true_r.
  - apply Forall_cons_1 in Hl as (Hk & Hl). destruct (IH (aset m k 0)) as (M' & Hb); [apply aset_ok; [done|word_lia]|done|].
    split; [done|]. intros i Hi. rewrite Hb, acked_aset by done. case_decide as E.
    + rewrite Z.testbit_0_l. rewrite (bool_decide_true (i / 64 ∈ k :: l)) by (apply elem_of_cons; by left). by rewrite andb_false_r.
    + f_equal. f_equal. apply bool_decide_ext. set_solver.
Qed.

Definition in_range (a b i : Z) : bool := (a <=? i) && (i <? b).

Lemma shiftr_ones64 n : 0 <= n <= 64 -> Z.shiftr ones64 (64 - n) = Z.ones n.
Proof.
  intros Hn. apply Z.bits_inj'. intros i Hi. rewrite Z.shiftr_spec, ones64_eq, !testbit_ones_in by lia.
  apply eq_true_iff_eq. rewrite !Z.ltb_lt. lia.
Qed.

Lemma ones_word n : 0 <= n <= 64 -> in_word 64 (Z.ones n).
Proof. intros Hn. rewrite Z.ones_equiv. pose proof (Z.pow_le_mono_r 2 n 64). pose proof (pow2_pos n). unfold in_word. lia. Qed.

Lemma in_range_iff a b i : in_range a b i = true <-> a <= i < b.
Proof. unfold in_range. rewrite andb_true_iff, Z.leb_le, Z.ltb_lt. lia. Qed.

Definition cleared (m m' : list Z) (a b : Z) : Prop :=
  mask_ok m' /\ forall i, 0 <= i -> acked m' i = acked m i && negb (in_range a b i).

Lemma cleared_none m a b : mask_ok m -> b <= a -> cleared m m a b.
Proof.
  intros M Hba. split; [done|]. intros i Hi. assert (in_range a b i = false) as ->; [|by rewrite andb_true_r].
  apply not_true_iff_false. rewrite in_range_iff. lia.
Qed.

Lemma cleared_trans m1 m2 m3 a b c : a <= b <= c -> cleared m1 m2 a b -> cleared m2 m3 b c -> cleared m1 m3 a c.
Proof.
  intros Hab (_ & H2) (M3 & H3). split; [done|]. intros i Hi. rewrite H3, H2 by done. rewrite <- andb_assoc, <- negb_orb. do 2 f_equal.
  apply eq_true_iff_eq. rewrite orb_true_iff, !in_range_iff. lia.
Qed.

(** Clearing a run of bits within one word. *)
Lemma clear_within m a b mk : mask_ok m -> 0 <= a < b -> b <= 64 * (a / 64) + 64 -> a / 64 < words -> in_word 64 mk ->
  (forall j, 0 <= j < 64 -> Z.testbit mk j = in_range (a mod 64) (a mod 64 + (b - a)) j) ->
  exists m', clear_bits (a / 64) mk m = Done m' /\ cleared m m' a b.
Proof.
  intros M Ha Hb Hw Hmk Hbits. pose proof (Z.div_pos a 64 ltac:(lia) ltac:(lia)).
  destruct (clear_bits_spec m (a / 64) mk M ltac:(lia) Hmk) as (m' & H1 & M' & H2). exists m'. split; [done|]. split; [done|].
  intros i Hi. rewrite H2 by done. do 2 f_equal. pose proof (Z.mod_pos_bound i 64 ltac:(lia)). rewrite Hbits by lia.
  pose proof (Z.div_mod i 64 ltac:(lia)). pose proof (Z.div_mod a 64 ltac:(lia)). pose proof (Z.mod_pos_bound a 64 ltac:(lia)).
  apply eq_true_iff_eq. rewrite andb_true_iff, !in_range_iff, Z.eqb_eq. split; [lia|]. intros Hr.
  assert (i / 64 = a / 64) by (apply Z.le_antisymm; nia). lia.
Qed.

Lemma clear_middle m k e : mask_ok m -> 0 <= k <= e -> e <= words ->
  cleared m (foldl (fun m w => aset m w 0) m (seqZ k (e - k))) (64 * k) (64 * e).
Proof.
  intros M Hk He. destruct (clear_words_spec (seqZ k (e - k)) m M) as (M' & H').
  { apply Forall_forall. intros j Hj%elem_of_seqZ. lia. }
  split; [done|]. intros i Hi. rewrite H' by done. do 2 f_equal. pose proof (Z.div_mod i 64 ltac:(lia)). pose proof (Z.mod_pos_bound i 64 ltac:(lia)).
  apply eq_true_iff_eq. rewrite bool_decide_eq_true, elem_of_seqZ, in_range_iff. lia.
Qed.

Lemma testbit_run n s j : 0 <= n -> 0 <= s -> s + n <= 64 -> 0 <= j < 64 -> Z.testbit (shl64 (Z.ones n) s) j = in_range s (s + n) j.
Proof.
  intros Hn Hs Hns Hj. rewrite testbit_shl64 by lia. apply eq_true_iff_eq. rewrite in_range_iff. destruct (decide (s <= j)).
  - rewrite testbit_ones_in, Z.ltb_lt by lia. lia.
  - rewrite Z.testbit_neg_r by lia. split; [done|lia].
Qed.

Lemma testbit_high s j : 0 <= s < 64 -> 0 <= j < 64 -> Z.testbit (shl64 ones64 s) j = in_range s 64 j.
Proof.
  intros Hs Hj. rewrite testbit_shl64 by lia. apply eq_true_iff_eq. rewrite in_range_iff. destruct (decide (s <= j)).
  - rewrite ones64_eq, testbit_ones_in, Z.ltb_lt by lia. lia.
  - rewrite Z.testbit_neg_r by lia. split; [done|lia].
Qed.

Lemma clear_last m e b : mask_ok m -> 0 <= e < words -> 64 * e < b <= 64 * e + 64 ->
  exists m', (if negb (b mod 64 =? 0) then clear_bits e (Z.shiftr ones64 (64 - b mod 64)) m
              else _ ← fetch m e; Done (aset m e 0)) = Done m' /\ cleared m m' (64 * e) b.
Proof.
  intros M He Hb. pose proof (Z.div_mod b 64 ltac:(lia)) as Db. pose proof (Z.mod_pos_bound b 64 ltac:(lia)) as Mb.
  assert ((64 * e) / 64 = e) as E1 by (rewrite Z.mul_comm; by apply Z.div_mul).
  assert ((64 * e) mod 64 = 0) as E2 by (rewrite Z.mul_comm; by apply Z.mod_mul).
  destruct (Z.eqb_spec (b mod 64) 0) as [E|E]; cbn [negb].
  - destruct (word_at m e M He) as (w & Hw & _). rewrite (done_bind _ _ w) by (by apply fetch_ok). eexists. split; [done|].
    assert (b = 64 * (e + 1)) as -> by nia. pose proof (clear_middle m e (e + 1) M ltac:(lia) ltac:(lia)) as Hc.
    by replace (e + 1 - e) with 1 in Hc by lia.
  - rewrite shiftr_ones64 by lia. destruct (clear_within m (64 * e) b (Z.ones (b mod 64)) M) as (m' & H1 & H2); rewrite ?E1, ?E2; [lia|lia|lia| | |].
    + apply ones_word. lia.
    + intros j Hj. rewrite testbit_ones_in by lia. apply eq_true_iff_eq. rewrite Z.ltb_lt, in_range_iff. nia.
    + rewrite E1 in H1. by exists m'.
Qed.

(** [clear_acked_range] clears the slots of the range and no other. *)
Lemma clear_acked_range_spec m a b : mask_ok m -> 0 <= a -> b <= Capacity ->
  exists m', clear_acked_range Capacity a b m = Done m' /\ cleared m m' a b.
Proof.
  intros M Ha Hb. unfold clear_acked_range. destruct (Z.leb_spec b a) as [Hba|Hab]; [exists m; split; [done|by apply cleared_none]|].
  rewrite (proj2 (Z.leb_gt Capacity a)) by lia. rewrite (proj2 (Z.leb_le b Capacity)) by lia. rewrite (done_bind _ _ tt) by done.
  rewrite !shiftr6, !land63.
  pose proof (Z.div_mod a 64 ltac:(lia)) as Da. pose proof (Z.mod_pos_bound a 64 ltac:(lia)) as Ma.
  pose proof (Z.div_mod (b - 1) 64 ltac:(lia)) as De. pose proof (Z.mod_pos_bound (b - 1) 64 ltac:(lia)) as Me.
  pose proof (words_bound a ltac:(lia)) as Wa. pose proof (words_bound (b - 1) ltac:(lia)) as We.
  destruct (Z.eqb_spec (a / 64) ((b - 1) / 64)) as [E|E].
  { rewrite shiftr_ones64 by lia. apply clear_within; [done|lia|lia|lia|apply shl64_word|]. intros j Hj. apply testbit_run; lia. }
  assert (a / 64 < (b - 1) / 64) as Hlt by (pose proof (Z.div_le_mono a (b - 1) 64); lia).
  destruct (Z.eqb_spec (a mod 64) 0) as [Ea|Ea]; cbn [negb].
  - rewrite (done_bind _ _ (a / 64, m)) by done. pose proof (clear_middle m (a / 64) ((b - 1) / 64) M ltac:(lia) ltac:(lia)) as Hm.
    destruct (clear_last _ ((b - 1) / 64) b (proj1 Hm) We ltac:(lia)) as (m' & H1 & H2). exists m'. split; [done|].
    replace a with (64 * (a / 64)) at 1 by lia. by eapply cleared_trans; [|done|done]; lia.
  - destruct (clear_within m a (64 * (a / 64) + 64) (shl64 ones64 (a mod 64)) M) as (m1 & H1 & C1);
      [lia|lia|lia|apply shl64_word|intros j Hj; rewrite testbit_high by lia; f_equal; lia|].
    rewrite H1. rewrite (done_bind (Done m1) _ m1) by done. rewrite (done_bind _ _ (a / 64 + 1, m1)) by done.
    pose proof (clear_middle m1 (a / 64 + 1) ((b - 1) / 64) (proj1 C1) ltac:(lia) ltac:(lia)) as Hm.
    destruct (clear_last _ ((b - 1) / 64) b (proj1 Hm) We ltac:(lia)) as (m' & H2 & C2). exists m'. split; [done|].
    eapply (cleared_trans _ m1 _ _ (64 * (a / 64) + 64)); [lia|done|]. replace (64 * (a / 64) + 64) with (64 * (a / 64 + 1)) by lia.
    by eapply cleared_trans; [|done|done]; lia.
Qed.

(** ** Moving the tail *)

Definition slot (t j : Z) : Z := (t + j) mod Capacity.

Lemma slot_near t j : 0 <= t -> 0 <= j < Capacity ->
  slot t j = if t mod Capacity + j <? Capacity then t mod Capacity + j else t mod Capacity + j - Capacity.
Proof.
  intros Ht Hj. unfold slot. pose proof (Z.mod_pos_bound t Capacity Hcap). rewrite <- Z.add_mod_idemp_l by lia.
  destruct (Z.ltb_spec (t mod Capacity + j) Capacity); [apply Z.mod_small; lia|].
  symmetry. apply (Z.mod_unique_pos _ _ 1); lia.
Qed.

(** The tail moves [n] slots, which are acknowledged and are cleared. *)
Record advanced (t n : Z) (m m' : list Z) : Prop := {
  ad_range : 0 <= n <= Capacity;
  ad_ok : mask_ok m';
  ad_was : forall j, 0 <= j < n -> acked m (slot t j) = true;
  ad_now : forall j, 0 <= j < Capacity -> acked m' (slot t j) = acked m (slot t j) && (n <=? j);
}.

Lemma advanced_run t n m m' a b : 0 <= t -> mask_ok m -> t mod Capacity = a -> a <= b <= Capacity -> n = b - a ->
  (forall i, a <= i < b -> acked m i = true) -> cleared m m' a b -> advanced t n m m'.
Proof.
  intros Ht M Ea Hab -> Hall (M' & Hc). pose proof (Z.mod_pos_bound t Capacity Hcap). constructor; [lia|done| |].
  - intros j Hj. rewrite slot_near, Ea by lia. rewrite (proj2 (Z.ltb_lt (a + j) Capacity)) by lia. apply Hall. lia.
  - intros j Hj. rewrite slot_near, Ea by lia. assert (forall i, 0 <= i -> negb (in_range a b i) = (b - a <=? j) ->
      acked m' i = acked m i && (b - a <=? j)) as Hgo by (intros i Hi <-; by apply Hc).
    destruct (Z.ltb_spec (a + j) Capacity); apply Hgo; try lia; apply eq_true_iff_eq;
      rewrite negb_true_iff, <- not_true_iff_false, in_range_iff, Z.leb_le; lia.
Qed.

Lemma advanced_wrap t m m1 m' w : 0 <= t -> mask_ok m -> let a := t mod Capacity in 0 < a -> 0 <= w <= a ->
  (forall i, a <= i < Capacity -> acked m i = true) -> cleared m m1 a Capacity ->
  (forall i, 0 <= i < w -> acked m1 i = true) -> cleared m1 m' 0 w -> advanced t (Capacity - a + w) m m'.
Proof.
  intros Ht M a Ha Hw Hall (M1 & C1) Hall1 (M' & C'). pose proof (Z.mod_pos_bound t Capacity Hcap) as Hb. fold a in Hb.
  assert (forall i, 0 <= i < Capacity -> acked m' i = acked m i && negb (in_range a Capacity i) && negb (in_range 0 w i)) as Hm'.
  { intros i Hi. by rewrite C', C1 by lia. }
  assert (forall i, 0 <= i < w -> acked m i = true) as Hallw.
  { intros i Hi. pose proof (Hall1 i Hi) as H1. rewrite C1 in H1 by lia. by apply andb_true_iff in H1 as (? & _). }
  constructor; [lia|done| |].
  - intros j Hj. rewrite slot_near by lia. fold a. destruct (Z.ltb_spec (a + j) Capacity); [apply Hall; lia|apply Hallw; lia].
  - intros j Hj. rewrite slot_near by lia. fold a. destruct (Z.ltb_spec (a + j) Capacity).
    + rewrite Hm' by lia. assert (in_range a Capacity (a + j) = true) as -> by (apply in_range_iff; lia).
      rewrite (proj2 (Z.leb_gt _ j)) by lia. by rewrite !andb_false_r.
    + rewrite Hm' by lia. assert (in_range a Capacity (a + j - Capacity) = false) as -> by (apply not_true_iff_false; rewrite in_range_iff; lia).
      rewrite andb_true_r. f_equal. apply eq_true_iff_eq. rewrite negb_true_iff, <- not_true_iff_false, in_range_iff, Z.leb_le. lia.
Qed.

(** Whether every slot of the ring is acknowledged. *)
Definition all_acked (m : list Z) : Prop := forall i, 0 <= i < Capacity -> acked m i = true.

Lemma advance_spec m t : mask_ok m -> 0 <= t -> t + Capacity < 2 ^ 64 ->
  exists n m', advance_tail_from_mask Capacity t m = Done (t + n, m') /\ advanced t n m m' /\
    (n = Capacity \/ acked m (slot t n) = false \/ (t mod Capacity = 0 /\ n = 0 /\ m' = m /\ all_acked m)).
Proof.
  intros M Ht Hw. unfold advance_tail_from_mask. pose proof (Z.mod_pos_bound t Capacity Hcap) as Hm. set (a := t mod Capacity) in *.
  destruct (next_unacked_spec m a M ltac:(lia) ltac:(lia)) as (nx & Hnx & Hr & Hall & Hlast). rewrite (done_bind _ _ nx Hnx).
  destruct (Z.eqb_spec nx Capacity) as [->|Hne].
  - destruct (Z.eqb_spec a 0) as [Ea|Ea]; cbn [negb].
    + exists 0, m. rewrite Z.add_0_r. split; [done|]. split.
      * apply (advanced_run t 0 m m a a); [done|done|done|lia|lia|intros; lia|apply cleared_none; [done|lia]].
      * right. right. split_and!; [done|done|done|]. intros i Hi. apply Hall. lia.
    + destruct (clear_acked_range_spec m a Capacity M ltac:(lia) ltac:(lia)) as (m1 & H1 & C1). rewrite (done_bind _ _ m1 H1).
      destruct (next_unacked_spec m1 0 (proj1 C1) ltac:(lia) ltac:(lia)) as (w & Hw0 & Hwr & Hwall & Hwlast). rewrite (done_bind _ _ w Hw0).
      assert (w <= a) as Hwa.
      { apply Z.nlt_ge. intros Hlt. pose proof (Hwall a ltac:(lia)) as Hx. rewrite (proj2 C1) in Hx by lia.
        apply andb_true_iff in Hx as (_ & Hx%negb_true_iff%not_true_iff_false). rewrite in_range_iff in Hx. lia. }
      destruct (clear_acked_range_spec m1 0 w (proj1 C1) ltac:(lia) ltac:(lia)) as (m2 & H2 & C2).
      exists (Capacity - a + w), m2. split.
      { rewrite (wrap_id 64 (t + (Capacity - a))) by (unfold in_word; lia). rewrite (proj2 (Z.leb_le w a) Hwa), andb_true_r.
        destruct (Z.ltb_spec 0 w).
        - rewrite (done_bind _ _ m2 H2), wrap_id by (unfold in_word; lia). do 2 f_equal. lia.
        - assert (w = 0) as -> by lia. cbn in H2. injection H2 as ->. do 2 f_equal. lia. }
      split; [by apply (advanced_wrap t m m1 m2 w); [..|lia|lia|intros; apply Hall; lia| | |]|].
      destruct (decide (w = a)) as [->|]; [left; lia|right; left]. rewrite slot_near by lia. fold a. rewrite (proj2 (Z.ltb_ge _ Capacity)) by lia.
      replace (a + (Capacity - a + w) - Capacity) with w by lia. pose proof (Hwlast ltac:(lia)) as Hx. rewrite (proj2 C1) in Hx by lia.
      apply andb_false_iff in Hx as [?|Hx%negb_false_iff]; [done|]. rewrite in_range_iff in Hx. lia.
  - destruct (clear_acked_range_spec m a nx M ltac:(lia) ltac:(lia)) as (m1 & H1 & C1). exists (nx - a), m1. split.
    { destruct (Z.ltb_spec a nx); [rewrite (done_bind _ _ m1 H1), wrap_id by (unfold in_word; lia); done|].
      assert (nx = a) as -> by lia. unfold clear_acked_range in H1. rewrite Z.leb_refl in H1. injection H1 as ->. do 2 f_equal. lia. }
    split; [by apply (advanced_run t _ m m1 a nx); [..|intros; apply Hall; lia|]; try lia|]. right. left.
    rewrite slot_near by lia. fold a. rewrite (proj2 (Z.ltb_lt _ Capacity)) by lia. replace (a + (nx - a)) with nx by lia. apply Hlast. lia.
Qed.

End mask.
(** C24: The proxy's tail moves over the longest run of acknowledged slots and clears
    exactly these; the words of the mask are read and written where they are, for
    every capacity.  The one exception is a ring whose slots are all acknowledged
    while the tail is at slot 0. *)
Theorem tail_advances Capacity m t : 0 < Capacity -> mask_ok Capacity m -> 0 <= t -> t + Capacity < 2 ^ 64 ->
  exists n m', advance_tail_from_mask Capacity t m = Done (t + n, m') /\ mask_ok Capacity m' /\ 0 <= n <= Capacity /\
    (forall j, 0 <= j < n -> acked m ((t + j) mod Capacity) = true) /\
    (forall j, 0 <= j < Capacity -> acked m' ((t + j) mod Capacity) = acked m ((t + j) mod Capacity) && (n <=? j)) /\
    (n = Capacity \/ acked m ((t + n) mod Capacity) = false \/ (t mod Capacity = 0 /\ n = 0 /\ all_acked Capacity m)).
Proof.
  intros Hc M Ht Hw. destruct (advance_spec Capacity Hc m t M Ht Hw) as (n & m' & Ha & [Hr Hm Hwas Hnow] & Hmax).
  exists n, m'. split_and!; [done|done|lia|lia|done|done|]. unfold slot in Hmax. tauto.
Qed.

Lemma tail_advances_witness : exists n m', advance_tail_from_mask 2048 2000 (replicate 31 0 ++ [0xFFFF000000000000]) = Done (2000 + n, m').
Proof.
  destruct (tail_advances 2048 (replicate 31 0 ++ [0xFFFF000000000000]) 2000) as (n & m' & H & _); [lia| |lia|lia|by exists n, m'].
  constructor; [done|]. apply Forall_app. split; [apply Forall_replicate|repeat constructor]; unfold in_word; lia.
Defined.

(** A ring whose slots are all acknowledged while its tail is at slot 0 keeps its
    tail: [advance_tail_from_mask] changes nothing, and so will every later call. *)
Theorem tail_stuck_when_all_acked Capacity m t : 0 < Capacity -> mask_ok Capacity m -> 0 <= t -> t mod Capacity = 0 ->
  (forall i, 0 <= i < Capacity -> acked m i = true) -> advance_tail_from_mask Capacity t m = Done (t, m).
Proof.
  intros Hc M Ht E Hall. unfold advance_tail_from_mask. rewrite E.
  destruct (next_unacked_spec Capacity Hc m 0 M ltac:(lia) ltac:(lia)) as (r & Hr & Hb & _ & Hl). rewrite (done_bind _ _ r Hr).
  assert (r = Capacity) as -> by (destruct (decide (r < Capacity)) as [Hlt|]; [rewrite Hall in Hl by lia; by specialize (Hl Hlt)|lia]).
  by rewrite Z.eqb_refl.
Qed.

Lemma tail_stuck_when_all_acked_witness : advance_tail_from_mask 128 256 [ones64; ones64] = Done (256, [ones64; ones64]).
Proof.
  apply (tail_stuck_when_all_acked 128 [ones64; ones64] 256); [lia| |lia|done|].
  - constructor; [done|]. repeat constructor; unfold ones64; lia.
  - intros i Hi. unfold acked. assert (0 <= i / 64 < 2) as Hd by (split; [apply Z.div_pos; lia|apply Z.div_lt_upper_bound; lia]).
    pose proof (Z.mod_pos_bound i 64 ltac:(lia)). assert (i / 64 = 0 \/ i / 64 = 1) as [-> | ->] by lia; change (Z.testbit (Z.ones 64) (i mod 64) = true);
      rewrite testbit_ones_in by lia; apply Z.ltb_lt; lia.
Defined.

(** ** The fields of a command *)

Lemma lor_disjoint a b s : 0 <= s -> 0 <= a < 2 ^ s -> Z.lor a (Z.shiftl b s) = a + b * 2 ^ s.
Proof.
  intros Hs Ha. assert (Z.land a (Z.shiftl b s) = 0) as Hl.
  { apply Z.bits_inj'. intros i Hi. rewrite Z.land_spec, Z.testbit_0_l. destruct (decide (i < s)).
    - rewrite Z.shiftl_spec_low by lia. apply andb_false_r.
    - by rewrite (bits_word s a) by (done || lia). }
  rewrite <- Z.lxor_lor by done. rewrite <- Z.add_nocarry_lxor by done. by rewrite Z.shiftl_mul_pow2.
Qed.

Lemma token_fields e n : 0 <= e < 2 ^ 10 -> 0 <= n < 2 ^ 13 ->
  unpack_ll_expert (pack_ll_expert_slot e n) = e /\ unpack_ll_num_tokens (pack_ll_expert_slot e n) (Z.land n 255) = n.
Proof.
  intros He Hn. unfold unpack_ll_num_tokens, unpack_ll_expert, pack_ll_expert_slot.
  change kLLExpertMask with (2 ^ 10 - 1). change kLLNumTokensHighMask with (2 ^ 5 - 1). change kLLExpertBits with 10. change 255 with (2 ^ 8 - 1).
  rewrite !land_mask by lia. rewrite (Z.mod_small e) by lia. rewrite lor_disjoint by lia. rewrite Z.shiftr_div_pow2 by lia.
  pose proof (Z.div_mod n (2 ^ 8) ltac:(lia)) as Dn. pose proof (Z.mod_pos_bound n (2 ^ 8) ltac:(lia)).
  assert (0 <= n / 2 ^ 8 < 2 ^ 5) by (split; [apply Z.div_pos; lia|apply Z.div_lt_upper_bound; lia]).
  rewrite (Z.mod_small (n / 2 ^ 8)) by lia. rewrite wrap_id by (unfold in_word; lia). split.
  - rewrite Z.add_comm. symmetry. apply (Z.mod_unique_pos _ _ (n / 2 ^ 8)); lia.
  - rewrite Z.shiftr_div_pow2, Z.div_add by lia. rewrite (Z.div_small e) by lia. rewrite Z.add_0_l, (Z.mod_small (n / 2 ^ 8)) by lia.
    rewrite lor_disjoint by lia. lia.
Qed.

(** What a GPU thread packs into a command is what the proxy reads: the kind and
    its two flags, expert and number of tokens, and the offset of an aligned
    address. *)
Theorem command_fields_roundtrip cmd comb ll e n off : 0 <= cmd < 64 -> 0 <= e < 2 ^ 10 -> 0 <= n < 2 ^ 13 ->
  0 <= off < 2 ^ 32 * 2 ^ get_write_addr_shift ll -> off mod 2 ^ get_write_addr_shift ll = 0 ->
  let c := make_cmd_type cmd comb ll in
  in_word 8 c /\ get_base_cmd c = cmd /\ get_is_combine c = comb /\ get_low_latency c = ll /\
  in_word 16 (pack_ll_expert_slot e n) /\ unpack_ll_expert (pack_ll_expert_slot e n) = e /\
  unpack_ll_num_tokens (pack_ll_expert_slot e n) (Z.land n 255) = n /\
  in_word 32 (Z.shiftr off (get_write_addr_shift ll)) /\ decode_write_offset (Z.shiftr off (get_write_addr_shift ll)) ll = off.
Proof.
  intros Hcmd He Hn Hoff Hal c. destruct (token_fields e n He Hn) as (T1 & T2).
  assert (c = cmd + (if comb then 64 else 0) + (if ll then 128 else 0)) as Ec.
  { unfold c, make_cmd_type. destruct comb, ll; rewrite ?(lor_disjoint cmd 1 6), ?(lor_disjoint cmd 1 7), ?(lor_disjoint (cmd + 1 * 2 ^ 6) 1 7) by lia; lia. }
  assert (forall b s, 0 <= s -> Z.land (Z.shiftr b s) 1 = b / 2 ^ s mod 2) as Hbit.
  { intros b s Hs. rewrite Z.shiftr_div_pow2 by lia. by apply (land_mask _ 1). }
  split_and!; try done.
  - rewrite Ec. unfold in_word. destruct comb, ll; lia.
  - unfold get_base_cmd. change 0x3F with (2 ^ 6 - 1). rewrite land_mask by lia. rewrite Ec. symmetry.
    apply (Z.mod_unique_pos _ _ ((if comb then 1 else 0) + (if ll then 2 else 0))); destruct comb, ll; lia.
  - unfold get_is_combine. rewrite Hbit by lia. assert (c / 2 ^ 6 = (if comb then 1 else 0) + (if ll then 2 else 0)) as ->.
    { symmetry. apply (Z.div_unique_pos _ _ _ cmd); [lia|]. rewrite Ec. destruct comb, ll; lia. }
    by destruct comb, ll.
  - unfold get_low_latency. rewrite Hbit by lia. assert (c / 2 ^ 7 = (if ll then 1 else 0)) as ->.
    { symmetry. apply (Z.div_unique_pos _ _ _ (cmd + (if comb then 64 else 0))); [destruct comb; lia|]. rewrite Ec. destruct comb, ll; lia. }
    by destruct ll.
  - unfold pack_ll_expert_slot. apply wrap_range. lia.
  - rewrite Z.shiftr_div_pow2 by (destruct ll; cbn; lia). split; [apply Z.div_pos; [lia|]; destruct ll; cbn; lia|].
    apply Z.div_lt_upper_bound; [destruct ll; cbn; lia|]. lia.
  - unfold decode_write_offset. rewrite Z.shiftr_div_pow2, Z.shiftl_mul_pow2 by (destruct ll; cbn; lia).
    pose proof (Z.div_mod off (2 ^ get_write_addr_shift ll) ltac:(destruct ll; cbn; lia)) as D. rewrite Hal in D.
    replace (off / 2 ^ get_write_addr_shift ll * 2 ^ get_write_addr_shift ll) with off by lia. apply wrap_id.
    destruct ll; cbn in Hoff; unfold in_word; lia.
Qed.

Lemma command_fields_roundtrip_witness :
  let c := make_cmd_type 1 true false in
  get_base_cmd c = 1 /\ get_is_combine c = true /\ get_low_latency c = false /\
  unpack_ll_num_tokens (pack_ll_expert_slot 1023 8191) (Z.land 8191 255) = 8191 /\
  decode_write_offset (Z.shiftr 17179869180 2) false = 17179869180.
Proof.
  destruct (command_fields_roundtrip 1 true false 1023 8191 17179869180) as (_ & ? & ? & ? & _ & _ & ? & _ & ?); [lia|lia|lia|cbn; lia|done|].
  by split_and!.
Defined.

(** ** The ring as a queue *)

Section queue.
Context (k : Z) (Hk : 0 <= k <= 30) {T : Type}.
Abbreviation Cap := (2 ^ k).

(** The ring [r] holds the elements [l]. *)
Record holds (r : ring T) (l : list T) : Prop := {
  h_order : 0 <= tail r /\ head r = tail r + alen l /\ alen l <= Cap;
  h_small : head r < 2 ^ 31;
  h_len : alen (buf r) = Cap;
  h_get : forall i, 0 <= i < alen l -> aget (buf r) ((tail r + i) mod Cap) = aget l i;
}.

Lemma land_cap x : Z.land x (mask Cap) = x mod Cap.
Proof. unfold mask. apply land_mask. lia. Qed.

Lemma push_holds r l x : holds r l -> head r + 1 < 2 ^ 31 ->
  if decide (alen l = Cap) then push Cap x r = (false, r)
  else exists r', push Cap x r = (true, r') /\ holds r' (l ++ [x]).
Proof.
  intros [(Ht & Eh & Hl) Hs Hb Hg] Hn. pose proof (alen_nonneg l). assert (0 < Cap) as Hc by (apply pow2_pos; lia).
  assert (Cap <= 2 ^ 30) as Hc' by (apply Z.pow_le_mono_r; lia). unfold push, full. rewrite wrap_id by (unfold in_word; lia).
  replace (head r - tail r) with (alen l) by lia. case_decide as E; [by rewrite (proj2 (Z.eqb_eq _ _) E)|].
  rewrite (proj2 (Z.eqb_neq _ _) E). eexists. split; [done|]. rewrite land_cap. unfold commit_with_head. cbn [head tail buf].
  assert (wrap 64 (signed 32 (wrap 32 (head r +[64] 1))) = head r + 1) as ->.
  { rewrite (wrap_id 64 (head r + 1)) by (unfold in_word; lia). rewrite (wrap_id 32) by (unfold in_word; lia). unfold signed.
    rewrite (wrap_id 32) by (unfold in_word; lia). rewrite (proj2 (Z.ltb_lt _ _)) by (cbn; lia). apply wrap_id. unfold in_word. lia. }
  pose proof (Z.mod_pos_bound (head r) Cap Hc). constructor; cbn [head tail buf]; autorewrite with arr; [lia|lia|done|].
  intros i Hi. cbn in Hi. pose proof (Z.mod_pos_bound (tail r + i) Cap Hc). destruct (decide (i = alen l)) as [->|Hne].
  - rewrite <- Eh, aget_aset_eq by lia. rewrite aget_app_r by lia. by rewrite Z.sub_diag.
  - rewrite aget_aset_ne; [|lia|lia|].
    + rewrite Hg by lia. symmetry. apply aget_app_l. lia.
    + rewrite Eh. intros Em. pose proof (Z.div_mod (tail r + alen l) Cap ltac:(lia)). pose proof (Z.div_mod (tail r + i) Cap ltac:(lia)).
      assert ((tail r + alen l) / Cap = (tail r + i) / Cap) by (apply Z.le_antisymm; nia). nia.
Qed.

Lemma pop_holds r l : holds r l -> match l with
  | [] => pop Cap r = (None, r)
  | x :: l' => exists r', pop Cap r = (Some x, r') /\ holds r' l'
  end.
Proof.
  intros [(Ht & Eh & Hl) Hs Hb Hg]. unfold pop, empty. destruct l as [|x l].
  - autorewrite with arr in Eh. by rewrite (proj2 (Z.eqb_eq (head r) (tail r))) by lia.
  - autorewrite with arr in Eh, Hl. pose proof (alen_nonneg l). rewrite (proj2 (Z.eqb_neq (head r) (tail r))) by lia. rewrite land_cap.
    pose proof (Hg 0 ltac:(autorewrite with arr; lia)) as H0. rewrite Z.add_0_r in H0. rewrite H0. eexists. split; [done|].
    rewrite wrap_id by (unfold in_word; lia). constructor; cbn [head tail buf]; [lia|done|done|].
    intros i Hi. replace (tail r + 1 + i) with (tail r + (i + 1)) by lia. rewrite Hg by (autorewrite with arr; lia).
    by rewrite aget_cons_S by lia.
Qed.

End queue.

(** The head is passed through an [int]: after the push that brings it to [2^31],
    a ring is no longer empty when everything has been popped, and [pop] returns
    old entries. *)
Theorem ring_head_overflows : exists r1 r2 r3,
  push 4 77 (MkRing (2 ^ 31 - 1) (2 ^ 31 - 1) [10; 11; 12; 13]) = (true, r1) /\ head r1 = 2 ^ 64 - 2 ^ 31 /\
  pop 4 r1 = (Some 77, r2) /\ pop 4 r2 = (Some 10, r3).
Proof.
  exists (MkRing (2 ^ 64 - 2 ^ 31) (2 ^ 31 - 1) [10; 11; 12; 77]), (MkRing (2 ^ 64 - 2 ^ 31) (2 ^ 31) [10; 11; 12; 77]),
    (MkRing (2 ^ 64 - 2 ^ 31) (2 ^ 31 + 1) [10; 11; 12; 77]).
  by vm_compute.
Qed.

End EpRingSpec.
