(* ===== verification/EpProxy.v ===== *)
(** * GPU threads and the CPU proxy around a command ring

    [RingBuffer::atomic_set_and_commit] of [ep/include/ring_buffer.cuh], run by
    any number of GPU threads, and the proxy's [post_gpu_command] and
    [notify_gpu_completion] of [ep/src/proxy.cpp], as a step relation: every
    load, compare-and-swap and store of the shared ring is a step, so the threads
    and the proxy interleave in every way.  The network completes the commands
    that the proxy posted in any order.  [wr_id]s of other rings, which the proxy
    serves in turn, do not concern the ring. *)

From S2P Require Import Prelude EpRing.

Module EpProxy.
Import EpRing.

Record dring := MkDring { d_head : Z; d_tail : Z; d_buf : list TransferCmd; d_mask : list Z }.

Section proxy.
(** [same_node r]: the peer of rank [r] has the proxy's own address. *)
Context (Capacity : Z) (rank rb_idx : Z) (same_node : Z -> bool).

Definition slot_idx (i : Z) : Z := Z.land (wrap 32 i) (Capacity - 1).

(** ** A GPU thread *)

(** Where a thread is in [atomic_set_and_commit]: about to read the head, the
    tail, to compare and swap, to write the entry, to publish its type. *)
Inductive gpu :=
| GHead (item : TransferCmd)
| GTail (item : TransferCmd) (h : Z)
| GCas (item : TransferCmd) (h t : Z)
| GWrite (item : TransferCmd) (slot : Z)
| GPublish (item : TransferCmd) (slot : Z)
| GDone (slot : Z).

Definition gpu_step (g : gpu) (r : dring) : option (gpu * dring) :=
  match g with
  | GHead item => Some (GTail item (d_head r), r)
  | GTail item h =>
      let t := d_tail r in
      Some (if h -[64] t =? Capacity then GHead item else GCas item h t, r)
  | GCas item h t =>
      if d_head r =? h then Some (GWrite item h, MkDring (h +[64] 1) (d_tail r) (d_buf r) (d_mask r))
      else Some (GHead item, r)
  | GWrite item slot =>
      Some (GPublish item slot,
            MkDring (d_head r) (d_tail r) (aset (d_buf r) (slot_idx slot) (set_cmd_type EMPTY item)) (d_mask r))
  | GPublish item slot =>
      match aget (d_buf r) (slot_idx slot) with
      | Some e => Some (GDone slot,
                        MkDring (d_head r) (d_tail r) (aset (d_buf r) (slot_idx slot) (set_cmd_type (cmd_type item) e)) (d_mask r))
      | None => None
      end
  | GDone _ => None
  end.

(** ** The proxy *)

(** Where the proxy is: between two calls, in the loop of [post_gpu_command] at
    index [i], past the check of the type of entry [i], or in
    [notify_gpu_completion]. *)
Inductive place := PIdle | PScan (cur_head i : Z) | PEntry (cur_head i : Z) | PNotify.

Record proxy := MkProxy {
  ring_seen : Z;
  ring_tail : Z;
  at_ : place;
  posted : list (Z * TransferCmd);
  acked_wrs_ : gset Z;
}.
Definition p_at v p := MkProxy (ring_seen p) (ring_tail p) v (posted p) (acked_wrs_ p).

Definition wr_id (i : Z) : Z := Z.lor (Z.shiftl rb_idx 32) i.

(** A command that must not have been given to the network. *)
Definition local_cmd (c : TransferCmd) : bool :=
  ((get_base_cmd (cmd_type c) =? WRITE) || (get_base_cmd (cmd_type c) =? ATOMIC)) &&
  ((dst_rank c =? rank) || same_node (dst_rank c)).

Definition volatile_load_cmd_type (i : Z) (r : dring) : result Z := e ← fetch (d_buf r) (slot_idx i); Done (cmd_type e).
Definition load_cmd_entry (i : Z) (r : dring) : result TransferCmd := fetch (d_buf r) (slot_idx i).
Definition volatile_clear_cmd_type (i : Z) (r : dring) : result dring :=
  e ← fetch (d_buf r) (slot_idx i);
  Done (MkDring (d_head r) (d_tail r) (aset (d_buf r) (slot_idx i) (set_cmd_type EMPTY e)) (d_mask r)).

(** One action of [post_gpu_command] for the ring. *)
Definition scan_step (p : proxy) (r : dring) : result proxy :=
  match at_ p with
  | PIdle =>
      let cur_head := d_head r in
      if (cur_head =? ring_tail p) || (cur_head -[64] ring_seen p =? 0) then Done p
      else Done (p_at (PScan cur_head (ring_seen p)) p)
  | PScan cur_head i =>
      if i <? cur_head then
        t ← volatile_load_cmd_type i r;
        Done (p_at (if t =? EMPTY then PIdle else PEntry cur_head i) p)
      else Done (p_at PIdle p)
  | PEntry cur_head i =>
      e ← load_cmd_entry i r;
      if cmd_type e =? EMPTY then Done (p_at PIdle p)
      else
      _ ← check (negb (local_cmd e));
      Done (MkProxy (i + 1) (ring_tail p) (PScan cur_head (i + 1)) (posted p ++ [(wr_id i, e)]) (acked_wrs_ p))
  | PNotify => Done p
  end.

(** What [notify_gpu_completion] does for one acknowledged work request. *)
Definition ack_wr (wr : Z) (r : dring) : result dring :=
  let rb := Z.land (Z.shiftr wr 32) 0xFFFFFFFF in
  let cmd_idx := Z.land wr 0xFFFFFFFF in
  if negb (rb =? rb_idx) then Done r
  else
  r ← volatile_clear_cmd_type cmd_idx r;
  m ← mark_acked Capacity (cmd_idx mod Capacity) (d_mask r);
  Done (MkDring (d_head r) (d_tail r) (d_buf r) m).

(** Its end: the tail. *)
Definition notify_tail (p : proxy) (r : dring) : result (proxy * dring) :=
  '(t, m) ← advance_tail_from_mask Capacity (d_tail r) (d_mask r);
  Done (MkProxy (ring_seen p) t PIdle (posted p) (acked_wrs_ p), MkDring (d_head r) t (d_buf r) m).

(** ** Together *)

(** [claimed] has the commands in the order in which their slots were taken;
    [outstanding] the work requests that the network has not completed. *)
Record world := MkWorld {
  ring : dring; threads : gmap Z gpu; prx : proxy; claimed : list TransferCmd; outstanding : gset Z;
}.

(** A command that a GPU thread may send. *)
Definition cmd_ok (c : TransferCmd) : Prop := cmd_type c <> EMPTY /\ local_cmd c = false.

Definition claim_of (g : gpu) (g' : gpu) : list TransferCmd :=
  match g, g' with GCas item _ _, GWrite _ _ => [item] | _, _ => [] end.

Inductive step : world -> world -> Prop :=
| step_call w t item :
    match threads w !! t with None | Some (GDone _) => True | _ => False end -> cmd_ok item ->
    step w (MkWorld (ring w) (<[t := GHead item]> (threads w)) (prx w) (claimed w) (outstanding w))
| step_gpu w t g g' r :
    threads w !! t = Some g -> gpu_step g (ring w) = Some (g', r) ->
    step w (MkWorld r (<[t := g']> (threads w)) (prx w) (claimed w ++ claim_of g g') (outstanding w))
| step_scan w p :
    scan_step (prx w) (ring w) = Done p ->
    step w (MkWorld (ring w) (threads w) p (claimed w) (outstanding w ∪ list_to_set (map fst (drop (length (posted (prx w))) (posted p)))))
| step_complete w wr :
    wr ∈ outstanding w -> at_ (prx w) = PIdle ->
    step w (MkWorld (ring w) (threads w)
              (MkProxy (ring_seen (prx w)) (ring_tail (prx w)) PIdle (posted (prx w)) ({[wr]} ∪ acked_wrs_ (prx w)))
              (claimed w) (outstanding w ∖ {[wr]}))
| step_notify w :
    at_ (prx w) = PIdle -> acked_wrs_ (prx w) <> ∅ ->
    step w (MkWorld (ring w) (threads w) (p_at PNotify (prx w)) (claimed w) (outstanding w))
| step_ack w wr r :
    at_ (prx w) = PNotify -> wr ∈ acked_wrs_ (prx w) -> ack_wr wr (ring w) = Done r ->
    step w (MkWorld r (threads w)
              (MkProxy (ring_seen (prx w)) (ring_tail (prx w)) PNotify (posted (prx w)) (acked_wrs_ (prx w) ∖ {[wr]}))
              (claimed w) (outstanding w))
| step_tail w p r :
    at_ (prx w) = PNotify -> acked_wrs_ (prx w) = ∅ -> notify_tail (prx w) (ring w) = Done (p, r) ->
    step w (MkWorld r (threads w) p (claimed w) (outstanding w)).

Definition init : world :=
  MkWorld (MkDring 0 0 (replicate (Z.to_nat Capacity) empty_cmd) (replicate (Z.to_nat (kNumWords Capacity)) 0)) ∅
    (MkProxy 0 0 PIdle [] ∅) [] ∅.

Definition reachable (w : world) : Prop := rtc step init w.

End proxy.
End EpProxy.
