(* ===== verification/EpProxySpec.v ===== *)
(** * Every command reaches the network once

    The invariant of [EpProxy.v].  Whatever the interleaving of the GPU threads,
    the proxy and the network, the proxy posts the commands in the order in which
    their slots were taken, each exactly once and as its thread wrote it, and no
    slot is taken again before its command was acknowledged
    ([commands_posted_once]); when the network has completed everything, the
    slots come back ([slots_come_back]), except when the ring is full and its
    tail is at slot 0, after which no thread ever gets a slot ([ring_wedges]). *)

From S2P Require Import Prelude EpRing EpRingSpec EpProxy.

Module EpProxySpec.
Import EpRing EpRingSpec EpProxy.

Section spec.
Context (k rank rb_idx : Z) (same_node : Z -> bool) (Hk : 0 <= k <= 31) (Hrb : in_word 32 rb_idx).
Abbreviation Cap := (2 ^ k).
Abbreviation step := (step Cap rank rb_idx same_node).
Abbreviation wr_id := (wr_id rb_idx).
Abbreviation cmd_ok := (cmd_ok rank same_node).

Lemma cap_pos : 0 < Cap.
Proof. apply pow2_pos. lia. Qed.

Lemma cap_small : Cap <= 2 ^ 31.
Proof. apply Z.pow_le_mono_r; lia. Qed.

Lemma slot_idx_eq i : slot_idx Cap i = i mod Cap.
Proof. unfold slot_idx. rewrite land_mask by lia. apply wrap_mod_pow2. lia. Qed.

Lemma slot_same a s s' : a <= s < a + Cap -> a <= s' < a + Cap -> s mod Cap = s' mod Cap -> s = s'.
Proof.
  intros Hs Hs' E. pose proof cap_pos. pose proof (Z.div_mod s Cap ltac:(lia)). pose proof (Z.div_mod s' Cap ltac:(lia)).
  assert (s / Cap = s' / Cap) by (apply Z.le_antisymm; nia). nia.
Qed.

(** The entry and the acknowledgement of position [s]. *)
Definition entry (w : world) (s : Z) : option TransferCmd := aget (d_buf (ring w)) (s mod Cap).
Definition done_at (w : world) (s : Z) : bool := acked (d_mask (ring w)) (s mod Cap).
Definition vacant (w : world) (s : Z) : Prop := exists e, entry w s = Some e /\ cmd_type e = EMPTY.

(** The position that a thread has taken and not yet published. *)
Definition owns (g : gpu) : option (TransferCmd * Z) :=
  match g with GWrite item s | GPublish item s => Some (item, s) | _ => None end.
Definition owned (w : world) (s : Z) : Prop := exists t g item, threads w !! t = Some g /\ owns g = Some (item, s).

Definition gpu_ok (w : world) (g : gpu) : Prop :=
  let H := d_head (ring w) in
  match g with
  | GHead item => cmd_ok item
  | GTail item h => cmd_ok item /\ 0 <= h <= H
  | GCas item h t => cmd_ok item /\ 0 <= h <= H /\ 0 <= t <= d_tail (ring w) /\ h <= t + Cap /\ h <> t + Cap
  | GWrite item s => ring_seen (prx w) <= s < H /\ aget (claimed w) s = Some item /\ vacant w s
  | GPublish item s => ring_seen (prx w) <= s < H /\ aget (claimed w) s = Some item /\ entry w s = Some (set_cmd_type EMPTY item)
  | GDone _ => True
  end.

(** What holds of position [s] of the window. *)
Definition slot_ok (w : world) (s : Z) : Prop :=
  (d_head (ring w) <= s -> vacant w s /\ done_at w s = false) /\
  (ring_seen (prx w) <= s < d_head (ring w) -> done_at w s = false /\ (owned w s \/ entry w s = aget (claimed w) s)) /\
  (s < ring_seen (prx w) -> if done_at w s then vacant w s else entry w s = aget (claimed w) s).

Definition place_ok (w : world) : Prop :=
  match at_ (prx w) with
  | PScan c i => i = ring_seen (prx w) /\ c <= d_head (ring w)
  | PEntry c i => i = ring_seen (prx w) /\ i < c <= d_head (ring w) /\ entry w i = aget (claimed w) i /\ ~ owned w i
  | _ => True
  end.

Record inv (w : world) : Prop := {
  i_head : d_head (ring w) = alen (claimed w);
  i_order : 0 <= d_tail (ring w) <= ring_seen (prx w) /\ ring_seen (prx w) <= d_head (ring w) <= d_tail (ring w) + Cap;
  i_tail : ring_tail (prx w) = d_tail (ring w);
  i_buf : alen (d_buf (ring w)) = Cap;
  i_mask : mask_ok Cap (d_mask (ring w));
  i_cmds : Forall cmd_ok (claimed w);
  i_gpu : forall t g, threads w !! t = Some g -> gpu_ok w g;
  i_own : forall t t' g g' item item' s, threads w !! t = Some g -> threads w !! t' = Some g' ->
            owns g = Some (item, s) -> owns g' = Some (item', s) -> t = t';
  i_slots : forall s, d_tail (ring w) <= s < d_tail (ring w) + Cap -> slot_ok w s;
  i_posted : posted (prx w) = zip (map wr_id (seqZ 0 (ring_seen (prx w)))) (take (Z.to_nat (ring_seen (prx w))) (claimed w));
  i_wrs : forall wr, wr ∈ acked_wrs_ (prx w) \/ wr ∈ outstanding w -> exists s, d_tail (ring w) <= s < ring_seen (prx w) /\
            wr = wr_id s /\ done_at w s = false;
  i_disj : forall wr, wr ∈ acked_wrs_ (prx w) -> wr ∉ outstanding w;
  i_all : forall s, d_tail (ring w) <= s < ring_seen (prx w) -> done_at w s = false ->
            wr_id s ∈ acked_wrs_ (prx w) \/ wr_id s ∈ outstanding w;
  i_place : place_ok w;
}.

(** ** Work-request ids *)

Lemma wr_id_decode s : 0 <= s < 2 ^ 32 -> Z.land (Z.shiftr (wr_id s) 32) 0xFFFFFFFF = rb_idx /\ Z.land (wr_id s) 0xFFFFFFFF = s.
Proof.
  intros Hs. unfold EpProxy.wr_id. change 0xFFFFFFFF with (Z.ones 32). split; apply Z.bits_inj'; intros i Hi;
    rewrite Z.land_spec, testbit_ones_in by lia; destruct (Z.ltb_spec i 32).
  - rewrite Z.shiftr_spec, Z.lor_spec, Z.shiftl_spec, (bits_word 32 s) by (done || lia). rewrite orb_false_r, andb_true_r. f_equal. lia.
  - rewrite andb_false_r. symmetry. apply (bits_word 32); [lia|done|lia].
  - rewrite Z.lor_spec, Z.shiftl_spec, Z.testbit_neg_r by lia. by rewrite andb_true_r.
  - rewrite andb_false_r. symmetry. apply (bits_word 32); [lia|done|lia].
Qed.

Lemma wr_id_inj s s' : 0 <= s < 2 ^ 32 -> 0 <= s' < 2 ^ 32 -> wr_id s = wr_id s' -> s = s'.
Proof. intros Hs Hs' E. destruct (wr_id_decode s Hs) as (_ & <-), (wr_id_decode s' Hs') as (_ & <-). by rewrite E. Qed.

(** ** Frames *)

Lemma mod_cap s : 0 <= s mod Cap < Cap.
Proof. apply Z.mod_pos_bound, cap_pos. Qed.

Lemma entry_set w s s' e r th p c o : inv w -> d_buf r = aset (d_buf (ring w)) (s mod Cap) e ->
  entry (MkWorld r th p c o) s' = if decide (s' mod Cap = s mod Cap) then Some e else entry w s'.
Proof.
  intros I Er. unfold entry. cbn. rewrite Er. pose proof (mod_cap s). pose proof (mod_cap s'). case_decide as E.
  - rewrite E. apply aget_aset_eq. by rewrite (i_buf w I).
  - apply aget_aset_ne; lia.
Qed.

Lemma aget_claim (c l : list TransferCmd) s x : 0 <= s -> aget c s = Some x -> aget (c ++ l) s = Some x.
Proof. intros Hs Hx. rewrite aget_app_l; [done|]. split; [done|by eapply aget_Some_lt]. Qed.

Lemma take_claim (c l : list TransferCmd) n : n <= alen c -> take (Z.to_nat n) (c ++ l) = take (Z.to_nat n) c.
Proof. intros Hn. apply take_app_le. unfold alen in Hn. lia. Qed.

(** A thread's program counter moves without touching what it owns. *)
(** ** The GPU threads *)

(** Steps that change no more than where threads are, and not what they own. *)
Lemma proxy_inv_threads w th : inv w -> (forall t g, th !! t = Some g -> gpu_ok w g) ->
  (forall t g item s, th !! t = Some g -> owns g = Some (item, s) -> exists g0, threads w !! t = Some g0 /\ owns g0 = Some (item, s)) ->
  (forall t g item s, threads w !! t = Some g -> owns g = Some (item, s) -> exists g1, th !! t = Some g1 /\ owns g1 = Some (item, s)) ->
  inv (MkWorld (ring w) th (prx w) (claimed w) (outstanding w)).
Proof.
  intros I Hg Hto Hfrom.
  assert (forall s, (exists t g item, th !! t = Some g /\ owns g = Some (item, s)) <-> owned w s) as Ho.
  { intros s. split; intros (t & g & item & Ht & Hs).
    - destruct (Hto t g item s Ht Hs) as (g0 & ? & ?). by exists t, g0, item.
    - destruct (Hfrom t g item s Ht Hs) as (g1 & ? & ?). by exists t, g1, item. }
  constructor; try apply I; cbn [ring threads prx claimed outstanding].
  - exact Hg.
  - intros t t' g g' item item' s Ht Ht' Hs Hs'. destruct (Hto _ _ _ _ Ht Hs) as (g0 & ? & ?), (Hto _ _ _ _ Ht' Hs') as (g1 & ? & ?).
    by eapply (i_own w I t t').
  - intros s Hs. destruct (i_slots w I s Hs) as (H1 & H2 & H3). split_and!; [done| |done]. intros Hr. destruct (H2 Hr) as (Hd & [Hx|Hx]).
    + split; [done|]. left. by apply Ho.
    + split; [done|]. by right.
  - pose proof (i_place w I) as Hp. unfold place_ok in *. cbn [prx ring claimed]. destruct (at_ (prx w)); try done.
    destruct Hp as (? & ? & ? & Hn). split_and!; try done; try lia. intros Hx. by apply Hn, Ho.
Qed.

Lemma inv_move w t g' : inv w -> gpu_ok w g' -> owns g' = None ->
  match threads w !! t with Some g => owns g = None | None => True end ->
  inv (MkWorld (ring w) (<[t := g']> (threads w)) (prx w) (claimed w) (outstanding w)).
Proof.
  intros I Hg Ho Ht. apply proxy_inv_threads; [done| | |].
  - intros t' g [(-> & ->)|(Hne & Hl)]%lookup_insert_Some; [done|]. by apply (i_gpu w I t').
  - intros t' g item s [(-> & ->)|(Hne & Hl)]%lookup_insert_Some Hs; [congruence|]. by exists g.
  - intros t' g item s Hl Hs. destruct (decide (t' = t)) as [->|]; [rewrite Hl in Ht; congruence|]. exists g. by rewrite lookup_insert_ne.
Qed.

Lemma inv_cas w t item h tl : inv w -> alen (claimed w) + 1 < 2 ^ 32 -> threads w !! t = Some (GCas item h tl) -> d_head (ring w) = h ->
  inv (MkWorld (MkDring (h +[64] 1) (d_tail (ring w)) (d_buf (ring w)) (d_mask (ring w)))
        (<[t := GWrite item h]> (threads w)) (prx w) (claimed w ++ [item]) (outstanding w)).
Proof.
  intros I HC Ht Eh. destruct (i_gpu w I t _ Ht) as (Hok & Hh & Htl & Hle & Hne). destruct (i_order w I) as (Ho1 & Ho2).
  pose proof (i_head w I) as EH. rewrite wrap_id by word_lia. set (w' := MkWorld _ _ _ _ _).
  destruct (i_slots w I h ltac:(lia)) as (Hv & _). destruct (Hv ltac:(lia)) as (Hvac & Hnd).
  assert (forall s g item', <[t := GWrite item h]> (threads w) !! s = Some g -> owns g = Some item' ->
    (s = t /\ item' = (item, h)) \/ (s <> t /\ threads w !! s = Some g)) as Hth.
  { intros s g item' [(-> & <-)|(Hs & Hl)]%lookup_insert_Some Hw; [left; cbn in Hw; by injection Hw as <-|by right]. }
  constructor; cbn [ring threads prx claimed outstanding w' d_head d_tail d_buf d_mask].
  - autorewrite with arr. cbn. lia.
  - lia.
  - apply (i_tail w I).
  - apply (i_buf w I).
  - apply (i_mask w I).
  - apply Forall_app. split; [apply (i_cmds w I)|by constructor].
  - intros s g [(-> & <-)|(Hs & Hl)]%lookup_insert_Some.
    + split; [cbn; lia|]. split; [|done]. cbn. rewrite aget_app_r by lia. rewrite <- EH, Eh, Z.sub_diag. done.
    + pose proof (i_gpu w I s g Hl) as Hg. destruct g; cbn in *; try done.
      * destruct Hg as (? & ?). split; [done|lia].
      * destruct Hg as (? & ? & ? & ? & ?). split_and!; try done; lia.
      * destruct Hg as (? & Hc & ?). split; [lia|]. split; [|done]. apply aget_claim; [lia|done].
      * destruct Hg as (? & Hc & ?). split; [lia|]. split; [|done]. apply aget_claim; [lia|done].
  - intros s s' g g' it it' x Hs Hs' Ho Ho'.
    assert (forall s g it, s <> t -> threads w !! s = Some g -> owns g = Some (it, h) -> False) as Hno.
    { intros y gy iy _ Hy Hoy. pose proof (i_gpu w I y gy Hy) as Hg. destruct gy; cbn in Hoy; simplify_eq; cbn in Hg; lia. }
    destruct (Hth _ _ _ Hs Ho) as [(-> & E1)|(N1 & L1)], (Hth _ _ _ Hs' Ho') as [(-> & E2)|(N2 & L2)]; [done|..].
    + exfalso. injection E1 as -> ->. by eapply (Hno s').
    + exfalso. injection E2 as -> ->. by eapply (Hno s).
    + by eapply (i_own w I s s').
  - intros s Hs. destruct (i_slots w I s Hs) as (H1 & H2 & H3). split_and!; cbn [ring prx claimed w' d_head].
    + intros Hle'. apply H1. lia.
    + intros Hr. destruct (decide (s = h)) as [->|Hn].
      * split; [done|]. left. exists t, (GWrite item h), item. cbn. by rewrite lookup_insert_eq.
      * destruct (H2 ltac:(lia)) as (Hd & [Hx|Hx]); (split; [done|]).
        -- left. destruct Hx as (t' & g & it & Hg & Hgo). exists t', g, it. split; [|done]. cbn. rewrite lookup_insert_ne; [done|]. intros <-. rewrite Ht in Hg. by injection Hg as <-.
        -- right. change (entry w' s) with (entry w s). rewrite Hx. rewrite aget_app_l by lia. done.
    + intros Hlt. change (done_at w' s) with (done_at w s). change (entry w' s) with (entry w s). change (vacant w' s) with (vacant w s).
      rewrite aget_app_l by lia. by apply H3.
  - rewrite take_claim by lia. apply (i_posted w I).
  - apply (i_wrs w I).
  - apply (i_disj w I).
  - apply (i_all w I).
  - pose proof (i_place w I) as Hp. unfold place_ok in *. cbn [prx ring claimed d_head w']. destruct (at_ (prx w)) as [|c i|c i|]; try done.
    + destruct Hp. split; [done|lia].
    + destruct Hp as (Hi & Hc & He & Hn). split; [done|]. split; [lia|]. split.
      * change (entry w' i) with (entry w i). rewrite He. symmetry. apply aget_app_l. lia.
      * intros (t' & g & it & Hg & Hgo). destruct (Hth _ _ _ Hg Hgo) as [(-> & E)|(N & L)]; [injection E as -> ->; lia|].
        apply Hn. by exists t', g, it.
Qed.

Lemma owns_range w t g item s : inv w -> threads w !! t = Some g -> owns g = Some (item, s) ->
  ring_seen (prx w) <= s < d_head (ring w) /\ aget (claimed w) s = Some item.
Proof. intros I Ht Ho. pose proof (i_gpu w I t g Ht) as Hg. destruct g; cbn in Ho; simplify_eq; cbn in Hg; tauto. Qed.

(** A thread stores into the slot it owns: the entry without its type, or the
    type, after which the slot is no longer its own. *)
Lemma inv_store w t g g' item s e : inv w -> threads w !! t = Some g -> owns g = Some (item, s) ->
  (g' = GPublish item s /\ e = set_cmd_type EMPTY item) \/ (g' = GDone s /\ e = item) ->
  inv (MkWorld (MkDring (d_head (ring w)) (d_tail (ring w)) (aset (d_buf (ring w)) (s mod Cap) e) (d_mask (ring w)))
        (<[t := g']> (threads w)) (prx w) (claimed w) (outstanding w)).
Proof.
  intros I Ht Ho Hcase. destruct (owns_range w t g item s I Ht Ho) as (Hs & Hc). destruct (i_order w I) as (Ho1 & Ho2).
  set (w' := MkWorld _ _ _ _ _).
  assert (forall s', d_tail (ring w) <= s' < d_tail (ring w) + Cap -> s' <> s -> entry w' s' = entry w s') as Hen.
  { intros s' Hs' Hne. unfold w'. rewrite (entry_set w s s' e) by done. case_decide as E; [|done].
    destruct Hne. apply (slot_same (d_tail (ring w))); [lia|lia|done]. }
  assert (entry w' s = Some e) as Hes by (unfold w'; rewrite (entry_set w s s e) by done; by case_decide).
  assert (forall s', s' <> s -> owned w s' -> owned w' s') as Hto.
  { intros s' Hne (t' & h & it & Hl & Hh). exists t', h, it. split; [|done]. cbn. rewrite lookup_insert_ne; [done|].
    intros <-. rewrite Ht in Hl. injection Hl as <-. rewrite Ho in Hh. congruence. }
  assert (forall s', owned w' s' -> owned w s') as Hfrom.
  { intros s' (t' & h & it & Hx & Hh). cbn in Hx. apply lookup_insert_Some in Hx as [(-> & <-)|(Hne & Hl)]; [|by exists t', h, it].
    destruct Hcase as [(-> & _)|(-> & _)]; [|done]. cbn in Hh. injection Hh as -> ->. by exists t', g, it. }
  constructor; try apply I; cbn [ring threads prx claimed outstanding w' d_head d_tail d_buf d_mask].
  - rewrite alen_aset. apply (i_buf w I).
  - intros t' h [(-> & <-)|(Hne & Hl)]%lookup_insert_Some.
    + destruct Hcase as [(-> & ->)|(-> & _)]; [|done]. by split; [|split].
    + pose proof (i_gpu w I t' h Hl) as Hg. destruct h as [?|? ?|? ? ?|it s0|it s0|?]; try exact Hg.
      * assert (s0 <> s) as Hn by (intros ->; apply Hne; eapply (i_own w I t t' g); [done|done|done|done]).
        destruct Hg as (Hr & Hcl & e0 & He0 & Hty). split; [done|]. split; [done|]. exists e0. by rewrite Hen by (cbn in *; lia || done).
      * assert (s0 <> s) as Hn by (intros ->; apply Hne; eapply (i_own w I t t' g); [done|done|done|done]).
        destruct Hg as (Hr & Hcl & He0). split; [done|]. split; [done|]. by rewrite Hen by (cbn in *; lia || done).
  - assert (forall t1 h1 it1 x, <[t := g']> (threads w) !! t1 = Some h1 -> owns h1 = Some (it1, x) ->
        exists g1, threads w !! t1 = Some g1 /\ owns g1 = Some (it1, x)) as Hback.
    { intros t1 h1 it1 x [(-> & <-)|(Hne & Hl)]%lookup_insert_Some Hh; [|by exists h1].
      destruct Hcase as [(-> & _)|(-> & _)]; [|done]. cbn in Hh. injection Hh as -> ->. by exists g. }
    intros t1 t2 h1 h2 it1 it2 x H1 H2 O1 O2. destruct (Hback _ _ _ _ H1 O1) as (g1 & ? & ?), (Hback _ _ _ _ H2 O2) as (g2 & ? & ?).
    by eapply (i_own w I t1 t2).
  - intros s' Hs'. destruct (i_slots w I s' Hs') as (H1 & H2 & H3). destruct (decide (s' = s)) as [->|Hne].
    + split_and!; cbn [ring prx claimed w' d_head]; intros Hr; [lia| |lia]. destruct (H2 Hr) as (Hd & _). split; [done|].
      destruct Hcase as [(-> & ->)|(-> & ->)]; [left|right; by rewrite Hes, Hc].
      exists t, (GPublish item s), item. cbn. by rewrite lookup_insert_eq.
    + unfold slot_ok, vacant. rewrite Hen by done. change (done_at w' s') with (done_at w s'). cbn [ring prx claimed w' d_head].
      split_and!; [done| |done]. intros Hr. destruct (H2 Hr) as (Hd & [Hx|Hx]); (split; [done|]); [left; by apply Hto|by right].
  - pose proof (i_place w I) as Hp. unfold place_ok in *. cbn [prx ring claimed d_head w']. destruct (at_ (prx w)) as [|c i|c i|]; try done.
    destruct Hp as (Hi & Hc' & He & Hn). assert (i <> s) as Hne by (intros ->; apply Hn; by exists t, g, item).
    split; [done|]. split; [done|]. split; [by rewrite Hen by lia|]. intros Hx. by apply Hn, Hfrom.
Qed.

Lemma inv_gpu w t g g' r : inv w -> alen (claimed w ++ claim_of g g') < 2 ^ 32 -> threads w !! t = Some g -> gpu_step Cap g (ring w) = Some (g', r) ->
  inv (MkWorld r (<[t := g']> (threads w)) (prx w) (claimed w ++ claim_of g g') (outstanding w)).
Proof.
  intros I HC Ht Hs. destruct (i_order w I) as (Ho1 & Ho2). pose proof (i_gpu w I t g Ht) as Hg. pose proof cap_small.
  assert (alen (claimed w) < 2 ^ 32) as HC' by (autorewrite with arr in HC; pose proof (alen_nonneg (claim_of g g')); lia).
  pose proof (i_head w I) as EH. destruct g as [item|item h|item h tl|item s|item s|s]; cbn [gpu_step] in Hs.
  - injection Hs as <- <-. cbn [claim_of]. rewrite app_nil_r. apply inv_move; [done| |done|by rewrite Ht]. cbn in *. split; [done|lia].
  - injection Hs as <- <-. cbn [claim_of]. rewrite app_nil_r. destruct Hg as (Hok & Hh).
    destruct (Z.eqb_spec (h -[64] d_tail (ring w)) Cap) as [E|E].
    + apply inv_move; [done|done|done|by rewrite Ht].
    + apply inv_move; [done| |done|by rewrite Ht]. cbn. split_and!; try done; try lia. intros ->. apply E. rewrite wrap_id; [lia|].
      pose proof cap_pos. unfold in_word. lia.
  - destruct (Z.eqb_spec (d_head (ring w)) h) as [E|E]; injection Hs as <- <-; cbn [claim_of] in *.
    + autorewrite with arr in HC. cbn in HC. by apply (inv_cas w t item h tl); [|lia| |].
    + rewrite app_nil_r. apply inv_move; [done|apply Hg|done|by rewrite Ht].
  - injection Hs as <- <-. cbn [claim_of]. rewrite app_nil_r, slot_idx_eq. eapply (inv_store w t); [done|done|done|by left].
  - destruct Hg as (Hr & Hcl & He). unfold entry in He. rewrite slot_idx_eq, He in Hs. injection Hs as <- <-. cbn [claim_of]. rewrite app_nil_r.
    eapply (inv_store w t); [done|done|done|]. right. split; [done|]. by destruct item.
  - done.
Qed.

(** ** The proxy *)

Lemma inv_place w pl : inv w -> place_ok (MkWorld (ring w) (threads w) (p_at pl (prx w)) (claimed w) (outstanding w)) ->
  inv (MkWorld (ring w) (threads w) (p_at pl (prx w)) (claimed w) (outstanding w)).
Proof. intros I Hp. constructor; try apply I. done. Qed.

Lemma seen_entry w : inv w -> ring_seen (prx w) < d_head (ring w) ->
  exists e c, entry w (ring_seen (prx w)) = Some e /\ aget (claimed w) (ring_seen (prx w)) = Some c /\ cmd_ok c /\
    done_at w (ring_seen (prx w)) = false /\ (cmd_type e <> EMPTY -> e = c /\ ~ owned w (ring_seen (prx w))).
Proof.
  intros I Hlt. destruct (i_order w I) as (Ho1 & Ho2). set (i := ring_seen (prx w)) in *.
  destruct (i_slots w I i ltac:(lia)) as (_ & H2 & _). destruct (H2 ltac:(lia)) as (Hd & Hx).
  destruct (aget_is_Some (d_buf (ring w)) (i mod Cap)) as (e & He); [rewrite (i_buf w I); apply mod_cap|].
  destruct (aget_is_Some (claimed w) i) as (c & Hc); [rewrite <- (i_head w I); lia|]. exists e, c. split; [done|]. split; [done|]. split; [apply (Forall_lookup_1 _ _ _ _ (i_cmds w I) Hc)|]. split; [done|].
  intros Hty. assert (~ owned w i) as Hno.
  { intros (t & g & item & Ht & Ho). pose proof (i_gpu w I t g Ht) as Hg. destruct g; cbn in Ho; simplify_eq; destruct Hg as (_ & _ & Hg).
    - destruct Hg as (e0 & He0 & Hty0). unfold entry in He0. congruence.
    - unfold entry in Hg. rewrite He in Hg. injection Hg as ->. done. }
  split; [|done]. destruct Hx as [?|Hx]; [done|]. unfold entry in Hx. congruence.
Qed.

Lemma inv_entry w c e : inv w -> alen (claimed w) < 2 ^ 32 -> ring_seen (prx w) < c <= d_head (ring w) ->
  aget (claimed w) (ring_seen (prx w)) = Some e -> entry w (ring_seen (prx w)) = Some e -> done_at w (ring_seen (prx w)) = false ->
  ~ owned w (ring_seen (prx w)) -> let i := ring_seen (prx w) in
  inv (MkWorld (ring w) (threads w)
        (MkProxy (i + 1) (ring_tail (prx w)) (PScan c (i + 1)) (posted (prx w) ++ [(wr_id i, e)]) (acked_wrs_ (prx w)))
        (claimed w) (outstanding w ∪ {[wr_id i]})).
Proof.
  intros I HC Hc Hcl He Hd Hno i. destruct (i_order w I) as (Ho1 & Ho2). pose proof (i_head w I) as EH. fold i in Hcl, He, Hd, Hno, Hc, Ho1, Ho2.
  set (w' := MkWorld _ _ _ _ _).
  constructor; try apply I; cbn [ring threads prx claimed outstanding w' ring_seen ring_tail posted acked_wrs_].
  - lia.
  - intros t g Ht. pose proof (i_gpu w I t g Ht) as Hg. destruct g as [?|? ?|? ? ?|it s|it s|?]; try exact Hg.
    + destruct Hg as (Hr & Hx). split; [|done]. assert (s <> i) by (intros ->; apply Hno; by exists t, (GWrite it i), it).
      fold i in Hr. cbn. lia.
    + destruct Hg as (Hr & Hx). split; [|done]. assert (s <> i) by (intros ->; apply Hno; by exists t, (GPublish it i), it).
      fold i in Hr. cbn. lia.
  - intros s Hs. destruct (i_slots w I s Hs) as (H1 & H2 & H3). split_and!; cbn [ring prx claimed w' ring_seen]; intros Hr.
    + apply H1. lia.
    + apply H2. lia.
    + destruct (decide (s = i)) as [->|]; [|apply H3; lia]. change (done_at w' i) with (done_at w i). rewrite Hd.
      change (entry w' i) with (entry w i). congruence.
  - rewrite (i_posted w I). fold i. rewrite (Z2Nat.inj_add i 1), seqZ_snoc, map_app by lia. change (Z.to_nat 1) with 1%nat.
    rewrite Nat.add_1_r, (take_S_r _ _ e) by exact Hcl. rewrite zip_with_app; [done|]. rewrite length_map, length_seqZ, length_take.
    unfold alen in EH. lia.
  - intros wr [Hw|[Hw| ->%elem_of_singleton]%elem_of_union].
    + destruct (i_wrs w I wr (or_introl Hw)) as (s & Hs & ? & ?). exists s. split_and!; [lia|fold i in Hs; lia|done|done].
    + destruct (i_wrs w I wr (or_intror Hw)) as (s & Hs & ? & ?). exists s. split_and!; [lia|fold i in Hs; lia|done|done].
    + exists i. split_and!; [lia|lia|done|done].
  - intros wr Hw [Hx|Hx%elem_of_singleton]%elem_of_union; [by apply (i_disj w I wr)|].
    destruct (i_wrs w I wr (or_introl Hw)) as (s & Hs & -> & _). fold i in Hs. apply wr_id_inj in Hx; lia.
  - intros s Hs Hds. destruct (decide (s = i)) as [->|]; [right; set_solver|].
    destruct (i_all w I s) as [?|?]; [fold i; lia|done|by left|right; set_solver].
  - split; [done|]. cbn. lia.
Qed.

Lemma scan_total w : inv w -> exists p, scan_step Cap rank rb_idx same_node (prx w) (ring w) = Done p.
Proof.
  intros I. pose proof (i_place w I) as Hp. unfold place_ok in Hp. unfold scan_step. destruct (at_ (prx w)) as [|c i|c i|].
  - case_match; by eexists.
  - destruct Hp as (-> & Hc). destruct (Z.ltb_spec (ring_seen (prx w)) c); [|by eexists].
    destruct (seen_entry w I ltac:(lia)) as (e & _ & He & _). unfold volatile_load_cmd_type. rewrite slot_idx_eq.
    rewrite (done_bind _ _ (cmd_type e)) by (rewrite (done_bind _ _ e); [done|by apply fetch_ok]). by eexists.
  - destruct Hp as (-> & Hc & He & Hn). destruct (seen_entry w I ltac:(lia)) as (e & x & He' & Hx & (Ht & Hl) & _ & _).
    assert (e = x) as -> by congruence. unfold load_cmd_entry. rewrite slot_idx_eq, (done_bind _ _ x) by (by apply fetch_ok).
    rewrite (proj2 (Z.eqb_neq _ _) Ht), Hl. by eexists.
  - by eexists.
Qed.

Lemma inv_scan w p : inv w -> alen (claimed w) < 2 ^ 32 -> scan_step Cap rank rb_idx same_node (prx w) (ring w) = Done p ->
  inv (MkWorld (ring w) (threads w) p (claimed w) (outstanding w ∪ list_to_set (map fst (drop (length (posted (prx w))) (posted p))))).
Proof.
  intros I HC Hs. pose proof (i_place w I) as Hp. unfold place_ok in Hp. unfold scan_step in Hs.
  assert (forall pl, p = p_at pl (prx w) -> place_ok (MkWorld (ring w) (threads w) (p_at pl (prx w)) (claimed w) (outstanding w)) ->
    inv (MkWorld (ring w) (threads w) p (claimed w) (outstanding w ∪ list_to_set (map fst (drop (length (posted (prx w))) (posted p)))))) as Hpl.
  { intros pl -> Hx. cbn [posted p_at]. rewrite drop_all. cbn [map list_to_set]. rewrite union_empty_r_L. by apply inv_place. }
  assert (p_at (at_ (prx w)) (prx w) = prx w) as Heta by (by destruct (prx w)).
  destruct (at_ (prx w)) as [|c i|c i|] eqn:Eat.
  - case_match; injection Hs as <-; [by apply (Hpl PIdle)|]. apply (Hpl (PScan (d_head (ring w)) (ring_seen (prx w)))); [done|]. split; cbn; lia.
  - destruct Hp as (-> & Hc). destruct (Z.ltb_spec (ring_seen (prx w)) c); [|injection Hs as <-; by apply (Hpl PIdle)].
    destruct (seen_entry w I ltac:(lia)) as (e & x & He & Hx & _ & _ & Hty). unfold volatile_load_cmd_type in Hs. rewrite slot_idx_eq in Hs.
    rewrite (done_bind _ _ (cmd_type e)) in Hs by (rewrite (done_bind _ _ e); [done|by apply fetch_ok]). injection Hs as <-.
    destruct (Z.eqb_spec (cmd_type e) EMPTY) as [E|E]; [by apply (Hpl PIdle)|]. destruct (Hty E) as (-> & Hno).
    apply (Hpl (PEntry c (ring_seen (prx w)))); [done|]. split; [done|]. cbn. split; [lia|]. split; [|done]. change (entry w (ring_seen (prx w)) = aget (claimed w) (ring_seen (prx w))). congruence.
  - destruct Hp as (-> & Hc & He & Hn). destruct (seen_entry w I ltac:(lia)) as (e & x & He' & Hx & (Ht & Hl) & Hd & _).
    assert (e = x) as -> by congruence. unfold load_cmd_entry in Hs. rewrite slot_idx_eq, (done_bind _ _ x) in Hs by (by apply fetch_ok).
    rewrite (proj2 (Z.eqb_neq _ _) Ht), Hl in Hs. injection Hs as <-. cbn [posted]. rewrite drop_app_length. cbn [map fst list_to_set].
    rewrite union_empty_r_L. by apply inv_entry.
  - injection Hs as <-. by apply (Hpl PNotify).
Qed.


Lemma inv_complete w wr : inv w -> wr ∈ outstanding w -> at_ (prx w) = PIdle ->
  inv (MkWorld (ring w) (threads w)
        (MkProxy (ring_seen (prx w)) (ring_tail (prx w)) PIdle (posted (prx w)) ({[wr]} ∪ acked_wrs_ (prx w)))
        (claimed w) (outstanding w ∖ {[wr]})).
Proof.
  intros I Hwr Hat. constructor; try apply I; cbn [ring threads prx claimed outstanding ring_seen ring_tail acked_wrs_ at_]; [..|done].
  - intros x Hx. apply (i_wrs w I). set_solver.
  - intros x Hx Hy. destruct (decide (x = wr)); [set_solver|]. apply (i_disj w I x); set_solver.
  - intros s Hs Hd. destruct (i_all w I s Hs Hd); destruct (decide (wr_id s = wr)); set_solver.
Qed.

(** Acknowledging work request [s]: its entry is vacated and its bit set. *)
Lemma inv_ack w s r : inv w -> alen (claimed w) < 2 ^ 32 -> at_ (prx w) = PNotify -> wr_id s ∈ acked_wrs_ (prx w) ->
  d_tail (ring w) <= s < ring_seen (prx w) -> done_at w s = false -> ack_wr Cap rb_idx (wr_id s) (ring w) = Done r ->
  inv (MkWorld r (threads w)
        (MkProxy (ring_seen (prx w)) (ring_tail (prx w)) PNotify (posted (prx w)) (acked_wrs_ (prx w) ∖ {[wr_id s]}))
        (claimed w) (outstanding w)).
Proof.
  intros I HC Hat Hwr Hs Hd H. destruct (i_order w I) as (Ho1 & Ho2). pose proof (i_head w I) as EH. pose proof cap_pos as Hcp.
  destruct (wr_id_decode s ltac:(lia)) as (Erb & Eidx). unfold ack_wr in H. rewrite Erb, Eidx, Z.eqb_refl in H. cbn [negb] in H.
  destruct (aget_is_Some (d_buf (ring w)) (s mod Cap)) as (e & He); [rewrite (i_buf w I); apply mod_cap|].
  unfold volatile_clear_cmd_type in H. rewrite slot_idx_eq in H. rewrite (done_bind (fetch _ _) _ e) in H by (by apply fetch_ok).
  rewrite (done_bind (Done _) _ _ eq_refl) in H. cbn [d_mask] in H.
  destruct (mark_acked_spec Cap (d_mask (ring w)) (s mod Cap) (i_mask w I) (mod_cap s)) as (m' & Hm & M' & Hb).
  rewrite (done_bind _ _ m' Hm) in H. injection H as <-. cbn [d_head d_tail d_buf]. set (w' := MkWorld _ _ _ _ _).
  assert (forall x, d_tail (ring w) <= x < d_tail (ring w) + Cap -> x <> s -> entry w' x = entry w x /\ done_at w' x = done_at w x) as Hoth.
  { intros x Hx Hne. assert (x mod Cap <> s mod Cap) as Hn by (intros E; apply Hne, (slot_same (d_tail (ring w))); [lia|lia|done]). split.
    - unfold w'. rewrite (entry_set w s x (set_cmd_type EMPTY e)) by done. by case_decide.
    - unfold done_at. cbn. rewrite Hb by (pose proof (mod_cap x); lia). by rewrite (proj2 (Z.eqb_neq _ _) Hn), orb_false_r. }
  assert (vacant w' s) as Hvac.
  { exists (set_cmd_type EMPTY e). split; [|done]. unfold w'. rewrite (entry_set w s s (set_cmd_type EMPTY e)) by done. by case_decide. }
  assert (done_at w' s = true) as Hdn.
  { unfold done_at. cbn. rewrite Hb by (pose proof (mod_cap s); lia). by rewrite Z.eqb_refl, orb_true_r. }
  constructor; try apply I; cbn [ring threads prx claimed outstanding w' d_head d_tail d_buf d_mask ring_seen ring_tail acked_wrs_ at_].
  - rewrite alen_aset. apply (i_buf w I).
  - done.
  - intros t g Ht. pose proof (i_gpu w I t g Ht) as Hg. destruct g as [?|? ?|? ? ?|it x|it x|?]; try exact Hg.
    + destruct Hg as (Hr & Hc & e0 & He0 & Hty). split; [done|]. split; [done|]. exists e0. by rewrite (proj1 (Hoth x ltac:(lia) ltac:(lia))).
    + destruct Hg as (Hr & Hc & He0). split; [done|]. split; [done|]. by rewrite (proj1 (Hoth x ltac:(lia) ltac:(lia))).
  - intros x Hx. destruct (decide (x = s)) as [->|Hne].
    + split_and!; cbn [ring prx d_head ring_seen w']; intros Hr; [lia|lia|]. by rewrite Hdn.
    + destruct (Hoth x Hx Hne) as (E1 & E2). unfold slot_ok, vacant. rewrite E1, E2. apply (i_slots w I x Hx).
  - intros wr Hw. destruct (i_wrs w I wr) as (x & Hx & -> & Hdx); [set_solver|]. exists x. split; [done|]. split; [done|].
    assert (x <> s) as Hne. { intros ->. destruct Hw as [Hw|Hw]; [set_solver|]. by apply (i_disj w I (wr_id s)). }
    by rewrite (proj2 (Hoth x ltac:(lia) Hne)).
  - intros wr Hw. apply (i_disj w I). set_solver.
  - intros x Hx Hdx. assert (x <> s) as Hne by (intros ->; congruence). rewrite (proj2 (Hoth x ltac:(lia) Hne)) in Hdx.
    destruct (i_all w I x Hx Hdx) as [?|?]; [|by right]. left. apply elem_of_difference. split; [done|].
    intros E%elem_of_singleton%wr_id_inj; lia.
  - done.
Qed.

Lemma notify_effect w : inv w -> alen (claimed w) < 2 ^ 32 -> exists n m',
  notify_tail Cap (prx w) (ring w) = Done (MkProxy (ring_seen (prx w)) (d_tail (ring w) + n) PIdle (posted (prx w)) (acked_wrs_ (prx w)),
    MkDring (d_head (ring w)) (d_tail (ring w) + n) (d_buf (ring w)) m') /\ advanced Cap (d_tail (ring w)) n (d_mask (ring w)) m' /\
  0 <= n <= ring_seen (prx w) - d_tail (ring w) /\
  (n = ring_seen (prx w) - d_tail (ring w) \/ done_at w (d_tail (ring w) + n) = false \/ (d_tail (ring w) mod Cap = 0 /\ all_acked Cap (d_mask (ring w)))).
Proof.
  intros I HC. destruct (i_order w I) as (Ho1 & Ho2). pose proof (i_head w I) as EH. pose proof cap_pos as Hcp. pose proof cap_small.
  destruct (advance_spec Cap Hcp (d_mask (ring w)) (d_tail (ring w)) (i_mask w I)) as (n & m' & Ha & Had & Hmax); [lia|lia|].
  exists n, m'. assert (n <= ring_seen (prx w) - d_tail (ring w)) as Hn.
  { apply Z.nlt_ge. intros Hlt. pose proof (ad_range _ _ _ _ _ Had). set (s := ring_seen (prx w)) in *.
    assert (d_tail (ring w) <= s < d_tail (ring w) + Cap) as Hs by lia.
    pose proof (ad_was _ _ _ _ _ Had (s - d_tail (ring w)) ltac:(lia)) as Hx. unfold slot in Hx.
    replace (d_tail (ring w) + (s - d_tail (ring w))) with s in Hx by lia. fold (done_at w s) in Hx.
    destruct (i_slots w I s Hs) as (H1 & H2 & _). destruct (decide (d_head (ring w) <= s)) as [Hle|Hgt].
    - destruct (H1 Hle). congruence.
    - destruct (H2 ltac:(unfold s in *; lia)). congruence. }
  split; [unfold notify_tail; rewrite (done_bind _ _ _ Ha); done|]. split; [done|]. split; [pose proof (ad_range _ _ _ _ _ Had); lia|].
  destruct Hmax as [->|[Hx|(Hx & -> & _ & Hy)]]; [left; lia|right; by left|right; by right].
Qed.

Lemma inv_tail w p r : inv w -> alen (claimed w) < 2 ^ 32 -> acked_wrs_ (prx w) = ∅ -> notify_tail Cap (prx w) (ring w) = Done (p, r) ->
  inv (MkWorld r (threads w) p (claimed w) (outstanding w)).
Proof.
  intros I HC Hem H. destruct (notify_effect w I HC) as (n & m' & Hn & Had & Hr & _). rewrite Hn in H. injection H as <- <-. clear Hn.
  destruct (i_order w I) as (Ho1 & Ho2). pose proof cap_pos as Hcp. set (T := d_tail (ring w)) in *. set (w' := MkWorld _ _ _ _ _).
  assert (forall s, T + n <= s < T + Cap -> done_at w' s = done_at w s) as Hkeep.
  { intros s Hs. pose proof (ad_now _ _ _ _ _ Had (s - T) ltac:(lia)) as Hx. unfold slot in Hx. replace (T + (s - T)) with s in Hx by lia.
    unfold done_at. cbn. rewrite Hx. by rewrite (proj2 (Z.leb_le n (s - T)) ltac:(lia)), andb_true_r. }
  constructor; try apply I; cbn [ring threads prx claimed outstanding w' d_head d_tail d_buf d_mask ring_seen ring_tail acked_wrs_ posted at_].
  - lia.
  - done.
  - apply Had.
  - intros t g Ht. pose proof (i_gpu w I t g Ht) as Hg. destruct g as [?|? ?|? ? ?|it x|it x|?]; try exact Hg.
    destruct Hg as (? & ? & Htl & ? & ?). fold T in Htl. split_and!; try done; cbn; lia.
  - intros s Hs. destruct (decide (s < T + Cap)) as [Hlt|Hge].
    + destruct (i_slots w I s ltac:(lia)) as (H1 & H2 & H3). unfold slot_ok. rewrite Hkeep by lia. done.
    + assert (exists j, 0 <= j < n /\ s = T + j + Cap) as (j & Hj & Es) by (exists (s - T - Cap); lia).
      assert (s mod Cap = (T + j) mod Cap) as Em by (rewrite Es, <- (Z.mul_1_l Cap) at 1; apply Z.mod_add; lia).
      pose proof (ad_was _ _ _ _ _ Had j Hj) as Hw. unfold slot in Hw. fold (done_at w (T + j)) in Hw.
      pose proof (ad_now _ _ _ _ _ Had j ltac:(lia)) as Hx. unfold slot in Hx. rewrite (proj2 (Z.leb_gt n j)), andb_false_r in Hx by lia.
      split_and!; cbn [ring prx d_head ring_seen w']; intros Hr'; [|lia|lia]. split.
      * destruct (i_slots w I (T + j) ltac:(lia)) as (_ & _ & H3). specialize (H3 ltac:(lia)). rewrite Hw in H3.
        destruct H3 as (e & He & Hty). exists e. unfold entry in *. cbn. by rewrite Em.
      * unfold done_at. cbn. by rewrite Em.
  - intros wr Hw. destruct (i_wrs w I wr Hw) as (s & Hs & -> & Hd). exists s.
    assert (T + n <= s) as Hle.
    { apply Z.nlt_ge. intros Hlt. pose proof (ad_was _ _ _ _ _ Had (s - T) ltac:(fold T in Hs; lia)) as Hx. unfold slot in Hx.
      replace (T + (s - T)) with s in Hx by lia. unfold done_at in Hd. congruence. }
    split; [lia|]. split; [done|]. rewrite Hkeep by (fold T in Hs; lia). done.
  - intros s Hs Hd. rewrite Hkeep in Hd by lia. apply (i_all w I); [fold T; lia|done].
  - done.
Qed.

(** ** Every step *)

Definition binv (w : world) : Prop := alen (claimed w) < 2 ^ 32 -> inv w.

Lemma inv_init : inv (init Cap).
Proof.
  pose proof cap_pos as Hcp. assert (0 <= kNumWords Cap) as Hnw by (apply Z.div_pos; lia).
  assert (forall s, entry (init Cap) s = Some empty_cmd) as He.
  { intros s. pose proof (mod_cap s). apply lookup_replicate. split; [done|lia]. }
  assert (forall s, done_at (init Cap) s = false) as Hd.
  { intros s. unfold done_at, acked. cbn. destruct (aget _ _) as [x|] eqn:E; [|done].
    apply lookup_replicate in E as (-> & _). apply Z.testbit_0_l. }
  constructor; cbn; autorewrite with arr; try done; try lia.
  - unfold alen. rewrite length_replicate. lia.
  - constructor; [unfold alen; rewrite length_replicate; lia|]. apply Forall_replicate. unfold in_word. lia.
  - intros s Hs. split_and!; cbn; intros Hr; [|lia|lia]. split; [|done]. exists empty_cmd. done.
  - intros wr [Hw|Hw]; set_solver.
Qed.

Lemma proxy_inv_step w w' : step w w' -> binv w -> binv w'.
Proof.
  intros Hs B HC. assert (inv w) as I.
  { apply B. destruct Hs; try done. cbn in HC. autorewrite with arr in HC. pose proof (alen_nonneg (claim_of g g')). lia. }
  assert (alen (claimed w) < 2 ^ 32) as HC0.
  { destruct Hs; try done. cbn in HC. autorewrite with arr in HC. pose proof (alen_nonneg (claim_of g g')). lia. }
  destruct Hs as [w t item Ht Hok|w t g g' r Ht Hg|w p Hp|w wr Hwr Hat|w Hat Hne|w wr r Hat Hwr Hr|w p r Hat He Hr]; cbn [claimed] in HC.
  - apply inv_move; [done|done|done|]. destruct (threads w !! t) as [[]|]; done.
  - by apply (inv_gpu w t g).
  - by apply inv_scan.
  - by apply inv_complete.
  - by apply inv_place.
  - destruct (i_wrs w I wr (or_introl Hwr)) as (s & Hs & -> & Hd). by apply inv_ack.
  - by apply inv_tail.
Qed.

Lemma proxy_reachable_inv w : reachable Cap rank rb_idx same_node w -> binv w.
Proof. intros Hr. apply (rtc_invariant step binv (init Cap) w); [|done|]. { intros x y Hxy. by apply proxy_inv_step. } intros _. apply inv_init. Qed.

(** ** A ring that is full of acknowledged commands *)

Record wedged (w : world) : Prop := {
  g_inv : inv w;
  g_full : d_head (ring w) = d_tail (ring w) + Cap;
  g_seen : ring_seen (prx w) = d_head (ring w);
  g_idle : at_ (prx w) = PIdle;
  g_acked : acked_wrs_ (prx w) = ∅;
  g_out : outstanding w = ∅;
  g_few : alen (claimed w) < 2 ^ 32;
}.

Lemma wedged_step w w' : step w w' -> wedged w -> wedged w' /\ d_head (ring w') = d_head (ring w).
Proof.
  intros Hs G. pose proof (g_inv w G) as I. pose proof (i_order w I) as (Ho1 & Ho2). pose proof cap_pos as Hcp. pose proof (i_tail w I) as Et.
  pose proof (g_full w G) as Hf. pose proof (g_seen w G) as Hse. pose proof (g_idle w G) as Hidle. pose proof (g_few w G) as HC.
  assert (forall t g, threads w !! t = Some g -> owns g = None) as Hown.
  { intros t g Ht. destruct (owns g) as [[item s]|] eqn:E; [|done]. destruct (owns_range w t g item s I Ht E). lia. }
  assert (inv w' -> d_head (ring w') = d_head (ring w) /\ d_tail (ring w') = d_tail (ring w) /\ prx w' = prx w /\ outstanding w' = outstanding w /\
          claimed w' = claimed w -> wedged w' /\ d_head (ring w') = d_head (ring w)) as Hgo.
  { intros I' (E1 & E2 & E3 & E4 & E5). split; [|done]. destruct G. constructor; rewrite ?E1, ?E2, ?E3, ?E4, ?E5; done. }
  assert (alen (claimed w') < 2 ^ 32 -> inv w') as Hinv by (intros; by apply (proxy_inv_step w w' Hs (fun _ => I))).
  destruct Hs as [w t item Ht Hok|w t g g' r Ht Hg|w p Hp|w wr Hwr Hat|w Hat Hne|w wr r Hat Hwr Hr|w p r Hat He Hr].
  - apply Hgo; [by apply Hinv|done].
  - pose proof (i_gpu w I t g Ht) as Hok. pose proof (Hown t g Ht) as Hno.
    assert (d_head r = d_head (ring w) /\ d_tail r = d_tail (ring w) /\ claim_of g g' = []) as (E1 & E2 & E3).
    { destruct g as [?|? ?|item h tl|? ?|? ?|?]; cbn in Hg, Hno; try done; [by injection Hg as <- <-|by injection Hg as <- <-; case_match|].
      destruct (Z.eqb_spec (d_head (ring w)) h) as [E|E]; [|by injection Hg as <- <-]. destruct Hok as (_ & ? & ? & ? & ?). lia. }
    assert (claimed w ++ claim_of g g' = claimed w) as Ec by (rewrite E3; apply app_nil_r).
    apply Hgo; [apply Hinv; cbn; by rewrite Ec|by rewrite Ec].
  - unfold scan_step in Hp. rewrite Hidle in Hp. rewrite (proj2 (Z.eqb_neq (d_head (ring w)) (ring_tail (prx w)))) in Hp by lia.
    rewrite Hse, Z.sub_diag in Hp. cbn in Hp. injection Hp as <-.
    apply Hgo; [by apply Hinv|]. cbn. split_and!; try done. rewrite drop_all. cbn. by rewrite union_empty_r_L.
  - rewrite (g_out w G) in Hwr. set_solver.
  - by rewrite (g_acked w G) in Hne.
  - congruence.
  - congruence.
Qed.

Lemma wedged_forever w w' : wedged w -> rtc step w w' -> wedged w' /\ d_head (ring w') = d_head (ring w).
Proof.
  intros G Hr. apply (rtc_invariant step (fun x => wedged x /\ d_head (ring x) = d_head (ring w)) w w'); [|done|done].
  intros a b Hab (Ga & Ea). destruct (wedged_step a b Hab Ga) as (Gb & Eb). split; [done|congruence].
Qed.

End spec.

(** C10: The proxy posts the commands that GPU threads put on a ring in the order in
    which their slots were taken, each once, with the content its thread gave it
    and a work-request id of its own; it never meets a half-written entry, reads
    outside of the ring or aborts; and at most a ring of commands is in
    progress. *)
Theorem commands_posted_once k rank rb_idx same_node w :
  0 <= k <= 31 -> in_word 32 rb_idx -> reachable (2 ^ k) rank rb_idx same_node w -> alen (claimed w) < 2 ^ 32 ->
  let seen := ring_seen (prx w) in
  posted (prx w) = zip (map (wr_id rb_idx) (seqZ 0 seen)) (take (Z.to_nat seen) (claimed w)) /\
  NoDup (map fst (posted (prx w))) /\
  d_tail (ring w) <= seen <= alen (claimed w) /\ alen (claimed w) <= d_tail (ring w) + 2 ^ k /\
  exists p, scan_step (2 ^ k) rank rb_idx same_node (prx w) (ring w) = Done p.
Proof.
  intros Hk Hrb Hr HC seen. pose proof (proxy_reachable_inv k rank rb_idx same_node Hk Hrb w Hr HC) as I.
  destruct (i_order _ _ _ _ w I) as (Ho1 & Ho2). pose proof (i_head _ _ _ _ w I) as EH. fold seen in Ho1, Ho2.
  split; [apply (i_posted _ _ _ _ w I)|]. split; [|split; [lia|split; [lia|by apply scan_total]]].
  rewrite (i_posted _ _ _ _ w I). fold seen. change (map fst) with (fmap (M := list) (@fst Z TransferCmd)).
  rewrite fst_zip by (rewrite length_map, length_seqZ, length_take; unfold alen in *; lia).
  apply NoDup_fmap_2_strong; [|apply NoDup_seqZ]. intros x y Hx%elem_of_seqZ Hy%elem_of_seqZ E.
  apply (wr_id_inj rb_idx Hrb) in E; lia.
Qed.

(** C19: When every command that was posted has been completed and acknowledged, the
    proxy's tail catches up with what it has posted, so that all slots are free
    again; except when the ring is full and its tail is at slot 0. *)
Theorem slots_come_back k rank rb_idx same_node w :
  0 <= k <= 31 -> in_word 32 rb_idx -> reachable (2 ^ k) rank rb_idx same_node w -> alen (claimed w) < 2 ^ 32 ->
  acked_wrs_ (prx w) = ∅ -> outstanding w = ∅ ->
  ring_seen (prx w) < d_tail (ring w) + 2 ^ k \/ d_tail (ring w) mod 2 ^ k <> 0 ->
  exists p r, notify_tail (2 ^ k) (prx w) (ring w) = Done (p, r) /\ d_tail r = ring_seen (prx w) /\ ring_tail p = ring_seen (prx w).
Proof.
  intros Hk Hrb Hr HC Hem Hout Hroom. pose proof (proxy_reachable_inv k rank rb_idx same_node Hk Hrb w Hr HC) as I.
  destruct (i_order _ _ _ _ w I) as (Ho1 & Ho2).
  assert (forall s, d_tail (ring w) <= s < ring_seen (prx w) -> done_at k w s = true) as Hall.
  { intros s Hs. apply not_false_iff_true. intros Hd. destruct (i_all _ _ _ _ w I s Hs Hd); set_solver. }
  destruct (notify_effect k rank rb_idx same_node Hk w I HC) as (n & m' & Hn & _ & Hrange & Hmax).
  assert (n = ring_seen (prx w) - d_tail (ring w)) as ->.
  { destruct Hmax as [?|[Hd|(Hz & Hfull)]]; [done| |].
    - destruct (decide (n = ring_seen (prx w) - d_tail (ring w))); [done|]. rewrite Hall in Hd by lia. done.
    - exfalso. destruct Hroom as [Hlt|?]; [|done]. destruct (i_slots _ _ _ _ w I (ring_seen (prx w)) ltac:(lia)) as (H1 & H2 & _).
      pose proof (Hfull _ (mod_cap k Hk (ring_seen (prx w)))) as Hx. fold (done_at k w (ring_seen (prx w))) in Hx.
      destruct (decide (d_head (ring w) <= ring_seen (prx w))) as [Hle|]; [destruct (H1 Hle)|destruct (H2 ltac:(lia))]; congruence. }
  eexists _, _. split; [exact Hn|]. cbn. lia.
Qed.

End EpProxySpec.
