(* ===== verification/EpProxyRuns.v ===== *)
(** * Runs of the command ring

    An executable form of the steps of [EpProxy.v], a run of three commands of
    two GPU threads, and a run that fills a ring and acknowledges all of it, after
    which no thread ever gets a slot ([ring_wedges]). *)

From S2P Require Import Prelude EpRing EpRingSpec EpProxy EpProxySpec.

Module EpProxyRuns.
Import EpRing EpRingSpec EpProxy EpProxySpec.

Inductive act := ACall (t : Z) (item : TransferCmd) | AGpu (t : Z) | AScan | AComplete (wr : Z) | ANotify | AAck (wr : Z) | ATail.

Section exec.
Context (Cap rank rb : Z) (same_node : Z -> bool).

Definition idle (p : place) : bool := match p with PIdle => true | _ => false end.
Definition notifying (p : place) : bool := match p with PNotify => true | _ => false end.

Definition exec (w : world) (a : act) : option world :=
  match a with
  | ACall t item =>
      if (match threads w !! t with None | Some (GDone _) => true | _ => false end) &&
         negb (cmd_type item =? EMPTY) && negb (local_cmd rank same_node item)
      then Some (MkWorld (ring w) (<[t := GHead item]> (threads w)) (prx w) (claimed w) (outstanding w)) else None
  | AGpu t =>
      match threads w !! t with
      | Some g => match gpu_step Cap g (ring w) with
                  | Some (g', r) => Some (MkWorld r (<[t := g']> (threads w)) (prx w) (claimed w ++ claim_of g g') (outstanding w))
                  | None => None
                  end
      | None => None
      end
  | AScan =>
      match scan_step Cap rank rb same_node (prx w) (ring w) with
      | Done p => Some (MkWorld (ring w) (threads w) p (claimed w)
                          (outstanding w ∪ list_to_set (map fst (drop (length (posted (prx w))) (posted p)))))
      | Fail _ => None
      end
  | AComplete wr =>
      if bool_decide (wr ∈ outstanding w) && idle (at_ (prx w)) then
        Some (MkWorld (ring w) (threads w)
                (MkProxy (ring_seen (prx w)) (ring_tail (prx w)) PIdle (posted (prx w)) ({[wr]} ∪ acked_wrs_ (prx w)))
                (claimed w) (outstanding w ∖ {[wr]}))
      else None
  | ANotify =>
      if idle (at_ (prx w)) && negb (bool_decide (acked_wrs_ (prx w) = ∅)) then
        Some (MkWorld (ring w) (threads w) (p_at PNotify (prx w)) (claimed w) (outstanding w))
      else None
  | AAck wr =>
      if notifying (at_ (prx w)) && bool_decide (wr ∈ acked_wrs_ (prx w)) then
        match ack_wr Cap rb wr (ring w) with
        | Done r => Some (MkWorld r (threads w)
                            (MkProxy (ring_seen (prx w)) (ring_tail (prx w)) PNotify (posted (prx w)) (acked_wrs_ (prx w) ∖ {[wr]}))
                            (claimed w) (outstanding w))
        | Fail _ => None
        end
      else None
  | ATail =>
      if notifying (at_ (prx w)) && bool_decide (acked_wrs_ (prx w) = ∅) then
        match notify_tail Cap (prx w) (ring w) with
        | Done (p, r) => Some (MkWorld r (threads w) p (claimed w) (outstanding w))
        | Fail _ => None
        end
      else None
  end.

Lemma idle_true p : idle p = true -> p = PIdle.
Proof. by destruct p. Qed.
Lemma notifying_true p : notifying p = true -> p = PNotify.
Proof. by destruct p. Qed.

Lemma exec_sound w a w' : exec w a = Some w' -> step Cap rank rb same_node w w'.
Proof.
  destruct a as [t item|t| |wr| |wr|]; cbn [exec]; intros H.
  - case_match eqn:E; [|done]. injection H as <-. apply andb_true_iff in E as ((E1 & Ht%negb_true_iff%Z.eqb_neq)%andb_true_iff & Hl%negb_true_iff).
    apply step_call; [|done]. by destruct (threads w !! t) as [[]|].
  - destruct (threads w !! t) as [g|] eqn:Ht; [|done]. destruct (gpu_step Cap g (ring w)) as [[g' r]|] eqn:Hg; [|done]. injection H as <-.
    by apply (step_gpu _ _ _ _ w t g).
  - destruct (scan_step _ _ _ _ (prx w) (ring w)) as [p|] eqn:Hs; [|done]. injection H as <-. by apply step_scan.
  - case_match eqn:E; [|done]. injection H as <-. apply andb_true_iff in E as (Hw%bool_decide_eq_true & Hi%idle_true). by apply step_complete.
  - case_match eqn:E; [|done]. injection H as <-. apply andb_true_iff in E as (Hi%idle_true & Hw%negb_true_iff%bool_decide_eq_false). by apply step_notify.
  - case_match eqn:E; [|done]. apply andb_true_iff in E as (Hi%notifying_true & Hw%bool_decide_eq_true).
    destruct (ack_wr Cap rb wr (ring w)) as [r|] eqn:Hr; [|done]. injection H as <-. by apply step_ack.
  - case_match eqn:E; [|done]. apply andb_true_iff in E as (Hi%notifying_true & Hw%bool_decide_eq_true).
    destruct (notify_tail Cap (prx w) (ring w)) as [[p r]|] eqn:Hr; [|done]. injection H as <-. by apply step_tail.
Qed.

Definition run (l : list act) : option world := foldl (fun o a => o ≫= fun w => exec w a) (Some (init Cap)) l.

Lemma proxy_run_reaches {A} (f : world -> A) l x : option_map f (run l) = Some x -> exists w, reachable Cap rank rb same_node w /\ f w = x.
Proof.
  revert x. unfold run. assert (forall w, foldl (fun o a => o ≫= fun w => exec w a) (Some (init Cap)) l = Some w -> reachable Cap rank rb same_node w) as Hr.
  { induction l as [|a l IH] using rev_ind; intros w H; [injection H as <-; apply rtc_refl|].
    rewrite foldl_app in H. cbn in H. destruct (foldl _ (Some (init Cap)) l) as [w1|] eqn:E; [|done]. cbn in H.
    eapply rtc_r; [by apply IH|by eapply exec_sound]. }
  intros x. destruct (foldl _ _ l) as [w|]; [|done]. intros [= <-]. exists w. split; [by apply Hr|done].
Qed.

End exec.

(** A thread's whole call, and the proxy picking up one command. *)
Definition a_cmd (n : Z) : TransferCmd := MkCmd (make_cmd_type WRITE false false) 3 0 n 16 32 0.
Definition push_acts (t n : Z) : list act := ACall t (a_cmd n) :: replicate 5 (AGpu t).
Definition id0 (i : Z) : Z := wr_id 7 i.

(** Two commands with slots taken in one order and published in the other; both
    are posted, the second completes first. *)
Definition mixed_run : list act :=
  [ACall 1 (a_cmd 100); ACall 2 (a_cmd 200)] ++ replicate 3 (AGpu 1) ++ replicate 5 (AGpu 2) ++ [AScan; AScan] ++ replicate 2 (AGpu 1) ++
  replicate 6 AScan ++ [AComplete (id0 1); ANotify; AAck (id0 1); ATail].

Definition full_run : list act :=
  push_acts 1 100 ++ push_acts 2 200 ++ replicate 6 AScan ++ [AComplete (id0 1); AComplete (id0 0); ANotify; AAck (id0 0); AAck (id0 1); ATail; ACall 3 (a_cmd 300)].

Definition view (w : world) : Z * Z * Z * Z * bool * option gpu * bool :=
  (d_head (ring w), d_tail (ring w), ring_seen (prx w), alen (claimed w), idle (at_ (prx w)), threads w !! 3,
   bool_decide (acked_wrs_ (prx w) = ∅) && bool_decide (outstanding w = ∅)).

Lemma full_reached : exists w, reachable 2 0 7 (fun _ => false) w /\ view w = (2, 0, 2, 2, true, Some (GHead (a_cmd 300)), true).
Proof. apply (proxy_run_reaches 2 0 7 (fun _ => false) view full_run). by vm_compute. Qed.

Lemma mixed_reached : exists w, reachable 4 0 7 (fun _ => false) w /\ view w = (2, 0, 2, 2, true, None, false).
Proof. apply (proxy_run_reaches 4 0 7 (fun _ => false) view mixed_run). by vm_compute. Qed.

Lemma commands_posted_once_witness : exists w, ring_seen (prx w) = 2 /\
  posted (prx w) = zip (map (wr_id 7) (seqZ 0 2)) (take 2 (claimed w)).
Proof.
  destruct mixed_reached as (w & Hr & E). injection E as _ _ Es Ec _ _ _. exists w. split; [done|].
  destruct (commands_posted_once 2 0 7 (fun _ => false) w) as (Hp & _); [lia|word_lia|exact Hr|lia|]. rewrite Es in Hp. exact Hp.
Defined.

(** C39: The ring wedges: here a ring of two slots, whose two commands were posted,
    completed and acknowledged, while a third thread waits.  The tail stays, and
    whatever follows, no command is ever accepted. *)
Theorem ring_wedges : exists w, reachable 2 0 7 (fun _ => false) w /\
  alen (claimed w) = 2 /\ ring_seen (prx w) = 2 /\ outstanding w = ∅ /\ acked_wrs_ (prx w) = ∅ /\ threads w !! 3 = Some (GHead (a_cmd 300)) /\
  forall w', rtc (step 2 0 7 (fun _ => false)) w w' -> d_head (ring w') = 2 /\ d_tail (ring w') = 0 /\ alen (claimed w') = 2.
Proof.
  destruct full_reached as (w & Hr & E). unfold view in E. injection E as Eh Et Es Ec Ei Eth Eb. exists w.
  apply andb_true_iff in Eb as (Ha%bool_decide_eq_true & Ho%bool_decide_eq_true). apply idle_true in Ei.
  assert (wedged 1 0 7 (fun _ => false) w) as G.
  { constructor; [|rewrite Eh, Et; done|congruence|done|done|done|lia].
    apply (proxy_reachable_inv 1 0 7 (fun _ => false) ltac:(lia) ltac:(word_lia) w Hr). lia. }
  split; [done|]. split_and!; try done. intros w' Hw'.
  destruct (wedged_forever 1 0 7 (fun _ => false) ltac:(lia) ltac:(word_lia) w w' G Hw') as (G' & Eh').
  pose proof (g_full _ _ _ _ _ G') as Hf. pose proof (i_head _ _ _ _ _ (g_inv _ _ _ _ _ G')). cbn in Hf. lia.
Qed.

Definition acked_run : list act :=
  push_acts 1 100 ++ push_acts 2 200 ++ replicate 6 AScan ++ [AComplete (id0 1); AComplete (id0 0); ANotify; AAck (id0 0); AAck (id0 1)].

Lemma acked_reached : exists w, reachable 4 0 7 (fun _ => false) w /\ view w = (2, 0, 2, 2, false, None, true).
Proof. apply (proxy_run_reaches 4 0 7 (fun _ => false) view acked_run). by vm_compute. Qed.

Lemma slots_come_back_witness : exists w p r, ring_seen (prx w) = 2 /\ notify_tail 4 (prx w) (ring w) = Done (p, r) /\ d_tail r = 2.
Proof.
  destruct acked_reached as (w & Hr & E). injection E as _ Et Es Ec _ _ Eb. apply andb_true_iff in Eb as (Ha%bool_decide_eq_true & Ho%bool_decide_eq_true).
  destruct (slots_come_back 2 0 7 (fun _ => false) w) as (p & r & Hn & Hd & _); [lia|word_lia|exact Hr|lia|done|done|left; lia|].
  exists w, p, r. split; [done|]. split; [exact Hn|congruence].
Defined.

End EpProxyRuns.
