(* ===== verification/SeqNum.v ===== *)
(** * Sequence-number trackers of the peer-to-peer engine

    [AtomicBitmapPacketTrackerMultiAck], which a [SendConnection] uses for its
    work requests, and [BitmapPacketTracker] of [p2p/util/seq_num.h] and
    [seq_num.cc].  Sequence numbers are 32-bit words; the arrays are indexed by
    the number modulo [W], the [WINDOW_SIZE].  A [compare_exchange_weak] may fail
    without another thread having changed the word: [cas] says which of the
    attempts of a call fail. *)

From S2P Require Import Prelude.

Module SeqNum.

Section tracker.
Context (W : Z).

(** ** Packets that take several acknowledgements *)

Record tracker := MkTracker {
  ack_bitmap_ : list bool;
  expected_ack_count_ : list Z;
  current_ack_count_ : list Z;
  packet_sizes_ : list Z;
  base_seq_num_ : Z;
  next_seq_num_ : Z;
}.

Definition new_tracker (initial_seq : Z) : tracker :=
  let k := Z.to_nat W in
  MkTracker (replicate k false) (replicate k 1) (replicate k 0) (replicate k 0) initial_seq initial_seq.

Definition set_slot (pos : Z) (a : bool) (e c s : Z) (t : tracker) : tracker :=
  MkTracker (aset (ack_bitmap_ t) pos a) (aset (expected_ack_count_ t) pos e) (aset (current_ack_count_ t) pos c)
    (aset (packet_sizes_ t) pos s) (base_seq_num_ t) (next_seq_num_ t).
Definition set_base (b : Z) (t : tracker) : tracker :=
  MkTracker (ack_bitmap_ t) (expected_ack_count_ t) (current_ack_count_ t) (packet_sizes_ t) b (next_seq_num_ t).
Definition set_next (n : Z) (t : tracker) : tracker :=
  MkTracker (ack_bitmap_ t) (expected_ack_count_ t) (current_ack_count_ t) (packet_sizes_ t) (base_seq_num_ t) n.

Definition ack_at (pos : Z) (t : tracker) : bool := default false (aget (ack_bitmap_ t) pos).
Definition need_at (pos : Z) (t : tracker) : Z := default 0 (aget (expected_ack_count_ t) pos).
Definition got_at (pos : Z) (t : tracker) : Z := default 0 (aget (current_ack_count_ t) pos).
Definition size_at (pos : Z) (t : tracker) : Z := default 0 (aget (packet_sizes_ t) pos).

(** A round of the loop clears the slot before it tries to move the base; each
    round moves the base or leaves the slot clear, so [next - base] rounds and
    one more are enough. *)
Fixpoint slide (fuel : nat) (cas : list bool) (t : tracker) : tracker :=
  match fuel with
  | O => t
  | S fuel =>
      let b := base_seq_num_ t in
      if (b <? next_seq_num_ t) && ack_at (b mod W) t then
        let t := set_slot (b mod W) false 1 0 0 t in
        match cas with
        | false :: cas => slide fuel cas t
        | _ => slide fuel (tl cas) (set_base (b +[32] 1) t)
        end
      else t
  end.
Definition slide_window (cas : list bool) (t : tracker) : tracker :=
  slide (S (Z.to_nat (next_seq_num_ t - base_seq_num_ t))) cas t.

Definition send_packet (cas : list bool) (packet_size expected_ack : Z) (t : tracker) : Z * tracker :=
  let seq := next_seq_num_ t in
  let t := set_next (seq +[32] 1) t in
  let t := if W <=? seq -[32] base_seq_num_ t then slide_window cas t else t in
  (seq, set_slot (seq mod W) false expected_ack 0 packet_size t).

(** [seq_num < base || seq_num - base >= WINDOW_SIZE] *)
Definition outside (seq : Z) (t : tracker) : bool := (seq <? base_seq_num_ t) || (W <=? seq -[32] base_seq_num_ t).

Definition mark (pos : Z) (t : tracker) : tracker := set_slot pos true (need_at pos t) (got_at pos t) (size_at pos t) t.

Definition acknowledge (cas : list bool) (seq : Z) (t : tracker) : tracker :=
  if outside seq t then t
  else
  let pos := seq mod W in
  let cur := got_at pos t +[32] 1 in
  let t := set_slot pos (ack_at pos t) (need_at pos t) cur (size_at pos t) t in
  if need_at pos t <=? cur then slide_window cas (mark pos t) else t.

Definition update_expected_ack_count (cas : list bool) (seq new_expected : Z) (t : tracker) : bool * tracker :=
  if (seq <? base_seq_num_ t) || (next_seq_num_ t <=? seq) || (W <=? seq -[32] base_seq_num_ t) then (false, t)
  else
  let pos := seq mod W in
  let t := set_slot pos (ack_at pos t) new_expected (got_at pos t) (size_at pos t) t in
  (true, if new_expected <=? got_at pos t then slide_window cas (mark pos t) else t).

Definition is_acknowledged (seq : Z) (t : tracker) : bool := outside seq t || ack_at (seq mod W) t.

(** The sequence numbers that the three loops over the window visit. *)
Definition window (t : tracker) : list Z :=
  filter (fun s => (s <? next_seq_num_ t) && negb (ack_at (s mod W) t) = true) (map (fun i => base_seq_num_ t +[32] i) (seqZ 0 W)).
Definition get_unacknowledged_packets (t : tracker) : list Z := window t.
Definition get_inflight_count (t : tracker) : Z := wrap 32 (alen (window t)).
Definition get_total_inflight_bytes (t : tracker) : Z :=
  foldl (fun total s => total +[64] size_at (s mod W) t) 0 (window t).

Definition get_packet_size (seq : Z) (t : tracker) : Z := if outside seq t then 0 else size_at (seq mod W) t.
Definition update_packet_size (seq sz : Z) (t : tracker) : tracker :=
  if outside seq t then t
  else let pos := seq mod W in set_slot pos (ack_at pos t) (need_at pos t) (got_at pos t) sz t.

(** ** The plain tracker *)

Record plain := MkPlain { bits : list bool; pbase : Z; pnext : Z }.
Definition new_plain (initial_seq : Z) : plain := MkPlain (replicate (Z.to_nat W) false) initial_seq initial_seq.
Definition bit_at (i : Z) (p : plain) : bool := default false (aget (bits p) i).

Fixpoint plain_slide (fuel : nat) (p : plain) : plain :=
  match fuel with
  | O => p
  | S fuel =>
      if (pbase p <? pnext p) && bit_at (pbase p mod W) p then
        plain_slide fuel (MkPlain (aset (bits p) (pbase p mod W) false) (pbase p +[32] 1) (pnext p))
      else p
  end.
Definition plain_slide_window (p : plain) : plain := plain_slide (Z.to_nat (pnext p - pbase p)) p.

Definition plain_send (p : plain) : Z * plain :=
  let seq := pnext p in
  let p := MkPlain (bits p) (pbase p) (seq +[32] 1) in
  let p := if W <=? seq -[32] pbase p then plain_slide_window p else p in
  (seq, MkPlain (aset (bits p) (seq mod W) false) (pbase p) (pnext p)).

Definition plain_acknowledge (seq : Z) (p : plain) : plain :=
  if (pbase p <=? seq) && (seq -[32] pbase p <? W) then
    plain_slide_window (MkPlain (aset (bits p) (seq mod W) true) (pbase p) (pnext p))
  else p.

Definition plain_is_acknowledged (seq : Z) (p : plain) : bool :=
  if (seq <? pbase p) || (W <=? seq -[32] pbase p) then true else bit_at (seq mod W) p.

(** The bitmap is read at the position in the window, not at that of the number. *)
Definition plain_unacknowledged (p : plain) : list Z :=
  map (fun i => pbase p +[32] i) (filter (fun i => (pbase p +[32] i <? pnext p) && negb (bit_at i p) = true) (seqZ 0 W)).

End tracker.
End SeqNum.
