(* ===== verification/SeqNumSpec.v ===== *)
(** * What the tracker keeps

    Against a list of packets, each with its size, the acknowledgements it needs
    and has, and whether it is done: as long as no more than a window of packets
    is outstanding and the sequence numbers have not wrapped around, the tracker
    of [SeqNum.v] answers every query from that list ([tracker_refines]).  Its
    window never slides over a packet again once a weak compare-and-swap failed
    for no reason, or once the numbers wrap ([tracker_loses_packet],
    [wrapped_never_slides]), and the plain tracker reports acknowledged packets
    as lost ones ([plain_reports_wrong_packet]). *)

From S2P Require Import Prelude SeqNum.

Module SeqNumSpec.
Import SeqNum.

Record packet := MkPacket { p_size : Z; p_need : Z; p_got : Z; p_done : bool }.

(** The packets before the first that is not done. *)
Fixpoint lead (ps : list packet) : Z :=
  match ps with p :: ps => if p_done p then 1 + lead ps else 0 | [] => 0 end.

Definition ack_packet (p : packet) : packet :=
  MkPacket (p_size p) (p_need p) (p_got p + 1) (p_done p || (p_need p <=? p_got p + 1)).
Definition need_packet (n : Z) (p : packet) : packet :=
  MkPacket (p_size p) n (p_got p) (p_done p || (n <=? p_got p)).
Definition size_packet (n : Z) (p : packet) : packet := MkPacket n (p_need p) (p_got p) (p_done p).

(** A packet that the window has not passed is changed, no other. *)
Definition change (f : packet -> packet) (s : Z) (ps : list packet) : list packet :=
  match aget ps s with Some p => if s <? lead ps then ps else aset ps s (f p) | None => ps end.

Section spec.
Context (W : Z) (HW : 0 < W <= 2 ^ 31).

Definition slot_is (t : tracker) (pos : Z) (p : packet) : Prop :=
  aget (ack_bitmap_ t) pos = Some (p_done p) /\ aget (expected_ack_count_ t) pos = Some (p_need p) /\
  aget (current_ack_count_ t) pos = Some (p_got p) /\ aget (packet_sizes_ t) pos = Some (p_size p).

(** The tracker keeps the packets from [b] on. *)
Record keeps (t : tracker) (ps : list packet) (b : Z) : Prop := {
  k_len : alen (ack_bitmap_ t) = W /\ alen (expected_ack_count_ t) = W /\ alen (current_ack_count_ t) = W /\ alen (packet_sizes_ t) = W;
  k_base : base_seq_num_ t = b;
  k_next : next_seq_num_ t = alen ps;
  k_window : 0 <= b <= alen ps /\ alen ps <= b + W;
  k_word : alen ps < 2 ^ 32;
  k_past : forall s p, 0 <= s < b -> aget ps s = Some p -> p_done p = true;
  k_slots : forall s p, b <= s -> aget ps s = Some p -> slot_is t (s mod W) p;
}.

(** It does, from the first packet that is not done. *)
Definition rep (t : tracker) (ps : list packet) : Prop := keeps t ps (lead ps).

Lemma lead_range ps : 0 <= lead ps <= alen ps.
Proof. induction ps as [|p ps IH]; cbn [lead]; autorewrite with arr; [lia|]. destruct (p_done p); lia. Qed.

Lemma lead_past ps s p : 0 <= s < lead ps -> aget ps s = Some p -> p_done p = true.
Proof.
  revert s. induction ps as [|q ps IH]; intros s Hs Hp; cbn [lead] in Hs; [lia|]. destruct (p_done q) eqn:Eq; [|lia].
  destruct (decide (s = 0)) as [->|]; [by injection Hp as <-|]. apply (IH (s - 1)); [lia|].
  replace s with (s - 1 + 1) in Hp by lia. by rewrite aget_cons_S in Hp by lia.
Qed.

Lemma lead_at ps p : aget ps (lead ps) = Some p -> p_done p = false.
Proof.
  induction ps as [|q ps IH]; cbn [lead]; intros Hp; [done|]. destruct (p_done q) eqn:Eq; [|by injection Hp as <-].
  pose proof (lead_range ps). rewrite Z.add_comm, aget_cons_S in Hp by lia. by apply IH.
Qed.

Lemma lead_unique ps b : 0 <= b <= alen ps -> (forall s p, 0 <= s < b -> aget ps s = Some p -> p_done p = true) ->
  (forall p, aget ps b = Some p -> p_done p = false) -> lead ps = b.
Proof.
  intros Hb Hpast Hat. pose proof (lead_range ps). destruct (Z.lt_trichotomy (lead ps) b) as [Hlt|[E|Hgt]]; [|done|].
  - destruct (aget_is_Some ps (lead ps)) as (p & Hp); [lia|]. pose proof (lead_at ps p Hp). assert (p_done p = true) by (apply (Hpast (lead ps)); [lia|done]). congruence.
  - destruct (aget_is_Some ps b) as (p & Hp); [lia|]. pose proof (Hat p Hp). assert (p_done p = true) by (apply (lead_past ps b); [lia|done]). congruence.
Qed.

Lemma same_slot a s s' : a <= s < a + W -> a <= s' < a + W -> s mod W = s' mod W -> s = s'.
Proof.
  intros Hs Hs' E. pose proof (Z.div_mod s W ltac:(lia)). pose proof (Z.div_mod s' W ltac:(lia)).
  assert (s / W = s' / W) by (apply Z.le_antisymm; nia). nia.
Qed.

Lemma pos_range s : 0 <= s mod W < W.
Proof. apply Z.mod_pos_bound. lia. Qed.

(** Writing the slot of one number leaves the others of a window alone. *)
Lemma slot_set_eq t pos a e c z : alen (ack_bitmap_ t) = W /\ alen (expected_ack_count_ t) = W /\ alen (current_ack_count_ t) = W /\ alen (packet_sizes_ t) = W ->
  0 <= pos < W -> slot_is (set_slot pos a e c z t) pos (MkPacket z e c a).
Proof. intros (L1 & L2 & L3 & L4) Hp. unfold slot_is, set_slot. cbn. rewrite !aget_aset_eq by lia. done. Qed.

Lemma slot_set_ne t pos pos' a e c z p : 0 <= pos < W -> 0 <= pos' < W -> pos <> pos' -> slot_is t pos' p -> slot_is (set_slot pos a e c z t) pos' p.
Proof. intros Hp Hp' Hne. unfold slot_is, set_slot. cbn. by rewrite !aget_aset_ne by lia. Qed.

Lemma set_slot_len t pos a e c z : alen (ack_bitmap_ t) = W /\ alen (expected_ack_count_ t) = W /\ alen (current_ack_count_ t) = W /\ alen (packet_sizes_ t) = W ->
  let t' := set_slot pos a e c z t in
  alen (ack_bitmap_ t') = W /\ alen (expected_ack_count_ t') = W /\ alen (current_ack_count_ t') = W /\ alen (packet_sizes_ t') = W.
Proof. intros H. cbn. by rewrite !alen_aset. Qed.

(** ** Sliding *)

Lemma slide_keeps fuel : forall t ps b, keeps t ps b -> alen ps - b <= Z.of_nat fuel -> rep (slide W (S fuel) [] t) ps.
Proof.
  induction fuel as [|fuel IH]; intros t ps b K Hf; pose proof (k_window t ps b K) as Hw; cbn [slide].
  - assert (b = alen ps) as -> by lia. rewrite (k_base _ _ _ K), (k_next _ _ _ K). rewrite Z.ltb_irrefl. cbn [andb].
    unfold rep. rewrite (lead_unique ps (alen ps)); [done|lia|apply (k_past _ _ _ K)|].
    intros p Hp. apply aget_Some_lt in Hp; lia.
  - rewrite (k_base _ _ _ K), (k_next _ _ _ K). destruct (Z.ltb_spec b (alen ps)) as [Hlt|Hge].
    2: { cbn [andb]. assert (b = alen ps) as -> by lia. unfold rep. rewrite (lead_unique ps (alen ps)); [done|lia|apply (k_past _ _ _ K)|].
         intros p Hp. apply aget_Some_lt in Hp; lia. }
    destruct (aget_is_Some ps b) as (p & Hp); [lia|]. destruct (k_slots _ _ _ K b p ltac:(lia) Hp) as (Hd & _).
    unfold ack_at. rewrite Hd. cbn [default andb]. destruct (p_done p) eqn:Ed; cbn [andb].
    + cbn [tl]. pose proof (k_word _ _ _ K). rewrite wrap_id by (unfold in_word; lia). apply (IH _ _ (b + 1)); [|lia]. pose proof (pos_range b).
      constructor; cbn [base_seq_num_ next_seq_num_ set_base set_slot].
      * apply (set_slot_len t _ _ _ _ _ (k_len _ _ _ K)).
      * done.
      * apply (k_next _ _ _ K).
      * lia.
      * done.
      * intros s q Hs Hq. destruct (decide (s = b)) as [->|]; [by simplify_eq|]. apply (k_past _ _ _ K s); [lia|done].
      * intros s q Hs Hq. apply slot_set_ne; [done|apply pos_range| |apply (k_slots _ _ _ K); [lia|done]].
        assert (s < alen ps) by (apply aget_Some_lt in Hq; lia). intros E. apply (same_slot b) in E; lia.
    + unfold rep. rewrite (lead_unique ps b); [done|lia|apply (k_past _ _ _ K)|]. intros q Hq. congruence.
Qed.

Lemma slide_window_keeps t ps b : keeps t ps b -> rep (slide_window W [] t) ps.
Proof.
  intros K. unfold slide_window. apply (slide_keeps _ t ps b K). rewrite (k_base _ _ _ K), (k_next _ _ _ K).
  pose proof (k_window _ _ _ K). lia.
Qed.

(** ** The operations *)

Lemma slot_in_window t ps b s p : keeps t ps b -> b <= s -> aget ps s = Some p -> b <= s < b + W.
Proof. intros K Hs Hp. pose proof (k_window _ _ _ K). assert (s < alen ps) by (apply aget_Some_lt in Hp; lia). lia. Qed.

(** Writing the slot of packet [s] changes packet [s]. *)
Lemma set_slot_keeps t ps s p q : rep t ps -> lead ps <= s -> aget ps s = Some p -> (p_done p = true -> p_done q = true) ->
  keeps (set_slot (s mod W) (p_done q) (p_need q) (p_got q) (p_size q) t) (aset ps s q) (lead ps).
Proof.
  intros K Hs Hp Hq. pose proof (lead_range ps). pose proof (pos_range s).
  constructor; rewrite ?alen_aset; [apply set_slot_len, (k_len _ _ _ K)|apply (k_base _ _ _ K)|apply (k_next _ _ _ K)
    |apply (k_window _ _ _ K)|apply (k_word _ _ _ K)| |].
  - intros s' p' Hs' Hp'. rewrite aget_aset_ne in Hp' by lia. by apply (k_past _ _ _ K s').
  - intros s' p' Hs' Hp'. destruct (decide (s' = s)) as [->|Hne].
    + assert (s < alen ps) by (apply aget_Some_lt in Hp; lia). rewrite aget_aset_eq in Hp' by lia. injection Hp' as <-.
      destruct q. apply slot_set_eq; [apply (k_len _ _ _ K)|done].
    + rewrite aget_aset_ne in Hp' by lia. apply slot_set_ne; [done|apply pos_range| |by apply (k_slots _ _ _ K)].
      pose proof (slot_in_window _ _ _ _ _ K Hs Hp). pose proof (slot_in_window _ _ _ _ _ K Hs' Hp').
      intros E. apply (same_slot (lead ps)) in E; lia.
Qed.

(** Writing the slot of a number of the window not sent yet changes nothing. *)
Lemma set_slot_unsent t ps s a e c z : rep t ps -> alen ps <= s < lead ps + W -> rep (set_slot (s mod W) a e c z t) ps.
Proof.
  intros K Hs. pose proof (pos_range s). pose proof (lead_range ps).
  constructor; [apply set_slot_len, (k_len _ _ _ K)|apply (k_base _ _ _ K)|apply (k_next _ _ _ K)
    |apply (k_window _ _ _ K)|apply (k_word _ _ _ K)|apply (k_past _ _ _ K)|].
  intros s' p' Hs' Hp'. apply slot_set_ne; [done|apply pos_range| |by apply (k_slots _ _ _ K)].
  pose proof (slot_in_window _ _ _ _ _ K Hs' Hp'). assert (s' < alen ps) by (apply aget_Some_lt in Hp'; lia).
  intros E. apply (same_slot (lead ps)) in E; lia.
Qed.

Lemma outside_rep t ps s : rep t ps -> 0 <= s < 2 ^ 32 -> outside W s t = negb ((lead ps <=? s) && (s <? lead ps + W)).
Proof.
  intros K Hs. unfold outside. rewrite (k_base _ _ _ K). pose proof (lead_range ps). pose proof (k_word _ _ _ K).
  destruct (Z.leb_spec (lead ps) s), (Z.ltb_spec s (lead ps)); try lia. cbn [orb andb].
  unfold wrap. rewrite Z.mod_small by lia. destruct (Z.ltb_spec s (lead ps + W)), (Z.leb_spec W (s - lead ps)); cbn; (done || lia).
Qed.

Lemma slot_reads t pos p : slot_is t pos p -> ack_at pos t = p_done p /\ need_at pos t = p_need p /\ got_at pos t = p_got p /\ size_at pos t = p_size p.
Proof. intros (H1 & H2 & H3 & H4). unfold ack_at, need_at, got_at, size_at. by rewrite H1, H2, H3, H4. Qed.

Lemma lead_same ps s p q : aget ps s = Some p -> 0 <= s -> p_done q = p_done p -> lead (aset ps s q) = lead ps.
Proof.
  intros Hp Hs Hq. pose proof (lead_range ps). assert (s < alen ps) by (apply aget_Some_lt in Hp; lia).
  apply lead_unique; [rewrite alen_aset; lia| |].
  - intros s' p' Hs' Hp'. destruct (decide (s' = s)) as [->|]; [|rewrite aget_aset_ne in Hp' by lia; by apply (lead_past ps s')].
    rewrite aget_aset_eq in Hp' by lia. injection Hp' as <-. rewrite Hq. by apply (lead_past ps s).
  - intros p' Hp'. destruct (decide (lead ps = s)) as [<-|]; [|rewrite aget_aset_ne in Hp' by lia; by apply lead_at in Hp'].
    rewrite aget_aset_eq in Hp' by lia. injection Hp' as <-. rewrite Hq. by apply (lead_at ps).
Qed.

Lemma change_at f s ps p : lead ps <= s -> aget ps s = Some p -> change f s ps = aset ps s (f p).
Proof. intros Hs Hp. unfold change. rewrite Hp. by destruct (Z.ltb_spec s (lead ps)); [lia|]. Qed.

Lemma change_not f s ps : 0 <= s -> s < lead ps \/ alen ps <= s -> change f s ps = ps.
Proof.
  intros H0 Hs. unfold change. destruct (aget ps s) eqn:E; [|done]. apply aget_Some_lt in E; [|done].
  by destruct (Z.ltb_spec s (lead ps)); [|lia].
Qed.

(** A number is behind the window, one of its packets, or not sent yet. *)
Lemma where_is t ps s : rep t ps -> 0 <= s ->
  s < lead ps \/ (exists p, lead ps <= s < lead ps + W /\ aget ps s = Some p /\ slot_is t (s mod W) p) \/ alen ps <= s.
Proof.
  intros K Hs. destruct (Z.lt_ge_cases s (lead ps)) as [|Hge]; [by left|right].
  destruct (Z.lt_ge_cases s (alen ps)) as [Hlt|]; [left|by right]. destruct (aget_is_Some ps s) as (p & Hp); [lia|].
  exists p. split; [by apply (slot_in_window t ps _ s p K)|split; [done|by apply (k_slots _ _ _ K)]].
Qed.

Lemma send_rep t ps size need : rep t ps -> alen ps < lead ps + W -> alen ps + 1 < 2 ^ 32 ->
  exists t', send_packet W [] size need t = (alen ps, t') /\ rep t' (ps ++ [MkPacket size need 0 false]).
Proof.
  intros K Hroom Hnext. unfold send_packet. rewrite (k_next _ _ _ K). cbn [base_seq_num_ set_next]. rewrite (k_base _ _ _ K).
  pose proof (lead_range ps). rewrite (wrap_id 32 (alen ps - lead ps)) by (unfold in_word; lia).
  destruct (Z.leb_spec W (alen ps - lead ps)); [lia|]. eexists. split; [reflexivity|].
  assert (lead (ps ++ [MkPacket size need 0 false]) = lead ps) as E.
  { clear. induction ps as [|p ps IH]; [done|]. cbn [lead app]. by rewrite IH. }
  unfold rep. rewrite E. pose proof (pos_range (alen ps)).
  rewrite wrap_id by (unfold in_word; lia). constructor; cbn [base_seq_num_ next_seq_num_ set_slot set_next]; autorewrite with arr.
  - apply (set_slot_len (set_next _ t)), (k_len _ _ _ K).
  - apply (k_base _ _ _ K).
  - done.
  - lia.
  - lia.
  - intros s p Hs Hp. rewrite aget_app_l in Hp by lia. by apply (lead_past ps s).
  - intros s p Hs Hp. destruct (decide (s < alen ps)) as [Hlt|Hge].
    + rewrite aget_app_l in Hp by lia. apply slot_set_ne; [done|apply pos_range| |by apply (k_slots _ _ _ K)].
      intros Em. apply (same_slot (lead ps)) in Em; lia.
    + rewrite aget_app_r in Hp by lia. assert (s = alen ps) as -> by (apply aget_Some_lt in Hp; [|lia]; autorewrite with arr in Hp; lia).
      rewrite Z.sub_diag in Hp. injection Hp as <-. apply slot_set_eq; [apply (k_len _ _ _ K)|done].
Qed.

Lemma mark_set pos a e c z t : 0 <= pos < W -> alen (ack_bitmap_ t) = W /\ alen (expected_ack_count_ t) = W /\ alen (current_ack_count_ t) = W /\ alen (packet_sizes_ t) = W ->
  mark pos (set_slot pos a e c z t) = set_slot pos true e c z t.
Proof.
  intros Hp L. unfold mark. destruct (slot_reads _ _ _ (slot_set_eq t pos a e c z L Hp)) as (_ & -> & -> & ->). cbn [p_need p_got p_size].
  unfold set_slot. cbn. unfold aset. by rewrite !list_insert_insert_eq.
Qed.

Lemma acknowledge_rep t ps s : rep t ps -> 0 <= s < 2 ^ 32 -> (forall p, aget ps s = Some p -> 0 <= p_got p < 2 ^ 32 - 1) ->
  rep (acknowledge W [] s t) (change ack_packet s ps).
Proof.
  intros K Hs Hg. pose proof (pos_range s). unfold acknowledge. rewrite (outside_rep t ps s K Hs).
  destruct (where_is t ps s K ltac:(lia)) as [Hlt|[(p & Hw & Hp & Hsl)|Hge]].
  - rewrite change_not by lia. destruct (Z.leb_spec (lead ps) s); [lia|]. done.
  - rewrite (change_at _ s ps p) by (done || lia). destruct (Z.leb_spec (lead ps) s), (Z.ltb_spec s (lead ps + W)); try lia. cbn [negb andb].
    destruct (slot_reads _ _ _ Hsl) as (-> & -> & -> & ->). pose proof (Hg p Hp). rewrite wrap_id by (unfold in_word; lia).
    pose proof (slot_set_eq t (s mod W) (p_done p) (p_need p) (p_got p + 1) (p_size p) (k_len _ _ _ K) ltac:(done)) as Hset.
    destruct (slot_reads _ _ _ Hset) as (_ & -> & _). cbn [p_need]. destruct (Z.leb_spec (p_need p) (p_got p + 1)) as [Hle|Hgt].
    + rewrite mark_set by (done || apply (k_len _ _ _ K)). apply (slide_window_keeps _ _ (lead ps)).
      assert (p_done (ack_packet p) = true) as E by (cbn; rewrite orb_true_iff; right; lia).
      pose proof (set_slot_keeps t ps s p (ack_packet p) K ltac:(lia) Hp ltac:(done)) as K'. by rewrite E in K'.
    + assert (p_done (ack_packet p) = p_done p) as E by (cbn; destruct (Z.leb_spec (p_need p) (p_got p + 1)); [lia|apply orb_false_r]).
      pose proof (set_slot_keeps t ps s p (ack_packet p) K ltac:(lia) Hp ltac:(congruence)) as K'. rewrite E in K'. cbn in K'.
      unfold rep. by rewrite (lead_same ps s p) by (done || lia).
  - rewrite change_not by lia. destruct (Z.leb_spec (lead ps) s), (Z.ltb_spec s (lead ps + W)); cbn [negb andb]; try done.
    pose proof (set_slot_unsent t ps s (ack_at (s mod W) t) (need_at (s mod W) t) (got_at (s mod W) t +[32] 1) (size_at (s mod W) t) K ltac:(lia)) as K'.
    case_match; [|done]. apply (slide_window_keeps _ _ (lead ps)). unfold mark. by apply set_slot_unsent.
Qed.

Lemma update_expected_rep t ps s n : rep t ps -> 0 <= s < 2 ^ 32 ->
  rep (update_expected_ack_count W [] s n t).2 (change (need_packet n) s ps).
Proof.
  intros K Hs. pose proof (pos_range s). pose proof (outside_rep t ps s K Hs) as Ho. unfold outside in Ho. unfold update_expected_ack_count.
  rewrite (k_next _ _ _ K), <- orb_assoc, (orb_comm (alen ps <=? s)), orb_assoc, Ho.
  destruct (where_is t ps s K ltac:(lia)) as [Hlt|[(p & Hw & Hp & Hsl)|Hge]].
  - rewrite change_not by lia. destruct (Z.leb_spec (lead ps) s); [lia|]. done.
  - rewrite (change_at _ s ps p) by (done || lia). assert (s < alen ps) by (apply aget_Some_lt in Hp; lia).
    destruct (Z.leb_spec (lead ps) s), (Z.ltb_spec s (lead ps + W)), (Z.leb_spec (alen ps) s); try lia. cbn [negb andb orb snd].
    destruct (slot_reads _ _ _ Hsl) as (-> & _ & -> & ->).
    pose proof (slot_set_eq t (s mod W) (p_done p) n (p_got p) (p_size p) (k_len _ _ _ K) ltac:(done)) as Hset.
    destruct (slot_reads _ _ _ Hset) as (_ & _ & -> & _). cbn [p_got]. destruct (Z.leb_spec n (p_got p)) as [Hle|Hgt].
    + rewrite mark_set by (done || apply (k_len _ _ _ K)). apply (slide_window_keeps _ _ (lead ps)).
      assert (p_done (need_packet n p) = true) as E by (cbn; rewrite orb_true_iff; right; lia).
      pose proof (set_slot_keeps t ps s p (need_packet n p) K ltac:(lia) Hp ltac:(done)) as K'. by rewrite E in K'.
    + assert (p_done (need_packet n p) = p_done p) as E by (cbn; destruct (Z.leb_spec n (p_got p)); [lia|apply orb_false_r]).
      pose proof (set_slot_keeps t ps s p (need_packet n p) K ltac:(lia) Hp ltac:(congruence)) as K'. rewrite E in K'. cbn in K'.
      unfold rep. by rewrite (lead_same ps s p) by (done || lia).
  - rewrite change_not by lia. destruct (Z.leb_spec (alen ps) s); [|lia]. by rewrite orb_true_r.
Qed.

Lemma update_size_rep t ps s n : rep t ps -> 0 <= s < 2 ^ 32 -> rep (update_packet_size W s n t) (change (size_packet n) s ps).
Proof.
  intros K Hs. unfold update_packet_size. rewrite (outside_rep t ps s K Hs).
  destruct (where_is t ps s K ltac:(lia)) as [Hlt|[(p & Hw & Hp & Hsl)|Hge]].
  - rewrite change_not by lia. destruct (Z.leb_spec (lead ps) s); [lia|]. done.
  - rewrite (change_at _ s ps p) by (done || lia). destruct (Z.leb_spec (lead ps) s), (Z.ltb_spec s (lead ps + W)); try lia. cbn [negb andb].
    destruct (slot_reads _ _ _ Hsl) as (-> & -> & -> & _).
    pose proof (set_slot_keeps t ps s p (size_packet n p) K ltac:(lia) Hp ltac:(done)) as K'.
    unfold rep. by rewrite (lead_same ps s p) by (done || lia).
  - rewrite change_not by lia. destruct (Z.leb_spec (lead ps) s), (Z.ltb_spec s (lead ps + W)); cbn [negb andb]; try done.
    apply set_slot_unsent; [done|lia].
Qed.

(** ** The queries *)

Definition done_at (ps : list packet) (s : Z) : bool := match aget ps s with Some p => p_done p | None => true end.
Definition undone (ps : list packet) : list Z := filter (fun s => negb (done_at ps s) = true) (seqZ 0 (alen ps)).
Definition size_of (ps : list packet) (s : Z) : Z := match aget ps s with Some p => p_size p | None => 0 end.

Lemma is_acknowledged_rep t ps s : rep t ps -> 0 <= s < alen ps -> is_acknowledged W s t = done_at ps s.
Proof.
  intros K Hs. pose proof (k_word _ _ _ K). unfold is_acknowledged, done_at. rewrite (outside_rep t ps s K) by lia.
  destruct (where_is t ps s K ltac:(lia)) as [Hlt|[(p & Hw & Hp & Hsl)|Hge]]; [| |lia].
  - destruct (aget_is_Some ps s Hs) as (p & Hp). rewrite Hp, (lead_past ps s p) by (done || lia).
    destruct (Z.leb_spec (lead ps) s); [lia|]. done.
  - rewrite Hp. destruct (slot_reads _ _ _ Hsl) as (-> & _).
    by destruct (Z.leb_spec (lead ps) s), (Z.ltb_spec s (lead ps + W)); try lia.
Qed.

Lemma seqZ_split a n m : 0 <= n <= m -> seqZ a m = seqZ a n ++ seqZ (a + n) (m - n).
Proof. intros H. rewrite <- seqZ_app by lia. f_equal. lia. Qed.

Lemma filter_none (f : Z -> bool) (l : list Z) : (forall s, s ∈ l -> f s = false) -> filter (fun s => f s = true) l = [].
Proof.
  induction l as [|x l IH]; intros H; [done|]. rewrite filter_cons, decide_False by (rewrite H; [done|left]).
  apply IH. intros s Hs. apply H. by right.
Qed.

Lemma filter_same (f g : Z -> bool) (l : list Z) : (forall s, s ∈ l -> f s = g s) -> filter (fun s => f s = true) l = filter (fun s => g s = true) l.
Proof.
  induction l as [|x l IH]; intros H; [done|]. rewrite !filter_cons, IH by (intros s Hs; apply H; by right).
  by rewrite (H x) by left.
Qed.

Lemma window_rep t ps : rep t ps -> alen ps + W <= 2 ^ 32 -> window W t = undone ps.
Proof.
  intros K Hw. pose proof (lead_range ps). pose proof (k_window _ _ _ K). unfold window, undone.
  rewrite (k_base _ _ _ K), (k_next _ _ _ K).
  assert (map (fun i => lead ps +[32] i) (seqZ 0 W) = seqZ (lead ps) W) as ->.
  { transitivity (Z.add (lead ps) <$> seqZ 0 W); [|by rewrite fmap_add_seqZ, Z.add_0_r]. apply list_fmap_ext. intros i x Hx. apply lookup_seqZ in Hx.
    apply wrap_id. unfold in_word. lia. }
  rewrite (seqZ_split (lead ps) (alen ps - lead ps) W), (seqZ_split 0 (lead ps) (alen ps)), !filter_app by lia.
  rewrite (filter_none _ (seqZ 0 (lead ps))), (filter_none _ (seqZ (lead ps + (alen ps - lead ps)) _)), app_nil_r, Z.add_0_l.
  - cbn [app]. apply filter_same. intros s Hs. apply elem_of_seqZ in Hs. destruct (Z.ltb_spec s (alen ps)); [|lia].
    unfold done_at. destruct (where_is t ps s K ltac:(lia)) as [|[(p & _ & Hp & Hsl)|]]; [lia| |lia].
    rewrite Hp. by destruct (slot_reads _ _ _ Hsl) as (-> & _).
  - intros s Hs. apply elem_of_seqZ in Hs. destruct (Z.ltb_spec s (alen ps)); [lia|done].
  - intros s Hs. apply elem_of_seqZ in Hs. destruct (aget_is_Some ps s) as (p & Hp); [lia|]. unfold done_at. rewrite Hp.
    by rewrite (lead_past ps s p) by (done || lia).
Qed.

Lemma undone_slot t ps s : rep t ps -> s ∈ undone ps -> lead ps <= s < alen ps /\ size_at (s mod W) t = size_of ps s.
Proof.
  intros K Hs. apply list_elem_of_filter in Hs as (Hd & Hs). apply elem_of_seqZ in Hs. unfold size_of, done_at in *.
  destruct (where_is t ps s K ltac:(lia)) as [Hlt|[(p & Hw & Hp & Hsl)|Hge]]; [| |lia].
  - destruct (aget_is_Some ps s ltac:(lia)) as (p & Hp). by rewrite Hp, (lead_past ps s p) in Hd by (done || lia).
  - rewrite Hp. destruct (slot_reads _ _ _ Hsl) as (_ & _ & _ & ->). lia.
Qed.

Definition total (ps : list packet) (l : list Z) : Z := foldr (fun s n => size_of ps s + n) 0 l.

Lemma bytes_rep t ps : rep t ps -> alen ps + W <= 2 ^ 32 -> get_total_inflight_bytes W t = wrap 64 (total ps (undone ps)).
Proof.
  intros K Hw. unfold get_total_inflight_bytes. rewrite (window_rep t ps K Hw).
  assert (forall l a, (forall s, s ∈ l -> s ∈ undone ps) ->
    foldl (fun n s => n +[64] size_at (s mod W) t) (wrap 64 a) l = wrap 64 (a + total ps l)) as H.
  { induction l as [|s l IH]; intros a Hl; cbn [foldl total foldr]; [by rewrite Z.add_0_r|].
    destruct (undone_slot t ps s K) as (_ & ->); [apply Hl; left|]. rewrite wrap_add_l, IH by (intros ??; apply Hl; by right).
    unfold total. by rewrite Z.add_assoc. }
  by apply (H _ 0).
Qed.

(** ** Runs *)

Inductive op := Send (size need : Z) | Ack (seq : Z) | Need (seq n : Z) | Size (seq n : Z).

Definition run1 (t : tracker) (oc : op * list bool) : tracker :=
  match oc.1 with
  | Send size need => (send_packet W oc.2 size need t).2
  | Ack s => acknowledge W oc.2 s t
  | Need s n => (update_expected_ack_count W oc.2 s n t).2
  | Size s n => update_packet_size W s n t
  end.

Definition spec1 (ps : list packet) (o : op) : list packet :=
  match o with
  | Send size need => ps ++ [MkPacket size need 0 false]
  | Ack s => change ack_packet s ps
  | Need s n => change (need_packet n) s ps
  | Size s n => change (size_packet n) s ps
  end.

(** There is room in the window, and no counter of the code is at its end. *)
Definition allowed1 (ps : list packet) (o : op) : bool :=
  match o with
  | Send _ _ => (alen ps <? lead ps + W) && (alen ps + 1 + W <=? 2 ^ 32)
  | Ack s => (0 <=? s) && (s <? 2 ^ 32) && forallb (fun p => (0 <=? p_got p) && (p_got p <? 2 ^ 32 - 1)) ps
  | Need s _ | Size s _ => (0 <=? s) && (s <? 2 ^ 32)
  end.
Fixpoint allowed (ps : list packet) (os : list op) : bool :=
  match os with o :: os => allowed1 ps o && allowed (spec1 ps o) os | [] => true end.

Lemma aget_elem {A} (l : list A) i x : aget l i = Some x -> In x l.
Proof. intros H. apply list_elem_of_In. by eapply list_elem_of_lookup_2. Qed.

Lemma run1_rep t ps o : rep t ps -> allowed1 ps o = true -> rep (run1 t (o, [])) (spec1 ps o).
Proof.
  intros K Ha. destruct o as [size need|s|s n|s n]; cbn [allowed1 spec1] in *; unfold run1; cbn [fst snd].
  - destruct (send_rep t ps size need K) as (t' & -> & K'); [lia|lia|done].
  - apply acknowledge_rep; [done|lia|]. intros p Hp. apply andb_true_iff in Ha as (_ & Ha). rewrite forallb_forall in Ha.
    specialize (Ha p (aget_elem _ _ _ Hp)). lia.
  - apply update_expected_rep; [done|lia].
  - apply update_size_rep; [done|lia].
Qed.

Lemma alen_change f s ps : alen (change f s ps) = alen ps.
Proof. unfold change. repeat case_match; by rewrite ?alen_aset. Qed.

Lemma run_rep os : forall t ps, rep t ps -> alen ps + W <= 2 ^ 32 -> allowed ps os = true ->
  rep (foldl run1 t (map (fun o => (o, [])) os)) (foldl spec1 ps os) /\ alen (foldl spec1 ps os) + W <= 2 ^ 32.
Proof.
  induction os as [|o os IH]; intros t ps K Hw Ha; [done|]. cbn [allowed] in Ha. apply andb_true_iff in Ha as (H1 & H2).
  cbn [map foldl]. apply IH; [by apply run1_rep| |done].
  destruct o; cbn [spec1 allowed1] in *; rewrite ?alen_change; autorewrite with arr; lia.
Qed.

Lemma new_rep : rep (new_tracker W 0) [].
Proof.
  constructor; cbn; autorewrite with arr; try done; try lia.
  unfold alen. rewrite !length_replicate. lia.
Qed.


(** ** A packet the window never passes *)

(** Number 0 is the base, outstanding, and not acknowledged. *)
Definition stuck (k : Z) (t : tracker) : Prop :=
  base_seq_num_ t = 0 /\ 0 < next_seq_num_ t <= k /\ ack_at 0 t = false.

Definition about_zero (o : op) : bool := match o with Ack s | Need s _ => s =? 0 | _ => false end.
Definition word_op (o : op) : bool := match o with Ack s | Need s _ | Size s _ => (0 <=? s) && (s <? 2 ^ 32) | _ => true end.

Lemma slide_stuck k cas t : stuck k t -> slide_window W cas t = t.
Proof. intros (Hb & _ & Ha). unfold slide_window. cbn [slide]. rewrite Hb, Z.mod_0_l, Ha by lia. by rewrite andb_false_r. Qed.

Lemma set_slot_stuck k pos a e c z t : 0 < pos -> stuck k t -> stuck k (set_slot pos a e c z t).
Proof. intros Hp (Hb & Hn & Ha). split; [done|split; [done|]]. unfold ack_at, set_slot in *. cbn. by rewrite aget_aset_ne by lia. Qed.

Lemma resize_stuck k s e c z t : stuck k t -> stuck k (set_slot (s mod W) (ack_at (s mod W) t) e c z t).
Proof.
  intros H. pose proof (pos_range s). destruct (decide (s mod W = 0)) as [E|]; [|apply set_slot_stuck; [lia|done]]. rewrite E.
  destruct H as (Hb & Hn & Ha). split; [done|split; [done|]]. rewrite Ha. unfold ack_at, set_slot in *. cbn.
  destruct (aget (ack_bitmap_ t) 0) as [x|] eqn:Ex; [rewrite aget_aset_eq; [done|apply aget_Some_lt in Ex; lia]|].
  unfold aget, aset in *. cbn in *. destruct (ack_bitmap_ t); done.
Qed.

Lemma in_window_pos s t : base_seq_num_ t = 0 -> 0 < s < 2 ^ 32 -> outside W s t = false -> 0 < s mod W.
Proof.
  unfold outside. intros -> Hs Ho. apply orb_false_iff in Ho as (_ & Ho). rewrite Z.sub_0_r, wrap_id in Ho by (unfold in_word; lia).
  rewrite Z.mod_small; lia.
Qed.

Lemma run1_stuck k t oc : stuck k t -> k < W -> word_op oc.1 = true -> about_zero oc.1 = false -> stuck (k + 1) (run1 t oc).
Proof.
  intros Hst Hk Hw Hz. assert (forall t', stuck k t' -> stuck (k + 1) t') as up by (intros t' (? & ? & ?); split; [done|split; [lia|done]]).
  pose proof Hst as (Hb & Hn & Ha). destruct oc as ([size need|s|s n|s n] & cas); unfold run1; cbn in Hw, Hz; cbn [fst snd].
  - unfold send_packet. cbn [base_seq_num_ set_next snd]. rewrite Hb, Z.sub_0_r, (wrap_id 32 (next_seq_num_ t)) by (unfold in_word; lia).
    destruct (Z.leb_spec W (next_seq_num_ t)); [lia|]. rewrite wrap_id by (unfold in_word; lia).
    apply set_slot_stuck; [rewrite Z.mod_small; lia|]. split; [done|split; [cbn; lia|done]].
  - unfold acknowledge. destruct (outside W s t) eqn:Eo; [by apply up|]. pose proof (in_window_pos s t Hb ltac:(lia) Eo).
    match goal with |- context [slide_window W cas (mark _ ?t')] => assert (stuck k t') as H' by (by apply set_slot_stuck) end.
    case_match; [|by apply up]. rewrite (slide_stuck k); apply up || idtac; by apply set_slot_stuck.
  - unfold update_expected_ack_count. rewrite <- orb_assoc, (orb_comm (next_seq_num_ t <=? s)), orb_assoc. fold (outside W s t).
    destruct (outside W s t) eqn:Eo; [by apply up|]. case_match; [by apply up|]. pose proof (in_window_pos s t Hb ltac:(lia) Eo). cbn [snd].
    match goal with |- context [slide_window W cas (mark _ ?t')] => assert (stuck k t') as H' by (by apply set_slot_stuck) end.
    case_match; [|by apply up]. rewrite (slide_stuck k); apply up || idtac; by apply set_slot_stuck.
  - apply up. unfold update_packet_size. case_match; [done|]. by apply resize_stuck.
Qed.

Lemma runs_stuck ocs : forall k t, stuck k t -> k + alen ocs <= W -> forallb (fun oc => word_op oc.1 && negb (about_zero oc.1)) ocs = true ->
  stuck (k + alen ocs) (foldl run1 t ocs).
Proof.
  induction ocs as [|oc ocs IH]; intros k t Hst Hk Hok; autorewrite with arr in *; [by rewrite Z.add_0_r|].
  cbn [forallb] in Hok. apply andb_true_iff in Hok as (H1 & H2). apply andb_true_iff in H1 as (H1 & H3). apply negb_true_iff in H3.
  assert (0 <= alen ocs) by (unfold alen; lia).
  cbn [foldl]. replace (k + (alen ocs + 1)) with (k + 1 + alen ocs) by lia. apply IH; [apply run1_stuck; (done || lia)|lia|done].
Qed.

(** The slot is cleared, the base does not move: what was acknowledged is not. *)
Lemma spurious_stuck t : alen (ack_bitmap_ t) = W -> base_seq_num_ t = 0 -> next_seq_num_ t = 1 -> ack_at 0 t = true ->
  stuck 1 (slide_window W [false] t).
Proof.
  intros L Hb Hn Ha. unfold slide_window. rewrite Hb, Hn. cbn [slide Z.to_nat Z.sub Z.add Z.opp Pos.to_nat Pos.iter_op].
  rewrite Hb, Hn, Z.mod_0_l, Ha by lia. cbn [Z.ltb Z.compare andb base_seq_num_ next_seq_num_ set_slot].
  assert (ack_at 0 (set_slot 0 false 1 0 0 t) = false) as E by (unfold ack_at, set_slot; cbn; rewrite aget_aset_eq; [done|lia]).
  change (Z.to_nat (1 - 0)) with 1%nat. cbn [slide base_seq_num_ next_seq_num_ set_slot]. rewrite Hb, Hn, Z.mod_0_l, E by lia.
  cbn [andb Z.ltb Z.compare]. split; [done|split; [cbn; lia|done]].
Qed.

(** A packet is sent and its one acknowledgement arrives; the weak
    compare-and-swap that would move the base fails for no reason, after the slot
    has been cleared.  The packet is not acknowledged after it, nor after any
    calls that follow and do not acknowledge it a second time, as long as they
    are fewer than the window is long. *)
Theorem tracker_loses_packet size ocs : alen ocs < W ->
  forallb (fun oc => word_op oc.1 && negb (about_zero oc.1)) ocs = true ->
  let sent := send_packet W [] size 1 (new_tracker W 0) in
  sent.1 = 0 /\ is_acknowledged W 0 (acknowledge W [] 0 sent.2) = true /\
  is_acknowledged W 0 (foldl run1 (acknowledge W [false] 0 sent.2) ocs) = false.
Proof.
  intros Hlen Hok. destruct (send_rep (new_tracker W 0) [] size 1 new_rep) as (t1 & E & K); [rewrite alen_nil; cbn [lead]; lia|rewrite alen_nil; lia|]. rewrite E. cbn [fst snd].
  split; [done|split].
  - pose proof (acknowledge_rep t1 _ 0 K ltac:(lia) ltac:(intros p [= <-]; cbn; lia)) as K2.
    rewrite (is_acknowledged_rep _ _ _ K2) by (rewrite alen_change; autorewrite with arr; lia). done.
  - assert (stuck 1 (acknowledge W [false] 0 t1)) as Hst.
    { pose proof (k_slots _ _ _ K 0 _ ltac:(cbn; lia) eq_refl) as Hs. rewrite Z.mod_0_l in Hs by lia.
      destruct (slot_reads _ _ _ Hs) as (R1 & R2 & R3 & R4). cbn in R1, R2, R3, R4. pose proof (k_len _ _ _ K) as L.
      destruct (slot_reads _ _ _ (slot_set_eq t1 0 false 1 1 size L ltac:(lia))) as (_ & N & _).
      destruct (slot_reads _ _ _ (slot_set_eq t1 0 true 1 1 size L ltac:(lia))) as (A & _).
      unfold acknowledge. rewrite (outside_rep t1 _ 0 K) by lia. cbn [lead p_done app Z.leb Z.compare andb].
      destruct (Z.ltb_spec 0 (0 + W)); [|lia]. cbn [negb]. rewrite Z.mod_0_l, R1, R2, R3, R4 by lia. change (0 +[32] 1) with 1. rewrite N.
      cbn [p_need Z.leb Z.compare Pos.compare Pos.compare_cont]. rewrite mark_set by (lia || done).
      apply spurious_stuck; [cbn; rewrite alen_aset; apply L|apply (k_base _ _ _ K)|apply (k_next _ _ _ K)|done]. }
    destruct (runs_stuck ocs 1 _ Hst ltac:(lia) Hok) as (Hb & Hn & Ha). unfold is_acknowledged, outside.
    rewrite Hb, Z.mod_0_l, Ha by lia. change (0 -[32] 0) with 0. destruct (Z.leb_spec W 0); [lia|done].
Qed.

(** ** Past the window and past the last number *)

(** With a window of packets outstanding, the next one is sent all the same: it
    counts as acknowledged at once, and its acknowledgement is ignored. *)
Lemma overrun_counts_as_acked t ps size need : rep t ps -> alen ps = lead ps + W -> 0 < W -> alen ps + 1 < 2 ^ 32 ->
  let '(s, t') := send_packet W [] size need t in
  s = alen ps /\ is_acknowledged W s t' = true /\ acknowledge W [] s t' = t'.
Proof.
  intros K Hfull HW0 Hw. pose proof (lead_range ps). destruct (aget_is_Some ps (lead ps)) as (p & Hp); [lia|].
  destruct (slot_reads _ _ _ (k_slots _ _ _ K (lead ps) p ltac:(lia) Hp)) as (Ha & _). rewrite (lead_at ps p Hp) in Ha.
  pose proof (k_base _ _ _ K) as Eb. pose proof (k_next _ _ _ K) as En. unfold send_packet. rewrite En.
  assert (forall cas, slide_window W cas (set_next (alen ps +[32] 1) t) = set_next (alen ps +[32] 1) t) as Es.
  { intros cas. unfold slide_window. cbn [slide base_seq_num_ set_next]. rewrite Eb. unfold ack_at in *. cbn [ack_bitmap_ set_next].
    by rewrite Ha, andb_false_r. }
  rewrite Es, Tauto.if_same. assert (forall x, outside W (alen ps) (set_slot (alen ps mod W) false need 0 size (set_next x t)) = true) as Eo.
  { intros x. unfold outside. cbn [base_seq_num_ set_slot set_next]. rewrite Eb, wrap_id by (unfold in_word; lia).
    apply orb_true_iff. right. lia. }
  split; [done|split]; unfold is_acknowledged, acknowledge; by rewrite Eo.
Qed.

(** Once the next number has wrapped around past the base, nothing moves the base,
    and every number from 0 up to it counts as acknowledged. *)
Lemma wrapped_never_slides t cas s : next_seq_num_ t <= base_seq_num_ t ->
  slide_window W cas t = t /\ (s < base_seq_num_ t -> is_acknowledged W s t = true).
Proof.
  intros Hn. split.
  - unfold slide_window. cbn [slide]. by destruct (Z.ltb_spec (base_seq_num_ t) (next_seq_num_ t)); [lia|].
  - intros Hs. unfold is_acknowledged, outside. by destruct (Z.ltb_spec s (base_seq_num_ t)); [|lia].
Qed.

End spec.

(** ** Concrete runs *)


Example tracker_loses_packet_witness :
  is_acknowledged 4 0 (foldl (run1 4) (acknowledge 4 [false] 0 (send_packet 4 [] 10 1 (new_tracker 4 0)).2)
    [(Send 20 1, []); (Ack 1, [])]) = false.
Proof. apply (tracker_loses_packet 4 ltac:(lia) 10 [(Send 20 1, []); (Ack 1, [])]); vm_compute; reflexivity. Defined.

(** The plain tracker reads its bitmap at the place in the window, not at that of
    the number: with the window at 1, packet 2 acknowledged and packet 1 not, it
    reports both. *)
Lemma plain_reports_wrong_packet :
  let p := plain_acknowledge 4 2 (plain_acknowledge 4 0 (plain_send 4 (plain_send 4 (plain_send 4 (new_plain 4 0)).2).2).2) in
  plain_is_acknowledged 4 1 p = false /\ plain_is_acknowledged 4 2 p = true /\ plain_unacknowledged 4 p = [1; 2].
Proof. vm_compute. done. Qed.
End SeqNumSpec.
