(* ===== verification/Lrpc.v ===== *)
(** * Message channels

    [lrpc_send], [lrpc_recv] and [lrpc_empty] of [include/util/lrpc.h] with the
    slow path [__lrpc_send] of [collective/efa/util_lrpc.cc]: one sender and one
    receiver share a table of messages and the word in which the receiver writes
    back its head.  Each access to these is a step, the copies word by word; the
    other fields of a channel belong to one side.  [LRPC] makes two of these
    channels, one for each direction. *)

From S2P Require Import Prelude.

Module Lrpc.

(** ** Messages *)

Definition LRPC_DONE_PARITY : Z := 2 ^ 63.
Definition LRPC_CMD_MASK : Z := 2 ^ 63 - 1.
(** The 56 bytes of data, as words. *)
Definition data_words : Z := 7.

Record lrpc_msg := MkMsg { cmd : Z; data : list Z }.

Record lrpc_chan_out := MkOut { send_head : Z; send_tail : Z; osize : Z }.
Record lrpc_chan_in := MkIn { recv_head : Z; isize : Z }.

Definition is_power_of_two (n : Z) : bool := negb (n =? 0) && (Z.land n (n -[32] 1) =? 0).

Definition lrpc_init_out (size : Z) : option lrpc_chan_out := if is_power_of_two size then Some (MkOut 0 0 size) else None.
Definition lrpc_init_in (size : Z) : option lrpc_chan_in := if is_power_of_two size then Some (MkIn 0 size) else None.

Definition parity (head size : Z) : Z := if Z.land head size =? 0 then LRPC_DONE_PARITY else 0.
Definition slot (head size : Z) : Z := Z.land head (size - 1).

(** ** The sides *)

Inductive sender :=
| SIdle
| SLoad (m : lrpc_msg)                       (** before [load_acquire(chan->recv_head_wb)] *)
| SCopy (pos c : Z) (m : lrpc_msg) (i : Z).  (** word [i] is to be copied, or the command stored *)

Inductive receiver :=
| RIdle
| RCopy (pos c : Z) (got : list Z)
| RBack (m : lrpc_msg).                      (** before [store_release(chan->recv_head_wb, …)] *)

Record shared := MkShared { tbl : list lrpc_msg; recv_head_wb : Z }.

(** What a call reports: a message sent or received, or -1. *)
Inductive event := Sent (m : lrpc_msg) | Full | Received (m : lrpc_msg) | Empty.

(** Claim the slot of the head. *)
Definition send_slot (c : lrpc_chan_out) (m : lrpc_msg) : lrpc_chan_out * sender :=
  (MkOut (send_head c +[32] 1) (send_tail c) (osize c),
   SCopy (slot (send_head c) (osize c)) (Z.lor (cmd m) (parity (send_head c) (osize c))) m 0).

(** The call up to its first access to shared memory. *)
Definition send_begin (c : lrpc_chan_out) (m : lrpc_msg) : result (lrpc_chan_out * sender) :=
  if Z.testbit (cmd m) 63 then Fail CheckFailed
  else if osize c <=? send_head c -[32] send_tail c then
    if send_head c -[32] send_tail c =? osize c then Done (c, SLoad m) else Fail CheckFailed
  else Done (send_slot c m).

Definition put_word (i x : Z) (m : lrpc_msg) : lrpc_msg := MkMsg (cmd m) (aset (data m) i x).

Definition send_next (s : shared) (c : lrpc_chan_out) (p : sender) : option (shared * lrpc_chan_out * sender * list event) :=
  match p with
  | SIdle => None
  | SLoad m =>
      let c := MkOut (send_head c) (recv_head_wb s) (osize c) in
      if send_head c -[32] send_tail c =? osize c then Some (s, c, SIdle, [Full])
      else let '(c, p) := send_slot c m in Some (s, c, p, [])
  | SCopy pos cm m i =>
      dst ← aget (tbl s) pos;
      if i <? data_words then
        x ← aget (data m) i;
        Some (MkShared (aset (tbl s) pos (put_word i x dst)) (recv_head_wb s), c, SCopy pos cm m (i + 1), [])
      else Some (MkShared (aset (tbl s) pos (MkMsg cm (data dst))) (recv_head_wb s), c, SIdle, [Sent m])
  end.

(** The call up to and with its load of the command. *)
Definition recv_begin (s : shared) (c : lrpc_chan_in) : option (lrpc_chan_in * receiver * list event) :=
  m ← aget (tbl s) (slot (recv_head c) (isize c));
  if Z.land (cmd m) LRPC_DONE_PARITY =? parity (recv_head c) (isize c) then
    Some (MkIn (recv_head c +[32] 1) (isize c), RCopy (slot (recv_head c) (isize c)) (Z.land (cmd m) LRPC_CMD_MASK) [], [])
  else Some (c, RIdle, [Empty]).

Definition recv_next (s : shared) (c : lrpc_chan_in) (p : receiver) : option (shared * receiver * list event) :=
  match p with
  | RIdle => None
  | RCopy pos cm got =>
      if alen got <? data_words then
        m ← aget (tbl s) pos; x ← aget (data m) (alen got); Some (s, RCopy pos cm (got ++ [x]), [])
      else Some (s, RBack (MkMsg cm got), [])
  | RBack m => Some (MkShared (tbl s) (recv_head c), RIdle, [Received m])
  end.

Definition lrpc_empty (s : shared) (c : lrpc_chan_in) : option bool :=
  m ← aget (tbl s) (slot (recv_head c) (isize c));
  Some (negb (Z.land (cmd m) LRPC_DONE_PARITY =? parity (recv_head c) (isize c))).

(** ** The channel *)

Record world := MkWorld {
  sh : shared;
  out : lrpc_chan_out;
  spc : sender;
  inn : lrpc_chan_in;
  rpc : receiver;
  log : list event;  (** ghost: what the calls reported, in order *)
}.

Definition msg_ok (m : lrpc_msg) : Prop := in_word 64 (cmd m) /\ Z.testbit (cmd m) 63 = false /\ alen (data m) = data_words.

Inductive step : world -> world -> Prop :=
| step_send w m c p : spc w = SIdle -> msg_ok m -> send_begin (out w) m = Done (c, p) ->
    step w (MkWorld (sh w) c p (inn w) (rpc w) (log w))
| step_sender w s c p l : send_next (sh w) (out w) (spc w) = Some (s, c, p, l) ->
    step w (MkWorld s c p (inn w) (rpc w) (log w ++ l))
| step_recv w c p l : rpc w = RIdle -> recv_begin (sh w) (inn w) = Some (c, p, l) ->
    step w (MkWorld (sh w) (out w) (spc w) c p (log w ++ l))
| step_receiver w s p l : recv_next (sh w) (inn w) (rpc w) = Some (s, p, l) ->
    step w (MkWorld s (out w) (spc w) (inn w) p (log w ++ l)).

(** A table of [size] messages, and the word the receiver writes back. *)
Definition start (t : list lrpc_msg) (wb size : Z) : world :=
  MkWorld (MkShared t wb) (MkOut 0 0 size) SIdle (MkIn 0 size) RIdle [].

End Lrpc.
