(* ===== verification/LrpcSpec.v ===== *)
(** * The channel as a queue

    Whatever the interleaving of sender and receiver, what the calls of a channel
    report is a run of a bounded queue, no call fails its assertion, a call under
    way can go on, and [lrpc_empty] tells whether the queue is empty
    ([lrpc_linearizable]).  This needs a table whose parity bits are clear;
    [LRPC] does not clear the table it allocates, and a bit left in it makes the
    receiver return a message that nobody sent ([lrpc_stale_message]). *)

From S2P Require Import Prelude Lrpc.

Module LrpcSpec.
Import Lrpc.

#[export] Instance lrpc_msg_eq_dec : EqDecision lrpc_msg.
Proof. solve_decision. Defined.

(** ** The queue *)

Definition qstep (size : Z) (q : list lrpc_msg) (e : event) : option (list lrpc_msg) :=
  match e with
  | Sent m => if alen q <? size then Some (q ++ [m]) else None
  | Full => if alen q =? size then Some q else None
  | Received m => match q with x :: q => if decide (x = m) then Some q else None | [] => None end
  | Empty => match q with [] => Some [] | _ => None end
  end.
Fixpoint qrun (size : Z) (q : list lrpc_msg) (l : list event) : option (list lrpc_msg) :=
  match l with e :: l => q ← qstep size q e; qrun size q l | [] => Some q end.

Lemma qrun_app size l : forall q l', qrun size q (l ++ l') = (q ← qrun size q l; qrun size q l').
Proof. induction l as [|e l IH]; intros q l'; [done|]. cbn [qrun app]. destruct (qstep size q e); [apply IH|done]. Qed.

Lemma qrun_snoc size q l e q1 q2 : qrun size q l = Some q1 -> qstep size q1 e = Some q2 -> qrun size q (l ++ [e]) = Some q2.
Proof. intros H1 H2. rewrite qrun_app, H1. cbn. by rewrite H2. Qed.

(** ** Words *)

Lemma land_pow2 c n : 0 <= n -> Z.land c (2 ^ n) = if Z.testbit c n then 2 ^ n else 0.
Proof.
  intros Hn. apply Z.bits_inj'. intros i Hi. rewrite Z.land_spec, Z.pow2_bits_eqb by done.
  destruct (Z.eqb_spec n i) as [->|Hne].
  - destruct (Z.testbit c i); [by rewrite Z.pow2_bits_true|by rewrite Z.bits_0].
  - rewrite andb_false_r. destruct (Z.testbit c n); [by rewrite Z.pow2_bits_false|by rewrite Z.bits_0].
Qed.

Lemma testbit_add_pow2 j n : 0 <= n -> Z.testbit (j + 2 ^ n) n = negb (Z.testbit j n).
Proof.
  intros Hn. rewrite !Z.testbit_odd, !Z.shiftr_div_pow2 by done. pose proof (Z.pow_pos_nonneg 2 n ltac:(lia) Hn).
  rewrite <- (Z.mul_1_l (2 ^ n)) at 1. rewrite Z.div_add by lia. rewrite Z.add_1_r, Z.odd_succ. apply Zeven.Zeven_odd_bool.
Qed.

Section channel.
Context (k : Z) (Hk : 0 <= k <= 31).
Local Abbreviation size := (2 ^ k).

Lemma size_range : 0 < size <= 2 ^ 31.
Proof. split; [lia|apply Z.pow_le_mono_r; lia]. Qed.

Lemma slot_at j : slot (wrap 32 j) size = j mod size.
Proof. unfold slot. rewrite land_mask by lia. apply wrap_mod_pow2. lia. Qed.

Lemma testbit_wrap j : Z.testbit (wrap 32 j) k = Z.testbit j k.
Proof. unfold wrap. apply Z.mod_pow2_bits_low. lia. Qed.

Lemma parity_at j : parity (wrap 32 j) size = if Z.testbit j k then 0 else LRPC_DONE_PARITY.
Proof.
  unfold parity. rewrite land_pow2, testbit_wrap by lia. pose proof size_range. destruct (Z.testbit j k); [|done].
  destruct (Z.eqb_spec size 0); [lia|done].
Qed.

(** The command of message [j] as it is stored. *)
Definition enc (m : lrpc_msg) (j : Z) : Z := Z.lor (cmd m) (parity (wrap 32 j) size).

Lemma enc_bit m j : msg_ok m -> Z.testbit (enc m j) 63 = negb (Z.testbit j k).
Proof.
  intros (_ & Hb & _). unfold enc. rewrite Z.lor_spec, Hb, parity_at. destruct (Z.testbit j k); [by rewrite Z.bits_0|].
  by apply (Z.pow2_bits_true 63).
Qed.

Lemma high_bit_clear c i : in_word 64 c -> Z.testbit c 63 = false -> 63 <= i -> Z.testbit c i = false.
Proof.
  intros Hc Hb Hi. destruct (decide (i = 63)) as [->|]; [done|]. unfold in_word in Hc.
  rewrite <- (Z.mod_small c (2 ^ 64)) by done. apply Z.mod_pow2_bits_high. lia.
Qed.

Lemma enc_cmd m j : msg_ok m -> Z.land (enc m j) LRPC_CMD_MASK = cmd m.
Proof.
  intros (Hc & Hb & _). unfold LRPC_CMD_MASK. rewrite (land_mask _ 63) by lia. apply Z.bits_inj'. intros i Hi.
  destruct (Z.lt_ge_cases i 63) as [Hlt|Hge].
  - rewrite Z.mod_pow2_bits_low by done. unfold enc. rewrite Z.lor_spec, parity_at.
    destruct (Z.testbit j k); [by rewrite Z.bits_0, orb_false_r|]. unfold LRPC_DONE_PARITY. rewrite Z.pow2_bits_false by lia. apply orb_false_r.
  - rewrite Z.mod_pow2_bits_high by lia. by rewrite high_bit_clear.
Qed.

Lemma near_slot a i j : a <= i < a + size -> a <= j < a + size -> i mod size = j mod size -> i = j.
Proof.
  intros Hi Hj E. pose proof size_range. pose proof (Z.div_mod i size ltac:(lia)). pose proof (Z.div_mod j size ltac:(lia)).
  assert (i / size = j / size) by (apply Z.le_antisymm; nia). nia.
Qed.

Lemma tbl_range j : 0 <= j mod size < size.
Proof. pose proof size_range. apply Z.mod_pos_bound. lia. Qed.

Lemma mod_next j : (j + size) mod size = j mod size.
Proof. pose proof size_range. rewrite <- (Z.mul_1_l size) at 1. apply Z.mod_add. lia. Qed.

(** ** The invariant *)

Definition sbusy (p : sender) : Z := match p with SCopy _ _ _ _ => 1 | _ => 0 end.
Definition rbusy (p : receiver) : Z := match p with RIdle => 0 | _ => 1 end.

Definition sender_ok (t : list lrpc_msg) (n : Z) (p : sender) : Prop :=
  match p with
  | SIdle => True
  | SLoad m => msg_ok m
  | SCopy pos c m i => pos = n mod size /\ c = enc m n /\ msg_ok m /\ 0 <= i <= data_words /\
      (forall dst, aget t pos = Some dst -> forall x, 0 <= x < i -> aget (data dst) x = aget (data m) x)
  end.

Definition receiver_ok (ss : list lrpc_msg) (n : Z) (p : receiver) : Prop :=
  match p with
  | RIdle => True
  | RCopy pos c got => pos = n mod size /\ alen got <= data_words /\
      exists x, aget ss n = Some x /\ c = cmd x /\ forall i, 0 <= i < alen got -> aget got i = aget (data x) i
  | RBack m => aget ss n = Some m
  end.

(** [ss] was sent, [r] of it received, and the sender knows of [t]. *)
Record inv (w : world) (ss : list lrpc_msg) (r t : Z) : Prop := {
  i_sizes : osize (out w) = size /\ isize (inn w) = size;
  i_run : qrun size [] (log w) = Some (drop (Z.to_nat r) ss);
  i_order : 0 <= t <= r /\ r + rbusy (rpc w) <= alen ss /\ alen ss + sbusy (spc w) <= t + size;
  i_send : send_head (out w) = wrap 32 (alen ss + sbusy (spc w)) /\ send_tail (out w) = wrap 32 t;
  i_recv : recv_head (inn w) = wrap 32 (r + rbusy (rpc w)) /\ recv_head_wb (sh w) = wrap 32 r;
  i_tbl : alen (tbl (sh w)) = size /\ Forall (fun m => alen (data m) = data_words) (tbl (sh w));
  i_bits : forall j m, alen ss <= j < alen ss + size -> aget (tbl (sh w)) (j mod size) = Some m -> Z.testbit (cmd m) 63 = Z.testbit j k;
  i_msgs : forall j x, r <= j -> aget ss j = Some x -> alen (data x) = data_words /\ exists m, aget (tbl (sh w)) (j mod size) = Some m /\
    Z.land (cmd m) LRPC_CMD_MASK = cmd x /\ data m = data x;
  i_sender : sender_ok (tbl (sh w)) (alen ss) (spc w);
  i_receiver : receiver_ok ss r (rpc w);
}.

Lemma head_tail w ss r t : inv w ss r t -> send_head (out w) -[32] send_tail (out w) = alen ss + sbusy (spc w) - t.
Proof.
  intros I. destruct (i_send _ _ _ _ I) as (-> & ->). pose proof (i_order _ _ _ _ I). pose proof size_range.
  rewrite wrap_sub_l, wrap_sub_r. apply wrap_id. unfold in_word. destruct (spc w); cbn [sbusy] in *; unfold alen in *; destruct (rpc w); cbn [rbusy] in *; lia.
Qed.

(** Starting a call does not fail an assertion. *)
Lemma send_begin_total w ss r t m : inv w ss r t -> spc w = SIdle -> msg_ok m ->
  send_begin (out w) m = Done (if alen ss - t =? size then (out w, SLoad m) else send_slot (out w) m).
Proof.
  intros I E Hm. pose proof (head_tail w ss r t I) as Eh. rewrite E in Eh. cbn [sbusy] in Eh. rewrite Z.add_0_r in Eh.
  pose proof (i_order _ _ _ _ I) as Ho. rewrite E in Ho. cbn [sbusy] in Ho. unfold send_begin. destruct Hm as (_ & -> & _).
  destruct (i_sizes _ _ _ _ I) as (-> & _). rewrite Eh.
  destruct (Z.leb_spec size (alen ss - t)), (Z.eqb_spec (alen ss - t) size); (done || lia).
Qed.

(** ** The sender *)

Lemma alen_drop_msgs (ss : list lrpc_msg) r : 0 <= r <= alen ss -> alen (drop (Z.to_nat r) ss) = alen ss - r.
Proof. intros H. unfold alen in *. rewrite length_drop. lia. Qed.

Lemma rbusy_range p : 0 <= rbusy p <= 1.
Proof. destruct p; cbn; lia. Qed.

Lemma inv_slot w ss r t t' m : inv w ss r t -> sbusy (spc w) = 0 -> t <= t' <= r -> alen ss - t' < size -> msg_ok m ->
  let c := MkOut (send_head (out w)) (wrap 32 t') (osize (out w)) in
  inv (MkWorld (sh w) (send_slot c m).1 (send_slot c m).2 (inn w) (rpc w) (log w)) ss r t'.
Proof.
  intros I E Ht Hroom Hm c. pose proof (i_order _ _ _ _ I) as Ho. pose proof (i_send _ _ _ _ I) as (Hh & _). rewrite E, Z.add_0_r in Hh.
  destruct (i_sizes _ _ _ _ I) as (Es & Es'). subst c. unfold send_slot. cbn [fst snd send_head send_tail osize]. rewrite Es.
  constructor; cbn [sh out spc inn rpc log osize send_head send_tail sbusy];
    try apply I; [done|lia| |].
  - rewrite Hh, wrap_add_l. done.
  - rewrite Hh, slot_at. split; [done|split; [done|split; [done|split; [unfold data_words; lia|]]]]. intros; lia.
Qed.

(** The table is still full: the call returns -1. *)
Lemma inv_full w ss r t m : inv w ss r t -> spc w = SLoad m -> alen ss - r = size ->
  inv (MkWorld (sh w) (MkOut (send_head (out w)) (wrap 32 r) (osize (out w))) SIdle (inn w) (rpc w) (log w ++ [Full])) ss r r.
Proof.
  intros I E Hfull. pose proof (i_order _ _ _ _ I) as Ho. pose proof (rbusy_range (rpc w)).
  constructor; cbn [sh out spc inn rpc log osize send_head send_tail sbusy]; try apply I.
  - eapply qrun_snoc; [apply I|]. cbn. rewrite alen_drop_msgs by lia. by rewrite (proj2 (Z.eqb_eq _ _)).
  - lia.
  - pose proof (i_send _ _ _ _ I) as (Hh & _). rewrite E in Hh. done.
  - done.
Qed.

(** The slot of the next message holds none of those that are to be received. *)
Lemma free_slot w ss r t pos c m i j x : inv w ss r t -> spc w = SCopy pos c m i -> r <= j -> aget ss j = Some x -> pos <> j mod size.
Proof.
  intros I E Hj Hx Heq. pose proof (i_sender _ _ _ _ I) as Hs. rewrite E in Hs. destruct Hs as (-> & _).
  pose proof (i_order _ _ _ _ I) as Ho. rewrite E in Ho. cbn [sbusy] in Ho. pose proof (rbusy_range (rpc w)).
  assert (j < alen ss) by (apply aget_Some_lt in Hx; lia). apply (near_slot r) in Heq; lia.
Qed.

Lemma tbl_at w ss r t j : inv w ss r t -> exists m, aget (tbl (sh w)) (j mod size) = Some m /\ alen (data m) = data_words.
Proof.
  intros I. destruct (i_tbl _ _ _ _ I) as (L & F). destruct (aget_is_Some (tbl (sh w)) (j mod size)) as (m & Hm); [rewrite L; apply tbl_range|].
  exists m. split; [done|]. rewrite Forall_forall in F. apply F. by eapply list_elem_of_lookup_2.
Qed.

Lemma Forall_aset {A} (P : A -> Prop) l i x : Forall P l -> P x -> Forall P (aset l i x).
Proof. intros. by apply Forall_insert. Qed.

Lemma inv_word w ss r t pos c m i dst x : inv w ss r t -> spc w = SCopy pos c m i -> i < data_words ->
  aget (tbl (sh w)) pos = Some dst -> aget (data m) i = Some x ->
  inv (MkWorld (MkShared (aset (tbl (sh w)) pos (put_word i x dst)) (recv_head_wb (sh w))) (out w) (SCopy pos c m (i + 1)) (inn w) (rpc w) (log w)) ss r t.
Proof.
  intros I E Hi Hdst Hx. pose proof (i_sender _ _ _ _ I) as Hs. rewrite E in Hs. destruct Hs as (Ep & Ec & Hm & Hi2 & Hc).
  pose proof (tbl_range (alen ss)). destruct (i_tbl _ _ _ _ I) as (L & F).
  assert (alen (data dst) = data_words) as Ld by (rewrite Forall_forall in F; apply F; by eapply list_elem_of_lookup_2).
  constructor; cbn [sh out spc inn rpc log tbl recv_head_wb sbusy]; try apply I.
  - pose proof (i_order _ _ _ _ I) as Ho. by rewrite E in Ho.
  - pose proof (i_send _ _ _ _ I) as Ho. by rewrite E in Ho.
  - rewrite alen_aset. split; [done|]. apply Forall_aset; [done|]. cbn. by rewrite alen_aset.
  - intros j m' Hj Hm'. destruct (decide (j mod size = pos)) as [Eq|Hne].
    + rewrite Eq, aget_aset_eq in Hm' by lia. injection Hm' as <-. cbn [cmd put_word]. apply (i_bits _ _ _ _ I j); [done|]. by rewrite Eq.
    + rewrite aget_aset_ne in Hm' by (apply tbl_range || lia). by apply (i_bits _ _ _ _ I j).
  - intros j y Hj Hy. destruct (i_msgs _ _ _ _ I j y Hj Hy) as (Hl & m' & Hm' & H2). split; [done|]. exists m'. split; [|done].
    pose proof (free_slot _ _ _ _ _ _ _ _ _ _ I E Hj Hy). pose proof (tbl_range j). rewrite aget_aset_ne; (done || lia).
  - split; [done|split; [done|split; [done|split; [lia|]]]]. intros dst' Hd y Hy. rewrite aget_aset_eq in Hd by lia. injection Hd as <-.
    cbn [data put_word]. destruct (decide (y = i)) as [->|]; [rewrite aget_aset_eq by lia; done|].
    rewrite aget_aset_ne by lia. apply Hc; [done|lia].
Qed.

Lemma words_eq (a b : list Z) : alen a = alen b -> (forall i, 0 <= i < alen a -> aget a i = aget b i) -> a = b.
Proof.
  intros L H. apply list_eq. intros i. destruct (decide (i < length a)%nat) as [Hi|Hi].
  - specialize (H (Z.of_nat i)). unfold aget, alen in *. rewrite Nat2Z.id in H. apply H. lia.
  - unfold alen in L. rewrite !lookup_ge_None_2; (done || lia).
Qed.

Lemma chan_store w ss r t pos c m i dst : inv w ss r t -> spc w = SCopy pos c m i -> data_words <= i -> aget (tbl (sh w)) pos = Some dst ->
  inv (MkWorld (MkShared (aset (tbl (sh w)) pos (MkMsg c (data dst))) (recv_head_wb (sh w))) (out w) SIdle (inn w) (rpc w) (log w ++ [Sent m])) (ss ++ [m]) r t.
Proof.
  intros I E Hi Hdst. pose proof (i_sender _ _ _ _ I) as Hs. rewrite E in Hs. destruct Hs as (Ep & Ec & Hm & Hi2 & Hc).
  pose proof (tbl_range (alen ss)). destruct (i_tbl _ _ _ _ I) as (L & F). pose proof (rbusy_range (rpc w)).
  assert (alen (data dst) = data_words) as Ld by (rewrite Forall_forall in F; apply F; by eapply list_elem_of_lookup_2).
  pose proof (i_order _ _ _ _ I) as Ho. rewrite E in Ho. cbn [sbusy] in Ho. pose proof size_range.
  assert (data dst = data m) as Ed by (destruct Hm as (_ & _ & Hl); apply words_eq; [lia|]; intros; apply Hc; [done|lia]).
  constructor; cbn [sh out spc inn rpc log tbl recv_head_wb sbusy]; try apply I; rewrite ?alen_app; autorewrite with arr.
  - eapply qrun_snoc; [apply I|]. cbn. rewrite alen_drop_msgs by lia. rewrite (proj2 (Z.ltb_lt _ _)) by lia.
    rewrite drop_app_le; [done|]. unfold alen in *. lia.
  - lia.
  - pose proof (i_send _ _ _ _ I) as Hh. rewrite E in Hh. by rewrite Z.add_0_r.
  - split; [done|]. by apply Forall_aset.
  - intros j m' Hj Hm'. destruct (decide (j = alen ss + size)) as [->|Hne].
    + rewrite mod_next, <- Ep, aget_aset_eq in Hm' by lia. injection Hm' as <-.
      cbn [cmd]. by rewrite Ec, enc_bit, testbit_add_pow2 by (done || lia).
    + rewrite aget_aset_ne in Hm'; [apply (i_bits _ _ _ _ I j); [lia|done]|lia|apply tbl_range|].
      intros Eq. rewrite Ep in Eq. apply (near_slot (alen ss)) in Eq; lia.
  - intros j y Hj Hy. destruct (decide (j < alen ss)) as [Hlt|Hge].
    + rewrite aget_app_l in Hy by lia. destruct (i_msgs _ _ _ _ I j y Hj Hy) as (Hl & m' & Hm' & H2). split; [done|]. exists m'. split; [|done].
      pose proof (free_slot _ _ _ _ _ _ _ _ _ _ I E Hj Hy). pose proof (tbl_range j). rewrite aget_aset_ne; (done || lia).
    + rewrite aget_app_r in Hy by lia. assert (j = alen ss) as -> by (apply aget_Some_lt in Hy; [|lia]; autorewrite with arr in Hy; lia).
      rewrite Z.sub_diag in Hy. injection Hy as <-. split; [apply Hm|]. eexists. rewrite <- Ep, aget_aset_eq by lia. split; [done|].
      split; [|done]. cbn [cmd]. rewrite Ec. by apply enc_cmd.
  - done.
  - pose proof (i_receiver _ _ _ _ I) as Hr. destruct (rpc w); cbn in *; [done| |].
    + destruct Hr as (? & ? & x & Hx & ?). split; [done|split; [done|]]. exists x. split; [|done]. rewrite aget_app_l by lia. done.
    + rewrite aget_app_l by lia. done.
Qed.

(** ** The receiver *)

(** The parity of the slot at the head tells whether a message is there. *)
Lemma head_parity w ss r t : inv w ss r t -> rpc w = RIdle -> exists m, aget (tbl (sh w)) (slot (recv_head (inn w)) (isize (inn w))) = Some m /\
  (Z.land (cmd m) LRPC_DONE_PARITY =? parity (recv_head (inn w)) (isize (inn w))) = (r <? alen ss) /\ slot (recv_head (inn w)) (isize (inn w)) = r mod size.
Proof.
  intros I E. destruct (tbl_at w ss r t r I) as (m & Hm & _). destruct (i_recv _ _ _ _ I) as (Eh & _). rewrite E in Eh. cbn [rbusy] in Eh.
  rewrite Z.add_0_r in Eh. destruct (i_sizes _ _ _ _ I) as (_ & ->). rewrite Eh, slot_at, parity_at. exists m. split; [done|split; [|done]].
  pose proof (i_order _ _ _ _ I) as Ho. pose proof size_range. assert (0 <= sbusy (spc w)) by (destruct (spc w); cbn; lia).
  rewrite E in Ho. cbn [rbusy] in Ho. unfold LRPC_DONE_PARITY. rewrite (land_pow2 _ 63) by lia.
  destruct (Z.ltb_spec r (alen ss)) as [Hlt|Hge].
  - rewrite (i_bits _ _ _ _ I (r + size) m) by (rewrite ?mod_next; done || lia). rewrite testbit_add_pow2 by lia. by destruct (Z.testbit r k).
  - assert (r = alen ss) as -> by lia. rewrite (i_bits _ _ _ _ I (alen ss) m) by (done || lia). by destruct (Z.testbit (alen ss) k).
Qed.

Lemma inv_recv w ss r t c p l : inv w ss r t -> rpc w = RIdle -> recv_begin (sh w) (inn w) = Some (c, p, l) ->
  inv (MkWorld (sh w) (out w) (spc w) c p (log w ++ l)) ss r t.
Proof.
  intros I E Hb. destruct (head_parity w ss r t I E) as (m & Hm & Hp & Hs). unfold recv_begin in Hb. rewrite Hm in Hb. cbn [mbind option_bind] in Hb.
  rewrite Hp in Hb. pose proof (i_order _ _ _ _ I) as Ho. rewrite E in Ho. cbn [rbusy] in Ho.
  destruct (i_recv _ _ _ _ I) as (Eh & Ew). rewrite E in Eh. cbn [rbusy] in Eh. rewrite Z.add_0_r in Eh.
  destruct (Z.ltb_spec r (alen ss)) as [Hlt|Hge]; injection Hb as <- <- <-.
  - rewrite app_nil_r. constructor; cbn [sh out spc inn rpc log recv_head isize rbusy]; try apply I; [lia| |].
    + rewrite Eh, wrap_add_l. done.
    + destruct (aget_is_Some ss r) as (x & Hx); [lia|]. destruct (i_msgs _ _ _ _ I r x ltac:(lia) Hx) as (_ & m' & Hm' & Hc & _).
      rewrite Hs in Hm |- *. assert (m' = m) as -> by congruence. split; [done|split; [done|]]. exists x. split; [done|split; [done|]].
      autorewrite with arr. lia.
  - constructor; cbn [sh out spc inn rpc log]; try apply I; [|cbn [rbusy]; lia|cbn [rbusy]; rewrite Z.add_0_r; done|done].
    eapply qrun_snoc; [apply I|]. assert (r = alen ss) as -> by lia. rewrite drop_ge by (unfold alen; lia). done.
Qed.

Lemma inv_receiver w ss r t s p l : inv w ss r t -> recv_next (sh w) (inn w) (rpc w) = Some (s, p, l) ->
  exists r', inv (MkWorld s (out w) (spc w) (inn w) p (log w ++ l)) ss r' t.
Proof.
  intros I Hn. pose proof (i_receiver _ _ _ _ I) as Hr. pose proof (i_order _ _ _ _ I) as Ho. pose proof (i_recv _ _ _ _ I) as (Eh & Ew).
  destruct (rpc w) as [|pos c got|m] eqn:E; cbn [recv_next rbusy] in *; [done| |].
  - destruct Hr as (Ep & Hl & x & Hx & Ec & Hg). destruct (i_msgs _ _ _ _ I r x ltac:(lia) Hx) as (Lx & m & Hm & _ & Ed). exists r.
    destruct (Z.ltb_spec (alen got) data_words) as [Hlt|Hge].
    + rewrite Ep, Hm in Hn. cbn [mbind option_bind] in Hn. destruct (aget (data m) (alen got)) as [y|] eqn:Ey; [|done].
      injection Hn as <- <- <-. rewrite app_nil_r. constructor; cbn [sh out spc inn rpc log rbusy]; try apply I; try done.
      split; [done|]. rewrite alen_app. autorewrite with arr. split; [lia|]. exists x. split; [done|split; [done|]]. intros i Hi.
      destruct (decide (i < alen got)) as [?|?]; [rewrite aget_app_l by lia; apply Hg; lia|]. assert (i = alen got) as -> by lia.
      rewrite aget_app_r by lia. rewrite Z.sub_diag, <- Ed, Ey. done.
    + injection Hn as <- <- <-. rewrite app_nil_r. constructor; cbn [sh out spc inn rpc log rbusy]; try apply I; try done.
      cbn. rewrite Hx. f_equal. destruct x as [xc xd]. cbn in *. subst. f_equal. symmetry. apply words_eq; [lia|done].
  - injection Hn as <- <- <-. exists (r + 1). constructor; cbn [sh out spc inn rpc log tbl recv_head_wb rbusy]; try apply I.
    + eapply qrun_snoc; [apply I|]. unfold aget in Hr. rewrite (drop_S _ _ _ Hr). cbn. rewrite decide_True by done. do 2 f_equal. lia.
    + lia.
    + rewrite Z.add_0_r. done.
    + intros j x Hj Hx. apply (i_msgs _ _ _ _ I j x); [lia|done].
    + done.
Qed.

(** ** Every step *)

Lemma inv_sender w ss r t s c p l : inv w ss r t -> send_next (sh w) (out w) (spc w) = Some (s, c, p, l) ->
  exists ss' t', inv (MkWorld s c p (inn w) (rpc w) (log w ++ l)) ss' r t'.
Proof.
  intros I Hn. pose proof (i_order _ _ _ _ I) as Ho. pose proof (i_recv _ _ _ _ I) as (_ & Ew). pose proof (i_send _ _ _ _ I) as (Eh & _).
  pose proof (rbusy_range (rpc w)). pose proof (i_sender _ _ _ _ I) as Hs. pose proof size_range.
  destruct (spc w) as [|m|pos cm m i] eqn:E; cbn [send_next sbusy] in *; [done| |].
  - rewrite Z.add_0_r in Eh, Ho. cbn [send_head send_tail osize] in Hn. rewrite Eh, Ew, wrap_sub_l, wrap_sub_r, wrap_id in Hn by (unfold in_word; lia).
    destruct (i_sizes _ _ _ _ I) as (Es & _). rewrite Es in Hn. destruct (Z.eqb_spec (alen ss - r) size) as [Hf|Hf].
    + injection Hn as <- <- <- <-. exists ss, r. rewrite <- Eh, <- Es. by apply (inv_full w ss r t m).
    + destruct (send_slot _ m) as [c' p'] eqn:Esl. injection Hn as <- <- <- <-. exists ss, r. rewrite app_nil_r.
      pose proof (inv_slot w ss r t r m I ltac:(by rewrite E) ltac:(lia) ltac:(lia) Hs) as I'. cbn [fst snd] in I'.
      rewrite Eh, Es, Esl in I'. done.
  - destruct (aget (tbl (sh w)) pos) as [dst|] eqn:Ed; [|done]. cbn [mbind option_bind] in Hn. destruct (Z.ltb_spec i data_words).
    + destruct (aget (data m) i) as [x|] eqn:Ex; [|done]. injection Hn as <- <- <- <-. exists ss, t. rewrite app_nil_r. by apply inv_word.
    + injection Hn as <- <- <- <-. exists (ss ++ [m]), t. by apply (chan_store w ss r t pos cm m i).
Qed.

Definition holds (w : world) : Prop := exists ss r t, inv w ss r t.

Lemma holds_step w w' : step w w' -> holds w -> holds w'.
Proof.
  intros Hs (ss & r & t & I). destruct Hs as [w m c p E Hm Hb|w s c p l Hn|w c p l E Hb|w s p l Hn].
  - rewrite (send_begin_total w ss r t m I E Hm) in Hb. pose proof (i_order _ _ _ _ I) as Ho. rewrite E in Ho. cbn [sbusy] in Ho.
    pose proof (rbusy_range (rpc w)). destruct (Z.eqb_spec (alen ss - t) size) as [Hf|Hf].
    + injection Hb as <- <-. exists ss, r, t. pose proof (i_send _ _ _ _ I) as Hh. rewrite E in Hh.
      constructor; cbn [sh out spc inn rpc log sbusy]; try apply I; done.
    + destruct (i_send _ _ _ _ I) as (_ & Et). exists ss, r, t.
      pose proof (inv_slot w ss r t t m I ltac:(by rewrite E) ltac:(lia) ltac:(lia) Hm) as I'. cbn [fst snd] in I'. rewrite <- Et in I'.
      destruct (out w) as [h tl sz] eqn:Eo. cbn [send_head send_tail osize] in I'. assert (send_slot (MkOut h tl sz) m = (c, p)) as E' by congruence. by rewrite E' in I'.
  - destruct (inv_sender w ss r t s c p l I Hn) as (ss' & t' & I'). by exists ss', r, t'.
  - exists ss, r, t. by apply inv_recv.
  - destruct (inv_receiver w ss r t s p l I Hn) as (r' & I'). by exists ss, r', t.
Qed.

Definition clear (t : list lrpc_msg) : Prop := alen t = size /\ Forall (fun m => Z.testbit (cmd m) 63 = false /\ alen (data m) = data_words) t.

Lemma holds_start t : clear t -> holds (start t 0 size).
Proof.
  intros (L & F). exists [], 0, 0. pose proof size_range.
  constructor; cbn [start sh out spc inn rpc log tbl recv_head_wb osize isize send_head send_tail recv_head sbusy rbusy sender_ok receiver_ok];
    autorewrite with arr; try done; try lia.
  - split; [done|]. eapply Forall_impl; [done|]. by intros m (_ & Hm).
  - intros j m Hj Hm. rewrite Forall_forall in F. destruct (F m) as (-> & _); [by eapply list_elem_of_lookup_2|].
    symmetry. rewrite <- (Z.mod_small j size) by lia. apply Z.mod_pow2_bits_high. lia.
Qed.

Lemma sender_goes_on w ss r t : inv w ss r t -> spc w <> SIdle -> is_Some (send_next (sh w) (out w) (spc w)).
Proof.
  intros I Hne. pose proof (i_sender _ _ _ _ I) as Hs. destruct (spc w) as [|m|pos c m i]; cbn [send_next sender_ok] in *; [done| |].
  - case_match; [by eexists|]. destruct (send_slot _ m). by eexists.
  - destruct Hs as (-> & _ & (_ & _ & Hl) & Hi & _). destruct (tbl_at w ss r t (alen ss) I) as (dst & -> & _). cbn [mbind option_bind].
    destruct (Z.ltb_spec i data_words); [|by eexists]. destruct (aget_is_Some (data m) i) as (x & ->); [lia|]. by eexists.
Qed.

Lemma receiver_goes_on w ss r t : inv w ss r t -> rpc w <> RIdle -> is_Some (recv_next (sh w) (inn w) (rpc w)).
Proof.
  intros I Hne. pose proof (i_receiver _ _ _ _ I) as Hs. destruct (rpc w) as [|pos c got|m]; cbn [recv_next receiver_ok] in *; [done| |by eexists].
  destruct Hs as (-> & _). destruct (tbl_at w ss r t r I) as (m & -> & Hl). cbn [mbind option_bind].
  destruct (Z.ltb_spec (alen got) data_words); [|by eexists]. destruct (aget_is_Some (data m) (alen got)) as (x & ->); [unfold alen in *; lia|].
  by eexists.
Qed.

Lemma alen_drop_nil (ss : list lrpc_msg) r : 0 <= r <= alen ss -> alen ss - r = 0 <-> drop (Z.to_nat r) ss = [].
Proof.
  intros H. rewrite <- (alen_drop_msgs ss r H). unfold alen. destruct (drop (Z.to_nat r) ss); cbn; [done|]. split; [lia|done].
Qed.

(** C20: From a clear table the calls report what a queue of [size] messages does, in
    the order of their steps; a send that begins passes its assertions, a call
    under way has a next step, and [lrpc_empty] is true when the queue is empty. *)
Theorem lrpc_linearizable t w : clear t -> rtc step (start t 0 size) w -> exists q,
  qrun size [] (log w) = Some q /\ alen q <= size /\
  (spc w = SIdle -> forall m, msg_ok m -> exists c p, send_begin (out w) m = Done (c, p)) /\
  (spc w <> SIdle -> is_Some (send_next (sh w) (out w) (spc w))) /\
  (rpc w = RIdle -> is_Some (recv_begin (sh w) (inn w)) /\ lrpc_empty (sh w) (inn w) = Some (bool_decide (q = []))) /\
  (rpc w <> RIdle -> is_Some (recv_next (sh w) (inn w) (rpc w))).
Proof.
  intros Ht Hr. destruct (rtc_invariant step holds _ w ltac:(intros a b; apply holds_step) Hr (holds_start t Ht)) as (ss & r & tl & I).
  exists (drop (Z.to_nat r) ss). pose proof (i_order _ _ _ _ I) as Ho. pose proof (rbusy_range (rpc w)).
  assert (0 <= sbusy (spc w)) by (destruct (spc w); cbn; lia). split; [apply I|split; [rewrite alen_drop_msgs by lia; lia|]].
  split; [|split; [|split]].
  - intros E m Hm. rewrite (send_begin_total w ss r tl m I E Hm). case_match; [by eexists _, _|]. by eexists _, _.
  - apply (sender_goes_on w ss r tl I).
  - intros E. destruct (head_parity w ss r tl I E) as (m & Hm & Hp & _). unfold recv_begin, lrpc_empty. rewrite Hm. cbn [mbind option_bind].
    rewrite Hp. split; [case_match; by eexists|]. f_equal. apply eq_true_iff_eq. rewrite negb_true_iff, Z.ltb_ge, bool_decide_eq_true.
    rewrite <- (alen_drop_nil ss r) by lia. lia.
  - apply (receiver_goes_on w ss r tl I).
Qed.

(** The steps a call still has to make of its own. *)
Definition send_left (p : sender) : Z := match p with SIdle => 0 | SCopy _ _ _ i => 1 + Z.max 0 (data_words - i) | SLoad _ => 2 + data_words end.
Definition recv_left (p : receiver) : Z := match p with RIdle => 0 | RBack _ => 1 | RCopy _ _ got => 2 + Z.max 0 (data_words - alen got) end.

(** A call returns after ten steps at most: each brings it nearer its end. *)
Lemma calls_are_short s o i p q :
  (forall s' o' p' l, send_next s o p = Some (s', o', p', l) -> send_left p' < send_left p) /\
  (forall s' q' l, recv_next s i q = Some (s', q', l) -> recv_left q' < recv_left q).
Proof.
  split.
  - intros s' o' p' l H. destruct p as [|m|pos c m j]; cbn [send_next] in H; [done| |].
    + unfold send_slot in H. case_match; injection H as <- <- <- <-; cbn; unfold data_words; lia.
    + destruct (aget (tbl s) pos); [|done]. cbn [mbind option_bind] in H. destruct (Z.ltb_spec j data_words).
      * destruct (aget (data m) j); [|done]. injection H as <- <- <- <-. cbn. lia.
      * injection H as <- <- <- <-. cbn. lia.
  - intros s' q' l H. destruct q as [|pos c got|m]; cbn [recv_next] in H; [done| |injection H as <- <- <-; cbn; lia].
    destruct (Z.ltb_spec (alen got) data_words); [|injection H as <- <- <-; cbn [recv_left]; lia].
    destruct (aget (tbl s) pos); [|done]. cbn [mbind option_bind] in H. destruct (aget _ (alen got)); [|done]. injection H as <- <- <-.
    cbn [recv_left]. rewrite alen_app. autorewrite with arr. lia.
Qed.

End channel.

(** ** Concrete runs *)

Inductive act := ASend (m : lrpc_msg) | ASender | ARecv | AReceiver.

#[export] Instance msg_ok_dec m : Decision (msg_ok m).
Proof. unfold msg_ok. apply _. Defined.

Definition exec (w : world) (a : act) : option world :=
  match a with
  | ASend m =>
      if decide (msg_ok m) then
        match spc w, send_begin (out w) m with
        | SIdle, Done (c, p) => Some (MkWorld (sh w) c p (inn w) (rpc w) (log w))
        | _, _ => None
        end
      else None
  | ASender => '(s, c, p, l) ← send_next (sh w) (out w) (spc w); Some (MkWorld s c p (inn w) (rpc w) (log w ++ l))
  | ARecv =>
      match rpc w with
      | RIdle => '(c, p, l) ← recv_begin (sh w) (inn w); Some (MkWorld (sh w) (out w) (spc w) c p (log w ++ l))
      | _ => None
      end
  | AReceiver => '(s, p, l) ← recv_next (sh w) (inn w) (rpc w); Some (MkWorld s (out w) (spc w) (inn w) p (log w ++ l))
  end.
Fixpoint execs (w : world) (l : list act) : option world :=
  match l with a :: l => w ← exec w a; execs w l | [] => Some w end.

Lemma exec_is_step w a w' : exec w a = Some w' -> step w w'.
Proof.
  destruct a as [m| | |]; cbn [exec]; intros H.
  - case_decide; [|done]. destruct (spc w) eqn:E; [|done..]. destruct (send_begin (out w) m) as [[c p]|] eqn:Eb; [|done].
    injection H as <-. by apply (step_send w m).
  - destruct (send_next _ _ _) as [[[[s c] p] l]|] eqn:E; [|done]. injection H as <-. by apply step_sender.
  - destruct (rpc w) eqn:E; [|done..]. destruct (recv_begin _ _) as [[[c p] l]|] eqn:Eb; [|done]. injection H as <-. by apply step_recv.
  - destruct (recv_next _ _ _) as [[[s p] l]|] eqn:E; [|done]. injection H as <-. by apply step_receiver.
Qed.

Lemma execs_run l : forall w w', execs w l = Some w' -> rtc step w w'.
Proof.
  induction l as [|a l IH]; intros w w' H; cbn [execs] in H; [by injection H as <-|]. destruct (exec w a) as [w1|] eqn:E; [|done].
  eapply rtc_l; [by apply (exec_is_step w a)|by apply IH].
Qed.

Lemma run_logs w l e : option_map log (execs w l) = Some e -> exists w', rtc step w w' /\ log w' = e.
Proof. intros H. destruct (execs w l) as [w'|] eqn:E; [|done]. injection H as <-. exists w'. split; [by apply (execs_run l)|done]. Qed.

Definition word7 (x : Z) : list Z := [x; x; x; x; x; x; x].
Definition empty_table : list lrpc_msg := [MkMsg 0 (word7 0); MkMsg 0 (word7 0)].

(** The memory a table got still has an old message in it, with its parity bit:
    before anything has been sent, the receiver returns that message. *)
Theorem lrpc_stale_message : exists w, rtc step (start [MkMsg (2 ^ 63 + 5) (word7 9); MkMsg 0 (word7 0)] 0 2) w /\
  log w = [Received (MkMsg 5 (word7 9))].
Proof. apply (run_logs _ (ARecv :: repeat AReceiver 9)). vm_compute. reflexivity. Qed.

Definition one_send (x : Z) : list act := ASend (MkMsg x (word7 x)) :: repeat ASender 8.
Definition one_recv : list act := ARecv :: repeat AReceiver 9.

(** Two messages, a third that finds the table full, one received, the third
    again, by the slow path. *)
Definition full_log : list event :=
  [Sent (MkMsg 1 (word7 1)); Sent (MkMsg 2 (word7 2)); Full; Received (MkMsg 1 (word7 1)); Sent (MkMsg 3 (word7 3)); Received (MkMsg 2 (word7 2))].

Example lrpc_linearizable_witness : clear 1 empty_table /\ (exists w, rtc step (start empty_table 0 2) w /\ log w = full_log /\
  exists q, qrun 2 [] (log w) = Some q) /\ qrun 2 [] full_log = Some [MkMsg 3 (word7 3)].
Proof.
  assert (clear 1 empty_table) as Hc by (split; [done|repeat constructor]). split; [done|split; [|by vm_compute]].
  destruct (run_logs (start empty_table 0 2)
    (one_send 1 ++ one_send 2 ++ [ASend (MkMsg 3 (word7 3)); ASender] ++ one_recv ++ [ASend (MkMsg 3 (word7 3)); ASender] ++ repeat ASender 8 ++ one_recv)
    full_log) as (w & Hr & Hl); [vm_compute; reflexivity|].
  exists w. split; [done|split; [done|]]. destruct (lrpc_linearizable 1 ltac:(lia) empty_table w Hc Hr) as (q & Hq & _). by exists q.
Defined.
End LrpcSpec.
