(* ===== verification/Wire.v ===== *)
(** * What the sender puts on the wire

    The history of a flow: every chunk that was ever sent, with its message, its
    offset and its path.  Sending a message appends to the history and posts the
    new chunks; acknowledgements and timeouts post nothing but chunks of the
    history that are still tracked, with the content and on the queue pair they
    were first posted with.  [Transfer.v] builds on this. *)

From S2P Require Import Prelude Float64 Csn Queues Pcb SharedIo Flow Timer Sender SenderSpec SenderInv Retransmit.

Module Wire.
Import Flow Tx TxSpec TxInv Rtx.

(** A chunk of message [i_msg], at [i_off] in it, first posted on [i_qp]. *)
Record item := MkItem { i_chunk : chunk; i_msg : Z; i_off : Z; i_qp : Z }.
Definition i_len (it : item) : Z := k_len (i_chunk it).
Definition i_last (it : item) : bool := k_last (i_chunk it).

Section wire.
Context {CC X P : Type} `{TxHooks CC X} `{!TxLaws CC X} `{PoolOps P} `{!PoolLaws P}.
Context (cfg : config) (phi : Z).
Implicit Types (c : sctx CC X P) (f : SubUcclFlow CC).

(** ** Retransmissions *)

(** The retransmission of a chunk that [f] tracks. *)
Definition rtx_of f c (p : post) : Prop :=
  exists t, t ∈ txtracking f /\ rtx_key p = Some (qpidx (get_wr (twr_ex t) c), wr_key (get_wr (twr_ex t) c)).

Definition resends '((f, c) : SubUcclFlow CC * sctx CC X P) '((f', c') : SubUcclFlow CC * sctx CC X P) : Prop :=
  txtracking f' = txtracking f /\ (forall a, get_wr a c' = get_wr a c) /\ sureqs c' = sureqs c /\
  exists ps, posted c' = posted c ++ ps /\ Forall (rtx_of f c) ps.

Lemma rtx_of_same f c f' c' p : txtracking f' = txtracking f -> (forall a, get_wr a c' = get_wr a c) -> rtx_of f' c' p -> rtx_of f c p.
Proof. intros Ht Hw (t & Hin & E). exists t. by rewrite <- Ht, <- !Hw. Qed.

#[global] Instance resends_preorder : PreOrder resends.
Proof.
  split.
  - intros [f c]. split_and!; [done..|]. exists []. by rewrite app_nil_r.
  - intros [f1 c1] [f2 c2] [f3 c3] (A1 & A2 & A5 & ps1 & A3 & A4) (B1 & B2 & B5 & ps2 & B3 & B4). split_and!; [congruence..|].
    exists (ps1 ++ ps2). rewrite B3, A3, app_assoc. split; [done|]. apply Forall_app. split; [done|].
    eapply Forall_impl; [exact B4|]. intros p. by apply rtx_of_same.
Qed.

Lemma resends_flow f f' c c' : txtracking f' = txtracking f -> wrs c' = wrs c -> sureqs c' = sureqs c -> posted c' = posted c -> resends (f, c) (f', c').
Proof. intros Ht Hw Hs Hp. split_and!; [done|intros a; unfold get_wr; by rewrite Hw|done|]. exists []. by rewrite app_nil_r. Qed.

Context (Hopen : open_rtx (CC := CC) (X := X)).

Lemma try_retransmit_resends t f c ok f' c' : t ∈ txtracking f ->
  try_retransmit_chunk (twr_ex t) f c = Done (ok, f', c') -> resends (f, c) (f', c').
Proof.
  intros Ht. unfold try_retransmit_chunk. rewrite Hopen. cbn [negb].
  intros ([hdr s] & _ & E)%bind_done. apply bind_done in E as ([desc s'] & _ & E). injection E as <- <- <-.
  split_and!; [done| |done|eexists [_]; split; [done|]; repeat constructor; by exists t].
  intros a. unfold get_wr. simpl. destruct (decide (a = twr_ex t)) as [->|]; [|by rewrite lookup_insert_ne].
  rewrite lookup_insert_eq. simpl. by destruct (default zero_wr (wrs c !! twr_ex t)).
Qed.

Lemma rearm_resends now fid f c : resends (f, c) (rearm_timer_for_flow cfg now fid f c).
Proof. unfold rearm_timer_for_flow, arm_timer_for_flow. destruct (rto_armed f); by apply resends_flow. Qed.

Lemma count_resends rto f c : resends (f, c) (count_rexmit rto f, c).
Proof. apply resends_flow; [by destruct rto|done..]. Qed.

Lemma unacked_in idx f t : get_unacked_chunk_from_idx idx f = Done t -> t ∈ txtracking f.
Proof. unfold get_unacked_chunk_from_idx. destruct (aget _ _) eqn:E; [|done]. intros [= ->]. by eapply list_elem_of_lookup_2. Qed.

Lemma rtx_loop_resends fuel : forall base count index done f c done' f' c',
  rtx_loop fuel base count index done f c = Done (done', f', c') -> resends (f, c) (f', c').
Proof.
  induction fuel as [|fuel IH]; intros base count index done f c done' f' c'; cbn [rtx_loop]; [by injection 1 as <- <- <-|].
  destruct (_ || _); [by injection 1 as <- <- <-|]. intros (set & _ & E)%bind_done. destruct set; [eauto|].
  apply bind_done in E as (t & Et & E). destruct (_ =? _); [|eauto]. apply bind_done in E as ([[ok f1] c1] & E1 & E).
  apply try_retransmit_resends in E1; [|by eapply unacked_in]. transitivity (f1, c1); [done|]. destruct ok; [eauto|].
  by injection E as <- <- <-.
Qed.

Lemma retransmit_resends now fid rto f c f' c' : retransmit_for_flow cfg now fid rto f c = Done (f', c') -> resends (f, c) (f', c').
Proof.
  unfold retransmit_for_flow. destruct (txtracking f) as [|t l] eqn:Et; [by injection 1 as <- <-|].
  assert (forall f1 c1 rto', resends (f, c) (f1, c1) -> (let '(f2, c2) := rearm_timer_for_flow cfg now fid f1 c1 in
    Done (if rto' : bool then count_rexmit rto f2 else f2, c2)) = Done (f', c') -> resends (f, c) (f', c')) as Hend.
  { intros f1 c1 rto' Hr E. pose proof (rearm_resends now fid f1 c1) as Hm. destruct (rearm_timer_for_flow _ _ _ _ _) as [f2 c2].
    injection E as <- <-. transitivity (f1, c1); [done|]. transitivity (f2, c2); [done|]. destruct rto'; [apply count_resends|done]. }
  destruct (_ =? 0); intros ([[ok f1] c1] & E1 & E)%bind_done.
  - apply try_retransmit_resends in E1; [|rewrite Et; left]. by apply (Hend f1 c1 true).
  - apply rtx_loop_resends in E1. by apply (Hend f1 c1 ok).
Qed.

Lemma recovery_resends now fid bitmap fuel : forall count index f c f' c',
  recovery_loop cfg fuel now fid bitmap count index f c = Done (f', c') -> resends (f, c) (f', c').
Proof.
  induction fuel as [|fuel IH]; intros count index f c f' c'; cbn [recovery_loop]; [by injection 1 as <- <-|].
  destruct (_ || _); [by injection 1 as <- <-|]. intros (set & _ & E)%bind_done. destruct set; [eauto|].
  apply bind_done in E as (t & Et & E). apply bind_done in E as ([[stop f1] c1] & E1 & E). transitivity (f1, c1).
  - destruct (_ =? _); [|by injection E1 as <- <- <-]. apply bind_done in E1 as ([[ok f2] c2] & E2 & E1).
    apply try_retransmit_resends in E2; [|by eapply unacked_in]. etrans; [exact E2|].
    destruct ok; injection E1 as <- <- <-; [apply (count_resends false)|done].
  - pose proof (rearm_resends now fid f1 c1) as Hr. destruct (rearm_timer_for_flow _ _ _ _ _) as [f2 c2].
    etrans; [exact Hr|]. destruct stop; [by injection E as <- <-|eauto].
Qed.

Lemma dup_ack_resends now fid h f c f' c' : rx_dup_ack cfg now fid h f c = Done (f', c') -> resends (f, c) (f', c').
Proof.
  unfold rx_dup_ack. destruct (EventOnRxNACK _ _) as [rtx cc']. set (f1 := set_pcb _ (set_in_rtx _ _)). intros E.
  transitivity (f1, c); [by apply resends_flow|]. destruct (_ <? _); [by injection E as <- <-|].
  destruct (_ =? _); [|by eapply recovery_resends]. unfold fast_retransmit_for_flow in E.
  destruct (is_roce_ cfg); [|by injection E as <- <-]. by eapply retransmit_resends.
Qed.

Lemma rto_resends now fid f c c' : sender_flow_tbl_ c !! fid = Some f -> handle_rto cfg now fid c = Done c' ->
  exists f', resends (f, c) (f', c').
Proof.
  intros Hf (f0 & Hf0 & E)%bind_done. unfold get_flow in Hf0. rewrite Hf in Hf0. injection Hf0 as <-.
  apply bind_done in E as ([f' c1] & E & [= <-]). exists f'. transitivity (mark_flow_timeout f, c); [by apply resends_flow|].
  transitivity (f', c1); [|by apply resends_flow]. unfold rto_retransmit_for_flow in E.
  destruct (is_roce_ cfg); [by eapply retransmit_resends|]. by injection E as <- <-.
Qed.

(** ** The history of the flow *)

Implicit Types (reqs : list (Z * sreq)) (hist : list item).

(** The requests sent on the flow, oldest first: their number is their message's. *)
Definition reqs_ok reqs : Prop :=
  Forall (fun p => context p.2 = phi /\ 0 <= data_len p.2 < 2 ^ 31) reqs.

(** What the work request of the chunk at position [n] says. *)
Definition item_key reqs (n : Z) (it : item) : Z * Z * Z * Z :=
  match aget reqs (i_msg it) with
  | Some (_, r) => chunk_key r phi n (i_off it) (i_len it)
  | None => (0, 0, 0, 0)
  end.

Definition post_key (p : post) : Z * (Z * Z * Z * Z) :=
  match p with
  | PostWrite q w => (q, wr_key w)
  | PostRtx q _ remote imm addr len => (q, (addr, remote, len, imm))
  end.
Definition is_write (p : post) : bool := match p with PostWrite _ _ => true | PostRtx _ _ _ _ _ _ => false end.

(** [p] is a transmission of the chunk at position [n]. *)
Definition on_wire reqs hist (n : Z) (p : post) : Prop :=
  exists it, 0 <= n /\ aget hist n = Some it /\ post_key p = (i_qp it, item_key reqs n it).

(** The bytes of message [i] among the chunks [l]. *)
Fixpoint sent_of (i : Z) (l : list item) : Z :=
  match l with [] => 0 | it :: l => (if i_msg it =? i then i_len it else 0) + sent_of i l end.

(** No chunk ends message [i] yet. *)
Definition unfinished (i : Z) hist : Prop := Forall (fun it => i_msg it = i -> i_last it = false) hist.

Definition finished (i : Z) hist : Prop := Exists (fun it => i_msg it = i /\ i_last it = true) hist.

(** Each chunk of a message starts where the previous one ended, none lies beyond
    the message, and the one that ends it is its last. *)
Record filed reqs hist : Prop := {
  fl_item : forall n it, 0 <= n -> aget hist n = Some it -> exists u r,
    0 <= i_msg it /\ aget reqs (i_msg it) = Some (u, r) /\ k_ureq (i_chunk it) = u /\
    i_off it = sent_of (i_msg it) (take (Z.to_nat n) hist) /\ 0 <= i_len it /\
    i_off it + i_len it <= data_len r /\ i_last it = (i_off it + i_len it =? data_len r);
  fl_last : forall n m it it', 0 <= n < m -> aget hist n = Some it -> aget hist m = Some it' ->
    i_msg it = i_msg it' -> i_last it = false;
}.

(** The window of the flow is the part of the history from [una] on, and the work
    requests of its chunks still say what was posted. *)
Record wired reqs hist (w : window) c : Prop := {
  wd_hist : map i_chunk hist = acked w ++ trk w;
  wd_que : que w = [];
  wd_mem : forall n it, una w <= n -> aget hist n = Some it ->
    wr_key (get_wr (k_addr (i_chunk it)) c) = item_key reqs n it /\
    qpidx (get_wr (k_addr (i_chunk it)) c) = i_qp it;
}.

Lemma sent_of_app i l k : sent_of i (l ++ k) = sent_of i l + sent_of i k.
Proof. induction l; simpl; lia. Qed.

Lemma sent_of_nonneg i l : Forall (fun it => 0 <= i_len it) l -> 0 <= sent_of i l.
Proof. induction 1; simpl; [done|]. case_match; lia. Qed.

Lemma wired_len reqs hist w c : wired reqs hist w c -> alen hist = nxt w /\ alen hist = una w + alen (trk w).
Proof.
  intros [Hh Hq _]. unfold nxt, live, una. rewrite Hq, app_nil_r.
  rewrite <- alen_app, <- Hh. unfold alen. rewrite length_map. done.
Qed.

Lemma filed_lens reqs hist : filed reqs hist -> Forall (fun it => 0 <= i_len it) hist.
Proof.
  intros [Hf _]. apply Forall_lookup. intros n it Hn.
  destruct (Hf (Z.of_nat n) it) as (u & r & _ & _ & _ & _ & ? & _); [lia|unfold aget; by rewrite Nat2Z.id|done].
Qed.

Lemma filed_snoc reqs hist it u r :
  filed reqs hist -> 0 <= i_msg it -> aget reqs (i_msg it) = Some (u, r) -> k_ureq (i_chunk it) = u ->
  i_off it = sent_of (i_msg it) hist -> 0 <= i_len it -> i_off it + i_len it <= data_len r ->
  i_last it = (i_off it + i_len it =? data_len r) -> unfinished (i_msg it) hist -> filed reqs (hist ++ [it]).
Proof.
  intros [Hf Hl] Hm Hr Hu Ho Hlen Hle Hlast Hun. split.
  - intros n x Hn E. destruct (aget_snoc_inv _ _ _ _ Hn E) as [[Hlt E']|[-> ->]]; cycle 1.
    + exists u, r. split_and!; try done. rewrite Ho. unfold alen. rewrite Nat2Z.id. by rewrite take_app_length.
    + destruct (Hf n x Hn E') as (u' & r' & ? & ? & ? & Eo & ?). exists u', r'. split_and!; try done; try tauto.
      rewrite Eo. rewrite take_app_le; [done|]. unfold alen in *. lia.
  - intros n m x y Hnm Ex Ey Em. destruct (aget_snoc_inv hist it m y ltac:(lia) Ey) as [[Hlt Ey']|[-> ->]]; cycle 1.
    + rewrite aget_app_l in Ex by lia. unfold unfinished in Hun. rewrite Forall_forall in Hun.
      apply Hun; [by eapply list_elem_of_lookup_2|done].
    + rewrite aget_app_l in Ex by lia. by eapply Hl.
Qed.

Lemma take_snoc hist n it : 0 <= n -> aget hist n = Some it ->
  take (Z.to_nat (n + 1)) hist = take (Z.to_nat n) hist ++ [it].
Proof. intros Hn E. replace (Z.to_nat (n + 1)) with (S (Z.to_nat n)) by lia. by apply take_S_r. Qed.

(** Every byte that was sent of a message lies in one of its chunks. *)
Lemma byte_in_chunk reqs hist n i j : filed reqs hist -> 0 <= n <= alen hist -> 0 <= j < sent_of i (take (Z.to_nat n) hist) ->
  exists m it, 0 <= m < n /\ aget hist m = Some it /\ i_msg it = i /\ i_off it <= j < i_off it + i_len it.
Proof.
  intros Hf [Hn Hle]. revert Hle. pattern n. apply natlike_ind; [intros _; simpl; lia| |done]. intros k Hk IH Hle Hj. unfold Z.succ in *.
  destruct (aget_is_Some hist k) as [it Ei]; [lia|]. rewrite (take_snoc hist k it), sent_of_app in Hj by done. simpl in Hj.
  destruct (Z.lt_ge_cases j (sent_of i (take (Z.to_nat k) hist))) as [Hlt|Hge].
  - destruct (IH ltac:(lia) ltac:(lia)) as (m & x & ? & ?). exists m, x. split; [lia|done].
  - destruct (Z.eqb_spec (i_msg it) i) as [<-|]; [|lia].
    destruct (fl_item _ _ Hf k it Hk Ei) as (u & r & _ & _ & _ & Eo & _). exists k, it. split_and!; try done; lia.
Qed.

(** A message all of which was sent has its last chunk in the history. *)
Lemma all_sent reqs hist i u r : filed reqs hist -> aget reqs i = Some (u, r) -> 0 < data_len r ->
  sent_of i hist = data_len r -> finished i hist.
Proof.
  intros Hf Hr Hd Hs. destruct (byte_in_chunk reqs hist (alen hist) i (data_len r - 1) Hf) as (m & it & Hm & Ei & <- & Hj).
  - pose proof (alen_nonneg hist). lia.
  - unfold alen. rewrite Nat2Z.id, firstn_all. lia.
  - apply Exists_exists. exists it. split; [by eapply list_elem_of_lookup_2|]. split; [done|].
    destruct (fl_item _ _ Hf m it ltac:(lia) Ei) as (u' & r' & _ & Hr' & _ & _ & _ & Hle & ->). simplify_eq. lia.
Qed.

(** A longer history, and more requests, say the same of the old chunks. *)
Lemma item_key_app reqs k n it u r : 0 <= i_msg it -> aget reqs (i_msg it) = Some (u, r) ->
  item_key (reqs ++ k) n it = item_key reqs n it.
Proof. intros Hm E. unfold item_key. pose proof (aget_Some_lt _ _ _ Hm E). by rewrite aget_app_l by lia. Qed.

Lemma on_wire_app reqs hist its n p : on_wire reqs hist n p -> on_wire reqs (hist ++ its) n p.
Proof.
  intros (it & Hn & E & Hk). pose proof (aget_Some_lt _ _ _ Hn E).
  exists it. split_and!; [done|by rewrite aget_app_l by lia|done].
Qed.

Lemma on_wire_reqs reqs k hist n p : filed reqs hist -> on_wire reqs hist n p -> on_wire (reqs ++ k) hist n p.
Proof.
  intros Hf (it & Hn & E & Hk). exists it. split_and!; [done|done|].
  destruct (fl_item _ _ Hf n it Hn E) as (u & r & Hm & Hr & _). by rewrite (item_key_app _ _ _ _ u r Hm Hr).
Qed.

Lemma filed_reqs reqs k hist : filed reqs hist -> filed (reqs ++ k) hist.
Proof.
  intros [Hf Hl]. split; [|done]. intros n it Hn E. destruct (Hf n it Hn E) as (u & r & Hm & Hr & ?).
  pose proof (aget_Some_lt _ _ _ Hm Hr). exists u, r. split; [done|]. by rewrite aget_app_l by lia.
Qed.

Lemma wired_frame reqs hist w c c' :
  (forall a, get_wr a c' = get_wr a c) -> wired reqs hist w c -> wired reqs hist w c'.
Proof. intros Hg [H1 H2 H3]. split; [done|done|]. intros. rewrite Hg. by apply H3. Qed.

Lemma wired_reqs reqs k hist w c : filed reqs hist -> 0 <= una w -> wired reqs hist w c -> wired (reqs ++ k) hist w c.
Proof.
  intros Hf Hu [H1 H2 H3]. split; [done|done|]. intros n it Hn E.
  destruct (fl_item _ _ Hf n it ltac:(lia) E) as (u & r & Hm & Hr & _).
  rewrite (item_key_app _ _ _ _ u r Hm Hr). by apply H3.
Qed.

(** ** Sending *)

(** The state of the flow: its window, its history and the content of its chunks. *)
Record flow_wire bufs cap (ws : gmap Z window) reqs hist (w : window) c : Prop := {
  fw_inv : sinv cfg bufs cap ws c;
  fw_window : ws !! phi = Some w;
  fw_wired : wired reqs hist w c;
  fw_filed : filed reqs hist;
}.

(** [r] is what request [u], message [i], still is: sent up to what the history has of it. *)
Definition in_progress reqs hist c (u i : Z) (r : sreq) : Prop :=
  0 <= i /\ aget reqs i = Some (u, r) /\ unfinished i hist /\
  sureqs c !! u = Some (set_sent_offset (sent_of i hist) r).

(** The chunks [its] were posted, in order, each in one work request. *)
Definition posts_new reqs hist its c c' : Prop := exists ps,
  posted c' = posted c ++ map snd ps /\ map fst ps = seqZ (alen hist) (alen its) /\
  Forall (fun p => is_write p.2 /\ on_wire reqs (hist ++ its) p.1 p.2) ps.

Lemma posts_new_nil reqs hist c c' : posted c' = posted c -> posts_new reqs hist [] c c'.
Proof. intros E. exists []. by rewrite E, app_nil_r. Qed.

Lemma posts_new_cons reqs hist it its c c1 c2 :
  posts_new reqs hist [it] c c1 -> posts_new reqs (hist ++ [it]) its c1 c2 -> posts_new reqs hist (it :: its) c c2.
Proof.
  intros (p1 & E1 & F1 & G1) (p2 & E2 & F2 & G2). exists (p1 ++ p2).
  rewrite E2, E1, !map_app, F1, F2, <- app_assoc, alen_app, !alen_cons, alen_nil. split; [done|].
  pose proof (alen_nonneg its). split.
  - replace (alen its + 1) with (1 + alen its) by lia. rewrite (seqZ_app (alen hist) 1) by lia. done.
  - rewrite <- app_assoc in G2. apply Forall_app. split; [|done]. eapply Forall_impl; [exact G1|].
    intros x [? ?]. split; [done|]. change (it :: its) with ([it] ++ its). rewrite app_assoc. by apply on_wire_app.
Qed.

Lemma tx_chunk_wire bufs cap ws reqs hist w now u i len c r c' :
  direct cfg -> flow_wire bufs cap ws reqs hist w c -> reqs_ok reqs -> in_progress reqs hist c u i r ->
  0 <= len <= data_len r - sent_of i hist -> tx_chunk cfg now phi u len c = Done c' ->
  exists it w', i_msg it = i /\ i_len it = len /\ i_last it = (sent_of i hist + len =? data_len r) /\
    acked w' = acked w /\ flow_wire bufs cap (<[phi := w']> ws) reqs (hist ++ [it]) w' c' /\
    sureqs c' = <[u := set_sent_offset (sent_of i (hist ++ [it])) r]> (sureqs c) /\
    posts_new reqs hist [it] c c' /\ swoken c' = swoken c.
Proof.
  intros Hd [Hi Hw Hwd Hfl] Hreqs (Hi0 & Hr & Hun & Hs) Hlen E.
  pose proof (proj1 (Forall_forall _ _) Hreqs (u, r) ltac:(by eapply list_elem_of_lookup_2)) as [Hctx Hdl]. simpl in Hctx, Hdl.
  pose proof (sent_of_nonneg i hist (filed_lens _ _ Hfl)) as Hnn.
  destruct (tx_chunk_sent cfg bufs cap ws now phi u len c _ c' Hi Hs) as
    (w0 & a & qd & wr & Hw0 & Hq & Hqd & Ha & Hi' & Ewk & Er & Hwr & Hk & Hp); [done|word_lia|done|].
  assert (w0 = w) as -> by congruence. destruct qd; [by destruct (Hqd eq_refl)|]. cbn [sent_offset set_sent_offset] in *.
  assert (sent_of i hist +[32] len = sent_of i hist + len) as Eo by (apply wrap_id; word_lia).
  assert (chunk_last r (sent_of i hist) len = (sent_of i hist + len =? data_len r)) as El.
  { unfold chunk_last. rewrite Eo, wrap_id by word_lia. done. }
  pose proof (wired_len _ _ _ _ Hwd) as [Hnx Hlw]. pose proof Hwd as [Hh Hqe Hmem].
  set (it := MkItem (MkChunk a u len (chunk_last r (sent_of i hist) len)) i (sent_of i hist) (qpidx wr)).
  assert (get_wr a c' = wr) as Ega by (unfold get_wr; by rewrite Hwr, decide_True).
  assert (item_key reqs (alen hist) it = wr_key wr) as Eik by (unfold item_key; simpl; by rewrite Hr, Hk, Hnx).
  exists it, (send (i_chunk it) w). split_and!; try done.
  - split; [exact Hi'|by rewrite lookup_insert_eq| |apply (filed_snoc _ _ it u r); try done; unfold i_len; simpl; lia].
    split; [by rewrite map_app, Hh; simpl; rewrite <- app_assoc|done|].
    intros n x Hn Ex. change (una (send _ w)) with (una w) in Hn. pose proof (alen_nonneg (acked w)) as Hu.
    assert (0 <= n) as Hn0 by (unfold una in Hn; lia).
    destruct (aget_snoc_inv hist it n x Hn0 Ex) as [[Hlt Ex']|[-> ->]]; cycle 1.
    { simpl k_addr. by rewrite Ega. }
    replace (get_wr (k_addr (i_chunk x)) c') with (get_wr (k_addr (i_chunk x)) c); [by apply Hmem|].
    unfold get_wr. rewrite Hwr, decide_False; [done|]. intros Ea. apply Ha. rewrite <- Ea. apply live_addr.
    unfold live. rewrite Hqe, app_nil_r. apply (list_elem_of_lookup_2 _ (Z.to_nat n - length (acked w))).
    assert (map i_chunk hist !! Z.to_nat n = Some (i_chunk x)) as Em.
    { change (map i_chunk hist) with (i_chunk <$> hist). rewrite list_lookup_fmap. unfold aget in Ex'. by rewrite Ex'. }
    rewrite Hh, lookup_app_r in Em; [done|]. unfold una, alen in Hn. lia.
  - rewrite Er, Eo, sent_of_app. simpl. rewrite Z.eqb_refl. unfold i_len. simpl. unfold set_sent_offset. simpl. by rewrite Z.add_0_r.
  - exists [(alen hist, PostWrite (qpidx wr) wr)]. split; [done|]. split; [done|]. apply Forall_singleton. split; [done|].
    exists it. cbn [fst snd]. split; [apply alen_nonneg|]. split; [rewrite aget_app_r, Z.sub_diag by lia; done|]. simpl. by rewrite Eik.
Qed.

(** Sending a message, or what is left of it: the chunks [its] of message [i] are
    posted, up to the last one exactly if the call reports completion. *)
Definition tx_wire bufs cap (ws : gmap Z window) reqs hist (w : window) (u i : Z) (r : sreq) c (b : bool) c' : Prop :=
  exists its w', Forall (fun it => i_msg it = i) its /\ acked w' = acked w /\
    flow_wire bufs cap (<[phi := w']> ws) reqs (hist ++ its) w' c' /\ sent_of i (hist ++ its) <= data_len r /\
    sureqs c' = <[u := set_sent_offset (sent_of i (hist ++ its)) r]> (sureqs c) /\
    (if b then finished i (hist ++ its) else unfinished i (hist ++ its)) /\ posts_new reqs hist its c c' /\ swoken c' = swoken c.

Lemma tx_wire_nil bufs cap ws reqs hist w u i r c b c' :
  flow_wire bufs cap ws reqs hist w c' -> in_progress reqs hist c u i r -> sent_of i hist <= data_len r ->
  (b = true -> finished i hist) -> sureqs c' = sureqs c -> posted c' = posted c -> swoken c' = swoken c ->
  tx_wire bufs cap ws reqs hist w u i r c b c'.
Proof.
  intros Hw (_ & _ & Hun & Hs) Hle Hb E1 E2 E3. exists [], w. rewrite app_nil_r, (insert_id ws) by apply Hw. split_and!; try done.
  - by rewrite E1, insert_id.
  - destruct b; auto.
  - by apply posts_new_nil.
Qed.

Lemma tx_wire_cons bufs cap ws reqs hist it w w1 u i r c b c1 c' :
  i_msg it = i -> acked w1 = acked w -> posts_new reqs hist [it] c c1 -> swoken c1 = swoken c ->
  sureqs c1 = <[u := set_sent_offset (sent_of i (hist ++ [it])) r]> (sureqs c) ->
  tx_wire bufs cap (<[phi := w1]> ws) reqs (hist ++ [it]) w1 u i r c1 b c' ->
  tx_wire bufs cap ws reqs hist w u i r c b c'.
Proof.
  intros Em Ea Hpn Ewk Er (its & w3 & F1 & F2 & F3 & F4 & F5 & F6 & F7 & F8).
  exists (it :: its), w3. rewrite <- app_assoc in *. simpl in *. split_and!; try done; try congruence.
  - by constructor.
  - by rewrite insert_insert_eq in F3.
  - by rewrite F5, Er, insert_insert_eq.
  - by apply posts_new_cons with c1.
Qed.

Lemma tx_loop_wire bufs cap reqs now u i r fuel : forall ws hist w c b c',
  direct cfg -> flow_wire bufs cap ws reqs hist w c -> reqs_ok reqs -> in_progress reqs hist c u i r ->
  sent_of i hist <= data_len r -> tx_loop cfg fuel now phi u c = Done (b, c') ->
  tx_wire bufs cap ws reqs hist w u i r c b c'.
Proof.
  induction fuel as [|fuel IH]; intros ws hist w c b c' Hd Hw Hreqs Hp Hle; cbn [tx_loop]; [done|].
  pose proof Hp as (Hi0 & Hr & Hun & Hs). rewrite Hs. cbn [sent_offset data_len set_sent_offset].
  pose proof (proj1 (Forall_forall _ _) Hreqs (u, r) ltac:(by eapply list_elem_of_lookup_2)) as [Hctx Hdl]. simpl in Hctx, Hdl.
  pose proof (sent_of_nonneg i hist (filed_lens _ _ (fw_filed _ _ _ _ _ _ _ Hw))) as Hnn.
  rewrite (wrap_id 32 (data_len r)) by word_lia. destruct (_ || _) eqn:Eg; cycle 1.
  { injection 1 as <- <-. apply orb_false_iff in Eg as [Eg1 Eg2]. apply tx_wire_nil; try done. intros _.
    eapply all_sent; [apply Hw|done|lia|lia]. }
 
  intros (f & Hf & E)%bind_done. unfold get_flow in Hf.
  destruct (sender_flow_tbl_ c !! phi) as [f1|] eqn:Hf1; [|done]. injection Hf as ->.
  rewrite (wrap_id 32 (_ - _)) in E by word_lia.
  pose proof (chunk_size_le (unacked_bytes_ f) (engine_unacked_bytes_ c)
    (data_len r - sent_of i hist) (Pcb.cc (pcb f)) ltac:(lia)) as Hchunk.
  destruct (EventOnChunkSize _ _ _ _) as [len cc']. simpl in Hchunk.
  set (c1 := put_flow phi (set_cc_state cc' f) c) in E.
  assert (flow_wire bufs cap ws reqs hist w c1) as Hw1.
  { destruct Hw as [W1 W2 W3 W4]. split; [by eapply sinv_keeps; [|done|apply same_window_keeps]|done| |done].
    by apply (wired_frame _ _ _ c). }
  destruct ((len =? 0) && _) eqn:Ez; [injection E as <- <-; by apply tx_wire_nil|].
  apply bind_done in E as (c2 & E1 & E).
  destruct (tx_chunk_wire bufs cap ws reqs hist w now u i len c1 r c2 Hd Hw1 Hreqs) as
    (it & w2 & Em & El & Elast & Eack & Hw2 & Er & Hpn & Ewk); [by split_and!|lia|done|].
  assert (sent_of i (hist ++ [it]) = sent_of i hist + len) as Esent.
  { rewrite sent_of_app. simpl. rewrite Em, Z.eqb_refl, El. lia. }
  assert (i_last it = true -> b = true -> c' = c2 -> tx_wire bufs cap ws reqs hist w u i r c b c') as Hlast.
  { intros Hit -> ->. exists [it], w2. split_and!; try done; [by repeat constructor|lia|].
    apply Exists_app. right. by constructor. }
  destruct (data_len r =? 0) eqn:E0; [injection E as <- <-; apply Hlast; [rewrite Elast; lia|done..]|].
  destruct (Z.eqb_spec (sent_of i hist + len) (data_len r)) as [Efin|Hne].
  - destruct fuel as [|fuel]; [done|]. cbn [tx_loop] in E. rewrite Er, lookup_insert_eq in E.
    cbn [sent_offset data_len set_sent_offset] in E. rewrite (wrap_id 32 (data_len r)), E0, orb_false_r in E by word_lia.
    rewrite (proj2 (Z.ltb_ge _ _)) in E by lia. injection E as <- <-. by apply Hlast.
  - apply (tx_wire_cons _ _ _ _ _ it w w2 _ _ _ _ _ c2); try done. apply IH; try done; [|lia].
    split_and!; [done|done| |by rewrite Er, lookup_insert_eq]. apply Forall_app. split; [done|]. by repeat constructor.
Qed.

(** ** Acknowledgements and timeouts *)

(** Nothing is posted but retransmissions of chunks that are not acknowledged. *)
Definition posts_again reqs hist (w : window) c c' : Prop := exists ps,
  posted c' = posted c ++ map snd ps /\
  Forall (fun p => is_write p.2 = false /\ una w <= p.1 /\ on_wire reqs hist p.1 p.2) ps.

Lemma posts_again_nil reqs hist w c c' : posted c' = posted c -> posts_again reqs hist w c c'.
Proof. intros E. exists []. by rewrite E, app_nil_r. Qed.

Lemma tracks_elem l t : forall n, t ∈ tracks n l -> exists i k, l !! i = Some k /\ t = track_of (n + Z.of_nat i) k.
Proof.
  induction l as [|k l IH]; intros n; simpl; [by intros ?%elem_of_nil|]. intros [->|Ht]%elem_of_cons.
  - exists 0%nat, k. by rewrite Z.add_0_r.
  - destruct (IH _ Ht) as (i & k' & Hi & ->). exists (S i), k'. split; [done|]. f_equal. lia.
Qed.

Lemma rtx_of_wire bufs cap ws reqs hist w c f p :
  flow_wire bufs cap ws reqs hist w c -> sender_flow_tbl_ c !! phi = Some f -> rtx_of f c p ->
  exists n, is_write p = false /\ una w <= n /\ on_wire reqs hist n p.
Proof.
  intros [Hi Hw Hwd _] Hf (t & Ht & Hk). destruct (s_flows _ _ _ _ _ Hi phi w Hw) as (f0 & Hf0 & Hok).
  assert (f0 = f) as -> by congruence.
  apply (list_elem_of_fmap_2 track_key) in Ht. change (track_key <$> txtracking f) with (map track_key (txtracking f)) in Ht.
  rewrite (o_trk _ _ _ _ _ Hok) in Ht. apply tracks_elem in Ht as (i & k & Hlk & Et). injection Et as _ Ea _ _.
  destruct Hwd as [Hh Hq Hmem]. set (n := una w + Z.of_nat i).
  assert (map i_chunk hist !! (length (acked w) + i)%nat = Some k) as Hn.
  { rewrite Hh, lookup_app_r by lia. by replace (length (acked w) + i - length (acked w))%nat with i by lia. }
  change (map i_chunk hist) with (i_chunk <$> hist) in Hn. rewrite list_lookup_fmap in Hn.
  destruct (hist !! _) as [it|] eqn:Eit; [|done]. injection Hn as Hn.
  assert (aget hist n = Some it) as Eg by (unfold aget, n, una, alen; rewrite <- Eit; f_equal; lia).
  destruct (Hmem n it ltac:(lia) Eg) as [K1 K2]. rewrite Hn, <- Ea in K1, K2. exists n.
  destruct p as [|q hdr remote imm addr len]; [done|]. simpl in Hk. injection Hk as E1 E2 E3 E4 E5.
  split; [done|]. split; [lia|]. exists it. split; [unfold n, una; pose proof (alen_nonneg (acked w)); lia|]. split; [done|].
  rewrite <- K1, <- K2. simpl. unfold wr_key in *. congruence.
Qed.

Lemma Forall_choose {A B} (Q : A -> B -> Prop) (l : list B) :
  Forall (fun y => exists x, Q x y) l -> exists ps, map snd ps = l /\ Forall (fun p => Q p.1 p.2) ps.
Proof.
  induction 1 as [|y l [x Hx] _ (ps & <- & Hps)]; [by exists []|]. exists ((x, y) :: ps). split; [done|]. by constructor.
Qed.

Lemma resends_wire bufs cap ws reqs hist w c f f' c' :
  flow_wire bufs cap ws reqs hist w c -> sender_flow_tbl_ c !! phi = Some f -> resends (f, c) (f', c') ->
  posts_again reqs hist w c c' /\ wired reqs hist w c' /\ sureqs c' = sureqs c.
Proof.
  intros Hw Hf (_ & Hg & Hs & ps & Hp & Hps). split_and!; [|eapply wired_frame; [done|apply Hw]|done].
  destruct (Forall_choose (fun n p => is_write p = false /\ una w <= n /\ on_wire reqs hist n p) ps) as (pk & <- & Hpk).
  - eapply Forall_impl; [exact Hps|]. intros p. by apply (rtx_of_wire _ _ _ _ _ _ _ _ _ Hw Hf).
  - by exists pk.
Qed.

(** What an ACK does: it releases the [n] oldest chunks. *)
Record acted bufs cap (ws : gmap Z window) reqs hist (w : window) (n : nat) c c' : Prop := {
  ac_wire : flow_wire bufs cap (<[phi := ack n w]> ws) reqs hist (ack n w) c';
  ac_woken : swoken c' = swoken c ++ woken (take n (trk w));
  ac_reqs : sureqs c' = sureqs c;
  ac_posts : posts_again reqs hist w c c';
}.

Lemma ack_0 w : ack 0 w = w.
Proof. unfold ack. rewrite take_0, drop_0, app_nil_r. by destruct w. Qed.

Lemma acted_none bufs cap ws reqs hist w c c' :
  ws !! phi = Some w -> sinv cfg bufs cap ws c' -> wired reqs hist w c' -> filed reqs hist -> swoken c' = swoken c ->
  sureqs c' = sureqs c -> posts_again reqs hist w c c' -> acted bufs cap ws reqs hist w 0 c c'.
Proof.
  intros Hw Hi Hwd Hfl Ewk Es Hp. split; rewrite ?ack_0, ?take_0, ?app_nil_r; try done.
  rewrite insert_id by done. by split.
Qed.

Lemma ack_wired reqs hist w c n : (n <= length (trk w))%nat -> wired reqs hist w c -> wired reqs hist (ack n w) c.
Proof.
  intros Hn [H1 H2 H3]. split; [by simpl; rewrite <- app_assoc, take_drop|done|]. intros m it Hm. apply H3.
  unfold una in *. simpl in Hm. rewrite alen_app in Hm. pose proof (alen_nonneg (take n (trk w))). lia.
Qed.

Lemma rx_ack_wire bufs cap ws reqs hist w c t5 t6 now1 now2 h f d c' :
  flow_wire bufs cap ws reqs hist w c -> Io.hfid h = phi -> sender_flow_tbl_ c !! phi = Some f -> truthful t6 h f d ->
  uc_rx_ack cfg t5 t6 now1 now2 h c = Done c' -> acted bufs cap ws reqs hist w (Z.to_nat d) c c'.
Proof.
  intros Hwire Eh Hf Ht E. pose proof Hwire as [Hi Hw Hwd Hfl]. destruct (s_flows _ _ _ _ _ Hi phi w Hw) as (f0 & Hf0 & Hok).
  assert (f0 = f) as -> by congruence. destruct (s_pool _ _ _ _ _ Hi) as (free & Hpool & Hown).
  destruct (truthful_window _ _ _ _ _ _ _ _ _ _ _ Hi Hw Hok Ht) as (Hrtt & Hd & Hlive & Hack & Hpath).
  rewrite <- Eh in Hf. destruct (uc_rx_ack_step cfg bufs cap ws c t5 t6 now1 now2 h f d Hi Hf Ht) as (Hold & _ & Hstep).
  destruct (Hstep c' E) as (ws' & _ & Hi' & Hle & _). rewrite Eh in Hf.
  destruct (Z.lt_ge_cases d 0) as [Hneg|Hpos].
  { assert (c' = c) as -> by (rewrite Hold in E by done; congruence). replace (Z.to_nat d) with 0%nat by lia.
    by apply acted_none; try done; apply posts_again_nil. }
  revert E. unfold uc_rx_ack, get_flow. rewrite Eh, Hf. cbn [mbind result_bind].
  rewrite Hack, (o_una _ _ _ _ _ Hok), (o_nxt _ _ _ _ _ Hok). unfold nxt.
  assert (alen (live w) = alen (trk w) + alen (que w)) as El by (unfold live; by rewrite alen_app).
  pose proof (alen_nonneg (que w)). pose proof (alen_nonneg (trk w)).
  rewrite Csn.seqno_lt_csn, Csn.seqno_eq_csn, Csn.seqno_gt_csn by lia.
  rewrite (proj2 (Z.ltb_ge (una w + d) _)) by lia. rewrite (proj2 (Z.ltb_ge _ (una w + d))) by lia.
  destruct (Z.eqb_spec (una w + d) (una w)) as [Heq|Hne].
  - intros ([f' c1] & E & [= <-])%bind_done. assert (d = 0) as -> by lia. rewrite Hle in Hi' by lia.
    pose proof (dup_ack_keeps _ _ _ _ _ _ _ _ E) as Hk. apply dup_ack_resends in E.
    destruct (resends_wire _ _ _ _ _ _ _ _ _ _ Hwire Hf E) as (Hp & Hwd' & Hs). apply acted_none; try done; [|apply Hk].
    by apply (wired_frame _ _ _ c1).
  - destruct (rx_valid_ack_ok cfg bufs cap ws phi t5 t6 now1 now2 h f c w (Z.to_nat d) free) as (f' & c1 & -> & Hr);
      try done; [by rewrite Z2Nat.id by lia|unfold alen in *; lia|lia|].
    assert (Z.to_nat d <= length (trk w))%nat as Hn by (unfold alen in *; lia).
    intros [= <-]. pose proof Hr as [_ _ _ _ _ _ _ Rw _ _ Rr Rm Rp _]. split; try done.
    + split; [by eapply ack_sinv|by rewrite lookup_insert_eq| |done]. apply (wired_frame _ _ _ c); [|by apply ack_wired].
      intros a. unfold get_wr. simpl. by rewrite Rm.
    + by apply posts_again_nil.
Qed.

Lemma rto_wire bufs cap ws reqs hist w c now c' :
  flow_wire bufs cap ws reqs hist w c -> handle_rto cfg now phi c = Done c' -> acted bufs cap ws reqs hist w 0 c c'.
Proof.
  intros Hwire E. pose proof Hwire as [Hi Hw Hwd Hfl]. destruct (s_flows _ _ _ _ _ Hi phi w Hw) as (f & Hf & _).
  destruct (handle_rto_step _ _ _ _ _ _ _ _ Hi E) as [Hi' Ewk]. destruct (rto_resends _ _ _ _ _ Hf E) as [f' Hr].
  destruct (resends_wire _ _ _ _ _ _ _ _ _ _ Hwire Hf Hr) as (Hp & Hwd' & Hs). by apply acted_none.
Qed.

End wire.
End Wire.
