(* ===== verification/Transfer.v ===== *)
(** * A flow from end to end

    The sender, the receiver and the network between them.  The network loses
    packets and keeps the order of a queue pair only; acknowledgements are lost,
    reordered and repeated.  The sender is that of [Sender.v] with its own
    retransmissions, the receiver that of [Receiver.v]: nothing is assumed of one
    about the other.

    A transmission, and an acknowledgement, live for less than half the sequence
    space: both carry the count they were sent at, a count of chunks the code
    itself does not keep.  The sender has other flows, which rest; those of the
    receiver take any step. *)

From S2P Require Import Prelude Float64 Csn Queues Pcb SharedIo Flow Timer Sender SenderSpec SenderInv Retransmit Receiver ReceiverSpec Wire.

Module Transfer.
Import Flow Tx TxSpec TxInv Rtx Wire.

(** ** The world *)

Section world.
Context {CC X P : Type} `{TxHooks CC X} `{!TxLaws CC X} `{PoolOps P} `{!PoolLaws P}.
Context {CR XR PR : Type} `{RxHooks CR XR} `{!PoolOps PR}.
Context (scfg : config) (rcfg : Rx.config) (phi : Z).

Record world := MkWorld {
  sender : sctx CC X P;
  receiver : Rx.rctx CR XR PR;
  (** The packets under way, each with the count of acknowledged chunks it was posted at. *)
  net : list (Z * post);
  (** The acknowledgements sent, each with the count of chunks received in order. *)
  acks : list (Z * Io.UcclSackHdr);
  n_acked : Z;
  n_rcvd : Z;
  (** The buffers announced to the sender, and its requests, which take them in order. *)
  fifo : list (Z * Z);
  requests : list (Z * sreq);
  (** The requests not yet handed out completely, with their numbers. *)
  pending : gmap Z Z;
  (** What was written to the receiver's memory: destination, source and length. *)
  written : list (Z * Z * Z);
}.

Definition qp_of (p : post) : Z := (post_key p).1.

(** The packets posted between [c] and [c']. *)
Definition emit (t : Z) (c c' : sctx CC X P) : list (Z * post) :=
  map (pair t) (drop (length (posted c)) (posted c')).

Definition tracked (c : sctx CC X P) : Z :=
  match sender_flow_tbl_ c !! phi with Some f => alen (txtracking f) | None => 0 end.

(** How far the receiver's expected sequence number moved. *)
Definition progress (r r' : Rx.rctx CR XR PR) : Z :=
  match Rx.receiver_flow_tbl_ r !! phi, Rx.receiver_flow_tbl_ r' !! phi with
  | Some f, Some f' => Csn.sub (Pcb.rcv_nxt (pcb f')) (Pcb.rcv_nxt (pcb f))
  | _, _ => 0
  end.

(** The copy of a retransmitted payload, if the receiver made one. *)
Definition copied (r r' : Rx.rctx CR XR PR) (x : Z * Z * Z) : list (Z * Z * Z) :=
  if decide (length (Rx.copies r) < length (Rx.copies r'))%nat then [x] else [].

Inductive step : world -> world -> Prop :=
| t_supply s r nt ak na nr ff rq pd wr u q o r' :
    Rx.ureqs r !! u = Some q -> Flow.context q = phi -> Rx.supply_rx_buff u r = Done (o, r') ->
    step (MkWorld s r nt ak na nr ff rq pd wr)
      (MkWorld s r' nt ak na nr (ff ++ from_option (fun rid => [(u, rid)]) [] o) rq pd wr)
| t_request s r nt ak na nr ff rq pd wr u v q :
    pd !! u = None -> aget ff (alen rq) = Some (v, rid q) ->
    context q = phi -> sent_offset q = 0 -> 0 <= data_len q < 2 ^ 31 ->
    step (MkWorld s r nt ak na nr ff rq pd wr)
      (MkWorld (set_sureqs (<[u := q]> (sureqs s)) s) r nt ak na nr ff (rq ++ [(u, q)]) (<[u := alen rq]> pd) wr)
| t_send s r nt ak na nr ff rq pd wr now u i b s' :
    pd !! u = Some i -> senderCC_tx_message scfg now u s = Done (b, s') -> tracked s' < 128 ->
    step (MkWorld s r nt ak na nr ff rq pd wr)
      (MkWorld s' r (nt ++ emit na s s') ak na nr ff rq (if b then delete u pd else pd) wr)
| t_write s r l1 l2 ak na nr ff rq pd wr t q w ts t4 qpn r' :
    Forall (fun y => qp_of y.2 <> q) l1 -> nr <= t + 128 ->
    Rx.uc_rx_chunk rcfg ts t4 (Rx.MkCqe (sge_length w) (imm_data w) qpn) r = Done r' ->
    step (MkWorld s r (l1 ++ (t, PostWrite q w) :: l2) ak na nr ff rq pd wr)
      (MkWorld s r' (l1 ++ l2) ak na (nr + progress r r') ff rq pd (wr ++ [(remote_addr w, sge_addr w, sge_length w)]))
| t_rtx s r l1 l2 ak na nr ff rq pd wr t q hdr remote imm addr len qpn a r' :
    Forall (fun y => qp_of y.2 <> q) l1 -> nr <= t + 128 ->
    Rx.uc_rx_rtx_chunk rcfg (Rx.MkCqe (len + Rx.sizeof_retr_chunk_hdr) imm qpn) a (Rx.MkRetrHdr remote imm) r = Done r' ->
    step (MkWorld s r (l1 ++ (t, PostRtx q hdr remote imm addr len) :: l2) ak na nr ff rq pd wr)
      (MkWorld s r' (l1 ++ l2) ak na (nr + progress r r') ff rq pd (wr ++ copied r r' (remote, addr, len)))
| t_lose s r l1 l2 x ak na nr ff rq pd wr :
    step (MkWorld s r (l1 ++ x :: l2) ak na nr ff rq pd wr) (MkWorld s r (l1 ++ l2) ak na nr ff rq pd wr)
| t_ack s r nt ak na nr ff rq pd wr t4 f :
    Rx.receiver_flow_tbl_ r !! phi = Some f ->
    step (MkWorld s r nt ak na nr ff rq pd wr) (MkWorld s r nt (ak ++ [(nr, Rx.sack_header rcfg t4 f)]) na nr ff rq pd wr)
| t_rx_ack s r nt ak na nr ff rq pd wr t5 t6 now1 now2 t h f s' :
    (t, h) ∈ ak -> na < t + 128 -> sender_flow_tbl_ s !! phi = Some f -> rtt_ok t6 (Pcb.cc (pcb f)) ->
    uc_rx_ack scfg t5 t6 now1 now2 h s = Done s' ->
    step (MkWorld s r nt ak na nr ff rq pd wr)
      (MkWorld s' r (nt ++ emit na s s') ak (na + (tracked s - tracked s')) nr ff rq pd wr)
| t_rto s r nt ak na nr ff rq pd wr now s' :
    handle_rto scfg now phi s = Done s' ->
    step (MkWorld s r nt ak na nr ff rq pd wr) (MkWorld s' r (nt ++ emit na s s') ak na nr ff rq pd wr)
| t_post_acks s r nt ak na nr ff rq pd wr t4 r' :
    Rx.uc_post_acks rcfg t4 r = Done r' ->
    step (MkWorld s r nt ak na nr ff rq pd wr) (MkWorld s r' nt ak na nr ff rq pd wr)
| t_other s r nt ak na nr ff rq pd wr psi r' :
    psi <> phi -> RxSpec.other_step rcfg psi r r' ->
    step (MkWorld s r nt ak na nr ff rq pd wr) (MkWorld s r' nt ak na nr ff rq pd wr).

(** ** Schedules from histories *)

Implicit Types hist : list item.

Definition agrees (sc : RxSpec.schedule) hist : Prop := forall n it, 0 <= n -> aget hist n = Some it ->
  RxSpec.msg_of sc n = i_msg it /\ RxSpec.is_last sc n = i_last it /\ RxSpec.len_of sc n = i_len it.

(** The history, then messages of no bytes numbered from [k] on. *)
Definition sched_of (k : Z) hist : RxSpec.schedule :=
  RxSpec.MkSchedule
    (fun n => match aget hist n with Some it => Z.to_nat (i_msg it) | None => Z.to_nat (k + n) end)
    (fun n => match aget hist n with Some it => i_last it | None => true end)
    (fun n => match aget hist n with Some it => i_len it | None => 0 end).

Lemma agrees_app sc hist its : agrees sc (hist ++ its) -> agrees sc hist.
Proof. intros Ha n it Hn E. pose proof (aget_Some_lt _ _ _ Hn E). apply Ha; [done|]. by rewrite aget_app_l by lia. Qed.

Lemma bytes_of_hist sc hist i n : agrees sc hist -> 0 <= n <= alen hist ->
  RxSpec.bytes_of sc i (seqZ 0 n) = sent_of i (take (Z.to_nat n) hist).
Proof.
  intros Ha [Hn Hle]. revert Hle. pattern n. apply natlike_ind; [done| |done]. intros k Hk IH Hle.
  unfold Z.succ in *. destruct (aget_is_Some hist k) as [it E]; [lia|].
  rewrite seqZ_snoc, RxSpec.bytes_of_app, IH, (take_snoc hist k it), sent_of_app by (done || lia).
  destruct (Ha k it Hk E) as (Em & _ & El). simpl. by rewrite Em, El.
Qed.

Lemma sched_of_agrees k reqs hist : filed reqs hist -> agrees (sched_of k hist) hist.
Proof.
  intros Hf n it Hn E. unfold RxSpec.msg_of. simpl. rewrite E. split_and!; [|done..].
  destruct (fl_item _ _ Hf n it Hn E) as (u & r & Hm & _). lia.
Qed.

Lemma bytes_of_zero sc i l :
  Forall (fun m => RxSpec.msg_of sc m = i -> RxSpec.len_of sc m = 0) l -> RxSpec.bytes_of sc i l = 0.
Proof.
  induction 1 as [|m l Hm _ IH]; cbn [RxSpec.bytes_of]; [done|]. rewrite IH.
  destruct (Z.eqb_spec (RxSpec.msg_of sc m) i); [|done]. by rewrite Hm.
Qed.

Lemma sched_of_ok reqs hist : filed reqs hist -> reqs_ok phi reqs -> RxSpec.schedule_ok (sched_of (alen reqs) hist).
Proof.
  intros Hf Hreqs. set (k := alen reqs). set (sc := sched_of k hist). pose proof (sched_of_agrees k _ _ Hf) as Ha. fold sc in Ha.
  assert (0 <= k) as Hk0 by apply alen_nonneg.
  assert (forall n it, 0 <= n -> aget hist n = Some it -> RxSpec.msg_of sc n < k) as Hin.
  { intros n it Hn E. destruct (Ha n it Hn E) as (-> & _). destruct (fl_item _ _ Hf n it Hn E) as (u & r & Hm & Hr & _).
    by apply (aget_Some_lt _ _ _ Hm Hr). }
  assert (forall n, 0 <= n -> aget hist n = None -> RxSpec.msg_of sc n = k + n /\ RxSpec.len_of sc n = 0) as Hout.
  { intros n Hn E. unfold RxSpec.msg_of. simpl. rewrite E. lia. }
  split_and!.
  - intros n m Hnm Hlast Em. destruct (aget hist n) as [it|] eqn:En; cycle 1.
    { destruct (Hout n) as [E1 _]; [lia|done|]. destruct (aget hist m) as [it'|] eqn:E'.
      - specialize (Hin m it' ltac:(lia) E'). lia.
      - destruct (Hout m) as [E2 _]; [lia|done|]. lia. }
    destruct (Ha n it ltac:(lia) En) as (Ei & El & _). destruct (aget hist m) as [it'|] eqn:E'.
    + destruct (Ha m it' ltac:(lia) E') as (Ei' & _). rewrite (fl_last _ _ Hf n m it it') in El; [congruence|lia|done|done|congruence].
    + destruct (Hout m) as [E2 _]; [lia|done|]. specialize (Hin n it ltac:(lia) En). lia.
  - intros n. simpl. destruct (aget hist n) as [it|] eqn:En; [|done].
    apply (proj1 (Forall_forall _ _) (filed_lens _ _ Hf)). by eapply list_elem_of_lookup_2.
  - intros n Hn. destruct (aget hist n) as [it|] eqn:En.
    + pose proof (aget_Some_lt _ _ _ Hn En). rewrite (bytes_of_hist sc hist) by (done || lia).
      destruct (Ha n it Hn En) as (-> & _). rewrite (take_snoc hist n it), sent_of_app by done. simpl. rewrite Z.eqb_refl.
      destruct (fl_item _ _ Hf n it Hn En) as (u & r & Hm & Hr & _ & <- & _ & Hle & _).
      pose proof (proj1 (Forall_forall _ _) Hreqs (u, r) ltac:(by eapply list_elem_of_lookup_2)) as [_ Hd]. simpl in Hd. lia.
    + destruct (Hout n Hn En) as [-> _]. enough (RxSpec.bytes_of sc (k + n) (seqZ 0 (n + 1)) = 0) by lia.
      apply bytes_of_zero, Forall_forall. intros m [Hm _]%elem_of_seqZ Em. destruct (aget hist m) as [it|] eqn:Ei.
      * specialize (Hin m it Hm Ei). lia.
      * by apply Hout.
Qed.

(** ** The network *)

Implicit Types (reqs : list (Z * sreq)) (arr : gset Z).

(** A packet with its position.  No transmission of a chunk is ahead of the first. *)
Definition apart (x y : Z * (Z * post)) : Prop := is_write y.2.2 = true -> x.1 <> y.1.

Definition pkt_ok reqs hist arr (x : Z * (Z * post)) : Prop :=
  x.2.1 <= x.1 /\ on_wire phi reqs hist x.1 x.2.2 /\ (is_write x.2.2 = true -> x.1 ∉ arr).

Definition net_ok reqs hist arr (nt : list (Z * post)) : Prop :=
  exists pk, nt = map snd pk /\ Forall (pkt_ok reqs hist arr) pk /\ StronglySorted apart pk.

Lemma sorted_app {A} (R : relation A) (l1 l2 : list A) :
  StronglySorted R (l1 ++ l2) <-> StronglySorted R l1 /\ StronglySorted R l2 /\ Forall (fun x => Forall (R x) l2) l1.
Proof. rewrite StronglySorted_app, Forall_forall. setoid_rewrite Forall_forall. naive_solver. Qed.

Lemma net_ok_split reqs hist arr l1 t p l2 : net_ok reqs hist arr (l1 ++ (t, p) :: l2) ->
  exists k1 n k2, l1 = map snd k1 /\ l2 = map snd k2 /\ pkt_ok reqs hist arr (n, (t, p)) /\
    Forall (pkt_ok reqs hist arr) (k1 ++ k2) /\ StronglySorted apart (k1 ++ k2) /\
    Forall (fun x => apart x (n, (t, p))) k1 /\ Forall (apart (n, (t, p))) k2.
Proof.
  intros (pk & E & Hf & Hs). symmetry in E. apply map_eq_app in E as (k1 & k2' & -> & <- & E).
  destruct k2' as [|[n [t' p']] k2]; [done|]. injection E as -> -> <-. exists k1, n, k2.
  apply Forall_app in Hf as [Hf1 Hf2]. apply Forall_cons in Hf2 as [Hx Hf2].
  apply sorted_app in Hs as (Hs1 & Hs2 & Hc). inversion Hs2 as [|? ? Hs2' Hx2]; subst. split_and!; try done.
  - by apply Forall_app.
  - apply sorted_app. split_and!; [done|done|]. eapply Forall_impl; [exact Hc|]. intros y [_ ?]%Forall_cons. done.
  - eapply Forall_impl; [exact Hc|]. by intros y [? _]%Forall_cons.
Qed.

Lemma net_ok_lose reqs hist arr l1 x l2 : net_ok reqs hist arr (l1 ++ x :: l2) -> net_ok reqs hist arr (l1 ++ l2).
Proof.
  destruct x as [t p]. intros (k1 & n & k2 & -> & -> & _ & Hf & Hs & _)%net_ok_split.
  exists (k1 ++ k2). by rewrite map_app.
Qed.

(** The first packet of its queue pair: a chunk that was not yet delivered, if
    this is its first transmission. *)
Lemma net_ok_deliver reqs hist arr l1 t p l2 :
  net_ok reqs hist arr (l1 ++ (t, p) :: l2) -> Forall (fun y => qp_of y.2 <> qp_of p) l1 ->
  exists n, t <= n /\ on_wire phi reqs hist n p /\ (is_write p = true -> n ∉ arr) /\
    net_ok reqs hist ({[n]} ∪ arr) (l1 ++ l2).
Proof.
  intros (k1 & n & k2 & -> & -> & (Ht & Hw & Hn) & Hf & Hs & H1' & H2')%net_ok_split Hqp. simpl in *.
  exists n. split_and!; try done. exists (k1 ++ k2). rewrite map_app. split_and!; [done| |done].
  assert (Forall (fun y => is_write y.2.2 = true -> y.1 <> n) (k1 ++ k2)) as Hne.
  { apply Forall_app. split; [|eapply Forall_impl; [exact H2'|]; intros y Hy Hiw E; by apply (Hy Hiw)].
    apply Forall_app in Hf as [Hf1 _]. apply (Forall_map snd) in Hqp. eapply Forall_impl; [exact (proj2 (Forall_and _ _) (conj Hf1 Hqp))|].
    intros y [(_ & (it & _ & Ei & Ek) & _) Hq] _ E. apply Hq. destruct Hw as (it' & _ & Ei' & Ek'). rewrite E in Ei.
    assert (it' = it) as -> by congruence. unfold qp_of. simpl. by rewrite Ek, Ek'. }
  eapply Forall_impl; [exact (proj2 (Forall_and _ _) (conj Hf Hne))|]. intros y [(Hy1 & Hy2 & Hy3) Hy4].
  split_and!; [done|done|]. intros Hiw. rewrite elem_of_union, elem_of_singleton. intros [E|E]; [by apply Hy4|by apply Hy3].
Qed.

Lemma pkt_ok_app reqs k hist its arr x : filed reqs hist ->
  pkt_ok reqs hist arr x -> pkt_ok (reqs ++ k) (hist ++ its) arr x.
Proof. intros Hf (? & ? & ?). split_and!; [done|by apply on_wire_app, on_wire_reqs|done]. Qed.

Lemma net_ok_again reqs hist arr nt t ps : net_ok reqs hist arr nt ->
  Forall (fun p => is_write p.2 = false /\ t <= p.1 /\ on_wire phi reqs hist p.1 p.2) ps ->
  net_ok reqs hist arr (nt ++ map (pair t) (map snd ps)).
Proof.
  intros (pk & -> & Hf & Hs) Hps. exists (pk ++ map (fun p => (p.1, (t, p.2))) ps). split_and!.
  - by rewrite map_app, !map_map.
  - apply Forall_app. split; [done|]. apply Forall_map. eapply Forall_impl; [exact Hps|].
    intros p (Hw & Ht & Ho). split_and!; simpl; [done|done|by rewrite Hw].
  - assert (forall x, Forall (apart x) (map (fun p => (p.1, (t, p.2))) ps)) as Hx.
    { intros x. apply Forall_map. eapply Forall_impl; [exact Hps|]. intros p (Hw & _) Hw'. simpl in *. congruence. }
    apply sorted_app. split_and!; [done| |by apply Forall_forall]. clear -Hx.
    induction ps as [|p ps IH]; simpl; constructor.
    + apply IH. intros x. specialize (Hx x). by apply Forall_cons in Hx as [_ ?].
    + specialize (Hx (p.1, (t, p.2))). by apply Forall_cons in Hx as [_ ?].
Qed.

Lemma net_ok_new reqs hist its arr nt t ps : filed reqs hist -> net_ok reqs hist arr nt ->
  t <= alen hist -> (forall n, n ∈ arr -> n < alen hist) -> map fst ps = seqZ (alen hist) (alen its) ->
  Forall (fun p => is_write p.2 = true /\ on_wire phi reqs (hist ++ its) p.1 p.2) ps ->
  net_ok reqs (hist ++ its) arr (nt ++ map (pair t) (map snd ps)).
Proof.
  intros Hfl (pk & -> & Hf & Hs) Ht Harr Hpos Hps. set (mk := fun p : Z * post => (p.1, (t, p.2))).
  assert (Forall (fun p => alen hist <= p.1) ps) as Hge.
  { apply Forall_forall. intros p Hp%(list_elem_of_fmap_2 fst). change (fst <$> ps) with (map fst ps) in Hp.
    rewrite Hpos in Hp. apply elem_of_seqZ in Hp. lia. }
  exists (pk ++ map mk ps). split_and!.
  - rewrite map_app, !map_map. done.
  - apply Forall_app. split.
    + eapply Forall_impl; [exact Hf|]. intros x Hx. apply (pkt_ok_app _ []) with (its := its) in Hx; [|done]. by rewrite app_nil_r in Hx.
    + apply Forall_map. eapply Forall_impl; [exact (proj2 (Forall_and _ _) (conj Hps Hge))|]. intros p [[_ Hw] Hp].
      split_and!; simpl; [lia|done|]. intros _ Hin. specialize (Harr _ Hin). lia.
  - apply sorted_app. split_and!; [done| |].
    + assert (StronglySorted Z.lt (map fst ps)) as Hlt by (rewrite Hpos; apply seqZ_sorted).
      clear -Hlt. induction ps as [|p ps IH]; simpl in *; [constructor|]. inversion Hlt as [|? ? Hl1 Hl2]; subst.
      constructor; [auto|]. apply Forall_map. apply (Forall_map fst) in Hl2. eapply Forall_impl; [exact Hl2|]. intros y Hy _. simpl in *. lia.
    + eapply Forall_impl; [exact Hf|]. intros x (_ & (it & Hx0 & Hx & _) & _). apply Forall_map.
      pose proof (aget_Some_lt _ _ _ Hx0 Hx). eapply Forall_impl; [exact Hge|]. intros y Hy _. simpl in *. lia.
Qed.

(** ** The invariant *)

Context (bufs : list Z) (cap : Z).

Definition fifo_ok (ff : list (Z * Z)) reqs : Prop :=
  Forall (fun p => 0 <= p.2 < kMaxReq) ff /\
  forall i u r, 0 <= i -> aget reqs i = Some (u, r) -> exists v, aget ff i = Some (v, rid r).

Definition pending_ok reqs hist (s : sctx CC X P) (pd : gmap Z Z) : Prop := forall u i, pd !! u = Some i ->
  exists r, in_progress reqs hist s u i r /\ sent_of i hist <= data_len r.

(** A request is pending or was handed out completely. *)
Definition handed_out reqs hist (pd : gmap Z Z) : Prop := forall i u r, 0 <= i -> aget reqs i = Some (u, r) ->
  pd !! u = Some i \/ finished i hist.

(** The receiver has the positions [arr], the first missing one is [nr]; for every
    schedule the history may turn out to be the beginning of. *)
Definition rcv_ok hist arr (ff : list (Z * Z)) (nr : Z) (r : Rx.rctx CR XR PR) : Prop :=
  forall sc, RxSpec.schedule_ok sc -> agrees sc hist ->
  exists got, RxSpec.inv rcfg sc phi r (RxSpec.MkGhost arr ff) nr got.

Definition ack_ok (nr : Z) (a : Z * Io.UcclSackHdr) : Prop :=
  a.1 <= nr /\ Io.hfid a.2 = phi /\ Csn.of_uint32 (Io.ackno a.2) = Csn.csn a.1 /\ 0 <= Io.path a.2.

Definition written_ok reqs hist arr (wr : list (Z * Z * Z)) : Prop := forall n it u r,
  n ∈ arr -> aget hist n = Some it -> aget reqs (i_msg it) = Some (u, r) ->
  (raddr r +[64] i_off it, laddr r +[64] i_off it, i_len it) ∈ wr.

Record winv (w : world) hist arr (ws : gmap Z window) (wd : window) : Prop := {
  v_wire : flow_wire scfg phi bufs cap ws (requests w) hist wd (sender w);
  v_acked : n_acked w = una wd;
  v_win : alen (trk wd) < 128;
  v_woken : swoken (sender w) = woken (acked wd);
  v_reqs : reqs_ok phi (requests w);
  v_fifo : fifo_ok (fifo w) (requests w);
  v_pend : pending_ok (requests w) hist (sender w) (pending w);
  v_rcv : rcv_ok hist arr (fifo w) (n_rcvd w) (receiver w);
  v_arr : forall n, n ∈ arr -> 0 <= n < alen hist;
  v_le : n_acked w <= n_rcvd w;
  v_acks : Forall (ack_ok (n_rcvd w)) (acks w);
  v_net : net_ok (requests w) hist arr (net w);
  v_written : written_ok (requests w) hist arr (written w);
  v_handed : handed_out (requests w) hist (pending w);
}.

Context (Hphi : 0 <= phi < 2048) (Hrc : Rx.rc_mode_ rcfg = false) (Hdirect : direct scfg).
Context (Hopen : open_rtx (CC := CC) (X := X)).

(** *** The receiver's steps *)

Lemma rcv_first reqs hist arr ff nr r : filed reqs hist -> reqs_ok phi reqs -> rcv_ok hist arr ff nr r ->
  RxSpec.first_missing arr nr.
Proof.
  intros Hf Hq Hr. destruct (Hr _ (sched_of_ok _ _ Hf Hq) (sched_of_agrees _ _ _ Hf)) as [got Hi].
  by apply RxSpec.inv_first in Hi.
Qed.

(** What a packet says: the chunk of the position it is a transmission of. *)
Lemma wire_says reqs hist ff n p : filed reqs hist -> reqs_ok phi reqs -> fifo_ok ff reqs -> on_wire phi reqs hist n p ->
  exists it u r imm, 0 <= n < alen hist /\ aget hist n = Some it /\ aget reqs (i_msg it) = Some (u, r) /\
    0 <= i_len it < 2 ^ 31 /\ post_key p = (i_qp it, (laddr r +[64] i_off it, raddr r +[64] i_off it, i_len it, imm)) /\
    forall sc arr, agrees sc hist -> RxSpec.carries sc phi (RxSpec.MkGhost arr ff) imm n /\
      RxSpec.len_of sc n = i_len it /\ RxSpec.msg_of sc n < alen ff.
Proof.
  intros Hf Hq [Hr1 Hr2] (it & Hn & Ei & Ek). destruct (fl_item _ _ Hf n it Hn Ei) as (u & r & Hm & Hr & _ & Eo & Hl & Hle & Elast).
  pose proof (proj1 (Forall_forall _ _) Hq (u, r) ltac:(by eapply list_elem_of_lookup_2)) as [_ Hd]. simpl in Hd.
  destruct (Hr2 _ _ _ Hm Hr) as [v Hv]. pose proof (aget_Some_lt _ _ _ Hm Hv) as Hlt.
  pose proof (proj1 (Forall_forall _ _) Hr1 (v, rid r) ltac:(by eapply list_elem_of_lookup_2)) as Hrid. simpl in Hrid.
  assert (0 <= i_off it) as Ho by (rewrite Eo; apply sent_of_nonneg, Forall_take, (filed_lens _ _ Hf)).
  unfold item_key in Ek. rewrite Hr in Ek. exists it, u, r. eexists. split_and!; [done|by apply aget_Some_lt in Ei|done|done|done|lia|exact Ek|].
  intros sc arr Ha. destruct (Ha n it Hn Ei) as (Em & El & En). rewrite En, Em. split_and!; [|done|done].
  assert (chunk_last r (i_off it) (i_len it) = i_last it) as Ecl by (unfold chunk_last; rewrite !wrap_id by word_lia; done).
  destruct (Imm.make_imm_fields phi (chunk_last r (i_off it) (i_len it)) (rid r) (Csn.csn n)) as (F1 & F2 & F3 & F4 & _).
  unfold RxSpec.carries. rewrite F1, F2, F3, F4, Ecl, El, Em. pose proof (Csn.csn_range n).
  rewrite !Z.mod_small by (unfold kMaxReq in *; lia). split_and!; [done|done| |by destruct (i_last it)].
  simpl. by rewrite (RxSpec.rid_of_Some _ _ _ _ Hv).
Qed.

(** The receiver after position [n] arrived. *)
Lemma rcv_arrives reqs hist arr ff nr r r' n na :
  filed reqs hist -> reqs_ok phi reqs -> rcv_ok hist arr ff nr r -> (forall n, n ∈ arr -> 0 <= n < alen hist) ->
  0 <= n < alen hist -> alen hist < na + 128 -> na <= nr ->
  (forall sc got, RxSpec.schedule_ok sc -> agrees sc hist -> RxSpec.inv rcfg sc phi r (RxSpec.MkGhost arr ff) nr got ->
     exists nxt' got', RxSpec.inv rcfg sc phi r' (RxSpec.arrive n (RxSpec.MkGhost arr ff)) nxt' got') ->
  nr <= nr + progress r r' /\ rcv_ok hist ({[n]} ∪ arr) ff (nr + progress r r') r'.
Proof.
  intros Hf Hq Hr Harr Hn Hwin Hle Hstep.
  assert (forall sc, RxSpec.schedule_ok sc -> agrees sc hist -> nr <= nr + progress r r' /\
    exists got, RxSpec.inv rcfg sc phi r' (RxSpec.arrive n (RxSpec.MkGhost arr ff)) (nr + progress r r') got) as Hsc.
  { intros sc Hok Ha. destruct (Hr sc Hok Ha) as [got Hi]. destruct (Hstep sc got Hok Ha Hi) as (nxt' & got' & Hi').
    pose proof (RxSpec.inv_first _ _ _ _ _ _ _ Hi) as (H1' & H2' & H3').
    pose proof (RxSpec.inv_first _ _ _ _ _ _ _ Hi') as (H4' & H5' & H6'). simpl in *.
    assert (nr <= nxt').
    { destruct (Z.le_gt_cases nr nxt'); [done|]. destruct H5'. apply elem_of_union. right. apply H3'. lia. }
    assert (nxt' <= alen hist).
    { destruct (Z.le_gt_cases nxt' (alen hist)) as [|Hgt]; [done|].
      destruct (proj1 (elem_of_union _ _ _) (H6' (alen hist) ltac:(lia))) as [Eh%elem_of_singleton|Hin]; [lia|].
      apply Harr in Hin. lia. }
    destruct Hi as [(f & Hf0 & Hc) _ _ _ _]. pose proof Hi' as [(f' & Hf' & Hc') _ _ _ _].
    assert (progress r r' = nxt' - nr) as ->.
    { unfold progress. rewrite Hf0, Hf', (RxSpec.c_nxt _ _ _ _ _ _ _ _ _ Hc), (RxSpec.c_nxt _ _ _ _ _ _ _ _ _ Hc').
      apply Csn.sub_csn_exact. lia. }
    replace (nr + (nxt' - nr)) with nxt' by lia. split; [lia|]. by exists got'. }
  split.
  - apply (Hsc _ (sched_of_ok _ _ Hf Hq) (sched_of_agrees _ _ _ Hf)).
  - intros sc Hok Ha. destruct (Hsc sc Hok Ha) as [_ Hg]. exact Hg.
Qed.

(** The packet that is delivered next on its queue pair is of a position [n] that
    the receiver can place. *)
Record deliverable (w : world) hist arr l1 l2 (p : post) (n : Z) (it : item) (q : sreq) (imm : Z) : Prop := {
  d_pos : 0 <= n < alen hist;
  d_item : aget hist n = Some it;
  d_req : exists u, aget (requests w) (i_msg it) = Some (u, q);
  d_len : 0 <= i_len it < 2 ^ 31;
  d_key : post_key p = (i_qp it, (laddr q +[64] i_off it, raddr q +[64] i_off it, i_len it, imm));
  d_new : is_write p = true -> n ∉ arr;
  d_net : net_ok (requests w) hist ({[n]} ∪ arr) (l1 ++ l2);
  d_sched : forall sc, agrees sc hist -> RxSpec.in_window sc (RxSpec.MkGhost arr (fifo w)) n /\
    RxSpec.carries sc phi (RxSpec.MkGhost arr (fifo w)) imm n /\ RxSpec.len_of sc n = i_len it;
}.

Lemma next_deliverable w hist arr ws wd l1 t p l2 :
  winv w hist arr ws wd -> net w = l1 ++ (t, p) :: l2 -> Forall (fun y => qp_of y.2 <> qp_of p) l1 -> n_rcvd w <= t + 128 ->
  exists n it q imm, deliverable w hist arr l1 l2 p n it q imm.
Proof.
  intros Hv En Hqp Ht. pose proof Hv as [[_ _ Hwd Hf] Eac Hwin _ Hq Hff _ Hr Harr Hle _ Hnet _]. rewrite En in Hnet.
  destruct (net_ok_deliver _ _ _ _ _ _ _ Hnet Hqp) as (n & Htn & Hon & Hnew & Hnet').
  destruct (wire_says _ _ _ _ _ Hf Hq Hff Hon) as (it & u & q & imm & Hn & Ei & Er & Hl & Ek & Hs).
  pose proof (wired_len _ _ _ _ _ Hwd) as [_ Hlen]. exists n, it, q, imm. split; try done; [by exists u|].
  intros sc Ha. destruct (Hs sc arr Ha) as (H1' & H2' & H3'). split_and!; [|done|done].
  split; [lia|]. split; [done|]. exists (n_rcvd w). split; [by eapply rcv_first|lia].
Qed.

Lemma winv_arrive w hist arr ws wd l1 l2 p n it q imm r' wr' :
  winv w hist arr ws wd -> deliverable w hist arr l1 l2 p n it q imm ->
  (forall sc got, RxSpec.schedule_ok sc -> agrees sc hist ->
     RxSpec.inv rcfg sc phi (receiver w) (RxSpec.MkGhost arr (fifo w)) (n_rcvd w) got ->
     exists nxt' got', RxSpec.inv rcfg sc phi r' (RxSpec.arrive n (RxSpec.MkGhost arr (fifo w))) nxt' got') ->
  (n ∉ arr -> (raddr q +[64] i_off it, laddr q +[64] i_off it, i_len it) ∈ wr') ->
  (forall x, x ∈ written w -> x ∈ wr') ->
  winv (MkWorld (sender w) r' (l1 ++ l2) (acks w) (n_acked w) (n_rcvd w + progress (receiver w) r') (fifo w)
         (requests w) (pending w) wr') hist ({[n]} ∪ arr) ws wd.
Proof.
  intros Hv [Hn Ei [u0 Eq] _ _ _ Hnet' _] Hstep Hnew Hsub.
  pose proof Hv as [Hw Eac Hwin Hwk Hq Hff Hpd Hr Harr Hle Hak _ Hwr]. pose proof Hw as [_ _ Hwd Hf].
  pose proof (wired_len _ _ _ _ _ Hwd) as [_ Hlen].
  destruct (rcv_arrives _ _ _ _ _ _ r' n (n_acked w) Hf Hq Hr Harr Hn) as [Hmono Hr']; [lia|lia|done|].
  split; simpl; try done.
  - intros k [->%elem_of_singleton|Hk]%elem_of_union; [done|auto].
  - lia.
  - eapply Forall_impl; [exact Hak|]. intros x (? & ? & ? & ?). split_and!; try done. lia.
  - intros k it' u r Hk Ei' Er. destruct (decide (k ∈ arr)) as [Hin|Hout]; [by eapply Hsub, Hwr|].
    apply elem_of_union in Hk as [->%elem_of_singleton|]; [|done]. simplify_eq. auto.
Qed.

Lemma winv_write s r l1 l2 ak na nr ff rq pd wr t qp w ts t4 qpn r' hist arr ws wd :
  Forall (fun y => qp_of y.2 <> qp) l1 -> nr <= t + 128 ->
  Rx.uc_rx_chunk rcfg ts t4 (Rx.MkCqe (sge_length w) (imm_data w) qpn) r = Done r' ->
  winv (MkWorld s r (l1 ++ (t, PostWrite qp w) :: l2) ak na nr ff rq pd wr) hist arr ws wd -> exists arr',
  winv (MkWorld s r' (l1 ++ l2) ak na (nr + progress r r') ff rq pd (wr ++ [(remote_addr w, sge_addr w, sge_length w)])) hist arr' ws wd.
Proof.
  intros Hqp Ht E Hv. destruct (next_deliverable _ _ _ _ _ l1 t (PostWrite qp w) l2 Hv eq_refl Hqp Ht) as (n & it & q & imm & Hd).
  pose proof Hd as [Hn _ _ _ Ek Hnew _ Hsc]. simpl in Ek. unfold wr_key in Ek. injection Ek as _ E1 E2 E3 E4.
  exists ({[n]} ∪ arr). apply (winv_arrive _ _ _ _ _ _ _ _ _ _ _ _ r' _ Hv Hd).
  - simpl. intros sc got Hok Ha Hi. destruct (Hsc sc Ha) as (Hwin & Hcar & Hl).
    destruct (RxSpec.uc_rx_chunk_ok rcfg sc phi r _ nr got ts t4 (Rx.MkCqe (sge_length w) (imm_data w) qpn) n Hi) as [Hok' _];
      try done; simpl; [by rewrite E4|congruence|by right; apply Hnew|]. by apply Hok'.
  - intros _. rewrite E1, E2, E3. apply elem_of_app. right. by apply list_elem_of_singleton.
  - intros x Hx. apply elem_of_app. by left.
Qed.

Lemma winv_rtx s r l1 l2 ak na nr ff rq pd wr t qp hdr remote im addr len qpn a r' hist arr ws wd :
  Forall (fun y => qp_of y.2 <> qp) l1 -> nr <= t + 128 ->
  Rx.uc_rx_rtx_chunk rcfg (Rx.MkCqe (len + Rx.sizeof_retr_chunk_hdr) im qpn) a (Rx.MkRetrHdr remote im) r = Done r' ->
  winv (MkWorld s r (l1 ++ (t, PostRtx qp hdr remote im addr len) :: l2) ak na nr ff rq pd wr) hist arr ws wd -> exists arr',
  winv (MkWorld s r' (l1 ++ l2) ak na (nr + progress r r') ff rq pd (wr ++ copied r r' (remote, addr, len))) hist arr' ws wd.
Proof.
  intros Hqp Ht E Hv. destruct (next_deliverable _ _ _ _ _ l1 t _ l2 Hv eq_refl Hqp Ht) as (n & it & q & imm & Hd).
  pose proof Hd as [Hn _ _ Hlen Ek _ _ Hsc]. simpl in Ek. injection Ek as _ E1 E2 E3 E4. subst.
  assert (forall sc got, RxSpec.schedule_ok sc -> agrees sc hist ->
     RxSpec.inv rcfg sc phi r (RxSpec.MkGhost arr ff) nr got ->
     (exists nxt' got', RxSpec.inv rcfg sc phi r' (RxSpec.arrive n (RxSpec.MkGhost arr ff)) nxt' got') /\
     (n ∉ arr -> length (Rx.copies r) < length (Rx.copies r'))%nat) as Hstep.
  { intros sc got Hok Ha Hi. destruct (Hsc sc Ha) as (Hwin & Hcar & Hl).
    destruct (RxSpec.uc_rx_rtx_chunk_ok rcfg sc phi r _ nr got (Rx.MkCqe (i_len it + Rx.sizeof_retr_chunk_hdr) imm qpn) a
      (Rx.MkRetrHdr (raddr q +[64] i_off it) imm) n Hi Hrc Hok Hcar) as (r2 & nxt' & got' & E' & Hi' & Hcp); [|done|].
    { simpl in Hl |- *. rewrite Hl. unfold Rx.sizeof_retr_chunk_hdr. rewrite wrap_id; word_lia. }
    assert (r2 = r') as -> by congruence. split; [by exists nxt', got'|].
    intros Hna. rewrite (Hcp Hna), length_app. simpl. lia. }
  exists ({[n]} ∪ arr). apply (winv_arrive _ _ _ _ _ _ _ _ _ _ _ _ r' _ Hv Hd).
  - intros sc got Hok Ha Hi. by apply (Hstep sc got).
  - intros Hna. pose proof Hv as [[_ _ _ Hf] _ _ _ Hq _ _ Hr _ _ _ _ _]. simpl in *.
    destruct (Hr _ (sched_of_ok _ _ Hf Hq) (sched_of_agrees _ _ _ Hf)) as [got Hi].
    destruct (Hstep _ got (sched_of_ok _ _ Hf Hq) (sched_of_agrees _ _ _ Hf) Hi) as [_ Hlt].
    unfold copied. rewrite decide_True by auto. apply elem_of_app. right. by apply list_elem_of_singleton.
  - intros x Hx. apply elem_of_app. by left.
Qed.

Lemma winv_frame w hist arr ws wd psi r' : psi <> phi -> RxSpec.frame psi (receiver w) r' -> winv w hist arr ws wd ->
  winv (MkWorld (sender w) r' (net w) (acks w) (n_acked w) (n_rcvd w) (fifo w) (requests w) (pending w) (written w)) hist arr ws wd.
Proof.
  intros Hne Hfr [W1 W2 W3 W4 W5 W6 W7 Hr W9 W10 W11 W12 W13]. split; try done. intros sc Hok Ha. destruct (Hr sc Hok Ha) as [got Hi].
  exists got. by apply (RxSpec.inv_frame _ _ _ psi (receiver w)).
Qed.

Lemma winv_supply w hist arr ws wd u q o r' :
  Rx.ureqs (receiver w) !! u = Some q -> Flow.context q = phi -> Rx.supply_rx_buff u (receiver w) = Done (o, r') ->
  winv w hist arr ws wd ->
  winv (MkWorld (sender w) r' (net w) (acks w) (n_acked w) (n_rcvd w) (fifo w ++ from_option (fun rid => [(u, rid)]) [] o)
    (requests w) (pending w) (written w)) hist arr ws wd.
Proof.
  intros Hq Hc E [W1 W2 W3 W4 W5 [Hf1 Hf2] W7 Hr W9 W10 W11 W12 W13]. split; simpl; try done.
  - split.
    + apply Forall_app. split; [done|]. destruct o as [rd|]; simpl; [|constructor]. apply Forall_singleton. simpl.
      pose proof (sched_of_ok _ _ (fw_filed _ _ _ _ _ _ _ _ _ W1) W5) as Hok.
      destruct (Hr _ Hok (sched_of_agrees _ _ _ (fw_filed _ _ _ _ _ _ _ _ _ W1))) as [got [(f & Hf & Hcore) _ _ _ _]].
      unfold Rx.supply_rx_buff, Rx.get_flow in E. rewrite Hq, Hc, Hf in E. cbn [mbind result_bind] in E.
      destruct (alloc_recvreq f) as [k|] eqn:Ek; [|done]. injection E as <- _.
      apply RxSpec.find_unused_spec in Ek as [Hk _]. rewrite (RxSpec.c_reqs _ _ _ _ _ _ _ _ _ Hcore) in Hk. lia.
    + intros i v r Hi Er. destruct (Hf2 i v r Hi Er) as [x Hx]. exists x.
      pose proof (aget_Some_lt _ _ _ Hi Hx). by rewrite aget_app_l by lia.
  - intros sc Hok Ha. destruct (Hr sc Hok Ha) as [got Hi].
    destruct (RxSpec.supply_rx_buff_ok rcfg sc phi _ _ _ _ u q Hi Hq Hc) as (o' & r2 & E' & Hi').
    assert (o' = o /\ r2 = r') as [-> ->] by (split; congruence). by exists got.
Qed.

Lemma rcv_le reqs hist arr ff nr r : filed reqs hist -> reqs_ok phi reqs -> rcv_ok hist arr ff nr r ->
  (forall n, n ∈ arr -> 0 <= n < alen hist) -> nr <= alen hist.
Proof.
  intros Hf Hq Hr Harr. destruct (rcv_first _ _ _ _ _ _ Hf Hq Hr) as (_ & _ & Hall).
  destruct (Z.le_gt_cases nr (alen hist)) as [|Hgt]; [done|]. pose proof (alen_nonneg hist).
  specialize (Harr _ (Hall (alen hist) ltac:(lia))). lia.
Qed.

Lemma winv_ack w hist arr ws wd t4 f : Rx.receiver_flow_tbl_ (receiver w) !! phi = Some f -> winv w hist arr ws wd ->
  winv (MkWorld (sender w) (receiver w) (net w) (acks w ++ [(n_rcvd w, Rx.sack_header rcfg t4 f)]) (n_acked w) (n_rcvd w) (fifo w)
    (requests w) (pending w) (written w)) hist arr ws wd.
Proof.
  intros Hf [W1 W2 W3 W4 W5 W6 W7 Hr W9 W10 W11 W12 W13]. split; simpl; try done. apply Forall_app. split; [done|]. apply Forall_singleton.
  destruct (Hr _ (sched_of_ok _ _ (fw_filed _ _ _ _ _ _ _ _ _ W1) W5) (sched_of_agrees _ _ _ (fw_filed _ _ _ _ _ _ _ _ _ W1)))
    as [got [(f' & Hf' & Hcore) _ _ _ _]]. assert (f' = f) as -> by congruence.
  unfold ack_ok, Rx.sack_header. simpl. rewrite (RxSpec.c_fid _ _ _ _ _ _ _ _ _ Hcore), (RxSpec.c_nxt _ _ _ _ _ _ _ _ _ Hcore).
  pose proof (Csn.csn_range (n_rcvd w)). rewrite (wrap_id 16 phi), (wrap_id 16 (Csn.csn _)) by (unfold in_word; lia).
  split_and!; [lia|done|apply RxSpec.of_uint32_idemp|]. apply wrap_range. lia.
Qed.

Lemma winv_lose w hist arr ws wd l1 x l2 : net w = l1 ++ x :: l2 -> winv w hist arr ws wd ->
  winv (MkWorld (sender w) (receiver w) (l1 ++ l2) (acks w) (n_acked w) (n_rcvd w) (fifo w) (requests w) (pending w) (written w)) hist arr ws wd.
Proof. intros En [W1 W2 W3 W4 W5 W6 W7 Hr W9 W10 W11 W12 W13]. rewrite En in W12. split; try done. by eapply net_ok_lose. Qed.

(** *** The sender's steps *)

Lemma sinv_sureqs ws m (c : sctx CC X P) : sinv scfg bufs cap ws c -> sinv scfg bufs cap ws (set_sureqs m c).
Proof.
  intros [[P1 P2 P3] S2 S3 S4 S5 S6]. split; try done. intros fid w Hw. destruct (S4 fid w Hw) as (f & Hf & Hok). exists f.
  split; [done|]. pose proof (o_direct _ _ _ _ _ Hok Hdirect) as Hq. destruct Hok. split; try done. by rewrite Hq.
Qed.

Lemma sent_of_none i l : Forall (fun it => i_msg it <> i) l -> sent_of i l = 0.
Proof. induction 1 as [|it l Hit _ IH]; simpl; [done|]. rewrite (proj2 (Z.eqb_neq _ _) Hit). lia. Qed.

Lemma filed_msgs reqs hist : filed reqs hist -> Forall (fun it => 0 <= i_msg it < alen reqs) hist.
Proof.
  intros Hf. apply Forall_lookup. intros n it Hn.
  destruct (fl_item _ _ Hf (Z.of_nat n) it) as (u & r & Hm & Hr & _); [lia|unfold aget; by rewrite Nat2Z.id|].
  split; [done|]. by apply (aget_Some_lt _ _ _ Hm Hr).
Qed.

Lemma winv_request w hist arr ws wd u v q :
  pending w !! u = None -> aget (fifo w) (alen (requests w)) = Some (v, rid q) -> context q = phi -> sent_offset q = 0 ->
  0 <= data_len q < 2 ^ 31 -> winv w hist arr ws wd ->
  winv (MkWorld (set_sureqs (<[u := q]> (sureqs (sender w))) (sender w)) (receiver w) (net w) (acks w) (n_acked w) (n_rcvd w)
    (fifo w) (requests w ++ [(u, q)]) (<[u := alen (requests w)]> (pending w)) (written w)) hist arr ws wd.
Proof.
  intros Hu Hff Hc Ho Hd [[S1 S2 S3 Hf] W2 W3 W4 W5 [F1 F2] Hpd Hr W9 W10 W11 (pk & Enet & Hpk & Hs) Hwr Hdone].
  assert (forall i x, 0 <= i -> aget (requests w) i = Some x -> aget (requests w ++ [(u, q)]) i = Some x) as Hkeep.
  { intros i x Hi Ex. pose proof (aget_Some_lt _ _ _ Hi Ex). by rewrite aget_app_l by lia. }
  pose proof (alen_nonneg (requests w)) as Hn0. split; simpl; try done.
  - split; [by apply sinv_sureqs|done| |by apply filed_reqs]. apply wired_reqs; [done|apply alen_nonneg|].
    by apply (wired_frame _ _ _ _ (sender w)).
  - apply Forall_app. split; [done|]. by apply Forall_singleton.
  - split; [done|]. intros i x r Hi Er. destruct (aget_snoc_inv _ _ _ _ Hi Er) as [[_ Er']|[-> [= -> ->]]]; eauto.
  - intros x i. destruct (decide (x = u)) as [->|Hne].
    + rewrite lookup_insert_eq. intros [= <-]. exists q. pose proof (filed_msgs _ _ Hf) as Hm.
      assert (Forall (fun it => i_msg it <> alen (requests w)) hist) as Hno by (eapply Forall_impl; [exact Hm|]; simpl; lia).
      unfold in_progress. simpl. rewrite (sent_of_none _ _ Hno), lookup_insert_eq. split_and!; try lia.
      * rewrite aget_app_r, Z.sub_diag by lia. done.
      * eapply Forall_impl; [exact Hno|]. intros it ? ?. done.
      * f_equal. rewrite <- Ho. by destruct q.
    + rewrite lookup_insert_ne by done. intros Hx. destruct (Hpd x i Hx) as (r & (P1 & P2 & P3 & P4) & P5). exists r.
      split; [|done]. split_and!; [done|by apply Hkeep|done|]. simpl. by rewrite lookup_insert_ne.
  - exists pk. split_and!; [done| |done]. eapply Forall_impl; [exact Hpk|]. intros x Hx.
    apply (pkt_ok_app _ [(u, q)] _ []) in Hx; [|done]. by rewrite app_nil_r in Hx.
  - intros n it x r Hin Ei Er. eapply Hwr; [done|done|]. destruct (W9 n Hin) as [Hn _].
    destruct (fl_item _ _ Hf n it Hn Ei) as (u' & r' & Hm & Hr' & _). rewrite (Hkeep _ _ Hm Hr') in Er. by simplify_eq.
  - intros i x r Hi Er. destruct (aget_snoc_inv _ _ _ _ Hi Er) as [[_ Er']|[-> [= -> ->]]]; [|left; apply lookup_insert_eq].
    destruct (Hdone i x r Hi Er') as [Hx|?]; [left|by right]. rewrite lookup_insert_ne; [done|]. intros ->. congruence.
Qed.

Lemma tracked_trk ws reqs hist wd c : flow_wire scfg phi bufs cap ws reqs hist wd c -> tracked c = alen (trk wd).
Proof.
  intros [Hi Hw _ _]. destruct (s_flows _ _ _ _ _ Hi phi wd Hw) as (f & Hf & Hok). unfold tracked. rewrite Hf.
  unfold alen. rewrite <- (length_map track_key), (o_trk _ _ _ _ _ Hok), tracks_length. done.
Qed.

Lemma emit_app t (c c' : sctx CC X P) ps : posted c' = posted c ++ ps -> emit t c c' = map (pair t) ps.
Proof. intros E. unfold emit. by rewrite E, drop_app_length. Qed.

(** Chunks of message [i] do not matter to the others. *)
Lemma in_progress_other reqs hist its (c c' : sctx CC X P) u i r u' i' r' :
  in_progress reqs hist c u i r -> in_progress reqs hist c u' i' r' -> u' <> u ->
  Forall (fun it => i_msg it = i) its -> sureqs c' !! u' = sureqs c !! u' ->
  in_progress reqs (hist ++ its) c' u' i' r' /\ sent_of i' (hist ++ its) = sent_of i' hist.
Proof.
  intros (_ & P2 & _) (Q1 & Q2 & Q3 & Q4) Hne Hits Es.
  assert (i' <> i) as Hi by (intros ->; simplify_eq).
  assert (Forall (fun it => i_msg it <> i') its) as Hno by (eapply Forall_impl; [exact Hits|]; simpl; congruence).
  assert (sent_of i' (hist ++ its) = sent_of i' hist) as E by (rewrite sent_of_app, (sent_of_none _ _ Hno); lia).
  split; [|done]. split_and!; [done|done| |by rewrite E, Es]. apply Forall_app. split; [done|].
  eapply Forall_impl; [exact Hno|]. intros it ? ?. done.
Qed.

Lemma winv_send w hist arr ws wd now u i b s' :
  pending w !! u = Some i -> senderCC_tx_message scfg now u (sender w) = Done (b, s') -> tracked s' < 128 ->
  winv w hist arr ws wd -> exists hist' ws' wd',
  winv (MkWorld s' (receiver w) (net w ++ emit (n_acked w) (sender w) s') (acks w) (n_acked w) (n_rcvd w) (fifo w) (requests w)
    (if b then delete u (pending w) else pending w) (written w)) hist' arr ws' wd'.
Proof.
  intros Hu E Hwin [Hw W2 W3 W4 W5 W6 Hpd Hr Harr W10 W11 Hnet Hwr Hdone]. destruct (Hpd u i Hu) as (r & Hp & Hle).
  pose proof Hp as (Hi0 & Hreq & _ & Hs). unfold senderCC_tx_message in E. rewrite Hs in E. cbn [context set_sent_offset] in E.
  pose proof (proj1 (Forall_forall _ _) W5 (u, r) ltac:(by eapply list_elem_of_lookup_2)) as [Hctx _]. simpl in Hctx. rewrite Hctx in E.
  destruct (tx_loop_wire _ _ _ _ _ _ _ _ _ _ _ _ _ _ _ _ Hdirect Hw W5 Hp Hle E)
    as (its & w' & Hits & Eack & Hw' & Hle' & Er & Hb & (ps & Epo & Epos & Hps) & Ewk).
  exists (hist ++ its), (<[phi := w']> ws), w'. pose proof (tracked_trk _ _ _ _ _ Hw') as Etr.
  assert (una w' = una wd) as Euna by (unfold una; by rewrite Eack).
  pose proof (wired_len _ _ _ _ _ (fw_wired _ _ _ _ _ _ _ _ _ Hw)) as [_ Hlen]. pose proof (alen_nonneg (trk wd)).
  split; simpl; try done; try congruence.
  - intros x k Hx. destruct (decide (x = u)) as [->|Hne].
    + destruct b; [by rewrite lookup_delete_eq in Hx|]. assert (k = i) as -> by congruence. exists r. split; [|done].
      split_and!; [done|done|done|]. by rewrite Er, lookup_insert_eq.
    + assert (pending w !! x = Some k) as Hx' by (destruct b; [by rewrite lookup_delete_ne in Hx|done]).
      destruct (Hpd x k Hx') as (r' & Hp' & Hle2). exists r'.
      destruct (in_progress_other _ _ its _ s' _ _ _ _ _ _ Hp Hp' Hne Hits) as [? ->]; [by rewrite Er, lookup_insert_ne|done].
  - intros sc Hok Ha. apply (Hr sc Hok). by eapply agrees_app.
  - intros n Hn. specialize (Harr n Hn). rewrite alen_app. pose proof (alen_nonneg its). lia.
  - rewrite (emit_app _ _ _ _ Epo). apply net_ok_new; [apply Hw|done|lia|intros n Hn; by apply Harr|done|].
    eapply Forall_impl; [exact Hps|]. intros p [? ?]. split; [by apply Is_true_true|done].
  - intros n it x r' Hin Ei Er'. rewrite aget_app_l in Ei by auto. by eapply Hwr.
  - intros k x r' Hk Er'. destruct (Hdone k x r' Hk Er') as [Hx|Hx]; [|right; apply Exists_app; by left].
    destruct b; [|by left]. destruct (decide (x = u)) as [->|]; [right; by simplify_eq|left; by rewrite lookup_delete_ne].
Qed.

Lemma pending_same reqs hist (c c' : sctx CC X P) pd : sureqs c' = sureqs c -> pending_ok reqs hist c pd -> pending_ok reqs hist c' pd.
Proof. intros E Hpd u i Hu. unfold in_progress. rewrite E. by apply Hpd. Qed.

(** After an ACK or a timeout. *)
Lemma winv_acted w hist arr ws wd n s' :
  winv w hist arr ws wd -> (n <= length (trk wd))%nat -> n_acked w + Z.of_nat n <= n_rcvd w ->
  acted scfg phi bufs cap ws (requests w) hist wd n (sender w) s' -> exists ws' wd',
  winv (MkWorld s' (receiver w) (net w ++ emit (n_acked w) (sender w) s') (acks w) (n_acked w + (tracked (sender w) - tracked s'))
    (n_rcvd w) (fifo w) (requests w) (pending w) (written w)) hist arr ws' wd'.
Proof.
  intros [Hw W2 W3 W4 W5 W6 Hpd Hr Harr W10 W11 Hnet Hwr] Hn Hle [A1 A2 A3 (ps & Epo & Hps)].
  exists (<[phi := ack n wd]> ws), (ack n wd). pose proof (tracked_trk _ _ _ _ _ Hw) as E1. pose proof (tracked_trk _ _ _ _ _ A1) as E2.
  assert (alen (trk (ack n wd)) = alen (trk wd) - Z.of_nat n) as E3 by (simpl; unfold alen; rewrite length_drop; lia).
  assert (una (ack n wd) = una wd + Z.of_nat n) as E4 by (unfold una; simpl; rewrite alen_app; unfold alen; rewrite length_take; lia).
  split; cbn [sender receiver net acks n_acked n_rcvd fifo requests pending written]; try done; try lia.
  - rewrite A2, W4. simpl. by rewrite woken_app.
  - by eapply pending_same.
  - rewrite (emit_app _ _ _ _ Epo). apply net_ok_again; [done|]. eapply Forall_impl; [exact Hps|].
    intros p (? & ? & ?). split_and!; [done|lia|done].
Qed.

Lemma winv_rx_ack w hist arr ws wd t5 t6 now1 now2 t h f s' :
  (t, h) ∈ acks w -> n_acked w < t + 128 -> sender_flow_tbl_ (sender w) !! phi = Some f -> rtt_ok t6 (Pcb.cc (pcb f)) ->
  uc_rx_ack scfg t5 t6 now1 now2 h (sender w) = Done s' -> winv w hist arr ws wd -> exists ws' wd',
  winv (MkWorld s' (receiver w) (net w ++ emit (n_acked w) (sender w) s') (acks w) (n_acked w + (tracked (sender w) - tracked s'))
    (n_rcvd w) (fifo w) (requests w) (pending w) (written w)) hist arr ws' wd'.
Proof.
  intros Hin Hold Hf Hrtt E Hv. pose proof Hv as [Hw W2 W3 W4 W5 W6 Hpd Hr Harr W10 W11 Hnet Hwr].
  destruct (proj1 (Forall_forall _ _) W11 _ Hin) as (Ht & Eh & Eack & Hpath). simpl in *. pose proof Hw as [Hi Hwin Hwd Hfl].
  pose proof (rcv_le _ _ _ _ _ _ Hfl W5 Hr Harr) as Hnr. pose proof (wired_len _ _ _ _ _ Hwd) as [_ Hlen].
  pose proof (tracked_trk _ _ _ _ _ Hw) as Etr. unfold tracked in Etr. rewrite Hf in Etr.
  destruct (s_flows _ _ _ _ _ Hi phi wd Hwin) as (f0 & Hf0 & Hok). assert (f0 = f) as -> by congruence.
  assert (truthful t6 h f (t - una wd)) as Htr.
  { split; [done|]. rewrite Etr, (o_wheel _ _ _ _ _ Hok), (wd_que _ _ _ _ _ Hwd), (o_una _ _ _ _ _ Hok), Csn.add_csn, Eack.
    change (wrap 32 (alen (@nil chunk))) with 0. split_and!; [lia|lia|lia| |done]. f_equal. lia. }
  apply (winv_acted w hist arr ws wd (Z.to_nat (t - una wd))); [done|unfold alen in *; lia|lia|].
  by eapply rx_ack_wire.
Qed.

Lemma winv_rto w hist arr ws wd now s' : handle_rto scfg now phi (sender w) = Done s' -> winv w hist arr ws wd -> exists ws' wd',
  winv (MkWorld s' (receiver w) (net w ++ emit (n_acked w) (sender w) s') (acks w) (n_acked w)
    (n_rcvd w) (fifo w) (requests w) (pending w) (written w)) hist arr ws' wd'.
Proof.
  intros E Hv. pose proof (v_wire _ _ _ _ _ Hv) as Hw. pose proof (rto_wire _ _ Hopen _ _ _ _ _ _ _ _ _ Hw E) as Ha.
  pose proof (tracked_trk _ _ _ _ _ Hw) as E1. pose proof (tracked_trk _ _ _ _ _ (ac_wire _ _ _ _ _ _ _ _ _ _ _ Ha)) as E2.
  destruct (winv_acted _ _ _ _ _ 0 s' Hv) as (ws' & wd' & Hv'); [lia|pose proof (v_le _ _ _ _ _ Hv); lia|done|].
  exists ws', wd'. by rewrite E1, E2, ack_0, Z.sub_diag, Z.add_0_r in Hv'.
Qed.

Lemma winv_step w w' : step w w' -> (exists hist arr ws wd, winv w hist arr ws wd) -> exists hist arr ws wd, winv w' hist arr ws wd.
Proof.
  intros Hs (hist & arr & ws & wd & Hv). destruct Hs.
  - exists hist, arr, ws, wd. by eapply (winv_supply (MkWorld _ _ _ _ _ _ _ _ _ _)).
  - exists hist, arr, ws, wd. by eapply (winv_request (MkWorld _ _ _ _ _ _ _ _ _ _)).
  - edestruct winv_send as (hist' & ws' & wd' & Hv'); [| | |exact Hv|]; [done..|]. by exists hist', arr, ws', wd'.
  - edestruct winv_write as (arr' & Hv'); [| | |exact Hv|]; [done..|]. by exists hist, arr', ws, wd.
  - edestruct winv_rtx as (arr' & Hv'); [| | |exact Hv|]; [done..|]. by exists hist, arr', ws, wd.
  - exists hist, arr, ws, wd. by eapply (winv_lose (MkWorld _ _ _ _ _ _ _ _ _ _)).
  - exists hist, arr, ws, wd. by eapply (winv_ack (MkWorld _ _ _ _ _ _ _ _ _ _)).
  - edestruct winv_rx_ack as (ws' & wd' & Hv'); [| | | | |exact Hv|]; [done..|]. by exists hist, arr, ws', wd'.
  - edestruct winv_rto as (ws' & wd' & Hv'); [|exact Hv|]; [done|]. by exists hist, arr, ws', wd'.
  - exists hist, arr, ws, wd. eapply (winv_frame (MkWorld _ _ _ _ _ _ _ _ _ _) _ _ _ _ (phi + 1)); [lia| |exact Hv].
    by eapply RxSpec.uc_post_acks_frame.
  - exists hist, arr, ws, wd. eapply (winv_frame (MkWorld _ _ _ _ _ _ _ _ _ _)); [done| |exact Hv]. by eapply RxSpec.other_step_frame.
Qed.

(** ** The transfer *)

Definition initial (s : sctx CC X P) (r : Rx.rctx CR XR PR) : world := MkWorld s r [] [] 0 0 [] [] ∅ [].

(** A sender and a receiver on which the flow was just created. *)
Definition begins (s : sctx CC X P) (r : Rx.rctx CR XR PR) : Prop :=
  (exists ws, sinv scfg bufs cap ws s /\ ws !! phi = Some (MkWindow [] [] [])) /\ swoken s = [] /\ RxSpec.starts phi r.

Lemma begins_winv s r : begins s r -> exists hist arr ws wd, winv (initial s r) hist arr ws wd.
Proof.
  intros ((ws & Hi & Hw) & Hwk & Hr). exists [], ∅, ws, (MkWindow [] [] []). split; simpl; try done.
  - constructor.
  - intros sc _ _. exists []. by apply RxSpec.starts_inv.
  - exists []. split_and!; [done|constructor|constructor].
Qed.

Lemma reachable_winv s r w : begins s r -> rtc step (initial s r) w -> exists hist arr ws wd, winv w hist arr ws wd.
Proof.
  intros Hb Hr. apply (rtc_invariant step (fun w => exists hist arr ws wd, winv w hist arr ws wd) _ _ winv_step Hr).
  by apply begins_winv.
Qed.

(** The chunks that end a message. *)
Definition ends (l : list item) : list item := filter (fun it => i_last it) l.

Lemma ends_app l k : ends (l ++ k) = ends l ++ ends k.
Proof. apply filter_app. Qed.

Lemma ends_nodup reqs hist n : filed reqs hist -> 0 <= n <= alen hist -> NoDup (map i_msg (ends (take (Z.to_nat n) hist))).
Proof.
  intros Hf [Hn Hle]. revert Hle. pattern n. apply natlike_ind; [constructor| |done]. intros k Hk IH Hle. unfold Z.succ in *.
  destruct (aget_is_Some hist k) as [it Ei]; [lia|]. rewrite (take_snoc hist k it), ends_app, map_app by done.
  apply NoDup_app. split_and!; [apply IH; lia| |unfold ends; rewrite filter_cons; case_decide; repeat constructor; apply not_elem_of_nil].
  intros i (x & -> & [Hl Hx]%list_elem_of_filter)%list_elem_of_fmap Hit.
  unfold ends in Hit. rewrite filter_cons in Hit. case_decide; [|by apply elem_of_nil in Hit].
  apply list_elem_of_singleton in Hit. apply list_elem_of_lookup in Hx as [m Hm]. apply lookup_take_Some in Hm as [Hm Hlt].
  pose proof (fl_last _ _ Hf (Z.of_nat m) k x it) as Hno. unfold aget in Hno at 1. rewrite Nat2Z.id in Hno.
  rewrite Hno in Hl; [done|lia|done|done|done].
Qed.

Definition length_of (w : world) (i : Z) : Z := match aget (requests w) i with Some (_, r) => data_len r | None => 0 end.

(** The wake-ups a completed message deserves: the receiver's and the sender's. *)
Definition rcv_wake (w : world) (i : Z) : Rx.wake := Rx.MkWake phi (RxSpec.ureq_of (fifo w) i) (length_of w i).
Definition snd_wake (w : world) (i : Z) : Z := default 0 (fst <$> aget (requests w) i).

(** Message [i] is in the receiver's memory: it has a buffer, whose index the
    sender uses, and each byte of it was written where it belongs. *)
Definition in_memory (w : world) (i : Z) : Prop := exists u r v,
  aget (requests w) i = Some (u, r) /\ aget (fifo w) i = Some (v, rid r) /\
  forall j, 0 <= j < data_len r -> exists off len, off <= j < off + len /\
    (raddr r +[64] off, laddr r +[64] off, len) ∈ written w.

Lemma last_sent w hist arr ws wd n it : winv w hist arr ws wd -> 0 <= n -> aget hist n = Some it -> i_last it = true ->
  sent_of (i_msg it) (take (Z.to_nat (n + 1)) hist) = length_of w (i_msg it) /\ snd_wake w (i_msg it) = k_ureq (i_chunk it).
Proof.
  intros Hv Hn Ei Hl. destruct (fl_item _ _ (fw_filed _ _ _ _ _ _ _ _ _ (v_wire _ _ _ _ _ Hv)) n it Hn Ei)
    as (u & r & _ & Er & Eu & Eo & _ & _ & El). unfold length_of, snd_wake. rewrite Er. split; [|done].
  rewrite (take_snoc hist n it), sent_of_app, <- Eo by done. simpl. rewrite Z.eqb_refl. rewrite Hl in El. lia.
Qed.

Lemma completions_ends w hist arr ws wd sc n : winv w hist arr ws wd -> agrees sc hist -> 0 <= n <= alen hist ->
  RxSpec.completions sc phi (fifo w) n = map (rcv_wake w) (map i_msg (ends (take (Z.to_nat n) hist))).
Proof.
  intros Hv Ha [Hn Hle]. revert Hle. pattern n. apply natlike_ind; [done| |done]. intros k Hk IH Hle. unfold Z.succ in *.
  destruct (aget_is_Some hist k) as [it Ei]; [lia|]. destruct (Ha k it Hk Ei) as (Em & El & _).
  rewrite RxSpec.completions_S, IH, (take_snoc hist k it), ends_app, !map_app by (done || lia). f_equal.
  unfold RxSpec.completion, ends. rewrite El, filter_cons, Em, (bytes_of_hist sc hist) by (done || lia).
  destruct (i_last it) eqn:Elast; [|done]. rewrite decide_True by done. simpl. unfold rcv_wake.
  by destruct (last_sent _ _ _ _ _ k it Hv Hk Ei Elast) as [-> _].
Qed.

Lemma woken_ends w hist arr ws wd : winv w hist arr ws wd ->
  swoken (sender w) = map (snd_wake w) (map i_msg (ends (take (Z.to_nat (n_acked w)) hist))).
Proof.
  intros Hv. pose proof Hv as [[_ _ [Hh _ _] Hf] Ea _ Ewk _ _ _ _ _ _ _ _ _]. rewrite Ewk, Ea.
  assert (acked wd = map i_chunk (take (Z.to_nat (una wd)) hist)) as ->.
  { change (map i_chunk) with (fmap (M := list) i_chunk). rewrite fmap_take. change (fmap (M := list) i_chunk) with (map i_chunk).
    rewrite Hh. unfold una, alen. rewrite Nat2Z.id. by rewrite take_app_length. }
  assert (forall l, Forall (fun it => i_last it = true -> snd_wake w (i_msg it) = k_ureq (i_chunk it)) l ->
    woken (map i_chunk l) = map (snd_wake w) (map i_msg (ends l))) as Hl.
  { unfold woken, ends. induction 1 as [|it l Hit _ IH]; [done|]. cbn [map]. rewrite !filter_cons.
    change (k_last (i_chunk it)) with (i_last it). destruct (i_last it); simpl; [|done]. rewrite IH, Hit; done. }
  apply Hl, Forall_take, Forall_lookup. intros n it Hn Hlast.
  destruct (last_sent _ _ _ _ _ (Z.of_nat n) it Hv ltac:(lia)) as [_ E]; [unfold aget; by rewrite Nat2Z.id|done..].
Qed.

Lemma ended_in_memory w hist arr ws wd i : winv w hist arr ws wd ->
  i ∈ map i_msg (ends (take (Z.to_nat (n_rcvd w)) hist)) -> in_memory w i.
Proof.
  intros Hv (it & -> & [Hl Hx]%list_elem_of_filter)%list_elem_of_fmap. apply list_elem_of_lookup in Hx as [m Hm].
  apply lookup_take_Some in Hm as [Hm Hlt]. pose proof Hv as [[_ _ _ Hf] _ _ _ Hq [_ Hff] _ Hr _ _ _ _ Hwr].
  assert (aget hist (Z.of_nat m) = Some it) as Ei by (unfold aget; by rewrite Nat2Z.id).
  destruct (fl_item _ _ Hf (Z.of_nat m) it ltac:(lia) Ei) as (u & r & Hm0 & Er & _). destruct (Hff _ _ _ Hm0 Er) as [v Hv'].
  exists u, r, v. split_and!; [done|done|]. intros j Hj. pose proof (aget_Some_lt _ _ _ (Nat2Z.is_nonneg m) Ei) as Hlen.
  destruct (last_sent _ _ _ _ _ (Z.of_nat m) it Hv ltac:(lia) Ei) as [Es _]; [by apply Is_true_true|].
  unfold length_of in Es. rewrite Er in Es.
  destruct (byte_in_chunk _ hist (Z.of_nat m + 1) (i_msg it) j Hf) as (k & x & Hk & Ex & Em & Hox); [lia|lia|].
  destruct (rcv_first _ _ _ _ _ _ Hf Hq Hr) as (_ & _ & Hall). exists (i_off x), (i_len x). split; [done|].
  apply (Hwr k x u r); [apply Hall; lia|done|by rewrite Em].
Qed.

(** When nothing is pending every message has ended. *)
Lemma all_ended w hist arr ws wd : winv w hist arr ws wd -> pending w = ∅ ->
  map i_msg (ends hist) ≡ₚ seqZ 0 (alen (requests w)).
Proof.
  intros Hv Hpd. pose proof (fw_filed _ _ _ _ _ _ _ _ _ (v_wire _ _ _ _ _ Hv)) as Hf.
  apply NoDup_Permutation; [|apply NoDup_seqZ|].
  - pose proof (ends_nodup _ hist (alen hist) Hf) as Hn. unfold alen in Hn.
    rewrite Nat2Z.id, firstn_all in Hn. apply Hn. lia.
  - intros i. rewrite elem_of_seqZ. split.
    + intros (it & -> & [_ Hx]%list_elem_of_filter)%list_elem_of_fmap.
      apply (proj1 (Forall_forall _ _) (filed_msgs _ _ Hf)) in Hx. lia.
    + intros Hi. destruct (aget_is_Some (requests w) i) as [[u r] Er]; [lia|].
      destruct (v_handed _ _ _ _ _ Hv i u r) as [Hx|(it & Hx & <- & Hl)%Exists_exists]; [lia|done|by rewrite Hpd in Hx|].
      apply list_elem_of_fmap. exists it. split; [done|]. apply list_elem_of_filter. split; [by apply Is_true_true|done].
Qed.

(** C1: Messages sent over a network that loses packets, reorders them between
    queue pairs, and loses, reorders and repeats acknowledgements arrive.  In
    every reachable state there is a list of messages, each once, for which the
    receiver woke the application, in this order, with the buffer that was
    supplied for the message and the length the sender gave it; every byte of
    such a message was written to the place in the buffer that belongs to it;
    and the requests for which the sender woke its application are those of a
    prefix of the list: it never reports a message that has not been received
    completely.  Once every request was handed out and no chunk is tracked any
    more, both sides were woken for all the messages. *)
Theorem transfer_reliable s r w : begins s r -> rtc step (initial s r) w ->
  exists msgs k, NoDup msgs /\ Forall (in_memory w) msgs /\
    filter (fun x => Rx.wfid x = phi) (Rx.woken (receiver w)) = map (rcv_wake w) msgs /\
    swoken (sender w) = map (snd_wake w) (take k msgs) /\
    (pending w = ∅ -> tracked (sender w) = 0 -> take k msgs = msgs /\ msgs ≡ₚ seqZ 0 (alen (requests w))).
Proof.
  intros Hb Hr. destruct (reachable_winv s r w Hb Hr) as (hist & arr & ws & wd & Hv).
  pose proof Hv as [[_ _ _ Hf] Ea _ _ Hq _ _ Hrcv Harr Hle _ _ _].
  pose proof (rcv_le _ _ _ _ _ _ Hf Hq Hrcv Harr) as Hnr. destruct (rcv_first _ _ _ _ _ _ Hf Hq Hrcv) as [Hn0 _].
  pose proof (sched_of_agrees (alen (requests w)) _ _ Hf) as Hag. destruct (Hrcv _ (sched_of_ok _ _ Hf Hq) Hag) as [got Hi].
  exists (map i_msg (ends (take (Z.to_nat (n_rcvd w)) hist))), (length (ends (take (Z.to_nat (n_acked w)) hist))). split_and!.
  - by eapply ends_nodup.
  - apply Forall_forall. intros i Hin. by eapply ended_in_memory.
  - destruct Hi as [(f & _ & Hc) _ _ _ _]. rewrite (RxSpec.c_woken _ _ _ _ _ _ _ _ _ Hc). by eapply completions_ends.
  - rewrite (woken_ends _ _ _ _ _ Hv). f_equal.
    rewrite <- (take_drop (Z.to_nat (n_acked w)) (take (Z.to_nat (n_rcvd w)) hist)), take_take, Nat.min_l by lia.
    by rewrite ends_app, map_app, take_app_length' by (by rewrite length_map).
  - intros Hpd Ht. rewrite (tracked_trk _ _ _ _ _ (v_wire _ _ _ _ _ Hv)) in Ht.
    pose proof (wired_len _ _ _ _ _ (fw_wired _ _ _ _ _ _ _ _ _ (v_wire _ _ _ _ _ Hv))) as [_ Hlen].
    replace (n_acked w) with (n_rcvd w) by lia. split; [by rewrite <- (length_map i_msg), firstn_all|].
    replace (Z.to_nat (n_rcvd w)) with (length hist) by (unfold alen in *; lia). rewrite firstn_all. by eapply all_ended.
Qed.


End world.
End Transfer.
