(* ===== verification/TransferRuns.v ===== *)
(** * Runs of the transfer

    The steps of [Transfer.v] as a function, and a run of it: a message of three
    chunks of which one is lost, its retransmission, and a second message that
    takes the next buffer. *)

From S2P Require Import Prelude Float64 Csn Queues TimingWheel Cc Pcb SharedIo Eqds Flow Timer Sender SenderSpec SenderInv Retransmit ChunkLoop OneSided Contexts SenderExamples Receiver ReceiverSpec Wire Transfer.

Module TransferRuns.
Import Flow Tx TxSpec TxInv Rtx Wire Transfer.

Inductive event :=
| Supply (u : Z)
| Request (u : Z) (q : sreq)
| Send (now u : Z)
| Deliver (k : nat) (ts t4 qpn a : Z)
| Lose (k : nat)
| Ack (t4 : Z)
| RxAck (k : nat) (t5 t6 now1 now2 : Z)
| Timeout (now : Z).

Section exec.
Context {CC X P : Type} `{TxHooks CC X} `{!TxLaws CC X} `{PoolOps P}.
Context {CR XR PR : Type} `{RxHooks CR XR} `{!PoolOps PR}.
Context (scfg : config) (rcfg : Rx.config) (phi : Z).
Context (rtt_okb : Z -> CC -> bool) (rtt_okb_ok : forall t c, rtt_okb t c = true -> rtt_ok t c).
Local Abbreviation world := (@world CC X P CR XR PR).

Definition exec (e : event) (w : world) : option world :=
  let '(MkWorld s r nt ak na nr ff rq pd wr) := w in
  match e with
  | Supply u =>
      q ← Rx.ureqs r !! u;
      if decide (Flow.context q = phi) then
        match Rx.supply_rx_buff u r with
        | Done (o, r') => Some (MkWorld s r' nt ak na nr (ff ++ from_option (fun rid => [(u, rid)]) [] o) rq pd wr)
        | Fail _ => None
        end
      else None
  | Request u q =>
      match pd !! u, aget ff (alen rq) with
      | None, Some (_, k) =>
          if decide (k = rid q /\ context q = phi /\ sent_offset q = 0 /\ 0 <= data_len q < 2 ^ 31) then
            Some (MkWorld (set_sureqs (<[u := q]> (sureqs s)) s) r nt ak na nr ff (rq ++ [(u, q)]) (<[u := alen rq]> pd) wr)
          else None
      | _, _ => None
      end
  | Send now u =>
      _ ← pd !! u;
      match senderCC_tx_message scfg now u s with
      | Done (b, s') =>
          if decide (tracked phi s' < 128) then
            Some (MkWorld s' r (nt ++ emit na s s') ak na nr ff rq (if b then delete u pd else pd) wr)
          else None
      | Fail _ => None
      end
  | Deliver k ts t4 qpn a =>
      '(t, p) ← nt !! k;
      if decide (Forall (fun y => qp_of y.2 <> qp_of p) (take k nt) /\ nr <= t + 128) then
        match p with
        | PostWrite _ x =>
            match Rx.uc_rx_chunk rcfg ts t4 (Rx.MkCqe (sge_length x) (imm_data x) qpn) r with
            | Done r' => Some (MkWorld s r' (take k nt ++ drop (S k) nt) ak na (nr + progress phi r r') ff rq pd
                           (wr ++ [(remote_addr x, sge_addr x, sge_length x)]))
            | Fail _ => None
            end
        | PostRtx _ _ remote imm addr len =>
            match Rx.uc_rx_rtx_chunk rcfg (Rx.MkCqe (len + Rx.sizeof_retr_chunk_hdr) imm qpn) a (Rx.MkRetrHdr remote imm) r with
            | Done r' => Some (MkWorld s r' (take k nt ++ drop (S k) nt) ak na (nr + progress phi r r') ff rq pd
                           (wr ++ copied r r' (remote, addr, len)))
            | Fail _ => None
            end
        end
      else None
  | Lose k => _ ← nt !! k; Some (MkWorld s r (take k nt ++ drop (S k) nt) ak na nr ff rq pd wr)
  | Ack t4 => f ← Rx.receiver_flow_tbl_ r !! phi; Some (MkWorld s r nt (ak ++ [(nr, Rx.sack_header rcfg t4 f)]) na nr ff rq pd wr)
  | RxAck k t5 t6 now1 now2 =>
      '(t, h) ← ak !! k; f ← sender_flow_tbl_ s !! phi;
      if decide (na < t + 128) then
        if rtt_okb t6 (Pcb.cc (pcb f)) then
          match uc_rx_ack scfg t5 t6 now1 now2 h s with
          | Done s' => Some (MkWorld s' r (nt ++ emit na s s') ak (na + (tracked phi s - tracked phi s')) nr ff rq pd wr)
          | Fail _ => None
          end
        else None
      else None
  | Timeout now =>
      match handle_rto scfg now phi s with
      | Done s' => Some (MkWorld s' r (nt ++ emit na s s') ak na nr ff rq pd wr)
      | Fail _ => None
      end
  end.

Fixpoint execs (l : list event) (w : world) : option world :=
  match l with [] => Some w | e :: l => w' ← exec e w; execs l w' end.

Lemma event_is_step e w w' : exec e w = Some w' -> step scfg rcfg phi w w'.
Proof.
  destruct w as [s r nt ak na nr ff rq pd wr], e as [u|u q|now u|k ts t4 qpn a|k|t4|k t5 t6 now1 now2|now]; cbn [exec]; intros E.
  - apply bind_Some in E as (q & Hq & E). case_decide; [|done]. destruct (Rx.supply_rx_buff u r) as [[o r']|] eqn:Es; [|done].
    injection E as <-. by econstructor.
  - destruct (pd !! u) eqn:Eu; [done|]. destruct (aget ff (alen rq)) as [[v k]|] eqn:Ef; [|done].
    case_decide as Hd; [|done]. destruct Hd as (-> & ? & ? & ?). injection E as <-. by econstructor.
  - apply bind_Some in E as (i & Hi & E). destruct (senderCC_tx_message _ _ _ _) as [[b s']|] eqn:Es; [|done].
    case_decide; [|done]. injection E as <-. by econstructor.
  - apply bind_Some in E as ([t p] & Hk & E). case_decide as Hd; [|done]. destruct Hd as [Hq Ht].
    rewrite <- (take_drop_middle _ _ _ Hk) at 1.
    destruct p; [destruct (Rx.uc_rx_chunk _ _ _ _ _) eqn:Er|destruct (Rx.uc_rx_rtx_chunk _ _ _ _ _) eqn:Er]; try done;
      injection E as <-; by econstructor.
  - apply bind_Some in E as (x & Hk & [= <-]). rewrite <- (take_drop_middle _ _ _ Hk) at 1. constructor.
  - apply bind_Some in E as (f & Hf & [= <-]). by constructor.
  - apply bind_Some in E as ([t h] & Hk & E). apply bind_Some in E as (f & Hf & E). case_decide; [|done].
    destruct (rtt_okb _ _) eqn:Eb; [|done]. destruct (uc_rx_ack _ _ _ _ _ _ _) as [s'|] eqn:Es; [|done]. injection E as <-.
    econstructor; [by eapply list_elem_of_lookup_2|done|done|by apply rtt_okb_ok|done].
  - destruct (handle_rto _ _ _ _) as [s'|] eqn:Es; [|done]. injection E as <-. by econstructor.
Qed.

Lemma events_run l : forall w w', execs l w = Some w' -> rtc (step scfg rcfg phi) w w'.
Proof.
  induction l as [|e l IH]; intros w w'; cbn [execs]; [by intros [= ->]|].
  intros (w1 & E1 & E2)%bind_Some. eapply rtc_l; [by eapply event_is_step|auto].
Qed.
End exec.

(** ** A run *)

Definition rtt_okb (t : Z) (c : Ctx.cc) : bool :=
  (1000000000 <=? t) && (Timely.last_update_tsc_ (Ctx.timely_cc c) <=? t).

Definition rpool (base : Z) : BuffPool.t := BuffPool.BuffPool base 16 576.
Definition receiver0 : Rx.rctx unit unit BuffPool.t :=
  Rx.MkRctx {[ 5 := SubUcclFlow_init 5 2 0 (replicate 16 zero_req) tt ]} []
    {[ 60 := MkUreq 5 200000 0; 61 := MkUreq 5 200000 0 ]} tt
    (Io.MkIo (rpool 65536) (rpool 131072) (rpool 196608) (rpool 262144) ∅ ∅
       (replicate 8 (Io.MkAckWr 0 0 0 0 false false)) 0 0 0 0 [] [] []) [] [] [].

Definition big : sreq := MkSreq 5 150000 1048576 2097152 11 12 0 0 0 0.
Definition small : sreq := MkSreq 5 1000 3145728 4194304 11 12 1 0 0 0.

Definition w0 : @world Ctx.cc unit BuffPool.t unit unit BuffPool.t := initial (TxExample.start tt) receiver0.
(** The first chunk is lost, the others arrive out of order and are acknowledged;
    the timeout retransmits the first one, its acknowledgement completes the
    message while the second is under way, and the second follows. *)
Definition events1 : list event :=
  [Supply 60; Supply 61; Request 80 big; Request 81 small; Send 2000 80; Lose 0;
   Deliver 1 100 200 17 0; Deliver 0 110 210 17 0; Ack 220; RxAck 0 1000 1000000000 3000 3100; Timeout 5000].
Definition events2 : list event :=
  [Deliver 0 120 230 17 12288; Ack 240; Send 6000 81; RxAck 1 1100 1000000100 7000 7100;
   Deliver 0 130 250 17 0; Ack 260; RxAck 2 1200 1000000200 8000 8100].

Definition run l (w : @world Ctx.cc unit BuffPool.t unit unit BuffPool.t) := execs TxExample.cfg RxSpec.Example.cfg 5 rtt_okb l w.
Definition w1 := default w0 (run events1 w0).
Definition w2 := default w0 (run events2 w1).

Lemma rtt_okb_spec t c : rtt_okb t c = true -> rtt_ok t c.
Proof. unfold rtt_okb. intros [? ?]%andb_true_iff. split; lia. Qed.

Lemma reached1 : rtc (step TxExample.cfg RxSpec.Example.cfg 5) w0 w1.
Proof. apply (events_run _ _ _ rtt_okb rtt_okb_spec events1). by vm_compute. Qed.

Lemma reached2 : rtc (step TxExample.cfg RxSpec.Example.cfg 5) w0 w2.
Proof. etrans; [exact reached1|]. apply (events_run _ _ _ rtt_okb rtt_okb_spec events2). by vm_compute. Qed.

Lemma w0_begins : begins TxExample.cfg 5 (TxExample.bufs 4096) 15 (TxExample.start tt) receiver0.
Proof.
  split; [exists TxExample.ws0; split; [apply TxExample.start_sinv|done]|]. split; [done|]. split_and!; [by exists 2%nat, 0, tt|done| |by vm_compute].
  intros psi f Hf. unfold receiver0 in Hf. simpl in Hf. by apply lookup_singleton_Some in Hf as [<- <-].
Qed.

Lemma transfer_reliable_witness :
  (exists msgs k, NoDup msgs /\ Forall (in_memory w2) msgs /\ msgs ≡ₚ [0; 1] /\
    filter (fun x => Rx.wfid x = 5) (Rx.woken (receiver w2)) = map (rcv_wake 5 w2) msgs /\
    swoken (sender w2) = map (snd_wake w2) (take k msgs)) /\
  Rx.woken (receiver w2) = [Rx.MkWake 5 60 150000; Rx.MkWake 5 61 1000] /\ swoken (sender w2) = [80; 81].
Proof.
  split; [|split; vm_compute; reflexivity].
  destruct (transfer_reliable TxExample.cfg RxSpec.Example.cfg 5 (TxExample.bufs 4096) 15 ltac:(lia) eq_refl
    ltac:(by right) ltac:(intros len bl imm rtx k; reflexivity) (TxExample.start tt) receiver0 w2 w0_begins reached2)
    as (msgs & k & H1 & H2 & H3 & H4 & H5). exists msgs, k. split_and!; [exact H1|exact H2| |exact H3|exact H4].
  apply H5; vm_compute; reflexivity.
Defined.


End TransferRuns.
